(* ===== verification/_CoqProject ===== *)
-Q . S2P
Prelude.v
Math.v
Ring.v
Allocator.v
QueueSpec.v
IndexQueue.v
OverflowQueue.v
UniqueIndexSet.v
Container.v
BumpAllocator.v
OneChunkAllocator.v
PoolAllocator.v
ContainerQueue.v
ContainerVec.v
ByteString.v
SemanticString.v
SystemTypes.v
ZeroCopyConnection.v
ShmAllocator.v
Publisher.v
Locks.v
RwLock.v
ConditionVariable.v
UnrestrictedAtomic.v
SpscQueue.v
ReferenceCounter.v
FileReferenceSet.v
UniqueSystemId.v
NamedConcept.v
Posix.v
Processes.v
Files.v
Directory.v
SharedMemory.v
Semaphore.v
PosixMutex.v
TriggerQueue.v
Pthread.v
PortToUds.v
HandleTranslator.v
StaticStorage.v
FileStorage.v
DynamicStorage.v
LocalConnection.v
LocalChannel.v
ShmStorage.v
ShmChannel.v
DynamicConfig.v
ServiceConfig.v
Listing.v
Service.v
ServiceLifecycle.v
EventConcept.v
Connections.v
Subscriber.v
EventPorts.v
