(* ===== verification/Prelude.v ===== *)
(** * iceoryx2: a verification of zero-copy communication

    iceoryx2 moves samples between processes without copying them.  Processes meet at a
    named service: the first one creates it, the others open it, the last one removes
    it.  A publisher of the service loans a sample from a pool in shared memory, writes it
    and sends its offset to every subscriber; a subscriber reads the sample in place and
    sends the offset back; when nobody holds the sample any more the publisher returns it
    to the pool.  Notifiers and listeners of an event service signal ids.  Most of this is
    lock-free or coordinated through files and memory that several processes share.  The
    development models it from the bottom up:

    Building blocks
    - [Math], [Allocator]: [iceoryx2_bb/elementary/src/math.rs] and [allocator.rs], the
      helpers for layouts and the allocator traits (as classes, with the contract the
      clients rely on as a class of laws).
    - [Ring], [QueueSpec], [IndexQueue], [OverflowQueue], [SpscQueue]:
      [iceoryx2_bb/lock_free/src/spsc].  [Ring] has the lemmas on ring buffers the queues
      share, [QueueSpec] the abstract FIFO and the classes [IndexFifo] and [OverflowFifo]
      that the connection is proved against; the index queues are their instances.
    - [UniqueIndexSet], [Container]: [iceoryx2_bb/lock_free/src/mpmc], the lock-free
      list of free indices and the registry of ports on top of it; [UnrestrictedAtomic]:
      [lock_free/src/spmc].
    - [BumpAllocator], [OneChunkAllocator], [PoolAllocator]: [iceoryx2_bb/memory/src],
      instances of the allocator laws; the pool takes its buckets from [UniqueIndexSet].
    - [ContainerQueue], [ContainerVec], [ByteString], [SemanticString]:
      [iceoryx2_bb/container/src]; [SystemTypes]: [iceoryx2_bb/system_types/src].
    - [Locks], [RwLock]: [iceoryx2_pal/concurrency_primitives/src]; [ConditionVariable]:
      [iceoryx2_bb/posix/src/condition_variable.rs]; [TriggerQueue]: the blocking queue of
      [iceoryx2_bb/threadsafe/src], on top of [ContainerQueue] and [Semaphore].

    The operating system
    - [Posix]: not code of the repository but what it relies on, the class of systems
      whose calls answer within what POSIX documents ([PosixLaws]), an executable instance
      of it, and programs over the calls with their weakest preconditions.
    - [Processes]: any number of processes that run such programs, and the rule by which
      a protocol that every program follows yields an invariant of all interleavings.
    - [Files], [Directory], [SharedMemory]: the wrappers of [iceoryx2_bb/posix/src]
      ([file.rs], [file_descriptor.rs], [permission.rs], [metadata.rs], [directory.rs],
      [shared_memory.rs], [memory_lock.rs] and the small files they use); [Semaphore]:
      [semaphore.rs] and the handles of [unmovable_ipc_handle.rs]; [PosixMutex]: [mutex.rs],
      over any answers POSIX allows; [UniqueSystemId]: [unique_system_id.rs] and the names
      built from ids.
    - [Pthread]: the mutex that [iceoryx2_pal/posix/src/macos/pthread.rs] builds from
      [Locks]; [PortToUds], [HandleTranslator]: the names of local sockets and the table of
      descriptors of [iceoryx2_pal/posix/src/windows].

    Concepts of [iceoryx2_cal/src]
    - [NamedConcept]: [named_concept.rs], from names to paths and back.
    - [StaticStorage], [FileStorage]: [static_storage], a value that is written once, in a
      process-local map and in files.
    - [DynamicStorage], [ShmStorage]: [dynamic_storage], a value that participants modify,
      in a process-local map and in shared memory.
    - [ZeroCopyConnection]: [zero_copy_connection], the two queues between a sender and a
      receiver, their creation and the reservation and release of the two ports;
      [LocalConnection]: the same in a process-local map.
    - [LocalChannel], [ShmChannel]: [communication_channel], the channels of a process and
      those in shared memory.
    - [ShmAllocator]: [shm_allocator] and [shared_memory], the pool of samples; the class
      [DataSegment] is what it promises to the publisher.
    - [EventConcept]: [event], with the class [Event] of what the ports rely on.
    - [ReferenceCounter], [FileReferenceSet]: [shared_memory_directory].

    Services and ports of [iceoryx2/src]
    - [ServiceConfig], [DynamicConfig]: the static and the dynamic configuration of a
      service ([service/static_config], [service/dynamic_config], [config.rs]).
    - [Service], [ServiceLifecycle]: the builders ([service/builder]) and the release of a
      service ([service/mod.rs]), as programs over the classes [StaticStorageConcept] and
      [DynamicStorageConcept], alone and with any number of participants.
    - [Listing]: listing and looking up services ([service/mod.rs]) over the storages in
      files, and the settings these take from the global ones ([config_scheme.rs]).
    - [Publisher], [Subscriber], [EventPorts], [Connections]: [port], and the slots of
      connections that subscribers and notifiers keep.

    ** How code is modelled

    A method on [&self] with interior mutability is a function on the record of the
    object's fields that returns the new record.  Such a function returns an [outcome]:
    [Ret], or [Panic] for a panic, an access out of bounds, a read of uninitialised
    memory, or fuel that ran out; a theorem that an operation returns [Ret] therefore
    also excludes these.  Integers are [Z] and every addition, subtraction and
    multiplication that the code leaves to the default operators is checked against the
    width of its type: it panics or wraps depending on [Profile], the build profile, so
    that theorems quantified over [Profile] hold for builds with and without overflow
    checks.  [usize] has 64 bits.  Atomic [fetch_add] and [fetch_sub] wrap.

    Lock-free code is modelled twice: as a sequential function, and as a program
    counter whose every step is one shared access of the code.  Threads interleave
    without restriction ([iact] for any number of threads, [act_step] and
    [run_schedule] for the relation and the executable schedules), and theorems are
    invariants of all reachable states.  Compare-and-swap may fail spuriously where the
    code uses the weak variant.  The memory model is sequentially consistent: the
    orderings named in the code are not modelled, and a defect that only a weaker
    ordering exposes is out of reach here.

    Three components run each operation as one step: the operations of [Publisher] and
    of the subscribers of its samples, and the calls on [LocalConnection] and
    [LocalChannel].  What their interleaving inside a connection adds is the subject of
    [ZeroCopyConnection], [Subscriber] and [OverflowQueue].

    Code that calls a storage or the operating system is a program, a tree of calls with
    continuations, so that other processes can act between any two calls.  A call of the
    operating system may fail at any time with any error, unless a theorem assumes a
    reliable system: one where parent directories exist, permissions suffice, no limit is
    reached and nothing is interrupted, so that calls fail only for reasons that names,
    nodes and descriptors show.  Code outside of the repository is a parameter with named
    laws, and every class of laws has an instance: [Simple] for the operating system,
    the process-local variants for the storages and the event.

    ** What the theorems show

    - Queues: in every interleaving the values popped followed by the content are the
      values pushed ([index_queue_concurrent_fifo]); with overflow every pushed value is
      handed out exactly once, to the consumer or back to the producer
      ([overflow_queue_exactly_once]); the typed queue behaves like the index queue
      ([spsc_queue_equivalent_index_queue]); alone, they refine the abstract FIFO.
    - Index set, registry, atomic: no index is owned twice ([unique_index_set_exclusive]);
      a copy of the registry is brought up to date ([container_update_state]); a value is
      never read torn ([unrestricted_atomic_untorn]).
    - Allocators: chunks are disjoint, aligned, inside the managed memory, for
      concurrent allocation too ([bump_allocator_disjoint]); a data segment created for
      [n] samples serves exactly [n] ([data_segment_serves_samples]).
    - Connection: what every operation returns and changes ([zero_copy_operations]);
      at most one sender and one receiver at any time ([zero_copy_ports_exclusive]); the
      retrieve channel always has room for a release when the sender reclaims before it
      sends ([zero_copy_release_never_refused]); the connections and the channels of a
      process refine registries of lists, for every sequence of calls
      ([local_connection_refines], [local_channel_refines]); a channel in shared memory
      delivers in order and refuses only when it is full ([shm_channel_fifo]).
    - Publisher: the reference counter of every sample equals the number of its holders
      and the free samples are those without one, for every sequence of operations of
      publisher and subscribers ([publisher_counts_holders]); a publisher within its limits
      can always loan ([publisher_loan_succeeds]).  Subscriber: in every interleaving with
      its publishers each sample is accounted for once, and returning it never fails when
      the publishers reclaim before they send ([subscriber_accounts_for_samples]); what receive
      returns and how connections follow the registry ([subscriber_receives_first],
      [subscriber_update_connections]).
    - Events: a notification reaches every listener ([event_ports_deliver]) and wakes it
      ([event_wakes_listener]).
    - Services: with any number of participants, whose accesses to the storages may fail,
      a service has the storages its handles need and the last one removes them
      ([service_lifecycle]); the same over the storages of a process
      ([service_process_local]); creation, opening and drop alone
      ([service_create_open_drop]); opening gives up after
      a bounded time ([service_open_gives_up]); listing finds exactly the services whose
      configuration is published ([service_listing]); requirements are verified
      ([publish_subscribe_requirements]); the memory of the dynamic configuration suffices
      wherever the heap places it ([dynamic_config_fits]).
    - Storages: in every interleaving of processes whose calls may fail, a file is read
      completely or not at all ([file_storage_publishes]) and shared memory is used only
      when it is initialized, within its bounds ([shm_storage_initialized]); alone, what is
      written is read ([file_storage_roundtrip], [static_storage_lifecycle],
      [dynamic_storage_lifecycle], [file_write_read], [file_create_exclusive]).
    - Directory of files in shared memory: a slot has one user at a time
      ([directory_slot_exclusive]), and the life of a file, persistent or not
      ([directory_file_lifecycle]).
    - Names and strings: names are recovered from paths ([named_concept_path_roundtrip]),
      ids are unique while the clock moves on ([unique_system_id_unique]), semantic
      strings stay valid, with every error and panic of an insertion
      ([semantic_string_insert]).
    - Locks: mutual exclusion of the mutex and of both reader-writer locks; a thread
      blocked in the mutex or in the reader-preferring lock is kept out by an owner; the
      semaphore conserves its tokens; the barrier waits for all.  A mutex that reports
      errors has one owner whatever its users call ([pthread_mutex_errorcheck]); a handle is
      initialized once and used only then ([unnamed_semaphore_lifecycle]); guards of a mutex
      that follows POSIX exclude each other also when owners die ([mutex_guards_exclusive]); the trigger queue
      neither panics nor loses a wakeup ([trigger_queue_linearizable]).
    - Platform: descriptors are handed out once and lead to their entries
      ([handle_translator_descriptors]); names of sockets are found, listed and never read
      torn ([port_to_uds_lookup], [port_to_uds_list], [entry_get_consistent]).

    Some theorems state what goes wrong, among them: a schedule in which the two lengths
    [try_send] reads are torn ([zero_copy_race_refuses_release]) and dropping a sample
    panics ([subscriber_panics_on_release]), samples lost with a
    connection ([publisher_leaks_samples]), connections never renewed
    ([publisher_keeps_stale_connection], [subscriber_keeps_stale_connection],
    [event_notifier_misses_listener]), an update of the registry that is never seen
    ([container_lost_update]), a service opened with the configuration of its predecessor
    ([service_opened_with_stale_configuration]), a failed creation that blocks the name
    ([service_creation_abandoned]), two creators of one file
    ([directory_creates_file_twice]), listings that fail while a storage is removed
    ([list_fails_on_concurrent_remove]), locked shared memory that panics when it is
    dropped ([shared_memory_locked_drop_panics]), a wakeup of a writer that is lost
    ([rwlock_writer_lost_wakeup]), mutexes with two owners
    ([pthread_mutex_recursive_two_owners], [pthread_mutex_robust_trylock]), a lock that is
    acquired without a guard ([mutex_timed_lock_leaks]), senders that overwrite each other
    ([shm_channel_two_senders_lose_value]), a reader that never returns
    ([entry_get_never_returns]).

    ** Bounds and fuel

    Positions of the spsc queues are 64-bit counters that never wrap in practice; the
    theorems assume fewer than 2^64 pushes (the connection: 2^62; the publisher with its
    pool: [has_room], about 2^32 loans and returns).  The ABA counter of
    the index set has 32 bits; exclusivity is shown up to 2^32 - 2 swaps, and
    [unique_index_set_counter_overflow] shows what happens then.  Retry loops run with
    fuel in the sequential models: alone, a compare-and-swap succeeds at the first
    attempt, and the theorems prove that the fuel suffices; [reclaim_loop] takes the
    capacity of the retrieve channel plus one, [to_b64_loop] the 22 digits of 128 bits.
    Closing a descriptor is retried while it is interrupted, which may go on for ever: a
    program whose fuel runs out there hangs ([Hang]), theorems on reliable systems exclude
    it with any positive fuel, and theorems on interleavings are about states, which the
    fuel does not restrict.  The loops that wait for a service are bounded by the clock,
    an oracle of elapsed times.

    ** Not modelled

    The other wrappers of system calls ([iceoryx2_bb/posix]: sockets, message queues,
    signals, threads, users and groups, file locks) and the other bindings and emulations
    of [iceoryx2_pal/posix].  The concepts built on them: the channels over message queues
    and sockets, the event over sockets, the reactor; hashing and
    serialisation, which call other libraries.  Logging, the builders that only collect
    arguments.
    Of the publisher the blocking delivery strategy, whose progress depends on another
    process.  Paths are compared by their bytes, permissions of other users do not
    restrict a call, and memory that was mapped is available. *)

From stdpp Require Export base numbers list gmap sets relations.
From Stdlib Require Export ZArith Lia Sorted.

#[export] Set Default Goal Selector "!".
Open Scope Z_scope.

(** ** Outcomes: returning normally or panicking

    [Ret] is a normal return, [Panic] is any Rust panic: [fatal_panic!], an
    out-of-bounds array index, [unwrap] on an error, or an arithmetic overflow in
    a build with overflow checks. *)

Inductive outcome (A : Type) : Type :=
| Ret (a : A)
| Panic.
Arguments Ret {A} a.
Arguments Panic {A}.

(** Rust's [Result<T, E>]. *)
Inductive Result (T E : Type) : Type :=
| Ok (t : T)
| Err (e : E).
Arguments Ok {T E} t.
Arguments Err {T E} e.

Definition outcome_bind {A B} (m : outcome A) (k : A -> outcome B) : outcome B :=
  match m with
  | Ret a => k a
  | Panic => Panic
  end.

Definition is_ret {A} (m : outcome A) : bool :=
  match m with Ret _ => true | Panic => false end.

Declare Scope rust_scope.
Delimit Scope rust_scope with rust.

Notation "'let!' x ':=' m 'in' k" := (outcome_bind m (fun x => k))
  (at level 10, x name, m at level 100, k at level 200,
   format "'[v' 'let!'  x  ':='  m  'in' '/' k ']'") : rust_scope.
Notation "'let!' ' p ':=' m 'in' k" := (outcome_bind m (fun x => match x with p => k end))
  (at level 10, p pattern, m at level 100, k at level 200) : rust_scope.
Open Scope rust_scope.

(** ** Machine integers

    Unsigned integers are elements of [Z]; [usize] is 64 bits wide (the targets
    of the library are 64-bit).  Rust's [+], [-] and [*] on integers panic on
    overflow when the crate is built with overflow checks (cargo's dev and test
    profiles) and wrap around otherwise (the release profile).  The profile is a
    parameter of every definition that uses these operators, so every theorem
    about them holds for both profiles unless it names one. *)

Class Profile := overflow_checks : bool.

Definition dev : Profile := true.
Definition release : Profile := false.

Section arith.
Context `{Profile}.

Definition uadd (w a b : Z) : outcome Z :=
  if a + b <? 2 ^ w then Ret (a + b)
  else if overflow_checks then Panic else Ret ((a + b) mod 2 ^ w).

Definition usub (w a b : Z) : outcome Z :=
  if b <=? a then Ret (a - b)
  else if overflow_checks then Panic else Ret ((a - b) mod 2 ^ w).

Definition umul (w a b : Z) : outcome Z :=
  if a * b <? 2 ^ w then Ret (a * b)
  else if overflow_checks then Panic else Ret ((a * b) mod 2 ^ w).

End arith.

Notation "a '+u64' b" := (uadd 64 a b) (at level 50, left associativity) : rust_scope.
Notation "a '-u64' b" := (usub 64 a b) (at level 50, left associativity) : rust_scope.
Notation "a '*u64' b" := (umul 64 a b) (at level 40, left associativity) : rust_scope.
Notation "a '+u32' b" := (uadd 32 a b) (at level 50, left associativity) : rust_scope.

(** [fetch_add] and [fetch_sub] of the atomic integers wrap in every profile. *)
Definition wrapping_add (w a b : Z) : Z := (a + b) mod 2 ^ w.
Definition wrapping_sub (w a b : Z) : Z := (a - b) mod 2 ^ w.

#[global] Arguments wrapping_add : simpl never.
#[global] Arguments wrapping_sub : simpl never.

(** [x as uN] truncates; [<<] and [>>] at width [w]. *)
Definition cast (w x : Z) : Z := x mod 2 ^ w.
Definition shl (w x n : Z) : Z := Z.shiftl x n mod 2 ^ w.
Definition shr (x n : Z) : Z := Z.shiftr x n.

Definition in_range (w x : Z) : Prop := 0 <= x < 2 ^ w.

(** Arrays: a read or write out of bounds panics. *)
Definition index {A} (l : list A) (i : Z) : outcome A :=
  if i <? 0 then Panic
  else match l !! Z.to_nat i with Some a => Ret a | None => Panic end.

Definition update {A} (l : list A) (i : Z) (a : A) : outcome (list A) :=
  if (i <? 0) || (Z.of_nat (length l) <=? i) then Panic
  else Ret (<[Z.to_nat i := a]> l).

Definition zlength {A} (l : list A) : Z := Z.of_nat (length l).

(** ** Lemmas on outcomes and integers *)

Create HintDb rust discriminated.
Create Rewrite HintDb rust_arith.

Section arith_lemmas.
Context `{Profile}.

Lemma uadd_ok w a b : a + b < 2 ^ w -> uadd w a b = Ret (a + b).
Proof. intros Hlt. unfold uadd. by rewrite (proj2 (Z.ltb_lt _ _) Hlt). Qed.

Lemma usub_ok w a b : b <= a -> usub w a b = Ret (a - b).
Proof. intros Hle. unfold usub. by rewrite (proj2 (Z.leb_le _ _) Hle). Qed.

Lemma umul_ok w a b : a * b < 2 ^ w -> umul w a b = Ret (a * b).
Proof. intros Hlt. unfold umul. by rewrite (proj2 (Z.ltb_lt _ _) Hlt). Qed.

Lemma uadd_range w a b c :
  0 <= w -> in_range w a -> in_range w b -> uadd w a b = Ret c -> in_range w c.
Proof.
  unfold uadd, in_range. intros Hw Ha Hb E.
  destruct (a + b <? 2 ^ w) eqn:Hlt.
  - injection E as <-. apply Z.ltb_lt in Hlt. lia.
  - destruct overflow_checks; [discriminate|]. injection E as <-.
    apply Z.mod_pos_bound. lia.
Qed.

End arith_lemmas.

Lemma outcome_bind_ret {A B} (a : A) (k : A -> outcome B) :
  outcome_bind (Ret a) k = k a.
Proof. reflexivity. Qed.

Lemma outcome_bind_inv {A B} (m : outcome A) (k : A -> outcome B) b :
  outcome_bind m k = Ret b -> exists a, m = Ret a /\ k a = Ret b.
Proof. destruct m; simpl; [eauto|discriminate]. Qed.

Lemma ret_inj {A} (a b : A) : Ret a = Ret b -> a = b.
Proof. by intros [=]. Qed.

Lemma wrapping_add_small w a b : 0 <= a + b < 2 ^ w -> wrapping_add w a b = a + b.
Proof. apply Z.mod_small. Qed.

Lemma wrapping_sub_small w a b : 0 <= a - b < 2 ^ w -> wrapping_sub w a b = a - b.
Proof. apply Z.mod_small. Qed.

Lemma cast_small w x : in_range w x -> cast w x = x.
Proof. apply Z.mod_small. Qed.

(** A disjunction of a multiple of [2^n] and a number below [2^n] is their sum. *)
Lemma lor_add_pow2 a b n : 0 <= n -> 0 <= b < 2 ^ n -> Z.lor (a * 2 ^ n) b = a * 2 ^ n + b.
Proof.
  intros Hn Hb. assert (Hl : Z.land (a * 2 ^ n) b = 0).
  { rewrite <-Z.shiftl_mul_pow2 by lia. apply Z.bits_inj'. intros i Hi.
    rewrite Z.land_spec, Z.bits_0. destruct (Z.lt_ge_cases i n).
    - by rewrite Z.shiftl_spec_low by lia.
    - replace (Z.testbit b i) with false; [by rewrite andb_false_r|]. symmetry.
      destruct (Z.eq_dec b 0) as [->|]; [apply Z.bits_0|].
      apply Z.bits_above_log2; [lia|]. apply Z.log2_lt_pow2; [lia|].
      pose proof (Z.pow_le_mono_r 2 n i). lia. }
  pose proof (Z.add_nocarry_lxor _ _ Hl) as E. rewrite Z.lxor_lor in E by done. lia.
Qed.

Lemma zlength_nonneg {A} (l : list A) : 0 <= zlength l.
Proof. unfold zlength. lia. Qed.

Lemma zlength_app {A} (l k : list A) : zlength (l ++ k) = zlength l + zlength k.
Proof. unfold zlength. rewrite length_app. lia. Qed.

Lemma zlength_zero {A} (l : list A) : zlength l = 0 <-> l = [].
Proof. unfold zlength. destruct l; simpl length; split; (done || lia). Qed.

Lemma zlength_insert {A} (l : list A) i (a : A) : zlength (<[i:=a]> l) = zlength l.
Proof. unfold zlength. by rewrite length_insert. Qed.

Lemma index_lookup {A} (l : list A) i a :
  0 <= i -> l !! Z.to_nat i = Some a -> index l i = Ret a.
Proof. intros Hi E. unfold index. rewrite E. destruct (i <? 0) eqn:?; [lia|done]. Qed.

Lemma index_inv {A} (l : list A) i a :
  index l i = Ret a -> 0 <= i < zlength l /\ l !! Z.to_nat i = Some a.
Proof.
  unfold index, zlength. destruct (i <? 0) eqn:?; [done|].
  destruct (l !! Z.to_nat i) eqn:E; [|done]. intros [= <-].
  apply lookup_lt_Some in E as ?. split; [lia|done].
Qed.

Lemma index_in_bounds {A} (l : list A) i :
  0 <= i < zlength l -> exists a, l !! Z.to_nat i = Some a /\ index l i = Ret a.
Proof.
  unfold zlength. intros Hi. destruct (lookup_lt_is_Some_2 l (Z.to_nat i)) as [a E]; [lia|].
  exists a. split; [done|]. apply index_lookup; [lia|done].
Qed.

Lemma update_ok {A} (l : list A) i (a : A) :
  0 <= i < zlength l -> update l i a = Ret (<[Z.to_nat i := a]> l).
Proof.
  unfold update, zlength. intros Hi.
  destruct (i <? 0) eqn:?, (Z.of_nat (length l) <=? i) eqn:?; simpl; done || lia.
Qed.

Lemma zlength_cons {A} (a : A) l : zlength (a :: l) = 1 + zlength l.
Proof. unfold zlength. simpl length. lia. Qed.

Lemma zlength_take {A} (l : list A) n : 0 <= n <= zlength l -> zlength (take (Z.to_nat n) l) = n.
Proof. unfold zlength. intros Hn. rewrite length_take. lia. Qed.

Lemma zlength_drop {A} (l : list A) n : 0 <= n <= zlength l -> zlength (drop (Z.to_nat n) l) = zlength l - n.
Proof. unfold zlength. intros Hn. rewrite length_drop. lia. Qed.

Lemma take_zlength_app {A} (p q : list A) n : n = zlength p -> take (Z.to_nat n) (p ++ q) = p.
Proof. intros ->. unfold zlength. rewrite Nat2Z.id. apply take_app_length. Qed.

Lemma drop_zlength_app {A} (p q : list A) n : n = zlength p -> drop (Z.to_nat n) (p ++ q) = q.
Proof. intros ->. unfold zlength. rewrite Nat2Z.id. apply drop_app_length. Qed.

Lemma update_app {A} (p q : list A) a v i :
  i = zlength p -> update (p ++ a :: q) i v = Ret (p ++ v :: q).
Proof.
  intros ->. rewrite update_ok.
  - unfold zlength. rewrite Nat2Z.id. by rewrite insert_app_r_alt, Nat.sub_diag by done.
  - rewrite zlength_app. unfold zlength. simpl length. lia.
Qed.

Lemma index_app {A} (p q : list A) a i : i = zlength p -> index (p ++ a :: q) i = Ret a.
Proof.
  intros ->. apply index_lookup; [apply zlength_nonneg|]. unfold zlength. rewrite Nat2Z.id.
  by rewrite lookup_app_r, Nat.sub_diag by done.
Qed.

Lemma index_out {A} (l : list A) i : zlength l <= i -> index l i = Panic.
Proof.
  intros Hi. unfold index, zlength in *. destruct (i <? 0) eqn:E; [done|].
  by rewrite lookup_ge_None_2 by lia.
Qed.

(** Two positions less than [c] apart that share a slot of a ring of [c] slots
    are equal. *)
Lemma mod_window c p q :
  0 < c -> p mod c = q mod c -> - c < p - q < c -> p = q.
Proof.
  intros Hc E Hd. pose proof (Z.div_mod p c ltac:(lia)). pose proof (Z.div_mod q c ltac:(lia)).
  assert (Hk : p - q = c * (p / c - q / c)) by lia.
  assert (p / c - q / c = 0); [|lia].
  destruct (Z.lt_trichotomy (p / c - q / c) 0) as [Hn|[?|Hp]]; [|done|].
  - pose proof (Z.mul_le_mono_nonneg_l (p / c - q / c) (-1) c). lia.
  - pose proof (Z.mul_le_mono_nonneg_l 1 (p / c - q / c) c). lia.
Qed.

Lemma mod_bound c p : 0 < c -> 0 <= p mod c < c.
Proof. apply Z.mod_pos_bound. Qed.

#[export] Hint Rewrite @outcome_bind_ret @zlength_app @zlength_insert @length_insert
  @length_app @length_replicate : rust_arith.
#[export] Hint Resolve zlength_nonneg : rust.

(** ** Automation *)

(** Turns boolean comparisons of the goal and the context into case splits with
    the propositions they decide. *)
Ltac bool_cases :=
  repeat match goal with
  | H : context [if ?b then _ else _] |- _ => destruct b eqn:?; try discriminate
  | |- context [if ?b then _ else _] => destruct b eqn:?; try discriminate
  end.

Ltac bool_to_prop :=
  repeat match goal with
  | H : (_ && _) = true |- _ => apply andb_prop in H; destruct H
  | H : (_ || _) = false |- _ => apply orb_false_elim in H; destruct H
  | H : negb _ = true |- _ => apply negb_true_iff in H
  | H : negb _ = false |- _ => apply negb_false_iff in H
  | H : (_ =? _) = true |- _ => apply Z.eqb_eq in H
  | H : (_ =? _) = false |- _ => apply Z.eqb_neq in H
  | H : (_ <? _) = true |- _ => apply Z.ltb_lt in H
  | H : (_ <? _) = false |- _ => apply Z.ltb_ge in H
  | H : (_ <=? _) = true |- _ => apply Z.leb_le in H
  | H : (_ <=? _) = false |- _ => apply Z.leb_gt in H
  | H : bool_decide _ = true |- _ => apply bool_decide_eq_true in H
  | H : bool_decide _ = false |- _ => apply bool_decide_eq_false in H
  end.

(** Discharges checked arithmetic whose operands provably stay in range. *)
Ltac checked :=
  repeat first
    [ rewrite outcome_bind_ret
    | rewrite uadd_ok by lia
    | rewrite usub_ok by lia
    | rewrite umul_ok by lia ].

(** Inverts a chain of binds that returned. *)
Ltac inv_outcome :=
  repeat match goal with
  | H : outcome_bind _ _ = Ret _ |- _ =>
      apply outcome_bind_inv in H; destruct H as (? & ? & H)
  | H : Ret _ = Ret _ |- _ => injection H as H; try subst
  | H : Panic = Ret _ |- _ => discriminate H
  end.

(** ** Reachability by rule induction *)

Section invariant.
Context {S : Type} (step : S -> S -> Prop).

Lemma rtc_invariant (Inv : S -> Prop) s s' :
  (forall a b, step a b -> Inv a -> Inv b) -> rtc step s s' -> Inv s -> Inv s'.
Proof. intros Hstep Hrtc. induction Hrtc; eauto. Qed.

(** An invariant that holds as long as a monotone measure stays bounded: the
    form every theorem about a counter that must not wrap takes. *)
Lemma rtc_bounded_invariant (m : S -> Z) (B : Z) (Inv : S -> Prop) s s' :
  (forall a b, step a b -> m a <= m b) ->
  (forall a b, step a b -> m b <= B -> Inv a -> Inv b) ->
  rtc step s s' -> Inv s -> m s' <= B -> Inv s'.
Proof.
  intros Hmono Hstep Hrtc.
  assert (Hle : forall a b, rtc step a b -> m a <= m b).
  { induction 1; [lia|]. apply Hmono in H. lia. }
  induction Hrtc as [|a b c Hab Hbc IH]; intros Hi HB; [done|].
  apply IH; [|done]. eapply Hstep; [done| |done]. specialize (Hle _ _ Hbc). lia.
Qed.

End invariant.

(** ** Lists and permutations *)

Lemma lookup_split_perm {A} (l : list A) i a :
  l !! i = Some a -> l ≡ₚ a :: delete i l.
Proof. apply delete_Permutation. Qed.

Lemma insert_perm {A} (l : list A) i a b :
  l !! i = Some a -> <[i := b]> l ≡ₚ b :: delete i l.
Proof.
  intros E. rewrite insert_take_drop by (by eapply lookup_lt_Some).
  rewrite delete_take_drop. by rewrite Permutation_middle.
Qed.

(** Replacing one element of a list changes the concatenation of what the
    elements own by exactly that element's part. *)
Lemma bind_insert_perm {A B} (f : A -> list B) (l : list A) i a b :
  l !! i = Some a ->
  (<[i := b]> l ≫= f) ++ f a ≡ₚ (l ≫= f) ++ f b.
Proof.
  intros E. rewrite (insert_perm l i a b E). rewrite (lookup_split_perm l i a E) at 2.
  rewrite !bind_cons. rewrite <-!app_assoc.
  rewrite (Permutation_app_comm (f b)), (Permutation_app_comm (f a)).
  rewrite <-!app_assoc. by rewrite (Permutation_app_comm (f a) (f b)).
Qed.

Lemma bind_insert_same {A B} (f : A -> list B) (l : list A) i a b :
  l !! i = Some a -> f a = f b -> <[i := b]> l ≫= f ≡ₚ l ≫= f.
Proof.
  intros E Ef. pose proof (bind_insert_perm f l i a b E) as Hp. rewrite Ef in Hp.
  by apply Permutation_app_inv_r in Hp.
Qed.

Lemma StronglySorted_snoc {A} (R : A -> A -> Prop) l a :
  StronglySorted R l -> Forall (fun x => R x a) l -> StronglySorted R (l ++ [a]).
Proof.
  intros Hs. induction Hs as [|x l Hs IH Hx]; intros Hl; cbn; [by repeat constructor|].
  apply Forall_cons in Hl as [Hxa Hl]. constructor; [by apply IH|].
  apply Forall_app. split; [done|]. by constructor.
Qed.

(** Executes one named rule of a step relation at the front of a trace. *)
Tactic Notation "take_step" uconstr(rule) :=
  eapply rtc_l; [eapply rule; reflexivity|cbn].

(** A schedule of actions executed by an executable step function. *)
Section schedule.
Context {A S : Type} (act : A -> S -> option S).

Inductive act_step (s : S) : S -> Prop :=
| act_step_intro a s' : act a s = Some s' -> act_step s s'.

Fixpoint run_schedule (l : list A) (s : S) : option S :=
  match l with
  | [] => Some s
  | a :: l => match act a s with Some s' => run_schedule l s' | None => None end
  end.

Lemma run_schedule_reachable l : forall s s',
  run_schedule l s = Some s' -> rtc act_step s s'.
Proof.
  induction l as [|a l IH]; intros s s' E; cbn in E; [injection E as <-; apply rtc_refl|].
  destruct (act a s) as [t|] eqn:Et; [|done].
  eapply rtc_l; [by eapply act_step_intro|by apply IH].
Qed.

End schedule.

(** ** Interleavings

    Any number of threads over a shared state: in every step the thread named by the
    action performs one atomic action.  The memory model is sequentially
    consistent. *)

Section interleaving.
Context {T G P : Type} (tact : T -> G -> P -> option (G * P)).

Definition iact (a : nat * T) (s : G * list P) : option (G * list P) :=
  match s.2 !! a.1 with
  | Some p =>
      match tact a.2 s.1 p with
      | Some (g, p') => Some (g, <[a.1 := p']> s.2)
      | None => None
      end
  | None => None
  end.

Lemma iact_inv a s s' :
  iact a s = Some s' ->
  exists p p', s.2 !! a.1 = Some p /\ tact a.2 s.1 p = Some (s'.1, p') /\
    s'.2 = <[a.1 := p']> s.2.
Proof.
  unfold iact. destruct (_ !! _) as [p|] eqn:Ep; [|done].
  destruct (tact _ _ _) as [[g p']|] eqn:Et; [|done]. intros [= <-]. by exists p, p'.
Qed.

(** An invariant of the shared state and of every thread, proved thread by
    thread: what a step of one thread does to the others is a separate obligation. *)
Lemma iact_Forall (Q : G -> P -> Prop) a g ps g' p p' :
  Forall (Q g) ps -> ps !! a = Some p -> Q g' p' ->
  (forall j o, j <> a -> ps !! j = Some o -> Q g o -> Q g' o) ->
  Forall (Q g') (<[a := p']> ps).
Proof.
  rewrite !Forall_lookup. intros Hps Ea Hp' Hother j o Ej.
  destruct (decide (j = a)) as [->|Hne].
  - rewrite list_lookup_insert_eq in Ej by (by eapply lookup_lt_Some). by injection Ej as <-.
  - rewrite list_lookup_insert_ne in Ej by done. eauto.
Qed.

End interleaving.

(** What distinct threads own is part of what all threads own. *)
Lemma bind_lookup_two {A B} (f : A -> list B) (l : list A) i j a b x y :
  l !! i = Some a -> l !! j = Some b -> i <> j -> x ∈ f a -> y ∈ f b ->
  NoDup (l ≫= f) -> x <> y.
Proof.
  intros Ei Ej Hne Hx Hy Hnd ->. rewrite (lookup_split_perm l i a Ei) in Hnd.
  rewrite bind_cons in Hnd. apply NoDup_app in Hnd as (_ & Hd & _). apply (Hd y Hx).
  apply list_elem_of_bind. exists b. split; [done|].
  apply (list_elem_of_lookup_2 _ (if decide (j < i)%nat then j else pred j)).
  destruct (decide (j < i)%nat).
  - by rewrite list_lookup_delete_lt by lia.
  - rewrite list_lookup_delete_ge by lia. by replace (S (pred j)) with j by lia.
Qed.

(** ** Counting what the threads hold *)

Section total.
Context {P : Type} (w : P -> Z).

Fixpoint total (ps : list P) : Z :=
  match ps with [] => 0 | p :: ps => w p + total ps end.

Lemma total_insert ps i p p' :
  ps !! i = Some p -> total (<[i := p']> ps) = total ps - w p + w p'.
Proof.
  revert i. induction ps as [|q ps IH]; intros [|i] E; try done.
  - injection E as ->. cbn. lia.
  - change (<[S i := p']> (q :: ps)) with (q :: <[i := p']> ps). cbn [total]. rewrite (IH i E). lia.
Qed.

Hypothesis w_nonneg : forall p, 0 <= w p.

Lemma total_lookup ps i p : ps !! i = Some p -> w p <= total ps.
Proof.
  revert i. induction ps as [|q ps IH]; intros [|i] E; try done; cbn in *.
  - injection E as ->. assert (0 <= total ps); [|lia].
    clear -w_nonneg. induction ps as [|q ps IH]; cbn; [lia|]. specialize (w_nonneg q). lia.
  - specialize (IH i E). specialize (w_nonneg q). lia.
Qed.

Lemma total_nonneg ps : 0 <= total ps.
Proof. induction ps as [|q ps IH]; cbn; [lia|]. specialize (w_nonneg q). lia. Qed.

Lemma total_two ps i j p q :
  ps !! i = Some p -> ps !! j = Some q -> i <> j -> w p + w q <= total ps.
Proof.
  revert i j. induction ps as [|r ps IH]; intros [|i] [|j] Ei Ej Hne; try done; cbn in *.
  - injection Ei as ->. pose proof (total_lookup _ _ _ Ej). lia.
  - injection Ej as ->. pose proof (total_lookup _ _ _ Ei). lia.
  - specialize (IH i j Ei Ej ltac:(congruence)). specialize (w_nonneg r). lia.
Qed.

Lemma total_pos ps : 0 < total ps -> exists i p, ps !! i = Some p /\ 0 < w p.
Proof.
  induction ps as [|q ps IH]; cbn; [lia|]. intros Hpos.
  destruct (Z_lt_dec 0 (w q)); [by exists 0%nat, q|].
  destruct IH as (i & p & E & Hp); [specialize (w_nonneg q); lia|]. by exists (S i), p.
Qed.

End total.

Lemma total_bound {P} (w : P -> Z) k ps : (forall p, w p <= k) -> total w ps <= k * zlength ps.
Proof.
  intros Hw. induction ps as [|q ps IH]; cbn; [unfold zlength; cbn; lia|]. rewrite zlength_cons. specialize (Hw q). nia.
Qed.

Lemma total_replicate {P} (w : P -> Z) n p : w p = 0 -> total w (replicate n p) = 0.
Proof. intros Hw. induction n as [|n IH]; cbn; lia. Qed.

(** [compare_exchange] on an atomic integer: the previous value as [Ok] or [Err], and
    the value afterwards. *)
Definition compare_exchange (cell current new : Z) : Result Z Z * Z :=
  if cell =? current then (Ok cell, new) else (Err cell, cell).
