(* ===== verification/Math.v ===== *)
(** * iceoryx2_bb/elementary/src/math.rs: alignment, powers of two, base-64 names

    The helpers every layout computation and every generated file name goes
    through.  [align] is shown to round up to the least multiple, the power of two
    helpers to be exact, and the base-64 rendering of an integer to be invertible. *)

From S2P Require Import Prelude.

Section math.
Context `{Profile}.

(* src/iceoryx2_bb/elementary/src/math.rs:16-22 align *)
Definition align (value alignment : Z) : outcome Z :=
  if alignment =? 0 then Panic (* remainder by zero *)
  else if value mod alignment =? 0 then Ret value
  else let! s := value +u64 alignment in s -u64 (value mod alignment).

(* src/iceoryx2_bb/elementary/src/math.rs:25-27 align_to *)
Definition align_to (align_of_T value : Z) : outcome Z := align value align_of_T.

(** The [for i in 0..64] loop: [n] iterations remain, [i] is the loop variable. *)
(* src/iceoryx2_bb/elementary/src/math.rs:33-41 log2_of_power_of_2 *)
Fixpoint log2_loop (n : nat) (i bits : Z) : Z :=
  match n with
  | O => 0
  | S n => if bits =? 1 then i else log2_loop n (i + 1) (shr bits 1)
  end.

(* src/iceoryx2_bb/elementary/src/math.rs:30-42 log2_of_power_of_2 *)
Definition log2_of_power_of_2 (value : Z) : Z := log2_loop 64 0 value.

(* src/iceoryx2_bb/elementary/src/math.rs:141-152 round_to_pow2 *)
Definition round_to_pow2 (value : Z) : outcome Z :=
  let! value := value -u64 1 in
  let value := Z.lor value (shr value 1) in
  let value := Z.lor value (shr value 2) in
  let value := Z.lor value (shr value 4) in
  let value := Z.lor value (shr value 8) in
  let value := Z.lor value (shr value 16) in
  let value := Z.lor value (shr value 32) in
  value +u64 1.

End math.

(** Characters are their byte values. *)
(* src/iceoryx2_bb/elementary/src/math.rs:54-66 remainder_to_char *)
Definition remainder_to_char (value : Z) : Z :=
  if value <? 10 then cast 8 (48 + value)
  else if value <? 26 + 10 then cast 8 (65 + value - 10)
  else if value <? 62 then cast 8 (97 + value - 10 - 26)
  else if value =? 62 then 45
  else 95.

(** The [loop] of [to_b64]; [fuel] bounds the number of iterations. *)
(* src/iceoryx2_bb/elementary/src/math.rs:68-79 to_b64 *)
Fixpoint to_b64_loop (fuel : nat) (quotient : Z) : list Z :=
  match fuel with
  | O => []
  | S fuel =>
      let remainder := quotient mod 64 in
      let quotient := quotient / 64 in
      remainder_to_char remainder ::
        (if quotient =? 0 then [] else to_b64_loop fuel quotient)
  end.

(** 22 iterations write 132 bits, which is enough for a [u128]
    ([to_b64_roundtrip]). *)
(* src/iceoryx2_bb/elementary/src/math.rs:49-80 to_b64 *)
Definition to_b64 (self : Z) : list Z := to_b64_loop 22 self.

(** [transmute::<[u8; n], un>] on a little-endian target. *)
(* src/iceoryx2_bb/elementary/src/math.rs:113-130 transmute *)
Fixpoint transmute_le (bytes : list Z) : Z :=
  match bytes with
  | [] => 0
  | b :: bytes => b + 256 * transmute_le bytes
  end.

(** The [while N != i] loop; [rest] is [self[i..N]], so [N - i] is its length. *)
(* src/iceoryx2_bb/elementary/src/math.rs:111-136 to_b64 *)
Fixpoint bytes_to_b64_loop (fuel : nat) (rest : list Z) : list Z :=
  match fuel with
  | O => []
  | S fuel =>
      let chunk n := to_b64 (transmute_le (take n rest)) ++ bytes_to_b64_loop fuel (drop n rest) in
      match rest with
      | [] => []
      | _ =>
          if 16 <? zlength rest then chunk 16%nat
          else if 8 <? zlength rest then chunk 8%nat
          else if 4 <? zlength rest then chunk 4%nat
          else if 2 <? zlength rest then chunk 2%nat
          else chunk 1%nat
      end
  end.

(* src/iceoryx2_bb/elementary/src/math.rs:108-138 to_b64 *)
Definition bytes_to_b64 (self : list Z) : list Z := bytes_to_b64_loop (length self) self.

(** ** The inverse of [to_b64], used to state that it loses nothing *)

Definition char_to_remainder (c : Z) : Z :=
  if c =? 45 then 62
  else if c =? 95 then 63
  else if c <? 58 then c - 48
  else if c <? 91 then c - 65 + 10
  else c - 97 + 36.

Fixpoint from_b64 (s : list Z) : Z :=
  match s with
  | [] => 0
  | c :: s => char_to_remainder c + 64 * from_b64 s
  end.

(** ** Properties *)

Section align_props.
Context `{Profile}.

Lemma align_ok v a :
  0 < a -> 0 <= v -> v + a < 2 ^ 64 ->
  exists r, align v a = Ret r /\ r mod a = 0 /\ v <= r < v + a.
Proof.
  intros Ha Hv Hb. unfold align.
  pose proof (Z.mod_pos_bound v a Ha).
  rewrite (proj2 (Z.eqb_neq a 0)) by lia.
  destruct (v mod a =? 0) eqn:E; bool_to_prop.
  - exists v. repeat split; lia || done.
  - checked. exists (v + a - v mod a). split; [done|]. split; [|lia].
    rewrite Zminus_mod, <-Zplus_mod_idemp_r, Z.mod_same, Z.add_0_r, Zmod_mod by lia.
    by rewrite Z.sub_diag, Z.mod_0_l by lia.
Qed.

(** A multiple of [a] that is at least [v] is at least the aligned value. *)
Lemma align_least v a r m :
  0 < a -> r mod a = 0 -> v <= r < v + a -> m mod a = 0 -> v <= m -> r <= m.
Proof.
  intros Ha Er Hr Em Hm.
  destruct (Z.le_gt_cases r m) as [|Hlt]; [done|]. exfalso.
  assert (r = m); [|lia]. apply (mod_window a); lia.
Qed.

Lemma align_aligned v a : 0 < a -> v mod a = 0 -> align v a = Ret v.
Proof.
  intros Ha E. unfold align. rewrite (proj2 (Z.eqb_neq a 0)) by lia. by rewrite E.
Qed.

Lemma align_inv v a r :
  0 < a -> 0 <= v -> v + a < 2 ^ 64 -> align v a = Ret r -> r mod a = 0 /\ v <= r < v + a.
Proof. intros Ha Hv Hb E. destruct (align_ok v a) as (r' & E' & ?); [done..|]. congruence. Qed.

End align_props.

Lemma char_remainder r : 0 <= r < 64 -> char_to_remainder (remainder_to_char r) = r.
Proof.
  intros Hr. unfold remainder_to_char.
  destruct (r <? 10) eqn:?; [|destruct (r <? 26 + 10) eqn:?; [|destruct (r <? 62) eqn:?;
    [|destruct (r =? 62) eqn:?]]];
    bool_to_prop; rewrite ?cast_small by (unfold in_range; lia);
    unfold char_to_remainder; bool_cases; bool_to_prop; lia.
Qed.

Lemma from_to_b64_loop fuel q :
  0 <= q < 64 ^ Z.of_nat fuel -> from_b64 (to_b64_loop fuel q) = q.
Proof.
  revert q. induction fuel as [|fuel IH]; intros q Hq; [simpl in *; lia|].
  rewrite Nat2Z.inj_succ, Z.pow_succ_r in Hq by lia.
  cbn [to_b64_loop from_b64]. rewrite char_remainder by (apply Z.mod_pos_bound; lia).
  pose proof (Z.div_mod q 64 ltac:(lia)).
  destruct (q / 64 =? 0) eqn:E; bool_to_prop; [cbn [from_b64]; lia|].
  rewrite IH; [lia|]. split; [apply Z.div_pos; lia|]. apply Z.div_lt_upper_bound; lia.
Qed.

Lemma log2_loop_pow n i k :
  0 <= k < Z.of_nat n -> log2_loop n i (2 ^ k) = i + k.
Proof.
  revert i k. induction n as [|n IH]; intros i k Hk; [lia|]. cbn [log2_loop].
  destruct (Z.eq_dec k 0) as [->|Hk0]; [simpl; lia|].
  rewrite (proj2 (Z.eqb_neq _ _)).
  - unfold shr. rewrite Z.shiftr_div_pow2, <-Z.pow_sub_r by lia. rewrite IH; lia.
  - pose proof (Z.pow_gt_1 2 k). lia.
Qed.

(** ** Bit smearing: [x |= x >> k] for k = 1, 2, 4, ... *)

(** [y] has bit [i] exactly if [x] has one of the bits [i .. i + k - 1]. *)
Definition smears (k x y : Z) : Prop :=
  forall i, 0 <= i -> Z.testbit y i = true <-> exists j, 0 <= j < k /\ Z.testbit x (i + j) = true.

Lemma smears_refl x : smears 1 x x.
Proof.
  intros i Hi. split.
  - intros E. exists 0. rewrite Z.add_0_r. split; [lia|done].
  - intros (j & Hj & E). by replace (i + j) with i in E by lia.
Qed.

Lemma smears_double k x y :
  0 < k -> smears k x y -> smears (2 * k) x (Z.lor y (shr y k)).
Proof.
  intros Hk Hy i Hi. unfold shr.
  rewrite Z.lor_spec, Z.shiftr_spec, orb_true_iff, (Hy i), (Hy (i + k)) by lia. split.
  - intros [(j & Hj & E)|(j & Hj & E)]; [exists j|exists (k + j)]; split; try lia; try done.
    by rewrite Z.add_assoc.
  - intros (j & Hj & E). destruct (Z.lt_ge_cases j k); [left; exists j; split; [lia|done]|].
    right. exists (j - k). split; [lia|]. by replace (i + k + (j - k)) with (i + j) by lia.
Qed.

Lemma smears_ones k x y :
  0 < x -> 0 <= y -> Z.log2 x < k -> smears k x y -> y = Z.ones (Z.log2 x + 1).
Proof.
  intros Hx Hy0 Hk Hy. pose proof (Z.log2_nonneg x). apply Z.bits_inj'. intros i Hi.
  destruct (Z.le_gt_cases i (Z.log2 x)).
  - rewrite Z.ones_spec_low by lia. apply Hy; [lia|]. exists (Z.log2 x - i).
    split; [lia|]. replace (i + (Z.log2 x - i)) with (Z.log2 x) by lia. by apply Z.bit_log2.
  - rewrite Z.ones_spec_high by lia. destruct (Z.testbit y i) eqn:E; [|done].
    apply Hy in E as (j & Hj & E); [|lia]. rewrite Z.bits_above_log2 in E by lia. done.
Qed.

Definition smear64 (x : Z) : Z :=
  let x := Z.lor x (shr x 1) in
  let x := Z.lor x (shr x 2) in
  let x := Z.lor x (shr x 4) in
  let x := Z.lor x (shr x 8) in
  let x := Z.lor x (shr x 16) in
  Z.lor x (shr x 32).

Lemma lor_shr_nonneg x k : 0 <= x -> 0 <= Z.lor x (shr x k).
Proof. intros Hx. apply Z.lor_nonneg. split; [done|]. by apply Z.shiftr_nonneg. Qed.

Lemma smear64_ones x : 0 < x < 2 ^ 64 -> smear64 x = Z.ones (Z.log2 x + 1).
Proof.
  intros Hx. apply (smears_ones 64); [lia| |apply Z.log2_lt_pow2; lia|].
  - unfold smear64. by repeat apply lor_shr_nonneg; lia.
  - unfold smear64. apply (smears_double 32); [lia|]. apply (smears_double 16); [lia|].
    apply (smears_double 8); [lia|]. apply (smears_double 4); [lia|].
    apply (smears_double 2); [lia|]. apply (smears_double 1); [lia|]. apply smears_refl.
Qed.

(** ** The properties *)

(** [align] rounds up: for a non-zero alignment and a value whose rounding does
    not leave the address space it returns, without overflowing in either build
    profile, the least multiple of the alignment that is not below the value. *)
Theorem align_rounds_up `{Profile} value alignment :
  0 < alignment -> 0 <= value -> value + alignment < 2 ^ 64 ->
  exists r, align value alignment = Ret r /\ r mod alignment = 0 /\ value <= r /\
    forall m, m mod alignment = 0 -> value <= m -> r <= m.
Proof.
  intros Ha Hv Hb. destruct (align_ok value alignment Ha Hv Hb) as (r & E & Em & Hr).
  exists r. repeat split; [done..|lia|]. intros m Hm Hle. by apply (align_least value alignment).
Qed.

Lemma align_rounds_up_witness :
  exists r, @align dev 13 8 = Ret r /\ r mod 8 = 0 /\ 13 <= r /\
    forall m, m mod 8 = 0 -> 13 <= m -> r <= m.
Proof. apply (@align_rounds_up dev 13 8); lia. Defined.

(** The base-64 rendering of an integer loses nothing: decoding the characters
    [to_b64] produces gives the integer back for every [u128], so two different
    ids never share a generated name. *)
Theorem to_b64_roundtrip v : 0 <= v < 2 ^ 128 -> from_b64 (to_b64 v) = v.
Proof. intros Hv. apply from_to_b64_loop. change (64 ^ Z.of_nat 22) with (2 ^ 132). lia. Qed.

Lemma to_b64_roundtrip_witness : from_b64 (to_b64 (2 ^ 127 + 12345)) = 2 ^ 127 + 12345.
Proof. apply to_b64_roundtrip. lia. Defined.

(** The base-64 rendering of a byte array is not injective: the chunks are
    rendered with as many digits as their value needs and concatenated without a
    separator, so the two arrays [1, 65] and [65, 1] are rendered as the same text. *)
Theorem bytes_to_b64_collides :
  bytes_to_b64 [1; 65] = bytes_to_b64 [65; 1] /\ [1; 65] <> [65; 1].
Proof. split; [reflexivity|discriminate]. Qed.

(** [round_to_pow2] returns the least power of two that is not below its
    argument, for every argument from 1 to 2^63, and [log2_of_power_of_2] inverts
    it: it returns the exponent. *)
Theorem round_to_pow2_least `{Profile} v :
  1 <= v <= 2 ^ 63 ->
  round_to_pow2 v = Ret (2 ^ Z.log2_up v) /\
  log2_of_power_of_2 (2 ^ Z.log2_up v) = Z.log2_up v.
Proof.
  intros Hv.
  assert (Hup : 0 <= Z.log2_up v <= 63).
  { split; [apply Z.log2_up_nonneg|]. apply Z.log2_up_le_pow2; lia. }
  split; [|unfold log2_of_power_of_2; rewrite log2_loop_pow; lia].
  unfold round_to_pow2. checked.
  change (uadd 64 (smear64 (v - 1)) 1 = Ret (2 ^ Z.log2_up v)).
  destruct (Z.eq_dec v 1) as [->|Hv1]; [reflexivity|].
  rewrite smear64_ones by lia.
  assert (El : Z.log2_up v = Z.log2 (v - 1) + 1) by (rewrite Z.log2_up_eqn, Z.sub_1_r by lia; lia).
  rewrite <-El, Z.ones_equiv in *. pose proof (Z.pow_le_mono_r 2 (Z.log2_up v) 63).
  rewrite uadd_ok by lia. f_equal. lia.
Qed.

Lemma round_to_pow2_least_witness :
  @round_to_pow2 dev 8589934597 = Ret (2 ^ Z.log2_up 8589934597) /\
  log2_of_power_of_2 (2 ^ Z.log2_up 8589934597) = Z.log2_up 8589934597.
Proof. apply (@round_to_pow2_least dev 8589934597). lia. Defined.
