(* ===== verification/Ring.v ===== *)
(** * Ring buffers addressed by ever-growing positions

    The three queues of the library ([spsc::index_queue], the overflowing
    [spsc::safely_overflowing_index_queue] and [container::queue]) store element
    number [i] in slot [i mod c] of an array of [c] slots and describe their
    content by two positions.  This file holds what they share: the slot of a
    position, the content between two positions, and how a write to the next slot
    and an advance of the read position change it. *)

From S2P Require Import Prelude.

Section ring.
Context {A : Type}.
Implicit Types (data : list A) (c r w p : Z).

Definition slot c p : nat := Z.to_nat (p mod c).

(** The elements stored between the positions [r] and [w], oldest first. *)
Definition ring_contents c data r w : list A :=
  omap (fun p => data !! slot c p) (seqZ r (w - r)).

(** Slots of the positions from [r] up to [w] hold the elements of [hist], the
    list of everything ever pushed, with those numbers. *)
Definition live c data r w (hist : list A) : Prop :=
  forall p, r <= p < w -> data !! slot c p = hist !! Z.to_nat p.

Lemma slot_lt c p : 0 < c -> (slot c p < Z.to_nat c)%nat.
Proof. intros Hc. unfold slot. pose proof (mod_bound c p Hc). lia. Qed.

Lemma slot_inj c p q : 0 < c -> slot c p = slot c q -> - c < p - q < c -> p = q.
Proof.
  intros Hc E Hd. apply (mod_window c); [done| |done]. unfold slot in E.
  pose proof (mod_bound c p Hc). pose proof (mod_bound c q Hc). lia.
Qed.

Lemma index_slot c data p a :
  0 < c -> data !! slot c p = Some a -> index data (p mod c) = Ret a.
Proof. intros Hc E. apply index_lookup; [|done]. pose proof (mod_bound c p Hc). lia. Qed.

Lemma update_slot c data p a :
  0 < c -> zlength data = c -> update data (p mod c) a = Ret (<[slot c p := a]> data).
Proof. intros Hc El. apply update_ok. pose proof (mod_bound c p Hc). lia. Qed.

(** Writing the slot of the next position does not touch the live window, and
    publishing that position extends it. *)
Lemma live_scribble c data r w hist a :
  0 < c -> w - r < c -> live c data r w hist ->
  live c (<[slot c w := a]> data) r w hist.
Proof.
  intros Hc Hwin Hl p Hp. rewrite list_lookup_insert_ne; [by apply Hl|].
  intros E. apply slot_inj in E; lia.
Qed.

Lemma live_publish c data r w hist a :
  w = zlength hist -> 0 <= r -> data !! slot c w = Some a ->
  live c data r w hist -> live c data r (w + 1) (hist ++ [a]).
Proof.
  intros Ew Hr Ea Hl p Hp. unfold zlength in *. destruct (Z.eq_dec p w) as [->|Hne].
  - rewrite Ea, lookup_app_r by lia.
    by replace (Z.to_nat w - length hist)%nat with 0%nat by lia.
  - rewrite lookup_app_l by lia. apply Hl. lia.
Qed.

Lemma live_advance c data r r' w hist :
  r <= r' -> live c data r w hist -> live c data r' w hist.
Proof. intros Hr Hl p Hp. apply Hl. lia. Qed.

Lemma live_read c data r w hist p :
  w = zlength hist -> 0 <= r -> live c data r w hist -> r <= p < w ->
  exists a, data !! slot c p = Some a /\ hist !! Z.to_nat p = Some a.
Proof.
  intros Ew Hr Hl Hp. unfold zlength in *.
  destruct (lookup_lt_is_Some_2 hist (Z.to_nat p)) as [a E]; [lia|].
  exists a. rewrite Hl by lia. done.
Qed.

(** The content of a live window is the corresponding part of the history. *)
Lemma live_contents_nat c data (n : nat) : forall r w hist,
  n = Z.to_nat (w - r) -> 0 <= r <= w -> w = zlength hist -> live c data r w hist ->
  ring_contents c data r w = drop (Z.to_nat r) hist.
Proof.
  induction n as [|n IH]; intros r w hist En Hr Ew Hl; unfold ring_contents.
  - assert (r = w) as -> by lia. rewrite Z.sub_diag, drop_ge; [done|]. unfold zlength in *. lia.
  - rewrite seqZ_cons by lia. cbn [omap list_omap].
    destruct (live_read c data r w hist r) as (a & -> & Ea); [lia..|done|lia|].
    rewrite (drop_S hist a) by done. f_equal.
    replace (Z.pred (w - r)) with (w - Z.succ r) by lia.
    replace (S (Z.to_nat r)) with (Z.to_nat (Z.succ r)) by lia.
    apply IH; [lia..|]. eapply live_advance; [|done]. lia.
Qed.

Lemma live_contents c data r w hist :
  0 <= r <= w -> w = zlength hist -> live c data r w hist ->
  ring_contents c data r w = drop (Z.to_nat r) hist.
Proof. intros. by eapply live_contents_nat. Qed.

(** ** Content of a ring without a history *)

Lemma ring_contents_empty c data r : ring_contents c data r r = [].
Proof. unfold ring_contents. by rewrite Z.sub_diag. Qed.

Lemma ring_contents_lookup_some c data r w p :
  0 < c -> zlength data = c -> r <= p < w -> is_Some (data !! slot c p).
Proof. intros Hc El Hp. apply lookup_lt_is_Some_2. pose proof (slot_lt c p Hc). unfold zlength in *. lia. Qed.

Lemma ring_contents_length c data r w :
  0 < c -> zlength data = c -> r <= w -> zlength (ring_contents c data r w) = w - r.
Proof.
  intros Hc El Hw. unfold ring_contents.
  remember (w - r) as n eqn:En. assert (Hn : 0 <= n) by lia. clear En Hw w. revert r.
  pattern n. apply natlike_ind; [done| |done]. intros k Hk IH r.
  rewrite seqZ_cons by lia. cbn [omap list_omap].
  destruct (ring_contents_lookup_some c data r (r + 1) r) as [a ->]; [done..|lia|].
  rewrite Z.pred_succ. unfold zlength in *. cbn [length]. rewrite Nat2Z.inj_succ, IH. done.
Qed.

Lemma ring_contents_cons c data r w a :
  r < w -> data !! slot c r = Some a ->
  ring_contents c data r w = a :: ring_contents c data (r + 1) w.
Proof.
  intros Hr E. unfold ring_contents. rewrite seqZ_cons by lia. cbn [omap list_omap].
  rewrite E. by replace (Z.pred (w - r)) with (w - (r + 1)) by lia.
Qed.

Lemma ring_contents_snoc c data r w a :
  0 < c -> zlength data = c -> r <= w -> w - r < c ->
  ring_contents c (<[slot c w := a]> data) r (w + 1) = ring_contents c data r w ++ [a].
Proof.
  intros Hc El Hr Hwin. unfold ring_contents.
  replace (w + 1 - r) with ((w - r) + 1) by lia. rewrite seqZ_app by lia.
  rewrite omap_app. f_equal.
  - apply list_omap_ext. apply Forall_Forall2_diag, Forall_forall.
    intros p Hp%elem_of_seqZ. rewrite list_lookup_insert_ne; [done|].
    intros E. apply slot_inj in E; lia.
  - replace (r + (w - r)) with w by lia. rewrite seqZ_cons by lia. cbn [omap list_omap]. rewrite list_lookup_insert_eq; [done|].
    pose proof (slot_lt c w Hc). unfold zlength in *. lia.
Qed.

(** Overwriting the slot of the oldest position does not affect the rest. *)
Lemma ring_contents_behind c data r w a :
  0 < c -> w - r <= c ->
  ring_contents c (<[slot c r := a]> data) (r + 1) w = ring_contents c data (r + 1) w.
Proof.
  intros Hc Hwin. unfold ring_contents. apply list_omap_ext, Forall_Forall2_diag, Forall_forall.
  intros p Hp%elem_of_seqZ. rewrite list_lookup_insert_ne; [done|].
  intros E. apply slot_inj in E; lia.
Qed.

Lemma ring_contents_lookup c data r w i :
  0 < c -> zlength data = c -> 0 <= i < w - r ->
  ring_contents c data r w !! Z.to_nat i = data !! slot c (r + i).
Proof.
  intros Hc El Hi. remember (Z.to_nat i) as n eqn:En. revert r i En Hi.
  induction n as [|n IH]; intros r i En Hi.
  - destruct (ring_contents_lookup_some c data r w r) as [a Ea]; [done..|lia|].
    rewrite (ring_contents_cons c data r w a) by (lia || done). cbn.
    by replace (r + i) with r by lia.
  - destruct (ring_contents_lookup_some c data r w r) as [a Ea]; [done..|lia|].
    rewrite (ring_contents_cons c data r w a) by (lia || done). cbn.
    etransitivity; [apply (IH (r + 1) (i - 1)); lia|].
    by replace (r + 1 + (i - 1)) with (r + i) by lia.
Qed.

End ring.
