(* ===== verification/Allocator.v ===== *)
(** * iceoryx2_bb/elementary/src/allocator.rs: the allocator traits

    [BaseAllocator] is the trait; the state an implementation keeps behind
    [&self] is passed explicitly.  [AllocatorLaws] is what clients rely on: a
    successful allocation is large enough, aligned, and disjoint from every chunk
    that is still in use.  The bump, one-chunk and pool allocators discharge it in
    their own files. *)

From S2P Require Import Prelude.

Record Layout := { size : Z; layout_align : Z }.

(** [NonNull<[u8]>]: the address and the length of a slice. *)
Record Chunk := { chunk_ptr : Z; chunk_len : Z }.

(* src/iceoryx2_bb/elementary/src/allocator.rs:19-26 AllocationError *)
Inductive AllocationError :=
| SizeIsZero | SizeTooLarge | AlignmentFailure | OutOfMemory | InternalError.

(* src/iceoryx2_bb/elementary/src/allocator.rs:29-37 AllocationGrowError *)
Inductive AllocationGrowError :=
| GrowProvidedPointerNotContainedInAllocator | GrowWouldShrink | GrowSizeIsZero
| GrowOutOfMemory | GrowAlignmentFailure | GrowInternalError.

(* src/iceoryx2_bb/elementary/src/allocator.rs:40-47 AllocationShrinkError *)
Inductive AllocationShrinkError :=
| ShrinkProvidedPointerNotContainedInAllocator | ShrinkWouldGrow | ShrinkSizeIsZero
| ShrinkAlignmentFailure | ShrinkInternalError.

(* src/iceoryx2_bb/elementary/src/allocator.rs:50-54 DeallocationError *)
Inductive DeallocationError :=
| ProvidedPointerNotContainedInAllocator | DeallocationInternalError.

(* src/iceoryx2_bb/elementary/src/allocator.rs:57-86 BaseAllocator *)
Class BaseAllocator (A : Type) := {
  allocate : A -> Layout -> outcome (Result Chunk AllocationError * A);
  deallocate : A -> Z -> Layout -> outcome (Result unit DeallocationError * A);
}.

(* src/iceoryx2_bb/elementary/src/allocator.rs:89-151 Allocator *)
Class Allocator (A : Type) `{BaseAllocator A} := {
  grow : A -> Z -> Layout -> Layout -> outcome (Result Chunk AllocationGrowError);
  shrink : A -> Z -> Layout -> Layout -> outcome (Result Chunk AllocationShrinkError);
}.

(** [std::ptr::write_bytes]: memory is a finite map from addresses to bytes. *)
Definition write_bytes (m : gmap Z Z) (ptr byte len : Z) : gmap Z Z :=
  foldr (fun a m => <[a := byte]> m) m (seqZ ptr len).

(* src/iceoryx2_bb/elementary/src/allocator.rs:64-74 allocate_zeroed *)
Definition allocate_zeroed `{BaseAllocator A} (s : A) (m : gmap Z Z) (layout : Layout)
    : outcome (Result Chunk AllocationError * A * gmap Z Z) :=
  let! '(r, s) := allocate s layout in
  match r with
  | Err e => Ret (Err e, s, m)
  | Ok memory => Ret (Ok memory, s, write_bytes m memory.(chunk_ptr) 0 memory.(chunk_len))
  end.

(* src/iceoryx2_bb/elementary/src/allocator.rs:120-133 grow_zeroed *)
Definition grow_zeroed `{Profile} `{Allocator A} (s : A) (m : gmap Z Z) (ptr : Z)
    (old_layout new_layout : Layout) : outcome (Result Chunk AllocationGrowError * gmap Z Z) :=
  let! r := grow s ptr old_layout new_layout in
  match r with
  | Err e => Ret (Err e, m)
  | Ok memory =>
      let! n := memory.(chunk_len) -u64 old_layout.(size) in
      Ret (Ok memory, write_bytes m (memory.(chunk_ptr) + old_layout.(size)) 0 n)
  end.

(** ** The contract *)

Definition disjoint_chunks (c d : Chunk) : Prop :=
  c.(chunk_ptr) + c.(chunk_len) <= d.(chunk_ptr) \/ d.(chunk_ptr) + d.(chunk_len) <= c.(chunk_ptr).

(** What [std::alloc::Layout] guarantees and every caller of the traits passes. *)
Definition valid_layout (l : Layout) : Prop :=
  0 <= l.(size) /\ exists k, 0 <= k /\ l.(layout_align) = 2 ^ k.

(** Pairwise disjoint chunks. *)
Fixpoint pairwise_disjoint (l : list Chunk) : Prop :=
  match l with
  | [] => True
  | c :: l => Forall (disjoint_chunks c) l /\ pairwise_disjoint l
  end.

(** [alloc_inv s in_use]: [s] is a consistent allocator state and the chunks of
    [in_use] are handed out; [alloc_fits s l]: the addresses computed for a
    request [l] stay below 2^64. *)
Class AllocatorLaws (A : Type) `{BaseAllocator A} := {
  alloc_inv : A -> list Chunk -> Prop;
  alloc_fits : A -> Layout -> Prop;
  allocate_returns : forall s in_use l,
    alloc_inv s in_use -> valid_layout l -> alloc_fits s l ->
    exists r s', allocate s l = Ret (r, s') /\
      match r with
      | Ok c =>
          alloc_inv s' (c :: in_use) /\ l.(size) <= c.(chunk_len) /\
          c.(chunk_ptr) mod l.(layout_align) = 0 /\ Forall (disjoint_chunks c) in_use
      | Err _ => s' = s
      end;
}.

Lemma valid_layout_pos l : valid_layout l -> 0 < l.(layout_align).
Proof. intros (_ & k & Hk & ->). lia. Qed.

Lemma write_bytes_lookup m ptr byte len a :
  write_bytes m ptr byte len !! a =
    if bool_decide (ptr <= a < ptr + len) then Some byte else m !! a.
Proof.
  unfold write_bytes.
  assert (Hgen : forall l, foldr (fun a m => <[a := byte]> m) m l !! a =
    if bool_decide (a ∈ l) then Some byte else m !! a).
  { induction l as [|x l IH]; [done|]. cbn [foldr].
    destruct (decide (x = a)) as [->|Hne].
    - rewrite lookup_insert_eq, bool_decide_eq_true_2; [done|set_solver].
    - rewrite lookup_insert_ne, IH by done.
      rewrite (bool_decide_ext (a ∈ l) (a ∈ x :: l)); [done|].
      rewrite elem_of_cons. split; [by right|by intros [->|]]. }
  rewrite Hgen. rewrite (bool_decide_ext _ (ptr <= a < ptr + len)); [done|].
  rewrite elem_of_seqZ. lia.
Qed.

(** [allocate_zeroed] on any allocator that keeps the contract returns a chunk
    of which every byte is zero and leaves every byte of every other chunk in use
    unchanged. *)
Theorem allocate_zeroed_zeroes {A} {base : BaseAllocator A} {laws : AllocatorLaws A} (s : A) in_use m l c s' m' :
  alloc_inv s in_use -> valid_layout l -> alloc_fits s l ->
  allocate_zeroed s m l = Ret (Ok c, s', m') ->
  (forall a, c.(chunk_ptr) <= a < c.(chunk_ptr) + c.(chunk_len) -> m' !! a = Some 0) /\
  (forall d a, d ∈ in_use -> d.(chunk_ptr) <= a < d.(chunk_ptr) + d.(chunk_len) ->
     m' !! a = m !! a).
Proof.
  intros Hi Hl Hf E. unfold allocate_zeroed in E.
  destruct (allocate_returns s in_use l Hi Hl Hf) as (r & t & Ea & Hr). rewrite Ea in E.
  cbn in E. destruct r as [c'|e]; [|discriminate]. injection E as <- <- <-.
  destruct Hr as (_ & _ & _ & Hd). rewrite Forall_forall in Hd. split.
  - intros a Ha. rewrite write_bytes_lookup. by rewrite bool_decide_eq_true_2.
  - intros d a Hin Ha. specialize (Hd d Hin). unfold disjoint_chunks in Hd.
    rewrite write_bytes_lookup, bool_decide_eq_false_2; [done|lia].
Qed.
