(* ===== verification/QueueSpec.v ===== *)
(** * What the index queues promise to their users

    The two single-producer single-consumer queues of [iceoryx2_bb/lock_free] carry
    the offsets exchanged by a zero-copy connection.  [spec_push],
    [spec_push_overflow] and [spec_pop] are the abstract bounded FIFO; the classes
    [IndexFifo] and [OverflowFifo] state that an implementation refines it.  The
    connection is proved against the classes, [IndexQueue] and [OverflowQueue]
    provide the instances. *)

From S2P Require Import Prelude.

(** A full queue rejects the value. *)
Definition spec_push {A} (cap : Z) (l : list A) (v : A) : bool * list A :=
  if zlength l <? cap then (true, l ++ [v]) else (false, l).

(** A full queue hands back its oldest value; a queue without any capacity hands
    back the value itself. *)
Definition spec_push_overflow {A} (cap : Z) (l : list A) (v : A) : option A * list A :=
  if zlength l <? cap then (None, l ++ [v])
  else match l with
       | [] => (Some v, [])
       | old :: rest => (Some old, rest ++ [v])
       end.

Definition spec_pop {A} (l : list A) : option A * list A :=
  match l with
  | [] => (None, [])
  | a :: l => (Some a, l)
  end.

(** The positions of the queues count all values ever pushed and must stay below
    2^64; [fifo_pushes] is that count. *)
Class IndexFifo (Q : Type) := {
  fifo_wf : Q -> Prop;
  fifo_contents : Q -> list Z;
  fifo_capacity : Q -> Z;
  fifo_pushes : Q -> Z;
  fifo_len : Q -> outcome Z;
  fifo_push : Q -> Z -> outcome (bool * Q);
  fifo_pop : Q -> outcome (option Z * Q);
  fifo_bounded : forall q, fifo_wf q ->
    0 <= fifo_capacity q /\ zlength (fifo_contents q) <= fifo_capacity q;
  fifo_len_ok : forall q, fifo_wf q -> fifo_len q = Ret (zlength (fifo_contents q));
  fifo_push_ok : forall q v, fifo_wf q -> fifo_pushes q + fifo_capacity q < 2 ^ 64 ->
    exists b q', fifo_push q v = Ret (b, q') /\ fifo_wf q' /\
      (b, fifo_contents q') = spec_push (fifo_capacity q) (fifo_contents q) v /\
      fifo_capacity q' = fifo_capacity q /\
      fifo_pushes q <= fifo_pushes q' <= fifo_pushes q + 1;
  fifo_pop_ok : forall q, fifo_wf q ->
    exists r q', fifo_pop q = Ret (r, q') /\ fifo_wf q' /\
      (r, fifo_contents q') = spec_pop (fifo_contents q) /\
      fifo_capacity q' = fifo_capacity q /\ fifo_pushes q' = fifo_pushes q;
}.

Class OverflowFifo (Q : Type) := {
  ofifo_wf : Q -> Prop;
  ofifo_contents : Q -> list Z;
  ofifo_capacity : Q -> Z;
  ofifo_pushes : Q -> Z;
  ofifo_len : Q -> outcome Z;
  ofifo_is_full : Q -> outcome bool;
  ofifo_push : Q -> Z -> outcome (option Z * Q);
  ofifo_pop : Q -> outcome (option Z * Q);
  ofifo_bounded : forall q, ofifo_wf q ->
    0 <= ofifo_capacity q /\ zlength (ofifo_contents q) <= ofifo_capacity q;
  ofifo_len_ok : forall q, ofifo_wf q -> ofifo_len q = Ret (zlength (ofifo_contents q));
  ofifo_is_full_ok : forall q, ofifo_wf q -> ofifo_pushes q + ofifo_capacity q < 2 ^ 64 ->
    ofifo_is_full q = Ret (zlength (ofifo_contents q) =? ofifo_capacity q);
  ofifo_push_ok : forall q v, ofifo_wf q -> ofifo_pushes q + ofifo_capacity q < 2 ^ 64 ->
    exists r q', ofifo_push q v = Ret (r, q') /\ ofifo_wf q' /\
      (r, ofifo_contents q') = spec_push_overflow (ofifo_capacity q) (ofifo_contents q) v /\
      ofifo_capacity q' = ofifo_capacity q /\
      ofifo_pushes q <= ofifo_pushes q' <= ofifo_pushes q + 1;
  ofifo_pop_ok : forall q, ofifo_wf q ->
    exists r q', ofifo_pop q = Ret (r, q') /\ ofifo_wf q' /\
      (r, ofifo_contents q') = spec_pop (ofifo_contents q) /\
      ofifo_capacity q' = ofifo_capacity q /\ ofifo_pushes q' = ofifo_pushes q;
}.

(** ** Lemmas on the abstract queue *)

Lemma spec_push_length {A} cap (l : list A) v b l' :
  (b, l') = spec_push cap l v -> zlength l' = zlength l + (if b then 1 else 0).
Proof.
  unfold spec_push. intros E. destruct (_ <? _); injection E as -> ->; [|lia].
  by rewrite zlength_app.
Qed.

Lemma spec_pop_some {A} (l l' : list A) a : (Some a, l') = spec_pop l -> l = a :: l'.
Proof. destruct l; simpl; congruence. Qed.

Lemma spec_pop_none {A} (l l' : list A) : (None, l') = spec_pop l -> l = [] /\ l' = [].
Proof. destruct l; simpl; [intros [= ->]; done|congruence]. Qed.

(** Pushing neither invents nor loses a value. *)
Lemma spec_push_overflow_perm {A} cap (l : list A) v r l' :
  (r, l') = spec_push_overflow cap l v -> option_list r ++ l' ≡ₚ v :: l.
Proof.
  unfold spec_push_overflow. intros E.
  destruct (_ <? _); [injection E as -> ->; simpl; by rewrite Permutation_app_comm|].
  destruct l as [|old rest]; injection E as -> ->; simpl; [done|].
  rewrite Permutation_app_comm. simpl. apply Permutation_swap.
Qed.
