(* ===== verification/IndexQueue.v ===== *)
(** * iceoryx2_bb/lock_free/src/spsc/index_queue.rs

    The wait-free single-producer single-consumer queue.  First the operations as
    sequential functions on the queue's state, then the producer and the consumer
    as two threads that interleave at every access to the shared atomics and cells.
    [write_position] and [read_position] only ever grow; element number [p] lives
    in cell [p mod capacity]. *)

From S2P Require Import Prelude Math Ring Allocator QueueSpec.

(** [cells] is the memory [data_ptr] points to. *)
(* src/iceoryx2_bb/lock_free/src/spsc/index_queue.rs:108-118 IndexQueue *)
Record IndexQueue := {
  data_ptr : Z;
  cells : list Z;
  capacity : Z;
  write_position : Z;
  read_position : Z;
  has_producer : bool;
  has_consumer : bool;
  is_memory_initialized : bool;
}.

Definition set_cells (q : IndexQueue) d : IndexQueue :=
  {| data_ptr := q.(data_ptr); cells := d; capacity := q.(capacity);
     write_position := q.(write_position); read_position := q.(read_position);
     has_producer := q.(has_producer); has_consumer := q.(has_consumer);
     is_memory_initialized := q.(is_memory_initialized) |}.
Definition set_write_position (q : IndexQueue) w : IndexQueue :=
  {| data_ptr := q.(data_ptr); cells := q.(cells); capacity := q.(capacity);
     write_position := w; read_position := q.(read_position);
     has_producer := q.(has_producer); has_consumer := q.(has_consumer);
     is_memory_initialized := q.(is_memory_initialized) |}.
Definition set_read_position (q : IndexQueue) r : IndexQueue :=
  {| data_ptr := q.(data_ptr); cells := q.(cells); capacity := q.(capacity);
     write_position := q.(write_position); read_position := r;
     has_producer := q.(has_producer); has_consumer := q.(has_consumer);
     is_memory_initialized := q.(is_memory_initialized) |}.
Definition set_ports (q : IndexQueue) p c : IndexQueue :=
  {| data_ptr := q.(data_ptr); cells := q.(cells); capacity := q.(capacity);
     write_position := q.(write_position); read_position := q.(read_position);
     has_producer := p; has_consumer := c;
     is_memory_initialized := q.(is_memory_initialized) |}.
Definition set_memory (q : IndexQueue) ptr d : IndexQueue :=
  {| data_ptr := ptr; cells := d; capacity := q.(capacity);
     write_position := q.(write_position); read_position := q.(read_position);
     has_producer := q.(has_producer); has_consumer := q.(has_consumer);
     is_memory_initialized := true |}.

(** The owning constructor allocates [ptr] from the heap and zeroes the cells. *)
(* src/iceoryx2_bb/lock_free/src/spsc/index_queue.rs:124-140 new *)
Definition new (ptr cap : Z) : IndexQueue :=
  {| data_ptr := ptr; cells := replicate (Z.to_nat cap) 0; capacity := cap;
     write_position := 0; read_position := 0; has_producer := true; has_consumer := true;
     is_memory_initialized := true |}.

(* src/iceoryx2_bb/lock_free/src/spsc/index_queue.rs:144-154 new_uninit *)
Definition new_uninit (cap : Z) : IndexQueue :=
  {| data_ptr := 0; cells := []; capacity := cap;
     write_position := 0; read_position := 0; has_producer := true; has_consumer := true;
     is_memory_initialized := false |}.

(** [new] of the relocatable queue refers to memory the caller has prepared. *)
(* src/iceoryx2_bb/lock_free/src/spsc/index_queue.rs:180-190 new *)
Definition new_relocatable (cap distance_to_data : Z) (memory : list Z) : IndexQueue :=
  {| data_ptr := distance_to_data; cells := memory; capacity := cap;
     write_position := 0; read_position := 0; has_producer := true; has_consumer := true;
     is_memory_initialized := true |}.

Section operations.
Context `{Profile}.

(* src/iceoryx2_bb/lock_free/src/spsc/index_queue.rs:206-208 const_memory_size *)
Definition const_memory_size (cap : Z) : outcome Z :=
  let! m := 8 *u64 cap in
  let! m := m +u64 8 in
  m -u64 1.

(* src/iceoryx2_bb/lock_free/src/spsc/index_queue.rs:156-178 init *)
Definition init `{BaseAllocator A} (q : IndexQueue) (allocator : A)
    : outcome (Result unit AllocationError * IndexQueue * A) :=
  if q.(is_memory_initialized) then Panic
  else
    let! bytes := 8 *u64 q.(capacity) in
    let! '(r, allocator) := allocate allocator {| size := bytes; layout_align := 8 |} in
    match r with
    | Err e => Ret (Err e, q, allocator)
    | Ok memory =>
        Ret (Ok tt,
             set_memory q memory.(chunk_ptr) (replicate (Z.to_nat q.(capacity)) 0),
             allocator)
    end.

(* src/iceoryx2_bb/lock_free/src/spsc/index_queue.rs:198-202 verify_init *)
Definition verify_init (q : IndexQueue) : outcome unit :=
  if q.(is_memory_initialized) then Ret tt else Panic.

(** The index of the cell; [position % capacity] with capacity 0 panics. *)
(* src/iceoryx2_bb/lock_free/src/spsc/index_queue.rs:210-212 at *)
Definition at_ (q : IndexQueue) (position : Z) : outcome Z :=
  if q.(capacity) =? 0 then Panic else Ret (position mod q.(capacity)).

(* src/iceoryx2_bb/lock_free/src/spsc/index_queue.rs:232-243 acquire_producer *)
Definition acquire_producer (q : IndexQueue) : outcome (bool * IndexQueue) :=
  let! _ := verify_init q in
  if q.(has_producer) then Ret (true, set_ports q false q.(has_consumer))
  else Ret (false, q).

(* src/iceoryx2_bb/lock_free/src/spsc/index_queue.rs:264-275 acquire_consumer *)
Definition acquire_consumer (q : IndexQueue) : outcome (bool * IndexQueue) :=
  let! _ := verify_init q in
  if q.(has_consumer) then Ret (true, set_ports q q.(has_producer) false)
  else Ret (false, q).

(* src/iceoryx2_bb/lock_free/src/spsc/index_queue.rs:72-76 drop *)
Definition drop_producer (q : IndexQueue) : IndexQueue := set_ports q true q.(has_consumer).

(* src/iceoryx2_bb/lock_free/src/spsc/index_queue.rs:92-96 drop *)
Definition drop_consumer (q : IndexQueue) : IndexQueue := set_ports q q.(has_producer) true.

(* src/iceoryx2_bb/lock_free/src/spsc/index_queue.rs:283-300 push *)
Definition push (q : IndexQueue) (value : Z) : outcome (bool * IndexQueue) :=
  let w := q.(write_position) in
  let! full_at := q.(read_position) +u64 q.(capacity) in
  if w =? full_at then Ret (false, q)
  else
    let! i := at_ q w in
    let! d := update q.(cells) i value in
    let! w' := w +u64 1 in
    Ret (true, set_write_position (set_cells q d) w').

(* src/iceoryx2_bb/lock_free/src/spsc/index_queue.rs:307-323 pop *)
Definition pop (q : IndexQueue) : outcome (option Z * IndexQueue) :=
  let r := q.(read_position) in
  if r =? q.(write_position) then Ret (None, q)
  else
    let! i := at_ q r in
    let! value := index q.(cells) i in
    let! r' := r +u64 1 in
    Ret (Some value, set_read_position q r').

(** Without interference the second pair of loads equals the first one; the loop
    under interference is the observer thread below. *)
(* src/iceoryx2_bb/lock_free/src/spsc/index_queue.rs:325-336 acquire_read_and_write_position *)
Definition acquire_read_and_write_position (q : IndexQueue) : Z * Z :=
  (q.(write_position), q.(read_position)).

(* src/iceoryx2_bb/lock_free/src/spsc/index_queue.rs:341-344 is_empty *)
Definition is_empty (q : IndexQueue) : bool :=
  let '(w, r) := acquire_read_and_write_position q in w =? r.

(* src/iceoryx2_bb/lock_free/src/spsc/index_queue.rs:349-352 len *)
Definition len (q : IndexQueue) : outcome Z :=
  let '(w, r) := acquire_read_and_write_position q in w -u64 r.

(* src/iceoryx2_bb/lock_free/src/spsc/index_queue.rs:362-365 is_full *)
Definition is_full (q : IndexQueue) : outcome bool :=
  let '(w, r) := acquire_read_and_write_position q in
  let! f := r +u64 q.(capacity) in Ret (w =? f).

(** The fixed-size queue keeps its zeroed cells behind the header, [header_size]
    bytes after the aligned end of which [data_ptr] points. *)
(* src/iceoryx2_bb/lock_free/src/spsc/index_queue.rs:388-399 FixedSizeIndexQueue::new *)
Definition fixed_size_new (header_size CAPACITY : Z) : outcome IndexQueue :=
  let! distance := align_to 8 header_size in
  Ret (new_relocatable CAPACITY distance (replicate (Z.to_nat CAPACITY) 0)).

End operations.

(** ** The producer and the consumer as interleaving threads

    Every load, store or cell access of [push] and [pop] is one step.  An observer
    thread runs [acquire_read_and_write_position] concurrently.  [pushed] and
    [popped] record the values in the order their operation took effect. *)

Inductive producer_pc :=
| PStart (value : Z)                      (** about to load [write_position] *)
| PLoadRead (value w : Z)                 (** about to load [read_position] *)
| PWrite (value w : Z)                    (** about to write the cell *)
| PStore (value w : Z)                    (** about to store [write_position] *)
| PDone (result : bool).

Inductive consumer_pc :=
| CStart
| CLoadWrite (r : Z)
| CRead (r : Z)
| CStore (r value : Z)
| CDone (result : option Z).

Inductive observer_pc :=
| OStart
| OLoadRead (w : Z)
| OReloadWrite (w r : Z)
| OReloadRead (w r : Z)
| ODone (w r : Z).

Section threads.
Context `{Profile}.

(* src/iceoryx2_bb/lock_free/src/spsc/index_queue.rs:283-300 push *)
Definition producer_step (q : IndexQueue) (pc : producer_pc)
    : outcome (IndexQueue * producer_pc) :=
  match pc with
  | PStart v => Ret (q, PLoadRead v q.(write_position))
  | PLoadRead v w =>
      let! full_at := q.(read_position) +u64 q.(capacity) in
      if w =? full_at then Ret (q, PDone false) else Ret (q, PWrite v w)
  | PWrite v w =>
      let! i := at_ q w in
      let! d := update q.(cells) i v in
      Ret (set_cells q d, PStore v w)
  | PStore v w =>
      let! w' := w +u64 1 in
      Ret (set_write_position q w', PDone true)
  | PDone b => Ret (q, PDone b)
  end.

(* src/iceoryx2_bb/lock_free/src/spsc/index_queue.rs:307-323 pop *)
Definition consumer_step (q : IndexQueue) (pc : consumer_pc)
    : outcome (IndexQueue * consumer_pc) :=
  match pc with
  | CStart => Ret (q, CLoadWrite q.(read_position))
  | CLoadWrite r =>
      if r =? q.(write_position) then Ret (q, CDone None) else Ret (q, CRead r)
  | CRead r =>
      let! i := at_ q r in
      let! value := index q.(cells) i in
      Ret (q, CStore r value)
  | CStore r value =>
      let! r' := r +u64 1 in
      Ret (set_read_position q r', CDone (Some value))
  | CDone v => Ret (q, CDone v)
  end.

(* src/iceoryx2_bb/lock_free/src/spsc/index_queue.rs:325-336 acquire_read_and_write_position *)
Definition observer_step (q : IndexQueue) (pc : observer_pc) : observer_pc :=
  match pc with
  | OStart => OLoadRead q.(write_position)
  | OLoadRead w => OReloadWrite w q.(read_position)
  | OReloadWrite w r => if w =? q.(write_position) then OReloadRead w r else OStart
  | OReloadRead w r => if r =? q.(read_position) then ODone w r else OStart
  | ODone w r => ODone w r
  end.

Record system := {
  queue : IndexQueue;
  producer : producer_pc;
  consumer : consumer_pc;
  observer : observer_pc;
  pushed : list Z;
  popped : list Z;
  panicked : bool;
}.

(** The store of the new position is where an operation takes effect. *)
Definition record_push (pc : producer_pc) (l : list Z) : list Z :=
  match pc with PStore v _ => l ++ [v] | _ => l end.
Definition record_pop (pc : consumer_pc) (l : list Z) : list Z :=
  match pc with CStore _ v => l ++ [v] | _ => l end.

Inductive step (s : system) : system -> Prop :=
| step_call_push b v :
    s.(producer) = PDone b ->
    step s {| queue := s.(queue); producer := PStart v; consumer := s.(consumer);
              observer := s.(observer); pushed := s.(pushed); popped := s.(popped);
              panicked := s.(panicked) |}
| step_call_pop r :
    s.(consumer) = CDone r ->
    step s {| queue := s.(queue); producer := s.(producer); consumer := CStart;
              observer := s.(observer); pushed := s.(pushed); popped := s.(popped);
              panicked := s.(panicked) |}
| step_call_len w r :
    s.(observer) = ODone w r ->
    step s {| queue := s.(queue); producer := s.(producer); consumer := s.(consumer);
              observer := OStart; pushed := s.(pushed); popped := s.(popped);
              panicked := s.(panicked) |}
| step_producer q p :
    producer_step s.(queue) s.(producer) = Ret (q, p) ->
    step s {| queue := q; producer := p; consumer := s.(consumer);
              observer := s.(observer);
              pushed := record_push s.(producer) s.(pushed); popped := s.(popped);
              panicked := s.(panicked) |}
| step_consumer q c :
    consumer_step s.(queue) s.(consumer) = Ret (q, c) ->
    step s {| queue := q; producer := s.(producer); consumer := c;
              observer := s.(observer); pushed := s.(pushed);
              popped := record_pop s.(consumer) s.(popped);
              panicked := s.(panicked) |}
| step_observer :
    step s {| queue := s.(queue); producer := s.(producer); consumer := s.(consumer);
              observer := observer_step s.(queue) s.(observer); pushed := s.(pushed);
              popped := s.(popped); panicked := s.(panicked) |}
| step_panic :
    producer_step s.(queue) s.(producer) = Panic \/
    consumer_step s.(queue) s.(consumer) = Panic ->
    step s {| queue := s.(queue); producer := s.(producer); consumer := s.(consumer);
              observer := s.(observer); pushed := s.(pushed); popped := s.(popped);
              panicked := true |}.

(** A fresh queue; the first calls have not been made yet. *)
Definition start (ptr cap : Z) : system :=
  {| queue := new ptr cap; producer := PDone true; consumer := CDone None;
     observer := ODone 0 0; pushed := []; popped := []; panicked := false |}.

(** A thread running alone. *)
Fixpoint run_producer (n : nat) (q : IndexQueue) (pc : producer_pc)
    : outcome (IndexQueue * producer_pc) :=
  match n with
  | O => Ret (q, pc)
  | S n => let! '(q, pc) := producer_step q pc in run_producer n q pc
  end.

Fixpoint run_consumer (n : nat) (q : IndexQueue) (pc : consumer_pc)
    : outcome (IndexQueue * consumer_pc) :=
  match n with
  | O => Ret (q, pc)
  | S n => let! '(q, pc) := consumer_step q pc in run_consumer n q pc
  end.

End threads.

(** The values in the queue, oldest first. *)
Definition contents (q : IndexQueue) : list Z :=
  ring_contents q.(capacity) q.(cells) q.(read_position) q.(write_position).

(** ** Sequential behaviour *)

(** The well-formedness invariant. *)
Record wf (q : IndexQueue) : Prop := {
  wf_capacity : 0 <= q.(capacity);
  wf_cells : zlength q.(cells) = q.(capacity);
  wf_positions : 0 <= q.(read_position) <= q.(write_position);
  wf_window : q.(write_position) <= q.(read_position) + q.(capacity);
  wf_width : q.(write_position) < 2 ^ 64;
}.

Lemma iq_new_wf ptr cap : 0 <= cap -> wf (new ptr cap).
Proof.
  intros Hc. split; cbn; [lia| |lia..]. unfold zlength. rewrite length_replicate. lia.
Qed.

Lemma contents_new ptr cap : contents (new ptr cap) = [].
Proof. apply ring_contents_empty. Qed.

Section sequential.
Context `{Profile}.

Lemma iq_contents_length q : wf q ->
  zlength (contents q) = q.(write_position) - q.(read_position).
Proof.
  intros [Hc Hl Hp Hw _]. destruct (Z.eq_dec q.(capacity) 0) as [E0|].
  - unfold contents. replace q.(write_position) with q.(read_position) by lia.
    by rewrite ring_contents_empty, Z.sub_diag.
  - apply ring_contents_length; [lia|done|lia].
Qed.

Lemma iq_push_refines q v :
  wf q -> q.(write_position) + q.(capacity) < 2 ^ 64 ->
  exists b q', push q v = Ret (b, q') /\ wf q' /\
    (b, contents q') = spec_push q.(capacity) (contents q) v /\
    q'.(capacity) = q.(capacity) /\
    q.(write_position) <= q'.(write_position) <= q.(write_position) + 1.
Proof.
  intros Hwf Hb. pose proof (iq_contents_length q Hwf) as Hlen. pose proof Hwf as Hwf0.
  destruct Hwf as [Hc Hl Hp Hw Hwd]. unfold push, spec_push. rewrite Hlen. checked.
  destruct (write_position q =? _) eqn:Ef; bool_to_prop.
  { exists false, q. rewrite (proj2 (Z.ltb_ge _ _)) by lia. split_and!; try done; lia. }
  rewrite (proj2 (Z.ltb_lt _ _)) by lia. unfold at_.
  rewrite (proj2 (Z.eqb_neq _ _)) by lia. checked. rewrite update_slot by lia. checked.
  exists true. eexists. split; [done|]. split.
  { split; cbn; rewrite ?zlength_insert; lia. }
  split; [|cbn; lia]. unfold contents; cbn. by rewrite ring_contents_snoc by lia.
Qed.

Lemma iq_pop_refines q :
  wf q ->
  exists r q', pop q = Ret (r, q') /\ wf q' /\
    (r, contents q') = spec_pop (contents q) /\
    q'.(capacity) = q.(capacity) /\ q'.(write_position) = q.(write_position).
Proof.
  intros Hwf. pose proof (iq_contents_length q Hwf) as Hlen. pose proof Hwf as Hwf0.
  destruct Hwf as [Hc Hl Hp Hw Hwd]. unfold pop.
  destruct (read_position q =? _) eqn:Ef; bool_to_prop.
  { exists None, q. split_and!; try done.
    rewrite (proj1 (zlength_zero (contents q))) by lia. done. }
  destruct (ring_contents_lookup_some q.(capacity) q.(cells) q.(read_position)
    q.(write_position) q.(read_position)) as [a Ea]; [lia..|].
  unfold at_. rewrite (proj2 (Z.eqb_neq _ _)) by lia. checked.
  rewrite (index_slot _ _ _ a) by (done || lia). checked.
  exists (Some a). eexists. split; [done|]. split; [split; cbn; lia|]. split; [|done].
  unfold contents; cbn. by rewrite (ring_contents_cons _ _ q.(read_position) _ a) by (done || lia).
Qed.

Lemma iq_len_ok q : wf q -> len q = Ret (zlength (contents q)).
Proof.
  intros Hwf. rewrite (iq_contents_length q Hwf). destruct Hwf. unfold len. cbn.
  by rewrite usub_ok by lia.
Qed.

Lemma iq_is_full_ok q : wf q -> q.(write_position) + q.(capacity) < 2 ^ 64 ->
  is_full q = Ret (zlength (contents q) =? q.(capacity)).
Proof.
  intros Hwf Hb. rewrite (iq_contents_length q Hwf). destruct Hwf. unfold is_full. cbn. checked.
  f_equal. apply eq_true_iff_eq. rewrite !Z.eqb_eq. lia.
Qed.

#[export] Instance index_queue_fifo : IndexFifo IndexQueue.
Proof.
  refine {| fifo_wf := wf; fifo_contents := contents; fifo_capacity := capacity;
    fifo_pushes := write_position; fifo_len := len; fifo_push := push; fifo_pop := pop |}.
  - intros q Hq. rewrite (iq_contents_length q Hq). destruct Hq. lia.
  - apply iq_len_ok.
  - apply iq_push_refines.
  - apply iq_pop_refines.
Defined.

(** A thread that runs its steps alone computes [push] and [pop]. *)
Lemma run_producer_push q v :
  run_producer 4 q (PStart v) =
    (let! '(b, q') := push q v in Ret (q', PDone b)).
Proof.
  cbn. unfold push. destruct (read_position q +u64 capacity q) as [f|]; [|done]. cbn.
  destruct (write_position q =? f); [done|]. cbn. destruct (at_ q _) as [i|]; [|done]. cbn.
  destruct (update _ _ _) as [d|]; [|done]. cbn. by destruct (write_position q +u64 1).
Qed.

Lemma run_consumer_pop q :
  run_consumer 4 q CStart =
    (let! '(r, q') := pop q in Ret (q', CDone r)).
Proof.
  cbn. unfold pop. destruct (read_position q =? write_position q); [done|]. cbn.
  destruct (at_ q _) as [i|]; [|done]. cbn.
  destruct (index _ _) as [d|]; [|done]. cbn. by destruct (read_position q +u64 1).
Qed.

End sequential.

(** ** The concurrent invariant *)

Section concurrent.
Context `{Profile}.

Definition producer_ok (q : IndexQueue) (pc : producer_pc) : Prop :=
  match pc with
  | PStart _ | PDone _ => True
  | PLoadRead _ w => w = q.(write_position)
  | PWrite _ w =>
      w = q.(write_position) /\ q.(write_position) < q.(read_position) + q.(capacity)
  | PStore v w =>
      w = q.(write_position) /\ q.(write_position) < q.(read_position) + q.(capacity) /\
      q.(cells) !! slot q.(capacity) q.(write_position) = Some v
  end.

Definition consumer_ok (q : IndexQueue) (hist : list Z) (pc : consumer_pc) : Prop :=
  match pc with
  | CStart | CDone _ => True
  | CLoadWrite r => r = q.(read_position)
  | CRead r => r = q.(read_position) /\ q.(read_position) < q.(write_position)
  | CStore r v =>
      r = q.(read_position) /\ q.(read_position) < q.(write_position) /\
      hist !! Z.to_nat q.(read_position) = Some v
  end.

Definition observer_ok (q : IndexQueue) (pc : observer_pc) : Prop :=
  match pc with
  | OStart => True
  | OLoadRead w => w <= q.(write_position)
  | OReloadWrite w r =>
      w <= q.(write_position) /\ (w = q.(write_position) -> r <= w <= r + q.(capacity))
  | OReloadRead w r | ODone w r => r <= w <= r + q.(capacity)
  end.

Record Inv (cap : Z) (s : system) : Prop := {
  inv_wf : wf s.(queue);
  inv_cap : s.(queue).(capacity) = cap;
  inv_pushed : s.(queue).(write_position) = zlength s.(pushed);
  inv_live : live cap s.(queue).(cells) s.(queue).(read_position)
               s.(queue).(write_position) s.(pushed);
  inv_popped : s.(popped) = take (Z.to_nat s.(queue).(read_position)) s.(pushed);
  inv_producer : producer_ok s.(queue) s.(producer);
  inv_consumer : consumer_ok s.(queue) s.(pushed) s.(consumer);
  inv_observer : observer_ok s.(queue) s.(observer);
  inv_panicked : s.(panicked) = false;
}.

Lemma iq_inv_start ptr cap : 0 <= cap -> Inv cap (start ptr cap).
Proof.
  intros Hc. split; cbn; try done; try lia; [by apply iq_new_wf|]. intros p Hp. lia.
Qed.

(** The memory accesses of a thread whose pc satisfies its part succeed. *)
Lemma iq_producer_step_inv cap s q p :
  Inv cap s -> zlength (record_push s.(producer) s.(pushed)) + cap < 2 ^ 64 ->
  producer_step s.(queue) s.(producer) = Ret (q, p) ->
  Inv cap {| queue := q; producer := p; consumer := s.(consumer); observer := s.(observer);
    pushed := record_push s.(producer) s.(pushed); popped := s.(popped);
    panicked := s.(panicked) |}.
Proof.
  intros [[Hc Hl Hp Hw Hwd] Ec Eh Hlive Epop Hpp Hcc Hoo Epa] HB E.
  destruct s.(producer) as [v|v w|v w|v w|b]; cbn in *; rewrite ?zlength_app in HB.
  - injection E as <- <-. by split.
  - rewrite uadd_ok in E by lia. cbn in E.
    bool_cases; bool_to_prop; injection E as <- <-; split; cbn; try done; lia.
  - destruct Hpp as [-> Hroom]. unfold at_ in E.
    destruct (capacity _ =? 0) eqn:?; [done|]. bool_to_prop. cbn in E.
    rewrite update_slot in E by lia. injection E as <- <-. split; cbn; try done.
    + split; cbn; rewrite ?zlength_insert; lia.
    + rewrite Ec in *. apply live_scribble; [lia..|done].
    + split_and!; [done|lia|]. rewrite list_lookup_insert_eq; [done|].
      pose proof (slot_lt (capacity (queue s)) (write_position (queue s))).
      unfold zlength in *. lia.
  - destruct Hpp as (-> & Hroom & Hcell). cbn in HB. unfold zlength in HB at 2. cbn in HB.
    rewrite uadd_ok in E by lia. injection E as <- <-. rewrite Ec in *.
    pose proof (zlength_app s.(pushed) [v]) as Happ. unfold zlength in Happ at 3. cbn in Happ.
    split; cbn; try done.
    + split; cbn; lia.
    + lia.
    + apply live_publish; [done|lia|done..].
    + rewrite take_app_le; [done|]. unfold zlength in *. lia.
    + destruct s.(consumer); cbn in *; try done; [lia|].
      destruct Hcc as (-> & ? & ?). split_and!; [done|lia|].
      rewrite lookup_app_l; [done|]. unfold zlength in *. lia.
    + destruct s.(observer); cbn in *; try done; lia.
  - injection E as <- <-. by split.
Qed.

Lemma iq_consumer_step_inv cap s q c :
  Inv cap s ->
  consumer_step s.(queue) s.(consumer) = Ret (q, c) ->
  Inv cap {| queue := q; producer := s.(producer); consumer := c; observer := s.(observer);
    pushed := s.(pushed); popped := record_pop s.(consumer) s.(popped);
    panicked := s.(panicked) |}.
Proof.
  intros [[Hc Hl Hp Hw Hwd] Ec Eh Hlive Epop Hpp Hcc Hoo Epa] E.
  destruct s.(consumer) as [|r|r|r v|b]; cbn in *.
  - injection E as <- <-. by split.
  - bool_cases; bool_to_prop; injection E as <- <-; split; cbn; try done; lia.
  - destruct Hcc as [-> Hne]. unfold at_ in E.
    destruct (capacity _ =? 0) eqn:?; [done|]. bool_to_prop. cbn in E. rewrite Ec in *.
    destruct (live_read cap (cells (queue s)) (read_position (queue s))
      (write_position (queue s)) s.(pushed) (read_position (queue s)))
      as (a & Ea & Eh'); [lia..|done|lia|].
    rewrite (index_slot _ _ _ a) in E by (done || lia). injection E as <- <-.
    split; cbn; try done. split; cbn; lia.
  - destruct Hcc as (-> & Hne & Ev). rewrite uadd_ok in E by lia. injection E as <- <-.
    split; cbn; try done.
    + split; cbn; lia.
    + eapply live_advance; [|done]. lia.
    + replace (Z.to_nat (read_position (queue s) + 1))
        with (S (Z.to_nat (read_position (queue s)))) by lia.
      by rewrite (take_S_r _ _ v), Epop.
    + destruct s.(producer); cbn in *; try done; intuition lia.
  - injection E as <- <-. by split.
Qed.

Lemma iq_no_panic cap s :
  Inv cap s -> zlength s.(pushed) + cap < 2 ^ 64 ->
  is_ret (producer_step s.(queue) s.(producer)) = true /\
  is_ret (consumer_step s.(queue) s.(consumer)) = true.
Proof.
  intros [[Hc Hl Hp Hw Hwd] Ec Eh Hlive Epop Hpp Hcc Hoo Epa] HB. split.
  - destruct s.(producer) as [v|v w|v w|v w|b]; cbn in *; checked; cbn.
    + done.
    + by destruct (_ =? _).
    + unfold at_. rewrite (proj2 (Z.eqb_neq _ _)) by lia. cbn. by rewrite update_slot by lia.
    + done.
    + done.
  - destruct s.(consumer) as [|r|r|r v|b]; cbn in *; checked; cbn.
    + done.
    + by destruct (_ =? _).
    + unfold at_. rewrite (proj2 (Z.eqb_neq _ _)) by lia. cbn.
      destruct Hcc as [-> Hne].
      destruct (index_in_bounds (cells (queue s))
        (read_position (queue s) mod capacity (queue s))) as (a & _ & ->); [|done].
      pose proof (mod_bound (capacity (queue s)) (read_position (queue s))). lia.
    + done.
    + done.
Qed.

Lemma iq_step_pushed_mono s s' : step s s' -> zlength s.(pushed) <= zlength s'.(pushed).
Proof.
  destruct 1; cbn; try lia. destruct s.(producer); cbn; rewrite ?zlength_app; [lia..| |lia].
  pose proof (zlength_nonneg [value]). lia.
Qed.

Lemma iq_step_inv cap s s' :
  step s s' -> zlength s'.(pushed) <= 2 ^ 64 - 1 - cap -> Inv cap s -> Inv cap s'.
Proof.
  intros Hstep HB Hinv. pose proof (iq_step_pushed_mono _ _ Hstep).
  destruct (iq_no_panic cap s Hinv) as [Hpr Hco]; [lia|].
  destruct Hstep as [b v E|r E|w r E|q p E|q c E| |E]; cbn in *.
  - destruct Hinv; by split.
  - destruct Hinv; by split.
  - destruct Hinv; by split.
  - apply iq_producer_step_inv; [done|lia|done].
  - by apply iq_consumer_step_inv.
  - destruct Hinv as [[Hc Hl Hp Hw Hwd] Ec Eh Hlive Epop Hpp Hcc Hoo Epa]. split; cbn; try done.
    destruct s.(observer); cbn in *; bool_cases; bool_to_prop; cbn; lia.
  - destruct E as [E|E]; by rewrite E in *.
Qed.

Lemma iq_reachable_inv ptr cap s :
  0 <= cap -> rtc step (start ptr cap) s -> zlength s.(pushed) + cap < 2 ^ 64 -> Inv cap s.
Proof.
  intros Hc Hr HB.
  apply (rtc_bounded_invariant step (fun s => zlength s.(pushed)) (2 ^ 64 - 1 - cap)
    (Inv cap) (start ptr cap)); [apply iq_step_pushed_mono|apply iq_step_inv|done|by apply iq_inv_start|lia].
Qed.

Lemma inv_contents cap s : Inv cap s -> s.(pushed) = s.(popped) ++ contents s.(queue).
Proof.
  intros [[Hc Hl Hp Hw Hwd] Ec Eh Hlive Epop _ _ _ _]. unfold contents. rewrite Ec.
  rewrite (live_contents cap _ _ _ s.(pushed)) by (done || lia). rewrite Epop.
  by rewrite take_drop.
Qed.

End concurrent.

(** ** Properties *)

(** C1: In every interleaving of a producer, a consumer and a thread reading the
    positions, as long as fewer than 2^64 - capacity values have been pushed: no
    step panics or leaves the cell array, the values popped so far followed by the
    queue's content are exactly the values pushed so far (nothing is lost,
    duplicated, reordered or torn), and the content never exceeds the capacity. *)
Theorem index_queue_concurrent_fifo `{Profile} ptr cap s :
  0 <= cap -> rtc step (start ptr cap) s -> zlength s.(pushed) + cap < 2 ^ 64 ->
  s.(panicked) = false /\
  s.(pushed) = s.(popped) ++ contents s.(queue) /\
  zlength (contents s.(queue)) <= cap.
Proof.
  intros Hc Hr HB. pose proof (iq_reachable_inv ptr cap s Hc Hr HB) as Hi.
  split_and!; [apply Hi|by eapply inv_contents|].
  rewrite iq_contents_length by apply Hi. destruct Hi as [[] ? _ _ _ _ _ _ _]. lia.
Qed.

(** The producer fills the only cell, the consumer reads it while the producer
    already tries the next value. *)
Lemma index_queue_concurrent_fifo_witness :
  exists s, rtc (step (H := dev)) (start 0 1) s /\
    s.(popped) = [7] /\ s.(producer) = PDone false /\
    s.(pushed) = s.(popped) ++ contents s.(queue).
Proof.
  assert (Hex : exists s, rtc (step (H := dev)) (start 0 1) s /\ s.(popped) = [7] /\
    s.(producer) = PDone false /\ zlength s.(pushed) + 1 < 2 ^ 64).
  { eexists. split.
    { take_step (step_call_push (H := dev) _ true 7).
    take_step (step_producer (H := dev)). take_step (step_producer (H := dev)).
    take_step (step_producer (H := dev)). take_step (step_producer (H := dev)).
    take_step (step_call_pop (H := dev)). take_step (step_call_push (H := dev) _ true 8).
    take_step (step_consumer (H := dev)). take_step (step_consumer (H := dev)).
    take_step (step_producer (H := dev)). take_step (step_consumer (H := dev)).
    take_step (step_producer (H := dev)). take_step (step_consumer (H := dev)).
      apply rtc_refl. }
    split_and!; reflexivity. }
  destruct Hex as (s & Hr & Epop & Epr & HB). exists s. split_and!; [done..|].
  apply (index_queue_concurrent_fifo (H := dev) 0 1 s ltac:(lia) Hr HB).
Defined.

(** Failed operations are justified at the step where they decide: [push]
    returns false only in a state whose queue holds [capacity] values, [pop]
    returns [None] only in a state whose queue is empty; and a pair of positions
    returned by [acquire_read_and_write_position] in any interleaving describes at
    most [capacity] values, so [len] never underflows. *)
Theorem index_queue_concurrent_results `{Profile} ptr cap s :
  0 <= cap -> rtc step (start ptr cap) s -> zlength s.(pushed) + cap < 2 ^ 64 ->
  (forall v w q, s.(producer) = PLoadRead v w ->
     producer_step s.(queue) s.(producer) = Ret (q, PDone false) ->
     zlength (contents s.(queue)) = cap) /\
  (forall r q, s.(consumer) = CLoadWrite r ->
     consumer_step s.(queue) s.(consumer) = Ret (q, CDone None) ->
     contents s.(queue) = []) /\
  (forall w r, s.(observer) = ODone w r -> 0 <= w - r <= cap).
Proof.
  intros Hc Hr HB. pose proof (iq_reachable_inv ptr cap s Hc Hr HB) as Hi.
  pose proof (iq_contents_length s.(queue) (inv_wf _ _ Hi)) as Hlen.
  destruct Hi as [[Hc' Hl Hp Hw Hwd] Ec Eh Hlive Epop Hpp Hcc Hoo Epa]. split_and!.
  - intros v w q Es E. rewrite Es in *. cbn in *. rewrite uadd_ok in E by lia. cbn in E.
    bool_cases. bool_to_prop. lia.
  - intros r q Es E. rewrite Es in *. cbn in *. bool_cases. bool_to_prop.
    apply zlength_zero. lia.
  - intros w r Es. rewrite Es in *. cbn in *. lia.
Qed.

Lemma index_queue_concurrent_results_witness :
  exists s, rtc (step (H := dev)) (start 0 0) s /\
    s.(producer) = PLoadRead 7 0 /\ zlength (contents s.(queue)) = 0.
Proof.
  assert (Hex : exists s, rtc (step (H := dev)) (start 0 0) s /\
    s.(producer) = PLoadRead 7 0 /\ zlength s.(pushed) + 0 < 2 ^ 64 /\
    producer_step (H := dev) s.(queue) s.(producer) = Ret (s.(queue), PDone false)).
  { eexists. split.
    { take_step (step_call_push (H := dev) _ true 7). take_step (step_producer (H := dev)).
      apply rtc_refl. }
    split_and!; reflexivity. }
  destruct Hex as (s & Hr & Epr & HB & Est). exists s. split_and!; [done..|].
  by apply (proj1 (index_queue_concurrent_results (H := dev) 0 0 s ltac:(lia) Hr HB) 7 0 s.(queue)).
Defined.

(** Alone, [push] and [pop] implement the abstract bounded FIFO and finish
    after at most four shared-memory steps of their thread; [push] on a full and
    [pop] on an empty queue change nothing. *)
Theorem index_queue_refines_fifo `{Profile} q v :
  wf q -> q.(write_position) + q.(capacity) < 2 ^ 64 ->
  (exists b q', run_producer 4 q (PStart v) = Ret (q', PDone b) /\
     push q v = Ret (b, q') /\ wf q' /\
     (b, contents q') = spec_push q.(capacity) (contents q) v) /\
  (exists r q', run_consumer 4 q CStart = Ret (q', CDone r) /\
     pop q = Ret (r, q') /\ wf q' /\ (r, contents q') = spec_pop (contents q)).
Proof.
  intros Hwf HB. rewrite run_producer_push, run_consumer_pop. split.
  - destruct (iq_push_refines q v Hwf HB) as (b & q' & -> & ? & ? & _). by exists b, q'.
  - destruct (iq_pop_refines q Hwf) as (r & q' & -> & ? & ? & _). by exists r, q'.
Qed.

Lemma index_queue_refines_fifo_witness :
  let q := new 0 2 in
  exists b q', push (H := dev) q 5 = Ret (b, q') /\ contents q' = [5].
Proof.
  destruct (index_queue_refines_fifo (H := dev) (new 0 2) 5) as [(b & q' & _ & Hp & _ & Hc) _].
  - apply iq_new_wf. lia.
  - reflexivity.
  - exists b, q'. split; [exact Hp|]. rewrite contents_new in Hc.
    change (spec_push _ _ _) with (true, [5]) in Hc. congruence.
Defined.
