(* ===== verification/OverflowQueue.v ===== *)
(** * iceoryx2_bb/lock_free/src/spsc/safely_overflowing_index_queue.rs

    The lock-free single-producer single-consumer queue that evicts its oldest value
    when it is full.  It has [capacity + 1] cells: the producer publishes the new
    value first and then tries to take the oldest one from under the consumer with a
    compare-and-swap on [read_position].  As in [IndexQueue] the operations come
    first as sequential functions, then as interleaving threads. *)

From S2P Require Import Prelude Math Ring Allocator QueueSpec.

(** [cells] is the memory [data_ptr] points to. *)
(* src/iceoryx2_bb/lock_free/src/spsc/safely_overflowing_index_queue.rs:115-125 SafelyOverflowingIndexQueue *)
Record OverflowQueue := {
  data_ptr : Z;
  cells : list Z;
  capacity : Z;
  write_position : Z;
  read_position : Z;
  has_producer : bool;
  has_consumer : bool;
  is_memory_initialized : bool;
}.

Definition set_cells (q : OverflowQueue) d : OverflowQueue :=
  {| data_ptr := q.(data_ptr); cells := d; capacity := q.(capacity);
     write_position := q.(write_position); read_position := q.(read_position);
     has_producer := q.(has_producer); has_consumer := q.(has_consumer);
     is_memory_initialized := q.(is_memory_initialized) |}.
Definition set_write_position (q : OverflowQueue) w : OverflowQueue :=
  {| data_ptr := q.(data_ptr); cells := q.(cells); capacity := q.(capacity);
     write_position := w; read_position := q.(read_position);
     has_producer := q.(has_producer); has_consumer := q.(has_consumer);
     is_memory_initialized := q.(is_memory_initialized) |}.
Definition set_read_position (q : OverflowQueue) r : OverflowQueue :=
  {| data_ptr := q.(data_ptr); cells := q.(cells); capacity := q.(capacity);
     write_position := q.(write_position); read_position := r;
     has_producer := q.(has_producer); has_consumer := q.(has_consumer);
     is_memory_initialized := q.(is_memory_initialized) |}.
Definition set_ports (q : OverflowQueue) p c : OverflowQueue :=
  {| data_ptr := q.(data_ptr); cells := q.(cells); capacity := q.(capacity);
     write_position := q.(write_position); read_position := q.(read_position);
     has_producer := p; has_consumer := c;
     is_memory_initialized := q.(is_memory_initialized) |}.
Definition set_memory (q : OverflowQueue) ptr d : OverflowQueue :=
  {| data_ptr := ptr; cells := d; capacity := q.(capacity);
     write_position := q.(write_position); read_position := q.(read_position);
     has_producer := q.(has_producer); has_consumer := q.(has_consumer);
     is_memory_initialized := true |}.

Section operations.
Context `{Profile}.

(** The owning constructor allocates [ptr] from the heap and zeroes the cells. *)
(* src/iceoryx2_bb/lock_free/src/spsc/safely_overflowing_index_queue.rs:137-153 new *)
Definition new (ptr cap : Z) : outcome OverflowQueue :=
  let! n := cap +u64 1 in
  Ret {| data_ptr := ptr; cells := replicate (Z.to_nat n) 0; capacity := cap;
     write_position := 0; read_position := 0; has_producer := true; has_consumer := true;
     is_memory_initialized := true |}.

(* src/iceoryx2_bb/lock_free/src/spsc/safely_overflowing_index_queue.rs:157-167 new_uninit *)
Definition new_uninit (cap : Z) : OverflowQueue :=
  {| data_ptr := 0; cells := []; capacity := cap;
     write_position := 0; read_position := 0; has_producer := true; has_consumer := true;
     is_memory_initialized := false |}.

(** [new] of the relocatable queue refers to memory the caller has prepared. *)
(* src/iceoryx2_bb/lock_free/src/spsc/safely_overflowing_index_queue.rs:193-203 new *)
Definition new_relocatable (cap distance_to_data : Z) (memory : list Z) : OverflowQueue :=
  {| data_ptr := distance_to_data; cells := memory; capacity := cap;
     write_position := 0; read_position := 0; has_producer := true; has_consumer := true;
     is_memory_initialized := true |}.

(* src/iceoryx2_bb/lock_free/src/spsc/safely_overflowing_index_queue.rs:221-225 const_memory_size *)
Definition const_memory_size (cap : Z) : outcome Z :=
  let! n := cap +u64 1 in
  let! m := 8 *u64 n in
  let! m := m +u64 8 in
  m -u64 1.

(* src/iceoryx2_bb/lock_free/src/spsc/safely_overflowing_index_queue.rs:169-191 init *)
Definition init `{BaseAllocator A} (q : OverflowQueue) (allocator : A)
    : outcome (Result unit AllocationError * OverflowQueue * A) :=
  if q.(is_memory_initialized) then Panic
  else
    let! n := q.(capacity) +u64 1 in
    let! bytes := 8 *u64 n in
    let! '(r, allocator) := allocate allocator {| size := bytes; layout_align := 8 |} in
    match r with
    | Err e => Ret (Err e, q, allocator)
    | Ok memory =>
        Ret (Ok tt, set_memory q memory.(chunk_ptr) (replicate (Z.to_nat n) 0), allocator)
    end.

(* src/iceoryx2_bb/lock_free/src/spsc/safely_overflowing_index_queue.rs:213-217 verify_init *)
Definition verify_init (q : OverflowQueue) : outcome unit :=
  if q.(is_memory_initialized) then Ret tt else Panic.

(** The index of the cell. *)
(* src/iceoryx2_bb/lock_free/src/spsc/safely_overflowing_index_queue.rs:227-229 at *)
Definition at_ (q : OverflowQueue) (position : Z) : outcome Z :=
  let! n := q.(capacity) +u64 1 in Ret (position mod n).

(* src/iceoryx2_bb/lock_free/src/spsc/safely_overflowing_index_queue.rs:250-261 acquire_producer *)
Definition acquire_producer (q : OverflowQueue) : outcome (bool * OverflowQueue) :=
  let! _ := verify_init q in
  if q.(has_producer) then Ret (true, set_ports q false q.(has_consumer))
  else Ret (false, q).

(* src/iceoryx2_bb/lock_free/src/spsc/safely_overflowing_index_queue.rs:282-293 acquire_consumer *)
Definition acquire_consumer (q : OverflowQueue) : outcome (bool * OverflowQueue) :=
  let! _ := verify_init q in
  if q.(has_consumer) then Ret (true, set_ports q q.(has_producer) false)
  else Ret (false, q).

(* src/iceoryx2_bb/lock_free/src/spsc/safely_overflowing_index_queue.rs:74-78 drop *)
Definition drop_producer (q : OverflowQueue) : OverflowQueue :=
  set_ports q true q.(has_consumer).

(* src/iceoryx2_bb/lock_free/src/spsc/safely_overflowing_index_queue.rs:95-99 drop *)
Definition drop_consumer (q : OverflowQueue) : OverflowQueue :=
  set_ports q q.(has_producer) true.

(** [compare_exchange] on [read_position]: the value found when it fails. *)
Definition compare_exchange_read (q : OverflowQueue) (current new : Z)
    : Result unit Z * OverflowQueue :=
  if q.(read_position) =? current then (Ok tt, set_read_position q new)
  else (Err q.(read_position), q).

(* src/iceoryx2_bb/lock_free/src/spsc/safely_overflowing_index_queue.rs:304-336 push *)
Definition push (q : OverflowQueue) (value : Z) : outcome (option Z * OverflowQueue) :=
  let w := q.(write_position) in
  let r := q.(read_position) in
  let! full_at := r +u64 q.(capacity) in
  let is_full := w =? full_at in
  let! i := at_ q w in
  let! d := update q.(cells) i value in
  let! w' := w +u64 1 in
  let q := set_write_position (set_cells q d) w' in
  if is_full then
    let! r' := r +u64 1 in
    let '(res, q) := compare_exchange_read q r r' in
    match res with
    | Ok _ =>
        let! j := at_ q r in
        let! old := index q.(cells) j in
        Ret (Some old, q)
    | Err _ => Ret (None, q)
    end
  else Ret (None, q).

(** The loop of [pop]; without interference its first compare-and-swap succeeds. *)
(* src/iceoryx2_bb/lock_free/src/spsc/safely_overflowing_index_queue.rs:358-376 pop *)
Fixpoint pop_loop (fuel : nat) (q : OverflowQueue) (r : Z) : outcome (option Z * OverflowQueue) :=
  match fuel with
  | O => Panic
  | S fuel =>
      let! i := at_ q r in
      let! value := index q.(cells) i in
      let! r' := r +u64 1 in
      let '(res, q) := compare_exchange_read q r r' in
      match res with
      | Ok _ => Ret (Some value, q)
      | Err v => pop_loop fuel q v
      end
  end.

(* src/iceoryx2_bb/lock_free/src/spsc/safely_overflowing_index_queue.rs:347-377 pop *)
Definition pop (q : OverflowQueue) : outcome (option Z * OverflowQueue) :=
  let r := q.(read_position) in
  if r =? q.(write_position) then Ret (None, q) else pop_loop 1 q r.

(** Without interference the second pair of loads equals the first one. *)
(* src/iceoryx2_bb/lock_free/src/spsc/safely_overflowing_index_queue.rs:379-390 acquire_read_and_write_position *)
Definition acquire_read_and_write_position (q : OverflowQueue) : Z * Z :=
  (q.(write_position), q.(read_position)).

(* src/iceoryx2_bb/lock_free/src/spsc/safely_overflowing_index_queue.rs:395-398 is_empty *)
Definition is_empty (q : OverflowQueue) : bool :=
  let '(w, r) := acquire_read_and_write_position q in w =? r.

(* src/iceoryx2_bb/lock_free/src/spsc/safely_overflowing_index_queue.rs:403-406 len *)
Definition len (q : OverflowQueue) : outcome Z :=
  let '(w, r) := acquire_read_and_write_position q in w -u64 r.

(* src/iceoryx2_bb/lock_free/src/spsc/safely_overflowing_index_queue.rs:416-419 is_full *)
Definition is_full (q : OverflowQueue) : outcome bool :=
  let '(w, r) := acquire_read_and_write_position q in
  let! f := r +u64 q.(capacity) in Ret (w =? f).

(** The fixed-size queue: [CAPACITY] cells and one more behind them. *)
(* src/iceoryx2_bb/lock_free/src/spsc/safely_overflowing_index_queue.rs:443-456 FixedSizeSafelyOverflowingIndexQueue::new *)
Definition fixed_size_new (header_size CAPACITY : Z) : outcome OverflowQueue :=
  let! distance := align_to 8 header_size in
  Ret (new_relocatable CAPACITY distance (replicate (Z.to_nat CAPACITY) 0 ++ [0])).

End operations.

(** ** The producer and the consumer as interleaving threads *)

Inductive producer_pc :=
| PStart (value : Z)                        (** about to load [write_position] *)
| PLoadRead (value w : Z)                   (** about to load [read_position] *)
| PWrite (value w r : Z) (full : bool)      (** about to write the cell *)
| PStore (value w r : Z) (full : bool)      (** about to store [write_position] *)
| PCas (r : Z)                              (** about to take the oldest value *)
| PReadOld (r : Z)                          (** took it, about to read its cell *)
| PDone (result : option Z).

Inductive consumer_pc :=
| CStart
| CLoadWrite (r : Z)
| CRead (r : Z)
| CCas (r value : Z)
| CDone (result : option Z).

Section threads.
Context `{Profile}.

(* src/iceoryx2_bb/lock_free/src/spsc/safely_overflowing_index_queue.rs:304-336 push *)
Definition producer_step (q : OverflowQueue) (pc : producer_pc)
    : outcome (OverflowQueue * producer_pc) :=
  match pc with
  | PStart v => Ret (q, PLoadRead v q.(write_position))
  | PLoadRead v w =>
      let! full_at := q.(read_position) +u64 q.(capacity) in
      Ret (q, PWrite v w q.(read_position) (w =? full_at))
  | PWrite v w r full =>
      let! i := at_ q w in
      let! d := update q.(cells) i v in
      Ret (set_cells q d, PStore v w r full)
  | PStore v w r full =>
      let! w' := w +u64 1 in
      Ret (set_write_position q w', if full then PCas r else PDone None)
  | PCas r =>
      let! r' := r +u64 1 in
      let '(res, q) := compare_exchange_read q r r' in
      match res with
      | Ok _ => Ret (q, PReadOld r)
      | Err _ => Ret (q, PDone None)
      end
  | PReadOld r =>
      let! j := at_ q r in
      let! old := index q.(cells) j in
      Ret (q, PDone (Some old))
  | PDone res => Ret (q, PDone res)
  end.

(* src/iceoryx2_bb/lock_free/src/spsc/safely_overflowing_index_queue.rs:347-377 pop *)
Definition consumer_step (q : OverflowQueue) (pc : consumer_pc)
    : outcome (OverflowQueue * consumer_pc) :=
  match pc with
  | CStart => Ret (q, CLoadWrite q.(read_position))
  | CLoadWrite r =>
      if r =? q.(write_position) then Ret (q, CDone None) else Ret (q, CRead r)
  | CRead r =>
      let! i := at_ q r in
      let! value := index q.(cells) i in
      Ret (q, CCas r value)
  | CCas r value =>
      let! r' := r +u64 1 in
      let '(res, q) := compare_exchange_read q r r' in
      match res with
      | Ok _ => Ret (q, CDone (Some value))
      | Err v => Ret (q, CRead v)
      end
  | CDone res => Ret (q, CDone res)
  end.

(** [popped] and [evicted] record the values handed to the consumer and back to
    the producer, each with its position. *)
Record system := {
  queue : OverflowQueue;
  producer : producer_pc;
  consumer : consumer_pc;
  pushed : list Z;
  popped : list (Z * Z);
  evicted : list (Z * Z);
  panicked : bool;
}.

Inductive action := CallPush (v : Z) | CallPop | ProducerStep | ConsumerStep.

Definition record_push (pc : producer_pc) (l : list Z) : list Z :=
  match pc with PStore v _ _ _ => l ++ [v] | _ => l end.

Definition record_evicted (pc pc' : producer_pc) (l : list (Z * Z)) : list (Z * Z) :=
  match pc, pc' with PReadOld r, PDone (Some v) => l ++ [(r, v)] | _, _ => l end.

Definition record_popped (pc pc' : consumer_pc) (l : list (Z * Z)) : list (Z * Z) :=
  match pc, pc' with CCas r v, CDone _ => l ++ [(r, v)] | _, _ => l end.

Definition set_panicked (s : system) : system :=
  {| queue := s.(queue); producer := s.(producer); consumer := s.(consumer);
     pushed := s.(pushed); popped := s.(popped); evicted := s.(evicted); panicked := true |}.

Definition act (a : action) (s : system) : option system :=
  match a with
  | CallPush v =>
      match s.(producer) with
      | PDone _ =>
          Some {| queue := s.(queue); producer := PStart v; consumer := s.(consumer);
                  pushed := s.(pushed); popped := s.(popped); evicted := s.(evicted);
                  panicked := s.(panicked) |}
      | _ => None
      end
  | CallPop =>
      match s.(consumer) with
      | CDone _ =>
          Some {| queue := s.(queue); producer := s.(producer); consumer := CStart;
                  pushed := s.(pushed); popped := s.(popped); evicted := s.(evicted);
                  panicked := s.(panicked) |}
      | _ => None
      end
  | ProducerStep =>
      match producer_step s.(queue) s.(producer) with
      | Ret (q, p) =>
          Some {| queue := q; producer := p; consumer := s.(consumer);
                  pushed := record_push s.(producer) s.(pushed); popped := s.(popped);
                  evicted := record_evicted s.(producer) p s.(evicted);
                  panicked := s.(panicked) |}
      | Panic => Some (set_panicked s)
      end
  | ConsumerStep =>
      match consumer_step s.(queue) s.(consumer) with
      | Ret (q, c) =>
          Some {| queue := q; producer := s.(producer); consumer := c;
                  pushed := s.(pushed); popped := record_popped s.(consumer) c s.(popped);
                  evicted := s.(evicted); panicked := s.(panicked) |}
      | Panic => Some (set_panicked s)
      end
  end.

(** A fresh queue with [cap + 1] cells; the first calls have not been made yet. *)
Definition start (ptr cap : Z) : outcome system :=
  let! q := new ptr cap in
  Ret {| queue := q; producer := PDone None; consumer := CDone None;
     pushed := []; popped := []; evicted := []; panicked := false |}.

End threads.

(** The values in the queue, oldest first. *)
Definition contents (q : OverflowQueue) : list Z :=
  ring_contents (q.(capacity) + 1) q.(cells) q.(read_position) q.(write_position).

(** ** Sequential behaviour *)

Record wf (q : OverflowQueue) : Prop := {
  wf_capacity : 0 <= q.(capacity) < 2 ^ 64 - 1;
  wf_cells : zlength q.(cells) = q.(capacity) + 1;
  wf_positions : 0 <= q.(read_position) <= q.(write_position);
  wf_window : q.(write_position) <= q.(read_position) + q.(capacity);
  wf_width : q.(write_position) + q.(capacity) < 2 ^ 64;
}.

Section sequential.
Context `{Profile}.

Lemma oq_new_wf ptr cap : 0 <= cap < 2 ^ 64 - 1 ->
  exists q, new ptr cap = Ret q /\ wf q /\ q.(capacity) = cap /\ q.(write_position) = 0 /\
    contents q = [].
Proof.
  intros Hc. unfold new. checked. eexists. split; [done|]. split_and!; try done.
  split; cbn; try lia. unfold zlength. rewrite length_replicate. lia.
Qed.

Lemma oq_contents_length q : wf q ->
  zlength (contents q) = q.(write_position) - q.(read_position).
Proof. intros [Hc Hl Hp Hw _]. apply ring_contents_length; lia. Qed.

Lemma at_ok q p : wf q -> at_ q p = Ret (p mod (q.(capacity) + 1)).
Proof. intros [Hc Hl Hp Hw Hwd]. unfold at_. by checked. Qed.

Lemma oq_is_full_ok q : wf q -> is_full q = Ret (zlength (contents q) =? q.(capacity)).
Proof.
  intros Hwf. rewrite (oq_contents_length q Hwf). destruct Hwf. unfold is_full. cbn. checked.
  f_equal. apply eq_true_iff_eq. rewrite !Z.eqb_eq. lia.
Qed.

Lemma oq_len_ok q : wf q -> len q = Ret (zlength (contents q)).
Proof.
  intros Hwf. rewrite (oq_contents_length q Hwf). destruct Hwf. unfold len. cbn.
  by rewrite usub_ok by lia.
Qed.

(** The state after the new value is published. *)
Lemma push_unfold q v :
  wf q -> q.(write_position) + q.(capacity) + 1 < 2 ^ 64 ->
  push q v =
    (let q1 := set_write_position
                 (set_cells q (<[slot (q.(capacity) + 1) q.(write_position) := v]> q.(cells)))
                 (q.(write_position) + 1) in
     if q.(write_position) =? q.(read_position) + q.(capacity)
     then let! old := index q1.(cells) (q.(read_position) mod (q.(capacity) + 1)) in
          Ret (Some old, set_read_position q1 (q.(read_position) + 1))
     else Ret (None, q1)).
Proof.
  intros [Hc Hl Hp Hw Hwd] HB. unfold push, at_. checked.
  rewrite update_slot by lia. checked. cbn. destruct (_ =? _) eqn:E; [|done]. checked.
  unfold compare_exchange_read. cbn. rewrite Z.eqb_refl. cbn. by checked.
Qed.

Lemma oq_push_refines q v :
  wf q -> q.(write_position) + q.(capacity) + 1 < 2 ^ 64 ->
  exists r q', push q v = Ret (r, q') /\ wf q' /\
    (r, contents q') = spec_push_overflow q.(capacity) (contents q) v /\
    q'.(capacity) = q.(capacity) /\ q'.(write_position) = q.(write_position) + 1.
Proof.
  intros Hwf HB. rewrite (push_unfold q v Hwf HB). cbn zeta.
  pose proof (oq_contents_length q Hwf) as Hlen. pose proof Hwf as [Hc Hl Hp Hw Hwd].
  assert (Hsnoc := ring_contents_snoc (q.(capacity) + 1) q.(cells) q.(read_position)
    q.(write_position) v ltac:(lia) Hl ltac:(lia) ltac:(lia)).
  unfold spec_push_overflow. rewrite Hlen.
  destruct (_ =? _) eqn:E; bool_to_prop.
  - rewrite (proj2 (Z.ltb_ge _ _)) by lia.
    set (d := <[_ := v]> _) in *.
    assert (Hd : zlength d = capacity q + 1) by (unfold d; by rewrite zlength_insert).
    destruct (ring_contents_lookup_some (capacity q + 1) d (read_position q)
      (write_position q + 1) (read_position q)) as [a Ea]; [lia..|].
    cbn. rewrite (index_slot _ _ _ a) by (done || lia). cbn.
    eexists _, _. split; [done|]. split; [split; cbn; lia|]. split; [|cbn; lia].
    rewrite (ring_contents_cons _ _ _ _ a) in Hsnoc by (done || lia).
    unfold contents at 1; cbn. fold (contents q) in Hsnoc.
    destruct (contents q) as [|x l]; cbn in Hsnoc.
    + injection Hsnoc as -> ->. done.
    + injection Hsnoc as -> ->. done.
  - rewrite (proj2 (Z.ltb_lt _ _)) by lia.
    eexists _, _. split; [done|]. split; [split; cbn; rewrite ?zlength_insert; lia|].
    split; [|cbn; lia]. unfold contents at 1; cbn. by rewrite Hsnoc.
Qed.

Lemma oq_pop_refines q :
  wf q ->
  exists r q', pop q = Ret (r, q') /\ wf q' /\
    (r, contents q') = spec_pop (contents q) /\
    q'.(capacity) = q.(capacity) /\ q'.(write_position) = q.(write_position).
Proof.
  intros Hwf. pose proof (oq_contents_length q Hwf) as Hlen.
  pose proof Hwf as [Hc Hl Hp Hw Hwd]. unfold pop.
  destruct (read_position q =? _) eqn:Ef; bool_to_prop.
  { exists None, q. split_and!; try done.
    rewrite (proj1 (zlength_zero (contents q))) by lia. done. }
  destruct (ring_contents_lookup_some (q.(capacity) + 1) q.(cells) q.(read_position)
    q.(write_position) q.(read_position)) as [a Ea]; [lia..|].
  cbn [pop_loop]. rewrite at_ok by done. checked.
  rewrite (index_slot _ _ _ a) by (done || lia). checked.
  unfold compare_exchange_read. rewrite Z.eqb_refl.
  exists (Some a). eexists. split; [done|]. split; [split; cbn; lia|]. split; [|done].
  unfold contents; cbn. by rewrite (ring_contents_cons _ _ q.(read_position) _ a) by (done || lia).
Qed.

#[export] Instance overflow_queue_fifo : OverflowFifo OverflowQueue.
Proof.
  refine {| ofifo_wf := wf; ofifo_contents := contents; ofifo_capacity := capacity;
    ofifo_pushes := fun q => q.(write_position) + 1; ofifo_len := len; ofifo_is_full := is_full;
    ofifo_push := push; ofifo_pop := pop |}.
  - intros q Hq. rewrite (oq_contents_length q Hq). destruct Hq. lia.
  - apply oq_len_ok.
  - intros q Hq _. by apply oq_is_full_ok.
  - intros q v Hq HB. destruct (oq_push_refines q v Hq) as (r & q' & ? & ? & ? & ? & ?); [lia|].
    exists r, q'. split_and!; (done || lia).
  - intros q Hq. destruct (oq_pop_refines q Hq) as (r & q' & ? & ? & ? & ? & ?).
    exists r, q'. split_and!; (done || lia).
Defined.

End sequential.

(** ** The concurrent invariant *)

Section concurrent.
Context `{Profile}.
Implicit Types (q : OverflowQueue) (s : system).

(** Between the store of [write_position] and the compare-and-swap that follows it
    one value more than [capacity] may be visible. *)
Definition producer_ok q (hist : list Z) (pc : producer_pc) : Prop :=
  let W := q.(write_position) in
  let R := q.(read_position) in
  let c := q.(capacity) in
  match pc with
  | PStart _ | PDone _ => W <= R + c
  | PLoadRead _ w => w = W /\ W <= R + c
  | PWrite _ w r full =>
      w = W /\ 0 <= r <= R /\ (if full then W = r + c else W < r + c)
  | PStore v w r full =>
      w = W /\ 0 <= r <= R /\ (if full then W = r + c else W < r + c) /\
      q.(cells) !! slot (c + 1) W = Some v
  | PCas r => W = r + c + 1 /\ 0 <= r <= R
  | PReadOld r => 0 <= r < R /\ W <= R + c /\ live (c + 1) q.(cells) r W hist
  end.

Definition consumer_ok q (hist : list Z) (pc : consumer_pc) : Prop :=
  let W := q.(write_position) in
  let R := q.(read_position) in
  match pc with
  | CStart | CDone _ => True
  | CLoadWrite r => 0 <= r <= R /\ (r < R -> R < W)
  | CRead r => 0 <= r <= R /\ R < W
  | CCas r v => 0 <= r <= R /\ R < W /\ (r = R -> hist !! Z.to_nat R = Some v)
  end.

(** The position the producer has taken but not read yet. *)
Definition in_flight (pc : producer_pc) : list Z :=
  match pc with PReadOld r => [r] | _ => [] end.

Definition handed_out s : list Z :=
  map fst s.(popped) ++ map fst s.(evicted) ++ in_flight s.(producer).

Record Inv (cap : Z) s : Prop := {
  inv_cap : s.(queue).(capacity) = cap;
  inv_cells : zlength s.(queue).(cells) = cap + 1;
  inv_pushed : s.(queue).(write_position) = zlength s.(pushed);
  inv_order : 0 <= s.(queue).(read_position) <= s.(queue).(write_position);
  inv_live : live (cap + 1) s.(queue).(cells) s.(queue).(read_position)
               s.(queue).(write_position) s.(pushed);
  inv_producer : producer_ok s.(queue) s.(pushed) s.(producer);
  inv_consumer : consumer_ok s.(queue) s.(pushed) s.(consumer);
  inv_handed : handed_out s ≡ₚ seqZ 0 s.(queue).(read_position);
  inv_values : Forall (fun '(p, v) => s.(pushed) !! Z.to_nat p = Some v)
                 (s.(popped) ++ s.(evicted));
  inv_fifo : StronglySorted Z.lt (map fst s.(popped));
  inv_panicked : s.(panicked) = false;
}.

Lemma seqZ_snoc n : 0 <= n -> seqZ 0 (n + 1) = seqZ 0 n ++ [n].
Proof. intros Hn. rewrite seqZ_app by lia. done. Qed.

Lemma handed_bound cap s p :
  Inv cap s -> p ∈ handed_out s -> 0 <= p < s.(queue).(read_position).
Proof. intros Hi Hp. rewrite (inv_handed _ _ Hi), elem_of_seqZ in Hp. lia. Qed.

(** Values recorded for earlier positions are unaffected by later pushes. *)
Lemma values_push hist l (v : Z) :
  Forall (fun '(p, x) => hist !! Z.to_nat p = Some x) l ->
  Forall (fun '(p, x) => (hist ++ [v]) !! Z.to_nat p = Some x) l.
Proof.
  intros Hl. eapply Forall_impl; [exact Hl|]. intros [p x] E. rewrite lookup_app_l; [done|].
  by eapply lookup_lt_Some.
Qed.

Lemma oq_inv_start ptr cap s :
  0 <= cap < 2 ^ 64 - 1 -> start ptr cap = Ret s -> Inv cap s.
Proof.
  intros Hc. unfold start, new. checked. intros [= <-]. split; cbn; try done; try lia.
  - unfold zlength. rewrite length_replicate. lia.
  - intros p Hp. lia.
  - constructor.
Qed.

Lemma at_slot q p cap :
  q.(capacity) = cap -> 0 <= cap < 2 ^ 64 - 1 -> at_ q p = Ret (p mod (cap + 1)).
Proof. intros Ec Hc. unfold at_. rewrite Ec. by checked. Qed.

Lemma index_bounds cap q p :
  0 <= cap -> zlength q.(cells) = cap + 1 ->
  exists a, q.(cells) !! slot (cap + 1) p = Some a /\ index q.(cells) (p mod (cap + 1)) = Ret a.
Proof. intros Hc El. apply index_in_bounds. rewrite El. apply mod_bound. lia. Qed.

(** *** The producer's steps *)

Lemma producer_write_inv cap s v w r full q p :
  0 <= cap < 2 ^ 64 - 1 -> Inv cap s -> s.(producer) = PWrite v w r full ->
  producer_step s.(queue) (PWrite v w r full) = Ret (q, p) ->
  Inv cap {| queue := q; producer := p; consumer := s.(consumer); pushed := s.(pushed);
    popped := s.(popped); evicted := s.(evicted); panicked := s.(panicked) |}.
Proof.
  intros Hcap [Ec El Eh Ho Hlive Hp Hc Hh Hv Hf Hpa] Es E. rewrite Es in *. cbn in *.
  rewrite (at_slot _ _ cap) in E by done. cbn in E.
  destruct Hp as (-> & Hr & Hfull). rewrite update_slot in E by lia. cbn in E.
  injection E as <- <-. split; cbn; try done.
  - by rewrite zlength_insert.
  - apply live_scribble; [lia| |done]. destruct full; lia.
  - split_and!; [done|lia|lia|done|]. rewrite Ec, list_lookup_insert_eq; [done|].
    pose proof (slot_lt (cap + 1) (write_position (queue s))). unfold zlength in *. lia.
  - unfold handed_out in *. cbn. by rewrite Es in Hh.
Qed.

Lemma producer_store_inv cap s v w r full q p :
  0 <= cap < 2 ^ 64 - 1 -> Inv cap s -> s.(producer) = PStore v w r full ->
  zlength s.(pushed) + 1 < 2 ^ 64 ->
  producer_step s.(queue) (PStore v w r full) = Ret (q, p) ->
  Inv cap {| queue := q; producer := p; consumer := s.(consumer);
    pushed := s.(pushed) ++ [v]; popped := s.(popped);
    evicted := s.(evicted); panicked := s.(panicked) |}.
Proof.
  intros Hcap [Ec El Eh Ho Hlive Hp Hc Hh Hv Hf Hpa] Es HB E. rewrite Es in *. cbn in *.
  destruct Hp as (-> & Hr & Hfull & Hcell). rewrite uadd_ok in E by lia. cbn in E.
  injection E as <- <-. split; cbn; try done.
  - by rewrite zlength_app, Eh.
  - lia.
  - rewrite Ec in *. apply live_publish; [done|lia|done..].
  - destruct full; cbn; lia.
  - destruct s.(consumer); cbn in *; try done; try lia.
    destruct Hc as (? & ? & Hx). split_and!; [lia..|]. intros E.
    rewrite lookup_app_l; [by apply Hx|]. unfold zlength in *. lia.
  - unfold handed_out in *. cbn. rewrite Es in Hh. by destruct full.
  - by apply values_push.
Qed.

Lemma producer_cas_inv cap s r q p :
  1 <= cap < 2 ^ 64 - 1 -> Inv cap s -> s.(producer) = PCas r ->
  zlength s.(pushed) < 2 ^ 64 ->
  producer_step s.(queue) (PCas r) = Ret (q, p) ->
  Inv cap {| queue := q; producer := p; consumer := s.(consumer); pushed := s.(pushed);
    popped := s.(popped); evicted := s.(evicted); panicked := s.(panicked) |}.
Proof.
  intros Hcap [Ec El Eh Ho Hlive Hp Hc Hh Hv Hf Hpa] Es HB E. rewrite Es in *. cbn in *.
  destruct Hp as (HW & Hr). rewrite uadd_ok in E by lia. cbn in E.
  unfold handed_out in *. rewrite Es in Hh. cbn in Hh. rewrite app_nil_r in Hh.
  unfold compare_exchange_read in E. destruct (_ =? r) eqn:Er; bool_to_prop.
  - injection E as <- <-. subst r. split; cbn; try done.
    + lia.
    + eapply live_advance; [|done]. lia.
    + rewrite Ec. split_and!; [lia..|done].
    + destruct s.(consumer); cbn in *; intuition lia.
    + rewrite seqZ_snoc by lia. cbn. by rewrite app_assoc, Hh.
  - injection E as <- <-. split; cbn; try done; [lia|]. by rewrite app_nil_r.
Qed.

Lemma producer_read_inv cap s r q p :
  0 <= cap < 2 ^ 64 - 1 -> Inv cap s -> s.(producer) = PReadOld r ->
  producer_step s.(queue) (PReadOld r) = Ret (q, p) ->
  Inv cap {| queue := q; producer := p; consumer := s.(consumer); pushed := s.(pushed);
    popped := s.(popped); evicted := record_evicted (PReadOld r) p s.(evicted);
    panicked := s.(panicked) |}.
Proof.
  intros Hcap [Ec El Eh Ho Hlive Hp Hc Hh Hv Hf Hpa] Es E. rewrite Es in *. cbn in *.
  destruct Hp as (Hr & HW & Hlr). rewrite Ec in *.
  rewrite (at_slot _ _ cap) in E by done. cbn in E.
  destruct (live_read (cap + 1) (cells (queue s)) r (write_position (queue s)) s.(pushed) r)
    as (a & Ea & Eha); [lia..|done|lia|].
  rewrite (index_slot _ _ _ a) in E by (done || lia). cbn in E. injection E as <- <-.
  unfold handed_out in *. rewrite Es in Hh. cbn in Hh. split; cbn; try done.
  - lia.
  - by rewrite map_app, app_nil_r.
  - rewrite app_assoc. apply Forall_app. split; [done|]. by apply Forall_singleton.
Qed.

Lemma oq_producer_step_inv cap s q p :
  1 <= cap < 2 ^ 64 - 1 -> Inv cap s ->
  zlength (record_push s.(producer) s.(pushed)) + cap < 2 ^ 64 ->
  producer_step s.(queue) s.(producer) = Ret (q, p) ->
  Inv cap {| queue := q; producer := p; consumer := s.(consumer);
    pushed := record_push s.(producer) s.(pushed); popped := s.(popped);
    evicted := record_evicted s.(producer) p s.(evicted); panicked := s.(panicked) |}.
Proof.
  intros Hcap Hi HB E. destruct s.(producer) as [v|v w|v w r f|v w r f|r|r|b] eqn:Es; cbn [record_push record_evicted] in *.
  - destruct Hi as [Ec El Eh Ho Hlive Hp Hc Hh Hv Hf Hpa]. unfold handed_out in Hh.
    rewrite Es in *. injection E as <- <-. by split.
  - destruct Hi as [Ec El Eh Ho Hlive Hp Hc Hh Hv Hf Hpa]. unfold handed_out in Hh.
    rewrite Es in *. cbn in E, Hp. rewrite uadd_ok in E by lia. injection E as <- <-.
    split; cbn; try done. split_and!; [lia..|]. destruct (_ =? _) eqn:?; bool_to_prop; lia.
  - eapply producer_write_inv; (done || lia).
  - rewrite zlength_app in HB. unfold zlength in HB at 2. cbn in HB.
    eapply producer_store_inv; (done || lia).
  - eapply producer_cas_inv; (done || lia).
  - eapply producer_read_inv; (done || lia).
  - destruct Hi as [Ec El Eh Ho Hlive Hp Hc Hh Hv Hf Hpa]. unfold handed_out in Hh.
    rewrite Es in *. injection E as <- <-. by split.
Qed.

(** *** The consumer's steps *)

Lemma oq_consumer_step_inv cap s q c :
  0 <= cap < 2 ^ 64 - 1 -> Inv cap s -> zlength s.(pushed) < 2 ^ 64 ->
  consumer_step s.(queue) s.(consumer) = Ret (q, c) ->
  Inv cap {| queue := q; producer := s.(producer); consumer := c; pushed := s.(pushed);
    popped := record_popped s.(consumer) c s.(popped); evicted := s.(evicted);
    panicked := s.(panicked) |}.
Proof.
  intros Hcap Hi HB E. assert (Hb := handed_bound cap s).
  destruct Hi as [Ec El Eh Ho Hlive Hp Hc Hh Hv Hf Hpa] eqn:Hi'. clear Hi'.
  destruct s.(consumer) as [|r|r|r v|b] eqn:Es; cbn in *.
  - injection E as <- <-. split; cbn; try done. lia.
  - bool_cases; bool_to_prop; injection E as <- <-; split; cbn; try done. lia.
  - rewrite (at_slot _ _ cap) in E by done. cbn in E.
    destruct (index_bounds cap s.(queue) r) as (a & Ea & Ei); [lia|done|].
    rewrite Ei in E. injection E as <- <-. split; cbn; try done.
    split_and!; [lia..|]. intros ->. rewrite <-Ea. symmetry. apply Hlive. lia.
  - destruct Hc as (Hr & Hne & Hval). rewrite uadd_ok in E by lia. cbn in E.
    unfold compare_exchange_read in E. destruct (_ =? r) eqn:Er; bool_to_prop.
    + injection E as <- <-. subst r. specialize (Hval eq_refl). split; cbn; try done.
      * lia.
      * eapply live_advance; [|done]. lia.
      * destruct s.(producer); cbn in *; try destruct full; intuition lia.
      * unfold handed_out in *. cbn. rewrite seqZ_snoc by lia. rewrite <-Hh, map_app, <-!app_assoc.
        apply Permutation_app_head. cbn. rewrite (app_assoc (map fst (evicted s))). apply Permutation_cons_append.
      * rewrite <-app_assoc. apply Forall_app in Hv as [Hv1 Hv2].
        apply Forall_app. split; [done|]. by constructor.
      * rewrite map_app. apply StronglySorted_snoc; [done|].
        apply Forall_forall. intros p Hin. apply Hb; [done|].
        unfold handed_out. apply elem_of_app. by left.
    + injection E as <- <-. split; cbn; try done. lia.
  - injection E as <- <-. by split.
Qed.

Lemma oq_no_panic cap s :
  0 <= cap < 2 ^ 64 - 1 -> Inv cap s -> zlength s.(pushed) + cap + 1 < 2 ^ 64 ->
  is_ret (producer_step s.(queue) s.(producer)) = true /\
  is_ret (consumer_step s.(queue) s.(consumer)) = true.
Proof.
  intros Hcap [Ec El Eh Ho Hlive Hp Hc Hh Hv Hf Hpa] HB. split.
  - destruct s.(producer) as [v|v w|v w r f|v w r f|r|r|b]; cbn in *; try done; checked; cbn.
    + done.
    + rewrite (at_slot _ _ cap) by done. cbn. by rewrite update_slot by lia.
    + done.
    + unfold compare_exchange_read. by destruct (_ =? _).
    + rewrite (at_slot _ _ cap) by done. cbn.
      destruct (index_bounds cap s.(queue) r) as (a & _ & ->); [lia|done..].
  - destruct s.(consumer) as [|r|r|r v|b]; cbn in *; try done; checked; cbn.
    + by destruct (_ =? _).
    + rewrite (at_slot _ _ cap) by done. cbn.
      destruct (index_bounds cap s.(queue) r) as (a & _ & ->); [lia|done..].
    + unfold compare_exchange_read. by destruct (_ =? _).
Qed.

Lemma oq_step_pushed_mono s s' : act_step act s s' -> zlength s.(pushed) <= zlength s'.(pushed).
Proof.
  intros [a t E]. destruct a; cbn in E.
  - destruct s.(producer); try done. by injection E as <-.
  - destruct s.(consumer); try done. by injection E as <-.
  - destruct (producer_step _ _) as [[q p]|]; injection E as <-; [|done]. cbn.
    destruct s.(producer); cbn; rewrite ?zlength_app; auto with zarith.
  - destruct (consumer_step _ _) as [[q p]|]; by injection E as <-.
Qed.

Lemma oq_step_inv cap s s' :
  1 <= cap < 2 ^ 64 - 1 -> act_step act s s' ->
  zlength s'.(pushed) <= 2 ^ 64 - 2 - cap -> Inv cap s -> Inv cap s'.
Proof.
  intros Hcap Hstep HB Hi. pose proof (oq_step_pushed_mono _ _ Hstep).
  destruct (oq_no_panic cap s) as [Hpr Hco]; [lia|done|lia|].
  destruct Hstep as [a t E]. destruct a; cbn in E.
  - destruct Hi as [Ec El Eh Ho Hlive Hp Hc Hh Hv Hf Hpa]. unfold handed_out in Hh.
    destruct s.(producer); try done. injection E as <-. by split.
  - destruct Hi. destruct s.(consumer); try done. injection E as <-. by split.
  - destruct (producer_step _ _) as [[q p]|] eqn:Ep; [|done]. injection E as <-. cbn in *.
    apply oq_producer_step_inv; (done || lia).
  - destruct (consumer_step _ _) as [[q c]|] eqn:Ep; [|done]. injection E as <-. cbn in *.
    apply oq_consumer_step_inv; (done || lia).
Qed.

Lemma oq_reachable_inv ptr cap s0 s :
  1 <= cap < 2 ^ 64 - 1 -> start ptr cap = Ret s0 -> rtc (act_step act) s0 s ->
  zlength s.(pushed) + cap + 1 < 2 ^ 64 -> Inv cap s.
Proof.
  intros Hc Es Hr HB.
  apply (rtc_bounded_invariant (act_step act) (fun s => zlength s.(pushed)) (2 ^ 64 - 2 - cap)
    (Inv cap) s0); [apply oq_step_pushed_mono|intros; by eapply oq_step_inv|done| |lia].
  eapply oq_inv_start; [|done]. lia.
Qed.

(** *** From positions to values *)

Lemma omap_lookup_take (hist : list Z) (n : nat) :
  (n <= length hist)%nat ->
  omap (fun p => hist !! Z.to_nat p) (seqZ 0 (Z.of_nat n)) = take n hist.
Proof.
  induction n as [|n IH]; intros Hn; [done|]. rewrite Nat2Z.inj_succ, <-Z.add_1_r.
  rewrite seqZ_snoc by lia. rewrite omap_app, IH by lia. cbn [omap list_omap].
  destruct (lookup_lt_is_Some_2 hist n) as [a E]; [lia|].
  rewrite Nat2Z.id, E. by rewrite (take_S_r _ _ a).
Qed.

Lemma omap_positions (hist : list Z) (l : list (Z * Z)) :
  Forall (fun '(p, v) => hist !! Z.to_nat p = Some v) l ->
  omap (fun p => hist !! Z.to_nat p) (map fst l) = map snd l.
Proof. induction 1 as [|[p v] l E _ IH]; [done|]. cbn in *. by rewrite E, IH. Qed.

Lemma handed_values cap s :
  Inv cap s -> in_flight s.(producer) = [] ->
  map snd s.(popped) ++ map snd s.(evicted) ++ contents s.(queue) ≡ₚ s.(pushed).
Proof.
  intros Hi Hidle. destruct Hi as [Ec El Eh Ho Hlive Hp Hc Hh Hv Hf Hpa].
  unfold contents. rewrite Ec, (live_contents _ _ _ _ s.(pushed)) by (done || lia).
  rewrite app_assoc, <-map_app, <-(omap_positions s.(pushed)) by done.
  unfold handed_out in Hh. rewrite Hidle, app_nil_r, <-map_app in Hh. rewrite Hh.
  rewrite <-(Z2Nat.id (read_position (queue s))) at 1 by lia.
  rewrite omap_lookup_take by (unfold zlength in *; lia). by rewrite take_drop.
Qed.

End concurrent.

(** ** Properties *)

(** C2: In every interleaving of a producer and a consumer on a queue with at least
    one slot, as long as the positions fit in 64 bits: no step panics or leaves the
    cell array; every value handed out, to the consumer by [pop] or back to the
    producer by an overflowing [push], is the value pushed at that position; the
    consumer sees values in push order; and whenever the producer is not between its
    compare-and-swap and its read, the values popped, the values evicted and the
    values still stored are together exactly the values pushed, each once. *)
Theorem overflow_queue_exactly_once `{Profile} ptr cap s0 s :
  1 <= cap < 2 ^ 64 - 1 -> start ptr cap = Ret s0 -> rtc (act_step act) s0 s ->
  zlength s.(pushed) + cap + 1 < 2 ^ 64 ->
  s.(panicked) = false /\
  Forall (fun '(p, v) => s.(pushed) !! Z.to_nat p = Some v) (s.(popped) ++ s.(evicted)) /\
  StronglySorted Z.lt (map fst s.(popped)) /\
  ((forall r, s.(producer) <> PReadOld r) ->
     map snd s.(popped) ++ map snd s.(evicted) ++ contents s.(queue) ≡ₚ s.(pushed)).
Proof.
  intros Hc Es Hr HB. pose proof (oq_reachable_inv ptr cap s0 s Hc Es Hr HB) as Hi.
  split_and!; [apply Hi|apply Hi|apply Hi|]. intros Hidle.
  eapply handed_values; [done|]. destruct s.(producer); try done. by destruct (Hidle r).
Qed.

(** A full queue of one slot: the consumer has read the oldest value but the
    producer evicts it first, so the consumer retries and gets the next one. *)
Definition race_schedule : list action :=
  [CallPush 7; ProducerStep; ProducerStep; ProducerStep; ProducerStep;
   CallPop; ConsumerStep; ConsumerStep; ConsumerStep;
   CallPush 8; ProducerStep; ProducerStep; ProducerStep; ProducerStep; ProducerStep;
   ConsumerStep; ConsumerStep; ConsumerStep; ProducerStep].

Lemma overflow_queue_exactly_once_witness :
  exists s0 s, start (H := dev) 0 1 = Ret s0 /\ run_schedule (act (H := dev)) race_schedule s0 = Some s /\
    s.(popped) = [(1, 8)] /\ s.(evicted) = [(0, 7)] /\
    map snd s.(popped) ++ map snd s.(evicted) ++ contents s.(queue) ≡ₚ s.(pushed).
Proof.
  eexists _, _. split; [reflexivity|]. split; [vm_compute; reflexivity|].
  split; [reflexivity|]. split; [reflexivity|].
  eapply (overflow_queue_exactly_once (H := dev) 0 1).
  - lia.
  - reflexivity.
  - apply (run_schedule_reachable _ race_schedule). vm_compute. reflexivity.
  - reflexivity.
  - discriminate.
Defined.

(** Decisions of concurrent operations are justified at the step where they are
    taken: [pop] returns [None] only in a state whose queue is empty; the loop of
    [pop] retries only when the value it read was taken by the producer, and then
    the queue is not empty; and [push] evicts only while the queue holds one value
    more than its capacity. *)
Theorem overflow_queue_concurrent_results `{Profile} ptr cap s0 s :
  1 <= cap < 2 ^ 64 - 1 -> start ptr cap = Ret s0 -> rtc (act_step act) s0 s ->
  zlength s.(pushed) + cap + 1 < 2 ^ 64 ->
  (forall r q, s.(consumer) = CLoadWrite r ->
     consumer_step s.(queue) s.(consumer) = Ret (q, CDone None) ->
     contents s.(queue) = []) /\
  (forall r v q r', s.(consumer) = CCas r v ->
     consumer_step s.(queue) s.(consumer) = Ret (q, CRead r') ->
     (r ∈ map fst s.(evicted) \/ s.(producer) = PReadOld r \/ r ∈ map fst s.(popped)) /\
     contents s.(queue) <> []) /\
  (forall r q, s.(producer) = PCas r ->
     producer_step s.(queue) s.(producer) = Ret (q, PReadOld r) ->
     zlength (contents s.(queue)) = cap + 1).
Proof.
  intros Hc Es Hr HB. pose proof (oq_reachable_inv ptr cap s0 s Hc Es Hr HB) as Hi.
  destruct Hi as [Ec El Eh Ho Hlive Hp Hcc Hh Hv Hf Hpa].
  assert (Hlen : zlength (contents s.(queue)) = write_position (queue s) - read_position (queue s)).
  { apply ring_contents_length; lia. }
  split_and!.
  - intros r q Ep E. rewrite Ep in *. cbn in *. bool_cases. bool_to_prop.
    apply zlength_zero. lia.
  - intros r v q r' Ep E. rewrite Ep in *. cbn in *. destruct Hcc as (Hrr & Hne & _).
    rewrite uadd_ok in E by lia. cbn in E. unfold compare_exchange_read in E.
    destruct (_ =? r) eqn:Er; [done|]. bool_to_prop. split.
    + assert (Hin : r ∈ handed_out s) by (rewrite Hh, elem_of_seqZ; lia).
      unfold handed_out in Hin. rewrite !elem_of_app in Hin.
      destruct Hin as [|[|Hin]]; [tauto..|]. destruct s.(producer); cbn in Hin; try by inversion Hin.
      apply list_elem_of_singleton in Hin as ->. tauto.
    + rewrite <-zlength_zero. lia.
  - intros r q Ep E. rewrite Ep in *. cbn in *. rewrite uadd_ok in E by lia. cbn in E.
    unfold compare_exchange_read in E. destruct (_ =? r) eqn:Er; [|done]. bool_to_prop. lia.
Qed.

Lemma overflow_queue_concurrent_results_witness :
  exists s0 s, start (H := dev) 0 1 = Ret s0 /\
    run_schedule (act (H := dev)) [CallPop; ConsumerStep] s0 = Some s /\
    s.(consumer) = CLoadWrite 0 /\ contents s.(queue) = [].
Proof.
  eexists _, _. split; [reflexivity|]. split; [vm_compute; reflexivity|].
  split; [reflexivity|].
  eapply (overflow_queue_concurrent_results (H := dev) 0 1).
  - lia.
  - reflexivity.
  - apply (run_schedule_reachable _ [CallPop; ConsumerStep]). vm_compute. reflexivity.
  - reflexivity.
  - reflexivity.
  - reflexivity.
Defined.

(** Alone, [push] and [pop] implement the abstract FIFO that evicts its oldest
    value when it is full. *)
Theorem overflow_queue_refines_fifo `{Profile} q v :
  wf q -> q.(write_position) + q.(capacity) + 1 < 2 ^ 64 ->
  (exists r q', push q v = Ret (r, q') /\ wf q' /\
     (r, contents q') = spec_push_overflow q.(capacity) (contents q) v) /\
  (exists r q', pop q = Ret (r, q') /\ wf q' /\ (r, contents q') = spec_pop (contents q)).
Proof.
  intros Hwf HB. split.
  - destruct (oq_push_refines q v Hwf HB) as (r & q' & ? & ? & ? & _). by exists r, q'.
  - destruct (oq_pop_refines q Hwf) as (r & q' & ? & ? & ? & _). by exists r, q'.
Qed.

Lemma overflow_queue_refines_fifo_witness :
  let q := {| data_ptr := 0; cells := [3; 4]; capacity := 1; write_position := 1;
              read_position := 0; has_producer := true; has_consumer := true;
              is_memory_initialized := true |} in
  exists q', push (H := dev) q 9 = Ret (Some 3, q') /\ wf q'.
Proof.
  intros q. destruct (overflow_queue_refines_fifo (H := dev) q 9) as [(r & q' & Hp & Hwf & _) _].
  - split; cbn; (lia || reflexivity).
  - reflexivity.
  - exists q'. split; [|exact Hwf]. rewrite Hp. f_equal. f_equal.
    vm_compute in Hp. congruence.
Defined.

(** A queue of capacity 0 does not keep the promise: the producer evicts its own
    value 7 while the consumer is inside [pop], the consumer's retry reads the same
    cell again and pops 7 a second time, and [read_position] overtakes
    [write_position], after which [len] underflows. *)
Theorem overflow_queue_capacity_zero_duplicates :
  exists s0 s, start (H := dev) 0 0 = Ret s0 /\
    run_schedule (act (H := dev))
      [CallPush 7; ProducerStep; ProducerStep; ProducerStep; ProducerStep;
       CallPop; ConsumerStep; ConsumerStep; ProducerStep; ProducerStep;
       ConsumerStep; ConsumerStep; ConsumerStep; ConsumerStep] s0 = Some s /\
    s.(pushed) = [7] /\ s.(producer) = PDone (Some 7) /\ s.(consumer) = CDone (Some 7) /\
    len (H := dev) s.(queue) = Panic.
Proof.
  eexists _, _. split; [reflexivity|]. split; [vm_compute; reflexivity|].
  split_and!; reflexivity.
Qed.
