(* ===== verification/UniqueIndexSet.v ===== *)
(** * iceoryx2_bb/lock_free/src/mpmc/unique_index_set.rs

    The lock-free set of indices that every other lock-free structure of the library
    takes its slots from.  The free indices form a linked list through the cells
    [next_free_index]; the 64-bit [head] packs the first free index with a counter
    that changes with every operation, so that a compare-and-swap prepared against
    an outdated head fails.  First the operations as sequential functions, then any
    number of threads that interleave at every shared access. *)

From S2P Require Import Prelude Math Allocator.

(* src/iceoryx2_bb/lock_free/src/mpmc/unique_index_set.rs:198-204 UniqueIndexSet *)
Record UniqueIndexSet := {
  data_ptr : Z;
  next_free_index : list Z;
  capacity : Z;
  borrowed_indices : Z;
  head : Z;
  is_memory_initialized : bool;
}.

Definition set_next (q : UniqueIndexSet) l : UniqueIndexSet :=
  {| data_ptr := q.(data_ptr); next_free_index := l; capacity := q.(capacity);
     borrowed_indices := q.(borrowed_indices); head := q.(head);
     is_memory_initialized := q.(is_memory_initialized) |}.
Definition set_head (q : UniqueIndexSet) h : UniqueIndexSet :=
  {| data_ptr := q.(data_ptr); next_free_index := q.(next_free_index);
     capacity := q.(capacity); borrowed_indices := q.(borrowed_indices); head := h;
     is_memory_initialized := q.(is_memory_initialized) |}.
Definition set_borrowed (q : UniqueIndexSet) n : UniqueIndexSet :=
  {| data_ptr := q.(data_ptr); next_free_index := q.(next_free_index);
     capacity := q.(capacity); borrowed_indices := n; head := q.(head);
     is_memory_initialized := q.(is_memory_initialized) |}.
Definition set_memory (q : UniqueIndexSet) ptr l : UniqueIndexSet :=
  {| data_ptr := ptr; next_free_index := l; capacity := q.(capacity);
     borrowed_indices := q.(borrowed_indices); head := q.(head);
     is_memory_initialized := true |}.

(** Cell [i] initially refers to [i + 1]. *)
Definition initial_cells (n : Z) : list Z := map (fun i => i + 1) (seqZ 0 n).

(* src/iceoryx2_bb/lock_free/src/mpmc/unique_index_set.rs:210-218 new_uninit *)
Definition new_uninit (cap : Z) : UniqueIndexSet :=
  {| data_ptr := 0; next_free_index := []; capacity := cast 32 cap;
     borrowed_indices := 0; head := 0; is_memory_initialized := false |}.

(** The cells are the memory the caller placed at the distance. *)
(* src/iceoryx2_bb/lock_free/src/mpmc/unique_index_set.rs:242-250 new *)
Definition new (cap distance_to_data : Z) (memory : list Z) : UniqueIndexSet :=
  {| data_ptr := distance_to_data; next_free_index := memory; capacity := cast 32 cap;
     borrowed_indices := 0; head := 0; is_memory_initialized := true |}.

(* src/iceoryx2_bb/lock_free/src/mpmc/unique_index_set.rs:424-429 get_next_free_index *)
Definition get_next_free_index (q : UniqueIndexSet) (i : Z) : outcome Z :=
  index q.(next_free_index) i.

(** The same reference as the target of an assignment. *)
(* src/iceoryx2_bb/lock_free/src/mpmc/unique_index_set.rs:424-429 get_next_free_index *)
Definition put_next_free_index (q : UniqueIndexSet) (i v : Z) : outcome UniqueIndexSet :=
  let! l := update q.(next_free_index) i v in Ret (set_next q l).

(* src/iceoryx2_bb/lock_free/src/mpmc/unique_index_set.rs:431-433 extract_head_and_aba *)
Definition extract_head_and_aba (value : Z) : Z * Z :=
  (cast 32 (shr value 32), cast 32 (shr (shl 64 value 32) 32)).

(* src/iceoryx2_bb/lock_free/src/mpmc/unique_index_set.rs:435-437 pack_from_head_and_aba *)
Definition pack_from_head_and_aba (value1 value2 : Z) : Z :=
  Z.lor (shl 64 value1 32) value2.

#[global] Arguments extract_head_and_aba : simpl never.
#[global] Arguments pack_from_head_and_aba : simpl never.

Definition compare_exchange_head (q : UniqueIndexSet) (current new : Z)
    : Result unit Z * UniqueIndexSet :=
  if q.(head) =? current then (Ok tt, set_head q new) else (Err q.(head), q).

(** [UniqueIndex]: the handle returned by [acquire] releases its index when it is
    dropped; its callback, if any, runs first on the state it works on. *)
(* src/iceoryx2_bb/lock_free/src/mpmc/unique_index_set.rs:110-114 UniqueIndex *)
Record UniqueIndex (St : Type) := {
  value : Z;
  cleanup_callback : option (Z -> St -> St);
}.
Arguments value {St}.
Arguments cleanup_callback {St}.

Section operations.
Context `{Profile}.

(* src/iceoryx2_bb/lock_free/src/mpmc/unique_index_set.rs:265-267 const_memory_size *)
Definition const_memory_size (cap : Z) : outcome Z :=
  let! n := cap +u64 1 in
  let! m := 4 *u64 n in
  let! m := m +u64 4 in
  m -u64 1.

(* src/iceoryx2_bb/lock_free/src/mpmc/unique_index_set.rs:220-240 init *)
Definition init `{BaseAllocator A} (q : UniqueIndexSet) (allocator : A)
    : outcome (Result unit AllocationError * UniqueIndexSet * A) :=
  if q.(is_memory_initialized) then Panic
  else
    let! n := q.(capacity) +u32 1 in
    let! bytes := 4 *u64 n in
    let! '(r, allocator) := allocate allocator {| size := bytes; layout_align := 4 |} in
    match r with
    | Err e => Ret (Err e, q, allocator)
    | Ok memory => Ret (Ok tt, set_memory q memory.(chunk_ptr) (initial_cells n), allocator)
    end.

(* src/iceoryx2_bb/lock_free/src/mpmc/unique_index_set.rs:258-262 verify_init *)
Definition verify_init (q : UniqueIndexSet) : outcome unit :=
  if q.(is_memory_initialized) then Ret tt else Panic.

(** The loop of [acquire_raw_index] around its compare-and-swap. *)
(* src/iceoryx2_bb/lock_free/src/mpmc/unique_index_set.rs:351-371 acquire_raw_index *)
Fixpoint acquire_loop (fuel : nat) (q : UniqueIndexSet) (old : Z)
    : outcome (option Z * UniqueIndexSet) :=
  match fuel with
  | O => Panic
  | S fuel =>
      let '(old_head, old_aba) := extract_head_and_aba old in
      if q.(capacity) <=? old_head then Ret (None, q)
      else
        let! new_head := get_next_free_index q old_head in
        let! new_aba := old_aba +u32 1 in
        let '(res, q) := compare_exchange_head q old (pack_from_head_and_aba new_head new_aba) in
        match res with
        | Ok _ => Ret (Some old_head, q)
        | Err v => acquire_loop fuel q v
        end
  end.

(** Without interference the first iteration decides. *)
(* src/iceoryx2_bb/lock_free/src/mpmc/unique_index_set.rs:346-379 acquire_raw_index *)
Definition acquire_raw_index (q : UniqueIndexSet) : outcome (option Z * UniqueIndexSet) :=
  let! _ := verify_init q in
  let! '(r, q) := acquire_loop 1 q q.(head) in
  match r with
  | None => Ret (None, q)
  | Some i =>
      let! cleared := q.(capacity) +u32 1 in
      let! q := put_next_free_index q i cleared in
      Ret (Some i, set_borrowed q (wrapping_add 64 q.(borrowed_indices) 1))
  end.

(* src/iceoryx2_bb/lock_free/src/mpmc/unique_index_set.rs:399-419 release_raw_index *)
Fixpoint release_loop (fuel : nat) (q : UniqueIndexSet) (i old : Z) : outcome UniqueIndexSet :=
  match fuel with
  | O => Panic
  | S fuel =>
      let '(old_head, old_aba) := extract_head_and_aba old in
      let! q := put_next_free_index q i old_head in
      let! new_aba := old_aba +u32 1 in
      let '(res, q) := compare_exchange_head q old (pack_from_head_and_aba i new_aba) in
      match res with
      | Ok _ => Ret (set_borrowed q (wrapping_sub 64 q.(borrowed_indices) 1))
      | Err v => release_loop fuel q i v
      end
  end.

(* src/iceoryx2_bb/lock_free/src/mpmc/unique_index_set.rs:392-420 release_raw_index *)
Definition release_raw_index (q : UniqueIndexSet) (i : Z) : outcome UniqueIndexSet :=
  let! _ := verify_init q in release_loop 1 q i q.(head).

(* src/iceoryx2_bb/lock_free/src/mpmc/unique_index_set.rs:294-304 acquire_with_additional_cleanup *)
Definition acquire_with_additional_cleanup {St} (q : UniqueIndexSet)
    (callback : Z -> St -> St) : outcome (option (UniqueIndex St) * UniqueIndexSet) :=
  let! _ := verify_init q in
  let! '(r, q) := acquire_raw_index q in
  Ret (option_map (fun v => {| value := v; cleanup_callback := Some callback |}) r, q).

(* src/iceoryx2_bb/lock_free/src/mpmc/unique_index_set.rs:277-284 acquire *)
Definition acquire {St} (q : UniqueIndexSet) : outcome (option (UniqueIndex St) * UniqueIndexSet) :=
  let! _ := verify_init q in
  let! '(r, q) := acquire_raw_index q in
  Ret (option_map (fun v => {| value := v; cleanup_callback := None |}) r, q).

(* src/iceoryx2_bb/lock_free/src/mpmc/unique_index_set.rs:134-141 drop *)
Definition drop_unique_index {St} (i : UniqueIndex St) (st : St) (q : UniqueIndexSet)
    : outcome (St * UniqueIndexSet) :=
  let st := match i.(cleanup_callback) with Some f => f i.(value) st | None => st end in
  let! q := release_raw_index q i.(value) in Ret (st, q).

(** The fixed-size set stores [CAPACITY] cells and one more behind the header. *)
(* src/iceoryx2_bb/lock_free/src/mpmc/unique_index_set.rs:464-477 default *)
Definition fixed_size_default (header_size CAPACITY : Z) : outcome UniqueIndexSet :=
  let! distance := align_to 4 header_size in
  let! last := cast 32 CAPACITY +u32 1 in
  Ret (new CAPACITY distance (initial_cells CAPACITY ++ [last])).

(* src/iceoryx2_bb/lock_free/src/mpmc/unique_index_set.rs:100-104 UniqueIndexCreationError *)
Inductive UniqueIndexCreationError :=
| ProvidedCapacityGreaterThanMaxCapacity | ProvidedCapacityIsZero.

(* src/iceoryx2_bb/lock_free/src/mpmc/unique_index_set.rs:490-512 new_with_reduced_capacity *)
Definition new_with_reduced_capacity (header_size CAPACITY cap : Z)
    : outcome (Result UniqueIndexSet UniqueIndexCreationError) :=
  if CAPACITY <? cap then Ret (Err ProvidedCapacityGreaterThanMaxCapacity)
  else if cap =? 0 then Ret (Err ProvidedCapacityIsZero)
  else
    let! distance := align_to 4 header_size in
    let! last := cast 32 cap +u32 1 in
    Ret (Ok (new cap distance (initial_cells CAPACITY ++ [last]))).

End operations.

(** ** Threads

    [owned] are the indices that [acquire_raw_index] has returned and that have not
    been passed to [release_raw_index] yet; whoever owns an index may release it,
    from any thread.  [swaps] counts the successful compare-and-swaps on [head]. *)

Inductive pc :=
| Idle (result : option Z)
| AcqLoad                        (** about to load [head] *)
| AcqRead (old : Z)              (** about to read the cell of the first free index *)
| AcqCas (old new_head : Z)
| AcqClear (i : Z)               (** took [i], about to overwrite its cell *)
| AcqCount (i : Z)               (** about to increment [borrowed_indices] *)
| RelLoad (i : Z)
| RelWrite (i old : Z)           (** about to link [i] to the first free index *)
| RelCas (i old : Z)
| RelCount.                      (** about to decrement [borrowed_indices] *)

Section threads.
Context `{Profile}.

Definition acquire_check (q : UniqueIndexSet) (old : Z) : pc :=
  if q.(capacity) <=? (extract_head_and_aba old).1 then Idle None else AcqRead old.

(* src/iceoryx2_bb/lock_free/src/mpmc/unique_index_set.rs:346-420 acquire_raw_index, release_raw_index *)
Definition thread_step (q : UniqueIndexSet) (p : pc) : outcome (UniqueIndexSet * pc) :=
  match p with
  | Idle r => Ret (q, Idle r)
  | AcqLoad => let! _ := verify_init q in Ret (q, acquire_check q q.(head))
  | AcqRead old =>
      let! new_head := get_next_free_index q (extract_head_and_aba old).1 in
      Ret (q, AcqCas old new_head)
  | AcqCas old new_head =>
      let! new_aba := (extract_head_and_aba old).2 +u32 1 in
      let '(res, q) := compare_exchange_head q old (pack_from_head_and_aba new_head new_aba) in
      match res with
      | Ok _ => Ret (q, AcqClear (extract_head_and_aba old).1)
      | Err v => Ret (q, acquire_check q v)
      end
  | AcqClear i =>
      let! cleared := q.(capacity) +u32 1 in
      let! q := put_next_free_index q i cleared in
      Ret (q, AcqCount i)
  | AcqCount i =>
      Ret (set_borrowed q (wrapping_add 64 q.(borrowed_indices) 1), Idle (Some i))
  | RelLoad i => let! _ := verify_init q in Ret (q, RelWrite i q.(head))
  | RelWrite i old =>
      let! q := put_next_free_index q i (extract_head_and_aba old).1 in
      Ret (q, RelCas i old)
  | RelCas i old =>
      let! new_aba := (extract_head_and_aba old).2 +u32 1 in
      let '(res, q) := compare_exchange_head q old (pack_from_head_and_aba i new_aba) in
      match res with
      | Ok _ => Ret (q, RelCount)
      | Err v => Ret (q, RelWrite i v)
      end
  | RelCount =>
      Ret (set_borrowed q (wrapping_sub 64 q.(borrowed_indices) 1), Idle None)
  end.

Record shared := {
  set : UniqueIndexSet;
  owned : list Z;
  swaps : Z;
  panicked : bool;
}.

Inductive thread_action :=
| CallAcquire
| CallRelease (k : nat)          (** release the [k]-th owned index *)
| Step.

Definition record_owned (p : pc) (l : list Z) : list Z :=
  match p with AcqCount i => i :: l | _ => l end.

Definition record_swap (p p' : pc) (n : Z) : Z :=
  match p, p' with
  | AcqCas _ _, AcqClear _ | RelCas _ _, RelCount => n + 1
  | _, _ => n
  end.

Definition act (a : thread_action) (g : shared) (p : pc) : option (shared * pc) :=
  match a, p with
  | CallAcquire, Idle _ => Some (g, AcqLoad)
  | CallRelease k, Idle _ =>
      match g.(owned) !! k with
      | Some i =>
          Some ({| set := g.(set); owned := delete k g.(owned); swaps := g.(swaps);
                   panicked := g.(panicked) |}, RelLoad i)
      | None => None
      end
  | Step, _ =>
      match thread_step g.(set) p with
      | Ret (q, p') =>
          Some ({| set := q; owned := record_owned p g.(owned);
                   swaps := record_swap p p' g.(swaps); panicked := g.(panicked) |}, p')
      | Panic =>
          Some ({| set := g.(set); owned := g.(owned); swaps := g.(swaps);
                   panicked := true |}, p)
      end
  | _, _ => None
  end.

(** An initialised set and [n] idle threads. *)
Definition start (q : UniqueIndexSet) (n : nat) : shared * list pc :=
  ({| set := q; owned := []; swaps := 0; panicked := false |}, replicate n (Idle None)).

End threads.

(** Indices a thread holds in the middle of an operation. *)
Definition held (p : pc) : list Z :=
  match p with
  | AcqClear i | AcqCount i | RelLoad i | RelWrite i _ | RelCas i _ => [i]
  | _ => []
  end.

(** ** Packing the head *)

Definition hd_of (w : Z) : Z := w / 2 ^ 32.
Definition aba_of (w : Z) : Z := w mod 2 ^ 32.

#[global] Arguments hd_of : simpl never.
#[global] Arguments aba_of : simpl never.

Lemma extract_ok w : in_range 64 w -> extract_head_and_aba w = (hd_of w, aba_of w).
Proof.
  unfold in_range, extract_head_and_aba, cast, shr, shl, hd_of, aba_of. intros Hw.
  rewrite !Z.shiftr_div_pow2, Z.shiftl_mul_pow2 by lia. f_equal.
  - apply Z.mod_small. split; [apply Z.div_pos; lia|]. apply Z.div_lt_upper_bound; lia.
  - change (2 ^ 64) with (2 ^ 32 * 2 ^ 32).
    rewrite Z.mul_mod_distr_r by lia. rewrite Z.div_mul by lia. by rewrite Z.mod_mod by lia.
Qed.

Lemma pack_ok h a :
  in_range 32 h -> in_range 32 a ->
  let w := pack_from_head_and_aba h a in in_range 64 w /\ hd_of w = h /\ aba_of w = a.
Proof.
  unfold in_range, pack_from_head_and_aba, shl. intros Hh Ha.
  rewrite Z.shiftl_mul_pow2 by lia. rewrite Z.mod_small by lia.
  assert (Hland : Z.land (h * 2 ^ 32) a = 0).
  { apply Z.bits_inj'. intros n Hn. rewrite Z.land_spec, Z.bits_0.
    destruct (Z.lt_ge_cases n 32) as [Hlt|Hge].
    - by rewrite Z.mul_pow2_bits_low.
    - rewrite (proj2 (Z.testbit_false a n Hn)); [by rewrite andb_false_r|].
      rewrite Z.div_small; [done|]. split; [lia|].
      apply Z.lt_le_trans with (2 ^ 32); [lia|]. apply Z.pow_le_mono_r; lia. }
  rewrite <-Z.lxor_lor, <-Z.add_nocarry_lxor by done. cbn zeta. unfold hd_of, aba_of.
  split; [lia|]. split.
  - rewrite Z.div_add_l by lia. rewrite Z.div_small; lia.
  - rewrite Z.add_comm, Z.mod_add by lia. by apply Z.mod_small.
Qed.

Lemma word_eq w w' :
  hd_of w = hd_of w' -> aba_of w = aba_of w' -> w = w'.
Proof.
  unfold hd_of, aba_of. intros Eh Ea.
  rewrite (Z.div_mod w (2 ^ 32)), (Z.div_mod w' (2 ^ 32)) by lia. by rewrite Eh, Ea.
Qed.

Lemma hd_of_range w : in_range 64 w -> in_range 32 (hd_of w).
Proof.
  unfold in_range, hd_of. intros Hw. split; [apply Z.div_pos; lia|].
  apply Z.div_lt_upper_bound; lia.
Qed.

Lemma aba_of_range w : in_range 32 (aba_of w).
Proof. apply Z.mod_pos_bound. lia. Qed.

(** ** The free list *)

(** The cells link the indices of [free] in this order, starting with [h]; the last
    cell refers to [cap]. *)
Fixpoint chain (cells : list Z) (cap h : Z) (free : list Z) : Prop :=
  match free with
  | [] => h = cap
  | f :: rest => h = f /\ 0 <= f < cap /\
      exists h', cells !! Z.to_nat f = Some h' /\ chain cells cap h' rest
  end.

Lemma chain_bound cells cap free : forall h i,
  chain cells cap h free -> i ∈ free -> 0 <= i < cap.
Proof.
  induction free as [|f rest IH]; intros h i Hc Hi; [by apply not_elem_of_nil in Hi|].
  destruct Hc as (_ & Hf & h' & _ & Hc). apply elem_of_cons in Hi as [->|Hi]; eauto.
Qed.

(** Writing the cell of an index that is not free keeps the free list. *)
Lemma chain_insert cells cap i v free : forall h,
  0 <= i -> i ∉ free -> chain cells cap h free ->
  chain (<[Z.to_nat i := v]> cells) cap h free.
Proof.
  induction free as [|f rest IH]; intros h Hi Hn Hc; [done|].
  destruct Hc as (-> & Hf & h' & E & Hc). apply not_elem_of_cons in Hn as [Hne Hn].
  split_and!; [done|lia..|]. exists h'. split; [|by apply IH].
  rewrite list_lookup_insert_ne by lia. done.
Qed.

Lemma chain_head_full cells cap h free : chain cells cap h free -> (free = [] <-> cap <= h).
Proof.
  destruct free as [|f rest]; cbn; [intros ->; split; [lia|done]|].
  intros (-> & Hf & _). split; [done|lia].
Qed.

(** The chain of a fresh set: cell [i] refers to [i + 1]. *)
Lemma chain_initial cells cap (n : nat) : forall h,
  0 <= h -> cap = h + Z.of_nat n ->
  (forall i, 0 <= i < cap -> cells !! Z.to_nat i = Some (i + 1)) ->
  chain cells cap h (seqZ h (Z.of_nat n)).
Proof.
  induction n as [|n IH]; intros h Hh Ec Hl; [change (h = cap); lia|].
  rewrite seqZ_cons by lia. cbn. split_and!; [done|lia..|].
  exists (h + 1). split; [apply Hl; lia|].
  replace (Z.pred (Z.of_nat (S n))) with (Z.of_nat n) by lia.
  apply IH; [lia|lia|done].
Qed.

(** [q] is an initialised set whose free indices are [free]. *)
Record repr (q : UniqueIndexSet) (free : list Z) : Prop := {
  repr_capacity : 0 <= q.(capacity) < 2 ^ 32 - 1;
  repr_init : q.(is_memory_initialized) = true;
  repr_cells : q.(capacity) < zlength q.(next_free_index);
  repr_range : Forall (in_range 32) q.(next_free_index);
  repr_head : in_range 64 q.(head);
  repr_chain : chain q.(next_free_index) q.(capacity) (hd_of q.(head)) free;
  repr_nodup : NoDup free;
}.

(** A set in which no index has been acquired yet. *)
Definition fresh (q : UniqueIndexSet) : Prop :=
  repr q (seqZ 0 q.(capacity)) /\ aba_of q.(head) = 0 /\ q.(borrowed_indices) = 0.

Lemma initial_cells_lookup n i :
  0 <= i < n -> initial_cells n !! Z.to_nat i = Some (i + 1).
Proof.
  intros Hi. unfold initial_cells. rewrite list_lookup_fmap, lookup_seqZ_lt by lia.
  cbn. f_equal. lia.
Qed.

Lemma initial_cells_length n : 0 <= n -> zlength (initial_cells n) = n.
Proof. intros Hn. unfold zlength, initial_cells. rewrite length_fmap, length_seqZ. lia. Qed.

Lemma repr_new q :
  0 <= q.(capacity) < 2 ^ 32 - 1 -> q.(is_memory_initialized) = true -> q.(head) = 0 ->
  q.(capacity) < zlength q.(next_free_index) ->
  Forall (in_range 32) q.(next_free_index) ->
  (forall i, 0 <= i < q.(capacity) -> q.(next_free_index) !! Z.to_nat i = Some (i + 1)) ->
  repr q (seqZ 0 q.(capacity)).
Proof.
  intros Hc Hi Eh Hl Hr Hcell. split; try done; try lia.
  - rewrite Eh. done.
  - rewrite Eh. change (hd_of 0) with 0.
    pose proof (chain_initial q.(next_free_index) q.(capacity) (Z.to_nat q.(capacity)) 0) as Hch.
    rewrite Z2Nat.id in Hch by lia. apply Hch; [lia|lia|done].
  - apply NoDup_seqZ.
Qed.

Lemma initial_cells_range n : 0 <= n < 2 ^ 32 -> Forall (in_range 32) (initial_cells n).
Proof.
  intros Hn. apply Forall_fmap, Forall_forall. intros i Hi%elem_of_seqZ.
  unfold in_range. cbn. lia.
Qed.

Lemma fresh_new q :
  0 <= q.(capacity) < 2 ^ 32 - 1 -> q.(is_memory_initialized) = true -> q.(head) = 0 ->
  q.(borrowed_indices) = 0 -> q.(capacity) < zlength q.(next_free_index) ->
  Forall (in_range 32) q.(next_free_index) ->
  (forall i, 0 <= i < q.(capacity) -> q.(next_free_index) !! Z.to_nat i = Some (i + 1)) ->
  fresh q.
Proof.
  intros Hc Hi Eh Eb Hl Hr Hcell. split; [by apply repr_new|]. split; [|done]. by rewrite Eh.
Qed.

(** [init] links all indices. *)
Lemma init_fresh `{Profile} `{BaseAllocator A} cap (a : A) q a' :
  0 <= cap < 2 ^ 32 - 1 -> init (new_uninit cap) a = Ret (Ok tt, q, a') ->
  fresh q /\ q.(capacity) = cap.
Proof.
  intros Hc. unfold init, new_uninit. cbn [is_memory_initialized capacity].
  rewrite cast_small by (unfold in_range; lia). checked.
  destruct (allocate a _) as [[[c|e] a1]|]; cbn; try done. intros [= <- <-].
  split; [|done]. apply fresh_new; cbn; try done; try lia.
  - rewrite initial_cells_length; lia.
  - apply initial_cells_range. lia.
  - intros i Hi. apply initial_cells_lookup. lia.
Qed.

(** The cells of the fixed-size set, also when only a part of them is used. *)
Lemma new_fresh CAPACITY cap distance :
  0 <= cap <= CAPACITY -> CAPACITY < 2 ^ 32 - 1 ->
  fresh (new cap distance (initial_cells CAPACITY ++ [cap + 1])).
Proof.
  intros Hc HC. apply fresh_new; cbn; rewrite ?cast_small by (unfold in_range; lia); try done.
  - lia.
  - rewrite zlength_app, initial_cells_length by lia. change (zlength [cap + 1]) with 1. lia.
  - apply Forall_app. split; [apply initial_cells_range; lia|]. constructor; [|done].
    unfold in_range. lia.
  - intros i Hi. rewrite lookup_app_l; [apply initial_cells_lookup; lia|].
    pose proof (initial_cells_length CAPACITY). unfold zlength in *. lia.
Qed.

Section sequential.
Context `{Profile}.

Lemma repr_get q free i : repr q free -> 0 <= i <= q.(capacity) ->
  exists v, get_next_free_index q i = Ret v /\ q.(next_free_index) !! Z.to_nat i = Some v /\
    in_range 32 v.
Proof.
  intros Hr Hi. destruct (index_in_bounds q.(next_free_index) i) as (v & E & Ei).
  { pose proof (repr_cells _ _ Hr). lia. }
  exists v. split_and!; [done..|]. eapply Forall_lookup_1; [apply Hr|done].
Qed.

Lemma repr_put q free i v : repr q free -> 0 <= i < q.(capacity) ->
  put_next_free_index q i v = Ret (set_next q (<[Z.to_nat i := v]> q.(next_free_index))).
Proof.
  intros Hr Hi. unfold put_next_free_index. rewrite update_ok; [done|].
  pose proof (repr_cells _ _ Hr). lia.
Qed.

(** Writing the cell of an index that is not free. *)
Lemma repr_scribble q free i v :
  repr q free -> 0 <= i < q.(capacity) -> i ∉ free -> in_range 32 v ->
  repr (set_next q (<[Z.to_nat i := v]> q.(next_free_index))) free.
Proof.
  intros [Hc Hi Hl Hf Hh Hch Hnd] Hb Hn Hv. split; cbn; try done.
  - by rewrite zlength_insert.
  - by apply Forall_insert.
  - apply chain_insert; [lia|done..].
Qed.

(** Taking the first free index. *)
Lemma repr_take q i rest nh a :
  repr q (i :: rest) -> q.(next_free_index) !! Z.to_nat i = Some nh -> in_range 32 a ->
  repr (set_head q (pack_from_head_and_aba nh a)) rest /\
  aba_of (pack_from_head_and_aba nh a) = a.
Proof.
  intros [Hc Hi Hl Hf Hh Hch Hnd] E Ha.
  destruct (pack_ok nh a) as (Hw & Ehd & Eab); [by eapply Forall_lookup_1|done|].
  cbn in Hch. destruct Hch as (_ & Hb & h' & E' & Hch). assert (h' = nh) as -> by congruence.
  split; [|done]. split; cbn; try done; [by rewrite Ehd|]. by inversion Hnd.
Qed.

(** Linking an index in front of the free list. *)
Lemma repr_link q i free a :
  repr q free -> 0 <= i < q.(capacity) -> i ∉ free ->
  q.(next_free_index) !! Z.to_nat i = Some (hd_of q.(head)) -> in_range 32 a ->
  repr (set_head q (pack_from_head_and_aba i a)) (i :: free) /\
  aba_of (pack_from_head_and_aba i a) = a.
Proof.
  intros [Hc Hi Hl Hf Hh Hch Hnd] Hb Hn E Ha.
  destruct (pack_ok i a) as (Hw & Ehd & Eab); [unfold in_range; lia|done|].
  split; [|done]. split; cbn; try done.
  - split_and!; [done|lia..|]. by exists (hd_of q.(head)).
  - by constructor.
Qed.

Lemma repr_set_borrowed q free n : repr q free -> repr (set_borrowed q n) free.
Proof. intros []. by split. Qed.

Lemma acquire_none q : repr q [] -> acquire_raw_index q = Ret (None, q).
Proof.
  intros Hr. unfold acquire_raw_index, verify_init. rewrite (repr_init _ _ Hr). cbn.
  rewrite extract_ok by apply Hr. pose proof (repr_chain _ _ Hr) as E. cbn in E.
  rewrite (proj2 (Z.leb_le _ _)) by lia. done.
Qed.

Lemma acquire_some q i rest :
  repr q (i :: rest) -> aba_of q.(head) + 1 < 2 ^ 32 ->
  exists q', acquire_raw_index q = Ret (Some i, q') /\ repr q' rest /\
    q'.(capacity) = q.(capacity) /\ aba_of q'.(head) = aba_of q.(head) + 1 /\
    q'.(borrowed_indices) = wrapping_add 64 q.(borrowed_indices) 1.
Proof.
  intros Hr Ha. unfold acquire_raw_index, verify_init. rewrite (repr_init _ _ Hr). cbn.
  rewrite extract_ok by apply Hr. pose proof (repr_chain _ _ Hr) as Hch. cbn in Hch.
  destruct Hch as (Eh & Hb & _). rewrite Eh, (proj2 (Z.leb_gt _ _)) by lia.
  destruct (repr_get q (i :: rest) i Hr) as (nh & -> & En & Hnh); [lia|]. cbn.
  rewrite uadd_ok by lia. cbn. unfold compare_exchange_head. rewrite Z.eqb_refl. cbn.
  destruct (repr_take q i rest nh (aba_of q.(head) + 1)) as [Hr' Eab]; [done..| |].
  { unfold in_range. pose proof (aba_of_range q.(head)). unfold in_range in *. lia. }
  pose proof (repr_capacity _ _ Hr). rewrite uadd_ok by lia. cbn.
  rewrite (repr_put _ rest) by done. cbn. eexists. split; [done|]. cbn. split; [|by rewrite Eab].
  apply (repr_set_borrowed (set_next _ _)), (repr_scribble (set_head _ _)); [done..| |].
  - pose proof (repr_nodup _ _ Hr) as Hnd. by inversion Hnd.
  - unfold in_range. lia.
Qed.

Lemma uis_release_ok q i free :
  repr q free -> 0 <= i < q.(capacity) -> i ∉ free -> aba_of q.(head) + 1 < 2 ^ 32 ->
  exists q', release_raw_index q i = Ret q' /\ repr q' (i :: free) /\
    q'.(capacity) = q.(capacity) /\ aba_of q'.(head) = aba_of q.(head) + 1 /\
    q'.(borrowed_indices) = wrapping_sub 64 q.(borrowed_indices) 1.
Proof.
  intros Hr Hb Hn Ha. unfold release_raw_index, verify_init. rewrite (repr_init _ _ Hr). cbn.
  rewrite extract_ok by apply Hr. rewrite (repr_put _ free) by done. cbn.
  rewrite uadd_ok by lia. cbn. unfold compare_exchange_head. cbn. rewrite Z.eqb_refl. cbn.
  assert (Hr1 := repr_scribble q free i (hd_of q.(head)) Hr Hb Hn
    (hd_of_range _ (repr_head _ _ Hr))).
  destruct (repr_link _ i free (aba_of q.(head) + 1) Hr1) as [Hr' Eab]; [done..| | |].
  - cbn. rewrite list_lookup_insert_eq; [done|].
    pose proof (repr_cells _ _ Hr). unfold zlength in *. lia.
  - pose proof (aba_of_range q.(head)). unfold in_range in *. lia.
  - eexists. split; [done|]. cbn. split; [|by rewrite Eab].
    by apply (repr_set_borrowed (set_head _ _)).
Qed.

End sequential.

(** ** The concurrent invariant *)

(** Threads whose index is no longer owned but still counted as borrowed. *)
Definition releasing (p : pc) : list unit :=
  match p with RelLoad _ | RelWrite _ _ | RelCas _ _ | RelCount => [tt] | _ => [] end.

(** An outdated head differs from the current one in its counter. *)
Definition old_ok (q : UniqueIndexSet) (sw old : Z) : Prop :=
  in_range 64 old /\ aba_of old <= sw /\ (aba_of old = sw -> old = q.(head)).

Definition thread_ok (q : UniqueIndexSet) (sw : Z) (p : pc) : Prop :=
  match p with
  | AcqRead old => old_ok q sw old /\ hd_of old < q.(capacity)
  | AcqCas old nh =>
      old_ok q sw old /\ hd_of old < q.(capacity) /\ in_range 32 nh /\
      (aba_of old = sw -> q.(next_free_index) !! Z.to_nat (hd_of old) = Some nh)
  | RelWrite _ old => old_ok q sw old
  | RelCas i old =>
      old_ok q sw old /\ q.(next_free_index) !! Z.to_nat i = Some (hd_of old)
  | _ => True
  end.

Record Inv (cap : Z) (g : shared) (ps : list pc) (free : list Z) : Prop := {
  inv_repr : repr g.(set) free;
  inv_cap : g.(set).(capacity) = cap;
  inv_swaps : aba_of g.(set).(head) = g.(swaps);
  inv_perm : free ++ g.(owned) ++ (ps ≫= held) ≡ₚ seqZ 0 cap;
  inv_threads : Forall (thread_ok g.(set) g.(swaps)) ps;
  inv_borrowed :
    g.(set).(borrowed_indices) = zlength g.(owned) + zlength (ps ≫= releasing);
  inv_width : zlength ps + cap < 2 ^ 64;
  inv_panicked : g.(panicked) = false;
}.

Lemma zlength_bind_insert {A B} (f : A -> list B) (l : list A) k p p' :
  l !! k = Some p ->
  zlength (<[k := p']> l ≫= f) + zlength (f p) = zlength (l ≫= f) + zlength (f p').
Proof.
  intros E. rewrite <-!zlength_app. unfold zlength. f_equal.
  apply Permutation_length. by apply bind_insert_perm.
Qed.

Lemma zlength_bind_le {A B} (f : A -> list B) (l : list A) :
  (forall a, zlength (f a) <= 1) -> zlength (l ≫= f) <= zlength l.
Proof.
  intros Hf. induction l as [|a l IH]; [done|]. rewrite bind_cons, zlength_app.
  specialize (Hf a). unfold zlength in *. simpl length. lia.
Qed.

Section concurrent.
Context `{Profile}.
Implicit Types (g : shared) (ps : list pc) (free : list Z).

(** What a step has to establish, stated only for the stepping thread. *)
Lemma uis_inv_update cap g ps free k p g' p' free' :
  Inv cap g ps free -> ps !! k = Some p ->
  repr g'.(set) free' -> g'.(set).(capacity) = cap -> aba_of g'.(set).(head) = g'.(swaps) ->
  free' ++ g'.(owned) ++ held p' ≡ₚ free ++ g.(owned) ++ held p ->
  thread_ok g'.(set) g'.(swaps) p' ->
  (forall j o, j <> k -> ps !! j = Some o -> thread_ok g.(set) g.(swaps) o ->
     thread_ok g'.(set) g'.(swaps) o) ->
  g'.(set).(borrowed_indices) - g.(set).(borrowed_indices) =
    zlength g'.(owned) + zlength (releasing p') - zlength g.(owned) - zlength (releasing p) ->
  g'.(panicked) = g.(panicked) ->
  Inv cap g' (<[k := p']> ps) free'.
Proof.
  intros [Hr Ec Es Hp Ht Hb Hw Hpa] Ek Hr' Ec' Es' Hperm Htk Hto Hbr Epa. split; try done.
  - apply (Permutation_app_inv_r (held p)). rewrite <-Hp.
    rewrite <-!app_assoc. rewrite (bind_insert_perm held ps k p p' Ek).
    rewrite (Permutation_app_comm (ps ≫= held) (held p')), !app_assoc.
    rewrite <-(app_assoc free'), Hperm, <-!app_assoc.
    do 2 apply Permutation_app_head. apply Permutation_app_comm.
  - by apply (iact_Forall (fun g => thread_ok g.(set) g.(swaps)) k g ps g' p).
  - pose proof (zlength_bind_insert releasing ps k p p' Ek). lia.
  - by rewrite zlength_insert.
  - congruence.
Qed.

Lemma inv_held cap g ps free k p i :
  Inv cap g ps free -> ps !! k = Some p -> i ∈ held p ->
  0 <= i < cap /\ (i ∉ free) /\ (forall j o, j <> k -> ps !! j = Some o -> i ∉ held o).
Proof.
  intros [Hr Ec Es Hp Ht Hb Hw Hpa] Ek Hi.
  assert (Hin : i ∈ (ps ≫= held)).
  { apply list_elem_of_bind. exists p. split; [done|]. by eapply list_elem_of_lookup_2. }
  assert (Hnd : NoDup (free ++ g.(owned) ++ (ps ≫= held))) by (rewrite Hp; apply NoDup_seqZ).
  assert (Hb' : i ∈ seqZ 0 cap) by (rewrite <-Hp, !elem_of_app; tauto).
  apply elem_of_seqZ in Hb'. split_and!; [lia..| |].
  - apply NoDup_app in Hnd as (_ & Hd & _). intros Hf. apply (Hd i Hf).
    rewrite elem_of_app. by right.
  - intros j o Hne Ej Ho. apply NoDup_app in Hnd as (_ & _ & Hnd).
    apply NoDup_app in Hnd as (_ & _ & Hnd).
    by apply (bind_lookup_two held ps k j p o i i Ek Ej).
Qed.

(** *** Stability of the other threads *)

Lemma stable_swap q h sw o :
  thread_ok q sw o -> thread_ok (set_head q h) (sw + 1) o.
Proof.
  destruct o; cbn; unfold old_ok; cbn; try done; intuition lia.
Qed.

Lemma stable_put q sw free i v o :
  repr q free -> aba_of q.(head) = sw -> 0 <= i -> i ∉ free -> i ∉ held o ->
  (forall j, j ∈ held o -> 0 <= j) ->
  thread_ok q sw o -> thread_ok (set_next q (<[Z.to_nat i := v]> q.(next_free_index))) sw o.
Proof.
  intros Hr Es Hi Hn Ho Hpos Hok. destruct o as [| |old|old nh| | |j|j old|j old|]; try done.
  - cbn in *. destruct Hok as (Hold & Hlt & Hnh & Hnext). split_and!; try done.
    intros Ea. rewrite list_lookup_insert_ne; [by apply Hnext|]. intros E. apply Hn.
    pose proof (hd_of_range old (proj1 Hold)) as Hh. unfold in_range in Hh.
    destruct Hold as (_ & _ & Eold). rewrite (Eold Ea) in *.
    pose proof (repr_chain _ _ Hr) as Hch. destruct free as [|f rest]; cbn in Hch; [lia|].
    destruct Hch as (Ehd & _). replace i with f by lia. by left.
  - cbn in *. destruct Hok as [Hold Hnext]. split; [done|].
    rewrite list_lookup_insert_ne; [done|]. intros E. apply Ho.
    specialize (Hpos j). rewrite list_elem_of_singleton in *. lia.
Qed.

Lemma stable_put_all cap g ps free k p i v :
  Inv cap g ps free -> ps !! k = Some p -> i ∈ held p ->
  forall j o, j <> k -> ps !! j = Some o -> thread_ok g.(set) g.(swaps) o ->
  thread_ok (set_next g.(set) (<[Z.to_nat i := v]> g.(set).(next_free_index))) g.(swaps) o.
Proof.
  intros Hi Ek Hin j o Hne Ej Hok.
  destruct (inv_held cap g ps free k p i Hi Ek Hin) as (Hb & Hnf & Hno).
  apply (stable_put _ _ free); try apply Hi; try done; [lia|by eapply Hno|].
  intros x Hx. destruct (inv_held cap g ps free j o x Hi Ej Hx) as [? _]. lia.
Qed.

Lemma old_ok_current q sw : in_range 64 q.(head) -> aba_of q.(head) = sw -> old_ok q sw q.(head).
Proof. intros Hr <-. by split_and!. Qed.

Lemma acquire_check_ok q free sw :
  repr q free -> aba_of q.(head) = sw ->
  thread_ok q sw (acquire_check q q.(head)) /\ held (acquire_check q q.(head)) = [] /\
  releasing (acquire_check q q.(head)) = [].
Proof.
  intros Hr Es. unfold acquire_check. rewrite extract_ok by apply Hr. cbn.
  destruct (_ <=? _) eqn:E; [done|]. bool_to_prop. split_and!; try done.
  split; [|done]. apply old_ok_current; [apply Hr|done].
Qed.

(** *** The steps *)

(** A step that changes neither the set nor what anybody holds. *)
Lemma uis_inv_local cap g ps free k p p' :
  Inv cap g ps free -> ps !! k = Some p -> held p' = held p -> releasing p' = releasing p ->
  thread_ok g.(set) g.(swaps) p' -> Inv cap g (<[k := p']> ps) free.
Proof.
  intros Hi Ek Eh Er Hok. apply (uis_inv_update cap g ps free k p); try apply Hi; try done.
  - by rewrite Eh.
  - rewrite Er. lia.
Qed.

Lemma inv_acq_cas cap g ps free k old nh q p' :
  Inv cap g ps free -> ps !! k = Some (AcqCas old nh) -> g.(swaps) + 1 < 2 ^ 32 ->
  thread_step g.(set) (AcqCas old nh) = Ret (q, p') ->
  exists free', Inv cap
    {| set := q; owned := g.(owned); swaps := record_swap (AcqCas old nh) p' g.(swaps);
       panicked := g.(panicked) |} (<[k := p']> ps) free'.
Proof.
  intros Hi Ek HB E. pose proof (Forall_lookup_1 _ _ _ _ (inv_threads _ _ _ _ Hi) Ek) as Hok.
  destruct Hok as (Hold & Hlt & Hnh & Hnext). pose proof Hi as [Hr Ec Es Hp Ht Hb Hw Hpa].
  cbn in E. rewrite extract_ok in E by apply Hold. cbn in E. pose proof (aba_of_range old) as Ha.
  unfold in_range in Ha. rewrite uadd_ok in E by (destruct Hold; lia). cbn in E.
  unfold compare_exchange_head in E. destruct (_ =? old) eqn:Eo; bool_to_prop; cbn in E.
  - injection E as <- <-. subst old. destruct free as [|f rest].
    { pose proof (repr_chain _ _ Hr) as Hch. cbn in Hch. lia. }
    pose proof (repr_chain _ _ Hr) as (Ef & _). rewrite Ef in *.
    destruct (repr_take g.(set) f rest nh (aba_of g.(set).(head) + 1) Hr) as [Hr' Eab];
      [by apply Hnext|unfold in_range; lia|].
    exists rest. apply (uis_inv_update cap g ps (f :: rest) k (AcqCas g.(set).(head) nh));
      cbn; try done; try lia.
    + cbn. rewrite app_nil_r, app_assoc. symmetry. apply Permutation_cons_append.
    + intros j o _ _. apply stable_swap.
  - injection E as <- <-. exists free.
    destruct (acquire_check_ok g.(set) free g.(swaps) Hr Es) as (Hok & Hh & Hrel).
    replace (record_swap _ _ _) with g.(swaps).
    + destruct g. by apply (uis_inv_local _ _ _ _ _ (AcqCas old nh)).
    + unfold acquire_check. by destruct (_ <=? _).
Qed.

Lemma inv_rel_cas cap g ps free k i old q p' :
  Inv cap g ps free -> ps !! k = Some (RelCas i old) -> g.(swaps) + 1 < 2 ^ 32 ->
  thread_step g.(set) (RelCas i old) = Ret (q, p') ->
  exists free', Inv cap
    {| set := q; owned := g.(owned); swaps := record_swap (RelCas i old) p' g.(swaps);
       panicked := g.(panicked) |} (<[k := p']> ps) free'.
Proof.
  intros Hi Ek HB E. pose proof (Forall_lookup_1 _ _ _ _ (inv_threads _ _ _ _ Hi) Ek) as Hok.
  destruct Hok as (Hold & Hnext). pose proof Hi as [Hr Ec Es Hp Ht Hb Hw Hpa].
  destruct (inv_held cap g ps free k _ i Hi Ek) as (Hib & Hnf & _); [by left|].
  cbn in E. rewrite extract_ok in E by apply Hold. cbn in E. pose proof (aba_of_range old) as Ha.
  unfold in_range in Ha. rewrite uadd_ok in E by (destruct Hold; lia). cbn in E.
  unfold compare_exchange_head in E. destruct (_ =? old) eqn:Eo; bool_to_prop; cbn in E.
  - injection E as <- <-. subst old.
    destruct (repr_link g.(set) i free (aba_of g.(set).(head) + 1) Hr) as [Hr' Eab];
      [lia|done..|unfold in_range; lia|].
    exists (i :: free). apply (uis_inv_update cap g ps free k (RelCas i g.(set).(head)));
      cbn; try done; try lia.
    + cbn. rewrite app_nil_r, (app_assoc free). apply Permutation_cons_append.
    + intros j o _ _. apply stable_swap.
  - injection E as <- <-. exists free. destruct g. cbn in *.
    apply (uis_inv_local _ _ _ _ _ (RelCas i old)); try done.
    apply old_ok_current; [apply Hr|done].
Qed.

Lemma inv_put cap g ps free k p i v p' :
  Inv cap g ps free -> ps !! k = Some p -> i ∈ held p -> in_range 32 v ->
  held p' = held p -> releasing p' = releasing p ->
  (forall q, q = set_next g.(set) (<[Z.to_nat i := v]> g.(set).(next_free_index)) ->
     q.(next_free_index) !! Z.to_nat i = Some v -> thread_ok q g.(swaps) p') ->
  Inv cap
    {| set := set_next g.(set) (<[Z.to_nat i := v]> g.(set).(next_free_index));
       owned := g.(owned); swaps := g.(swaps); panicked := g.(panicked) |}
    (<[k := p']> ps) free.
Proof.
  intros Hi Ek Hin Hv Eh Er Hok. destruct (inv_held cap g ps free k p i Hi Ek Hin) as (Hb & Hnf & _).
  assert (Hr := inv_repr _ _ _ _ Hi). pose proof (inv_cap _ _ _ _ Hi) as Ec.
  apply (uis_inv_update cap g ps free k p); cbn; try done.
  - by apply repr_scribble; [|lia|..].
  - apply Hi.
  - by rewrite Eh.
  - apply Hok; [done|]. cbn. rewrite list_lookup_insert_eq; [done|].
    pose proof (repr_cells _ _ Hr). unfold zlength in *. lia.
  - by eapply stable_put_all.
  - rewrite Er. lia.
Qed.

(** The counter of borrowed indices never wraps. *)
Lemma inv_count_bound cap g ps free :
  Inv cap g ps free ->
  zlength g.(owned) + zlength (ps ≫= held) <= cap /\ zlength (ps ≫= releasing) <= zlength ps.
Proof.
  intros [Hr Ec Es Hp Ht Hb Hw Hpa]. split.
  - apply Permutation_length in Hp. rewrite !length_app, length_seqZ in Hp.
    pose proof (repr_capacity _ _ Hr). unfold zlength. lia.
  - apply zlength_bind_le. intros []; done.
Qed.

Lemma zlength_bind_lookup {A B} (f : A -> list B) (l : list A) k p :
  l !! k = Some p -> zlength (f p) <= zlength (l ≫= f).
Proof.
  intros E. rewrite <-(take_drop_middle l k p E), bind_app, bind_cons, !zlength_app.
  pose proof (zlength_nonneg (take k l ≫= f)). pose proof (zlength_nonneg (drop (S k) l ≫= f)).
  lia.
Qed.

Lemma inv_acq_count cap g ps free k i :
  Inv cap g ps free -> ps !! k = Some (AcqCount i) ->
  Inv cap
    {| set := set_borrowed g.(set) (wrapping_add 64 g.(set).(borrowed_indices) 1);
       owned := i :: g.(owned); swaps := g.(swaps); panicked := g.(panicked) |}
    (<[k := Idle (Some i)]> ps) free.
Proof.
  intros Hi Ek. destruct (inv_count_bound cap g ps free Hi) as [Hc1 Hc2].
  pose proof (zlength_bind_lookup held ps k _ Ek) as Hh. cbn in Hh.
  pose proof Hi as [Hr Ec Es Hp Ht Hb Hw Hpa].
  pose proof (zlength_nonneg g.(owned)). pose proof (zlength_nonneg (ps ≫= releasing)).
  change (zlength [i]) with 1 in Hh.
  apply (uis_inv_update cap g ps free k (AcqCount i)); cbn; try done.
  - by apply repr_set_borrowed.
  - rewrite app_nil_r. apply Permutation_app_head, Permutation_cons_append.
  - rewrite wrapping_add_small by lia. unfold zlength. simpl length. lia.
Qed.

Lemma inv_rel_count cap g ps free k :
  Inv cap g ps free -> ps !! k = Some RelCount ->
  Inv cap
    {| set := set_borrowed g.(set) (wrapping_sub 64 g.(set).(borrowed_indices) 1);
       owned := g.(owned); swaps := g.(swaps); panicked := g.(panicked) |}
    (<[k := Idle None]> ps) free.
Proof.
  intros Hi Ek. destruct (inv_count_bound cap g ps free Hi) as [Hc1 Hc2].
  pose proof (zlength_bind_lookup releasing ps k _ Ek) as Hh. cbn in Hh.
  pose proof Hi as [Hr Ec Es Hp Ht Hb Hw Hpa].
  pose proof (zlength_nonneg g.(owned)). pose proof (zlength_nonneg (ps ≫= held)).
  change (zlength [()]) with 1 in Hh.
  apply (uis_inv_update cap g ps free k RelCount); cbn; try done.
  - by apply repr_set_borrowed.
  - rewrite wrapping_sub_small by lia. change (zlength [()]) with 1.
    change (zlength (@nil unit)) with 0. lia.
Qed.

Lemma inv_step cap g ps free k p q p' :
  Inv cap g ps free -> ps !! k = Some p -> g.(swaps) + 1 < 2 ^ 32 ->
  thread_step g.(set) p = Ret (q, p') ->
  exists free', Inv cap
    {| set := q; owned := record_owned p g.(owned); swaps := record_swap p p' g.(swaps);
       panicked := g.(panicked) |} (<[k := p']> ps) free'.
Proof.
  intros Hi Ek HB E. pose proof (inv_repr _ _ _ _ Hi) as Hr.
  pose proof (inv_swaps _ _ _ _ Hi) as Es. pose proof (inv_cap _ _ _ _ Hi) as Ec.
  pose proof (Forall_lookup_1 _ _ _ _ (inv_threads _ _ _ _ Hi) Ek) as Hok.
  pose proof (repr_capacity _ _ Hr) as Hc.
  destruct p as [r| |old|old nh|i|i|i|i old|i old|]; cbn [record_owned].
  - injection E as <- <-. exists free. destruct g. by apply (uis_inv_local _ _ _ _ _ (Idle r)).
  - cbn in E. unfold verify_init in E. rewrite (repr_init _ _ Hr) in E. injection E as <- <-.
    destruct (acquire_check_ok g.(set) free g.(swaps) Hr Es) as (Hok' & Hh & Hrel).
    exists free. destruct g. by apply (uis_inv_local _ _ _ _ _ AcqLoad).
  - cbn in E, Hok. destruct Hok as [Hold Hlt]. rewrite extract_ok in E by apply Hold. cbn in E.
    pose proof (hd_of_range old (proj1 Hold)) as Hhd. unfold in_range in Hhd.
    destruct (repr_get g.(set) free (hd_of old) Hr) as (v & Ev & El & Hv); [lia|].
    rewrite Ev in E. injection E as <- <-. exists free. destruct g.
    by apply (uis_inv_local _ _ _ _ _ (AcqRead old)).
  - by eapply inv_acq_cas.
  - destruct (inv_held cap g ps free k _ i Hi Ek) as (Hb & _); [by left|].
    cbn in E. rewrite uadd_ok in E by lia. cbn in E. rewrite (repr_put _ free) in E by (done || lia).
    injection E as <- <-. exists free. apply (inv_put _ _ _ _ _ (AcqClear i)); try done; [by left|].
    unfold in_range. lia.
  - injection E as <- <-. exists free. by apply inv_acq_count.
  - cbn in E. unfold verify_init in E. rewrite (repr_init _ _ Hr) in E. injection E as <- <-.
    exists free. destruct g. apply (uis_inv_local _ _ _ _ _ (RelLoad i)); try done.
    apply old_ok_current; [apply Hr|done].
  - destruct (inv_held cap g ps free k _ i Hi Ek) as (Hb & _); [by left|].
    cbn in E, Hok. rewrite extract_ok in E by apply Hok. cbn in E.
    rewrite (repr_put _ free) in E by (done || lia).
    injection E as <- <-. exists free. apply (inv_put _ _ _ _ _ (RelWrite i old)); try done.
    + by left.
    + apply hd_of_range, Hok.
    + intros q -> El. by split.
  - by eapply inv_rel_cas.
  - injection E as <- <-. exists free. by apply inv_rel_count.
Qed.

Lemma uis_no_panic cap g ps free k p :
  Inv cap g ps free -> ps !! k = Some p -> g.(swaps) + 1 < 2 ^ 32 ->
  is_ret (thread_step g.(set) p) = true.
Proof.
  intros Hi Ek HB. pose proof (inv_repr _ _ _ _ Hi) as Hr.
  pose proof (inv_cap _ _ _ _ Hi) as Ec. pose proof (repr_capacity _ _ Hr) as Hc.
  pose proof (Forall_lookup_1 _ _ _ _ (inv_threads _ _ _ _ Hi) Ek) as Hok.
  destruct p as [r| |old|old nh|i|i|i|i old|i old|]; cbn in *; try done.
  - unfold verify_init. by rewrite (repr_init _ _ Hr).
  - destruct Hok as [Hold Hlt]. rewrite extract_ok by apply Hold. cbn.
    pose proof (hd_of_range old (proj1 Hold)) as Hhd. unfold in_range in Hhd.
    destruct (repr_get g.(set) free (hd_of old) Hr) as (v & -> & _); [lia|done].
  - destruct Hok as [Hold Hlt]. rewrite extract_ok by apply Hold. cbn.
    destruct Hold as (_ & Ha & _). rewrite uadd_ok by lia. cbn.
    unfold compare_exchange_head. by destruct (_ =? _).
  - destruct (inv_held cap g ps free k _ i Hi Ek) as (Hb & _); [by left|].
    rewrite uadd_ok by lia. cbn. by rewrite (repr_put _ free) by (done || lia).
  - unfold verify_init. by rewrite (repr_init _ _ Hr).
  - destruct (inv_held cap g ps free k _ i Hi Ek) as (Hb & _); [by left|].
    rewrite extract_ok by apply Hok. cbn. by rewrite (repr_put _ free) by (done || lia).
  - destruct Hok as [Hold Hlt]. rewrite extract_ok by apply Hold. cbn.
    destruct Hold as (_ & Ha & _). rewrite uadd_ok by lia. cbn.
    unfold compare_exchange_head. by destruct (_ =? _).
Qed.

Lemma act_swaps_mono s s' :
  act_step (iact act) s s' -> s.1.(swaps) <= s'.1.(swaps).
Proof.
  intros [a t E]. apply iact_inv in E as (p & p' & _ & E & _). destruct a as [k []]; cbn in E.
  - destruct p; try done. injection E as <- _. lia.
  - destruct p; try done. destruct (_ !! _); [|done]. injection E as <- _. cbn. lia.
  - destruct (thread_step _ p) as [[q p'']|]; injection E as <- _; cbn; [|lia].
    destruct p, p''; cbn; lia.
Qed.

Lemma uis_act_inv cap s s' :
  act_step (iact act) s s' -> s'.1.(swaps) <= 2 ^ 32 - 2 ->
  (exists free, Inv cap s.1 s.2 free) -> exists free, Inv cap s'.1 s'.2 free.
Proof.
  intros Hstep HB [free Hi]. pose proof (act_swaps_mono _ _ Hstep).
  destruct Hstep as [[k a] t E]. apply iact_inv in E as (p & p' & Ek & E & ->). cbn [fst snd] in *.
  destruct a; cbn in E.
  - destruct p; try done. injection E as <- <-. exists free. by eapply uis_inv_local.
  - destruct p as [r| | | | | | | | |]; try done. destruct (owned s.1 !! k0) as [i|] eqn:Eo; [|done].
    injection E as <- <-. exists free.
    apply (uis_inv_update cap s.1 s.2 free k (Idle r)); try apply Hi; cbn; try done.
    + rewrite app_nil_r. rewrite (lookup_split_perm _ _ _ Eo) at 2.
      apply Permutation_app_head. symmetry. apply Permutation_cons_append.
    + unfold zlength. rewrite length_delete by eauto.
      apply lookup_lt_Some in Eo. simpl length. lia.
  - pose proof (uis_no_panic cap s.1 s.2 free k p Hi Ek) as Hnp.
    destruct (thread_step _ p) as [[q p'']|] eqn:Et; [|specialize (Hnp ltac:(lia)); done].
    injection E as <- <-. eapply inv_step; [done|done|lia|done].
Qed.

Lemma uis_inv_start q n :
  fresh q -> Z.of_nat n + q.(capacity) < 2 ^ 64 ->
  Inv q.(capacity) (start q n).1 (start q n).2 (seqZ 0 q.(capacity)).
Proof.
  intros (Hr & Ha & Hb) Hn. assert (Hh : forall (f : pc -> list Z) m, f (Idle None) = [] ->
    replicate m (Idle None) ≫= f = []).
  { intros f m Ef. induction m as [|m IH]; [done|]. cbn [replicate]. by rewrite bind_cons, Ef, IH. }
  split; cbn; try done.
  - rewrite Hh by done. by rewrite app_nil_r.
  - apply Forall_replicate. done.
  - rewrite Hb. induction n as [|n IH]; [done|]. cbn [replicate]. rewrite bind_cons. apply IH. lia.
  - unfold zlength. rewrite length_replicate. done.
Qed.

Lemma uis_reachable_inv q n s :
  fresh q -> Z.of_nat n + q.(capacity) < 2 ^ 64 ->
  rtc (act_step (iact act)) (start q n) s -> s.1.(swaps) <= 2 ^ 32 - 2 ->
  exists free, Inv q.(capacity) s.1 s.2 free.
Proof.
  intros Hf Hn Hrtc HB.
  apply (rtc_bounded_invariant (act_step (iact act)) (fun s => s.1.(swaps)) (2 ^ 32 - 2)
    (fun s => exists free, Inv q.(capacity) s.1 s.2 free) (start q n)).
  - apply act_swaps_mono.
  - apply uis_act_inv.
  - done.
  - eexists. by apply uis_inv_start.
  - done.
Qed.

End concurrent.

(** ** Properties *)

(** C3: For any number of threads that acquire and release indices concurrently,
    starting from a fresh set and as long as at most 2^32 - 2 operations took
    effect: no step panics or leaves the cell array, every index is either in the
    free list, owned by exactly one user or held by exactly one thread in the middle
    of an operation, and none is lost. *)
Theorem unique_index_set_exclusive `{Profile} q n s :
  fresh q -> Z.of_nat n + q.(capacity) < 2 ^ 64 ->
  rtc (act_step (iact act)) (start q n) s -> s.1.(swaps) <= 2 ^ 32 - 2 ->
  s.1.(panicked) = false /\
  NoDup (s.1.(owned) ++ (s.2 ≫= held)) /\
  exists free, chain s.1.(set).(next_free_index) q.(capacity) (hd_of s.1.(set).(head)) free /\
    free ++ s.1.(owned) ++ (s.2 ≫= held) ≡ₚ seqZ 0 q.(capacity).
Proof.
  intros Hf Hn Hr HB. destruct (uis_reachable_inv q n s Hf Hn Hr HB) as [free Hi].
  destruct Hi as [Hrp Ec Es Hp Ht Hb Hw Hpa]. split_and!; [done| |].
  - assert (Hnd : NoDup (free ++ owned s.1 ++ (s.2 ≫= held))) by (rewrite Hp; apply NoDup_seqZ).
    by apply NoDup_app in Hnd as (_ & _ & Hnd).
  - exists free. split; [|done]. rewrite <-Ec. apply Hrp.
Qed.

(** Two threads: thread 0 prepares its compare-and-swap on index 0, thread 1 takes
    index 0, index 1 and returns index 0, and only then thread 0 goes on. *)
Definition aba_schedule : list (nat * thread_action) :=
  [(0%nat, CallAcquire); (0%nat, Step); (0%nat, Step)] ++
  [(1%nat, CallAcquire); (1%nat, Step); (1%nat, Step); (1%nat, Step); (1%nat, Step); (1%nat, Step)] ++
  [(1%nat, CallAcquire); (1%nat, Step); (1%nat, Step); (1%nat, Step); (1%nat, Step); (1%nat, Step)] ++
  [(1%nat, CallRelease 1); (1%nat, Step); (1%nat, Step); (1%nat, Step); (1%nat, Step)] ++
  [(0%nat, Step); (0%nat, Step); (0%nat, Step); (0%nat, Step); (0%nat, Step)].

Lemma unique_index_set_exclusive_witness :
  exists s, run_schedule (iact (act (H := dev))) aba_schedule
      (start (new 3 0 (initial_cells 3 ++ [4])) 2) = Some s /\
    s.1.(owned) = [0; 1] /\ NoDup (s.1.(owned) ++ (s.2 ≫= held)).
Proof.
  eexists. split; [vm_compute; reflexivity|]. split; [reflexivity|].
  eapply (unique_index_set_exclusive (H := dev) (new 3 0 (initial_cells 3 ++ [4])) 2).
  - apply (new_fresh 3 3 0); lia.
  - reflexivity.
  - apply (run_schedule_reachable _ aba_schedule). vm_compute. reflexivity.
  - intros E. discriminate E.
Defined.

(** Outcomes of concurrent operations are justified: [acquire_raw_index]
    returns [None] only in a state in which all indices are owned or held; a
    compare-and-swap fails only because another operation took effect since the head
    was loaded (lock-freedom); and when no operation is running,
    [borrowed_indices] is the number of owned indices. *)
Theorem unique_index_set_results `{Profile} q n s :
  fresh q -> Z.of_nat n + q.(capacity) < 2 ^ 64 ->
  rtc (act_step (iact act)) (start q n) s -> s.1.(swaps) <= 2 ^ 32 - 2 ->
  (forall k p q', s.2 !! k = Some p -> (p = AcqLoad \/ exists old nh, p = AcqCas old nh) ->
     thread_step s.1.(set) p = Ret (q', Idle None) ->
     zlength s.1.(owned) + zlength (s.2 ≫= held) = q.(capacity)) /\
  (forall k old, (exists nh, s.2 !! k = Some (AcqCas old nh)) \/
     (exists i, s.2 !! k = Some (RelCas i old)) ->
     s.1.(set).(head) <> old -> aba_of old < s.1.(swaps)) /\
  ((s.2 ≫= releasing) = [] -> s.1.(set).(borrowed_indices) = zlength s.1.(owned)).
Proof.
  intros Hf Hn Hr HB. destruct (uis_reachable_inv q n s Hf Hn Hr HB) as [free Hi].
  pose proof Hi as [Hrp Ec Es Hp Ht Hb Hw Hpa]. split_and!.
  - intros k p q' Ek Hpc E.
    assert (Hempty : capacity (set s.1) <= hd_of (head (set s.1))).
    { destruct Hpc as [->|(old & nh & ->)]; cbn in E; inv_outcome.
      - unfold acquire_check in *. rewrite extract_ok in * by apply Hrp. cbn in *. bool_cases.
        by bool_to_prop.
      - unfold compare_exchange_head in E. destruct (_ =? old); cbn in E; [done|].
        injection E as _ E. unfold acquire_check in E. rewrite extract_ok in E by apply Hrp.
        cbn in E. bool_cases. by bool_to_prop. }
    pose proof (proj2 (chain_head_full _ _ _ _ (repr_chain _ _ Hrp)) Hempty) as ->.
    apply Permutation_length in Hp. rewrite length_app, length_app, length_seqZ in Hp.
    pose proof (repr_capacity _ _ Hrp). unfold zlength. cbn in Hp. lia.
  - intros k old Hpc Hne. assert (Hold : old_ok s.1.(set) s.1.(swaps) old).
    { destruct Hpc as [[nh Ek]|[i Ek]]; apply (Forall_lookup_1 _ _ _ _ Ht Ek). }
    destruct Hold as (_ & Hle & Heq). destruct (Z.eq_dec (aba_of old) (swaps s.1)) as [E|]; [|lia].
    by rewrite (Heq E) in Hne.
  - intros E. rewrite Hb, E. change (zlength (@nil unit)) with 0. lia.
Qed.

Lemma unique_index_set_results_witness :
  exists s, run_schedule (iact (act (H := dev))) aba_schedule
      (start (new 3 0 (initial_cells 3 ++ [4])) 2) = Some s /\
    s.1.(set).(borrowed_indices) = zlength s.1.(owned).
Proof.
  eexists. split; [vm_compute; reflexivity|].
  eapply (unique_index_set_results (H := dev) (new 3 0 (initial_cells 3 ++ [4])) 2).
  - apply (new_fresh 3 3 0); lia.
  - reflexivity.
  - apply (run_schedule_reachable _ aba_schedule). vm_compute. reflexivity.
  - intros E. discriminate E.
  - reflexivity.
Defined.

(** Alone, [acquire_raw_index] hands out the most recently released free index
    and fails only when there is none; [release_raw_index] of an index that is in
    use puts it back in front; releasing right after acquiring restores the free
    list. *)
Theorem unique_index_set_lifo `{Profile} q free :
  repr q free -> aba_of q.(head) + 2 < 2 ^ 32 ->
  match free with
  | [] => acquire_raw_index q = Ret (None, q)
  | i :: rest =>
      exists q1 q2, acquire_raw_index q = Ret (Some i, q1) /\ repr q1 rest /\
        release_raw_index q1 i = Ret q2 /\ repr q2 free
  end.
Proof.
  intros Hr Ha. destruct free as [|i rest]; [by apply acquire_none|].
  destruct (acquire_some q i rest Hr) as (q1 & E1 & Hr1 & Ec1 & Ea1 & _); [lia|].
  pose proof (repr_nodup _ _ Hr) as Hnd. apply NoDup_cons in Hnd as [Hn _].
  pose proof (chain_bound _ _ _ _ i (repr_chain _ _ Hr) ltac:(by left)).
  destruct (uis_release_ok q1 i rest Hr1) as (q2 & E2 & Hr2 & _); [lia|done|lia|].
  by exists q1, q2.
Qed.

Lemma unique_index_set_lifo_witness :
  exists q1 q2, acquire_raw_index (H := release) (new 2 0 (initial_cells 2 ++ [3])) = Ret (Some 0, q1) /\
    repr q1 [1] /\ release_raw_index (H := release) q1 0 = Ret q2 /\ repr q2 [0; 1].
Proof.
  apply (unique_index_set_lifo (H := release) (new 2 0 (initial_cells 2 ++ [3])) [0; 1]).
  - apply (new_fresh 2 2 0); lia.
  - reflexivity.
Defined.

(** The counter in the head is 32 bits wide and incremented with a checked
    addition: after 2^32 - 1 operations a build with overflow checks panics in every
    further [acquire_raw_index] although a free index exists, while a release build
    wraps the counter to 0. *)
Theorem unique_index_set_counter_overflow :
  let q := set_head (new 2 0 (initial_cells 2 ++ [3])) (pack_from_head_and_aba 0 (2 ^ 32 - 1)) in
  repr q [0; 1] /\
  acquire_raw_index (H := dev) q = Panic /\
  exists q', acquire_raw_index (H := release) q = Ret (Some 0, q') /\ aba_of q'.(head) = 0.
Proof.
  split_and!; [|vm_compute; reflexivity|].
  - destruct (new_fresh 2 2 0) as ([Hc Hi Hl Hf Hh Hch Hnd] & _); [lia..|].
    destruct (pack_ok 0 (2 ^ 32 - 1)) as (Hw & Ehd & _); [unfold in_range; lia..|].
    split; cbn; try done.
  - eexists. split; [vm_compute; reflexivity|]. reflexivity.
Qed.
