(* ===== verification/Container.v ===== *)
(** * iceoryx2_bb/lock_free/src/mpmc/container.rs

    The lock-free container in which ports register themselves: a slot is acquired
    from a [UniqueIndexSet], filled and then marked active; readers keep a
    [ContainerState], a private copy that [update] refreshes when the head of the
    index set has changed. *)

From S2P Require Import Prelude Math Allocator UniqueIndexSet.

Module U := UniqueIndexSet.

(** [active_index] and [data] are the memories the two relocatable pointers refer to;
    an uninitialised slot of [data] is [None]. *)
(* src/iceoryx2_bb/lock_free/src/mpmc/container.rs:123-129 Container *)
Record Container (T : Type) := {
  active_index : list bool;
  data : list (option T);
  capacity : Z;
  is_memory_initialized : bool;
  index_set : U.UniqueIndexSet;
}.
Arguments active_index {T}.
Arguments data {T}.
Arguments capacity {T}.
Arguments is_memory_initialized {T}.
Arguments index_set {T}.

(* src/iceoryx2_bb/lock_free/src/mpmc/container.rs:67-72 ContainerState *)
Record ContainerState (T : Type) := {
  current_index_set_head : Z;
  state_data : list (option (Z * T));
  state_active_index : list bool;
}.
Arguments current_index_set_head {T}.
Arguments state_data {T}.
Arguments state_active_index {T}.

Section operations.
Context `{Profile} {T : Type}.
Implicit Types (c : Container T) (st : ContainerState T).

Definition set_slots c active d set : Container T :=
  {| active_index := active; data := d; capacity := c.(capacity);
     is_memory_initialized := c.(is_memory_initialized); index_set := set |}.

(* src/iceoryx2_bb/lock_free/src/mpmc/container.rs:135-147 new_uninit *)
Definition new_uninit (cap : Z) : Container T :=
  {| active_index := []; data := []; capacity := cap; is_memory_initialized := false;
     index_set := U.new_uninit cap |}.

(** [size_T] and [align_T] are the size and the alignment of the element type. *)
(* src/iceoryx2_bb/lock_free/src/mpmc/container.rs:149-184 init *)
Definition init `{BaseAllocator A} (size_T align_T : Z) c (allocator : A)
    : outcome (Result unit AllocationError * Container T * A) :=
  if c.(is_memory_initialized) then Panic
  else
    let! '(r, set, allocator) := U.init c.(index_set) allocator in
    let c := set_slots c c.(active_index) c.(data) set in
    match r with
    | Err e => Ret (Err e, c, allocator)
    | Ok _ =>
        let! n := 1 *u64 c.(capacity) in
        let! '(r, allocator) := allocate allocator {| size := n; layout_align := 1 |} in
        match r with
        | Err e => Ret (Err e, c, allocator)
        | Ok _ =>
            let! n := size_T *u64 c.(capacity) in
            let! '(r, allocator) := allocate allocator {| size := n; layout_align := align_T |} in
            match r with
            | Err e => Ret (Err e, c, allocator)
            | Ok _ =>
                Ret (Ok tt,
                     {| active_index := replicate (Z.to_nat c.(capacity)) false;
                        data := replicate (Z.to_nat c.(capacity)) None;
                        capacity := c.(capacity); is_memory_initialized := true;
                        index_set := set |}, allocator)
            end
        end
    end.

(* src/iceoryx2_bb/lock_free/src/mpmc/container.rs:214-218 verify_memory_initialization *)
Definition verify_memory_initialization c : outcome unit :=
  if c.(is_memory_initialized) then Ret tt else Panic.

(* src/iceoryx2_bb/lock_free/src/mpmc/container.rs:221-228 const_memory_size *)
Definition const_memory_size (size_T align_T cap : Z) : outcome Z :=
  let! n := cap +u64 1 in
  let! a := 4 *u64 n in
  let! e := 1 +u64 size_T in
  let! b := e *u64 cap in
  let! m := a +u64 b in
  let! m := m +u64 4 in
  let! m := m -u64 1 in
  let! m := m +u64 align_T in
  m -u64 1.

(* src/iceoryx2_bb/lock_free/src/mpmc/container.rs:236-238 len *)
Definition len c : Z := c.(index_set).(U.borrowed_indices).

(* src/iceoryx2_bb/lock_free/src/mpmc/container.rs:241-243 is_empty *)
Definition is_empty c : bool := len c =? 0.

(** The cleanup callback of the handle returned by [add]. *)
(* src/iceoryx2_bb/lock_free/src/mpmc/container.rs:270-275 add *)
Definition deactivate (i : Z) (active : list bool) : list bool :=
  <[Z.to_nat i := false]> active.

(** [add] up to the point where it owns a slot ... *)
(* src/iceoryx2_bb/lock_free/src/mpmc/container.rs:266-275 add *)
Definition add_acquire c
    : outcome (option (U.UniqueIndex (list bool)) * Container T) :=
  let! _ := verify_memory_initialization c in
  let! '(r, set) := U.acquire_with_additional_cleanup c.(index_set) deactivate in
  Ret (r, set_slots c c.(active_index) c.(data) set).

(** ... and from there: fill the slot, then mark it active. *)
(* src/iceoryx2_bb/lock_free/src/mpmc/container.rs:276-292 add *)
Definition add_publish c (i : Z) (value : T) : outcome (Container T) :=
  let! d := update c.(data) i (Some value) in
  let! a := update c.(active_index) i true in
  Ret (set_slots c a d c.(index_set)).

(* src/iceoryx2_bb/lock_free/src/mpmc/container.rs:266-296 add *)
Definition add c (value : T)
    : outcome (option (U.UniqueIndex (list bool)) * Container T) :=
  let! '(r, c) := add_acquire c in
  match r with
  | Some index =>
      let! c := add_publish c index.(U.value) value in
      Ret (Some index, c)
  | None => Ret (None, c)
  end.

(** Dropping the handle runs the callback and releases the index. *)
(* src/iceoryx2_bb/lock_free/src/mpmc/container.rs:266-296 add *)
Definition drop_index c (index : U.UniqueIndex (list bool)) : outcome (Container T) :=
  let! '(a, set) := U.drop_unique_index index c.(active_index) c.(index_set) in
  Ret (set_slots c a c.(data) set).

(* src/iceoryx2_bb/lock_free/src/mpmc/container.rs:310-315 remove_raw_index *)
Definition remove_raw_index c (i : Z) : outcome (Container T) :=
  let! _ := verify_memory_initialization c in
  let! a := update c.(active_index) i false in
  let! set := U.release_raw_index c.(index_set) i in
  Ret (set_slots c a c.(data) set).

(** The body of the loop of [update_state] for element [i]; without interference
    the head is the same after copying the element and the inner loop ends. *)
(* src/iceoryx2_bb/lock_free/src/mpmc/container.rs:354-379 update_state *)
Definition copy_element c st (i : Z) : outcome (ContainerState T) :=
  let! a := index c.(active_index) i in
  let! active := update st.(state_active_index) i a in
  if a then
    let! v := index c.(data) i in
    match v with
    | None => Panic
    | Some v =>
        let! d := update st.(state_data) i (Some (cast 32 i, v)) in
        Ret {| current_index_set_head := st.(current_index_set_head);
               state_data := d; state_active_index := active |}
    end
  else
    Ret {| current_index_set_head := st.(current_index_set_head);
           state_data := st.(state_data); state_active_index := active |}.

(** [for i in 0..capacity]: [n] iterations remain. *)
(* src/iceoryx2_bb/lock_free/src/mpmc/container.rs:349-380 update_state *)
Fixpoint copy_elements (n : nat) c st (i : Z) : outcome (ContainerState T) :=
  match n with
  | O => Ret st
  | S n => let! st := copy_element c st i in copy_elements n c st (i + 1)
  end.

(* src/iceoryx2_bb/lock_free/src/mpmc/container.rs:338-383 update_state *)
Definition update_state c st : outcome (bool * ContainerState T) :=
  let head := c.(index_set).(U.head) in
  if st.(current_index_set_head) =? head then Ret (false, st)
  else
    let st := {| current_index_set_head := head; state_data := st.(state_data);
                 state_active_index := st.(state_active_index) |} in
    let! st := copy_elements (Z.to_nat c.(capacity)) c st 0 in
    Ret (true, st).

(* src/iceoryx2_bb/lock_free/src/mpmc/container.rs:325-336 get_state *)
Definition get_state c : outcome (ContainerState T) :=
  let! _ := verify_memory_initialization c in
  let st := {| current_index_set_head := 0;
               state_data := replicate (Z.to_nat c.(capacity)) None;
               state_active_index := replicate (Z.to_nat c.(capacity)) false |} in
  let! '(_, st) := update_state c st in Ret st.

(** The entries [for_each] passes to its callback, in order. *)
(* src/iceoryx2_bb/lock_free/src/mpmc/container.rs:87-94 for_each *)
Fixpoint for_each_loop (n : nat) st (i : Z) : outcome (list (Z * T)) :=
  match n with
  | O => Ret []
  | S n =>
      let! a := index st.(state_active_index) i in
      if a then
        let! e := index st.(state_data) i in
        match e with
        | None => Panic
        | Some e => let! l := for_each_loop n st (i + 1) in Ret (e :: l)
        end
      else for_each_loop n st (i + 1)
  end.

(* src/iceoryx2_bb/lock_free/src/mpmc/container.rs:87-94 for_each *)
Definition for_each st : outcome (list (Z * T)) :=
  for_each_loop (length st.(state_data)) st 0.

(** The fixed-size container, all of whose memory is part of the object. *)
(* src/iceoryx2_bb/lock_free/src/mpmc/container.rs:405-420 default *)
Definition fixed_size_default (index_distance CAPACITY : Z) : outcome (Container T) :=
  let! last := cast 32 CAPACITY +u32 1 in
  Ret {| active_index := replicate (Z.to_nat CAPACITY) false;
         data := replicate (Z.to_nat CAPACITY) None; capacity := CAPACITY;
         is_memory_initialized := true;
         index_set := U.new CAPACITY index_distance (U.initial_cells CAPACITY ++ [last]) |}.

End operations.

(** ** Lemmas *)

(** The element stored in slot [i]. *)
Definition view {T} (c : Container T) (i : Z) : option T :=
  match c.(active_index) !! Z.to_nat i with
  | Some true => mjoin (c.(data) !! Z.to_nat i)
  | _ => None
  end.

(** All elements with their slots, in slot order. *)
Definition elements {T} (c : Container T) : list (Z * T) :=
  omap (fun i => (fun v => (i, v)) <$> view c i) (seqZ 0 c.(capacity)).

(** [used] are the slots in use. *)
Record wf {T} (c : Container T) (used : list Z) : Prop := {
  wf_capacity : c.(index_set).(U.capacity) = c.(capacity);
  wf_init : c.(is_memory_initialized) = true;
  wf_active : zlength c.(active_index) = c.(capacity);
  wf_data : zlength c.(data) = c.(capacity);
  wf_free : exists free, U.repr c.(index_set) free /\ free ++ used ≡ₚ seqZ 0 c.(capacity);
  wf_used : forall i, 0 <= i < c.(capacity) ->
    (i ∈ used <-> c.(active_index) !! Z.to_nat i = Some true);
  wf_filled : forall i, 0 <= i < c.(capacity) -> i ∈ used -> is_Some (view c i);
  wf_len : c.(index_set).(U.borrowed_indices) = zlength used;
  wf_untouched : c.(index_set).(U.head) = 0 -> used = [];
}.

(** The counter in the head, and that it can be incremented once more. *)
Definition version {T} (c : Container T) : Z := U.aba_of c.(index_set).(U.head).

Section lemmas.
Context `{Profile} {T : Type}.
Implicit Types (c : Container T) (st : ContainerState T).

Lemma wf_cap_range c used : wf c used -> 0 <= c.(capacity) < 2 ^ 32 - 1.
Proof.
  intros Hw. destruct (wf_free _ _ Hw) as (free & Hr & _).
  pose proof (U.repr_capacity _ _ Hr). rewrite (wf_capacity _ _ Hw) in *. done.
Qed.

Lemma wf_used_length c used : wf c used -> zlength used <= c.(capacity).
Proof.
  intros Hw. destruct (wf_free _ _ Hw) as (free & _ & Hp). apply Permutation_length in Hp.
  rewrite length_app, length_seqZ in Hp. pose proof (wf_cap_range _ _ Hw). unfold zlength. lia.
Qed.

Lemma wf_unused c used i : wf c used -> 0 <= i < c.(capacity) -> i ∉ used -> view c i = None.
Proof.
  intros Hw Hi Hn. unfold view. rewrite (wf_used _ _ Hw i Hi) in Hn.
  by destruct (_ !! _) as [[]|].
Qed.

Lemma view_publish c i v j :
  zlength c.(active_index) = c.(capacity) -> zlength c.(data) = c.(capacity) ->
  0 <= i < c.(capacity) -> 0 <= j ->
  view (set_slots c (<[Z.to_nat i := true]> c.(active_index))
    (<[Z.to_nat i := Some v]> c.(data)) c.(index_set)) j =
  if decide (j = i) then Some v else view c j.
Proof.
  intros Ha Hd Hi Hj. unfold view; cbn. unfold zlength in *. destruct (decide (j = i)) as [->|Hne].
  - by rewrite !list_lookup_insert_eq by lia.
  - by rewrite !list_lookup_insert_ne by lia.
Qed.

Lemma view_deactivate c i set j :
  zlength c.(active_index) = c.(capacity) -> 0 <= i < c.(capacity) -> 0 <= j ->
  view (set_slots c (<[Z.to_nat i := false]> c.(active_index)) c.(data) set) j =
  if decide (j = i) then None else view c j.
Proof.
  intros Ha Hi Hj. unfold view; cbn. unfold zlength in *. destruct (decide (j = i)) as [->|Hne].
  - by rewrite list_lookup_insert_eq by lia.
  - by rewrite list_lookup_insert_ne by lia.
Qed.

(** An operation that took effect never leaves the head at its initial value. *)
Lemma version_head (s s' : U.UniqueIndexSet) :
  U.aba_of s'.(U.head) = U.aba_of s.(U.head) + 1 -> s'.(U.head) <> 0.
Proof.
  intros E E0. rewrite E0 in E. pose proof (U.aba_of_range s.(U.head)) as Hr.
  unfold in_range in Hr. change (U.aba_of 0) with 0 in E. lia.
Qed.

Lemma add_ok c used v :
  wf c used -> version c + 1 < 2 ^ 32 ->
  exists r c', add c v = Ret (r, c') /\ c'.(capacity) = c.(capacity) /\
    match r with
    | Some h => exists i, h.(U.value) = i /\ h.(U.cleanup_callback) = Some deactivate /\
        0 <= i < c.(capacity) /\ (i ∉ used) /\ wf c' (i :: used) /\ version c' = version c + 1 /\
        forall j, 0 <= j -> view c' j = if decide (j = i) then Some v else view c j
    | None => c' = c /\ zlength used = c.(capacity)
    end.
Proof.
  intros Hw Hv. pose proof Hw as [Ecap Hin Ha Hd (free & Hr & Hp) Hu Hf Hl Hh0].
  pose proof (wf_cap_range _ _ Hw) as Hc.
  unfold add, add_acquire, verify_memory_initialization. rewrite Hin. cbn.
  unfold U.acquire_with_additional_cleanup, U.verify_init. rewrite (U.repr_init _ _ Hr). cbn.
  destruct free as [|i rest].
  { rewrite U.acquire_none by done. cbn. eexists _, _. split; [done|]. split; [done|].
    split; [by destruct c|]. cbn in Hp. apply Permutation_length in Hp.
    rewrite length_seqZ in Hp. unfold zlength. lia. }
  destruct (U.acquire_some _ _ _ Hr Hv) as (set & -> & Hr' & Ecap' & Eaba & Eb). cbn.
  assert (Hb : i ∈ seqZ 0 c.(capacity)) by (rewrite <-Hp; by left).
  apply elem_of_seqZ in Hb. unfold add_publish; cbn. rewrite !update_ok by lia. cbn.
  eexists _, _. split; [done|]. split; [done|]. exists i.
  assert (Hnd : NoDup ((i :: rest) ++ used)) by (rewrite Hp; apply NoDup_seqZ).
  cbn in Hnd. apply NoDup_cons in Hnd as [Hn _]. rewrite elem_of_app in Hn.
  assert (Hview := view_publish (set_slots c c.(active_index) c.(data) set) i v).
  cbn in Hview. split_and!; try done; try lia.
  - intros E. by destruct Hn; right.
  - pose proof (wf_used_length _ _ Hw). split; cbn; rewrite ?zlength_insert; try done; try congruence.
    + exists rest. split; [done|]. rewrite <-Hp. by rewrite <-Permutation_middle.
    + intros j Hj. rewrite elem_of_cons. destruct (decide (j = i)) as [->|Hne].
      * rewrite list_lookup_insert_eq; [tauto|]. unfold zlength in *. lia.
      * rewrite list_lookup_insert_ne by lia. rewrite <-Hu by done. tauto.
    + intros j Hj Hju. specialize (Hview j). unfold set_slots in *; cbn in *. rewrite Hview by lia.
      destruct (decide (j = i)); [done|]. apply elem_of_cons in Hju as [|Hju]; [done|].
      by apply Hf.
    + rewrite Eb, Hl. unfold zlength in *. rewrite wrapping_add_small; simpl length; lia.
    + intros E0. exfalso. unfold version in *. eapply version_head; [exact Eaba|done].
  - intros j Hj. unfold set_slots in *; cbn in *. rewrite Hview by lia. done.
Qed.

Lemma slots_remove_ok c i used :
  wf c (i :: used) -> version c + 1 < 2 ^ 32 ->
  exists c', remove_raw_index c i = Ret c' /\ c'.(capacity) = c.(capacity) /\ wf c' used /\
    version c' = version c + 1 /\
    forall j, 0 <= j -> view c' j = if decide (j = i) then None else view c j.
Proof.
  intros Hw Hv. pose proof Hw as [Ecap Hin Ha Hd (free & Hr & Hp) Hu Hf Hl Hh0].
  pose proof (wf_cap_range _ _ Hw) as Hc. pose proof (wf_used_length _ _ Hw) as Hul.
  assert (Hb : i ∈ seqZ 0 c.(capacity)).
  { rewrite <-Hp, elem_of_app. right. by left. }
  apply elem_of_seqZ in Hb.
  assert (Hnd : NoDup (free ++ i :: used)) by (rewrite Hp; apply NoDup_seqZ).
  apply NoDup_app in Hnd as (_ & Hdis & Hnd). apply NoDup_cons in Hnd as [Hnu _].
  unfold remove_raw_index, verify_memory_initialization. rewrite Hin. cbn.
  rewrite update_ok by lia. cbn.
  destruct (U.uis_release_ok _ i free Hr) as (set & -> & Hr' & Ecap' & Eaba & Eb); [lia| |done|].
  { intros Hif. apply (Hdis i Hif). by left. }
  eexists. split; [done|]. split; [done|].
  assert (Hview := view_deactivate c i set). split_and!; [|done|intros j Hj; by apply Hview; [|lia|]].
  split; cbn; rewrite ?zlength_insert; try done; try congruence.
  - exists (i :: free). split; [done|]. rewrite <-Hp. cbn. by rewrite <-Permutation_middle.
  - intros j Hj. destruct (decide (j = i)) as [->|Hne].
    + rewrite list_lookup_insert_eq; [split; done|]. unfold zlength in *. lia.
    + rewrite list_lookup_insert_ne by lia. rewrite <-Hu by done. rewrite elem_of_cons. tauto.
  - intros j Hj Hju. rewrite Hview by (done || lia).
    destruct (decide (j = i)) as [->|]; [done|]. apply Hf; [done|]. by right.
  - rewrite Eb, Hl. unfold zlength in *. simpl length in *. rewrite wrapping_sub_small; lia.
  - intros E0. exfalso. eapply version_head; [exact Eaba|done].
Qed.

(** *** Reading the state *)

(** Slot [j] of the copy agrees with the container. *)
Definition slot_ok c st (j : Z) : Prop :=
  st.(state_active_index) !! Z.to_nat j = c.(active_index) !! Z.to_nat j /\
  forall v, view c j = Some v -> st.(state_data) !! Z.to_nat j = Some (Some (j, v)).

Definition state_sized c st : Prop :=
  zlength st.(state_active_index) = c.(capacity) /\ zlength st.(state_data) = c.(capacity).

(** A copy that was taken at the current head is up to date. *)
Definition coherent c st : Prop :=
  state_sized c st /\ U.aba_of st.(current_index_set_head) <= version c /\
  (st.(current_index_set_head) = c.(index_set).(U.head) ->
   forall j, 0 <= j < c.(capacity) -> slot_ok c st j).

Lemma copy_element_ok c used st i :
  wf c used -> state_sized c st -> 0 <= i < c.(capacity) ->
  exists st', copy_element c st i = Ret st' /\ state_sized c st' /\
    st'.(current_index_set_head) = st.(current_index_set_head) /\ slot_ok c st' i /\
    forall j, 0 <= j -> j <> i -> slot_ok c st j -> slot_ok c st' j.
Proof.
  intros Hw [Hsa Hsd] Hi. pose proof (wf_cap_range _ _ Hw) as Hc.
  pose proof Hw as [Ecap Hin Ha Hd Hfree Hu Hf Hl Hh0]. unfold copy_element.
  destruct (index_in_bounds c.(active_index) i) as (a & Ea & ->); [lia|]. cbn.
  rewrite update_ok by lia. cbn. unfold state_sized, slot_ok. destruct a.
  - destruct (Hf i Hi) as [v Ev]; [by apply Hu|]. unfold view in Ev. rewrite Ea in Ev.
    destruct (index_in_bounds c.(data) i) as (w & Ew & ->); [lia|]. rewrite Ew in Ev. cbn in Ev.
    subst w. cbn. rewrite update_ok by lia. cbn. rewrite cast_small by (unfold in_range; lia).
    eexists. split; [done|]. cbn. rewrite !zlength_insert. split_and!; try done.
    + rewrite list_lookup_insert_eq; [done|]. unfold zlength in *. lia.
    + intros v'. unfold view. rewrite Ea, Ew. cbn. intros [= ->].
      rewrite list_lookup_insert_eq; [done|]. unfold zlength in *. lia.
    + intros j Hj Hne. by rewrite !list_lookup_insert_ne by lia.
  - eexists. split; [done|]. cbn. rewrite !zlength_insert. split_and!; try done.
    + rewrite list_lookup_insert_eq; [done|]. unfold zlength in *. lia.
    + intros v'. unfold view. by rewrite Ea.
    + intros j Hj Hne. by rewrite !list_lookup_insert_ne by lia.
Qed.

Lemma copy_elements_ok c used (n : nat) : forall st i,
  wf c used -> state_sized c st -> 0 <= i -> i + Z.of_nat n = c.(capacity) ->
  (forall j, 0 <= j < i -> slot_ok c st j) ->
  exists st', copy_elements n c st i = Ret st' /\ state_sized c st' /\
    st'.(current_index_set_head) = st.(current_index_set_head) /\
    forall j, 0 <= j < c.(capacity) -> slot_ok c st' j.
Proof.
  induction n as [|n IH]; intros st i Hw Hs Hi Hn Hprev; cbn.
  { exists st. split_and!; try done. intros j Hj. apply Hprev. lia. }
  destruct (copy_element_ok c used st i Hw Hs) as (st1 & -> & Hs1 & Eh & Hok & Hother); [lia|].
  cbn. destruct (IH st1 (i + 1) Hw Hs1) as (st2 & E2 & Hs2 & Eh2 & Hall); [lia|lia| |].
  - intros j Hj. destruct (decide (j = i)) as [->|]; [done|]. apply Hother; [lia|done|].
    apply Hprev. lia.
  - exists st2. split_and!; try done. congruence.
Qed.

Lemma update_state_ok c used st :
  wf c used -> coherent c st ->
  exists b st', update_state c st = Ret (b, st') /\ coherent c st' /\
    (forall j, 0 <= j < c.(capacity) -> slot_ok c st' j) /\
    (b = false <-> st.(current_index_set_head) = c.(index_set).(U.head)) /\
    st'.(current_index_set_head) = c.(index_set).(U.head).
Proof.
  intros Hw (Hs & Hv & Hco). pose proof (wf_cap_range _ _ Hw) as Hc. unfold update_state.
  destruct (_ =? _) eqn:E; bool_to_prop.
  - exists false, st. split; [done|]. split; [by split_and!|]. split; [by apply Hco|done].
  - set (st0 := {| current_index_set_head := _; state_data := _; state_active_index := _ |}).
    destruct (copy_elements_ok c used (Z.to_nat c.(capacity)) st0 0 Hw) as (st1 & -> & Hs1 & Eh & Hall);
      [done|lia|lia|intros; lia|].
    exists true, st1. split; [done|]. split.
    { split; [done|]. split; [|done]. by rewrite Eh. }
    split; [done|]. split; [by split|done].
Qed.

Lemma for_each_loop_ok c used st (n : nat) : forall i,
  wf c used -> state_sized c st -> (forall j, 0 <= j < c.(capacity) -> slot_ok c st j) ->
  0 <= i -> i + Z.of_nat n = c.(capacity) ->
  for_each_loop n st i = Ret (omap (fun i => (fun v => (i, v)) <$> view c i) (seqZ i (Z.of_nat n))).
Proof.
  induction n as [|n IH]; intros i Hw Hs Hall Hi Hn; [done|].
  rewrite seqZ_cons by lia. cbn [for_each_loop omap list_omap].
  destruct (Hall i ltac:(lia)) as [Ea Ed]. destruct Hs as [Hsa Hsd].
  destruct (index_in_bounds st.(state_active_index) i) as (a & Ei & ->); [lia|]. cbn.
  replace (Z.pred (Z.of_nat (S n))) with (Z.of_nat n) by lia. rewrite <-Z.add_1_r.
  rewrite Ea in Ei. assert (IHi : for_each_loop n st (i + 1) = _) by (apply IH; (done || lia)).
  destruct a.
  - destruct (wf_filled _ _ Hw i) as [v Ev]; [lia|by apply (wf_used _ _ Hw); [lia|]|].
    rewrite Ev. cbn. rewrite (index_lookup _ _ (Some (i, v))) by (lia || by apply Ed).
    cbn. by rewrite IHi.
  - assert (view c i = None) as -> by (unfold view; by rewrite Ei). cbn. apply IHi.
Qed.

Lemma for_each_ok c used st :
  wf c used -> state_sized c st -> (forall j, 0 <= j < c.(capacity) -> slot_ok c st j) ->
  for_each st = Ret (elements c).
Proof.
  intros Hw Hs Hall. pose proof (wf_cap_range _ _ Hw) as Hc. unfold for_each, elements.
  rewrite (for_each_loop_ok c used) by (done || (destruct Hs; unfold zlength in *; lia)).
  do 3 f_equal. destruct Hs as [_ Hsd]. exact Hsd.
Qed.

(** Operations that take effect change the head, so existing copies stay coherent. *)
Lemma coherent_later c c' st :
  coherent c st -> c'.(capacity) = c.(capacity) -> version c' = version c + 1 -> coherent c' st.
Proof.
  intros (Hs & Hv & Hco) Ec Ev. unfold coherent, state_sized in *. rewrite Ec.
  split_and!; [apply Hs|apply Hs|lia|]. intros E. exfalso. unfold version in *. rewrite E in Hv. lia.
Qed.

Lemma get_state_ok c used :
  wf c used -> exists st, get_state c = Ret st /\ coherent c st /\
    (forall j, 0 <= j < c.(capacity) -> slot_ok c st j) /\
    st.(current_index_set_head) = c.(index_set).(U.head).
Proof.
  intros Hw. pose proof (wf_cap_range _ _ Hw) as Hc. unfold get_state, verify_memory_initialization.
  rewrite (wf_init _ _ Hw). cbn.
  set (st0 := {| current_index_set_head := _; state_data := _; state_active_index := _ |}).
  destruct (update_state_ok c used st0 Hw) as (b & st & -> & Hco & Hall & _ & Eh); [|by eauto].
  split_and!.
  - split; unfold zlength; cbn; rewrite length_replicate; lia.
  - cbn. apply U.aba_of_range.
  - intros E j Hj. pose proof (wf_untouched _ _ Hw (eq_sym E)) as ->.
    assert (En : view c j = None) by (apply (wf_unused c []); [done|done|apply not_elem_of_nil]).
    split; [|by rewrite En]. cbn. rewrite lookup_replicate_2 by lia.
    destruct (index_in_bounds c.(active_index) j) as (a & Ea & _); [pose proof (wf_active _ _ Hw); lia|].
    rewrite Ea. destruct a; [|done].
    apply (wf_used _ _ Hw j Hj) in Ea. by apply not_elem_of_nil in Ea.
Qed.

End lemmas.

(** ** Histories of operations *)

(** One operation of the container's users, and the number of elements it adds or removes;
    [used] are the slots whose handles or raw indices they hold. *)
Inductive op_step {T} `{Profile} : Z -> Container T * list Z -> Container T * list Z -> Prop :=
| op_add c used v h c' :
    add c v = Ret (Some h, c') -> op_step 1 (c, used) (c', h.(U.value) :: used)
| op_add_full c used v c' :
    add c v = Ret (None, c') -> op_step 0 (c, used) (c', used)
| op_remove c i used c' :
    remove_raw_index c i = Ret c' -> op_step 1 (c, i :: used) (c', used)
| op_reorder c used used' : used ≡ₚ used' -> op_step 0 (c, used) (c, used').

(** A sequence of operations, of which [n] took effect. *)
Inductive history {T} `{Profile} : Z -> Container T * list Z -> Container T * list Z -> Prop :=
| history_nil s : history 0 s s
| history_cons k n s t s' : op_step k s t -> history n t s' -> history (k + n) s s'.

Section histories.
Context `{Profile} {T : Type}.
Implicit Types (c : Container T) (st : ContainerState T).

Lemma wf_perm c used used' : used ≡ₚ used' -> wf c used -> wf c used'.
Proof.
  intros Hp [Ecap Hin Ha Hd (free & Hr & Hpf) Hu Hf Hl Hh0]. split; try done.
  - exists free. by rewrite <-Hp.
  - intros i Hi. rewrite <-Hp. by apply Hu.
  - intros i Hi. rewrite <-Hp. by apply Hf.
  - rewrite Hl. unfold zlength. by rewrite Hp.
  - intros E. specialize (Hh0 E). subst used. by apply Permutation_nil_l in Hp.
Qed.

Lemma op_step_ok k s s' st :
  op_step k s s' -> version s.1 + 1 < 2 ^ 32 -> wf s.1 s.2 -> coherent s.1 st ->
  wf s'.1 s'.2 /\ coherent s'.1 st /\ version s'.1 = version s.1 + k /\ (k = 0 -> s'.1 = s.1).
Proof.
  intros [c used v h c' E|c used v c' E|c i used c' E|c used used' Hp] Hv Hw Hco; cbn in *.
  - destruct (add_ok c used v Hw Hv) as (r & c1 & E1 & Ec & Hr). rewrite E1 in E.
    injection E as -> ->. destruct Hr as (i & -> & _ & _ & _ & Hw' & Hv' & _).
    split_and!; [done|apply (coherent_later c); done || lia|lia|lia].
  - destruct (add_ok c used v Hw Hv) as (r & c1 & E1 & Ec & Hr). rewrite E1 in E.
    injection E as -> ->. destruct Hr as [-> _]. by rewrite Z.add_0_r.
  - destruct (slots_remove_ok c i used Hw Hv) as (c1 & E1 & Ec & Hw' & Hv' & _). rewrite E1 in E.
    injection E as ->. split_and!; [done|apply (coherent_later c); done || lia|lia|lia].
  - split_and!; [by eapply wf_perm|done|lia|done].
Qed.

Lemma op_step_effect k (s s' : Container T * list Z) : op_step k s s' -> k = 0 \/ k = 1.
Proof. intros []; auto. Qed.

Lemma history_nonneg n (s s' : Container T * list Z) : history n s s' -> 0 <= n.
Proof. induction 1 as [|k n s t s' Hs _ IH]; [done|]. destruct (op_step_effect _ _ _ Hs); lia. Qed.

Lemma history_ok n s s' st :
  history n s s' -> version s.1 + n + 1 < 2 ^ 32 -> wf s.1 s.2 -> coherent s.1 st ->
  wf s'.1 s'.2 /\ coherent s'.1 st /\ version s'.1 = version s.1 + n /\ (n = 0 -> s'.1 = s.1).
Proof.
  intros Hr. induction Hr as [s|k n s t s' Hs Hr IH]; intros Hv Hw Hco; [by rewrite Z.add_0_r|].
  pose proof (history_nonneg _ _ _ Hr) as Hn. pose proof (op_step_effect _ _ _ Hs) as Hk.
  destruct (op_step_ok k s t st Hs ltac:(lia) Hw Hco) as (Hw' & Hco' & Ev & E0).
  destruct (IH ltac:(lia) Hw' Hco') as (Hw'' & Hco'' & Ev' & E0'). split_and!; [done..|lia|].
  intros En. rewrite E0', E0 by lia. done.
Qed.

(** A container over a fresh index set is empty. *)
Lemma wf_fresh q : U.fresh q -> 0 <= q.(U.capacity) ->
  wf {| active_index := replicate (Z.to_nat q.(U.capacity)) false;
        data := replicate (Z.to_nat q.(U.capacity)) (@None T); capacity := q.(U.capacity);
        is_memory_initialized := true; index_set := q |} [].
Proof.
  intros (Hr & Ha & Hb) Hc. split; cbn; try done.
  - unfold zlength. rewrite length_replicate. lia.
  - unfold zlength. rewrite length_replicate. lia.
  - eexists. split; [exact Hr|]. by rewrite app_nil_r.
  - intros i Hi. rewrite lookup_replicate_2 by lia.
    split; [intros Hn; by apply not_elem_of_nil in Hn|done].
  - intros i Hi Hn. by apply not_elem_of_nil in Hn.
Qed.

Lemma fixed_size_default_ok distance CAPACITY :
  0 <= CAPACITY < 2 ^ 32 - 1 ->
  exists c, fixed_size_default (T := T) distance CAPACITY = Ret c /\ wf c [] /\
    c.(capacity) = CAPACITY /\ version c = 0.
Proof.
  intros Hc. unfold fixed_size_default. assert (Ecast : cast 32 CAPACITY = CAPACITY).
  { apply cast_small. unfold in_range. lia. }
  rewrite Ecast. checked. eexists. split; [done|].
  pose proof (U.new_fresh CAPACITY CAPACITY distance ltac:(lia) ltac:(lia)) as Hf.
  pose proof (wf_fresh _ Hf) as Hw. cbn [U.new U.capacity] in Hw. rewrite Ecast in Hw.
  split_and!; [apply Hw; lia|done|apply Hf].
Qed.

End histories.

(** ** Properties *)

(** [add] fails only when every slot is in use and then changes nothing;
    otherwise it stores the value in a slot that was free, under a fresh index, and
    leaves every other slot alone.  Removing that index gives exactly the slots of
    before, and dropping the handle does the same as [remove_raw_index]. *)
Theorem container_add_remove `{Profile} {T} (c : Container T) used v :
  wf c used -> version c + 2 < 2 ^ 32 ->
  exists r c', add c v = Ret (r, c') /\
    match r with
    | None => c' = c /\ zlength used = c.(capacity)
    | Some h =>
        let i := h.(U.value) in
        view c i = None /\ len c' = len c + 1 /\
        (forall j, 0 <= j -> view c' j = if decide (j = i) then Some v else view c j) /\
        exists c'', remove_raw_index c' i = Ret c'' /\ drop_index c' h = Ret c'' /\
          wf c'' used /\ len c'' = len c /\ forall j, 0 <= j -> view c'' j = view c j
    end.
Proof.
  intros Hw Hv. destruct (add_ok c used v Hw) as (r & c' & E & Ec & Hr); [lia|].
  exists r, c'. split; [done|]. destruct r as [h|]; [|done].
  destruct Hr as (i & Ei & Ecb & Hi & Hn & Hw' & Hv' & Hview). rewrite Ei.
  assert (Hnone : view c i = None) by (by eapply wf_unused). cbn zeta. split_and!.
  - done.
  - unfold len. rewrite (wf_len _ _ Hw), (wf_len _ _ Hw'). unfold zlength. simpl length. lia.
  - done.
  - destruct (slots_remove_ok c' i used Hw') as (c'' & E'' & Ec'' & Hw'' & Hv'' & Hview''); [lia|].
    exists c''. split_and!; [done| |done| |].
    + revert E''. unfold remove_raw_index, verify_memory_initialization, drop_index, U.drop_unique_index.
      rewrite (wf_init _ _ Hw'), Ecb, Ei. cbn. rewrite update_ok by (rewrite (wf_active _ _ Hw'); lia).
      cbn. by destruct (U.release_raw_index _ i).
    + unfold len. by rewrite (wf_len _ _ Hw), (wf_len _ _ Hw'').
    + intros j Hj. rewrite Hview'', Hview by done. destruct (decide (j = i)) as [->|]; done.
Qed.

Lemma container_add_remove_witness :
  exists c, fixed_size_default (H := dev) (T := Z) 48 2 = Ret c /\
    exists r c', add (H := dev) c 7 = Ret (r, c') /\
      match r with Some h => view c' h.(U.value) = Some 7 | None => False end.
Proof.
  destruct (fixed_size_default_ok (H := dev) (T := Z) 48 2) as (c & Ec & Hw & Ecap & Hv); [lia|].
  exists c. split; [exact Ec|].
  destruct (container_add_remove (H := dev) c [] 7 Hw) as (r & c' & E & Hr); [lia|].
  exists r, c'. split; [exact E|]. destruct r as [h|].
  - destruct Hr as (_ & _ & Hview & c'' & Er & _).
    vm_compute in Ec. injection Ec as <-. vm_compute in E. injection E as <- <-. reflexivity.
  - destruct Hr as [_ Hz]. rewrite Ecap in Hz. discriminate Hz.
Defined.

(** C32: After a history of completed additions and removals, of which [n] took effect,
    [update] on a state that [get_state] took before the history makes [for_each]
    enumerate exactly the elements now in the container, in slot order; it reports false
    exactly when no operation of the history took effect.  The version in the head of the
    index set, which every such operation increments, stays below 2^32. *)
Theorem container_update_state `{Profile} {T} (c c' : Container T) used used' n :
  wf c used -> history n (c, used) (c', used') -> version c + n + 1 < 2 ^ 32 ->
  exists st b st', get_state c = Ret st /\ for_each st = Ret (elements c) /\
    update_state c' st = Ret (b, st') /\ for_each st' = Ret (elements c') /\
    (b = false <-> n = 0) /\ (b = false -> elements c' = elements c).
Proof.
  intros Hw Hr Hv. destruct (get_state_ok c used Hw) as (st & Eg & Hco & Hall & Eh).
  destruct (history_ok _ _ _ st Hr Hv Hw Hco) as (Hw' & Hco' & Ev & E0). cbn in *.
  destruct (update_state_ok c' used' st Hw' Hco') as (b & st' & Eu & Hco'' & Hall' & Hb & _).
  assert (Ef : for_each st = Ret (elements c)) by (eapply for_each_ok; [done|apply Hco|done]).
  assert (Hn : b = false <-> n = 0).
  { rewrite Hb, Eh. split; [|by intros ->; rewrite E0].
    intros E. assert (version c' = version c) by (unfold version; by rewrite E). lia. }
  exists st, b, st'. split_and!; try done; [eapply for_each_ok; [done|apply Hco''|done]|].
  intros ->. by rewrite E0 by (by apply Hn).
Qed.

Lemma container_update_state_witness :
  exists c c' used', fixed_size_default (H := dev) (T := Z) 48 2 = Ret c /\
    history (H := dev) 1 (c, []) (c', used') /\ elements c' = [(0, 7)] /\
    exists st st', get_state c = Ret st /\ update_state c' st = Ret (true, st') /\
      for_each st' = Ret [(0, 7)].
Proof.
  destruct (fixed_size_default_ok (H := dev) (T := Z) 48 2) as (c & Ec & Hw & Ecap & Hv); [lia|].
  assert (Hadd : exists h c', add (H := dev) c 7 = Ret (Some h, c') /\ elements c' = [(0, 7)]).
  { vm_compute in Ec. injection Ec as <-. do 2 eexists. split; vm_compute; reflexivity. }
  destruct Hadd as (h & c' & Ea & Eel).
  assert (Hr : history (H := dev) 1 (c, []) (c', [h.(U.value)])).
  { apply (history_cons 1 0 _ (c', [h.(U.value)])); [by eapply op_add|apply history_nil]. }
  exists c, c', [h.(U.value)]. split_and!; [exact Ec|exact Hr|exact Eel|].
  destruct (container_update_state c c' [] _ 1 Hw Hr) as (st & b & st' & Eg & _ & Eu & Ef & Hb & _); [lia|].
  exists st, st'. rewrite Eel in Ef. destruct b; [|discriminate (proj1 Hb eq_refl)]. by split_and!.
Defined.

(** The guarantee is lost when an update happens in the middle of an addition:
    [add] changes the head before it marks its slot active, so a reader that refreshes
    its state in between does not see the new element, and every later [update]
    reports that nothing has changed although the element is in the container. *)
Theorem container_lost_update :
  exists c c1 h c2 st b st',
    fixed_size_default (H := dev) (T := Z) 48 2 = Ret c /\
    add_acquire (H := dev) c = Ret (Some h, c1) /\      (* the adder owns its slot *)
    get_state c1 = Ret st /\                 (* a reader takes its state *)
    add_publish c1 h.(U.value) 7 = Ret c2 /\ (* the adder finishes *)
    update_state c2 st = Ret (b, st') /\ b = false /\
    for_each st' = Ret [] /\ elements c2 = [(0, 7)].
Proof. do 7 eexists. repeat (split; [vm_compute; reflexivity|]). vm_compute. reflexivity. Qed.
