(* ===== verification/BumpAllocator.v ===== *)
(** * iceoryx2_bb/memory/src/bump_allocator.rs

    The lock-free bump allocator: every allocation advances [current_position] past
    an aligned chunk with a compare-and-swap; [deallocate] resets the whole
    allocator. *)

From S2P Require Import Prelude Math Allocator.

(* src/iceoryx2_bb/memory/src/bump_allocator.rs:30-34 BumpAllocator *)
Record BumpAllocator := { start : Z; bump_size : Z; current_position : Z }.

(* src/iceoryx2_bb/memory/src/bump_allocator.rs:50-56 new *)
Definition new (ptr sz : Z) : BumpAllocator :=
  {| start := ptr; bump_size := sz; current_position := 0 |}.

Definition set_current_position (b : BumpAllocator) p : BumpAllocator :=
  {| start := b.(start); bump_size := b.(bump_size); current_position := p |}.

Definition compare_exchange_position (b : BumpAllocator) (current new : Z)
    : Result unit Z * BumpAllocator :=
  if b.(current_position) =? current then (Ok tt, set_current_position b new)
  else (Err b.(current_position), b).

Section operations.
Context `{Profile}.

(* src/iceoryx2_bb/memory/src/bump_allocator.rs:58-60 used_space *)
Definition used_space (b : BumpAllocator) : Z := b.(current_position).

(* src/iceoryx2_bb/memory/src/bump_allocator.rs:62-64 free_space *)
Definition free_space (b : BumpAllocator) : outcome Z := b.(bump_size) -u64 used_space b.

(** One iteration of the loop: [None] when the compare-and-swap failed, with the
    position it found. *)
(* src/iceoryx2_bb/memory/src/bump_allocator.rs:84-100 allocate *)
Definition allocate_iteration (b : BumpAllocator) (l : Layout) (current : Z)
    : outcome (Result (Result Chunk AllocationError) Z * BumpAllocator) :=
  let! p := b.(start) +u64 current in
  let! a := align p l.(layout_align) in
  let! aligned_position := a -u64 b.(start) in
  let! e := aligned_position +u64 l.(size) in
  if b.(bump_size) <? e then Ret (Ok (Err OutOfMemory), b)
  else
    let '(res, b) := compare_exchange_position b current e in
    match res with
    | Ok _ =>
        let! q := b.(start) +u64 aligned_position in
        Ret (Ok (Ok {| chunk_ptr := q; chunk_len := l.(size) |}), b)
    | Err v => Ret (Err v, b)
    end.

(** Without interference (and without a spurious failure of the weak
    compare-and-swap) the first iteration decides. *)
(* src/iceoryx2_bb/memory/src/bump_allocator.rs:72-108 allocate *)
Definition allocate (b : BumpAllocator) (l : Layout)
    : outcome (Result Chunk AllocationError * BumpAllocator) :=
  if l.(size) =? 0 then Ret (Err SizeIsZero, b)
  else
    let! '(r, b) := allocate_iteration b l b.(current_position) in
    match r with Ok r => Ret (r, b) | Err _ => Panic end.

(* src/iceoryx2_bb/memory/src/bump_allocator.rs:110-118 deallocate *)
Definition deallocate (b : BumpAllocator) (ptr : Z) (l : Layout)
    : outcome (Result unit DeallocationError * BumpAllocator) :=
  Ret (Ok tt, set_current_position b 0).

#[export] Instance bump_base_allocator : BaseAllocator BumpAllocator :=
  {| Allocator.allocate := allocate; Allocator.deallocate := deallocate |}.

End operations.

(** ** Threads allocating concurrently *)

Inductive pc :=
| Idle (result : Result Chunk AllocationError)
| Load (l : Layout)
| Loop (l : Layout) (current : Z).

(** [chunks] are the chunks returned so far. *)
Record shared := { bump : BumpAllocator; chunks : list Chunk; panicked : bool }.

Inductive thread_action := CallAllocate (l : Layout) | Step | SpuriousFailure.

Section threads.
Context `{Profile}.

(** The addresses computed for the request fit in 64 bits. *)
Definition fits (b : BumpAllocator) (l : Layout) : bool :=
  (b.(start) + b.(bump_size) + l.(layout_align) + l.(size) <? 2 ^ 64).

Definition log_chunk (p : pc) (cs : list Chunk) : list Chunk :=
  match p with Idle (Ok c) => c :: cs | _ => cs end.

(* src/iceoryx2_bb/memory/src/bump_allocator.rs:72-108 allocate *)
Definition thread_step (b : BumpAllocator) (p : pc) : outcome (BumpAllocator * pc) :=
  match p with
  | Idle r => Ret (b, Idle r)
  | Load l => Ret (b, Loop l b.(current_position))
  | Loop l current =>
      let! '(r, b) := allocate_iteration b l current in
      match r with
      | Ok r => Ret (b, Idle r)
      | Err v => Ret (b, Loop l v)
      end
  end.

Definition act (a : thread_action) (g : shared) (p : pc) : option (shared * pc) :=
  match a, p with
  | CallAllocate l, Idle _ =>
      if fits g.(bump) l && (0 <=? l.(size)) && (0 <? l.(layout_align))
      then Some (g, if l.(size) =? 0 then Idle (Err SizeIsZero) else Load l)
      else None
  | SpuriousFailure, Loop l current =>
      Some (g, Loop l g.(bump).(current_position))
  | Step, Idle _ => None
  | Step, _ =>
      match thread_step g.(bump) p with
      | Ret (b, p') =>
          Some ({| bump := b; chunks := log_chunk p' g.(chunks); panicked := g.(panicked) |}, p')
      | Panic => Some ({| bump := g.(bump); chunks := g.(chunks); panicked := true |}, p)
      end
  | _, _ => None
  end.

Definition begin (b : BumpAllocator) (n : nat) : shared * list pc :=
  ({| bump := b; chunks := []; panicked := false |}, replicate n (Idle (Err SizeIsZero))).

End threads.

(** ** Lemmas *)

(** The chunks lie in the used part of the memory and do not overlap. *)
Record bump_inv (b : BumpAllocator) (cs : list Chunk) : Prop := {
  inv_start : 0 <= b.(start);
  inv_position : 0 <= b.(current_position) <= b.(bump_size);
  inv_inside : Forall (fun c => b.(start) <= c.(chunk_ptr) /\ 0 <= c.(chunk_len) /\
    c.(chunk_ptr) + c.(chunk_len) <= b.(start) + b.(current_position)) cs;
  inv_disjoint : pairwise_disjoint cs;
}.

Section lemmas.
Context `{Profile}.

(** An iteration that starts from any position inside the memory either fails, or
    returns a chunk behind everything handed out before. *)
Lemma iteration_ok b cs l current :
  bump_inv b cs -> 0 <= current <= b.(bump_size) -> 0 <= l.(size) -> 0 < l.(layout_align) ->
  fits b l = true ->
  exists r b', allocate_iteration b l current = Ret (r, b') /\ b'.(start) = b.(start) /\
    b'.(bump_size) = b.(bump_size) /\
    match r with
    | Ok (Ok c) => bump_inv b' (c :: cs) /\ chunk_len c = size l /\
        c.(chunk_ptr) mod l.(layout_align) = 0
    | Ok (Err e) => b' = b /\ e = OutOfMemory
    | Err v => b' = b /\ v = b.(current_position) /\ v <> current
    end.
Proof.
  intros [Hs Hp Hin Hd] Hcur Hl Ha Hf. unfold fits in Hf. bool_to_prop.
  unfold allocate_iteration. checked.
  destruct (align_ok (start b + current) l.(layout_align)) as (a & -> & Hal & Hge); [lia..|].
  checked. destruct (bump_size b <? _) eqn:Ho; bool_to_prop.
  { exists (Ok (Err OutOfMemory)), b. by split_and!. }
  unfold compare_exchange_position. destruct (_ =? current) eqn:Ec; bool_to_prop.
  - cbn. rewrite uadd_ok by lia. cbn. eexists _, _. split; [done|]. split_and!; try done.
    + assert (Hnew : Forall (fun c => chunk_ptr c + chunk_len c <= a) cs).
      { eapply Forall_impl; [exact Hin|]. cbn. intros c. lia. }
      split; cbn; [done|lia| |].
      * constructor; cbn; [lia|]. eapply Forall_impl; [exact Hin|]. cbn. lia.
      * split; [|done]. eapply Forall_impl; [exact Hnew|]. intros c Hc.
        unfold disjoint_chunks. cbn in *. right. lia.
    + replace (start b + (a - start b)) with a by lia. done.
  - eexists _, _. split; [done|]. by split_and!.
Qed.

(** A bump allocator hands out an aligned chunk while it has room for the alignment
    loss. *)
Lemma allocate_room b n k :
  0 <= k -> current_position b <= bump_size b -> 0 <= current_position b ->
  0 <= start b -> 0 < n -> start b + bump_size b < 2 ^ 64 ->
  current_position b + n + 2 ^ k - 1 <= bump_size b ->
  exists c e, allocate b {| size := n; layout_align := 2 ^ k |} =
      Ret (Ok {| chunk_ptr := c; chunk_len := n |}, set_current_position b e) /\
    current_position b + n <= e <= current_position b + n + 2 ^ k - 1.
Proof.
  intros Hk Hp Hp0 Hs Hn Hw Hroom. unfold allocate, allocate_iteration. cbn [size layout_align].
  rewrite (proj2 (Z.eqb_neq _ _)) by lia. pose proof (Z.pow_pos_nonneg 2 k ltac:(lia) Hk). checked.
  destruct (align_ok (start b + current_position b) (2 ^ k)) as (x & -> & _ & Hx); [lia..|].
  checked. rewrite (proj2 (Z.ltb_ge _ _)) by lia.
  unfold compare_exchange_position. rewrite Z.eqb_refl. cbn [start set_current_position].
  checked. eexists _, _. split; [done|]. lia.
Qed.

#[export] Instance bump_laws : AllocatorLaws BumpAllocator.
Proof.
  refine {| alloc_inv := bump_inv; alloc_fits := fun b l => fits b l = true |}.
  intros b cs l Hi Hl Hf. cbn. unfold allocate. destruct (size l =? 0) eqn:Ez.
  { by eexists _, _. }
  destruct Hl as [Hsz Hal]. pose proof (valid_layout_pos l (conj Hsz Hal)) as Hpos.
  destruct (iteration_ok b cs l b.(current_position) Hi) as (r & b' & -> & _ & _ & Hr);
    [apply Hi|done..|].
  cbn. destruct r as [[c|e]|v].
  - eexists _, _. split; [done|]. destruct Hr as (Hi' & Elen & Ea). split_and!; [done|lia|done|].
    apply Hi'.
  - eexists _, _. split; [done|]. by destruct Hr.
  - by destruct Hr as (_ & -> & ?).
Defined.

End lemmas.

(** ** The concurrent invariant *)

Definition thread_ok (b : BumpAllocator) (p : pc) : Prop :=
  match p with
  | Idle _ => True
  | Load l => fits b l = true /\ 0 <= l.(size) /\ 0 < l.(layout_align)
  | Loop l current =>
      fits b l = true /\ 0 <= l.(size) /\ 0 < l.(layout_align) /\
      0 <= current <= b.(bump_size)
  end.

Record Inv (ptr sz : Z) (s : shared * list pc) : Prop := {
  inv_bump : bump_inv s.1.(bump) s.1.(chunks);
  inv_ptr : s.1.(bump).(start) = ptr;
  inv_size : s.1.(bump).(bump_size) = sz;
  inv_threads : Forall (thread_ok s.1.(bump)) s.2;
  inv_panicked : s.1.(panicked) = false;
}.

Section concurrent.
Context `{Profile}.

Lemma thread_ok_ext b b' p :
  b'.(start) = b.(start) -> b'.(bump_size) = b.(bump_size) -> thread_ok b p -> thread_ok b' p.
Proof. intros E1 E2. destruct p; cbn; unfold fits; by rewrite ?E1, ?E2. Qed.

(** A step that leaves the allocator alone. *)
Lemma bump_inv_local ptr sz g ps k p p' :
  Inv ptr sz (g, ps) -> ps !! k = Some p -> thread_ok g.(bump) p' ->
  Inv ptr sz (g, <[k := p']> ps).
Proof.
  intros [Hb Ep Es Ht Hpa] Ek Hok. split; try done. cbn in *.
  by apply (iact_Forall (fun g => thread_ok g.(bump)) k g ps g p).
Qed.

Lemma bump_step_inv ptr sz g ps k p b p' :
  Inv ptr sz (g, ps) -> ps !! k = Some p -> thread_step g.(bump) p = Ret (b, p') ->
  (forall r, p <> Idle r) ->
  Inv ptr sz ({| bump := b; chunks := log_chunk p' g.(chunks); panicked := g.(panicked) |},
              <[k := p']> ps).
Proof.
  intros Hi Ek E Hne. pose proof Hi as [Hb Ep Es Ht Hpa]. cbn in *.
  pose proof (Forall_lookup_1 _ _ _ _ Ht Ek) as Hok. destruct p as [r|l|l cur]; cbn in E.
  - by destruct (Hne r).
  - injection E as <- <-. destruct g. apply (bump_inv_local _ _ _ _ _ (Load l)); [done..|].
    destruct Hok as (? & ? & ?). split_and!; try done; apply Hb.
  - destruct Hok as (Hf & Hl & Ha & Hcur).
    destruct (iteration_ok g.(bump) g.(chunks) l cur Hb) as (r & b1 & E1 & Est & Esz & Hr);
      [done..|]. rewrite E1 in E. cbn in E.
    assert (Hthreads : forall q, thread_ok b1 q -> Forall (thread_ok b1) (<[k := q]> ps)).
    { intros q Hq. apply Forall_insert; [|done]. eapply Forall_impl; [exact Ht|].
      intros o. by apply thread_ok_ext. }
    destruct r as [[c|e]|v]; injection E as <- <-.
    + split; cbn; try congruence; [apply Hr|by apply Hthreads].
    + destruct Hr as [-> _]. split; cbn; try congruence; by apply Hthreads.
    + destruct Hr as (-> & -> & _). split; cbn; try congruence. apply Hthreads.
      cbn. split_and!; try done; apply Hb.
Qed.

Lemma bump_act_inv ptr sz s s' : act_step (iact act) s s' -> Inv ptr sz s -> Inv ptr sz s'.
Proof.
  intros [[k a] t E] Hi. apply iact_inv in E as (p & p' & Ek & E & E2). destruct s as [g ps], t as [g' ps'].
  cbn [fst snd] in *. subst ps'. pose proof Hi as [Hb Ep Es Ht Hpa]. cbn in Hb, Ep, Es, Ht, Hpa.
  pose proof (Forall_lookup_1 _ _ _ _ Ht Ek) as Hok.
  destruct a as [l| |], p as [r|l'|l' cur]; cbn in E; try done.
  - destruct (_ && _) eqn:Ef; [|done]. injection E as <- <-. bool_to_prop.
    eapply bump_inv_local; [done..|]. destruct (size l =? 0); [done|]. by split_and!.
  - injection E as <- <-.
    by apply (bump_step_inv ptr sz g ps k (Load l') g.(bump) (Loop l' (current_position g.(bump)))).
  - cbn in Hok. destruct Hok as (Hf & Hl & Ha & Hcur).
    destruct (iteration_ok g.(bump) g.(chunks) l' cur Hb) as (r & b1 & E1 & _); [done..|].
    rewrite E1 in E. cbn in E.
    assert (Hs : exists q, thread_step g.(bump) (Loop l' cur) = Ret (b1, q) /\
      g' = {| bump := b1; chunks := log_chunk q g.(chunks); panicked := g.(panicked) |} /\ p' = q).
    { cbn. rewrite E1. cbn. destruct r; injection E as <- <-; by eexists. }
    destruct Hs as (q & Eq & -> & ->). by eapply bump_step_inv.
  - injection E as <- <-. eapply bump_inv_local; [done..|]. cbn in *.
    destruct Hok as (? & ? & ? & _). split_and!; try done; apply Hb.
Qed.

Lemma bump_reachable_inv ptr sz n s :
  0 <= ptr -> 0 <= sz -> rtc (act_step (iact act)) (begin (new ptr sz) n) s -> Inv ptr sz s.
Proof.
  intros Hp Hs Hr. eapply (rtc_invariant (act_step (iact act)));
    [intros a b; apply bump_act_inv|done|]. split; cbn; try done.
  by apply Forall_replicate.
Qed.

End concurrent.

(** ** Properties *)

(** For any number of threads allocating concurrently (with spurious failures
    of the weak compare-and-swap), whose requests stay below the end of the address
    space: no step panics, and all chunks handed out are inside the managed memory
    and pairwise disjoint. *)
Theorem bump_allocator_disjoint `{Profile} ptr sz n s :
  0 <= ptr -> 0 <= sz -> rtc (act_step (iact act)) (begin (new ptr sz) n) s ->
  s.1.(panicked) = false /\ pairwise_disjoint s.1.(chunks) /\
  Forall (fun c => ptr <= c.(chunk_ptr) /\ 0 <= c.(chunk_len) /\
    c.(chunk_ptr) + c.(chunk_len) <= ptr + sz) s.1.(chunks).
Proof.
  intros Hp Hs Hr. destruct (bump_reachable_inv ptr sz n s Hp Hs Hr) as [[H0 Hpos Hin Hd] Ep Es Ht Hpa].
  split_and!; [done..|]. eapply Forall_impl; [exact Hin|]. cbn. intros c. lia.
Qed.

(** Two threads race for the first 4 bytes; the loser retries. *)
Definition race : list (nat * thread_action) :=
  let l := {| size := 4; layout_align := 4 |} in
  [(0%nat, CallAllocate l); (1%nat, CallAllocate l); (0%nat, Step); (1%nat, Step);
   (1%nat, Step); (0%nat, Step); (0%nat, SpuriousFailure); (0%nat, Step)].

Lemma bump_allocator_disjoint_witness :
  exists s, run_schedule (iact (act (H := dev))) race (begin (new 1001 16) 2) = Some s /\
    s.1.(chunks) = [{| chunk_ptr := 1008; chunk_len := 4 |}; {| chunk_ptr := 1004; chunk_len := 4 |}] /\
    pairwise_disjoint s.1.(chunks).
Proof.
  eexists. split; [vm_compute; reflexivity|]. split; [reflexivity|].
  eapply (bump_allocator_disjoint (H := dev) 1001 16 2); [lia|lia|].
  apply (run_schedule_reachable _ race). vm_compute. reflexivity.
Defined.

(** Every request on a consistent allocator is answered: zero bytes are refused
    with [SizeIsZero], a request that does not fit behind the aligned current
    position with [OutOfMemory], both without changing the allocator; every other
    request yields an aligned chunk of exactly the requested size, disjoint from all
    chunks handed out since the last [deallocate]. *)
Theorem bump_allocator_total `{Profile} b cs l :
  bump_inv b cs -> 0 <= l.(size) -> 0 < l.(layout_align) -> fits b l = true ->
  exists r b', allocate b l = Ret (r, b') /\
    match r with
    | Ok c => bump_inv b' (c :: cs) /\ c.(chunk_len) = l.(size) /\
        c.(chunk_ptr) mod l.(layout_align) = 0
    | Err e => b' = b /\ (e = SizeIsZero <-> l.(size) = 0) /\ (e = SizeIsZero \/ e = OutOfMemory)
    end.
Proof.
  intros Hi Hl Ha Hf. unfold allocate. destruct (size l =? 0) eqn:Ez; bool_to_prop.
  { exists (Err SizeIsZero), b. split_and!; try done. by left. }
  destruct (iteration_ok b cs l b.(current_position) Hi) as (r & b' & -> & _ & _ & Hr);
    [apply Hi|done..|].
  cbn. destruct r as [[c|e]|v].
  - eexists _, _. by split.
  - destruct Hr as [-> ->]. exists (Err OutOfMemory), b. split_and!; try done. by right.
  - by destruct Hr as (_ & -> & ?).
Qed.

Lemma bump_allocator_total_witness :
  exists r b', allocate (H := dev) (new 1001 16) {| size := 4; layout_align := 4 |} = Ret (r, b') /\
    match r with
    | Ok c => bump_inv b' [c] /\ c.(chunk_len) = 4 /\ c.(chunk_ptr) mod 4 = 0
    | Err e => b' = new 1001 16 /\ (e = SizeIsZero <-> 4 = 0) /\ (e = SizeIsZero \/ e = OutOfMemory)
    end.
Proof.
  apply (bump_allocator_total (H := dev) (new 1001 16) [] {| size := 4; layout_align := 4 |}).
  - split; cbn; (done || lia).
  - cbn. lia.
  - cbn. lia.
  - reflexivity.
Defined.

(** The zeroing allocation of the trait on the bump allocator. *)
Lemma allocate_zeroed_zeroes_witness :
  exists c s' m', allocate_zeroed (new 1001 16) {[1005 := 7]} {| size := 4; layout_align := 4 |}
      (H := bump_base_allocator (H := dev)) = Ret (Ok c, s', m') /\
    (forall a, c.(chunk_ptr) <= a < c.(chunk_ptr) + c.(chunk_len) -> m' !! a = Some 0).
Proof.
  eexists _, _, _. split; [vm_compute; reflexivity|].
  eapply (allocate_zeroed_zeroes (laws := bump_laws (H := dev)) (new 1001 16) [] {[1005 := 7]}
    {| size := 4; layout_align := 4 |}).
  - split; cbn; (done || lia).
  - split; [cbn; lia|]. exists 2. cbn. lia.
  - reflexivity.
  - vm_compute. reflexivity.
Defined.
