(* ===== verification/OneChunkAllocator.v ===== *)
(** * iceoryx2_bb/memory/src/one_chunk_allocator.rs

    The allocator that manages a single chunk; [allocated_chunk_start] is the address
    of that chunk or 0 while it is available. *)

From S2P Require Import Prelude Math Allocator.

(* src/iceoryx2_bb/memory/src/one_chunk_allocator.rs:54-58 OneChunkAllocator *)
Record OneChunkAllocator := { start : Z; chunk_size : Z; allocated_chunk_start : Z }.

(* src/iceoryx2_bb/memory/src/one_chunk_allocator.rs:61-67 new *)
Definition new (ptr sz : Z) : OneChunkAllocator :=
  {| start := ptr; chunk_size := sz; allocated_chunk_start := 0 |}.

(* src/iceoryx2_bb/memory/src/one_chunk_allocator.rs:69-71 has_chunk_available *)
Definition has_chunk_available (s : OneChunkAllocator) : bool := s.(allocated_chunk_start) =? 0.

(* src/iceoryx2_bb/memory/src/one_chunk_allocator.rs:73-75 is_allocated_chunk *)
Definition is_allocated_chunk (s : OneChunkAllocator) (ptr : Z) : bool :=
  ptr =? s.(allocated_chunk_start).

(* src/iceoryx2_bb/memory/src/one_chunk_allocator.rs:77-79 release_chunk *)
Definition release_chunk (s : OneChunkAllocator) : OneChunkAllocator :=
  {| start := s.(start); chunk_size := s.(chunk_size); allocated_chunk_start := 0 |}.

Section operations.
Context `{Profile}.

(* src/iceoryx2_bb/memory/src/one_chunk_allocator.rs:91-112 allocate *)
Definition allocate (s : OneChunkAllocator) (l : Layout)
    : outcome (Result Chunk AllocationError * OneChunkAllocator) :=
  let! adjusted_start := align s.(start) l.(layout_align) in
  if negb (has_chunk_available s) then Ret (Err OutOfMemory, s)
  else
    let! padding := adjusted_start -u64 s.(start) in
    let! available_size := s.(chunk_size) -u64 padding in
    if available_size <=? l.(size) then Ret (Err OutOfMemory, s)
    else Ret (Ok {| chunk_ptr := adjusted_start; chunk_len := available_size |},
              {| start := s.(start); chunk_size := s.(chunk_size);
                 allocated_chunk_start := adjusted_start |}).

(* src/iceoryx2_bb/memory/src/one_chunk_allocator.rs:114-129 deallocate *)
Definition deallocate (s : OneChunkAllocator) (ptr : Z) (l : Layout)
    : outcome (Result unit DeallocationError * OneChunkAllocator) :=
  if is_allocated_chunk s ptr then Ret (Ok tt, release_chunk s)
  else Ret (Err ProvidedPointerNotContainedInAllocator, s).

(* src/iceoryx2_bb/memory/src/one_chunk_allocator.rs:133-164 grow *)
Definition grow (s : OneChunkAllocator) (ptr : Z) (old_layout new_layout : Layout)
    : outcome (Result Chunk AllocationGrowError) :=
  if negb (is_allocated_chunk s ptr) then Ret (Err GrowProvidedPointerNotContainedInAllocator)
  else if new_layout.(size) <=? old_layout.(size) then Ret (Err GrowWouldShrink)
  else if old_layout.(layout_align) <? new_layout.(layout_align)
  then Ret (Err GrowAlignmentFailure)
  else
    let! padding := s.(allocated_chunk_start) -u64 s.(start) in
    let! available_size := s.(chunk_size) -u64 padding in
    if available_size <? new_layout.(size) then Ret (Err GrowOutOfMemory)
    else Ret (Ok {| chunk_ptr := ptr; chunk_len := available_size |}).

(* src/iceoryx2_bb/memory/src/one_chunk_allocator.rs:166-193 shrink *)
Definition shrink (s : OneChunkAllocator) (ptr : Z) (old_layout new_layout : Layout)
    : outcome (Result Chunk AllocationShrinkError) :=
  if negb (is_allocated_chunk s ptr) then Ret (Err ShrinkProvidedPointerNotContainedInAllocator)
  else if old_layout.(size) <=? new_layout.(size) then Ret (Err ShrinkWouldGrow)
  else if old_layout.(layout_align) <? new_layout.(layout_align)
  then Ret (Err ShrinkAlignmentFailure)
  else Ret (Ok {| chunk_ptr := ptr; chunk_len := new_layout.(size) |}).

#[export] Instance one_chunk_base_allocator : BaseAllocator OneChunkAllocator :=
  {| Allocator.allocate := allocate; Allocator.deallocate := deallocate |}.

#[export] Instance one_chunk_allocator : Allocator OneChunkAllocator :=
  {| Allocator.grow := grow; Allocator.shrink := shrink |}.

End operations.

(** ** Lemmas *)

(** At most one chunk is handed out; it lies inside the managed memory. *)
Record one_inv (s : OneChunkAllocator) (cs : list Chunk) : Prop := {
  inv_start : 0 < s.(start);
  inv_size : 0 <= s.(chunk_size);
  inv_chunk :
    if has_chunk_available s then cs = []
    else exists c, cs = [c] /\ c.(chunk_ptr) = s.(allocated_chunk_start) /\
      s.(start) <= c.(chunk_ptr) /\ 0 <= c.(chunk_len) /\
      c.(chunk_ptr) + c.(chunk_len) <= s.(start) + s.(chunk_size);
}.

(** The aligned start is not behind the end of the managed memory. *)
Definition fits (s : OneChunkAllocator) (l : Layout) : Prop :=
  s.(start) + l.(layout_align) < 2 ^ 64 /\
  (l.(layout_align) <= s.(chunk_size) \/ s.(start) mod l.(layout_align) = 0).

Section lemmas.
Context `{Profile}.

Lemma chunk_allocate_ok s cs l :
  one_inv s cs -> 0 < l.(layout_align) -> fits s l ->
  exists a, align s.(start) l.(layout_align) = Ret a /\ a mod l.(layout_align) = 0 /\
    s.(start) <= a <= s.(start) + s.(chunk_size) /\
    allocate s l =
      Ret (if negb (has_chunk_available s) || (s.(start) + s.(chunk_size) - a <=? l.(size))
           then (Err OutOfMemory, s)
           else (Ok {| chunk_ptr := a; chunk_len := s.(start) + s.(chunk_size) - a |},
                 {| start := s.(start); chunk_size := s.(chunk_size);
                    allocated_chunk_start := a |})).
Proof.
  intros [Hs Hz Hc] Ha [Hf Hpad]. unfold allocate.
  assert (Hal : exists a, align s.(start) l.(layout_align) = Ret a /\ a mod l.(layout_align) = 0 /\
    s.(start) <= a <= s.(start) + s.(chunk_size)).
  { destruct Hpad as [Hle|Hm].
    - destruct (align_ok s.(start) l.(layout_align)) as (a & ? & ? & ?); [lia..|].
      exists a. split_and!; (done || lia).
    - exists s.(start). split_and!; [by apply align_aligned|done|lia..]. }
  destruct Hal as (a & Ea & Em & Hb). exists a. split_and!; [done..|lia|lia|]. rewrite Ea. checked.
  destruct (has_chunk_available s); cbn; [|done]. checked.
  replace (chunk_size s - (a - start s)) with (start s + chunk_size s - a) by lia.
  by destruct (_ <=? _).
Qed.

#[export] Instance one_chunk_laws : AllocatorLaws OneChunkAllocator.
Proof.
  refine {| alloc_inv := one_inv; alloc_fits := fits |}.
  intros s cs l Hi Hl Hf. cbn. pose proof (valid_layout_pos l Hl) as Hpos.
  destruct (chunk_allocate_ok s cs l Hi Hpos Hf) as (a & _ & Em & Hb & ->).
  destruct (has_chunk_available s) eqn:Eav; cbn; [|by eexists _, _].
  destruct (_ <=? _) eqn:Esz; [by eexists _, _|]. bool_to_prop. eexists _, _. split; [done|].
  destruct Hi as [Hs Hz Hc]. rewrite Eav in Hc. subst cs. cbn. split_and!; [|lia|done|done].
  split; cbn; [done..|]. unfold has_chunk_available. cbn.
  rewrite (proj2 (Z.eqb_neq a 0)) by lia. eexists. split_and!; (done || (cbn; lia)).
Defined.

End lemmas.

(** ** Properties *)

(** Life of the chunk: while it is available, a request that fits is granted the
    aligned rest of the memory; until that chunk is returned every further request
    fails with [OutOfMemory]; only its own address is accepted by [deallocate], after
    which the allocator is back in its initial state. *)
Theorem one_chunk_lifecycle `{Profile} ptr sz l l' p :
  0 < ptr -> 0 <= sz -> valid_layout l -> fits (new ptr sz) l ->
  valid_layout l' -> fits (new ptr sz) l' ->
  forall c s, allocate (new ptr sz) l = Ret (Ok c, s) ->
  c.(chunk_ptr) mod l.(layout_align) = 0 /\ l.(size) < c.(chunk_len) /\
  ptr <= c.(chunk_ptr) /\ c.(chunk_ptr) + c.(chunk_len) = ptr + sz /\
  allocate s l' = Ret (Err OutOfMemory, s) /\
  deallocate s p l =
    Ret (if p =? c.(chunk_ptr) then (Ok tt, new ptr sz)
         else (Err ProvidedPointerNotContainedInAllocator, s)).
Proof.
  intros Hp Hz Hl Hf Hl' Hf' c s E.
  destruct (chunk_allocate_ok (new ptr sz) [] l) as (a & Ea & Em & Hb & E');
    [by split|by apply valid_layout_pos|done|].
  rewrite E' in E. cbn in *. destruct (_ <=? size l) eqn:Esz; [done|]. bool_to_prop.
  injection E as <- <-. cbn. split_and!; try done; try lia.
  - set (s := {| start := ptr; chunk_size := sz; allocated_chunk_start := a |}).
    set (c := {| chunk_ptr := a; chunk_len := ptr + sz - a |}).
    assert (Hav : has_chunk_available s = false) by (apply Z.eqb_neq; cbn; lia).
    destruct (chunk_allocate_ok s [c] l') as (a' & _ & _ & _ & ->).
    + split; cbn; [done..|]. rewrite Hav. exists c. split_and!; try done; cbn; lia.
    + by apply valid_layout_pos.
    + done.
    + by rewrite Hav.
  - unfold deallocate, is_allocated_chunk. cbn. by destruct (p =? a).
Qed.

Lemma one_chunk_lifecycle_witness :
  let l := {| size := 8; layout_align := 8 |} in
  exists c s, allocate (H := dev) (new 1001 64) l = Ret (Ok c, s) /\
    allocate (H := dev) s l = Ret (Err OutOfMemory, s) /\
    deallocate s c.(chunk_ptr) l = Ret (Ok tt, new 1001 64).
Proof.
  intros l. eexists _, _. split; [vm_compute; reflexivity|].
  edestruct (one_chunk_lifecycle (H := dev) 1001 64 l l 1008) as (_ & _ & _ & _ & E1 & E2);
    [lia|lia| | | | |vm_compute; reflexivity|].
  - split; [cbn; lia|]. exists 3. cbn. lia.
  - split; cbn; lia.
  - split; [cbn; lia|]. exists 3. cbn. lia.
  - split; cbn; lia.
  - split; [exact E1|exact E2].
Defined.

(** Two edge cases of [allocate]: a request for exactly the available size is
    refused although it fits; and when the alignment padding exceeds the managed
    memory the size computation underflows, which panics with overflow checks and in
    a release build returns a chunk far larger than the memory. *)
Theorem one_chunk_edge_cases :
  let l := {| size := 16; layout_align := 1 |} in
  let big := {| size := 8; layout_align := 64 |} in
  allocate (H := dev) (new 1000 16) l = Ret (Err OutOfMemory, new 1000 16) /\
  allocate (H := dev) (new 1000 16) big = Panic /\
  exists s, allocate (H := release) (new 1000 16) big =
    Ret (Ok {| chunk_ptr := 1024; chunk_len := 2 ^ 64 - 8 |}, s).
Proof. split_and!; [reflexivity..|]. eexists. vm_compute. reflexivity. Qed.

(** [grow] and [shrink] act on the allocated chunk only, never move it, and the
    memory they return stays inside the managed memory; a granted [grow] is at least
    as large as requested. *)
Theorem one_chunk_resize `{Profile} s c old_layout new_layout :
  one_inv s [c] -> s.(start) + s.(chunk_size) < 2 ^ 64 -> 0 <= new_layout.(size) ->
  (exists r, grow s c.(chunk_ptr) old_layout new_layout = Ret r /\
     match r with
     | Ok d => d.(chunk_ptr) = c.(chunk_ptr) /\ new_layout.(size) <= d.(chunk_len) /\
         d.(chunk_ptr) + d.(chunk_len) = s.(start) + s.(chunk_size)
     | Err e => e <> GrowProvidedPointerNotContainedInAllocator
     end) /\
  (exists r, shrink s c.(chunk_ptr) old_layout new_layout = Ret r /\
     match r with
     | Ok d => d.(chunk_ptr) = c.(chunk_ptr) /\ d.(chunk_len) = new_layout.(size) /\
         new_layout.(size) < old_layout.(size)
     | Err e => e <> ShrinkProvidedPointerNotContainedInAllocator
     end).
Proof.
  intros [Hs Hz Hc] Hb Hn. destruct (has_chunk_available s); [done|].
  destruct Hc as (c' & [= <-] & Ep & Hge & Hl & Hle). unfold grow, shrink, is_allocated_chunk.
  rewrite Ep, Z.eqb_refl. cbn. rewrite Ep in *. split.
  - destruct (_ <=? _); [by eexists|]. destruct (_ <? _); [by eexists|]. checked.
    destruct (_ <? _) eqn:E; [by eexists|]. bool_to_prop. eexists. split; [done|]. cbn. lia.
  - destruct (_ <=? _) eqn:E; [by eexists|]. destruct (_ <? _); [by eexists|]. bool_to_prop.
    eexists. split; [done|]. cbn. lia.
Qed.

Lemma one_chunk_resize_witness :
  let s := {| start := 1000; chunk_size := 64; allocated_chunk_start := 1008 |} in
  exists r, grow (H := dev) s 1008 {| size := 8; layout_align := 8 |} {| size := 16; layout_align := 8 |}
      = Ret r /\
    match r with
    | Ok d => d.(chunk_ptr) = 1008 /\ 16 <= d.(chunk_len) /\ d.(chunk_ptr) + d.(chunk_len) = 1064
    | Err e => e <> GrowProvidedPointerNotContainedInAllocator
    end.
Proof.
  intros s. apply (one_chunk_resize (H := dev) s {| chunk_ptr := 1008; chunk_len := 56 |}
    {| size := 8; layout_align := 8 |} {| size := 16; layout_align := 8 |}).
  - split; cbn; try lia. eexists. split; [reflexivity|]. cbn. lia.
  - reflexivity.
  - cbn. lia.
Defined.
