(* ===== verification/PoolAllocator.v ===== *)
(** * iceoryx2_bb/memory/src/pool_allocator.rs

    The pool allocator: equally sized buckets behind [start], handed out by a
    [UniqueIndexSet] of bucket numbers. *)

From S2P Require Import Prelude Math Allocator UniqueIndexSet.

Module U := UniqueIndexSet.

(* src/iceoryx2_bb/memory/src/pool_allocator.rs:64-71 PoolAllocator *)
Record PoolAllocator := {
  buckets : U.UniqueIndexSet;
  bucket_size : Z;
  bucket_alignment : Z;
  start : Z;
  pool_size : Z;
  is_memory_initialized : bool;
}.

Definition set_buckets (s : PoolAllocator) b : PoolAllocator :=
  {| buckets := b; bucket_size := s.(bucket_size); bucket_alignment := s.(bucket_alignment);
     start := s.(start); pool_size := s.(pool_size);
     is_memory_initialized := s.(is_memory_initialized) |}.

Section operations.
Context `{Profile}.

(* src/iceoryx2_bb/memory/src/pool_allocator.rs:74-78 verify_init *)
Definition verify_init (s : PoolAllocator) : outcome unit :=
  if s.(is_memory_initialized) then Ret tt else Panic.

(* src/iceoryx2_bb/memory/src/pool_allocator.rs:80-82 number_of_buckets *)
Definition number_of_buckets (s : PoolAllocator) : Z := s.(buckets).(U.capacity).

(* src/iceoryx2_bb/memory/src/pool_allocator.rs:144-149 calc_number_of_buckets *)
Definition calc_number_of_buckets (bucket_layout : Layout) (ptr sz : Z) : outcome Z :=
  let! adjusted_start := align ptr bucket_layout.(layout_align) in
  let! bsize := align bucket_layout.(size) bucket_layout.(layout_align) in
  let! e := ptr +u64 sz in
  let! rest := e -u64 adjusted_start in
  if bsize =? 0 then Panic else Ret (rest / bsize).

(* src/iceoryx2_bb/memory/src/pool_allocator.rs:101-114 new_uninit *)
Definition new_uninit (bucket_layout : Layout) (ptr sz : Z) : outcome PoolAllocator :=
  let! adjusted_start := align ptr bucket_layout.(layout_align) in
  let! n := calc_number_of_buckets bucket_layout ptr sz in
  Ret {| buckets := U.new_uninit n; bucket_size := bucket_layout.(size);
         bucket_alignment := bucket_layout.(layout_align); start := adjusted_start;
         pool_size := sz; is_memory_initialized := false |}.

(* src/iceoryx2_bb/memory/src/pool_allocator.rs:120-136 init *)
Definition init `{BaseAllocator A} (s : PoolAllocator) (allocator : A)
    : outcome (Result unit AllocationError * PoolAllocator * A) :=
  if s.(is_memory_initialized) then Panic
  else
    let! '(r, b, allocator) := U.init s.(buckets) allocator in
    match r with
    | Err e => Ret (Err e, set_buckets s b, allocator)
    | Ok _ =>
        Ret (Ok tt,
             {| buckets := b; bucket_size := s.(bucket_size);
                bucket_alignment := s.(bucket_alignment); start := s.(start);
                pool_size := s.(pool_size); is_memory_initialized := true |}, allocator)
    end.

(* src/iceoryx2_bb/memory/src/pool_allocator.rs:138-142 memory_size *)
Definition memory_size (bucket_layout : Layout) (sz : Z) : outcome Z :=
  if bucket_layout.(size) =? 0 then Panic
  else U.const_memory_size (sz / bucket_layout.(size)).

(* src/iceoryx2_bb/memory/src/pool_allocator.rs:151-158 get_index *)
Definition get_index (s : PoolAllocator) (ptr : Z) : outcome (option Z) :=
  if ptr <? s.(start) then Ret None
  else
    let! e := s.(start) +u64 s.(pool_size) in
    if e <? ptr then Ret None
    else
      let! d := ptr -u64 s.(start) in
      if s.(bucket_size) =? 0 then Panic
      else Ret (Some (cast 32 (d / s.(bucket_size)))).

(* src/iceoryx2_bb/memory/src/pool_allocator.rs:162-188 allocate *)
Definition allocate (s : PoolAllocator) (l : Layout)
    : outcome (Result Chunk AllocationError * PoolAllocator) :=
  let! _ := verify_init s in
  if s.(bucket_size) <? l.(size) then Ret (Err SizeTooLarge, s)
  else if s.(bucket_alignment) <? l.(layout_align) then Ret (Err AlignmentFailure, s)
  else
    let! '(r, b) := U.acquire_raw_index s.(buckets) in
    match r with
    | Some v =>
        let! offset := v *u64 s.(bucket_size) in
        let! p := s.(start) +u64 offset in
        Ret (Ok {| chunk_ptr := p; chunk_len := l.(size) |}, set_buckets s b)
    | None => Ret (Err OutOfMemory, set_buckets s b)
    end.

(* src/iceoryx2_bb/memory/src/pool_allocator.rs:190-207 deallocate *)
Definition deallocate (s : PoolAllocator) (ptr : Z) (l : Layout)
    : outcome (Result unit DeallocationError * PoolAllocator) :=
  let! _ := verify_init s in
  let! i := get_index s ptr in
  match i with
  | Some i =>
      let! b := U.release_raw_index s.(buckets) i in
      Ret (Ok tt, set_buckets s b)
  | None => Ret (Err ProvidedPointerNotContainedInAllocator, s)
  end.

(* src/iceoryx2_bb/memory/src/pool_allocator.rs:212-246 grow *)
Definition grow (s : PoolAllocator) (ptr : Z) (old_layout new_layout : Layout)
    : outcome (Result Chunk AllocationGrowError) :=
  let! _ := verify_init s in
  let! i := get_index s ptr in
  match i with
  | None => Ret (Err GrowProvidedPointerNotContainedInAllocator)
  | Some _ =>
      if new_layout.(size) <=? old_layout.(size) then Ret (Err GrowWouldShrink)
      else if s.(bucket_alignment) <? new_layout.(layout_align) then Ret (Err GrowAlignmentFailure)
      else if s.(bucket_size) <? new_layout.(size) then Ret (Err GrowOutOfMemory)
      else Ret (Ok {| chunk_ptr := ptr; chunk_len := new_layout.(size) |})
  end.

(* src/iceoryx2_bb/memory/src/pool_allocator.rs:248-277 shrink *)
Definition shrink (s : PoolAllocator) (ptr : Z) (old_layout new_layout : Layout)
    : outcome (Result Chunk AllocationShrinkError) :=
  let! _ := verify_init s in
  let! i := get_index s ptr in
  match i with
  | None => Ret (Err ShrinkProvidedPointerNotContainedInAllocator)
  | Some _ =>
      if old_layout.(size) <=? new_layout.(size) then Ret (Err ShrinkWouldGrow)
      else if s.(bucket_alignment) <? new_layout.(layout_align) then Ret (Err ShrinkAlignmentFailure)
      else Ret (Ok {| chunk_ptr := ptr; chunk_len := new_layout.(size) |})
  end.

(** The fixed-size pool: its bucket numbers are stored behind the header. *)
(* src/iceoryx2_bb/memory/src/pool_allocator.rs:315-337 FixedSizePoolAllocator::new *)
Definition fixed_size_new (header_size MAX : Z) (bucket_layout : Layout) (ptr sz : Z)
    : outcome PoolAllocator :=
  let! adjusted_start := align ptr bucket_layout.(layout_align) in
  let! n := calc_number_of_buckets bucket_layout ptr sz in
  let! distance := align_to 4 header_size in
  let! last := cast 32 MAX +u32 1 in
  Ret {| buckets := U.new (Z.min n MAX) distance (U.initial_cells MAX ++ [last]);
         bucket_size := bucket_layout.(size);
         bucket_alignment := bucket_layout.(layout_align); start := adjusted_start;
         pool_size := sz; is_memory_initialized := true |}.

#[export] Instance pool_base_allocator : BaseAllocator PoolAllocator :=
  {| Allocator.allocate := allocate; Allocator.deallocate := deallocate |}.

#[export] Instance pool_allocator : Allocator PoolAllocator :=
  {| Allocator.grow := grow; Allocator.shrink := shrink |}.

End operations.

(** ** The invariant *)

Definition bucket (s : PoolAllocator) (i : Z) (c : Chunk) : Prop :=
  c.(chunk_ptr) = s.(start) + i * s.(bucket_size) /\ 0 <= c.(chunk_len) <= s.(bucket_size).

(** [used] are the bucket numbers of the chunks [cs] in use. *)
Record pool_repr (s : PoolAllocator) (free used : list Z) (cs : list Chunk) : Prop := {
  pr_init : s.(is_memory_initialized) = true;
  pr_size : 0 < s.(bucket_size);
  pr_align : exists k, 0 <= k /\ s.(bucket_alignment) = 2 ^ k;
  pr_start : 0 <= s.(start) /\ s.(start) mod s.(bucket_alignment) = 0;
  pr_memory : number_of_buckets s * s.(bucket_size) <= s.(pool_size);
  pr_width : s.(start) + s.(pool_size) < 2 ^ 64;
  pr_free : U.repr s.(buckets) free;
  pr_perm : free ++ used ≡ₚ seqZ 0 (number_of_buckets s);
  pr_used : Forall2 (bucket s) used cs;
}.

(** Two states of one pool, [n] operations apart. *)
Definition later (n : Z) (s s' : PoolAllocator) : Prop :=
  s'.(bucket_size) = s.(bucket_size) /\ s'.(bucket_alignment) = s.(bucket_alignment) /\
  s'.(start) = s.(start) /\ s'.(pool_size) = s.(pool_size) /\
  U.aba_of s'.(buckets).(U.head) = U.aba_of s.(buckets).(U.head) + n.

(** With a bucket size that is a multiple of the bucket alignment every bucket is
    aligned. *)
Record pool_inv (s : PoolAllocator) (cs : list Chunk) : Prop := {
  pi_repr : exists free used, pool_repr s free used cs;
  pi_aligned : s.(bucket_size) mod s.(bucket_alignment) = 0;
}.

(** The counter of the index set can be incremented once more. *)
Definition fits (s : PoolAllocator) (l : Layout) : Prop :=
  U.aba_of s.(buckets).(U.head) + 1 < 2 ^ 32.

Lemma pow2_divide k k' a : 0 <= k' <= k -> a mod 2 ^ k = 0 -> a mod 2 ^ k' = 0.
Proof.
  intros Hk E. apply Z.mod_divide; [lia|]. apply Z.mod_divide in E; [|lia].
  etrans; [|exact E]. exists (2 ^ (k - k')). rewrite <-Z.pow_add_r by lia. f_equal. lia.
Qed.

Lemma bucket_aligned s i k :
  0 <= k -> 2 ^ k <= s.(bucket_alignment) -> (exists k', 0 <= k' /\ s.(bucket_alignment) = 2 ^ k') ->
  s.(start) mod s.(bucket_alignment) = 0 -> s.(bucket_size) mod s.(bucket_alignment) = 0 ->
  (s.(start) + i * s.(bucket_size)) mod 2 ^ k = 0.
Proof.
  intros Hk Hle (k' & Hk' & Ea) Es Eb. rewrite Ea in *.
  apply (pow2_divide k'); [split; [done|]; by apply (Z.pow_le_mono_r_iff 2)|].
  apply Z.mod_divide; [lia|]. apply Z.divide_add_r; [by apply Z.mod_divide; [lia|]|].
  apply Z.divide_mul_r. by apply Z.mod_divide; [lia|].
Qed.

(** Distinct buckets do not overlap. *)
Lemma bucket_disjoint s i j c d :
  0 < s.(bucket_size) -> i <> j -> bucket s i c -> bucket s j d -> disjoint_chunks c d.
Proof.
  intros Hb Hne [Ec Hc] [Ed Hd]. unfold disjoint_chunks. rewrite Ec, Ed.
  destruct (Z.lt_total i j) as [Hlt|[|Hgt]]; [left|done|right].
  - pose proof (Z.mul_le_mono_nonneg_r (i + 1) j s.(bucket_size)). lia.
  - pose proof (Z.mul_le_mono_nonneg_r (j + 1) i s.(bucket_size)). lia.
Qed.

Lemma bucket_end s i : 0 < s.(bucket_size) -> 0 <= i < number_of_buckets s ->
  0 <= i * s.(bucket_size) /\ i * s.(bucket_size) + s.(bucket_size) <= number_of_buckets s * s.(bucket_size).
Proof.
  intros Hb Hi. split; [lia|].
  pose proof (Z.mul_le_mono_nonneg_r (i + 1) (number_of_buckets s) s.(bucket_size)). lia.
Qed.

Section lemmas.
Context `{Profile}.

Lemma allocate_repr s free used cs l :
  pool_repr s free used cs -> 0 <= l.(size) -> fits s l ->
  exists r s', allocate s l = Ret (r, s') /\
    match r with
    | Ok c => exists i rest, free = i :: rest /\ pool_repr s' rest (i :: used) (c :: cs) /\
        bucket s i c /\ c.(chunk_len) = l.(size) /\ l.(size) <= s.(bucket_size) /\
        l.(layout_align) <= s.(bucket_alignment) /\ (i ∉ used) /\ later 1 s s'
    | Err OutOfMemory => s' = s /\ free = []
    | Err SizeTooLarge => s' = s /\ s.(bucket_size) < l.(size)
    | Err AlignmentFailure => s' = s /\ s.(bucket_alignment) < l.(layout_align)
    | Err _ => False
    end.
Proof.
  intros [Hi Hb Ha Hs Hm Hw Hf Hp Hu] Hl Hfit. unfold allocate, verify_init. rewrite Hi. cbn.
  destruct (_ <? size l) eqn:E1; bool_to_prop; [by eexists _, _|].
  destruct (_ <? layout_align l) eqn:E2; bool_to_prop; [by eexists _, _|].
  destruct free as [|i rest].
  { rewrite U.acquire_none by done. eexists _, _. split; [done|]. by destruct s. }
  destruct (U.acquire_some s.(buckets) i rest Hf Hfit) as (b & -> & Hb' & Ec & Eaba & _). cbn.
  assert (Hin : i ∈ seqZ 0 (number_of_buckets s)) by (rewrite <-Hp; by left).
  apply elem_of_seqZ in Hin. destruct (bucket_end s i Hb ltac:(lia)) as [Hi0 Hi1].
  checked. eexists _, _. split; [done|]. exists i, rest.
  assert (Hbk : bucket s i {| chunk_ptr := start s + i * bucket_size s; chunk_len := size l |}).
  { split; cbn; [done|lia]. }
  assert (Hnu : i ∉ used).
  { assert (Hnd : NoDup ((i :: rest) ++ used)) by (rewrite Hp; apply NoDup_seqZ).
    cbn in Hnd. apply NoDup_cons in Hnd as [Hn _]. rewrite elem_of_app in Hn. tauto. }
  split_and!; try done. split; cbn; try done; unfold number_of_buckets in *; cbn; rewrite ?Ec; try done.
  - rewrite <-Hp. by rewrite <-Permutation_middle.
  - by constructor.
Qed.

Lemma get_index_bucket s i c :
  0 < s.(bucket_size) -> 0 <= s.(start) -> s.(start) + s.(pool_size) < 2 ^ 64 ->
  number_of_buckets s * s.(bucket_size) <= s.(pool_size) -> number_of_buckets s < 2 ^ 32 ->
  0 <= i < number_of_buckets s -> bucket s i c -> get_index s c.(chunk_ptr) = Ret (Some i).
Proof.
  intros Hb Hs Hw Hm Hn Hi [Ec _]. destruct (bucket_end s i Hb Hi) as [Hi0 Hi1].
  unfold get_index. rewrite Ec. rewrite (proj2 (Z.ltb_ge _ _)) by lia. checked.
  rewrite (proj2 (Z.ltb_ge _ _)) by lia. checked. rewrite (proj2 (Z.eqb_neq _ _)) by lia.
  replace (start s + i * bucket_size s - start s) with (i * bucket_size s) by lia.
  rewrite Z.div_mul by lia. by rewrite cast_small by (unfold in_range; lia).
Qed.

Lemma deallocate_repr s free i used c cs l :
  pool_repr s free (i :: used) (c :: cs) -> fits s l ->
  exists s', deallocate s c.(chunk_ptr) l = Ret (Ok tt, s') /\
    pool_repr s' (i :: free) used cs /\ later 1 s s'.
Proof.
  intros [Hi Hb Ha Hs Hm Hw Hf Hp Hu] Hfit. apply Forall2_cons in Hu as [Hbk Hu].
  assert (Hin : i ∈ seqZ 0 (number_of_buckets s)).
  { rewrite <-Hp, elem_of_app. right. by left. }
  apply elem_of_seqZ in Hin. pose proof (U.repr_capacity _ _ Hf).
  assert (Hnf : i ∉ free).
  { assert (Hnd : NoDup (free ++ i :: used)) by (rewrite Hp; apply NoDup_seqZ).
    apply NoDup_app in Hnd as (_ & Hd & _). intros Hif. apply (Hd i Hif). by left. }
  unfold deallocate, verify_init. rewrite Hi. cbn. unfold number_of_buckets in *.
  rewrite (get_index_bucket s i c) by (done || unfold number_of_buckets; lia). cbn.
  destruct (U.uis_release_ok s.(buckets) i free Hf) as (b & -> & Hb' & Ec & Eaba & _); [lia|done..|]. cbn.
  eexists. split; [done|]. split_and!; try done.
  split; cbn; try done; unfold number_of_buckets; cbn; rewrite ?Ec; try done.
  rewrite <-Hp. cbn. by rewrite <-Permutation_middle.
Qed.

Lemma chunk_disjoint s free used cs i c :
  pool_repr s free used cs -> bucket s i c -> i ∉ used -> Forall (disjoint_chunks c) cs.
Proof.
  intros [_ Hb _ _ _ _ _ _ Hu] Hbk Hnu. apply Forall_forall. intros d Hd.
  apply list_elem_of_lookup in Hd as [n En].
  destruct (Forall2_lookup_r _ _ _ _ _ Hu En) as (j & Ej & Hbj).
  apply (bucket_disjoint s i j); try done. intros ->. apply Hnu.
  by eapply list_elem_of_lookup_2.
Qed.

Lemma chunk_inside s i rest used cs c :
  pool_repr s (i :: rest) used cs -> bucket s i c ->
  s.(start) <= c.(chunk_ptr) /\ c.(chunk_ptr) + c.(chunk_len) <= s.(start) + s.(pool_size).
Proof.
  intros [_ Hb _ _ Hm _ _ Hp _] [Ec Hlen].
  assert (Hin : i ∈ seqZ 0 (number_of_buckets s)) by (rewrite <-Hp; by left).
  apply elem_of_seqZ in Hin. destruct (bucket_end s i Hb ltac:(lia)) as [Hi0 Hi1]. lia.
Qed.

#[export] Instance pool_laws : AllocatorLaws PoolAllocator.
Proof.
  refine {| alloc_inv := pool_inv; alloc_fits := fits |}.
  intros s cs l [(free & used & Hr) Hal] (Hl & k & Hk & Ek) Hf. cbn.
  destruct (allocate_repr s free used cs l Hr Hl Hf) as (r & s' & E & Hres).
  exists r, s'. split; [done|]. destruct r as [c|[]]; try (by destruct Hres).
  destruct Hres as (i & rest & -> & Hr' & Hbk & Elen & Hsz & Ha & Hnu & Eb & Ealign & _).
  pose proof Hr as [_ Hb Hpa Hs _ _ _ _ Hu]. split_and!.
  - split; [by eauto|]. by rewrite Eb, Ealign.
  - lia.
  - destruct Hbk as [-> _]. rewrite Ek. apply bucket_aligned; try done; [lia|apply Hs].
  - by eapply chunk_disjoint.
Defined.

End lemmas.

(** ** Creation *)

Section creation.
Context `{Profile}.

Lemma calc_number_of_buckets_ok l ptr sz :
  valid_layout l -> 0 < l.(size) -> 0 <= ptr -> 0 <= sz -> ptr + sz < 2 ^ 64 ->
  ptr + l.(layout_align) <= ptr + sz -> l.(size) + l.(layout_align) < 2 ^ 64 ->
  exists a n, align ptr l.(layout_align) = Ret a /\ calc_number_of_buckets l ptr sz = Ret n /\
    a mod l.(layout_align) = 0 /\ ptr <= a < ptr + l.(layout_align) /\ 0 <= n /\
    n * l.(size) <= ptr + sz - a /\ n <= sz.
Proof.
  intros Hl Hs Hp Hz Hw Hfit Hw'. pose proof (valid_layout_pos l Hl) as Ha.
  destruct (align_ok ptr l.(layout_align)) as (a & Ea & Em & Hb); [lia..|].
  destruct (align_ok l.(size) l.(layout_align)) as (b & Eb & _ & Hbb); [lia..|].
  exists a. unfold calc_number_of_buckets. rewrite Ea, Eb. checked.
  rewrite (proj2 (Z.eqb_neq _ _)) by lia. eexists. split_and!; try done; try lia.
  - apply Z.div_pos; lia.
  - assert (Hn : 0 <= (ptr + sz - a) / b) by (apply Z.div_pos; lia).
    pose proof (Z.mul_div_le (ptr + sz - a) b ltac:(lia)).
    pose proof (Z.mul_le_mono_nonneg_l (size l) b _ Hn). lia.
  - pose proof (Z.div_le_upper_bound (ptr + sz - a) b (ptr + sz - a) ltac:(lia)).
    pose proof (Z.mul_le_mono_nonneg_r 1 b (ptr + sz - a) ltac:(lia)). lia.
Qed.

Lemma fixed_size_new_repr header MAX l ptr sz :
  valid_layout l -> 0 < l.(size) -> 0 <= ptr -> 0 <= sz -> ptr + l.(layout_align) + sz < 2 ^ 64 ->
  l.(layout_align) <= sz -> l.(size) + l.(layout_align) < 2 ^ 64 ->
  0 <= MAX < 2 ^ 32 - 1 -> 0 <= header -> header + 4 < 2 ^ 64 ->
  exists s n, fixed_size_new header MAX l ptr sz = Ret s /\ calc_number_of_buckets l ptr sz = Ret n /\
    number_of_buckets s = Z.min n MAX /\ pool_repr s (seqZ 0 (Z.min n MAX)) [] [] /\
    s.(bucket_size) = l.(size) /\ s.(bucket_alignment) = l.(layout_align) /\
    U.aba_of s.(buckets).(U.head) = 0.
Proof.
  intros Hl Hs Hp Hz Hw Hfit Hw' HM Hh Hh'. pose proof (valid_layout_pos l Hl) as Hpos.
  destruct (calc_number_of_buckets_ok l ptr sz) as (a & n & Ea & En & Em & Hb & Hn & Hnb & Hns);
    [done|lia..|]. unfold fixed_size_new. rewrite Ea, En. checked.
  destruct (align_ok header 4) as (d & Ed & _); [lia..|]. unfold align_to. rewrite Ed. checked.
  rewrite cast_small by (unfold in_range; lia). checked.
  set (m := Z.min n MAX) in *.
  assert (Hfresh : U.fresh (U.new m d (U.initial_cells MAX ++ [MAX + 1]))).
  { apply U.fresh_new; cbn; rewrite ?cast_small by (unfold in_range; lia); try done; try lia.
    - rewrite zlength_app, U.initial_cells_length by lia. change (zlength [MAX + 1]) with 1. lia.
    - apply Forall_app. split; [apply U.initial_cells_range; lia|]. constructor; [|done].
      unfold in_range. lia.
    - intros i Hi. rewrite lookup_app_l; [apply U.initial_cells_lookup; lia|].
      pose proof (U.initial_cells_length MAX). unfold zlength in *. lia. }
  assert (Ecap : cast 32 m = m) by (apply cast_small; unfold in_range; lia).
  assert (Hmb : m * size l <= n * size l) by (apply Z.mul_le_mono_nonneg_r; lia).
  eexists _, n. split; [done|]. cbn.
  destruct Hfresh as (Hr & Ha0 & _). cbn in Hr. rewrite Ecap in Hr.
  split_and!; try done. split; unfold number_of_buckets; cbn; rewrite ?Ecap; try done; try lia.
  - apply Hl.
  - by rewrite app_nil_r.
Qed.

End creation.

(** ** Properties *)

(** Every outcome of [allocate] on a consistent pool: a too large or too strictly
    aligned request and a request to an exhausted pool are refused with their error
    and leave the pool unchanged; otherwise the chunk has the requested size, lies
    inside the managed memory in a bucket that no other chunk in use occupies, and
    after [deallocate] of that chunk the same bucket is handed out again. *)
Theorem pool_allocate_deallocate `{Profile} s free used cs l :
  pool_repr s free used cs -> 0 <= l.(size) -> U.aba_of s.(buckets).(U.head) + 3 < 2 ^ 32 ->
  exists r s1, allocate s l = Ret (r, s1) /\
    match r with
    | Ok c =>
        c.(chunk_len) = l.(size) /\ Forall (disjoint_chunks c) cs /\
        s.(start) <= c.(chunk_ptr) /\ c.(chunk_ptr) + c.(chunk_len) <= s.(start) + s.(pool_size) /\
        exists s2 s3, deallocate s1 c.(chunk_ptr) l = Ret (Ok tt, s2) /\
          pool_repr s2 free used cs /\ allocate s2 l = Ret (Ok c, s3)
    | Err OutOfMemory => s1 = s /\ zlength cs = number_of_buckets s
    | Err SizeTooLarge => s1 = s /\ s.(bucket_size) < l.(size)
    | Err AlignmentFailure => s1 = s /\ s.(bucket_alignment) < l.(layout_align)
    | Err _ => False
    end.
Proof.
  intros Hr Hl Hf. destruct (allocate_repr s free used cs l Hr Hl) as (r & s1 & E1 & Hres);
    [unfold fits; lia|]. exists r, s1. split; [done|].
  destruct r as [c|[]]; try done.
  - destruct Hres as (i & rest & -> & Hr1 & Hbk & Elen & Hsz & Hal & Hnu & Hlater).
    split_and!; [done|by eapply chunk_disjoint|by eapply chunk_inside..|].
    destruct Hlater as (Eb & Ea & Es & Ep & Eaba).
    destruct (deallocate_repr s1 rest i used c cs l Hr1) as (s2 & E2 & Hr2 & Hlater2);
      [unfold fits; lia|]. destruct Hlater2 as (Eb2 & Ea2 & Es2 & Ep2 & Eaba2). exists s2.
    destruct (allocate_repr s2 (i :: rest) used cs l Hr2 Hl) as (r3 & s3 & E3 & Hres3);
      [unfold fits; lia|]. exists s3. split_and!; [done..|]. rewrite E3. do 2 f_equal.
    destruct r3 as [c3|[]]; try (destruct Hres3; (done || lia)).
    destruct Hres3 as (i3 & rest3 & [= <- <-] & _ & [Ec3 _] & El3 & _). destruct Hbk as [Ec _].
    f_equal. destruct c as [p n], c3 as [p3 n3]. cbn in *. f_equal; congruence.
  - destruct Hres as [-> ->]. split; [done|]. destruct Hr as [_ _ _ _ _ _ Hfr Hp Hu].
    cbn in Hp. apply Forall2_length in Hu. apply Permutation_length in Hp.
    rewrite length_seqZ in Hp. pose proof (U.repr_capacity _ _ Hfr).
    unfold zlength, number_of_buckets in *. lia.
Qed.

(** A pool of three 8-byte buckets behind address 1001. *)
Definition example_pool : outcome PoolAllocator :=
  fixed_size_new (H := dev) 64 4 {| size := 8; layout_align := 8 |} 1001 32.

Lemma pool_allocate_deallocate_witness :
  exists s, example_pool = Ret s /\ number_of_buckets s = 3 /\
    let l := {| size := 5; layout_align := 4 |} in
    exists r s1, allocate (H := dev) s l = Ret (r, s1) /\
      match r with
      | Ok c => c.(chunk_len) = 5 /\ Forall (disjoint_chunks c) [] /\
          s.(start) <= c.(chunk_ptr) /\ c.(chunk_ptr) + c.(chunk_len) <= s.(start) + s.(pool_size) /\
          exists s2 s3, deallocate (H := dev) s1 c.(chunk_ptr) l = Ret (Ok tt, s2) /\
            pool_repr s2 (seqZ 0 3) [] [] /\ allocate (H := dev) s2 l = Ret (Ok c, s3)
      | Err OutOfMemory => s1 = s /\ zlength (@nil Chunk) = number_of_buckets s
      | Err SizeTooLarge => s1 = s /\ s.(bucket_size) < 5
      | Err AlignmentFailure => s1 = s /\ s.(bucket_alignment) < 4
      | Err _ => False
      end.
Proof.
  destruct (fixed_size_new_repr (H := dev) 64 4 {| size := 8; layout_align := 8 |} 1001 32)
    as (s & n & Es & En & Enb & Hr & _ & _ & Ea); cbn; try lia.
  - split; [cbn; lia|]. exists 3. done.
  - vm_compute in En. injection En as <-. exists s. split; [exact Es|]. split; [exact Enb|].
    apply (pool_allocate_deallocate (H := dev) s (seqZ 0 3) [] [] {| size := 5; layout_align := 4 |}).
    + exact Hr.
    + cbn. lia.
    + lia.
Defined.

(** A fresh fixed-size pool over [sz] bytes has as many buckets as fit behind the
    aligned start, at most [MAX]; all of them are free and every bucket lies inside
    the memory. *)
Theorem pool_creation `{Profile} header MAX l ptr sz :
  valid_layout l -> 0 < l.(size) -> 0 <= ptr -> 0 <= sz -> ptr + l.(layout_align) + sz < 2 ^ 64 ->
  l.(layout_align) <= sz -> l.(size) + l.(layout_align) < 2 ^ 64 ->
  0 <= MAX < 2 ^ 32 - 1 -> 0 <= header -> header + 4 < 2 ^ 64 ->
  exists s n, fixed_size_new header MAX l ptr sz = Ret s /\
    calc_number_of_buckets l ptr sz = Ret n /\ number_of_buckets s = Z.min n MAX /\
    pool_repr s (seqZ 0 (Z.min n MAX)) [] [] /\
    forall i, 0 <= i < number_of_buckets s ->
      ptr <= s.(start) + i * l.(size) /\ s.(start) + (i + 1) * l.(size) <= ptr + sz.
Proof.
  intros Hl Hs Hp Hz Hw Hfit Hw' HM Hh Hh'.
  destruct (fixed_size_new_repr header MAX l ptr sz) as (s & n & Es & En & Enb & Hr & Eb & _ & _);
    [done..|]. exists s, n. split_and!; [done..|]. intros i Hi.
  pose proof (valid_layout_pos l Hl) as Hpos.
  destruct (calc_number_of_buckets_ok l ptr sz) as (a & n' & Ea & En' & _ & Ha & Hn & Hnb & _);
    [done|lia..|]. assert (n' = n) as -> by congruence.
  assert (Est : s.(start) = a).
  { unfold fixed_size_new in Es. rewrite Ea, En in Es. cbn in Es. inv_outcome. done. }
  rewrite Est, Enb in *.
  pose proof (Z.mul_le_mono_nonneg_r (i + 1) n (size l) ltac:(lia) ltac:(lia)). lia.
Qed.

Lemma pool_creation_witness :
  exists s n, example_pool = Ret s /\
    calc_number_of_buckets (H := dev) {| size := 8; layout_align := 8 |} 1001 32 = Ret n /\
    number_of_buckets s = Z.min n 4 /\ pool_repr s (seqZ 0 (Z.min n 4)) [] [].
Proof.
  destruct (pool_creation (H := dev) 64 4 {| size := 8; layout_align := 8 |} 1001 32)
    as (s & n & Es & En & Enb & Hr & _); cbn; try lia.
  - split; [cbn; lia|]. exists 3. done.
  - exists s, n. split_and!; [exact Es|exact En|exact Enb|exact Hr].
Defined.

(** When the bucket size is not a multiple of the bucket alignment the second
    bucket is misaligned: the number of buckets is computed with the rounded-up size
    but their addresses with the size as given. *)
Theorem pool_misaligned_bucket :
  let l := {| size := 6; layout_align := 4 |} in
  exists s c1 s1 c2 s2, fixed_size_new (H := dev) 64 4 l 1000 32 = Ret s /\
    allocate (H := dev) s l = Ret (Ok c1, s1) /\ allocate (H := dev) s1 l = Ret (Ok c2, s2) /\
    c2.(chunk_ptr) mod l.(layout_align) = 2.
Proof. do 5 eexists. repeat (split; [vm_compute; reflexivity|]). reflexivity. Qed.

(** [deallocate] accepts the address one past the end of the memory: it releases
    the bucket number equal to the capacity, and from then on the pool refuses every
    request with [OutOfMemory] although all its buckets are free. *)
Theorem pool_one_past_end :
  let l := {| size := 8; layout_align := 8 |} in
  exists s s1, fixed_size_new (H := dev) 64 4 l 1000 32 = Ret s /\
    deallocate (H := dev) s 1032 l = Ret (Ok tt, s1) /\
    allocate (H := dev) s1 l = Ret (Err OutOfMemory, s1).
Proof. do 2 eexists. repeat (split; [vm_compute; reflexivity|]). vm_compute. reflexivity. Qed.
