(* ===== verification/ContainerQueue.v ===== *)
(** * iceoryx2_bb/container/src/queue.rs

    The sequential ring buffer (the history of a publisher is such a queue).
    [start] is the position behind the newest element, so the oldest one is at
    [start - len]; an uninitialised cell is [None], and reading one is undefined
    behaviour, which is modelled as [Panic]. *)

From S2P Require Import Prelude Math Ring Allocator QueueSpec.

(* src/iceoryx2_bb/container/src/queue.rs:86-93 Queue *)
Record Queue (T : Type) := {
  data : list (option T);
  start : Z;
  len : Z;
  capacity : Z;
  is_initialized : bool;
}.
Arguments data {T}.
Arguments start {T}.
Arguments len {T}.
Arguments capacity {T}.
Arguments is_initialized {T}.

Section operations.
Context `{Profile} {T : Type}.
Implicit Types q : Queue T.

Definition set_queue q d s l : Queue T :=
  {| data := d; start := s; len := l; capacity := q.(capacity);
     is_initialized := q.(is_initialized) |}.

(* src/iceoryx2_bb/container/src/queue.rs:98-107 new *)
Definition new (cap : Z) : Queue T :=
  {| data := replicate (Z.to_nat cap) None; start := 0; len := 0; capacity := cap;
     is_initialized := true |}.

(* src/iceoryx2_bb/container/src/queue.rs:146-155 new_uninit *)
Definition new_uninit (cap : Z) : Queue T :=
  {| data := []; start := 0; len := 0; capacity := cap; is_initialized := false |}.

(* src/iceoryx2_bb/container/src/queue.rs:157-181 init *)
Definition init `{BaseAllocator A} (size_T align_T : Z) q (allocator : A)
    : outcome (Result unit AllocationError * Queue T * A) :=
  if q.(is_initialized) then Panic
  else
    let! bytes := size_T *u64 q.(capacity) in
    let! '(r, allocator) := allocate allocator {| size := bytes; layout_align := align_T |} in
    match r with
    | Err e => Ret (Err e, q, allocator)
    | Ok _ =>
        Ret (Ok tt, {| data := replicate (Z.to_nat q.(capacity)) None; start := q.(start);
                       len := q.(len); capacity := q.(capacity); is_initialized := true |},
             allocator)
    end.

(* src/iceoryx2_bb/container/src/queue.rs:189-196 verify_init *)
Definition verify_init q : outcome unit := if q.(is_initialized) then Ret tt else Panic.

(* src/iceoryx2_bb/container/src/queue.rs:199-201 const_memory_size *)
Definition const_memory_size (size_T align_T cap : Z) : outcome Z :=
  let! m := size_T *u64 cap in
  let! m := m +u64 align_T in
  m -u64 1.

(* src/iceoryx2_bb/container/src/queue.rs:204-206 is_empty *)
Definition is_empty q : bool := q.(len) =? 0.

(* src/iceoryx2_bb/container/src/queue.rs:229-231 is_full *)
Definition is_full q : bool := q.(len) =? q.(capacity).

Definition rem (a b : Z) : outcome Z := if b =? 0 then Panic else Ret (a mod b).

(* src/iceoryx2_bb/container/src/queue.rs:113-121 get_unchecked *)
Definition get_unchecked q (i : Z) : outcome T :=
  let! r := q.(start) -u64 q.(len) in
  let! p := r +u64 i in
  let! k := rem p q.(capacity) in
  let! v := index q.(data) k in
  match v with Some v => Ret v | None => Panic end.

(* src/iceoryx2_bb/container/src/queue.rs:125-131 get *)
Definition get q (i : Z) : outcome T :=
  if q.(len) <=? i then Panic else get_unchecked q i.

(* src/iceoryx2_bb/container/src/queue.rs:234-247 pop *)
Definition pop q : outcome (option T * Queue T) :=
  if is_empty q then Ret (None, q)
  else
    let! _ := verify_init q in
    let! r := q.(start) -u64 q.(len) in
    let! k := rem r q.(capacity) in
    let! l := q.(len) -u64 1 in
    let! v := index q.(data) k in
    let! d := update q.(data) k None in
    match v with
    | Some v => Ret (Some v, set_queue q d q.(start) l)
    | None => Panic
    end.

(* src/iceoryx2_bb/container/src/queue.rs:278-286 unchecked_push *)
Definition unchecked_push q (value : T) : outcome (Queue T) :=
  let! k := rem q.(start) q.(capacity) in
  let! d := update q.(data) k (Some value) in
  let! s := q.(start) +u64 1 in
  let! l := q.(len) +u64 1 in
  Ret (set_queue q d s l).

(* src/iceoryx2_bb/container/src/queue.rs:250-259 push *)
Definition push q (value : T) : outcome (bool * Queue T) :=
  if q.(len) =? q.(capacity) then Ret (false, q)
  else
    let! _ := verify_init q in
    let! q := unchecked_push q value in
    Ret (true, q).

(* src/iceoryx2_bb/container/src/queue.rs:263-276 push_with_overflow *)
Definition push_with_overflow q (value : T) : outcome (option T * Queue T) :=
  let! '(overridden, q) := (if q.(len) =? q.(capacity) then pop q else Ret (None, q)) in
  let! _ := verify_init q in
  let! q := unchecked_push q value in
  Ret (overridden, q).

(** [while self.pop().is_some() {}]; [None] when the fuel is used up. *)
(* src/iceoryx2_bb/container/src/queue.rs:214-216 clear *)
Fixpoint clear_loop (fuel : nat) q : outcome (option (Queue T)) :=
  match fuel with
  | O => Ret None
  | S fuel =>
      let! '(r, q) := pop q in
      match r with Some _ => clear_loop fuel q | None => Ret (Some q) end
  end.

(* src/iceoryx2_bb/container/src/queue.rs:305-317 default *)
Definition fixed_size_default (CAPACITY : Z) : Queue T :=
  {| data := replicate (Z.to_nat CAPACITY) None; start := 0; len := 0; capacity := CAPACITY;
     is_initialized := true |}.

End operations.

(** ** Lemmas *)

(** [q] is an initialised queue with the content [l], oldest first. *)
Record repr {T} (q : Queue T) (l : list T) : Prop := {
  repr_init : q.(is_initialized) = true;
  repr_capacity : 0 <= q.(capacity);
  repr_data : zlength q.(data) = q.(capacity);
  repr_len : q.(len) = zlength l /\ q.(len) <= q.(capacity);
  repr_start : q.(len) <= q.(start) /\ q.(start) < 2 ^ 64;
  repr_content :
    ring_contents q.(capacity) q.(data) (q.(start) - q.(len)) q.(start) = Some <$> l;
}.

Section lemmas.
Context `{Profile} {T : Type}.
Implicit Types (q : Queue T) (l : list T).

Lemma cq_new_repr cap : 0 <= cap -> repr (new (T := T) cap) [].
Proof.
  intros Hc. split; cbn; try done; try lia. unfold zlength. rewrite length_replicate. lia.
Qed.

Lemma pop_empty q : repr q [] -> pop q = Ret (None, q).
Proof. intros Hr. unfold pop, is_empty. destruct (repr_len _ _ Hr) as [-> _]. done. Qed.

Lemma pop_cons q a l :
  repr q (a :: l) -> exists q', pop q = Ret (Some a, q') /\ repr q' l /\
    q'.(start) = q.(start) /\ q'.(capacity) = q.(capacity).
Proof.
  intros [Hi Hc Hd [Hl Hlc] Hs Hcont]. unfold pop, is_empty, verify_init.
  unfold zlength in Hl. simpl length in Hl. rewrite (proj2 (Z.eqb_neq _ _)) by lia.
  rewrite Hi. checked. unfold rem. rewrite (proj2 (Z.eqb_neq _ _)) by lia. checked.
  remember (start q - len q) as r eqn:Er.
  destruct (ring_contents_lookup_some q.(capacity) q.(data) r q.(start) r) as [x Ex]; [lia..|].
  rewrite (ring_contents_cons _ _ _ _ x) in Hcont by (done || lia). injection Hcont as -> Hcont.
  rewrite (index_slot _ _ _ (Some a)) by (done || lia). checked.
  rewrite update_slot by lia. checked. eexists. split; [done|]. split_and!; try done.
  split; cbn; rewrite ?zlength_insert; try done; try lia.
  - unfold zlength. lia.
  - replace (start q - (len q - 1)) with (r + 1) by lia.
    rewrite ring_contents_behind by lia. done.
Qed.

Lemma unchecked_push_ok q l v :
  repr q l -> q.(len) < q.(capacity) -> q.(start) + 1 < 2 ^ 64 ->
  exists q', unchecked_push q v = Ret q' /\ repr q' (l ++ [v]) /\
    q'.(start) = q.(start) + 1 /\ q'.(capacity) = q.(capacity).
Proof.
  intros [Hi Hc Hd [Hl Hlc] Hs Hcont] Hroom Hb. pose proof (zlength_nonneg l).
  unfold unchecked_push, rem.
  rewrite (proj2 (Z.eqb_neq _ _)) by lia. checked. rewrite update_slot by lia. checked.
  eexists. split; [done|]. split_and!; try done.
  split; cbn; rewrite ?zlength_insert, ?zlength_app; try done; try lia.
  - change (zlength [v]) with 1. lia.
  - replace (start q + 1 - (len q + 1)) with (start q - len q) by lia.
    rewrite ring_contents_snoc by lia. by rewrite Hcont, fmap_app.
Qed.

Lemma push_ok q l v :
  repr q l -> q.(start) + 1 < 2 ^ 64 ->
  exists b q' l', push q v = Ret (b, q') /\ repr q' l' /\
    (b, l') = spec_push q.(capacity) l v /\
    q'.(start) <= q.(start) + 1 /\ q'.(capacity) = q.(capacity).
Proof.
  intros Hr Hb. pose proof (repr_len _ _ Hr) as [Hl Hlc]. unfold push, spec_push.
  destruct (_ =? _) eqn:E; bool_to_prop.
  - exists false, q, l. rewrite (proj2 (Z.ltb_ge _ _)) by lia. split_and!; try done. lia.
  - rewrite (proj2 (Z.ltb_lt _ _)) by lia. unfold verify_init. rewrite (repr_init _ _ Hr). cbn.
    destruct (unchecked_push_ok q l v Hr) as (q' & -> & Hr' & Es & Ec); [lia..|]. cbn.
    exists true, q', (l ++ [v]). split_and!; try done. lia.
Qed.

Lemma push_with_overflow_ok q l v :
  repr q l -> 0 < q.(capacity) -> q.(start) + 1 < 2 ^ 64 ->
  exists r q' l', push_with_overflow q v = Ret (r, q') /\ repr q' l' /\
    (r, l') = spec_push_overflow q.(capacity) l v /\
    q'.(start) <= q.(start) + 1 /\ q'.(capacity) = q.(capacity).
Proof.
  intros Hr Hc Hb. pose proof (repr_len _ _ Hr) as [Hl Hlc].
  unfold push_with_overflow, spec_push_overflow. destruct (_ =? _) eqn:E; bool_to_prop.
  - rewrite (proj2 (Z.ltb_ge _ _)) by lia. destruct l as [|a l].
    { unfold zlength in Hl. cbn in Hl. lia. }
    destruct (pop_cons q a l Hr) as (q1 & -> & Hr1 & Es1 & Ec1). cbn.
    unfold verify_init. rewrite (repr_init _ _ Hr1). cbn.
    pose proof (repr_len _ _ Hr1) as [Hl1 _]. unfold zlength in *. simpl length in *.
    destruct (unchecked_push_ok q1 l v Hr1) as (q' & -> & Hr' & Es & Ec); [lia..|]. cbn.
    exists (Some a), q', (l ++ [v]). split_and!; try done; [lia|congruence].
  - rewrite (proj2 (Z.ltb_lt _ _)) by lia. cbn. unfold verify_init. rewrite (repr_init _ _ Hr). cbn.
    destruct (unchecked_push_ok q l v Hr) as (q' & -> & Hr' & Es & Ec); [lia..|]. cbn.
    exists None, q', (l ++ [v]). split_and!; try done. lia.
Qed.

Lemma cq_get_ok q l i :
  repr q l -> 0 <= i -> q.(start) + i < 2 ^ 64 ->
  get q i = match l !! Z.to_nat i with Some v => Ret v | None => Panic end.
Proof.
  intros [Hi Hc Hd [Hl Hlc] Hs Hcont] Hi0 Hb. pose proof (zlength_nonneg l). unfold get.
  destruct (_ <=? i) eqn:E; bool_to_prop.
  - rewrite lookup_ge_None_2; [done|]. unfold zlength in *. lia.
  - unfold get_unchecked, rem. checked. rewrite (proj2 (Z.eqb_neq _ _)) by lia. checked.
    assert (Ei := ring_contents_lookup q.(capacity) q.(data) (q.(start) - q.(len)) q.(start) i
      ltac:(lia) Hd ltac:(lia)). rewrite Hcont, list_lookup_fmap in Ei.
    destruct (l !! Z.to_nat i) as [v|] eqn:El; cbn in Ei.
    + rewrite (index_slot _ _ _ (Some v)) by (done || lia). done.
    + apply lookup_ge_None_1 in El. unfold zlength in *. lia.
Qed.

Lemma clear_ok l : forall q,
  repr q l -> exists q', clear_loop (S (length l)) q = Ret (Some q') /\ repr q' [].
Proof.
  induction l as [|a l IH]; intros q Hr.
  - cbn. rewrite pop_empty by done. cbn. eauto.
  - destruct (pop_cons q a l Hr) as (q1 & E & Hr1 & _).
    change (clear_loop (S (length (a :: l))) q) with
      (let! '(r, q) := pop q in
       match r with Some _ => clear_loop (S (length l)) q | None => Ret (Some q) end).
    rewrite E. cbn. by apply IH.
Qed.

End lemmas.

(** ** Properties *)

(** The ring buffer implements the abstract FIFO: [push] refuses and
    [push_with_overflow] evicts the oldest element exactly when [capacity] elements
    are stored, [pop] returns the oldest one and its cell is read only once, [get]
    returns the element at that distance from the oldest one and panics behind the
    last, and [clear] terminates with an empty queue. *)
Theorem queue_refines_fifo `{Profile} {T} (q : Queue T) l v :
  repr q l -> 0 < q.(capacity) -> q.(start) + q.(len) + 1 < 2 ^ 64 ->
  (exists b q' l', push q v = Ret (b, q') /\ repr q' l' /\ (b, l') = spec_push q.(capacity) l v) /\
  (exists r q' l', push_with_overflow q v = Ret (r, q') /\ repr q' l' /\
     (r, l') = spec_push_overflow q.(capacity) l v) /\
  (exists r q' l', pop q = Ret (r, q') /\ repr q' l' /\ (r, l') = spec_pop l) /\
  (forall i, 0 <= i <= q.(len) ->
     get q i = match l !! Z.to_nat i with Some a => Ret a | None => Panic end) /\
  (exists q', clear_loop (S (length l)) q = Ret (Some q') /\ repr q' []).
Proof.
  intros Hr Hc Hb. pose proof (repr_len _ _ Hr) as [Hl _]. pose proof (zlength_nonneg l).
  split_and!.
  - destruct (push_ok q l v Hr) as (b & q' & l' & ? & ? & ? & _); [lia|]. by exists b, q', l'.
  - destruct (push_with_overflow_ok q l v Hr) as (r & q' & l' & ? & ? & ? & _); [lia..|].
    by exists r, q', l'.
  - destruct l as [|a l].
    + exists None, q, []. by rewrite pop_empty.
    + destruct (pop_cons q a l Hr) as (q' & E & Hr' & _). by exists (Some a), q', l.
  - intros i Hi. apply cq_get_ok; [done|lia..].
  - by apply clear_ok.
Qed.

Lemma queue_refines_fifo_witness :
  exists r q' l', push_with_overflow (H := dev) (new 2) 5 = Ret (r, q') /\ repr q' l' /\
    (r, l') = (None, [5]).
Proof.
  destruct (queue_refines_fifo (H := dev) (new 2) [] 5) as (_ & Ho & _).
  - apply cq_new_repr. lia.
  - reflexivity.
  - reflexivity.
  - exact Ho.
Defined.
