(* ===== verification/ContainerVec.v ===== *)
(** * iceoryx2_bb/container/src/vec.rs

    The vector with a capacity fixed at construction.  An uninitialised cell is
    [None]; reading one is undefined behaviour, which is modelled as [Panic]. *)

From S2P Require Import Prelude Math Allocator QueueSpec.

(* src/iceoryx2_bb/container/src/vec.rs:81-86 Vec *)
Record Vec (T : Type) := {
  data : list (option T);
  capacity : Z;
  len : Z;
  is_initialized : bool;
}.
Arguments data {T}.
Arguments capacity {T}.
Arguments len {T}.
Arguments is_initialized {T}.

Section operations.
Context `{Profile} {T : Type}.
Implicit Types v : Vec T.

Definition set_vec v d l : Vec T :=
  {| data := d; capacity := v.(capacity); len := l; is_initialized := v.(is_initialized) |}.

(** [new] refers to memory the caller has placed at the distance. *)
(* src/iceoryx2_bb/container/src/vec.rs:98-105 new *)
Definition new (cap : Z) (memory : list (option T)) : Vec T :=
  {| data := memory; capacity := cap; len := 0; is_initialized := true |}.

(* src/iceoryx2_bb/container/src/vec.rs:107-114 new_uninit *)
Definition new_uninit (cap : Z) : Vec T :=
  {| data := []; capacity := cap; len := 0; is_initialized := false |}.

(* src/iceoryx2_bb/container/src/vec.rs:116-134 init *)
Definition init `{BaseAllocator A} (size_T align_T : Z) v (allocator : A)
    : outcome (Result unit AllocationError * Vec T * A) :=
  if v.(is_initialized) then Panic
  else
    let! bytes := size_T *u64 v.(capacity) in
    let! '(r, allocator) := allocate allocator {| size := bytes; layout_align := align_T |} in
    match r with
    | Err e => Ret (Err e, v, allocator)
    | Ok _ =>
        Ret (Ok tt, {| data := replicate (Z.to_nat v.(capacity)) None; capacity := v.(capacity);
                       len := v.(len); is_initialized := true |}, allocator)
    end.

(* src/iceoryx2_bb/container/src/vec.rs:142-149 verify_init *)
Definition verify_init v : outcome unit := if v.(is_initialized) then Ret tt else Panic.

(* src/iceoryx2_bb/container/src/vec.rs:152-154 const_memory_size *)
Definition const_memory_size (size_T align_T cap : Z) : outcome Z :=
  let! m := size_T *u64 cap in
  let! m := m +u64 align_T in
  m -u64 1.

(* src/iceoryx2_bb/container/src/vec.rs:167-169 is_empty *)
Definition is_empty v : bool := v.(len) =? 0.

(* src/iceoryx2_bb/container/src/vec.rs:172-174 is_full *)
Definition is_full v : bool := v.(len) =? v.(capacity).

(* src/iceoryx2_bb/container/src/vec.rs:208-215 push_unchecked *)
Definition push_unchecked v (value : T) : outcome (Vec T) :=
  let! d := update v.(data) v.(len) (Some value) in
  let! l := v.(len) +u64 1 in
  Ret (set_vec v d l).

(* src/iceoryx2_bb/container/src/vec.rs:183-191 push *)
Definition push v (value : T) : outcome (bool * Vec T) :=
  if is_full v then Ret (false, v)
  else
    let! _ := verify_init v in
    let! v := push_unchecked v value in
    Ret (true, v).

(** [for _ in self.len..self.capacity]: [n] iterations remain. *)
(* src/iceoryx2_bb/container/src/vec.rs:199-206 fill *)
Fixpoint fill_loop (n : nat) v (value : T) : outcome (Vec T) :=
  match n with
  | O => Ret v
  | S n => let! v := push_unchecked v value in fill_loop n v value
  end.

(* src/iceoryx2_bb/container/src/vec.rs:199-206 fill *)
Definition fill v (value : T) : outcome (Vec T) :=
  fill_loop (Z.to_nat (v.(capacity) - v.(len))) v value.

(* src/iceoryx2_bb/container/src/vec.rs:245-253 pop_unchecked *)
Definition pop_unchecked v : outcome (T * Vec T) :=
  let! x := index v.(data) (v.(len) - 1) in
  let! d := update v.(data) (v.(len) - 1) None in
  let! l := v.(len) -u64 1 in
  match x with Some x => Ret (x, set_vec v d l) | None => Panic end.

(* src/iceoryx2_bb/container/src/vec.rs:224-231 pop *)
Definition pop v : outcome (option T * Vec T) :=
  if is_empty v then Ret (None, v)
  else
    let! _ := verify_init v in
    let! '(x, v) := pop_unchecked v in
    Ret (Some x, v).

(* src/iceoryx2_bb/container/src/vec.rs:239-243 clear *)
Fixpoint clear_loop (n : nat) v : outcome (Vec T) :=
  match n with
  | O => Ret v
  | S n => let! '(_, v) := pop_unchecked v in clear_loop n v
  end.

(* src/iceoryx2_bb/container/src/vec.rs:239-243 clear *)
Definition clear v : outcome (Vec T) := clear_loop (Z.to_nat v.(len)) v.

(* src/iceoryx2_bb/container/src/vec.rs:279-281 get_unchecked *)
Definition get_unchecked v (i : Z) : outcome T :=
  let! x := index v.(data) i in
  match x with Some x => Ret x | None => Panic end.

(* src/iceoryx2_bb/container/src/vec.rs:262-269 get *)
Definition get v (i : Z) : outcome (option T) :=
  if v.(len) <=? i then Ret None
  else
    let! _ := verify_init v in
    let! x := get_unchecked v i in
    Ret (Some x).

(** Writing through the reference [get_mut] returns. *)
(* src/iceoryx2_bb/container/src/vec.rs:290-297 get_mut *)
Definition get_mut_write v (i : Z) (value : T) : outcome (option (Vec T)) :=
  if v.(len) <=? i then Ret None
  else
    let! _ := verify_init v in
    let! d := update v.(data) i (Some value) in
    Ret (Some (set_vec v d v.(len))).

(* src/iceoryx2_bb/container/src/vec.rs:321-333 default *)
Definition fixed_size_default (CAPACITY : Z) : Vec T :=
  new CAPACITY (replicate (Z.to_nat CAPACITY) None).

End operations.

(** ** Lemmas *)

(** The first [len] cells hold the elements [l]. *)
Record repr {T} (v : Vec T) (l : list T) : Prop := {
  repr_init : v.(is_initialized) = true;
  repr_capacity : 0 <= v.(capacity) < 2 ^ 64;
  repr_data : zlength v.(data) = v.(capacity);
  repr_len : v.(len) = zlength l /\ v.(len) <= v.(capacity);
  repr_content : forall i x, l !! i = Some x -> v.(data) !! i = Some (Some x);
}.

Section lemmas.
Context `{Profile} {T : Type}.
Implicit Types (v : Vec T) (l : list T).

Lemma default_repr cap : 0 <= cap < 2 ^ 64 -> repr (fixed_size_default (T := T) cap) [].
Proof.
  intros Hc. split; cbn; try done.
  - unfold zlength. rewrite length_replicate. lia.
  - split; [done|lia].
Qed.

Lemma push_unchecked_ok v l x :
  repr v l -> v.(len) < v.(capacity) ->
  exists v', push_unchecked v x = Ret v' /\ repr v' (l ++ [x]) /\
    v'.(capacity) = v.(capacity) /\ v'.(len) = v.(len) + 1.
Proof.
  intros [Hi Hc Hd [Hl Hlc] Hcont] Hroom. pose proof (zlength_nonneg l). unfold push_unchecked.
  rewrite update_ok by lia. checked. eexists. split; [done|]. split_and!; try done.
  split; cbn; rewrite ?zlength_insert, ?zlength_app; try done.
  - change (zlength [x]) with 1. lia.
  - intros i y. unfold zlength in *. destruct (decide (i = length l)) as [->|Hne].
    + rewrite lookup_app_r, Nat.sub_diag by done. cbn. intros [= ->].
      rewrite Hl, Nat2Z.id, list_lookup_insert_eq; [done|lia].
    + intros Ei. rewrite list_lookup_insert_ne by lia. apply Hcont.
      apply lookup_app_Some in Ei as [|[? Ei]]; [done|].
      apply list_lookup_singleton_Some in Ei. lia.
Qed.

Lemma pop_unchecked_ok v l x :
  repr v (l ++ [x]) -> exists v', pop_unchecked v = Ret (x, v') /\ repr v' l /\
    v'.(capacity) = v.(capacity) /\ v'.(len) = v.(len) - 1.
Proof.
  intros [Hi Hc Hd [Hl Hlc] Hcont]. rewrite zlength_app in Hl. change (zlength [x]) with 1 in Hl.
  pose proof (zlength_nonneg l). unfold pop_unchecked.
  rewrite (index_lookup _ _ (Some x)); [|lia|].
  - rewrite update_ok by lia. checked. eexists. split; [done|]. split_and!; try done.
    split; cbn; rewrite ?zlength_insert; try done; [lia|].
    intros i y Ei. apply lookup_lt_Some in Ei as Hlt. unfold zlength in *.
    rewrite list_lookup_insert_ne by lia. apply Hcont. by rewrite lookup_app_l.
  - apply Hcont. unfold zlength in *. rewrite lookup_app_r by lia.
    by replace (Z.to_nat (len v - 1) - length l)%nat with 0%nat by lia.
Qed.

Lemma fill_loop_ok x (n : nat) : forall v l,
  repr v l -> v.(len) + Z.of_nat n <= v.(capacity) ->
  exists v', fill_loop n v x = Ret v' /\ repr v' (l ++ replicate n x) /\ v'.(capacity) = v.(capacity).
Proof.
  induction n as [|n IH]; intros v l Hr Hn; cbn.
  - exists v. by rewrite app_nil_r.
  - destruct (push_unchecked_ok v l x Hr) as (v1 & -> & Hr1 & Ec & El); [lia|]. cbn.
    destruct (IH v1 _ Hr1) as (v' & E & Hr' & Ec'); [lia|].
    exists v'. rewrite <-app_assoc in Hr'. split_and!; [done..|congruence].
Qed.

Lemma clear_loop_ok l : forall v,
  repr v l -> exists v', clear_loop (length l) v = Ret v' /\ repr v' [] /\ v'.(capacity) = v.(capacity).
Proof.
  induction l as [|x l IH] using rev_ind; intros v Hr; [by exists v|].
  destruct (pop_unchecked_ok v l x Hr) as (v1 & E & Hr1 & Ec & _).
  rewrite length_app, Nat.add_1_r. cbn. rewrite E. cbn.
  destruct (IH v1 Hr1) as (v' & E' & Hr' & Ec'). exists v'. split_and!; [done..|congruence].
Qed.

Lemma vec_get_ok v l i :
  repr v l -> 0 <= i -> get v i = Ret (l !! Z.to_nat i).
Proof.
  intros [Hi Hc Hd [Hl Hlc] Hcont] Hi0. unfold get, verify_init. rewrite Hi.
  destruct (_ <=? i) eqn:E; bool_to_prop.
  - rewrite lookup_ge_None_2; [done|]. unfold zlength in *. lia.
  - cbn. destruct (lookup_lt_is_Some_2 l (Z.to_nat i)) as [x Ex]; [unfold zlength in *; lia|].
    unfold get_unchecked. rewrite (index_lookup _ _ (Some x)); [|done|by apply Hcont].
    cbn. by rewrite Ex.
Qed.

Lemma get_mut_ok v l i x :
  repr v l -> 0 <= i ->
  get_mut_write v i x = Ret None /\ zlength l <= i \/
  exists v', get_mut_write v i x = Ret (Some v') /\ repr v' (<[Z.to_nat i := x]> l) /\ i < zlength l.
Proof.
  intros [Hi Hc Hd [Hl Hlc] Hcont] Hi0. unfold get_mut_write, verify_init. rewrite Hi.
  destruct (_ <=? i) eqn:E; bool_to_prop; [left; split; [done|lia]|right]. cbn.
  rewrite update_ok by lia. cbn. eexists. split; [done|]. split; [|lia].
  split; cbn; rewrite ?zlength_insert; try done.
  intros j y. unfold zlength in *. destruct (decide (j = Z.to_nat i)) as [->|Hne].
  - rewrite !list_lookup_insert_eq by lia. congruence.
  - rewrite !list_lookup_insert_ne by done. apply Hcont.
Qed.

End lemmas.

(** ** Properties *)

(** The vector behaves as the list of its elements: [push] appends unless
    [capacity] elements are stored, [pop] removes the last one, [get] and writing
    through [get_mut] act on the element at the index or report [None] behind the
    last one, [fill] appends up to the capacity and [clear] empties the vector. *)
Theorem vec_refines_list `{Profile} {T} (v : Vec T) l x :
  repr v l ->
  (exists b v' l', push v x = Ret (b, v') /\ repr v' l' /\ (b, l') = spec_push v.(capacity) l x) /\
  (exists r v' l', pop v = Ret (r, v') /\ repr v' l' /\ r = last l /\ l = l' ++ option_list r) /\
  (forall i, 0 <= i -> get v i = Ret (l !! Z.to_nat i)) /\
  (forall i, 0 <= i < zlength l ->
     exists v', get_mut_write v i x = Ret (Some v') /\ repr v' (<[Z.to_nat i := x]> l)) /\
  (exists v' n, fill v x = Ret v' /\ repr v' (l ++ replicate n x) /\
     zlength (l ++ replicate n x) = v.(capacity)) /\
  (exists v', clear v = Ret v' /\ repr v' []).
Proof.
  intros Hr. pose proof (repr_len _ _ Hr) as [Hl Hlc]. pose proof (zlength_nonneg l). split_and!.
  - unfold push, is_full, spec_push. destruct (_ =? _) eqn:E; bool_to_prop.
    + exists false, v, l. by rewrite (proj2 (Z.ltb_ge _ _)) by lia.
    + unfold verify_init. rewrite (repr_init _ _ Hr). cbn.
      destruct (push_unchecked_ok v l x Hr) as (v' & -> & Hr' & _); [lia|]. cbn.
      exists true, v', (l ++ [x]). by rewrite (proj2 (Z.ltb_lt _ _)) by lia.
  - unfold pop, is_empty. destruct (_ =? _) eqn:E; bool_to_prop.
    + exists None, v, []. assert (l = []) as -> by (apply zlength_zero; lia). done.
    + unfold verify_init. rewrite (repr_init _ _ Hr). cbn.
      destruct (exists_last (l := l)) as (l0 & y & ->).
      { intros ->. by change (zlength (@nil T)) with 0 in Hl. }
      destruct (pop_unchecked_ok v l0 y Hr) as (v' & -> & Hr' & _). cbn.
      exists (Some y), v', l0. by rewrite last_snoc.
  - intros i Hi. by apply vec_get_ok.
  - intros i Hi. destruct (get_mut_ok v l i x Hr) as [[_ ?]|(v' & ? & ? & _)]; [lia..|eauto].
  - destruct (fill_loop_ok x (Z.to_nat (v.(capacity) - v.(len))) v l Hr) as (v' & E & Hr' & _); [lia|].
    eexists _, _. split; [exact E|]. split; [done|]. rewrite zlength_app. unfold zlength in *.
    rewrite length_replicate. lia.
  - unfold clear. destruct (clear_loop_ok l v Hr) as (v' & E & Hr' & _). exists v'.
    rewrite Hl. unfold zlength. by rewrite Nat2Z.id.
Qed.

Lemma vec_refines_list_witness :
  exists b v' l', push (H := dev) (fixed_size_default 2) 7 = Ret (b, v') /\ repr v' l' /\
    (b, l') = (true, [7]).
Proof. apply (vec_refines_list (H := dev) (fixed_size_default 2) [] 7). apply default_repr. lia. Defined.
