(* ===== verification/ByteString.v ===== *)
(** * iceoryx2_bb/container/src/byte_string.rs

    The fixed-size byte string: [CAPACITY] bytes of which the first [len] are the
    content, followed in memory by one byte that is always zero.  [data] is the
    array; its bytes behind the content are whatever the memory held before.
    Indexing the array beyond [CAPACITY] panics; raw copies outside of the array
    would be undefined behaviour and are modelled as [Panic] as well. *)

From S2P Require Import Prelude.

(* src/iceoryx2_bb/container/src/byte_string.rs:67-71 FixedSizeByteString *)
Record FixedSizeByteString := { CAPACITY : Z; len : Z; data : list Z }.

(* src/iceoryx2_bb/container/src/byte_string.rs:60-62 FixedSizeByteStringModificationError *)
Inductive FixedSizeByteStringModificationError := InsertWouldExceedCapacity.

Definition mod_result (A : Type) : Type := Result A FixedSizeByteStringModificationError.

Definition set_string (s : FixedSizeByteString) l d : FixedSizeByteString :=
  {| CAPACITY := s.(CAPACITY); len := l; data := d |}.

(** [std::ptr::copy(src, dst, n)] inside one array. *)
Definition memmove (l : list Z) (src dst n : Z) : outcome (list Z) :=
  if (0 <=? src) && (0 <=? dst) && (0 <=? n) &&
     (src + n <=? zlength l) && (dst + n <=? zlength l)
  then Ret (take (Z.to_nat dst) l ++ take (Z.to_nat n) (drop (Z.to_nat src) l) ++
            drop (Z.to_nat (dst + n)) l)
  else Panic.

(** The content. *)
(* src/iceoryx2_bb/container/src/byte_string.rs:267-269 as_bytes *)
Definition as_bytes (s : FixedSizeByteString) : list Z := take (Z.to_nat s.(len)) s.(data).

(** The content and the byte behind it; the byte behind the array is zero. *)
(* src/iceoryx2_bb/container/src/byte_string.rs:272-274 as_bytes_with_nul *)
Definition as_bytes_with_nul (s : FixedSizeByteString) : list Z :=
  take (Z.to_nat (s.(len) + 1)) (s.(data) ++ [0]).

Section operations.
Context `{Profile}.
Implicit Types s : FixedSizeByteString.

(** [memory] is the uninitialised array. *)
(* src/iceoryx2_bb/container/src/byte_string.rs:193-201 new *)
Definition new (cap : Z) (memory : list Z) : outcome FixedSizeByteString :=
  let! d := update memory 0 0 in
  Ret {| CAPACITY := cap; len := 0; data := d |}.

(** Writing the bytes one after the other, from index [i] on. *)
(* src/iceoryx2_bb/container/src/byte_string.rs:382-384 insert_bytes_unchecked *)
Fixpoint write_at (d : list Z) (i : Z) (bytes : list Z) : outcome (list Z) :=
  match bytes with
  | [] => Ret d
  | b :: bytes => let! d := update d i b in write_at d (i + 1) bytes
  end.

(* src/iceoryx2_bb/container/src/byte_string.rs:210-227 new_unchecked *)
Definition new_unchecked (cap : Z) (memory bytes : list Z) : outcome FixedSizeByteString :=
  if cap <? zlength bytes then Panic
  else
    let! s := new cap memory in
    let! d := write_at s.(data) 0 bytes in
    (* the terminating zero goes into the array or into the byte behind it *)
    let! d := (if zlength bytes <? cap then update d (zlength bytes) 0 else Ret d) in
    Ret (set_string s (zlength bytes) d).

(* src/iceoryx2_bb/container/src/byte_string.rs:297-300 clear *)
Definition clear s : outcome FixedSizeByteString :=
  let! d := update s.(data) 0 0 in Ret (set_string s 0 d).

(* src/iceoryx2_bb/container/src/byte_string.rs:303-305 is_empty *)
Definition is_empty s : bool := s.(len) =? 0.

(* src/iceoryx2_bb/container/src/byte_string.rs:308-310 is_full *)
Definition is_full s : bool := s.(len) =? s.(CAPACITY).

(* src/iceoryx2_bb/container/src/byte_string.rs:373-390 insert_bytes_unchecked *)
Definition insert_bytes_unchecked s (idx : Z) (bytes : list Z) : outcome FixedSizeByteString :=
  let! _ := index s.(data) idx in
  let! tail := s.(len) -u64 idx in
  let! d := memmove s.(data) idx (idx + zlength bytes) tail in
  let! d := write_at d idx bytes in
  let! l := s.(len) +u64 zlength bytes in
  let! d := (if l <? s.(CAPACITY) then update d l 0 else Ret d) in
  Ret (set_string s l d).

(* src/iceoryx2_bb/container/src/byte_string.rs:344-364 insert_bytes *)
Definition insert_bytes s (idx : Z) (bytes : list Z)
    : outcome (mod_result unit * FixedSizeByteString) :=
  if s.(len) <? idx then Panic
  else
    let! l := s.(len) +u64 zlength bytes in
    if s.(CAPACITY) <? l then Ret (Err InsertWouldExceedCapacity, s)
    else
      let! s := insert_bytes_unchecked s idx bytes in
      Ret (Ok tt, s).

(* src/iceoryx2_bb/container/src/byte_string.rs:324-330 insert *)
Definition insert s (idx byte : Z) : outcome (mod_result unit * FixedSizeByteString) :=
  insert_bytes s idx [byte].

(* src/iceoryx2_bb/container/src/byte_string.rs:415-417 push *)
Definition push s (byte : Z) : outcome (mod_result unit * FixedSizeByteString) :=
  insert s s.(len) byte.

(* src/iceoryx2_bb/container/src/byte_string.rs:421-423 push_bytes *)
Definition push_bytes s (bytes : list Z) : outcome (mod_result unit * FixedSizeByteString) :=
  insert_bytes s s.(len) bytes.

(* src/iceoryx2_bb/container/src/byte_string.rs:230-238 from_bytes *)
Definition from_bytes (cap : Z) (memory bytes : list Z) : outcome (mod_result FixedSizeByteString) :=
  let! s := new cap memory in
  let! '(r, s) := push_bytes s bytes in
  match r with Ok _ => Ret (Ok s) | Err _ => Ret (Err InsertWouldExceedCapacity) end.

(** The distance to the first zero byte of the memory at [ptr]. *)
(* src/iceoryx2_bb/container/src/byte_string.rs:47-56 strlen *)
Fixpoint strlen (ptr : list Z) : outcome Z :=
  match ptr with
  | [] => Panic
  | b :: ptr => if b =? 0 then Ret 0 else let! n := strlen ptr in Ret (1 + n)
  end.

(* src/iceoryx2_bb/container/src/byte_string.rs:247-264 from_c_str *)
Definition from_c_str (cap : Z) (memory ptr : list Z) : outcome (mod_result FixedSizeByteString) :=
  let! n := strlen ptr in
  if cap <? n then Ret (Err InsertWouldExceedCapacity)
  else
    let! s := new cap memory in
    let! d := write_at s.(data) 0 (take (Z.to_nat n) ptr) in
    Ret (Ok (set_string s n d)).

(* src/iceoryx2_bb/container/src/byte_string.rs:449-460 remove_range_impl *)
Definition remove_range_impl s (idx n : Z) : outcome FixedSizeByteString :=
  let! e := idx +u64 n in
  let! _ := index s.(data) e in
  let! _ := index s.(data) idx in
  let! tail := s.(len) -u64 e in
  let! d := memmove s.(data) e idx tail in
  let! l := s.(len) -u64 n in
  let! d := update d l 0 in
  Ret (set_string s l d).

(* src/iceoryx2_bb/container/src/byte_string.rs:426-437 remove *)
Definition remove s (idx : Z) : outcome (Z * FixedSizeByteString) :=
  if s.(len) <? idx then Panic
  else
    let! b := index s.(data) idx in
    let! s := remove_range_impl s idx 1 in
    Ret (b, s).

(* src/iceoryx2_bb/container/src/byte_string.rs:405-411 pop *)
Definition pop s : outcome (option Z * FixedSizeByteString) :=
  if is_empty s then Ret (None, s)
  else
    let! i := s.(len) -u64 1 in
    let! '(b, s) := remove s i in
    Ret (Some b, s).

(* src/iceoryx2_bb/container/src/byte_string.rs:440-447 remove_range *)
Definition remove_range s (idx n : Z) : outcome FixedSizeByteString :=
  let! e := idx +u64 n in
  if s.(len) <? e then Panic else remove_range_impl s idx n.

(** [for i in 0..len] with [idx = len - i - 1]: [n] iterations remain, so [idx] is
    [n - 1].  The closure may have a state. *)
(* src/iceoryx2_bb/container/src/byte_string.rs:467-476 retain_impl *)
Fixpoint retain_loop {St} (f : St -> Z -> bool * St) (st : St) (n : nat) s
    : outcome (St * FixedSizeByteString) :=
  match n with
  | O => Ret (st, s)
  | S n =>
      let idx := Z.of_nat n in
      let! b := index s.(data) idx in
      let '(r, st) := f st b in
      let! s := (if r then let! '(_, s) := remove s idx in Ret s else Ret s) in
      retain_loop f st n s
  end.

(* src/iceoryx2_bb/container/src/byte_string.rs:463-476 retain *)
Definition retain {St} (f : St -> Z -> bool * St) (st : St) s : outcome (St * FixedSizeByteString) :=
  retain_loop f st (Z.to_nat s.(len)) s.

(** The inner loop of [find] and [rfind]: do the bytes occur at position [i]? *)
(* src/iceoryx2_bb/container/src/byte_string.rs:486-492 find *)
Fixpoint matches_at s (i : Z) (bytes : list Z) : outcome bool :=
  match bytes with
  | [] => Ret true
  | b :: bytes =>
      let! x := index s.(data) i in
      if x =? b then matches_at s (i + 1) bytes else Ret false
  end.

(** [for i in ..]: [n] candidates from [i] on remain. *)
(* src/iceoryx2_bb/container/src/byte_string.rs:485-499 find *)
Fixpoint find_loop s (bytes : list Z) (n : nat) (i : Z) : outcome (option Z) :=
  match n with
  | O => Ret None
  | S n =>
      let! m := matches_at s i bytes in
      if m then Ret (Some i) else find_loop s bytes n (i + 1)
  end.

(* src/iceoryx2_bb/container/src/byte_string.rs:480-500 find *)
Definition find s (bytes : list Z) : outcome (option Z) :=
  if s.(len) <? zlength bytes then Ret None
  else
    let! d := s.(len) -u64 zlength bytes in
    let! n := d +u64 1 in
    find_loop s bytes (Z.to_nat n) 0.

(** The same range in reverse: [n] candidates [n - 1], ..., [0] remain. *)
(* src/iceoryx2_bb/container/src/byte_string.rs:509-523 rfind *)
Fixpoint rfind_loop s (bytes : list Z) (n : nat) : outcome (option Z) :=
  match n with
  | O => Ret None
  | S n =>
      let! m := matches_at s (Z.of_nat n) bytes in
      if m then Ret (Some (Z.of_nat n)) else rfind_loop s bytes n
  end.

(* src/iceoryx2_bb/container/src/byte_string.rs:504-524 rfind *)
Definition rfind s (bytes : list Z) : outcome (option Z) :=
  if s.(len) <? zlength bytes then Ret None
  else
    let! d := s.(len) -u64 zlength bytes in
    let! n := d +u64 1 in
    rfind_loop s bytes (Z.to_nat n).

(* src/iceoryx2_bb/container/src/byte_string.rs:528-536 strip_prefix *)
Definition strip_prefix s (bytes : list Z) : outcome (bool * FixedSizeByteString) :=
  let! r := find s bytes in
  match r with
  | Some 0 =>
      let! s := remove_range s 0 (zlength bytes) in Ret (true, s)
  | _ => Ret (false, s)
  end.

(* src/iceoryx2_bb/container/src/byte_string.rs:540-556 strip_suffix *)
Definition strip_suffix s (bytes : list Z) : outcome (bool * FixedSizeByteString) :=
  if s.(len) <? zlength bytes then Ret (false, s)
  else
    let! pos := s.(len) -u64 zlength bytes in
    let! r := rfind s bytes in
    match r with
    | Some v =>
        if negb (v =? pos) then Ret (false, s)
        else let! s := remove_range s pos (zlength bytes) in Ret (true, s)
    | None => Ret (false, s)
    end.

(* src/iceoryx2_bb/container/src/byte_string.rs:559-568 truncate *)
Definition truncate s (new_len : Z) : outcome FixedSizeByteString :=
  if s.(len) <? new_len then Ret s
  else
    let! d := (if new_len <? s.(CAPACITY) then update s.(data) new_len 0 else Ret s.(data)) in
    Ret (set_string s new_len d).

End operations.

Definition hex_digit (n : Z) : Z := if n <? 10 then 48 + n else 87 + n.

(* src/iceoryx2_bb/container/src/byte_string.rs:170-185 as_escaped_string *)
Definition escape_byte (c : Z) : list Z :=
  if c =? 9 then [92; 116]
  else if c =? 13 then [92; 114]
  else if c =? 10 then [92; 110]
  else if (32 <=? c) && (c <=? 126) then [c]
  else [92; 120; hex_digit (Z.shiftr c 4); hex_digit (Z.land c 15)].

(* src/iceoryx2_bb/container/src/byte_string.rs:166-189 as_escaped_string *)
Definition as_escaped_string (bytes : list Z) : list Z := bytes ≫= escape_byte.

(** ** Lemmas *)

(** [s] holds the bytes [b]; the byte behind them is zero. *)
Record repr (s : FixedSizeByteString) (b rest : list Z) : Prop := {
  repr_data : s.(data) = b ++ rest;
  repr_len : s.(len) = zlength b;
  repr_capacity : s.(CAPACITY) = zlength b + zlength rest;
  repr_width : s.(CAPACITY) < 2 ^ 63;
  repr_nul : match rest with [] => True | z :: _ => z = 0 end;
}.

Lemma write_at_ok bytes : forall p q r,
  zlength q = zlength bytes -> write_at (p ++ q ++ r) (zlength p) bytes = Ret (p ++ bytes ++ r).
Proof.
  induction bytes as [|b bytes IH]; intros p q r Hq; cbn.
  - by apply zlength_zero in Hq as ->.
  - destruct q as [|x q]; rewrite !zlength_cons in Hq || rewrite zlength_cons in Hq.
    { change (zlength (@nil Z)) with 0 in Hq. pose proof (zlength_nonneg bytes). lia. }
    change (p ++ (x :: q) ++ r) with (p ++ x :: (q ++ r)). rewrite update_app by done. cbn.
    specialize (IH (p ++ [b]) q r). rewrite zlength_app in IH. change (zlength [b]) with 1 in IH.
    rewrite <-!app_assoc in IH. apply IH. lia.
Qed.

(** Moving the middle part [y] of [x ++ y ++ rest] by [k] to the right. *)
Lemma memmove_right x y rest k :
  0 <= k <= zlength rest ->
  exists q, zlength q = k /\
    memmove (x ++ y ++ rest) (zlength x) (zlength x + k) (zlength y) =
      Ret (x ++ q ++ y ++ drop (Z.to_nat k) rest).
Proof.
  intros Hk. pose proof (zlength_nonneg x). pose proof (zlength_nonneg y).
  exists (take (Z.to_nat k) (y ++ rest)). split; [apply zlength_take; rewrite zlength_app; lia|].
  unfold memmove. rewrite !zlength_app.
  repeat (rewrite (proj2 (Z.leb_le _ _)) by lia). cbn [andb]. f_equal.
  rewrite (drop_zlength_app x) by done. rewrite (take_zlength_app y) by done.
  rewrite Z2Nat.inj_add, take_app_add' by (lia || (unfold zlength; lia)).
  rewrite <-app_assoc. do 3 f_equal.
  replace (zlength x + k + zlength y) with (zlength x + (zlength y + k)) by lia.
  rewrite Z2Nat.inj_add, <-drop_drop, drop_zlength_app by (done || lia).
  by rewrite Z2Nat.inj_add, <-drop_drop, drop_zlength_app by (done || lia).
Qed.

(** Moving [y] of [x ++ m ++ y ++ rest] to the left over [m]. *)
Lemma memmove_left x m y rest :
  exists q, zlength q = zlength m + zlength rest /\
    memmove (x ++ m ++ y ++ rest) (zlength x + zlength m) (zlength x) (zlength y) =
      Ret (x ++ y ++ q).
Proof.
  pose proof (zlength_nonneg x). pose proof (zlength_nonneg y). pose proof (zlength_nonneg m).
  pose proof (zlength_nonneg rest).
  exists (drop (Z.to_nat (zlength x + zlength y)) (x ++ m ++ y ++ rest)). split.
  - rewrite zlength_drop; rewrite !zlength_app; lia.
  - unfold memmove. rewrite !zlength_app. repeat (rewrite (proj2 (Z.leb_le _ _)) by lia).
    cbn [andb]. f_equal. rewrite (take_zlength_app x) by done. do 2 f_equal.
    rewrite Z2Nat.inj_add, <-drop_drop, !drop_zlength_app by (done || lia).
    by rewrite take_zlength_app.
Qed.

Section lemmas.
Context `{Profile}.
Implicit Types (s : FixedSizeByteString) (b rest bytes : list Z).

Lemma repr_bytes s b rest : repr s b rest -> as_bytes s = b.
Proof. intros [Ed El _ _ _]. unfold as_bytes. rewrite Ed. by apply take_zlength_app. Qed.

Lemma repr_with_nul s b rest : repr s b rest -> as_bytes_with_nul s = b ++ [0].
Proof.
  intros [Ed El _ _ Hn]. unfold as_bytes_with_nul. rewrite Ed, El.
  assert (Hr : exists r, rest ++ [0] = 0 :: r) by (destruct rest; [by exists []|subst; by eexists]).
  destruct Hr as [r Er]. rewrite <-app_assoc, Er.
  change (0 :: r) with ([0] ++ r). rewrite app_assoc. apply take_zlength_app.
  by rewrite zlength_app.
Qed.

Lemma repr_bounds s b rest : repr s b rest -> 0 <= s.(len) <= s.(CAPACITY).
Proof. intros [_ El Ec _ _]. pose proof (zlength_nonneg b). pose proof (zlength_nonneg rest). lia. Qed.

(** Storing a new content and, if there is room, the zero behind it. *)
Lemma repr_terminate s b rest l :
  zlength b + zlength rest = s.(CAPACITY) -> s.(CAPACITY) < 2 ^ 63 -> l = zlength b ->
  exists rest' d, (if l <? s.(CAPACITY) then update (b ++ rest) l 0 else Ret (b ++ rest)) = Ret d /\
    repr (set_string s l d) b rest' /\ zlength rest' = zlength rest.
Proof.
  intros Ec Hw ->. destruct rest as [|z rest].
  - change (zlength (@nil Z)) with 0 in *. rewrite (proj2 (Z.ltb_ge _ _)) by lia.
    exists [], (b ++ []). split; [done|]. split; [by split|done].
  - rewrite zlength_cons in *. pose proof (zlength_nonneg rest).
    rewrite (proj2 (Z.ltb_lt _ _)) by lia. rewrite update_app by done.
    exists (0 :: rest), (b ++ 0 :: rest). split; [done|]. split; [|by rewrite !zlength_cons].
    split; cbn; rewrite ?zlength_cons; (done || lia).
Qed.

Lemma bs_insert_bytes_ok s b rest idx bytes :
  repr s b rest -> 0 <= idx <= zlength b -> idx < s.(CAPACITY) -> zlength bytes <= zlength rest ->
  exists s' rest', insert_bytes s idx bytes = Ret (Ok tt, s') /\
    repr s' (take (Z.to_nat idx) b ++ bytes ++ drop (Z.to_nat idx) b) rest' /\
    s'.(CAPACITY) = s.(CAPACITY) /\ zlength rest' = zlength rest - zlength bytes.
Proof.
  intros Hr Hi Hic Hfit. pose proof Hr as [Ed El Ec Hw Hn]. pose proof (zlength_nonneg bytes) as Hb0.
  unfold insert_bytes. rewrite El. rewrite (proj2 (Z.ltb_ge _ _)) by lia. checked.
  rewrite (proj2 (Z.ltb_ge _ _)) by lia. unfold insert_bytes_unchecked. rewrite Ed, El.
  set (x := take (Z.to_nat idx) b). set (y := drop (Z.to_nat idx) b).
  assert (Ex : zlength x = idx) by (apply zlength_take; lia).
  assert (Ey : zlength y = zlength b - idx) by (apply zlength_drop; lia).
  destruct (index_in_bounds (b ++ rest) idx) as (a & _ & ->).
  { rewrite zlength_app. lia. }
  checked.
  replace (b ++ rest) with (x ++ y ++ rest) by (unfold x, y; by rewrite app_assoc, take_drop).
  destruct (memmove_right x y rest (zlength bytes)) as (q & Hq & Em); [lia|].
  rewrite Ex in Em. rewrite Ey in Em. rewrite Em. checked.
  rewrite <-Ex, write_at_ok by done. checked.
  destruct (repr_terminate s (x ++ bytes ++ y) (drop (Z.to_nat (zlength bytes)) rest)
    (zlength b + zlength bytes)) as (rest' & d & Et & Hr' & Hlr).
  { rewrite zlength_drop by lia. rewrite !zlength_app. lia. }
  { done. }
  { rewrite !zlength_app. lia. }
  rewrite <-!app_assoc in Et. rewrite Et. checked.
  eexists _, rest'. split; [done|]. split; [done|]. split; [done|].
  rewrite Hlr, zlength_drop; lia.
Qed.

Lemma insert_bytes_full s b rest idx bytes :
  repr s b rest -> idx <= zlength b -> zlength bytes < 2 ^ 63 -> zlength rest < zlength bytes ->
  insert_bytes s idx bytes = Ret (Err InsertWouldExceedCapacity, s).
Proof.
  intros [Ed El Ec Hw Hn] Hi Hb Hfit. unfold insert_bytes. pose proof (zlength_nonneg rest).
  rewrite El, (proj2 (Z.ltb_ge _ _)) by lia. checked. by rewrite (proj2 (Z.ltb_lt _ _)) by lia.
Qed.

(** Removing [m] from [x ++ m ++ y] works unless the removed part reaches the end of
    the array. *)
Lemma remove_range_impl_ok s x m y rest :
  repr s (x ++ m ++ y) rest -> zlength x + zlength m < s.(CAPACITY) ->
  0 < zlength m + zlength rest ->
  exists s' rest', remove_range_impl s (zlength x) (zlength m) = Ret s' /\
    repr s' (x ++ y) rest' /\ s'.(CAPACITY) = s.(CAPACITY) /\
    zlength rest' = zlength rest + zlength m.
Proof.
  intros Hr He Hpos. pose proof Hr as [Ed El Ec Hw Hn]. rewrite !zlength_app in *.
  pose proof (zlength_nonneg x). pose proof (zlength_nonneg y). pose proof (zlength_nonneg m).
  pose proof (zlength_nonneg rest). unfold remove_range_impl. checked. rewrite Ed, El.
  assert (Hidx : forall i, 0 <= i < s.(CAPACITY) -> exists a, index ((x ++ m ++ y) ++ rest) i = Ret a).
  { intros i Hi. destruct (index_in_bounds ((x ++ m ++ y) ++ rest) i) as (a & _ & ->); [|eauto].
    rewrite !zlength_app. lia. }
  destruct (Hidx (zlength x + zlength m)) as [a1 ->]; [lia|]. checked.
  destruct (Hidx (zlength x)) as [a2 ->]; [lia|]. checked.
  destruct (memmove_left x m y rest) as (q & Hq & Em). rewrite <-!app_assoc.
  replace (zlength x + (zlength m + zlength y) - (zlength x + zlength m)) with (zlength y) by lia.
  rewrite Em. checked.
  destruct (repr_terminate s (x ++ y) q (zlength x + (zlength m + zlength y) - zlength m))
    as (rest' & d & Et & Hr' & Hlr).
  { rewrite !zlength_app. lia. }
  { done. }
  { rewrite zlength_app. lia. }
  rewrite (proj2 (Z.ltb_lt _ _)) in Et by lia. rewrite <-app_assoc in Et. rewrite Et. checked.
  eexists _, rest'. split_and!; [done..|lia].
Qed.

Lemma bs_remove_ok s x a y rest :
  repr s (x ++ a :: y) rest -> zlength x + 1 < s.(CAPACITY) ->
  exists s' rest', remove s (zlength x) = Ret (a, s') /\ repr s' (x ++ y) rest' /\
    s'.(CAPACITY) = s.(CAPACITY) /\ zlength rest' = zlength rest + 1.
Proof.
  intros Hr Hc. pose proof Hr as [Ed El Ec Hw Hn]. unfold remove.
  rewrite zlength_app, zlength_cons in *. pose proof (zlength_nonneg x). pose proof (zlength_nonneg y).
  rewrite El, (proj2 (Z.ltb_ge _ _)) by lia.
  rewrite Ed, <-app_assoc. cbn [app]. rewrite index_app by done. checked.
  destruct (remove_range_impl_ok s x [a] y rest) as (s' & rest' & E & Hr' & Ec' & Hl); [done..| |].
  { change (zlength [a]) with 1. pose proof (zlength_nonneg rest). lia. }
  change (zlength [a]) with 1 in *. rewrite E. checked. by exists s', rest'.
Qed.

(** *** Searching *)

Definition occurs b bytes (i : Z) : Prop :=
  take (length bytes) (drop (Z.to_nat i) b) = bytes.

#[export] Instance occurs_dec b bytes i : Decision (occurs b bytes i).
Proof. unfold occurs. apply _. Defined.

Lemma matches_at_ok bytes : forall s b rest i,
  repr s b rest -> 0 <= i -> i + zlength bytes <= zlength b ->
  matches_at s i bytes = Ret (bool_decide (occurs b bytes i)).
Proof.
  induction bytes as [|c bytes IH]; intros s b rest i Hr Hi Hfit.
  - cbn. by rewrite bool_decide_eq_true_2 by done.
  - rewrite zlength_cons in Hfit. pose proof (zlength_nonneg bytes). cbn.
    destruct (lookup_lt_is_Some_2 b (Z.to_nat i)) as [x Ex]; [unfold zlength in *; lia|].
    rewrite (repr_data _ _ _ Hr), (index_lookup _ _ x), outcome_bind_ret; [|lia|by apply lookup_app_l_Some].
    destruct (x =? c) eqn:E; bool_to_prop.
    + subst c. rewrite (IH s b rest (i + 1)) by (done || lia). f_equal. apply bool_decide_ext.
      unfold occurs. rewrite (drop_S b x (Z.to_nat i)) by done. cbn.
      replace (Z.to_nat (i + 1)) with (S (Z.to_nat i)) by lia. split; congruence.
    + rewrite bool_decide_eq_false_2; [done|]. unfold occurs.
      rewrite (drop_S b x (Z.to_nat i)) by done. cbn. congruence.
Qed.

Lemma find_loop_ok s b rest bytes (n : nat) : forall i,
  repr s b rest -> 0 <= i -> i + Z.of_nat n + zlength bytes <= zlength b + 1 ->
  exists r, find_loop s bytes n i = Ret r /\
    match r with
    | Some j => i <= j < i + Z.of_nat n /\ occurs b bytes j /\
        forall k, i <= k < j -> ~ occurs b bytes k
    | None => forall k, i <= k < i + Z.of_nat n -> ~ occurs b bytes k
    end.
Proof.
  induction n as [|n IH]; intros i Hr Hi Hb; cbn [find_loop].
  - exists None. split; [done|]. intros k Hk. lia.
  - rewrite (matches_at_ok bytes s b rest) by (done || lia). checked.
    destruct (bool_decide _) eqn:E; bool_to_prop.
    + exists (Some i). split_and!; [done|lia..|done|]. intros k Hk. lia.
    + destruct (IH (i + 1) Hr) as (r & -> & Hres); [lia..|]. exists r. split; [done|].
      assert (Hstep : forall k, i <= k -> k <> i -> i + 1 <= k) by lia. destruct r as [j|].
      * destruct Hres as (Hj & Ho & Hk). split_and!; [lia..|done|]. intros k Hki.
        destruct (Z.eq_dec k i) as [->|]; [done|]. apply Hk. lia.
      * intros k Hk. destruct (Z.eq_dec k i) as [->|]; [done|]. apply Hres. lia.
Qed.

Lemma rfind_loop_ok s b rest bytes (n : nat) :
  repr s b rest -> Z.of_nat n + zlength bytes <= zlength b + 1 ->
  exists r, rfind_loop s bytes n = Ret r /\
    match r with
    | Some j => 0 <= j < Z.of_nat n /\ occurs b bytes j /\
        forall k, j < k < Z.of_nat n -> ~ occurs b bytes k
    | None => forall k, 0 <= k < Z.of_nat n -> ~ occurs b bytes k
    end.
Proof.
  intros Hr. induction n as [|n IH]; intros Hb; cbn [rfind_loop].
  - exists None. split; [done|]. intros k Hk. lia.
  - rewrite (matches_at_ok bytes s b rest) by (done || lia). checked.
    destruct (bool_decide _) eqn:E; bool_to_prop.
    + exists (Some (Z.of_nat n)). split_and!; [done|lia..|done|]. intros k Hk. lia.
    + destruct IH as (r & -> & Hres); [lia|]. exists r. split; [done|]. destruct r as [j|].
      * destruct Hres as (Hj & Ho & Hk). split_and!; [lia..|done|]. intros k Hki.
        destruct (Z.eq_dec k (Z.of_nat n)) as [->|]; [done|]. apply Hk. lia.
      * intros k Hk. destruct (Z.eq_dec k (Z.of_nat n)) as [->|]; [done|]. apply Hres. lia.
Qed.

(** Positions at which the pattern fits; elsewhere it cannot occur. *)
Lemma occurs_fits b bytes k :
  0 <= k -> occurs b bytes k -> bytes = [] \/ k + zlength bytes <= zlength b.
Proof.
  intros Hk Ho. unfold occurs in Ho. destruct bytes as [|c bytes]; [by left|right].
  apply (f_equal length) in Ho. rewrite length_take, length_drop in Ho.
  unfold zlength. simpl length in *. lia.
Qed.

Lemma find_ok s b rest bytes :
  repr s b rest -> zlength bytes < 2 ^ 63 ->
  exists r, find s bytes = Ret r /\
    match r with
    | Some i => 0 <= i <= zlength b - zlength bytes /\ occurs b bytes i /\
        forall k, 0 <= k < i -> ~ occurs b bytes k
    | None => forall k, 0 <= k <= zlength b -> ~ occurs b bytes k
    end.
Proof.
  intros Hr Hb. pose proof Hr as [_ El Ec Hw _]. pose proof (zlength_nonneg rest).
  pose proof (zlength_nonneg b). pose proof (zlength_nonneg bytes). unfold find. rewrite El. destruct (_ <? _) eqn:E; bool_to_prop.
  - exists None. split; [done|]. intros k Hk Ho.
    destruct (occurs_fits b bytes k) as [->|]; [lia|done| |lia].
    change (zlength (@nil Z)) with 0 in E. lia.
  - checked.
    destruct (find_loop_ok s b rest bytes (Z.to_nat (zlength b - zlength bytes + 1)) 0 Hr)
      as (r & -> & Hres); [lia..|]. exists r. split; [done|]. destruct r as [j|].
    + destruct Hres as (Hj & Ho & Hk). split_and!; [lia..|done|done].
    + intros k Hk Ho. destruct (occurs_fits b bytes k) as [->|]; [lia|done| |].
      * apply (Hres k); [|done]. change (zlength (@nil Z)) with 0. lia.
      * apply (Hres k); [lia|done].
Qed.

Lemma rfind_ok s b rest bytes :
  repr s b rest -> zlength bytes < 2 ^ 63 ->
  exists r, rfind s bytes = Ret r /\
    match r with
    | Some i => 0 <= i <= zlength b - zlength bytes /\ occurs b bytes i /\
        forall k, i < k <= zlength b - zlength bytes -> ~ occurs b bytes k
    | None => forall k, 0 <= k <= zlength b -> ~ occurs b bytes k
    end.
Proof.
  intros Hr Hb. pose proof Hr as [_ El Ec Hw _]. pose proof (zlength_nonneg rest).
  pose proof (zlength_nonneg b). pose proof (zlength_nonneg bytes). unfold rfind. rewrite El. destruct (_ <? _) eqn:E; bool_to_prop.
  - exists None. split; [done|]. intros k Hk Ho.
    destruct (occurs_fits b bytes k) as [->|]; [lia|done| |lia].
    change (zlength (@nil Z)) with 0 in E. lia.
  - checked.
    destruct (rfind_loop_ok s b rest bytes (Z.to_nat (zlength b - zlength bytes + 1)) Hr)
      as (r & -> & Hres); [lia|]. exists r. split; [done|]. destruct r as [j|].
    + destruct Hres as (Hj & Ho & Hk). split_and!; [lia..|done|]. intros k Hki. apply Hk. lia.
    + intros k Hk Ho. destruct (occurs_fits b bytes k) as [->|]; [lia|done| |].
      * apply (Hres k); [|done]. change (zlength (@nil Z)) with 0. lia.
      * apply (Hres k); [lia|done].
Qed.

(** *** Removing *)

Lemma retain_loop_ok (f : Z -> bool) x : forall s y rest,
  repr s (x ++ y) rest -> 0 < zlength rest ->
  exists s' rest', retain_loop (fun _ c => (f c, tt)) tt (length x) s = Ret (tt, s') /\
    repr s' (filter (fun c => f c = false) x ++ y) rest' /\ s'.(CAPACITY) = s.(CAPACITY) /\
    0 < zlength rest'.
Proof.
  induction x as [|c x IH] using rev_ind; intros s y rest Hr Hpos; [by exists s, rest|].
  rewrite length_app, Nat.add_1_r. cbn [retain_loop].
  rewrite <-app_assoc in Hr. cbn [app] in Hr. pose proof Hr as [Ed El Ec Hw _].
  rewrite Ed. rewrite <-app_assoc. cbn [app]. rewrite index_app by done. checked.
  rewrite filter_app. destruct (f c) eqn:Ef.
  - rewrite filter_cons_False, filter_nil, app_nil_r by congruence.
    destruct (bs_remove_ok s x c y rest Hr) as (s1 & rest1 & E1 & Hr1 & Ec1 & Hl1).
    { rewrite zlength_app, zlength_cons in Ec. pose proof (zlength_nonneg y). lia. }
    unfold zlength in E1 at 1. rewrite E1. checked.
    destruct (IH s1 y rest1 Hr1) as (s' & rest' & E & Hr' & Ec' & Hp'); [lia|].
    exists s', rest'. split_and!; [done..|congruence|done].
  - rewrite filter_cons_True, filter_nil by done. checked.
    destruct (IH s (c :: y) rest Hr Hpos) as (s' & rest' & E & Hr' & Ec' & Hp').
    exists s', rest'. rewrite <-app_assoc. by split_and!.
Qed.

Lemma remove_range_ok s b rest idx n :
  repr s b rest -> 0 < zlength rest -> 0 <= idx -> 0 <= n -> idx + n <= zlength b ->
  exists s' rest', remove_range s idx n = Ret s' /\
    repr s' (take (Z.to_nat idx) b ++ drop (Z.to_nat (idx + n)) b) rest' /\
    s'.(CAPACITY) = s.(CAPACITY) /\ 0 < zlength rest'.
Proof.
  intros Hr Hpos Hi Hn Hb. pose proof Hr as [Ed El Ec Hw _]. unfold remove_range. checked.
  rewrite El, (proj2 (Z.ltb_ge _ _)) by lia.
  set (x := take (Z.to_nat idx) b). set (y := drop (Z.to_nat (idx + n)) b).
  set (m := take (Z.to_nat n) (drop (Z.to_nat idx) b)).
  assert (Eb : b = x ++ m ++ y).
  { unfold x, m, y. rewrite Z2Nat.inj_add, <-drop_drop by done. by rewrite !take_drop. }
  assert (Ex : zlength x = idx) by (apply zlength_take; lia).
  assert (Em : zlength m = n) by (apply zlength_take; rewrite zlength_drop; lia).
  rewrite Eb in Hr. destruct (remove_range_impl_ok s x m y rest Hr) as (s' & rest' & E & Hr' & Ec' & Hl);
    [lia..|]. rewrite Ex, Em in E. exists s', rest'. split_and!; [done..|lia].
Qed.

Lemma occurs_prefix b bytes : occurs b bytes 0 <-> exists t, b = bytes ++ t.
Proof.
  unfold occurs. cbn. rewrite drop_0. split.
  - intros E. exists (drop (length bytes) b). by rewrite <-E at 1; rewrite take_drop.
  - intros [t ->]. apply take_app_length.
Qed.

Lemma occurs_suffix b bytes :
  zlength bytes <= zlength b ->
  occurs b bytes (zlength b - zlength bytes) <-> exists t, b = t ++ bytes.
Proof.
  intros Hle. unfold occurs, zlength in *. split.
  - intros E. exists (take (length b - length bytes) b).
    rewrite take_ge in E by (rewrite length_drop; lia).
    rewrite <-E at 2. replace (Z.to_nat _) with (length b - length bytes)%nat by lia.
    by rewrite take_drop.
  - intros [t ->]. rewrite length_app. replace (Z.to_nat _) with (length t) by lia.
    rewrite drop_app_length. apply take_ge. done.
Qed.

Lemma strip_prefix_ok s b rest bytes :
  repr s b rest -> 0 < zlength rest -> zlength bytes < 2 ^ 63 ->
  exists r s' rest' b', strip_prefix s bytes = Ret (r, s') /\ repr s' b' rest' /\ s'.(CAPACITY) = s.(CAPACITY) /\
    (if r then b = bytes ++ b' else b' = b /\ ~ exists t, b = bytes ++ t).
Proof.
  intros Hr Hpos Hb. unfold strip_prefix. pose proof (zlength_nonneg bytes).
  destruct (find_ok s b rest bytes Hr Hb) as (r & -> & Hres). checked.
  destruct r as [[|p|p]|].
  - destruct Hres as (Hi & Ho & _). apply occurs_prefix in Ho as [t ->].
    destruct (remove_range_ok s (bytes ++ t) rest 0 (zlength bytes)) as (s' & rest' & -> & Hr' & Ec' & _);
      [done..|lia|]. checked.
    exists true, s', rest', t. split_and!; try done.
    rewrite Z.add_0_l, drop_zlength_app in Hr' by done. done.
  - exists false, s, rest, b. split_and!; try done. rewrite <-occurs_prefix.
    destruct Hres as (_ & _ & Hk). apply Hk. lia.
  - by destruct Hres as [[]].
  - exists false, s, rest, b. split_and!; try done. rewrite <-occurs_prefix. apply Hres.
    pose proof (zlength_nonneg b). lia.
Qed.

Lemma strip_suffix_ok s b rest bytes :
  repr s b rest -> 0 < zlength rest -> zlength bytes < 2 ^ 63 ->
  exists r s' rest' b', strip_suffix s bytes = Ret (r, s') /\ repr s' b' rest' /\ s'.(CAPACITY) = s.(CAPACITY) /\
    (if r then b = b' ++ bytes else b' = b /\ ~ exists t, b = t ++ bytes).
Proof.
  intros Hr Hpos Hb. pose proof Hr as [_ El _ _ _]. unfold strip_suffix. rewrite El.
  pose proof (zlength_nonneg bytes). destruct (_ <? _) eqn:E; bool_to_prop.
  { exists false, s, rest, b. split_and!; try done. intros [t ->]. rewrite zlength_app in E.
    pose proof (zlength_nonneg t). lia. }
  checked. destruct (rfind_ok s b rest bytes Hr Hb) as (r & -> & Hres). checked.
  assert (Hno : ~ occurs b bytes (zlength b - zlength bytes) -> ~ exists t, b = t ++ bytes).
  { intros Hn Ht. apply Hn. by apply occurs_suffix. }
  destruct r as [i|].
  - destruct Hres as (Hi & Ho & Hk). destruct (i =? _) eqn:Ei; bool_to_prop; cbn [negb].
    + subst i. apply occurs_suffix in Ho as [t ->]; [|done]. rewrite zlength_app in *.
      destruct (remove_range_ok s (t ++ bytes) rest (zlength t) (zlength bytes))
        as (s' & rest' & E' & Hr' & Ec' & _); [done..|apply zlength_nonneg|done|by rewrite zlength_app|].
      replace (zlength t + zlength bytes - zlength bytes) with (zlength t) by lia. rewrite E'. checked.
      exists true, s', rest', t. split_and!; try done.
      rewrite take_zlength_app, <-zlength_app in Hr' by done.
      unfold zlength in Hr'. rewrite Nat2Z.id, drop_all, app_nil_r in Hr'. done.
    + exists false, s, rest, b. split_and!; try done. apply Hno, Hk. lia.
  - exists false, s, rest, b. split_and!; try done. apply Hno, Hres. lia.
Qed.

Lemma bs_new_repr cap memory :
  0 < cap < 2 ^ 63 -> zlength memory = cap ->
  exists s rest, new cap memory = Ret s /\ repr s [] rest /\ s.(CAPACITY) = cap /\ zlength rest = cap.
Proof.
  intros Hc Hm. destruct memory as [|z memory].
  { change (zlength (@nil Z)) with 0 in Hm. lia. }
  unfold new. change (z :: memory) with ([] ++ z :: memory). rewrite update_app by done. checked.
  exists {| CAPACITY := cap; len := 0; data := 0 :: memory |}, (0 :: memory).
  rewrite zlength_cons in *. split; [done|]. split_and!; [|done|done].
  split; cbn; try done; [|lia]. rewrite zlength_cons. change (zlength (@nil Z)) with 0. lia.
Qed.

End lemmas.

(** ** Properties *)

(** Construction and insertion: [from_bytes] yields exactly the given bytes or,
    when there are more than [CAPACITY], the error; inserting inside the content
    shifts the rest to the right, fails without changing the string when the result
    would not fit, and always leaves a terminating zero behind the content. *)
Theorem byte_string_insert `{Profile} cap memory bytes idx ins :
  0 < cap < 2 ^ 63 -> zlength memory = cap -> zlength bytes < 2 ^ 63 -> zlength ins < 2 ^ 63 ->
  0 <= idx <= zlength bytes -> idx < cap ->
  exists r, from_bytes cap memory bytes = Ret r /\
    match r with
    | Err InsertWouldExceedCapacity => cap < zlength bytes
    | Ok s =>
        as_bytes s = bytes /\ as_bytes_with_nul s = bytes ++ [0] /\
        exists r' s', insert_bytes s idx ins = Ret (r', s') /\
          match r' with
          | Err InsertWouldExceedCapacity => s' = s /\ cap < zlength bytes + zlength ins
          | Ok _ => as_bytes_with_nul s' =
              take (Z.to_nat idx) bytes ++ ins ++ drop (Z.to_nat idx) bytes ++ [0]
          end
    end.
Proof.
  intros Hc Hm Hb Hin Hidx Hidxc. unfold from_bytes.
  destruct (bs_new_repr cap memory Hc Hm) as (s0 & rest0 & -> & Hr0 & Ec0 & Hl0). checked.
  unfold push_bytes. rewrite (repr_len _ _ _ Hr0). change (zlength (@nil Z)) with 0.
  destruct (Z.lt_ge_cases cap (zlength bytes)) as [Hbig|Hfit].
  { rewrite (insert_bytes_full s0 [] rest0) by (done || lia). checked. by eexists. }
  destruct (bs_insert_bytes_ok s0 [] rest0 0 bytes Hr0) as (s & rest & -> & Hr & Ec & Hl); [done|lia|lia|].
  checked. cbn in Hr. rewrite app_nil_r in Hr. eexists. split; [done|]. cbn match.
  split; [by eapply repr_bytes|]. split; [by eapply repr_with_nul|].
  destruct (Z.lt_ge_cases (zlength rest) (zlength ins)) as [Hbig|Hfit'].
  - rewrite (insert_bytes_full s bytes rest) by (done || lia). eexists _, _. split; [done|]. split; [done|lia].
  - destruct (bs_insert_bytes_ok s bytes rest idx ins Hr) as (s' & rest' & -> & Hr' & _); [lia..|].
    eexists _, _. split; [done|]. cbn match. rewrite (repr_with_nul _ _ _ Hr'). by rewrite <-!app_assoc.
Qed.

Lemma byte_string_insert_witness :
  exists r, from_bytes (H := dev) 4 [9; 9; 9; 9] [97; 98] = Ret r /\
    match r with Ok s => as_bytes s = [97; 98] | Err _ => False end.
Proof.
  destruct (byte_string_insert (H := dev) 4 [9; 9; 9; 9] [97; 98] 1 [99]) as (r & E & Hr).
  - lia.
  - reflexivity.
  - reflexivity.
  - reflexivity.
  - change (zlength [97; 98]) with 2. lia.
  - lia.
  - exists r. split; [exact E|]. destruct r as [s|[]]; [apply Hr|discriminate Hr].
Defined.

(** [find] returns the first and [rfind] the last position at which the bytes
    occur, and [None] exactly when they do not occur. *)
Theorem byte_string_search `{Profile} s b rest bytes :
  repr s b rest -> zlength bytes < 2 ^ 63 ->
  exists r r', find s bytes = Ret r /\ rfind s bytes = Ret r' /\
    match r, r' with
    | Some i, Some j =>
        occurs b bytes i /\ occurs b bytes j /\
        (forall k, 0 <= k <= zlength b - zlength bytes -> occurs b bytes k -> i <= k <= j)
    | None, None => forall k, 0 <= k <= zlength b -> ~ occurs b bytes k
    | _, _ => False
    end.
Proof.
  intros Hr Hb. destruct (find_ok s b rest bytes Hr Hb) as (r & Er & Hf).
  destruct (rfind_ok s b rest bytes Hr Hb) as (r' & Er' & Hrf). exists r, r'. split_and!; [done..|].
  pose proof (zlength_nonneg bytes). destruct r as [i|], r' as [j|].
  - destruct Hf as (Hi & Hoi & Hki), Hrf as (Hj & Hoj & Hkj). split_and!; [done..|].
    intros k Hk Ho. split.
    + destruct (Z.le_gt_cases i k); [done|]. exfalso. by apply (Hki k); [lia|].
    + destruct (Z.le_gt_cases k j); [done|]. exfalso. by apply (Hkj k); [lia|].
  - destruct Hf as (Hi & Hoi & _). by apply (Hrf i); [lia|].
  - destruct Hrf as (Hj & Hoj & _). by apply (Hf j); [lia|].
  - done.
Qed.

(** The string [b] in an array with one byte to spare. *)
Definition example_string (b : list Z) : FixedSizeByteString :=
  {| CAPACITY := zlength b + 1; len := zlength b; data := b ++ [0] |}.

Lemma example_string_repr b : zlength b < 2 ^ 62 -> repr (example_string b) b [0].
Proof. intros Hb. split; cbn; try done. lia. Qed.

Lemma byte_string_search_witness :
  exists r r', find (H := dev) (example_string [97; 98; 97]) [97] = Ret r /\
    rfind (H := dev) (example_string [97; 98; 97]) [97] = Ret r' /\
    match r, r' with
    | Some i, Some j => i = 0 /\ j = 2
    | _, _ => False
    end.
Proof.
  destruct (byte_string_search (H := dev) (example_string [97; 98; 97]) [97; 98; 97] [0] [97])
    as (r & r' & E & E' & Hr).
  - apply example_string_repr. reflexivity.
  - reflexivity.
  - exists r, r'. split; [exact E|]. split; [exact E'|].
    vm_compute in E, E'. injection E as <-. injection E' as <-. done.
Defined.

(** On a string that is not full, removal is exact: [remove_range] takes out the
    range and nothing else, [strip_prefix] and [strip_suffix] report and remove the
    prefix or suffix exactly when it is one, and [retain] removes precisely the bytes
    for which its predicate holds. *)
Theorem byte_string_remove `{Profile} s b rest bytes idx n (f : Z -> bool) :
  repr s b rest -> 0 < zlength rest -> zlength bytes < 2 ^ 63 ->
  0 <= idx -> 0 <= n -> idx + n <= zlength b ->
  (exists s', remove_range s idx n = Ret s' /\
     as_bytes_with_nul s' = take (Z.to_nat idx) b ++ drop (Z.to_nat (idx + n)) b ++ [0]) /\
  (exists r s', strip_prefix s bytes = Ret (r, s') /\
     if r then b = bytes ++ as_bytes s' else as_bytes s' = b /\ ~ exists t, b = bytes ++ t) /\
  (exists r s', strip_suffix s bytes = Ret (r, s') /\
     if r then b = as_bytes s' ++ bytes else as_bytes s' = b /\ ~ exists t, b = t ++ bytes) /\
  (exists s', retain (fun _ c => (f c, tt)) tt s = Ret (tt, s') /\
     as_bytes s' = filter (fun c => f c = false) b).
Proof.
  intros Hr Hpos Hb Hi Hn Hin. split_and!.
  - destruct (remove_range_ok s b rest idx n) as (s' & rest' & -> & Hr' & _); [done..|].
    exists s'. split; [done|]. rewrite (repr_with_nul _ _ _ Hr'). by rewrite <-app_assoc.
  - destruct (strip_prefix_ok s b rest bytes Hr Hpos Hb) as (r & s' & rest' & b' & -> & Hr' & _ & Hres).
    exists r, s'. split; [done|]. by rewrite (repr_bytes _ _ _ Hr').
  - destruct (strip_suffix_ok s b rest bytes Hr Hpos Hb) as (r & s' & rest' & b' & -> & Hr' & _ & Hres).
    exists r, s'. split; [done|]. by rewrite (repr_bytes _ _ _ Hr').
  - unfold retain. rewrite (repr_len _ _ _ Hr). unfold zlength at 1. rewrite Nat2Z.id.
    destruct (retain_loop_ok f b s [] rest) as (s' & rest' & -> & Hr' & _); [by rewrite app_nil_r|done|].
    exists s'. split; [done|]. rewrite app_nil_r in Hr'. by rewrite (repr_bytes _ _ _ Hr').
Qed.

Lemma byte_string_remove_witness :
  exists s', retain (H := dev) (fun _ c => (c =? 97, tt)) tt (example_string [97; 98; 97]) = Ret (tt, s') /\
    as_bytes s' = [98].
Proof.
  destruct (byte_string_remove (H := dev) (example_string [97; 98; 97]) [97; 98; 97] [0] [97] 0 1
    (fun c => c =? 97)) as (_ & _ & _ & s' & E & Eb).
  - apply example_string_repr. reflexivity.
  - reflexivity.
  - reflexivity.
  - lia.
  - lia.
  - unfold zlength. cbn. lia.
  - exists s'. split; [exact E|]. rewrite Eb. reflexivity.
Defined.

(** On a full string every removal that reaches the end of the content panics,
    because the byte behind the array is indexed: [pop] always, [remove] of the last
    byte, and [strip_suffix] of any suffix. *)
Theorem byte_string_full_panics `{Profile} s b :
  repr s b [] -> b <> [] ->
  pop s = Panic /\ remove s (zlength b - 1) = Panic /\
  forall t suffix, b = t ++ suffix -> suffix <> [] -> zlength suffix < 2 ^ 63 ->
    strip_suffix s suffix = Panic.
Proof.
  intros Hr Hne. pose proof Hr as [Ed El Ec Hw _]. change (zlength (@nil Z)) with 0 in Ec.
  rewrite app_nil_r in Ed. pose proof (zlength_nonneg b).
  assert (zlength b <> 0) by (by rewrite zlength_zero).
  assert (Hend : forall i n, 0 <= i -> 0 <= n -> i + n = zlength b -> remove_range_impl s i n = Panic).
  { intros i n Hi Hn Hb. unfold remove_range_impl. checked. by rewrite Ed, index_out by lia. }
  assert (Hlast : remove s (zlength b - 1) = Panic).
  { unfold remove. destruct (_ <? _); [done|]. destruct (index _ _) as [a|]; [|done]. cbn.
    by rewrite Hend by lia. }
  split_and!; [|done|].
  - unfold pop, is_empty. rewrite El, (proj2 (Z.eqb_neq _ _)) by lia. checked. by rewrite Hlast.
  - intros t suffix Eb Hs Hsl. assert (zlength suffix <> 0) by (by rewrite zlength_zero).
    pose proof (zlength_nonneg suffix). pose proof (zlength_nonneg t).
    assert (Eb' : zlength b = zlength t + zlength suffix) by (rewrite Eb; apply zlength_app).
    unfold strip_suffix. rewrite El, (proj2 (Z.ltb_ge _ _)) by lia. checked.
    destruct (rfind_ok s b [] suffix Hr Hsl) as (r & -> & Hres). checked.
    assert (Ho : occurs b suffix (zlength b - zlength suffix)) by (apply occurs_suffix; [lia|eauto]).
    destruct r as [i|]; [|by apply Hres in Ho; [|lia]]. destruct Hres as (Hi & _ & Hk).
    destruct (Z.eq_dec i (zlength b - zlength suffix)) as [->|Hn].
    + rewrite Z.eqb_refl. cbn. unfold remove_range. checked. rewrite El, (proj2 (Z.ltb_ge _ _)) by lia.
      by rewrite Hend by lia.
    + exfalso. by apply (Hk (zlength b - zlength suffix)); [lia|].
Qed.

Lemma byte_string_full_panics_witness :
  pop (H := release) {| CAPACITY := 2; len := 2; data := [97; 98] |} = Panic.
Proof.
  apply (byte_string_full_panics (H := release) {| CAPACITY := 2; len := 2; data := [97; 98] |} [97; 98]).
  - split; cbn; try done.
  - discriminate.
Defined.

(** [from_c_str] does not write the terminating zero: in an array that held other
    bytes before, the C string read back from it is longer than the original. *)
Theorem byte_string_from_c_str_unterminated :
  exists s, from_c_str 4 [9; 9; 9; 9] [97; 98; 0] = Ret (Ok s) /\
    as_bytes s = [97; 98] /\ as_bytes_with_nul s = [97; 98; 9] /\
    strlen (s.(data) ++ [0]) = Ret 4.
Proof. eexists. split; [vm_compute; reflexivity|]. split_and!; reflexivity. Qed.

(** The escaped form consists of printable ASCII characters only, so building a
    UTF-8 string from it cannot fail. *)
Theorem as_escaped_string_printable bytes :
  Forall (fun c => 0 <= c < 256) bytes ->
  Forall (fun c => 32 <= c <= 126) (as_escaped_string bytes).
Proof.
  intros Hb. unfold as_escaped_string. apply Forall_bind. eapply Forall_impl; [exact Hb|]. cbn.
  intros c Hc. unfold escape_byte.
  destruct (c =? 9); [by repeat (apply Forall_cons; split)|].
  destruct (c =? 13); [by repeat (apply Forall_cons; split)|].
  destruct (c =? 10); [by repeat (apply Forall_cons; split)|].
  destruct (_ && _) eqn:E; bool_to_prop; [by apply Forall_singleton|].
  assert (H1 : 0 <= Z.shiftr c 4 < 16).
  { rewrite Z.shiftr_div_pow2 by lia. split; [apply Z.div_pos; lia|]. apply Z.div_lt_upper_bound; lia. }
  assert (H2 : 0 <= Z.land c 15 < 16).
  { change 15 with (Z.ones 4). rewrite Z.land_ones by lia. apply Z.mod_pos_bound. lia. }
  assert (Hhex : forall n, 0 <= n < 16 -> 32 <= hex_digit n <= 126).
  { intros n Hn. unfold hex_digit. destruct (n <? 10) eqn:?; lia. }
  apply Forall_cons; split; [lia|]. apply Forall_cons; split; [lia|].
  apply Forall_cons; split; [by apply Hhex|]. apply Forall_singleton. by apply Hhex.
Qed.

Lemma as_escaped_string_printable_witness :
  Forall (fun c => 32 <= c <= 126) (as_escaped_string [9; 97; 200]).
Proof. apply (as_escaped_string_printable [9; 97; 200]). by repeat (apply Forall_cons; split). Defined.
