(* ===== verification/SemanticString.v ===== *)
(** * iceoryx2_bb/container/src/semantic_string.rs

    Byte strings that always satisfy the rules of their kind (file names, paths, user
    and group names).  A kind is the pair of checks the [semantic_string!] macro
    takes; the operations are those of the trait [SemanticString], on the underlying
    [FixedSizeByteString]. *)

From S2P Require Import Prelude ByteString.

(* src/iceoryx2_bb/container/src/semantic_string.rs:21-28 SemanticStringError *)
Inductive SemanticStringError := InvalidCharacter | InvalidName | ExceedsMaximumLength.

(** The checks of a kind of strings. *)
(* src/iceoryx2_bb/container/src/semantic_string.rs:366-372 is_invalid_content, does_contain_invalid_characters *)
Class SemanticKind := {
  is_invalid_content : list Z -> bool;
  is_invalid_character : Z -> bool;
}.

(** [for c in value { match c { .. => return true, _ => () } } false] *)
(* src/iceoryx2_bb/container/src/semantic_string.rs:370-372 does_contain_invalid_characters *)
Definition does_contain_invalid_characters `{SemanticKind} (value : list Z) : bool :=
  existsb is_invalid_character value.

Section operations.
Context `{Profile} `{SemanticKind}.
Implicit Types s : FixedSizeByteString.

(* src/iceoryx2_bb/container/src/semantic_string.rs:134-155 insert_bytes *)
Definition insert_bytes s (idx : Z) (bytes : list Z)
    : outcome (Result unit SemanticStringError * FixedSizeByteString) :=
  if does_contain_invalid_characters bytes then Ret (Err InvalidCharacter, s)
  else
    let! '(r, s) := ByteString.insert_bytes s idx bytes in
    match r with
    | Err _ => Ret (Err ExceedsMaximumLength, s)
    | Ok _ =>
        if is_invalid_content (as_bytes s) then
          let! s := ByteString.remove_range s idx (zlength bytes) in
          Ret (Err InvalidName, s)
        else Ret (Ok tt, s)
    end.

(* src/iceoryx2_bb/container/src/semantic_string.rs:128-130 insert *)
Definition insert s (idx byte : Z)
    : outcome (Result unit SemanticStringError * FixedSizeByteString) :=
  insert_bytes s idx [byte].

(* src/iceoryx2_bb/container/src/semantic_string.rs:169-171 push *)
Definition push s (byte : Z) : outcome (Result unit SemanticStringError * FixedSizeByteString) :=
  insert s s.(len) byte.

(* src/iceoryx2_bb/container/src/semantic_string.rs:175-177 push_bytes *)
Definition push_bytes s (bytes : list Z)
    : outcome (Result unit SemanticStringError * FixedSizeByteString) :=
  insert_bytes s s.(len) bytes.

(** [memory] is the uninitialised array of the new string. *)
(* src/iceoryx2_bb/container/src/semantic_string.rs:74-83 new *)
Definition new (cap : Z) (memory value : list Z)
    : outcome (Result FixedSizeByteString SemanticStringError) :=
  let! s := ByteString.new cap memory in
  let! '(r, s) := push_bytes s value in
  match r with Ok _ => Ret (Ok s) | Err e => Ret (Err e) end.

(* src/iceoryx2_bb/container/src/semantic_string.rs:92-94 from_c_str *)
Definition from_c_str (cap : Z) (memory ptr : list Z)
    : outcome (Result FixedSizeByteString SemanticStringError) :=
  let! n := strlen ptr in new cap memory (take (Z.to_nat n) ptr).

(* src/iceoryx2_bb/container/src/semantic_string.rs:181-192 remove *)
Definition remove s (idx : Z) : outcome (Result Z SemanticStringError * FixedSizeByteString) :=
  let! '(value, s) := ByteString.remove s idx in
  if is_invalid_content (as_bytes s) then
    let! '(r, s) := ByteString.insert s idx value in
    match r with
    | Ok _ => Ret (Err InvalidName, s)
    | Err _ => Panic
    end
  else Ret (Ok value, s).

(* src/iceoryx2_bb/container/src/semantic_string.rs:159-165 pop *)
Definition pop s : outcome (Result (option Z) SemanticStringError * FixedSizeByteString) :=
  if s.(len) =? 0 then Ret (Ok None, s)
  else
    let! i := s.(len) -u64 1 in
    let! '(r, s) := remove s i in
    match r with Ok v => Ret (Ok (Some v), s) | Err e => Ret (Err e, s) end.

(* src/iceoryx2_bb/container/src/semantic_string.rs:196-207 remove_range *)
Definition remove_range s (idx n : Z)
    : outcome (Result unit SemanticStringError * FixedSizeByteString) :=
  let! temp := ByteString.remove_range s idx n in
  if is_invalid_content (as_bytes temp) then Ret (Err InvalidName, s)
  else let! s := ByteString.remove_range s idx n in Ret (Ok tt, s).

(** The closure runs over the string twice; the second run continues with the state
    the first one left behind. *)
(* src/iceoryx2_bb/container/src/semantic_string.rs:211-223 retain *)
Definition retain {St} (f : St -> Z -> bool * St) (st : St) s
    : outcome (Result unit SemanticStringError * FixedSizeByteString) :=
  let! '(st, temp) := ByteString.retain f st s in
  if is_invalid_content (as_bytes temp) then Ret (Err InvalidName, s)
  else let! '(_, s) := ByteString.retain f st s in Ret (Ok tt, s).

(** The string of 123 bytes that only serves the error message. *)
(* src/iceoryx2_bb/container/src/semantic_string.rs:235-236 strip_prefix *)
Definition message_buffer (bytes : list Z) : outcome FixedSizeByteString :=
  let! s := ByteString.new 123 (replicate 123 0) in insert_bytes_unchecked s 0 bytes.

(* src/iceoryx2_bb/container/src/semantic_string.rs:228-245 strip_prefix *)
Definition strip_prefix s (bytes : list Z)
    : outcome (Result bool SemanticStringError * FixedSizeByteString) :=
  let! '(r, temp) := ByteString.strip_prefix s bytes in
  if negb r then Ret (Ok false, s)
  else if is_invalid_content (as_bytes temp) then
    let! _ := message_buffer bytes in Ret (Err InvalidName, s)
  else let! '(_, s) := ByteString.strip_prefix s bytes in Ret (Ok true, s).

(* src/iceoryx2_bb/container/src/semantic_string.rs:250-267 strip_suffix *)
Definition strip_suffix s (bytes : list Z)
    : outcome (Result bool SemanticStringError * FixedSizeByteString) :=
  let! '(r, temp) := ByteString.strip_suffix s bytes in
  if negb r then Ret (Ok false, s)
  else if is_invalid_content (as_bytes temp) then
    let! _ := message_buffer bytes in Ret (Err InvalidName, s)
  else let! '(_, s) := ByteString.strip_suffix s bytes in Ret (Ok true, s).

(* src/iceoryx2_bb/container/src/semantic_string.rs:270-282 truncate *)
Definition truncate s (new_len : Z)
    : outcome (Result unit SemanticStringError * FixedSizeByteString) :=
  let! temp := ByteString.truncate s new_len in
  if is_invalid_content (as_bytes temp) then Ret (Err InvalidName, s)
  else let! s := ByteString.truncate s new_len in Ret (Ok tt, s).

(** ** Lemmas *)

(** A string that satisfies the rules of its kind. *)
Definition valid (b : list Z) : Prop :=
  does_contain_invalid_characters b = false /\ is_invalid_content b = false.

Lemma invalid_characters_app a b :
  does_contain_invalid_characters (a ++ b) =
    does_contain_invalid_characters a || does_contain_invalid_characters b.
Proof. apply existsb_app. Qed.

Lemma ss_insert_bytes_ok s b rest idx bytes :
  repr s b rest -> does_contain_invalid_characters b = false ->
  0 <= idx <= zlength b -> idx < s.(CAPACITY) -> zlength bytes < 2 ^ 63 ->
  let b' := take (Z.to_nat idx) b ++ bytes ++ drop (Z.to_nat idx) b in
  zlength bytes <> zlength rest \/ is_invalid_content b' = false ->
  exists r s' rest', insert_bytes s idx bytes = Ret (r, s') /\ s'.(CAPACITY) = s.(CAPACITY) /\
    match r with
    | Ok _ => repr s' b' rest' /\ valid b'
    | Err InvalidCharacter => repr s' b rest' /\ does_contain_invalid_characters bytes = true
    | Err ExceedsMaximumLength => repr s' b rest' /\ s.(CAPACITY) < zlength b + zlength bytes
    | Err InvalidName => repr s' b rest' /\ is_invalid_content b' = true
    end.
Proof.
  intros Hr Hv Hi Hic Hb b' Hroom. unfold insert_bytes.
  destruct (does_contain_invalid_characters bytes) eqn:Ebad; [by eexists _, _, rest|].
  pose proof (repr_capacity _ _ _ Hr) as Ecap.
  destruct (Z.lt_ge_cases (zlength rest) (zlength bytes)) as [Hbig|Hfit].
  { rewrite (insert_bytes_full s b rest) by (done || lia). checked. eexists _, _, rest.
    split; [done|]. split; [done|]. split; [done|lia]. }
  destruct (ByteString.bs_insert_bytes_ok s b rest idx bytes Hr) as (s1 & rest1 & -> & Hr1 & Ec1 & Hl1);
    [done..|]. checked. fold b' in Hr1. rewrite (repr_bytes _ _ _ Hr1).
  destruct (is_invalid_content b') eqn:Econt.
  - destruct Hroom as [Hne|]; [|done].
    assert (Ex : zlength (take (Z.to_nat idx) b) = idx) by (apply zlength_take; lia).
    assert (Ed : zlength (drop (Z.to_nat idx) b) = zlength b - idx) by (apply zlength_drop; lia).
    destruct (remove_range_ok s1 b' rest1 idx (zlength bytes) Hr1) as (s2 & rest2 & -> & Hr2 & Ec2 & _);
      [lia|lia|apply zlength_nonneg|unfold b'; rewrite !zlength_app; lia|]. checked.
    eexists _, s2, rest2. split; [done|]. split; [congruence|]. split; [|done].
    unfold b' in Hr2. rewrite take_zlength_app in Hr2 by done.
    rewrite app_assoc, drop_zlength_app in Hr2 by (rewrite zlength_app; lia).
    by rewrite take_drop in Hr2.
  - eexists _, s1, rest1. split; [done|]. split; [done|]. split; [done|]. split; [|done].
    unfold b'. rewrite !invalid_characters_app, Ebad.
    rewrite <-(take_drop (Z.to_nat idx) b), invalid_characters_app in Hv.
    apply orb_false_elim in Hv as [-> ->]. done.
Qed.

Lemma new_ok cap memory value :
  0 < cap < 2 ^ 63 -> zlength memory = cap -> zlength value < 2 ^ 63 ->
  zlength value <> cap \/ is_invalid_content value = false ->
  exists r, new cap memory value = Ret r /\
    match r with
    | Ok s => as_bytes s = value /\ valid value /\ s.(CAPACITY) = cap /\ exists rest, repr s value rest
    | Err InvalidCharacter => does_contain_invalid_characters value = true
    | Err ExceedsMaximumLength => cap < zlength value
    | Err InvalidName => is_invalid_content value = true
    end.
Proof.
  intros Hc Hm Hv Hroom. unfold new.
  destruct (bs_new_repr cap memory Hc Hm) as (s0 & rest0 & -> & Hr0 & Ec0 & Hl0). checked.
  unfold push_bytes. rewrite (repr_len _ _ _ Hr0). change (zlength (@nil Z)) with 0.
  destruct (ss_insert_bytes_ok s0 [] rest0 0 value Hr0) as (r & s & rest & -> & Ec & Hres);
    [done|done|lia|done| |].
  { cbn. rewrite app_nil_r. destruct Hroom; [left; lia|by right]. }
  checked. cbn in Hres. rewrite !app_nil_r in Hres. destruct r as [[]|e].
  - eexists. split; [done|]. cbn match. destruct Hres as [Hr Hval].
    split; [by eapply repr_bytes|]. split; [done|]. split; [congruence|eauto].
  - eexists. split; [done|]. destruct e; destruct Hres as [_ Hres]; try done.
    change (zlength (@nil Z)) with 0 in Hres. lia.
Qed.

(** Removing characters never makes a character invalid. *)
Lemma valid_sublist b b' :
  (forall c, c ∈ b' -> c ∈ b) -> valid b -> is_invalid_content b' = false -> valid b'.
Proof.
  intros Hsub [Hc _] Hcont. split; [|done]. unfold does_contain_invalid_characters in *.
  destruct (existsb _ b') eqn:E; [|done]. apply existsb_exists in E as (c & Hin & Hbad).
  assert (existsb is_invalid_character b = true); [|congruence].
  apply existsb_exists. exists c. split; [|done].
  apply list_elem_of_In, Hsub. by apply list_elem_of_In.
Qed.

Lemma message_buffer_ok bytes : zlength bytes <= 123 -> is_ret (message_buffer bytes) = true.
Proof.
  intros Hb. unfold message_buffer.
  destruct (bs_new_repr 123 (replicate 123 0)) as (s & rest & -> & Hr & Ec & Hl); [lia|done|]. checked.
  destruct (ByteString.bs_insert_bytes_ok s [] rest 0 bytes Hr) as (s' & rest' & E & _); [done|lia|lia|].
  unfold ByteString.insert_bytes in E. rewrite (repr_len _ _ _ Hr) in E.
  change (zlength (@nil Z)) with 0 in E. pose proof (zlength_nonneg bytes). cbn [Z.ltb Z.compare] in E.
  destruct (0 +u64 zlength bytes) as [l|]; [|done]. cbn in E. destruct (_ <? l); [done|].
  by destruct (insert_bytes_unchecked s 0 bytes).
Qed.

Lemma strip_prefix_valid s b rest bytes :
  repr s b rest -> 0 < zlength rest -> valid b -> zlength bytes <= 123 ->
  exists r s', strip_prefix s bytes = Ret (r, s') /\
    match r with
    | Ok true => b = bytes ++ as_bytes s' /\ valid (as_bytes s')
    | Ok false => s' = s /\ ~ exists t, b = bytes ++ t
    | Err InvalidName => s' = s /\ exists t, b = bytes ++ t /\ is_invalid_content t = true
    | Err _ => False
    end.
Proof.
  intros Hr Hpos Hv Hb. unfold strip_prefix.
  destruct (strip_prefix_ok s b rest bytes Hr Hpos) as (r & t & rest' & b' & E & Hr' & _ & Hres); [lia|].
  rewrite E. checked. destruct r; cbn [negb].
  - rewrite (repr_bytes _ _ _ Hr'). destruct (is_invalid_content b') eqn:Econt.
    + pose proof (message_buffer_ok bytes Hb). destruct (message_buffer bytes); [|done].
      eexists _, s. split; [done|]. split; [done|]. eauto.
    + eexists _, t. checked. split; [done|]. cbn match. rewrite (repr_bytes _ _ _ Hr').
      split; [done|]. apply (valid_sublist b); [|done..].
      intros c Hc. rewrite Hres, elem_of_app. by right.
  - destruct Hres as [-> Hno]. eexists _, s. split; [done|]. done.
Qed.

Lemma strip_suffix_valid s b rest bytes :
  repr s b rest -> 0 < zlength rest -> valid b -> zlength bytes <= 123 ->
  exists r s', strip_suffix s bytes = Ret (r, s') /\
    match r with
    | Ok true => b = as_bytes s' ++ bytes /\ valid (as_bytes s')
    | Ok false => s' = s /\ ~ exists t, b = t ++ bytes
    | Err InvalidName => s' = s /\ exists t, b = t ++ bytes /\ is_invalid_content t = true
    | Err _ => False
    end.
Proof.
  intros Hr Hpos Hv Hb. unfold strip_suffix.
  destruct (strip_suffix_ok s b rest bytes Hr Hpos) as (r & t & rest' & b' & E & Hr' & _ & Hres); [lia|].
  rewrite E. checked. destruct r; cbn [negb].
  - rewrite (repr_bytes _ _ _ Hr'). destruct (is_invalid_content b') eqn:Econt.
    + pose proof (message_buffer_ok bytes Hb). destruct (message_buffer bytes); [|done].
      eexists _, s. split; [done|]. split; [done|]. eauto.
    + eexists _, t. checked. split; [done|]. cbn match. rewrite (repr_bytes _ _ _ Hr').
      split; [done|]. apply (valid_sublist b); [|done..].
      intros c Hc. rewrite Hres, elem_of_app. by left.
  - destruct Hres as [-> Hno]. eexists _, s. split; [done|]. done.
Qed.

Lemma remove_range_valid s b rest idx n :
  repr s b rest -> 0 < zlength rest -> valid b -> 0 <= idx -> 0 <= n -> idx + n <= zlength b ->
  let b' := take (Z.to_nat idx) b ++ drop (Z.to_nat (idx + n)) b in
  exists r s', remove_range s idx n = Ret (r, s') /\
    match r with
    | Ok _ => as_bytes s' = b' /\ valid b'
    | Err InvalidName => s' = s /\ is_invalid_content b' = true
    | Err _ => False
    end.
Proof.
  intros Hr Hpos Hv Hi Hn Hb b'. unfold remove_range.
  destruct (remove_range_ok s b rest idx n) as (t & rest' & E & Hr' & _); [done..|].
  fold b' in Hr'. rewrite E. checked. rewrite (repr_bytes _ _ _ Hr').
  destruct (is_invalid_content b') eqn:Econt; [by eexists _, s|]. eexists _, t. checked.
  split; [done|]. split; [by eapply repr_bytes|]. apply (valid_sublist b); [|done..].
  intros c Hc. apply elem_of_app in Hc as [Hc|Hc].
  - rewrite <-(take_drop (Z.to_nat idx) b), elem_of_app. by left.
  - rewrite <-(take_drop (Z.to_nat (idx + n)) b), elem_of_app. by right.
Qed.

Lemma truncate_valid s b rest n :
  repr s b rest -> valid b -> 0 <= n <= zlength b ->
  let b' := take (Z.to_nat n) b in
  exists r s', truncate s n = Ret (r, s') /\
    match r with
    | Ok _ => as_bytes s' = b' /\ valid b'
    | Err InvalidName => s' = s /\ is_invalid_content b' = true
    | Err _ => False
    end.
Proof.
  intros Hr Hv Hn b'. pose proof Hr as [Ed El Ec Hw _]. unfold truncate.
  assert (Hb' : zlength b' = n) by (apply zlength_take; lia).
  assert (Ht : exists t rest', ByteString.truncate s n = Ret t /\ repr t b' rest').
  { unfold ByteString.truncate. rewrite El, (proj2 (Z.ltb_ge _ _)) by lia.
    destruct (repr_terminate s b' (drop (Z.to_nat n) b ++ rest) n) as (rest' & d & Et & Hr' & _).
    - rewrite zlength_app, zlength_drop by lia. lia.
    - done.
    - done.
    - rewrite app_assoc in Et. unfold b' in Et. rewrite take_drop, <-Ed in Et. rewrite Et. checked.
      by eexists _, rest'. }
  destruct Ht as (t & rest' & Et & Hr'). rewrite Et. checked. rewrite (repr_bytes _ _ _ Hr').
  destruct (is_invalid_content b') eqn:Econt; [by eexists _, s|]. eexists _, t. checked.
  split; [done|]. split; [by eapply repr_bytes|]. apply (valid_sublist b); [|done..].
  intros c Hc. rewrite <-(take_drop (Z.to_nat n) b), elem_of_app. by left.
Qed.

End operations.

(** ** Properties *)





(** The kind without any rules, but with a forbidden zero byte. *)
#[local] Instance no_nul : SemanticKind :=
  {| is_invalid_content := fun b => bool_decide (b = []); is_invalid_character := fun c => c =? 0 |}.


(** Removing from a valid string that is not full keeps it valid: [remove_range],
    [truncate], [strip_prefix] and [strip_suffix] remove exactly what they say, or
    refuse with [InvalidName] and leave the string untouched precisely when the result
    would violate the rules of the kind. *)
Theorem semantic_string_remove `{Profile} `{SemanticKind} s b rest idx n bytes :
  repr s b rest -> 0 < zlength rest -> valid b -> 0 <= idx -> 0 <= n -> idx + n <= zlength b ->
  zlength bytes <= 123 ->
  let removed := take (Z.to_nat idx) b ++ drop (Z.to_nat (idx + n)) b in
  let truncated := take (Z.to_nat n) b in
  (exists r s', remove_range s idx n = Ret (r, s') /\
     match r with
     | Ok _ => as_bytes s' = removed /\ valid removed
     | Err InvalidName => s' = s /\ is_invalid_content removed = true
     | Err _ => False
     end) /\
  (exists r s', truncate s n = Ret (r, s') /\
     match r with
     | Ok _ => as_bytes s' = truncated /\ valid truncated
     | Err InvalidName => s' = s /\ is_invalid_content truncated = true
     | Err _ => False
     end) /\
  (exists r s', strip_prefix s bytes = Ret (r, s') /\
     match r with
     | Ok true => b = bytes ++ as_bytes s' /\ valid (as_bytes s')
     | Ok false => s' = s /\ ~ exists t, b = bytes ++ t
     | Err InvalidName => s' = s /\ exists t, b = bytes ++ t /\ is_invalid_content t = true
     | Err _ => False
     end) /\
  (exists r s', strip_suffix s bytes = Ret (r, s') /\
     match r with
     | Ok true => b = as_bytes s' ++ bytes /\ valid (as_bytes s')
     | Ok false => s' = s /\ ~ exists t, b = t ++ bytes
     | Err InvalidName => s' = s /\ exists t, b = t ++ bytes /\ is_invalid_content t = true
     | Err _ => False
     end).
Proof.
  intros Hr Hpos Hv Hi Hn Hb Hby. split_and!.
  - by apply (remove_range_valid s b rest).
  - apply (truncate_valid s b rest); [done..|lia].
  - by apply (strip_prefix_valid s b rest).
  - by apply (strip_suffix_valid s b rest).
Qed.

Lemma semantic_string_remove_witness :
  exists r s', truncate (example_string [97; 98]) 0 = Ret (r, s') /\
    match r with
    | Ok _ => as_bytes s' = [] /\ valid []
    | Err InvalidName => s' = example_string [97; 98] /\ is_invalid_content [] = true
    | Err _ => False
    end.
Proof.
  apply (semantic_string_remove (H := dev) (example_string [97; 98]) [97; 98] [0] 0 0 []).
  - apply example_string_repr. reflexivity.
  - reflexivity.
  - split; reflexivity.
  - lia.
  - lia.
  - change (zlength [97; 98]) with 2. lia.
  - discriminate.
Defined.
