(* ===== verification/SystemTypes.v ===== *)
(** * iceoryx2_bb/system_types/src: file names, file paths, paths, user and group names

    The kinds of semantic strings, and the functions that combine and take apart
    paths.  The path separator is the one of the POSIX platforms. *)

From S2P Require Import Prelude ByteString SemanticString.

Module B := ByteString.
Module S := SemanticString.

(* src/iceoryx2_pal/settings/src/lib.rs:20-20 PATH_SEPARATOR *)
Definition PATH_SEPARATOR : Z := 47.
(* src/iceoryx2_pal/settings/src/lib.rs:22-22 FILENAME_LENGTH *)
Definition FILENAME_LENGTH : Z := 255.
(* src/iceoryx2_pal/settings/src/lib.rs:23-23 PATH_LENGTH *)
Definition PATH_LENGTH : Z := 4096.
Definition DOT : Z := 46.

(** The characters all three kinds of paths refuse: NUL and control characters, and
    the double quote, asterisk, less, greater, question mark and bar. *)
(* src/iceoryx2_bb/system_types/src/path.rs:47-65 Path *)
Definition invalid_path_character (c : Z) : bool :=
  (c =? 0) || ((1 <=? c) && (c <=? 31)) || (c =? 60) || (c =? 62) || (c =? 34) ||
  (c =? 124) || (c =? 63) || (c =? 42).

(* src/iceoryx2_bb/system_types/src/file_name.rs:33-65 FileName *)
Definition FileName : SemanticKind := {|
  is_invalid_content v := bool_decide (v = [] \/ v = [DOT] \/ v = [DOT; DOT]);
  is_invalid_character c :=
    invalid_path_character c || (c =? 47) || (c =? 58) || (c =? 92);
|}.

(** Does [string] end with [suffix]? *)
Definition ends_with (string suffix : list Z) : bool :=
  bool_decide (drop (length string - length suffix) string = suffix).

(* src/iceoryx2_bb/system_types/src/file_path.rs:40-92 FilePath *)
Definition FilePath : SemanticKind := {|
  is_invalid_content string :=
    if bool_decide (string = [] \/ string = [DOT] \/ string = [DOT; DOT]) then true
    else if ends_with string [PATH_SEPARATOR] then true
    else if ends_with string [PATH_SEPARATOR; DOT] then true
    else ends_with string [PATH_SEPARATOR; DOT; DOT];
  is_invalid_character := invalid_path_character;
|}.

(* src/iceoryx2_bb/system_types/src/path.rs:41-79 Path *)
Definition Path : SemanticKind := {|
  is_invalid_content _ := false;
  is_invalid_character := invalid_path_character;
|}.

Definition lowercase_digit_or_dash (c : Z) : bool :=
  ((97 <=? c) && (c <=? 122)) || ((48 <=? c) && (c <=? 57)) || (c =? 45).

(* src/iceoryx2_bb/system_types/src/user_name.rs:31-56 UserName *)
Definition UserName : SemanticKind := {|
  is_invalid_content string :=
    match string with
    | [] => true
    | c :: _ => (c =? 45) || ((48 <=? c) && (c <=? 57))
    end;
  is_invalid_character c := negb (lowercase_digit_or_dash c);
|}.

(* src/iceoryx2_bb/system_types/src/group_name.rs:31-54 GroupName *)
Definition GroupName : SemanticKind := {|
  is_invalid_content string :=
    match string with
    | [] => true
    | c :: _ => (c =? 45) || ((48 <=? c) && (c <=? 57))
    end;
  is_invalid_character c := negb (lowercase_digit_or_dash c);
|}.

Definition last_is_separator (b : list Z) : bool :=
  match last b with Some c => c =? PATH_SEPARATOR | None => false end.

Section operations.
Context `{Profile}.

(* src/iceoryx2_bb/system_types/src/file_path.rs:96-115 from_path_and_file *)
Definition from_path_and_file (memory path file : list Z)
    : outcome (Result FixedSizeByteString SemanticStringError) :=
  let! s := B.new_unchecked PATH_LENGTH memory path in
  let! '(r, s) :=
    (if negb (bool_decide (path = [])) && negb (last_is_separator path)
     then B.push s PATH_SEPARATOR else Ret (Ok tt, s)) in
  match r with
  | Err _ => Ret (Err ExceedsMaximumLength)
  | Ok _ =>
      let! '(r, s) := B.push_bytes s file in
      match r with
      | Err _ => Ret (Err ExceedsMaximumLength)
      | Ok _ => Ret (Ok s)
      end
  end.

(** [for i in 0..len] with [pos = len - 1 - i]: [n] positions remain. *)
(* src/iceoryx2_bb/system_types/src/file_path.rs:117-127 rfind *)
Fixpoint rfind (bytes : list Z) (byte : Z) (n : nat) : option nat :=
  match n with
  | O => None
  | S n => if bool_decide (bytes !! n = Some byte) then Some n else rfind bytes byte n
  end.

(* src/iceoryx2_bb/system_types/src/file_path.rs:130-135 file_name *)
Definition file_name (bytes : list Z) : list Z :=
  match rfind bytes PATH_SEPARATOR (length bytes) with
  | None => bytes
  | Some pos => drop (pos + 1) bytes
  end.

(* src/iceoryx2_bb/system_types/src/file_path.rs:138-144 path *)
Definition path (bytes : list Z) : list Z :=
  match rfind bytes PATH_SEPARATOR (length bytes) with
  | None => []
  | Some O => take 1 bytes
  | Some pos => take pos bytes
  end.

(* src/iceoryx2_bb/system_types/src/path.rs:84-101 add_path_entry *)
Definition add_path_entry (s : FixedSizeByteString) (entry : list Z)
    : outcome (Result unit SemanticStringError * FixedSizeByteString) :=
  let! '(r, s) :=
    (if negb (B.is_empty s) && negb (last_is_separator (as_bytes s))
     then S.push (H0 := Path) s PATH_SEPARATOR else Ret (Ok tt, s)) in
  match r with
  | Err e => Ret (Err e, s)
  | Ok _ => S.push_bytes (H0 := Path) s entry
  end.

(* src/iceoryx2_bb/system_types/src/path.rs:103-109 is_absolute *)
Definition is_absolute (bytes : list Z) : bool :=
  match bytes with [] => false | c :: _ => c =? PATH_SEPARATOR end.

(** The bytes collected in [raw_path]. *)
(* src/iceoryx2_bb/system_types/src/path.rs:122-135 new_normalized *)
Fixpoint normalize (value : list Z) (previous_char_is_path_separator : bool) : list Z :=
  match value with
  | [] => []
  | c :: value' =>
      if bool_decide (value' = []) && (c =? PATH_SEPARATOR) then []
      else
        (if previous_char_is_path_separator && (c =? PATH_SEPARATOR) then [] else [c]) ++
        normalize value' (c =? PATH_SEPARATOR)
  end.

(** [raw_path] has [PATH_LENGTH] bytes; writing more panics. *)
(* src/iceoryx2_bb/system_types/src/path.rs:119-138 new_normalized *)
Definition new_normalized (memory value : list Z)
    : outcome (Result FixedSizeByteString SemanticStringError) :=
  let raw_path := normalize value false in
  if PATH_LENGTH <? zlength raw_path then Panic
  else S.new (H0 := Path) PATH_LENGTH memory raw_path.

(** [cur] is [raw_path[start_pos..i]]. *)
(* src/iceoryx2_bb/system_types/src/path.rs:144-161 entries *)
Fixpoint entries_loop (raw_path cur : list Z) : list (list Z) :=
  match raw_path with
  | [] => if bool_decide (cur = []) then [] else [cur]
  | c :: raw_path =>
      if c =? PATH_SEPARATOR then
        if bool_decide (cur = []) then entries_loop raw_path []
        else cur :: entries_loop raw_path []
      else entries_loop raw_path (cur ++ [c])
  end.

(** An entry longer than a file name makes [new_unchecked] panic. *)
(* src/iceoryx2_bb/system_types/src/path.rs:140-164 entries *)
Definition entries (raw_path : list Z) : outcome (list (list Z)) :=
  let l := entries_loop raw_path [] in
  if forallb (fun e => zlength e <=? FILENAME_LENGTH) l then Ret l else Panic.

(** Comparing a path with a slice compares the normalised forms. *)
(* src/iceoryx2_bb/system_types/src/path.rs:66-78 comparision *)
Definition comparision (memory lhs rhs : list Z) : outcome bool :=
  let! lhs_normalized := new_normalized memory lhs in
  match lhs_normalized with
  | Err _ => Ret false
  | Ok l =>
      let! rhs_normalized := new_normalized memory rhs in
      match rhs_normalized with
      | Err _ => Ret false
      | Ok r => Ret (bool_decide (as_bytes l = as_bytes r))
      end
  end.

End operations.


(** ** Lemmas *)

Lemma rfind_none bytes byte n : byte ∉ take n bytes -> rfind bytes byte n = None.
Proof.
  induction n as [|n IH]; intros Hn; [done|]. cbn. rewrite bool_decide_eq_false_2.
  - apply IH. intros Hin. apply Hn. apply list_elem_of_lookup in Hin as [i Ei].
    apply lookup_take_Some in Ei as [Ei Hi]. apply (list_elem_of_lookup_2 _ i).
    rewrite lookup_take_lt by lia. done.
  - intros E. apply Hn. apply (list_elem_of_lookup_2 _ n). by rewrite lookup_take_lt by lia.
Qed.

Lemma rfind_last p f byte :
  byte ∉ f -> rfind (p ++ byte :: f) byte (length (p ++ byte :: f)) = Some (length p).
Proof.
  intros Hf. rewrite length_app. simpl length.
  assert (Hgen : forall k, (k <= length f)%nat ->
    rfind (p ++ byte :: f) byte (length p + S k) = Some (length p)); [|by apply Hgen].
  induction k as [|k IH]; intros Hk.
  - rewrite Nat.add_1_r. cbn. rewrite bool_decide_eq_true_2; [done|].
    by rewrite lookup_app_r, Nat.sub_diag by done.
  - replace (length p + S (S k))%nat with (S (length p + S k)) by lia. cbn [rfind].
    rewrite bool_decide_eq_false_2; [apply IH; lia|]. intros E.
    rewrite lookup_app_r in E by lia. replace (length p + S k - length p)%nat with (S k) in E by lia.
    cbn in E. apply Hf. by eapply list_elem_of_lookup_2.
Qed.

Lemma file_name_join p f : PATH_SEPARATOR ∉ f -> file_name (p ++ PATH_SEPARATOR :: f) = f.
Proof.
  intros Hf. unfold file_name. rewrite rfind_last by done.
  rewrite drop_app_ge by lia. by replace (length p + 1 - length p)%nat with 1%nat by lia.
Qed.

Lemma path_join p f :
  PATH_SEPARATOR ∉ f -> path (p ++ PATH_SEPARATOR :: f) = if decide (p = []) then [PATH_SEPARATOR] else p.
Proof.
  intros Hf. unfold path. rewrite rfind_last by done. destruct (decide (p = [])) as [->|Hp]; [done|].
  destruct (length p) as [|n] eqn:En; [by apply nil_length_inv in En|].
  rewrite <-En. apply take_app_length.
Qed.

(** What [from_path_and_file] puts between the path and the file. *)
Definition joined (p f : list Z) : list Z :=
  (if bool_decide (p = []) || last_is_separator p then p else p ++ [PATH_SEPARATOR]) ++ f.

Section lemmas.
Context `{Profile}.

Lemma new_unchecked_repr cap memory bytes :
  0 < cap < 2 ^ 63 -> zlength memory = cap -> zlength bytes <= cap ->
  exists s rest, B.new_unchecked cap memory bytes = Ret s /\ repr s bytes rest /\ s.(CAPACITY) = cap.
Proof.
  intros Hc Hm Hb. unfold B.new_unchecked. rewrite (proj2 (Z.ltb_ge _ _)) by lia.
  destruct (bs_new_repr cap memory Hc Hm) as (s & rest & -> & Hr & Ec & Hl). checked.
  pose proof (repr_data _ _ _ Hr) as Ed. cbn in Ed. rewrite Ed.
  pose proof (zlength_nonneg bytes).
  pose proof (write_at_ok bytes [] (take (Z.to_nat (zlength bytes)) rest)
    (drop (Z.to_nat (zlength bytes)) rest)) as Ew. cbn [app] in Ew.
  rewrite take_drop in Ew. change (zlength (@nil Z)) with 0 in Ew.
  rewrite Ew by (apply zlength_take; lia). checked.
  destruct (repr_terminate s bytes (drop (Z.to_nat (zlength bytes)) rest) (zlength bytes))
    as (rest' & d & Et & Hr' & _).
  - rewrite zlength_drop by lia. lia.
  - lia.
  - done.
  - rewrite Ec in Et. rewrite Et. checked. by eexists _, rest'.
Qed.

Lemma push_bytes_ok s b rest bytes :
  repr s b rest -> bytes <> [] -> zlength bytes < 2 ^ 63 ->
  exists r s' rest', B.push_bytes s bytes = Ret (r, s') /\ s'.(CAPACITY) = s.(CAPACITY) /\
    match r with
    | Ok _ => repr s' (b ++ bytes) rest'
    | Err _ => s' = s /\ zlength rest < zlength bytes
    end.
Proof.
  intros Hr Hne Hb. pose proof Hr as [_ El Ec Hw _]. unfold B.push_bytes. rewrite El.
  assert (zlength bytes <> 0) by (by rewrite zlength_zero). pose proof (zlength_nonneg bytes).
  pose proof (zlength_nonneg b).
  destruct (Z.lt_ge_cases (zlength rest) (zlength bytes)) as [Hbig|Hfit].
  - rewrite (insert_bytes_full s b rest) by (done || lia). by eexists _, s, rest.
  - destruct (B.bs_insert_bytes_ok s b rest (zlength b) bytes Hr) as (s' & rest' & -> & Hr' & Ec' & _); [lia..|].
    eexists _, s', rest'. split; [done|]. split; [done|].
    unfold zlength in Hr'. rewrite Nat2Z.id, firstn_all, drop_all, app_nil_r in Hr'. done.
Qed.

Lemma from_path_and_file_ok memory p f :
  zlength memory = PATH_LENGTH -> zlength p <= PATH_LENGTH -> f <> [] -> zlength f < 2 ^ 63 ->
  exists r, from_path_and_file memory p f = Ret r /\
    match r with
    | Ok s => as_bytes s = joined p f
    | Err e => e = ExceedsMaximumLength /\ PATH_LENGTH < zlength (joined p f)
    end.
Proof.
  intros Hm Hp Hf Hfl. unfold from_path_and_file, joined.
  destruct (new_unchecked_repr PATH_LENGTH memory p) as (s & rest & -> & Hr & Ec); [done..|]. checked.
  rewrite <-negb_orb. pose proof (repr_capacity _ _ _ Hr) as Ecap. rewrite Ec in Ecap.
  destruct (_ || _); cbn [negb].
  - checked. destruct (push_bytes_ok s p rest f Hr Hf Hfl) as (r & s' & rest' & -> & _ & Hres). checked.
    destruct r as [[]|[]]; eexists; (split; [done|]).
    + by eapply repr_bytes.
    + split; [done|]. rewrite zlength_app. lia.
  - unfold B.push, B.insert. fold (B.push_bytes s [PATH_SEPARATOR]).
    destruct (push_bytes_ok s p rest [PATH_SEPARATOR] Hr) as (r & s1 & rest1 & -> & Ec1 & Hres); [done..|].
    change (zlength [PATH_SEPARATOR]) with 1 in Hres. checked. pose proof (zlength_nonneg f).
    assert (zlength f <> 0) by (by rewrite zlength_zero).
    destruct r as [[]|[]].
    2: { eexists. split; [done|]. split; [done|]. rewrite !zlength_app.
         change (zlength [PATH_SEPARATOR]) with 1. lia. }
    destruct (push_bytes_ok s1 _ rest1 f Hres Hf Hfl) as (r & s' & rest' & -> & _ & Hres'). checked.
    destruct r as [[]|[]]; eexists; (split; [done|]).
    + by eapply repr_bytes.
    + split; [done|]. pose proof (repr_capacity _ _ _ Hres) as Ecap1. rewrite Ec1, Ec in Ecap1.
      rewrite !zlength_app in *. lia.
Qed.

End lemmas.

Lemma invalid_file_character c :
  is_invalid_character (SemanticKind := FileName) c = false ->
  invalid_path_character c = false /\ c <> PATH_SEPARATOR.
Proof.
  cbn. intros Hc. apply orb_false_iff in Hc as [Hc _]. apply orb_false_iff in Hc as [Hc _].
  apply orb_false_iff in Hc as [Hc Hs]. split; [done|]. intros ->. done.
Qed.

(** The entries of a path do not depend on repeated or trailing separators. *)
Lemma entries_normalize v : forall prev cur,
  (prev = true -> cur = []) -> entries_loop (normalize v prev) cur = entries_loop v cur.
Proof.
  induction v as [|c v IH]; intros prev cur Hcur; [done|]. cbn [normalize].
  destruct (bool_decide (v = []) && (c =? PATH_SEPARATOR)) eqn:Elast.
  - apply andb_true_iff in Elast as [Ev Ec]. apply bool_decide_eq_true in Ev. subst v.
    cbn. rewrite Ec. by case_bool_decide.
  - destruct (c =? PATH_SEPARATOR) eqn:Ec; rewrite ?andb_true_r, ?andb_false_r.
    + destruct prev; cbn; rewrite Ec, ?IH by done.
      * by rewrite Hcur.
      * by case_bool_decide.
    + cbn. by rewrite Ec, IH.
Qed.

Lemma ends_with_inv s suffix : ends_with s suffix = true -> exists t, s = t ++ suffix.
Proof.
  unfold ends_with. intros He%bool_decide_eq_true.
  exists (take (length s - length suffix) s). rewrite <-He at 2. by rewrite take_drop.
Qed.

Lemma not_invalid `{SemanticKind} b :
  does_contain_invalid_characters b = false <-> Forall (fun c => is_invalid_character c = false) b.
Proof.
  induction b as [|c b IH]; cbn; [by split|]. rewrite Forall_cons, <-IH. apply orb_false_iff.
Qed.

Lemma normalize_shorter v : forall prev, zlength (normalize v prev) <= zlength v.
Proof.
  induction v as [|c v IH]; intros prev; [done|]. cbn [normalize]. rewrite zlength_cons.
  specialize (IH (c =? PATH_SEPARATOR)). pose proof (zlength_nonneg v).
  destruct (_ && _); [change (zlength (@nil Z)) with 0; lia|]. rewrite zlength_app.
  destruct (_ && _); [change (zlength (@nil Z)) with 0|change (zlength [c]) with 1]; lia.
Qed.

Lemma normalize_invalid `{SemanticKind} v : forall prev,
  does_contain_invalid_characters (normalize v prev) = true -> does_contain_invalid_characters v = true.
Proof.
  induction v as [|c v IH]; intros prev; [done|]. cbn [normalize].
  destruct (_ && _); [done|]. rewrite invalid_characters_app. cbn. intros Hi.
  apply orb_true_iff in Hi as [Hi|Hi]; apply orb_true_iff.
  - left. destruct (_ && _); cbn in Hi; [done|]. by rewrite orb_false_r in Hi.
  - right. by eapply IH.
Qed.

(** A file name appended to a directory does not end with a separator followed by dots. *)
Lemma ends_with_dots p f suffix :
  PATH_SEPARATOR ∉ f -> f <> [] -> f <> suffix -> Forall (eq DOT) suffix ->
  p = [] \/ last p = Some PATH_SEPARATOR ->
  ends_with (p ++ f) (PATH_SEPARATOR :: suffix) = false.
Proof.
  intros Hf Hne Hsuf Hdots Hp. apply not_true_is_false. intros (t & Et)%ends_with_inv.
  apply app_eq_inv in Et as [(k & -> & Ek)|(k & -> & Ek)].
  1: { destruct k as [|c k]; cbn in Ek.
       - subst f. apply Hf. left.
       - injection Ek as <- Ek. destruct k as [|d k _] using rev_ind; [by subst|].
         rewrite app_comm_cons, app_assoc, last_snoc in Hp.
         destruct Hp as [Hp|[= ->]]; [by destruct t|].
         rewrite Forall_forall in Hdots. specialize (Hdots PATH_SEPARATOR).
         rewrite Ek in Hdots. discriminate Hdots. rewrite !elem_of_app. left. right. left. }
  apply Hf. rewrite Ek. apply elem_of_app. right. left.
Qed.

Lemma file_path_content p f :
  is_invalid_content (SemanticKind := FileName) f = false -> PATH_SEPARATOR ∉ f ->
  p = [] \/ last p = Some PATH_SEPARATOR ->
  is_invalid_content (SemanticKind := FilePath) (p ++ f) = false.
Proof.
  cbn. intros Hc Hf Hp. apply bool_decide_eq_false in Hc.
  assert (Hf0 : f <> []) by tauto. assert (Hf1 : f <> [DOT]) by tauto.
  assert (Hf2 : f <> [DOT; DOT]) by tauto.
  rewrite bool_decide_eq_false_2.
  - rewrite !ends_with_dots; [done|done|done|..]; try done; repeat constructor.
  - intros Hpf. destruct Hp as [->|Hp]; [done|].
    destruct p as [|c p]; [done|]. assert (Hsep : PATH_SEPARATOR ∈ (c :: p) ++ f).
    { apply last_Some_elem_of in Hp. apply elem_of_app. by left. }
    destruct Hpf as [E|[E|E]]; rewrite E in Hsep;
      rewrite ?elem_of_cons, elem_of_nil in Hsep; intuition discriminate.
Qed.

Lemma joined_split p f : exists dir, joined p f = dir ++ f /\
  (dir = [] \/ last dir = Some PATH_SEPARATOR) /\ (dir = p \/ dir = p ++ [PATH_SEPARATOR]).
Proof.
  unfold joined. case_bool_decide as Hp; cbn; [exists p; auto|].
  destruct (last_is_separator p) eqn:El; (eexists; split; [done|]).
  - split; [right|by left]. unfold last_is_separator in El. destruct (last p) as [c|]; [|done].
    apply Z.eqb_eq in El. by subst.
  - split; [right; by rewrite last_snoc|by right].
Qed.

(** The directory part [path] gives back: one trailing separator is dropped, except
    from the root. *)
Definition directory (p : list Z) : list Z :=
  if last_is_separator p then
    let dir := take (length p - 1) p in if decide (dir = []) then [PATH_SEPARATOR] else dir
  else p.

Lemma joined_parts p f :
  PATH_SEPARATOR ∉ f -> file_name (joined p f) = f /\ path (joined p f) = directory p.
Proof.
  intros Hf. unfold joined, directory. destruct p as [|c p _] using rev_ind.
  { cbn. unfold file_name, path. rewrite rfind_none; [done|]. by rewrite firstn_all. }
  rewrite bool_decide_eq_false_2 by (by destruct p). cbn [orb]. unfold last_is_separator.
  rewrite last_snoc. destruct (Z.eqb_spec c PATH_SEPARATOR) as [->|Hc].
  - rewrite <-app_assoc. cbn [app]. rewrite file_name_join, path_join by done.
    rewrite length_app. cbn [length]. rewrite Nat.add_sub, take_app_length. done.
  - rewrite <-(app_assoc _ [PATH_SEPARATOR]). cbn [app]. rewrite file_name_join, path_join by done.
    split; [done|]. rewrite decide_False by (by destruct p). done.
Qed.

(** ** Properties *)

(** [FilePath::from_path_and_file] on a valid [Path] and a valid [FileName]: it
    either refuses because the joined path exceeds [PATH_LENGTH], or returns a valid
    [FilePath] whose [file_name] is the file and whose [path] is the path, less one
    trailing separator. *)
Theorem file_path_join `{Profile} memory p f :
  zlength memory = PATH_LENGTH -> zlength p <= PATH_LENGTH -> zlength f <= FILENAME_LENGTH ->
  valid (H0 := Path) p -> valid (H0 := FileName) f ->
  exists r, from_path_and_file memory p f = Ret r /\
    match r with
    | Ok s => valid (H0 := FilePath) (as_bytes s) /\
        file_name (as_bytes s) = f /\ path (as_bytes s) = directory p
    | Err e => e = ExceedsMaximumLength /\ PATH_LENGTH < zlength (joined p f)
    end.
Proof.
  intros Hm Hp Hf [Hpc _] [Hfc Hfi].
  apply not_invalid in Hpc, Hfc. rewrite Forall_forall in Hpc, Hfc.
  assert (Hsep : PATH_SEPARATOR ∉ f) by (intros Hin; by destruct (invalid_file_character _ (Hfc _ Hin))).
  assert (Hne : f <> []) by (intros ->; done).
  assert (zlength f < 2 ^ 63) by (unfold FILENAME_LENGTH in *; lia).
  destruct (from_path_and_file_ok memory p f) as (r & Er & Hr); [done..|].
  exists r. split; [done|]. destruct r as [s|e]; [|done]. rewrite Hr.
  split; [|by apply joined_parts].
  destruct (joined_split p f) as (dir & -> & Hlast & Hdir). split; [|by apply file_path_content].
  apply not_invalid, Forall_forall. intros c Hc. apply elem_of_app in Hc as [Hc|Hc].
  - destruct Hdir as [->| ->]; [by apply Hpc|].
    apply elem_of_app in Hc as [Hc|Hc]; [by apply Hpc|]. by apply list_elem_of_singleton in Hc as ->.
  - by apply (invalid_file_character c), Hfc.
Qed.

(** "/tmp" and "a" make "/tmp/a". *)
Lemma file_path_join_witness : exists r,
  from_path_and_file (H := dev) (replicate 4096 0) [47; 116; 109; 112] [97] = Ret r /\
  match r with
  | Ok s => valid (H0 := FilePath) (as_bytes s) /\
      file_name (as_bytes s) = [97] /\ path (as_bytes s) = directory [47; 116; 109; 112]
  | Err e => e = ExceedsMaximumLength /\
      PATH_LENGTH < zlength (joined [47; 116; 109; 112] [97])
  end.
Proof. by apply (file_path_join (replicate 4096 0)). Defined.

(** [Path::new_normalized] keeps the entries of a path: whatever separators are
    doubled or trailing, the normalised path (when it has no invalid character and is
    within [PATH_LENGTH]) has the same [entries] as the given one, is not longer, and
    never panics for a value of at most [PATH_LENGTH] bytes. *)
Theorem path_normalized_entries `{Profile} memory value :
  zlength memory = PATH_LENGTH -> zlength value <= PATH_LENGTH ->
  exists r, new_normalized memory value = Ret r /\
    match r with
    | Ok s => entries (as_bytes s) = entries value /\ zlength (as_bytes s) <= zlength value
    | Err e => e = InvalidCharacter /\
        does_contain_invalid_characters (H := Path) value = true
    end.
Proof.
  intros Hm Hv. pose proof (normalize_shorter value false) as Hlen. unfold new_normalized.
  rewrite (proj2 (Z.ltb_ge _ _)) by lia.
  destruct (S.new_ok (H0 := Path) PATH_LENGTH memory (normalize value false)) as (r & -> & Hr);
    [done|done|unfold PATH_LENGTH in *; lia|by right|].
  exists r. split; [done|]. destruct r as [s|[]].
  - destruct Hr as [-> _]. split; [|done]. unfold entries. by rewrite entries_normalize.
  - split; [done|]. by eapply normalize_invalid.
  - discriminate Hr.
  - lia.
Qed.

(** "/a//b/" is normalised. *)
Lemma path_normalized_entries_witness : exists r,
  new_normalized (H := dev) (replicate 4096 0) [47; 97; 47; 47; 98; 47] = Ret r /\
  match r with
  | Ok s => entries (as_bytes s) = entries [47; 97; 47; 47; 98; 47] /\ zlength (as_bytes s) <= 6
  | Err e => e = InvalidCharacter /\
      does_contain_invalid_characters (H := Path) [47; 97; 47; 47; 98; 47] = true
  end.
Proof. by apply (path_normalized_entries (replicate 4096 0) [47; 97; 47; 47; 98; 47]). Defined.

(** The normalised form is not canonical: "a//" is normalised to "a/", which is not
    its own normalised form, so the two paths do not compare equal to "a" and "a//"
    respectively although they name the same entries; and the root "/" is normalised to
    the empty path and compares equal to it. *)
Theorem path_normalized_not_canonical :
  let memory := replicate 4096 0 in
  normalize [97; 47; 47] false = [97; 47] /\ normalize [97; 47] false = [97] /\
  comparision (H := dev) memory [97; 47; 47] [97] = Ret false /\
  comparision (H := dev) memory [97; 47] [97] = Ret true /\
  comparision (H := dev) memory [PATH_SEPARATOR] [] = Ret true /\
  is_absolute [PATH_SEPARATOR] = true /\ is_absolute [] = false.
Proof. vm_compute. done. Qed.
