(* ===== verification/ZeroCopyConnection.v ===== *)
(** * iceoryx2_cal/src/zero_copy_connection: the connection of a sender and a receiver

    A connection carries offsets of samples: [receive_channel] from the sender to the
    receiver, [retrieve_channel] back.  Its operations are written against the queue
    interfaces [OverflowFifo] and [IndexFifo]; the POSIX shared memory connection
    ([posix_shared_memory.rs]) and the process-local one ([process_local.rs]) have the
    same send, receive, reclaim and release bodies and differ in how the two ports
    are set up and torn down. *)

From S2P Require Import Prelude Math Allocator QueueSpec IndexQueue OverflowQueue BumpAllocator.

Module I := IndexQueue.
Module O := OverflowQueue.
Module A := BumpAllocator.

(* src/iceoryx2_cal/src/zero_copy_connection/mod.rs:24-32 ZeroCopyCreationError *)
Inductive ZeroCopyCreationError :=
  InternalError | AnotherInstanceIsAlreadyConnected | ConnectionMaybeCorrupted |
  IncompatibleBufferSize | IncompatibleMaxBorrowedSampleSetting | IncompatibleOverflowSetting.

(* src/iceoryx2_cal/src/zero_copy_connection/mod.rs:42-46 ZeroCopySendError *)
Inductive ZeroCopySendError := ReceiveBufferFull | ClearRetrieveChannelBeforeSend.

(* src/iceoryx2_cal/src/zero_copy_connection/mod.rs:56-59 ZeroCopyReceiveError *)
Inductive ZeroCopyReceiveError := ReceiveWouldExceedMaxBorrowValue.

(* src/iceoryx2_cal/src/zero_copy_connection/mod.rs:80-83 ZeroCopyReleaseError *)
Inductive ZeroCopyReleaseError := RetrieveBufferFull.

(** The bits of the state word. *)
(* src/iceoryx2_cal/src/zero_copy_connection/posix_shared_memory.rs:84-89 State *)
Inductive State := None_ | Sender | Receiver | MarkedForDestruction.

(* src/iceoryx2_cal/src/zero_copy_connection/posix_shared_memory.rs:91-95 value *)
Definition value (s : State) : Z :=
  match s with None_ => 0 | Sender => 1 | Receiver => 2 | MarkedForDestruction => 128 end.

(* src/iceoryx2_cal/src/zero_copy_connection/posix_shared_memory.rs:137-144 SharedManagementData *)
Record Management (Q R : Type) := {
  receive_channel : Q;
  retrieve_channel : R;
  max_borrowed_samples : Z;
  state : Z;
  enable_safe_overflow : bool;
}.
Arguments receive_channel {Q R} _.
Arguments retrieve_channel {Q R} _.
Arguments max_borrowed_samples {Q R} _.
Arguments state {Q R} _.
Arguments enable_safe_overflow {Q R} _.

Section ports.
Context `{Profile} {Q R : Type} `{OverflowFifo Q} `{IndexFifo R}.
Implicit Types m : Management Q R.

Definition set_receive m q : Management Q R :=
  {| receive_channel := q; retrieve_channel := m.(retrieve_channel);
     max_borrowed_samples := m.(max_borrowed_samples); state := m.(state);
     enable_safe_overflow := m.(enable_safe_overflow) |}.

Definition set_retrieve m r : Management Q R :=
  {| receive_channel := m.(receive_channel); retrieve_channel := r;
     max_borrowed_samples := m.(max_borrowed_samples); state := m.(state);
     enable_safe_overflow := m.(enable_safe_overflow) |}.

Definition set_state m s : Management Q R :=
  {| receive_channel := m.(receive_channel); retrieve_channel := m.(retrieve_channel);
     max_borrowed_samples := m.(max_borrowed_samples); state := s;
     enable_safe_overflow := m.(enable_safe_overflow) |}.

(** *** The sender *)

(* src/iceoryx2_cal/src/zero_copy_connection/posix_shared_memory.rs:428-449 try_send *)
Definition try_send m (ptr : Z)
    : outcome (Result (option Z) ZeroCopySendError * Management Q R) :=
  let! l := fifo_len m.(retrieve_channel) in
  let! space_in_retrieve_channel := fifo_capacity m.(retrieve_channel) -u64 l in
  let! n := ofifo_len m.(receive_channel) in
  let! required := m.(max_borrowed_samples) +u64 n in
  if space_in_retrieve_channel <=? required then Ret (Err ClearRetrieveChannelBeforeSend, m)
  else
    let! full :=
      (if negb m.(enable_safe_overflow) then ofifo_is_full m.(receive_channel) else Ret false) in
    if (full : bool) then Ret (Err ReceiveBufferFull, m)
    else
      let! '(r, q) := ofifo_push m.(receive_channel) ptr in
      Ret (Ok r, set_receive m q).

(** [None]: the receive buffer is full and the call keeps waiting. *)
(* src/iceoryx2_cal/src/zero_copy_connection/posix_shared_memory.rs:451-464 blocking_send *)
Definition blocking_send m (ptr : Z)
    : outcome (option (Result (option Z) ZeroCopySendError * Management Q R)) :=
  let! wait :=
    (if negb m.(enable_safe_overflow) then ofifo_is_full m.(receive_channel) else Ret false) in
  if (wait : bool) then Ret None
  else let! r := try_send m ptr in Ret (Some r).

(* src/iceoryx2_cal/src/zero_copy_connection/posix_shared_memory.rs:466-471 reclaim *)
Definition reclaim m : outcome (option Z * Management Q R) :=
  let! '(r, q) := fifo_pop m.(retrieve_channel) in
  Ret (r, set_retrieve m q).

(** *** The receiver, with its [borrow_counter] *)

(* src/iceoryx2_cal/src/zero_copy_connection/posix_shared_memory.rs:527-541 receive *)
Definition receive m (borrow_counter : Z)
    : outcome (Result (option Z) ZeroCopyReceiveError * Management Q R * Z) :=
  if m.(max_borrowed_samples) <=? borrow_counter then
    Ret (Err ReceiveWouldExceedMaxBorrowValue, m, borrow_counter)
  else
    let! '(r, q) := ofifo_pop m.(receive_channel) in
    let m := set_receive m q in
    match r with
    | None => Ret (Ok None, m, borrow_counter)
    | Some v =>
        let! b := borrow_counter +u64 1 in
        Ret (Ok (Some v), m, b)
    end.

(* src/iceoryx2_cal/src/zero_copy_connection/posix_shared_memory.rs:543-554 release *)
Definition release m (borrow_counter ptr : Z)
    : outcome (Result unit ZeroCopyReleaseError * Management Q R * Z) :=
  let! '(r, q) := fifo_push m.(retrieve_channel) ptr in
  let m := set_retrieve m q in
  if (r : bool) then
    let! b := borrow_counter -u64 1 in
    Ret (Ok tt, m, b)
  else Ret (Err RetrieveBufferFull, m, borrow_counter).

(* src/iceoryx2_cal/src/zero_copy_connection/posix_shared_memory.rs:422-424 is_connected *)
Definition is_connected m : bool := m.(state) =? Z.lor (value Sender) (value Receiver).

End ports.

(** ** Setting a connection up in shared memory *)

(* src/iceoryx2_cal/src/zero_copy_connection/posix_shared_memory.rs:180-186 Builder *)
Record Builder := {
  b_buffer_size : Z;
  b_enable_safe_overflow : bool;
  b_max_borrowed_samples : Z;
}.

(* src/iceoryx2_cal/src/zero_copy_connection/posix_shared_memory.rs:321-329 Builder::new *)
Definition default_builder : Builder :=
  {| b_buffer_size := 4; b_enable_safe_overflow := false; b_max_borrowed_samples := 4 |}.

Definition Mgmt := Management O.OverflowQueue I.IndexQueue.

Section creation.
Context `{Profile}.
Implicit Types b : Builder.

(* src/iceoryx2_cal/src/zero_copy_connection/posix_shared_memory.rs:189-191 receive_channel_size *)
Definition receive_channel_size b : Z := b.(b_buffer_size).

(* src/iceoryx2_cal/src/zero_copy_connection/posix_shared_memory.rs:193-195 retrieve_channel_size *)
Definition retrieve_channel_size b : outcome Z :=
  let! n := b.(b_buffer_size) +u64 b.(b_max_borrowed_samples) in n +u64 1.

(* src/iceoryx2_cal/src/zero_copy_connection/posix_shared_memory.rs:147-165 SharedManagementData::new *)
Definition mgmt_new (receive_channel_buffer_size retrieve_channel_buffer_size : Z)
    (enable_safe_overflow : bool) (max_borrowed_samples : Z) : Mgmt :=
  {| receive_channel := O.new_uninit receive_channel_buffer_size;
     retrieve_channel := I.new_uninit retrieve_channel_buffer_size;
     max_borrowed_samples := max_borrowed_samples; state := value None_;
     enable_safe_overflow := enable_safe_overflow |}.

(** [size_of_self] is [size_of::<SharedManagementData>()]. *)
(* src/iceoryx2_cal/src/zero_copy_connection/posix_shared_memory.rs:167-176 const_memory_size *)
Definition const_memory_size (size_of_self receive_size retrieve_size : Z) : outcome Z :=
  let! a := I.const_memory_size retrieve_size in
  let! n := size_of_self +u64 a in
  let! c := O.const_memory_size receive_size in
  n +u64 c.

(** The owner writes the management data to [mgmt_ptr] and lets both channels
    allocate behind it. *)
(* src/iceoryx2_cal/src/zero_copy_connection/posix_shared_memory.rs:198-246 create_or_open_shm *)
Definition create_shm b (size_of_self mgmt_ptr : Z) : outcome Mgmt :=
  let! n := retrieve_channel_size b in
  let! shm_size := const_memory_size size_of_self (receive_channel_size b) n in
  let m := mgmt_new (receive_channel_size b) n b.(b_enable_safe_overflow)
             b.(b_max_borrowed_samples) in
  let! supplementary_ptr := mgmt_ptr +u64 size_of_self in
  let! supplementary_len := shm_size -u64 size_of_self in
  let allocator := A.new supplementary_ptr supplementary_len in
  let! '(r, q, allocator) := O.init m.(receive_channel) allocator in
  match r with
  | Err _ => Panic
  | Ok _ =>
      let m := set_receive m q in
      let! '(r, q, allocator) := I.init m.(retrieve_channel) allocator in
      match r with
      | Err _ => Panic
      | Ok _ => Ret (set_retrieve m q)
      end
  end.

(** The loop that waits for the owner: [observed] holds, for each iteration, whether
    [init_state] was initialized and the time [wait] reported; the result tells
    whether the loop ended on an initialized connection. *)
(* src/iceoryx2_cal/src/zero_copy_connection/posix_shared_memory.rs:255-262 create_or_open_shm *)
Fixpoint wait_for_initialization (observed : list (bool * Z)) : option bool :=
  match observed with
  | [] => None
  | (true, _) :: _ => Some true
  | (false, waited_ms) :: observed =>
      if waited_ms <? 10 then Some false else wait_for_initialization observed
  end.

(** The checks of a port that opens an existing connection. *)
(* src/iceoryx2_cal/src/zero_copy_connection/posix_shared_memory.rs:264-280 create_or_open_shm *)
Definition check_existing b (m : Mgmt) : outcome (Result unit ZeroCopyCreationError) :=
  if negb (m.(receive_channel).(O.capacity) =? receive_channel_size b) then
    Ret (Err IncompatibleBufferSize)
  else
    let! n := retrieve_channel_size b in
    if negb (m.(retrieve_channel).(I.capacity) =? n) then
      Ret (Err IncompatibleMaxBorrowedSampleSetting)
    else if negb (eqb m.(enable_safe_overflow) b.(b_enable_safe_overflow)) then
      Ret (Err IncompatibleOverflowSetting)
    else Ret (Ok tt).

(** [existing] is what the memory of an already existing connection holds once the
    waiting is over. *)
(* src/iceoryx2_cal/src/zero_copy_connection/posix_shared_memory.rs:197-285 create_or_open_shm *)
Definition create_or_open_shm b (size_of_self mgmt_ptr : Z) (existing : option Mgmt)
    : outcome (Result Mgmt ZeroCopyCreationError) :=
  match existing with
  | None => let! m := create_shm b size_of_self mgmt_ptr in Ret (Ok m)
  | Some m =>
      let! r := check_existing b m in
      match r with Ok _ => Ret (Ok m) | Err e => Ret (Err e) end
  end.

(** [reserve_port] and [cleanup_shared_memory] without interference: the loop of
    compare-and-swaps of the concurrent model below runs to its end. *)
(* src/iceoryx2_cal/src/zero_copy_connection/posix_shared_memory.rs:287-317 reserve_port *)
Definition reserve_port (current new_state : Z) : Result Z ZeroCopyCreationError :=
  if current =? value None_ then Ok new_state
  else if negb (Z.land current new_state =? 0) then Err AnotherInstanceIsAlreadyConnected
  else if negb (Z.land current (value MarkedForDestruction) =? 0) then Err InternalError
  else Ok (Z.lor current new_state).

(* src/iceoryx2_cal/src/zero_copy_connection/posix_shared_memory.rs:353-382 create_sender, create_receiver *)
Definition create_port b (size_of_self mgmt_ptr : Z) (port : State) (existing : option Mgmt)
    : outcome (Result Mgmt ZeroCopyCreationError) :=
  let! r := create_or_open_shm b size_of_self mgmt_ptr existing in
  match r with
  | Err e => Ret (Err e)
  | Ok m =>
      match reserve_port m.(state) (value port) with
      | Ok s => Ret (Ok (set_state m s))
      | Err e => Ret (Err e)
      end
  end.

End creation.

(** ** The concurrent connection

    The sender and the receiver interleave at the granularity of their queue
    operations, which are linearizable (see [IndexQueue] and [OverflowQueue]).  A
    receiver operation is a single queue operation; [try_send] reads the length of
    one queue after the other before it pushes.  [held] are the offsets the receiver
    has received and not released, [refused] records a [release] that failed,
    [pushes] counts the calls of [push], and [drained] that a [reclaim] returned
    nothing since the last push to the receive channel. *)

Inductive sender_pc :=
| SIdle
| SSpace (ptr space : Z)
| SFull (ptr : Z)
| SPush (ptr : Z).

Record link (Q R : Type) := {
  mgmt : Management Q R;
  borrow_counter : Z;
  held : list Z;
  spc : sender_pc;
  drained : bool;
  refused : bool;
  pushes : Z;
  panicked : bool;
}.
Arguments mgmt {Q R} _.
Arguments borrow_counter {Q R} _.
Arguments held {Q R} _.
Arguments spc {Q R} _.
Arguments drained {Q R} _.
Arguments refused {Q R} _.
Arguments pushes {Q R} _.
Arguments panicked {Q R} _.

Inductive action :=
| ActReclaim
| ActSend (ptr : Z)
| ActSendStep
| ActReceive
| ActRelease (i : nat).

Section concurrent.
Context `{Profile} {Q R : Type} `{OverflowFifo Q} `{IndexFifo R}.
Implicit Types s : link Q R.

Definition link_panic s : link Q R :=
  {| mgmt := s.(mgmt); borrow_counter := s.(borrow_counter); held := s.(held); spc := s.(spc);
     drained := s.(drained); refused := s.(refused); pushes := s.(pushes); panicked := true |}.

Definition set_sender s m pc d n : link Q R :=
  {| mgmt := m; borrow_counter := s.(borrow_counter); held := s.(held); spc := pc;
     drained := d; refused := s.(refused); pushes := n; panicked := s.(panicked) |}.

Definition set_receiver s m b h f n : link Q R :=
  {| mgmt := m; borrow_counter := b; held := h; spc := s.(spc);
     drained := s.(drained); refused := f; pushes := n; panicked := s.(panicked) |}.

Definition or_panic {A} s (o : outcome A) (k : A -> link Q R) : link Q R :=
  match o with Ret a => k a | Panic => link_panic s end.

(** One step of [try_send]. *)
(* src/iceoryx2_cal/src/zero_copy_connection/posix_shared_memory.rs:428-449 try_send *)
Definition send_step s : option (link Q R) :=
  let m := s.(mgmt) in
  match s.(spc) with
  | SIdle => None
  | SSpace ptr space =>
      Some (or_panic s (let! n := ofifo_len m.(receive_channel) in
                        m.(max_borrowed_samples) +u64 n) (fun required =>
        if space <=? required then set_sender s m SIdle s.(drained) s.(pushes)
        else if m.(enable_safe_overflow) then set_sender s m (SPush ptr) s.(drained) s.(pushes)
        else set_sender s m (SFull ptr) s.(drained) s.(pushes)))
  | SFull ptr =>
      Some (or_panic s (ofifo_is_full m.(receive_channel)) (fun full =>
        set_sender s m (if full then SIdle else SPush ptr) s.(drained) s.(pushes)))
  | SPush ptr =>
      Some (or_panic s (ofifo_push m.(receive_channel) ptr) (fun '(_, q) =>
        set_sender s (set_receive m q) SIdle false (s.(pushes) + 1)))
  end.

(** [disciplined]: the sender starts to send only after it has drained the retrieve
    channel. *)
Definition act (disciplined : bool) (a : action) s : option (link Q R) :=
  let m := s.(mgmt) in
  if s.(panicked) then None
  else match a with
  | ActReclaim =>
      match s.(spc) with
      | SIdle =>
          Some (or_panic s (reclaim m) (fun '(r, m) =>
            set_sender s m SIdle (match r with None => true | Some _ => s.(drained) end)
              s.(pushes)))
      | _ => None
      end
  | ActSend ptr =>
      match s.(spc) with
      | SIdle =>
          if disciplined && negb s.(drained) then None
          else
            Some (or_panic s (let! l := fifo_len m.(retrieve_channel) in
                              fifo_capacity m.(retrieve_channel) -u64 l) (fun space =>
              set_sender s m (SSpace ptr space) s.(drained) s.(pushes)))
      | _ => None
      end
  | ActSendStep => send_step s
  | ActReceive =>
      Some (or_panic s (receive m s.(borrow_counter)) (fun '(r, m, b) =>
        set_receiver s m b
          (match r with Ok (Some v) => s.(held) ++ [v] | _ => s.(held) end)
          s.(refused) s.(pushes)))
  | ActRelease i =>
      match s.(held) !! i with
      | None => None
      | Some v =>
          Some (or_panic s (release m s.(borrow_counter) v) (fun '(r, m, b) =>
            match r with
            | Ok _ => set_receiver s m b (delete i s.(held)) s.(refused) (s.(pushes) + 1)
            | Err _ => set_receiver s m b s.(held) true (s.(pushes) + 1)
            end))
      end
  end.

Definition begin (m : Management Q R) : link Q R :=
  {| mgmt := m; borrow_counter := 0; held := []; spc := SIdle; drained := false;
     refused := false; pushes := 0; panicked := false |}.

End concurrent.

(** ** Lemmas *)

Section lemmas.
Context `{Profile} {Q R : Type} `{OverflowFifo Q} `{IndexFifo R}.
Implicit Types (m : Management Q R) (s : link Q R).

Definition received m : list Z := ofifo_contents m.(receive_channel).
Definition returned m : list Z := fifo_contents m.(retrieve_channel).
Definition buffer_size m : Z := ofifo_capacity m.(receive_channel).
Definition settings m : Z * Z * bool :=
  (buffer_size m, m.(max_borrowed_samples), m.(enable_safe_overflow)).

(** A connection with the channel sizes of the builder, of which the receiver holds [b]
    samples. *)
Record wf m (b : Z) : Prop := {
  wf_rx : ofifo_wf m.(receive_channel);
  wf_rt : fifo_wf m.(retrieve_channel);
  wf_size : fifo_capacity m.(retrieve_channel) = buffer_size m + m.(max_borrowed_samples) + 1;
  wf_width : fifo_capacity m.(retrieve_channel) < 2 ^ 62;
  wf_borrow : 0 <= b <= m.(max_borrowed_samples);
}.

(** The positions of both channels stay below 2^64. *)
Definition fits m : Prop :=
  ofifo_pushes m.(receive_channel) < 2 ^ 63 /\ fifo_pushes m.(retrieve_channel) < 2 ^ 63.

(** The samples that left the sender and did not come back. *)
Definition in_flight m (b : Z) : Z := zlength (received m) + zlength (returned m) + b.

Lemma wf_bounds m b : wf m b ->
  zlength (received m) <= buffer_size m < 2 ^ 62 /\
  zlength (returned m) <= fifo_capacity m.(retrieve_channel) /\ 0 <= buffer_size m.
Proof.
  intros [Hq Hr Es Ew Hb]. pose proof (ofifo_bounded _ Hq). pose proof (fifo_bounded _ Hr).
  unfold received, returned, buffer_size in *. lia.
Qed.

Lemma push_receive_ok m b ptr :
  wf m b -> fits m ->
  exists old q, ofifo_push m.(receive_channel) ptr = Ret (old, q) /\
    wf (set_receive m q) b /\ returned (set_receive m q) = returned m /\
    (old, received (set_receive m q)) = spec_push_overflow (buffer_size m) (received m) ptr /\
    buffer_size (set_receive m q) = buffer_size m /\
    ofifo_pushes q <= ofifo_pushes m.(receive_channel) + 1.
Proof.
  intros Hwf [Hf _]. pose proof (wf_bounds m b Hwf) as Hb. pose proof Hwf as [Hq Hr Es Ew Hbo].
  unfold buffer_size in *.
  destruct (ofifo_push_ok m.(receive_channel) ptr Hq) as (old & q & -> & Hq' & Espec & Ec & Hp); [lia|].
  exists old, q. split; [done|]. split_and!; try done; [|lia].
  split; try done. cbn. unfold buffer_size in *. cbn. lia.
Qed.

Lemma spec_push_overflow_length {A} cap (l : list A) v old l' :
  0 <= cap -> zlength l <= cap -> (old, l') = spec_push_overflow cap l v ->
  zlength l <= zlength l' <= zlength l + 1 /\ zlength l' <= cap /\
  (old = None <-> zlength l < cap) /\ (old = None -> l' = l ++ [v]).
Proof.
  unfold spec_push_overflow. intros Hc Hl E. destruct (_ <? _) eqn:El; bool_to_prop.
  - injection E as -> ->. rewrite zlength_app. change (zlength [v]) with 1. split_and!; (lia || done).
  - destruct l as [|o l]; injection E as -> ->.
    + change (zlength (@nil A)) with 0 in *. split_and!; try lia; try done. split; [done|lia].
    + rewrite zlength_app, zlength_cons in *. change (zlength [v]) with 1.
      split_and!; try lia; try done. split; [done|lia].
Qed.

(** Does the receive channel refuse another sample? *)
Lemma refuses_ok m b :
  wf m b -> fits m ->
  exists full, (if negb m.(enable_safe_overflow) then ofifo_is_full m.(receive_channel)
                else Ret false) = Ret full /\
    (full = true -> m.(enable_safe_overflow) = false /\ zlength (received m) = buffer_size m) /\
    (full = false -> m.(enable_safe_overflow) = false -> zlength (received m) < buffer_size m).
Proof.
  intros Hwf [Hf _]. pose proof (wf_bounds m b Hwf) as Hb. pose proof (wf_rx m b Hwf) as Hq.
  destruct (enable_safe_overflow m); cbn [negb]; [by exists false|].
  rewrite ofifo_is_full_ok by (done || unfold buffer_size in *; lia).
  fold (received m) (buffer_size m). eexists. split; [done|].
  split; intros Ef; bool_to_prop; [done|lia].
Qed.

Lemma try_send_ok m b ptr :
  wf m b -> fits m ->
  exists r m', try_send m ptr = Ret (r, m') /\ wf m' b /\ settings m' = settings m /\
    ofifo_pushes m'.(receive_channel) <= ofifo_pushes m.(receive_channel) + 1 /\
    m'.(retrieve_channel) = m.(retrieve_channel) /\
    match r with
    | Ok old =>
        (old, received m') = spec_push_overflow (buffer_size m) (received m) ptr /\
        returned m' = returned m /\ buffer_size m' = buffer_size m /\
        (enable_safe_overflow m = false -> old = None) /\
        zlength (received m) + zlength (returned m) + m.(max_borrowed_samples) <
          fifo_capacity m.(retrieve_channel)
    | Err ReceiveBufferFull => m' = m /\ m.(enable_safe_overflow) = false /\
        zlength (received m) = buffer_size m /\ returned m = []
    | Err ClearRetrieveChannelBeforeSend => m' = m /\
        buffer_size m < zlength (received m) + zlength (returned m)
    end.
Proof.
  intros Hwf Hf. pose proof (wf_bounds m b Hwf) as Hb. pose proof Hwf as [Hq Hr Es Ew Hbo].
  pose proof (zlength_nonneg (returned m)). pose proof (zlength_nonneg (received m)).
  pose proof Hf as [Hf1 Hf2].
  unfold try_send. rewrite fifo_len_ok, ofifo_len_ok by done.
  fold (returned m) (received m). checked.
  destruct (_ <=? _) eqn:Espace; bool_to_prop.
  { eexists _, m. split; [done|]. split; [done|]. split_and!; try done; lia. }
  destruct (refuses_ok m b Hwf Hf) as (full & -> & Hfull & Hroom). checked. destruct full.
  { destruct Hfull as [Eo El]; [done|]. eexists _, m. split_and!; try done; [lia|]. split_and!; try done.
    apply zlength_zero. lia. }
  destruct (push_receive_ok m b ptr Hwf Hf) as (old & q & -> & Hwf' & Er & Espec & Ec & Hpush).
  checked. eexists _, _. split; [done|]. split; [done|].
  assert (Ese : settings (set_receive m q) = settings m) by (unfold settings; by rewrite Ec).
  split_and!; try done; [|lia]. intros Eo.
  apply (spec_push_overflow_length _ _ _ _ _ (proj2 (proj2 Hb)) (proj1 (proj1 Hb)) Espec).
  by apply Hroom.
Qed.

Lemma reclaim_ok m b :
  wf m b ->
  exists r m', reclaim m = Ret (r, m') /\ wf m' b /\ settings m' = settings m /\
    m'.(receive_channel) = m.(receive_channel) /\ received m' = received m /\
    buffer_size m' = buffer_size m /\ (r, returned m') = spec_pop (returned m) /\
    fifo_pushes m'.(retrieve_channel) = fifo_pushes m.(retrieve_channel).
Proof.
  intros Hwf. pose proof Hwf as [Hq Hr Es Ew Hbo]. unfold reclaim.
  destruct (fifo_pop_ok _ Hr) as (r & q & -> & Hq' & Espec & Ec & Ep). checked.
  eexists _, _. split; [done|]. split_and!; try done. split; try done; cbn; unfold buffer_size; cbn.
  - by rewrite Ec.
  - by rewrite Ec.
Qed.

Lemma receive_ok m b :
  wf m b ->
  exists r m' b', receive m b = Ret (r, m', b') /\ wf m' b' /\ settings m' = settings m /\
    returned m' = returned m /\ buffer_size m' = buffer_size m /\
    ofifo_pushes m'.(receive_channel) = ofifo_pushes m.(receive_channel) /\
    m'.(retrieve_channel) = m.(retrieve_channel) /\
    match r with
    | Ok (Some v) => received m = v :: received m' /\ b' = b + 1
    | Ok None => received m = [] /\ received m' = [] /\ b' = b
    | Err ReceiveWouldExceedMaxBorrowValue => m' = m /\ b' = b /\ b = m.(max_borrowed_samples)
    end.
Proof.
  intros Hwf. pose proof (wf_bounds m b Hwf). pose proof Hwf as [Hq Hr Es Ew Hbo]. unfold receive.
  destruct (_ <=? _) eqn:Eb; bool_to_prop.
  { eexists _, m, b. split; [done|]. split_and!; try done. lia. }
  destruct (ofifo_pop_ok _ Hq) as (r & q & -> & Hq' & Espec & Ec & Ep). checked.
  assert (Hwf' : forall b', 0 <= b' <= max_borrowed_samples m -> wf (set_receive m q) b').
  { intros b' Hb'. split; try done; cbn; unfold buffer_size in *; cbn; lia. }
  assert (Ese : settings (set_receive m q) = settings m)
    by (unfold settings, buffer_size; cbn; by rewrite Ec).
  destruct r as [v|].
  - apply spec_pop_some in Espec. checked. eexists _, _, _. split; [done|].
    split_and!; try done; apply Hwf'; lia.
  - apply spec_pop_none in Espec as [E1 E2]. eexists _, _, _. split; [done|].
    split_and!; try done. by apply Hwf'.
Qed.

(** [release] of a sample that was received and not yet released. *)
Lemma zc_release_ok m b ptr :
  wf m b -> fits m -> 0 < b ->
  exists r m' b', release m b ptr = Ret (r, m', b') /\ wf m' b' /\ settings m' = settings m /\
    received m' = received m /\ buffer_size m' = buffer_size m /\
    m'.(receive_channel) = m.(receive_channel) /\
    fifo_pushes m'.(retrieve_channel) <= fifo_pushes m.(retrieve_channel) + 1 /\
    match r with
    | Ok _ => returned m' = returned m ++ [ptr] /\ b' = b - 1
    | Err RetrieveBufferFull => b' = b /\ returned m' = returned m /\
        zlength (returned m) = fifo_capacity m.(retrieve_channel)
    end.
Proof.
  intros Hwf [_ Hf] Hb. pose proof (wf_bounds m b Hwf). pose proof Hwf as [Hq Hr Es Ew Hbo]. unfold release.
  destruct (fifo_push_ok _ ptr Hr) as (r & q & -> & Hq' & Espec & Ec & Hp); [lia|]. checked.
  assert (Hwf' : forall b', 0 <= b' <= max_borrowed_samples m -> wf (set_retrieve m q) b').
  { intros b' Hb'. split; try done; cbn; unfold buffer_size in *; cbn; lia. }
  unfold spec_push in Espec. fold (returned m) in Espec.
  destruct (_ <? _) eqn:El; bool_to_prop; injection Espec as -> Er.
  - checked. eexists _, _, _. split; [done|]. split_and!; try done; [|cbn; lia]. apply Hwf'. lia.
  - eexists _, _, _. split; [done|]. split_and!; try done; [by apply Hwf'|cbn; lia|lia].
Qed.

End lemmas.

(** ** The disciplined sender *)

Section disciplined.
Context `{Profile} {Q R : Type} `{OverflowFifo Q} `{IndexFifo R}.
Implicit Types (m : Management Q R) (s : link Q R).

(** Once the sender has drained the retrieve channel, one more sample fits into it. *)
Record Inv s : Prop := {
  inv_panicked : s.(panicked) = false;
  inv_refused : s.(refused) = false;
  inv_wf : wf s.(mgmt) s.(borrow_counter);
  inv_held : s.(borrow_counter) = zlength s.(held);
  inv_room : in_flight s.(mgmt) s.(borrow_counter) + (if s.(drained) then 1 else 0) <=
    fifo_capacity s.(mgmt).(retrieve_channel);
  inv_pc : s.(spc) <> SIdle -> s.(drained) = true;
  inv_rx_pushes : ofifo_pushes s.(mgmt).(receive_channel) <= 1 + s.(pushes);
  inv_rt_pushes : fifo_pushes s.(mgmt).(retrieve_channel) <= 1 + s.(pushes);
}.

Lemma inv_fits s : Inv s -> s.(pushes) <= 2 ^ 62 -> fits s.(mgmt).
Proof. intros [] Hp. unfold fits. lia. Qed.

(** The states in which the sender has only moved its program counter. *)
Lemma inv_sender_pc s pc :
  Inv s -> s.(drained) = true \/ pc = SIdle ->
  Inv (set_sender s s.(mgmt) pc s.(drained) s.(pushes)).
Proof. intros [] Hpc. split; cbn; try done. intros Hne. by destruct Hpc. Qed.

Lemma inv_reclaim s r m :
  Inv s -> s.(spc) = SIdle -> reclaim s.(mgmt) = Ret (r, m) ->
  Inv (set_sender s m SIdle (match r with None => true | Some _ => s.(drained) end) s.(pushes)).
Proof.
  intros [Ep Er Hwf Eh Hroom Hpc Hp1 Hp2] Epc E.
  destruct (reclaim_ok _ _ Hwf) as (r' & m' & E' & Hwf' & Ese & Erxc & Erx & Ebuf & Espec & Epush).
  rewrite E in E'. injection E' as <- <-.
  pose proof (wf_bounds _ _ Hwf') as (Hb1 & Hb2 & Hb3). pose proof (wf_size _ _ Hwf') as Es'.
  pose proof (wf_borrow _ _ Hwf') as Hbo.
  pose proof (wf_size _ _ Hwf) as Es. rewrite Ebuf in *.
  injection Ese as _ Em _.
  split; cbn; try done; try (rewrite ?Erxc, ?Epush; lia).
  unfold in_flight in *. destruct r as [v|].
  - apply spec_pop_some in Espec. rewrite Espec, Erx, zlength_cons in *. lia.
  - apply spec_pop_none in Espec as [_ ->]. change (zlength (@nil Z)) with 0. lia.
Qed.

Lemma inv_push s ptr old q :
  Inv s -> s.(pushes) <= 2 ^ 62 -> s.(drained) = true ->
  ofifo_push s.(mgmt).(receive_channel) ptr = Ret (old, q) ->
  Inv (set_sender s (set_receive s.(mgmt) q) SIdle false (s.(pushes) + 1)).
Proof.
  intros Hi Hle Hd E. pose proof (inv_fits s Hi Hle) as Hf.
  destruct Hi as [Ep Er Hwf Eh Hroom Hpc Hp1 Hp2].
  destruct (push_receive_ok _ _ ptr Hwf Hf) as (old' & q' & E' & Hwf' & Ert & Espec & Ec & Hp).
  rewrite E in E'. injection E' as <- <-. pose proof (wf_bounds _ _ Hwf) as (Hb1 & Hb2 & Hb3).
  destruct (spec_push_overflow_length _ _ _ _ _ Hb3 (proj1 Hb1) Espec) as (Hl & _).
  rewrite Hd in Hroom. split; cbn; try done; try lia.
  unfold in_flight in *. rewrite Ert. lia.
Qed.

Lemma zc_inv_receive s :
  Inv s -> exists r m b, receive s.(mgmt) s.(borrow_counter) = Ret (r, m, b) /\
    Inv (set_receiver s m b (match r with Ok (Some v) => s.(held) ++ [v] | _ => s.(held) end)
      s.(refused) s.(pushes)).
Proof.
  intros [Ep Er Hwf Eh Hroom Hpc Hp1 Hp2].
  destruct (receive_ok _ _ Hwf) as (r & m & b & E & Hwf' & _ & Ert & Ebuf & Epush & Ertc & Hr).
  exists r, m, b. split; [done|]. unfold in_flight in Hroom.
  destruct r as [[v|]|[]]; destruct Hr as (Erx & Hr); split; cbn; try done;
    unfold in_flight; rewrite ?Ertc, ?Ert, ?Epush; try lia.
  - rewrite zlength_app. change (zlength [v]) with 1. lia.
  - rewrite Erx, zlength_cons in Hroom. lia.
  - destruct Hr as [Hr ->]. rewrite Erx in Hroom. rewrite Hr. done.
  - destruct Hr as [-> _]. by rewrite Erx.
Qed.

Lemma zc_inv_release s i v :
  Inv s -> s.(pushes) <= 2 ^ 62 -> s.(held) !! i = Some v ->
  exists m b, release s.(mgmt) s.(borrow_counter) v = Ret (Ok tt, m, b) /\
    Inv (set_receiver s m b (delete i s.(held)) s.(refused) (s.(pushes) + 1)).
Proof.
  intros Hi Hle Ei. pose proof (inv_fits s Hi Hle) as Hf.
  destruct Hi as [Ep Er Hwf Eh Hroom Hpc Hp1 Hp2]. unfold in_flight in Hroom.
  assert (Hlen : zlength s.(held) = 1 + zlength (delete i s.(held))).
  { unfold zlength. rewrite length_delete by done. apply lookup_lt_Some in Ei. lia. }
  pose proof (zlength_nonneg (delete i s.(held))). pose proof (zlength_nonneg (received s.(mgmt))).
  destruct (zc_release_ok _ _ v Hwf Hf) as (r & m & b & E & Hwf' & Ese & Erx & Ebuf & Erxc & Epush & Hr); [lia|].
  destruct r as [[]|[]]; [|exfalso; destruct s.(drained); lia].
  exists m, b. split; [done|]. destruct Hr as [Ert ->].
  assert (Ecap : fifo_capacity m.(retrieve_channel) = fifo_capacity s.(mgmt).(retrieve_channel)).
  { rewrite (wf_size _ _ Hwf'), (wf_size _ _ Hwf). injection Ese as -> -> _. done. }
  split; cbn; try done; unfold in_flight; rewrite ?Erxc; try lia.
  rewrite Erx, Ert, zlength_app, Ecap. change (zlength [v]) with 1. lia.
Qed.

Lemma send_step_inv s s' : Inv s -> s.(pushes) <= 2 ^ 62 -> send_step s = Some s' -> Inv s'.
Proof.
  intros Hi Hle E. pose proof (inv_fits s Hi Hle) as Hf. pose proof (inv_wf s Hi) as Hwf.
  pose proof (wf_bounds _ _ Hwf) as Hb. pose proof (wf_borrow _ _ Hwf) as Hbo.
  pose proof (wf_width _ _ Hwf) as Hw. pose proof (wf_size _ _ Hwf) as Es.
  unfold send_step in E. pose proof (inv_pc s Hi) as Hd.
  destruct s.(spc) as [|ptr space|ptr|ptr] eqn:Epc; [done|..]; specialize (Hd ltac:(done)).
  - rewrite ofifo_len_ok in E by apply Hwf. fold (received s.(mgmt)) in E. revert E. checked. cbn.
    destruct (_ <=? _); [|destruct (enable_safe_overflow _)]; intros [= <-]; apply inv_sender_pc; auto.
  - rewrite ofifo_is_full_ok in E by (apply Hwf || (unfold buffer_size, fits in *; lia)).
    injection E as <-. apply inv_sender_pc; auto.
  - destruct (push_receive_ok _ _ ptr Hwf Hf) as (old & q & Eq & _). rewrite Eq in E.
    injection E as <-. by eapply inv_push.
Qed.

Lemma zc_act_inv a s s' : act true a s = Some s' -> Inv s -> s.(pushes) <= 2 ^ 62 -> Inv s'.
Proof.
  intros E Hi Hle. unfold act in E. rewrite (inv_panicked s Hi) in E. pose proof (inv_wf s Hi) as Hwf.
  destruct a as [|ptr| | |i].
  - destruct s.(spc) eqn:Epc; try done.
    destruct (reclaim_ok _ _ Hwf) as (r & m & Er & _). rewrite Er in E. injection E as <-.
    by eapply inv_reclaim.
  - destruct s.(spc) eqn:Epc; try done. destruct s.(drained) eqn:Ed; [|done]. cbn in E.
    rewrite fifo_len_ok in E by apply Hwf. pose proof (wf_bounds _ _ Hwf) as Hb.
    unfold returned in Hb. rewrite outcome_bind_ret, usub_ok in E by lia. injection E as <-.
    rewrite <-Ed. apply inv_sender_pc; auto.
  - by eapply send_step_inv.
  - destruct (zc_inv_receive s Hi) as (r & m & b & Er & Hi'). rewrite Er in E. by injection E as <-.
  - destruct (s.(held) !! i) as [v|] eqn:Ei; [|done].
    destruct (zc_inv_release s i v Hi Hle Ei) as (m & b & Er & Hi'). rewrite Er in E. by injection E as <-.
Qed.

Lemma act_pushes d a s s' : act d a s = Some s' -> s.(pushes) <= s'.(pushes).
Proof.
  unfold act, send_step, or_panic. intros E.
  repeat (case_match; simplify_eq; cbn; try lia).
Qed.

Lemma zc_reachable_inv m s :
  wf m 0 -> received m = [] -> returned m = [] ->
  ofifo_pushes m.(receive_channel) <= 1 -> fifo_pushes m.(retrieve_channel) <= 1 ->
  rtc (act_step (act true)) (begin m) s -> s.(pushes) <= 2 ^ 62 -> Inv s.
Proof.
  intros Hwf Erx Ert Hp1 Hp2 Hr Hle.
  apply (rtc_bounded_invariant (act_step (act true)) pushes (2 ^ 62) Inv (begin m) s); try done.
  - intros a b [x b' E]. by eapply act_pushes.
  - intros a b [x b' E] Hb Hi. eapply zc_act_inv; [done..|]. apply act_pushes in E. lia.
  - split; cbn; try done. unfold in_flight. rewrite Erx, Ert. change (zlength (@nil Z)) with 0.
    pose proof (wf_bounds _ _ Hwf). pose proof (wf_size _ _ Hwf). pose proof (wf_borrow _ _ Hwf). lia.
Qed.

End disciplined.

(** ** Ports that come and go

    Any number of threads reserve and clean up the two ports of one connection; they
    share the state word.  [removed] counts the calls of [SharedMemory::remove]. *)

Definition port_state (is_sender : bool) : State := if is_sender then Sender else Receiver.

Record word := { bits : Z; removed : Z }.

Inductive port_pc :=
| PIdle
| PReserve (is_sender : bool) (current_state : Z)
| PConnected (is_sender : bool)
| PCleanup (is_sender : bool) (current_state : Z).

Inductive port_action := PortCreate (is_sender : bool) | PortDrop | PortStep.

(* src/iceoryx2_cal/src/zero_copy_connection/posix_shared_memory.rs:295-316 reserve_port *)
Definition reserve_step (g : word) (p : bool) (current_state : Z) : word * port_pc :=
  let new_state := value (port_state p) in
  if g.(bits) =? current_state then
    ({| bits := Z.lor current_state new_state; removed := g.(removed) |}, PConnected p)
  else
    let v := g.(bits) in
    if negb (Z.land v new_state =? 0) then (g, PIdle)
    else if negb (Z.land v (value MarkedForDestruction) =? 0) then (g, PIdle)
    else (g, PReserve p v).

(* src/iceoryx2_cal/src/zero_copy_connection/posix_shared_memory.rs:106-133 cleanup_shared_memory *)
Definition cleanup_step (g : word) (p : bool) (current_state : Z) : word * port_pc :=
  let state_to_remove := value (port_state p) in
  let new_state :=
    if current_state =? state_to_remove then value MarkedForDestruction
    else Z.land current_state (255 - state_to_remove) in
  if g.(bits) =? current_state then
    ({| bits := new_state;
        removed := g.(removed) + (if new_state =? value MarkedForDestruction then 1 else 0) |},
     PIdle)
  else (g, PCleanup p g.(bits)).

(** [PortDrop] loads the word before the loop. *)
(* src/iceoryx2_cal/src/zero_copy_connection/posix_shared_memory.rs:97-105 cleanup_shared_memory *)
Definition port_act (a : port_action) (g : word) (pc : port_pc) : option (word * port_pc) :=
  match a, pc with
  | PortCreate p, PIdle => Some (g, PReserve p (value None_))
  | PortDrop, PConnected p => Some (g, PCleanup p g.(bits))
  | PortStep, PReserve p c => Some (reserve_step g p c)
  | PortStep, PCleanup p c => Some (cleanup_step g p c)
  | _, _ => None
  end.

Definition ports_begin (n : nat) : word * list port_pc :=
  ({| bits := value None_; removed := 0 |}, replicate n PIdle).

(** The ports a thread has connected and not yet disconnected. *)
Definition owns (pc : port_pc) : list bool :=
  match pc with PConnected p | PCleanup p _ => [p] | _ => [] end.

Definition word_ports (b : Z) : list bool :=
  (if b =? 1 then [true] else []) ++ (if b =? 2 then [false] else []) ++
  (if b =? 3 then [true; false] else []).

Definition reserve_ok (pc : port_pc) : Prop :=
  match pc with
  | PReserve p c => c = 0 \/ c = value (port_state (negb p))
  | _ => True
  end.

Record ports_inv (s : word * list port_pc) : Prop := {
  pi_bits : s.1.(bits) = 0 \/ s.1.(bits) = 1 \/ s.1.(bits) = 2 \/ s.1.(bits) = 3 \/ s.1.(bits) = 128;
  pi_owned : s.2 ≫= owns ≡ₚ word_ports s.1.(bits);
  pi_removed : s.1.(removed) = if s.1.(bits) =? 128 then 1 else 0;
  pi_reserve : Forall reserve_ok s.2;
}.

Lemma word_ports_owner ps i pc p b :
  ps ≫= owns ≡ₚ word_ports b -> ps !! i = Some pc -> p ∈ owns pc -> p ∈ word_ports b.
Proof.
  intros Hp Ei Hin. rewrite <-Hp. apply list_elem_of_bind. exists pc. split; [done|].
  by eapply list_elem_of_lookup_2.
Qed.

Lemma ports_update g ps i pc g' pc' :
  ports_inv (g, ps) -> ps !! i = Some pc ->
  g'.(bits) = 0 \/ g'.(bits) = 1 \/ g'.(bits) = 2 \/ g'.(bits) = 3 \/ g'.(bits) = 128 ->
  word_ports g'.(bits) ++ owns pc ≡ₚ word_ports g.(bits) ++ owns pc' ->
  g'.(removed) = (if g'.(bits) =? 128 then 1 else 0) -> reserve_ok pc' ->
  ports_inv (g', <[i := pc']> ps).
Proof.
  intros [Hb Ho Hr Hres] Ei Hb' Ho' Hr' Hok. cbn in *. split; cbn; try done.
  - apply (Permutation_app_inv_r (owns pc)). rewrite bind_insert_perm by done.
    by rewrite Ho, Ho'.
  - by apply Forall_insert.
Qed.

Lemma ports_step s s' : act_step (iact port_act) s s' -> ports_inv s -> ports_inv s'.
Proof.
  intros [[i a] t E] Hi. apply iact_inv in E as (pc & pc' & Ei & E & E2).
  destruct s as [g ps], t as [g' ps']. cbn [fst snd] in *. subst ps'.
  pose proof Hi as [Hb Ho Hr Hres]. cbn [fst snd] in *.
  pose proof (word_ports_owner ps i pc) as Hown. rewrite Forall_forall in Hres.
  pose proof (Hres pc (list_elem_of_lookup_2 _ _ _ Ei)) as Hok.
  assert (Hin : forall p, p ∈ owns pc -> p ∈ word_ports g.(bits)) by (intros p; by apply Hown).
  destruct a as [p| |], pc as [|p' c|p'|p' c]; try done; cbn in E.
  - injection E as <- <-. eapply ports_update; try done; by left.
  - injection E as <- <-. by eapply ports_update.
  - unfold reserve_step in E. destruct (Z.eqb_spec g.(bits) c) as [Ec|Hc].
    + injection E as <- <-. rewrite Ec in *. eapply ports_update; try done; cbn; rewrite ?Ec, ?Hr;
        cbn in Hok; destruct Hok as [->| ->], p'; cbn; try done; auto; apply Permutation_swap.
    + destruct Hb as [Hb|[Hb|[Hb|[Hb|Hb]]]], p'; rewrite Hb in E; cbn in E; injection E as <- <-;
        eapply ports_update; try done; cbn; rewrite ?Hb; auto.
  - specialize (Hin p' ltac:(left)). unfold cleanup_step in E.
    destruct (Z.eqb_spec g.(bits) c) as [Ec|Hc].
    + subst c. destruct Hb as [Hb|[Hb|[Hb|[Hb|Hb]]]], p'; rewrite Hb in Hin; cbn in Hin;
        rewrite ?elem_of_cons, elem_of_nil in Hin; try (by intuition);
        rewrite Hb in E; cbn in E; injection E as <- <-;
        eapply ports_update; try done; cbn; rewrite ?Hr, ?Hb; cbn; auto; apply Permutation_swap.
    + injection E as <- <-. by eapply ports_update.
Qed.

Lemma ports_reachable n s : rtc (act_step (iact port_act)) (ports_begin n) s -> ports_inv s.
Proof.
  intros Hr. eapply (rtc_invariant (act_step (iact port_act))); [apply ports_step|done|].
  split; cbn; auto.
  - assert (E : replicate n PIdle ≫= owns = []) by (clear; by induction n). by rewrite E.
  - by apply Forall_replicate.
Qed.

(** ** Setting up the channels *)

Section setup.
Context `{Profile}.

(** The memory computed by [const_memory_size] is enough for both channels. *)
Lemma create_shm_ok b size_of_self mgmt_ptr :
  0 <= b.(b_buffer_size) < 2 ^ 56 -> 0 <= b.(b_max_borrowed_samples) < 2 ^ 56 ->
  0 <= size_of_self < 2 ^ 56 -> 0 <= mgmt_ptr < 2 ^ 62 ->
  exists m, create_shm b size_of_self mgmt_ptr = Ret m /\ wf m 0 /\ state m = value None_ /\
    received m = [] /\ returned m = [] /\ buffer_size m = b.(b_buffer_size) /\
    max_borrowed_samples m = b.(b_max_borrowed_samples) /\
    enable_safe_overflow m = b.(b_enable_safe_overflow) /\
    ofifo_pushes m.(receive_channel) <= 1 /\ fifo_pushes m.(retrieve_channel) <= 1.
Proof.
  intros Hb Hm Hs Hp. unfold create_shm, retrieve_channel_size, const_memory_size,
    O.const_memory_size, I.const_memory_size, receive_channel_size. checked.
  unfold O.init. cbn [mgmt_new receive_channel O.new_uninit O.is_memory_initialized O.capacity].
  checked.
  destruct (A.allocate_room (A.new (mgmt_ptr + size_of_self)
    (size_of_self + (8 * (b_buffer_size b + b_max_borrowed_samples b + 1) + 8 - 1) +
     (8 * (b_buffer_size b + 1) + 8 - 1) - size_of_self)) (8 * (b_buffer_size b + 1)) 3)
    as (c1 & e1 & E1 & He1); [cbn; lia..|].
  change (2 ^ 3) with 8 in *. cbn [Allocator.allocate A.bump_base_allocator]. rewrite E1. checked.
  unfold I.init. cbn [mgmt_new set_receive retrieve_channel I.new_uninit I.is_memory_initialized I.capacity].
  checked.
  destruct (A.allocate_room (A.set_current_position (A.new (mgmt_ptr + size_of_self)
    (size_of_self + (8 * (b_buffer_size b + b_max_borrowed_samples b + 1) + 8 - 1) +
     (8 * (b_buffer_size b + 1) + 8 - 1) - size_of_self)) e1)
     (8 * (b_buffer_size b + b_max_borrowed_samples b + 1)) 3)
    as (c2 & e2 & E2 & He2); [cbn in *; lia..|].
  change (2 ^ 3) with 8 in *. cbn [Allocator.allocate A.bump_base_allocator]. rewrite E2. checked.
  eexists. split; [done|]. split_and!; try done.
  split; cbn; unfold buffer_size; cbn; try lia.
  - split; cbn; try lia. unfold zlength. rewrite length_replicate. lia.
  - split; cbn; try lia. unfold zlength. rewrite length_replicate. lia.
Qed.

(** A port of a new connection. *)
Lemma create_port_new_ok b size_of_self mgmt_ptr p :
  0 <= b.(b_buffer_size) < 2 ^ 56 -> 0 <= b.(b_max_borrowed_samples) < 2 ^ 56 ->
  0 <= size_of_self < 2 ^ 56 -> 0 <= mgmt_ptr < 2 ^ 62 ->
  exists m, create_port b size_of_self mgmt_ptr p None = Ret (Ok m) /\ wf m 0 /\
    state m = value p /\ received m = [] /\ returned m = [] /\
    settings m = (b.(b_buffer_size), b.(b_max_borrowed_samples), b.(b_enable_safe_overflow)) /\
    ofifo_pushes m.(receive_channel) <= 1 /\ fifo_pushes m.(retrieve_channel) <= 1.
Proof.
  intros Hb Hm Hs Hp. destruct (create_shm_ok b size_of_self mgmt_ptr Hb Hm Hs Hp) as
    (m & E & Hwf & Est & Erx & Ert & Ebuf & Emax & Eov & Hp1 & Hp2).
  unfold create_port, create_or_open_shm. rewrite E. checked. rewrite Est. cbn.
  eexists. split; [done|].
  assert (Ese : settings (set_state m (value p)) = settings m) by done.
  unfold settings in Ese at 2. rewrite Ese, Ebuf, Emax, Eov.
  split_and!; try done. destruct Hwf. by split.
Qed.

End setup.

(** ** Properties *)

(** C14: The operations of a connection, each run by itself, when the samples in flight fit
    into the retrieve channel (as after creation) and both channels have seen fewer than
    2^63 pushes: every operation returns, keeps that bound, and behaves as its
    specification.  [try_send] demands a drain exactly when the samples on their way to
    and from the receiver exceed the buffer size; otherwise it refuses a full buffer
    without overflow, and appends to the receive channel in all other cases, handing back
    the oldest sample on overflow.  [blocking_send] keeps waiting exactly while the buffer
    is full without overflow, and then acts as [try_send], which does not find it full.
    [reclaim] and [receive] take the oldest sample; [receive] refuses exactly at the
    borrow limit, even when there is nothing to receive; [release] of a borrowed sample
    always succeeds. *)
Theorem zero_copy_operations `{Profile} {Q R} `{OverflowFifo Q} `{IndexFifo R}
    (m : Management Q R) b ptr :
  wf m b -> fits m -> in_flight m b <= fifo_capacity m.(retrieve_channel) ->
  let ok m' b' := wf m' b' /\ in_flight m' b' <= fifo_capacity m'.(retrieve_channel) in
  let moving := zlength (received m) + zlength (returned m) in
  let full := m.(enable_safe_overflow) = false /\ zlength (received m) = buffer_size m in
  (exists r m', try_send m ptr = Ret (r, m') /\ ok m' b /\
    match r with
    | Ok old => moving <= buffer_size m /\ ~ full /\
        (old, received m') = spec_push_overflow (buffer_size m) (received m) ptr /\
        returned m' = returned m /\ (enable_safe_overflow m = false -> old = None)
    | Err ReceiveBufferFull => m' = m /\ moving <= buffer_size m /\ full
    | Err ClearRetrieveChannelBeforeSend => m' = m /\ buffer_size m < moving /\ returned m <> []
    end) /\
  (exists o, blocking_send m ptr = Ret o /\
    match o with
    | None => full
    | Some (r, m') => ~ full /\ try_send m ptr = Ret (r, m') /\ r <> Err ReceiveBufferFull
    end) /\
  (exists r m', reclaim m = Ret (r, m') /\ ok m' b /\
    received m' = received m /\ (r, returned m') = spec_pop (returned m)) /\
  (exists r m' b', receive m b = Ret (r, m', b') /\ ok m' b' /\ returned m' = returned m /\
    match r with
    | Ok (Some v) => b < m.(max_borrowed_samples) /\ received m = v :: received m' /\ b' = b + 1
    | Ok None => b < m.(max_borrowed_samples) /\ received m = [] /\ received m' = [] /\ b' = b
    | Err _ => m' = m /\ b' = b /\ b = m.(max_borrowed_samples)
    end) /\
  (0 < b -> exists m', release m b ptr = Ret (Ok tt, m', b - 1) /\ ok m' (b - 1) /\
    received m' = received m /\ returned m' = returned m ++ [ptr]).
Proof.
  intros Hwf Hf Hfl ok moving full. pose proof (wf_bounds m b Hwf) as (Hb1 & Hb2 & Hb3).
  pose proof (wf_size _ _ Hwf) as Es. pose proof (wf_borrow _ _ Hwf) as Hbo. unfold ok, in_flight in *.
  split; [|split; [|split; [|split]]].
  - destruct (try_send_ok m b ptr Hwf Hf) as (r & m' & E & Hwf' & Ese & _ & _ & Hr).
    exists r, m'. split; [done|]. destruct r as [old|[]].
    + destruct Hr as (Espec & Ert & Ec & Hov & Hroom).
      destruct (spec_push_overflow_length _ _ _ _ _ Hb3 (proj1 Hb1) Espec) as (Hl & _ & Hold & _).
      pose proof (wf_size _ _ Hwf'). injection Ese as _ Em _.
      split; [split; [done|rewrite Ert; lia]|]. split_and!; try done; [lia|].
      intros [Eo Efull]. apply Hov, Hold in Eo. lia.
    + destruct Hr as (-> & Eo & Ef & E0). split; [done|]. split; [done|]. split; [|done].
      unfold moving. rewrite E0. change (zlength (@nil Z)) with 0. lia.
    + destruct Hr as (-> & Hr). split; [done|]. split; [done|]. split; [done|]. intros E0. rewrite E0 in Hr.
      change (zlength (@nil Z)) with 0 in Hr. lia.
  - unfold blocking_send. destruct (refuses_ok m b Hwf Hf) as (w & -> & Hw & Hn). checked.
    destruct w; [eexists; split; [done|by apply Hw]|].
    destruct (try_send_ok m b ptr Hwf Hf) as (r & m' & -> & _ & _ & _ & _ & Hr). checked.
    eexists. split; [done|]. assert (Hnf : ~ full) by (intros [Eo Ef]; specialize (Hn eq_refl Eo); lia).
    split; [done|]. split; [done|]. intros ->. destruct Hr as (_ & ? & ? & _). by apply Hnf.
  - destruct (reclaim_ok m b Hwf) as (r & m' & E & Hwf' & Ese & _ & Erx & Ec & Espec & _).
    exists r, m'. split; [done|]. split; [|done]. split; [done|]. rewrite Erx.
    pose proof (wf_size _ _ Hwf'). injection Ese as _ Em _.
    destruct r as [v|]; [apply spec_pop_some in Espec; rewrite Espec, zlength_cons in *; lia|].
    apply spec_pop_none in Espec as [E1 ->]. rewrite E1 in *. lia.
  - destruct (receive_ok m b Hwf) as (r & m' & b' & E & Hwf' & _ & Ert & Ec & _ & Ertc & Hr).
    exists r, m', b'. split; [done|]. rewrite Ert, Ertc.
    assert (Hlt : r <> Err ReceiveWouldExceedMaxBorrowValue -> b < m.(max_borrowed_samples)).
    { unfold receive in E. destruct (_ <=? _) eqn:El in E; [by injection E as <- _ _|lia]. }
    destruct r as [[v|]|[]]; destruct Hr as (Erx & Hr); (split; [split; [done|]|split; [done|by auto]]).
    + subst b'. rewrite Erx, zlength_cons in *. lia.
    + destruct Hr as [-> ->]. rewrite Erx in *. lia.
    + destruct Hr as [-> _]. by rewrite Erx.
  - intros Hpos. destruct (zc_release_ok m b ptr Hwf Hf Hpos) as (r & m' & b' & E & Hwf' & Ese & Erx & Ec & _ & _ & Hr).
    destruct r as [[]|[]]; [|pose proof (zlength_nonneg (received m)); lia]. destruct Hr as [Ert ->].
    exists m'. split; [done|]. split; [|done]. split; [done|]. rewrite Erx, Ert, zlength_app.
    change (zlength [ptr]) with 1. pose proof (wf_size _ _ Hwf'). injection Ese as _ Em _. lia.
Qed.

(** The examples run in the development profile. *)
#[local] Instance example_profile : Profile := dev.

(** A connection in shared memory with a buffer of one sample, one borrowed sample and
    safe overflow. *)
Definition example_mgmt : Mgmt :=
  match create_shm {| b_buffer_size := 1; b_enable_safe_overflow := true;
                      b_max_borrowed_samples := 1 |} 128 4096 with
  | Ret m => m
  | Panic => mgmt_new 0 0 false 0
  end.

Lemma example_mgmt_ok :
  wf example_mgmt 0 /\ received example_mgmt = [] /\ returned example_mgmt = [].
Proof.
  destruct (create_shm_ok {| b_buffer_size := 1; b_enable_safe_overflow := true;
    b_max_borrowed_samples := 1 |} 128 4096) as (m & E & Hm); [cbn; lia..|].
  unfold example_mgmt. rewrite E. split_and!; apply Hm.
Qed.

Lemma zero_copy_operations_witness :
  exists m', try_send example_mgmt 7 = Ret (Ok None, m') /\ received m' = [7] /\
    exists r m'' b'', receive m' 0 = Ret (r, m'', b'') /\
      match r with
      | Ok (Some v) => 0 < m'.(max_borrowed_samples) /\ received m' = v :: received m'' /\ b'' = 0 + 1
      | Ok None => 0 < m'.(max_borrowed_samples) /\ received m' = [] /\ received m'' = [] /\ b'' = 0
      | Err _ => m'' = m' /\ b'' = 0 /\ 0 = m'.(max_borrowed_samples)
      end.
Proof.
  destruct example_mgmt_ok as (Hwf & Erx & Ert).
  destruct (zero_copy_operations example_mgmt 0 7 Hwf) as ((r & m' & E & [Hwf' Hfl] & Hr) & _);
    [split; vm_compute; done|vm_compute; done|].
  assert (Er : try_send example_mgmt 7 = Ret (Ok None, match try_send example_mgmt 7 with Ret x => x.2 | Panic => example_mgmt end))
    by (vm_compute; reflexivity).
  rewrite E in Er. injection Er as ->. destruct Hr as (_ & _ & Espec & _).
  exists m'. split; [done|]. split; [rewrite Erx in Espec; cbn in Espec; by injection Espec|].
  destruct (zero_copy_operations m' 0 7 Hwf') as (_ & _ & _ & (r & m'' & b'' & E' & _ & _ & Hr) & _);
    [|done|by exists r, m'', b''].
  assert (Em : m' = match try_send example_mgmt 7 with Ret x => x.2 | Panic => m' end) by (by rewrite E).
  rewrite Em. split; vm_compute; done.
Defined.

(** C8: Under any interleaving of the queue operations of sender and receiver: if the
    sender drains the retrieve channel before each send, no operation panics and no
    [release] is ever refused, although [try_send] reads the lengths of the two
    channels at different times. *)
Theorem zero_copy_release_never_refused `{Profile} {Q R} `{OverflowFifo Q} `{IndexFifo R}
    (m : Management Q R) s :
  wf m 0 -> received m = [] -> returned m = [] ->
  ofifo_pushes m.(receive_channel) <= 1 -> fifo_pushes m.(retrieve_channel) <= 1 ->
  rtc (act_step (act true)) (begin m) s -> s.(pushes) <= 2 ^ 62 ->
  s.(panicked) = false /\ s.(refused) = false /\
  zlength s.(held) <= s.(mgmt).(max_borrowed_samples) /\
  zlength (received s.(mgmt)) + zlength (returned s.(mgmt)) + zlength s.(held) <=
    fifo_capacity s.(mgmt).(retrieve_channel).
Proof.
  intros Hwf Erx Ert Hp1 Hp2 Hr Hle.
  destruct (zc_reachable_inv m s Hwf Erx Ert Hp1 Hp2 Hr Hle) as [Ep Er Hwf' Eh Hroom _ _ _].
  split_and!; try done; pose proof (wf_borrow _ _ Hwf'); unfold in_flight in *; [lia|].
  destruct s.(drained); lia.
Qed.

(** The receiver drains the receive channel between the two reads of a send. *)
Definition race : list action :=
  [ActSend 1; ActSendStep; ActSendStep; ActReceive;
   ActSend 2; ActSendStep; ActSendStep;
   ActSend 3; ActRelease 0; ActReceive; ActSendStep; ActSendStep;
   ActSend 4; ActRelease 0; ActReceive; ActSendStep; ActSendStep;
   ActRelease 0; ActReceive; ActRelease 0].

Definition disciplined_race : list action :=
  [ActReclaim; ActSend 1; ActSendStep; ActSendStep; ActReceive;
   ActReclaim; ActSend 2; ActRelease 0; ActSendStep; ActSendStep; ActReceive; ActRelease 0].

Lemma zero_copy_release_never_refused_witness :
  exists s, run_schedule (act true) disciplined_race (begin example_mgmt) = Some s /\
    returned s.(mgmt) = [1; 2] /\ s.(refused) = false.
Proof.
  eexists. split; [vm_compute; reflexivity|]. split; [vm_compute; reflexivity|].
  destruct example_mgmt_ok as (Hwf & Erx & Ert).
  apply (zero_copy_release_never_refused example_mgmt _ Hwf Erx Ert); [vm_compute; done..| |vm_compute; done].
  apply (run_schedule_reachable _ disciplined_race). vm_compute. reflexivity.
Defined.

(** A sender that sends samples it loaned in advance, without draining the retrieve
    channel in between, can overfill the connection: [try_send] reads the length of
    the retrieve channel before the length of the receive channel, and the receiver
    moves samples from one to the other in between.  In this interleaving of four
    sends a [release] of a borrowed sample fails with [RetrieveBufferFull], which
    [Subscriber::release_sample] answers with a fatal panic. *)
Theorem zero_copy_race_refuses_release :
  exists s, rtc (act_step (act false)) (begin example_mgmt) s /\ s.(refused) = true /\
    s.(held) = [4] /\ returned s.(mgmt) = [1; 2; 3].
Proof.
  eexists. split; [apply (run_schedule_reachable _ race); vm_compute; reflexivity|].
  vm_compute. done.
Qed.

(** C15: However many threads create and drop ports of one connection, at every moment at
    most one sender and one receiver are connected; the shared memory is removed at
    most once, only after both are gone, and nobody connects to it afterwards. *)
Theorem zero_copy_ports_exclusive n s :
  rtc (act_step (iact port_act)) (ports_begin n) s ->
  (forall i j p, s.2 !! i = Some (PConnected p) -> s.2 !! j = Some (PConnected p) -> i = j) /\
  s.1.(removed) <= 1 /\
  (s.1.(removed) = 1 <-> s.1.(bits) = value MarkedForDestruction) /\
  (forall i p, s.2 !! i = Some (PConnected p) ->
    Z.land s.1.(bits) (value (port_state p)) <> 0 /\ s.1.(removed) = 0).
Proof.
  intros Hr. destruct (ports_reachable n s Hr) as [Hb Ho Hrm _].
  assert (Hnd : NoDup (s.2 ≫= owns)).
  { rewrite Ho. destruct Hb as [->|[->|[->|[->| ->]]]]; cbn; repeat constructor;
      rewrite ?elem_of_cons, elem_of_nil; intuition discriminate. }
  split_and!.
  - intros i j p Ei Ej. destruct (decide (i = j)) as [|Hne]; [done|].
    by destruct (bind_lookup_two owns s.2 i j _ _ p p Ei Ej Hne ltac:(left) ltac:(left) Hnd).
  - rewrite Hrm. destruct (_ =? _); lia.
  - rewrite Hrm. cbn. destruct (Z.eqb_spec (bits s.1) 128) as [E|E]; [done|]. split; [done|]. by intros ?%E.
  - intros i p Ei. pose proof (word_ports_owner s.2 i _ p _ Ho Ei ltac:(left)) as Hin.
    rewrite Hrm. destruct Hb as [Hb|[Hb|[Hb|[Hb|Hb]]]]; rewrite Hb in *; cbn in *;
      rewrite ?elem_of_cons, elem_of_nil in Hin; destruct p; intuition discriminate.
Qed.

(** A sender and a receiver connect, a second sender fails, both leave. *)
Definition ports_schedule : list (nat * port_action) :=
  [(0%nat, PortCreate true); (1%nat, PortCreate false); (0%nat, PortStep);
   (1%nat, PortStep); (2%nat, PortCreate true); (1%nat, PortStep); (2%nat, PortStep);
   (0%nat, PortDrop); (1%nat, PortDrop); (0%nat, PortStep); (1%nat, PortStep); (1%nat, PortStep)].

Lemma zero_copy_ports_exclusive_witness :
  exists s, run_schedule (iact port_act) ports_schedule (ports_begin 3) = Some s /\
    s.1.(bits) = value MarkedForDestruction /\ s.1.(removed) = 1.
Proof.
  eexists. split; [vm_compute; reflexivity|]. split; [vm_compute; reflexivity|].
  apply (zero_copy_ports_exclusive 3); [|vm_compute; reflexivity].
  apply (run_schedule_reachable _ ports_schedule). vm_compute. reflexivity.
Defined.

(** Creating a port: in new shared memory the segment of [const_memory_size] bytes is
    large enough for both channels (no fatal panic) and yields an empty connection of
    the requested sizes with that port reserved.  Opening an existing connection
    changes nothing but the state word, and succeeds exactly when buffer size, borrow
    limit and overflow setting agree, the port is free and the connection is not being
    cleaned up. *)
Theorem zero_copy_create_port `{Profile} b size_of_self mgmt_ptr is_sender :
  0 <= b.(b_buffer_size) < 2 ^ 56 -> 0 <= b.(b_max_borrowed_samples) < 2 ^ 56 ->
  0 <= size_of_self < 2 ^ 56 -> 0 <= mgmt_ptr < 2 ^ 62 ->
  let p := port_state is_sender in
  (exists m, create_port b size_of_self mgmt_ptr p None = Ret (Ok m) /\ wf m 0 /\
    state m = value p /\ received m = [] /\ returned m = [] /\
    buffer_size m = b.(b_buffer_size) /\
    max_borrowed_samples m = b.(b_max_borrowed_samples) /\
    enable_safe_overflow m = b.(b_enable_safe_overflow)) /\
  (forall m k, wf m k ->
    exists r, create_port b size_of_self mgmt_ptr p (Some m) = Ret r /\
    (forall m', r = Ok m' <->
      m' = set_state m (Z.lor (state m) (value p)) /\ buffer_size m = b.(b_buffer_size) /\
      max_borrowed_samples m = b.(b_max_borrowed_samples) /\
      enable_safe_overflow m = b.(b_enable_safe_overflow) /\
      Z.land (state m) (value p) = 0 /\ Z.land (state m) (value MarkedForDestruction) = 0)).
Proof.
  intros Hb Hm Hs Hp p. split.
  - destruct (create_port_new_ok b size_of_self mgmt_ptr p Hb Hm Hs Hp)
      as (m & E & Hwf & Est & Erx & Ert & [= Ebuf Emax Eov] & _).
    by exists m.
  - intros m k Hwf. pose proof (wf_size _ _ Hwf) as Es. cbn in Es. unfold buffer_size in *. cbn in Es.
    unfold create_port, create_or_open_shm, check_existing, retrieve_channel_size, receive_channel_size.
    checked. cbn [ofifo_capacity overflow_queue_fifo].
    destruct (Z.eqb_spec (O.capacity (receive_channel m)) b.(b_buffer_size)) as [E1|E1]; cbn [negb].
    2: { eexists. split; [done|]. intros m'. split; [done|]. tauto. }
    destruct (Z.eqb_spec (I.capacity (retrieve_channel m)) (b_buffer_size b + b_max_borrowed_samples b + 1))
      as [E2|E2]; cbn [negb].
    2: { eexists. split; [done|]. intros m'. split; [done|]. intros. lia. }
    destruct (eqb (enable_safe_overflow m) (b_enable_safe_overflow b)) eqn:E3; cbn [negb]; checked.
    2: { apply eqb_false_iff in E3. eexists. split; [done|]. intros m'. split; [done|]. tauto. }
    apply eqb_prop in E3. unfold reserve_port. destruct (Z.eqb_spec (state m) (value None_)) as [E4|E4].
    { rewrite E4. eexists. split; [done|]. intros m'. cbn. split; [intros [= <-]|intros [-> _]; done].
      split_and!; (done || lia). }
    destruct (Z.eqb_spec (Z.land (state m) (value p)) 0) as [E5|E5]; cbn [negb].
    2: { eexists. split; [done|]. intros m'. split; [done|]. tauto. }
    destruct (Z.eqb_spec (Z.land (state m) (value MarkedForDestruction)) 0) as [E6|E6]; cbn [negb].
    2: { eexists. split; [done|]. intros m'. split; [done|]. tauto. }
    eexists. split; [done|]. intros m'. split; [intros [= <-]|intros [-> _]; done].
    split_and!; (done || lia).
Qed.

Lemma zero_copy_create_port_witness :
  exists m, create_port default_builder 128 4096 Sender None = Ret (Ok m) /\
    wf m 0 /\ state m = 1 /\ buffer_size m = 4.
Proof.
  destruct (zero_copy_create_port default_builder 128 4096 true) as [(m & E & Hm) _]; [cbn; lia..|].
  exists m. split; [done|]. split_and!; apply Hm.
Defined.
