(* ===== verification/ShmAllocator.v ===== *)
(** * iceoryx2_cal/src/shm_allocator: the pool of samples in a shared memory segment

    [ShmPoolAllocator] hands out the buckets of a [PoolAllocator] as offsets from the
    start of the segment, which mean the same in every process.  [DataSegment] is what
    the publisher needs to know about it. *)

From S2P Require Import Prelude Math Allocator UniqueIndexSet BumpAllocator PoolAllocator.

Module P := PoolAllocator.
Module U := UniqueIndexSet.
Module A := BumpAllocator.

(* src/iceoryx2_cal/src/shm_allocator/mod.rs:39-44 ShmAllocationError *)
Inductive ShmAllocationError :=
| ExceedsMaxSupportedAlignment
| AllocationError (e : Allocator.AllocationError).

(* src/iceoryx2_cal/src/shm_allocator/mod.rs:46-50 ShmAllocatorInitError *)
Inductive ShmAllocatorInitError := MaxSupportedMemoryAlignmentInsufficient | AllocationFailed.

(* src/iceoryx2_cal/src/shared_memory/mod.rs:81-86 SharedMemoryCreateError *)
Inductive SharedMemoryCreateError :=
  AlreadyExists | SizeIsZero | InsufficientPermissions | InternalError.

(* src/iceoryx2_cal/src/shm_allocator/pool_allocator.rs:36-44 PoolAllocator *)
Record ShmPoolAllocator := {
  allocator : P.PoolAllocator;
  base_address : Z;
  max_supported_alignment_by_memory : Z;
}.

Definition set_allocator (s : ShmPoolAllocator) p : ShmPoolAllocator :=
  {| allocator := p; base_address := s.(base_address);
     max_supported_alignment_by_memory := s.(max_supported_alignment_by_memory) |}.

Section operations.
Context `{Profile}.

(* src/iceoryx2_cal/src/shm_allocator/pool_allocator.rs:59-64 management_size *)
Definition management_size (memory_size : Z) (bucket_layout : Layout) : outcome Z :=
  P.memory_size bucket_layout memory_size.

(* src/iceoryx2_cal/src/shm_allocator/pool_allocator.rs:66-80 new_uninit *)
Definition new_uninit (max_supported_alignment base len : Z) (bucket_layout : Layout)
    : outcome ShmPoolAllocator :=
  let! p := P.new_uninit bucket_layout base len in
  Ret {| allocator := p; base_address := base;
         max_supported_alignment_by_memory := max_supported_alignment |}.

(* src/iceoryx2_cal/src/shm_allocator/pool_allocator.rs:82-84 max_alignment *)
Definition max_alignment (s : ShmPoolAllocator) : Z := s.(allocator).(P.bucket_alignment).

(* src/iceoryx2_cal/src/shm_allocator/pool_allocator.rs:86-101 init *)
Definition init `{BaseAllocator A} (s : ShmPoolAllocator) (mgmt_allocator : A)
    : outcome (Result unit ShmAllocatorInitError * ShmPoolAllocator * A) :=
  if s.(max_supported_alignment_by_memory) <? max_alignment s then
    Ret (Err MaxSupportedMemoryAlignmentInsufficient, s, mgmt_allocator)
  else
    let! '(r, p, mgmt_allocator) := P.init s.(allocator) mgmt_allocator in
    match r with
    | Err _ => Ret (Err AllocationFailed, set_allocator s p, mgmt_allocator)
    | Ok _ => Ret (Ok tt, set_allocator s p, mgmt_allocator)
    end.

(* src/iceoryx2_cal/src/shm_allocator/pool_allocator.rs:107-120 allocate *)
Definition allocate (s : ShmPoolAllocator) (layout : Layout)
    : outcome (Result Z ShmAllocationError * ShmPoolAllocator) :=
  if max_alignment s <? layout.(layout_align) then Ret (Err ExceedsMaxSupportedAlignment, s)
  else
    let! '(r, p) := P.allocate s.(allocator) layout in
    match r with
    | Err e => Ret (Err (AllocationError e), set_allocator s p)
    | Ok chunk =>
        let! offset := chunk.(chunk_ptr) -u64 s.(base_address) in
        Ret (Ok offset, set_allocator s p)
    end.

(* src/iceoryx2_cal/src/shm_allocator/pool_allocator.rs:122-132 deallocate *)
Definition deallocate (s : ShmPoolAllocator) (offset : Z) (layout : Layout)
    : outcome (Result unit DeallocationError * ShmPoolAllocator) :=
  let! ptr := offset +u64 s.(base_address) in
  let! '(r, p) := P.deallocate s.(allocator) ptr layout in
  Ret (r, set_allocator s p).

(** *** The memory the allocator manages

    [details_size] is what the header of the shared memory takes, [shm_base] the address
    the memory is mapped to; the result is the allocator in the header. *)

(* src/iceoryx2_cal/src/shared_memory/posix.rs:102-104 allocator_size *)
Definition allocator_size (details_size sz : Z) (bucket_layout : Layout) : outcome Z :=
  let! m := management_size sz bucket_layout in
  details_size +u64 m.

(* src/iceoryx2_cal/src/shared_memory/posix.rs:133-219 create *)
Definition memory_create (details_size shm_base page_size sz : Z) (bucket_layout : Layout)
    : outcome (Result ShmPoolAllocator SharedMemoryCreateError) :=
  if sz =? 0 then Ret (Err SizeIsZero)
  else
    let! allocator_mgmt_size := allocator_size details_size sz bucket_layout in
    let! slice := shm_base +u64 allocator_mgmt_size in
    let! s := new_uninit page_size slice sz bucket_layout in
    let! mgmt_addr := shm_base +u64 details_size in
    let! m := management_size sz bucket_layout in
    let! '(r, s, _) := init s (A.new mgmt_addr m) in
    match r with
    | Err _ => Ret (Err InternalError)
    | Ok _ => Ret (Ok s)
    end.

(* src/iceoryx2/src/port/publisher.rs:314-333 create_data_segment *)
Definition create_data_segment (details_size shm_base page_size number_of_samples : Z)
    (message : Layout) : outcome (Result ShmPoolAllocator SharedMemoryCreateError) :=
  let! n := message.(size) *u64 number_of_samples in
  let! n := n +u64 message.(layout_align) in
  let! n := n -u64 1 in
  memory_create details_size shm_base page_size n message.

End operations.

(** ** What a data segment promises

    A segment of [seg_samples] equally large chunks; [seg_free a free] lists the numbers
    of the free ones in the order in which they are handed out, and [seg_left] how
    often chunks can still be allocated or returned before a counter of the
    implementation is used up. *)
Class DataSegment (A : Type) := {
  seg_free : A -> list Z -> Prop;
  seg_samples : A -> Z;
  seg_offset : A -> Z -> Z;
  seg_left : A -> Z;
  seg_serves : A -> Layout -> Prop;
  seg_allocate : A -> Layout -> outcome (Result Z ShmAllocationError * A);
  seg_deallocate : A -> Z -> Layout -> outcome (Result unit DeallocationError * A);
  seg_same a a' := seg_samples a' = seg_samples a /\ seg_offset a' = seg_offset a /\
    seg_left a' = seg_left a - 1 /\ (forall l, seg_serves a l -> seg_serves a' l);
  seg_free_valid : forall a free, seg_free a free ->
    NoDup free /\ Forall (fun i => 0 <= i < seg_samples a) free;
  seg_number : forall a free l i, seg_free a free -> seg_serves a l ->
    0 <= i < seg_samples a -> seg_offset a i / l.(size) = i;
  seg_allocate_ok : forall a free l, seg_free a free -> seg_serves a l -> 0 < seg_left a ->
    match free with
    | [] => exists a', seg_allocate a l = Ret (Err (AllocationError OutOfMemory), a') /\ a' = a
    | i :: rest => exists a', seg_allocate a l = Ret (Ok (seg_offset a i), a') /\
        seg_free a' rest /\ seg_same a a'
    end;
  seg_deallocate_ok : forall a free l i, seg_free a free -> 0 < seg_left a ->
    0 <= i < seg_samples a -> i ∉ free ->
    exists a', seg_deallocate a (seg_offset a i) l = Ret (Ok tt, a') /\
      seg_free a' (i :: free) /\ seg_same a a';
}.

(** ** The pool allocator is a data segment *)

Record segment_repr (s : ShmPoolAllocator) (free : list Z) : Prop := {
  sr_pool : exists used cs, P.pool_repr s.(allocator) free used cs;
  sr_base : 0 <= s.(base_address) <= s.(allocator).(P.start);
  sr_gap : s.(allocator).(P.start) - s.(base_address) < s.(allocator).(P.bucket_size);
}.

(** The layout of the samples the pool was created for. *)
Definition serves (s : ShmPoolAllocator) (l : Layout) : Prop :=
  l.(size) = s.(allocator).(P.bucket_size) /\ l.(layout_align) = s.(allocator).(P.bucket_alignment).

Definition offset_of (s : ShmPoolAllocator) (i : Z) : Z :=
  s.(allocator).(P.start) + i * s.(allocator).(P.bucket_size) - s.(base_address).

Definition operations_left (s : ShmPoolAllocator) : Z :=
  2 ^ 32 - 1 - U.aba_of s.(allocator).(P.buckets).(U.head).

Lemma pool_repr_focus s free used cs i :
  P.pool_repr s free used cs -> i ∈ used ->
  exists c used' cs', P.pool_repr s free (i :: used') (c :: cs').
Proof.
  intros [Hi Hb Ha Hs Hm Hw Hf Hp Hu] Hin. apply list_elem_of_lookup in Hin as [k Ek].
  destruct (Forall2_lookup_l _ _ _ _ _ Hu Ek) as (c & Ec & Hc).
  exists c, (delete k used), (delete k cs). split; try done.
  - by rewrite <-(lookup_split_perm used k i Ek).
  - constructor; [done|]. by apply Forall2_delete.
Qed.

Lemma pool_free_or_used s free used cs i :
  P.pool_repr s free used cs -> 0 <= i < P.number_of_buckets s -> i ∈ free \/ i ∈ used.
Proof.
  intros Hr Hi. rewrite <-elem_of_app, (P.pr_perm _ _ _ _ Hr). by apply elem_of_seqZ; lia.
Qed.

Lemma same_buckets s s' free free' used used' cs cs' :
  P.pool_repr s free used cs -> P.pool_repr s' free' used' cs' ->
  length (free ++ used) = length (free' ++ used') ->
  P.number_of_buckets s' = P.number_of_buckets s.
Proof.
  intros [_ _ _ _ _ _ Hf Hp _] [_ _ _ _ _ _ Hf' Hp' _] Hlen.
  rewrite Hp, Hp', !length_seqZ in Hlen.
  pose proof (U.repr_capacity _ _ Hf). pose proof (U.repr_capacity _ _ Hf').
  unfold P.number_of_buckets in *. lia.
Qed.

Section instance.
Context `{Profile}.

Lemma allocate_segment s free l :
  segment_repr s free -> serves s l -> 0 < operations_left s ->
  match free with
  | [] => exists s', allocate s l = Ret (Err (AllocationError OutOfMemory), s') /\ s' = s
  | i :: rest => exists s', allocate s l = Ret (Ok (offset_of s i), s') /\
      segment_repr s' rest /\ P.later 1 s.(allocator) s'.(allocator) /\
      s'.(base_address) = s.(base_address) /\
      P.number_of_buckets s'.(allocator) = P.number_of_buckets s.(allocator)
  end.
Proof.
  intros [(used & cs & Hr) Hbase Hgap] [El Ea] Hleft. unfold allocate, max_alignment.
  rewrite Ea, Z.ltb_irrefl. pose proof (P.pr_size _ _ _ _ Hr) as Hpos.
  destruct (P.allocate_repr s.(allocator) free used cs l Hr) as (r & p & E & Hres);
    [lia|unfold P.fits, operations_left in *; lia|]. rewrite E. checked.
  destruct r as [c|[]]; try done; try (destruct Hres; lia).
  - destruct Hres as (i & rest & -> & Hr' & [Ec _] & _ & _ & _ & _ & Hl).
    pose proof (P.pr_perm _ _ _ _ Hr) as Hp.
    assert (Hi : i ∈ seqZ 0 (P.number_of_buckets s.(allocator))) by (rewrite <-Hp; by left).
    apply elem_of_seqZ in Hi. destruct (P.bucket_end s.(allocator) i Hpos ltac:(lia)) as [Hi0 _].
    rewrite Ec. checked. eexists. split; [done|]. pose proof Hl as (Eb & _ & Es & _ & _).
    split_and!; try done.
    + split; cbn; [by eexists _, _|rewrite Es; lia|rewrite Es, Eb; lia].
    + cbn. apply (same_buckets _ _ _ _ _ _ _ _ Hr Hr'). rewrite !length_app. cbn. lia.
  - destruct Hres as [-> ->]. eexists. split; [done|]. by destruct s.
Qed.

Lemma deallocate_segment s free l i :
  segment_repr s free -> 0 < operations_left s ->
  0 <= i < P.number_of_buckets s.(allocator) -> i ∉ free ->
  exists s', deallocate s (offset_of s i) l = Ret (Ok tt, s') /\
    segment_repr s' (i :: free) /\ P.later 1 s.(allocator) s'.(allocator) /\
    s'.(base_address) = s.(base_address) /\
    P.number_of_buckets s'.(allocator) = P.number_of_buckets s.(allocator).
Proof.
  intros [(used & cs & Hr) Hbase Hgap] Hleft Hi Hnf.
  destruct (pool_free_or_used _ _ _ _ i Hr Hi) as [|Hu]; [done|].
  destruct (pool_repr_focus _ _ _ _ i Hr Hu) as (c & used' & cs' & Hr1).
  pose proof (P.pr_used _ _ _ _ Hr1) as Hb. apply Forall2_cons in Hb as [[Ec _] _].
  destruct (P.bucket_end s.(allocator) i (P.pr_size _ _ _ _ Hr) Hi) as [Hi0 Hi1].
  pose proof (P.pr_memory _ _ _ _ Hr). pose proof (P.pr_width _ _ _ _ Hr).
  unfold deallocate, offset_of. checked.
  replace (P.start (allocator s) + i * P.bucket_size (allocator s) - base_address s + base_address s)
    with (chunk_ptr c) by lia.
  destruct (P.deallocate_repr s.(allocator) free i used' c cs' l Hr1) as (p & E & Hr' & Hl);
    [unfold P.fits, operations_left in *; lia|].
  rewrite E. checked. eexists. split; [done|]. pose proof Hl as (Eb & _ & Es & _ & _).
  split_and!; try done.
  - split; cbn; [by eexists _, _|rewrite Es; lia|rewrite Es, Eb; lia].
  - cbn. apply (same_buckets _ _ _ _ _ _ _ _ Hr1 Hr'). rewrite !length_app. cbn. lia.
Qed.

#[export] Instance pool_data_segment : DataSegment ShmPoolAllocator.
Proof.
  refine {| seg_free := segment_repr; seg_samples := fun s => P.number_of_buckets s.(allocator);
    seg_offset := offset_of; seg_left := operations_left; seg_serves := serves;
    seg_allocate := allocate; seg_deallocate := deallocate |}.
  - intros s free [(used & cs & Hr) _ _]. pose proof (P.pr_perm _ _ _ _ Hr) as Hp.
    assert (Hnd : NoDup (free ++ used)) by (rewrite Hp; apply NoDup_seqZ).
    split; [by apply NoDup_app in Hnd as [? _]|]. apply Forall_forall. intros i Hin.
    assert (Hi : i ∈ seqZ 0 (P.number_of_buckets s.(allocator))).
    { rewrite <-Hp. apply elem_of_app. by left. }
    apply elem_of_seqZ in Hi. lia.
  - intros s free l i [(used & cs & Hr) Hbase Hgap] [El _] Hi. rewrite El. unfold offset_of.
    pose proof (P.pr_size _ _ _ _ Hr).
    replace (P.start (allocator s) + i * P.bucket_size (allocator s) - base_address s) with
      (P.start (allocator s) - base_address s + i * P.bucket_size (allocator s)) by lia.
    rewrite Z.div_add, Z.div_small; lia.
  - intros s free l Hr Hl Hleft. pose proof (allocate_segment s free l Hr Hl Hleft) as Ha.
    destruct free as [|i rest]; [done|].
    destruct Ha as (s' & E & Hr' & (Eb & Eal & Es & _ & Eaba) & Ebase & En).
    exists s'. split; [done|]. split; [done|]. split_and!; [done| | |].
    + unfold offset_of. by rewrite Eb, Es, Ebase.
    + unfold operations_left. lia.
    + intros l' [? ?]. split; congruence.
  - intros s free l i Hr Hleft Hi Hnf.
    destruct (deallocate_segment s free l i Hr Hleft Hi Hnf)
      as (s' & E & Hr' & (Eb & Eal & Es & _ & Eaba) & Ebase & En).
    exists s'. split; [done|]. split; [done|]. split_and!; [done| | |].
    + unfold offset_of. by rewrite Eb, Es, Ebase.
    + unfold operations_left. lia.
    + intros l' [? ?]. split; congruence.
Defined.

End instance.

(** ** Creation *)

Section creation.
Context `{Profile}.

Lemma align_multiple x a : 0 < a -> 0 <= x -> x + a < 2 ^ 64 -> x mod a = 0 -> align x a = Ret x.
Proof.
  intros Ha Hx Hw Em. destruct (align_ok x a) as (y & E & Ey & Hy); [lia..|]. rewrite E. f_equal.
  apply Z.mod_divide in Em as [k Ek], Ey as [k' Ek']; [|lia..]. subst x y.
  assert (k' = k) as ->; [|done].
  destruct (Z.lt_total k k') as [Hlt|[|Hgt]]; [|done|].
  - pose proof (Z.mul_le_mono_nonneg_r (k + 1) k' a). lia.
  - pose proof (Z.mul_lt_mono_pos_r a k' k). lia.
Qed.

Lemma slack_div n s r : 0 < s -> 0 <= r < s -> (s * n + r) / s = n.
Proof. intros Hs Hr. rewrite Z.mul_comm, Z.div_add_l, (Z.div_small r) by lia. lia. Qed.

(** The size asked for is enough for exactly the requested number of samples wherever
    the memory starts. *)
Lemma buckets_of_segment l base n :
  valid_layout l -> 0 < l.(size) -> l.(size) mod l.(layout_align) = 0 -> 0 <= base -> 0 <= n ->
  base + l.(size) * n + 2 * l.(layout_align) + l.(size) < 2 ^ 64 ->
  exists a, align base l.(layout_align) = Ret a /\ a mod l.(layout_align) = 0 /\
    base <= a < base + l.(layout_align) /\ l.(layout_align) <= l.(size) /\
    P.calc_number_of_buckets l base (l.(size) * n + l.(layout_align) - 1) = Ret n.
Proof.
  intros Hl Hs Em Hb Hn Hw. pose proof (valid_layout_pos l Hl) as Ha.
  assert (Hle : l.(layout_align) <= l.(size)).
  { apply Z.mod_divide in Em as [k Ek]; [|lia]. pose proof (Z.mul_le_mono_nonneg_r 1 k l.(layout_align)).
    destruct (Z.le_gt_cases k 0); [|lia]. pose proof (Z.mul_nonpos_nonneg k l.(layout_align)). lia. }
  pose proof (Z.mul_nonneg_nonneg l.(size) n).
  destruct (align_ok base l.(layout_align)) as (a & Ea & Eam & Hab); [lia..|].
  exists a. split_and!; try done; try lia. unfold P.calc_number_of_buckets.
  rewrite Ea, (align_multiple l.(size)) by lia. checked.
  rewrite (proj2 (Z.eqb_neq _ _)) by lia. f_equal.
  replace (base + (l.(size) * n + l.(layout_align) - 1) - a) with
    (l.(size) * n + (base + l.(layout_align) - 1 - a)) by lia.
  apply slack_div; lia.
Qed.

Lemma create_data_segment_ok details base page n l :
  valid_layout l -> 0 < l.(size) -> l.(size) mod l.(layout_align) = 0 -> l.(layout_align) <= page ->
  0 <= details -> 0 <= base -> 0 < n < 2 ^ 32 - 1 ->
  base + details + 5 * n + l.(size) * n + 2 * l.(layout_align) + l.(size) + 32 < 2 ^ 63 ->
  exists s, create_data_segment details base page n l = Ret (Ok s) /\
    segment_repr s (seqZ 0 n) /\ serves s l /\ P.number_of_buckets s.(allocator) = n /\
    operations_left s = 2 ^ 32 - 1 /\
    s.(allocator).(P.start) - s.(base_address) < l.(layout_align).
Proof.
  intros Hl Hs Em Hpage Hd Hb Hn Hw. pose proof (valid_layout_pos l Hl) as Ha.
  pose proof (Z.mul_le_mono_nonneg_l 1 n l.(size)).
  unfold create_data_segment, memory_create, allocator_size, management_size, P.memory_size.
  checked. rewrite (proj2 (Z.eqb_neq _ _)) by lia. rewrite (proj2 (Z.eqb_neq (size l) 0)) by lia.
  destruct (buckets_of_segment l (base + (details + (4 * (n + 1) + 4 - 1))) n)
    as (a & Ea & Eam & Hab & Hle & En); [done..|lia|lia|lia|].
  replace ((size l * n + layout_align l - 1) / size l) with n
    by (replace (size l * n + layout_align l - 1) with (size l * n + (layout_align l - 1)) by lia;
        by rewrite slack_div by lia).
  unfold U.const_memory_size. checked. unfold new_uninit, P.new_uninit. rewrite Ea, En. checked.
  unfold init, max_alignment. cbn [allocator P.bucket_alignment max_supported_alignment_by_memory].
  rewrite (proj2 (Z.ltb_ge _ _)) by lia. unfold P.init. cbn [P.is_memory_initialized allocator P.buckets].
  destruct (A.allocate_room (A.new (base + details) (4 * (n + 1) + 4 - 1)) (4 * (n + 1)) 2)
    as (c & e & Ealloc & _); [cbn; lia..|]. change (2 ^ 2) with 4 in Ealloc.
  destruct (U.init (U.new_uninit n) (A.new (base + details) (4 * (n + 1) + 4 - 1))) as [[[r q] al]|] eqn:Ei.
  2: { unfold U.init, U.new_uninit in Ei. cbn [U.is_memory_initialized U.capacity] in Ei.
       rewrite cast_small in Ei by (unfold in_range; lia). revert Ei. checked.
       cbn [Allocator.allocate A.bump_base_allocator]. by rewrite Ealloc. }
  assert (r = Ok tt) as ->.
  { unfold U.init, U.new_uninit in Ei. cbn [U.is_memory_initialized U.capacity] in Ei.
    rewrite cast_small in Ei by (unfold in_range; lia). revert Ei. checked.
    cbn [Allocator.allocate A.bump_base_allocator]. rewrite Ealloc. checked. by intros [= <- _ _]. }
  destruct (U.init_fresh n _ q al ltac:(lia) Ei) as [(Hr & Haba & _) Ecap]. checked.
  eexists. split; [done|]. rewrite Ecap in Hr.
  split_and!; try done; [|unfold operations_left; cbn; lia|cbn; lia].
  split; cbn; [|lia|lia]. exists [], []. split; cbn; unfold P.number_of_buckets; cbn; rewrite ?Ecap; try done; try lia.
  - apply Hl.
  - by rewrite app_nil_r.
Qed.

End creation.

(** ** Properties *)

(** [k] allocations in a row. *)
Fixpoint allocate_n `{Profile} (k : nat) (s : ShmPoolAllocator) (l : Layout)
    : outcome (list (Result Z ShmAllocationError) * ShmPoolAllocator) :=
  match k with
  | O => Ret ([], s)
  | S k =>
      let! '(r, s) := allocate s l in
      let! '(rs, s) := allocate_n k s l in
      Ret (r :: rs, s)
  end.

Lemma allocate_n_ok `{Profile} l rest : forall free s,
  segment_repr s (free ++ rest) -> serves s l -> zlength free <= operations_left s ->
  exists s', allocate_n (length free) s l = Ret ((fun i => Ok (offset_of s i)) <$> free, s') /\
    segment_repr s' rest /\ serves s' l /\ operations_left s' = operations_left s - zlength free.
Proof.
  induction free as [|i free IH]; intros s Hr Hl Hleft.
  - exists s. split_and!; try done. change (zlength (@nil Z)) with 0. lia.
  - rewrite zlength_cons in *. pose proof (zlength_nonneg free). cbn [length allocate_n].
    destruct (allocate_segment s (i :: free ++ rest) l Hr Hl ltac:(lia))
      as (s1 & -> & Hr1 & (Eb & Eal & Es & _ & Eaba) & Ebase & _). checked.
    assert (Eoff : offset_of s1 = offset_of s) by (unfold offset_of; by rewrite Eb, Es, Ebase).
    destruct (IH s1 Hr1) as (s' & E & Hr' & Hl' & Eleft).
    + destruct Hl. split; congruence.
    + unfold operations_left in *. lia.
    + rewrite E, Eoff. checked. eexists. split; [done|]. split_and!; try done.
      unfold operations_left in *. lia.
Qed.

(** C34: The data segment a publisher creates for [n] samples hands out exactly [n]
    different samples before it is out of memory, wherever the shared memory is mapped
    below address 2^63, for an alignment of at most a page: the management memory
    suffices for the pool, every sample is aligned as requested and lies inside the
    [size] bytes behind the base address. *)
Theorem data_segment_serves_samples `{Profile} details base page n l :
  valid_layout l -> 0 < l.(size) -> l.(size) mod l.(layout_align) = 0 -> l.(layout_align) <= page ->
  0 <= details -> 0 <= base -> 0 < n < 2 ^ 32 - 1 ->
  base + details + 5 * n + l.(size) * n + 2 * l.(layout_align) + l.(size) + 32 < 2 ^ 63 ->
  exists s s', create_data_segment details base page n l = Ret (Ok s) /\
    allocate_n (Z.to_nat n) s l = Ret ((fun i => Ok (offset_of s i)) <$> seqZ 0 n, s') /\
    allocate s' l = Ret (Err (AllocationError OutOfMemory), s') /\
    forall i, 0 <= i < n ->
      (s.(base_address) + offset_of s i) mod l.(layout_align) = 0 /\
      0 <= offset_of s i /\ offset_of s i + l.(size) <= l.(size) * n + l.(layout_align) - 1.
Proof.
  intros Hl Hs Em Hpage Hd Hb Hn Hw.
  destruct (create_data_segment_ok details base page n l) as (s & E & Hr & Hserv & En & Eleft & Hgap'); [done..|].
  destruct (allocate_n_ok l [] (seqZ 0 n) s) as (s' & En' & Hr' & Hserv' & Eleft').
  { by rewrite app_nil_r. }
  { done. }
  { unfold zlength. rewrite length_seqZ. lia. }
  rewrite length_seqZ in En'. exists s, s'. split_and!; [done..| |].
  - destruct (allocate_segment s' [] l Hr' Hserv') as (s2 & Ea & ->); [|done].
    unfold zlength in Eleft'. rewrite length_seqZ in Eleft'. lia.
  - intros i Hi. destruct Hr as [(used & cs & Hp) Hbase Hgap]. destruct Hserv as [El Ea].
    pose proof (P.pr_start _ _ _ _ Hp) as [_ Es]. rewrite <-Ea in Es. pose proof (valid_layout_pos l Hl).
    unfold offset_of. rewrite <-El in *.
    replace (base_address s + (P.start (allocator s) + i * size l - base_address s)) with
      (P.start (allocator s) + i * size l) by lia. split.
    + apply Z.mod_divide; [lia|]. apply Z.divide_add_r; [by apply Z.mod_divide; [lia|]|].
      apply Z.divide_mul_r. by apply Z.mod_divide; [lia|].
    + pose proof (Z.mul_le_mono_nonneg_r (i + 1) n (size l)).
      lia.
Qed.

(** Seven samples of 24 bytes in memory mapped to page 1. *)
Lemma data_segment_serves_samples_witness :
  exists s s', create_data_segment (H := dev) 100 4096 4096 7 {| size := 24; layout_align := 8 |} = Ret (Ok s) /\
    allocate_n (H := dev) 7 s {| size := 24; layout_align := 8 |} =
      Ret ((fun i => Ok (offset_of s i)) <$> seqZ 0 7, s') /\
    allocate (H := dev) s' {| size := 24; layout_align := 8 |} = Ret (Err (AllocationError OutOfMemory), s').
Proof.
  destruct (data_segment_serves_samples (H := dev) 100 4096 4096 7 {| size := 24; layout_align := 8 |})
    as (s & s' & E1 & E2 & E3 & _); cbn; try lia.
  - split; [cbn; lia|]. by exists 3.
  - done.
  - by exists s, s'.
Defined.
