(* ===== verification/Publisher.v ===== *)
(** * iceoryx2/src/port/publisher.rs: the publisher and the samples it shares

    A publisher owns a data segment of samples and a reference counter per sample, a
    history of the last samples, and one zero-copy connection per subscriber.  The
    model runs its operations and those of the subscribers as whole operations on one
    state; the finer interleavings inside a connection are those of
    [ZeroCopyConnection].  The publisher delivers with
    [UnableToDeliverStrategy::DiscardSample]. *)

From S2P Require Import Prelude Math Allocator QueueSpec ContainerQueue ZeroCopyConnection ShmAllocator.

Module CQ := ContainerQueue.
Module ZC := ZeroCopyConnection.

(* src/iceoryx2/src/port/publisher.rs:106-111 LoanError *)
Inductive LoanError := OutOfMemory | ExceedsMaxLoanedChunks | InternalFailure.

(** The reference counters and the data segment they belong to. *)
(* src/iceoryx2/src/port/publisher.rs:139-153 Publisher *)
Record Store (A : Type) := {
  sample_reference_counter : list Z;
  data_segment : A;
  message_layout : Layout;
  payload_layout : Layout;
}.
Arguments sample_reference_counter {A} _.
Arguments data_segment {A} _.
Arguments message_layout {A} _.
Arguments payload_layout {A} _.

(** A connection as both ends see it: [borrowed] are the samples the subscriber holds,
    as many as its [borrow_counter] says. *)
(* src/iceoryx2/src/port/details/subscriber_connections.rs:29-33 Connection *)
Record Connection (Q R : Type) := {
  subscriber_id : Z;
  channel : Management Q R;
  borrowed : list Z;
}.
Arguments subscriber_id {Q R} _.
Arguments channel {Q R} _.
Arguments borrowed {Q R} _.

(* src/iceoryx2/src/port/publisher.rs:139-153 Publisher *)
Record Publisher (A Q R : Type) := {
  store : Store A;
  subscriber_connections : list (option (Connection Q R));
  history : option (CQ.Queue Z);
  loan_counter : Z;
  max_loaned_samples : Z;
}.
Arguments store {A Q R} _.
Arguments subscriber_connections {A Q R} _.
Arguments history {A Q R} _.
Arguments loan_counter {A Q R} _.
Arguments max_loaned_samples {A Q R} _.

(* src/iceoryx2/src/port/mod.rs:44-51 DegrationAction *)
Inductive DegrationAction := Ignore | Warn | Fail_.

Section store.
Context `{Profile} {A : Type} `{DataSegment A}.
Implicit Types st : Store A.

Definition set_counters st l : Store A :=
  {| sample_reference_counter := l; data_segment := st.(data_segment);
     message_layout := st.(message_layout); payload_layout := st.(payload_layout) |}.

Definition set_segment st a : Store A :=
  {| sample_reference_counter := st.(sample_reference_counter); data_segment := a;
     message_layout := st.(message_layout); payload_layout := st.(payload_layout) |}.

(* src/iceoryx2/src/port/publisher.rs:310-312 sample_index *)
Definition sample_index st (distance_to_chunk : Z) : Z :=
  distance_to_chunk / st.(message_layout).(size).

(** [sample_reference_counter[i].fetch_add(1)] and [fetch_sub(1)]: the old value. *)
Definition fetch_add_counter st (i : Z) : outcome (Z * Store A) :=
  let! old := index st.(sample_reference_counter) i in
  let! l := update st.(sample_reference_counter) i (wrapping_add 64 old 1) in
  Ret (old, set_counters st l).

Definition fetch_sub_counter st (i : Z) : outcome (Z * Store A) :=
  let! old := index st.(sample_reference_counter) i in
  let! l := update st.(sample_reference_counter) i (wrapping_sub 64 old 1) in
  Ret (old, set_counters st l).

(** One holder gives a sample up; the last one returns it to the segment. *)
(* src/iceoryx2/src/port/publisher.rs:395-408 release_sample *)
Definition release_with st (distance_to_chunk : Z) (layout : Layout) : outcome (Store A) :=
  let! '(old, st) := fetch_sub_counter st (sample_index st distance_to_chunk) in
  if old =? 1 then
    let! '(r, a) := seg_deallocate st.(data_segment) distance_to_chunk layout in
    match r with Ok _ => Ret (set_segment st a) | Err _ => Panic end
  else Ret st.

(* src/iceoryx2/src/port/publisher.rs:395-408 release_sample *)
Definition release_sample st (distance_to_chunk : Z) : outcome (Store A) :=
  release_with st distance_to_chunk st.(payload_layout).

Definition retain_sample st (distance_to_chunk : Z) : outcome (Store A) :=
  let! '(_, st) := fetch_add_counter st (sample_index st distance_to_chunk) in Ret st.

Context {Q R : Type} `{OverflowFifo Q} `{IndexFifo R}.
Implicit Types (m : Management Q R) (c : Connection Q R).

Definition set_channel c m : Connection Q R :=
  {| subscriber_id := c.(subscriber_id); channel := m; borrowed := c.(borrowed) |}.

(** The loop over [reclaim]; running out of fuel panics, see [reclaim_loop_ok]. *)
(* src/iceoryx2/src/port/publisher.rs:413-436 retrieve_returned_samples *)
Fixpoint reclaim_loop (fuel : nat) st m : outcome (Store A * Management Q R) :=
  match fuel with
  | O => Panic
  | S fuel =>
      let! '(r, m) := ZC.reclaim m in
      match r with
      | None => Ret (st, m)
      | Some ptr_dist =>
          let! st := release_with st ptr_dist st.(message_layout) in
          reclaim_loop fuel st m
      end
  end.

Definition reclaim_fuel m : nat := S (Z.to_nat (fifo_capacity m.(retrieve_channel))).

(* src/iceoryx2/src/port/publisher.rs:410-440 retrieve_returned_samples *)
Fixpoint retrieve_returned_samples st (cs : list (option (Connection Q R)))
    : outcome (Store A * list (option (Connection Q R))) :=
  match cs with
  | [] => Ret (st, [])
  | None :: cs =>
      let! '(st, cs) := retrieve_returned_samples st cs in Ret (st, None :: cs)
  | Some c :: cs =>
      let! '(st, m) := reclaim_loop (reclaim_fuel c.(channel)) st c.(channel) in
      let! '(st, cs) := retrieve_returned_samples st cs in
      Ret (st, Some (set_channel c m) :: cs)
  end.

(** [for i in 0..history.len()], [n] iterations remain; whatever [try_send] hands back
    is ignored. *)
(* src/iceoryx2/src/port/publisher.rs:292-306 deliver_history *)
Fixpoint deliver_history_loop (n : nat) (i : Z) (h : CQ.Queue Z) st m
    : outcome (Store A * Management Q R) :=
  match n with
  | O => Ret (st, m)
  | S n =>
      let! ptr_distance := CQ.get_unchecked h i in
      let! '(r, m) := ZC.try_send m ptr_distance in
      let! st := (match r with Ok _ => retain_sample st ptr_distance | Err _ => Ret st end) in
      deliver_history_loop n (i + 1) h st m
  end.

(* src/iceoryx2/src/port/publisher.rs:288-308 deliver_history *)
Definition deliver_history (h : option (CQ.Queue Z)) st m : outcome (Store A * Management Q R) :=
  match h with
  | None => Ret (st, m)
  | Some h => deliver_history_loop (Z.to_nat h.(CQ.len)) 0 h st m
  end.

(* src/iceoryx2/src/port/publisher.rs:358-393 deliver_sample *)
Fixpoint deliver_sample (address_to_chunk : Z) st (cs : list (option (Connection Q R)))
    : outcome (Z * Store A * list (option (Connection Q R))) :=
  match cs with
  | [] => Ret (0, st, [])
  | None :: cs =>
      let! '(n, st, cs) := deliver_sample address_to_chunk st cs in Ret (n, st, None :: cs)
  | Some c :: cs =>
      let! '(r, m) := ZC.try_send c.(channel) address_to_chunk in
      match r with
      | Err _ =>
          let! '(n, st, cs) := deliver_sample address_to_chunk st cs in
          Ret (n, st, Some (set_channel c m) :: cs)
      | Ok overflow =>
          let! st := retain_sample st address_to_chunk in
          let! st := (match overflow with Some old => release_sample st old | None => Ret st end) in
          let! '(n, st, cs) := deliver_sample address_to_chunk st cs in
          Ret (n + 1, st, Some (set_channel c m) :: cs)
      end
  end.

(* src/iceoryx2/src/port/publisher.rs:343-356 add_to_history *)
Definition add_to_history (address_to_chunk : Z) st (h : option (CQ.Queue Z))
    : outcome (Store A * option (CQ.Queue Z)) :=
  match h with
  | None => Ret (st, None)
  | Some h =>
      let! st := retain_sample st address_to_chunk in
      let! '(old, h) := CQ.push_with_overflow h address_to_chunk in
      let! st := (match old with Some old => release_sample st old | None => Ret st end) in
      Ret (st, Some h)
  end.

End store.

Section publisher.
Context `{Profile} {A Q R : Type} `{DataSegment A} `{OverflowFifo Q} `{IndexFifo R}.
Implicit Types p : Publisher A Q R.

(** Connecting to a subscriber; what the degration callback answers, if there is one. *)
Context (connect : Z -> Result (Management Q R) ZeroCopyCreationError).
Context (degration_callback : option (Z -> DegrationAction)).

Definition set_store p st : Publisher A Q R :=
  {| store := st; subscriber_connections := p.(subscriber_connections); history := p.(history);
     loan_counter := p.(loan_counter); max_loaned_samples := p.(max_loaned_samples) |}.

Definition set_shared p st cs h : Publisher A Q R :=
  {| store := st; subscriber_connections := cs; history := h;
     loan_counter := p.(loan_counter); max_loaned_samples := p.(max_loaned_samples) |}.

Definition set_loans p st n : Publisher A Q R :=
  {| store := st; subscriber_connections := p.(subscriber_connections); history := p.(history);
     loan_counter := n; max_loaned_samples := p.(max_loaned_samples) |}.

(** [true]: a new connection; an occupied slot is left as it is, whoever its
    subscriber is. *)
(* src/iceoryx2/src/port/details/subscriber_connections.rs:94-105 create *)
Definition create (slot : option (Connection Q R)) (id : Z)
    : Result (bool * option (Connection Q R)) ZeroCopyCreationError :=
  match slot with
  | None =>
      match connect id with
      | Ok m => Ok (true, Some {| subscriber_id := id; channel := m; borrowed := [] |})
      | Err e => Err e
      end
  | Some c => Ok (false, Some c)
  end.

(** What happens to one slot: [Err] when the update is given up. *)
(* src/iceoryx2/src/port/publisher.rs:250-282 populate_subscriber_channels *)
Definition populate_slot (h : option (CQ.Queue Z)) (visited : option Z) (st : Store A)
    (slot : option (Connection Q R))
    : outcome (Result (Store A * option (Connection Q R)) ZeroCopyCreationError) :=
  match visited with
  | None => Ret (Ok (st, None))
  | Some id =>
      match create slot id with
      | Ok (false, slot) => Ret (Ok (st, slot))
      | Ok (true, None) => Panic
      | Ok (true, Some c) =>
          let! '(st, m) := deliver_history h st c.(channel) in
          Ret (Ok (st, Some (set_channel c m)))
      | Err e =>
          match degration_callback with
          | Some f => match f id with Fail_ => Ret (Err e) | _ => Ret (Ok (st, slot)) end
          | None => Ret (Ok (st, slot))
          end
      end
  end.

(* src/iceoryx2/src/port/publisher.rs:249-285 populate_subscriber_channels *)
Fixpoint populate_loop (h : option (CQ.Queue Z)) (visited : list (option Z)) (st : Store A)
    (cs : list (option (Connection Q R)))
    : outcome (Result unit ZeroCopyCreationError * Store A * list (option (Connection Q R))) :=
  match visited, cs with
  | v :: visited, slot :: cs' =>
      let! r := populate_slot h v st slot in
      match r with
      | Err e => Ret (Err e, st, cs)
      | Ok (st, slot) =>
          let! '(r, st, cs') := populate_loop h visited st cs' in Ret (r, st, slot :: cs')
      end
  | _, _ => Ret (Ok tt, st, cs)
  end.

(* src/iceoryx2/src/port/publisher.rs:236-286 populate_subscriber_channels *)
Definition populate_subscriber_channels (visited_indices : list (option Z)) p
    : outcome (Result unit ZeroCopyCreationError * Publisher A Q R) :=
  let! '(st, cs) := retrieve_returned_samples p.(store) p.(subscriber_connections) in
  let! '(r, st, cs) := populate_loop p.(history) visited_indices st cs in
  Ret (r, set_shared p st cs p.(history)).

(** [subscribers]: the ids the subscriber list holds at each index, when it has changed
    since the last update. *)
(* src/iceoryx2/src/port/publisher.rs:466-473 update_connections *)
Definition update_connections (subscribers : option (list (option Z))) p
    : outcome (Result unit ZeroCopyCreationError * Publisher A Q R) :=
  match subscribers with
  | Some visited => populate_subscriber_channels visited p
  | None => Ret (Ok tt, p)
  end.

(* src/iceoryx2/src/port/publisher.rs:335-341 send_impl *)
Definition send_impl (subscribers : option (list (option Z))) (address_to_chunk : Z) p
    : outcome (Result Z ZeroCopyCreationError * Publisher A Q R) :=
  let! '(r, p) := update_connections subscribers p in
  match r with
  | Err e => Ret (Err e, p)
  | Ok _ =>
      let! '(st, h) := add_to_history address_to_chunk p.(store) p.(history) in
      let! '(n, st, cs) := deliver_sample address_to_chunk st p.(subscriber_connections) in
      Ret (Ok n, set_shared p st cs h)
  end.

(* src/iceoryx2/src/sample_mut.rs:69-72 drop *)
Definition drop_sample_mut (offset_to_chunk : Z) p : outcome (Publisher A Q R) :=
  let! st := release_sample p.(store) offset_to_chunk in
  Ret (set_loans p st (wrapping_sub 64 p.(loan_counter) 1)).

(** The sample is dropped on return. *)
(* src/iceoryx2/src/port/publisher.rs:483-491 send *)
Definition send (subscribers : option (list (option Z))) (offset_to_chunk : Z) p
    : outcome (Result Z ZeroCopyCreationError * Publisher A Q R) :=
  let! '(r, p) := send_impl subscribers offset_to_chunk p in
  let! p := drop_sample_mut offset_to_chunk p in
  Ret (r, p).

(** The loan returns the offset of the sample. *)
(* src/iceoryx2/src/port/publisher.rs:534-590 loan_uninit *)
Definition loan_uninit p : outcome (Result Z LoanError * Publisher A Q R) :=
  let! '(st, cs) := retrieve_returned_samples p.(store) p.(subscriber_connections) in
  let p := set_shared p st cs p.(history) in
  if p.(max_loaned_samples) <=? p.(loan_counter) then Ret (Err ExceedsMaxLoanedChunks, p)
  else
    let! '(r, a) := seg_allocate st.(data_segment) st.(message_layout) in
    let st := set_segment st a in
    match r with
    | Ok offset =>
        let! '(old, st) := fetch_add_counter st (sample_index st offset) in
        if negb (old =? 0) then Panic
        else Ret (Ok offset, set_loans p st (wrapping_add 64 p.(loan_counter) 1))
    | Err (AllocationError Allocator.OutOfMemory) => Ret (Err OutOfMemory, set_store p st)
    | Err (AllocationError SizeTooLarge) | Err (AllocationError AlignmentFailure) => Panic
    | Err _ => Ret (Err InternalFailure, set_store p st)
    end.

(* src/iceoryx2/src/port/publisher.rs:496-506 send_copy *)
Definition send_copy (subscribers : option (list (option Z))) p
    : outcome (Result Z (LoanError + ZeroCopyCreationError) * Publisher A Q R) :=
  let! '(r, p) := loan_uninit p in
  match r with
  | Err e => Ret (Err (inl e), p)
  | Ok offset =>
      let! '(r, p) := send subscribers offset p in
      Ret (match r with Ok n => Ok n | Err e => Err (inr e) end, p)
  end.

End publisher.

(* src/iceoryx2/src/service/messaging_pattern.rs:59-73 required_amount_of_samples_per_data_segment *)
Definition required_amount_of_samples_per_data_segment `{Profile}
    (max_subscribers subscriber_max_buffer_size subscriber_max_borrowed_samples history_size
     publisher_max_loaned_samples : Z) : outcome Z :=
  let! n := subscriber_max_buffer_size +u64 subscriber_max_borrowed_samples in
  let! n := max_subscribers *u64 n in
  let! n := n +u64 history_size in
  let! n := n +u64 publisher_max_loaned_samples in
  n +u64 1.

(** ** The reference counters

    [refs] lists the offsets held anywhere, once per holder: the loaned samples, the
    history, both channels of every connection and what its subscriber has borrowed. *)

Section counting.
Context `{Profile} {A : Type} `{DataSegment A}.
Implicit Types (st : Store A) (refs : list Z).

Definition holders st (i : Z) refs : Z := zlength (filter (fun o => sample_index st o = i) refs).

Definition ops_left st : Z := seg_left st.(data_segment).
Definition samples st : Z := seg_samples st.(data_segment).

(** The counter of each sample is the number of its holders, and the sample is free
    exactly when it has none. *)
Record store_inv st refs : Prop := {
  si_serves : seg_serves st.(data_segment) st.(message_layout);
  si_length : zlength st.(sample_reference_counter) = samples st;
  si_valid : Forall (fun o => exists i, 0 <= i < samples st /\ o = seg_offset st.(data_segment) i) refs;
  si_count : forall i, 0 <= i < samples st ->
    st.(sample_reference_counter) !! Z.to_nat i = Some (holders st i refs);
  si_free : exists free, seg_free st.(data_segment) free /\
    forall i, 0 <= i < samples st -> i ∈ free <-> holders st i refs = 0;
}.

(** Two states of one store, at most [n] allocations and deallocations apart. *)
Definition evolves (n : Z) st st' : Prop :=
  samples st' = samples st /\ st'.(message_layout) = st.(message_layout) /\
  st'.(payload_layout) = st.(payload_layout) /\ ops_left st - n <= ops_left st' <= ops_left st.

Lemma evolves_refl st : evolves 0 st st.
Proof. unfold evolves. split_and!; (done || lia). Qed.

Lemma evolves_trans n n' st st' st'' : evolves n st st' -> evolves n' st' st'' -> evolves (n + n') st st''.
Proof. unfold evolves. intros (E1 & E2 & E3 & ?) (E1' & E2' & E3' & ?). split_and!; (congruence || lia). Qed.

Lemma evolves_le n n' st st' : n <= n' -> evolves n st st' -> evolves n' st st'.
Proof. unfold evolves. intros Hn (E1 & E2 & E3 & ?). split_and!; (done || lia). Qed.

Lemma holders_perm st i refs refs' : refs ≡ₚ refs' -> holders st i refs = holders st i refs'.
Proof. intros Hp. unfold holders, zlength. by rewrite Hp. Qed.

#[global] Instance store_inv_perm st : Proper ((≡ₚ) ==> iff) (store_inv st).
Proof.
  intros refs refs' Hp. split; intros [Hs Hl Hv Hc (free & Hf & Hz)]; split; try done.
  - by rewrite <-Hp.
  - intros i Hi. by rewrite <-(holders_perm st i _ _ Hp), Hc.
  - exists free. split; [done|]. intros i Hi. by rewrite <-(holders_perm st i _ _ Hp), Hz.
  - by rewrite Hp.
  - intros i Hi. by rewrite (holders_perm st i _ _ Hp), Hc.
  - exists free. split; [done|]. intros i Hi. by rewrite (holders_perm st i _ _ Hp), Hz.
Qed.

Lemma holders_cons st i o refs :
  holders st i (o :: refs) = (if decide (sample_index st o = i) then 1 else 0) + holders st i refs.
Proof. unfold holders. rewrite filter_cons. case_decide; [apply zlength_cons|lia]. Qed.

Lemma holders_nonneg st i refs : 0 <= holders st i refs.
Proof. apply zlength_nonneg. Qed.

Lemma holders_bound st i refs : holders st i refs <= zlength refs.
Proof. unfold holders, zlength. pose proof (length_filter (fun o => sample_index st o = i) refs). lia. Qed.

Lemma holders_elem st o refs : o ∈ refs -> 0 < holders st (sample_index st o) refs.
Proof.
  intros Hin. apply elem_of_Permutation in Hin as [refs' Hp].
  rewrite (holders_perm _ _ _ _ Hp), holders_cons, decide_True by done.
  pose proof (holders_nonneg st (sample_index st o) refs'). lia.
Qed.

(** The number of a sample that is held. *)
Lemma held_index st o refs :
  store_inv st refs -> o ∈ refs ->
  0 <= sample_index st o < samples st /\ o = seg_offset st.(data_segment) (sample_index st o).
Proof.
  intros [Hs Hl Hv Hc (free & Hf & _)] Hin. rewrite Forall_forall in Hv.
  destruct (Hv o Hin) as (i & Hi & ->). unfold sample_index.
  by rewrite (seg_number _ _ _ i Hf Hs Hi).
Qed.

Lemma counter_update st i v :
  zlength st.(sample_reference_counter) = samples st -> 0 <= i < samples st ->
  exists l, update st.(sample_reference_counter) i v = Ret l /\ zlength l = samples st /\
    forall j, 0 <= j -> l !! Z.to_nat j =
      if decide (j = i) then Some v else st.(sample_reference_counter) !! Z.to_nat j.
Proof.
  intros Hl Hi. rewrite update_ok by lia. eexists. split; [done|]. rewrite zlength_insert.
  split; [done|]. intros j Hj. case_decide as Hd.
  - subst j. apply list_lookup_insert_eq. unfold zlength in Hl. lia.
  - apply list_lookup_insert_ne. lia.
Qed.

Lemma retain_ok st o refs :
  store_inv st refs -> o ∈ refs -> zlength refs + 1 < 2 ^ 64 ->
  exists st', retain_sample st o = Ret st' /\ store_inv st' (o :: refs) /\ evolves 0 st st'.
Proof.
  intros Hi Hin Hw. destruct (held_index st o refs Hi Hin) as [Hidx _].
  destruct Hi as [Hs Hl Hv Hc (free & Hf & Hz)].
  unfold retain_sample, fetch_add_counter.
  rewrite (index_lookup _ _ _ (proj1 Hidx) (Hc _ Hidx)). checked.
  pose proof (holders_nonneg st (sample_index st o) refs). pose proof (holders_bound st (sample_index st o) refs).
  rewrite wrapping_add_small by lia.
  destruct (counter_update st (sample_index st o) (holders st (sample_index st o) refs + 1) Hl Hidx)
    as (l & -> & Hl' & Hlook). checked.
  eexists. split; [done|]. split; [|unfold evolves, ops_left; cbn; split_and!; (done || lia)]. split; try done; cbn.
  - apply Forall_cons. split; [|done]. rewrite Forall_forall in Hv. by apply Hv.
  - intros i Hi. rewrite Hlook by lia. change (holders (set_counters st l)) with (holders st).
    rewrite holders_cons. case_decide as Hd; case_decide as Hd'; try congruence.
    + subst i. f_equal. lia.
    + by rewrite Hc.
  - exists free. split; [done|]. intros i Hi. rewrite (Hz i Hi).
    change (holders (set_counters st l)) with (holders st). rewrite holders_cons.
    case_decide as Hd; [|done]. subst i. pose proof (holders_elem st o refs Hin). lia.
Qed.

Lemma release_with_ok st o refs layout :
  store_inv st (o :: refs) -> 0 < ops_left st -> zlength refs + 1 < 2 ^ 64 ->
  exists st', release_with st o layout = Ret st' /\ store_inv st' refs /\ evolves 1 st st'.
Proof.
  intros Hi Hleft Hw. destruct (held_index st o _ Hi ltac:(left)) as [Hidx Eo].
  destruct Hi as [Hs Hl Hv Hc (free & Hf & Hz)]. apply Forall_cons in Hv as [_ Hv].
  unfold release_with, fetch_sub_counter. set (i0 := sample_index st o) in *.
  rewrite (index_lookup _ _ _ (proj1 Hidx) (Hc _ Hidx)). checked.
  pose proof (holders_nonneg st i0 refs) as Hn. pose proof (holders_bound st i0 refs).
  assert (E0 : holders st i0 (o :: refs) = holders st i0 refs + 1).
  { rewrite holders_cons, decide_True by done. lia. }
  rewrite E0, wrapping_sub_small by lia.
  destruct (counter_update st i0 (holders st i0 refs + 1 - 1) Hl Hidx) as (l & -> & Hl' & Hlook). checked.
  assert (Hcount : forall i, 0 <= i < samples st -> l !! Z.to_nat i = Some (holders st i refs)).
  { intros i Hi. rewrite Hlook by lia. case_decide as Hd; [subst i; f_equal; lia|].
    rewrite Hc, holders_cons, decide_False by done. f_equal. }
  assert (Hz' : forall i, 0 <= i < samples st -> i <> i0 -> i ∈ free <-> holders st i refs = 0).
  { intros i Hi Hne. rewrite (Hz i Hi), holders_cons, decide_False by done. done. }
  assert (Hnf : i0 ∉ free) by (rewrite (Hz _ Hidx), E0; lia).
  destruct (Z.eqb_spec (holders st i0 refs + 1) 1) as [E1|E1].
  - rewrite Eo. cbn [data_segment set_counters].
    destruct (seg_deallocate_ok _ _ layout i0 Hf Hleft Hidx Hnf) as (a & -> & Hf' & En & Eoff & El & Hserv).
    checked. eexists. split; [done|]. unfold evolves, ops_left, samples. cbn. rewrite En, El.
    split; [|split_and!; (done || lia)]. split; unfold samples; cbn; rewrite ?En, ?Eoff; try done.
    + by apply Hserv.
    + exists (i0 :: free). split; [done|]. intros i Hi. rewrite elem_of_cons.
      change (holders _ i refs) with (holders st i refs).
      destruct (decide (i = i0)) as [->|Hne]; [|rewrite (Hz' i Hi Hne); tauto]. split; [lia|by left].
  - eexists. split; [done|]. split; [|unfold evolves, ops_left; cbn; split_and!; (done || lia)].
    split; try done; cbn. exists free. split; [done|]. intros i Hi.
    change (holders (set_counters st l)) with (holders st).
    destruct (decide (i = i0)) as [->|Hne]; [|by apply Hz']. split; [done|lia].
Qed.

(** Allocation: a sample nobody holds, or none when every sample is held. *)
Lemma pub_allocate_ok st refs :
  store_inv st refs -> 0 < ops_left st -> zlength refs + 1 < 2 ^ 64 ->
  exists r a, seg_allocate st.(data_segment) st.(message_layout) = Ret (r, a) /\
    match r with
    | Ok o =>
        exists st', fetch_add_counter (set_segment st a) (sample_index st o) = Ret (0, st') /\
          store_inv st' (o :: refs) /\ evolves 1 st st' /\ o ∉ refs
    | Err e => e = AllocationError Allocator.OutOfMemory /\ a = st.(data_segment) /\
        forall i, 0 <= i < samples st -> 0 < holders st i refs
    end.
Proof.
  intros Hi Hleft Hw. pose proof Hi as [Hs Hl Hv Hc (free & Hf & Hz)].
  pose proof (seg_allocate_ok _ _ _ Hf Hs Hleft) as Ha. destruct free as [|i0 free].
  { destruct Ha as (a & E & ->). eexists _, _. split; [done|]. split_and!; try done. intros i Hr.
    pose proof (holders_nonneg st i refs). destruct (decide (holders st i refs = 0)) as [E0|]; [|lia].
    apply (Hz i Hr) in E0. by apply elem_of_nil in E0. }
  destruct Ha as (a & E & Hf' & En & Eoff & El & Hserv). eexists _, _. split; [done|].
  destruct (seg_free_valid _ _ Hf) as [Hnd Hval]. apply Forall_cons in Hval as [Hi0 _].
  apply NoDup_cons in Hnd as [Hni _].
  assert (Eidx : sample_index st (seg_offset (data_segment st) i0) = i0) by (by eapply seg_number).
  rewrite Eidx. assert (E0 : holders st i0 refs = 0) by (apply (Hz i0 Hi0); left).
  unfold fetch_add_counter. cbn [sample_reference_counter set_segment].
  pose proof (Hc i0 Hi0) as Ec. rewrite E0 in Ec.
  rewrite (index_lookup _ _ _ (proj1 Hi0) Ec). checked. rewrite wrapping_add_small by lia.
  destruct (counter_update st i0 (0 + 1) Hl Hi0) as (l & -> & Hl' & Hlook). checked.
  eexists. split; [done|]. unfold evolves, ops_left, samples. cbn. rewrite En, El.
  split; [|split; [split_and!; (done || lia)|]].
  - split; unfold samples; cbn; rewrite ?En, ?Eoff; try done.
    + by apply Hserv.
    + apply Forall_cons. split; [by exists i0|done].
    + intros i Hr. rewrite Hlook by lia. change (holders _ i) with (holders st i).
      rewrite holders_cons, Eidx. repeat case_decide; try congruence.
      * subst i. by rewrite E0.
      * by rewrite Hc.
    + exists free. split; [done|]. intros i Hr. change (holders _ i) with (holders st i).
      rewrite holders_cons, Eidx. pose proof (holders_nonneg st i refs). case_decide as Hd.
      * subst i. split; [done|lia].
      * rewrite <-(Hz i Hr), elem_of_cons. split; [by right|]. intros [->|]; [done|done].
  - intros Hin. pose proof (holders_elem st _ _ Hin). rewrite Eidx in *. lia.
Qed.

End counting.

(** ** Connections and the samples they hold *)

Section connections.
Context `{Profile} {A Q R : Type} `{DataSegment A} `{OverflowFifo Q} `{IndexFifo R}.
Context (service : Z * Z * bool).
Implicit Types (st : Store A) (refs : list Z) (m : Management Q R) (c : Connection Q R).

Definition conn_refs c : list Z :=
  received c.(channel) ++ returned c.(channel) ++ c.(borrowed).

Definition slot_refs (slot : option (Connection Q R)) : list Z :=
  match slot with Some c => conn_refs c | None => [] end.

(** The subscriber a slot is connected to. *)
Definition occupant (slot : option (Connection Q R)) : option Z := subscriber_id <$> slot.

Definition slots_refs (cs : list (option (Connection Q R))) : list Z := cs ≫= slot_refs.

(** A connection with the settings of the service, of which everything fits into the
    retrieve channel. *)
Record conn_ok c : Prop := {
  co_wf : ZC.wf c.(channel) (zlength c.(borrowed));
  co_settings : settings c.(channel) = service;
  co_flight : in_flight c.(channel) (zlength c.(borrowed)) <=
    fifo_capacity c.(channel).(retrieve_channel);
}.

Definition slot_ok (slot : option (Connection Q R)) : Prop :=
  match slot with Some c => conn_ok c | None => True end.

(** The positions of the channels are far from 2^64. *)
Definition conn_fits c : Prop :=
  ofifo_pushes c.(channel).(receive_channel) < 2 ^ 62 /\
  fifo_pushes c.(channel).(retrieve_channel) < 2 ^ 62.

Definition slot_fits (slot : option (Connection Q R)) : Prop :=
  match slot with Some c => conn_fits c | None => True end.

Lemma conn_fits_fits c : conn_fits c -> ZC.fits c.(channel).
Proof. unfold conn_fits, ZC.fits. lia. Qed.

Lemma capacity_settings m m' b b' :
  ZC.wf m b -> ZC.wf m' b' -> settings m' = settings m ->
  fifo_capacity m'.(retrieve_channel) = fifo_capacity m.(retrieve_channel).
Proof.
  intros Hwf Hwf' [= E1 E2 _]. rewrite (ZC.wf_size _ _ Hwf), (ZC.wf_size _ _ Hwf').
  unfold buffer_size in *. by rewrite E1, E2.
Qed.

(** The loop over [reclaim] has enough fuel and gives back everything that was
    returned. *)
Lemma reclaim_loop_ok fuel : forall st m b refs,
  ZC.wf m b -> (length (returned m) < fuel)%nat ->
  store_inv st (returned m ++ refs) -> zlength (returned m) <= ops_left st ->
  zlength (returned m ++ refs) < 2 ^ 64 ->
  exists st' m', reclaim_loop fuel st m = Ret (st', m') /\ ZC.wf m' b /\
    settings m' = settings m /\ m'.(receive_channel) = m.(receive_channel) /\
    fifo_pushes m'.(retrieve_channel) = fifo_pushes m.(retrieve_channel) /\
    returned m' = [] /\ store_inv st' refs /\ evolves (zlength (returned m)) st st'.
Proof.
  induction fuel as [|fuel IH]; intros st m b refs Hwf Hfuel Hi Hleft Hw; [lia|]. cbn [reclaim_loop].
  destruct (reclaim_ok m b Hwf) as (r & m1 & -> & Hwf1 & Ese & Erxc & Erx & _ & Espec & Ep). checked.
  destruct r as [v|].
  - apply spec_pop_some in Espec. rewrite Espec in *. cbn [app length] in *. rewrite zlength_cons in *.
    rewrite zlength_app in Hw. pose proof (zlength_nonneg (returned m1)).
    destruct (release_with_ok st v (returned m1 ++ refs) (message_layout st) Hi) as (st1 & -> & Hi1 & He1);
      [lia|rewrite zlength_app; lia|]. checked. pose proof He1 as (_ & _ & _ & Hl1).
    destruct (IH st1 m1 b refs Hwf1) as (st' & m' & -> & Hwf' & Ese' & Erx' & Ep' & Ert' & Hi' & He');
      [lia|done|lia|rewrite zlength_app; lia|].
    eexists _, _. split; [done|]. split_and!; try done; try congruence. by eapply evolves_trans.
  - apply spec_pop_none in Espec as [E0 E1]. rewrite E0 in *. change (zlength (@nil Z)) with 0.
    eexists _, _. split; [done|]. split_and!; try done. apply evolves_refl.
Qed.

Lemma conn_reclaim_ok st c refs :
  conn_ok c -> store_inv st (conn_refs c ++ refs) -> zlength (conn_refs c) <= ops_left st ->
  zlength (conn_refs c ++ refs) < 2 ^ 64 ->
  exists st' m', reclaim_loop (reclaim_fuel c.(channel)) st c.(channel) = Ret (st', m') /\
    let c' := set_channel c m' in
    conn_ok c' /\ returned m' = [] /\ store_inv st' (conn_refs c' ++ refs) /\
    (conn_fits c -> conn_fits c') /\ evolves (zlength (conn_refs c)) st st' /\
    zlength (conn_refs c') <= zlength (conn_refs c) /\ received m' = received c.(channel).
Proof.
  intros [Hwf Hse Hfl] Hi Hleft Hw. unfold conn_refs in *. rewrite !zlength_app in *.
  pose proof (zlength_nonneg (received c.(channel))). pose proof (zlength_nonneg c.(borrowed)).
  pose proof (wf_bounds _ _ Hwf) as (_ & Hb & _).
  assert (Hp : (received c.(channel) ++ returned c.(channel) ++ c.(borrowed)) ++ refs ≡ₚ
    returned c.(channel) ++ (received c.(channel) ++ c.(borrowed)) ++ refs).
  { rewrite <-!app_assoc. apply Permutation_app_swap_app. }
  rewrite Hp in Hi.
  destruct (reclaim_loop_ok (reclaim_fuel c.(channel)) st c.(channel) (zlength c.(borrowed))
    ((received c.(channel) ++ c.(borrowed)) ++ refs) Hwf)
    as (st' & m' & E & Hwf' & Ese & Erx & Ep & Ert & Hi' & He);
    [unfold reclaim_fuel, zlength in *; lia|done|lia|rewrite !zlength_app; lia|].
  assert (Erx' : received m' = received c.(channel)) by (unfold received; by rewrite Erx).
  exists st', m'. split; [done|]. cbn.
  pose proof (zlength_nonneg (returned c.(channel))). split_and!.
  - split; cbn; [done|congruence|]. rewrite (capacity_settings _ _ _ _ Hwf Hwf' Ese).
    unfold in_flight in *. rewrite Erx', Ert. change (zlength (@nil Z)) with 0. lia.
  - done.
  - by rewrite Ert, Erx'.
  - unfold conn_fits. cbn. by rewrite Erx, Ep.
  - by apply (evolves_le (zlength (returned c.(channel)))); [lia|].
  - rewrite Ert, Erx', !zlength_app. change (zlength (@nil Z)) with 0. lia.
  - done.
Qed.

(** The samples of a connection that its subscriber has not given back. *)
Definition in_use (slot : option (Connection Q R)) : list Z :=
  match slot with Some c => received c.(channel) ++ c.(borrowed) | None => [] end.

Lemma zlength_slots cs slot : zlength (slots_refs (slot :: cs)) = zlength (slot_refs slot) + zlength (slots_refs cs).
Proof. unfold slots_refs. rewrite bind_cons. apply zlength_app. Qed.

(** What [retrieve_returned_samples] does to all connections. *)
Lemma retrieve_ok cs : forall st refs,
  Forall slot_ok cs -> store_inv st (slots_refs cs ++ refs) ->
  zlength (slots_refs cs) <= ops_left st -> zlength (slots_refs cs ++ refs) < 2 ^ 64 ->
  exists st' cs', retrieve_returned_samples st cs = Ret (st', cs') /\
    Forall slot_ok cs' /\ (Forall slot_fits cs -> Forall slot_fits cs') /\
    occupant <$> cs' = occupant <$> cs /\ store_inv st' (slots_refs cs' ++ refs) /\
    Forall (fun slot => match slot with Some c => returned c.(channel) = [] | None => True end) cs' /\
    evolves (zlength (slots_refs cs)) st st' /\ zlength (slots_refs cs') <= zlength (slots_refs cs) /\
    slot_refs <$> cs' = in_use <$> cs.
Proof.
  induction cs as [|[c|] cs IH]; intros st refs Hok Hi Hleft Hw; cbn [retrieve_returned_samples].
  - eexists _, _. split; [done|]. split_and!; try done. apply evolves_refl.
  - apply Forall_cons in Hok as [Hc Hok]. unfold slots_refs in Hi. rewrite bind_cons in Hi. cbn [slot_refs] in Hi.
    fold (slots_refs cs) in Hi. rewrite <-app_assoc in Hi. rewrite zlength_app, zlength_slots in *. cbn [slot_refs] in *.
    pose proof (zlength_nonneg (slots_refs cs)). pose proof (zlength_nonneg (conn_refs c)).
    destruct (conn_reclaim_ok st c _ Hc Hi) as (st1 & m1 & -> & Hc1 & Ert & Hi1 & Hf1 & He1 & Hl1 & Erx1);
      [lia|rewrite !zlength_app; lia|]. checked. pose proof He1 as (_ & _ & _ & ?).
    rewrite (Permutation_app_swap_app (conn_refs (set_channel c m1))) in Hi1.
    destruct (IH st1 _ Hok Hi1) as (st' & cs' & -> & Hok' & Hf' & Elen & Hi' & Hret & He' & Hl' & Eu);
      [lia|rewrite !zlength_app; lia|]. checked.
    eexists _, _. split; [done|]. split_and!.
    + by constructor.
    + intros Hf. apply Forall_cons in Hf as [Hfc Hf]. constructor; [by apply Hf1|by apply Hf'].
    + cbn. by rewrite Elen.
    + unfold slots_refs. rewrite bind_cons. fold (slots_refs cs'). cbn [slot_refs].
      rewrite <-app_assoc. by rewrite (Permutation_app_swap_app (conn_refs (set_channel c m1))).
    + by constructor.
    + by eapply evolves_trans.
    + rewrite zlength_slots. cbn [slot_refs]. lia.
    + cbn. rewrite Eu. unfold conn_refs. cbn. by rewrite Ert, Erx1.
  - apply Forall_cons in Hok as [_ Hok].
    destruct (IH st refs Hok Hi Hleft Hw) as (st' & cs' & -> & Hok' & Hf' & Elen & Hi' & Hret & He' & Hl' & Eu).
    checked. eexists _, _. split; [done|]. split_and!; try done; try (by constructor).
    + intros Hf. apply Forall_cons in Hf as [_ Hf]. constructor; [done|by apply Hf'].
    + cbn. by rewrite Elen.
    + cbn. by rewrite Eu.
Qed.

(** One connection takes a sample: it holds the sample afterwards, and what it hands back
    it does not. *)
Lemma conn_send_ok c a :
  conn_ok c -> conn_fits c ->
  exists r m', ZC.try_send c.(channel) a = Ret (r, m') /\
    let c' := set_channel c m' in
    conn_ok c' /\
    ofifo_pushes m'.(receive_channel) <= ofifo_pushes c.(channel).(receive_channel) + 1 /\
    m'.(retrieve_channel) = c.(channel).(retrieve_channel) /\
    match r with
    | Err _ => m' = c.(channel)
    | Ok old => option_list old ++ conn_refs c' ≡ₚ a :: conn_refs c /\
        zlength (received m') <= zlength (received c.(channel)) + 1 /\
        (zlength (received c.(channel)) < service.1.1 -> old = None)
    end.
Proof.
  intros [Hwf Hse Hfl] Hf. pose proof (wf_bounds _ _ Hwf) as (Hb1 & Hb2 & Hb3).
  destruct (try_send_ok c.(channel) _ a Hwf (conn_fits_fits _ Hf)) as (r & m' & -> & Hwf' & Ese & Hp & Ert & Hr).
  exists r, m'. split; [done|]. cbn. destruct r as [old|e].
  - destruct Hr as (Espec & Eret & Ebuf & Hov & Hroom).
    destruct (spec_push_overflow_length _ _ _ _ _ Hb3 (proj1 Hb1) Espec) as (Hl & _ & Hnone & _).
    pose proof (ZC.wf_borrow _ _ Hwf).
    split_and!; try done.
    + split; cbn; [done|congruence|]. unfold in_flight in *. rewrite Eret, Ert. lia.
    + unfold conn_refs. cbn. rewrite Eret.
      by rewrite app_assoc, (spec_push_overflow_perm _ _ _ _ _ Espec).
    + lia.
    + rewrite <-Hse. cbn. intros Hlt. by apply Hnone.
  - assert (m' = c.(channel)) as -> by (by destruct e, Hr). split_and!; try done; try lia.
Qed.

Lemma release_option_ok st old refs :
  store_inv st (option_list old ++ refs) -> 0 < ops_left st -> zlength refs + 1 < 2 ^ 64 ->
  exists st', (match old with Some old => release_sample st old | None => Ret st end) = Ret st' /\
    store_inv st' refs /\ evolves 1 st st'.
Proof.
  intros Hi Hleft Hw. destruct old as [old|].
  - by apply release_with_ok.
  - exists st. split_and!; try done. apply (evolves_le 0); [lia|apply evolves_refl].
Qed.

Lemma slots_cons slot cs refs : slots_refs (slot :: cs) ++ refs = slot_refs slot ++ slots_refs cs ++ refs.
Proof. unfold slots_refs. by rewrite bind_cons, <-app_assoc. Qed.

(** Delivering a sample that somebody holds: the connections that take it hold it as
    well, and what they hand back is given up. *)
Lemma deliver_ok a cs : forall st refs,
  Forall slot_ok cs -> Forall slot_fits cs -> a ∈ refs -> store_inv st (slots_refs cs ++ refs) ->
  zlength cs < ops_left st -> zlength (slots_refs cs ++ refs) + zlength cs + 1 < 2 ^ 64 ->
  exists n st' cs', deliver_sample a st cs = Ret (n, st', cs') /\ 0 <= n <= zlength cs /\
    Forall slot_ok cs' /\ length cs' = length cs /\ store_inv st' (slots_refs cs' ++ refs) /\
    zlength (slots_refs cs') <= zlength (slots_refs cs) + zlength cs /\
    evolves (zlength cs) st st'.
Proof.
  induction cs as [|[c|] cs IH]; intros st refs Hok Hfit Ha Hi Hleft Hw; cbn [deliver_sample].
  - eexists _, _, _. split; [done|]. split_and!; try done. apply evolves_refl.
  - apply Forall_cons in Hok as [Hc Hok], Hfit as [Hfc Hfit]. cbn in Hc, Hfc.
    rewrite slots_cons in Hi, Hw. cbn [slot_refs] in Hi, Hw. rewrite !zlength_app, zlength_cons in *.
    pose proof (zlength_nonneg cs). pose proof (zlength_nonneg (slots_refs cs)). pose proof (zlength_nonneg (conn_refs c)).
    destruct (conn_send_ok c a Hc Hfc) as (r & m' & -> & Hc' & _ & _ & Hr). checked. destruct r as [old|e].
    + destruct Hr as [Hperm _]. pose proof (Permutation_length Hperm) as Elen.
      rewrite length_app in Elen. cbn in Elen.
      destruct (retain_ok st a _ Hi) as (st1 & -> & Hi1 & He1);
        [rewrite !elem_of_app; auto|rewrite !zlength_app; lia|]. checked.
      rewrite app_comm_cons, <-Hperm, <-app_assoc in Hi1. pose proof He1 as (_ & _ & _ & Hl1).
      destruct (release_option_ok st1 old _ Hi1) as (st2 & -> & Hi2 & He2);
        [lia|rewrite !zlength_app; unfold zlength in *; lia|]. checked.
      rewrite (Permutation_app_swap_app (conn_refs _)) in Hi2. pose proof He2 as (_ & _ & _ & Hl2).
      destruct (IH st2 (conn_refs (set_channel c m') ++ refs) Hok Hfit) as (n & st' & cs' & -> & Hn & Hok' & El & Hi' & Hlen' & He');
        [rewrite elem_of_app; auto|done|lia|rewrite !zlength_app; unfold zlength in *; lia|]. checked.
      eexists _, _, _. split; [done|]. split_and!; try lia.
      * by constructor.
      * cbn. lia.
      * rewrite slots_cons. by rewrite (Permutation_app_swap_app (slot_refs _)).
      * rewrite !zlength_slots. cbn [slot_refs]. unfold zlength in *. lia.
      * pose proof (evolves_trans _ _ _ _ _ (evolves_trans _ _ _ _ _ He1 He2) He') as He.
        eapply evolves_le; [|exact He]. lia.
    + subst m'. rewrite (Permutation_app_swap_app (conn_refs c)) in Hi.
      destruct (IH st (conn_refs c ++ refs) Hok Hfit) as (n & st' & cs' & -> & Hn & Hok' & El & Hi' & Hlen' & He');
        [rewrite elem_of_app; auto|done|lia|rewrite !zlength_app; lia|]. checked.
      eexists _, _, _. split; [done|]. split_and!; try lia.
      * by constructor.
      * cbn. lia.
      * rewrite slots_cons. rewrite (Permutation_app_swap_app (slot_refs _)). by destruct c.
      * rewrite !zlength_slots. cbn [slot_refs]. change (conn_refs (set_channel c (channel c))) with (conn_refs c). lia.
      * by apply (evolves_le (zlength cs)); [lia|].
  - apply Forall_cons in Hok as [_ Hok], Hfit as [_ Hfit]. rewrite zlength_cons in *.
    change (slots_refs (None :: cs)) with (slots_refs cs) in *.
    destruct (IH st refs Hok Hfit Ha Hi) as (n & st' & cs' & -> & Hn & Hok' & El & Hi' & Hlen' & He'); [lia..|].
    checked. eexists _, _, _. split; [done|]. split_and!; try lia; try done.
    + by constructor.
    + cbn. lia.
    + change (slots_refs (None :: cs')) with (slots_refs cs'). lia.
    + by apply (evolves_le (zlength cs)); [lia|].
Qed.

End connections.

#[global] Arguments slots_refs : simpl never.
#[global] Arguments holders : simpl never.

(** ** The history *)

Section history.
Context `{Profile} {A Q R : Type} `{DataSegment A} `{OverflowFifo Q} `{IndexFifo R}.
Context (service : Z * Z * bool).
Implicit Types (st : Store A) (refs : list Z) (c : Connection Q R).

(** The history holds the samples [l], oldest first, and at most [n]. *)
Definition history_repr (h : option (CQ.Queue Z)) (n : Z) (l : list Z) : Prop :=
  match h with
  | None => l = [] /\ n = 0
  | Some q => CQ.repr q l /\ q.(CQ.capacity) = n /\ 0 < n
  end.

Definition history_fits (h : option (CQ.Queue Z)) : Prop :=
  match h with None => True | Some q => q.(CQ.start) + q.(CQ.capacity) + 1 < 2 ^ 64 end.

Lemma history_length h n l : history_repr h n l -> 0 <= zlength l <= n.
Proof.
  destruct h as [q|]; cbn.
  - intros (Hr & Ec & _). pose proof (CQ.repr_len _ _ Hr). pose proof (zlength_nonneg l). lia.
  - intros [-> ->]. done.
Qed.

Lemma get_unchecked_ok (q : CQ.Queue Z) l i v :
  CQ.repr q l -> q.(CQ.start) + q.(CQ.capacity) + 1 < 2 ^ 64 -> 0 <= i ->
  l !! Z.to_nat i = Some v -> CQ.get_unchecked q i = Ret v.
Proof.
  intros Hr Hf Hi Ei. pose proof (CQ.repr_len _ _ Hr) as [El Elc]. apply lookup_lt_Some in Ei as Hlt.
  assert (Hb : i < q.(CQ.len)) by (unfold zlength in El; lia).
  pose proof (CQ.cq_get_ok q l i Hr Hi ltac:(lia)) as Eg. rewrite Ei in Eg. unfold CQ.get in Eg.
  by rewrite (proj2 (Z.leb_gt _ _)) in Eg by lia.
Qed.

Lemma add_to_history_ok st h n l a refs :
  history_repr h n l -> history_fits h -> a ∈ refs -> store_inv st (l ++ refs) ->
  0 < ops_left st -> zlength (l ++ refs) + 2 < 2 ^ 64 ->
  exists st' h' l', add_to_history a st h = Ret (st', h') /\ history_repr h' n l' /\
    store_inv st' (l' ++ refs) /\ zlength l' <= zlength l + 1 /\ evolves 1 st st'.
Proof.
  intros Hh Hf Ha Hi Hleft Hw. rewrite zlength_app in Hw. destruct h as [q|]; cbn [add_to_history].
  2: { eexists _, _, l. split; [done|]. split_and!; try done; [lia|].
       apply (evolves_le 0); [lia|apply evolves_refl]. }
  destruct Hh as (Hr & Ec & Hpos). cbn in Hf.
  destruct (retain_ok st a _ Hi) as (st1 & -> & Hi1 & He1);
    [rewrite elem_of_app; auto|rewrite zlength_app; lia|]. checked. pose proof He1 as (_ & _ & _ & Hl1).
  destruct (CQ.push_with_overflow_ok q l a Hr) as (old & q' & l' & -> & Hr' & Espec & _ & Ec'); [lia..|].
  checked. apply spec_push_overflow_perm in Espec. pose proof (Permutation_length Espec) as Elen.
  rewrite length_app in Elen. cbn in Elen.
  rewrite app_comm_cons, <-Espec, <-app_assoc in Hi1.
  destruct (release_option_ok st1 old _ Hi1) as (st2 & -> & Hi2 & He2);
    [lia|rewrite zlength_app; unfold zlength in *; lia|]. checked.
  eexists _, _, l'. split; [done|]. split; [cbn; split_and!; (done || lia)|].
  split; [done|]. split; [unfold zlength; lia|].
  eapply evolves_le; [|exact (evolves_trans _ _ _ _ _ He1 He2)]. lia.
Qed.

(** The samples [try_send] handed back are [lost]: nobody gives them up. *)
Lemma deliver_history_loop_ok (q : CQ.Queue Z) l n : forall i st c refs,
  CQ.repr q l -> history_fits (Some q) -> 0 <= i -> i + Z.of_nat n = zlength l ->
  (forall o, o ∈ l -> o ∈ refs) -> conn_ok service c ->
  ofifo_pushes c.(channel).(receive_channel) + Z.of_nat n < 2 ^ 62 ->
  fifo_pushes c.(channel).(retrieve_channel) < 2 ^ 62 ->
  store_inv st (conn_refs c ++ refs) -> zlength (conn_refs c ++ refs) + Z.of_nat n + 1 < 2 ^ 64 ->
  exists st' m' lost, deliver_history_loop n i q st c.(channel) = Ret (st', m') /\
    let c' := set_channel c m' in
    conn_ok service c' /\ store_inv st' (conn_refs c' ++ lost ++ refs) /\ evolves 0 st st' /\
    zlength (conn_refs c') + zlength lost <= zlength (conn_refs c) + Z.of_nat n /\
    ofifo_pushes m'.(receive_channel) <=
      ofifo_pushes c.(channel).(receive_channel) + Z.of_nat n /\
    m'.(retrieve_channel) = c.(channel).(retrieve_channel) /\
    (zlength (received c.(channel)) + Z.of_nat n <= service.1.1 -> lost = []).
Proof.
  induction n as [|n IH]; intros i st c refs Hr Hf Hi0 Hin Hsub Hc Hp Hp' Hi Hw; cbn [deliver_history_loop].
  { exists st, c.(channel), []. split; [done|]. cbn.
    change (zlength (@nil Z)) with 0. unfold conn_refs in *; cbn in *.
    split; [by destruct Hc|]. split; [done|]. split; [apply evolves_refl|]. split_and!; (done || lia). }
  rewrite zlength_app in Hw.
  destruct (lookup_lt_is_Some_2 l (Z.to_nat i)) as [v Ev]; [unfold zlength in Hin; lia|].
  rewrite (get_unchecked_ok q l i v Hr Hf Hi0 Ev). checked.
  destruct (conn_send_ok service c v Hc) as (r & m1 & -> & Hc1 & Hp1 & Ert & Hres);
    [unfold conn_fits; lia|]. checked. cbn zeta in Hc1.
  assert (Hv : v ∈ refs) by (apply Hsub; by eapply list_elem_of_lookup_2).
  pose proof (IH (i + 1)) as IH'. destruct r as [old|e].
  - destruct Hres as (Hperm & Hlen & Hnone). pose proof (Permutation_length Hperm) as Elen.
    rewrite length_app in Elen. cbn in Elen.
    destruct (retain_ok st v _ Hi) as (st1 & -> & Hi1 & He1); [rewrite elem_of_app; auto|rewrite zlength_app; lia|].
    checked. rewrite app_comm_cons, <-Hperm, <-app_assoc, (Permutation_app_swap_app (option_list old)) in Hi1.
    destruct (IH' st1 (set_channel c m1) (option_list old ++ refs) Hr Hf)
      as (st' & m' & lost & E & Hc' & Hi' & He' & Hl' & Hpm & Ertm & Hlost);
      try done; try lia.
    { intros o Ho. rewrite elem_of_app. auto. }
    { cbn. lia. }
    { cbn. by rewrite Ert. }
    { rewrite !zlength_app. unfold zlength in *. lia. }
    exists st', m', (lost ++ option_list old). split; [done|]. cbn zeta in *.
    change (set_channel (set_channel c m1) m') with (set_channel c m') in *.
    rewrite <-app_assoc. split_and!; try done.
    + by apply (evolves_trans 0 0 _ st1).
    + rewrite zlength_app. unfold zlength in *. lia.
    + cbn in Hpm. lia.
    + cbn in Ertm. congruence.
    + intros Hfit. cbn in Hlost. rewrite Hlost by lia. by rewrite Hnone by lia.
  - subst m1. checked.
    destruct (IH' st c refs Hr Hf) as (st' & m' & lost & E & Hc' & Hi' & He' & Hl' & Hpm & Ertm & Hlost);
      try done; try lia.
    { rewrite zlength_app. lia. }
    exists st', m', lost. split; [done|]. cbn zeta in *. split_and!; try done; try lia.
    intros Hfit. apply Hlost. lia.
Qed.

End history.

(** ** Updating the connections *)

Section populate.
Context `{Profile} {A Q R : Type} `{DataSegment A} `{OverflowFifo Q} `{IndexFifo R}.
Context (service : Z * Z * bool).
Context (connect : Z -> Result (Management Q R) ZeroCopyCreationError).
Context (degration_callback : option (Z -> DegrationAction)).

(** A new connection has the settings of the service and empty channels. *)
Definition connects : Prop :=
  forall id m, connect id = Ok m -> ZC.wf m 0 /\ settings m = service /\ received m = [] /\
    returned m = [] /\ ofifo_pushes m.(receive_channel) <= 1 /\
    fifo_pushes m.(retrieve_channel) <= 1.

Hypothesis Hconnects : connects.
Implicit Types (st : Store A) (refs : list Z) (slot : option (Connection Q R)).

(** The connection of a subscriber that is gone holds none of its samples [us], and the
    history fits into a new connection. *)
Definition nothing_lost (n : Z) (visited : list (option Z)) (us : list (list Z)) : Prop :=
  n <= service.1.1 /\ Forall2 (fun v u => v = None -> u = []) visited us.

Lemma new_connection_ok id m :
  connect id = Ok m -> 0 <= service.1.1 /\
  conn_ok service {| subscriber_id := id; channel := m; borrowed := [] |} /\
  conn_refs {| subscriber_id := id; channel := m; borrowed := [] |} = [].
Proof.
  intros E. destruct (Hconnects id m E) as (Hwf & Ese & Erx & Ert & _ & _).
  pose proof (wf_bounds _ _ Hwf) as (Hb1 & Hb2 & Hb3). split; [by rewrite <-Ese|]. split.
  - split; cbn; try done. unfold in_flight. rewrite Erx, Ert. change (zlength (@nil Z)) with 0.
    rewrite Ert in Hb2. change (zlength (@nil Z)) with 0 in Hb2. lia.
  - unfold conn_refs. cbn. by rewrite Erx, Ert.
Qed.

Lemma populate_slot_ok h n l v st slot refs :
  history_repr h n l -> history_fits h -> n < 2 ^ 61 -> (forall o, o ∈ l -> o ∈ refs) ->
  slot_ok service slot -> store_inv st (slot_refs slot ++ refs) ->
  zlength (slot_refs slot ++ refs) + n + 1 < 2 ^ 64 ->
  exists r, populate_slot connect degration_callback h v st slot = Ret r /\
    match r with
    | Ok (st', slot') => exists lost, slot_ok service slot' /\ (slot_fits slot -> slot_fits slot') /\
        store_inv st' (slot_refs slot' ++ lost ++ refs) /\ evolves 0 st st' /\
        zlength (slot_refs slot') + zlength lost <= zlength (slot_refs slot) + n /\
        (n <= service.1.1 -> (v = None -> slot_refs slot = []) -> lost = [])
    | Err _ => True
    end.
Proof.
  intros Hh Hf Hn Hsub Hok Hi Hw. pose proof (history_length _ _ _ Hh) as Hl.
  assert (Hsame : exists lost, slot_ok service slot /\
    store_inv st (slot_refs slot ++ lost ++ refs) /\ evolves 0 st st /\
    zlength (slot_refs slot) + zlength lost <= zlength (slot_refs slot) + n /\ lost = []).
  { exists []. split_and!; try done; [apply evolves_refl|change (zlength (@nil Z)) with 0; lia]. }
  unfold populate_slot. destruct v as [id|].
  2: { eexists. split; [done|]. exists (slot_refs slot). cbn. split_and!; try done.
       - apply evolves_refl.
       - change (zlength (@nil Z)) with 0. lia.
       - intros _ Hv. by rewrite Hv. }
  destruct slot as [c|]; cbn [create].
  { eexists. split; [done|]. destruct Hsame as (lost & ? & ? & ? & ? & ?). by exists lost. }
  destruct (connect id) as [m|e] eqn:Ec.
  2: { destruct degration_callback as [f|]; [destruct (f id)|]; eexists; (split; [done|]); try done;
       destruct Hsame as (lost & ? & ? & ? & ? & ?); by exists lost. }
  destruct (new_connection_ok id m Ec) as (Hbuf & Hc & Erefs).
  destruct (Hconnects id m Ec) as (_ & _ & Erx & _ & Hp1 & Hp2).
  set (c := {| subscriber_id := id; channel := m; borrowed := [] |}) in *. cbn [channel].
  assert (Hi' : store_inv st (conn_refs c ++ refs)) by (by rewrite Erefs).
  unfold deliver_history. destruct h as [q|].
  - destruct Hh as (Hr & Ecap & _). pose proof (CQ.repr_len _ _ Hr) as [Elen _].
    assert (E0 : Z.of_nat (Z.to_nat q.(CQ.len)) = zlength l) by lia.
    destruct (deliver_history_loop_ok service q l (Z.to_nat q.(CQ.len)) 0 st c refs)
      as (st' & m' & lost & E & Hc' & Hi2 & He & Hlen & Hpm & Ertm & Hlost); try done; try (cbn; lia).
    { rewrite Erefs. cbn in *. lia. }
    rewrite E. checked. eexists. split; [done|]. exists lost. cbn zeta in *.
    split_and!; try done.
    + intros _. cbn. unfold conn_fits. cbn in *. rewrite Ertm. lia.
    + rewrite Erefs in Hlen. cbn [slot_refs]. change (zlength (@nil Z)) with 0 in *. lia.
    + intros Hfit _. apply Hlost. change (channel c) with m. rewrite Erx. change (zlength (@nil Z)) with 0. lia.
  - checked. eexists. split; [done|]. exists []. cbn [slot_refs]. change (set_channel c (channel c)) with c.
    split_and!; try done; [|apply evolves_refl|].
    { intros _. cbn. unfold conn_fits. cbn. lia. }
    rewrite Erefs. change (zlength (@nil Z)) with 0. lia.
Qed.

Lemma populate_loop_ok h n l visited : forall cs st refs,
  history_repr h n l -> history_fits h -> n < 2 ^ 61 -> (forall o, o ∈ l -> o ∈ refs) ->
  Forall (slot_ok service) cs -> store_inv st (slots_refs cs ++ refs) ->
  zlength (slots_refs cs ++ refs) + zlength cs * n + 1 < 2 ^ 64 ->
  exists r st' cs' lost, populate_loop connect degration_callback h visited st cs = Ret (r, st', cs') /\
    Forall (slot_ok service) cs' /\ length cs' = length cs /\
    (Forall slot_fits cs -> Forall slot_fits cs') /\
    store_inv st' (slots_refs cs' ++ lost ++ refs) /\ evolves 0 st st' /\
    zlength (slots_refs cs') + zlength lost <= zlength (slots_refs cs) + zlength cs * n /\
    (nothing_lost n visited (slot_refs <$> cs) -> lost = []).
Proof.
  induction visited as [|v visited IH]; intros cs st refs Hh Hf Hn Hsub Hok Hi Hw.
  all: pose proof (history_length _ _ _ Hh) as Hl.
  all: assert (Hsame : exists lost, Forall (slot_ok service) cs /\ length cs = length cs /\
    store_inv st (slots_refs cs ++ lost ++ refs) /\ evolves 0 st st /\
    zlength (slots_refs cs) + zlength lost <= zlength (slots_refs cs) + zlength cs * n /\ lost = [])
    by (exists []; split_and!; try done; [apply evolves_refl|];
        change (zlength (@nil Z)) with 0; pose proof (zlength_nonneg cs);
        pose proof (Z.mul_nonneg_nonneg (zlength cs) n); lia).
  { destruct Hsame as (lost & ? & ? & ? & ? & ? & ?). eexists _, _, _, lost. split; [done|]. done. }
  destruct cs as [|slot cs].
  { destruct Hsame as (lost & ? & ? & ? & ? & ? & ?). eexists _, _, _, lost. split; [done|]. done. }
  cbn [populate_loop]. apply Forall_cons in Hok as [Hs Hok].
  rewrite slots_cons in Hi, Hw. rewrite zlength_cons, Z.mul_add_distr_r in *. rewrite !zlength_app in Hw.
  pose proof (zlength_nonneg cs). pose proof (Z.mul_nonneg_nonneg (zlength cs) n).
  pose proof (zlength_nonneg (slots_refs cs)). pose proof (zlength_nonneg refs).
  destruct (populate_slot_ok h n l v st slot (slots_refs cs ++ refs) Hh Hf Hn) as (r & -> & Hr); try done.
  { intros o Ho. rewrite elem_of_app. auto. }
  { rewrite !zlength_app. lia. }
  checked. destruct r as [[st1 slot1]|e].
  2: { destruct Hsame as (lost & ? & ? & ? & ? & ? & ?). eexists _, _, _, lost. by split_and!. }
  destruct Hr as (lost1 & Hs1 & Hfit1 & Hi1 & He1 & Hl1 & Hnl1).
  assert (Hp : slot_refs slot1 ++ lost1 ++ slots_refs cs ++ refs ≡ₚ
    slots_refs cs ++ (slot_refs slot1 ++ lost1 ++ refs)).
  { rewrite (Permutation_app_swap_app lost1). apply Permutation_app_swap_app. }
  rewrite Hp in Hi1.
  destruct (IH cs st1 (slot_refs slot1 ++ lost1 ++ refs) Hh Hf Hn)
    as (r & st' & cs' & lost & -> & Hok' & Elen & Hfit' & Hi' & He' & Hl' & Hnl'); try done.
  { intros o Ho. rewrite !elem_of_app. auto. }
  { rewrite !zlength_app. lia. }
  checked. eexists _, _, _, (lost ++ lost1). split; [done|]. split_and!.
  - by constructor.
  - cbn. lia.
  - intros Hfs. apply Forall_cons in Hfs as [Hf1 Hfs]. constructor; [by apply Hfit1|by apply Hfit'].
  - rewrite slots_cons, <-app_assoc. rewrite (Permutation_app_swap_app (slot_refs slot1)).
    by rewrite (Permutation_app_swap_app (slot_refs slot1) lost) .
  - by apply (evolves_trans 0 0 _ st1).
  - rewrite zlength_slots, !zlength_app in *. rewrite zlength_slots. lia.
  - intros [Hb Hf2]. cbn in Hf2. apply Forall2_cons in Hf2 as [Hv Hf2]. by rewrite Hnl', Hnl1.
Qed.

End populate.

(** ** The publisher with its subscribers

    The loaned samples are the [SampleMut] objects in the hands of the user. *)

(** Everything but the identifiers and the registration in the dynamic configuration. *)
(* src/iceoryx2/src/port/publisher.rs:200-227 new *)
Definition publisher_new {A Q R} (segment : A) (message payload : Layout) (number_of_samples : Z)
    (max_subscribers : nat) (history_size max_loaned : Z) : Publisher A Q R :=
  {| store := {| sample_reference_counter := replicate (Z.to_nat number_of_samples) 0;
                 data_segment := segment; message_layout := message; payload_layout := payload |};
     subscriber_connections := replicate max_subscribers None;
     history := if history_size =? 0 then None else Some (CQ.new history_size);
     loan_counter := 0;
     max_loaned_samples := max_loaned |}.

Section world.
Context `{Profile} {A Q R : Type} `{DataSegment A} `{OverflowFifo Q} `{IndexFifo R}.
Context (connect : Z -> Result (Management Q R) ZeroCopyCreationError).
Context (degration_callback : option (Z -> DegrationAction)).

Record world := { pub : Publisher A Q R; loaned : list Z }.

Inductive operation :=
| Loan
| DropLoan (k : nat)
| Send (k : nat) (subscribers : option (list (option Z)))
| Update (subscribers : option (list (option Z)))
| Receive (i : nat)
| Release (i k : nat).

Definition set_slot (w : world) (i : nat) (c : Connection Q R) : world :=
  {| pub := set_shared w.(pub) w.(pub).(store) (<[i := Some c]> w.(pub).(subscriber_connections))
              w.(pub).(history);
     loaned := w.(loaned) |}.

(** The subscriber retries once before it gives up. *)
(* src/iceoryx2/src/port/subscriber.rs:155-176 release_sample *)
Definition subscriber_release (c : Connection Q R) (k : nat) (v : Z) : outcome (Connection Q R) :=
  let b := zlength c.(borrowed) in
  let released m := {| subscriber_id := c.(subscriber_id); channel := m;
                       borrowed := delete k c.(borrowed) |} in
  let! '(r, m, _) := ZC.release c.(channel) b v in
  match r with
  | Ok _ => Ret (released m)
  | Err _ =>
      let! '(r, m, _) := ZC.release m b v in
      match r with Ok _ => Ret (released m) | Err _ => Panic end
  end.

(* src/iceoryx2/src/port/subscriber.rs:221-251 receive_from_connection *)
Definition subscriber_receive (c : Connection Q R) : outcome (Connection Q R) :=
  let! '(r, m, _) := ZC.receive c.(channel) (zlength c.(borrowed)) in
  Ret {| subscriber_id := c.(subscriber_id); channel := m;
         borrowed := match r with Ok (Some v) => c.(borrowed) ++ [v] | _ => c.(borrowed) end |}.

(** [None]: there is no such sample or connection. *)
Definition perform (o : operation) (w : world) : option (outcome world) :=
  match o with
  | Loan =>
      Some (let! '(r, p) := loan_uninit w.(pub) in
            Ret {| pub := p;
                   loaned := match r with Ok o => o :: w.(loaned) | Err _ => w.(loaned) end |})
  | DropLoan k =>
      match w.(loaned) !! k with
      | Some o => Some (let! p := drop_sample_mut o w.(pub) in
                        Ret {| pub := p; loaned := delete k w.(loaned) |})
      | None => None
      end
  | Send k subscribers =>
      match w.(loaned) !! k with
      | Some o => Some (let! '(_, p) := send connect degration_callback subscribers o w.(pub) in
                        Ret {| pub := p; loaned := delete k w.(loaned) |})
      | None => None
      end
  | Update subscribers =>
      Some (let! '(_, p) := update_connections connect degration_callback subscribers w.(pub) in
            Ret {| pub := p; loaned := w.(loaned) |})
  | Receive i =>
      match w.(pub).(subscriber_connections) !! i with
      | Some (Some c) => Some (let! c := subscriber_receive c in Ret (set_slot w i c))
      | _ => None
      end
  | Release i k =>
      match w.(pub).(subscriber_connections) !! i with
      | Some (Some c) =>
          match c.(borrowed) !! k with
          | Some v => Some (let! c := subscriber_release c k v in Ret (set_slot w i c))
          | None => None
          end
      | _ => None
      end
  end.

Definition runs_act (o : operation) (w : world) : option world :=
  match perform o w with Some (Ret w') => Some w' | _ => None end.

End world.
Arguments world : clear implicits.
Arguments pub {A Q R} _.
Arguments loaned {A Q R} _.

Section world_lemmas.
Context `{Profile} {A Q R : Type} `{DataSegment A} `{OverflowFifo Q} `{IndexFifo R}.
Context (service : Z * Z * bool) (history_size max_loaned number_of_samples : Z)
  (max_subscribers : nat).
Context (connect : Z -> Result (Management Q R) ZeroCopyCreationError).
Context (degration_callback : option (Z -> DegrationAction)).
Hypothesis Hconnects : connects service connect.
Implicit Types (w : world A Q R) (leaked : list Z).

(** [leaked] are the samples whose counters include holders that no longer exist. *)
Record Inv w (h leaked : list Z) : Prop := {
  w_history : history_repr w.(pub).(history) history_size h;
  w_store : store_inv w.(pub).(store)
    (w.(loaned) ++ h ++ slots_refs w.(pub).(subscriber_connections) ++ leaked);
  w_slots : Forall (slot_ok service) w.(pub).(subscriber_connections);
  w_length : length w.(pub).(subscriber_connections) = max_subscribers;
  w_loans : w.(pub).(loan_counter) = zlength w.(loaned);
  w_max : w.(pub).(max_loaned_samples) = max_loaned /\ zlength w.(loaned) <= max_loaned;
  w_samples : samples w.(pub).(store) = number_of_samples;
}.

Definition total_refs w h leaked : Z :=
  zlength (w.(loaned) ++ h ++ slots_refs w.(pub).(subscriber_connections) ++ leaked).

(** No counter is close to its limit. *)
Record room w h leaked : Prop := {
  room_slots : Forall slot_fits w.(pub).(subscriber_connections);
  room_history : history_fits w.(pub).(history) /\ history_size < 2 ^ 61;
  room_operations : total_refs w h leaked + Z.of_nat max_subscribers + 4 < ops_left w.(pub).(store);
  room_refs : total_refs w h leaked + Z.of_nat max_subscribers * (history_size + 1) + 4 < 2 ^ 62;
}.

Lemma inv_retrieve w h leaked :
  Inv w h leaked -> room w h leaked ->
  exists st cs, retrieve_returned_samples w.(pub).(store) w.(pub).(subscriber_connections) = Ret (st, cs) /\
    let w' := {| pub := set_shared w.(pub) st cs w.(pub).(history); loaned := w.(loaned) |} in
    Inv w' h leaked /\ Forall slot_fits cs /\ total_refs w' h leaked <= total_refs w h leaked /\
    evolves (total_refs w h leaked) w.(pub).(store) st /\
    slot_refs <$> cs = in_use <$> w.(pub).(subscriber_connections) /\
    Forall (fun slot => match slot with Some c => returned c.(channel) = [] | None => True end) cs.
Proof.
  intros [Hh Hi Hs Hn Hl Hm Hsa] [Hrs Hrh Hro Hrr]. unfold total_refs in *.
  assert (Hp : forall cs, w.(loaned) ++ h ++ slots_refs cs ++ leaked ≡ₚ
    slots_refs cs ++ w.(loaned) ++ h ++ leaked).
  { intros cs. rewrite (Permutation_app_swap_app h). apply Permutation_app_swap_app. }
  rewrite Hp in Hi. rewrite !zlength_app in *.
  pose proof (zlength_nonneg w.(loaned)). pose proof (zlength_nonneg h). pose proof (zlength_nonneg leaked).
  assert (0 <= Z.of_nat max_subscribers * (history_size + 1)).
  { pose proof (history_length _ _ _ Hh). apply Z.mul_nonneg_nonneg; lia. }
  destruct (retrieve_ok service _ _ _ Hs Hi) as (st & cs & E & Hs' & Hf' & El & Hi' & Hret & He & Hle & Eu);
    [lia|rewrite !zlength_app; lia|].
  exists st, cs. split; [done|]. cbn. split_and!; try done.
  - split; cbn; try done; [by rewrite Hp| |].
    { by rewrite <-Hn, <-(length_fmap occupant cs), El, length_fmap. }
    by destruct He as [-> _].
  - by apply Hf'.
  - rewrite !zlength_app. lia.
  - eapply evolves_le; [|exact He]. lia.
Qed.

(** A loan fails for lack of memory only when every sample is held. *)
Lemma inv_loan w h leaked :
  Inv w h leaked -> room w h leaked ->
  exists r p, loan_uninit w.(pub) = Ret (r, p) /\
    match r with
    | Ok o => Inv {| pub := p; loaned := o :: w.(loaned) |} h leaked /\
        (o ∉ w.(loaned) ++ h ++ slots_refs p.(subscriber_connections) ++ leaked)
    | Err e => Inv {| pub := p; loaned := w.(loaned) |} h leaked /\
        match e with
        | ExceedsMaxLoanedChunks => zlength w.(loaned) = max_loaned
        | OutOfMemory => zlength w.(loaned) < max_loaned /\
            Forall (fun slot => match slot with Some c => returned c.(channel) = [] | None => True end)
              p.(subscriber_connections) /\
            samples p.(store) = samples w.(pub).(store) /\
            forall i, 0 <= i < samples p.(store) -> 0 < holders p.(store) i
              (w.(loaned) ++ h ++ slots_refs p.(subscriber_connections) ++ leaked)
        | InternalFailure => False
        end
    end.
Proof.
  intros Hinv Hr. destruct (inv_retrieve w h leaked Hinv Hr) as (st & cs & E & Hi' & Hf' & Hle & He & _ & Hret).
  unfold loan_uninit. rewrite E. checked. cbn zeta in *. clear E.
  pose proof Hi' as [Hh' Hst' Hs' Hn' Hl' [Hm' Hm2] Hsa']. cbn in Hh', Hst', Hs', Hn', Hl', Hm', Hm2, Hsa'.
  cbn [set_shared max_loaned_samples loan_counter store]. rewrite Hl', Hm'.
  destruct (Z.leb_spec max_loaned (zlength w.(loaned))) as [Hfull|Hroom].
  { eexists _, _. split; [done|]. split; [done|]. lia. }
  destruct Hr as [_ _ Hro Hrr]. pose proof He as (Esa & _ & _ & Hl1). unfold total_refs in *. cbn in Hle.
  assert (0 <= Z.of_nat max_subscribers * (history_size + 1)).
  { pose proof (history_length _ _ _ Hh'). apply Z.mul_nonneg_nonneg; lia. }
  destruct (pub_allocate_ok st _ Hst') as (r & a & -> & Hr); [lia|lia|]. checked. destruct r as [o|e].
  - destruct Hr as (st' & Est & Hst2 & (Esa2 & _) & Hnew). unfold sample_index in *. cbn [set_segment message_layout] in *.
    rewrite Est. checked. cbn. eexists _, _. split; [done|]. split; [|done].
    rewrite wrapping_add_small; [|pose proof (zlength_nonneg w.(loaned));
      rewrite !zlength_app in *; pose proof (zlength_nonneg (slots_refs (subscriber_connections w.(pub))));
      pose proof (zlength_nonneg h); pose proof (zlength_nonneg leaked); lia].
    split; cbn; try done; rewrite ?zlength_cons; [lia|split; [done|lia]|congruence].
  - destruct Hr as (-> & -> & Hall). eexists _, _. split; [done|]. cbn. destruct st.
    split; [by split|]. by split_and!.
Qed.

Lemma inv_drop w h leaked k o :
  Inv w h leaked -> 0 < ops_left w.(pub).(store) -> total_refs w h leaked < 2 ^ 63 ->
  w.(loaned) !! k = Some o ->
  exists p, drop_sample_mut o w.(pub) = Ret p /\
    Inv {| pub := p; loaned := delete k w.(loaned) |} h leaked.
Proof.
  intros [Hh Hi Hs Hn Hl [Hm Hm2] Hsa] Hro Hrr Ek. unfold total_refs in *.
  rewrite (lookup_split_perm _ _ _ Ek) in Hi. cbn [app] in Hi.
  pose proof (Permutation_length (lookup_split_perm _ _ _ Ek)) as Elen. cbn in Elen.
  rewrite !zlength_app in *. pose proof (zlength_nonneg w.(loaned)). pose proof (zlength_nonneg h).
  pose proof (zlength_nonneg leaked). pose proof (zlength_nonneg (slots_refs (subscriber_connections w.(pub)))).
  unfold drop_sample_mut, release_sample.
  destruct (release_with_ok _ o _ (payload_layout w.(pub).(store)) Hi) as (st' & -> & Hi' & Esa & _);
    [lia|rewrite !zlength_app; unfold zlength in *; lia|].
  checked. eexists. split; [done|]. rewrite Hl, wrapping_sub_small by (unfold zlength in *; lia).
  split; cbn; try done; unfold zlength in *; [lia|split; [done|lia]|congruence].
Qed.

(** The update closes no connection that holds queued or borrowed samples. *)
Definition lossless w (subscribers : option (list (option Z))) : Prop :=
  match subscribers with
  | None => True
  | Some visited =>
      nothing_lost service history_size visited (in_use <$> w.(pub).(subscriber_connections))
  end.

Lemma refs_reorder (a b c d : list Z) : a ++ b ++ c ++ d ≡ₚ c ++ a ++ b ++ d.
Proof. rewrite (Permutation_app_swap_app b). apply Permutation_app_swap_app. Qed.

Lemma pub_inv_update w h leaked subscribers :
  Inv w h leaked -> room w h leaked ->
  exists r p lost, update_connections connect degration_callback subscribers w.(pub) = Ret (r, p) /\
    let w' := {| pub := p; loaned := w.(loaned) |} in
    Inv w' h (lost ++ leaked) /\ Forall slot_fits p.(subscriber_connections) /\
    p.(history) = w.(pub).(history) /\
    total_refs w' h (lost ++ leaked) <= total_refs w h leaked + Z.of_nat max_subscribers * history_size /\
    evolves (total_refs w h leaked) w.(pub).(store) p.(store) /\
    (lossless w subscribers -> lost = []).
Proof.
  intros Hinv Hr. pose proof (history_length _ _ _ (w_history _ _ _ Hinv)) as Hhl.
  pose proof (Z.mul_nonneg_nonneg (Z.of_nat max_subscribers) history_size ltac:(lia) ltac:(lia)).
  destruct subscribers as [visited|]; cbn [update_connections].
  2: { exists (Ok tt), w.(pub), []. split; [done|]. destruct w. cbn. split_and!; try done.
       - apply Hr.
       - lia.
       - apply (evolves_le 0); [apply zlength_nonneg|apply evolves_refl]. }
  destruct (inv_retrieve w h leaked Hinv Hr) as (st & cs & E & Hi1 & Hf1 & Hle & He & Eu & _).
  unfold populate_subscriber_channels. rewrite E. checked. clear E. cbn zeta in *.
  pose proof Hi1 as [Hh1 Hst1 Hs1 Hn1 Hl1 Hm1 Hsa1]. cbn in Hh1, Hst1, Hs1, Hn1, Hl1, Hm1, Hsa1.
  destruct Hr as [_ [Hrh Hrh2] Hro Hrr]. unfold total_refs in *. cbn in Hle.
  rewrite refs_reorder in Hst1. rewrite !zlength_app in *.
  assert (Ecs : zlength cs = Z.of_nat max_subscribers) by (unfold zlength; by rewrite Hn1).
  destruct (populate_loop_ok service connect degration_callback Hconnects w.(pub).(history) history_size h
    visited cs st (w.(loaned) ++ h ++ leaked) Hh1 Hrh Hrh2)
    as (r & st' & cs' & lost & -> & Hok' & Elen & Hfit' & Hi' & He' & Hl' & Hnl); try done.
  { intros o Ho. rewrite !elem_of_app. auto. }
  { rewrite !zlength_app, Ecs. lia. }
  checked. rewrite Ecs in Hl'. eexists _, _, lost. split; [done|]. cbn. split_and!; try done.
  - split; cbn; try done; [|by rewrite Elen|by destruct He' as [-> _]].
    rewrite refs_reorder. rewrite (app_assoc _ h (lost ++ leaked)), (Permutation_app_swap_app (w.(loaned) ++ h)).
    by rewrite <-app_assoc.
  - by apply Hfit'.
  - rewrite !zlength_app. lia.
  - replace (zlength _ + _) with (zlength w.(loaned) + (zlength h + (zlength (slots_refs w.(pub).(subscriber_connections)) + zlength leaked)) + 0) by lia.
    by eapply evolves_trans.
  - intros [Hb Hf2]. apply Hnl. split; [done|]. by rewrite Eu.
Qed.

(** What [send_impl] does once the connections are up to date. *)
Lemma inv_publish p lo h leaked o :
  Inv {| pub := p; loaned := lo |} h leaked -> o ∈ lo ->
  Forall slot_fits p.(subscriber_connections) -> history_fits p.(history) ->
  Z.of_nat max_subscribers + 3 < ops_left p.(store) ->
  total_refs {| pub := p; loaned := lo |} h leaked + Z.of_nat max_subscribers + 4 < 2 ^ 63 ->
  exists h' n st st' hq cs, add_to_history o p.(store) p.(history) = Ret (st, hq) /\
    deliver_sample o st p.(subscriber_connections) = Ret (n, st', cs) /\
    let w' := {| pub := set_shared p st' cs hq; loaned := lo |} in
    Inv w' h' leaked /\ 0 < ops_left st' /\ total_refs w' h' leaked < 2 ^ 63.
Proof.
  intros [Hh Hi Hs Hn Hl Hm Hsa] Ho Hf Hhf Hleft Ht. cbn in *.
  unfold total_refs in *. cbn in *. rewrite !zlength_app in *.
  pose proof (zlength_nonneg lo). pose proof (zlength_nonneg h). pose proof (zlength_nonneg leaked).
  pose proof (zlength_nonneg (slots_refs p.(subscriber_connections))).
  rewrite (Permutation_app_swap_app lo) in Hi.
  destruct (add_to_history_ok p.(store) p.(history) history_size h o
    (lo ++ slots_refs p.(subscriber_connections) ++ leaked) Hh Hhf)
    as (st & hq & h' & E1 & Hh' & Hi1 & Hlen1 & He1);
    [rewrite elem_of_app; auto|done|lia|rewrite !zlength_app; lia|].
  pose proof He1 as (_ & _ & _ & Hl1).
  assert (Hp : forall cs, h' ++ lo ++ slots_refs cs ++ leaked ≡ₚ slots_refs cs ++ lo ++ h' ++ leaked).
  { intros cs. rewrite (Permutation_app_swap_app h'). apply refs_reorder. }
  rewrite Hp in Hi1.
  assert (Ecs : zlength p.(subscriber_connections) = Z.of_nat max_subscribers) by (unfold zlength; by rewrite Hn).
  destruct (deliver_ok service o p.(subscriber_connections) st (lo ++ h' ++ leaked) Hs Hf)
    as (n & st' & cs & E2 & _ & Hs' & El & Hi2 & Hlen2 & He2);
    [rewrite elem_of_app; auto|done|lia|rewrite !zlength_app; lia|].
  pose proof He2 as (_ & _ & _ & Hl2).
  exists h', n, st, st', hq, cs. split; [done|]. split; [done|]. cbn. split_and!; try lia.
  - split; cbn; try done; [by rewrite refs_reorder|by rewrite El|].
    destruct He1 as [E1' _], He2 as [E2' _]. congruence.
  - rewrite !zlength_app. lia.
Qed.

Lemma inv_send w h leaked k o subscribers :
  Inv w h leaked -> room w h leaked -> w.(loaned) !! k = Some o ->
  exists r p h' lost, send connect degration_callback subscribers o w.(pub) = Ret (r, p) /\
    Inv {| pub := p; loaned := delete k w.(loaned) |} h' (lost ++ leaked) /\
    (lossless w subscribers -> lost = []).
Proof.
  intros Hinv Hr Ek. pose proof (history_length _ _ _ (w_history _ _ _ Hinv)) as Hhl.
  destruct (pub_inv_update w h leaked subscribers Hinv Hr)
    as (r & p & lost & E & Hi1 & Hf1 & Eh & Ht & He & Hlost).
  unfold send, send_impl. rewrite E. checked. clear E. cbn zeta in *.
  pose proof (Z.mul_nonneg_nonneg (Z.of_nat max_subscribers) history_size ltac:(lia) ltac:(lia)).
  destruct Hr as [_ [Hrh Hrh2] Hro Hrr]. pose proof He as (_ & _ & _ & Hleft).
  destruct r as [[]|e].
  2: { checked. destruct (inv_drop _ h (lost ++ leaked) k o Hi1) as (p' & E & Hi2);
         [cbn; lia|lia|done|]. cbn in E. rewrite E. checked. by eexists _, _, h, lost. }
  destruct (inv_publish p w.(loaned) h (lost ++ leaked) o Hi1) as (h' & n & st & st' & hq & cs & E1 & E2 & Hi2 & Hl2 & Ht2);
    [by eapply list_elem_of_lookup_2|done|by rewrite Eh|cbn; lia|lia|]. cbn in Hl2, Ht2.
  rewrite E1. checked. rewrite E2. checked.
  destruct (inv_drop _ h' (lost ++ leaked) k o Hi2) as (p' & E3 & Hi3); [cbn; lia|lia|done|].
  cbn [pub] in E3. rewrite E3. checked. by eexists _, _, h', lost.
Qed.

Lemma inv_slot w h leaked i c c' :
  Inv w h leaked -> w.(pub).(subscriber_connections) !! i = Some (Some c) ->
  conn_ok service c' -> conn_refs c' ≡ₚ conn_refs c -> Inv (set_slot w i c') h leaked.
Proof.
  intros [Hh Hi Hs Hn Hl Hm Hsa] Ei Hc Hp. split; cbn; try done; [|by apply Forall_insert|by rewrite length_insert].
  assert (E : slots_refs (<[i:=Some c']> w.(pub).(subscriber_connections)) ≡ₚ
    slots_refs w.(pub).(subscriber_connections)).
  { apply (Permutation_app_inv_r (slot_refs (Some c))). unfold slots_refs.
    rewrite (bind_insert_perm slot_refs _ i _ _ Ei). cbn. by rewrite Hp. }
  by rewrite E.
Qed.

Lemma pub_inv_receive w h leaked i c :
  Inv w h leaked -> w.(pub).(subscriber_connections) !! i = Some (Some c) ->
  exists c', subscriber_receive c = Ret c' /\ Inv (set_slot w i c') h leaked.
Proof.
  intros Hinv Ei. pose proof (w_slots _ _ _ Hinv) as Hs. rewrite Forall_lookup in Hs.
  destruct (Hs _ _ Ei) as [Hwf Hse Hfl]. unfold subscriber_receive.
  destruct (receive_ok _ _ Hwf) as (r & m & b & -> & Hwf' & Ese & Ert & _ & _ & Ertc & Hr). checked.
  eexists. split; [done|]. unfold in_flight in Hfl.
  eapply inv_slot; [done..| |]; unfold conn_refs; cbn; destruct r as [[v|]|[]]; destruct Hr as (Erx & Hr).
  - subst b. split; cbn; unfold in_flight; rewrite ?zlength_app; change (zlength [v]) with 1.
    + done.
    + congruence.
    + rewrite Ert, Ertc. rewrite Erx, zlength_cons in Hfl. lia.
  - destruct Hr as [Hr ->]. split; cbn; [done|congruence|]. unfold in_flight. rewrite Ert, Ertc, Hr.
    by rewrite Erx in Hfl.
  - destruct Hr as [-> _]. subst m. by split.
  - rewrite Erx, Ert. cbn. by rewrite !app_assoc, (Permutation_app_comm _ [v]).
  - destruct Hr as [Hr _]. by rewrite Erx, Hr, Ert.
  - by subst m.
Qed.

Lemma pub_inv_release w h leaked i c k v :
  Inv w h leaked -> Forall slot_fits w.(pub).(subscriber_connections) ->
  w.(pub).(subscriber_connections) !! i = Some (Some c) -> c.(borrowed) !! k = Some v ->
  exists c', subscriber_release c k v = Ret c' /\ Inv (set_slot w i c') h leaked.
Proof.
  intros Hinv Hf Ei Ek. pose proof (w_slots _ _ _ Hinv) as Hs. rewrite Forall_lookup in Hs, Hf.
  destruct (Hs _ _ Ei) as [Hwf Hse Hfl]. pose proof (conn_fits_fits _ (Hf _ _ Ei)) as Hfit.
  pose proof (Permutation_length (lookup_split_perm _ _ _ Ek)) as Elen. cbn in Elen.
  unfold subscriber_release, in_flight in *. pose proof (zlength_nonneg (received c.(channel))).
  destruct (zc_release_ok _ _ v Hwf Hfit) as (r & m & b & -> & Hwf' & Ese & Erx & _ & _ & _ & Hr);
    [unfold zlength; lia|]. checked.
  destruct r as [[]|[]]; [|exfalso; unfold zlength in *; lia]. destruct Hr as [Ert ->].
  assert (Eb : zlength c.(borrowed) - 1 = zlength (delete k c.(borrowed))) by (unfold zlength; lia).
  rewrite Eb in Hwf'. eexists. split; [done|]. eapply inv_slot; [done..| |].
  - split; cbn; [done|congruence|]. rewrite (capacity_settings _ _ _ _ Hwf Hwf' Ese). unfold in_flight.
    rewrite Erx, Ert, zlength_app. change (zlength [v]) with 1. lia.
  - unfold conn_refs. cbn. rewrite Erx, Ert, <-app_assoc.
    by do 2 apply Permutation_app_head; symmetry; apply lookup_split_perm.
Qed.

(** No operation panics, and every operation keeps the invariant. *)
Lemma perform_ok w h leaked o out :
  Inv w h leaked -> room w h leaked -> perform connect degration_callback o w = Some out ->
  exists w' h' lost, out = Ret w' /\ Inv w' h' (lost ++ leaked) /\
    (match o with Send _ subscribers | Update subscribers => lossless w subscribers | _ => True end ->
     lost = []).
Proof.
  intros Hinv Hr E. pose proof Hr as [Hrs _ Hro Hrr].
  assert (Ht : total_refs w h leaked < 2 ^ 63 /\ 0 < ops_left w.(pub).(store)).
  { pose proof (history_length _ _ _ (w_history _ _ _ Hinv)).
    pose proof (Z.mul_nonneg_nonneg (Z.of_nat max_subscribers) (history_size + 1)).
    unfold total_refs in *. pose proof (zlength_nonneg
      (w.(loaned) ++ h ++ slots_refs w.(pub).(subscriber_connections) ++ leaked)). lia. }
  destruct o as [|k|k subs|subs|i|i k]; cbn in E.
  - destruct (inv_loan w h leaked Hinv Hr) as (r & p & Er & Hres). rewrite Er in E. injection E as <-. cbn.
    eexists _, h, []. split; [done|]. split; [|done]. by destruct r as [|e]; destruct Hres as [Hi _].
  - destruct (_ !! k) as [v|] eqn:Ek; [|done]. injection E as <-.
    destruct (inv_drop w h leaked k v Hinv) as (p & -> & Hi); [lia|lia|done|]. cbn. by eexists _, h, [].
  - destruct (_ !! k) as [v|] eqn:Ek; [|done]. injection E as <-.
    destruct (inv_send w h leaked k v subs Hinv Hr Ek) as (r & p & h' & lost & -> & Hi & Hl). cbn.
    by eexists _, h', lost.
  - injection E as <-.
    destruct (pub_inv_update w h leaked subs Hinv Hr) as (r & p & lost & -> & Hi & _ & _ & _ & _ & Hl). cbn.
    by eexists _, h, lost.
  - destruct (_ !! i) as [[c|]|] eqn:Ei; try done. injection E as <-.
    destruct (pub_inv_receive w h leaked i c Hinv Ei) as (c' & -> & Hi). cbn. by eexists _, h, [].
  - destruct (_ !! i) as [[c|]|] eqn:Ei; try done. destruct (_ !! k) as [v|] eqn:Ek; [|done].
    injection E as <-. destruct (pub_inv_release w h leaked i c k v Hinv Hrs Ei Ek) as (c' & -> & Hi). cbn.
    by eexists _, h, [].
Qed.

End world_lemmas.

(** ** Counting all holders *)

Definition sum (l : list Z) : Z := foldr Z.add 0 l.

Lemma sum_indicator n : forall s x, s <= x < s + Z.of_nat n ->
  sum ((fun i => if decide (x = i) then 1 else 0) <$> seqZ s (Z.of_nat n)) = 1.
Proof.
  assert (Hzero : forall n s x, x < s -> sum ((fun i => if decide (x = i) then 1 else 0) <$> seqZ s (Z.of_nat n)) = 0).
  { clear. induction n as [|n IH]; intros s x Hx; [done|]. rewrite Nat2Z.inj_succ, seqZ_cons by lia. cbn.
    rewrite decide_False by lia. rewrite Z.pred_succ. rewrite IH; lia. }
  induction n as [|n IH]; intros s x Hx; [lia|]. rewrite Nat2Z.inj_succ, seqZ_cons by lia. cbn.
  rewrite Z.pred_succ. case_decide; [rewrite Hzero; lia|]. rewrite IH; lia.
Qed.

Lemma sum_add {B} (f g : B -> Z) l : sum ((fun x => f x + g x) <$> l) = sum (f <$> l) + sum (g <$> l).
Proof. induction l as [|x l IH]; [done|]. rewrite !fmap_cons. cbn [sum foldr]. unfold sum in IH. lia. Qed.

Lemma sum_ones l : Forall (fun x => 0 < x) l -> zlength l <= sum l.
Proof. induction 1; [done|]. rewrite zlength_cons. cbn [sum foldr]. unfold sum in *. lia. Qed.

Section totals.
Context `{Profile} {A : Type} `{DataSegment A}.
Implicit Types (st : Store A) (refs : list Z).

Lemma counters_holders st refs :
  store_inv st refs ->
  st.(sample_reference_counter) = (fun i => holders st i refs) <$> seqZ 0 (samples st).
Proof.
  intros [_ Hl _ Hc _]. apply list_eq. intros i. rewrite list_lookup_fmap.
  destruct (decide (Z.of_nat i < samples st)) as [Hi|Hi].
  - rewrite lookup_seqZ_lt by lia. cbn. specialize (Hc (Z.of_nat i) ltac:(lia)).
    by rewrite Nat2Z.id in Hc.
  - rewrite lookup_seqZ_ge by lia. cbn. apply lookup_ge_None_2. unfold zlength in Hl. lia.
Qed.

(** The counters add up to the number of holders. *)
Lemma counted_refs st refs : store_inv st refs -> sum st.(sample_reference_counter) = zlength refs.
Proof.
  intros Hi. rewrite (counters_holders st refs Hi).
  assert (Hr : Forall (fun o => 0 <= sample_index st o < samples st) refs).
  { apply Forall_forall. intros o Ho. by apply (held_index st o refs). }
  clear Hi. induction Hr as [|o refs Ho Hr IH].
  - induction (seqZ 0 (samples st)) as [|x l IHl]; [done|]. rewrite fmap_cons. cbn [sum foldr].
    unfold sum in IHl. rewrite IHl. done.
  - rewrite (list_fmap_ext _ (fun i => (if decide (sample_index st o = i) then 1 else 0) + holders st i refs)).
    + rewrite sum_add, IH, zlength_cons. rewrite <-(Z2Nat.id (samples st)) by lia.
      rewrite sum_indicator by lia. done.
    + intros i x _. apply holders_cons.
Qed.

Lemma all_held st refs :
  store_inv st refs -> (forall i, 0 <= i < samples st -> 0 < holders st i refs) ->
  samples st <= zlength refs.
Proof.
  intros Hi Hall. rewrite <-(counted_refs st refs Hi). rewrite <-(si_length st refs Hi).
  apply sum_ones. rewrite (counters_holders st refs Hi). apply Forall_fmap, Forall_forall.
  intros i Hin. apply elem_of_seqZ in Hin. cbn. apply Hall. lia.
Qed.

End totals.

(** ** Occupied slots *)

Section occupants.
Context `{Profile} {A Q R : Type} `{DataSegment A} `{OverflowFifo Q} `{IndexFifo R}.
Context (connect : Z -> Result (Management Q R) ZeroCopyCreationError).
Context (degration_callback : option (Z -> DegrationAction)).
Implicit Types (st : Store A) (cs : list (option (Connection Q R))).

Lemma retrieve_occupant cs : forall st st' cs',
  retrieve_returned_samples st cs = Ret (st', cs') -> occupant <$> cs' = occupant <$> cs.
Proof.
  induction cs as [|[c|] cs IH]; intros st st' cs' E; cbn [retrieve_returned_samples] in E; inv_outcome.
  - done.
  - destruct x as [st1 m1]. inv_outcome. destruct x as [st2 cs2]. inv_outcome.
    rewrite !fmap_cons. f_equal. by eapply IH.
  - destruct x as [st2 cs2]. inv_outcome. rewrite !fmap_cons. f_equal. by eapply IH.
Qed.

Lemma populate_loop_occupant h visited : forall st cs r st' cs' i old new,
  populate_loop connect degration_callback h visited st cs = Ret (r, st', cs') ->
  visited !! i = Some (Some new) -> (occupant <$> cs) !! i = Some (Some old) ->
  (occupant <$> cs') !! i = Some (Some old).
Proof.
  induction visited as [|v visited IH]; intros st cs r st' cs' i old new E Ev Eo; [done|].
  destruct cs as [|slot cs]; [done|]. cbn [populate_loop] in E. inv_outcome.
  destruct x as [[st1 slot1]|e]; inv_outcome; [|done]. destruct x as [[r2 st2] cs2]. inv_outcome.
  destruct i as [|i]; cbn in Ev, Eo |- *; [|by eapply IH].
  injection Ev as ->. injection Eo as Eo. destruct slot as [c|]; [|done]. cbn in *. by simplify_eq.
Qed.

End occupants.

(** ** Properties *)

Section properties.
Context `{Profile} {A Q R : Type} `{DataSegment A} `{OverflowFifo Q} `{IndexFifo R}.
Context (service : Z * Z * bool) (history_size max_loaned : Z) (max_subscribers : nat).
Context (connect : Z -> Result (Management Q R) ZeroCopyCreationError).
Context (degration_callback : option (Z -> DegrationAction)).
Implicit Types w : world A Q R.

(** No counter is close to its limit. *)
Record has_room w : Prop := {
  hr_slots : Forall slot_fits w.(pub).(subscriber_connections);
  hr_history : history_fits w.(pub).(history) /\ history_size < 2 ^ 61;
  hr_operations : sum w.(pub).(store).(sample_reference_counter) + Z.of_nat max_subscribers + 4 <
    ops_left w.(pub).(store);
  hr_refs : sum w.(pub).(store).(sample_reference_counter) +
    Z.of_nat max_subscribers * (history_size + 1) + 4 < 2 ^ 62;
}.

(** [careful]: an update of the connections closes none that holds queued or borrowed
    samples, and the history fits into a subscriber buffer. *)
Definition careful_operation w (o : operation) : Prop :=
  match o with
  | Send _ subscribers | Update subscribers => lossless service history_size w subscribers
  | _ => True
  end.

Inductive publisher_step (careful : bool) w w' : Prop :=
| publisher_step_intro o :
    has_room w -> (careful = true -> careful_operation w o) ->
    perform connect degration_callback o w = Some (Ret w') -> publisher_step careful w w'.

(** A segment of which nothing has been allocated. *)
Definition fresh_segment (segment : A) (message : Layout) (number_of_samples : Z) : Prop :=
  seg_serves segment message /\ seg_samples segment = number_of_samples /\
  exists free, seg_free segment free /\ forall i, 0 <= i < number_of_samples -> i ∈ free.

Definition start (segment : A) (message payload : Layout) (number_of_samples : Z) : world A Q R :=
  {| pub := publisher_new segment message payload number_of_samples max_subscribers history_size max_loaned;
     loaned := [] |}.

Lemma start_inv segment message payload n :
  0 <= history_size -> 0 <= max_loaned -> 0 <= n -> fresh_segment segment message n ->
  Inv service history_size max_loaned n max_subscribers (start segment message payload n) [] [].
Proof.
  intros Hh Hm Hn (Hs & En & free & Hf & Hall).
  assert (Eslots : slots_refs (replicate max_subscribers (@None (Connection Q R))) = []).
  { unfold slots_refs. clear. by induction max_subscribers. }
  split; cbn; try done.
  - destruct (Z.eqb_spec history_size 0); cbn; [done|]. split_and!; [apply CQ.cq_new_repr; lia|done|lia].
  - rewrite Eslots. cbn. split; unfold samples; cbn; rewrite ?En; try done.
    + unfold zlength. rewrite length_replicate. lia.
    + intros i Hi. apply lookup_replicate_2. lia.
    + exists free. split; [done|]. intros i Hi. split; [done|]. intros _. by apply Hall.
  - by apply Forall_replicate.
  - apply length_replicate.
Qed.

Lemma has_room_room n w h leaked :
  Inv service history_size max_loaned n max_subscribers w h leaked -> has_room w ->
  room history_size max_subscribers w h leaked.
Proof.
  intros Hinv [Hs Hh Ho Hr]. rewrite (counted_refs _ _ (w_store _ _ _ _ _ _ _ _ Hinv)) in Ho, Hr.
  by split.
Qed.

Lemma pub_step_inv n careful w w' h leaked :
  connects service connect ->
  Inv service history_size max_loaned n max_subscribers w h leaked -> publisher_step careful w w' ->
  exists h' lost, Inv service history_size max_loaned n max_subscribers w' h' (lost ++ leaked) /\
    (careful = true -> lost = []).
Proof.
  intros Hc Hinv [o Hroom Hcare E].
  destruct (perform_ok service history_size max_loaned n max_subscribers connect degration_callback Hc
    w h leaked o (Ret w') Hinv (has_room_room n w h leaked Hinv Hroom) E) as (w1 & h' & lost & [= <-] & Hi & Hl).
  exists h', lost. split; [done|]. intros Ec. apply Hl. by apply Hcare.
Qed.

Lemma pub_reachable_inv careful segment message payload n w :
  connects service connect -> 0 <= history_size -> 0 <= max_loaned -> 0 <= n ->
  fresh_segment segment message n ->
  rtc (publisher_step careful) (start segment message payload n) w ->
  exists h leaked, Inv service history_size max_loaned n max_subscribers w h leaked /\
    (careful = true -> leaked = []).
Proof.
  intros Hc Hh Hm Hn Hf Hr.
  apply (rtc_invariant (publisher_step careful) (fun w => exists h leaked,
    Inv service history_size max_loaned n max_subscribers w h leaked /\ (careful = true -> leaked = []))
    (start segment message payload n)); [|done|].
  - intros a b Hstep (h & leaked & Hi & Hl). destruct (pub_step_inv n _ _ _ _ _ Hc Hi Hstep) as (h' & lost & Hi' & Hl').
    exists h', (lost ++ leaked). split; [done|]. intros Ec. by rewrite Hl, Hl'.
  - exists [], []. split; [|done]. by apply start_inv.
Qed.

(** What the connections hold when nothing waits to be reclaimed. *)
Lemma slots_bound (cs : list (option (Connection Q R))) :
  Forall (slot_ok service) cs ->
  Forall (fun slot => match slot with Some c => returned c.(channel) = [] | None => True end) cs ->
  0 <= service.1.1 + service.1.2 ->
  zlength (slots_refs cs) <= zlength cs * (service.1.1 + service.1.2).
Proof.
  intros Hok Hret Hpos. induction cs as [|slot cs IH]; [done|].
  apply Forall_cons in Hok as [Hs Hok], Hret as [Hr Hret]. specialize (IH Hok Hret).
  rewrite zlength_slots, zlength_cons, Z.mul_add_distr_r.
  destruct slot as [c|]; cbn [slot_refs]; [|change (zlength (@nil Z)) with 0; lia].
  destruct Hs as [Hwf Hse _]. pose proof (wf_bounds _ _ Hwf) as (Hb & _).
  pose proof (ZC.wf_borrow _ _ Hwf) as Hbo. unfold conn_refs. rewrite Hr, !zlength_app.
  change (zlength (@nil Z)) with 0.
  assert (service.1.1 = buffer_size c.(channel) /\ service.1.2 = c.(channel).(max_borrowed_samples))
    by (rewrite <-Hse; done). lia.
Qed.

End properties.


(** C7: As long as only connections without queued and borrowed samples are closed, the
    history fits into a subscriber's buffer, the operations of the publisher and its
    subscribers run one at a time and no counter is close to its limit ([has_room]: fewer
    than about 2^32 operations on the pool of samples, 2^62 pushes on a connection), the
    data segment of [required_amount_of_samples_per_data_segment] samples suffices: a loan
    succeeds with a sample nobody holds, or is refused exactly because the user already
    has [max_loaned_samples] loans; it never runs out of memory. *)
Theorem publisher_loan_succeeds `{Profile} {A Q R} `{DataSegment A} `{OverflowFifo Q} `{IndexFifo R}
    buffer_size borrowed_samples overflow history_size max_loaned max_subscribers
    (connect : Z -> Result (Management Q R) ZeroCopyCreationError) degration_callback
    (segment : A) message payload n w :
  let service := (buffer_size, borrowed_samples, overflow) in
  required_amount_of_samples_per_data_segment (Z.of_nat max_subscribers) buffer_size
    borrowed_samples history_size max_loaned = Ret n ->
  Z.of_nat max_subscribers * (buffer_size + borrowed_samples) + history_size + max_loaned + 1 < 2 ^ 64 ->
  0 <= buffer_size -> 0 <= borrowed_samples -> buffer_size + borrowed_samples < 2 ^ 64 ->
  connects service connect -> 0 <= history_size -> 0 <= max_loaned ->
  fresh_segment segment message n ->
  rtc (publisher_step service history_size max_subscribers connect degration_callback true)
    (start history_size max_loaned max_subscribers segment message payload n) w ->
  has_room history_size max_subscribers w ->
  exists r p, loan_uninit w.(pub) = Ret (r, p) /\
    match r with
    | Ok o => exists h, history_repr w.(pub).(history) history_size h /\
        o ∉ w.(loaned) ++ h ++ slots_refs p.(subscriber_connections)
    | Err e => e = ExceedsMaxLoanedChunks /\ zlength w.(loaned) = max_loaned
    end.
Proof.
  intros service En Hfit Hb Hbo Hbb Hc Hh Hm Hf Hr Hroom.
  pose proof (Z.mul_nonneg_nonneg (Z.of_nat max_subscribers) (buffer_size + borrowed_samples)
    ltac:(lia) ltac:(lia)).
  unfold required_amount_of_samples_per_data_segment in En. revert En. checked. intros [= <-].
  assert (Hn0 : 0 <= Z.of_nat max_subscribers * (buffer_size + borrowed_samples) + history_size + max_loaned + 1) by lia.
  destruct (pub_reachable_inv _ _ _ _ _ _ true _ _ _ _ _ Hc Hh Hm Hn0 Hf Hr) as (h & leaked & Hinv & Hl).
  rewrite (Hl eq_refl) in Hinv. clear Hl leaked.
  destruct (inv_loan _ _ _ _ _ w h [] Hinv (has_room_room _ _ _ _ _ w h [] Hinv Hroom)) as (r & p & E & Hres).
  exists r, p. split; [done|]. destruct r as [o|[]]; destruct Hres as [Hi Hres]; try done.
  - rewrite app_nil_r in Hres. exists h. split; [apply Hinv|done].
  - exfalso. destruct Hres as (Hlt & Hret & Esa & Hall).
    pose proof (all_held _ _ (w_store _ _ _ _ _ _ _ _ Hi) Hall) as Hle. cbn in Hle.
    pose proof (slots_bound service _ (w_slots _ _ _ _ _ _ _ _ Hi) Hret ltac:(cbn; lia)) as Hsl. cbn in Hsl.
    pose proof (w_length _ _ _ _ _ _ _ _ Hi) as Hn. cbn in Hn.
    pose proof (history_length _ _ _ (w_history _ _ _ _ _ _ _ _ Hi)).
    rewrite Esa, app_nil_r, !zlength_app in Hle. unfold zlength in Hsl at 2. rewrite Hn in Hsl.
    rewrite (w_samples _ _ _ _ _ _ _ _ Hinv) in Hle. lia.
Qed.

(** ** Examples and witnesses *)

(** The conditions of a step, as a test. *)
Section executable.
Context `{Profile} {A Q R : Type} `{DataSegment A} `{OverflowFifo Q} `{IndexFifo R}.
Context (service : Z * Z * bool) (history_size : Z) (max_subscribers : nat).
Context (connect : Z -> Result (Management Q R) ZeroCopyCreationError).
Context (degration_callback : option (Z -> DegrationAction)).
Implicit Types w : world A Q R.

Definition slot_fitsb (slot : option (Connection Q R)) : bool :=
  match slot with
  | Some c => (ofifo_pushes c.(channel).(receive_channel) <? 2 ^ 62) &&
      (fifo_pushes c.(channel).(retrieve_channel) <? 2 ^ 62)
  | None => true
  end.

Definition has_roomb w : bool :=
  forallb slot_fitsb w.(pub).(subscriber_connections) &&
  (match w.(pub).(history) with
   | None => true
   | Some q => q.(CQ.start) + q.(CQ.capacity) + 1 <? 2 ^ 64
   end && (history_size <? 2 ^ 61)) &&
  (sum w.(pub).(store).(sample_reference_counter) + Z.of_nat max_subscribers + 4 <?
     ops_left w.(pub).(store)) &&
  (sum w.(pub).(store).(sample_reference_counter) +
     Z.of_nat max_subscribers * (history_size + 1) + 4 <? 2 ^ 62).

Lemma has_roomb_ok w : has_roomb w = true -> has_room history_size max_subscribers w.
Proof.
  unfold has_roomb. intros E. bool_to_prop. split; try done.
  - apply Forall_forall. intros slot Hin. apply list_elem_of_In in Hin.
    pose proof (proj1 (forallb_forall _ _) H3 slot Hin) as Es. destruct slot; [|done]. cbn in *.
    bool_to_prop. by split.
  - split; [|done]. destruct w.(pub).(history); cbn; [by bool_to_prop|done].
Qed.

#[global] Instance careful_operation_dec w o : Decision (careful_operation service history_size w o).
Proof. destruct o as [| |? []|[]| |]; cbn; unfold nothing_lost; apply _. Defined.

(** One step, with all its conditions checked. *)
Definition checked_act (careful : bool) (o : operation) w : option (world A Q R) :=
  if has_roomb w && (negb careful || bool_decide (careful_operation service history_size w o))
  then runs_act connect degration_callback o w else None.

Lemma checked_act_step careful l : forall w w',
  run_schedule (checked_act careful) l w = Some w' ->
  rtc (publisher_step service history_size max_subscribers connect degration_callback careful) w w'.
Proof.
  induction l as [|o l IH]; intros w w' E; cbn in E; [injection E as <-; apply rtc_refl|].
  unfold checked_act, runs_act in E. destruct (_ && _) eqn:Eb; [|done].
  destruct (perform _ _ o w) as [[w1|]|] eqn:Ep; try done.
  apply andb_prop in Eb as [Er Ec]. eapply rtc_l; [|by apply IH].
  eapply publisher_step_intro; [by apply has_roomb_ok| |done]. intros ->. cbn in Ec. by bool_to_prop.
Qed.

End executable.

#[local] Instance example_profile : Profile := dev.
#[local] Existing Instances ZC.O.overflow_queue_fifo ZC.I.index_queue_fifo.

Definition example_layout : Layout := {| size := 24; layout_align := 8 |}.

(** Connections with a buffer of [buffer] samples, one borrowed sample, and overflow. *)
Definition example_connect (buffer : Z) (id : Z) : Result ZC.Mgmt ZeroCopyCreationError :=
  match create_port {| b_buffer_size := buffer; b_enable_safe_overflow := true;
                       b_max_borrowed_samples := 1 |} 128 4096 Sender None with
  | Ret r => r
  | Panic => Err ZC.InternalError
  end.

Lemma example_connects buffer :
  0 <= buffer < 2 ^ 56 -> connects (buffer, 1, true) (example_connect buffer).
Proof.
  intros Hb id m E. unfold example_connect in E.
  destruct (create_port_new_ok {| b_buffer_size := buffer; b_enable_safe_overflow := true;
    b_max_borrowed_samples := 1 |} 128 4096 Sender) as (m' & Em & Hm); [cbn; lia..|].
  rewrite Em in E. injection E as <-. by destruct Hm as (? & _ & ? & ? & ? & ? & ?).
Qed.

Definition example_segment (n : Z) : ShmPoolAllocator :=
  match create_data_segment 100 4096 4096 n example_layout with
  | Ret (Ok s) => s
  | _ => {| allocator := P.set_buckets {| P.buckets := P.U.new_uninit 0; P.bucket_size := 0;
              P.bucket_alignment := 0; P.start := 0; P.pool_size := 0;
              P.is_memory_initialized := false |} (P.U.new_uninit 0);
            base_address := 0; max_supported_alignment_by_memory := 0 |}
  end.

Lemma example_fresh n :
  0 < n < 2 ^ 20 -> fresh_segment (example_segment n) example_layout n.
Proof.
  intros Hn. unfold example_segment.
  destruct (create_data_segment_ok 100 4096 4096 n example_layout)
    as (s & -> & Hr & Hs & En & _); try (cbn; lia); [split; [cbn; lia|by exists 3]|done|].
  split_and!; try done. exists (seqZ 0 n). split; [done|]. intros i Hi. apply elem_of_seqZ. lia.
Qed.

(** One subscriber slot, a history of one sample, at most two loans, a buffer of two:
    seven samples. *)
Definition example_start : world ShmPoolAllocator ZC.O.OverflowQueue ZC.I.IndexQueue :=
  start 1 2 1 (example_segment 7) example_layout example_layout 7.

(** A subscriber connects, receives one of two samples and returns it. *)
Definition example_operations : list operation :=
  [Update (Some [Some 7]); Loan; Loan; Send 0 None; Send 0 None; Receive 0; Release 0 0; Loan].


(** The subscriber takes the second sample too and leaves; another one takes its place. *)
Definition example_departure : list operation :=
  example_operations ++
  [Receive 0; Release 0 0; Update (Some [None]); Update (Some [Some 8]); Receive 0].

Lemma publisher_loan_succeeds_witness :
  exists w, run_schedule (checked_act (2, 1, true) 1 1 (example_connect 2) None true)
      example_departure example_start = Some w /\
    exists r p, loan_uninit w.(pub) = Ret (r, p) /\
      match r with
      | Ok o => exists h, history_repr w.(pub).(history) 1 h /\
          o ∉ w.(loaned) ++ h ++ slots_refs p.(subscriber_connections)
      | Err e => e = ExceedsMaxLoanedChunks /\ zlength w.(loaned) = 2
      end.
Proof.
  destruct (run_schedule (checked_act (2, 1, true) 1 1 (example_connect 2) None true)
    example_departure example_start) as [w|] eqn:E; [|vm_compute in E; discriminate E].
  exists w. split; [done|].
  apply (publisher_loan_succeeds 2 1 true 1 2 1 (example_connect 2) None (example_segment 7)
    example_layout example_layout 7 w).
  - vm_compute. reflexivity.
  - lia.
  - lia.
  - lia.
  - lia.
  - apply example_connects. lia.
  - lia.
  - lia.
  - apply example_fresh. lia.
  - by apply (checked_act_step _ _ _ _ _ true example_departure).
  - apply has_roomb_ok. vm_compute in E. injection E as <-. vm_compute. reflexivity.
Defined.

(** Connecting, sending two samples and disappearing without receiving them. *)
Definition visit : list operation :=
  [Update (Some [Some 7]); Loan; Send 0 None; Loan; Send 0 None; Update (Some [None])].

(** Samples in a connection that is removed are leaked: [populate_subscriber_channels]
    reclaims only what the subscriber has returned before it drops the connection, so
    the counters of the samples still queued (or borrowed) never reach zero.  After
    three short-lived subscribers a publisher with no loans and no subscribers is out
    of memory.  And when the history is larger than the subscriber buffer of an
    overflowing service, [deliver_history] ignores the samples the full buffer hands
    back: without any connection being closed, two samples have a counter that exceeds
    their holders. *)
Theorem publisher_leaks_samples :
  (exists w p, rtc (publisher_step (2, 1, true) 1 1 (example_connect 2) None false) example_start w /\
    w.(loaned) = [] /\ w.(pub).(subscriber_connections) = [None] /\
    loan_uninit w.(pub) = Ret (Err OutOfMemory, p)) /\
  (exists w q, rtc (publisher_step (1, 1, true) 3 1 (example_connect 1) None false)
      (start 3 2 1 (example_segment 8) example_layout example_layout 8) w /\
    w.(loaned) = [] /\ w.(pub).(history) = Some q /\
    sum w.(pub).(store).(sample_reference_counter) =
      q.(CQ.len) + zlength (slots_refs w.(pub).(subscriber_connections)) + 2).
Proof.
  split.
  - eexists _, _. split; [apply (checked_act_step _ _ _ _ _ false (visit ++ visit ++ visit ++ [Loan; Send 0 None]));
      vm_compute; reflexivity|]. split_and!; vm_compute; reflexivity.
  - eexists _, _. split; [apply (checked_act_step _ _ _ _ _ false
      [Loan; Send 0 None; Loan; Send 0 None; Loan; Send 0 None; Update (Some [Some 7])]);
      vm_compute; reflexivity|]. split_and!; vm_compute; reflexivity.
Qed.

(** A subscriber that takes over the index of one that has left between two updates
    is never connected: [SubscriberConnections::create] leaves an occupied slot as it
    is without comparing the identifiers, for every publisher state. *)
Theorem publisher_keeps_stale_connection `{Profile} {A Q R} `{DataSegment A} `{OverflowFifo Q}
    `{IndexFifo R} (connect : Z -> Result (Management Q R) ZeroCopyCreationError) degration_callback
    (p : Publisher A Q R) visited r p' i old new :
  populate_subscriber_channels connect degration_callback visited p = Ret (r, p') ->
  visited !! i = Some (Some new) ->
  (occupant <$> p.(subscriber_connections)) !! i = Some (Some old) ->
  (occupant <$> p'.(subscriber_connections)) !! i = Some (Some old).
Proof.
  intros E Ev Eo. unfold populate_subscriber_channels in E. inv_outcome.
  destruct x as [st cs]. inv_outcome. destruct x as [[r1 st1] cs1]. inv_outcome. cbn.
  eapply populate_loop_occupant; [done..|]. by rewrite (retrieve_occupant _ _ _ _ H3).
Qed.

(** The publisher after subscriber 7 has connected at index 0. *)
Definition connected_publisher : Publisher ShmPoolAllocator ZC.O.OverflowQueue ZC.I.IndexQueue :=
  match update_connections (example_connect 2) None (Some [Some 7]) example_start.(pub) with
  | Ret (_, p) => p
  | Panic => example_start.(pub)
  end.

Lemma publisher_keeps_stale_connection_witness :
  exists r p',
    populate_subscriber_channels (example_connect 2) None [Some 8] connected_publisher = Ret (r, p') /\
    (occupant <$> p'.(subscriber_connections)) !! 0%nat = Some (Some 7).
Proof.
  destruct (populate_subscriber_channels (example_connect 2) None [Some 8] connected_publisher)
    as [[r p']|] eqn:E; [|vm_compute in E; discriminate E].
  exists r, p'. split; [done|].
  apply (publisher_keeps_stale_connection (example_connect 2) None connected_publisher [Some 8]
    r p' 0 7 8 E); vm_compute; reflexivity.
Defined.
