(* ===== verification/Locks.v ===== *)
(** * iceoryx2_pal/concurrency_primitives: mutex, condition variable, semaphore, barrier

    The primitives the platform layer builds its POSIX locks from where the operating
    system has none that work across processes.  Every thread is a program counter
    that advances by one shared access; threads interleave without restriction.

    The [wait] argument of the operations is code of the platform.  It is asked to
    block while an atomic still holds an expected value: an [AStep] of a thread inside
    [wait] is possible only when the value has changed, and [AWake keep_running] is a
    return for any other reason (spurious, or a timeout when [keep_running] is false).
    The wake functions change no state of the primitives. *)

From S2P Require Import Prelude.

(* src/iceoryx2_pal/concurrency_primitives/src/lib.rs:15-15 SPIN_REPETITIONS *)
Definition SPIN_REPETITIONS : Z := 10000.

(** ** Mutex and condition variable *)

Inductive mutex_call := Clock | Ctry_lock | Cunlock | Ccv_wait | Ccv_notify.

Inductive action (C : Type) := ACall (c : C) | AStep | AWake (keep_running : bool) | ASpurious.
Arguments ACall {C} c.
Arguments AStep {C}.
Arguments AWake {C} keep_running.
Arguments ASpurious {C}.

(** The word of the mutex and the counter of the condition variable; [notifications]
    counts the calls of [notify]. *)
(* src/iceoryx2_pal/concurrency_primitives/src/condition_variable.rs:17-19 ConditionVariable *)
Record mutex_cells := { state : Z; counter : Z; notifications : Z }.

Definition set_state (g : mutex_cells) v :=
  {| state := v; counter := g.(counter); notifications := g.(notifications) |}.

Inductive mutex_pc :=
| MIdle (result : option bool)
| MOwner
| MTryLock                          (* the compare_exchange of [try_lock] *)
| MUncontested                      (* the first attempt of [uncontested_lock] *)
| MSpin (retry_counter : Z)         (* its retries *)
| MWait                             (* inside [wait(&self.state, &1)] *)
| MRetry (keep_running : bool)      (* the compare_exchange after [wait] *)
| MUnlock
| CvLoad
| CvUnlock (counter_value : Z)
| CvWait (counter_value : Z).       (* inside [wait(&self.counter, &counter_value)] *)

(** [try_lock]'s compare_exchange, and where to continue. *)
(* src/iceoryx2_pal/concurrency_primitives/src/mutex.rs:63-67 try_lock *)
Definition try_lock (g : mutex_cells) (failed : mutex_pc) : mutex_cells * mutex_pc :=
  match compare_exchange g.(state) 0 1 with
  | (Ok _, v) => (set_state g v, MOwner)
  | (Err _, v) => (set_state g v, failed)
  end.

(* src/iceoryx2_pal/concurrency_primitives/src/mutex.rs:69-89 uncontested_lock *)
Definition uncontested_lock (g : mutex_cells) (retry_counter : option Z) : mutex_cells * mutex_pc :=
  match retry_counter with
  | None => try_lock g (MSpin 0)
  | Some n => try_lock g (if SPIN_REPETITIONS =? n + 1 then MWait else MSpin (n + 1))
  end.

(* src/iceoryx2_pal/concurrency_primitives/src/mutex.rs:36-56 lock *)
Definition lock_step (g : mutex_cells) (p : mutex_pc) : option (mutex_cells * mutex_pc) :=
  match p with
  | MUncontested => Some (uncontested_lock g None)
  | MSpin n => Some (uncontested_lock g (Some n))
  | MWait => if g.(state) =? 1 then None else Some (g, MRetry true)
  | MRetry keep_running => Some (try_lock g (if keep_running then MWait else MIdle (Some false)))
  | _ => None
  end.

(* src/iceoryx2_pal/concurrency_primitives/src/mutex.rs:58-61 unlock *)
Definition unlock (g : mutex_cells) : mutex_cells := set_state g 0.

(* src/iceoryx2_pal/concurrency_primitives/src/condition_variable.rs:34-37 notify *)
Definition notify (g : mutex_cells) : mutex_cells :=
  {| state := g.(state); counter := wrapping_add 32 g.(counter) 1;
     notifications := g.(notifications) + 1 |}.

(* src/iceoryx2_pal/concurrency_primitives/src/condition_variable.rs:39-61 wait *)
Definition cv_wait_step (g : mutex_cells) (p : mutex_pc) : option (mutex_cells * mutex_pc) :=
  match p with
  | CvLoad => Some (g, CvUnlock g.(counter))
  | CvUnlock counter_value => Some (unlock g, CvWait counter_value)
  | CvWait counter_value =>
      if g.(counter) =? counter_value then None else Some (g, MUncontested)
  | _ => None
  end.

Definition mutex_act (a : action mutex_call) (g : mutex_cells) (p : mutex_pc)
    : option (mutex_cells * mutex_pc) :=
  match a, p with
  | ACall Clock, MIdle _ => Some (g, MUncontested)
  | ACall Ctry_lock, MIdle _ => Some (g, MTryLock)
  | ACall Cunlock, MOwner => Some (g, MUnlock)
  | ACall Ccv_wait, MOwner => Some (g, CvLoad)
  | ACall Ccv_notify, MIdle _ | ACall Ccv_notify, MOwner => Some (notify g, p)
  | AStep, MTryLock => Some (try_lock g (MIdle (Some false)))
  | AStep, MUnlock => Some (unlock g, MIdle None)
  | AStep, (MUncontested | MSpin _ | MWait | MRetry _) => lock_step g p
  | AStep, (CvLoad | CvUnlock _ | CvWait _) => cv_wait_step g p
  | AWake keep_running, MWait => Some (g, MRetry keep_running)
  | AWake keep_running, CvWait _ =>
      Some (g, if keep_running then MUncontested else MIdle (Some false))
  | _, _ => None
  end.

Definition mutex_start (n : nat) : mutex_cells * list mutex_pc :=
  ({| state := 0; counter := 0; notifications := 0 |}, replicate n (MIdle None)).

(** The thread is between a successful lock and the end of its unlock. *)
Definition owns (p : mutex_pc) : bool :=
  match p with MOwner | MUnlock | CvLoad | CvUnlock _ => true | _ => false end.

Definition owner_weight (p : mutex_pc) : Z := if owns p then 1 else 0.

(** What a thread inside the [wait] of the condition variable remembers. *)
Definition remembers (g : mutex_cells) (p : mutex_pc) : Prop :=
  match p with CvUnlock c | CvWait c => 0 <= c <= g.(counter) | _ => True end.

Record mutex_inv (s : mutex_cells * list mutex_pc) : Prop := {
  mutex_word : s.1.(state) = total owner_weight s.2;
  mutex_bit : s.1.(state) = 0 \/ s.1.(state) = 1;
  mutex_counter : s.1.(counter) = s.1.(notifications) /\ 0 <= s.1.(notifications);
  mutex_remembers : Forall (remembers s.1) s.2
}.

(** ** Semaphore *)

(** [posted] and [taken] count the calls of [post] and the waits that succeeded. *)
(* src/iceoryx2_pal/concurrency_primitives/src/semaphore.rs:20-22 Semaphore *)
Record semaphore := { sem_value : Z; posted : Z; taken : Z }.

Inductive semaphore_pc :=
| SIdle (result : option bool)
| SLoad | SLoop (current_value retry_counter : Z) (keep_running : bool)
| SWait (current_value retry_counter : Z) | SReload (retry_counter : Z) (keep_running : bool)
| STryLoad | STryLoop (current_value : Z).

Inductive semaphore_call := Cpost | Cwait | Ctry_wait.

(* src/iceoryx2_pal/concurrency_primitives/src/semaphore.rs:25-29 new *)
Definition semaphore_new (initial_value : Z) : semaphore :=
  {| sem_value := initial_value; posted := 0; taken := 0 |}.

(* src/iceoryx2_pal/concurrency_primitives/src/semaphore.rs:35-38 post *)
Definition post (g : semaphore) : semaphore :=
  {| sem_value := wrapping_add 32 g.(sem_value) 1; posted := g.(posted) + 1; taken := g.(taken) |}.

(** [compare_exchange_weak(current_value, current_value - 1)]. *)
Definition take_token (g : semaphore) (current_value : Z) (failed : Z -> semaphore_pc)
    : semaphore * semaphore_pc :=
  match compare_exchange g.(sem_value) current_value (current_value - 1) with
  | (Ok _, v) =>
      ({| sem_value := v; posted := g.(posted); taken := g.(taken) + 1 |}, SIdle (Some true))
  | (Err v, _) => (g, failed v)
  end.

(* src/iceoryx2_pal/concurrency_primitives/src/semaphore.rs:40-76 wait *)
Definition sem_wait_step (g : semaphore) (p : semaphore_pc) : option (semaphore * semaphore_pc) :=
  match p with
  | SLoad => Some (g, SLoop g.(sem_value) 0 true)
  | SLoop current_value n keep_running =>
      if negb (current_value =? 0) then
        Some (take_token g current_value (fun v => SLoop v n keep_running))
      else if negb keep_running then Some (g, SIdle (Some false))
      else if n <? SPIN_REPETITIONS then Some (g, SReload (n + 1) true)
      else Some (g, SWait current_value n)
  | SWait current_value n =>
      if g.(sem_value) =? current_value then None else Some (g, SReload n true)
  | SReload n keep_running => Some (g, SLoop g.(sem_value) n keep_running)
  | _ => None
  end.

(* src/iceoryx2_pal/concurrency_primitives/src/semaphore.rs:78-96 try_wait *)
Definition try_wait_step (g : semaphore) (p : semaphore_pc) : option (semaphore * semaphore_pc) :=
  match p with
  | STryLoad => Some (g, STryLoop g.(sem_value))
  | STryLoop current_value =>
      if current_value =? 0 then Some (g, SIdle (Some false))
      else Some (take_token g current_value STryLoop)
  | _ => None
  end.

Definition semaphore_act (a : action semaphore_call) (g : semaphore) (p : semaphore_pc)
    : option (semaphore * semaphore_pc) :=
  match a, p with
  | ACall Cpost, SIdle _ => Some (post g, p)
  | ACall Cwait, SIdle _ => Some (g, SLoad)
  | ACall Ctry_wait, SIdle _ => Some (g, STryLoad)
  | AStep, (SLoad | SLoop _ _ _ | SWait _ _ | SReload _ _) => sem_wait_step g p
  | AStep, (STryLoad | STryLoop _) => try_wait_step g p
  | AWake keep_running, SWait _ n => Some (g, SReload n keep_running)
  | ASpurious, SLoop current_value n k =>      (* the weak compare_exchange fails *)
      if current_value =? 0 then None else Some (g, SLoop g.(sem_value) n k)
  | ASpurious, STryLoop current_value =>
      if current_value =? 0 then None else Some (g, STryLoop g.(sem_value))
  | _, _ => None
  end.

Definition semaphore_start (initial_value : Z) (n : nat) : semaphore * list semaphore_pc :=
  (semaphore_new initial_value, replicate n (SIdle None)).

Definition loaded_range (p : semaphore_pc) : Prop :=
  match p with
  | SLoop c _ _ | STryLoop c => 0 <= c < 2 ^ 32
  | SWait c _ => c = 0
  | _ => True
  end.

Record semaphore_inv (initial_value : Z) (s : semaphore * list semaphore_pc) : Prop := {
  sem_balance : s.1.(sem_value) + s.1.(taken) = initial_value + s.1.(posted);
  sem_range : 0 <= s.1.(sem_value) < 2 ^ 32;
  sem_counts : 0 <= s.1.(taken) /\ 0 <= s.1.(posted);
  sem_loaded : Forall loaded_range s.2
}.

(** ** Barrier *)

Inductive barrier_pc :=
| BOutside | BArrive | BSpin (retry_counter : Z) | BLoop | BWait (current_value : Z) | BPassed.

Inductive barrier_call := Cbarrier_wait.

(* src/iceoryx2_pal/concurrency_primitives/src/barrier.rs:32-60 wait *)
Definition barrier_step (waiters : Z) (p : barrier_pc) : option (Z * barrier_pc) :=
  match p with
  | BArrive =>
      Some (wrapping_sub 32 waiters 1, if waiters =? 1 then BPassed else BSpin 0)
  | BSpin n =>
      if negb (0 <? waiters) then Some (waiters, BLoop)
      else Some (waiters, if SPIN_REPETITIONS =? n + 1 then BLoop else BSpin (n + 1))
  | BLoop => Some (waiters, if waiters =? 0 then BPassed else BWait waiters)
  | BWait current_value => if waiters =? current_value then None else Some (waiters, BLoop)
  | _ => None
  end.

(** Every thread calls [wait] once. *)
Definition barrier_act (a : action barrier_call) (g : Z) (p : barrier_pc) : option (Z * barrier_pc) :=
  match a, p with
  | ACall Cbarrier_wait, BOutside => Some (g, BArrive)
  | AStep, _ => barrier_step g p
  | AWake _, BWait _ => Some (g, BLoop)
  | _, _ => None
  end.

(* src/iceoryx2_pal/concurrency_primitives/src/barrier.rs:26-30 new *)
Definition barrier_start (number_of_waiters : nat) : Z * list barrier_pc :=
  (Z.of_nat number_of_waiters, replicate number_of_waiters BOutside).

Definition arrived (p : barrier_pc) : bool :=
  match p with BOutside | BArrive => false | _ => true end.

Definition missing_weight (p : barrier_pc) : Z := if arrived p then 0 else 1.

Definition barrier_local (g : Z) (p : barrier_pc) : Prop :=
  match p with BPassed => g = 0 | BWait c => 0 < c | _ => True end.

Record barrier_inv (n : nat) (s : Z * list barrier_pc) : Prop := {
  barrier_count : s.1 = total missing_weight s.2;
  barrier_threads : length s.2 = n;
  barrier_locals : Forall (barrier_local s.1) s.2
}.

(** ** Mutual exclusion of the mutex *)

Lemma owner_weight_nonneg p : 0 <= owner_weight p.
Proof. unfold owner_weight. destruct (owns p); lia. Qed.

#[local] Hint Resolve owner_weight_nonneg : core.

(** One thread moves from [p] to [p']: the word must change by what the thread gains. *)
Lemma mutex_inv_move g ps i p g' p' :
  mutex_inv (g, ps) -> ps !! i = Some p ->
  g'.(state) = g.(state) - owner_weight p + owner_weight p' ->
  g'.(state) = 0 \/ g'.(state) = 1 ->
  g.(counter) <= g'.(counter) -> g'.(counter) = g'.(notifications) ->
  remembers g' p' ->
  mutex_inv (g', <[i := p']> ps).
Proof.
  intros [Hw Hb Hc Hr] Ei Ew Hb' Hle Hc' Hr'. cbn in *. split; cbn.
  - rewrite (total_insert _ _ _ _ _ Ei). lia.
  - done.
  - lia.
  - apply (iact_Forall (fun g => remembers g) i g ps g' p p'); [done..|].
    intros j [] _ _; cbn; lia || done.
Qed.

Lemma try_lock_inv g ps i p failed :
  mutex_inv (g, ps) -> ps !! i = Some p -> owns p = false -> owns failed = false ->
  (forall g, remembers g failed) ->
  let r := try_lock g failed in mutex_inv (r.1, <[i := r.2]> ps).
Proof.
  intros Hi Ei Hp Hf Hr. pose proof Hi as [Hw Hb [Hc Hn] _]. cbn in *.
  unfold try_lock, compare_exchange. destruct (Z.eqb_spec g.(state) 0); cbn;
    (eapply mutex_inv_move; [done..| | | | |]); cbn; try done;
    unfold owner_weight; rewrite ?Hp, ?Hf; cbn; lia.
Qed.

Lemma mutex_start_inv n : mutex_inv (mutex_start n).
Proof.
  split; cbn; [by rewrite total_replicate|by left|done|].
  apply Forall_replicate. done.
Qed.

Lemma mutex_unlock_inv g ps i p p' :
  mutex_inv (g, ps) -> ps !! i = Some p -> owns p = true -> owns p' = false ->
  remembers g p' -> mutex_inv (unlock g, <[i := p']> ps).
Proof.
  intros Hi Ei Hp Hp' Hr. pose proof Hi as [Hw Hb [Hc Hn] _]. cbn in *.
  pose proof (total_lookup owner_weight owner_weight_nonneg _ _ _ Ei) as Ht.
  unfold owner_weight at 1 in Ht. rewrite Hp in Ht.
  eapply mutex_inv_move; [done..| |by left|done|done|done]. cbn.
  unfold owner_weight. rewrite Hp, Hp'. lia.
Qed.

Lemma mutex_notify_inv g ps i p :
  mutex_inv (g, ps) -> ps !! i = Some p -> g.(notifications) + 1 < 2 ^ 32 ->
  remembers (notify g) p -> mutex_inv (notify g, <[i := p]> ps).
Proof.
  intros Hi Ei HB Hr. pose proof Hi as [Hw Hb [Hc Hn] _]. cbn in *.
  eapply mutex_inv_move; [done..| | | | |done]; cbn; [lia|done|..];
    rewrite wrapping_add_small; lia.
Qed.

Lemma mutex_step_inv s s' :
  act_step (iact mutex_act) s s' -> s'.1.(notifications) < 2 ^ 32 -> mutex_inv s -> mutex_inv s'.
Proof.
  intros [a t E] HB Hi. apply iact_inv in E as (p & p' & Ep & Ea & Eps).
  destruct s as [g ps], t as [g' ps'], a as [i a]. cbn in *. subst ps'.
  pose proof Hi as [Hw Hb [Hc Hn] Hr]. cbn in *.
  pose proof (proj1 (Forall_lookup _ _) Hr _ _ Ep) as Hrp.
  assert (Hstay : g' = g -> owns p = owns p' -> remembers g' p' -> mutex_inv (g', <[i := p']> ps)).
  { intros -> Eo Hr'. eapply mutex_inv_move; [done..| | | | |]; try done.
    unfold owner_weight. rewrite Eo. lia. }
  assert (Htry : forall failed, owns p = false -> owns failed = false -> (forall g, remembers g failed) ->
    try_lock g failed = (g', p') -> mutex_inv (g', <[i := p']> ps)).
  { intros failed Ho Hf Hrf Et. pose proof (try_lock_inv g ps i p failed Hi Ep Ho Hf Hrf) as Ht.
    by rewrite Et in Ht. }
  destruct a as [[]| |k|], p as [r| | | |n| |k'| | |c|c]; cbn in Ea; try done;
    try (injection Ea as <- <-; first [by apply Hstay|by apply mutex_notify_inv
      |by eapply mutex_unlock_inv]);
    try (injection Ea as Ea; by eapply Htry; [..|exact Ea]).
  - injection Ea as Ea. eapply Htry; [..|exact Ea]; by repeat case_match.
  - destruct (_ =? _); [done|]. injection Ea as <- <-. by apply Hstay.
  - injection Ea as Ea. eapply Htry; [..|exact Ea]; by destruct k'.
  - injection Ea as <- <-. apply Hstay; [done..|]. cbn. lia.
  - destruct (_ =? _); [done|]. injection Ea as <- <-. by apply Hstay.
  - injection Ea as <- <-. by destruct k; apply Hstay.
Qed.

Lemma mutex_reachable n s :
  rtc (act_step (iact mutex_act)) (mutex_start n) s -> s.1.(notifications) < 2 ^ 32 -> mutex_inv s.
Proof.
  intros Hs HB.
  apply (rtc_bounded_invariant (act_step (iact mutex_act)) (fun s => s.1.(notifications)) (2 ^ 32 - 1)
    mutex_inv (mutex_start n) s).
  - intros a b [x t E]. apply iact_inv in E as (p & p' & _ & Ea & _).
    destruct a as [g ps], t as [g' ps'], x as [i x]. cbn in *.
    destruct x as [[]| |k|], p as [r| | | |m| |k'| | |c|c]; cbn in Ea; try done;
      unfold try_lock, uncontested_lock, try_lock, compare_exchange in Ea;
      repeat case_match; simplify_eq; cbn; lia.
  - intros a b Hab Hb. apply mutex_step_inv; [done|lia].
  - done.
  - apply mutex_start_inv.
  - lia.
Qed.

(** C36: The mutex together with its condition variable, for any number of threads that
    lock, try to lock, unlock, wait and notify in any interleaving, with fewer than 2^32
    notifications: at most one thread owns the mutex; the word is 1 exactly while some
    thread does; a thread blocked in [lock] is blocked by an owner; and a thread blocked
    in the [wait] of the condition variable does not own the mutex and nobody has notified
    since it read the counter of notifications, which [wait] does before it unlocks. *)
Theorem mutex_exclusive n s :
  rtc (act_step (iact mutex_act)) (mutex_start n) s -> s.1.(notifications) < 2 ^ 32 ->
  (forall i j p q,
     s.2 !! i = Some p -> s.2 !! j = Some q -> owns p = true -> owns q = true -> i = j) /\
  (s.1.(state) = 1 <-> exists i p, s.2 !! i = Some p /\ owns p = true) /\
  (s.1.(state) = 0 <-> forall i p, s.2 !! i = Some p -> owns p = false) /\
  (forall i p, s.2 !! i = Some p -> mutex_act AStep s.1 p = None ->
     match p with
     | MIdle _ | MOwner => True
     | MWait => exists j q, j <> i /\ s.2 !! j = Some q /\ owns q = true
     | CvWait counter_value => counter_value = s.1.(notifications)
     | _ => False
     end).
Proof.
  intros Hs HB. destruct (mutex_reachable n s Hs HB) as [Hw Hb [Hc Hn] Hr]. clear Hs.
  destruct s as [g ps]. cbn in *.
  assert (Hown : g.(state) = 1 -> exists i p, ps !! i = Some p /\ owns p = true).
  { intros E. destruct (total_pos owner_weight owner_weight_nonneg ps) as (i & p & Ep & Hp); [lia|].
    exists i, p. split; [done|]. unfold owner_weight in Hp. by destruct (owns p); [|lia]. }
  assert (Hone : forall i p, ps !! i = Some p -> owns p = true -> g.(state) = 1).
  { intros i p Ei Hp. pose proof (total_lookup owner_weight owner_weight_nonneg _ _ _ Ei) as Ht.
    unfold owner_weight at 1 in Ht. rewrite Hp in Ht. lia. }
  split_and!.
  - intros i j p q Ei Ej Hp Hq. destruct (decide (i = j)) as [|Hne]; [done|].
    pose proof (total_two owner_weight owner_weight_nonneg _ _ _ _ _ Ei Ej Hne) as Ht.
    unfold owner_weight at 1 2 in Ht. rewrite Hp, Hq in Ht. lia.
  - split; [done|]. intros (i & p & Ei & Hp). by eapply Hone.
  - split.
    + intros E i p Ei. destruct (owns p) eqn:Hp; [|done]. specialize (Hone _ _ Ei Hp). lia.
    + intros Hno. destruct Hb as [|E]; [done|]. destruct (Hown E) as (i & p & Ei & Hp).
      by rewrite (Hno i p Ei) in Hp.
  - intros i p Ei Ea. pose proof (proj1 (Forall_lookup _ _) Hr _ _ Ei) as Hrp.
    destruct p as [r| | | |m| |k| | |c|c]; cbn in *; try done.
    + destruct (Z.eqb_spec g.(state) 1) as [E|]; [|done].
      destruct (Hown E) as (j & q & Ej & Hq). exists j, q. split_and!; [|done..].
      intros ->. rewrite Ei in Ej. by injection Ej as <-.
    + destruct (Z.eqb_spec g.(counter) c); [lia|done].
Qed.

(** Thread 0 takes the mutex and waits for a notification, thread 1 takes it and
    notifies while thread 2 blocks. *)
Lemma mutex_exclusive_witness :
  exists s : mutex_cells * list mutex_pc, rtc (act_step (iact mutex_act)) (mutex_start 3) s /\
    s.1.(notifications) = 1 /\ s.2 !! 2%nat = Some MWait /\ mutex_act AStep s.1 MWait = None /\
    exists j q, j <> 2%nat /\ s.2 !! j = Some q /\ owns q = true.
Proof.
  destruct (run_schedule (iact mutex_act)
    ([(0, ACall Clock); (0, AStep); (0, ACall Ccv_wait); (0, AStep); (0, AStep);
      (1, ACall Clock); (1, AStep); (1, ACall Ccv_notify); (2, ACall Clock)]%nat
      ++ replicate (Z.to_nat SPIN_REPETITIONS) (2%nat, AStep) ++ [(2%nat, AStep)])
    (mutex_start 3)) as [s|] eqn:E; [|vm_compute in E; discriminate E].
  exists s. assert (Hs := run_schedule_reachable _ _ _ _ E). split; [exact Hs|].
  vm_compute in E. injection E as <-. split; [reflexivity|]. split; [reflexivity|]. split; [reflexivity|].
  exact (proj2 (proj2 (proj2 (mutex_exclusive 3 _ Hs ltac:(cbn; lia)))) 2%nat MWait eq_refl eq_refl).
Defined.

(** ** Conservation of the semaphore *)

Lemma semaphore_inv_move v g ps i p g' p' :
  semaphore_inv v (g, ps) -> ps !! i = Some p ->
  g'.(sem_value) + g'.(taken) - g'.(posted) = g.(sem_value) + g.(taken) - g.(posted) ->
  0 <= g'.(sem_value) < 2 ^ 32 -> g.(taken) <= g'.(taken) -> g.(posted) <= g'.(posted) ->
  loaded_range p' ->
  semaphore_inv v (g', <[i := p']> ps).
Proof.
  intros [Hbal Hr Hc Hl] Ei Eb Hr' Ht Hp Hl'. cbn in *. split; cbn; [lia..|].
  by apply Forall_insert.
Qed.

Lemma take_token_inv v g ps i p c failed :
  semaphore_inv v (g, ps) -> ps !! i = Some p -> 0 < c < 2 ^ 32 ->
  (forall x, 0 <= x < 2 ^ 32 -> loaded_range (failed x)) ->
  let r := take_token g c failed in semaphore_inv v (r.1, <[i := r.2]> ps).
Proof.
  intros Hi Ei Hc Hf. pose proof Hi as [Hbal Hr Hcn Hl]. cbn in *.
  unfold take_token, compare_exchange. destruct (Z.eqb_spec g.(sem_value) c) as [E|]; cbn;
    (eapply semaphore_inv_move; [done..| | | | |]); cbn; try lia; try done. by apply Hf.
Qed.

Lemma semaphore_step_inv v s s' :
  act_step (iact semaphore_act) s s' -> v + s'.1.(posted) < 2 ^ 32 ->
  semaphore_inv v s -> semaphore_inv v s'.
Proof.
  intros [a t E] HB Hi. apply iact_inv in E as (p & p' & Ep & Ea & Eps).
  destruct s as [g ps], t as [g' ps'], a as [i a]. cbn in *. subst ps'.
  pose proof Hi as [Hbal Hr Hc Hl]. cbn in *.
  pose proof (proj1 (Forall_lookup _ _) Hl _ _ Ep) as Hlp.
  assert (Hstay : g' = g -> loaded_range p' -> semaphore_inv v (g', <[i := p']> ps)).
  { intros -> Hl'. by eapply semaphore_inv_move. }
  assert (Htake : forall c failed, 0 < c < 2 ^ 32 ->
    (forall x, 0 <= x < 2 ^ 32 -> loaded_range (failed x)) ->
    take_token g c failed = (g', p') -> semaphore_inv v (g', <[i := p']> ps)).
  { intros c failed Hc' Hf Et. pose proof (take_token_inv v g ps i p c failed Hi Ep Hc' Hf) as Ht.
    by rewrite Et in Ht. }
  destruct a as [[]| |k|], p as [r| |c n k'|c n|n k'| |c]; cbn in Ea; try done;
    try (injection Ea as <- <-; by apply Hstay).
  - injection Ea as <- <-. eapply semaphore_inv_move; [done..| | | | |]; cbn in *; try done;
      rewrite ?wrapping_add_small; lia.
  - cbn in Hlp. destruct (Z.eqb_spec c 0) as [->|]; cbn in Ea.
    + destruct k'; cbn in Ea; [|injection Ea as <- <-; by apply Hstay].
      destruct (_ <? _); injection Ea as <- <-; by apply Hstay.
    + injection Ea as Ea. by eapply Htake; [| |exact Ea]; [lia|].
  - destruct (_ =? _); [done|]. injection Ea as <- <-. by apply Hstay.
  - cbn in Hlp. destruct (Z.eqb_spec c 0) as [->|]; [injection Ea as <- <-; by apply Hstay|].
    injection Ea as Ea. by eapply Htake; [| |exact Ea]; [lia|].
  - destruct (_ =? _); [done|]. injection Ea as <- <-. by apply Hstay.
  - destruct (_ =? _); [done|]. injection Ea as <- <-. by apply Hstay.
Qed.

Lemma semaphore_reachable v n s :
  0 <= v < 2 ^ 32 -> rtc (act_step (iact semaphore_act)) (semaphore_start v n) s ->
  v + s.1.(posted) < 2 ^ 32 -> semaphore_inv v s.
Proof.
  intros Hv Hs HB.
  apply (rtc_bounded_invariant (act_step (iact semaphore_act)) (fun s => s.1.(posted)) (2 ^ 32 - 1 - v)
    (semaphore_inv v) (semaphore_start v n) s).
  - intros a b [x t E]. apply iact_inv in E as (p & p' & _ & Ea & _).
    destruct a as [g ps], t as [g' ps'], x as [i x]. cbn in *.
    destruct x as [[]| |k|], p as [r| |c m k'|c m|m k'| |c]; cbn in Ea; try done;
      unfold take_token, compare_exchange in Ea; repeat case_match; simplify_eq; cbn; lia.
  - intros a b Hab Hb. apply semaphore_step_inv; [done|lia].
  - done.
  - split; cbn; [lia..|]. by apply Forall_replicate.
  - lia.
Qed.

(** The semaphore neither loses nor invents tokens: for any number of threads that
    post, wait and try to wait, its value is the initial value plus the posts minus the
    waits that returned true, as long as no more than 2^32 - 1 tokens were posted; and a
    thread is blocked in [wait] only while every token has been taken. *)
Theorem semaphore_conserves v n s :
  0 <= v < 2 ^ 32 -> rtc (act_step (iact semaphore_act)) (semaphore_start v n) s ->
  v + s.1.(posted) < 2 ^ 32 ->
  s.1.(sem_value) = v + s.1.(posted) - s.1.(taken) /\ 0 <= s.1.(taken) <= v + s.1.(posted) /\
  (forall i p, s.2 !! i = Some p -> semaphore_act AStep s.1 p = None ->
     match p with
     | SIdle _ => True
     | SWait _ _ => s.1.(taken) = v + s.1.(posted)
     | _ => False
     end).
Proof.
  intros Hv Hs HB. destruct (semaphore_reachable v n s Hv Hs HB) as [Hbal Hr Hc Hl].
  split; [lia|]. split; [lia|]. intros i p Ei Ea.
  pose proof (proj1 (Forall_lookup _ _) Hl _ _ Ei) as Hlp.
  destruct p as [r| |c m k|c m|m k| |c]; cbn in *; try done; repeat case_match; simplify_eq; bool_to_prop; try done; lia.
Qed.

(** ** The barrier *)

Lemma missing_nonneg p : 0 <= missing_weight p.
Proof. unfold missing_weight. destruct (arrived p); lia. Qed.

Lemma barrier_step_inv n s s' :
  (Z.of_nat n < 2 ^ 32)%Z -> act_step (iact barrier_act) s s' -> barrier_inv n s -> barrier_inv n s'.
Proof.
  intros Hn [a t E] Hi. apply iact_inv in E as (p & p' & Ep & Ea & Eps).
  destruct s as [g ps], t as [g' ps'], a as [i a]. cbn in *. subst ps'.
  destruct Hi as [Hc Hlen Hl]. cbn in *.
  pose proof (proj1 (Forall_lookup _ _) Hl _ _ Ep) as Hlp.
  assert (Hstay : g' = g -> arrived p = arrived p' -> barrier_local g p' ->
    barrier_inv n (g', <[i := p']> ps)).
  { intros -> Ea' Hl'. split; cbn; [|by rewrite length_insert|by apply Forall_insert].
    rewrite (total_insert _ _ _ _ _ Ep). unfold missing_weight at 2 3. rewrite Ea'. lia. }
  destruct a as [[]| |k|], p as [| |m| |c|]; cbn in Ea; try done;
    try (injection Ea as <- <-; by apply Hstay).
  - injection Ea as <- <-.
    pose proof (total_lookup missing_weight missing_nonneg _ _ _ Ep) as Hpos.
    pose proof (total_bound missing_weight 1 ps ltac:(intros q; unfold missing_weight; destruct (arrived q); lia)) as Hb.
    change (missing_weight BArrive) with 1 in Hpos. unfold zlength in Hb.
    rewrite wrapping_sub_small by lia.
    split; cbn; [|by rewrite length_insert|].
    + rewrite (total_insert _ _ _ _ _ Ep). change (missing_weight BArrive) with 1.
      destruct (g =? 1); cbn; lia.
    + apply Forall_insert; [|destruct (Z.eqb_spec g 1); cbn; lia || done].
      eapply Forall_impl; [exact Hl|]. intros [] ?; cbn in *; lia || done.
  - repeat case_match; simplify_eq; by apply Hstay.
  - pose proof (total_nonneg missing_weight missing_nonneg ps).
    destruct (Z.eqb_spec g 0); injection Ea as <- <-; apply Hstay; cbn; lia || done.
  - destruct (_ =? _); [done|]. injection Ea as <- <-. by apply Hstay.
Qed.

(** The barrier, used once by as many threads as it was created for: a thread passes
    only after every thread has called [wait], and once they all have, no thread is
    blocked any more. *)
Theorem barrier_waits_for_all n s :
  Z.of_nat n < 2 ^ 32 -> rtc (act_step (iact barrier_act)) (barrier_start n) s ->
  (BPassed ∈ s.2 -> Forall (fun p => arrived p = true) s.2) /\
  (Forall (fun p => arrived p = true) s.2 ->
     Forall (fun p => barrier_act AStep s.1 p = None -> p = BPassed) s.2).
Proof.
  intros Hn Hs.
  assert (Hi : barrier_inv n s).
  { apply (rtc_invariant (act_step (iact barrier_act)) (barrier_inv n) (barrier_start n) s);
      [intros ? ?; by apply barrier_step_inv|done|].
    split; cbn; [|apply length_replicate|by apply Forall_replicate].
    clear. induction n as [|n IH]; [done|]. cbn [replicate total]. unfold missing_weight at 1. cbn. lia. }
  destruct s as [g ps], Hi as [Hc _ Hl]. cbn in *. rewrite !Forall_lookup. rewrite Forall_lookup in Hl. split.
  - intros [i Ei]%list_elem_of_lookup j p Ej. specialize (Hl _ _ Ei). cbn in Hl.
    pose proof (total_lookup missing_weight missing_nonneg _ _ _ Ej) as Ht.
    unfold missing_weight at 1 in Ht. destruct (arrived p); [done|lia].
  - intros Hall i p Ei Ea.
    assert (E : g = 0).
    { pose proof (total_nonneg missing_weight missing_nonneg ps).
      destruct (Z_lt_dec 0 g); [|lia].
      destruct (total_pos missing_weight missing_nonneg ps) as (j & q & Ej & Hq); [lia|].
      unfold missing_weight in Hq. rewrite (Hall _ _ Ej) in Hq. lia. }
    specialize (Hl _ _ Ei). specialize (Hall _ _ Ei).
    destruct p; cbn in *; try done; repeat case_match; bool_to_prop; try done; lia.
Qed.
