(* ===== verification/RwLock.v ===== *)
(** * iceoryx2_pal/concurrency_primitives/src/rwlock.rs

    The two reader-writer locks, as threads that interleave at every access to the
    shared words (see [Locks] for the meaning of the actions and of [wait]).  The word
    of [RwLockReaderPreference] counts the readers; the word of
    [RwLockWriterPreference] counts them twice and is odd while a writer waits; both
    are [WRITE_LOCKED] while a writer owns the lock. *)

From S2P Require Import Prelude Locks.

(* src/iceoryx2_pal/concurrency_primitives/src/rwlock.rs:20-20 WRITE_LOCKED *)
Definition WRITE_LOCKED : Z := 2 ^ 32 - 1.
(* src/iceoryx2_pal/concurrency_primitives/src/rwlock.rs:21-21 UNLOCKED *)
Definition UNLOCKED : Z := 0.

Inductive rw_call := Ctry_read_lock | Cread_lock | Ctry_write_lock | Cwrite_lock | Crw_unlock.
Inductive mode := Reader | Writer.

(** ** RwLockReaderPreference *)

Inductive reader_pc :=
| RIdle (result : option bool)
| ROwner (m : mode)
| RTryRead | RTryReadCas (reader_count : Z)
| RLoad | RLoop (reader_count retry_counter : Z) (keep_running : bool)
| RWait (reader_count retry_counter : Z) | RReload (retry_counter : Z) (keep_running : bool)
| RTryWrite
| RWrite (retry_counter : Z) (keep_running : bool) | RWriteWait (reader_count retry_counter : Z)
| RUnlock (m : mode) | RUnlockStore (m : mode) | RUnlockSub (m : mode)
| RPanicked.

Section steps.
Context `{Profile}.

(** [compare_exchange(reader_count, reader_count + 1)]. *)
Definition count_reader (g reader_count : Z) (failed : Z -> reader_pc) : Z * reader_pc :=
  match reader_count +u32 1 with
  | Panic => (g, RPanicked)
  | Ret new =>
      match compare_exchange g reader_count new with
      | (Ok _, v) => (v, ROwner Reader)
      | (Err v, _) => (g, failed v)
      end
  end.

(* src/iceoryx2_pal/concurrency_primitives/src/rwlock.rs:40-55 try_read_lock *)
Definition reader_try_read_lock (g : Z) (p : reader_pc) : option (Z * reader_pc) :=
  match p with
  | RTryRead =>
      Some (g, if g =? WRITE_LOCKED then RIdle (Some false) else RTryReadCas g)
  | RTryReadCas reader_count => Some (count_reader g reader_count (fun _ => RIdle (Some false)))
  | _ => None
  end.

(* src/iceoryx2_pal/concurrency_primitives/src/rwlock.rs:57-94 read_lock *)
Definition reader_read_lock (g : Z) (p : reader_pc) : option (Z * reader_pc) :=
  match p with
  | RLoad => Some (g, RLoop g 0 true)
  | RLoop reader_count n keep_running =>
      if negb (reader_count =? WRITE_LOCKED) then
        Some (count_reader g reader_count (fun v => RLoop v n keep_running))
      else if negb keep_running then Some (g, RIdle (Some false))
      else if n <? SPIN_REPETITIONS then Some (g, RReload (n + 1) true)
      else Some (g, RWait reader_count n)
  | RWait reader_count n => if g =? reader_count then None else Some (g, RReload n true)
  | RReload n keep_running => Some (g, RLoop g n keep_running)
  | _ => None
  end.

(* src/iceoryx2_pal/concurrency_primitives/src/rwlock.rs:96-104 unlock *)
Definition reader_unlock (g : Z) (p : reader_pc) : option (Z * reader_pc) :=
  match p with
  | RUnlock m => Some (g, if g =? WRITE_LOCKED then RUnlockStore m else RUnlockSub m)
  | RUnlockStore _ => Some (UNLOCKED, RIdle None)
  | RUnlockSub _ => Some (wrapping_sub 32 g 1, RIdle None)
  | _ => None
  end.

(* src/iceoryx2_pal/concurrency_primitives/src/rwlock.rs:106-110 try_write_lock *)
Definition reader_try_write_lock (g : Z) (failed : Z -> reader_pc) : Z * reader_pc :=
  match compare_exchange g UNLOCKED WRITE_LOCKED with
  | (Ok _, v) => (v, ROwner Writer)
  | (Err v, _) => (g, failed v)
  end.

(* src/iceoryx2_pal/concurrency_primitives/src/rwlock.rs:112-139 write_lock *)
Definition reader_write_lock (g : Z) (p : reader_pc) : option (Z * reader_pc) :=
  match p with
  | RWrite n keep_running =>
      Some (reader_try_write_lock g (fun v =>
        if negb keep_running then RIdle (Some false)
        else if n <? SPIN_REPETITIONS then RWrite (n + 1) keep_running
        else RWriteWait v n))
  | RWriteWait reader_count n => if g =? reader_count then None else Some (g, RWrite n true)
  | _ => None
  end.

Definition reader_act (a : action rw_call) (g : Z) (p : reader_pc) : option (Z * reader_pc) :=
  match a, p with
  | ACall Ctry_read_lock, RIdle _ => Some (g, RTryRead)
  | ACall Cread_lock, RIdle _ => Some (g, RLoad)
  | ACall Ctry_write_lock, RIdle _ => Some (g, RTryWrite)
  | ACall Cwrite_lock, RIdle _ => Some (g, RWrite 0 true)
  | ACall Crw_unlock, ROwner m => Some (g, RUnlock m)
  | AStep, (RTryRead | RTryReadCas _) => reader_try_read_lock g p
  | AStep, (RLoad | RLoop _ _ _ | RWait _ _ | RReload _ _) => reader_read_lock g p
  | AStep, RTryWrite => Some (reader_try_write_lock g (fun _ => RIdle (Some false)))
  | AStep, (RWrite _ _ | RWriteWait _ _) => reader_write_lock g p
  | AStep, (RUnlock _ | RUnlockStore _ | RUnlockSub _) => reader_unlock g p
  | AWake keep_running, RWait _ n => Some (g, RReload n keep_running)
  | AWake keep_running, RWriteWait _ n => Some (g, RWrite n keep_running)
  | _, _ => None
  end.

(** ** RwLockWriterPreference *)

(* src/iceoryx2_pal/concurrency_primitives/src/rwlock.rs:142-145 RwLockWriterPreference *)
Record writer_lock := { wstate : Z; writer_wake_counter : Z }.

Inductive writer_pc :=
| VIdle (result : option bool)
| VOwner (m : mode)
| VTryRead | VTryReadCas (st : Z)
| VLoad | VLoop (st retry_counter : Z) (keep_running : bool)
| VWait (st retry_counter : Z) | VReload (retry_counter : Z) (keep_running : bool)
| VTryWrite
| VWLoad | VWAcquire (st retry_counter : Z) (keep_running : bool)
| VWAnnounce (st retry_counter : Z) | VWSpin (retry_counter : Z)
| VWWait (wake_counter retry_counter : Z) | VWReload (retry_counter : Z) (keep_running : bool)
| VWGiveUp (st : Z) | VWGaveUp
| VUnlock (m : mode) | VUnlockStore (m : mode) | VUnlockSub (m : mode) | VUnlockCount
| VPanicked.

Definition set_wstate (g : writer_lock) (v : Z) : writer_lock :=
  {| wstate := v; writer_wake_counter := g.(writer_wake_counter) |}.
Definition count_wake (g : writer_lock) : writer_lock :=
  {| wstate := g.(wstate); writer_wake_counter := wrapping_add 32 g.(writer_wake_counter) 1 |}.

(** [compare_exchange(state, new)] on the state word, and where to continue. *)
Definition exchange (g : writer_lock) (st : Z) (new : outcome Z) (success : writer_pc)
    (failed : Z -> writer_pc) : writer_lock * writer_pc :=
  match new with
  | Panic => (g, VPanicked)
  | Ret new =>
      match compare_exchange g.(wstate) st new with
      | (Ok _, v) => (set_wstate g v, success)
      | (Err v, _) => (g, failed v)
      end
  end.

(* src/iceoryx2_pal/concurrency_primitives/src/rwlock.rs:161-170 try_read_lock *)
Definition writer_try_read_lock (g : writer_lock) (p : writer_pc) : option (writer_lock * writer_pc) :=
  match p with
  | VTryRead =>
      Some (g, if g.(wstate) mod 2 =? 1 then VIdle (Some false) else VTryReadCas g.(wstate))
  | VTryReadCas st => Some (exchange g st (st +u32 2) (VOwner Reader) (fun _ => VIdle (Some false)))
  | _ => None
  end.

(* src/iceoryx2_pal/concurrency_primitives/src/rwlock.rs:172-202 read_lock *)
Definition writer_read_lock (g : writer_lock) (p : writer_pc) : option (writer_lock * writer_pc) :=
  match p with
  | VLoad => Some (g, VLoop g.(wstate) 0 true)
  | VLoop st n keep_running =>
      if st mod 2 =? 1 then
        if negb keep_running then Some (g, VIdle (Some false))
        else if n <? SPIN_REPETITIONS then Some (g, VReload (n + 1) true)
        else Some (g, VWait st n)
      else Some (exchange g st (st +u32 2) (VOwner Reader) (fun v => VLoop v n keep_running))
  | VWait st n => if g.(wstate) =? st then None else Some (g, VReload n true)
  | VReload n keep_running => Some (g, VLoop g.(wstate) n keep_running)
  | _ => None
  end.

(* src/iceoryx2_pal/concurrency_primitives/src/rwlock.rs:204-219 unlock *)
Definition writer_unlock (g : writer_lock) (p : writer_pc) : option (writer_lock * writer_pc) :=
  match p with
  | VUnlock m => Some (g, if g.(wstate) =? WRITE_LOCKED then VUnlockStore m else VUnlockSub m)
  | VUnlockStore _ => Some (set_wstate g UNLOCKED, VUnlockCount)
  | VUnlockSub _ =>
      Some (set_wstate g (wrapping_sub 32 g.(wstate) 2),
        if g.(wstate) =? 3 then VUnlockCount else VIdle None)
  | VUnlockCount => Some (count_wake g, VIdle None)
  | _ => None
  end.

(* src/iceoryx2_pal/concurrency_primitives/src/rwlock.rs:221-225 try_write_lock *)
Definition writer_try_write_lock (g : writer_lock) : writer_lock * writer_pc :=
  exchange g 0 (Ret WRITE_LOCKED) (VOwner Writer) (fun _ => VIdle (Some false)).

(* src/iceoryx2_pal/concurrency_primitives/src/rwlock.rs:227-297 write_lock *)
Definition writer_write_lock (g : writer_lock) (p : writer_pc) : option (writer_lock * writer_pc) :=
  let after_acquire n (keep_running : bool) v :=
    if negb keep_running then VWGiveUp v else VWAnnounce v n in
  match p with
  | VWLoad => Some (g, VWAcquire g.(wstate) 0 true)
  | VWAcquire st n keep_running =>
      if st <=? 1 then
        Some (exchange g st (Ret WRITE_LOCKED) (VOwner Writer) (after_acquire n keep_running))
      else Some (g, after_acquire n keep_running st)
  | VWGiveUp st =>
      if negb (st mod 2 =? 0) && negb (st =? WRITE_LOCKED) then
        Some (exchange g st (usub 32 st 1) VWGaveUp VWGiveUp)
      else Some (g, VIdle (Some false))
  | VWGaveUp => Some (count_wake g, VIdle (Some false))
  | VWAnnounce st n =>
      if st mod 2 =? 0 then Some (exchange g st (st +u32 1) (VWSpin n) (fun _ => VWSpin n))
      else Some (g, VWSpin n)
  | VWSpin n =>
      if n <? SPIN_REPETITIONS then Some (g, VWReload (n + 1) true)
      else Some (g, VWWait g.(writer_wake_counter) n)
  | VWWait wake_counter n =>
      if g.(writer_wake_counter) =? wake_counter then None else Some (g, VWReload n true)
  | VWReload n keep_running => Some (g, VWAcquire g.(wstate) n keep_running)
  | _ => None
  end.

Definition writer_act (a : action rw_call) (g : writer_lock) (p : writer_pc)
    : option (writer_lock * writer_pc) :=
  match a, p with
  | ACall Ctry_read_lock, VIdle _ => Some (g, VTryRead)
  | ACall Cread_lock, VIdle _ => Some (g, VLoad)
  | ACall Ctry_write_lock, VIdle _ => Some (g, VTryWrite)
  | ACall Cwrite_lock, VIdle _ => Some (g, VWLoad)
  | ACall Crw_unlock, VOwner m => Some (g, VUnlock m)
  | AStep, (VTryRead | VTryReadCas _) => writer_try_read_lock g p
  | AStep, (VLoad | VLoop _ _ _ | VWait _ _ | VReload _ _) => writer_read_lock g p
  | AStep, VTryWrite => Some (writer_try_write_lock g)
  | AStep, (VUnlock _ | VUnlockStore _ | VUnlockSub _ | VUnlockCount) => writer_unlock g p
  | AStep, (VWLoad | VWAcquire _ _ _ | VWAnnounce _ _ | VWSpin _ | VWWait _ _ | VWReload _ _
           | VWGiveUp _ | VWGaveUp) => writer_write_lock g p
  | AWake keep_running, VWait _ n => Some (g, VReload n keep_running)
  | AWake keep_running, VWWait _ n => Some (g, VWReload n keep_running)
  | _, _ => None
  end.

End steps.

(* src/iceoryx2_pal/concurrency_primitives/src/rwlock.rs:27-33 default *)
Definition reader_start (n : nat) : Z * list reader_pc := (UNLOCKED, replicate n (RIdle None)).

(* src/iceoryx2_pal/concurrency_primitives/src/rwlock.rs:147-154 default *)
Definition writer_start (n : nat) : writer_lock * list writer_pc :=
  ({| wstate := UNLOCKED; writer_wake_counter := 0 |}, replicate n (VIdle None)).

(** ** Who holds the lock *)

Definition mode_weight (m : mode) (o : option mode) : Z :=
  match m, o with Reader, Some Reader | Writer, Some Writer => 1 | _, _ => 0 end.
#[global] Arguments mode_weight !m !o.

(** From a successful lock to the access that ends the unlock. *)
Definition reader_mode (p : reader_pc) : option mode :=
  match p with ROwner m | RUnlock m | RUnlockStore m | RUnlockSub m => Some m | _ => None end.

Definition writer_mode (p : writer_pc) : option mode :=
  match p with VOwner m | VUnlock m | VUnlockStore m | VUnlockSub m => Some m | _ => None end.

Section holders.
Context {P : Type} (held : P -> option mode).

Definition holders (m : mode) (ps : list P) : Z := total (fun p => mode_weight m (held p)) ps.

Lemma mode_weight_nonneg m p : 0 <= mode_weight m (held p).
Proof. destruct m, (held p) as [[]|]; cbn; lia. Qed.

#[local] Hint Resolve mode_weight_nonneg : core.

Lemma holders_insert m ps i p p' :
  ps !! i = Some p ->
  holders m (<[i := p']> ps) = holders m ps - mode_weight m (held p) + mode_weight m (held p').
Proof. apply (total_insert (fun p => mode_weight m (held p))). Qed.

Lemma mode_holders_nonneg m ps : 0 <= holders m ps.
Proof. by apply total_nonneg. Qed.

Lemma mode_holders_bound m ps : holders m ps <= zlength ps.
Proof.
  rewrite <-(Z.mul_1_l (zlength ps)). apply total_bound. intros p.
  destruct m, (held p) as [[]|]; cbn; lia.
Qed.

Lemma holders_lookup m ps i p : ps !! i = Some p -> mode_weight m (held p) <= holders m ps.
Proof. apply (total_lookup (fun p => mode_weight m (held p)) (mode_weight_nonneg m)). Qed.

Lemma holders_pos m ps : 0 < holders m ps -> exists i p, ps !! i = Some p /\ held p = Some m.
Proof.
  intros (i & p & Ei & Hp)%(total_pos _ (mode_weight_nonneg m)). exists i, p. split; [done|].
  by destruct m, (held p) as [[]|]; cbn in Hp.
Qed.

(** A word that admits one writer or any number of readers excludes the rest. *)
Lemma holders_exclusive ps i j p q :
  holders Writer ps = 0 \/ (holders Writer ps = 1 /\ holders Reader ps = 0) ->
  ps !! i = Some p -> ps !! j = Some q -> i <> j -> held p = Some Writer -> held q = None.
Proof.
  intros Hw Ei Ej Hne Hp.
  pose proof (total_two _ (mode_weight_nonneg Writer) _ _ _ _ _ Ei Ej Hne) as H2. cbn in H2.
  pose proof (holders_lookup Reader _ _ _ Ej) as Hr.
  pose proof (holders_lookup Writer _ _ _ Ei) as Hi. unfold holders in *.
  rewrite Hp in *. cbn in *. destruct (held q) as [[]|]; cbn in *; lia || done.
Qed.

End holders.

#[global] Arguments holders : simpl never.

(** ** The invariant of [RwLockReaderPreference] *)

Definition reader_local (p : reader_pc) : Prop :=
  match p with
  | RTryReadCas c => 0 <= c < WRITE_LOCKED
  | RLoop c _ _ => 0 <= c <= WRITE_LOCKED
  | RWait c _ => c = WRITE_LOCKED
  | RWriteWait c _ => 0 < c
  | RUnlockStore m => m = Writer
  | RUnlockSub m => m = Reader
  | RPanicked => False
  | _ => True
  end.

Definition reader_word (g readers writers : Z) : Prop :=
  (g = WRITE_LOCKED /\ writers = 1 /\ readers = 0) \/ (g = readers /\ writers = 0).

Record reader_inv (n : nat) (s : Z * list reader_pc) : Prop := {
  reader_inv_word : reader_word s.1 (holders reader_mode Reader s.2) (holders reader_mode Writer s.2);
  reader_inv_threads : length s.2 = n;
  reader_inv_local : Forall reader_local s.2
}.

Lemma reader_inv_move n g ps i p g' p' :
  reader_inv n (g, ps) -> ps !! i = Some p ->
  (forall r w, reader_word g r w -> 0 <= r <= Z.of_nat n -> 0 <= w ->
     mode_weight Reader (reader_mode p) <= r -> mode_weight Writer (reader_mode p) <= w ->
     reader_word g' (r - mode_weight Reader (reader_mode p) + mode_weight Reader (reader_mode p'))
       (w - mode_weight Writer (reader_mode p) + mode_weight Writer (reader_mode p'))) ->
  reader_local p' ->
  reader_inv n (g', <[i := p']> ps).
Proof.
  intros [Hw Hlen Hl] Ei Hw' Hp'. cbn in *. split; cbn.
  - rewrite !(holders_insert _ _ _ _ _ _ Ei).
    pose proof (mode_holders_bound reader_mode Reader ps) as Hb. unfold zlength in Hb. rewrite Hlen in Hb.
    apply Hw'; [done| |apply mode_holders_nonneg|by apply (holders_lookup reader_mode _ _ _ _ Ei)..].
    split; [apply mode_holders_nonneg|done].
  - by rewrite length_insert.
  - by apply Forall_insert.
Qed.

Lemma reader_inv_range n g ps :
  Z.of_nat n < WRITE_LOCKED -> reader_inv n (g, ps) -> 0 <= g <= WRITE_LOCKED.
Proof.
  intros Hn [Hw Hlen _]. cbn in *.
  pose proof (mode_holders_bound reader_mode Reader ps) as Hb. unfold zlength in Hb. rewrite Hlen in Hb.
  pose proof (mode_holders_nonneg reader_mode Reader ps).
  destruct Hw as [(-> & _)|(-> & _)]; unfold WRITE_LOCKED in *; lia.
Qed.

(** An owner finds in the word how it owns the lock. *)
Lemma reader_inv_owner n g ps i p m :
  Z.of_nat n < WRITE_LOCKED -> reader_inv n (g, ps) -> ps !! i = Some p -> reader_mode p = Some m ->
  (g = WRITE_LOCKED -> m = Writer) /\ (g <> WRITE_LOCKED -> m = Reader).
Proof.
  intros Hn [Hw Hlen _] Ei Hm. cbn in *.
  pose proof (mode_holders_bound reader_mode Reader ps) as Hb. unfold zlength in Hb. rewrite Hlen in Hb.
  pose proof (holders_lookup reader_mode Reader _ _ _ Ei) as Hr.
  pose proof (holders_lookup reader_mode Writer _ _ _ Ei) as Hww. rewrite Hm in *.
  unfold reader_word in Hw. destruct m; cbn in *; split; done || lia.
Qed.

Section reader_preference.
Context `{Profile}.

Lemma count_reader_inv n g ps i p c failed :
  Z.of_nat n < WRITE_LOCKED ->
  reader_inv n (g, ps) -> ps !! i = Some p -> reader_mode p = None -> 0 <= c < WRITE_LOCKED ->
  (forall x, 0 <= x <= WRITE_LOCKED -> reader_mode (failed x) = None /\ reader_local (failed x)) ->
  let r := count_reader g c failed in reader_inv n (r.1, <[i := r.2]> ps).
Proof.
  intros Hn Hi Ei Hp Hc Hf. pose proof (reader_inv_range n g ps Hn Hi) as Hr.
  unfold count_reader. rewrite uadd_ok by (unfold WRITE_LOCKED in *; lia).
  unfold compare_exchange. destruct (Z.eqb_spec g c) as [->|]; cbn.
  - eapply reader_inv_move; [done..| |done]. rewrite Hp. cbn. unfold reader_word. lia.
  - destruct (Hf g Hr) as [Em El]. eapply reader_inv_move; [done..| |done].
    rewrite Hp, Em. cbn. unfold reader_word. lia.
Qed.

Lemma reader_try_write_inv n g ps i p failed :
  Z.of_nat n < WRITE_LOCKED ->
  reader_inv n (g, ps) -> ps !! i = Some p -> reader_mode p = None ->
  (forall x, 0 < x -> reader_mode (failed x) = None /\ reader_local (failed x)) ->
  let r := reader_try_write_lock g failed in reader_inv n (r.1, <[i := r.2]> ps).
Proof.
  intros Hn Hi Ei Hp Hf. pose proof (reader_inv_range n g ps Hn Hi) as Hr.
  unfold reader_try_write_lock, compare_exchange, UNLOCKED. destruct (Z.eqb_spec g 0) as [->|]; cbn.
  - eapply reader_inv_move; [done..| |done]. rewrite Hp. cbn. unfold reader_word, WRITE_LOCKED. lia.
  - destruct (Hf g ltac:(lia)) as [Em El]. eapply reader_inv_move; [done..| |done].
    rewrite Hp, Em. cbn. unfold reader_word. lia.
Qed.

Lemma reader_stay n g ps i p p' :
  reader_inv n (g, ps) -> ps !! i = Some p -> reader_mode p = reader_mode p' -> reader_local p' ->
  reader_inv n (g, <[i := p']> ps).
Proof.
  intros Hi Ei Em Hl'. eapply reader_inv_move; [done..| |done]. rewrite Em. intros r w Hw _ _ _ _.
  by rewrite !Z.sub_add.
Qed.

Section one_step.
Context (n : nat) (g : Z) (ps : list reader_pc) (i : nat) (g' : Z) (p' : reader_pc).
Hypothesis Hn : Z.of_nat n < WRITE_LOCKED.
Hypothesis Hi : reader_inv n (g, ps).

Lemma reader_counts p c failed :
  ps !! i = Some p ->
  count_reader g c failed = (g', p') -> reader_mode p = None -> 0 <= c < WRITE_LOCKED ->
  (forall x, 0 <= x <= WRITE_LOCKED -> reader_mode (failed x) = None /\ reader_local (failed x)) ->
  reader_inv n (g', <[i := p']> ps).
Proof.
  intros Ep Et Hm Hc Hf. pose proof (count_reader_inv n g ps i p c failed Hn Hi Ep Hm Hc Hf) as Ht.
  by rewrite Et in Ht.
Qed.

Lemma reader_writes p failed :
  ps !! i = Some p ->
  reader_try_write_lock g failed = (g', p') -> reader_mode p = None ->
  (forall x, 0 < x -> reader_mode (failed x) = None /\ reader_local (failed x)) ->
  reader_inv n (g', <[i := p']> ps).
Proof.
  intros Ep Et Hm Hf. pose proof (reader_try_write_inv n g ps i p failed Hn Hi Ep Hm Hf) as Ht.
  by rewrite Et in Ht.
Qed.

Lemma reader_read_inv p :
  ps !! i = Some p ->
  reader_local p ->
  reader_try_read_lock g p = Some (g', p') \/ reader_read_lock g p = Some (g', p') ->
  reader_inv n (g', <[i := p']> ps).
Proof.
  pose proof (reader_inv_range n g ps Hn Hi) as Hr. intros Ep Hlp [Ea|Ea];
    destruct p as [| | |c| |c m k'|c m|m k'| | | | | | |]; cbn in Ea, Hlp; try done.
  - destruct (Z.eqb_spec g WRITE_LOCKED); injection Ea as <- <-; eapply reader_stay; done || (cbn; lia).
  - injection Ea as Ea. by eapply reader_counts.
  - injection Ea as <- <-. by eapply reader_stay.
  - destruct (Z.eqb_spec c WRITE_LOCKED); cbn in Ea.
    + repeat case_match; simplify_eq; by eapply reader_stay.
    + injection Ea as Ea. eapply reader_counts; [done|exact Ea|done|lia|done].
  - destruct (_ =? _); [done|]. injection Ea as <- <-. by eapply reader_stay.
  - injection Ea as <- <-. by eapply reader_stay.
Qed.

Lemma reader_write_inv p :
  ps !! i = Some p ->
  reader_write_lock g p = Some (g', p') -> reader_inv n (g', <[i := p']> ps).
Proof.
  intros Ep Ea. destruct p; cbn in Ea; try done.
  - injection Ea as Ea. eapply reader_writes; [done|exact Ea|done|]. intros x Hx. by repeat case_match.
  - destruct (_ =? _); [done|]. injection Ea as <- <-. by eapply reader_stay.
Qed.

Lemma reader_unlock_inv p :
  ps !! i = Some p ->
  reader_local p -> reader_unlock g p = Some (g', p') -> reader_inv n (g', <[i := p']> ps).
Proof.
  pose proof (reader_inv_range n g ps Hn Hi) as Hr. intros Ep Hlp Ea.
  destruct p as [| | | | | | | | | | |m|m|m|]; cbn in Ea, Hlp; try done; injection Ea as <- <-.
  - destruct (reader_inv_owner n g ps i (RUnlock m) m Hn Hi Ep eq_refl) as [Hm1 Hm2].
    destruct (Z.eqb_spec g WRITE_LOCKED); eapply reader_stay; cbn; eauto.
  - subst m. eapply reader_inv_move; [done..| |done]. cbn.
    unfold reader_word, UNLOCKED, WRITE_LOCKED. lia.
  - subst m. eapply reader_inv_move; [done..| |done]. cbn.
    unfold reader_word, WRITE_LOCKED in *. intros r w Hw Hrn Hw0 Hr1 _.
    rewrite wrapping_sub_small by lia. lia.
Qed.

End one_step.

Lemma reader_step_inv n s s' :
  Z.of_nat n < WRITE_LOCKED ->
  act_step (iact reader_act) s s' -> reader_inv n s -> reader_inv n s'.
Proof.
  intros Hn [a t E] Hi. apply iact_inv in E as (p & p' & Ep & Ea & Eps).
  destruct s as [g ps], t as [g' ps'], a as [i a]. cbn [fst snd] in *. subst ps'.
  pose proof (proj1 (Forall_lookup _ _) (reader_inv_local _ _ Hi) _ _ Ep) as Hlp.
  destruct a as [[]| |k|], p; try done; cbn [reader_act] in Ea;
    first [by eapply reader_read_inv; eauto|by eapply reader_write_inv|by eapply reader_unlock_inv
      |injection Ea as <- <-; by eapply reader_stay|injection Ea as Ea; by eapply reader_writes].
Qed.

Lemma reader_reachable n s :
  Z.of_nat n < WRITE_LOCKED -> rtc (act_step (iact reader_act)) (reader_start n) s -> reader_inv n s.
Proof.
  intros Hn Hs.
  apply (rtc_invariant (act_step (iact reader_act)) (reader_inv n) (reader_start n) s); [|done|].
  - intros a b. by apply reader_step_inv.
  - split; cbn; [|apply length_replicate|by apply Forall_replicate].
    right. split; by apply eq_sym, total_replicate || apply total_replicate.
Qed.

End reader_preference.

(** ** The invariant of [RwLockWriterPreference] *)

(** What a load of the state can return. *)
Definition loaded (n st : Z) : Prop := st = WRITE_LOCKED \/ 0 <= st <= 2 * n + 1.

Definition writer_local (n : Z) (p : writer_pc) : Prop :=
  match p with
  | VTryReadCas st => loaded n st /\ st mod 2 <> 1
  | VLoop st _ _ | VWAcquire st _ _ | VWAnnounce st _ | VWGiveUp st => loaded n st
  | VWait st _ => st mod 2 = 1
  | VUnlockStore m => m = Writer
  | VUnlockSub m => m = Reader
  | VPanicked => False
  | _ => True
  end.

Definition writer_word (st readers writers : Z) : Prop :=
  (st = WRITE_LOCKED /\ writers = 1 /\ readers = 0) \/
  ((st = 2 * readers \/ st = 2 * readers + 1) /\ writers = 0).

Record writer_inv (n : nat) (s : writer_lock * list writer_pc) : Prop := {
  writer_inv_word :
    writer_word s.1.(wstate) (holders writer_mode Reader s.2) (holders writer_mode Writer s.2);
  writer_inv_threads : length s.2 = n;
  writer_inv_local : Forall (writer_local (Z.of_nat n)) s.2
}.

Lemma writer_inv_move n g ps i p g' p' :
  writer_inv n (g, ps) -> ps !! i = Some p ->
  (forall r w, writer_word g.(wstate) r w -> 0 <= r <= Z.of_nat n -> 0 <= w ->
     mode_weight Reader (writer_mode p) <= r -> mode_weight Writer (writer_mode p) <= w ->
     writer_word g'.(wstate)
       (r - mode_weight Reader (writer_mode p) + mode_weight Reader (writer_mode p'))
       (w - mode_weight Writer (writer_mode p) + mode_weight Writer (writer_mode p'))) ->
  writer_local (Z.of_nat n) p' ->
  writer_inv n (g', <[i := p']> ps).
Proof.
  intros [Hw Hlen Hl] Ei Hw' Hp'. cbn in *. split; cbn.
  - rewrite !(holders_insert _ _ _ _ _ _ Ei).
    pose proof (mode_holders_bound writer_mode Reader ps) as Hb. unfold zlength in Hb. rewrite Hlen in Hb.
    apply Hw'; [done| |apply mode_holders_nonneg|by apply (holders_lookup writer_mode _ _ _ _ Ei)..].
    split; [apply mode_holders_nonneg|done].
  - by rewrite length_insert.
  - by apply Forall_insert.
Qed.

Lemma writer_inv_loaded n g ps : writer_inv n (g, ps) -> loaded (Z.of_nat n) g.(wstate).
Proof.
  intros [Hw Hlen _]. cbn in *.
  pose proof (mode_holders_bound writer_mode Reader ps) as Hb. unfold zlength in Hb. rewrite Hlen in Hb.
  pose proof (mode_holders_nonneg writer_mode Reader ps). unfold loaded, writer_word in *. lia.
Qed.

Lemma writer_inv_owner n g ps i p m :
  2 * Z.of_nat n + 1 < WRITE_LOCKED -> writer_inv n (g, ps) -> ps !! i = Some p ->
  writer_mode p = Some m ->
  (g.(wstate) = WRITE_LOCKED -> m = Writer) /\ (g.(wstate) <> WRITE_LOCKED -> m = Reader).
Proof.
  intros Hn [Hw Hlen _] Ei Hm. cbn in *.
  pose proof (mode_holders_bound writer_mode Reader ps) as Hb. unfold zlength in Hb. rewrite Hlen in Hb.
  pose proof (holders_lookup writer_mode Reader _ _ _ Ei) as Hr.
  pose proof (holders_lookup writer_mode Writer _ _ _ Ei) as Hww. rewrite Hm in *.
  unfold writer_word in Hw. destruct m; cbn in *; split; done || lia.
Qed.

Lemma exchange_inv n g ps i p st new success failed :
  writer_inv n (g, ps) -> ps !! i = Some p -> writer_mode p = None ->
  (forall r, 0 <= r <= Z.of_nat n -> forall w, writer_word st r w -> 0 <= w ->
     writer_word new (r + mode_weight Reader (writer_mode success))
       (w + mode_weight Writer (writer_mode success))) ->
  writer_local (Z.of_nat n) success ->
  (forall x, loaded (Z.of_nat n) x ->
     writer_mode (failed x) = None /\ writer_local (Z.of_nat n) (failed x)) ->
  let r := exchange g st (Ret new) success failed in writer_inv n (r.1, <[i := r.2]> ps).
Proof.
  intros Hi Ei Hm Hw Hs Hf. unfold exchange, compare_exchange.
  destruct (Z.eqb_spec g.(wstate) st) as [E|]; cbn.
  - eapply writer_inv_move; [done..| |done]. intros r w Hw0 Hr H0 _ _. rewrite Hm. cbn.
    rewrite !Z.sub_0_r. apply Hw; [done| |done]. by rewrite <-E.
  - destruct (Hf g.(wstate)) as [Em El]; [by eapply writer_inv_loaded|].
    eapply writer_inv_move; [done..| |done]. rewrite Hm, Em. cbn. intros r w Hw0 _ _ _ _.
    by rewrite !Z.sub_0_r, !Z.add_0_r.
Qed.

Section writer_preference.
Context `{Profile}.

(** The exchanges of the lock: a reader enters, a writer announces itself, takes the
    announcement back, or takes the lock. *)
Lemma reader_enters n st r w :
  2 * n + 1 < WRITE_LOCKED -> loaded n st -> st mod 2 <> 1 -> 0 <= r <= n ->
  writer_word st r w -> writer_word (st + 2) (r + 1) w.
Proof. unfold loaded, writer_word, WRITE_LOCKED. intros. Z.div_mod_to_equations. lia. Qed.

Lemma writer_announces n st r w :
  2 * n + 1 < WRITE_LOCKED -> st mod 2 = 0 -> writer_word st r w -> writer_word (st + 1) r w.
Proof. unfold writer_word, WRITE_LOCKED. intros. Z.div_mod_to_equations. lia. Qed.

Lemma writer_withdraws st r w :
  st mod 2 <> 0 -> st <> WRITE_LOCKED -> writer_word st r w -> writer_word (st - 1) r w.
Proof. unfold writer_word. intros. Z.div_mod_to_equations. lia. Qed.

Lemma writer_enters st r w :
  st <= 1 -> 0 <= r -> writer_word st r w -> writer_word WRITE_LOCKED r (w + 1).
Proof. unfold writer_word, WRITE_LOCKED. lia. Qed.

Lemma even_loaded n st :
  2 * n + 1 < WRITE_LOCKED -> loaded n st -> st mod 2 <> 1 -> 0 <= st + 2 < 2 ^ 32.
Proof. unfold loaded, WRITE_LOCKED. intros. Z.div_mod_to_equations. lia. Qed.

Lemma even_loaded_1 n st :
  2 * n + 1 < WRITE_LOCKED -> loaded n st -> st mod 2 = 0 -> 0 <= st + 1 < 2 ^ 32.
Proof. unfold loaded, WRITE_LOCKED. intros. Z.div_mod_to_equations. lia. Qed.

Lemma odd_loaded n st :
  2 * n + 1 < WRITE_LOCKED -> loaded n st -> st mod 2 <> 0 -> 1 <= st.
Proof. unfold loaded, WRITE_LOCKED. intros. Z.div_mod_to_equations. lia. Qed.

Lemma writer_stay n g ps i p g' p' :
  writer_inv n (g, ps) -> ps !! i = Some p -> g'.(wstate) = g.(wstate) ->
  writer_mode p = writer_mode p' -> writer_local (Z.of_nat n) p' ->
  writer_inv n (g', <[i := p']> ps).
Proof.
  intros Hi Ei Eg Em Hl'. eapply writer_inv_move; [done..| |done]. rewrite Em, Eg.
  intros r w Hw _ _ _ _. by rewrite !Z.sub_add.
Qed.

Section one_step.
Context (n : nat) (g : writer_lock) (ps : list writer_pc) (i : nat).
Context (g' : writer_lock) (p' : writer_pc).
Hypothesis Hn : 2 * Z.of_nat n + 1 < WRITE_LOCKED.
Hypothesis Hi : writer_inv n (g, ps).

Lemma writer_exchanges p st new success failed :
  ps !! i = Some p ->
  exchange g st (Ret new) success failed = (g', p') -> writer_mode p = None ->
  (forall r, 0 <= r <= Z.of_nat n -> forall w, writer_word st r w -> 0 <= w ->
     writer_word new (r + mode_weight Reader (writer_mode success))
       (w + mode_weight Writer (writer_mode success))) ->
  writer_local (Z.of_nat n) success ->
  (forall x, loaded (Z.of_nat n) x ->
     writer_mode (failed x) = None /\ writer_local (Z.of_nat n) (failed x)) ->
  writer_inv n (g', <[i := p']> ps).
Proof.
  intros Ep Et Hm Hw Hs Hf.
  pose proof (exchange_inv n g ps i p st new success failed Hi Ep Hm Hw Hs Hf) as Ht.
  by rewrite Et in Ht.
Qed.

Lemma writer_read_inv p :
  ps !! i = Some p ->
  writer_local (Z.of_nat n) p ->
  writer_try_read_lock g p = Some (g', p') \/ writer_read_lock g p = Some (g', p') ->
  writer_inv n (g', <[i := p']> ps).
Proof.
  intros Ep. pose proof (writer_inv_loaded n g ps Hi) as Hr.
  assert (Henter : forall c failed, writer_mode p = None -> loaded (Z.of_nat n) c -> c mod 2 <> 1 ->
    (forall x, loaded (Z.of_nat n) x ->
       writer_mode (failed x) = None /\ writer_local (Z.of_nat n) (failed x)) ->
    exchange g c (c +u32 2) (VOwner Reader) failed = (g', p') -> writer_inv n (g', <[i := p']> ps)).
  { intros c failed Hm Hl Ho Hf Ea. rewrite uadd_ok in Ea by (by eapply even_loaded).
    eapply writer_exchanges; [done|exact Ea|done| |done|done]. cbn. intros. rewrite Z.add_0_r.
    by eapply reader_enters. }
  intros Hlp [Ea|Ea];
    destruct p as [| | |c| |c m k'|c m|m k'| | | | | | | | | | | | | |]; cbn in Ea, Hlp; try done.
  - destruct (Z.eqb_spec (g.(wstate) mod 2) 1); injection Ea as <- <-; by eapply writer_stay.
  - injection Ea as Ea. destruct Hlp. by eapply Henter; [..|exact Ea].
  - injection Ea as <- <-. by eapply writer_stay.
  - destruct (Z.eqb_spec (c mod 2) 1).
    + repeat case_match; simplify_eq; by eapply writer_stay.
    + injection Ea as Ea. by eapply Henter; [..|exact Ea].
  - destruct (_ =? _); [done|]. injection Ea as <- <-. by eapply writer_stay.
  - injection Ea as <- <-. by eapply writer_stay.
Qed.

Lemma writer_write_inv p :
  ps !! i = Some p ->
  writer_local (Z.of_nat n) p -> writer_write_lock g p = Some (g', p') ->
  writer_inv n (g', <[i := p']> ps).
Proof.
  pose proof (writer_inv_loaded n g ps Hi) as Hr. intros Ep Hlp Ea.
  destruct p as [| | | | | | | | | |c m k'|c m|m|c m|m k'|c| | | | | |]; cbn in Ea, Hlp; try done;
    try (injection Ea as <- <-; by eapply writer_stay).
  - destruct (Z.leb_spec c 1).
    + injection Ea as Ea. eapply writer_exchanges; [done|exact Ea|done| |done|by destruct k'].
      cbn. intros. rewrite Z.add_0_r. eapply writer_enters; [..|done]; lia.
    + injection Ea as <- <-. by destruct k'; eapply writer_stay.
  - destruct (Z.eqb_spec (c mod 2) 0) as [Ho|]; [|injection Ea as <- <-; by eapply writer_stay].
    rewrite uadd_ok in Ea by (by eapply even_loaded_1). injection Ea as Ea.
    eapply writer_exchanges; [done|exact Ea|done| |done|done]. cbn. intros. rewrite !Z.add_0_r.
    by eapply writer_announces.
  - destruct (_ <? _); injection Ea as <- <-; by eapply writer_stay.
  - destruct (_ =? _); [done|]. injection Ea as <- <-. by eapply writer_stay.
  - destruct (Z.eqb_spec (c mod 2) 0) as [|Ho]; cbn in Ea; [injection Ea as <- <-; by eapply writer_stay|].
    destruct (Z.eqb_spec c WRITE_LOCKED); cbn in Ea; [injection Ea as <- <-; by eapply writer_stay|].
    rewrite usub_ok in Ea by (by eapply odd_loaded). injection Ea as Ea.
    eapply writer_exchanges; [done|exact Ea|done| |done|done]. cbn. intros. rewrite !Z.add_0_r.
    by eapply writer_withdraws.
Qed.

Lemma writer_try_write_inv p :
  ps !! i = Some p ->
  writer_try_write_lock g = (g', p') -> writer_mode p = None -> writer_inv n (g', <[i := p']> ps).
Proof.
  intros Ep Ea Hm. eapply writer_exchanges; [done|exact Ea|done| |done|done]. cbn. intros. rewrite Z.add_0_r.
  eapply writer_enters; [..|done]; lia.
Qed.

Lemma writer_unlock_inv p :
  ps !! i = Some p ->
  writer_local (Z.of_nat n) p -> writer_unlock g p = Some (g', p') ->
  writer_inv n (g', <[i := p']> ps).
Proof.
  intros Ep Hlp Ea. destruct p as [| | | | | | | | | | | | | | | | |m|m|m| |]; cbn in Ea, Hlp; try done;
    injection Ea as <- <-.
  - destruct (writer_inv_owner n g ps i (VUnlock m) m Hn Hi Ep eq_refl) as [Hm1 Hm2].
    destruct (Z.eqb_spec g.(wstate) WRITE_LOCKED); eapply writer_stay; cbn; eauto.
  - subst m. eapply writer_inv_move; [done..| |done]. cbn.
    unfold writer_word, UNLOCKED, WRITE_LOCKED. lia.
  - subst m. eapply writer_inv_move; [done..| |by destruct (_ =? _)].
    replace (writer_mode (if g.(wstate) =? 3 then VUnlockCount else VIdle None)) with (@None mode)
      by (by destruct (_ =? _)).
    cbn. unfold writer_word, WRITE_LOCKED in *. intros r w Hw Hrn Hw0 Hr1 _.
    rewrite wrapping_sub_small by lia. lia.
  - by eapply writer_stay.
Qed.

End one_step.

Lemma writer_step_inv n s s' :
  2 * Z.of_nat n + 1 < WRITE_LOCKED ->
  act_step (iact writer_act) s s' -> writer_inv n s -> writer_inv n s'.
Proof.
  intros Hn [a t E] Hi. apply iact_inv in E as (p & p' & Ep & Ea & Eps).
  destruct s as [g ps], t as [g' ps'], a as [i a]. cbn [fst snd] in *. subst ps'.
  pose proof (proj1 (Forall_lookup _ _) (writer_inv_local _ _ Hi) _ _ Ep) as Hlp.
  destruct a as [[]| |k|], p; try done; cbn [writer_act] in Ea;
    first [by eapply writer_read_inv; eauto|by eapply writer_write_inv|by eapply writer_unlock_inv
      |injection Ea as <- <-; by eapply writer_stay
      |injection Ea as Ea; by eapply writer_try_write_inv].
Qed.

Lemma writer_reachable n s :
  2 * Z.of_nat n + 1 < WRITE_LOCKED -> rtc (act_step (iact writer_act)) (writer_start n) s ->
  writer_inv n s.
Proof.
  intros Hn Hs.
  apply (rtc_invariant (act_step (iact writer_act)) (writer_inv n) (writer_start n) s); [|done|].
  - intros a b. by apply writer_step_inv.
  - split; cbn; [|apply length_replicate|by apply Forall_replicate].
    right. unfold holders. rewrite !total_replicate by done. unfold UNLOCKED. lia.
Qed.

End writer_preference.

(** ** Properties *)

(** [RwLockReaderPreference] with fewer than 2^32 - 1 threads that lock, try to lock
    and unlock in any interleaving: while a thread owns the lock for writing no other
    thread owns it in either mode; the word is the number of readers or [WRITE_LOCKED];
    no operation overflows; and a thread that is blocked is kept out by an owner, a
    writer in the case of a blocked reader. *)
Theorem rwlock_reader_preference `{Profile} n s :
  Z.of_nat n < WRITE_LOCKED -> rtc (act_step (iact reader_act)) (reader_start n) s ->
  (forall i j p q, s.2 !! i = Some p -> s.2 !! j = Some q -> i <> j ->
     reader_mode p = Some Writer -> reader_mode q = None) /\
  (s.1 = holders reader_mode Reader s.2 \/ s.1 = WRITE_LOCKED) /\
  (forall i p, s.2 !! i = Some p -> reader_act AStep s.1 p = None ->
     match p with
     | RIdle _ | ROwner _ => True
     | RWait _ _ => exists j q, s.2 !! j = Some q /\ reader_mode q = Some Writer
     | RWriteWait _ _ => exists j q, s.2 !! j = Some q /\ reader_mode q <> None
     | _ => False
     end).
Proof.
  intros Hn Hs. destruct (reader_reachable n s Hn Hs) as [Hw Hlen Hl]. clear Hs.
  destruct s as [g ps]. cbn [fst snd] in *. split_and!.
  - intros i j p q. apply holders_exclusive. destruct Hw as [(_ & -> & ->)|(_ & ->)]; auto.
  - destruct Hw as [(-> & _)|(-> & _)]; auto.
  - pose proof (mode_holders_bound reader_mode Reader ps) as Hb. unfold zlength in Hb. rewrite Hlen in Hb.
    intros i p Ei Ea. pose proof (proj1 (Forall_lookup _ _) Hl _ _ Ei) as Hlp.
    destruct p as [| | |c| |c m k|c m|m k| |m k|c m| | | |]; try done; cbn in Ea, Hlp;
      try (by repeat case_match).
    + destruct (Z.eqb_spec g c) as [->|]; [|done].
      apply holders_pos. unfold reader_word in Hw. lia.
    + destruct (Z.eqb_spec g c) as [->|]; [|done].
      destruct Hw as [(_ & Ew & _)|(Er & _)].
      * destruct (holders_pos reader_mode Writer ps) as (j & q & Ej & Hq); [lia|].
        exists j, q. by rewrite Hq.
      * destruct (holders_pos reader_mode Reader ps) as (j & q & Ej & Hq); [lia|].
        exists j, q. by rewrite Hq.
Qed.

(** C35: [RwLockWriterPreference] with fewer than 2^31 - 1 threads in any interleaving:
    while a thread owns the lock for writing no other thread owns it in either mode; the
    state is [WRITE_LOCKED] exactly while one writer and no reader owns the lock, and
    otherwise twice the number of owning readers, with the lowest bit set or not; no
    operation overflows; and a reader is blocked only while the state is odd. *)
Theorem rwlock_writer_preference `{Profile} n s :
  2 * Z.of_nat n + 1 < WRITE_LOCKED -> rtc (act_step (iact writer_act)) (writer_start n) s ->
  (forall i j p q, s.2 !! i = Some p -> s.2 !! j = Some q -> i <> j ->
     writer_mode p = Some Writer -> writer_mode q = None) /\
  (s.1.(wstate) = WRITE_LOCKED <-> holders writer_mode Writer s.2 = 1) /\
  (s.1.(wstate) = WRITE_LOCKED -> holders writer_mode Reader s.2 = 0) /\
  (s.1.(wstate) <> WRITE_LOCKED -> holders writer_mode Writer s.2 = 0 /\
     exists bit, (bit = 0 \/ bit = 1) /\ s.1.(wstate) = 2 * holders writer_mode Reader s.2 + bit) /\
  (forall i p, s.2 !! i = Some p -> writer_act AStep s.1 p = None ->
     match p with
     | VIdle _ | VOwner _ | VWWait _ _ => True
     | VWait _ _ => s.1.(wstate) mod 2 = 1
     | _ => False
     end).
Proof.
  intros Hn Hs. destruct (writer_reachable n s Hn Hs) as [Hw Hlen Hl]. clear Hs.
  destruct s as [g ps]. cbn [fst snd] in *. pose proof (mode_holders_bound writer_mode Reader ps) as Hb.
  split_and!.
  - intros i j p q. apply holders_exclusive. destruct Hw as [(_ & -> & ->)|(_ & ->)]; auto.
  - destruct Hw as [(-> & -> & _)|([E|E] & ->)]; [done|..]; unfold zlength in Hb; lia.
  - destruct Hw as [(_ & _ & ->)|([E|E] & _)]; [done|..]; unfold zlength in Hb; lia.
  - intros Hne. destruct Hw as [(E & _)|([E|E] & ->)]; [done|..]; (split; [done|]).
    + exists 0. lia.
    + exists 1. lia.
  - intros i p Ei Ea. pose proof (proj1 (Forall_lookup _ _) Hl _ _ Ei) as Hlp.
    destruct p as [| | |c| |c m k|c m|m k| | |c m k|c m|m|c m|m k|c| |m|m|m| |]; try done;
      cbn in Ea, Hlp; try (by repeat case_match).
    destruct (Z.eqb_spec g.(wstate) c) as [->|]; done.
Qed.

(** A wakeup of a writer can be lost in [RwLockWriterPreference]: [write_lock] reads
    the state, announces itself and only then loads the [writer_wake_counter] it waits
    on.  When the last reader unlocks between these two accesses, the writer waits for
    the next change of a counter that nobody will change: the lock is free, the state is
    odd, and the writer and every reader that comes later are blocked for ever. *)
Theorem rwlock_writer_lost_wakeup :
  exists s, rtc (act_step (iact (writer_act (H := dev)))) (writer_start 2) s /\
    s.1.(wstate) = 1 /\
    (forall i p, s.2 !! i = Some p -> writer_mode p = None) /\
    s.2 !! 0%nat = Some (VWait 1 SPIN_REPETITIONS) /\
    s.2 !! 1%nat = Some (VWWait s.1.(writer_wake_counter) SPIN_REPETITIONS) /\
    forall i, iact (writer_act (H := dev)) (i, AStep) s = None.
Proof.
  destruct (run_schedule (iact (writer_act (H := dev)))
    ([(0, ACall Cread_lock); (0, AStep); (0, AStep); (1, ACall Cwrite_lock); (1, AStep)]%nat
      ++ replicate (Z.to_nat (4 * SPIN_REPETITIONS + 2)) (1%nat, AStep)
      ++ [(0, ACall Crw_unlock); (0, AStep); (0, AStep); (0, AStep); (1, AStep);
          (0, ACall Cread_lock); (0, AStep)]%nat
      ++ replicate (Z.to_nat (2 * SPIN_REPETITIONS + 1)) (0%nat, AStep))
    (writer_start 2)) as [s|] eqn:E; [|vm_compute in E; discriminate E].
  exists s. split; [by eapply run_schedule_reachable|].
  vm_compute in E. injection E as <-. split_and!; try done.
  - intros [|[|i]] p Ei; cbn in Ei; by simplify_eq.
  - intros [|[|i]]; reflexivity.
Qed.

Lemma rwlock_reader_preference_witness :
  exists s, rtc (act_step (iact (reader_act (H := dev)))) (reader_start 2) s /\
    s.2 !! 0%nat = Some (ROwner Writer) /\ forall q, s.2 !! 1%nat = Some q -> reader_mode q = None.
Proof.
  destruct (run_schedule (iact (reader_act (H := dev)))
    [(0, ACall Cwrite_lock); (0, AStep); (1, ACall Cread_lock); (1, AStep)]%nat (reader_start 2))
    as [s|] eqn:E; [|vm_compute in E; discriminate E].
  exists s. assert (Hs := run_schedule_reachable _ _ _ _ E). split; [done|].
  assert (E0 : s.2 !! 0%nat = Some (ROwner Writer)) by (vm_compute in E; by injection E as <-).
  split; [done|]. intros q Eq.
  by apply (proj1 (rwlock_reader_preference (H := dev) 2 s ltac:(reflexivity) Hs) 0%nat 1%nat _ _ E0 Eq).
Defined.

Lemma rwlock_writer_preference_witness :
  exists s, rtc (act_step (iact (writer_act (H := dev)))) (writer_start 2) s /\
    s.2 !! 0%nat = Some (VOwner Writer) /\ forall q, s.2 !! 1%nat = Some q -> writer_mode q = None.
Proof.
  destruct (run_schedule (iact (writer_act (H := dev)))
    [(0, ACall Cwrite_lock); (0, AStep); (0, AStep); (1, ACall Cread_lock); (1, AStep)]%nat (writer_start 2))
    as [s|] eqn:E; [|vm_compute in E; discriminate E].
  exists s. assert (Hs := run_schedule_reachable _ _ _ _ E). split; [done|].
  assert (E0 : s.2 !! 0%nat = Some (VOwner Writer)) by (vm_compute in E; by injection E as <-).
  split; [done|]. intros q Eq.
  by apply (proj1 (rwlock_writer_preference (H := dev) 2 s ltac:(reflexivity) Hs) 0%nat 1%nat _ _ E0 Eq).
Defined.
