(* ===== verification/ConditionVariable.v ===== *)
(** * The condition variable

    [iceoryx2_bb_posix::condition_variable::ConditionVariable]: a value behind a mutex, a
    condition on it, threads that wait until the condition holds and threads that modify
    the value and wake them.  The mutex and [pthread_cond_wait] belong to the operating
    system: a thread that locks the mutex runs alone until it unlocks the mutex or waits,
    so that each critical section is one step; waiting releases the mutex and puts the
    thread to sleep in the same step; a signal wakes one of the sleeping threads if there
    is one, and threads may wake up without a signal. *)

From S2P Require Import Prelude.

Module ConditionVariable.

(** The guarded value: the condition, what the modifying threads do with the value, and
    what a waiting thread does when the condition holds before it unlocks the mutex. *)
Class Guarded (V M R A : Type) := {
  predicate : V -> bool;
  modifier : M -> V -> outcome (R * V);
  consume : V -> outcome (A * V);
  admissible : V -> bool;
}.

(** Where a thread is.  [remaining] is the time a timed wait has left. *)
Inductive pc (R A : Type) :=
| Idle
| Trigger (all : bool) (r : R)
| Asleep (remaining : option Z)
| Woken (remaining : option Z)
| TimedOut
| Modified (r : R)
| Waited (r : option A).
Arguments Idle {R A}.
Arguments Trigger {R A} all r.
Arguments Asleep {R A} remaining.
Arguments Woken {R A} remaining.
Arguments TimedOut {R A}.
Arguments Modified {R A} r.
Arguments Waited {R A} r.

(** The value, what was done with it so far, and how many wake-ups were wasted since a
    thread last found that the condition did not hold. *)
Record state (V M R A : Type) := {
  value : V;
  modified : list (M * R);
  consumed : list A;
  wasted : Z;
}.
Arguments value {V M R A}.
Arguments modified {V M R A}.
Arguments consumed {V M R A}.
Arguments wasted {V M R A}.

(** [Notify all m]: modify the value.  [Signal target]: wake [target], if any.  [Resume
    elapsed]: a thread that was woken after [elapsed] goes on.  [Wake]: a thread wakes up
    without a signal.  [Expire]: a timed wait ends.  [Return]: the caller goes on. *)
Inductive action (M : Type) :=
| Notify (all : bool) (m : M)
| Signal (target : option nat)
| Wait (timeout : option Z)
| Resume (elapsed : Z)
| Wake
| Expire
| Return.
Arguments Notify {M} all m.
Arguments Signal {M} target.
Arguments Wait {M} timeout.
Arguments Resume {M} elapsed.
Arguments Wake {M}.
Arguments Expire {M}.
Arguments Return {M}.

Section machine.
Context {V M R A : Type} `{Guarded V M R A}.
#[local] Notation state := (state V M R A).
#[local] Notation pc := (pc R A).
Implicit Types (g : state).

(** The head of the loop, with the mutex locked: either the condition holds, or the
    thread falls asleep. *)
(* src/iceoryx2_bb/posix/src/condition_variable.rs:859-872 wait_while *)
Definition wait_while g (remaining : option Z) : outcome (state * pc) :=
  if predicate g.(value) then
    let! '(a, v) := consume g.(value) in
    Ret ({| value := v; modified := g.(modified); consumed := g.(consumed) ++ [a]; wasted := g.(wasted) |},
         Waited (Some a))
  else
    Ret ({| value := g.(value); modified := g.(modified); consumed := g.(consumed); wasted := 0 |},
         Asleep remaining).

(** Behind [pthread_timedwait]: a wait whose time is up returns without another look at
    the condition. *)
(* src/iceoryx2_bb/posix/src/condition_variable.rs:882-913 timed_wait_while *)
Definition timed_wait_while g (remaining : option Z) (elapsed : Z) : outcome (state * pc) :=
  match remaining with
  | None => wait_while g None
  | Some t =>
      if t <=? elapsed then
        Ret ({| value := g.(value); modified := g.(modified); consumed := g.(consumed); wasted := g.(wasted) + 1 |},
             Waited None)
      else wait_while g (Some (t - elapsed))
  end.

(* src/iceoryx2_bb/posix/src/condition_variable.rs:948-973 modify_notify_all, modify_notify_one *)
Definition modify_notify g (all : bool) (m : M) : outcome (state * pc) :=
  let! '(r, v) := modifier m g.(value) in
  Ret ({| value := v; modified := g.(modified) ++ [(m, r)]; consumed := g.(consumed); wasted := g.(wasted) |},
       Trigger all r).

Definition is_asleep (p : pc) : bool := match p with Asleep _ => true | _ => false end.

Definition wake (p : pc) : pc := match p with Asleep r => Woken r | _ => p end.

(** [trigger_one] wakes one of the sleeping threads, [trigger_all] all of them. *)
(* src/iceoryx2_bb/posix/src/condition_variable.rs:976-980 trigger_one *)
Definition trigger (all : bool) (target : option nat) (ps : list pc) : option (list pc) :=
  if all then Some (wake <$> ps)
  else match target with
       | Some j => match ps !! j with Some (Asleep r) => Some (<[j := Woken r]> ps) | _ => None end
       | None => if existsb is_asleep ps then None else Some ps
       end.

(** One step of thread [i]; [None] inside means that it panics. *)
Definition step (i : nat) (a : action M) (s : state * list pc) : option (outcome (state * list pc)) :=
  let '(g, ps) := s in
  let continue (r : outcome (state * pc)) := Some (let! '(g, p) := r in Ret (g, <[i := p]> ps)) in
  match ps !! i with
  | None => None
  | Some p =>
      match a, p with
      | Notify all m, Idle => if admissible g.(value) then continue (modify_notify g all m) else None
      | Signal target, Trigger all r =>
          match trigger all target ps with
          | Some ps => Some (Ret (g, <[i := Modified r]> ps))
          | None => None
          end
      | Wait timeout, Idle => continue (wait_while g timeout)
      | Resume elapsed, Woken remaining =>
          if 0 <=? elapsed then continue (timed_wait_while g remaining elapsed) else None
      | Wake, Asleep r => continue (Ret (g, Woken r))
      | Expire, Asleep (Some _) => continue (Ret (g, TimedOut))
      | Resume _, TimedOut => continue (Ret (g, Waited None))
      | Return, (Modified _ | Waited _) => continue (Ret (g, Idle))
      | _, _ => None
      end
  end.

(** The system, or [None] when a thread has panicked. *)
Definition act (a : nat * action M) (s : option (state * list pc)) : option (option (state * list pc)) :=
  match s with
  | None => None
  | Some s =>
      match step a.1 a.2 s with
      | None => None
      | Some (Ret s) => Some (Some s)
      | Some Panic => Some None
      end
  end.

Definition begin (v : V) (n : nat) : option (state * list pc) :=
  Some ({| value := v; modified := []; consumed := []; wasted := 0 |}, replicate n Idle).

End machine.

(** ** What the condition variable promises *)

(** The laws of the value: [related] ties it to what was done with it, and [pending] says
    how many threads it could serve: a modification adds at most one, a thread for which
    the condition holds takes at least one. *)
Class GuardedLaws (V M R A : Type) `{Guarded V M R A} := {
  related : list (M * R) -> list A -> V -> Prop;
  pending : V -> Z;
  law_modify : forall ms cs v m, related ms cs v -> admissible v = true ->
    exists r v', modifier m v = Ret (r, v') /\ related (ms ++ [(m, r)]) cs v' /\ pending v' <= pending v + 1;
  law_consume : forall ms cs v, related ms cs v -> predicate v = true ->
    exists a v', consume v = Ret (a, v') /\ related ms (cs ++ [a]) v' /\ pending v' <= pending v - 1;
  law_nothing : forall ms cs v, related ms cs v -> predicate v = false -> pending v <= 0;
  law_pending : forall ms cs v, related ms cs v -> 0 <= pending v;
}.

Section wakeups.
Context {V M R A : Type} `{GuardedLaws V M R A}.
#[local] Notation state := (state V M R A).
#[local] Notation pc := (pc R A).

(** The threads that are about to wake another one, or to look at the condition again. *)
Definition active (p : pc) : Z := match p with Trigger _ _ | Woken _ => 1 | _ => 0 end.

Record Inv (s : state * list pc) : Prop := {
  inv_related : related s.1.(modified) s.1.(consumed) s.1.(value);
  inv_wasted : 0 <= s.1.(wasted);
  inv_pending : existsb is_asleep s.2 = true -> pending s.1.(value) <= total active s.2 + s.1.(wasted);
}.

Lemma active_nonneg p : 0 <= active p.
Proof. destruct p; cbn; lia. Qed.

Lemma existsb_insert {X} (f : X -> bool) l i x : existsb f (<[i := x]> l) = true -> f x = true \/ existsb f l = true.
Proof.
  intros (y & Hy & Hf)%existsb_exists. apply list_elem_of_In, list_elem_of_lookup in Hy as (j & Hj).
  destruct (decide (i = j)) as [->|Hne].
  - apply list_lookup_insert_Some in Hj as [(_ & -> & _)|[? _]]; [by left|done].
  - rewrite list_lookup_insert_ne in Hj by done. right. apply existsb_exists. exists y. split; [|done].
    apply list_elem_of_In. by eapply list_elem_of_lookup_2.
Qed.

(** A thread moves on; what it does to the value is given by [g']. *)
Lemma move_inv g ps i p g' p' : Inv (g, ps) -> ps !! i = Some p ->
  related g'.(modified) g'.(consumed) g'.(value) -> 0 <= g'.(wasted) ->
  (is_asleep p' = true -> is_asleep p = true \/ pending g'.(value) <= 0) ->
  pending g'.(value) + active p - active p' - g'.(wasted) <= pending g.(value) - g.(wasted) \/ pending g'.(value) <= 0 ->
  Inv (g', <[i := p']> ps).
Proof.
  intros [_ _ Hpend] Ei Hr Hw Hs Hb. cbn in *. split; [done..|]. cbn [fst snd]. intros Hex.
  rewrite (total_insert active ps i p p' Ei). pose proof (total_lookup active active_nonneg ps i p Ei).
  pose proof (active_nonneg p').
  destruct (Z.le_gt_cases (pending (value g')) 0) as [Hle|Hgt]; [lia|]. destruct Hb as [Hb|Hb]; [|lia].
  assert (Ha : existsb is_asleep ps = true).
  { apply existsb_insert in Hex as [Hex|Hex]; [|done]. destruct (Hs Hex) as [Hp|]; [|lia].
    apply existsb_exists. exists p. split; [|done]. apply list_elem_of_In. by eapply list_elem_of_lookup_2. }
  specialize (Hpend Ha). lia.
Qed.

Lemma wait_while_inv g ps i p remaining : Inv (g, ps) -> ps !! i = Some p ->
  exists g' p', wait_while g remaining = Ret (g', p') /\ Inv (g', <[i := p']> ps).
Proof.
  intros Hi Ei. pose proof (inv_related _ Hi) as Hr. pose proof (inv_wasted _ Hi). cbn in *. unfold wait_while.
  assert (active p <= 1) by (destruct p; cbn; lia).
  destruct (predicate g.(value)) eqn:Ep.
  - destruct (law_consume _ _ _ Hr Ep) as (a & v & -> & Hr' & Hp). eexists _, _. split; [done|].
    eapply move_inv; [done..| | ]; cbn; [done|]. left. lia.
  - pose proof (law_nothing _ _ _ Hr Ep). eexists _, _. split; [done|]. eapply move_inv; [done..| | |]; cbn; [lia|by right|by right].
Qed.

Lemma no_sleeper_wake (ps : list pc) : existsb is_asleep (wake <$> ps) = false.
Proof. induction ps as [|p ps IH]; [done|]. cbn. rewrite IH. by destruct p. Qed.

Lemma trigger_inv g ps i all r target ps' : Inv (g, ps) -> ps !! i = Some (Trigger all r) ->
  trigger all target ps = Some ps' -> Inv (g, <[i := Modified r]> ps').
Proof.
  intros Hi Ei Et. unfold trigger in Et.
  assert (Hnone : forall ps'', existsb is_asleep ps'' = false -> Inv (g, <[i := Modified r]> ps'')).
  { intros ps'' Hn. split; [apply Hi..|]. cbn. intros [Hex|Hex]%existsb_insert; [done|congruence]. }
  destruct all; [injection Et as <-; apply Hnone, no_sleeper_wake|].
  destruct target as [j|]; [|destruct (existsb is_asleep ps) eqn:Ee; [done|]; injection Et as <-; by apply Hnone].
  destruct (ps !! j) as [[]|] eqn:Ej; try done. injection Et as <-.
  assert (Hne : i <> j) by (intros ->; congruence).
  destruct Hi as [Hr Hwa Hp]. cbn in *. split; [done..|]. cbn [fst snd]. intros Hex.
  rewrite (total_insert active _ i (Trigger false r)) by (by rewrite list_lookup_insert_ne).
  rewrite (total_insert active ps j (Asleep remaining)) by done. cbn [active].
  assert (Ha : existsb is_asleep ps = true); [|specialize (Hp Ha); lia].
  apply existsb_exists. eexists. split; [apply list_elem_of_In; by eapply list_elem_of_lookup_2|done].
Qed.

Lemma cv_step_inv s i a r : Inv s -> step i a s = Some r -> exists s', r = Ret s' /\ Inv s'.
Proof.
  destruct s as [g ps]. intros Hi E. pose proof (inv_related _ Hi) as Hr. pose proof (inv_wasted _ Hi). cbn in *.
  destruct (ps !! i) as [p|] eqn:Ei; [|done].
  assert (Hmove : forall p', active p' = active p \/ active p' = 1 -> is_asleep p' = false ->
    exists s', Ret (g, <[i := p']> ps) = Ret s' /\ Inv s').
  { intros p' Hact Hs. eexists. split; [done|]. eapply move_inv; [done..|rewrite Hs; done|].
    left. assert (active p <= 1) by (destruct p; cbn; lia). destruct Hact; lia. }
  destruct a as [all m|target|timeout|elapsed| | |], p; try done.
  - destruct (admissible g.(value)) eqn:Ea; [|done]. unfold modify_notify in E.
    destruct (law_modify _ _ _ m Hr Ea) as (b & v & Em & Hr' & Hp). rewrite Em in E. injection E as <-. cbn [outcome_bind].
    eexists. split; [done|]. eapply move_inv; [done..| |]; cbn; [done|]. left. lia.
  - destruct (trigger all target ps) as [ps'|] eqn:Et; [|done]. injection E as <-. eexists. split; [done|].
    by apply (trigger_inv g ps i all r0 target).
  - destruct (wait_while_inv g ps i Idle timeout Hi Ei) as (g' & p' & Ew & Hi'). rewrite Ew in E. injection E as <-.
    by eexists.
  - destruct (0 <=? elapsed); [|done]. destruct remaining as [t|]; cbn [timed_wait_while] in E; [destruct (t <=? elapsed)|].
    + injection E as <-. eexists. split; [done|]. eapply move_inv; [done..| | |]; cbn; [lia|done|]. left. lia.
    + destruct (wait_while_inv g ps i _ (Some (t - elapsed)) Hi Ei) as (g' & p' & Ew & Hi'). rewrite Ew in E. injection E as <-.
      by eexists.
    + destruct (wait_while_inv g ps i _ None Hi Ei) as (g' & p' & Ew & Hi'). rewrite Ew in E. injection E as <-. by eexists.
  - injection E as <-. apply Hmove; [by left|done].
  - injection E as <-. apply Hmove; [by right|done].
  - destruct remaining; [|done]. injection E as <-. apply Hmove; [by left|done].
  - injection E as <-. apply Hmove; [by left|done].
  - injection E as <-. apply Hmove; [by left|done].
Qed.

(** However the threads interleave, nobody panics and the value is what was done with it;
    and when no thread is about to wake another one or to look at the condition, and no
    wake-up was wasted, then nobody sleeps while the condition holds. *)
Lemma no_lost_wakeup v n s : related [] [] v -> rtc (act_step act) (begin v n) s ->
  exists g ps, s = Some (g, ps) /\ related g.(modified) g.(consumed) g.(value) /\
    (existsb is_asleep ps = true -> Forall (fun p => active p = 0) ps -> g.(wasted) = 0 ->
     predicate g.(value) = false).
Proof.
  intros Hv Hr.
  assert (Hi : exists t, s = Some t /\ Inv t).
  { eapply (rtc_invariant (act_step act) (fun s => exists t, s = Some t /\ Inv t)); [|exact Hr|].
    - intros ? ? [[i a] t E] (t0 & -> & Hi). unfold act in E. cbn [fst snd] in E.
      destruct (step i a t0) as [r|] eqn:Es; [|done]. destruct (cv_step_inv _ _ _ _ Hi Es) as (t' & -> & Hi').
      injection E as <-. by exists t'.
    - eexists. split; [done|]. split; [done|cbn; lia|]. cbn. intros Hex. apply existsb_exists in Hex as (p & Hp & Hs).
      apply list_elem_of_In, elem_of_replicate in Hp as [-> _]. done. }
  destruct Hi as ([g ps] & -> & [Hrel _ Hp]). exists g, ps. split; [done|]. split; [done|]. cbn in *.
  intros Hs Hact Hw. specialize (Hp Hs). destruct (predicate (value g)) eqn:Ep; [|done].
  destruct (law_consume _ _ _ Hrel Ep) as (a & v' & _ & Hrel' & Hd). pose proof (law_pending _ _ _ Hrel').
  assert (total active ps = 0); [|lia].
  clear -Hact. induction Hact as [|p ps Hp _ IH]; [done|]. cbn. lia.
Qed.

End wakeups.

End ConditionVariable.
