(* ===== verification/UnrestrictedAtomic.v ===== *)
(** * The lock-free atomic for arbitrary copyable types

    [iceoryx2_bb_lock_free::spmc::unrestricted_atomic]: one producer and any number of
    readers share a value of any copyable type.  The value is kept in one of two cells
    and is copied word by word, so that a reader can meet a writer in the middle of a
    copy.  A value of the type [T] is the list of the [size] words it occupies. *)

From S2P Require Import Prelude.

Module UnrestrictedAtomic.

(* src/iceoryx2_bb/lock_free/src/spmc/unrestricted_atomic.rs:41-41 NUMBER_OF_CELLS *)
Definition NUMBER_OF_CELLS : Z := 2.

(* src/iceoryx2_bb/lock_free/src/spmc/unrestricted_atomic.rs:69-73 UnrestrictedAtomic *)
Record UnrestrictedAtomic := {
  write_cell : Z;
  data : list (list Z);
  has_producer : bool;
}.

Definition set_data (a : UnrestrictedAtomic) d : UnrestrictedAtomic :=
  {| write_cell := a.(write_cell); data := d; has_producer := a.(has_producer) |}.
Definition set_write_cell (a : UnrestrictedAtomic) w : UnrestrictedAtomic :=
  {| write_cell := w; data := a.(data); has_producer := a.(has_producer) |}.
Definition set_has_producer (a : UnrestrictedAtomic) b : UnrestrictedAtomic :=
  {| write_cell := a.(write_cell); data := a.(data); has_producer := b |}.

(** [uninit] is whatever the memory of the second cell holds. *)
(* src/iceoryx2_bb/lock_free/src/spmc/unrestricted_atomic.rs:93-102 new *)
Definition new (value uninit : list Z) : UnrestrictedAtomic :=
  {| write_cell := 1; data := [value; uninit]; has_producer := true |}.

(* src/iceoryx2_bb/lock_free/src/spmc/unrestricted_atomic.rs:105-113 acquire_producer *)
Definition acquire_producer (a : UnrestrictedAtomic) : bool * UnrestrictedAtomic :=
  if a.(has_producer) then (true, set_has_producer a false) else (false, a).

(* src/iceoryx2_bb/lock_free/src/spmc/unrestricted_atomic.rs:57-61 drop *)
Definition drop_producer (a : UnrestrictedAtomic) : UnrestrictedAtomic :=
  set_has_producer a true.

(** ** The operations as interleaving threads

    Every access to [write_cell] and the copy of every single word is one step.
    [owner] tells whether the thread holds the producer.  The arguments named [since]
    are the version that was current when [load] was called; they are not part of the
    program. *)

Inductive op :=
| Idle
| StoreStart (new_value : list Z)                    (** about to load [write_cell] *)
| StoreWrite (write_cell : Z) (new_value : list Z) (written : Z)
| StorePublish (write_cell : Z) (new_value : list Z) (** about to advance [write_cell] *)
| LoadStart (since : Z)                              (** about to load [write_cell] *)
| LoadCopy (since read_cell : Z) (copied : list Z)
| Loaded (since read_cell : Z) (value : list Z).

Record thread := { owner : bool; running : op }.

(** [versions] are the values the atomic has had, oldest first. *)
Record shared := { atomic : UnrestrictedAtomic; versions : list (list Z) }.

Inductive action :=
| AcquireProducer
| DropProducer
| CallStore (new_value : list Z)
| CallLoad
| Step.

Section threads.
Context `{Profile} (size : nat).

(** Copies the next word into the cell; when all of them are copied, [store] goes on
    to publish the cell. *)
(* src/iceoryx2_bb/lock_free/src/spmc/unrestricted_atomic.rs:115-127 store *)
Definition store_step (g : shared) (o : op) : outcome (shared * op) :=
  let a := g.(atomic) in
  match o with
  | StoreStart v => Ret (g, StoreWrite a.(write_cell) v 0)
  | StoreWrite w v j =>
      if j =? zlength v then Ret (g, StorePublish w v)
      else
        let i := w mod NUMBER_OF_CELLS in
        let! cell := index a.(data) i in
        let! word := index v j in
        let! cell := update cell j word in
        let! d := update a.(data) i cell in
        Ret ({| atomic := set_data a d; versions := g.(versions) |}, StoreWrite w v (j + 1))
  | StorePublish w v =>
      Ret ({| atomic := set_write_cell a (wrapping_add 64 a.(write_cell) 1);
              versions := g.(versions) ++ [v] |}, Idle)
  | o => Ret (g, o)
  end.

(** Copies the next word out of the cell; after the last one [load] compares the
    version it has read with the current one, and starts over when they differ. *)
(* src/iceoryx2_bb/lock_free/src/spmc/unrestricted_atomic.rs:130-158 load *)
Definition load_step (g : shared) (o : op) : outcome op :=
  let a := g.(atomic) in
  match o with
  | LoadStart since =>
      let! read_cell := a.(write_cell) -u64 1 in
      Ret (LoadCopy since read_cell [])
  | LoadCopy since read_cell copied =>
      if zlength copied =? Z.of_nat size then
        let! read_cell_update := a.(write_cell) -u64 1 in
        if read_cell_update =? read_cell then Ret (Loaded since read_cell copied)
        else Ret (LoadCopy since read_cell_update [])
      else
        let! cell := index a.(data) (read_cell mod NUMBER_OF_CELLS) in
        let! word := index cell (zlength copied) in
        Ret (LoadCopy since read_cell (copied ++ [word]))
  | o => Ret o
  end.

(** [None] is an action the thread cannot perform: storing needs the producer, and a
    value of another size is not of the type [T]. *)
Definition perform (t : action) (g : shared) (p : thread) : option (shared * thread) :=
  let a := g.(atomic) in
  match t, p.(running) with
  | AcquireProducer, (Idle | Loaded _ _ _) =>
      if p.(owner) then None
      else let '(r, a) := acquire_producer a in
           Some ({| atomic := a; versions := g.(versions) |}, {| owner := r; running := Idle |})
  | DropProducer, (Idle | Loaded _ _ _) =>
      if p.(owner) then
        Some ({| atomic := drop_producer a; versions := g.(versions) |},
              {| owner := false; running := Idle |})
      else None
  | CallStore v, (Idle | Loaded _ _ _) =>
      if p.(owner) && bool_decide (length v = size) then
        Some (g, {| owner := true; running := StoreStart v |})
      else None
  | CallLoad, (Idle | Loaded _ _ _) =>
      Some (g, {| owner := p.(owner); running := LoadStart (zlength g.(versions) - 1) |})
  | Step, (StoreStart _ | StoreWrite _ _ _ | StorePublish _ _) as o =>
      match store_step g o with
      | Ret (g, o) => Some (g, {| owner := p.(owner); running := o |})
      | Panic => None
      end
  | Step, (LoadStart _ | LoadCopy _ _ _) as o =>
      match load_step g o with
      | Ret o => Some (g, {| owner := p.(owner); running := o |})
      | Panic => None
      end
  | _, _ => None
  end.

Definition start (value uninit : list Z) (n : nat) : shared * list thread :=
  ({| atomic := new value uninit; versions := [value] |},
   replicate n {| owner := false; running := Idle |}).

(** ** The invariant *)

Definition owner_weight (p : thread) : Z := if p.(owner) then 1 else 0.

Definition cell (g : shared) (w : Z) : option (list Z) :=
  g.(atomic).(data) !! Z.to_nat (w mod NUMBER_OF_CELLS).

Record shared_ok (g : shared) : Prop := {
  ok_count : g.(atomic).(write_cell) = zlength g.(versions);
  ok_some : 0 < zlength g.(versions);
  ok_cells : length g.(atomic).(data) = 2%nat;
  ok_size : Forall (fun c => length c = size) g.(atomic).(data);
  ok_current : cell g (zlength g.(versions) - 1) =
               g.(versions) !! Z.to_nat (zlength g.(versions) - 1);
}.

(** A writer fills the cell that is not current; what a reader has copied is a prefix
    of the version it started from as long as that version is current. *)
Definition thread_ok (g : shared) (p : thread) : Prop :=
  match p.(running) with
  | Idle => True
  | StoreStart v => p.(owner) = true /\ length v = size
  | StoreWrite w v j =>
      p.(owner) = true /\ w = zlength g.(versions) /\ length v = size /\
      0 <= j <= zlength v /\
      exists c, cell g w = Some c /\ take (Z.to_nat j) c = take (Z.to_nat j) v
  | StorePublish w v =>
      p.(owner) = true /\ w = zlength g.(versions) /\ length v = size /\ cell g w = Some v
  | LoadStart since => 0 <= since < zlength g.(versions)
  | LoadCopy since r copied =>
      0 <= since <= r /\ r < zlength g.(versions) /\ (length copied <= size)%nat /\
      (r = zlength g.(versions) - 1 ->
       exists v, g.(versions) !! Z.to_nat r = Some v /\ copied = take (length copied) v)
  | Loaded since r v =>
      0 <= since <= r /\ r < zlength g.(versions) /\ g.(versions) !! Z.to_nat r = Some v
  end.

Definition invariant (s : shared * list thread) : Prop :=
  shared_ok s.1 /\ Forall (thread_ok s.1) s.2 /\
  total owner_weight s.2 + (if s.1.(atomic).(has_producer) then 1 else 0) = 1.

Definition running_op (o : op) : bool :=
  match o with Idle | Loaded _ _ _ => false | _ => true end.

(** ** Cells *)

Lemma cell_in_bounds g w : shared_ok g -> exists c, cell g w = Some c /\ length c = size /\
  index g.(atomic).(data) (w mod NUMBER_OF_CELLS) = Ret c.
Proof.
  intros Hg. pose proof (mod_bound NUMBER_OF_CELLS w ltac:(done)) as Hm. unfold NUMBER_OF_CELLS in *.
  destruct (index_in_bounds g.(atomic).(data) (w mod 2)) as (c & Ec & Ei).
  { unfold zlength. rewrite (ok_cells _ Hg). lia. }
  exists c. split_and!; [done| |done].
  by apply (proj1 (Forall_lookup _ _) (ok_size _ Hg) _ _ Ec).
Qed.

Lemma cell_parity w : w mod NUMBER_OF_CELLS <> (w - 1) mod NUMBER_OF_CELLS.
Proof. unfold NUMBER_OF_CELLS. Z.div_mod_to_equations. lia. Qed.

Lemma cell_parity_nat w :
  Z.to_nat (w mod NUMBER_OF_CELLS) <> Z.to_nat ((w - 1) mod NUMBER_OF_CELLS).
Proof.
  pose proof (cell_parity w). pose proof (mod_bound NUMBER_OF_CELLS w ltac:(done)).
  pose proof (mod_bound NUMBER_OF_CELLS (w - 1) ltac:(done)). lia.
Qed.

(** Writing one more word extends the common prefix of the cell and the value. *)
Lemma take_insert_prefix (c v : list Z) j word :
  v !! j = Some word -> (j < length c)%nat -> take j c = take j v ->
  take (S j) (<[j := word]> c) = take (S j) v.
Proof.
  intros Ev Hj E. rewrite (take_S_r v j word Ev).
  rewrite (take_S_r _ j word) by (by apply list_lookup_insert_eq).
  rewrite take_insert_ge by lia. by rewrite E.
Qed.

Lemma take_snoc_prefix (v copied : list Z) word :
  copied = take (length copied) v -> v !! length copied = Some word ->
  copied ++ [word] = take (length (copied ++ [word])) v.
Proof.
  intros E Ew. rewrite length_app, Nat.add_1_r. rewrite (take_S_r v _ word Ew). by rewrite <-E.
Qed.

(** ** The steps of the threads *)

Definition store_result (g : shared) (r : outcome (shared * op)) (p : thread) : Prop :=
  exists g' o', r = Ret (g', o') /\
    (zlength g'.(versions) < 2 ^ 64 ->
     shared_ok g' /\ thread_ok g' {| owner := p.(owner); running := o' |}) /\
    g'.(atomic).(has_producer) = g.(atomic).(has_producer) /\
    (g'.(versions) = g.(versions) \/ exists v, g'.(versions) = g.(versions) ++ [v]).

Lemma store_write_ok g p w v j :
  shared_ok g -> thread_ok g p -> p.(running) = StoreWrite w v j ->
  store_result g (store_step g (StoreWrite w v j)) p.
Proof.
  intros Hg Hp Ep. unfold thread_ok in Hp. rewrite Ep in Hp.
  destruct Hp as (Ho & -> & Hv & Hj & c & Ec & Epre). unfold store_result, store_step.
  destruct (cell_in_bounds g (zlength g.(versions)) Hg) as (c' & Ec' & Hc & Ei).
  rewrite Ec in Ec'. injection Ec' as <-.
  destruct (j =? zlength v) eqn:Ej; bool_to_prop.
  { eexists _, _. split_and!; [done| |done|by left]. intros _. split; [done|]. cbn.
    split_and!; try done. rewrite Ec. f_equal. subst j. unfold zlength in Epre.
    rewrite Nat2Z.id, (firstn_all v) in Epre. rewrite <-Epre. symmetry. apply take_ge. lia. }
  rewrite Ei. cbn [outcome_bind].
  destruct (index_in_bounds v j) as (word & Ew & ->); [lia|]. cbn [outcome_bind].
  rewrite (update_ok c) by (unfold zlength in *; lia). cbn [outcome_bind].
  pose proof (mod_bound NUMBER_OF_CELLS (zlength g.(versions)) ltac:(done)) as Hm.
  rewrite update_ok by (unfold zlength in *; rewrite (ok_cells _ Hg); done). cbn [outcome_bind].
  eexists _, _. split_and!; [done| |done|by left]. intros _.
  set (c' := <[Z.to_nat j := word]> c). split.
  - split; cbn; try apply Hg.
    + rewrite length_insert. apply Hg.
    + apply Forall_insert; [apply Hg|]. unfold c'. by rewrite length_insert.
    + unfold cell. cbn. rewrite list_lookup_insert_ne by apply cell_parity_nat. apply Hg.
  - cbn. split_and!; try done; [lia|lia|]. exists c'. split.
    + unfold cell. cbn. rewrite list_lookup_insert_eq; [done|].
      rewrite (ok_cells _ Hg). unfold NUMBER_OF_CELLS in *. lia.
    + replace (Z.to_nat (j + 1)) with (S (Z.to_nat j)) by lia.
      apply take_insert_prefix; [done|unfold zlength in *; lia|done].
Qed.

Lemma store_publish_ok g p w v :
  shared_ok g -> thread_ok g p -> p.(running) = StorePublish w v ->
  store_result g (store_step g (StorePublish w v)) p.
Proof.
  intros Hg Hp Ep. unfold thread_ok in Hp. rewrite Ep in Hp. destruct Hp as (Ho & -> & Hv & Ec).
  eexists _, _. split_and!; [done| |done|right; by eexists]. cbn. intros Hb.
  rewrite zlength_app in Hb. change (zlength [v]) with 1 in Hb. pose proof (ok_some _ Hg).
  split; [|done]. split; cbn; rewrite ?zlength_app; change (zlength [v]) with 1.
  - rewrite (ok_count _ Hg), wrapping_add_small; lia.
  - lia.
  - apply Hg.
  - apply Hg.
  - rewrite Z.add_simpl_r. unfold cell in *. cbn. rewrite Ec.
    rewrite lookup_app_r by (unfold zlength; lia). unfold zlength.
    by rewrite Nat2Z.id, Nat.sub_diag.
Qed.

Lemma store_step_ok g p :
  shared_ok g -> thread_ok g p ->
  match p.(running) with StoreStart _ | StoreWrite _ _ _ | StorePublish _ _ => True | _ => False end ->
  store_result g (store_step g p.(running)) p.
Proof.
  intros Hg Hp Hs. destruct (p.(running)) eqn:Ep; try done.
  - unfold thread_ok in Hp. rewrite Ep in Hp. destruct Hp as [Ho Hv].
    eexists _, _. split_and!; [done| |done|by left]. intros _. split; [done|]. cbn.
    rewrite (ok_count _ Hg). pose proof (zlength_nonneg new_value). split_and!; try done.
    destruct (cell_in_bounds g (zlength g.(versions)) Hg) as (c & Ec & _). by exists c.
  - by apply store_write_ok.
  - by apply store_publish_ok.
Qed.

Lemma load_step_ok g p :
  shared_ok g -> thread_ok g p -> zlength g.(versions) < 2 ^ 64 ->
  exists o, load_step g p.(running) = Ret o /\ thread_ok g {| owner := p.(owner); running := o |}.
Proof.
  intros Hg Hp Hb. pose proof (ok_some _ Hg) as Hs. unfold load_step, thread_ok in Hp |- *.
  destruct (p.(running)) as [| | | |since|since r copied|] eqn:Ep; try by eexists.
  - rewrite (ok_count _ Hg), usub_ok by lia. eexists. split; [done|]. cbn.
    split_and!; try lia. intros _. destruct (cell_in_bounds g (zlength g.(versions) - 1) Hg) as (v & Ec & _).
    exists v. split; [|done]. by rewrite <-(ok_current _ Hg).
  - destruct Hp as (Hsi & Hr & Hl & Hcur). rewrite (ok_count _ Hg), usub_ok by lia. cbn [outcome_bind].
    destruct (cell_in_bounds g (zlength g.(versions) - 1) Hg) as (v & Ec & Hv & _).
    rewrite (ok_current _ Hg) in Ec.
    destruct (zlength copied =? Z.of_nat size) eqn:El; bool_to_prop; unfold zlength in El.
    + destruct (_ =? r) eqn:Er; bool_to_prop; eexists; (split; [done|]); cbn; split_and!; try lia.
      * destruct (Hcur ltac:(lia)) as (v' & Ev' & Epre). rewrite Ev'. f_equal.
        rewrite <-Er, Ec in Ev'. injection Ev' as <-. rewrite Epre. symmetry. apply take_ge. lia.
      * intros _. by exists v.
    + destruct (cell_in_bounds g r Hg) as (c & Ecr & Hc & ->). cbn [outcome_bind].
      destruct (index_in_bounds c (zlength copied)) as (word & Ew & ->); [unfold zlength; lia|].
      eexists. split; [done|]. cbn. rewrite length_app, Nat.add_1_r. split_and!; try lia.
      intros Er. destruct (Hcur Er) as (v' & Ev' & Epre). exists v'. split; [done|].
      rewrite Er, <-(ok_current _ Hg), <-Er, Ecr in Ev'. injection Ev' as <-.
      rewrite (take_snoc_prefix c copied word Epre) at 1; [by rewrite length_app, Nat.add_1_r|].
      unfold zlength in Ew. by rewrite Nat2Z.id in Ew.
Qed.

(** What a writer does leaves the readers' part of the invariant alone. *)
Lemma thread_ok_reader g g' p :
  p.(owner) = false -> thread_ok g p ->
  g'.(versions) = g.(versions) \/ (exists v, g'.(versions) = g.(versions) ++ [v]) ->
  thread_ok g' p.
Proof.
  intros Ho Hp Hv. unfold thread_ok in *. rewrite Ho in *.
  destruct (p.(running)) as [| | | |since|since r copied|since r v]; try naive_solver.
  all: destruct Hv as [->|[w ->]]; [done|]; rewrite zlength_app; change (zlength [w]) with 1.
  - lia.
  - split_and!; try naive_solver lia.
  - destruct Hp as (? & ? & Ev). split_and!; [lia|lia|lia|]. by apply lookup_app_l_Some.
Qed.

Lemma shared_ok_flag g b :
  shared_ok g -> shared_ok {| atomic := set_has_producer g.(atomic) b; versions := g.(versions) |}.
Proof. intros []. by split. Qed.

Lemma producer_weight_nonneg p : 0 <= owner_weight p.
Proof. unfold owner_weight. destruct (p.(owner)); lia. Qed.

(** A writer's step keeps the invariant: the other threads are readers. *)
Lemma store_invariant g ps a p g' p' :
  invariant (g, ps) -> ps !! a = Some p -> p.(owner) = true -> p'.(owner) = true ->
  shared_ok g' -> thread_ok g' p' -> g'.(atomic).(has_producer) = g.(atomic).(has_producer) ->
  g'.(versions) = g.(versions) \/ (exists v, g'.(versions) = g.(versions) ++ [v]) ->
  invariant (g', <[a := p']> ps).
Proof.
  intros (Hg & Hps & Hw) Ea Ho Ho' Hg' Hp' Hf Hv. cbn [fst snd] in *. split_and!; cbn [fst snd]; [done| |].
  - apply (iact_Forall thread_ok a g ps g' p); try done. intros j o Hne Ej Hok.
    apply (thread_ok_reader g); try done.
    pose proof (total_two owner_weight producer_weight_nonneg ps a j p o Ea Ej (not_eq_sym Hne)) as Ht.
    destruct (o.(owner)) eqn:E; [|done]. unfold owner_weight in Ht at 1 2. rewrite Ho, E in Ht.
    destruct (has_producer _); lia.
  - rewrite (total_insert owner_weight ps a p) by done. unfold owner_weight at 2 3.
    rewrite Ho, Ho', Hf. lia.
Qed.

Lemma reader_invariant g ps a p p' b :
  invariant (g, ps) -> ps !! a = Some p -> thread_ok g p' ->
  (if p.(owner) then 1 else 0) + (if g.(atomic).(has_producer) then 1 else 0)
  = (if p'.(owner) then 1 else 0) + (if b : bool then 1 else 0) ->
  invariant ({| atomic := set_has_producer g.(atomic) b; versions := g.(versions) |}, <[a := p']> ps).
Proof.
  intros (Hg & Hps & Hw) Ea Hp' Hf. cbn [fst snd] in *. split_and!; cbn [fst snd].
  - by apply shared_ok_flag.
  - by apply (iact_Forall thread_ok a g ps _ p).
  - rewrite (total_insert owner_weight ps a p) by done. unfold owner_weight at 2 3. cbn. lia.
Qed.

Lemma set_has_producer_same a : set_has_producer a a.(has_producer) = a.
Proof. by destruct a. Qed.

Lemma shared_eta g : {| atomic := g.(atomic); versions := g.(versions) |} = g.
Proof. by destruct g. Qed.

Lemma reader_invariant_same g ps a p p' :
  invariant (g, ps) -> ps !! a = Some p -> thread_ok g p' -> p'.(owner) = p.(owner) ->
  invariant (g, <[a := p']> ps).
Proof.
  intros Hi Ea Hp' Ho. pose proof (reader_invariant g ps a p p' g.(atomic).(has_producer) Hi Ea Hp') as Hr.
  rewrite set_has_producer_same, shared_eta in Hr. apply Hr. by rewrite Ho.
Qed.

Lemma store_owner g p :
  thread_ok g p ->
  match p.(running) with StoreStart _ | StoreWrite _ _ _ | StorePublish _ _ => True | _ => False end ->
  p.(owner) = true.
Proof. unfold thread_ok. destruct (p.(running)); (done || by intros []). Qed.

Lemma store_case g ps a p g' o :
  invariant (g, ps) -> ps !! a = Some p ->
  match p.(running) with StoreStart _ | StoreWrite _ _ _ | StorePublish _ _ => True | _ => False end ->
  store_step g p.(running) = Ret (g', o) -> zlength g'.(versions) < 2 ^ 64 ->
  invariant (g', <[a := {| owner := p.(owner); running := o |}]> ps).
Proof.
  intros Hi Ea Hs Es Hb. pose proof Hi as (Hg & Hps & _). cbn [fst snd] in *.
  pose proof (proj1 (Forall_lookup _ _) Hps a p Ea) as Hp.
  destruct (store_step_ok g p Hg Hp Hs) as (g1 & o1 & Es' & Hok & Hf & Hv).
  rewrite Es in Es'. injection Es' as <- <-. destruct (Hok Hb) as [Hg' Hp'].
  pose proof (store_owner g p Hp Hs). by apply (store_invariant g ps a p).
Qed.

Lemma load_case g ps a p o :
  invariant (g, ps) -> ps !! a = Some p -> zlength g.(versions) < 2 ^ 64 ->
  load_step g p.(running) = Ret o ->
  invariant (g, <[a := {| owner := p.(owner); running := o |}]> ps).
Proof.
  intros Hi Ea Hb El. pose proof Hi as (Hg & Hps & _). cbn [fst snd] in *.
  pose proof (proj1 (Forall_lookup _ _) Hps a p Ea) as Hp.
  destruct (load_step_ok g p Hg Hp Hb) as (o1 & El' & Hok).
  rewrite El in El'. injection El' as <-. by apply (reader_invariant_same g ps a p).
Qed.

Lemma acquire_case g ps a p :
  invariant (g, ps) -> ps !! a = Some p -> p.(owner) = false ->
  invariant ({| atomic := (acquire_producer g.(atomic)).2; versions := g.(versions) |},
    <[a := {| owner := (acquire_producer g.(atomic)).1; running := Idle |}]> ps).
Proof.
  intros Hi Ea Ho. unfold acquire_producer. destruct (has_producer _) eqn:E; cbn [fst snd].
  - apply (reader_invariant g ps a p); cbn; rewrite ?Ho, ?E; done.
  - rewrite shared_eta. by apply (reader_invariant_same g ps a p).
Qed.

Lemma drop_case g ps a p :
  invariant (g, ps) -> ps !! a = Some p -> p.(owner) = true ->
  invariant ({| atomic := drop_producer g.(atomic); versions := g.(versions) |},
    <[a := {| owner := false; running := Idle |}]> ps).
Proof.
  intros Hi Ea Ho. apply (reader_invariant g ps a p); try done. rewrite Ho.
  destruct Hi as (_ & _ & Hw). cbn [fst snd] in Hw.
  pose proof (total_lookup owner_weight producer_weight_nonneg ps a p Ea) as Ht.
  unfold owner_weight in Ht at 1. rewrite Ho in Ht. destruct (has_producer _); cbn; lia.
Qed.

Lemma perform_invariant t g ps a p g' p' :
  invariant (g, ps) -> ps !! a = Some p -> perform t g p = Some (g', p') ->
  zlength g'.(versions) < 2 ^ 64 -> invariant (g', <[a := p']> ps).
Proof.
  intros Hi Ea E Hb. pose proof (ok_some _ (proj1 Hi)) as Hs. cbn [fst] in Hs.
  unfold perform in E. destruct t.
  - pose proof (acquire_case g ps a p Hi Ea). destruct (acquire_producer _) as [r q].
    destruct (p.(running)), (p.(owner)); simplify_eq; auto.
  - pose proof (drop_case g ps a p Hi Ea). destruct (p.(running)), (p.(owner)); simplify_eq; auto.
  - destruct (p.(running)); try done; (destruct (p.(owner)) eqn:Ho; [|done]); case_bool_decide; try done;
      injection E as <- <-; by apply (reader_invariant_same g ps a p).
  - destruct (p.(running)); try done; injection E as <- <-;
      apply (reader_invariant_same g ps a p); try done; cbn; lia.
  - pose proof (store_case g ps a p) as Hst. pose proof (load_case g ps a p) as Hld.
    destruct (p.(running)); try done.
    1-3: destruct (store_step _ _) as [[]|] eqn:Es; [|done]; injection E as <- <-; by apply Hst.
    all: destruct (load_step _ _) eqn:El; [|done]; injection E as <- <-; by apply Hld.
Qed.

Lemma perform_versions t g p g' p' :
  perform t g p = Some (g', p') -> zlength g.(versions) <= zlength g'.(versions).
Proof.
  unfold perform, store_step. intros E.
  destruct t, (p.(running)); repeat case_match; simplify_eq; try done; cbn; try lia.
  all: inv_outcome; try done; cbn; rewrite ?zlength_app; change (zlength [new_value]) with 1; lia.
Qed.

Lemma invariant_start value uninit n :
  length value = size -> length uninit = size -> invariant (start value uninit n).
Proof.
  intros Hv Hu. split_and!.
  - split; cbn; try done. by repeat constructor.
  - by apply Forall_replicate.
  - cbn. rewrite total_replicate; done.
Qed.

Lemma reachable_invariant value uninit n s :
  length value = size -> length uninit = size ->
  rtc (act_step (iact perform)) (start value uninit n) s ->
  zlength s.1.(versions) < 2 ^ 64 -> invariant s.
Proof.
  intros Hv Hu Hr Hb. eapply (rtc_bounded_invariant (act_step (iact perform))
    (fun s => zlength s.1.(versions)) (2 ^ 64 - 1) invariant); [| |done|by apply invariant_start|lia].
  - intros x y [a s' E]. apply iact_inv in E as (p & p' & _ & E & _). by apply perform_versions in E.
  - intros [g ps] ? [a [g' ps'] E] Hle Hi. apply iact_inv in E as (p & p' & Ep & E & Eps). cbn [fst snd] in *.
    subst ps'. eapply perform_invariant; [done..|lia].
Qed.

(** ** The theorem *)

(** C9: any number of threads acquire and drop the producer, store and load in any
    interleaving, word by word.  As long as fewer than [2^64] values were stored, a
    load that returns has read one version completely, never a mixture of two, and
    that version is not older than the one that was current when the load was called;
    at most one thread holds the producer, and no step of a running operation
    panics. *)
Theorem unrestricted_atomic_untorn value uninit n s :
  length value = size -> length uninit = size ->
  rtc (act_step (iact perform)) (start value uninit n) s ->
  zlength s.1.(versions) < 2 ^ 64 ->
  (forall i o since r v, s.2 !! i = Some {| owner := o; running := Loaded since r v |} ->
     s.1.(versions) !! Z.to_nat r = Some v /\ since <= r) /\
  (forall i j p q, s.2 !! i = Some p -> s.2 !! j = Some q ->
     p.(owner) = true -> q.(owner) = true -> i = j) /\
  (forall i p, s.2 !! i = Some p -> running_op p.(running) = true ->
     is_Some (iact perform (i, Step) s)).
Proof.
  intros Hv Hu Hr Hb. pose proof (reachable_invariant _ _ _ _ Hv Hu Hr Hb) as (Hg & Hps & Hw).
  rewrite Forall_lookup in Hps. split_and!.
  - intros i o since r v Ei. specialize (Hps _ _ Ei). cbn in Hps. destruct Hps as (? & ? & ?). split; [done|lia].
  - intros i j p q Ei Ej Hp Hq. destruct (decide (i = j)) as [|Hne]; [done|].
    pose proof (total_two owner_weight producer_weight_nonneg _ i j p q Ei Ej Hne) as Ht.
    unfold owner_weight in Ht at 1 2. rewrite Hp, Hq in Ht. destruct (has_producer _); lia.
  - intros i p Ei Hrun. specialize (Hps _ _ Ei). unfold iact. cbn [fst snd]. rewrite Ei. cbn [fst snd].
    pose proof (store_step_ok s.1 p Hg Hps) as Hst. pose proof (load_step_ok s.1 p Hg Hps Hb) as Hld.
    unfold perform. destruct (p.(running)); try done.
    all: first [destruct (Hst I) as (g' & o' & -> & _)|destruct Hld as (o' & -> & _)]; by eexists.
Qed.

End threads.

(** A reader starts on version 0, the producer stores two values meanwhile, so that the
    reader meets the second one half-written; it starts over and returns it. *)
Definition torn_schedule : list (nat * action) :=
  [(0%nat, AcquireProducer); (1%nat, CallLoad); (1%nat, Step); (1%nat, Step);
   (0%nat, CallStore [1; 1]); (0%nat, Step); (0%nat, Step); (0%nat, Step); (0%nat, Step); (0%nat, Step);
   (0%nat, CallStore [2; 2]); (0%nat, Step); (0%nat, Step); (0%nat, Step);
   (1%nat, Step); (1%nat, Step); (0%nat, Step); (0%nat, Step);
   (1%nat, Step); (1%nat, Step); (1%nat, Step); (1%nat, Step); (1%nat, Step); (1%nat, Step)].

Lemma unrestricted_atomic_untorn_witness :
  let step := act_step (iact (@perform dev 2)) in
  exists s : shared * list thread, rtc step (start [0; 0] [7; 7] 2) s /\
    s.2 !! 1%nat = Some {| owner := false; running := Loaded 0 2 [2; 2] |} /\
    s.1.(versions) !! 2%nat = Some [2; 2].
Proof.
  destruct (run_schedule (iact (@perform dev 2)) torn_schedule (start [0; 0] [7; 7] 2)) as [s|] eqn:E;
    [|vm_compute in E; discriminate E].
  exists s. apply run_schedule_reachable in E as Hr. split; [exact Hr|].
  assert (El : s.2 !! 1%nat = Some {| owner := false; running := Loaded 0 2 [2; 2] |}).
  { vm_compute in E. injection E as <-. reflexivity. }
  split; [exact El|].
  assert (Hb : zlength s.1.(versions) < 2 ^ 64).
  { vm_compute in E. injection E as <-. reflexivity. }
  exact (proj1 (proj1 (@unrestricted_atomic_untorn dev 2 [0; 0] [7; 7] 2 s eq_refl eq_refl Hr Hb)
    _ _ _ _ _ El)).
Defined.

End UnrestrictedAtomic.
