(* ===== verification/SpscQueue.v ===== *)
(** * The typed single-producer single-consumer queue

    [iceoryx2_bb_lock_free::spsc::queue]: the queue of copyable values with a capacity
    that is part of its type.  It runs the algorithm of the index queue on cells that
    start uninitialised.  The file relates the two: every interleaving of the typed
    queue is an interleaving of the index queue that carries the encoded values, and
    what holds of the latter holds of the former; reading a cell that was never
    written, which is undefined behaviour and a [Panic] here, never happens. *)

From stdpp Require Import countable.
From S2P Require Import Prelude Ring QueueSpec IndexQueue.

Module SpscQueue.
Module IQ := IndexQueue.

Section queue.
Context `{Profile} {T : Type} `{Countable T} (CAPACITY : Z).

(** [None] is a cell that is still uninitialised. *)
(* src/iceoryx2_bb/lock_free/src/spsc/queue.rs:88-94 Queue *)
Record Queue := {
  data : list (option T);
  write_position : Z;
  read_position : Z;
  has_producer : bool;
  has_consumer : bool;
}.

Definition set_data (q : Queue) d : Queue :=
  {| data := d; write_position := q.(write_position); read_position := q.(read_position);
     has_producer := q.(has_producer); has_consumer := q.(has_consumer) |}.
Definition set_write_position (q : Queue) w : Queue :=
  {| data := q.(data); write_position := w; read_position := q.(read_position);
     has_producer := q.(has_producer); has_consumer := q.(has_consumer) |}.
Definition set_read_position (q : Queue) r : Queue :=
  {| data := q.(data); write_position := q.(write_position); read_position := r;
     has_producer := q.(has_producer); has_consumer := q.(has_consumer) |}.
Definition set_ports (q : Queue) p c : Queue :=
  {| data := q.(data); write_position := q.(write_position); read_position := q.(read_position);
     has_producer := p; has_consumer := c |}.

(* src/iceoryx2_bb/lock_free/src/spsc/queue.rs:100-108 new *)
Definition new : Queue :=
  {| data := replicate (Z.to_nat CAPACITY) None; write_position := 0; read_position := 0;
     has_producer := true; has_consumer := true |}.

(* src/iceoryx2_bb/lock_free/src/spsc/queue.rs:127-135 acquire_producer *)
Definition acquire_producer (q : Queue) : bool * Queue :=
  if q.(has_producer) then (true, set_ports q false q.(has_consumer)) else (false, q).

(* src/iceoryx2_bb/lock_free/src/spsc/queue.rs:155-163 acquire_consumer *)
Definition acquire_consumer (q : Queue) : bool * Queue :=
  if q.(has_consumer) then (true, set_ports q q.(has_producer) false) else (false, q).

(* src/iceoryx2_bb/lock_free/src/spsc/queue.rs:63-67 drop *)
Definition drop_producer (q : Queue) : Queue := set_ports q true q.(has_consumer).

(* src/iceoryx2_bb/lock_free/src/spsc/queue.rs:81-85 drop *)
Definition drop_consumer (q : Queue) : Queue := set_ports q q.(has_producer) true.

(** [position % CAPACITY] *)
Definition slot_of (position : Z) : outcome Z :=
  if CAPACITY =? 0 then Panic else Ret (position mod CAPACITY).

(* src/iceoryx2_bb/lock_free/src/spsc/queue.rs:171-191 push *)
Definition push (q : Queue) (t : T) : outcome (bool * Queue) :=
  let current_write_pos := q.(write_position) in
  let! full_at := q.(read_position) +u64 CAPACITY in
  if current_write_pos =? full_at then Ret (false, q)
  else
    let! i := slot_of current_write_pos in
    let! d := update q.(data) i (Some t) in
    let! w := current_write_pos +u64 1 in
    Ret (true, set_write_position (set_data q d) w).

(* src/iceoryx2_bb/lock_free/src/spsc/queue.rs:200-224 pop *)
Definition pop (q : Queue) : outcome (option T * Queue) :=
  let current_read_pos := q.(read_position) in
  if current_read_pos =? q.(write_position) then Ret (None, q)
  else
    let! i := slot_of current_read_pos in
    let! cell := index q.(data) i in
    match cell with
    | None => Panic
    | Some out =>
        let! r := current_read_pos +u64 1 in
        Ret (Some out, set_read_position q r)
    end.

(* src/iceoryx2_bb/lock_free/src/spsc/queue.rs:240-243 is_empty *)
Definition is_empty (q : Queue) : bool := q.(write_position) =? q.(read_position).

(* src/iceoryx2_bb/lock_free/src/spsc/queue.rs:246-249 len *)
Definition len (q : Queue) : outcome Z := q.(write_position) -u64 q.(read_position).

(* src/iceoryx2_bb/lock_free/src/spsc/queue.rs:252-254 capacity *)
Definition capacity (q : Queue) : Z := CAPACITY.

(* src/iceoryx2_bb/lock_free/src/spsc/queue.rs:257-260 is_full *)
Definition is_full (q : Queue) : outcome bool :=
  let! f := q.(read_position) +u64 CAPACITY in Ret (q.(write_position) =? f).

(** ** The threads *)

Inductive producer_pc :=
| PStart (value : T)
| PLoadRead (value : T) (w : Z)
| PWrite (value : T) (w : Z)
| PStore (value : T) (w : Z)
| PDone (result : bool).

Inductive consumer_pc :=
| CStart
| CLoadWrite (r : Z)
| CRead (r : Z)
| CStore (r : Z) (value : T)
| CDone (result : option T).

(* src/iceoryx2_bb/lock_free/src/spsc/queue.rs:171-191 push *)
Definition producer_step (q : Queue) (pc : producer_pc) : outcome (Queue * producer_pc) :=
  match pc with
  | PStart v => Ret (q, PLoadRead v q.(write_position))
  | PLoadRead v w =>
      let! full_at := q.(read_position) +u64 CAPACITY in
      if w =? full_at then Ret (q, PDone false) else Ret (q, PWrite v w)
  | PWrite v w =>
      let! i := slot_of w in
      let! d := update q.(data) i (Some v) in
      Ret (set_data q d, PStore v w)
  | PStore v w =>
      let! w' := w +u64 1 in
      Ret (set_write_position q w', PDone true)
  | PDone b => Ret (q, PDone b)
  end.

(* src/iceoryx2_bb/lock_free/src/spsc/queue.rs:200-224 pop *)
Definition consumer_step (q : Queue) (pc : consumer_pc) : outcome (Queue * consumer_pc) :=
  match pc with
  | CStart => Ret (q, CLoadWrite q.(read_position))
  | CLoadWrite r =>
      if r =? q.(write_position) then Ret (q, CDone None) else Ret (q, CRead r)
  | CRead r =>
      let! i := slot_of r in
      let! cell := index q.(data) i in
      match cell with Some out => Ret (q, CStore r out) | None => Panic end
  | CStore r value =>
      let! r' := r +u64 1 in
      Ret (set_read_position q r', CDone (Some value))
  | CDone v => Ret (q, CDone v)
  end.

(* src/iceoryx2_bb/lock_free/src/spsc/queue.rs:226-237 acquire_read_and_write_position *)
Definition observer_step (q : Queue) (pc : IQ.observer_pc) : IQ.observer_pc :=
  match pc with
  | IQ.OStart => IQ.OLoadRead q.(write_position)
  | IQ.OLoadRead w => IQ.OReloadWrite w q.(read_position)
  | IQ.OReloadWrite w r => if w =? q.(write_position) then IQ.OReloadRead w r else IQ.OStart
  | IQ.OReloadRead w r => if r =? q.(read_position) then IQ.ODone w r else IQ.OStart
  | IQ.ODone w r => IQ.ODone w r
  end.

Record system := {
  queue : Queue;
  producer : producer_pc;
  consumer : consumer_pc;
  observer : IQ.observer_pc;
  pushed : list T;
  popped : list T;
  panicked : bool;
}.

Definition record_push (pc : producer_pc) (l : list T) : list T :=
  match pc with PStore v _ => l ++ [v] | _ => l end.
Definition record_pop (pc : consumer_pc) (l : list T) : list T :=
  match pc with CStore _ v => l ++ [v] | _ => l end.

Inductive step (s : system) : system -> Prop :=
| step_call_push b v :
    s.(producer) = PDone b ->
    step s {| queue := s.(queue); producer := PStart v; consumer := s.(consumer);
              observer := s.(observer); pushed := s.(pushed); popped := s.(popped);
              panicked := s.(panicked) |}
| step_call_pop r :
    s.(consumer) = CDone r ->
    step s {| queue := s.(queue); producer := s.(producer); consumer := CStart;
              observer := s.(observer); pushed := s.(pushed); popped := s.(popped);
              panicked := s.(panicked) |}
| step_call_len w r :
    s.(observer) = IQ.ODone w r ->
    step s {| queue := s.(queue); producer := s.(producer); consumer := s.(consumer);
              observer := IQ.OStart; pushed := s.(pushed); popped := s.(popped);
              panicked := s.(panicked) |}
| step_producer q p :
    producer_step s.(queue) s.(producer) = Ret (q, p) ->
    step s {| queue := q; producer := p; consumer := s.(consumer);
              observer := s.(observer); pushed := record_push s.(producer) s.(pushed);
              popped := s.(popped); panicked := s.(panicked) |}
| step_consumer q c :
    consumer_step s.(queue) s.(consumer) = Ret (q, c) ->
    step s {| queue := q; producer := s.(producer); consumer := c;
              observer := s.(observer); pushed := s.(pushed);
              popped := record_pop s.(consumer) s.(popped); panicked := s.(panicked) |}
| step_observer :
    step s {| queue := s.(queue); producer := s.(producer); consumer := s.(consumer);
              observer := observer_step s.(queue) s.(observer); pushed := s.(pushed);
              popped := s.(popped); panicked := s.(panicked) |}
| step_panic :
    producer_step s.(queue) s.(producer) = Panic \/
    consumer_step s.(queue) s.(consumer) = Panic ->
    step s {| queue := s.(queue); producer := s.(producer); consumer := s.(consumer);
              observer := s.(observer); pushed := s.(pushed); popped := s.(popped);
              panicked := true |}.

Definition start : system :=
  {| queue := new; producer := PDone true; consumer := CDone None; observer := IQ.ODone 0 0;
     pushed := []; popped := []; panicked := false |}.

(** The values in the queue, oldest first. *)
Definition contents (q : Queue) : list (option T) :=
  ring_contents CAPACITY q.(data) q.(read_position) q.(write_position).

(** ** The encoding into the index queue *)

Definition enc (t : T) : Z := Z.pos (encode t).
Definition enc_cell (c : option T) : Z := match c with Some t => enc t | None => 0 end.

Definition enc_queue (q : Queue) : IQ.IndexQueue :=
  {| IQ.data_ptr := 0; IQ.cells := enc_cell <$> q.(data); IQ.capacity := CAPACITY;
     IQ.write_position := q.(write_position); IQ.read_position := q.(read_position);
     IQ.has_producer := q.(has_producer); IQ.has_consumer := q.(has_consumer);
     IQ.is_memory_initialized := true |}.

Definition enc_producer (p : producer_pc) : IQ.producer_pc :=
  match p with
  | PStart v => IQ.PStart (enc v)
  | PLoadRead v w => IQ.PLoadRead (enc v) w
  | PWrite v w => IQ.PWrite (enc v) w
  | PStore v w => IQ.PStore (enc v) w
  | PDone b => IQ.PDone b
  end.

Definition enc_consumer (c : consumer_pc) : IQ.consumer_pc :=
  match c with
  | CStart => IQ.CStart
  | CLoadWrite r => IQ.CLoadWrite r
  | CRead r => IQ.CRead r
  | CStore r v => IQ.CStore r (enc v)
  | CDone v => IQ.CDone (enc <$> v)
  end.

Definition enc_system (s : system) : IQ.system :=
  {| IQ.queue := enc_queue s.(queue); IQ.producer := enc_producer s.(producer);
     IQ.consumer := enc_consumer s.(consumer); IQ.observer := s.(observer);
     IQ.pushed := enc <$> s.(pushed); IQ.popped := enc <$> s.(popped);
     IQ.panicked := s.(panicked) |}.

(** ** The simulation *)

Lemma enc_update (d : list (option T)) i c :
  update (enc_cell <$> d) i (enc_cell c) = (let! d' := update d i c in Ret (enc_cell <$> d')).
Proof.
  unfold update. rewrite length_fmap. case_match; [done|]. cbn. by rewrite list_fmap_insert.
Qed.

Lemma enc_index (d : list (option T)) i :
  index (enc_cell <$> d) i = (let! c := index d i in Ret (enc_cell c)).
Proof.
  unfold index. case_match; [done|]. rewrite list_lookup_fmap. by destruct (d !! _).
Qed.

(** A step of a typed thread is a step of the index queue's thread, panics included. *)
Lemma enc_producer_step q p :
  IQ.producer_step (enc_queue q) (enc_producer p) =
    (let! '(q', p') := producer_step q p in Ret (enc_queue q', enc_producer p')).
Proof.
  destruct p as [v|v w|v w|v w|b]; cbn; try done.
  - destruct (_ +u64 _); cbn; [|done]. by case_match.
  - unfold IQ.at_, slot_of. cbn. case_match; [done|]. cbn.
    rewrite (enc_update _ _ (Some v)). by destruct (update _ _ _).
  - by destruct (_ +u64 _).
Qed.

Lemma enc_consumer_step q c q' c' :
  consumer_step q c = Ret (q', c') ->
  IQ.consumer_step (enc_queue q) (enc_consumer c) = Ret (enc_queue q', enc_consumer c').
Proof.
  destruct c as [|r|r|r v|v]; cbn; try (intros; by simplify_eq).
  - case_match; intros; by simplify_eq.
  - unfold IQ.at_, slot_of. cbn. case_match; [done|]. cbn. rewrite enc_index.
    destruct (index _ _) as [[t|]|]; cbn; intros; by simplify_eq.
  - destruct (_ +u64 _); cbn; intros; by simplify_eq.
Qed.

(** The only panic of a typed thread that is not one of the index queue's. *)
Lemma enc_consumer_panic q c :
  consumer_step q c = Panic ->
  IQ.consumer_step (enc_queue q) (enc_consumer c) = Panic \/
  exists r, c = CRead r /\
    IQ.consumer_step (enc_queue q) (enc_consumer c) = Ret (enc_queue q, IQ.CStore r 0).
Proof.
  destruct c as [|r|r|r v|v]; cbn; try done.
  - by case_match.
  - unfold IQ.at_, slot_of. cbn. case_match; [by left|]. cbn. rewrite enc_index.
    destruct (index _ _) as [[t|]|]; cbn; intros; simplify_eq; [right; by exists r|by left].
  - destruct (_ +u64 _); [done|by left].
Qed.

Lemma enc_record_push p l : enc <$> record_push p l = IQ.record_push (enc_producer p) (enc <$> l).
Proof. destruct p; cbn; try done. by rewrite fmap_app. Qed.

Lemma enc_record_pop c l : enc <$> record_pop c l = IQ.record_pop (enc_consumer c) (enc <$> l).
Proof. destruct c; cbn; try done. by rewrite fmap_app. Qed.

Lemma enc_start : enc_system start = IQ.start 0 CAPACITY.
Proof. unfold enc_system, IQ.start. cbn. unfold enc_queue, IQ.new. cbn. by rewrite fmap_replicate. Qed.

(** Reachable states of the typed queue that have not panicked, seen as states of the
    index queue. *)
Definition simulated (s : system) : Prop :=
  s.(panicked) = false /\ rtc IQ.step (IQ.start 0 CAPACITY) (enc_system s).

Lemma enc_not_zero (l : list T) : 0 ∉ enc <$> l.
Proof. by intros (t & E & _)%list_elem_of_fmap. Qed.

Lemma simulated_no_panic s :
  0 <= CAPACITY -> simulated s -> zlength s.(pushed) + CAPACITY < 2 ^ 64 ->
  producer_step s.(queue) s.(producer) = Panic \/ consumer_step s.(queue) s.(consumer) = Panic ->
  False.
Proof.
  intros Hc [Hp Hr] HB Hpan.
  assert (HB' : zlength (enc_system s).(IQ.pushed) + CAPACITY < 2 ^ 64).
  { cbn. unfold zlength in *. by rewrite length_fmap. }
  assert (Hno : IQ.producer_step (enc_queue s.(queue)) (enc_producer s.(producer)) = Panic \/
    IQ.consumer_step (enc_queue s.(queue)) (enc_consumer s.(consumer)) = Panic -> False).
  { intros Hpi. pose proof (IQ.step_panic (enc_system s) Hpi) as Hst.
    pose proof (IQ.iq_reachable_inv 0 CAPACITY _ Hc (rtc_r _ _ _ Hr Hst) HB') as [].
    done. }
  destruct Hpan as [Hpan|Hpan].
  { apply Hno. left. by rewrite enc_producer_step, Hpan. }
  destruct (enc_consumer_panic _ _ Hpan) as [?|(r & Ec & E)]; [by auto|].
  pose proof (IQ.step_consumer (enc_system s) _ _ E) as Hst.
  assert (Hb : IQ.record_pop (enc_consumer s.(consumer)) (enc <$> s.(popped)) = enc <$> s.(popped)) by (by rewrite Ec).
  pose proof (IQ.iq_reachable_inv 0 CAPACITY _ Hc (rtc_r _ _ _ Hr Hst) HB') as [_ _ _ _ _ _ Hcons _ _].
  cbn in Hcons. destruct Hcons as (_ & _ & El). apply list_elem_of_lookup_2 in El. by apply enc_not_zero in El.
Qed.

Lemma simulated_step s s' :
  0 <= CAPACITY -> step s s' -> zlength s'.(pushed) + CAPACITY < 2 ^ 64 -> simulated s -> simulated s'.
Proof.
  intros Hc Hs HB Hsim. pose proof Hsim as [Hp Hr].
  destruct Hs as [b v E|r E|w r E|q p E|q c E| |Hpan]; cbn in HB;
    try (exfalso; by eapply simulated_no_panic); split; try done; eapply rtc_r; try exact Hr;
    unfold enc_system; cbn.
  - eapply (IQ.step_call_push (enc_system s) b). unfold enc_system. cbn. by rewrite E.
  - eapply (IQ.step_call_pop (enc_system s) (enc <$> r)). unfold enc_system. cbn. by rewrite E.
  - by eapply (IQ.step_call_len (enc_system s) w r).
  - rewrite enc_record_push. apply (IQ.step_producer (enc_system s)). cbn. by rewrite enc_producer_step, E.
  - rewrite enc_record_pop. apply (IQ.step_consumer (enc_system s)). cbn. by apply enc_consumer_step.
  - apply (IQ.step_observer (enc_system s)).
Qed.

Lemma simulated_reachable s :
  0 <= CAPACITY -> rtc step start s -> zlength s.(pushed) + CAPACITY < 2 ^ 64 -> simulated s.
Proof.
  intros Hc Hr HB. eapply (rtc_bounded_invariant step (fun s => zlength s.(pushed) + CAPACITY)
    (2 ^ 64 - 1) simulated); [| |done| |lia].
  - intros a b []; cbn; try lia. destruct (a.(producer)); cbn; rewrite ?zlength_app; unfold zlength; lia.
  - intros a b Hs Hle. apply simulated_step; [done..|lia].
  - split; [done|]. rewrite enc_start. apply rtc_refl.
Qed.

Lemma enc_contents q : enc_cell <$> contents q = IQ.contents (enc_queue q).
Proof.
  unfold contents, IQ.contents, ring_contents. cbn. generalize (seqZ q.(read_position) (q.(write_position) - q.(read_position))).
  intros l. induction l as [|p l IH]; [done|]. cbn. rewrite list_lookup_fmap.
  destruct (q.(data) !! _); cbn; by rewrite IH.
Qed.

Instance enc_cell_inj : Inj (=) (=) enc_cell.
Proof. intros [x|] [y|]; unfold enc_cell, enc; intros E; simplify_eq; done. Qed.

(** ** Properties *)

(** C17: the typed queue is the index queue on encoded values: alone, [push] computes
    what [push] of the index queue computes on the encoded state, panics included, and
    every interleaving of the typed producer, consumer and observer is one of the index
    queue.  Hence, as long as fewer than [2^64 - CAPACITY] values were pushed, no step
    panics, no uninitialised cell is read, and the values popped followed by the
    content of the queue are the values pushed. *)
Theorem spsc_queue_equivalent_index_queue s v :
  0 <= CAPACITY -> rtc step start s -> zlength s.(pushed) + CAPACITY < 2 ^ 64 ->
  IQ.push (enc_queue s.(queue)) (enc v) =
    (let! '(b, q) := push s.(queue) v in Ret (b, enc_queue q)) /\
  rtc IQ.step (IQ.start 0 CAPACITY) (enc_system s) /\
  s.(panicked) = false /\
  Some <$> s.(pushed) = (Some <$> s.(popped)) ++ contents s.(queue).
Proof.
  intros Hc Hr HB. pose proof (simulated_reachable s Hc Hr HB) as [Hp Hi]. split_and!; try done.
  - unfold IQ.push, push, IQ.at_, slot_of. cbn. destruct (_ +u64 CAPACITY); cbn; [|done].
    case_match; [done|]. case_match; [done|]. cbn. rewrite (enc_update _ _ (Some v)).
    destruct (update _ _ _); cbn; [|done]. by destruct (_ +u64 1).
  - apply (inj (fmap enc_cell)). rewrite fmap_app, enc_contents, <-!list_fmap_compose.
    apply (IQ.inv_contents CAPACITY (enc_system s)). apply (IQ.iq_reachable_inv 0); [done..|].
    cbn. unfold zlength in *. by rewrite length_fmap.
Qed.

End queue.

(** Two booleans go through a queue of one cell. *)
Lemma spsc_queue_equivalent_index_queue_witness :
  exists s : @system bool, rtc (@step dev bool 1) (start 1) s /\
    s.(popped) = [true] /\ s.(pushed) = [true; false] /\
    Some <$> s.(pushed) = (Some <$> s.(popped)) ++ contents 1 s.(queue).
Proof.
  assert (Hex : exists s : @system bool, rtc (@step dev bool 1) (start 1) s /\
    s.(popped) = [true] /\ s.(pushed) = [true; false] /\ zlength s.(pushed) + 1 < 2 ^ 64).
  { eexists. split.
    { take_step (@step_call_push dev bool 1 _ true true).
      do 4 take_step (@step_producer dev bool 1).
      take_step (@step_call_pop dev bool 1 _ None).
      do 4 take_step (@step_consumer dev bool 1).
      take_step (@step_call_push dev bool 1 _ true false).
      do 4 take_step (@step_producer dev bool 1).
      apply rtc_refl. }
    split_and!; reflexivity. }
  destruct Hex as (s & Hr & Epop & Epush & HB). exists s. split_and!; [done..|].
  apply (@spsc_queue_equivalent_index_queue dev bool _ _ 1 s true ltac:(lia) Hr HB).
Defined.

End SpscQueue.
