(* ===== verification/ReferenceCounter.v ===== *)
(** * The counters of the shared memory directory

    [iceoryx2_cal::shared_memory_directory]: [ReferenceCounter] packs the number of
    references to a file of the directory and three flags into one 64-bit word that is
    only changed by compare-and-swap loops; [DecisionCounter] holds the number by which
    concurrent creators of the same file decide who wins.

    The first part is the word, the second one the operations, the third one the life
    cycle of one slot of the directory: any number of threads create, find, remove and
    release the file of the slot. *)

From S2P Require Import Prelude.

Module ReferenceCounter.

(* src/iceoryx2_cal/src/shared_memory_directory/reference_counter.rs:15-20 ReferenceCounterDetails *)
Record ReferenceCounterDetails := {
  reference_counter : Z;
  is_initialized : bool;
  is_persistent : bool;
  to_be_removed : bool;
}.

Definition set_counter (d : ReferenceCounterDetails) n : ReferenceCounterDetails :=
  {| reference_counter := n; is_initialized := d.(is_initialized);
     is_persistent := d.(is_persistent); to_be_removed := d.(to_be_removed) |}.
Definition set_initialized (d : ReferenceCounterDetails) b : ReferenceCounterDetails :=
  {| reference_counter := d.(reference_counter); is_initialized := b;
     is_persistent := d.(is_persistent); to_be_removed := d.(to_be_removed) |}.
Definition set_persistent (d : ReferenceCounterDetails) b : ReferenceCounterDetails :=
  {| reference_counter := d.(reference_counter); is_initialized := d.(is_initialized);
     is_persistent := b; to_be_removed := d.(to_be_removed) |}.
Definition set_to_be_removed (d : ReferenceCounterDetails) b : ReferenceCounterDetails :=
  {| reference_counter := d.(reference_counter); is_initialized := d.(is_initialized);
     is_persistent := d.(is_persistent); to_be_removed := b |}.

(* src/iceoryx2_cal/src/shared_memory_directory/reference_counter.rs:23-30 new *)
Definition details (value : Z) : ReferenceCounterDetails :=
  {| reference_counter := shr (shl 64 value 3) 3;
     to_be_removed := shr (shl 64 value 2) 63 =? 1;
     is_initialized := shr (shl 64 value 1) 63 =? 1;
     is_persistent := shr value 63 =? 1 |}.

(* src/iceoryx2_cal/src/shared_memory_directory/reference_counter.rs:32-39 compact_value *)
Definition compact_value (d : ReferenceCounterDetails) : Z :=
  let to_be_removed := if d.(to_be_removed) then 1 else 0 in
  let is_persistent := if d.(is_persistent) then 1 else 0 in
  let is_initialized := if d.(is_initialized) then 1 else 0 in
  let reference_counter := shr (shl 64 d.(reference_counter) 3) 3 in
  Z.lor (Z.lor (Z.lor (shl 64 is_persistent 63) (shl 64 is_initialized 62))
    (shl 64 to_be_removed 61)) reference_counter.

#[global] Arguments details : simpl never.
#[global] Arguments compact_value : simpl never.

(** One iteration of a compare-and-swap loop: it either returns or tries to exchange
    the value it has loaded. *)
Inductive attempt (R : Type) : Type :=
| Return (r : R)
| Exchange (new : Z) (r : R).
Arguments Return {R} r.
Arguments Exchange {R} new r.

(** The loop of a thread that is not interrupted: the exchange succeeds at once. *)
Definition uninterrupted {R} (body : Z -> outcome (attempt R)) (cell : Z) : outcome (R * Z) :=
  let! a := body cell in
  match a with
  | Return r => Ret (r, cell)
  | Exchange new r => Ret (r, new)
  end.

Section operations.
Context `{Profile}.

(** The bodies of the loops, as functions of [current_value]. *)

(* src/iceoryx2_cal/src/shared_memory_directory/reference_counter.rs:57-70 increment_ref_counter *)
Definition increment_body (current_value : Z) : outcome (attempt Z) :=
  let d := details current_value in
  let! n := d.(reference_counter) +u64 1 in
  Ret (Exchange (compact_value (set_counter d n)) current_value).

(* src/iceoryx2_cal/src/shared_memory_directory/reference_counter.rs:76-97 increment_ref_counter_when_initialized *)
Definition increment_when_initialized_body (current_value : Z) : outcome (attempt bool) :=
  let d := details current_value in
  if negb (negb d.(to_be_removed) && d.(is_initialized) &&
           ((0 <? d.(reference_counter)) || d.(is_persistent)))
  then Ret (Return false)
  else
    let! n := d.(reference_counter) +u64 1 in
    Ret (Exchange (compact_value (set_counter d n)) true).

(* src/iceoryx2_cal/src/shared_memory_directory/reference_counter.rs:103-122 increment_ref_counter_when_exist *)
Definition increment_when_exist_body (current_value : Z) : outcome (attempt bool) :=
  let d := details current_value in
  if negb (negb d.(to_be_removed) && ((0 <? d.(reference_counter)) || d.(is_persistent)))
  then Ret (Return false)
  else
    let! n := d.(reference_counter) +u64 1 in
    Ret (Exchange (compact_value (set_counter d n)) true).

(* src/iceoryx2_cal/src/shared_memory_directory/reference_counter.rs:128-143 decrement_ref_counter *)
Definition decrement_body (current_value : Z) : outcome (attempt bool) :=
  let d := details current_value in
  let! n := d.(reference_counter) -u64 1 in
  let can_be_removed := (n =? 0) && negb d.(is_persistent) in
  Ret (Exchange (compact_value (set_counter d n)) can_be_removed).

(* src/iceoryx2_cal/src/shared_memory_directory/reference_counter.rs:149-165 set_initialized_bit *)
Definition set_initialized_body (is_set : bool) (current_value : Z) : outcome (attempt bool) :=
  let d := details current_value in
  if eqb d.(is_initialized) is_set then Ret (Return true)
  else Ret (Exchange (compact_value (set_initialized d is_set)) true).

(* src/iceoryx2_cal/src/shared_memory_directory/reference_counter.rs:179-195 to_be_removed *)
Definition to_be_removed_body (current_value : Z) : outcome (attempt bool) :=
  let d := details current_value in
  if d.(to_be_removed) then Ret (Return true)
  else Ret (Exchange (compact_value (set_to_be_removed d true)) true).

(* src/iceoryx2_cal/src/shared_memory_directory/reference_counter.rs:201-217 set_persistency_bit *)
Definition set_persistency_body (is_set : bool) (current_value : Z) : outcome (attempt bool) :=
  let d := details current_value in
  if eqb d.(is_persistent) is_set then Ret (Return true)
  else Ret (Exchange (compact_value (set_persistent d is_set)) true).

(** The operations of a thread that is not interrupted: the result and the word
    afterwards.  Operations without a result return [true]. *)

(* src/iceoryx2_cal/src/shared_memory_directory/reference_counter.rs:50-52 reset *)
Definition reset (cell : Z) : Z := 0.

(* src/iceoryx2_cal/src/shared_memory_directory/reference_counter.rs:54-71 increment_ref_counter *)
Definition increment_ref_counter (cell : Z) : outcome (Z * Z) := uninterrupted increment_body cell.

(* src/iceoryx2_cal/src/shared_memory_directory/reference_counter.rs:73-98 increment_ref_counter_when_initialized *)
Definition increment_ref_counter_when_initialized (cell : Z) : outcome (bool * Z) :=
  uninterrupted increment_when_initialized_body cell.

(* src/iceoryx2_cal/src/shared_memory_directory/reference_counter.rs:100-123 increment_ref_counter_when_exist *)
Definition increment_ref_counter_when_exist (cell : Z) : outcome (bool * Z) :=
  uninterrupted increment_when_exist_body cell.

(* src/iceoryx2_cal/src/shared_memory_directory/reference_counter.rs:125-144 decrement_ref_counter *)
Definition decrement_ref_counter (cell : Z) : outcome (bool * Z) := uninterrupted decrement_body cell.

(* src/iceoryx2_cal/src/shared_memory_directory/reference_counter.rs:146-166 set_initialized_bit *)
Definition set_initialized_bit (cell : Z) (is_set : bool) : outcome Z :=
  let! '(_, cell) := uninterrupted (set_initialized_body is_set) cell in Ret cell.

(* src/iceoryx2_cal/src/shared_memory_directory/reference_counter.rs:176-196 to_be_removed *)
Definition mark_to_be_removed (cell : Z) : outcome Z :=
  let! '(_, cell) := uninterrupted to_be_removed_body cell in Ret cell.

(* src/iceoryx2_cal/src/shared_memory_directory/reference_counter.rs:198-218 set_persistency_bit *)
Definition set_persistency_bit (cell : Z) (is_set : bool) : outcome Z :=
  let! '(_, cell) := uninterrupted (set_persistency_body is_set) cell in Ret cell.

End operations.

(** ** The decision counter *)

(* src/iceoryx2_cal/src/shared_memory_directory/decision_counter.rs:15-15 UNDECIDED *)
Definition UNDECIDED : Z := 2 ^ 64 - 1.

(* src/iceoryx2_cal/src/shared_memory_directory/decision_counter.rs:16-16 LOST *)
Definition LOST : Z := 2 ^ 64 - 1.

(* src/iceoryx2_cal/src/shared_memory_directory/decision_counter.rs:30-34 set *)
Definition decision_set (cell value : Z) : bool * Z :=
  match compare_exchange cell UNDECIDED value with
  | (Ok _, cell) => (true, cell)
  | (Err _, cell) => (false, cell)
  end.

(* src/iceoryx2_cal/src/shared_memory_directory/decision_counter.rs:36-50 does_value_win *)
Definition does_value_win (cell competing_value : Z) : bool * Z :=
  let my_value := cell in
  if my_value =? UNDECIDED then
    match compare_exchange cell UNDECIDED LOST with
    | (Err v, cell) => (competing_value <? v, cell)
    | (Ok _, cell) => (true, cell)
    end
  else (competing_value <? my_value, cell).

(** ** The life cycle of a slot

    The threads of all processes that work on one slot of the directory.  Between two
    operations on the counter a thread is in one of the following phases; the phases
    follow the functions of [file_reference_set.rs] that contain the operation. *)

Inductive phase :=
| Idle
| Acquired                    (** [insert] has taken the id of the slot *)
| Persisted                   (** [insert] has set the persistency bit *)
| Created                     (** [insert] has counted its reference *)
| Checking                    (** [insert] of another slot looks at this one *)
| Found                       (** [find_entry] looks at the name of the entry *)
| Unpersisted                 (** [to_be_removed] has cleared the persistency bit *)
| Marked                      (** [to_be_removed] has marked the entry *)
| Holding                     (** the thread has a [File] *)
| Dead                        (** [decrement_ref_counter] has to remove the entry *)
| Cleared.                    (** the counter was reset, the id is not yet released *)

Inductive counter_op :=
| OPersist (is_set : bool)
| OIncrement
| OInitialize
| OCheck
| OFind
| ODecrement (ignore : bool)  (** [ignore]: the caller does not look at the result *)
| OUnpersist
| OMark.

Inductive pc :=
| At (ph : phase)
| Load (o : counter_op)
| Cas (o : counter_op) (current new : Z) (r : bool).

(** [leaked] counts references whose owner returned without releasing them, [lost] the
    calls of [decrement_ref_counter] whose request to remove the entry was ignored. *)
Record slot := { counter : Z; id_free : bool; leaked : Z; lost : Z }.

Definition set_word (g : slot) v : slot :=
  {| counter := v; id_free := g.(id_free); leaked := g.(leaked); lost := g.(lost) |}.
Definition set_id_free (g : slot) b : slot :=
  {| counter := g.(counter); id_free := b; leaked := g.(leaked); lost := g.(lost) |}.
Definition add_leaked (g : slot) : slot :=
  {| counter := g.(counter); id_free := g.(id_free); leaked := g.(leaked) + 1; lost := g.(lost) |}.
Definition add_lost (g : slot) (b : bool) : slot :=
  {| counter := g.(counter); id_free := g.(id_free); leaked := g.(leaked);
     lost := if b then g.(lost) + 1 else g.(lost) |}.

Section threads.
Context `{Profile}.

Definition body (o : counter_op) (current_value : Z) : outcome (attempt bool) :=
  match o with
  | OPersist b => set_persistency_body b current_value
  | OIncrement =>
      let! a := increment_body current_value in
      match a with
      | Return _ => Ret (Return true)
      | Exchange new _ => Ret (Exchange new true)
      end
  | OInitialize => set_initialized_body true current_value
  | OCheck => increment_when_exist_body current_value
  | OFind => increment_when_initialized_body current_value
  | ODecrement _ => decrement_body current_value
  | OUnpersist => set_persistency_body false current_value
  | OMark => to_be_removed_body current_value
  end.

(** The phase after the operation. *)
Definition next (o : counter_op) (r : bool) : phase :=
  match o, r with
  | OPersist _, _ => Persisted
  | OIncrement, _ => Created
  | OInitialize, _ => Holding
  | OCheck, true => Checking
  | OFind, true => Found
  | ODecrement false, true => Dead
  | OUnpersist, _ => Unpersisted
  | OMark, _ => Marked
  | _, _ => Idle
  end.

Definition ignored (o : counter_op) (r : bool) : bool :=
  match o with ODecrement true => r | _ => false end.

(** What a loop does with the value it has loaded. *)
Definition consider (o : counter_op) (v : Z) : outcome pc :=
  let! a := body o v in
  match a with
  | Return r => Ret (At (next o r))
  | Exchange new r => Ret (Cas o v new r)
  end.

Definition counter_step (g : slot) (p : pc) : outcome (slot * pc) :=
  match p with
  | At ph => Ret (g, At ph)
  | Load o => let! p := consider o g.(counter) in Ret (g, p)
  | Cas o current new r =>
      match compare_exchange g.(counter) current new with
      | (Ok _, v) => Ret (add_lost (set_word g v) (ignored o r), At (next o r))
      | (Err v, _) => let! p := consider o v in Ret (g, p)
      end
  end.

Inductive slot_action :=
| AAcquire | ACreate (is_persistent : bool) | ACount | AFinalize | AFail
| ACheck | AFind | AMismatch | AOpen | ARemove | AMark | ADrop | AClear | ARelease | AStep.

(** The operation that an action starts in a phase. *)
Definition starts (t : slot_action) (ph : phase) : option counter_op :=
  match t, ph with
  | ACreate b, Acquired => Some (OPersist b)
  | ACount, Persisted => Some OIncrement
  | AFinalize, Created => Some OInitialize
  | ACheck, Idle => Some OCheck
  | AFind, Idle => Some OFind
  | AMismatch, Found => Some (ODecrement true)
  | ARemove, Found => Some OUnpersist
  | AMark, Unpersisted => Some OMark
  | ADrop, (Checking | Found | Marked | Holding) => Some (ODecrement false)
  | _, _ => None
  end.

(* src/iceoryx2_cal/src/shared_memory_directory/file_reference_set.rs:223-244 find_entry, decrement_ref_counter *)
Definition slot_act (t : slot_action) (g : slot) (p : pc) : option (slot * pc) :=
  match t, p with
  | AAcquire, At Idle =>
      if g.(id_free) then Some (set_id_free g false, At Acquired) else None
  | AFail, At (Created | Checking) => Some (add_leaked g, At Idle)
  | AOpen, At Found => Some (g, At Holding)
  | AClear, At Dead => Some (set_word g (reset g.(counter)), At Cleared)
  | ARelease, At Cleared => Some (set_id_free g true, At Idle)
  | AStep, (Load _ | Cas _ _ _ _) =>
      match counter_step g p with Ret (g, p) => Some (g, p) | Panic => None end
  | t, At ph => match starts t ph with Some o => Some (g, Load o) | None => None end
  | _, _ => None
  end.

Definition slot_start (n : nat) : slot * list pc :=
  ({| counter := 0; id_free := true; leaked := 0; lost := 0 |}, replicate n (At Idle)).

End threads.

(** ** The packed word *)

(** [(v << k) >> n] selects the bits from [n - k] up to [64 - k]. *)
Lemma shl_shr_field v k n :
  0 <= k <= n -> n <= 64 -> shr (shl 64 v k) n = (v / 2 ^ (n - k)) mod 2 ^ (64 - n).
Proof.
  intros Hk Hn. unfold shr, shl. rewrite Z.shiftr_div_pow2, Z.shiftl_mul_pow2 by lia.
  replace (2 ^ 64) with (2 ^ (64 - k) * 2 ^ k) by (rewrite <-Z.pow_add_r by lia; f_equal; lia).
  rewrite Zmult_mod_distr_r. replace (2 ^ n) with (2 ^ (n - k) * 2 ^ k)
    by (rewrite <-Z.pow_add_r by lia; f_equal; lia).
  pose proof (Z.pow_pos_nonneg 2 k). pose proof (Z.pow_pos_nonneg 2 (n - k)).
  pose proof (Z.pow_pos_nonneg 2 (64 - n)).
  rewrite Z.div_mul_cancel_r by lia.
  replace (2 ^ (64 - k)) with (2 ^ (n - k) * 2 ^ (64 - n)) by (rewrite <-Z.pow_add_r by lia; f_equal; lia).
  rewrite Z.rem_mul_r by lia. rewrite Z.mul_comm, Z.div_add by lia.
  rewrite (Z.div_small (v mod _)) by (apply Z.mod_pos_bound; lia). lia.
Qed.

Definition bit (b : bool) : Z := if b then 1 else 0.

Lemma shl_bit b n : 0 <= n < 64 -> shl 64 (bit b) n = bit b * 2 ^ n.
Proof.
  intros Hn. unfold shl. rewrite Z.shiftl_mul_pow2 by lia. apply Z.mod_small.
  pose proof (Z.pow_lt_mono_r 2 n 64). destruct b; cbn [bit]; lia.
Qed.

Lemma bit_range b : 0 <= bit b <= 1.
Proof. destruct b; cbn [bit]; lia. Qed.

Lemma compact_value_sum d :
  compact_value d = bit d.(is_persistent) * 2 ^ 63 + bit d.(is_initialized) * 2 ^ 62 +
    bit d.(to_be_removed) * 2 ^ 61 + d.(reference_counter) mod 2 ^ 61.
Proof.
  unfold compact_value. fold (bit d.(is_persistent)) (bit d.(is_initialized)) (bit d.(to_be_removed)).
  rewrite !shl_bit by lia. rewrite shl_shr_field by lia. change (3 - 3) with 0.
  rewrite Z.pow_0_r, Z.div_1_r. change (64 - 3) with 61.
  pose proof (Z.mod_pos_bound d.(reference_counter) (2 ^ 61) ltac:(lia)).
  pose proof (bit_range d.(is_persistent)). pose proof (bit_range d.(is_initialized)).
  pose proof (bit_range d.(to_be_removed)). rewrite lor_add_pow2 by lia.
  set (p := bit d.(is_persistent)) in *. set (i := bit d.(is_initialized)) in *.
  set (t := bit d.(to_be_removed)) in *.
  replace (p * 2 ^ 63 + i * 2 ^ 62) with ((p * 2 + i) * 2 ^ 62) by lia. rewrite lor_add_pow2 by lia.
  replace ((p * 2 + i) * 2 ^ 62 + t * 2 ^ 61) with ((p * 4 + i * 2 + t) * 2 ^ 61) by lia.
  by rewrite lor_add_pow2 by lia.
Qed.

Lemma compact_value_range d : in_range 64 (compact_value d).
Proof.
  rewrite compact_value_sum. unfold in_range.
  pose proof (Z.mod_pos_bound d.(reference_counter) (2 ^ 61) ltac:(lia)).
  pose proof (bit_range d.(is_persistent)). pose proof (bit_range d.(is_initialized)).
  pose proof (bit_range d.(to_be_removed)). lia.
Qed.

(** Division and remainder of a number in mixed radix. *)
Lemma div_mod_field a x b n m :
  0 <= n -> 0 < m -> 0 <= b < 2 ^ n -> 0 <= x < m -> ((a * m + x) * 2 ^ n + b) / 2 ^ n mod m = x.
Proof.
  intros Hn Hm Hb Hx. rewrite Z.div_add_l, (Z.div_small b), Z.add_0_r by lia.
  rewrite Z.add_comm, Z_mod_plus_full. by apply Z.mod_small.
Qed.

Lemma bit_eqb b : (bit b =? 1) = b.
Proof. by destruct b. Qed.

Lemma details_compact d :
  details (compact_value d) = set_counter d (d.(reference_counter) mod 2 ^ 61).
Proof.
  unfold details. pose proof (compact_value_range d) as Hr. unfold in_range in Hr.
  assert (Es : shr (compact_value d) 63 = compact_value d / 2 ^ 63 mod 2 ^ 1).
  { unfold shr. rewrite Z.shiftr_div_pow2 by lia. symmetry. apply Z.mod_small.
    split; [apply Z.div_pos; lia|]. apply Z.div_lt_upper_bound; lia. }
  rewrite Es, !shl_shr_field by lia. change (3 - 3) with 0. change (63 - 2) with 61. change (63 - 1) with 62.
  change (64 - 63) with 1. change (64 - 3) with 61. rewrite Z.pow_0_r, Z.div_1_r. clear Es Hr.
  rewrite !compact_value_sum. pose proof (Z.mod_pos_bound d.(reference_counter) (2 ^ 61) ltac:(lia)) as Hc.
  pose proof (bit_range d.(is_persistent)). pose proof (bit_range d.(is_initialized)).
  pose proof (bit_range d.(to_be_removed)).
  set (p := bit d.(is_persistent)) in *. set (i := bit d.(is_initialized)) in *.
  set (t := bit d.(to_be_removed)) in *. set (c := _ mod 2 ^ 61) in *. unfold set_counter. f_equal.
  - replace (p * 2 ^ 63 + i * 2 ^ 62 + t * 2 ^ 61 + c) with (c + (p * 4 + i * 2 + t) * 2 ^ 61) by lia.
    rewrite Z_mod_plus_full. by apply Z.mod_small.
  - replace (p * 2 ^ 63 + i * 2 ^ 62 + t * 2 ^ 61 + c) with ((p * 2 ^ 1 + i) * 2 ^ 62 + (t * 2 ^ 61 + c)) by lia.
    rewrite div_mod_field by lia. apply bit_eqb.
  - replace (p * 2 ^ 63 + i * 2 ^ 62 + t * 2 ^ 61 + c) with ((0 * 2 ^ 1 + p) * 2 ^ 63 + (i * 2 ^ 62 + t * 2 ^ 61 + c)) by lia.
    rewrite div_mod_field by lia. apply bit_eqb.
  - replace (p * 2 ^ 63 + i * 2 ^ 62 + t * 2 ^ 61 + c) with (((p * 2 + i) * 2 ^ 1 + t) * 2 ^ 61 + c) by lia.
    rewrite div_mod_field by lia. apply bit_eqb.
Qed.

(** Every word is the compact value of its details. *)
Lemma bit_of_field x : 0 <= x < 2 -> bit (x =? 1) = x.
Proof. intros Hx. destruct (x =? 1) eqn:E; bool_to_prop; cbn [bit]; lia. Qed.

Lemma compact_details v : in_range 64 v -> compact_value (details v) = v.
Proof.
  intros Hv. unfold in_range in Hv. rewrite compact_value_sum. unfold details. cbn.
  assert (Es : shr v 63 = v / 2 ^ 63).
  { unfold shr. by rewrite Z.shiftr_div_pow2 by lia. }
  rewrite Es, !shl_shr_field by lia. change (3 - 3) with 0. change (63 - 2) with 61. change (63 - 1) with 62.
  change (64 - 63) with 1. change (64 - 3) with 61. rewrite Z.pow_0_r, Z.div_1_r, Zmod_mod.
  rewrite !bit_of_field.
  - Z.div_mod_to_equations. lia.
  - apply Z.mod_pos_bound. lia.
  - apply Z.mod_pos_bound. lia.
  - split; [apply Z.div_pos; lia|]. apply Z.div_lt_upper_bound; lia.
Qed.

Lemma details_count_range v : 0 <= (details v).(reference_counter) < 2 ^ 61.
Proof. unfold details. cbn [reference_counter]. rewrite shl_shr_field by lia. apply Z.mod_pos_bound. lia. Qed.

(** ** The operations on the details *)

Definition zero : ReferenceCounterDetails :=
  {| reference_counter := 0; is_initialized := false; is_persistent := false;
     to_be_removed := false |}.

(** What an operation does at the moment it takes effect. *)
Definition effect (o : counter_op) (d : ReferenceCounterDetails) : bool * ReferenceCounterDetails :=
  let c := d.(reference_counter) in
  let exists_ := negb d.(to_be_removed) && ((0 <? c) || d.(is_persistent)) in
  match o with
  | OPersist b => (true, set_persistent d b)
  | OIncrement => (true, set_counter d (c + 1))
  | OInitialize => (true, set_initialized d true)
  | OCheck => if exists_ then (true, set_counter d (c + 1)) else (false, d)
  | OFind => if exists_ && d.(is_initialized) then (true, set_counter d (c + 1)) else (false, d)
  | ODecrement _ => ((c - 1 =? 0) && negb d.(is_persistent), set_counter d (c - 1))
  | OUnpersist => (true, set_persistent d false)
  | OMark => (true, set_to_be_removed d true)
  end.

Lemma details_zero : details 0 = zero.
Proof. reflexivity. Qed.

Lemma details_inj v w : in_range 64 v -> in_range 64 w -> details v = details w -> v = w.
Proof. intros Hv Hw E. rewrite <-(compact_details v Hv), <-(compact_details w Hw). by rewrite E. Qed.

Section bodies.
Context `{Profile}.

(** An iteration whose exchange succeeds, or that returns, performs the effect of the
    operation; it does not panic. *)
Definition performs (o : counter_op) (d : ReferenceCounterDetails) (v : Z) (a : attempt bool) : Prop :=
  match a with
  | Return r => effect o d = (r, d) /\ ignored o r = false
  | Exchange new r => in_range 64 new /\ effect o d = (r, details new)
  end.

Lemma set_counter_self d : set_counter d d.(reference_counter) = d.
Proof. by destruct d. Qed.

Lemma details_set_counter d n : 0 <= n < 2 ^ 61 -> details (compact_value (set_counter d n)) = set_counter d n.
Proof. intros Hn. rewrite details_compact. cbn. by rewrite Z.mod_small by lia. Qed.

Lemma body_performs o v :
  let d := details v in
  in_range 64 v -> d.(reference_counter) + 1 < 2 ^ 61 ->
  match o with ODecrement _ => 0 < d.(reference_counter) | _ => True end ->
  exists a, body o v = Ret a /\ performs o d v a.
Proof.
  intros d Hv Hc Ho. pose proof (details_count_range v) as Hr. fold d in Hr.
  assert (Hflag : forall d', d'.(reference_counter) = d.(reference_counter) ->
    details (compact_value d') = d').
  { intros d' E. rewrite details_compact, E, Z.mod_small by lia. rewrite <-E. apply set_counter_self. }
  pose proof compact_value_range as Hcr.
  destruct o; cbn; unfold set_persistency_body, increment_body, set_initialized_body,
    increment_when_exist_body, increment_when_initialized_body, decrement_body, to_be_removed_body;
    fold d; rewrite ?usub_ok by lia; cbn [outcome_bind]; rewrite ?uadd_ok by lia; cbn [outcome_bind].
  - destruct (eqb d.(is_persistent) is_set) eqn:E; eexists; (split; [done|]); cbn.
    + apply eqb_prop in E. split; [|done]. f_equal. by rewrite <-E; destruct d.
    + by rewrite Hflag.
  - eexists. split; [done|]. cbn. by rewrite details_set_counter by lia.
  - destruct (eqb d.(is_initialized) true) eqn:E; eexists; (split; [done|]); cbn.
    + apply eqb_prop in E. split; [|done]. f_equal. by rewrite <-E; destruct d.
    + by rewrite Hflag.
  - destruct (negb d.(to_be_removed) && _) eqn:E; cbn; eexists; (split; [done|]); cbn; rewrite E.
    + by rewrite details_set_counter by lia.
    + done.
  - rewrite andb_comm, andb_assoc, (andb_comm _ (negb _)). destruct (_ && d.(is_initialized)) eqn:E; cbn; eexists;
      (split; [done|]); cbn; rewrite E.
    + by rewrite details_set_counter by lia.
    + done.
  - eexists. split; [done|]. cbn. by rewrite details_set_counter by lia.
  - destruct (eqb d.(is_persistent) false) eqn:E; eexists; (split; [done|]); cbn.
    + apply eqb_prop in E. split; [|done]. f_equal. by rewrite <-E; destruct d.
    + by rewrite Hflag.
  - destruct d.(to_be_removed) eqn:E; eexists; (split; [done|]); cbn.
    + split; [|done]. f_equal. by rewrite <-E; destruct d.
    + by rewrite Hflag.
Qed.

End bodies.

(** ** The invariant of a slot *)

(** A running operation belongs to the phase it was started in. *)
Inductive role := RNone | RZero | RNew | RDead | RShared | RUser.

Definition op_role (o : counter_op) : role :=
  match o with
  | OPersist _ => RZero
  | OIncrement => RNew
  | OInitialize | OUnpersist | OMark => RUser
  | ODecrement _ => RShared
  | OCheck | OFind => RNone
  end.

Definition phase_role (ph : phase) : role :=
  match ph with
  | Idle => RNone
  | Acquired | Cleared => RZero
  | Persisted => RNew
  | Dead => RDead
  | Checking => RShared
  | Created | Found | Unpersisted | Marked | Holding => RUser
  end.

Definition role_of (p : pc) : role :=
  match p with At ph => phase_role ph | Load o | Cas o _ _ _ => op_role o end.

(** References counted in the word, threads that own the id of the slot, and threads
    that rely on the entry being theirs or initialised. *)
Definition refs (p : pc) : Z := match role_of p with RShared | RUser => 1 | _ => 0 end.
Definition own (p : pc) : Z := match role_of p with RZero | RNew | RDead => 1 | _ => 0 end.
Definition user (p : pc) : Z := match role_of p with RUser => 1 | _ => 0 end.

#[global] Arguments refs !p /.
#[global] Arguments own !p /.
#[global] Arguments user !p /.

Definition role_ok (d : ReferenceCounterDetails) (r : role) : Prop :=
  match r with
  | RZero => d = zero
  | RNew => d.(is_initialized) = false /\ d.(to_be_removed) = false /\
            (d.(is_persistent) = false -> d.(reference_counter) = 0)
  | RDead => d.(reference_counter) = 0 /\ d.(is_persistent) = false
  | RNone | RShared | RUser => True
  end.

Definition cas_ok `{Profile} (p : pc) : Prop :=
  match p with Cas o v new r => body o v = Ret (Exchange new r) | _ => True end.

Record slot_inv `{Profile} (n : nat) (g : slot) (ps : list pc) : Prop := {
  si_length : length ps = n;
  si_range : in_range 64 g.(counter);
  si_ghost : 0 <= g.(leaked) /\ 0 <= g.(lost);
  si_count : (details g.(counter)).(reference_counter) = total refs ps + g.(leaked);
  si_owner : total own ps + bit g.(id_free) <= 1;
  si_user : 0 < total user ps -> total own ps + bit g.(id_free) = 0;
  si_free : g.(id_free) = true -> details g.(counter) = zero;
  si_alive : g.(lost) = 0 -> total own ps + bit g.(id_free) = 0 ->
    0 < (details g.(counter)).(reference_counter) \/ (details g.(counter)).(is_persistent) = true;
  si_roles : Forall (fun p => role_ok (details g.(counter)) (role_of p) /\ cas_ok p) ps;
}.

Lemma refs_nonneg p : 0 <= refs p.
Proof. unfold refs. destruct (role_of p); lia. Qed.
Lemma own_nonneg p : 0 <= own p.
Proof. unfold own. destruct (role_of p); lia. Qed.
Lemma user_nonneg p : 0 <= user p.
Proof. unfold user. destruct (role_of p); lia. Qed.
Lemma refs_le_one p : refs p <= 1.
Proof. unfold refs. destruct (role_of p); lia. Qed.

(** Only what the owner of the id relies on depends on the word. *)
Lemma role_ok_not_owner d d' p : own p = 0 -> role_ok d (role_of p) -> role_ok d' (role_of p).
Proof. unfold own. by destruct (role_of p). Qed.

(** An increment, a decrement by a holder or the check of a live entry leaves alone what
    the owner of the id relies on. *)
Lemma role_ok_shared d n r :
  role_ok d r -> 0 < d.(reference_counter) \/ d.(is_persistent) = true -> role_ok (set_counter d n) r.
Proof.
  destruct r; cbn; try done.
  - intros -> [?|?]; cbn in *; [lia|done].
  - intros (? & ? & Hp) Hx. split_and!; try done. intros E. specialize (Hp E). destruct Hx; [lia|congruence].
  - intros [? ?] [?|?]; [lia|congruence].
Qed.

Section slot_proofs.
Context `{Profile}.

(** The part of the invariant that says what one thread's move does to the sums. *)
Lemma slot_inv_update n g ps i p g' p' :
  slot_inv n g ps -> ps !! i = Some p ->
  in_range 64 g'.(counter) -> 0 <= g'.(leaked) /\ 0 <= g'.(lost) ->
  let d := details g'.(counter) in
  let owners := total own ps - own p + own p' + bit g'.(id_free) in
  d.(reference_counter) = total refs ps - refs p + refs p' + g'.(leaked) ->
  owners <= 1 ->
  (0 < total user ps - user p + user p' -> owners = 0) ->
  (g'.(id_free) = true -> d = zero) ->
  (g'.(lost) = 0 -> owners = 0 -> 0 < d.(reference_counter) \/ d.(is_persistent) = true) ->
  role_ok d (role_of p') -> cas_ok p' ->
  (forall j o, j <> i -> ps !! j = Some o -> role_ok (details g.(counter)) (role_of o) -> role_ok d (role_of o)) ->
  slot_inv n g' (<[i := p']> ps).
Proof.
  intros [Hl _ _ _ _ _ _ _ Hroles] Ei Hr Hg d owners Hc Ho Hu Hf Ha Hp' Hcas Hoth.
  split; rewrite ?(total_insert _ ps i p p' Ei); try done.
  - by rewrite length_insert.
  - apply (iact_Forall (fun (dd : ReferenceCounterDetails) q => role_ok dd (role_of q) /\ cas_ok q) i (details g.(counter)) ps d p);
      try done. intros j o Hne Ej [Hro Hco]. split; [|done]. by apply (Hoth j).
Qed.

Lemma slot_owner_excludes n g ps i j p q :
  slot_inv n g ps -> ps !! i = Some p -> ps !! j = Some q -> i <> j -> own p = 1 -> own q = 0.
Proof.
  intros Hi Ei Ej Hne Hp. pose proof (si_owner _ _ _ Hi).
  pose proof (total_two own own_nonneg ps i j p q Ei Ej Hne). pose proof (own_nonneg q).
  destruct (g.(id_free)); cbn [bit] in *; lia.
Qed.

Lemma slot_user_excludes n g ps i j p q :
  slot_inv n g ps -> ps !! i = Some p -> ps !! j = Some q -> user p = 1 -> own q = 0.
Proof.
  intros Hi Ei Ej Hp. pose proof (si_user _ _ _ Hi).
  pose proof (total_lookup user user_nonneg ps i p Ei). pose proof (total_lookup own own_nonneg ps j q Ej).
  pose proof (own_nonneg q). destruct (g.(id_free)); cbn [bit] in *; lia.
Qed.

Lemma slot_role n g ps i p : slot_inv n g ps -> ps !! i = Some p ->
  role_ok (details g.(counter)) (role_of p) /\ cas_ok p.
Proof. intros Hi Ei. exact (proj1 (Forall_lookup _ _) (si_roles _ _ _ Hi) i p Ei). Qed.

Lemma slot_refs n g ps i p : slot_inv n g ps -> ps !! i = Some p ->
  refs p <= (details g.(counter)).(reference_counter).
Proof.
  intros Hi Ei. rewrite (si_count _ _ _ Hi). pose proof (total_lookup refs refs_nonneg ps i p Ei).
  pose proof (si_ghost _ _ _ Hi). lia.
Qed.

(** The weights of a thread that runs an operation. *)
Lemma op_weights p o : role_of p = op_role o ->
  refs p = match op_role o with RShared | RUser => 1 | _ => 0 end /\
  own p = match op_role o with RZero | RNew | RDead => 1 | _ => 0 end /\
  user p = match op_role o with RUser => 1 | _ => 0 end.
Proof. unfold refs, own, user. by intros ->. Qed.

(** An operation of the owner of the id, or of a user of the entry. *)
Lemma slot_linearize_exclusive n g ps i p o r v :
  slot_inv n g ps -> ps !! i = Some p -> role_of p = op_role o -> in_range 64 v ->
  effect o (details g.(counter)) = (r, details v) ->
  match o with OPersist _ | OIncrement | OInitialize | OUnpersist | OMark => True | _ => False end ->
  slot_inv n (add_lost (set_word g v) (ignored o r)) (<[i := At (next o r)]> ps).
Proof.
  intros Hi Ei Hp Hv E Ho. destruct (op_weights p o Hp) as (Hr & Hw & Hu).
  pose proof (slot_role _ _ _ _ _ Hi Ei) as [Hrole _]. rewrite Hp in Hrole.
  pose proof (slot_refs _ _ _ _ _ Hi Ei) as Hre.
  assert (Hoth : forall j q, j <> i -> ps !! j = Some q -> own q = 0).
  { intros j q Hne Ej. destruct o; try contradiction Ho; cbn in Hw, Hu;
      first [by eapply (slot_owner_excludes n g ps i j p q)|by eapply (slot_user_excludes n g ps i j p q)]. }
  pose proof Hi as [_ _ Hgh Hc Hown Huser Hfree Hal _].
  pose proof (total_lookup own own_nonneg ps i p Ei). pose proof (bit_range g.(id_free)).
  pose proof (total_nonneg own own_nonneg ps). pose proof (total_lookup user user_nonneg ps i p Ei). set (d := details g.(counter)) in *.
  destruct o; try contradiction Ho; cbn [effect] in E; apply pair_equal_spec in E as [<- E]; cbn [op_role] in Hr, Hw, Hu, Hrole; cbn [next ignored add_lost].
  all: apply (slot_inv_update n g ps i p _ _ Hi Ei); cbn [counter leaked lost id_free set_word add_lost role_of]; rewrite <-?E.
  all: rewrite ?Hr, ?Hw, ?Hu.
  all: try match goal with |- in_range _ _ => exact Hv | |- 0 <= _ /\ _ => exact Hgh | |- cas_ok _ => exact I
    | |- forall j o, _ => intros j q Hne Ej; apply role_ok_not_owner; by eapply Hoth end.
  all: cbn [refs own user role_of phase_role reference_counter is_persistent is_initialized to_be_removed
     set_persistent set_counter set_initialized set_to_be_removed role_ok].
  all: try lia.
  all: try match goal with |- id_free _ = true -> _ => intros F; rewrite F in *; cbn [bit] in *; lia end.
  cbn in Hrole. by rewrite Hrole.
Qed.

(** Nobody owns the id of a live entry that is initialised or not persistent. *)
Lemma slot_no_owner n g ps :
  slot_inv n g ps ->
  let d := details g.(counter) in
  0 < d.(reference_counter) \/ d.(is_persistent) = true ->
  d.(is_initialized) = true \/ d.(is_persistent) = false ->
  total own ps + bit g.(id_free) = 0.
Proof.
  intros Hi d Hlive Hx. assert (Hf : g.(id_free) = false).
  { destruct (g.(id_free)) eqn:F; [|done]. pose proof (si_free _ _ _ Hi F) as Hz. fold d in Hz.
    rewrite Hz in Hlive. cbn in Hlive. destruct Hlive; [lia|done]. }
  rewrite Hf. cbn [bit]. pose proof (total_nonneg own own_nonneg ps).
  destruct (Z_lt_dec 0 (total own ps)) as [Hpos|]; [exfalso|lia].
  apply (total_pos own own_nonneg) in Hpos as (j & q & Ej & Hq).
  destruct (slot_role _ _ _ _ _ Hi Ej) as [Hrole _]. fold d in Hrole. unfold own in Hq.
  destruct (role_of q); cbn in Hrole; try lia.
  - rewrite Hrole in Hlive. cbn in Hlive. destruct Hlive; [lia|done].
  - destruct Hrole as (Hini & _ & Hp). destruct Hx as [Hx|Hx]; [congruence|].
    specialize (Hp Hx). destruct Hlive; [lia|congruence].
  - destruct Hrole as [? ?]. destruct Hlive; [lia|congruence].
Qed.

(** A reference is counted, or given back without removing the entry. *)
Lemma slot_count n g ps i p ph k v :
  slot_inv n g ps -> ps !! i = Some p -> own p = 0 -> in_range 64 v ->
  let d := details g.(counter) in
  details v = set_counter d (d.(reference_counter) + k) ->
  0 < d.(reference_counter) \/ d.(is_persistent) = true ->
  (d.(reference_counter) + k = 0 -> d.(is_persistent) = true) -> 0 <= d.(reference_counter) + k ->
  refs (At ph) = refs p + k -> own (At ph) = 0 ->
  (user (At ph) <= user p \/ d.(is_initialized) = true) ->
  role_ok (details v) (phase_role ph) ->
  slot_inv n (set_word g v) (<[i := At ph]> ps).
Proof.
  intros Hi Ei Hw Hv d E Hlive Hk Hpos Hr Ho Hu Hrole.
  pose proof Hi as [_ _ Hgh Hc Hown Huser Hfree Hal _].
  pose proof (total_nonneg own own_nonneg ps). pose proof (bit_range g.(id_free)).
  pose proof (total_nonneg user user_nonneg ps).
  fold d in Hc, Hfree, Hal.
  apply (slot_inv_update n g ps i p _ _ Hi Ei); cbn [counter leaked lost id_free set_word role_of];
    rewrite ?E, ?Hw, ?Ho, ?Hr; cbn [set_counter reference_counter is_persistent].
  all: try lia; try done.
  - destruct Hu as [Hu|Hini]; [intros; lia|].
    intros _. pose proof (slot_no_owner _ _ _ Hi Hlive (or_introl Hini)). lia.
  - intros F. specialize (Hfree F). rewrite Hfree in Hlive. cbn in Hlive. destruct Hlive; [lia|done].
  - intros _ _. destruct (Z.eq_dec (d.(reference_counter) + k) 0); [right; auto|left; lia].
  - by rewrite <-E.
  - intros j q _ _ Hq. by apply role_ok_shared.
Qed.

Lemma add_lost_false g : add_lost g false = g.
Proof. by destruct g. Qed.

(** A thread that holds nothing moves without changing the word. *)
Lemma slot_idle n g ps i p p' v :
  slot_inv n g ps -> ps !! i = Some p -> in_range 64 v -> details v = details g.(counter) ->
  role_of p' = role_of p -> cas_ok p' -> slot_inv n (set_word g v) (<[i := p']> ps).
Proof.
  intros Hi Ei Hv E Hrole Hcas. pose proof Hi as [_ _ Hgh Hc Hown Huser Hfree Hal _].
  pose proof (slot_role _ _ _ _ _ Hi Ei) as [Hro _].
  assert (Er : refs p' = refs p) by (unfold refs; by rewrite Hrole).
  assert (Eo : own p' = own p) by (unfold own; by rewrite Hrole).
  assert (Eu : user p' = user p) by (unfold user; by rewrite Hrole).
  apply (slot_inv_update n g ps i p _ _ Hi Ei); cbn [counter leaked lost id_free set_word];
    rewrite ?E, ?Er, ?Eo, ?Eu, ?Hrole; try done; try lia.
  intros. apply Hal; [done|]. lia.
Qed.

(** The last reference to an entry that is not persistent is given back. *)
Lemma slot_removed n g ps i p ignore v :
  slot_inv n g ps -> ps !! i = Some p -> role_of p = RShared -> in_range 64 v ->
  let d := details g.(counter) in
  d.(reference_counter) = 1 -> d.(is_persistent) = false -> details v = set_counter d 0 ->
  slot_inv n (add_lost (set_word g v) ignore)
    (<[i := At (next (ODecrement ignore) true)]> ps).
Proof.
  intros Hi Ei Hp Hv d H1 Hper E. pose proof Hi as [_ _ Hgh Hc _ _ _ _ _].
  assert (Hlive : 0 < d.(reference_counter)) by lia.
  pose proof (slot_no_owner _ _ _ Hi (or_introl Hlive) (or_intror Hper)) as Hno.
  assert (Hr : refs p = 1) by (unfold refs; by rewrite Hp).
  assert (Hw : own p = 0) by (unfold own; by rewrite Hp).
  assert (Hu : user p = 0) by (unfold user; by rewrite Hp). fold d in Hc.
  pose proof (bit_range g.(id_free)). pose proof (total_nonneg own own_nonneg ps).
  assert (Hus : total user ps = 0).
  { pose proof (total_nonneg user user_nonneg ps). destruct (Z_lt_dec 0 (total user ps)) as [Hpos|]; [|lia].
    exfalso. apply (total_pos user user_nonneg) in Hpos as (j & q & Ej & Hq).
    pose proof (total_two refs refs_nonneg ps i j p q Ei Ej ltac:(intros ->; simplify_eq; lia)) as Ht.
    unfold user in Hq. unfold refs in Ht at 2. destruct (role_of q); lia. }
  assert (Hoth : forall j q, j <> i -> ps !! j = Some q -> own q = 0).
  { intros j q _ Ej. pose proof (total_lookup own own_nonneg ps j q Ej). pose proof (own_nonneg q). lia. }
  assert (Hfree : g.(id_free) = false) by (destruct (g.(id_free)); cbn [bit] in *; [lia|done]).
  destruct ignore; apply (slot_inv_update n g ps i p _ _ Hi Ei);
    cbn [counter leaked lost id_free set_word add_lost role_of next phase_role]; rewrite ?E, ?Hr, ?Hw, ?Hu, ?Hfree;
    cbn [set_counter reference_counter is_persistent refs own user role_of phase_role bit];
    try lia; try done;
    intros j q Hne Ej; apply role_ok_not_owner; by eapply Hoth.
Qed.

Lemma slot_linearize n g ps i p o r v :
  slot_inv n g ps -> ps !! i = Some p -> role_of p = op_role o -> in_range 64 v ->
  effect o (details g.(counter)) = (r, details v) ->
  slot_inv n (add_lost (set_word g v) (ignored o r)) (<[i := At (next o r)]> ps).
Proof.
  intros Hi Ei Hp Hv E. destruct (op_weights p o Hp) as (Hr & Hw & Hu).
  pose proof (slot_refs _ _ _ _ _ Hi Ei) as Hre. pose proof (details_count_range g.(counter)) as Hcr.
  destruct o as [b| | | | |ignore| |]; try (by eapply slot_linearize_exclusive);
    cbn [op_role] in Hr, Hw, Hu; cbn [effect] in E; set (d := details g.(counter)) in *.
  - cbn [ignored]. rewrite add_lost_false. destruct (negb d.(to_be_removed) && _) eqn:Ex;
      apply pair_equal_spec in E as [<- E]; cbn [next].
    + apply andb_prop in Ex as [_ Hl]. apply orb_prop in Hl. rewrite Z.ltb_lt in Hl.
      apply (slot_count n g ps i p Checking 1); try done; fold d; try lia; cbn; rewrite ?Hr, ?Hu; lia || auto.
    + by apply (slot_idle n g ps i p).
  - cbn [ignored]. rewrite add_lost_false. destruct (_ && d.(is_initialized)) eqn:Ex;
      apply pair_equal_spec in E as [<- E]; cbn [next].
    + apply andb_prop in Ex as [[_ Hl]%andb_prop Hini]. apply orb_prop in Hl. rewrite Z.ltb_lt in Hl.
      apply (slot_count n g ps i p Found 1); try done; fold d; try lia; cbn; rewrite ?Hr, ?Hu; lia || auto.
    + by apply (slot_idle n g ps i p).
  - apply pair_equal_spec in E as [Eb E]. destruct r.
    + apply andb_prop in Eb as [Ec Hper]. apply Z.eqb_eq in Ec. apply negb_true_iff in Hper.
      replace (ignored (ODecrement ignore) true) with ignore by (by destruct ignore).
      apply (slot_removed n g ps i p); try done; fold d; [lia|]. rewrite <-E. f_equal. lia.
    + replace (ignored (ODecrement ignore) false) with false by (by destruct ignore).
      replace (next (ODecrement ignore) false) with Idle by (by destruct ignore).
      rewrite add_lost_false.
      assert (Hz : d.(reference_counter) + -1 = 0 -> d.(is_persistent) = true).
      { intros Hz. destruct d.(is_persistent); [done|]. replace (_ - 1) with 0 in Eb by lia. done. }
      apply (slot_count n g ps i p Idle (-1)); try done; fold d; try lia; cbn; rewrite ?Hr, ?Hu; lia || auto.
Qed.

Lemma set_word_same g : set_word g g.(counter) = g.
Proof. by destruct g. Qed.

Lemma slot_performs n g ps i p o :
  slot_inv n g ps -> ps !! i = Some p -> role_of p = op_role o ->
  Z.of_nat n + g.(leaked) + 1 < 2 ^ 61 ->
  exists a, body o g.(counter) = Ret a /\ performs o (details g.(counter)) g.(counter) a.
Proof.
  intros Hi Ei Hp Hb. apply body_performs; [apply Hi| |].
  - rewrite (si_count _ _ _ Hi). pose proof (total_bound refs 1 ps refs_le_one).
    unfold zlength in *. rewrite (si_length _ _ _ Hi) in *. lia.
  - destruct o; try done. pose proof (slot_refs _ _ _ _ _ Hi Ei) as Hr.
    unfold refs in Hr. rewrite Hp in Hr. cbn in Hr. lia.
Qed.

(** What a loop makes of a value that is the current one. *)
Lemma slot_consider n g ps i p o :
  slot_inv n g ps -> ps !! i = Some p -> role_of p = op_role o ->
  Z.of_nat n + g.(leaked) + 1 < 2 ^ 61 ->
  exists p', consider o g.(counter) = Ret p' /\ slot_inv n g (<[i := p']> ps).
Proof.
  intros Hi Ei Hp Hb. destruct (slot_performs n g ps i p o Hi Ei Hp Hb) as (a & Ea & Hperf).
  unfold consider. rewrite Ea. cbn [outcome_bind]. destruct a as [r|new r].
  - destruct Hperf as [Heff Hig]. eexists. split; [done|].
    pose proof (slot_linearize n g ps i p o r g.(counter) Hi Ei Hp (si_range _ _ _ Hi) Heff) as Hn.
    by rewrite Hig, add_lost_false, set_word_same in Hn.
  - eexists. split; [done|]. rewrite <-(set_word_same g) at 1.
    by apply (slot_idle n g ps i p); [done|done|apply Hi|done|..].
Qed.

Lemma slot_step n g ps i p o :
  slot_inv n g ps -> ps !! i = Some p -> p = Load o \/ (exists v new r, p = Cas o v new r) ->
  Z.of_nat n + g.(leaked) + 1 < 2 ^ 61 ->
  exists g' p', counter_step g p = Ret (g', p') /\ slot_inv n g' (<[i := p']> ps) /\ g'.(leaked) = g.(leaked).
Proof.
  intros Hi Ei Ho Hb.
  assert (Hp : role_of p = op_role o) by (by destruct Ho as [->|(? & ? & ? & ->)]).
  destruct (slot_consider n g ps i p o Hi Ei Hp Hb) as (p' & Ec & Hi').
  destruct Ho as [->|(v & new & r & ->)]; cbn [counter_step]; unfold compare_exchange.
  - rewrite Ec. eauto.
  - destruct (g.(counter) =? v) eqn:Ev; [|rewrite Ec; eauto]. apply Z.eqb_eq in Ev. subst v.
    eexists _, _. split; [done|]. split; [|done].
    destruct (slot_role _ _ _ _ _ Hi Ei) as [_ Hcas]. cbn in Hcas.
    destruct (slot_performs n g ps i _ o Hi Ei Hp Hb) as (a & Ea & Hperf).
    rewrite Hcas in Ea. injection Ea as <-. destruct Hperf as [Hrange Heff].
    by apply (slot_linearize n g ps i (Cas o g.(counter) new r) o r new).
Qed.

(** The phase in which an operation starts has the operation's role. *)
Lemma starts_role t ph o : starts t ph = Some o -> phase_role ph = op_role o \/
  (exists b, o = ODecrement b) /\ phase_role ph = RUser.
Proof. destruct t, ph; cbn; intros E; try done; injection E as <-; cbn; eauto. Qed.

(** A user of the entry becomes one of several threads that may release it. *)
Lemma slot_demote n g ps i p p' :
  slot_inv n g ps -> ps !! i = Some p -> role_of p = RUser -> role_of p' = RShared -> cas_ok p' ->
  slot_inv n g (<[i := p']> ps).
Proof.
  intros Hi Ei Hp Hp' Hcas. pose proof Hi as [_ ? Hgh Hc Hown Huser Hfree Hal _].
  pose proof (total_lookup user user_nonneg ps i p Ei) as Ht.
  assert (Er : refs p = 1 /\ refs p' = 1) by (unfold refs; by rewrite Hp, Hp').
  assert (Eo : own p = 0 /\ own p' = 0) by (unfold own; by rewrite Hp, Hp').
  assert (Eu : user p = 1 /\ user p' = 0) by (unfold user; by rewrite Hp, Hp').
  destruct Er, Eo, Eu.
  apply (slot_inv_update n g ps i p _ _ Hi Ei); try done; try lia; rewrite ?Hp'; try done.
  intros Hl Ho. apply Hal; [done|lia].
Qed.

Ltac slot_facts Hi Ei :=
  pose proof (slot_role _ _ _ _ _ Hi Ei) as [?Hrole _]; pose proof Hi as [_ ?Hrange ?Hgh ?Hc ?Hown ?Huser ?Hfree ?Hal _];
  pose proof (total_nonneg own own_nonneg) as ?Hown0.

Lemma slot_acquire n g ps i :
  slot_inv n g ps -> ps !! i = Some (At Idle) -> g.(id_free) = true ->
  slot_inv n (set_id_free g false) (<[i := At Acquired]> ps).
Proof.
  intros Hi Ei F. slot_facts Hi Ei. specialize (Hfree F). rewrite F in *. cbn [bit] in *.
  pose proof (Hown0 ps).
  apply (slot_inv_update n g ps i _ _ _ Hi Ei); cbn [counter leaked lost id_free set_id_free role_of refs own user
    phase_role role_ok bit]; try done; try lia.
Qed.

Lemma slot_fail n g ps i ph :
  slot_inv n g ps -> ps !! i = Some (At ph) -> ph = Created \/ ph = Checking ->
  slot_inv n (add_leaked g) (<[i := At Idle]> ps).
Proof.
  intros Hi Ei Hph. slot_facts Hi Ei. pose proof (total_lookup user user_nonneg ps i _ Ei) as Hu.
  assert (Hw : refs (At ph) = 1 /\ own (At ph) = 0) by (by destruct Hph as [-> | ->]). destruct Hw as [Hw1 Hw2].
  apply (slot_inv_update n g ps i _ _ _ Hi Ei); cbn [counter leaked lost id_free add_leaked]; rewrite ?Hw1, ?Hw2;
    cbn [refs own user role_of phase_role role_ok]; try done; try lia.
  - intros. destruct (phase_role ph); specialize (Huser ltac:(lia)); lia.
  - intros Hl Ho. apply Hal; [done|]. lia.
Qed.

Lemma slot_clear n g ps i :
  slot_inv n g ps -> ps !! i = Some (At Dead) ->
  slot_inv n (set_word g (reset g.(counter))) (<[i := At Cleared]> ps).
Proof.
  intros Hi Ei. slot_facts Hi Ei. cbn in Hrole. destruct Hrole as [Hz Hper].
  pose proof (total_lookup own own_nonneg ps i _ Ei) as Hw. cbn in Hw. pose proof (bit_range g.(id_free)).
  unfold reset.
  apply (slot_inv_update n g ps i _ _ _ Hi Ei); cbn [counter leaked lost id_free set_word]; rewrite ?details_zero;
    cbn [refs own user role_of phase_role role_ok zero reference_counter is_persistent]; try done; try lia.
  intros j q Hne Ej. apply role_ok_not_owner. by eapply (slot_owner_excludes n g ps i j).
Qed.

Lemma slot_release n g ps i :
  slot_inv n g ps -> ps !! i = Some (At Cleared) -> slot_inv n (set_id_free g true) (<[i := At Idle]> ps).
Proof.
  intros Hi Ei. slot_facts Hi Ei. cbn in Hrole.
  pose proof (total_lookup own own_nonneg ps i _ Ei) as Hw. cbn in Hw. pose proof (bit_range g.(id_free)).
  apply (slot_inv_update n g ps i _ _ _ Hi Ei); cbn [counter leaked lost id_free set_id_free];
    cbn [refs own user role_of phase_role role_ok bit]; try done; try lia.
  all: intros; destruct (g.(id_free)); cbn [bit] in *; lia.
Qed.

Lemma slot_act_inv n t g ps i p g' p' :
  slot_inv n g ps -> ps !! i = Some p -> slot_act t g p = Some (g', p') ->
  Z.of_nat n + g.(leaked) + 1 < 2 ^ 61 -> slot_inv n g' (<[i := p']> ps).
Proof.
  intros Hi Ei E Hb.
  assert (Hsame : forall q, role_of q = role_of p -> cas_ok q -> slot_inv n g (<[i := q]> ps)).
  { intros q Hq Hcas. rewrite <-(set_word_same g) at 1. by apply (slot_idle n g ps i p); [done|done|apply Hi|..]. }
  assert (Hstart : forall ph, p = At ph ->
    match starts t ph with Some o => Some (g, Load o) | None => None end = Some (g', p') ->
    slot_inv n g' (<[i := p']> ps)).
  { intros ph -> Es. destruct (starts t ph) as [o|] eqn:Eo; [|done]. injection Es as <- <-.
    destruct (starts_role _ _ _ Eo) as [Hr|[[b ->] Hr]]; [by apply Hsame|].
    by apply (slot_demote n g ps i (At ph)). }
  assert (Hrun : match p with At _ => False | _ => True end ->
    match counter_step g p with Ret (g, p) => Some (g, p) | Panic => None end = Some (g', p') ->
    slot_inv n g' (<[i := p']> ps)).
  { intros Hp Es. destruct p as [|o|o v new r]; [done|..];
      destruct (slot_step n g ps i _ o Hi Ei) as (g1 & p1 & Ecs & Hi' & _); eauto; rewrite Ecs in Es; by injection Es as <- <-. }
  destruct p as [ph|o|o v new r], t; try (apply Hrun; [exact I|exact E]); try discriminate E; cbn in E;
    try (apply (Hstart ph eq_refl E)); destruct ph; try discriminate E.
  - destruct (g.(id_free)) eqn:F; [|done]. injection E as <- <-. by apply slot_acquire.
  - injection E as <- <-. eapply slot_fail; eauto.
  - injection E as <- <-. eapply slot_fail; eauto.
  - injection E as <- <-. by apply Hsame.
  - injection E as <- <-. by apply slot_clear.
  - injection E as <- <-. by apply slot_release.
Qed.

Lemma slot_act_leaked t g p g' p' : slot_act t g p = Some (g', p') -> g.(leaked) <= g'.(leaked).
Proof.
  unfold slot_act, counter_step, compare_exchange. intros E.
  destruct t, p as [ph|o|o v new r]; try discriminate E; try (destruct ph; try discriminate E);
    repeat case_match; try discriminate E; inv_outcome; simplify_eq; cbn; lia.
Qed.

Lemma slot_reachable n s :
  rtc (act_step (iact slot_act)) (slot_start n) s -> Z.of_nat n + s.1.(leaked) + 1 < 2 ^ 61 ->
  slot_inv n s.1 s.2.
Proof.
  intros Hr Hb. eapply (rtc_bounded_invariant (act_step (iact slot_act)) (fun s => s.1.(leaked))
    (2 ^ 61 - 2 - Z.of_nat n) (fun s => slot_inv n s.1 s.2)); [| |done| |lia].
  - intros x y [a s' E]. apply iact_inv in E as (p & p' & _ & E & _). by apply slot_act_leaked in E.
  - intros [g ps] ? [a [g' ps'] E] Hle Hi. apply iact_inv in E as (p & p' & Ep & E & Eps). cbn [fst snd] in *.
    subst ps'. pose proof (slot_act_leaked _ _ _ _ _ E). eapply slot_act_inv; [done..|lia].
  - cbn [fst snd slot_start]. split; cbn [counter leaked lost id_free]; rewrite ?total_replicate by done; try done.
    + apply length_replicate.
    + apply Forall_replicate. done.
Qed.

(** An entry without references that is not persistent and that nobody owns: it can
    neither be found nor be removed. *)
Definition abandoned (s : slot * list pc) : Prop :=
  let d := details s.1.(counter) in
  s.1.(id_free) = false /\ d.(reference_counter) = 0 /\ d.(is_persistent) = false /\
  Forall (fun p => p = At Idle \/ p = Load OCheck \/ p = Load OFind) s.2.

Lemma abandoned_step s s' : act_step (iact slot_act) s s' -> abandoned s -> abandoned s'.
Proof.
  intros [a t E] (Hf & Hc & Hp & Hps). apply iact_inv in E as (p & p' & Ep & E & Eps).
  pose proof (proj1 (Forall_lookup _ _) Hps _ _ Ep) as Hcase.
  assert (Hg : t.1 = s.1 /\ (p' = At Idle \/ p' = Load OCheck \/ p' = Load OFind)).
  { destruct Hcase as [->|[->| ->]], a as [i []]; cbn in E; try discriminate E.
    - by rewrite Hf in E.
    - injection E as <- <-. auto.
    - injection E as <- <-. auto.
    - unfold consider in E. cbn [body] in E. unfold increment_when_exist_body in E.
      rewrite Hc, Hp, andb_false_r in E. cbn in E. injection E as <- <-. auto.
    - unfold consider in E. cbn [body] in E. unfold increment_when_initialized_body in E.
      rewrite Hc, Hp, andb_false_r in E. cbn in E. injection E as <- <-. auto. }
  destruct Hg as [Hg Hp']. unfold abandoned. rewrite Hg, Eps. split_and!; try done.
  by apply Forall_insert.
Qed.

End slot_proofs.

(** ** Properties *)

(** Packing the counter and the three flags into one word loses nothing: unpacking a
    packed value gives back the flags and the counter modulo [2^61], so that a counter that
    overflows its 61 bits never changes a flag; and every 64-bit word is the packed form
    of its details. *)
Theorem reference_counter_roundtrip d v :
  in_range 64 (compact_value d) /\
  details (compact_value d) = set_counter d (d.(reference_counter) mod 2 ^ 61) /\
  (in_range 64 v -> compact_value (details v) = v).
Proof. split_and!; [apply compact_value_range|apply details_compact|apply compact_details]. Qed.

(** C11: any number of threads create, look up, open, remove and release the file of one
    slot of the directory, in any interleaving of their loads and compare-and-swaps.  As
    long as the references fit into 61 bits: the counter is the number of references that
    are held or were leaked; at most one thread owns the id of the slot, to create or to
    remove its entry; while a thread holds a [File] the id is neither free nor owned, so
    that the entry is not overwritten; and no step panics. *)
Theorem directory_slot_exclusive `{Profile} n s :
  rtc (act_step (iact slot_act)) (slot_start n) s -> Z.of_nat n + s.1.(leaked) + 1 < 2 ^ 61 ->
  (details s.1.(counter)).(reference_counter) = total refs s.2 + s.1.(leaked) /\
  (forall i j p q, s.2 !! i = Some p -> s.2 !! j = Some q -> own p = 1 -> own q = 1 -> i = j) /\
  (forall i j q, s.2 !! i = Some (At Holding) -> s.2 !! j = Some q ->
     s.1.(id_free) = false /\ own q = 0) /\
  (forall i p, s.2 !! i = Some p -> match p with At _ => False | _ => True end ->
     is_Some (iact slot_act (i, AStep) s)).
Proof.
  intros Hr Hb. pose proof (slot_reachable n s Hr Hb) as Hi. split_and!.
  - apply Hi.
  - intros i j p q Ei Ej Hp Hq. destruct (decide (i = j)) as [|Hne]; [done|].
    pose proof (slot_owner_excludes _ _ _ _ _ _ _ Hi Ei Ej Hne Hp). lia.
  - intros i j q Ei Ej. split; [|by eapply (slot_user_excludes n s.1 s.2 i j (At Holding))].
    pose proof (total_lookup user user_nonneg s.2 i _ Ei) as Hu. cbn in Hu.
    pose proof (si_user _ _ _ Hi ltac:(lia)). pose proof (total_nonneg own own_nonneg s.2).
    destruct (s.1.(id_free)); cbn [bit] in *; [lia|done].
  - intros i p Ei Hp. unfold iact. cbn [fst snd]. rewrite Ei. destruct p as [|o|o v new r]; [done|..]; cbn [slot_act];
      destruct (slot_step n s.1 s.2 i _ o Hi Ei) as (g' & p' & -> & _); eauto.
Qed.

(** Two threads create and open the file; the creator drops it while the other one reads. *)
Definition shared_schedule : list (nat * slot_action) :=
  [(0%nat, AAcquire); (0%nat, ACreate false); (0%nat, AStep); (0%nat, ACount); (0%nat, AStep); (0%nat, AStep);
   (1%nat, AFind); (1%nat, AStep); (0%nat, AFinalize); (0%nat, AStep); (0%nat, AStep);
   (1%nat, AFind); (1%nat, AStep); (0%nat, ADrop); (0%nat, AStep); (1%nat, AStep); (1%nat, AOpen);
   (0%nat, AStep)].

Lemma directory_slot_exclusive_witness :
  exists s : slot * list pc, rtc (act_step (iact (@slot_act dev))) (slot_start 2) s /\
    s.2 !! 1%nat = Some (At Holding) /\ s.1.(id_free) = false.
Proof.
  destruct (run_schedule (iact (@slot_act dev)) shared_schedule (slot_start 2)) as [s|] eqn:E;
    [|vm_compute in E; discriminate E].
  apply run_schedule_reachable in E as Hr. exists s. split; [exact Hr|].
  assert (Ep : s.2 !! 1%nat = Some (At Holding)) by (vm_compute in E; injection E as <-; reflexivity).
  assert (Hb : Z.of_nat 2 + s.1.(leaked) + 1 < 2 ^ 61) by (vm_compute in E; injection E as <-; reflexivity).
  split; [exact Ep|].
  exact (proj1 (proj1 (proj2 (proj2 (@directory_slot_exclusive dev 2 s Hr Hb))) 1%nat 1%nat _ Ep Ep)).
Defined.

(** The slot is reclaimed: when no thread works on it any more, no operation
    has given up without releasing its reference and no request to remove the entry was
    ignored, then the id of the slot is free again unless the file is persistent or still
    referenced. *)
Theorem directory_slot_reclaimed `{Profile} n s :
  rtc (act_step (iact slot_act)) (slot_start n) s -> s.1.(leaked) = 0 -> Z.of_nat n + 1 < 2 ^ 61 ->
  s.1.(lost) = 0 -> Forall (fun p => p = At Idle) s.2 ->
  (details s.1.(counter)).(is_persistent) = false -> s.1.(id_free) = true.
Proof.
  intros Hr Hl Hb Hlost Hidle Hp. pose proof (slot_reachable n s Hr ltac:(lia)) as Hi.
  assert (Hz : forall w, w (At Idle) = 0 -> total w s.2 = 0).
  { intros w Hw. clear -Hidle Hw. induction Hidle as [|p ps -> _ IH]; cbn; lia. }
  destruct (s.1.(id_free)) eqn:F; [done|]. exfalso.
  destruct (si_alive _ _ _ Hi Hlost) as [Hc|Hc]; [rewrite Hz, F; done| |congruence].
  rewrite (si_count _ _ _ Hi), Hz, Hl in Hc by done. lia.
Qed.

Lemma directory_slot_reclaimed_witness :
  exists s : slot * list pc, rtc (act_step (iact (@slot_act dev))) (slot_start 1) s /\
    s.1.(counter) = 0 /\ s.1.(id_free) = true.
Proof.
  destruct (run_schedule (iact (@slot_act dev))
    [(0%nat, AAcquire); (0%nat, ACreate true); (0%nat, AStep); (0%nat, AStep); (0%nat, ACount); (0%nat, AStep);
     (0%nat, AStep); (0%nat, AFinalize); (0%nat, AStep); (0%nat, AStep); (0%nat, ADrop); (0%nat, AStep); (0%nat, AStep);
     (0%nat, AFind); (0%nat, AStep); (0%nat, AStep); (0%nat, ARemove); (0%nat, AStep); (0%nat, AStep);
     (0%nat, AMark); (0%nat, AStep); (0%nat, AStep); (0%nat, ADrop); (0%nat, AStep); (0%nat, AStep);
     (0%nat, AClear); (0%nat, ARelease)] (slot_start 1)) as [s|] eqn:E;
    [|vm_compute in E; discriminate E].
  apply run_schedule_reachable in E as Hr. exists s. split; [exact Hr|].
  assert (Hx : s.1.(counter) = 0 /\ s.1.(leaked) = 0 /\ s.1.(lost) = 0 /\ s.2 = [At Idle])
    by (vm_compute in E; injection E as <-; split_and!; reflexivity).
  destruct Hx as (Hc & Hl & Hlo & Hps). split; [exact Hc|].
  apply (@directory_slot_reclaimed dev 1 s Hr Hl ltac:(lia) Hlo).
  - rewrite Hps. repeat constructor.
  - rewrite Hc. reflexivity.
Defined.

(** [find_entry] ignores that its own decrement may have been the last one: a thread
    looks at the name of an entry while the only holder drops its file, finds another
    name and lets go of the last reference.  The entry stays behind: in everything that
    happens afterwards its id is not free, so that the directory has lost the slot for
    good although nobody uses it and no operation has failed. *)
Theorem directory_find_loses_slot :
  exists s : slot * list pc, rtc (act_step (iact (@slot_act dev))) (slot_start 2) s /\
    s.2 = [At Idle; At Idle] /\ s.1.(leaked) = 0 /\
    (details s.1.(counter)).(is_persistent) = false /\
    forall s', rtc (act_step (iact (@slot_act dev))) s s' -> s'.1.(id_free) = false.
Proof.
  destruct (run_schedule (iact (@slot_act dev))
    [(0%nat, AAcquire); (0%nat, ACreate false); (0%nat, AStep); (0%nat, ACount); (0%nat, AStep); (0%nat, AStep);
     (0%nat, AFinalize); (0%nat, AStep); (0%nat, AStep); (1%nat, AFind); (1%nat, AStep); (1%nat, AStep);
     (0%nat, ADrop); (0%nat, AStep); (0%nat, AStep); (1%nat, AMismatch); (1%nat, AStep); (1%nat, AStep)]
    (slot_start 2)) as [s|] eqn:E; [|vm_compute in E; discriminate E].
  apply run_schedule_reachable in E as Hr. exists s. split; [done|].
  vm_compute in E. injection E as <-. split_and!; [done..|].
  intros s' Hs'. apply (rtc_invariant _ abandoned _ _ abandoned_step Hs').
  split_and!; try done. repeat constructor; by left.
Qed.

End ReferenceCounter.
