(* ===== verification/FileReferenceSet.v ===== *)
(** * The files of the shared memory directory

    [iceoryx2_cal::shared_memory_directory]: the set of file entries that all processes
    using a directory share.  An entry has a name, the place of its content in the data
    segment, a reference counter and a decision counter; the free entries are managed
    by a unique index set.  The operations below run without interruption; the life of a
    single slot under interleaving is in [ReferenceCounter], the interleaving of two
    creators of the same file at the end of this file.  Names are the bytes of the
    [FileName], the content of the files is not represented. *)

From S2P Require Import Prelude UniqueIndexSet ReferenceCounter.

Module FileReferenceSet.
Module UIS := UniqueIndexSet.
Module RC := ReferenceCounter.ReferenceCounter.

(* src/iceoryx2_cal/src/shared_memory_directory/mod.rs:28-28 MAX_NUMBER_OF_ENTRIES *)
Definition MAX_NUMBER_OF_ENTRIES : Z := 512.

(* src/iceoryx2_cal/src/shared_memory_directory/mod.rs:33-37 SharedMemoryDirectoryCreateFileError *)
Inductive SharedMemoryDirectoryCreateFileError :=
| FileLimitExceeded | BeingCreated | DoesExist.

(* src/iceoryx2_cal/src/shared_memory_directory/file_reference_set.rs:29-33 Entry *)
Record Entry := { name : list Z; offset : Z; len : Z }.

(** The bytes of [empty]. *)
(* src/iceoryx2_cal/src/shared_memory_directory/file_reference_set.rs:36-42 default *)
Definition default_entry : Entry := {| name := [101; 109; 112; 116; 121]; offset := 0; len := 0 |}.

(* src/iceoryx2_cal/src/shared_memory_directory/file_reference_set.rs:47-53 FileReferenceSet *)
Record FileReferenceSet := {
  entries : list Entry;
  counter : list Z;
  decision_counter : list Z;
  ids : UIS.UniqueIndexSet;
  global_decision_counter : Z;
}.

Definition set_entries (s : FileReferenceSet) x : FileReferenceSet :=
  {| entries := x; counter := s.(counter); decision_counter := s.(decision_counter);
     ids := s.(ids); global_decision_counter := s.(global_decision_counter) |}.
Definition set_counter (s : FileReferenceSet) x : FileReferenceSet :=
  {| entries := s.(entries); counter := x; decision_counter := s.(decision_counter);
     ids := s.(ids); global_decision_counter := s.(global_decision_counter) |}.
Definition set_decision_counter (s : FileReferenceSet) x : FileReferenceSet :=
  {| entries := s.(entries); counter := s.(counter); decision_counter := x;
     ids := s.(ids); global_decision_counter := s.(global_decision_counter) |}.
Definition set_ids (s : FileReferenceSet) x : FileReferenceSet :=
  {| entries := s.(entries); counter := s.(counter); decision_counter := s.(decision_counter);
     ids := x; global_decision_counter := s.(global_decision_counter) |}.
Definition set_global_decision_counter (s : FileReferenceSet) x : FileReferenceSet :=
  {| entries := s.(entries); counter := s.(counter); decision_counter := s.(decision_counter);
     ids := s.(ids); global_decision_counter := x |}.

Section operations.
Context `{Profile}.

(** [header_size] is the size of the index set's header, behind which its cells lie. *)
(* src/iceoryx2_cal/src/shared_memory_directory/file_reference_set.rs:58-75 default *)
Definition default (header_size : Z) : outcome FileReferenceSet :=
  let! ids := UIS.fixed_size_default header_size MAX_NUMBER_OF_ENTRIES in
  let n := Z.to_nat MAX_NUMBER_OF_ENTRIES in
  Ret {| entries := replicate n default_entry; counter := replicate n 0;
         decision_counter := replicate n RC.UNDECIDED; ids := ids;
         global_decision_counter := 0 |}.

(** An operation on the reference counter of an entry. *)
Definition on_counter {R} (s : FileReferenceSet) (id : Z) (f : Z -> outcome (R * Z))
    : outcome (R * FileReferenceSet) :=
  let! word := index s.(counter) id in
  let! '(r, word) := f word in
  let! l := update s.(counter) id word in
  Ret (r, set_counter s l).

Definition unit_result (f : Z -> outcome Z) (word : Z) : outcome (unit * Z) :=
  let! word := f word in Ret (tt, word).

(* src/iceoryx2_cal/src/shared_memory_directory/file_reference_set.rs:237-244 decrement_ref_counter *)
Definition decrement_ref_counter (s : FileReferenceSet) (id : Z) : outcome FileReferenceSet :=
  let! '(can_be_removed, s) := on_counter s id RC.decrement_ref_counter in
  if can_be_removed : bool then
    let! '(_, s) := on_counter s id (unit_result (fun w => Ret (RC.reset w))) in
    let! l := update s.(decision_counter) id RC.UNDECIDED in
    let s := set_decision_counter s l in
    let! ids := UIS.release_raw_index s.(ids) (cast 32 id) in
    Ret (set_ids s ids)
  else Ret s.

(** The search for duplicates in [insert]. *)
(* src/iceoryx2_cal/src/shared_memory_directory/file_reference_set.rs:111-134 insert *)
Fixpoint check_duplicates (s : FileReferenceSet) (file : list Z) (id current_decision_count : Z)
    (range : list Z) : outcome (Result Z SharedMemoryDirectoryCreateFileError * FileReferenceSet) :=
  match range with
  | [] => Ret (Ok id, s)
  | i :: range =>
      if i =? id then check_duplicates s file id current_decision_count range
      else
        let! '(b, s) := on_counter s i RC.increment_ref_counter_when_exist in
        if b : bool then
          let! entry := index s.(entries) i in
          let! d := index s.(decision_counter) i in
          let '(wins, d) :=
            if bool_decide (entry.(name) = file) then RC.does_value_win d current_decision_count
            else (true, d) in
          let! l := update s.(decision_counter) i d in
          let s := set_decision_counter s l in
          if negb wins then
            let! word := index s.(counter) i in
            if (RC.details word).(RC.is_initialized) then Ret (Err DoesExist, s)
            else Ret (Err BeingCreated, s)
          else
            let! s := decrement_ref_counter s i in
            check_duplicates s file id current_decision_count range
        else check_duplicates s file id current_decision_count range
  end.

(* src/iceoryx2_cal/src/shared_memory_directory/file_reference_set.rs:78-135 insert *)
Definition insert (s : FileReferenceSet) (file : list Z) (offset len : Z) (is_persistent : bool)
    : outcome (Result Z SharedMemoryDirectoryCreateFileError * FileReferenceSet) :=
  let! '(r, ids) := UIS.acquire_raw_index s.(ids) in
  let s := set_ids s ids in
  match r with
  | None => Ret (Err FileLimitExceeded, s)
  | Some id =>
      let! l := update s.(entries) id {| name := file; offset := offset; len := len |} in
      let s := set_entries s l in
      let! '(_, s) := on_counter s id (unit_result (fun w => RC.set_persistency_bit w is_persistent)) in
      let! '(_, s) := on_counter s id RC.increment_ref_counter in
      let current_decision_count := s.(global_decision_counter) in
      let s := set_global_decision_counter s (wrapping_add 64 s.(global_decision_counter) 1) in
      let! d := index s.(decision_counter) id in
      let '(was_undecided, d) := RC.decision_set d current_decision_count in
      let! l := update s.(decision_counter) id d in
      let s := set_decision_counter s l in
      if negb was_undecided then Ret (Err DoesExist, s)
      else check_duplicates s file id current_decision_count (seqZ 0 MAX_NUMBER_OF_ENTRIES)
  end.

(* src/iceoryx2_cal/src/shared_memory_directory/file_reference_set.rs:223-235 find_entry *)
Fixpoint find_entry_in (s : FileReferenceSet) (file : list Z) (range : list Z)
    : outcome (option Z * FileReferenceSet) :=
  match range with
  | [] => Ret (None, s)
  | id :: range =>
      let! '(b, s) := on_counter s id RC.increment_ref_counter_when_initialized in
      if b : bool then
        let! entry := index s.(entries) id in
        if bool_decide (entry.(name) = file) then Ret (Some id, s)
        else
          let! '(_, s) := on_counter s id RC.decrement_ref_counter in
          find_entry_in s file range
      else find_entry_in s file range
  end.

(* src/iceoryx2_cal/src/shared_memory_directory/file_reference_set.rs:223-235 find_entry *)
Definition find_entry (s : FileReferenceSet) (file : list Z) : outcome (option Z * FileReferenceSet) :=
  find_entry_in s file (seqZ 0 s.(ids).(UIS.capacity)).

(* src/iceoryx2_cal/src/shared_memory_directory/file_reference_set.rs:138-147 to_be_removed *)
Definition to_be_removed (s : FileReferenceSet) (file : list Z) : outcome (bool * FileReferenceSet) :=
  let! '(r, s) := find_entry s file in
  match r with
  | Some id =>
      let! '(_, s) := on_counter s id (unit_result (fun w => RC.set_persistency_bit w false)) in
      let! '(_, s) := on_counter s id (unit_result RC.mark_to_be_removed) in
      let! s := decrement_ref_counter s id in
      Ret (true, s)
  | None => Ret (false, s)
  end.

(* src/iceoryx2_cal/src/shared_memory_directory/file_reference_set.rs:150-152 finalize_initialization *)
Definition finalize_initialization (s : FileReferenceSet) (id : Z) : outcome FileReferenceSet :=
  let! '(_, s) := on_counter s id (unit_result (fun w => RC.set_initialized_bit w true)) in Ret s.

(* src/iceoryx2_cal/src/shared_memory_directory/file_reference_set.rs:154-161 does_exist *)
Definition does_exist (s : FileReferenceSet) (file : list Z) : outcome (bool * FileReferenceSet) :=
  let! '(r, s) := find_entry s file in
  match r with
  | Some id => let! s := decrement_ref_counter s id in Ret (true, s)
  | None => Ret (false, s)
  end.

(** The [File] is represented by the id of its entry. *)
(* src/iceoryx2_cal/src/shared_memory_directory/file_reference_set.rs:163-169 borrow *)
Definition borrow (s : FileReferenceSet) (file : list Z) : outcome (option Z * FileReferenceSet) :=
  find_entry s file.

(* src/iceoryx2_cal/src/shared_memory_directory/file_reference_set.rs:172-174 release *)
Definition release (s : FileReferenceSet) (id : Z) : outcome FileReferenceSet :=
  decrement_ref_counter s id.

(* src/iceoryx2_cal/src/shared_memory_directory/file_reference_set.rs:177-179 is_persistent *)
Definition is_persistent (s : FileReferenceSet) (id : Z) : outcome bool :=
  let! word := index s.(counter) id in Ret (RC.details word).(RC.is_persistent).

(* src/iceoryx2_cal/src/shared_memory_directory/file_reference_set.rs:181-194 list *)
Fixpoint list_in (s : FileReferenceSet) (range : list Z) : outcome (list Z * FileReferenceSet) :=
  match range with
  | [] => Ret ([], s)
  | id :: range =>
      let! '(b, s) := on_counter s id RC.increment_ref_counter_when_initialized in
      let! '(l, s) := list_in s range in
      Ret (if b : bool then id :: l else l, s)
  end.

(* src/iceoryx2_cal/src/shared_memory_directory/file_reference_set.rs:181-194 list *)
Definition list (s : FileReferenceSet) : outcome (list Z * FileReferenceSet) :=
  list_in s (seqZ 0 s.(ids).(UIS.capacity)).

(* src/iceoryx2_cal/src/shared_memory_directory/file_reference_set.rs:196-198 get_name *)
Definition get_name (s : FileReferenceSet) (id : Z) : outcome (Datatypes.list Z) :=
  let! e := index s.(entries) id in Ret e.(name).

(** The place of the content: its address and its length. *)
(* src/iceoryx2_cal/src/shared_memory_directory/file_reference_set.rs:200-208 get_payload *)
Definition get_payload (s : FileReferenceSet) (id base_address : Z) : outcome (Z * Z) :=
  let! e := index s.(entries) id in
  let! address := e.(offset) +u64 base_address in
  Ret (address, e.(len)).

(** [new_file] allocates the memory, [create] registers the name, runs the initializer on
    the memory and makes the file visible. *)
(* src/iceoryx2_cal/src/shared_memory_directory/file.rs:94-118 create *)
Definition create (s : FileReferenceSet) (file : Datatypes.list Z) (offset size : Z) (is_persistent : bool)
    : outcome (Result Z SharedMemoryDirectoryCreateFileError * FileReferenceSet) :=
  let! '(r, s) := insert s file offset size is_persistent in
  match r with
  | Err e => Ret (Err e, s)
  | Ok id => let! s := finalize_initialization s id in Ret (Ok id, s)
  end.

(* src/iceoryx2_cal/src/shared_memory_directory/file.rs:58-62 drop *)
Definition drop_file (s : FileReferenceSet) (id : Z) : outcome FileReferenceSet := release s id.

(** ** Two creators at the same time

    [insert] as a thread: every operation on an entry, a counter, a decision counter, the
    index set or the global counter is one step. *)

Inductive insert_pc :=
| IAcquire
| IWrite (id : Z)
| IPersist (id : Z)
| ICount (id : Z)
| INumber (id : Z)
| IDecide (id current_decision_count : Z)
| ICheck (id current_decision_count i : Z)
| ICompare (id current_decision_count i : Z)
| IRelease (id current_decision_count i : Z)
| IDone (r : Result Z SharedMemoryDirectoryCreateFileError).

(* src/iceoryx2_cal/src/shared_memory_directory/file_reference_set.rs:78-135 insert *)
Definition insert_step (file : Datatypes.list Z) (s : FileReferenceSet) (p : insert_pc)
    : outcome (FileReferenceSet * insert_pc) :=
  match p with
  | IAcquire =>
      let! '(r, ids) := UIS.acquire_raw_index s.(ids) in
      Ret (set_ids s ids, match r with Some id => IWrite id | None => IDone (Err FileLimitExceeded) end)
  | IWrite id =>
      let! l := update s.(entries) id {| name := file; offset := 0; len := 0 |} in
      Ret (set_entries s l, IPersist id)
  | IPersist id =>
      let! '(_, s) := on_counter s id (unit_result (fun w => RC.set_persistency_bit w false)) in
      Ret (s, ICount id)
  | ICount id =>
      let! '(_, s) := on_counter s id RC.increment_ref_counter in Ret (s, INumber id)
  | INumber id =>
      Ret (set_global_decision_counter s (wrapping_add 64 s.(global_decision_counter) 1),
           IDecide id s.(global_decision_counter))
  | IDecide id c =>
      let! d := index s.(decision_counter) id in
      let '(was_undecided, d) := RC.decision_set d c in
      let! l := update s.(decision_counter) id d in
      Ret (set_decision_counter s l, if was_undecided then ICheck id c 0 else IDone (Err DoesExist))
  | ICheck id c i =>
      if i =? MAX_NUMBER_OF_ENTRIES then Ret (s, IDone (Ok id))
      else if i =? id then Ret (s, ICheck id c (i + 1))
      else
        let! '(b, s) := on_counter s i RC.increment_ref_counter_when_exist in
        Ret (s, if b : bool then ICompare id c i else ICheck id c (i + 1))
  | ICompare id c i =>
      let! entry := index s.(entries) i in
      if bool_decide (entry.(name) = file) then
        let! d := index s.(decision_counter) i in
        let '(wins, d) := RC.does_value_win d c in
        let! l := update s.(decision_counter) i d in
        let s := set_decision_counter s l in
        if wins : bool then Ret (s, IRelease id c i)
        else
          let! word := index s.(counter) i in
          Ret (s, IDone (Err (if (RC.details word).(RC.is_initialized) then DoesExist else BeingCreated)))
      else Ret (s, IRelease id c i)
  | IRelease id c i =>
      let! s := decrement_ref_counter s i in Ret (s, ICheck id c (i + 1))
  | IDone r => Ret (s, IDone r)
  end.

Definition insert_act (file : Datatypes.list Z) (_ : unit) (s : FileReferenceSet) (p : insert_pc)
    : option (FileReferenceSet * insert_pc) :=
  match insert_step file s p with Ret x => Some x | Panic => None end.

(** ** The invariant *)

(** The entry is in use: referenced or persistent. *)
Definition live (word : Z) : Prop :=
  0 < (RC.details word).(RC.reference_counter) \/ (RC.details word).(RC.is_persistent) = true.

(** The word can count two more references. *)
Definition word_ok (word : Z) : Prop :=
  in_range 64 word /\ (RC.details word).(RC.reference_counter) + 2 < 2 ^ 61.

Definition bound (i : Z) : Prop := 0 <= i < MAX_NUMBER_OF_ENTRIES.

Record wf (s : FileReferenceSet) (free : Datatypes.list Z) : Prop := {
  wf_ids : UIS.repr s.(ids) free;
  wf_capacity : s.(ids).(UIS.capacity) = MAX_NUMBER_OF_ENTRIES;
  wf_entries : zlength s.(entries) = MAX_NUMBER_OF_ENTRIES;
  wf_counter : zlength s.(counter) = MAX_NUMBER_OF_ENTRIES;
  wf_decision : zlength s.(decision_counter) = MAX_NUMBER_OF_ENTRIES;
  wf_global : 0 <= s.(global_decision_counter) < RC.UNDECIDED;
  wf_words : forall i w, bound i -> s.(counter) !! Z.to_nat i = Some w ->
    word_ok w /\ (if bool_decide (i ∈ free) then w = 0 else live w);
  wf_decided : forall i d, bound i -> s.(decision_counter) !! Z.to_nat i = Some d ->
    if bool_decide (i ∈ free) then d = RC.UNDECIDED else 0 <= d < s.(global_decision_counter);
}.

(** An entry that [insert] takes for a duplicate of [file]. *)
Definition occupied (s : FileReferenceSet) (file : Datatypes.list Z) (i : Z) : Prop :=
  exists e w, s.(entries) !! Z.to_nat i = Some e /\ e.(name) = file /\
    s.(counter) !! Z.to_nat i = Some w /\ live w /\ (RC.details w).(RC.to_be_removed) = false.

(** ** Operations on one counter *)

Lemma bound_lookup {A} (l : Datatypes.list A) i :
  zlength l = MAX_NUMBER_OF_ENTRIES -> bound i -> exists a, l !! Z.to_nat i = Some a /\ index l i = Ret a.
Proof. intros Hl Hi. apply index_in_bounds. unfold bound in Hi. lia. Qed.

Lemma bound_update {A} (l : Datatypes.list A) i a :
  zlength l = MAX_NUMBER_OF_ENTRIES -> bound i -> update l i a = Ret (<[Z.to_nat i := a]> l).
Proof. intros Hl Hi. apply update_ok. unfold bound in Hi. lia. Qed.

Lemma on_counter_ok {R} s id (f : Z -> outcome (R * Z)) w r w' :
  zlength s.(counter) = MAX_NUMBER_OF_ENTRIES -> bound id ->
  s.(counter) !! Z.to_nat id = Some w -> f w = Ret (r, w') ->
  on_counter s id f = Ret (r, set_counter s (<[Z.to_nat id := w']> s.(counter))).
Proof.
  intros Hl Hb Ew Ef. unfold on_counter. rewrite (index_lookup _ _ w) by (done || apply Hb). cbn.
  rewrite Ef. cbn. by rewrite bound_update.
Qed.

(** An operation that is not interrupted has its effect on the details of the word. *)
Lemma op_effect o w :
  in_range 64 w -> (RC.details w).(RC.reference_counter) + 1 < 2 ^ 61 -> match o with RC.ODecrement _ => 0 < (RC.details w).(RC.reference_counter) | _ => True end ->
  exists w', RC.uninterrupted (RC.body o) w = Ret ((RC.effect o (RC.details w)).1, w') /\
    in_range 64 w' /\ RC.details w' = (RC.effect o (RC.details w)).2.
Proof.
  intros Hr Hc Ho. destruct (RC.body_performs o w Hr Hc Ho) as (a & Ea & Hp).
  unfold RC.uninterrupted. rewrite Ea. cbn [outcome_bind]. destruct a as [r|new r].
  - destruct Hp as [-> _]. by exists w.
  - destruct Hp as [Hn ->]. by exists new.
Qed.

Lemma uninterrupted_increment w r w' :
  RC.uninterrupted (RC.body RC.OIncrement) w = Ret (r, w') -> RC.increment_ref_counter w = Ret (w, w').
Proof.
  unfold RC.uninterrupted, RC.increment_ref_counter, RC.uninterrupted. cbn [RC.body].
  unfold RC.increment_body. destruct (_ +u64 1); cbn; [|done]. intros [= _ <-]. done.
Qed.

(** Counting a reference to a live entry and giving it back restores the word. *)
Lemma visit_word w :
  word_ok w -> live w -> (RC.details w).(RC.to_be_removed) = false ->
  exists w1, RC.increment_ref_counter_when_exist w = Ret (true, w1) /\ in_range 64 w1 /\
    RC.details w1 = RC.set_counter (RC.details w) ((RC.details w).(RC.reference_counter) + 1) /\
    RC.decrement_ref_counter w1 = Ret (false, w).
Proof.
  intros Hw Hl Ht. pose proof (RC.details_count_range w) as Hc.
  destruct (op_effect RC.OCheck w (proj1 Hw) ltac:(destruct Hw; lia) I) as (w1 & E1 & Hr1 & Hd1).
  assert (Ex : (0 <? (RC.details w).(RC.reference_counter)) || (RC.details w).(RC.is_persistent) = true).
  { apply orb_true_iff. rewrite Z.ltb_lt. apply Hl. }
  unfold RC.effect in E1, Hd1. rewrite Ht, Ex in E1, Hd1. cbn [negb andb fst snd] in E1, Hd1.
  exists w1. split_and!; [done..|].
  destruct (RC.body_performs (RC.ODecrement false) w1) as (a & Ea & Hp).
  { done. }
  { rewrite Hd1. cbn. destruct Hw. lia. }
  { rewrite Hd1. cbn. lia. }
  unfold RC.decrement_ref_counter, RC.uninterrupted. cbn [RC.body] in Ea. rewrite Ea. cbn [outcome_bind].
  unfold RC.decrement_body in Ea. rewrite Hd1 in Ea. cbn in Ea. rewrite usub_ok in Ea by lia. cbn in Ea.
  apply ret_inj in Ea. subst a. destruct Hp as [Hn Heff]. apply pair_equal_spec in Heff as [_ Heff]. rewrite Hd1 in Heff.
  cbn in Heff. f_equal. f_equal.
  - replace (_ + 1 - 1) with ((RC.details w).(RC.reference_counter)) by lia.
    destruct (_ =? 0) eqn:Ez; [|done]. apply Z.eqb_eq in Ez. destruct Hl as [?|Hl]; [lia|]. by rewrite Hl.
  - apply RC.details_inj; [done|apply Hw|]. rewrite <-Heff. unfold RC.set_counter. cbn.
    replace (_ + 1 - 1) with ((RC.details w).(RC.reference_counter)) by lia. by destruct (RC.details w).
Qed.

(** ** The search for duplicates *)

Lemma set_counter_same s i w :
  s.(counter) !! Z.to_nat i = Some w -> set_counter s (<[Z.to_nat i := w]> s.(counter)) = s.
Proof. intros E. rewrite list_insert_id by done. by destruct s. Qed.

Lemma set_counter_back s i w w' :
  s.(counter) !! Z.to_nat i = Some w ->
  set_counter (set_counter s (<[Z.to_nat i := w']> s.(counter)))
    (<[Z.to_nat i := w]> (<[Z.to_nat i := w']> s.(counter))) = s.
Proof.
  intros E. rewrite list_insert_insert_eq, (list_insert_id s.(counter) _ w) by done. by destruct s.
Qed.

Lemma set_decision_same s i d :
  s.(decision_counter) !! Z.to_nat i = Some d ->
  set_decision_counter s (<[Z.to_nat i := d]> s.(decision_counter)) = s.
Proof. intros E. rewrite list_insert_id by done. by destruct s. Qed.

Lemma not_live_check w :
  in_range 64 w -> ~ live w \/ (RC.details w).(RC.to_be_removed) = true ->
  RC.increment_ref_counter_when_exist w = Ret (false, w) /\
  RC.increment_ref_counter_when_initialized w = Ret (false, w).
Proof.
  intros Hw Hx. unfold RC.increment_ref_counter_when_exist, RC.increment_ref_counter_when_initialized, RC.uninterrupted,
    RC.increment_when_exist_body, RC.increment_when_initialized_body.
  destruct (RC.details w).(RC.to_be_removed); [done|]. destruct Hx as [Hx|]; [|done]. cbn [negb andb].
  replace ((0 <? _) || _) with false; [by rewrite andb_false_r|].
  symmetry. apply orb_false_iff. rewrite Z.ltb_ge. unfold live in Hx.
  destruct (RC.details w).(RC.is_persistent); [exfalso; auto|]. split; [lia|done].
Qed.

Lemma wf_word s free i :
  wf s free -> bound i ->
  exists w, s.(counter) !! Z.to_nat i = Some w /\ index s.(counter) i = Ret w /\ word_ok w /\
    (if bool_decide (i ∈ free) then w = 0 else live w).
Proof.
  intros Hwf Hb. destruct (bound_lookup _ i (wf_counter _ _ Hwf) Hb) as (w & Ew & Ei).
  exists w. split_and!; [done..| |]; by apply (wf_words _ _ Hwf i).
Qed.

Lemma zero_not_live : ~ live 0.
Proof. intros [?|?]; [|done]. change (0 < 0) in H0. lia. Qed.

(** Looking at an entry that is no duplicate leaves no trace. *)
Lemma check_skip s free file id c i range :
  wf s free -> bound i -> i = id \/ ~ occupied s file i ->
  check_duplicates s file id c (i :: range) = check_duplicates s file id c range.
Proof.
  intros Hwf Hb Hx. cbn [check_duplicates]. destruct (i =? id) eqn:Eid; [done|]. apply Z.eqb_neq in Eid.
  destruct Hx as [?|Hx]; [done|]. destruct (wf_word s free i Hwf Hb) as (w & Ew & Ei & Hw & Hl).
  destruct (decide (live w /\ (RC.details w).(RC.to_be_removed) = false)) as [[Hlive Ht]|Hn].
  - destruct (visit_word w Hw Hlive Ht) as (w1 & E1 & Hr1 & Hd1 & E2).
    rewrite (on_counter_ok s i _ w true w1) by (done || apply Hwf). cbn [outcome_bind].
    destruct (bound_lookup _ i (wf_entries _ _ Hwf) Hb) as (e & Ee & Eie). cbn [entries set_counter]. rewrite Eie. cbn [outcome_bind].
    destruct (bound_lookup _ i (wf_decision _ _ Hwf) Hb) as (d & Ed & Eid'). cbn [decision_counter set_counter]. rewrite Eid'. cbn [outcome_bind].
    rewrite bool_decide_eq_false_2 by (intros E; apply Hx; by exists e, w).
    rewrite bound_update by (done || apply Hwf). cbn [outcome_bind negb].
    rewrite (set_decision_same (set_counter s _)) by done. unfold decrement_ref_counter.
    assert (Hlen : (Z.to_nat i < length s.(counter))%nat) by (by eapply lookup_lt_Some).
    rewrite (on_counter_ok _ i _ w1 false w); [|cbn; rewrite zlength_insert; apply Hwf|done| |done].
    + cbn [outcome_bind counter set_counter]. by rewrite set_counter_back.
    + cbn. by apply list_lookup_insert_eq.
  - assert (Hn' : ~ live w \/ (RC.details w).(RC.to_be_removed) = true).
    { destruct ((RC.details w).(RC.to_be_removed)); [by right|left]. intros ?. by apply Hn. }
    destruct (not_live_check w (proj1 Hw) Hn') as [E1 _].
    rewrite (on_counter_ok s i _ w false w) by (done || apply Hwf). cbn [outcome_bind].
    by rewrite set_counter_same.
Qed.

Lemma check_skip_all s free file id c pre range :
  wf s free -> Forall (fun i => bound i /\ (i = id \/ ~ occupied s file i)) pre ->
  check_duplicates s file id c (pre ++ range) = check_duplicates s file id c range.
Proof.
  intros Hwf Hpre. induction Hpre as [|i pre [Hb Hi] _ IH]; [done|].
  change ((i :: pre) ++ range) with (i :: (pre ++ range)). by rewrite (check_skip s free).
Qed.

Lemma range_bound : Forall bound (seqZ 0 MAX_NUMBER_OF_ENTRIES).
Proof. apply Forall_forall. intros i Hi%elem_of_seqZ. unfold bound, MAX_NUMBER_OF_ENTRIES in *. lia. Qed.

(** A duplicate that was created before wins. *)
Lemma check_loses s free file id c i range w :
  wf s free -> bound i -> i <> id -> occupied s file i -> s.(counter) !! Z.to_nat i = Some w ->
  s.(global_decision_counter) <= c + 1 ->
  (forall d, s.(decision_counter) !! Z.to_nat i = Some d -> d <= c) ->
  exists w1, check_duplicates s file id c (i :: range) =
    Ret (Err (if (RC.details w).(RC.is_initialized) then DoesExist else BeingCreated),
         set_counter s (<[Z.to_nat i := w1]> s.(counter))) /\
    in_range 64 w1 /\
    RC.details w1 = RC.set_counter (RC.details w) ((RC.details w).(RC.reference_counter) + 1).
Proof.
  intros Hwf Hb Hne (e & w' & Ee & Hname & Ew' & Hlive & Ht) Ew Hc Hdec.
  rewrite Ew in Ew'. injection Ew' as <-.
  destruct (wf_word s free i Hwf Hb) as (w' & Ew' & Ei & Hw & Hl). rewrite Ew in Ew'. injection Ew' as <-.
  destruct (visit_word w Hw Hlive Ht) as (w1 & E1 & Hr1 & Hd1 & _). exists w1. split; [|done].
  cbn [check_duplicates]. rewrite (proj2 (Z.eqb_neq _ _) Hne).
  rewrite (on_counter_ok s i _ w true w1) by (done || apply Hwf). cbn [outcome_bind].
  cbn [entries set_counter]. rewrite (index_lookup _ _ e) by (done || apply Hb). cbn [outcome_bind].
  destruct (bound_lookup _ i (wf_decision _ _ Hwf) Hb) as (d & Ed & Eid'). cbn [decision_counter set_counter].
  rewrite Eid'. cbn [outcome_bind]. rewrite bool_decide_eq_true_2 by done.
  pose proof (Hdec d Ed). pose proof (wf_decided _ _ Hwf i d Hb Ed) as Hd. pose proof (wf_global _ _ Hwf).
  assert (Hnf : i ∉ free).
  { intros Hf. rewrite bool_decide_eq_true_2 in Hl by done. subst w. by apply zero_not_live. }
  rewrite bool_decide_eq_false_2 in Hd by done. unfold RC.does_value_win.
  rewrite (proj2 (Z.eqb_neq d _)) by lia. rewrite (proj2 (Z.ltb_ge c d)) by lia.
  rewrite bound_update by (done || apply Hwf). cbn [outcome_bind negb].
  rewrite (set_decision_same (set_counter s _)) by done. cbn [counter set_counter].
  assert (Hlen : (Z.to_nat i < length s.(counter))%nat) by (by eapply lookup_lt_Some).
  rewrite (index_lookup _ _ w1); [|apply Hb|by apply list_lookup_insert_eq].
  cbn [outcome_bind]. rewrite Hd1. cbn [RC.is_initialized RC.set_counter].
  by destruct (RC.is_initialized _).
Qed.

(** ** The entries of the set *)

Lemma lookup_insert_bound {A} (l : Datatypes.list A) i k (a : A) :
  zlength l = MAX_NUMBER_OF_ENTRIES -> bound i -> bound k ->
  <[Z.to_nat i := a]> l !! Z.to_nat k = if decide (k = i) then Some a else l !! Z.to_nat k.
Proof.
  intros Hl Hi Hk. unfold bound, zlength, MAX_NUMBER_OF_ENTRIES in *. case_decide as E.
  - subst k. apply list_lookup_insert_eq. lia.
  - apply list_lookup_insert_ne. lia.
Qed.

Lemma free_cons_ne id k (rest : Datatypes.list Z) :
  k <> id -> bool_decide (k ∈ id :: rest) = bool_decide (k ∈ rest).
Proof. intros Hne. apply bool_decide_ext. rewrite elem_of_cons. naive_solver. Qed.

(** Replacing a word of an entry in use by another live one keeps the invariant. *)
Lemma wf_set_counter s free i w :
  wf s free -> bound i -> i ∉ free -> word_ok w -> live w ->
  wf (set_counter s (<[Z.to_nat i := w]> s.(counter))) free.
Proof.
  intros [] Hb Hn Hw Hl. split; cbn; try done; [by rewrite zlength_insert|].
  intros k wk Hk Ek. destruct (decide (k = i)) as [->|Hne].
  - rewrite list_lookup_insert_eq in Ek; [|unfold bound, zlength, MAX_NUMBER_OF_ENTRIES in *; lia]. simplify_eq.
    rewrite bool_decide_eq_false_2 by done. done.
  - rewrite list_lookup_insert_ne in Ek; [by apply wf_words0|]. unfold bound in *. lia.
Qed.

(** The word of a new entry. *)
Definition new_word (persistent : bool) : Z :=
  RC.compact_value {| RC.reference_counter := 1; RC.is_initialized := false;
    RC.is_persistent := persistent; RC.to_be_removed := false |}.

Lemma create_word persistent : exists w,
  unit_result (fun w => RC.set_persistency_bit w persistent) 0 = Ret (tt, w) /\
  RC.increment_ref_counter w = Ret (w, new_word persistent).
Proof. exists (if persistent then 2 ^ 63 else 0). destruct persistent; split; vm_compute; reflexivity. Qed.

Lemma new_word_ok persistent : word_ok (new_word persistent) /\ live (new_word persistent) /\
  RC.details (new_word persistent) = {| RC.reference_counter := 1; RC.is_initialized := false;
    RC.is_persistent := persistent; RC.to_be_removed := false |}.
Proof.
  assert (Hd : RC.details (new_word persistent) = {| RC.reference_counter := 1; RC.is_initialized := false;
    RC.is_persistent := persistent; RC.to_be_removed := false |}).
  { unfold new_word. by rewrite RC.details_compact. }
  split_and!; [split; [apply RC.compact_value_range|]|left|done]; rewrite Hd; cbn; lia.
Qed.

(** What [insert] has done when it starts to look for duplicates: the entry [id] is in
    use, with one reference and the decision [c]. *)
Lemma insert_prefix s id rest file off n persistent :
  wf s (id :: rest) -> UIS.aba_of s.(ids).(UIS.head) + 1 < 2 ^ 32 ->
  s.(global_decision_counter) + 1 < RC.UNDECIDED ->
  exists s', insert s file off n persistent =
      check_duplicates s' file id s.(global_decision_counter) (seqZ 0 MAX_NUMBER_OF_ENTRIES) /\
    wf s' rest /\
    s'.(entries) = <[Z.to_nat id := {| name := file; offset := off; len := n |}]> s.(entries) /\
    s'.(counter) = <[Z.to_nat id := new_word persistent]> s.(counter) /\
    s'.(decision_counter) = <[Z.to_nat id := s.(global_decision_counter)]> s.(decision_counter) /\
    s'.(global_decision_counter) = s.(global_decision_counter) + 1 /\
    UIS.aba_of s'.(ids).(UIS.head) = UIS.aba_of s.(ids).(UIS.head) + 1.
Proof.
  intros Hwf Ha Hg. unfold insert.
  destruct (UIS.acquire_some s.(ids) id rest (wf_ids _ _ Hwf) Ha) as (q & -> & Hq & Hcap & Haba & _). cbn [outcome_bind].
  pose proof (UIS.repr_nodup _ _ (wf_ids _ _ Hwf)) as Hnd.
  assert (Hin : id ∈ id :: rest) by apply list_elem_of_here.
  assert (Hb : bound id).
  { pose proof (UIS.repr_chain _ _ (wf_ids _ _ Hwf)) as Hch. rewrite (wf_capacity _ _ Hwf) in Hch.
    destruct Hch as (_ & Hb & _). done. }
  assert (Hnr : id ∉ rest) by (by apply NoDup_cons in Hnd as [? _]).
  rewrite bound_update by (done || apply Hwf). cbn [outcome_bind].
  destruct (wf_word s _ id Hwf Hb) as (w0 & Ew & _ & _ & Hw0). rewrite bool_decide_eq_true_2 in Hw0 by done. subst w0.
  destruct (create_word persistent) as (w1 & E1 & E2). destruct (new_word_ok persistent) as (Hok & Hlive & _).
  rewrite (on_counter_ok _ id _ 0 tt w1); [|apply Hwf|done..]. cbn [outcome_bind].
  assert (Hlen : (Z.to_nat id < length s.(counter))%nat) by (by eapply lookup_lt_Some).
  rewrite (on_counter_ok _ id _ w1 w1 (new_word persistent)); [|cbn; rewrite zlength_insert; apply Hwf|done| |done].
  2: { cbn. by apply list_lookup_insert_eq. }
  cbn [outcome_bind counter set_counter set_entries set_ids global_decision_counter decision_counter set_global_decision_counter].
  destruct (bound_lookup _ id (wf_decision _ _ Hwf) Hb) as (d & Ed & Ei). rewrite Ei. cbn [outcome_bind].
  pose proof (wf_decided _ _ Hwf id d Hb Ed) as Hd. rewrite bool_decide_eq_true_2 in Hd by done. subst d.
  unfold RC.decision_set, compare_exchange. rewrite Z.eqb_refl.
  rewrite bound_update by (done || apply Hwf). cbn [outcome_bind negb].
  eexists. split; [done|]. cbn. rewrite list_insert_insert_eq. pose proof (wf_global _ _ Hwf).
  rewrite wrapping_add_small by (unfold RC.UNDECIDED in *; lia). split; [|done].
  split; cbn; rewrite ?zlength_insert; try apply Hwf; try done; [by rewrite Hcap; apply Hwf|lia|..]; intros k x Hk.
  - rewrite lookup_insert_bound by (done || apply Hwf). case_decide as Hki; intros Ek.
    + subst k. injection Ek as <-. by rewrite bool_decide_eq_false_2.
    + rewrite <-(free_cons_ne id) by done. by apply (wf_words _ _ Hwf).
  - rewrite lookup_insert_bound by (done || apply Hwf). case_decide as Hki; intros Ek.
    + subst k. injection Ek as <-. rewrite bool_decide_eq_false_2 by done. lia.
    + pose proof (wf_decided _ _ Hwf k x Hk Ek) as Hx. rewrite free_cons_ne in Hx by done.
      destruct (bool_decide _); [done|lia].
Qed.

(** ** [insert] *)

Lemma free_bound s free i : wf s free -> i ∈ free -> bound i.
Proof.
  intros Hwf Hi. pose proof (UIS.repr_chain _ _ (wf_ids _ _ Hwf)) as Hch.
  rewrite (wf_capacity _ _ Hwf) in Hch. by eapply UIS.chain_bound.
Qed.

Lemma free_not_occupied s free file i : wf s free -> i ∈ free -> ~ occupied s file i.
Proof.
  intros Hwf Hi (e & w & _ & _ & Ew & Hl & _). pose proof (free_bound s free i Hwf Hi) as Hb.
  destruct (wf_words _ _ Hwf i w Hb Ew) as [_ Hw]. rewrite bool_decide_eq_true_2 in Hw by done.
  subst w. by apply zero_not_live.
Qed.

(** The other entries are what they were. *)
Lemma occupied_other s s' file id i e w :
  zlength s.(entries) = MAX_NUMBER_OF_ENTRIES -> zlength s.(counter) = MAX_NUMBER_OF_ENTRIES ->
  bound id -> bound i -> i <> id ->
  s'.(entries) = <[Z.to_nat id := e]> s.(entries) -> s'.(counter) = <[Z.to_nat id := w]> s.(counter) ->
  occupied s' file i <-> occupied s file i.
Proof.
  intros He Hc Hid Hi Hne Ee Ec. unfold occupied. rewrite Ee, Ec.
  rewrite !lookup_insert_bound by done. by rewrite !decide_False by done.
Qed.

Lemma insert_ok s id rest file off n persistent :
  wf s (id :: rest) -> UIS.aba_of s.(ids).(UIS.head) + 1 < 2 ^ 32 ->
  s.(global_decision_counter) + 1 < RC.UNDECIDED -> (forall i, bound i -> ~ occupied s file i) ->
  exists s', insert s file off n persistent = Ret (Ok id, s') /\ wf s' rest /\
    s'.(entries) = <[Z.to_nat id := {| name := file; offset := off; len := n |}]> s.(entries) /\
    s'.(counter) = <[Z.to_nat id := new_word persistent]> s.(counter) /\
    s'.(decision_counter) = <[Z.to_nat id := s.(global_decision_counter)]> s.(decision_counter) /\
    s'.(global_decision_counter) = s.(global_decision_counter) + 1 /\
    UIS.aba_of s'.(ids).(UIS.head) = UIS.aba_of s.(ids).(UIS.head) + 1.
Proof.
  intros Hwf Ha Hg Hno.
  destruct (insert_prefix s id rest file off n persistent Hwf Ha Hg) as (s' & -> & Hwf' & Ee & Ec & Ed & Eg & Eaba).
  exists s'. split_and!; try done. rewrite <-(app_nil_r (seqZ 0 _)).
  rewrite (check_skip_all s' rest); [done|done|].
  pose proof (free_bound s _ id Hwf (list_elem_of_here _ _)) as Hid.
  eapply Forall_impl; [apply range_bound|]. intros i Hi. split; [done|].
  destruct (decide (i = id)) as [|Hne]; [by left|right].
  rewrite (occupied_other s s' file id i) by (done || apply Hwf). by apply Hno.
Qed.

Lemma seq_split i : bound i ->
  seqZ 0 MAX_NUMBER_OF_ENTRIES = seqZ 0 i ++ i :: seqZ (i + 1) (MAX_NUMBER_OF_ENTRIES - i - 1).
Proof.
  intros Hi. unfold bound, MAX_NUMBER_OF_ENTRIES in *. replace 512 with (i + (512 - i)) at 1 by lia.
  rewrite seqZ_app by lia. f_equal. rewrite Z.add_0_l.
  rewrite (seqZ_cons i (512 - i)) by lia. f_equal; f_equal; lia.
Qed.

Lemma insert_duplicate s id rest file off n persistent i w :
  wf s (id :: rest) -> UIS.aba_of s.(ids).(UIS.head) + 1 < 2 ^ 32 ->
  s.(global_decision_counter) + 1 < RC.UNDECIDED ->
  bound i -> occupied s file i -> (forall k, 0 <= k < i -> ~ occupied s file k) ->
  s.(counter) !! Z.to_nat i = Some w ->
  exists s' w1, insert s file off n persistent =
    Ret (Err (if (RC.details w).(RC.is_initialized) then DoesExist else BeingCreated), s') /\
    UIS.repr s'.(ids) rest /\
    s'.(counter) = <[Z.to_nat i := w1]> (<[Z.to_nat id := new_word persistent]> s.(counter)) /\
    RC.details w1 = RC.set_counter (RC.details w) ((RC.details w).(RC.reference_counter) + 1) /\
    occupied s' file id.
Proof.
  intros Hwf Ha Hg Hi Hocc Hfirst Ew.
  destruct (insert_prefix s id rest file off n persistent Hwf Ha Hg) as (s' & -> & Hwf' & Ee & Ec & Ed & Eg & Eaba).
  pose proof (list_elem_of_here id rest) as Hin. pose proof (free_bound s _ id Hwf Hin) as Hid.
  assert (Hne : i <> id) by (intros ->; by eapply (free_not_occupied s (id :: rest))).
  assert (Hoth : forall k, bound k -> k <> id -> occupied s' file k <-> occupied s file k).
  { intros k Hk Hk'. by apply (occupied_other s s' file id k _ _ (wf_entries _ _ Hwf) (wf_counter _ _ Hwf) Hid Hk Hk' Ee Ec). }
  assert (Ew' : s'.(counter) !! Z.to_nat i = Some w).
  { rewrite Ec, lookup_insert_bound by (done || apply Hwf). by rewrite decide_False. }
  rewrite (seq_split i Hi), (check_skip_all s' rest); [|done|].
  - destruct (check_loses s' rest file id s.(global_decision_counter) i (seqZ (i + 1) (MAX_NUMBER_OF_ENTRIES - i - 1)) w)
      as (w1 & Eq & Hr1 & Hd1); try done; [by apply Hoth|lia| |].
    { intros d Hd. pose proof (wf_decided _ _ Hwf' i d Hi Hd) as Hx.
      destruct (bool_decide (i ∈ rest)) eqn:Er; [|lia]. apply bool_decide_eq_true in Er.
      exfalso. apply (free_not_occupied s' rest file i Hwf' Er). by apply Hoth. }
    rewrite Eq. eexists _, w1. split_and!; [done|apply Hwf'|cbn; by rewrite Ec|done|].
    destruct (new_word_ok persistent) as (_ & Hlive & Hd).
    exists {| name := file; offset := off; len := n |}, (new_word persistent). cbn.
    rewrite Ee, Ec, !lookup_insert_bound, !decide_True by (done || (rewrite ?zlength_insert; apply Hwf)).
    rewrite (decide_False (P := id = i)), (decide_True (P := id = id)) by congruence. by rewrite Hd.
  - apply Forall_forall. intros k Hk%elem_of_seqZ.
    assert (Hkb : bound k) by (unfold bound in *; lia). split; [done|].
    destruct (decide (k = id)) as [|Hkn]; [by left|right]. rewrite Hoth by done. apply Hfirst. lia.
Qed.

(** ** Lookup *)

(** An entry that [find_entry] finds. *)
Definition visible (s : FileReferenceSet) (file : Datatypes.list Z) (i : Z) : Prop :=
  occupied s file i /\
  forall w, s.(counter) !! Z.to_nat i = Some w -> (RC.details w).(RC.is_initialized) = true.

(** The operations on a packed word. *)
Lemma op_word o d r d' :
  0 <= d.(RC.reference_counter) -> d.(RC.reference_counter) + 1 < 2 ^ 61 ->
  match o with RC.ODecrement _ => 0 < d.(RC.reference_counter) | _ => True end ->
  RC.effect o d = (r, d') ->
  RC.uninterrupted (RC.body o) (RC.compact_value d) = Ret (r, RC.compact_value d').
Proof.
  intros Hc Hb Ho E.
  assert (Hd : RC.details (RC.compact_value d) = d).
  { rewrite RC.details_compact, Z.mod_small by lia. apply RC.set_counter_self. }
  destruct (op_effect o (RC.compact_value d)) as (w' & Ew & Hr & Hw).
  - apply RC.compact_value_range.
  - by rewrite Hd.
  - by rewrite Hd.
  - rewrite Hd in Ew, Hw. rewrite E in Ew, Hw. cbn [fst snd] in Ew, Hw. rewrite Ew. f_equal. f_equal.
    by rewrite <-Hw, RC.compact_details.
Qed.

Lemma word_of_details w : in_range 64 w -> w = RC.compact_value (RC.details w).
Proof. intros Hw. by rewrite RC.compact_details. Qed.

(** Looking at an entry with another name leaves no trace. *)
Lemma find_skip s free file i range :
  wf s free -> bound i -> ~ visible s file i ->
  find_entry_in s file (i :: range) = find_entry_in s file range.
Proof.
  intros Hwf Hb Hx. cbn [find_entry_in]. destruct (wf_word s free i Hwf Hb) as (w & Ew & Ei & Hw & Hl).
  set (d := RC.details w). pose proof (RC.details_count_range w) as Hc. fold d in Hc.
  assert (Ewd : w = RC.compact_value d) by (apply word_of_details, Hw). destruct Hw as [Hr Hcb]. fold d in Hcb.
  destruct (RC.effect RC.OFind d) as [r d'] eqn:E.
  pose proof (op_word RC.OFind d r d' ltac:(lia) ltac:(lia) I E) as Eop. rewrite <-Ewd in Eop.
  rewrite (on_counter_ok s i _ w r (RC.compact_value d')) by (done || apply Hwf). cbn [outcome_bind].
  unfold RC.effect in E. destruct (_ && d.(RC.is_initialized)) eqn:Ex; apply pair_equal_spec in E as [<- <-].
  2: { rewrite <-Ewd, set_counter_same by done. done. }
  apply andb_prop in Ex as [[Ht Hlive]%andb_prop Hini]. apply negb_true_iff in Ht. apply orb_prop in Hlive.
  rewrite Z.ltb_lt in Hlive.
  destruct (bound_lookup _ i (wf_entries _ _ Hwf) Hb) as (e & Ee & Eie). cbn [entries set_counter]. rewrite Eie. cbn [outcome_bind].
  rewrite bool_decide_eq_false_2.
  2: { intros E. apply Hx. split; [by exists e, w|]. intros w' Ew'. rewrite Ew in Ew'. by injection Ew' as <-. }
  assert (Hlen : (Z.to_nat i < length s.(counter))%nat) by (by eapply lookup_lt_Some).
  rewrite (on_counter_ok _ i _ (RC.compact_value (RC.set_counter d (d.(RC.reference_counter) + 1)))
    ((d.(RC.reference_counter) =? 0) && negb d.(RC.is_persistent)) w); [|cbn; rewrite zlength_insert; apply Hwf|done| |].
  - cbn [outcome_bind counter set_counter]. by rewrite set_counter_back.
  - cbn. by apply list_lookup_insert_eq.
  - unfold RC.decrement_ref_counter. rewrite (op_word (RC.ODecrement false) _ ((d.(RC.reference_counter) =? 0) && negb d.(RC.is_persistent)) d);
      cbn [RC.effect RC.reference_counter RC.set_counter RC.is_persistent]; try lia; [by rewrite <-Ewd|].
    f_equal; [by replace (_ + 1 - 1) with d.(RC.reference_counter) by lia|].
    unfold RC.set_counter. cbn. replace (_ + 1 - 1) with d.(RC.reference_counter) by lia. apply RC.set_counter_self.
Qed.

Lemma find_skip_all s free file pre range :
  wf s free -> Forall (fun i => bound i /\ ~ visible s file i) pre ->
  find_entry_in s file (pre ++ range) = find_entry_in s file range.
Proof.
  intros Hwf Hpre. induction Hpre as [|i pre [Hb Hi] _ IH]; [done|].
  change ((i :: pre) ++ range) with (i :: (pre ++ range)). by rewrite (find_skip s free).
Qed.

(** An operation on the counter of an entry whose details are known. *)
Lemma on_op s id o d r d' :
  zlength s.(counter) = MAX_NUMBER_OF_ENTRIES -> bound id ->
  s.(counter) !! Z.to_nat id = Some (RC.compact_value d) ->
  0 <= d.(RC.reference_counter) -> d.(RC.reference_counter) + 1 < 2 ^ 61 ->
  match o with RC.ODecrement _ => 0 < d.(RC.reference_counter) | _ => True end ->
  RC.effect o d = (r, d') ->
  on_counter s id (RC.uninterrupted (RC.body o)) =
    Ret (r, set_counter s (<[Z.to_nat id := RC.compact_value d']> s.(counter))).
Proof.
  intros Hl Hb Ew Hc Hc1 Ho E. apply (on_counter_ok s id _ (RC.compact_value d)); try done.
  by apply op_word.
Qed.

Lemma find_hit s free file i e d :
  wf s free -> bound i -> s.(entries) !! Z.to_nat i = Some e -> e.(name) = file ->
  s.(counter) !! Z.to_nat i = Some (RC.compact_value d) ->
  0 <= d.(RC.reference_counter) -> d.(RC.reference_counter) + 1 < 2 ^ 61 ->
  0 < d.(RC.reference_counter) \/ d.(RC.is_persistent) = true ->
  d.(RC.to_be_removed) = false -> d.(RC.is_initialized) = true ->
  (forall k, 0 <= k < i -> ~ visible s file k) ->
  find_entry s file = Ret (Some i, set_counter s (<[Z.to_nat i :=
    RC.compact_value (RC.set_counter d (d.(RC.reference_counter) + 1))]> s.(counter))).
Proof.
  intros Hwf Hi Ee He Ew Hc Hc1 Hlive Ht Hini Hfirst. unfold find_entry. rewrite (wf_capacity _ _ Hwf).
  rewrite (seq_split i Hi), (find_skip_all s free); [|done|].
  - cbn [find_entry_in].
    change RC.increment_ref_counter_when_initialized with (RC.uninterrupted (RC.body RC.OFind)).
    rewrite (on_op s i RC.OFind d true (RC.set_counter d (d.(RC.reference_counter) + 1)));
      try done; [|apply Hwf|].
    + cbn [outcome_bind entries set_counter]. rewrite (index_lookup _ _ e) by (done || apply Hi).
      cbn [outcome_bind]. by rewrite bool_decide_eq_true_2.
    + unfold RC.effect. rewrite Ht, Hini. cbn [negb andb]. rewrite andb_true_r.
      replace ((0 <? _) || _) with true; [done|]. symmetry. apply orb_true_iff. by rewrite Z.ltb_lt.
  - apply Forall_forall. intros k Hk%elem_of_seqZ. split; [unfold bound in *; lia|]. apply Hfirst. lia.
Qed.

Lemma find_none s free file :
  wf s free -> (forall i, bound i -> ~ visible s file i) -> find_entry s file = Ret (None, s).
Proof.
  intros Hwf Hno. unfold find_entry. rewrite (wf_capacity _ _ Hwf), <-(app_nil_r (seqZ 0 _)).
  rewrite (find_skip_all s free); [done|done|]. eapply Forall_impl; [apply range_bound|]. intros i Hi. auto.
Qed.

(** ** Releasing *)

Lemma decrement_keep s id d :
  zlength s.(counter) = MAX_NUMBER_OF_ENTRIES -> bound id ->
  s.(counter) !! Z.to_nat id = Some (RC.compact_value d) ->
  0 < d.(RC.reference_counter) -> d.(RC.reference_counter) + 1 < 2 ^ 61 ->
  1 < d.(RC.reference_counter) \/ d.(RC.is_persistent) = true ->
  decrement_ref_counter s id = Ret (set_counter s (<[Z.to_nat id :=
    RC.compact_value (RC.set_counter d (d.(RC.reference_counter) - 1))]> s.(counter))).
Proof.
  intros Hl Hb Ew Hc Hc1 Hk. unfold decrement_ref_counter.
  change RC.decrement_ref_counter with (RC.uninterrupted (RC.body (RC.ODecrement false))).
  rewrite (on_op s id (RC.ODecrement false) d false (RC.set_counter d (d.(RC.reference_counter) - 1)));
    try done; try lia. unfold RC.effect. f_equal. apply andb_false_iff.
  destruct Hk as [?|Hk]; [left; apply Z.eqb_neq; lia|right]. by rewrite Hk.
Qed.

Lemma decrement_remove s free id d :
  wf s free -> bound id -> id ∉ free -> s.(counter) !! Z.to_nat id = Some (RC.compact_value d) ->
  d.(RC.reference_counter) = 1 -> d.(RC.is_persistent) = false ->
  UIS.aba_of s.(ids).(UIS.head) + 1 < 2 ^ 32 ->
  exists s', decrement_ref_counter s id = Ret s' /\ wf s' (id :: free) /\
    s'.(entries) = s.(entries) /\ s'.(counter) = <[Z.to_nat id := 0]> s.(counter) /\
    s'.(decision_counter) = <[Z.to_nat id := RC.UNDECIDED]> s.(decision_counter).
Proof.
  intros Hwf Hb Hn Ew Hc Hp Ha. unfold decrement_ref_counter.
  change RC.decrement_ref_counter with (RC.uninterrupted (RC.body (RC.ODecrement false))).
  rewrite (on_op s id (RC.ODecrement false) d true (RC.set_counter d (d.(RC.reference_counter) - 1)));
    try done; try lia; [|apply Hwf|unfold RC.effect; by rewrite Hc, Hp].
  cbn [outcome_bind]. assert (Hlen : (Z.to_nat id < length s.(counter))%nat) by (by eapply lookup_lt_Some).
  erewrite on_counter_ok; [|cbn; rewrite zlength_insert; apply Hwf|done|cbn; by apply list_lookup_insert_eq|done].
  cbn [outcome_bind decision_counter set_counter]. rewrite bound_update by (done || apply Hwf).
  cbn [outcome_bind ids set_decision_counter set_counter counter].
  assert (Hcast : cast 32 id = id).
  { apply cast_small. unfold bound, MAX_NUMBER_OF_ENTRIES, in_range in *. lia. }
  rewrite Hcast. destruct (UIS.uis_release_ok s.(ids) id free (wf_ids _ _ Hwf)) as (q & -> & Hq & Hcap & _); try done.
  { rewrite (wf_capacity _ _ Hwf). apply Hb. }
  cbn [outcome_bind]. eexists. split; [done|]. cbn. rewrite list_insert_insert_eq. split; [|done].
  split; cbn; rewrite ?zlength_insert; try apply Hwf; try done; [by rewrite Hcap; apply Hwf|..]; intros k x Hk;
    rewrite lookup_insert_bound by (done || apply Hwf); case_decide as Hki; intros Ek.
  - subst k. injection Ek as <-. rewrite bool_decide_eq_true_2 by apply list_elem_of_here. split; [|done].
    split; vm_compute; split; done || reflexivity.
  - rewrite free_cons_ne by done. by apply (wf_words _ _ Hwf).
  - subst k. injection Ek as <-. by rewrite bool_decide_eq_true_2 by apply list_elem_of_here.
  - rewrite free_cons_ne by done. by apply (wf_decided _ _ Hwf).
Qed.

(** ** Creating a file *)

(** The details of an initialised file with [k] references. *)
Definition file_details (persistent : bool) (k : Z) : RC.ReferenceCounterDetails :=
  {| RC.reference_counter := k; RC.is_initialized := true; RC.is_persistent := persistent;
     RC.to_be_removed := false |}.

Lemma file_word_ok persistent k :
  0 <= k -> k + 2 < 2 ^ 61 -> (0 < k \/ persistent = true) ->
  word_ok (RC.compact_value (file_details persistent k)) /\ live (RC.compact_value (file_details persistent k)).
Proof.
  intros Hk Hb Hl. unfold word_ok, live. rewrite RC.details_compact. cbn [RC.reference_counter RC.is_persistent RC.set_counter file_details].
  rewrite Z.mod_small by lia. split_and!; [apply RC.compact_value_range|done..].
Qed.

Lemma finalize_ok s id persistent :
  zlength s.(counter) = MAX_NUMBER_OF_ENTRIES -> bound id ->
  s.(counter) !! Z.to_nat id = Some (new_word persistent) ->
  finalize_initialization s id = Ret (set_counter s (<[Z.to_nat id :=
    RC.compact_value (file_details persistent 1)]> s.(counter))).
Proof.
  intros Hl Hb Ew. unfold finalize_initialization.
  rewrite (on_counter_ok s id _ (new_word persistent) tt (RC.compact_value (file_details persistent 1))); try done.
  unfold unit_result, RC.set_initialized_bit, new_word.
  change (RC.set_initialized_body true) with (RC.body RC.OInitialize).
  by rewrite (op_word RC.OInitialize _ true (file_details persistent 1)).
Qed.

Lemma create_ok s id rest file off n persistent :
  wf s (id :: rest) -> UIS.aba_of s.(ids).(UIS.head) + 1 < 2 ^ 32 ->
  s.(global_decision_counter) + 1 < RC.UNDECIDED -> (forall i, bound i -> ~ occupied s file i) ->
  exists s', create s file off n persistent = Ret (Ok id, s') /\ wf s' rest /\
    s'.(entries) = <[Z.to_nat id := {| name := file; offset := off; len := n |}]> s.(entries) /\
    s'.(counter) = <[Z.to_nat id := RC.compact_value (file_details persistent 1)]> s.(counter) /\
    s'.(decision_counter) = <[Z.to_nat id := s.(global_decision_counter)]> s.(decision_counter) /\
    UIS.aba_of s'.(ids).(UIS.head) = UIS.aba_of s.(ids).(UIS.head) + 1.
Proof.
  intros Hwf Ha Hg Hno. pose proof (free_bound s _ id Hwf (list_elem_of_here _ _)) as Hb.
  destruct (insert_ok s id rest file off n persistent Hwf Ha Hg Hno) as (s1 & E & Hwf1 & Ee & Ec & Ed & _ & Eaba).
  unfold create. rewrite E. cbn [outcome_bind].
  assert (Hlen : (Z.to_nat id < length s.(counter))%nat).
  { pose proof (wf_counter _ _ Hwf). unfold zlength, bound in *. lia. }
  rewrite (finalize_ok s1 id persistent); [|apply Hwf1|done|rewrite Ec; by apply list_lookup_insert_eq].
  cbn [outcome_bind]. eexists. split; [done|]. split; [|cbn; by rewrite Ee, Ec, list_insert_insert_eq].
  pose proof (UIS.repr_nodup _ _ (wf_ids _ _ Hwf)) as [Hnr _]%NoDup_cons.
  apply wf_set_counter; try done; apply file_word_ok; auto with lia.
Qed.

(** An entry of another index is as visible as before. *)
Lemma visible_other s s' file id i e w :
  (exists free, wf s free) -> bound id -> bound i -> i <> id ->
  s'.(entries) = <[Z.to_nat id := e]> s.(entries) -> s'.(counter) = <[Z.to_nat id := w]> s.(counter) ->
  visible s' file i -> occupied s file i.
Proof.
  intros [free Hw] Hid Hi Hne Ee Ec [Ho _].
  by apply (occupied_other s s' file id i e w (wf_entries _ _ Hw) (wf_counter _ _ Hw) Hid Hi Hne Ee Ec).
Qed.

(** The state after [default]. *)
Lemma default_wf header_size s :
  default header_size = Ret s -> wf s (seqZ 0 MAX_NUMBER_OF_ENTRIES) /\
    UIS.aba_of s.(ids).(UIS.head) = 0 /\ s.(global_decision_counter) = 0 /\
    (forall file i, bound i -> ~ occupied s file i).
Proof.
  unfold default. intros E. apply outcome_bind_inv in E as (q & Eq & E). apply ret_inj in E. subst s.
  unfold UIS.fixed_size_default in Eq. apply outcome_bind_inv in Eq as (d & _ & Eq).
  rewrite cast_small, uadd_ok in Eq by done. cbn [outcome_bind] in Eq. apply ret_inj in Eq.
  destruct (UIS.new_fresh MAX_NUMBER_OF_ENTRIES MAX_NUMBER_OF_ENTRIES d) as (Hrep & Ha & _); [done..|].
  rewrite Eq in Hrep, Ha. assert (Hcap : q.(UIS.capacity) = MAX_NUMBER_OF_ENTRIES) by (by rewrite <-Eq).
  assert (Hlen : forall {A} (a : A), zlength (replicate (Z.to_nat MAX_NUMBER_OF_ENTRIES) a) = MAX_NUMBER_OF_ENTRIES).
  { intros A a. unfold zlength. rewrite length_replicate. done. }
  assert (Hin : forall i, bound i -> bool_decide (i ∈ seqZ 0 MAX_NUMBER_OF_ENTRIES) = true).
  { intros i Hi. apply bool_decide_eq_true_2, elem_of_seqZ. unfold bound in Hi. lia. }
  split_and!; try done.
  - rewrite Hcap in Hrep.
    split; cbn [ids entries counter decision_counter global_decision_counter]; try done; intros i x Hi Ex;
      apply lookup_replicate in Ex as [-> _]; rewrite Hin by done; try done.
  - intros file i Hi (e & w & _ & _ & Ew & Hl & _). cbn [counter] in Ew.
    apply lookup_replicate in Ew as [-> _]. by apply zero_not_live.
Qed.

(** ** Properties *)

(** [insert] on every branch.  With no free entry it fails with [FileLimitExceeded]
    and changes nothing.  If no entry in use has the name, it takes the first free
    entry, stores name, offset and length with one reference, and leaves all other
    entries alone.  Otherwise the first entry of that name decides the error:
    [DoesExist] when it is initialised, [BeingCreated] when it is not. *)
Theorem directory_insert s free file off n persistent :
  wf s free -> UIS.aba_of s.(ids).(UIS.head) + 1 < 2 ^ 32 ->
  s.(global_decision_counter) + 1 < RC.UNDECIDED ->
  match free with
  | [] => insert s file off n persistent = Ret (Err FileLimitExceeded, s)
  | id :: rest =>
      ((forall i, bound i -> ~ occupied s file i) ->
       exists s', insert s file off n persistent = Ret (Ok id, s') /\ wf s' rest /\
         s'.(entries) = <[Z.to_nat id := {| name := file; offset := off; len := n |}]> s.(entries) /\
         s'.(counter) = <[Z.to_nat id := new_word persistent]> s.(counter)) /\
      (forall i w, bound i -> occupied s file i -> (forall k, 0 <= k < i -> ~ occupied s file k) ->
       s.(counter) !! Z.to_nat i = Some w ->
       exists s', insert s file off n persistent =
         Ret (Err (if (RC.details w).(RC.is_initialized) then DoesExist else BeingCreated), s'))
  end.
Proof.
  intros Hwf Ha Hg. destruct free as [|id rest].
  - unfold insert. rewrite (UIS.acquire_none s.(ids)) by apply Hwf. cbn [outcome_bind]. by destruct s.
  - split.
    + intros Hno. destruct (insert_ok s id rest file off n persistent) as (s' & ? & ? & ? & ? & _); eauto.
    + intros i w Hi Ho Hf Ew. destruct (insert_duplicate s id rest file off n persistent i w) as (s' & w1 & ? & _); eauto.
Qed.

(** ** The life of a file *)

Section lifecycle.
Context (s : FileReferenceSet) (id : Z) (rest file : Datatypes.list Z) (off n : Z).
Hypothesis Hwf : wf s (id :: rest).
Hypothesis Hno : forall i, bound i -> ~ occupied s file i.

(** The file has been created in [s] and has [k] references. *)
Record holds (s' : FileReferenceSet) (d : RC.ReferenceCounterDetails) : Prop := {
  ho_wf : wf s' rest;
  ho_entries : s'.(entries) = <[Z.to_nat id := {| name := file; offset := off; len := n |}]> s.(entries);
  ho_counter : s'.(counter) = <[Z.to_nat id := RC.compact_value d]> s.(counter);
  ho_decision : s'.(decision_counter) = <[Z.to_nat id := s.(global_decision_counter)]> s.(decision_counter);
  ho_aba : UIS.aba_of s'.(ids).(UIS.head) = UIS.aba_of s.(ids).(UIS.head) + 1;
}.

(** The file is gone again. *)
Record gone (s' : FileReferenceSet) : Prop := {
  go_wf : wf s' (id :: rest);
  go_counter : s'.(counter) = s.(counter);
  go_decision : s'.(decision_counter) = s.(decision_counter);
  go_borrow : borrow s' file = Ret (None, s');
  go_exist : does_exist s' file = Ret (false, s');
  go_remove : to_be_removed s' file = Ret (false, s');
}.

Lemma id_bound : bound id /\ id ∉ rest /\ (Z.to_nat id < length s.(counter))%nat /\
  (Z.to_nat id < length s.(entries))%nat.
Proof.
  pose proof (free_bound s _ id Hwf (list_elem_of_here _ _)) as Hid.
  pose proof (UIS.repr_nodup _ _ (wf_ids _ _ Hwf)) as [Hnr _]%NoDup_cons.
  pose proof (wf_counter _ _ Hwf). pose proof (wf_entries _ _ Hwf).
  split_and!; try done; unfold zlength, bound in *; lia.
Qed.

Lemma holds_word s' d : holds s' d -> s'.(counter) !! Z.to_nat id = Some (RC.compact_value d).
Proof. intros Hs. rewrite (ho_counter _ _ Hs). apply list_lookup_insert_eq, id_bound. Qed.

Lemma holds_entry s' d : holds s' d -> s'.(entries) !! Z.to_nat id = Some {| name := file; offset := off; len := n |}.
Proof. intros Hs. rewrite (ho_entries _ _ Hs). apply list_lookup_insert_eq, id_bound. Qed.

(** Only the number of references and the flags change. *)
Lemma holds_set s' d d' : holds s' d -> 0 <= d'.(RC.reference_counter) -> d'.(RC.reference_counter) + 2 < 2 ^ 61 ->
  0 < d'.(RC.reference_counter) \/ d'.(RC.is_persistent) = true ->
  holds (set_counter s' (<[Z.to_nat id := RC.compact_value d']> s'.(counter))) d'.
Proof.
  intros [Hw Ee Ec Ed Ea] Hc Hb Hl. destruct id_bound as (Hid & Hnr & _). split; cbn; try done.
  - apply wf_set_counter; try done; unfold word_ok, live; rewrite RC.details_compact; cbn; rewrite Z.mod_small by lia.
    + split; [apply RC.compact_value_range|done].
    + done.
  - by rewrite Ec, list_insert_insert_eq.
Qed.

Lemma holds_other s' d : holds s' d -> forall k, bound k -> k <> id -> ~ visible s' file k.
Proof.
  intros Hs k Hk Hne Hv. apply (Hno k Hk). destruct id_bound as (Hid & _).
  eapply (visible_other s s' file id k); eauto using ho_entries, ho_counter.
Qed.

Lemma holds_find s' d : holds s' d -> 0 <= d.(RC.reference_counter) -> d.(RC.reference_counter) + 3 < 2 ^ 61 ->
  0 < d.(RC.reference_counter) \/ d.(RC.is_persistent) = true ->
  d.(RC.to_be_removed) = false -> d.(RC.is_initialized) = true ->
  let d' := RC.set_counter d (d.(RC.reference_counter) + 1) in
  let s'' := set_counter s' (<[Z.to_nat id := RC.compact_value d']> s'.(counter)) in
  find_entry s' file = Ret (Some id, s'') /\ holds s'' d' /\ does_exist s' file = Ret (true, s').
Proof.
  intros Hs Hc Hb Hl Ht Hi d' s''. destruct id_bound as (Hid & Hnr & Hlen & _).
  pose proof (holds_word s' d Hs) as Ew. pose proof (holds_other s' d Hs) as Hot.
  assert (Ef : find_entry s' file = Ret (Some id, s'')).
  { apply (find_hit s' rest file id {| name := file; offset := off; len := n |} d); try done;
      [apply Hs|by apply (holds_entry s' d)|lia|].
    intros k Hk. apply Hot; [unfold bound in *; lia|lia]. }
  assert (Hs' : holds s'' d') by (apply (holds_set s' d); cbn; try done; lia).
  split; [done|]. split; [done|]. unfold does_exist. rewrite Ef. cbn [outcome_bind].
  rewrite (decrement_keep s'' id d'); try done; try (cbn; lia).
  - replace (RC.set_counter d' (d'.(RC.reference_counter) - 1)) with d
      by (unfold d', RC.set_counter; destruct d; cbn; f_equal; lia).
    cbn [outcome_bind]. unfold s''. cbn [counter set_counter]. by rewrite set_counter_back.
  - apply (wf_counter _ _ (ho_wf _ _ Hs')).
  - by apply (holds_word s'' d').
  - cbn. destruct Hl; [left; lia|by right].
Qed.

Lemma holds_release s' d : holds s' d -> 0 < d.(RC.reference_counter) -> d.(RC.reference_counter) + 2 < 2 ^ 61 ->
  1 < d.(RC.reference_counter) \/ d.(RC.is_persistent) = true ->
  exists s'', drop_file s' id = Ret s'' /\ holds s'' (RC.set_counter d (d.(RC.reference_counter) - 1)).
Proof.
  intros Hs Hc Hb Hk. destruct id_bound as (Hid & _). eexists. split.
  - apply (decrement_keep s' id d); try done; [apply (wf_counter _ _ (ho_wf _ _ Hs))|by apply holds_word|lia].
  - apply (holds_set s' d); cbn; try done; try lia. destruct Hk; [left; lia|by right].
Qed.

Lemma holds_last s' d : holds s' d -> UIS.aba_of s.(ids).(UIS.head) + 2 < 2 ^ 32 ->
  d.(RC.reference_counter) = 1 -> d.(RC.is_persistent) = false ->
  exists s'', decrement_ref_counter s' id = Ret s'' /\ gone s''.
Proof.
  intros Hs Ha Hc Hp. destruct id_bound as (Hid & Hnr & Hlen & _).
  destruct (decrement_remove s' rest id d) as (s'' & E & Hwf'' & Ee & Ec & Ed); try done;
    [apply Hs|by apply holds_word|rewrite (ho_aba _ _ Hs); lia|].
  assert (Ec' : s''.(counter) = s.(counter)).
  { rewrite Ec, (ho_counter _ _ Hs), list_insert_insert_eq. apply list_insert_id.
    destruct (wf_word s _ id Hwf Hid) as (w & Ew & _ & _ & Hw). rewrite bool_decide_eq_true_2 in Hw by apply list_elem_of_here. by subst w. }
  assert (Hn : find_entry s'' file = Ret (None, s'')).
  { apply (find_none s'' (id :: rest)); [done|]. intros k Hk Hv. destruct (decide (k = id)) as [->|Hne].
    - destruct Hv as [Hv _]. apply (free_not_occupied s'' (id :: rest) file id) in Hv; [done..|]. apply list_elem_of_here.
    - apply (Hno k Hk). eapply (visible_other s s'' file id k); eauto; [by rewrite Ee; apply Hs|].
      rewrite Ec, (ho_counter _ _ Hs), list_insert_insert_eq. done. }
  exists s''. split; [done|]. split; try done.
  - rewrite Ed, (ho_decision _ _ Hs), list_insert_insert_eq. apply list_insert_id.
    destruct (bound_lookup _ id (wf_decision _ _ Hwf) Hid) as (x & Ex & _).
    pose proof (wf_decided _ _ Hwf id x Hid Ex) as Hx. rewrite bool_decide_eq_true_2 in Hx by apply list_elem_of_here. by subst x.
  - unfold does_exist. by rewrite Hn.
  - unfold to_be_removed. by rewrite Hn.
Qed.

(** Removing a persistent file that nobody holds. *)
Lemma holds_remove s' : holds s' (file_details true 0) -> UIS.aba_of s.(ids).(UIS.head) + 2 < 2 ^ 32 ->
  exists s'', to_be_removed s' file = Ret (true, s'') /\ gone s''.
Proof.
  intros Hs Ha. destruct id_bound as (Hid & _).
  destruct (holds_find s' _ Hs) as (Ef & Hs1 & _); cbn; try done; [lia..|by right|].
  unfold to_be_removed. rewrite Ef. cbn [outcome_bind]. clear Ef. set (s1 := set_counter s' _) in *. cbn in Hs1.
  assert (Hstep : forall s1 d o d', holds s1 d -> d.(RC.reference_counter) = 1 -> d'.(RC.reference_counter) = 1 ->
    (o = RC.OUnpersist \/ o = RC.OMark) -> RC.effect o d = (true, d') ->
    on_counter s1 id (unit_result (fun w => let! '(_, cell) := RC.uninterrupted (RC.body o) w in Ret cell)) =
      Ret (tt, set_counter s1 (<[Z.to_nat id := RC.compact_value d']> s1.(counter))) /\
    holds (set_counter s1 (<[Z.to_nat id := RC.compact_value d']> s1.(counter))) d').
  { intros t d o d' Ht H1 H1' Ho E. split.
    - apply (on_counter_ok t id _ (RC.compact_value d)); [apply (wf_counter _ _ (ho_wf _ _ Ht))|done|by apply holds_word|].
      unfold unit_result. rewrite (op_word o d true d'); try done; [lia..|]. by destruct Ho as [-> | ->].
    - apply (holds_set t d); try done; lia. }
  destruct (Hstep s1 _ RC.OUnpersist (file_details false 1) Hs1 eq_refl eq_refl (or_introl eq_refl) eq_refl) as [E2 Hs2].
  unfold RC.set_persistency_bit. change (RC.set_persistency_body false) with (RC.body RC.OUnpersist).
  rewrite E2. cbn [outcome_bind]. set (s2 := set_counter s1 _) in *.
  destruct (Hstep s2 _ RC.OMark (RC.set_to_be_removed (file_details false 1) true) Hs2 eq_refl eq_refl (or_intror eq_refl) eq_refl)
    as [E3 Hs3].
  unfold RC.mark_to_be_removed. change RC.to_be_removed_body with (RC.body RC.OMark).
  rewrite E3. cbn [outcome_bind].
  destruct (holds_last _ _ Hs3 Ha eq_refl eq_refl) as (s'' & -> & Hg). by exists s''.
Qed.

End lifecycle.

(** C30: The life of a file, when no other thread works on the directory.  A file whose name
    no entry has is created at the first free entry; it exists, can be opened by its name
    and has the name, the place, the length and the persistency it was created with.
    When both handles are dropped it is gone if it is not persistent; a persistent file
    still exists, until it is removed by its name.  Once it is gone, the free entries, all
    reference counters and all decision counters are as before the creation, and the name
    is neither found nor removed any more.  The list of free entries has been changed
    fewer than 2^32 - 2 times and fewer than 2^64 - 2 files have been created. *)
Theorem directory_file_lifecycle s id rest file off n base persistent :
  wf s (id :: rest) -> UIS.aba_of s.(ids).(UIS.head) + 2 < 2 ^ 32 ->
  s.(global_decision_counter) + 1 < RC.UNDECIDED -> (forall i, bound i -> ~ occupied s file i) ->
  off + base < 2 ^ 64 ->
  exists s1 s2 s3 s4,
    create s file off n persistent = Ret (Ok id, s1) /\ does_exist s1 file = Ret (true, s1) /\
    borrow s1 file = Ret (Some id, s2) /\
    get_name s2 id = Ret file /\ get_payload s2 id base = Ret (off + base, n) /\
    is_persistent s2 id = Ret persistent /\
    drop_file s2 id = Ret s3 /\ does_exist s3 file = Ret (true, s3) /\ drop_file s3 id = Ret s4 /\
    if persistent then
      does_exist s4 file = Ret (true, s4) /\
      exists s5, to_be_removed s4 file = Ret (true, s5) /\ gone s id rest file s5
    else gone s id rest file s4.
Proof.
  intros Hwf Ha Hg Hno Hb. destruct (id_bound s id rest Hwf) as (Hid & _).
  destruct (create_ok s id rest file off n persistent Hwf ltac:(lia) Hg Hno) as (s1 & E1 & Hwf1 & Ee1 & Ec1 & Ed1 & Ea1).
  assert (Hs1 : holds s id rest file off n s1 (file_details persistent 1)) by (by split).
  destruct (holds_find s id rest file off n Hwf Hno s1 _ Hs1) as (Ef1 & Hs2 & Ex1); cbn; try done; [lia..|by left|].
  set (s2 := set_counter s1 _) in *. cbn in Hs2.
  destruct (holds_release s id rest file off n Hwf s2 _ Hs2) as (s3 & E3 & Hs3); cbn; [lia..|by left|]. cbn in Hs3.
  destruct (holds_find s id rest file off n Hwf Hno s3 _ Hs3) as (_ & _ & Ex3); cbn; try done; [lia..|by left|].
  assert (Hlast : exists s4, drop_file s3 id = Ret s4 /\
    if persistent then holds s id rest file off n s4 (file_details true 0) else gone s id rest file s4).
  { destruct persistent.
    - apply (holds_release s id rest file off n Hwf s3 _ Hs3); cbn; [lia..|by right].
    - apply (holds_last s id rest file off n Hwf Hno s3 _ Hs3 Ha); done. }
  destruct Hlast as (s4 & E4 & Hs4). exists s1, s2, s3, s4. pose proof (holds_entry _ _ _ _ _ _ Hwf _ _ Hs2) as He2.
  split_and!; try done.
  - unfold get_name. rewrite (index_lookup _ _ _ (proj1 Hid) He2). done.
  - unfold get_payload. rewrite (index_lookup _ _ _ (proj1 Hid) He2). cbn [outcome_bind offset len]. by rewrite uadd_ok.
  - unfold is_persistent. rewrite (index_lookup _ _ _ (proj1 Hid) (holds_word _ _ _ _ _ _ Hwf _ _ Hs2)). cbn [outcome_bind].
    by rewrite RC.details_compact.
  - destruct persistent; [|done].
    destruct (holds_find s id rest file off n Hwf Hno s4 _ Hs4) as (_ & _ & Ex4); cbn; try done; [lia..|by right|].
    split; [done|]. by apply (holds_remove s id rest file off n).
Qed.

End operations.
(** ** Witnesses and counterexamples *)

(** A directory as the creator leaves it. *)
Definition fresh_directory : FileReferenceSet :=
  match @default dev 40 with
  | Ret s => s
  | Panic => {| entries := []; counter := []; decision_counter := []; ids := UIS.new_uninit 0;
                global_decision_counter := 0 |}
  end.

Lemma fresh_directory_eq : @default dev 40 = Ret fresh_directory.
Proof. vm_compute. reflexivity. Qed.

Lemma directory_insert_witness :
  exists s', @insert dev fresh_directory [97] 0 8 false = Ret (Ok 0, s').
Proof.
  destruct (@default_wf dev 40 fresh_directory fresh_directory_eq) as (Hwf & Ha & Hg & Hno).
  assert (E : seqZ 0 MAX_NUMBER_OF_ENTRIES = 0 :: seqZ 1 511) by reflexivity. rewrite E in Hwf.
  pose proof (proj1 (@directory_insert dev fresh_directory (0 :: seqZ 1 511) [97] 0 8 false Hwf
    ltac:(rewrite Ha; lia) ltac:(rewrite Hg; reflexivity)) (Hno [97])) as (s' & Es & _).
  exists s'. exact Es.
Defined.

(** A persistent file of 8 bytes outlives its handles and is then removed by its name. *)
Lemma directory_file_lifecycle_witness :
  exists s1 s2 s3 s4 s5, @create dev fresh_directory [97] 16 8 true = Ret (Ok 0, s1) /\
    @borrow dev s1 [97] = Ret (Some 0, s2) /\ @get_payload dev s2 0 1000 = Ret (1016, 8) /\
    @drop_file dev s2 0 = Ret s3 /\ @drop_file dev s3 0 = Ret s4 /\ @does_exist dev s4 [97] = Ret (true, s4) /\
    @to_be_removed dev s4 [97] = Ret (true, s5) /\ @borrow dev s5 [97] = Ret (None, s5).
Proof.
  destruct (@default_wf dev 40 fresh_directory fresh_directory_eq) as (Hwf & Ha & Hg & Hno).
  assert (E : seqZ 0 MAX_NUMBER_OF_ENTRIES = 0 :: seqZ 1 511) by reflexivity. rewrite E in Hwf.
  destruct (@directory_file_lifecycle dev fresh_directory 0 (seqZ 1 511) [97] 16 8 1000 true Hwf
    ltac:(rewrite Ha; lia) ltac:(rewrite Hg; reflexivity) (Hno [97]) ltac:(lia))
    as (s1 & s2 & s3 & s4 & E1 & _ & E2 & _ & Ep & _ & E3 & _ & E4 & Ex & s5 & E5 & Hgone).
  exists s1, s2, s3, s4, s5. split; [exact E1|]. split; [exact E2|]. split; [exact Ep|]. split; [exact E3|].
  split; [exact E4|]. split; [exact Ex|]. split; [exact E5|]. exact (go_borrow _ _ _ _ _ Hgone).
Defined.

(** A failed [create] leaks what it has taken.  The file [a] exists, a second creator
    of [a] fails with [DoesExist], and the first one removes its file.  The entry of the
    failed creator is still there: [a] cannot be found and cannot be removed, and every
    further attempt to create it fails with [BeingCreated]. *)
Theorem directory_failed_create_blocks_name :
  (let! '(r1, s) := @create dev fresh_directory [97] 0 8 false in
   let! '(r2, s) := @create dev s [97] 0 8 false in
   let! '(removed, s) := @to_be_removed dev s [97] in
   let! s := @drop_file dev s 0 in
   let! '(found, s) := @does_exist dev s [97] in
   let! '(removed_again, s) := @to_be_removed dev s [97] in
   let! '(r3, s) := @create dev s [97] 0 8 false in
   Ret (r1, r2, removed, found, removed_again, r3))
  = Ret (Ok 0, Err DoesExist, true, false, false, Err BeingCreated).
Proof. vm_compute. reflexivity. Qed.

(** The first creator is interrupted after it has drawn its number, the second one runs,
    then the first one goes on. *)
Definition two_creators : Datatypes.list (nat * unit) :=
  replicate 5 (0%nat, tt) ++ replicate 600 (1%nat, tt) ++ replicate 600 (0%nat, tt).

(** Two creators of the same file can both succeed.  [does_value_win] is meant to mark
    an undecided competitor as lost, but [LOST] and [UNDECIDED] are the same value, so
    that the competitor still decides for itself: the second creator wins against the
    undecided first one, which then wins with its smaller number. *)
Theorem directory_creates_file_twice :
  exists s : FileReferenceSet * Datatypes.list insert_pc,
    rtc (act_step (iact (@insert_act dev [97]))) (fresh_directory, [IAcquire; IAcquire]) s /\
    s.2 = [IDone (Ok 0); IDone (Ok 1)].
Proof.
  assert (E : snd <$> run_schedule (iact (@insert_act dev [97])) two_creators
    (fresh_directory, [IAcquire; IAcquire]) = Some [IDone (Ok 0); IDone (Ok 1)]) by (vm_compute; reflexivity).
  destruct (run_schedule _ _ _) as [s|] eqn:Er; [|done]. exists s. split.
  - by eapply run_schedule_reachable.
  - cbn in E. by injection E.
Qed.

End FileReferenceSet.
