(* ===== verification/UniqueSystemId.v ===== *)
(** * Unique ids and the names built from them

    [iceoryx2_bb_posix::unique_system_id]: the id of a port is made of the process id and
    of the time of its creation.  The last nanoseconds are kept in an atomic so that two
    threads of a process do not create an id with the same time; [new] is modelled as
    threads that interleave at every access of the atomic and of the clock.  The names of
    connections, data segments and events in [iceoryx2::service::naming_scheme] are the
    decimal representations of the ids. *)

From S2P Require Import Prelude ByteString SemanticString SystemTypes.

(* src/iceoryx2_bb/posix/src/clock.rs:172-176 Time *)
Record Time := { seconds : Z; nanoseconds : Z }.

Module UniqueSystemId.

(** ** Creation *)

Definition NANOSECONDS_PER_SECOND : Z := 10 ^ 9.

(** What [clock_gettime] yields [t] nanoseconds after the start of the clock. *)
Definition time_at (t : Z) : Time :=
  {| seconds := t / NANOSECONDS_PER_SECOND; nanoseconds := t mod NANOSECONDS_PER_SECOND |}.

(** The value of an id. *)
(* src/iceoryx2_bb/posix/src/unique_system_id.rs:108-110 new *)
Definition from_parts (process_id : Z) (now : Time) : Z :=
  Z.lor (Z.lor (shl 128 process_id 96) (shl 128 now.(seconds) 32)) now.(nanoseconds).

(* src/iceoryx2_bb/posix/src/unique_system_id.rs:119-121 pid *)
Definition pid (value : Z) : Z :=
  let v := cast 32 (shr value 96) in if v <? 2 ^ 31 then v else v - 2 ^ 32.

(* src/iceoryx2_bb/posix/src/unique_system_id.rs:124-133 creation_time *)
Definition creation_time (value : Z) : Time :=
  {| seconds := cast 64 (shr (shl 128 value 32) 64); nanoseconds := cast 32 (shr (shl 128 value 96) 96) |}.

(** The static atomic, the clock, and the ids made so far, the last one first. *)
Record system := { last_nanoseconds : Z; clock : Z; made : list Z }.

(** Where a thread is in [new]: about to load the atomic, to read the clock, to swap. *)
Inductive pc :=
| Idle
| Load
| ReadClock (previous_nanoseconds : Z)
| Swap (previous_nanoseconds now : Z).

Inductive action := Call | Step | Wait (duration : Z).

(* src/iceoryx2_bb/posix/src/unique_system_id.rs:77-111 new *)
Definition new_step (process_id : Z) (g : system) (p : pc) : option (system * pc) :=
  match p with
  | Idle => None
  | Load => Some (g, ReadClock g.(last_nanoseconds))
  | ReadClock previous =>
      if (time_at g.(clock)).(nanoseconds) =? previous then Some (g, ReadClock previous)
      else Some (g, Swap previous g.(clock))
  | Swap previous now =>
      let '(r, v) := compare_exchange g.(last_nanoseconds) previous (time_at now).(nanoseconds) in
      match r with
      | Ok _ => Some ({| last_nanoseconds := v; clock := g.(clock);
                         made := from_parts process_id (time_at now) :: g.(made) |}, Idle)
      | Err v' => Some (g, ReadClock v')
      end
  end.

Definition act (process_id : Z) (a : action) (g : system) (p : pc) : option (system * pc) :=
  match a, p with
  | Call, Idle => Some (g, Load)
  | Call, _ => None
  | Step, _ => new_step process_id g p
  | Wait d, _ =>
      if 0 <=? d then
        Some ({| last_nanoseconds := g.(last_nanoseconds); clock := g.(clock) + d; made := g.(made) |}, p)
      else None
  end.

(** [n] threads, right after an id was created at time [t]. *)
Definition created_at (process_id t : Z) (n : nat) : system * list pc :=
  ({| last_nanoseconds := (time_at t).(nanoseconds); clock := t; made := [from_parts process_id (time_at t)] |},
   replicate n Idle).

(** ** Names *)

(** The decimal digits of a number below [10^(n + 1)]. *)
Fixpoint digits (n : nat) (value : Z) (behind : list Z) : list Z :=
  match n with
  | O => (48 + value mod 10) :: behind
  | S n => if value <? 10 then (48 + value) :: behind else digits n (value / 10) ((48 + value mod 10) :: behind)
  end.

(** [to_string] of integers of up to 128 bits. *)
Definition to_string (value : Z) : list Z :=
  if value <? 0 then 45 :: digits 38 (- value) [] else digits 38 value [].

Section names.
Context `{Profile}.

Definition expect {A E} (r : outcome (Result A E)) : outcome A :=
  let! r := r in match r with Ok a => Ret a | Err _ => Panic end.

Definition expect_unit {A E} (r : outcome (Result unit E * A)) : outcome A :=
  let! '(r, a) := r in match r with Ok _ => Ret a | Err _ => Panic end.

(** All three names are two numbers with an underscore between them; [memory] is the
    uninitialised array of the file name. *)
Definition numbers_name (memory : list Z) (first second : Z) : outcome FixedSizeByteString :=
  let! file := expect (S.new (H0 := FileName) FILENAME_LENGTH memory (to_string first)) in
  let! file := expect_unit (S.push (H0 := FileName) file 95) in
  expect_unit (S.push_bytes (H0 := FileName) file (to_string second)).

(* src/iceoryx2/src/service/naming_scheme.rs:20-27 event_concept_name *)
Definition event_concept_name (memory : list Z) (listener_id : Z) : outcome FixedSizeByteString :=
  numbers_name memory (pid listener_id) listener_id.

(* src/iceoryx2/src/service/naming_scheme.rs:37-46 connection_name *)
Definition connection_name (memory : list Z) (publisher_id subscriber_id : Z) : outcome FixedSizeByteString :=
  numbers_name memory publisher_id subscriber_id.

(* src/iceoryx2/src/service/naming_scheme.rs:48-56 data_segment_name *)
Definition data_segment_name (memory : list Z) (publisher_id : Z) : outcome FixedSizeByteString :=
  numbers_name memory (pid publisher_id) publisher_id.

End names.

(** ** Lemmas *)

(** A time of the 64-bit clock and a process id. *)
Definition time_ok (t : Time) : Prop := in_range 64 t.(seconds) /\ in_range 32 t.(nanoseconds).

Lemma from_parts_sum process_id t : in_range 31 process_id -> time_ok t ->
  from_parts process_id t = process_id * 2 ^ 96 + t.(seconds) * 2 ^ 32 + t.(nanoseconds).
Proof.
  intros Hp [Hs Hn]. unfold in_range in *. unfold from_parts, shl.
  rewrite !Z.shiftl_mul_pow2, !Z.mod_small, (lor_add_pow2 _ _ 96) by lia.
  replace (process_id * 2 ^ 96 + seconds t * 2 ^ 32) with ((process_id * 2 ^ 64 + seconds t) * 2 ^ 32) by lia.
  by rewrite lor_add_pow2 by lia.
Qed.

(** The three parts of a number. *)
Lemma split_parts a b c : 0 <= a -> in_range 64 b -> in_range 32 c ->
  let v := a * 2 ^ 96 + b * 2 ^ 32 + c in
  v / 2 ^ 96 = a /\ v / 2 ^ 32 mod 2 ^ 64 = b /\ v mod 2 ^ 32 = c.
Proof.
  intros Ha Hb Hc v. unfold in_range in *. split_and!.
  - symmetry. apply (Z.div_unique _ _ _ (b * 2 ^ 32 + c)); unfold v; lia.
  - replace (v / 2 ^ 32) with (a * 2 ^ 64 + b); [symmetry; apply (Z.mod_unique _ _ a); lia|].
    apply (Z.div_unique _ _ _ c); unfold v; lia.
  - symmetry. apply (Z.mod_unique _ _ (a * 2 ^ 64 + b)); unfold v; lia.
Qed.

(** Shifting up and down again keeps the lower bits. *)
Lemma shl_shr k n v : 0 <= n -> 0 <= k -> shr (shl (n + k) v k) k = v mod 2 ^ n.
Proof.
  intros Hn Hk. unfold shr, shl. rewrite Z.shiftr_div_pow2, Z.shiftl_mul_pow2 by lia.
  rewrite Z.pow_add_r, Z.mul_mod_distr_r by lia. by rewrite Z.div_mul by lia.
Qed.

Lemma shl_shr_seconds v : shr (shl 128 v 32) 64 = v / 2 ^ 32 mod 2 ^ 64.
Proof.
  replace 64 with (32 + 32) at 1 by lia. unfold shr. rewrite <-Z.shiftr_shiftr by lia.
  change (Z.shiftr (shl 128 v 32) 32) with (shr (shl (96 + 32) v 32) 32). rewrite shl_shr by lia.
  rewrite Z.shiftr_div_pow2 by lia. change (2 ^ 96) with (2 ^ 32 * 2 ^ 64).
  rewrite Z.rem_mul_r by lia. rewrite (Z.mul_comm (2 ^ 32)), Z.div_add by lia.
  rewrite (Z.div_small (v mod 2 ^ 32)); [done|]. apply Z.mod_pos_bound. lia.
Qed.

Lemma from_parts_split q t : in_range 31 q -> time_ok t ->
  in_range 128 (from_parts q t) /\ pid (from_parts q t) = q /\ creation_time (from_parts q t) = t.
Proof.
  intros Hq Ht. rewrite (from_parts_sum q t Hq Ht). destruct Ht as [Hs Hn], t as [s n].
  cbn [seconds nanoseconds] in *. unfold in_range in Hq.
  destruct (split_parts q s n ltac:(lia) Hs Hn) as (E1 & E2 & E3). unfold in_range in *.
  split; [lia|]. split.
  - unfold pid, shr. rewrite Z.shiftr_div_pow2, E1 by lia. rewrite cast_small by (unfold in_range; lia).
    by rewrite (proj2 (Z.ltb_lt _ _)) by lia.
  - unfold creation_time. rewrite shl_shr_seconds, E2, (shl_shr 96 32), E3 by lia.
    by rewrite !cast_small by done.
Qed.

Lemma from_parts_inj q q' t t' : in_range 31 q -> in_range 31 q' -> time_ok t -> time_ok t' ->
  from_parts q t = from_parts q' t' -> q = q' /\ t = t'.
Proof.
  intros Hq Hq' Ht Ht' E. destruct (from_parts_split q t Hq Ht) as (_ & H1 & H2).
  destruct (from_parts_split q' t' Hq' Ht') as (_ & H3 & H4). rewrite E in H1, H2. split; congruence.
Qed.

Lemma time_at_ok t : 0 <= t < 10 ^ 9 * 2 ^ 64 -> time_ok (time_at t).
Proof.
  intros Ht. unfold time_ok, in_range. cbn. unfold NANOSECONDS_PER_SECOND.
  pose proof (Z.mod_pos_bound t (10 ^ 9) ltac:(lia)). split; [|lia].
  split; [apply Z.div_pos; lia|]. apply Z.div_lt_upper_bound; lia.
Qed.

Lemma time_at_inj t t' : time_at t = time_at t' -> t = t'.
Proof.
  intros E. injection E as E1 E2. unfold NANOSECONDS_PER_SECOND in *.
  rewrite (Z.div_mod t (10 ^ 9)), (Z.div_mod t' (10 ^ 9)) by lia. congruence.
Qed.

(** Within a second the nanoseconds determine the time. *)
Lemma nanoseconds_inj t t' : (time_at t).(nanoseconds) = (time_at t').(nanoseconds) ->
  Z.abs (t - t') < 10 ^ 9 -> t = t'.
Proof.
  cbn. unfold NANOSECONDS_PER_SECOND. intros E Habs.
  pose proof (Z.div_mod t (10 ^ 9) ltac:(lia)). pose proof (Z.div_mod t' (10 ^ 9) ltac:(lia)). nia.
Qed.

(** ** Decimal numbers *)

Definition is_digit (c : Z) : Prop := 48 <= c <= 57.

Definition decimal_value (start : Z) (l : list Z) : Z := fold_left (fun v c => v * 10 + (c - 48)) l start.

(** The digits in front of [behind]: how many, and the number they stand for. *)
Lemma digits_ok n : forall value behind, 0 <= value < 10 ^ (Z.of_nat n + 1) ->
  exists l, digits n value behind = l ++ behind /\ l <> [] /\ (length l <= S n)%nat /\
    Forall is_digit l /\ decimal_value 0 l = value.
Proof.
  induction n as [|n IH]; intros value behind Hv; cbn [digits].
  { change (10 ^ (Z.of_nat 0 + 1)) with 10 in Hv. rewrite Z.mod_small by lia.
    exists [48 + value]. split_and!; [done..| |cbn; lia]. constructor; [unfold is_digit; lia|done]. }
  destruct (value <? 10) eqn:E; bool_to_prop.
  { exists [48 + value]. split_and!; [done..|cbn; lia| |cbn; lia]. constructor; [unfold is_digit; lia|done]. }
  replace (Z.of_nat (S n) + 1) with (Z.of_nat n + 1 + 1) in Hv by lia. rewrite Z.pow_add_r in Hv by lia.
  destruct (IH (value / 10) ((48 + value mod 10) :: behind)) as (l & -> & Hne & Hl & Hd & Hval).
  { split; [apply Z.div_pos; lia|]. apply Z.div_lt_upper_bound; lia. }
  pose proof (Z.mod_pos_bound value 10 ltac:(lia)). exists (l ++ [48 + value mod 10]). split_and!.
  - by rewrite <-app_assoc.
  - by destruct l.
  - rewrite length_app. cbn. lia.
  - apply Forall_app_2; [done|]. constructor; [unfold is_digit; lia|done].
  - unfold decimal_value in *. rewrite fold_left_app, Hval. cbn. rewrite (Z.div_mod value 10) at 3 by lia. lia.
Qed.

Lemma to_string_ok value : in_range 128 value -> exists l, to_string value = l /\ l <> [] /\ zlength l <= 39 /\
  Forall is_digit l /\ decimal_value 0 l = value.
Proof.
  unfold in_range. intros Hv. unfold to_string. rewrite (proj2 (Z.ltb_ge _ _)) by lia.
  destruct (digits_ok 38 value []) as (l & -> & Hne & Hl & Hd & Hval).
  { split; [lia|]. etrans; [apply Hv|reflexivity]. }
  exists l. rewrite app_nil_r. unfold zlength. split_and!; [done..|lia|done|done].
Qed.

Lemma digits_valid l : Forall is_digit l -> does_contain_invalid_characters (H := FileName) l = false.
Proof.
  intros Hl. apply not_invalid. eapply Forall_impl; [done|]. unfold is_digit. intros c Hc. cbn.
  unfold invalid_path_character. repeat (rewrite (proj2 (Z.eqb_neq _ _)) by lia).
  rewrite (proj2 (Z.leb_gt _ _) : 31 < c -> _) by lia. by rewrite andb_false_r.
Qed.

Lemma pid_range id : 0 <= pid id -> in_range 128 (pid id).
Proof.
  intros Hid. split; [done|]. clear Hid. unfold pid. pose proof (Z.mod_pos_bound (shr id 96) (2 ^ 32) ltac:(lia)) as Hm.
  fold (cast 32 (shr id 96)) in Hm. cbn zeta. destruct (_ <? _); lia.
Qed.

Section names_lemmas.
Context `{Profile}.

Lemma digit_content c l : is_digit c -> is_invalid_content (SemanticKind := FileName) (c :: l) = false.
Proof.
  unfold is_digit. intros Hc. cbn. apply bool_decide_eq_false. intros [E|[E|E]]; [done|injection E as -> _..];
    unfold DOT in Hc; lia.
Qed.

(** Appending to a file name that begins with a digit. *)
Lemma digit_name_push s c b rest bytes : repr s (c :: b) rest -> is_digit c ->
  does_contain_invalid_characters (H := FileName) (c :: b) = false ->
  does_contain_invalid_characters (H := FileName) bytes = false -> bytes <> [] ->
  zlength (c :: b) + zlength bytes <= s.(CAPACITY) ->
  exists s' rest', S.push_bytes (H0 := FileName) s bytes = Ret (Ok tt, s') /\ repr s' (c :: b ++ bytes) rest' /\
    s'.(CAPACITY) = s.(CAPACITY).
Proof.
  intros Hr Hc Hb Hby Hne Hfit. unfold S.push_bytes. rewrite (repr_len _ _ _ Hr).
  assert (zlength bytes <> 0) by (by rewrite zlength_zero). pose proof (zlength_nonneg bytes).
  pose proof (zlength_nonneg (c :: b)). pose proof (repr_width _ _ _ Hr).
  assert (Et : take (Z.to_nat (zlength (c :: b))) (c :: b) ++ bytes ++ drop (Z.to_nat (zlength (c :: b))) (c :: b) =
    c :: b ++ bytes) by (unfold zlength; by rewrite Nat2Z.id, firstn_all, drop_all, app_nil_r).
  destruct (ss_insert_bytes_ok (H0 := FileName) s (c :: b) rest (zlength (c :: b)) bytes Hr Hb)
    as (r & s' & rest' & E & Ec & Hres); [lia..|right; rewrite Et; by apply digit_content|].
  rewrite E, Et in *. destruct r as [[]|[]]; destruct Hres as [Hr' Hres].
  - by exists s', rest'.
  - congruence.
  - rewrite digit_content in Hres by done. done.
  - lia.
Qed.

Lemma numbers_name_ok memory a b : zlength memory = FILENAME_LENGTH -> in_range 128 a -> in_range 128 b ->
  exists s, numbers_name memory a b = Ret s /\ as_bytes s = to_string a ++ 95 :: to_string b /\
    valid (H0 := FileName) (as_bytes s).
Proof.
  intros Hm Ha Hb. unfold numbers_name. destruct (to_string_ok a Ha) as (la & -> & Hna & Hla & Hda & _).
  destruct (to_string_ok b Hb) as (lb & -> & Hnb & Hlb & Hdb & _).
  destruct la as [|c la]; [done|]. pose proof (Forall_inv Hda) as Hc. pose proof (digits_valid _ Hda) as Hva.
  destruct (S.new_ok (H0 := FileName) FILENAME_LENGTH memory (c :: la)) as (r & -> & Hr);
    [done|done|lia|right; by apply digit_content|].
  destruct r as [s0|[]]; [|congruence|rewrite digit_content in Hr by done; done|unfold FILENAME_LENGTH in Hr; lia].
  destruct Hr as (_ & _ & Ec0 & rest & Hr0). cbn [expect outcome_bind]. unfold S.push, S.insert.
  change (S.insert_bytes s0 s0.(len) [95]) with (S.push_bytes (H0 := FileName) s0 [95]).
  destruct (digit_name_push s0 c la rest [95] Hr0 Hc Hva) as (s1 & rest1 & -> & Hr1 & Ec1);
    [done|done|rewrite Ec0; unfold FILENAME_LENGTH; change (zlength [95]) with 1; lia|]. cbn [expect_unit outcome_bind].
  rewrite app_comm_cons in Hr1. 
  assert (Hv1 : does_contain_invalid_characters (H := FileName) (c :: la ++ [95]) = false)
    by (rewrite app_comm_cons, invalid_characters_app, Hva; done).
  destruct (digit_name_push s1 c (la ++ [95]) rest1 lb Hr1 Hc Hv1) as (s2 & rest2 & -> & Hr2 & Ec2);
    [by apply digits_valid|done|rewrite Ec1, Ec0; unfold FILENAME_LENGTH; rewrite app_comm_cons, zlength_app; change (zlength [95]) with 1; lia|].
  cbn [expect_unit outcome_bind]. exists s2. rewrite (repr_bytes _ _ _ Hr2). split; [done|].
  split; [by rewrite <-app_assoc|]. split; [|by apply digit_content].
  by rewrite app_comm_cons, invalid_characters_app, Hv1, digits_valid.
Qed.

Lemma separated_inj (a b a' b' : list Z) : Forall is_digit a -> Forall is_digit a' ->
  a ++ 95 :: b = a' ++ 95 :: b' -> a = a' /\ b = b'.
Proof.
  intros Ha. revert a'. induction Ha as [|c a Hc _ IH]; intros a' Ha' E; destruct Ha' as [|c' a' Hc' Ha'].
  - by injection E.
  - injection E as <- _. unfold is_digit in Hc'. lia.
  - injection E as -> _. unfold is_digit in Hc. lia.
  - injection E as <- E. destruct (IH a' Ha' E) as [-> ->]. done.
Qed.

Lemma numbers_inj a b a' b' : in_range 128 a -> in_range 128 b -> in_range 128 a' -> in_range 128 b' ->
  to_string a ++ 95 :: to_string b = to_string a' ++ 95 :: to_string b' -> a = a' /\ b = b'.
Proof.
  intros Ha Hb Ha' Hb' E.
  destruct (to_string_ok a Ha) as (la & Ea & _ & _ & Hda & Va), (to_string_ok b Hb) as (lb & Eb & _ & _ & _ & Vb).
  destruct (to_string_ok a' Ha') as (la' & Ea' & _ & _ & Hda' & Va'), (to_string_ok b' Hb') as (lb' & Eb' & _ & _ & _ & Vb').
  rewrite Ea, Eb, Ea', Eb' in E. destruct (separated_inj _ _ _ _ Hda Hda' E) as [-> ->]. split; congruence.
Qed.

End names_lemmas.

(** ** Threads *)

Section threads.
Context (process_id t0 : Z).
#[local] Notation new_at t := (from_parts process_id (time_at t)).

(** [previous] is what the atomic contained after the id of the time [t] was made, and the
    thread has seen it before the clock showed [now]. *)
Definition seen (ts : list Z) (previous now : Z) : Prop :=
  exists t, t ∈ ts /\ previous = (time_at t).(nanoseconds) /\ t <= now.

Definition pc_ok (ts : list Z) (now : Z) (p : pc) : Prop :=
  match p with
  | Idle | Load => True
  | ReadClock previous => seen ts previous now
  | Swap previous t => seen ts previous t /\ previous <> (time_at t).(nanoseconds) /\ t0 <= t <= now
  end.

(** [ts] are the times of the ids that were made; they increase from one id to the next. *)
Record Inv (s : system * list pc) : Prop := {
  inv_times : exists t ts, s.1.(made) = (fun t => new_at t) <$> t :: ts /\
    s.1.(last_nanoseconds) = (time_at t).(nanoseconds) /\
    Forall (fun t' => t0 <= t' < t) ts /\ NoDup ts /\ t0 <= t <= s.1.(clock) /\
    Forall (pc_ok (t :: ts) s.1.(clock)) s.2;
}.

Lemma pc_ok_mono ts ts' now now' p : pc_ok ts now p -> ts ⊆ ts' -> now <= now' -> pc_ok ts' now' p.
Proof.
  intros Hp Hts Hn. destruct p as [| |previous|previous t]; cbn in *; [done..| |].
  - destruct Hp as (t & ? & ? & ?). exists t. split_and!; [by apply Hts|done|lia].
  - destruct Hp as ((t' & ? & ? & ?) & ? & ?). split_and!; [|done|lia..]. exists t'. split_and!; [by apply Hts|done..].
Qed.

Lemma act_clock a g p g' p' : act process_id a g p = Some (g', p') -> g.(clock) <= g'.(clock).
Proof.
  destruct a as [| |d]; cbn.
  - destruct p; try done. by intros [= <- <-].
  - destruct p; cbn; [done|by intros [= <- <-]|destruct (_ =? _); by intros [= <- <-]|].
    unfold compare_exchange. destruct (_ =? _); by intros [= <- <-].
  - destruct (0 <=? d) eqn:Hd; [|done]. intros [= <- <-]. cbn. lia.
Qed.

Lemma new_act_inv g ps i a p g' p' :
  Inv (g, ps) -> ps !! i = Some p -> act process_id a g p = Some (g', p') -> g'.(clock) < t0 + 10 ^ 9 ->
  Inv (g', <[i := p']> ps).
Proof.
  intros [(t & ts & Em & El & Hts & Hnd & Ht & Hps)] Ei Ea Hc. pose proof (act_clock _ _ _ _ _ Ea) as Hclk. cbn in *.
  pose proof (proj1 (Forall_lookup _ _) Hps i p Ei) as Hp.
  assert (Hkeep : g.(made) = g'.(made) -> g.(last_nanoseconds) = g'.(last_nanoseconds) ->
    pc_ok (t :: ts) g'.(clock) p' -> Inv (g', <[i := p']> ps)).
  { intros Em' El' Hp'. split. exists t, ts. cbn. rewrite <-Em', <-El'. split_and!; [done|done|done|done|lia|lia|].
    apply (iact_Forall (fun g => pc_ok (t :: ts) g.(clock)) i g ps g' p p'); [done..|].
    intros j o _ _ Ho. by eapply pc_ok_mono. }
  destruct a as [| |d]; cbn in Ea.
  - destruct p; try done. injection Ea as <- <-. by apply Hkeep.
  - destruct p as [| |previous|previous now]; cbn [new_step] in Ea; [done| | |].
    + injection Ea as <- <-. apply Hkeep; [done..|]. exists t. split_and!; [by left|done|lia].
    + destruct (_ =? _) eqn:E; injection Ea as <- <-; (apply Hkeep; [done..|]); [done|].
      apply Z.eqb_neq in E. split_and!; [done|by apply not_eq_sym|lia..].
    + destruct Hp as ((t' & Hin & -> & Hle) & Hne & Hnow). unfold compare_exchange in Ea.
      destruct (_ =? _) eqn:E.
      * injection Ea as <- <-. cbn in *. apply Z.eqb_eq in E. rewrite El in E.
        assert (t0 <= t' <= t) by (apply elem_of_cons in Hin as [->|Hin]; [lia|];
          rewrite Forall_forall in Hts; specialize (Hts t' Hin); lia).
        apply nanoseconds_inj in E; [|lia]. subst t'.
        assert (t < now) by (destruct (Z.eq_dec t now) as [->|]; [done|lia]).
        split. exists now, (t :: ts). cbn. split_and!; [by rewrite Em|done| |constructor; [|done]|lia|lia|].
        -- constructor; [lia|]. eapply Forall_impl; [done|]. intros x Hx. cbn in Hx. lia.
        -- intros Hin'. rewrite Forall_forall in Hts. specialize (Hts t Hin'). lia.
        -- apply Forall_insert; [|done]. eapply Forall_impl; [done|]. intros o Ho. eapply pc_ok_mono; [done| |lia].
           set_solver.
      * injection Ea as <- <-. apply Hkeep; [done..|]. exists t. split_and!; [by left|done|lia].
  - destruct (0 <=? d) eqn:Hd; [|done]. injection Ea as <- <-. apply Hkeep; [done..|]. cbn in *. by eapply pc_ok_mono.
Qed.

Lemma new_reachable_inv n s :
  rtc (act_step (iact (act process_id))) (created_at process_id t0 n) s -> s.1.(clock) < t0 + 10 ^ 9 -> Inv s.
Proof.
  intros Hr Hc. eapply (rtc_bounded_invariant (act_step (iact (act process_id))) (fun s => s.1.(clock))
    (t0 + 10 ^ 9 - 1)); [| |exact Hr| |lia].
  - intros x y [a s' E]. apply iact_inv in E as (p & p' & _ & E & _). by apply act_clock in E.
  - intros [g ps] ? [a [g' ps'] E] Hle Hi. apply iact_inv in E as (p & p' & Ep & E & Eps). cbn [fst snd] in *.
    subst ps'. eapply new_act_inv; [done..|lia].
  - split. exists t0, []. cbn. split_and!; [done..|constructor|constructor|lia|lia|].
    apply Forall_replicate. done.
Qed.

End threads.

(** ** Properties *)

(** An id tells who made it and when: for a process id of the operating system and any
    time of the 64-bit clock, the value fits into 128 bits and [pid] and [creation_time]
    give both back; hence ids of different processes, or of different times, differ. *)
Theorem unique_system_id_roundtrip process_id t : in_range 31 process_id -> time_ok t ->
  let id := from_parts process_id t in
  in_range 128 id /\ pid id = process_id /\ creation_time id = t /\
  forall process_id' t', in_range 31 process_id' -> time_ok t' ->
    from_parts process_id' t' = id -> process_id' = process_id /\ t' = t.
Proof.
  intros Hp Ht id. destruct (from_parts_split process_id t Hp Ht) as (H1 & H2 & H3).
  split_and!; [done..|]. intros q t' Hq Ht' E. by apply (from_parts_inj q process_id t' t).
Qed.

Lemma unique_system_id_roundtrip_witness :
  pid (from_parts 4242 (time_at 1000000007)) = 4242 /\ creation_time (from_parts 4242 (time_at 1000000007)) = time_at 1000000007.
Proof.
  destruct (unique_system_id_roundtrip 4242 (time_at 1000000007)) as (_ & E1 & E2 & _).
  - split; [discriminate|reflexivity].
  - split; split; vm_compute; (discriminate || reflexivity).
  - split; [exact E1|exact E2].
Defined.

(** The names of events, data segments and connections.  For ids of at most 128 bits
    that a process has made, building the name never panics and yields a valid file name,
    and different ids, or pairs of ids, have different names. *)
Theorem port_names_distinct `{Profile} memory a b a' b' :
  zlength memory = FILENAME_LENGTH ->
  Forall (fun id => in_range 128 id /\ 0 <= pid id) [a; b; a'; b'] ->
  exists event event' segment segment' connection connection',
    event_concept_name memory a = Ret event /\ event_concept_name memory a' = Ret event' /\
    data_segment_name memory a = Ret segment /\ data_segment_name memory a' = Ret segment' /\
    connection_name memory a b = Ret connection /\ connection_name memory a' b' = Ret connection' /\
    Forall (fun s => valid (H0 := FileName) (as_bytes s)) [event; segment; connection] /\
    (as_bytes event = as_bytes event' <-> a = a') /\
    (as_bytes segment = as_bytes segment' <-> a = a') /\
    (as_bytes connection = as_bytes connection' <-> a = a' /\ b = b').
Proof.
  rewrite !Forall_cons. intros Hm ([Ha Hpa] & [Hb _] & [Ha' Hpa'] & [Hb' _] & _).
  unfold event_concept_name, data_segment_name, connection_name.
  pose proof (pid_range a Hpa). pose proof (pid_range a' Hpa').
  destruct (numbers_name_ok memory (pid a) a) as (e & -> & Ee & Hve); [done..|].
  destruct (numbers_name_ok memory (pid a') a') as (e' & -> & Ee' & _); [done..|].
  destruct (numbers_name_ok memory a b) as (k & -> & Ek & Hvk); [done..|].
  destruct (numbers_name_ok memory a' b') as (k' & -> & Ek' & _); [done..|].
  exists e, e', e, e', k, k'. do 6 (split; [done|]). split; [by rewrite !Forall_cons|].
  assert (Hinj : as_bytes e = as_bytes e' <-> a = a').
  { split; [|intros ->; congruence]. rewrite Ee, Ee'. intros E. by apply numbers_inj in E as [_ ?]. }
  split_and!; [done..|]. rewrite Ek, Ek'. split; [by apply numbers_inj|]. by intros [-> ->].
Qed.

Lemma port_names_distinct_witness : exists name,
  @event_concept_name dev (replicate 255 0) (7 * 2 ^ 96 + 12) = Ret name /\ valid (H0 := FileName) (as_bytes name).
Proof.
  destruct (@port_names_distinct dev (replicate 255 0) (7 * 2 ^ 96 + 12) 1 (7 * 2 ^ 96 + 13) 2)
    as (e & e' & d & d' & k & k' & E & _ & _ & _ & _ & _ & Hv & _).
  - reflexivity.
  - repeat constructor; vm_compute; (discriminate || reflexivity).
  - exists e. split; [exact E|exact (Forall_inv Hv)].
Defined.

(** The ids of a process are unique.  Any number of threads create ids in any
    interleaving of their accesses to the atomic and the clock.  During the second that
    follows the creation of an id, no two of the ids are the same; each of them carries the
    process id and a time at which the clock really was. *)
Theorem unique_system_id_unique process_id t0 n s :
  in_range 31 process_id -> 0 <= t0 -> t0 + 10 ^ 9 <= 10 ^ 9 * 2 ^ 64 ->
  rtc (act_step (iact (act process_id))) (created_at process_id t0 n) s -> s.1.(clock) < t0 + 10 ^ 9 ->
  NoDup s.1.(made) /\
  forall id, id ∈ s.1.(made) -> pid id = process_id /\
    exists t, t0 <= t <= s.1.(clock) /\ creation_time id = time_at t.
Proof.
  intros Hp H0 Hend Hr Hc.
  destruct (new_reachable_inv process_id t0 n s Hr) as [(t & ts & -> & _ & Hts & Hnd & Ht & _)]; [done|].
  assert (Hall : forall x, x ∈ t :: ts -> t0 <= x <= s.1.(clock)).
  { intros x [->|Hx]%elem_of_cons; [done|]. rewrite Forall_forall in Hts. specialize (Hts x Hx). lia. }
  assert (Hok : forall x, x ∈ t :: ts -> time_ok (time_at x)).
  { intros x Hx. apply time_at_ok. specialize (Hall x Hx). lia. }
  split.
  - apply NoDup_fmap_2_strong.
    + intros x y Hx Hy E. apply time_at_inj. eapply (from_parts_inj process_id process_id); eauto.
    + constructor; [|done]. intros Hin. rewrite Forall_forall in Hts. specialize (Hts t Hin). lia.
  - intros id (x & -> & Hx)%list_elem_of_fmap.
    destruct (from_parts_split process_id (time_at x) Hp (Hok x Hx)) as (_ & E1 & E2).
    split; [done|]. exists x. split; [by apply Hall|done].
Qed.

(** Two threads: the first one sees the clock at 7, the second one creates an id at 5. *)
Lemma unique_system_id_unique_witness : exists s,
  rtc (act_step (iact (act 1))) (created_at 1 0 2) s /\ NoDup s.1.(made) /\ length s.1.(made) = 3%nat.
Proof.
  destruct (run_schedule (iact (act 1))
    [(0, Call); (1, Call); (0, Step); (1, Step); (0, Wait 5); (1, Step); (1, Step); (0, Wait 2);
     (0, Step); (0, Step); (0, Step); (0, Step)]%nat (created_at 1 0 2)) as [s|] eqn:E; [|vm_compute in E; discriminate E].
  pose proof (run_schedule_reachable _ _ _ _ E) as Hr.
  assert (Hs : s.1.(clock) < 0 + 10 ^ 9 /\ length s.1.(made) = 3%nat)
    by (vm_compute in E; injection E as <-; split; reflexivity).
  exists s. split; [exact Hr|]. split; [|exact (proj2 Hs)].
  refine (proj1 (unique_system_id_unique 1 0 2 s _ _ _ Hr (proj1 Hs))).
  - split; [discriminate|reflexivity].
  - discriminate.
  - vm_compute. discriminate.
Defined.

(** Beyond that second the ids are not unique.  The atomic only keeps the nanoseconds, so
    a thread does not notice that it has changed and changed back: thread 0 sees the clock
    at 5 but does not swap yet; thread 1 creates the id of that time; a second after the
    first id it creates another one, which restores the old nanoseconds; now thread 0
    creates the id of the time 5 again. *)
Theorem unique_system_id_duplicate : exists s,
  rtc (act_step (iact (act 1))) (created_at 1 0 2) s /\ ~ NoDup s.1.(made).
Proof.
  destruct (run_schedule (iact (act 1))
    [(0, Call); (1, Call); (0, Step); (1, Step); (0, Wait 5); (0, Step); (1, Step); (1, Step);
     (1, Wait 999999995); (1, Call); (1, Step); (1, Step); (1, Step); (0, Step)]%nat (created_at 1 0 2))
    as [s|] eqn:E; [|vm_compute in E; discriminate E].
  exists s. split; [by eapply run_schedule_reachable|]. vm_compute in E. injection E as <-. cbn.
  intros Hnd. apply NoDup_cons in Hnd as [Hn _]. apply Hn. right. left.
Qed.

End UniqueSystemId.
