(* ===== verification/NamedConcept.v ===== *)
(** * iceoryx2_cal/src/named_concept.rs

    Every concept of the communication layer (storages, shared memory, connections,
    events) is a file-like resource with a name.  The configuration of the concept maps
    the name to a path by putting the path hint, a prefix and a suffix around it, and
    takes it apart again when the resources of a directory are listed. *)

From S2P Require Import Prelude ByteString SemanticString SystemTypes.

(* src/iceoryx2_cal/src/named_concept.rs:23-28 NamedConceptDoesExistError *)
Inductive NamedConceptDoesExistError :=
| DoesExistInsufficientPermissions | UnderlyingResourcesBeingSetUp
| UnderlyingResourcesCorrupted | DoesExistInternalError.

(* src/iceoryx2_cal/src/named_concept.rs:31-34 NamedConceptRemoveError *)
Inductive NamedConceptRemoveError := RemoveInsufficientPermissions | RemoveInternalError.

(* src/iceoryx2_cal/src/named_concept.rs:37-40 NamedConceptListError *)
Inductive NamedConceptListError := ListInsufficientPermissions | ListInternalError.

Module NamedConcept.

(** The state behind the accessors of the trait; the prefix and the suffix are the bytes
    of their [FileName]s. *)
(* src/iceoryx2_cal/src/named_concept.rs:46-65 NamedConceptConfiguration *)
Record NamedConceptConfiguration := {
  prefix : list Z;
  suffix : list Z;
  path_hint : FixedSizeByteString;
}.

Section operations.
Context `{Profile}.

Definition expect {A} (r : outcome (Result unit SemanticStringError * A)) : outcome A :=
  let! '(r, a) := r in match r with Ok _ => Ret a | Err _ => Panic end.

(** [memory] is the uninitialised array of the returned path. *)
(* src/iceoryx2_cal/src/named_concept.rs:68-81 path_for *)
Definition path_for (cfg : NamedConceptConfiguration) (memory value : list Z)
    : outcome FixedSizeByteString :=
  let path := cfg.(path_hint) in
  let! path := expect (add_path_entry path cfg.(prefix)) in
  let! path := expect (S.push_bytes (H0 := Path) path value) in
  let! path := expect (S.push_bytes (H0 := Path) path cfg.(suffix)) in
  B.new_unchecked PATH_LENGTH memory (as_bytes path).

(* src/iceoryx2_cal/src/named_concept.rs:93-111 extract_name_from_file *)
Definition extract_name_from_file (cfg : NamedConceptConfiguration) (value : FixedSizeByteString)
    : outcome (option FixedSizeByteString) :=
  let! '(r, file) := S.strip_prefix (H0 := FileName) value cfg.(prefix) in
  match r with
  | Err _ => Panic
  | Ok false => Ret None
  | Ok true =>
      let! '(r, file) := S.strip_suffix (H0 := FileName) file cfg.(suffix) in
      match r with
      | Err _ => Panic
      | Ok false => Ret None
      | Ok true => Ret (Some file)
      end
  end.

(** [memory] and [file_memory] are the uninitialised arrays of the path and of the file
    name that are created for the comparison and the extraction. *)
(* src/iceoryx2_cal/src/named_concept.rs:84-90 extract_name_from_path *)
Definition extract_name_from_path (cfg : NamedConceptConfiguration) (memory file_memory : list Z)
    (value : FixedSizeByteString) : outcome (option FixedSizeByteString) :=
  let! same := comparision memory (as_bytes cfg.(path_hint)) (path (as_bytes value)) in
  if negb same then Ret None
  else
    let! file := B.new_unchecked FILENAME_LENGTH file_memory (file_name (as_bytes value)) in
    extract_name_from_file cfg file.

(** ** Lemmas *)

(** A configuration whose parts are valid strings. *)
Record cfg_ok (cfg : NamedConceptConfiguration) (hint rest : list Z) : Prop := {
  ok_prefix : valid (H0 := FileName) cfg.(prefix);
  ok_suffix : valid (H0 := FileName) cfg.(suffix);
  ok_prefix_len : zlength cfg.(prefix) <= 123;
  ok_suffix_len : zlength cfg.(suffix) <= 123;
  ok_hint : repr cfg.(path_hint) hint rest;
  ok_hint_capacity : cfg.(path_hint).(CAPACITY) = PATH_LENGTH;
  ok_hint_valid : valid (H0 := Path) hint;
}.

Definition full_name (cfg : NamedConceptConfiguration) (value : list Z) : list Z :=
  cfg.(prefix) ++ value ++ cfg.(suffix).

Lemma path_push s b rest bytes :
  repr s b rest -> does_contain_invalid_characters (H := Path) b = false ->
  does_contain_invalid_characters (H := Path) bytes = false -> bytes <> [] ->
  zlength b + zlength bytes <= s.(CAPACITY) ->
  exists s' rest', S.push_bytes (H0 := Path) s bytes = Ret (Ok tt, s') /\ repr s' (b ++ bytes) rest' /\
    s'.(CAPACITY) = s.(CAPACITY).
Proof.
  intros Hr Hb Hby Hne Hfit. unfold S.push_bytes. rewrite (repr_len _ _ _ Hr).
  assert (zlength bytes <> 0) by (by rewrite zlength_zero). pose proof (zlength_nonneg bytes).
  pose proof (zlength_nonneg b). pose proof (repr_width _ _ _ Hr).
  destruct (ss_insert_bytes_ok (H0 := Path) s b rest (zlength b) bytes Hr Hb) as (r & s' & rest' & E & Ec & Hres);
    [lia|lia|lia|by right|].
  rewrite E. destruct r as [[]|[]].
  - destruct Hres as [Hr' _]. exists s', rest'. split_and!; try done.
    unfold zlength in Hr'. by rewrite Nat2Z.id, firstn_all, drop_all, app_nil_r in Hr'.
  - destruct Hres as [_ Hres]. congruence.
  - destruct Hres as [_ Hres]. done.
  - destruct Hres as [_ Hres]. lia.
Qed.

Lemma file_name_chars f :
  valid (H0 := FileName) f -> does_contain_invalid_characters (H := Path) f = false /\ PATH_SEPARATOR ∉ f /\ f <> [].
Proof.
  intros [Hc Hi]. apply not_invalid in Hc. rewrite Forall_forall in Hc. split_and!.
  - apply not_invalid, Forall_forall. intros c Hin. by apply invalid_file_character, Hc.
  - intros Hin. by destruct (invalid_file_character _ (Hc _ Hin)).
  - intros ->. done.
Qed.

Lemma add_path_entry_ok s b rest entry :
  repr s b rest -> does_contain_invalid_characters (H := Path) b = false ->
  does_contain_invalid_characters (H := Path) entry = false -> entry <> [] ->
  zlength (joined b entry) <= s.(CAPACITY) ->
  exists s' rest', add_path_entry s entry = Ret (Ok tt, s') /\ repr s' (joined b entry) rest' /\
    s'.(CAPACITY) = s.(CAPACITY).
Proof.
  intros Hr Hb He Hne Hfit. unfold add_path_entry, joined, B.is_empty in *.
  rewrite (repr_len _ _ _ Hr), (repr_bytes _ _ _ Hr).
  assert (Ee : (zlength b =? 0) = bool_decide (b = [])).
  { apply eq_true_iff_eq. by rewrite Z.eqb_eq, zlength_zero, bool_decide_eq_true. }
  rewrite Ee, <-negb_orb. destruct (bool_decide (b = []) || last_is_separator b); cbn [negb outcome_bind].
  - rewrite zlength_app in Hfit. by apply (path_push s b rest).
  - rewrite !zlength_app in Hfit. change (zlength [PATH_SEPARATOR]) with 1 in Hfit.
    pose proof (zlength_nonneg entry).
    destruct (path_push s b rest [PATH_SEPARATOR] Hr Hb) as (s1 & rest1 & E1 & Hr1 & Ec1); [done|done|change (zlength [PATH_SEPARATOR]) with 1; lia|].
    unfold S.push, S.insert. unfold S.push_bytes in E1. rewrite E1. cbn [outcome_bind].
    destruct (path_push s1 _ rest1 entry Hr1) as (s2 & rest2 & E2 & Hr2 & Ec2); [|done|done| |].
    + by rewrite invalid_characters_app, Hb.
    + rewrite zlength_app. change (zlength [PATH_SEPARATOR]) with 1. lia.
    + exists s2, rest2. split_and!; [done..|congruence].
Qed.

Lemma joined_app p f g : joined p (f ++ g) = joined p f ++ g.
Proof. unfold joined. by rewrite app_assoc. Qed.

Lemma joined_chars p f :
  does_contain_invalid_characters (H := Path) p = false ->
  does_contain_invalid_characters (H := Path) f = false ->
  does_contain_invalid_characters (H := Path) (joined p f) = false.
Proof.
  intros Hp Hf. unfold joined. rewrite invalid_characters_app, Hf, orb_false_r.
  destruct (_ || _); [done|]. by rewrite invalid_characters_app, Hp.
Qed.

Lemma path_for_ok cfg hint rest memory value :
  cfg_ok cfg hint rest -> valid (H0 := FileName) value -> zlength memory = PATH_LENGTH ->
  zlength (joined hint (full_name cfg value)) <= PATH_LENGTH ->
  exists s rest', path_for cfg memory value = Ret s /\ repr s (joined hint (full_name cfg value)) rest'.
Proof.
  intros [Hp Hsf _ _ Hr Hcap [Hh _]] Hv Hm Hfit. unfold full_name in *.
  destruct (file_name_chars _ Hp) as (Hpc & _ & Hpn). destruct (file_name_chars _ Hv) as (Hvc & _ & Hvn).
  destruct (file_name_chars _ Hsf) as (Hsc & _ & Hsn). rewrite app_assoc, !joined_app in Hfit |- *.
  rewrite !zlength_app in Hfit. pose proof (zlength_nonneg value). pose proof (zlength_nonneg cfg.(suffix)).
  unfold path_for, expect.
  destruct (add_path_entry_ok _ _ _ cfg.(prefix) Hr Hh Hpc Hpn) as (s1 & r1 & -> & Hr1 & Ec1); [lia|]. cbn [outcome_bind].
  pose proof (joined_chars hint cfg.(prefix) Hh Hpc) as Hj.
  destruct (path_push s1 _ r1 value Hr1 Hj Hvc Hvn) as (s2 & r2 & -> & Hr2 & Ec2); [lia|]. cbn [outcome_bind].
  assert (Hj2 : does_contain_invalid_characters (H := Path) (joined hint cfg.(prefix) ++ value) = false).
  { by rewrite invalid_characters_app, Hj. }
  destruct (path_push s2 _ r2 cfg.(suffix) Hr2 Hj2 Hsc Hsn) as (s3 & r3 & -> & Hr3 & Ec3).
  { rewrite zlength_app. lia. }
  cbn [outcome_bind]. rewrite (repr_bytes _ _ _ Hr3).
  destruct (new_unchecked_repr PATH_LENGTH memory ((joined hint cfg.(prefix) ++ value) ++ cfg.(suffix)))
    as (s & rest' & -> & Hrs & _); [done|done|rewrite !zlength_app; lia|]. eauto.
Qed.

Lemma new_normalized_ok memory value :
  zlength memory = PATH_LENGTH -> zlength value <= PATH_LENGTH ->
  does_contain_invalid_characters (H := Path) value = false ->
  exists s, new_normalized memory value = Ret (Ok s) /\ as_bytes s = normalize value false.
Proof.
  intros Hm Hv Hc. pose proof (normalize_shorter value false) as Hlen. unfold new_normalized.
  rewrite (proj2 (Z.ltb_ge _ _)) by lia.
  destruct (S.new_ok (H0 := Path) PATH_LENGTH memory (normalize value false)) as (r & -> & Hr);
    [done|done|unfold PATH_LENGTH in *; lia|by right|].
  destruct r as [s|[]]; [|exfalso..].
  - exists s. by destruct Hr as [-> _].
  - apply normalize_invalid in Hr. congruence.
  - discriminate Hr.
  - lia.
Qed.

Lemma normalize_trailing t prev c :
  c <> PATH_SEPARATOR -> normalize (t ++ [c; PATH_SEPARATOR]) prev = normalize (t ++ [c]) prev.
Proof.
  intros Hc. apply Z.eqb_neq in Hc. revert prev. induction t as [|d t IH]; intros prev.
  - cbn [app normalize]. rewrite Hc, !andb_false_r. cbn [app normalize].
    by rewrite bool_decide_eq_true_2, Z.eqb_refl.
  - cbn [app normalize]. rewrite !bool_decide_eq_false_2 by (by destruct t). by rewrite IH.
Qed.

(** The directory of a path in the hint's directory compares equal to the hint unless
    the hint ends with two separators. *)
Lemma normalize_directory hint :
  (forall t, hint <> t ++ [PATH_SEPARATOR; PATH_SEPARATOR]) ->
  normalize (directory hint) false = normalize hint false.
Proof.
  intros Hd. unfold directory, last_is_separator. destruct hint as [|c t _] using rev_ind; [done|].
  rewrite last_snoc. destruct (Z.eqb_spec c PATH_SEPARATOR) as [->|]; [|done].
  rewrite length_app. cbn [length]. rewrite Nat.add_sub, take_app_length.
  destruct t as [|d t _] using rev_ind; [done|]. rewrite decide_False by (by destruct t).
  assert (Hne : d <> PATH_SEPARATOR).
  { intros ->. apply (Hd t). by rewrite <-app_assoc. }
  rewrite <-app_assoc. symmetry. by apply (normalize_trailing t).
Qed.

Lemma directory_shorter hint : zlength (directory hint) <= zlength hint.
Proof.
  unfold directory. destruct (last_is_separator hint) eqn:E; [|done].
  destruct hint as [|c t _] using rev_ind; [done|].
  rewrite length_app. cbn [length]. rewrite Nat.add_sub, take_app_length, zlength_app.
  change (zlength [c]) with 1. case_decide; [change (zlength [PATH_SEPARATOR]) with 1|]; pose proof (zlength_nonneg t); lia.
Qed.

Lemma directory_chars hint :
  does_contain_invalid_characters (H := Path) hint = false ->
  does_contain_invalid_characters (H := Path) (directory hint) = false.
Proof.
  intros Hc. unfold directory. destruct (last_is_separator hint) eqn:E; [|done].
  destruct hint as [|c t _] using rev_ind; [done|].
  rewrite length_app. cbn [length]. rewrite Nat.add_sub, take_app_length.
  rewrite invalid_characters_app in Hc. apply orb_false_elim in Hc as [Hc _]. by case_decide.
Qed.

(** Names with something around them are neither empty nor made of dots only. *)
Lemma wrapped_valid a b : valid (H0 := FileName) a -> valid (H0 := FileName) b ->
  valid (H0 := FileName) (a ++ b).
Proof.
  intros [Hac Hai] [Hbc Hbi]. split; [by rewrite invalid_characters_app, Hac|]. cbn in *.
  apply bool_decide_eq_false in Hai, Hbi. apply bool_decide_eq_false. intros Hx. apply Hai.
  destruct a as [|c a]; [by left|]. destruct b as [|d b]; [exfalso; apply Hbi; by left|].
  destruct Hx as [Hx|[Hx|Hx]]; [done| |].
  - exfalso. injection Hx as _ Hx. by destruct a.
  - injection Hx as -> Hx. destruct a as [|c' a]; [by right; left|]. exfalso.
    injection Hx as _ Hx. by destruct a.
Qed.

(** Stripping on names that are shorter than their capacity. *)
Lemma strip_prefix_name s b rest bytes :
  repr s b rest -> 0 < zlength rest -> zlength bytes <= 123 ->
  exists r s' b' rest', S.strip_prefix (H0 := FileName) s bytes = Ret (r, s') /\ repr s' b' rest' /\ 0 < zlength rest' /\
    match r with
    | Ok true => b = bytes ++ b' /\ is_invalid_content (SemanticKind := FileName) b' = false
    | Ok false => ~ exists t, b = bytes ++ t
    | Err _ => exists t, b = bytes ++ t /\ is_invalid_content (SemanticKind := FileName) t = true
    end.
Proof.
  intros Hr Hpos Hb. unfold S.strip_prefix.
  destruct (strip_prefix_ok s b rest bytes Hr Hpos) as (r & t & rest' & b' & E & Hr' & Ec & Hres); [lia|].
  rewrite E. checked. destruct r; cbn [negb].
  - rewrite (repr_bytes _ _ _ Hr'). destruct (is_invalid_content b') eqn:Econt.
    + pose proof (message_buffer_ok bytes Hb). destruct (message_buffer bytes); [|done].
      eexists _, s, b, rest. split_and!; [done..|]. by exists b'.
    + eexists _, t, b', rest'. checked. split_and!; try done. subst b.
      pose proof (repr_capacity _ _ _ Hr). pose proof (repr_capacity _ _ _ Hr'). rewrite zlength_app in *.
      pose proof (zlength_nonneg bytes). lia.
  - destruct Hres as [-> Hno]. eexists _, s, b, rest. by split_and!.
Qed.

Lemma strip_suffix_name s b rest bytes :
  repr s b rest -> 0 < zlength rest -> zlength bytes <= 123 ->
  exists r s' b' rest', S.strip_suffix (H0 := FileName) s bytes = Ret (r, s') /\ repr s' b' rest' /\
    match r with
    | Ok true => b = b' ++ bytes /\ is_invalid_content (SemanticKind := FileName) b' = false
    | Ok false => ~ exists t, b = t ++ bytes
    | Err _ => exists t, b = t ++ bytes /\ is_invalid_content (SemanticKind := FileName) t = true
    end.
Proof.
  intros Hr Hpos Hb. unfold S.strip_suffix.
  destruct (strip_suffix_ok s b rest bytes Hr Hpos) as (r & t & rest' & b' & E & Hr' & Ec & Hres); [lia|].
  rewrite E. checked. destruct r; cbn [negb].
  - rewrite (repr_bytes _ _ _ Hr'). destruct (is_invalid_content b') eqn:Econt.
    + pose proof (message_buffer_ok bytes Hb). destruct (message_buffer bytes); [|done].
      eexists _, s, b, rest. split_and!; [done..|]. by exists b'.
    + eexists _, t, b', rest'. checked. by split_and!.
  - destruct Hres as [-> Hno]. eexists _, s, b, rest. by split_and!.
Qed.

(** The behaviour of [extract_name_from_file] on every name. *)
Lemma extract_name_from_file_ok cfg hint hrest s b rest :
  cfg_ok cfg hint hrest -> repr s b rest -> 0 < zlength rest ->
  match extract_name_from_file cfg s with
  | Ret (Some n) => b = full_name cfg (as_bytes n) /\
      is_invalid_content (SemanticKind := FileName) (as_bytes n) = false
  | Ret None => forall n, b <> full_name cfg n
  | Panic => exists t, b = cfg.(prefix) ++ t /\
      (is_invalid_content (SemanticKind := FileName) t = true \/
       exists n, t = n ++ cfg.(suffix) /\ is_invalid_content (SemanticKind := FileName) n = true)
  end.
Proof.
  intros [_ _ Hpl Hsl _ _ _] Hr Hpos. unfold extract_name_from_file, full_name.
  destruct (strip_prefix_name s b rest cfg.(prefix) Hr Hpos Hpl) as (r & s1 & b1 & r1 & -> & Hr1 & Hpos1 & Hres).
  cbn [outcome_bind]. destruct r as [[]|].
  - destruct Hres as [-> _].
    destruct (strip_suffix_name s1 b1 r1 cfg.(suffix) Hr1 Hpos1 Hsl) as (r & s2 & b2 & r2 & -> & Hr2 & Hres).
    cbn [outcome_bind]. destruct r as [[]|].
    + destruct Hres as [-> Hi]. by rewrite (repr_bytes _ _ _ Hr2).
    + intros n E. apply app_inv_head in E. apply Hres. eauto.
    + destruct Hres as (t & -> & Hi). eexists. split; [done|]. right. eauto.
  - intros n E. apply Hres. eauto.
  - destruct Hres as (t & -> & Hi). eauto.
Qed.

(** ** Properties *)

(** C31: A valid name maps to a valid path in the directory of the path hint, whose file name
    is the name between prefix and suffix, and taking that path apart under the same
    configuration gives the name back.  Conditions: prefix and suffix are names of at most
    123 bytes, the file name is shorter than 255 bytes, hint, separator and file name
    together have at most 4096 bytes, and the hint is a path that does not end in two
    separators. *)
Theorem named_concept_path_roundtrip cfg hint rest memory file_memory value :
  cfg_ok cfg hint rest -> valid (H0 := FileName) value ->
  zlength memory = PATH_LENGTH -> zlength file_memory = FILENAME_LENGTH ->
  zlength hint + 1 + zlength (full_name cfg value) <= PATH_LENGTH ->
  zlength (full_name cfg value) < FILENAME_LENGTH ->
  (forall t, hint <> t ++ [PATH_SEPARATOR; PATH_SEPARATOR]) ->
  exists s n, path_for cfg memory value = Ret s /\
    valid (H0 := FilePath) (as_bytes s) /\ path (as_bytes s) = directory hint /\
    file_name (as_bytes s) = full_name cfg value /\
    extract_name_from_path cfg memory file_memory s = Ret (Some n) /\ as_bytes n = value.
Proof.
  intros Hcfg Hv Hm Hfm Hfit Hname Hhint. pose proof Hcfg as [Hp Hsf _ _ Hr _ [Hh _]].
  set (f := full_name cfg value) in *.
  assert (Hvs : valid (H0 := FileName) (value ++ cfg.(suffix))) by (by apply wrapped_valid).
  assert (Hf : valid (H0 := FileName) f) by (by apply wrapped_valid).
  destruct (file_name_chars f Hf) as (Hfc & Hsep & Hne).
  assert (Hj : zlength (joined hint f) <= PATH_LENGTH).
  { unfold joined. rewrite zlength_app. destruct (_ || _); rewrite ?zlength_app; [lia|].
    change (zlength [PATH_SEPARATOR]) with 1. lia. }
  destruct (path_for_ok cfg hint rest memory value Hcfg Hv Hm Hj) as (s & rest' & Es & Hrs). fold f in Hrs.
  pose proof (repr_bytes _ _ _ Hrs) as Eb. destruct (joined_parts hint f Hsep) as [Efn Epa].
  assert (Hvp : valid (H0 := FilePath) (joined hint f)).
  { split; [by apply (joined_chars hint f)|]. destruct (joined_split hint f) as (dir & -> & Hlast & _).
    apply file_path_content; [apply Hf|done|done]. }
  exists s. unfold extract_name_from_path, comparision. rewrite Es, Eb, Epa, Efn, (repr_bytes _ _ _ Hr).
  pose proof (zlength_nonneg f). pose proof (zlength_nonneg hint). pose proof (directory_shorter hint).
  destruct (new_normalized_ok memory hint Hm ltac:(lia) Hh) as (l & -> & El).
  destruct (new_normalized_ok memory (directory hint) Hm ltac:(lia) (directory_chars hint Hh)) as (r & -> & Er).
  cbn [outcome_bind]. rewrite El, Er, normalize_directory, bool_decide_eq_true_2 by done. cbn [negb].
  destruct (new_unchecked_repr FILENAME_LENGTH file_memory f) as (fs & frest & Efs & Hrf & Ecf); [done|done|lia|].
  pose proof (repr_capacity _ _ _ Hrf) as Ecap. rewrite Ecf in Ecap.
  pose proof (extract_name_from_file_ok cfg hint rest fs f frest Hcfg Hrf ltac:(lia)) as Hex.
  rewrite Efs. cbn [outcome_bind].
  destruct (extract_name_from_file cfg fs) as [[n|]|].
  - exists n. split_and!; try done. destruct Hex as [E _]. unfold f, full_name in E.
    apply app_inv_head in E. by apply app_inv_tail in E.
  - exfalso. by apply (Hex value).
  - exfalso. destruct Hex as (t & E & Ht). unfold f, full_name in E. apply app_inv_head in E. subst t.
    destruct Hvs as [_ Hvs]. destruct Hv as [_ Hv]. destruct Ht as [Ht|(n & E & Ht)]; [congruence|].
    apply app_inv_tail in E. subst n. congruence.
Qed.

(** [extract_name_from_file] on the name of any file: it yields a name exactly when the
    file name is that name with the prefix and the suffix around it; files that do not
    belong to the concept give [None]; but a file whose name is the prefix followed by
    something that is not a name of its own, such as the bare prefix, makes the process
    panic, so that one such file in the directory breaks every listing. *)
Theorem named_concept_extract cfg hint hrest s b rest :
  cfg_ok cfg hint hrest -> repr s b rest -> 0 < zlength rest ->
  match extract_name_from_file cfg s with
  | Ret (Some n) => b = full_name cfg (as_bytes n) /\
      is_invalid_content (SemanticKind := FileName) (as_bytes n) = false
  | Ret None => forall n, b <> full_name cfg n
  | Panic => exists t, b = cfg.(prefix) ++ t /\
      (is_invalid_content (SemanticKind := FileName) t = true \/
       exists n, t = n ++ cfg.(suffix) /\ is_invalid_content (SemanticKind := FileName) n = true)
  end /\
  (b = cfg.(prefix) -> extract_name_from_file cfg s = Panic).
Proof.
  intros Hcfg Hr Hpos. pose proof (extract_name_from_file_ok cfg hint hrest s b rest Hcfg Hr Hpos) as Hex.
  split; [done|]. intros ->. unfold extract_name_from_file.
  destruct (strip_prefix_name s _ rest cfg.(prefix) Hr Hpos (ok_prefix_len _ _ _ Hcfg))
    as (r & s1 & b1 & r1 & -> & Hr1 & Hpos1 & Hres).
  cbn [outcome_bind]. destruct r as [[]|]; [exfalso..|done].
  - destruct Hres as [E Hi]. rewrite <-(app_nil_r cfg.(prefix)) in E at 1. apply app_inv_head in E. by subst b1.
  - apply Hres. exists []. by rewrite app_nil_r.
Qed.

End operations.

(** The hint "/tmp", the prefix "i_", the suffix ".s" and the name "a". *)
Lemma example_path : exists cfg s,
  @path_for dev cfg (replicate 4096 0) [97] = Ret s /\ as_bytes s = [47; 116; 109; 112; 47; 105; 95; 97; 46; 115].
Proof.
  destruct (new_unchecked_repr PATH_LENGTH (replicate 4096 0) [47; 116; 109; 112])
    as (h & rest & _ & Hr & Ec); [done|reflexivity|done|].
  pose (cfg := {| prefix := [105; 95]; suffix := [46; 115]; path_hint := h |}).
  destruct (@path_for_ok dev cfg [47; 116; 109; 112] rest (replicate 4096 0) [97]) as (s & rest' & E & Hs);
    [split; done|done|reflexivity|done|].
  exists cfg, s. split; [exact E|]. by rewrite (repr_bytes _ _ _ Hs).
Qed.

Lemma named_concept_path_roundtrip_witness : exists cfg s n,
  @path_for dev cfg (replicate 4096 0) [97] = Ret s /\
  @extract_name_from_path dev cfg (replicate 4096 0) (replicate 255 0) s = Ret (Some n) /\ as_bytes n = [97].
Proof.
  destruct (new_unchecked_repr PATH_LENGTH (replicate 4096 0) [47; 116; 109; 112])
    as (h & rest & _ & Hr & Ec); [done|reflexivity|done|].
  pose (cfg := {| prefix := [105; 95]; suffix := [46; 115]; path_hint := h |}).
  destruct (@named_concept_path_roundtrip dev cfg [47; 116; 109; 112] rest (replicate 4096 0) (replicate 255 0) [97])
    as (s & n & E1 & _ & _ & _ & E2 & En).
  - split; done.
  - done.
  - reflexivity.
  - reflexivity.
  - done.
  - done.
  - intros t E. apply (f_equal last) in E. change [PATH_SEPARATOR; PATH_SEPARATOR] with ([PATH_SEPARATOR] ++ [PATH_SEPARATOR]) in E.
    rewrite app_assoc, last_snoc in E. discriminate E.
  - exists cfg, s, n. split; [exact E1|]. split; [exact E2|exact En].
Defined.

Lemma named_concept_extract_witness : exists cfg s,
  as_bytes s = cfg.(prefix) /\ @extract_name_from_file dev cfg s = Panic.
Proof.
  destruct (new_unchecked_repr PATH_LENGTH (replicate 4096 0) [47])
    as (h & hrest & _ & Hh & Ec); [done|reflexivity|done|].
  destruct (new_unchecked_repr FILENAME_LENGTH (replicate 255 0) [105; 95])
    as (s & rest & _ & Hr & Es); [done|reflexivity|done|].
  pose (cfg := {| prefix := [105; 95]; suffix := [46; 115]; path_hint := h |}).
  exists cfg, s. split; [exact (repr_bytes _ _ _ Hr)|].
  pose proof (repr_capacity _ _ _ Hr) as Hc. rewrite Es in Hc. change (zlength [105; 95]) with 2 in Hc.
  unfold FILENAME_LENGTH in Hc.
  refine (proj2 (@named_concept_extract dev cfg [47] hrest s [105; 95] rest _ Hr _) eq_refl); [split; done|lia].
Defined.

End NamedConcept.
