(* ===== verification/Posix.v ===== *)
(** * What the operating system provides

    The files of [iceoryx2_bb/posix] wrap system calls.  The calls themselves are not
    part of the repository: they are the class [Posix], one function from the state of the
    system to an answer and a new state, and [PosixLaws] states what POSIX documents of
    the calls, as a relation ([permits]) on an abstract view of the file system: names,
    nodes with mode and data, the descriptors of every process, the names of shared memory
    objects and what every process has mapped.  A call may fail at any time with any error and
    without an effect ([faulty]): the view has no users, limits, interrupts or parent
    directories that would explain such an error.  Without [faulty] the system is one in
    which they never matter: the directories of all paths exist, the permissions suffice,
    no limit is reached and nothing is interrupted, so that calls fail only for a reason
    that the view shows.  Accesses to mapped memory are calls as well: an access
    outside of a mapping, or of memory the object behind it does not have, fails.

    Wrappers are programs: trees of system calls with continuations, which run alone
    ([run]) or interleave with other programs at every call.  [wp] is the weakest
    precondition of a program under all permitted answers.

    Paths are compared by their bytes: links and different spellings of one path are not
    represented. *)

From S2P Require Import Prelude.

Module Posix.

(** ** Calls *)

(** [Unlisted] are the errors that no wrapper distinguishes. *)
Inductive Errno :=
| EACCES | EAGAIN | EBADF | EBUSY | EEXIST | EFBIG | EINTR | EINVAL | EIO | EISDIR | ELOOP | EMFILE
| EMLINK | ENAMETOOLONG | ENFILE | ENOBUFS | ENOENT | ENOMEM | ENOSPC | ENOTDIR | ENOTEMPTY
| ENXIO | EOVERFLOW | EPERM | EROFS | ESPIPE | Unlisted (v : Z).

#[export] Instance errno_eq_decision : EqDecision Errno.
Proof. solve_decision. Defined.

(** The flags of [open]; a disjunction of flags is a list. *)
Inductive oflag := O_RDONLY | O_WRONLY | O_RDWR | O_CREAT | O_EXCL.

#[export] Instance oflag_eq_decision : EqDecision oflag.
Proof. solve_decision. Defined.

(** The bits of a mode. *)
(* src/iceoryx2_pal/posix/src/windows/constants.rs:174-174 S_IFMT *)
Definition S_IFMT : Z := 0xF000.
(* src/iceoryx2_pal/posix/src/windows/constants.rs:179-179 S_IFREG *)
Definition S_IFREG : Z := 0x8000.
(* src/iceoryx2_pal/posix/src/windows/constants.rs:177-177 S_IFDIR *)
Definition S_IFDIR : Z := 0x4000.

(** The members of [struct stat] that the wrappers read; of the times only the seconds. *)
Record stat_t := {
  st_mode : Z; st_size : Z; st_uid : Z; st_gid : Z; st_atime : Z; st_mtime : Z; st_ctime : Z; st_rdev : Z;
}.

(** The protection of mapped memory; [PROT_NONE] is the empty list. *)
Inductive protflag := PROT_READ | PROT_WRITE.

#[export] Instance protflag_eq_decision : EqDecision protflag.
Proof. solve_decision. Defined.

(** [Load] and [Store] access the bytes at [address] through the mapping at [base]. *)
Inductive request :=
| Open (path : list Z) (flags : list oflag)
| OpenWithMode (path : list Z) (flags : list oflag) (mode : Z)
| FcntlGetfd (fd : Z)
| Read (fd : Z) (nbyte : Z)
| Write (fd : Z) (buf : list Z)
| Lseek (fd : Z) (offset : Z)
| Fstat (fd : Z)
| Fchmod (fd : Z) (mode : Z)
| Fchown (fd : Z) (uid gid : Z)
| Ftruncate (fd : Z) (size : Z)
| Fsync (fd : Z)
| Close (fd : Z)
| Access (path : list Z)
| Remove (path : list Z)
| Stat (path : list Z)
| Mkdir (path : list Z) (mode : Z)
| Rmdir (path : list Z)
| Opendir (path : list Z)
| Closedir (fd : Z)
| Scandir (path : list Z)
| ShmOpen (object : list Z) (flags : list oflag) (mode : Z)
| ShmUnlink (object : list Z)
| ShmList
| Mmap (len : Z) (prot : list protflag) (fd : Z)
| Munmap (base : Z) (len : Z)
| Mlock (base : Z) (len : Z)
| Munlock (base : Z) (len : Z)
| Load (base : Z) (address : Z) (nbyte : Z)
| Store (base : Z) (address : Z) (buf : list Z).

(** What a call that succeeds returns: descriptors and numbers of bytes, the bytes that
    were read, attributes, names in a directory or of objects, or an address. *)
Definition answer (q : request) : Type :=
  match q with
  | Read _ _ | Load _ _ _ => list Z
  | Fstat _ | Stat _ => stat_t
  | Scandir _ | ShmList => list (list Z)
  | _ => Z
  end.

(** [call pid q w]: the process [pid] performs [q] in the state [w] of the system. *)
Class Posix (W : Type) := {
  call : nat -> forall q, W -> Result (answer q) Errno * W;
}.

(** ** The abstract file system *)

Record node := { mode : Z; data : list Z; uid : Z; gid : Z; times : Z * Z * Z; device : Z }.

Record descriptor := { target : nat; offset : Z; readable : bool; writable : bool }.

(** Memory of a process that shows the first [extent] bytes of a node. *)
Record mapping := { source : nat; extent : Z; loadable : bool; storable : bool }.

Record kernel := {
  names : gmap (list Z) nat;
  nodes : gmap nat node;
  descriptors : gmap (nat * Z) descriptor;
  objects : gmap (list Z) nat;
  mappings : gmap (nat * Z) mapping;
}.

Definition set_names (k : kernel) m : kernel :=
  {| names := m; nodes := k.(nodes); descriptors := k.(descriptors); objects := k.(objects); mappings := k.(mappings) |}.
Definition set_nodes (k : kernel) m : kernel :=
  {| names := k.(names); nodes := m; descriptors := k.(descriptors); objects := k.(objects); mappings := k.(mappings) |}.
Definition set_node (k : kernel) (i : nat) (n : node) : kernel := set_nodes k (<[i := n]> k.(nodes)).
Definition set_descriptors (k : kernel) m : kernel :=
  {| names := k.(names); nodes := k.(nodes); descriptors := m; objects := k.(objects); mappings := k.(mappings) |}.
Definition set_objects (k : kernel) m : kernel :=
  {| names := k.(names); nodes := k.(nodes); descriptors := k.(descriptors); objects := m; mappings := k.(mappings) |}.
Definition set_mappings (k : kernel) m : kernel :=
  {| names := k.(names); nodes := k.(nodes); descriptors := k.(descriptors); objects := k.(objects); mappings := m |}.

Definition no_files : kernel := {| names := ∅; nodes := ∅; descriptors := ∅; objects := ∅; mappings := ∅ |}.

Definition set_mode (n : node) (m : Z) : node :=
  {| mode := m; data := n.(data); uid := n.(uid); gid := n.(gid); times := n.(times); device := n.(device) |}.
Definition set_data (n : node) (l : list Z) : node :=
  {| mode := n.(mode); data := l; uid := n.(uid); gid := n.(gid); times := n.(times); device := n.(device) |}.
Definition set_owner (n : node) (u g : Z) : node :=
  {| mode := n.(mode); data := n.(data); uid := u; gid := g; times := n.(times); device := n.(device) |}.

Definition seek (d : descriptor) (o : Z) : descriptor :=
  {| target := d.(target); offset := o; readable := d.(readable); writable := d.(writable) |}.

Definition attributes (n : node) : stat_t :=
  {| st_mode := n.(mode); st_size := zlength n.(data); st_uid := n.(uid); st_gid := n.(gid);
     st_atime := n.(times).1.1; st_mtime := n.(times).1.2; st_ctime := n.(times).2; st_rdev := n.(device) |}.

Definition opened (i : nat) (flags : list oflag) : descriptor :=
  {| target := i; offset := 0;
     readable := bool_decide (O_RDWR ∈ flags \/ O_RDONLY ∈ flags);
     writable := bool_decide (O_RDWR ∈ flags \/ O_WRONLY ∈ flags) |}.

Definition mapped (i : nat) (len : Z) (prot : list protflag) : mapping :=
  {| source := i; extent := len; loadable := bool_decide (PROT_READ ∈ prot); storable := bool_decide (PROT_WRITE ∈ prot) |}.

(** The first [n] elements; a list that is shorter is continued with zeros. *)
Definition resize (l : list Z) (n : Z) : list Z :=
  take (Z.to_nat n) l ++ replicate (Z.to_nat n - length l) 0.

(** [l] with [buf] written at offset [o]. *)
Definition splice (l : list Z) (o : Z) (buf : list Z) : list Z :=
  resize l o ++ buf ++ drop (Z.to_nat (o + zlength buf)) l.

(** The names of the entries of the directory [p]. *)
Definition slash : Z := 47.
Definition is_entry (k : kernel) (p e : list Z) : Prop :=
  slash ∉ e /\ e <> [] /\ is_Some (k.(names) !! (p ++ (slash :: e))).

(** ** What POSIX documents *)

Section documented.
Context (umask : nat -> Z) (pid : nat).

(** A new node; [create_node] is a file or directory, [create_object] shared memory. *)
Definition new_node (m : Z) (n : node) : Prop := n.(mode) = m /\ n.(data) = [].

Definition create_node (k : kernel) (p : list Z) (i : nat) (m : Z) : kernel -> Prop := fun k' =>
  exists n, new_node m n /\ k' = set_names (set_node k i n) (<[p := i]> k.(names)).

Definition create_object (k : kernel) (p : list Z) (i : nat) (m : Z) : kernel -> Prop := fun k' =>
  exists n, new_node m n /\ k' = set_objects (set_node k i n) (<[p := i]> k.(objects)).

(** The node behind [nbyte] bytes at [address], when the process may access them. *)
Definition accessed (k : kernel) (base address nbyte : Z) (allowed : mapping -> bool) : option (nat * node) :=
  m ← k.(mappings) !! (pid, base);
  n ← k.(nodes) !! m.(source);
  if allowed m && (0 <=? nbyte) && (base <=? address) && (address + nbyte <=? base + (m.(extent) `min` zlength n.(data)))
  then Some (m.(source), n) else None.

Definition open_descriptor (k : kernel) (fd : Z) (i : nat) (flags : list oflag) : kernel :=
  set_descriptors k (<[(pid, fd) := opened i flags]> k.(descriptors)).

Definition unused (k : kernel) (fd : Z) : Prop := 0 <= fd /\ k.(descriptors) !! (pid, fd) = None.

(** The effect of a call that succeeds. *)
Definition performs (faulty : bool) (k : kernel) (q : request) : answer q -> kernel -> Prop :=
  match q with
  | Open p flags => fun fd k' => exists i,
      k.(names) !! p = Some i /\ is_Some (k.(nodes) !! i) /\ unused k fd /\ k' = open_descriptor k fd i flags
  | OpenWithMode p flags m => fun fd k' =>
      unused k fd /\
      match k.(names) !! p with
      | Some i => O_EXCL ∉ flags /\ is_Some (k.(nodes) !! i) /\ k' = open_descriptor k fd i flags
      | None => O_CREAT ∈ flags /\ exists i k1, k.(nodes) !! i = None /\
          create_node k p i (Z.lor S_IFREG (Z.ldiff m (umask pid))) k1 /\ k' = open_descriptor k1 fd i flags
      end
  | FcntlGetfd fd => fun _ k' => is_Some (k.(descriptors) !! (pid, fd)) /\ k' = k
  | Read fd nbyte => fun l k' => exists d n,
      k.(descriptors) !! (pid, fd) = Some d /\ k.(nodes) !! d.(target) = Some n /\ d.(readable) = true /\
      zlength l <= nbyte /\ l `prefix_of` drop (Z.to_nat d.(offset)) n.(data) /\
      (faulty = false -> zlength l = nbyte `min` zlength (drop (Z.to_nat d.(offset)) n.(data))) /\
      k' = set_descriptors k (<[(pid, fd) := seek d (d.(offset) + zlength l)]> k.(descriptors))
  | Write fd buf => fun c k' => exists d n,
      k.(descriptors) !! (pid, fd) = Some d /\ k.(nodes) !! d.(target) = Some n /\ d.(writable) = true /\
      0 <= c <= zlength buf /\ (faulty = false -> c = zlength buf) /\
      k' = set_node (set_descriptors k (<[(pid, fd) := seek d (d.(offset) + c)]> k.(descriptors)))
             d.(target) (set_data n (splice n.(data) d.(offset) (take (Z.to_nat c) buf)))
  | Lseek fd o => fun r k' => exists d,
      k.(descriptors) !! (pid, fd) = Some d /\ r = o /\ 0 <= o /\
      k' = set_descriptors k (<[(pid, fd) := seek d o]> k.(descriptors))
  | Fstat fd => fun st k' => exists d n,
      k.(descriptors) !! (pid, fd) = Some d /\ k.(nodes) !! d.(target) = Some n /\ st = attributes n /\ k' = k
  | Fchmod fd m => fun _ k' => exists d n,
      k.(descriptors) !! (pid, fd) = Some d /\ k.(nodes) !! d.(target) = Some n /\
      k' = set_node k d.(target) (set_mode n (Z.lor (Z.land n.(mode) S_IFMT) m))
  | Fchown fd u g => fun _ k' => exists d n,
      k.(descriptors) !! (pid, fd) = Some d /\ k.(nodes) !! d.(target) = Some n /\
      k' = set_node k d.(target) (set_owner n u g)
  | Ftruncate fd size => fun _ k' => exists d n,
      k.(descriptors) !! (pid, fd) = Some d /\ k.(nodes) !! d.(target) = Some n /\ d.(writable) = true /\ 0 <= size /\
      k' = set_node k d.(target) (set_data n (resize n.(data) size))
  | Fsync fd => fun _ k' => is_Some (k.(descriptors) !! (pid, fd)) /\ k' = k
  | Close fd | Closedir fd => fun _ k' =>
      is_Some (k.(descriptors) !! (pid, fd)) /\ k' = set_descriptors k (delete (pid, fd) k.(descriptors))
  | Access p => fun _ k' => is_Some (k.(names) !! p) /\ k' = k
  | Remove p => fun _ k' => is_Some (k.(names) !! p) /\ k' = set_names k (delete p k.(names))
  | Stat p => fun st k' => exists i n,
      k.(names) !! p = Some i /\ k.(nodes) !! i = Some n /\ st = attributes n /\ k' = k
  | Mkdir p m => fun _ k' => k.(names) !! p = None /\ exists i, k.(nodes) !! i = None /\
      create_node k p i (Z.lor S_IFDIR (Z.ldiff m (umask pid))) k'
  | Rmdir p => fun _ k' => is_Some (k.(names) !! p) /\ k' = set_names k (delete p k.(names))
  | Opendir p => fun fd k' => exists i,
      k.(names) !! p = Some i /\ is_Some (k.(nodes) !! i) /\ unused k fd /\ k' = open_descriptor k fd i [O_RDONLY]
  | Scandir p => fun l k' => is_Some (k.(names) !! p) /\ NoDup l /\
      (forall e, e ∈ l <-> is_entry k p e \/ e = [46] \/ e = [46; 46]) /\ k' = k
  | ShmOpen p flags m => fun fd k' =>
      unused k fd /\
      match k.(objects) !! p with
      | Some i => O_EXCL ∉ flags /\ is_Some (k.(nodes) !! i) /\ k' = open_descriptor k fd i flags
      | None => O_CREAT ∈ flags /\ exists i k1, k.(nodes) !! i = None /\
          create_object k p i (Z.lor S_IFREG (Z.ldiff m (umask pid))) k1 /\ k' = open_descriptor k1 fd i flags
      end
  | ShmUnlink p => fun _ k' => is_Some (k.(objects) !! p) /\ k' = set_objects k (delete p k.(objects))
  | ShmList => fun l k' => NoDup l /\ (forall e, e ∈ l <-> is_Some (k.(objects) !! (slash :: e))) /\ k' = k
  | Mmap len prot fd => fun base k' => exists d,
      k.(descriptors) !! (pid, fd) = Some d /\ is_Some (k.(nodes) !! d.(target)) /\ d.(readable) = true /\
      (PROT_WRITE ∈ prot -> d.(writable) = true) /\ 0 < len /\ 0 < base /\ base + len < 2 ^ 64 /\
      k.(mappings) !! (pid, base) = None /\
      k' = set_mappings k (<[(pid, base) := mapped d.(target) len prot]> k.(mappings))
  | Munmap base len => fun _ k' => exists m,
      k.(mappings) !! (pid, base) = Some m /\ m.(extent) = len /\ k' = set_mappings k (delete (pid, base) k.(mappings))
  | Mlock base len | Munlock base len => fun _ k' => exists m,
      k.(mappings) !! (pid, base) = Some m /\ m.(extent) = len /\ k' = k
  | Load base address nbyte => fun l k' => exists i n,
      accessed k base address nbyte loadable = Some (i, n) /\
      l = take (Z.to_nat nbyte) (drop (Z.to_nat (address - base)) n.(data)) /\ k' = k
  | Store base address buf => fun _ k' => exists i n,
      accessed k base address (zlength buf) storable = Some (i, n) /\
      k' = set_node k i (set_data n (splice n.(data) (address - base) buf))
  end.

(** The reason for an error, where the wrappers rely on it.  [faulty = true] stands for
    every reason outside of the view: a missing parent directory or missing permissions,
    an exhausted resource, an interrupt, a broken device. *)
Definition justified (faulty : bool) (k : kernel) (q : request) (e : Errno) : Prop :=
  match q with
  | Open p _ | Access p | Remove p | Stat p | Opendir p | Scandir p | Rmdir p =>
      match e with ENOENT => k.(names) !! p = None | _ => faulty = true end
  | OpenWithMode p flags _ =>
      match e with
      | EEXIST => O_EXCL ∈ flags /\ is_Some (k.(names) !! p)
      | ENOENT => (O_CREAT ∉ flags /\ k.(names) !! p = None) \/ faulty = true
      | _ => faulty = true
      end
  | Mkdir p _ =>
      match e with EEXIST => is_Some (k.(names) !! p) | _ => faulty = true end
  | Read fd nbyte =>
      match e with
      | EBADF => forall d, k.(descriptors) !! (pid, fd) = Some d -> d.(readable) = false
      | EINVAL => nbyte < 0 \/ faulty = true
      | _ => faulty = true
      end
  | Write fd _ =>
      match e with
      | EBADF => forall d, k.(descriptors) !! (pid, fd) = Some d -> d.(writable) = false
      | _ => faulty = true
      end
  | Lseek fd o =>
      match e with
      | EBADF => k.(descriptors) !! (pid, fd) = None
      | EINVAL => o < 0 \/ faulty = true
      | _ => faulty = true
      end
  | Ftruncate fd n =>
      match e with
      | EBADF => forall d, k.(descriptors) !! (pid, fd) = Some d -> d.(writable) = false
      | EINVAL => n < 0 \/ faulty = true
      | _ => faulty = true
      end
  | FcntlGetfd fd =>
      match e with EBADF => k.(descriptors) !! (pid, fd) = None | _ => False end
  | Fstat fd | Fchmod fd _ | Fchown fd _ _ | Fsync fd =>
      match e with EBADF => k.(descriptors) !! (pid, fd) = None | _ => faulty = true end
  | Close fd =>
      match e with
      | EBADF => k.(descriptors) !! (pid, fd) = None
      | EINTR | EIO => faulty = true
      | _ => False
      end
  | Closedir fd =>
      match e with
      | EBADF => k.(descriptors) !! (pid, fd) = None
      | EINTR => faulty = true
      | _ => False
      end
  | ShmOpen p flags _ =>
      match e with
      | EEXIST => O_EXCL ∈ flags /\ is_Some (k.(objects) !! p)
      | ENOENT => O_CREAT ∉ flags /\ k.(objects) !! p = None
      | _ => faulty = true
      end
  | ShmUnlink p =>
      match e with ENOENT => k.(objects) !! p = None | _ => faulty = true end
  | ShmList => False
  | Mmap len prot fd =>
      match e with
      | EBADF => k.(descriptors) !! (pid, fd) = None
      | EACCES => forall d, k.(descriptors) !! (pid, fd) = Some d ->
          d.(readable) = false \/ (PROT_WRITE ∈ prot /\ d.(writable) = false)
      | EINVAL => len <= 0 \/ faulty = true
      | ENOMEM => faulty = true \/ 2 ^ 63 <= len \/ exists base, 2 ^ 63 <= base /\ is_Some (k.(mappings) !! (pid, base))
      | _ => faulty = true
      end
  | Munmap base len =>
      match e with EINVAL => forall m, k.(mappings) !! (pid, base) = Some m -> m.(extent) <> len | _ => False end
  | Mlock base len =>
      match e with
      | ENOMEM => faulty = true \/ forall m, k.(mappings) !! (pid, base) = Some m -> m.(extent) <> len
      | _ => faulty = true
      end
  | Munlock base len =>
      match e with ENOMEM => forall m, k.(mappings) !! (pid, base) = Some m -> m.(extent) <> len | _ => False end
  | Load base address nbyte => accessed k base address nbyte loadable = None
  | Store base address buf => accessed k base address (zlength buf) storable = None
  end.

(** A call either has its effect or fails without one. *)
Definition permits (faulty : bool) (k : kernel) (q : request) (r : Result (answer q) Errno) (k' : kernel) : Prop :=
  match r with
  | Ok a => performs faulty k q a k'
  | Err e => justified faulty k q e /\ k' = k
  end.

End documented.

(** A reliable answer is also one of a system that may fail. *)
Lemma permits_faulty umask pid k q a k' : permits umask pid false k q a k' -> permits umask pid true k q a k'.
Proof.
  destruct a as [a|e]; cbn.
  - destruct q; try done; cbn.
    + intros (d & n & Hd & Hn & Hr & Hl & Hp & _ & ->). by exists d, n.
    + intros (d & n & Hd & Hn & Hw & Hc & _ & ->). by exists d, n.
  - intros [Hj ->]. split; [|done]. destruct q, e; cbn in *; (done || destruct Hj; auto; done).
Qed.

(** Names and descriptors refer to existing nodes. *)
Record wf (k : kernel) : Prop := {
  wf_names p i : k.(names) !! p = Some i -> is_Some (k.(nodes) !! i);
  wf_descriptors x d : k.(descriptors) !! x = Some d -> is_Some (k.(nodes) !! d.(target));
  wf_objects p i : k.(objects) !! p = Some i -> is_Some (k.(nodes) !! i);
  wf_mappings x m : k.(mappings) !! x = Some m -> is_Some (k.(nodes) !! m.(source));
}.

Lemma wf_set_descriptors k m : wf k -> (forall x d, m !! x = Some d -> is_Some (k.(nodes) !! d.(target))) ->
  wf (set_descriptors k m).
Proof. intros [] ?. by split. Qed.

Lemma wf_seek k x d o : wf k -> k.(descriptors) !! x = Some d ->
  wf (set_descriptors k (<[x := seek d o]> k.(descriptors))).
Proof.
  intros Hk Hd. apply wf_set_descriptors; [done|]. intros y d' Hy. apply lookup_insert_Some in Hy as [[_ <-]|[_ Hy]].
  - by apply (wf_descriptors _ Hk x d).
  - by apply (wf_descriptors _ Hk y).
Qed.

Lemma wf_set_node k i n : wf k -> wf (set_node k i n).
Proof. intros []. split; cbn; intros x y Hx; rewrite lookup_insert_is_Some'; right; eauto. Qed.

Lemma wf_name k p i : wf k -> is_Some (k.(nodes) !! i) -> wf (set_names k (<[p := i]> k.(names))).
Proof. intros [] Hi. split; cbn; try done. intros q j [[_ <-]|[_ Hq]]%lookup_insert_Some; eauto. Qed.

Lemma wf_object k p i : wf k -> is_Some (k.(nodes) !! i) -> wf (set_objects k (<[p := i]> k.(objects))).
Proof. intros [] Hi. split; cbn; try done. intros q j [[_ <-]|[_ Hq]]%lookup_insert_Some; eauto. Qed.

Lemma create_node_wf k p i m k' : wf k -> create_node k p i m k' -> wf k' /\ is_Some (k'.(nodes) !! i).
Proof.
  intros Hk (n & _ & ->). cbn. rewrite lookup_insert_eq. split; [|eauto].
  apply (wf_name (set_node k i n)); [by apply wf_set_node|]. cbn. rewrite lookup_insert_eq. eauto.
Qed.

Lemma create_object_wf k p i m k' : wf k -> create_object k p i m k' -> wf k' /\ is_Some (k'.(nodes) !! i).
Proof.
  intros Hk (n & _ & ->). cbn. rewrite lookup_insert_eq. split; [|eauto].
  apply (wf_object (set_node k i n)); [by apply wf_set_node|]. cbn. rewrite lookup_insert_eq. eauto.
Qed.

Lemma wf_open_descriptor pid k fd i flags : wf k -> is_Some (k.(nodes) !! i) -> wf (open_descriptor pid k fd i flags).
Proof.
  intros Hk Hi. apply wf_set_descriptors; [done|]. intros x d [[_ <-]|[_ Hx]]%lookup_insert_Some; [done|].
  by eapply wf_descriptors.
Qed.

Lemma wf_close k x : wf k -> wf (set_descriptors k (delete x k.(descriptors))).
Proof. intros Hk. apply wf_set_descriptors; [done|]. intros y d [_ Hy]%lookup_delete_Some. by eapply wf_descriptors. Qed.

Lemma wf_remove k p : wf k -> wf (set_names k (delete p k.(names))).
Proof. intros []. split; cbn; try done. intros q i [_ Hq]%lookup_delete_Some. eauto. Qed.

Lemma wf_unlink k p : wf k -> wf (set_objects k (delete p k.(objects))).
Proof. intros []. split; cbn; try done. intros q i [_ Hq]%lookup_delete_Some. eauto. Qed.

Lemma wf_map k x m : wf k -> is_Some (k.(nodes) !! m.(source)) -> wf (set_mappings k (<[x := m]> k.(mappings))).
Proof. intros [] Hm. split; cbn; try done. intros y m' [[_ <-]|[_ Hy]]%lookup_insert_Some; eauto. Qed.

Lemma wf_unmap k x : wf k -> wf (set_mappings k (delete x k.(mappings))).
Proof. intros []. split; cbn; try done. intros y m' [_ Hy]%lookup_delete_Some. eauto. Qed.

(** Calls keep the names and descriptors valid. *)
Lemma permits_wf umask pid faulty k q r k' : wf k -> permits umask pid faulty k q r k' -> wf k'.
Proof.
  intros Hk. destruct r as [a|e]; [|by intros [_ ->]]. destruct q; cbn.
  - intros (i & _ & Hi & _ & ->). by apply wf_open_descriptor.
  - intros [_ Hp]. destruct (k.(names) !! path) as [i|].
    + destruct Hp as (_ & Hi & ->). by apply wf_open_descriptor.
    + destruct Hp as (_ & i & k1 & _ & Hc & ->). by apply wf_open_descriptor; eapply create_node_wf.
  - by intros [_ ->].
  - intros (d & n & Hd & _ & _ & _ & _ & _ & ->). by apply wf_seek.
  - intros (d & n & Hd & _ & _ & _ & _ & ->). by apply wf_set_node, wf_seek.
  - intros (d & Hd & _ & _ & ->). by apply wf_seek.
  - by intros (d & n & _ & _ & _ & ->).
  - intros (d & n & _ & _ & ->). by apply wf_set_node.
  - intros (d & n & _ & _ & ->). by apply wf_set_node.
  - intros (d & n & _ & _ & _ & _ & ->). by apply wf_set_node.
  - by intros [_ ->].
  - intros [_ ->]. by apply wf_close.
  - by intros [_ ->].
  - intros [_ ->]. by apply wf_remove.
  - by intros (i & n & _ & _ & _ & ->).
  - intros (_ & i & _ & Hc). by eapply create_node_wf.
  - intros [_ ->]. by apply wf_remove.
  - intros (i & _ & Hi & _ & ->). by apply wf_open_descriptor.
  - intros [_ ->]. by apply wf_close.
  - by intros (_ & _ & _ & ->).
  - intros [_ Hp]. destruct (k.(objects) !! object) as [i|].
    + destruct Hp as (_ & Hi & ->). by apply wf_open_descriptor.
    + destruct Hp as (_ & i & k1 & _ & Hc & ->). by apply wf_open_descriptor; eapply create_object_wf.
  - intros [_ ->]. by apply wf_unlink.
  - by intros (_ & _ & ->).
  - intros (d & Hd & Hn & _ & _ & _ & _ & _ & _ & ->). by apply wf_map.
  - intros (m & _ & _ & ->). by apply wf_unmap.
  - by intros (m & _ & _ & ->).
  - by intros (m & _ & _ & ->).
  - by intros (i & n & _ & _ & ->).
  - intros (i & n & _ & ->). by apply wf_set_node.
Qed.

Class PosixLaws (umask : nat -> Z) (faulty : bool) (W : Type) `{Posix W} := {
  view : W -> kernel;
  view_wf w : wf (view w);
  call_permitted pid q w :
    permits umask pid faulty (view w) q (call pid q w).1 (view (call pid q w).2);
}.

Definition faulty_laws (umask : nat -> Z) {W} `{PosixLaws umask false W} : PosixLaws umask true W := {|
  view := view; view_wf := view_wf;
  call_permitted pid q w := permits_faulty _ _ _ _ _ _ (call_permitted pid q w);
|}.

(** ** A system in memory

    A reliable system with the documented behaviour, which shows that the laws can hold
    and in which programs can be evaluated. *)

Module Simple.
Section simple.
Context (umask : nat -> Z).

Definition fresh_node (k : kernel) : nat := S (foldr Nat.max O (map_to_list k.(nodes)).*1).
Definition fresh_descriptor (k : kernel) : Z := 1 + foldr Z.max 0 (map_to_list k.(descriptors)).*1.*2.

Definition blank (m : Z) : node :=
  {| mode := m; data := []; uid := 0; gid := 0; times := (0, 0, 0); device := 0 |}.

Definition fresh_base (pid : nat) (k : kernel) : Z :=
  1 + foldr Z.max 0 (filter (fun x => x.1 = pid) (map_to_list k.(mappings)).*1).*2.

Definition add_node (k : kernel) (p : list Z) (m : Z) : kernel :=
  set_names (set_node k (fresh_node k) (blank m)) (<[p := fresh_node k]> k.(names)).

Definition add_object (k : kernel) (p : list Z) (m : Z) : kernel :=
  set_objects (set_node k (fresh_node k) (blank m)) (<[p := fresh_node k]> k.(objects)).

(** The entry that the path [q] is in the directory [p]. *)
Fixpoint entry_of (p q : list Z) : option (list Z) :=
  match p, q with
  | [], c :: e => if (c =? slash) && negb (bool_decide (slash ∈ e)) && negb (bool_decide (e = [])) then Some e else None
  | a :: p, b :: q => if a =? b then entry_of p q else None
  | _, [] => None
  end.

(** An object is listed without the slash its name begins with. *)
Definition object_entry (p : list Z) : option (list Z) :=
  match p with c :: e => if c =? slash then Some e else None | [] => None end.

Definition on_file (k : kernel) (pid : nat) (fd : Z) {A} (f : descriptor -> node -> Result A Errno * kernel)
    : Result A Errno * kernel :=
  match k.(descriptors) !! (pid, fd) with
  | None => (Err EBADF, k)
  | Some d => match k.(nodes) !! d.(target) with Some n => f d n | None => (Err EIO, k) end
  end.

Definition on_path (k : kernel) (p : list Z) {A} (f : nat -> Result A Errno * kernel) : Result A Errno * kernel :=
  match k.(names) !! p with Some i => f i | None => (Err ENOENT, k) end.

Definition on_mapping (k : kernel) (pid : nat) (base len : Z) (e : Errno) (k' : kernel) : Result Z Errno * kernel :=
  match k.(mappings) !! (pid, base) with
  | Some m => if m.(extent) =? len then (Ok 0, k') else (Err e, k)
  | None => (Err e, k)
  end.

Definition seek_to (k : kernel) (pid : nat) (fd : Z) (d : descriptor) (o : Z) : kernel :=
  set_descriptors k (<[(pid, fd) := seek d o]> k.(descriptors)).

Definition serve (pid : nat) (q : request) (k : kernel) : Result (answer q) Errno * kernel :=
  let fd' := fresh_descriptor k in
  match q return Result (answer q) Errno * kernel with
  | Open p flags => on_path k p (fun i => (Ok fd', open_descriptor pid k fd' i flags))
  | OpenWithMode p flags m =>
      match k.(names) !! p with
      | Some i => if bool_decide (O_EXCL ∈ flags) then (Err EEXIST, k) else (Ok fd', open_descriptor pid k fd' i flags)
      | None =>
          if bool_decide (O_CREAT ∈ flags) then
            (Ok fd', open_descriptor pid (add_node k p (Z.lor S_IFREG (Z.ldiff m (umask pid)))) fd' (fresh_node k) flags)
          else (Err ENOENT, k)
      end
  | FcntlGetfd fd | Fsync fd => on_file k pid fd (fun _ _ => (Ok 0, k))
  | Read fd nbyte => on_file k pid fd (fun d n =>
      if negb d.(readable) then (Err EBADF, k)
      else if nbyte <? 0 then (Err EINVAL, k)
      else let l := take (Z.to_nat nbyte) (drop (Z.to_nat d.(offset)) n.(data)) in
           (Ok l, seek_to k pid fd d (d.(offset) + zlength l)))
  | Write fd buf => on_file k pid fd (fun d n =>
      if negb d.(writable) then (Err EBADF, k)
      else (Ok (zlength buf), set_node (seek_to k pid fd d (d.(offset) + zlength buf)) d.(target)
              (set_data n (splice n.(data) d.(offset) buf))))
  | Lseek fd o => on_file k pid fd (fun d n =>
      if o <? 0 then (Err EINVAL, k) else (Ok o, seek_to k pid fd d o))
  | Fstat fd => on_file k pid fd (fun d n => (Ok (attributes n), k))
  | Fchmod fd m => on_file k pid fd (fun d n =>
      (Ok 0, set_node k d.(target) (set_mode n (Z.lor (Z.land n.(mode) S_IFMT) m))))
  | Fchown fd u g => on_file k pid fd (fun d n => (Ok 0, set_node k d.(target) (set_owner n u g)))
  | Ftruncate fd size => on_file k pid fd (fun d n =>
      if negb d.(writable) then (Err EBADF, k)
      else if size <? 0 then (Err EINVAL, k)
      else (Ok 0, set_node k d.(target) (set_data n (resize n.(data) size))))
  | Close fd | Closedir fd => on_file k pid fd (fun _ _ =>
      (Ok 0, set_descriptors k (delete (pid, fd) k.(descriptors))))
  | Access p => on_path k p (fun _ => (Ok 0, k))
  | Remove p | Rmdir p => on_path k p (fun _ => (Ok 0, set_names k (delete p k.(names))))
  | Stat p => on_path k p (fun i =>
      match k.(nodes) !! i with Some n => (Ok (attributes n), k) | None => (Err EIO, k) end)
  | Mkdir p m =>
      match k.(names) !! p with
      | Some _ => (Err EEXIST, k)
      | None => (Ok 0, add_node k p (Z.lor S_IFDIR (Z.ldiff m (umask pid))))
      end
  | Opendir p => on_path k p (fun i => (Ok fd', open_descriptor pid k fd' i [O_RDONLY]))
  | Scandir p => on_path k p (fun _ =>
      (Ok ([46] :: [46; 46] :: filter (fun e => e <> [46] /\ e <> [46; 46]) (omap (entry_of p) (map_to_list k.(names)).*1)), k))
  | ShmOpen p flags m =>
      match k.(objects) !! p with
      | Some i => if bool_decide (O_EXCL ∈ flags) then (Err EEXIST, k) else (Ok fd', open_descriptor pid k fd' i flags)
      | None =>
          if bool_decide (O_CREAT ∈ flags) then
            (Ok fd', open_descriptor pid (add_object k p (Z.lor S_IFREG (Z.ldiff m (umask pid)))) fd' (fresh_node k) flags)
          else (Err ENOENT, k)
      end
  | ShmUnlink p =>
      match k.(objects) !! p with Some _ => (Ok 0, set_objects k (delete p k.(objects))) | None => (Err ENOENT, k) end
  | ShmList => (Ok (omap object_entry (map_to_list k.(objects)).*1), k)
  | Mmap len prot fd => on_file k pid fd (fun d _ =>
      let base := fresh_base pid k in
      if negb d.(readable) || (bool_decide (PROT_WRITE ∈ prot) && negb d.(writable)) then (Err EACCES, k)
      else if len <=? 0 then (Err EINVAL, k)
      else if 2 ^ 64 <=? base + len then (Err ENOMEM, k)
      else (Ok base, set_mappings k (<[(pid, base) := mapped d.(target) len prot]> k.(mappings))))
  | Munmap base len => on_mapping k pid base len EINVAL (set_mappings k (delete (pid, base) k.(mappings)))
  | Mlock base len | Munlock base len => on_mapping k pid base len ENOMEM k
  | Load base address nbyte =>
      match accessed pid k base address nbyte loadable with
      | Some (_, n) => (Ok (take (Z.to_nat nbyte) (drop (Z.to_nat (address - base)) n.(data))), k)
      | None => (Err (Unlisted 0), k)
      end
  | Store base address buf =>
      match accessed pid k base address (zlength buf) storable with
      | Some (i, n) => (Ok 0, set_node k i (set_data n (splice n.(data) (address - base) buf)))
      | None => (Err (Unlisted 0), k)
      end
  end.

Lemma fresh_node_new k : k.(nodes) !! fresh_node k = None.
Proof.
  apply eq_None_not_Some. intros [n Hn]. apply elem_of_map_to_list in Hn.
  eapply (list_elem_of_fmap_2' fst) in Hn; [|done]. cbn in Hn. unfold fresh_node in Hn.
  assert (Hle : forall l i, i ∈ l -> (i <= foldr Nat.max O l)%nat).
  { induction l as [|a l IH]; intros i; [by intros ?%elem_of_nil|]. intros [->|Hi]%elem_of_cons; cbn; [lia|]. specialize (IH i Hi). lia. }
  specialize (Hle _ _ Hn). lia.
Qed.

Lemma foldr_max_le l i : i ∈ l -> i <= foldr Z.max 0 l.
Proof. induction l as [|a l IH]; [by intros ?%elem_of_nil|]. intros [->|Hi]%elem_of_cons; cbn; [lia|]. specialize (IH Hi). lia. Qed.

Lemma foldr_max_nonneg l : 0 <= foldr Z.max 0 l.
Proof. induction l; cbn; lia. Qed.

Lemma foldr_max_elem l : foldr Z.max 0 l = 0 \/ foldr Z.max 0 l ∈ l.
Proof.
  induction l as [|a l IH]; [by left|]. cbn. destruct (Z.max_spec a (foldr Z.max 0 l)) as [[_ ->]|[_ ->]].
  - destruct IH as [->|IH]; [by left|]. right. by right.
  - right. by left.
Qed.

Lemma fresh_descriptor_unused k pid : unused pid k (fresh_descriptor k).
Proof.
  split; [unfold fresh_descriptor; pose proof (foldr_max_nonneg (map_to_list k.(descriptors)).*1.*2); lia|].
  apply eq_None_not_Some. intros [d Hd]. apply elem_of_map_to_list in Hd.
  eapply (list_elem_of_fmap_2' fst) in Hd; [|done]. cbn in Hd.
  eapply (list_elem_of_fmap_2' snd) in Hd; [|done]. cbn in Hd.
  apply foldr_max_le in Hd. unfold fresh_descriptor in Hd. lia.
Qed.

(** The bases of the mappings of a process. *)
Lemma elem_of_bases pid k base :
  base ∈ (filter (fun x => x.1 = pid) (map_to_list k.(mappings)).*1).*2 <-> is_Some (k.(mappings) !! (pid, base)).
Proof.
  rewrite list_elem_of_fmap. split.
  - intros ([p b] & E & [Ep Hx]%list_elem_of_filter). cbn in *. subst. apply list_elem_of_fmap in Hx as ([x m] & E & Hm). cbn in E. subst x.
    apply elem_of_map_to_list in Hm. eauto.
  - intros [m Hm]. exists (pid, base). split; [done|]. apply list_elem_of_filter. split; [done|].
    apply elem_of_map_to_list in Hm. by eapply (list_elem_of_fmap_2' fst) in Hm.
Qed.

Lemma fresh_base_unused pid k : 0 < fresh_base pid k /\ k.(mappings) !! (pid, fresh_base pid k) = None.
Proof.
  unfold fresh_base. set (l := (filter _ _).*2). pose proof (foldr_max_nonneg l). split; [lia|].
  apply eq_None_not_Some. intros Hm%elem_of_bases. apply foldr_max_le in Hm. fold l in Hm. lia.
Qed.

Lemma fresh_base_exhausted pid k len : 2 ^ 64 <= fresh_base pid k + len ->
  2 ^ 63 <= len \/ exists base, 2 ^ 63 <= base /\ is_Some (k.(mappings) !! (pid, base)).
Proof.
  unfold fresh_base. set (l := (filter _ _).*2). intros Hlen. destruct (decide (2 ^ 63 <= len)) as [|Hl]; [by left|right].
  exists (foldr Z.max 0 l). split; [lia|]. apply elem_of_bases. fold l. destruct (foldr_max_elem l) as [E|]; [lia|done].
Qed.

Lemma entry_of_iff p q e : entry_of p q = Some e <-> slash ∉ e /\ e <> [] /\ q = p ++ (slash :: e).
Proof.
  revert q. induction p as [|a p IH]; intros [|b q]; cbn.
  - split; [done|]. by intros (? & ? & ?).
  - destruct (Z.eqb_spec b slash) as [->|]; cbn.
    + destruct (bool_decide_reflect (slash ∈ q)), (bool_decide_reflect (q = [])); cbn; (split; [|by intros (? & ? & [= ->])]); try done.
      by intros [= <-].
    + split; [done|]. by intros (? & ? & [= -> ?]).
  - split; [done|]. by intros (? & ? & ?).
  - destruct (Z.eqb_spec a b) as [->|]; [rewrite IH|].
    + split; intros (? & ? & E); (split; [done|]); (split; [done|]); [by rewrite E|by injection E].
    + split; [done|]. by intros (? & ? & [= -> ?]).
Qed.

Lemma scandir_served k p :
  let l := [46] :: [46; 46] :: filter (fun e => e <> [46] /\ e <> [46; 46]) (omap (entry_of p) (map_to_list k.(names)).*1) in
  NoDup l /\ forall e, e ∈ l <-> is_entry k p e \/ e = [46] \/ e = [46; 46].
Proof.
  cbv zeta. set (es := omap _ _).
  assert (Hes : forall e, e ∈ es <-> is_entry k p e).
  { intros e. unfold es. rewrite list_elem_of_omap. unfold is_entry. split.
    - intros (q & Hq & (Hs & He & ->)%entry_of_iff). apply list_elem_of_fmap in Hq as ([q' i] & E & Hi). cbn in E. subst q'.
      apply elem_of_map_to_list in Hi. by eauto.
    - intros (Hs & He & i & Hi). exists (p ++ (slash :: e)). split; [|by apply entry_of_iff].
      apply elem_of_map_to_list in Hi. by apply (list_elem_of_fmap_2' fst _ _ _ Hi). }
  assert (Hnd : NoDup es).
  { unfold es. pose proof (NoDup_fst_map_to_list k.(names)) as Hn. revert Hn. generalize (map_to_list k.(names)).*1.
    intros l Hn. induction Hn as [|q l Hq _ IH]; cbn; [constructor|]. destruct (entry_of p q) as [e|] eqn:E; [|done].
    constructor; [|done]. intros (q' & Hq' & E')%list_elem_of_omap. apply entry_of_iff in E as (_ & _ & ->).
    by apply entry_of_iff in E' as (_ & _ & ->). }
  split.
  - constructor; [|constructor; [|by apply NoDup_filter]].
    + intros [?|Hf]%elem_of_cons; [done|]. apply list_elem_of_filter in Hf as [[Hf _] _]. done.
    + intros Hf. apply list_elem_of_filter in Hf as [[_ Hf] _]. done.
  - intros e. rewrite !elem_of_cons, list_elem_of_filter, Hes. destruct (decide (e = [46])), (decide (e = [46; 46])); tauto.
Qed.

Lemma object_entry_iff p e : object_entry p = Some e <-> p = slash :: e.
Proof.
  destruct p as [|c p]; cbn; [done|]. destruct (Z.eqb_spec c slash) as [->|]; split; intros E; congruence.
Qed.

Lemma list_served k : let l := omap object_entry (map_to_list k.(objects)).*1 in
  NoDup l /\ forall e, e ∈ l <-> is_Some (k.(objects) !! (slash :: e)).
Proof.
  cbv zeta. split.
  - pose proof (NoDup_fst_map_to_list k.(objects)) as Hn. revert Hn. generalize (map_to_list k.(objects)).*1.
    intros l Hn. induction Hn as [|q l Hq _ IH]; cbn; [constructor|]. destruct (object_entry q) as [e|] eqn:E; [|done].
    constructor; [|done]. intros (q' & Hq' & E')%list_elem_of_omap. apply object_entry_iff in E as ->. by apply object_entry_iff in E' as ->.
  - intros e. rewrite list_elem_of_omap. split.
    + intros (p & Hp & ->%object_entry_iff). apply list_elem_of_fmap in Hp as ([q i] & -> & Hq%elem_of_map_to_list). eauto.
    + intros [i Hi%elem_of_map_to_list]. exists (slash :: e). split; [|by apply object_entry_iff].
      by apply (list_elem_of_fmap_2' fst _ _ _ Hi).
Qed.

Lemma serve_permitted pid q k : wf k -> permits umask pid false k q (serve pid q k).1 (serve pid q k).2.
Proof.
  intros Hwf. pose proof (fresh_descriptor_unused k pid) as Hfd. pose proof (fresh_node_new k) as Hnode.
  destruct (fresh_base_unused pid k) as [Hb0 Hbase].
  destruct q; unfold serve, on_path, on_file, on_mapping;
    try (destruct (k.(names) !! path) as [i|] eqn:Ep || destruct (k.(objects) !! object) as [i|] eqn:Ep ||
         destruct (k.(descriptors) !! (pid, fd)) as [d|] eqn:Ed ||
         (destruct (k.(mappings) !! (pid, base)) as [m|] eqn:Em; [destruct (Z.eqb_spec m.(extent) len) as [El|El]|]));
    try (destruct (wf_descriptors _ Hwf _ _ Ed) as [n Hn]; rewrite Hn);
    try (cbn; rewrite ?Ep, ?Ed; by eauto).
  all: try (destruct (wf_names _ Hwf _ _ Ep) as [n Hn] || destruct (wf_objects _ Hwf _ _ Ep) as [n Hn]).
  - exists i. eauto.
  - case_bool_decide as Hx; cbn; rewrite ?Ep; [by eauto|]. split; [done|]. eauto.
  - case_bool_decide as Hx; cbn; rewrite ?Ep; [|by auto]. split; [done|]. split; [done|].
    exists (fresh_node k), (add_node k path (Z.lor S_IFREG (Z.ldiff mode0 (umask pid)))).
    split; [done|]. split; [|done]. by exists (blank (Z.lor S_IFREG (Z.ldiff mode0 (umask pid)))).
  - destruct d.(readable) eqn:Er; cbn [negb]; [|split; [|done]; cbn; congruence].
    destruct (Z.ltb_spec nbyte 0); [split; [|done]; cbn; auto|]. exists d, n. cbn.
    set (l := take _ _). assert (El : zlength l = nbyte `min` zlength (drop (Z.to_nat d.(offset)) n.(data))).
    { unfold l, zlength. rewrite length_take. lia. }
    split_and!; [done..|lia|apply prefix_take|done|done].
  - destruct d.(writable) eqn:Ew; cbn [negb]; [|split; [|done]; cbn; congruence]. exists d, n. pose proof (zlength_nonneg buf).
    split_and!; [done..|lia|lia|done|]. rewrite take_ge by (unfold zlength; lia). done.
  - destruct (Z.ltb_spec offset0 0); [split; [|done]; cbn; auto|]. by exists d.
  - by exists d, n.
  - destruct d.(writable) eqn:Ew; cbn [negb]; [|split; [|done]; cbn; congruence].
    destruct (Z.ltb_spec size 0); [split; [|done]; cbn; auto|]. by exists d, n.
  - rewrite Hn. by exists i, n.
  - cbn. split; [done|]. exists (fresh_node k). split; [done|]. by exists (blank (Z.lor S_IFDIR (Z.ldiff mode0 (umask pid)))).
  - exists i. eauto.
  - destruct (scandir_served k path). cbn. rewrite Ep. eauto.
  - case_bool_decide as Hx; cbn; rewrite ?Ep; [by eauto|]. split; [done|]. eauto.
  - case_bool_decide as Hx; cbn; rewrite ?Ep; [|by auto]. split; [done|]. split; [done|].
    exists (fresh_node k), (add_object k object (Z.lor S_IFREG (Z.ldiff mode0 (umask pid)))).
    split; [done|]. split; [|done]. by exists (blank (Z.lor S_IFREG (Z.ldiff mode0 (umask pid)))).
  - by destruct (list_served k).
  - destruct d.(readable) eqn:Er; cbn [negb orb]; [|split; [|done]; cbn; intros ? Hd; left; congruence].
    case_bool_decide as Hw; [destruct d.(writable) eqn:Ew; cbn [negb andb]|].
    2: { split; [|done]. cbn. intros ? Hd. right. split; congruence. }
    all: cbn [andb]; destruct (Z.leb_spec len 0); [split; [by left|done]|].
    all: destruct (Z.leb_spec (2 ^ 64) (fresh_base pid k + len)) as [Hx|Hx].
    1, 3: split; [right; by apply fresh_base_exhausted|done].
    all: exists d; split_and!; by eauto.
  - split; [|done]. cbn. intros m' Hm. congruence.
  - split; [|done]. cbn. intros m' Hm. congruence.
  - split; [|done]. right. intros m' Hm. congruence.
  - split; [|done]. right. intros m' Hm. congruence.
  - split; [|done]. cbn. intros m' Hm. congruence.
  - split; [|done]. cbn. intros m' Hm. congruence.
  - destruct (accessed _ _ _ _ _ _) as [[i n]|] eqn:E; [by exists i, n|done].
  - destruct (accessed _ _ _ _ _ _) as [[i n]|] eqn:E; [by exists i, n|done].
Qed.

Definition system : Type := {k : kernel | wf k}.

Definition serve_system (pid : nat) (q : request) (w : system) : Result (answer q) Errno * system :=
  ((serve pid q (`w)).1, (serve pid q (`w)).2 ↾ permits_wf _ _ _ _ _ _ _ (proj2_sig w) (serve_permitted pid q _ (proj2_sig w))).

#[export] Instance simple_posix : Posix system := {| call := serve_system |}.

#[export] Instance simple_laws : PosixLaws umask false system := {|
  view := proj1_sig; view_wf := proj2_sig;
  call_permitted pid q w := serve_permitted pid q (`w) (proj2_sig w);
|}.

End simple.
End Simple.

(** ** Programs *)

(** [Hang] is a loop that has run out of the fuel of the model. *)
Inductive prog (A : Type) : Type :=
| Done (a : A)
| Crash
| Hang
| Call (q : request) (c : Result (answer q) Errno -> prog A).
Arguments Done {A}.
Arguments Crash {A}.
Arguments Hang {A}.
Arguments Call {A}.

Fixpoint bind {A B} (p : prog A) (f : A -> prog B) : prog B :=
  match p with
  | Done a => f a
  | Crash => Crash
  | Hang => Hang
  | Call q c => Call q (fun r => bind (c r) f)
  end.

Declare Scope posix_scope.
Notation "'let?' x ':=' p 'in' q" := (bind p (fun x => q))
  (at level 10, x name, p at level 100, q at level 200) : posix_scope.
Notation "'let?' ' x ':=' p 'in' q" := (bind p (fun y => match y with x => q end))
  (at level 10, x pattern, p at level 100, q at level 200) : posix_scope.
Open Scope posix_scope.

Definition lift {A} (o : outcome A) : prog A := match o with Ret a => Done a | Panic => Crash end.

(** [x] when the first program is successful, otherwise its error, converted: the
    [fail!] macro and the [?] operator. *)
Definition try_ {A B E F} (p : prog (Result A E)) (f : E -> F) (g : A -> prog (Result B F)) : prog (Result B F) :=
  bind p (fun r => match r with Ok a => g a | Err e => Done (Err (f e)) end).

(** The calls of the system, as programs. *)
Definition syscall (q : request) : prog (Result (answer q) Errno) := Call q Done.

Section run.
Context {W} `{Posix W} (pid : nat).

(** [None]: the program hangs. *)
Fixpoint run {A} (p : prog A) (w : W) : option (outcome (A * W)) :=
  match p with
  | Done a => Some (Ret (a, w))
  | Crash => Some Panic
  | Hang => None
  | Call q c => let '(r, w) := call pid q w in run (c r) w
  end.

(** [n] calls of [p], then what another process does to the system, then the rest of [p]. *)
Fixpoint run_interrupted {A} (n : nat) (other : W -> W) (p : prog A) (w : W) : option (outcome (A * W)) :=
  match n, p with
  | S n, Call q c => let '(r, w) := call pid q w in run_interrupted n other (c r) w
  | _, p => run p (other w)
  end.

Lemma prog_run_bind {A B} (p : prog A) (f : A -> prog B) w :
  run (bind p f) w = match run p w with Some (Ret (a, w)) => run (f a) w | Some Panic => Some Panic | None => None end.
Proof. revert w. induction p as [a| | |q c IH]; intros w; cbn; [done..|]. destruct (call pid q w) as [r w']. apply IH. Qed.

(** The system after [n] calls of [p]. *)
Fixpoint advance {A} (n : nat) (p : prog A) (w : W) : W :=
  match n, p with
  | S n, Call q c => let '(r, w) := call pid q w in advance n (c r) w
  | _, _ => w
  end.

End run.

(** ** Weakest preconditions

    A logic for programs: states [S], the calls that are allowed in a state, and the
    states and answers that a call can lead to.  [hangs] tells whether a program may hang. *)

Section wp.
Context {S : Type} (may : S -> request -> Prop) (next : S -> forall q, Result (answer q) Errno -> S -> Prop).
Context (hangs : Prop).

(** Every run of [p] ends with an [a] in a state with [Q]. *)
Fixpoint wp {A} (p : prog A) (Q : A -> S -> Prop) (s : S) : Prop :=
  match p with
  | Done a => Q a s
  | Crash => False
  | Hang => hangs
  | Call q c => may s q /\ forall r s', next s q r s' -> wp (c r) Q s'
  end.

Lemma wp_bind {A B} (p : prog A) (f : A -> prog B) Q s :
  wp p (fun a => wp (f a) Q) s -> wp (bind p f) Q s.
Proof.
  revert s. induction p as [a| | |q c IH]; intros s; cbn; [done..|]. intros [Hm Hp].
  split; [done|]. intros r s' Hr. apply IH, Hp, Hr.
Qed.

Lemma wp_mono {A} (p : prog A) (Q Q' : A -> S -> Prop) s :
  wp p Q s -> (forall a s, Q a s -> Q' a s) -> wp p Q' s.
Proof.
  intros Hp HQ. revert s Hp. induction p as [a| | |q c IH]; intros s; cbn; [apply HQ|done..|].
  intros [Hm Hp]. split; [done|]. intros r s' Hr. by apply IH, Hp.
Qed.

Lemma wp_try {A B E F} (p : prog (Result A E)) (f : E -> F) (g : A -> prog (Result B F)) Q s :
  wp p (fun r s => match r with Ok a => wp (g a) Q s | Err e => Q (Err (f e)) s end) s -> wp (try_ p f g) Q s.
Proof. intros Hp. apply wp_bind. eapply wp_mono; [exact Hp|]. by intros [a|e] s'. Qed.

Lemma wp_syscall q Q s :
  may s q -> (forall r s', next s q r s' -> Q r s') -> wp (syscall q) Q s.
Proof. done. Qed.

End wp.

(** The logic of a program that runs alone. *)
Notation wp_alone umask pid faulty hangs := (wp (fun _ _ => True) (permits umask pid faulty) hangs).

Lemma wp_alone_run (umask : nat -> Z) (faulty : bool) (hangs : Prop) {W} `{PosixLaws umask faulty W} pid {A} (p : prog A) Q w :
  wp_alone umask pid faulty hangs p Q (view w) ->
  match run pid p w with
  | Some (Ret (a, w')) => Q a (view w')
  | Some Panic => False
  | None => hangs
  end.
Proof.
  revert w. induction p as [a| | |q c IH]; intros w; cbn; [done..|]. intros [_ Hp].
  pose proof (call_permitted pid q w) as Hc. destruct (call pid q w) as [r w']. apply IH, Hp, Hc.
Qed.

Lemma wp_alone_returns (umask : nat -> Z) (faulty : bool) {W} `{PosixLaws umask faulty W} pid {A} (p : prog A) Q w :
  wp_alone umask pid faulty False p Q (view w) ->
  exists a w', run pid p w = Some (Ret (a, w')) /\ Q a (view w').
Proof.
  intros Hp. apply wp_alone_run in Hp. destruct (run pid p w) as [[[a w']|]|]; [|done..]. by exists a, w'.
Qed.

End Posix.
