(* ===== verification/Processes.v ===== *)
(** * Processes that interleave

    Any number of processes run programs over the calls of the operating system ([Posix]);
    their calls interleave arbitrarily, and a process that has finished a job may start
    another one.  When every job keeps to a protocol — the calls it performs are allowed by
    what the process knows, and what it learns from an answer is what the system
    guarantees in an invariant — then the invariant holds in every reachable state
    ([processes_invariant]). *)

From S2P Require Import Prelude Posix.

Module Processes.
Import Posix.

Section processes.
Context {W} `{Posix W} {job result : Type} (program : nat -> job -> prog result) (accepts : job -> bool).

Inductive activity := Idle (last : option result) | Running (j : job) (p : prog result).

Record participant := { pid : nat; doing : activity }.

Inductive action := Start (fuel : nat) (j : job) | Perform | Return.

(** The state of the system and the jobs that were started. *)
Record shared := { world : W; started : list job }.

Definition act (a : action) (g : shared) (p : participant) : option (shared * participant) :=
  match a, p.(doing) with
  | Start fuel j, Idle _ =>
      if accepts j then
        Some ({| world := g.(world); started := j :: g.(started) |}, {| pid := p.(pid); doing := Running j (program fuel j) |})
      else None
  | Perform, Running j (Call q c) =>
      let '(r, w) := call p.(pid) q g.(world) in
      Some ({| world := w; started := g.(started) |}, {| pid := p.(pid); doing := Running j (c r) |})
  | Return, Running _ (Done a) => Some (g, {| pid := p.(pid); doing := Idle (Some a) |})
  | _, _ => None
  end.

Definition begin (w : W) (n : nat) : shared * list participant :=
  ({| world := w; started := [] |}, (fun k => {| pid := k; doing := Idle None |}) <$> seq 0 n).

(** ** Protocols *)

Context (umask : nat -> Z) `{!PosixLaws umask true W}.
Context {role : Type} (may : job -> role -> request -> Prop) (next : role -> forall q, Result (answer q) Errno -> role -> Prop).
Context (inv : kernel -> list job -> list role -> Prop) (witnessed : result -> role -> Prop) (outsider : role).

(** A job that keeps to the protocol learns what the protocol promises and keeps the
    invariant; its result is justified by what the process has learned. *)
Record sound : Prop := {
  sound_step k js rs i r j q a k' : inv k js rs -> rs !! i = Some r -> j ∈ js -> may j r q ->
    permits umask i true k q a k' -> exists r', next r q a r' /\ inv k' js (<[i := r']> rs);
  sound_start k js rs j : inv k js rs -> accepts j = true -> inv k (j :: js) rs;
  sound_job fuel j r : accepts j = true -> wp (may j) next True (program fuel j) witnessed r;
}.

Context (Hsound : sound).

(** What the role of a participant says about it. *)
Definition participant_ok (js : list job) (r : role) (a : activity) : Prop :=
  match a with
  | Idle None => True
  | Idle (Some a) => witnessed a r
  | Running j p => j ∈ js /\ wp (may j) next True p witnessed r
  end.

Definition inv_processes (s : shared * list participant) : Prop :=
  exists rs, inv (view s.1.(world)) s.1.(started) rs /\ length rs = length s.2 /\
    forall k p r, s.2 !! k = Some p -> rs !! k = Some r -> p.(pid) = k /\ participant_ok s.1.(started) r p.(doing).

Lemma participant_ok_started js js' r a : js ⊆ js' -> participant_ok js r a -> participant_ok js' r a.
Proof. intros Hjs. destruct a as [[]|j p]; [done..|]. intros [Hj Hp]. split; [by apply Hjs|done]. Qed.

Lemma processes_step s s' : act_step (iact act) s s' -> inv_processes s -> inv_processes s'.
Proof.
  intros [[k a] t Ha] (rs & Hinv & Hlen & Hps). apply iact_inv in Ha as (p & p' & Hp & Ha & Hps'). cbn in Hp, Ha.
  destruct s as [g ps], t as [g' ps']. cbn in *. subst ps'.
  destruct (lookup_lt_is_Some_2 rs k) as [r Hr]; [rewrite Hlen; by eapply lookup_lt_Some|].
  destruct (Hps k p r Hp Hr) as [Hpid Hok].
  enough (Hnew : exists r', inv (view g'.(world)) g'.(started) (<[k := r']> rs) /\ p'.(pid) = k /\
    participant_ok g'.(started) r' p'.(doing) /\ g.(started) ⊆ g'.(started)).
  { destruct Hnew as (r' & Hinv' & Hpid' & Hok' & Hjs). exists (<[k := r']> rs). split; [done|].
    cbn [fst snd]. split; [by rewrite !length_insert|]. intros k0 p0 r0 Hp0 Hr0.
    destruct (decide (k0 = k)) as [->|Hne].
    - rewrite list_lookup_insert_eq in Hp0 by (by eapply lookup_lt_Some). injection Hp0 as <-.
      rewrite list_lookup_insert_eq in Hr0 by (by eapply lookup_lt_Some). by injection Hr0 as <-.
    - rewrite list_lookup_insert_ne in Hp0 by done. rewrite list_lookup_insert_ne in Hr0 by done.
      destruct (Hps k0 p0 r0 Hp0 Hr0). split; [done|]. by eapply participant_ok_started. }
  unfold act in Ha. destruct a as [fuel j| |], p.(doing) as [last|j0 [x| | |q c]]; try done.
  - destruct (accepts j) eqn:Ej; [|done]. injection Ha as <- <-. exists r. rewrite list_insert_id by done. cbn.
    split; [by apply sound_start|]. split; [done|]. split; [|set_solver]. split; [by left|]. by apply sound_job.
  - destruct Hok as (Hj & Hmay & Hnext). pose proof (call_permitted p.(pid) q g.(world)) as Hc.
    destruct (call _ q _) as [y w]. injection Ha as <- <-. cbn in *. rewrite Hpid in Hc.
    destruct (sound_step Hsound _ _ rs k r j0 q y _ Hinv Hr Hj Hmay Hc) as (r' & Hn & Hinv').
    exists r'. split; [done|]. split; [done|]. split; [|done]. split; [done|]. by apply Hnext.
  - destruct Hok as [Hj Hw]. injection Ha as <- <-. exists r. rewrite list_insert_id by done. by split_and!.
Qed.

Lemma processes_begin w n : inv (view w) [] (replicate n outsider) -> inv_processes (begin w n).
Proof.
  intros Hinv. exists (replicate n outsider). split; [done|]. split.
  - cbn. by rewrite length_replicate, length_fmap, length_seq.
  - intros k p r Hp _. unfold begin in Hp. cbn [snd] in Hp. apply list_lookup_fmap_Some in Hp as (x & -> & Hx).
    by apply lookup_seq in Hx as [-> _].
Qed.

(** In every reachable state the invariant holds, nobody has crashed, and results are
    justified by roles. *)
Lemma processes_invariant w n g ps : inv (view w) [] (replicate n outsider) -> rtc (act_step (iact act)) (begin w n) (g, ps) ->
  exists rs, inv (view g.(world)) g.(started) rs /\
    (forall k p j, ps !! k = Some p -> p.(doing) <> Running j Crash) /\
    (forall k p a, ps !! k = Some p -> p.(doing) = Idle (Some a) -> exists r, rs !! k = Some r /\ witnessed a r).
Proof.
  intros Hb Hr. assert (HI : inv_processes (g, ps)).
  { by eapply (rtc_invariant _ inv_processes); [apply processes_step|exact Hr|apply processes_begin]. }
  destruct HI as (rs & Hinv & Hlen & Hps). cbn in *. exists rs. split; [done|].
  assert (Hrole : forall k p, ps !! k = Some p -> exists r, rs !! k = Some r).
  { intros k p Hp. apply lookup_lt_is_Some_2. rewrite Hlen. by eapply lookup_lt_Some. }
  split.
  - intros k p j Hp Hd. destruct (Hrole k p Hp) as [r Hk]. destruct (Hps k p r Hp Hk) as [_ Hok]. rewrite Hd in Hok. by destruct Hok.
  - intros k p a Hp Hd. destruct (Hrole k p Hp) as [r Hk]. destruct (Hps k p r Hp Hk) as [_ Hok]. rewrite Hd in Hok. eauto.
Qed.

End processes.

Arguments activity : clear implicits.
Arguments participant : clear implicits.
Arguments action : clear implicits.
Arguments shared : clear implicits.

End Processes.
