(* ===== verification/Files.v ===== *)
(** * Files

    [iceoryx2_bb_posix::file]: permissions, file descriptors and files as wrappers of the
    system calls of Posix.v.  Every wrapper is a program that performs the calls of the
    code in their order and translates the error numbers.

    [UnknownError] carries the error instead of its number.  Buffers are byte lists; a
    function that reads into a buffer returns it.  The loop that closes a descriptor has
    a fuel; what it counts only decides about log messages. *)

From S2P Require Import Prelude Posix.

Module Files.
Import Posix.

(** ** Permissions and metadata *)

Inductive Permission :=
| OWNER_READ | OWNER_WRITE | OWNER_EXEC | OWNER_ALL | GROUP_READ | GROUP_WRITE | GROUP_EXEC | GROUP_ALL
| OTHERS_READ | OTHERS_WRITE | OTHERS_EXEC | OTHERS_ALL | ALL | SET_UID | SET_GID | STICKY_BIT | MASK | UNKNOWN.

(* src/iceoryx2_bb/posix/src/permission.rs:27-51 Permission *)
Definition bits (p : Permission) : Z :=
  match p with
  | OWNER_READ => 0x100 | OWNER_WRITE => 0x80 | OWNER_EXEC => 0x40 | OWNER_ALL => 0x1C0
  | GROUP_READ => 0x20 | GROUP_WRITE => 0x10 | GROUP_EXEC => 0x8 | GROUP_ALL => 0x38
  | OTHERS_READ => 0x4 | OTHERS_WRITE => 0x2 | OTHERS_EXEC => 0x1 | OTHERS_ALL => 0x7
  | ALL => 0x1FF
  | SET_UID => 0x800 | SET_GID => 0x400 | STICKY_BIT => 0x200
  | MASK => 0xFFF | UNKNOWN => 0xFFFF
  end.

Coercion bits : Permission >-> Z.

(** [if mode & bit != 0 { p |= permission }]; the permissions have the values of the
    bits of the mode that they stand for. *)
Definition take_bit (m b p : Z) : Z := if Z.land m b =? 0 then p else Z.lor p b.

(* src/iceoryx2_bb/posix/src/permission.rs:67-115 as_permission *)
Definition as_permission (m : Z) : Z :=
  let owner := Z.land m OWNER_ALL in
  let p := take_bit owner OWNER_EXEC (take_bit owner OWNER_WRITE (take_bit owner OWNER_READ 0)) in
  let group := Z.land m GROUP_ALL in
  let p := take_bit group GROUP_EXEC (take_bit group GROUP_WRITE (take_bit group GROUP_READ p)) in
  let others := Z.land m OTHERS_ALL in
  let p := take_bit others OTHERS_EXEC (take_bit others OTHERS_WRITE (take_bit others OTHERS_READ p)) in
  take_bit m STICKY_BIT (take_bit m SET_GID (take_bit m SET_UID p)).

(* src/iceoryx2_bb/posix/src/permission.rs:120-122 has *)
Definition has (p rhs : Z) : bool := negb (Z.land p rhs =? 0).

(* src/iceoryx2_bb/posix/src/file_type.rs:20-30 FileType *)
Inductive FileType :=
| TypeFile | TypeCharacter | TypeBlock | TypeDirectory | TypeSymbolicLink | TypeSocket | TypeFiFo | TypeUnknown.

#[export] Instance file_type_eq_decision : EqDecision FileType.
Proof. solve_decision. Defined.

(* src/iceoryx2_bb/posix/src/file_type.rs:34-47 from_mode_t *)
Definition from_mode_t (value : Z) : FileType :=
  let v := Z.land value S_IFMT in
  if v =? S_IFREG then TypeFile
  else if v =? 0x2000 then TypeCharacter
  else if v =? 0x6000 then TypeBlock
  else if v =? S_IFDIR then TypeDirectory
  else if v =? 0xA000 then TypeSymbolicLink
  else if v =? 0xC000 then TypeSocket
  else if v =? 0x1000 then TypeFiFo
  else TypeUnknown.

(** The times are in seconds. *)
(* src/iceoryx2_bb/posix/src/metadata.rs:28-39 Metadata *)
Record Metadata := {
  file_type : FileType; md_uid : Z; md_gid : Z; size : Z; block_size : Z; permission : Z;
  access_time : Z; modification_time : Z; creation_time : Z; device_id : Z;
}.

(* src/iceoryx2_bb/posix/src/metadata.rs:87-109 create *)
Definition metadata_create (attr : stat_t) : Metadata :=
  {| access_time := attr.(st_atime); creation_time := attr.(st_ctime); size := attr.(st_size);
     block_size := attr.(st_size); device_id := attr.(st_rdev); modification_time := attr.(st_mtime);
     permission := as_permission attr.(st_mode); file_type := from_mode_t attr.(st_mode);
     md_uid := attr.(st_uid); md_gid := attr.(st_gid) |}.

(** ** Modes *)

(* src/iceoryx2_bb/posix/src/access_mode.rs:22-32 AccessMode *)
Inductive AccessMode := AccessNone | AccessRead | AccessWrite | AccessReadWrite.

(* src/iceoryx2_bb/posix/src/access_mode.rs:58-65 as_oflag *)
Definition access_oflag (a : AccessMode) : list oflag :=
  match a with
  | AccessNone => []
  | AccessRead => [O_RDONLY]
  | AccessWrite => [O_WRONLY]
  | AccessReadWrite => [O_RDWR]
  end.

(* src/iceoryx2_bb/posix/src/access_mode.rs:42-49 as_protflag *)
Definition access_protflag (a : AccessMode) : list protflag :=
  match a with
  | AccessNone => []
  | AccessRead => [PROT_READ]
  | AccessWrite => [PROT_WRITE]
  | AccessReadWrite => [PROT_READ; PROT_WRITE]
  end.

(* src/iceoryx2_bb/posix/src/creation_mode.rs:21-29 CreationMode *)
Inductive CreationMode := CreateExclusive | PurgeAndCreate | OpenOrCreate.

(* src/iceoryx2_bb/posix/src/creation_mode.rs:32-38 as_oflag *)
Definition creation_oflag (c : CreationMode) : list oflag :=
  match c with
  | PurgeAndCreate | CreateExclusive => [O_CREAT; O_EXCL]
  | OpenOrCreate => [O_CREAT]
  end.

(** ** Errors *)

(* src/iceoryx2_bb/posix/src/file.rs:61-69 FileRemoveError *)
Inductive FileRemoveError :=
| FileRemoveInsufficientPermissions | FileRemoveCurrentlyInUse | FileRemoveLoopInSymbolicLinks
| FileRemoveMaxSupportedPathLengthExceeded | FileRemovePartOfReadOnlyFileSystem | FileRemoveUnknownError (e : Errno).

(* src/iceoryx2_bb/posix/src/file.rs:71-76 FileAccessError *)
Inductive FileAccessError :=
| AccessLoopInSymbolicLinks | AccessMaxSupportedPathLengthExceeded | AccessUnknownError (e : Errno).

(* src/iceoryx2_bb/posix/src/file.rs:123-130 FileTruncateError *)
Inductive FileTruncateError :=
| TruncateInterrupt | TruncateSizeTooBig | TruncateIOerror | TruncateFileNotOpenedForWriting
| TruncateReadOnlyFilesystem | TruncateUnknownError (e : Errno).

(* src/iceoryx2_bb/posix/src/file.rs:133-139 FileStatError *)
Inductive FileStatError :=
| StatInvalidFileDescriptor | StatIOerror | StatFileTooBig | StatUnknownFileType | StatUnknownError (e : Errno).

(* src/iceoryx2_bb/posix/src/file.rs:142-147 FileSetPermissionError *)
Inductive FileSetPermissionError :=
| PermissionInvalidFileDescriptor | PermissionInsufficientPermissions | PermissionReadOnlyFilesystem
| PermissionUnknownError (e : Errno).

(* src/iceoryx2_bb/posix/src/file.rs:150-158 FileSetOwnerError *)
Inductive FileSetOwnerError :=
| OwnerInvalidFileDescriptor | OwnerInsufficientPermissions | OwnerReadOnlyFilesystem | OwnerInvalidId
| OwnerIOerror | OwnerInterrupt | OwnerUnknownError (e : Errno).

(* src/iceoryx2_bb/posix/src/file.rs:78-104 FileCreationError *)
Inductive FileCreationError :=
| CreationInsufficientPermissions | CreationInsufficientMemory | CreationFileAlreadyExists | CreationNoSpaceLeft
| CreationFileTooBig | CreationInterrupt | CreationIsDirectory | CreationLoopInSymbolicLinks
| CreationFilesytemIsReadOnly | CreationDirectoryDoesNotExist | CreationPerProcessFileHandleLimitReached
| CreationSystemWideFileHandleLimitReached | CreationMaxFilePathLengthExceeded | CreationUnknownError (e : Errno)
| CreationFileStatError (e : FileStatError) | CreationFileSetOwnerError (e : FileSetOwnerError)
| CreationFileTruncateError (e : FileTruncateError) | CreationFileSetPermissionError (e : FileSetPermissionError)
| CreationFileAccessError (e : FileAccessError) | CreationFileRemoveError (e : FileRemoveError).

(* src/iceoryx2_bb/posix/src/file.rs:106-120 FileOpenError *)
Inductive FileOpenError :=
| OpenInsufficientPermissions | OpenInsufficientMemory | OpenFileDoesNotExist | OpenFileTooBig | OpenInterrupt
| OpenIsDirectory | OpenLoopInSymbolicLinks | OpenFilesytemIsReadOnly | OpenPerProcessFileHandleLimitReached
| OpenSystemWideFileHandleLimitReached | OpenMaxFilePathLengthExceeded | OpenUnknownError (e : Errno).

(* src/iceoryx2_bb/posix/src/file.rs:177-182 FileOffsetError *)
Inductive FileOffsetError :=
| OffsetInvalidFileDescriptor | OffsetFileTooBig | OffsetDoesNotSupportSeeking | OffsetUnknownError (e : Errno).

(* src/iceoryx2_bb/posix/src/file.rs:160-174 FileReadError *)
Inductive FileReadError :=
| ReadInterrupt | ReadIOerror | ReadIsDirectory | ReadFileTooBig | ReadInsufficientResources
| ReadInsufficientMemory | ReadNonExistingOrIncapableDevice | ReadUnknownError (e : Errno)
| ReadFileOffsetError (e : FileOffsetError) | ReadFileStatError (e : FileStatError).

(* src/iceoryx2_bb/posix/src/file.rs:184-196 FileWriteError *)
Inductive FileWriteError :=
| WriteInterrupt | WriteBufferTooBig | WriteIOerror | WriteNoSpaceLeft | WriteInsufficientResources
| WriteInsufficientPermissions | WriteNonExistingOrIncapableDevice | WriteUnknownError (e : Errno)
| WriteFileOffsetError (e : FileOffsetError).

(* src/iceoryx2_bb/posix/src/file.rs:199-204 FileSyncError *)
Inductive FileSyncError := SyncInterrupt | SyncNotSupported | SyncIOerror | SyncUnknownError (e : Errno).

(** ** File descriptors *)

(* src/iceoryx2_bb/posix/src/file_descriptor.rs:104-107 FileDescriptor *)
Record FileDescriptor := { value : Z; is_owned : bool }.

(* src/iceoryx2_bb/posix/src/file_descriptor.rs:149-162 new *)
Definition descriptor_new (r : Result Z Errno) : prog (Result FileDescriptor Errno) :=
  match r with
  | Err e => Done (Err e)
  | Ok fd => try_ (syscall (FcntlGetfd fd)) id (fun _ => Done (Ok {| value := fd; is_owned := true |}))
  end.

Section operations.
Context `{Profile} (fuel : nat).

(* src/iceoryx2_bb/posix/src/file_descriptor.rs:189-219 close *)
Fixpoint close_loop (fuel : nat) (fd : Z) : prog unit :=
  match fuel with
  | O => Hang
  | S fuel =>
      let? r := syscall (Close fd) in
      match r with
      | Ok _ => Done tt
      | Err EBADF => Crash
      | Err (EINTR | EIO) => close_loop fuel fd
      | Err _ => Crash
      end
  end.

(* src/iceoryx2_bb/posix/src/file_descriptor.rs:223-227 drop *)
Definition drop_descriptor (fd : FileDescriptor) : prog unit :=
  if fd.(is_owned) then close_loop fuel fd.(value) else Done tt.

(** ** Files *)

(* src/iceoryx2_bb/posix/src/file.rs:265-273 FileBuilder *)
Record FileBuilder := {
  file_path : list Z; access_mode : AccessMode; b_permission : Z; b_owner : option Z; b_group : option Z;
  truncate_size : option Z; creation_mode : option CreationMode;
}.

(* src/iceoryx2_bb/posix/src/file.rs:277-287 new *)
Definition builder_new (path : list Z) : FileBuilder :=
  {| file_path := path; access_mode := AccessRead; b_permission := OWNER_ALL; b_owner := None; b_group := None;
     truncate_size := None; creation_mode := None |}.

(* src/iceoryx2_bb/posix/src/file.rs:291-295 creation_mode *)
Definition with_creation_mode (c : FileBuilder) (m : CreationMode) : FileBuilder :=
  {| file_path := c.(file_path); access_mode := AccessReadWrite; b_permission := c.(b_permission);
     b_owner := c.(b_owner); b_group := c.(b_group); truncate_size := c.(truncate_size); creation_mode := Some m |}.

(* src/iceoryx2_bb/posix/src/file.rs:329-332 permission *)
Definition with_permission (c : FileBuilder) (p : Z) : FileBuilder :=
  {| file_path := c.(file_path); access_mode := c.(access_mode); b_permission := p;
     b_owner := c.(b_owner); b_group := c.(b_group); truncate_size := c.(truncate_size);
     creation_mode := c.(creation_mode) |}.

(* src/iceoryx2_bb/posix/src/file.rs:416-419 File *)
Record File := { path : option (list Z); file_descriptor : FileDescriptor }.

Definition native_handle (f : File) : Z := f.(file_descriptor).(value).

Definition drop_file (f : File) : prog unit := drop_descriptor f.(file_descriptor).

(* src/iceoryx2_bb/posix/src/file.rs:661-673 does_exist *)
Definition does_exist (p : list Z) : prog (Result bool FileAccessError) :=
  let? r := syscall (Access p) in
  Done match r with
       | Ok _ => Ok true
       | Err ENOENT => Ok false
       | Err ELOOP => Err AccessLoopInSymbolicLinks
       | Err ENAMETOOLONG => Err AccessMaxSupportedPathLengthExceeded
       | Err v => Err (AccessUnknownError v)
       end.

(* src/iceoryx2_bb/posix/src/file.rs:697-714 remove *)
Definition remove (p : list Z) : prog (Result bool FileRemoveError) :=
  let? r := syscall (Remove p) in
  Done match r with
       | Ok _ => Ok true
       | Err ENOENT => Ok false
       | Err (EACCES | EPERM) => Err FileRemoveInsufficientPermissions
       | Err EBUSY => Err FileRemoveCurrentlyInUse
       | Err ELOOP => Err FileRemoveLoopInSymbolicLinks
       | Err ENAMETOOLONG => Err FileRemoveMaxSupportedPathLengthExceeded
       | Err EROFS => Err FileRemovePartOfReadOnlyFileSystem
       | Err v => Err (FileRemoveUnknownError v)
       end.

(* src/iceoryx2_bb/posix/src/file.rs:676-684 remove_self *)
Definition remove_self (f : File) : prog (Result bool FileRemoveError) :=
  let? r := match f.(path) with None => Done (Ok false) | Some p => remove p end in
  let? _ := drop_file f in Done r.

(* src/iceoryx2_bb/posix/src/file.rs:470-484 create *)
Definition creation_error (e : Errno) : FileCreationError :=
  match e with
  | EACCES => CreationInsufficientPermissions
  | EEXIST => CreationFileAlreadyExists
  | EINTR => CreationInterrupt
  | ENOENT => CreationDirectoryDoesNotExist
  | EISDIR => CreationIsDirectory
  | ELOOP => CreationLoopInSymbolicLinks
  | EMFILE => CreationPerProcessFileHandleLimitReached
  | ENAMETOOLONG => CreationMaxFilePathLengthExceeded
  | ENFILE => CreationSystemWideFileHandleLimitReached
  | EOVERFLOW => CreationFileTooBig
  | ENOSPC => CreationNoSpaceLeft
  | EROFS => CreationFilesytemIsReadOnly
  | ENOMEM => CreationInsufficientMemory
  | v => CreationUnknownError v
  end.

(* src/iceoryx2_bb/posix/src/file.rs:422-485 create *)
Definition create (config : FileBuilder) : prog (Result File FileCreationError) :=
  match config.(creation_mode) with
  | None => Crash
  | Some m =>
      let flags := creation_oflag m ++ access_oflag config.(access_mode) in
      let create_file :=
        let? r := syscall (OpenWithMode config.(file_path) flags config.(b_permission)) in descriptor_new r in
      let finish (p : prog (Result FileDescriptor Errno)) : prog (Result File FileCreationError) :=
        try_ p creation_error (fun fd => Done (Ok {| path := Some config.(file_path); file_descriptor := fd |})) in
      match m with
      | CreateExclusive => finish create_file
      | PurgeAndCreate =>
          try_ (does_exist config.(file_path)) CreationFileAccessError (fun exists_ =>
            if (exists_ : bool) then
              try_ (remove config.(file_path)) CreationFileRemoveError (fun _ => finish create_file)
            else finish create_file)
      | OpenOrCreate =>
          try_ (does_exist config.(file_path)) CreationFileAccessError (fun exists_ =>
            if (exists_ : bool) then
              finish (let? r := syscall (Open config.(file_path) (access_oflag config.(access_mode))) in
                      descriptor_new r)
            else finish create_file)
      end
  end.

(* src/iceoryx2_bb/posix/src/file.rs:501-514 open *)
Definition open_error (e : Errno) : FileOpenError :=
  match e with
  | EACCES => OpenInsufficientPermissions
  | EINTR => OpenInterrupt
  | EISDIR => OpenIsDirectory
  | ELOOP => OpenLoopInSymbolicLinks
  | EMFILE => OpenPerProcessFileHandleLimitReached
  | ENAMETOOLONG => OpenMaxFilePathLengthExceeded
  | ENFILE => OpenSystemWideFileHandleLimitReached
  | ENOENT => OpenFileDoesNotExist
  | EOVERFLOW => OpenFileTooBig
  | EROFS => OpenFilesytemIsReadOnly
  | ENOMEM => OpenInsufficientMemory
  | v => OpenUnknownError v
  end.

(* src/iceoryx2_bb/posix/src/file.rs:487-515 open *)
Definition open (config : FileBuilder) : prog (Result File FileOpenError) :=
  let? r := syscall (Open config.(file_path) (access_oflag config.(access_mode))) in
  try_ (descriptor_new r) open_error (fun fd =>
    Done (Ok {| path := Some config.(file_path); file_descriptor := fd |})).

(* src/iceoryx2_bb/posix/src/file.rs:301-304 open_existing *)
Definition open_existing (c : FileBuilder) (m : AccessMode) : prog (Result File FileOpenError) :=
  open {| file_path := c.(file_path); access_mode := m; b_permission := c.(b_permission); b_owner := c.(b_owner);
          b_group := c.(b_group); truncate_size := c.(truncate_size); creation_mode := c.(creation_mode) |}.

(* src/iceoryx2_bb/posix/src/file.rs:738-753 acquire_attributes *)
Definition acquire_attributes (f : File) : prog (Result stat_t FileStatError) :=
  let? r := syscall (Fstat (native_handle f)) in
  Done match r with
       | Ok attr => Ok attr
       | Err EBADF => Err StatInvalidFileDescriptor
       | Err EIO => Err StatIOerror
       | Err EOVERFLOW => Err StatFileTooBig
       | Err v => Err (StatUnknownError v)
       end.

(* src/iceoryx2_bb/posix/src/file_descriptor.rs:298-303 metadata *)
Definition metadata (f : File) : prog (Result Metadata FileStatError) :=
  try_ (acquire_attributes f) id (fun attr => Done (Ok (metadata_create attr))).

(* src/iceoryx2_bb/posix/src/file.rs:755-778 set_offset *)
Definition set_offset (f : File) (offset : Z) : prog (Result Z FileOffsetError) :=
  let? r := syscall (Lseek (native_handle f) offset) in
  Done match r with
       | Ok new_offset => Ok new_offset
       | Err EBADF => Err OffsetInvalidFileDescriptor
       | Err EOVERFLOW => Err OffsetFileTooBig
       | Err ESPIPE => Err OffsetDoesNotSupportSeeking
       | Err v => Err (OffsetUnknownError v)
       end.

(* src/iceoryx2_bb/posix/src/file.rs:780-797 set_permission *)
Definition set_permission (f : File) (p : Z) : prog (Result unit FileSetPermissionError) :=
  let? r := syscall (Fchmod (native_handle f) p) in
  Done match r with
       | Ok _ => Ok tt
       | Err EBADF => Err PermissionInvalidFileDescriptor
       | Err EPERM => Err PermissionInsufficientPermissions
       | Err EROFS => Err PermissionReadOnlyFilesystem
       | Err v => Err (PermissionUnknownError v)
       end.

(* src/iceoryx2_bb/posix/src/file.rs:799-818 set_ownership *)
Definition set_ownership (f : File) (u g : Z) : prog (Result unit FileSetOwnerError) :=
  let? r := syscall (Fchown (native_handle f) u g) in
  Done match r with
       | Ok _ => Ok tt
       | Err EBADF => Err OwnerInvalidFileDescriptor
       | Err EPERM => Err OwnerInsufficientPermissions
       | Err EROFS => Err OwnerReadOnlyFilesystem
       | Err EINVAL => Err OwnerInvalidId
       | Err EIO => Err OwnerIOerror
       | Err EINTR => Err OwnerInterrupt
       | Err v => Err (OwnerUnknownError v)
       end.

(* src/iceoryx2_bb/posix/src/file.rs:716-736 truncate *)
Definition truncate (f : File) (n : Z) : prog (Result unit FileTruncateError) :=
  let? r := syscall (Ftruncate (native_handle f) n) in
  Done match r with
       | Ok _ => Ok tt
       | Err EINTR => Err TruncateInterrupt
       | Err (EINVAL | EFBIG) => Err TruncateSizeTooBig
       | Err EIO => Err TruncateIOerror
       | Err EBADF => Err TruncateFileNotOpenedForWriting
       | Err EROFS => Err TruncateReadOnlyFilesystem
       | Err v => Err (TruncateUnknownError v)
       end.

(* src/iceoryx2_bb/posix/src/file.rs:646-658 flush *)
Definition flush (f : File) : prog (Result unit FileSyncError) :=
  let? r := syscall (Fsync (native_handle f)) in
  Done match r with
       | Ok _ => Ok tt
       | Err EINTR => Err SyncInterrupt
       | Err EINVAL => Err SyncNotSupported
       | Err EIO => Err SyncIOerror
       | Err v => Err (SyncUnknownError v)
       end.

(** An error after [create] drops the file, which closes it; it is not removed. *)
Definition or_drop {A E} (f : File) (p : prog (Result A E)) (g : E -> FileCreationError)
    (next : A -> prog (Result File FileCreationError)) : prog (Result File FileCreationError) :=
  let? r := p in
  match r with
  | Ok a => next a
  | Err e => let? _ := drop_file f in Done (Err (g e))
  end.

(* src/iceoryx2_bb/posix/src/file.rs:383-411 create *)
Definition builder_create (config : FileBuilder) : prog (Result File FileCreationError) :=
  try_ (create config) id (fun file =>
    or_drop file (set_permission file config.(b_permission)) CreationFileSetPermissionError (fun _ =>
    or_drop file (match config.(truncate_size) with Some n => truncate file n | None => Done (Ok tt) end)
      CreationFileTruncateError (fun _ =>
      match config.(b_owner), config.(b_group) with
      | None, None => Done (Ok file)
      | o, g =>
          or_drop file (acquire_attributes file) CreationFileStatError (fun attr =>
          or_drop file (set_ownership file (default attr.(st_uid) o) (default attr.(st_gid) g))
            CreationFileSetOwnerError (fun _ => Done (Ok file)))
      end))).

(* src/iceoryx2_bb/posix/src/file.rs:549-579 read_range *)
Definition read_range (f : File) (start : Z) (buf : list Z) : prog (Result Z FileReadError * list Z) :=
  let? r := set_offset f start in
  match r with
  | Err e => Done (Err (ReadFileOffsetError e), buf)
  | Ok offset =>
      if negb (offset =? start) then Done (Ok 0, buf)
      else
        let? r := syscall (Read (native_handle f) (zlength buf)) in
        Done match r with
             | Ok bytes => (Ok (zlength bytes), bytes ++ skipn (length bytes) buf)
             | Err EINTR => (Err ReadInterrupt, buf)
             | Err EIO => (Err ReadIOerror, buf)
             | Err EISDIR => (Err ReadIsDirectory, buf)
             | Err EOVERFLOW => (Err ReadFileTooBig, buf)
             | Err ENOBUFS => (Err ReadInsufficientResources, buf)
             | Err ENOMEM => (Err ReadInsufficientMemory, buf)
             | Err ENXIO => (Err ReadNonExistingOrIncapableDevice, buf)
             | Err v => (Err (ReadUnknownError v), buf)
             end
  end.

(* src/iceoryx2_bb/posix/src/file.rs:529-531 read *)
Definition read (f : File) (buf : list Z) : prog (Result Z FileReadError * list Z) := read_range f 0 buf.

(** [read_range(start, &mut buf[n..])] after the vector has been extended to [len]. *)
Definition read_into (f : File) (start : Z) (buf : list Z) (len : Z) : prog (Result Z FileReadError * list Z) :=
  let? '(r, tail) := read_range f start (replicate (Z.to_nat (len - zlength buf)) 0) in
  Done (r, buf ++ tail).

(* src/iceoryx2_bb/posix/src/file.rs:534-540 read_to_vector *)
Definition read_to_vector (f : File) (buf : list Z) : prog (Result Z FileReadError * list Z) :=
  let? r := acquire_attributes f in
  match r with
  | Err e => Done (Err (ReadFileStatError e), buf)
  | Ok attr => let? len := lift (attr.(st_size) +u64 zlength buf) in read_into f 0 buf len
  end.

(* src/iceoryx2_bb/posix/src/file.rs:582-595 read_range_to_vector *)
Definition read_range_to_vector (f : File) (start end_ : Z) (buf : list Z) : prog (Result Z FileReadError * list Z) :=
  if end_ <=? start then Done (Ok 0, buf)
  else let? len := lift ((end_ - start) +u64 zlength buf) in read_into f start buf len.

(* src/iceoryx2_bb/posix/src/file.rs:631-642 write_at *)
Definition write_error (e : Errno) : FileWriteError :=
  match e with
  | EFBIG => WriteBufferTooBig
  | EINTR => WriteInterrupt
  | EIO => WriteIOerror
  | ENOSPC => WriteNoSpaceLeft
  | ENOBUFS => WriteInsufficientResources
  | ENXIO => WriteNonExistingOrIncapableDevice
  | EACCES => WriteInsufficientPermissions
  | v => WriteUnknownError v
  end.

(* src/iceoryx2_bb/posix/src/file.rs:613-643 write_at *)
Definition write_at (f : File) (start : Z) (buf : list Z) : prog (Result Z FileWriteError) :=
  try_ (set_offset f start) WriteFileOffsetError (fun offset =>
    if negb (offset =? start) then Done (Ok 0)
    else try_ (syscall (Write (native_handle f) buf)) write_error (fun n => Done (Ok n))).

(* src/iceoryx2_bb/posix/src/file.rs:608-610 write *)
Definition write (f : File) (buf : list Z) : prog (Result Z FileWriteError) := write_at f 0 buf.

End operations.

(** ** Permissions *)

Lemma take_bit_land m i p : 0 <= i -> take_bit m (2 ^ i) p = Z.lor p (Z.land m (2 ^ i)).
Proof.
  intros Hi. unfold take_bit. assert (E : Z.land m (2 ^ i) = if Z.testbit m i then 2 ^ i else 0).
  { apply Z.bits_inj'. intros j Hj. rewrite Z.land_spec, Z.pow2_bits_eqb by lia.
    destruct (Z.eqb_spec i j) as [<-|Hne]; [|rewrite andb_false_r].
    - rewrite andb_true_r. destruct (Z.testbit m i); [by rewrite Z.pow2_bits_true by lia|by rewrite Z.bits_0].
    - destruct (Z.testbit m i); [by rewrite Z.pow2_bits_false by lia|by rewrite Z.bits_0]. }
  rewrite E. destruct (Z.testbit m i).
  - by destruct (Z.eqb_spec (2 ^ i) 0); [pose proof (Z.pow_pos_nonneg 2 i); lia|].
  - by rewrite Z.lor_0_r.
Qed.

(** The twelve tests of [as_permission] select the twelve low bits of a mode. *)
Lemma as_permission_land m : as_permission m = Z.land m MASK.
Proof.
  unfold as_permission. cbv zeta.
  change (bits OWNER_READ) with (2 ^ 8). change (bits OWNER_WRITE) with (2 ^ 7). change (bits OWNER_EXEC) with (2 ^ 6).
  change (bits GROUP_READ) with (2 ^ 5). change (bits GROUP_WRITE) with (2 ^ 4). change (bits GROUP_EXEC) with (2 ^ 3).
  change (bits OTHERS_READ) with (2 ^ 2). change (bits OTHERS_WRITE) with (2 ^ 1). change (bits OTHERS_EXEC) with (2 ^ 0).
  change (bits SET_UID) with (2 ^ 11). change (bits SET_GID) with (2 ^ 10). change (bits STICKY_BIT) with (2 ^ 9).
  rewrite !take_bit_land by lia. rewrite <-!Z.land_assoc, Z.lor_0_l, <-!Z.land_lor_distr_r. reflexivity.
Qed.

(** ** Calls on a file *)

Section lemmas.
Context `{Profile} (umask : nat -> Z) (pid : nat) (faulty : bool) (hangs : Prop).
Implicit Types (k : kernel) (f : File).

Definition opens k f (d : descriptor) : Prop := k.(descriptors) !! (pid, native_handle f) = Some d.

Lemma wp_set_offset f o Q k d : opens k f d -> 0 <= o ->
  Q (Ok o) (set_descriptors k (<[(pid, native_handle f) := seek d o]> k.(descriptors))) ->
  (faulty = true -> forall e, Q (Err e) k) ->
  wp_alone umask pid faulty hangs (set_offset f o) Q k.
Proof.
  intros Hd Ho HQ He. split; [done|]. intros [n|e] k' Hp; cbn in Hp.
  - destruct Hp as (d' & Ed & -> & _ & ->). rewrite Hd in Ed. injection Ed as <-. exact HQ.
  - destruct Hp as [Hj ->]. destruct e; try (apply (He Hj)); [congruence|]. apply He. destruct Hj; [lia|done].
Qed.

Lemma same_seek k f d :
  opens k f d -> set_descriptors k (<[(pid, native_handle f) := seek d d.(offset)]> k.(descriptors)) = k.
Proof. destruct k, d. unfold set_descriptors, opens. cbn. intros E. f_equal. by apply insert_id. Qed.

Lemma wp_write_at f start buf Q k d n : opens k f d -> k.(nodes) !! d.(target) = Some n -> d.(writable) = true -> 0 <= start ->
  (forall c o, 0 <= c <= zlength buf -> (faulty = false -> c = zlength buf) ->
    Q (Ok c) (set_node (set_descriptors k (<[(pid, native_handle f) := seek d o]> k.(descriptors))) d.(target)
      (set_data n (splice n.(data) start (take (Z.to_nat c) buf))))) ->
  (faulty = true -> forall e o, Q (Err e) (set_descriptors k (<[(pid, native_handle f) := seek d o]> k.(descriptors)))) ->
  wp_alone umask pid faulty hangs (write_at f start buf) Q k.
Proof.
  intros Hd Hn Hw Hs HQ He. apply wp_try. eapply wp_set_offset; [done..| |].
  - rewrite Z.eqb_refl. cbn [negb]. apply wp_try. split; [done|]. intros [c|e] k' Hp; cbn in Hp |- *.
    + destruct Hp as (d' & n' & Ed & En & _ & Hc & Hf & ->). rewrite lookup_insert_eq in Ed. injection Ed as <-. cbn in *.
      rewrite Hn in En. injection En as <-. unfold set_descriptors. cbn. rewrite insert_insert_eq. by apply HQ.
    + destruct Hp as [Hj ->]. destruct e; try (apply (He Hj)).
      specialize (Hj _ (lookup_insert_eq _ _ _)). cbn in Hj. congruence.
  - intros Hf e. rewrite <-(same_seek k f d) by done. by apply He.
Qed.

Lemma wp_read_range f start buf Q k d n : opens k f d -> k.(nodes) !! d.(target) = Some n -> d.(readable) = true -> 0 <= start ->
  (forall l o, l `prefix_of` drop (Z.to_nat start) n.(data) -> zlength l <= zlength buf ->
    (faulty = false -> zlength l = zlength buf `min` zlength (drop (Z.to_nat start) n.(data))) ->
    Q (Ok (zlength l), l ++ drop (length l) buf) (set_descriptors k (<[(pid, native_handle f) := seek d o]> k.(descriptors)))) ->
  (faulty = true -> forall e o, Q (Err e, buf) (set_descriptors k (<[(pid, native_handle f) := seek d o]> k.(descriptors)))) ->
  wp_alone umask pid faulty hangs (read_range f start buf) Q k.
Proof.
  intros Hd Hn Hw Hs HQ He. apply wp_bind. eapply wp_set_offset; [done..| |].
  - rewrite Z.eqb_refl. cbn [negb]. apply wp_bind. split; [done|]. intros [l|e] k' Hp; cbn in Hp |- *.
    + destruct Hp as (d' & n' & Ed & En & _ & Hc & Hpre & Hf & ->). rewrite lookup_insert_eq in Ed. injection Ed as <-. cbn in *.
      rewrite Hn in En. injection En as <-. unfold set_descriptors. cbn. rewrite insert_insert_eq. by apply HQ.
    + destruct Hp as [Hj ->]. destruct e; try (apply (He Hj)).
      * specialize (Hj _ (lookup_insert_eq _ _ _)). cbn in Hj. congruence.
      * apply He. pose proof (zlength_nonneg buf). destruct Hj; [lia|done].
  - intros Hf e. rewrite <-(same_seek k f d) by done. by apply He.
Qed.

Lemma wp_descriptor_new fd Q k d : k.(descriptors) !! (pid, fd) = Some d ->
  Q (Ok {| value := fd; is_owned := true |}) k -> wp_alone umask pid faulty hangs (descriptor_new (Ok fd)) Q k.
Proof.
  intros Hd HQ. split; [done|]. intros [a|e] k' Hp; cbn in Hp; [by destruct Hp as [_ ->]|].
  destruct Hp as [Hj _]. destruct e; (done || congruence).
Qed.

Lemma wp_set_permission f p Q k d n : opens k f d -> k.(nodes) !! d.(target) = Some n ->
  Q (Ok tt) (set_node k d.(target) (set_mode n (Z.lor (Z.land n.(mode) S_IFMT) p))) ->
  (faulty = true -> forall e, Q (Err e) k) -> wp_alone umask pid faulty hangs (set_permission f p) Q k.
Proof.
  intros Hd Hn HQ He. split; [done|]. intros [a|e] k' Hp; cbn in Hp.
  - destruct Hp as (d' & n' & Ed & En & ->). rewrite Hd in Ed. injection Ed as <-. rewrite Hn in En. by injection En as <-.
  - destruct Hp as [Hj ->]. destruct e; try (apply (He Hj)). congruence.
Qed.

Lemma wp_acquire_attributes f Q k d n : opens k f d -> k.(nodes) !! d.(target) = Some n ->
  Q (Ok (attributes n)) k -> (faulty = true -> forall e, Q (Err e) k) ->
  wp_alone umask pid faulty hangs (acquire_attributes f) Q k.
Proof.
  intros Hd Hn HQ He. split; [done|]. intros [a|e] k' Hp; cbn in Hp.
  - destruct Hp as (d' & n' & Ed & En & -> & ->). rewrite Hd in Ed. injection Ed as <-. rewrite Hn in En. by injection En as <-.
  - destruct Hp as [Hj ->]. destruct e; try (apply (He Hj)). congruence.
Qed.

(** Closing a descriptor; with failing calls it may take more than the fuel. *)
Lemma wp_close_loop fuel fd Q k d : (faulty = true -> hangs) -> (0 < fuel)%nat -> k.(descriptors) !! (pid, fd) = Some d ->
  Q tt (set_descriptors k (delete (pid, fd) k.(descriptors))) -> wp_alone umask pid faulty hangs (close_loop fuel fd) Q k.
Proof.
  intros Hh Hf Hd HQ. assert (Hgo : forall m, (faulty = true -> wp_alone umask pid faulty hangs (close_loop m fd) Q k) ->
    wp_alone umask pid faulty hangs (close_loop (S m) fd) Q k).
  { intros m Hm. split; [done|]. intros [a|e] k' Hp; cbn in Hp; [by destruct Hp as [_ ->]|].
    destruct Hp as [Hj ->]. destruct e; try done; try (by apply Hm). congruence. }
  destruct fuel as [|m]; [lia|]. apply Hgo. intros ->. clear Hf. induction m as [|m IH]; [by apply Hh|by apply Hgo].
Qed.

Lemma wp_drop_file fuel f Q k d : (faulty = true -> hangs) -> (0 < fuel)%nat -> f.(file_descriptor).(is_owned) = true ->
  opens k f d -> Q tt (set_descriptors k (delete (pid, native_handle f) k.(descriptors))) ->
  wp_alone umask pid faulty hangs (drop_file fuel f) Q k.
Proof. intros Hh Hf Ho Hd HQ. unfold drop_file, drop_descriptor. rewrite Ho. by eapply wp_close_loop. Qed.

(** The type of a file is not among the permissions. *)
Lemma mode_type p u : 0 <= p <= MASK -> Z.lor (Z.land (Z.lor S_IFREG (Z.ldiff p u)) S_IFMT) p = Z.lor S_IFREG p.
Proof.
  intros Hp. f_equal. rewrite Z.land_lor_distr_l, Z.ldiff_land.
  assert (E : Z.land p S_IFMT = 0).
  { rewrite <-(Z.mod_small p (2 ^ 12)), <-Z.land_ones, <-Z.land_assoc by (cbn in *; lia).
    change (Z.land (Z.ones 12) S_IFMT) with 0. apply Z.land_0_r. }
  by rewrite <-Z.land_assoc, (Z.land_comm (Z.lnot u)), Z.land_assoc, E, Z.land_0_l.
Qed.

(** The system after the file [p] has been created as node [i] and opened as [fd]. *)
Definition created k (p : list Z) (i : nat) (fd : Z) (n : node) : kernel :=
  open_descriptor pid (set_names (set_node k i n) (<[p := i]> k.(names))) fd i [O_CREAT; O_EXCL; O_RDWR].

Definition new_file (p : list Z) (permission : Z) : FileBuilder :=
  with_permission (with_creation_mode (builder_new p) CreateExclusive) permission.

Lemma wp_create_exclusive p m fuel Q k : (faulty = true -> hangs) -> (0 < fuel)%nat -> 0 <= m <= MASK ->
  (forall fd i n, k.(names) !! p = None -> k.(nodes) !! i = None -> unused pid k fd ->
    n.(mode) = Z.lor S_IFREG m -> n.(data) = [] ->
    Q (Ok {| path := Some p; file_descriptor := {| value := fd; is_owned := true |} |}) (created k p i fd n)) ->
  (is_Some (k.(names) !! p) -> Q (Err CreationFileAlreadyExists) k) ->
  (faulty = true -> forall e k', e <> CreationFileAlreadyExists ->
    k'.(names) = k.(names) \/ (k.(names) !! p = None /\ exists i, k'.(names) = <[p := i]> k.(names)) -> Q (Err e) k') ->
  wp_alone umask pid faulty hangs (builder_create fuel (new_file p m)) Q k.
Proof.
  intros Hh Hf Hm HQ Hex He. apply wp_try. unfold create. cbn [new_file with_permission with_creation_mode creation_mode].
  apply wp_try, wp_bind. split; [done|]. intros [fd|e] k' Hp; cbn in Hp.
  - destruct Hp as [Hfd Hp]. destruct (k.(names) !! p) as [i|] eqn:Ep; [destruct Hp as [Hp _]; set_solver|].
    destruct Hp as (_ & i & k1 & Hi & (n & [Em Ed] & ->) & ->). eapply wp_descriptor_new; [apply lookup_insert_eq|].
    apply wp_bind. eapply wp_set_permission; [apply lookup_insert_eq|apply lookup_insert_eq| |].
    + cbn. replace (set_node _ _ _) with (created k p i fd (set_mode n (Z.lor S_IFREG m))).
      * by apply HQ.
      * unfold created, set_node, set_nodes, set_names, open_descriptor, set_descriptors. cbn. f_equal.
        rewrite insert_insert_eq, Em. by rewrite mode_type.
    + intros E e. apply wp_bind. eapply wp_drop_file; [done..|apply lookup_insert_eq|]. cbn. apply He; [done..|]. right. eauto.
  - destruct Hp as [Hj ->]. destruct e; try (apply (He Hj); [done|by left]); cbn.
    + apply Hex, Hj.
    + destruct Hj as [[Hc _]|Hj]; [set_solver|]. apply (He Hj); [done|by left].
Qed.

Lemma wp_open p a Q k :
  (forall fd i, k.(names) !! p = Some i -> unused pid k fd ->
    Q (Ok {| path := Some p; file_descriptor := {| value := fd; is_owned := true |} |})
      (open_descriptor pid k fd i (access_oflag a))) ->
  (forall e, (e = OpenFileDoesNotExist -> k.(names) !! p = None) -> (faulty = false -> e = OpenFileDoesNotExist) ->
    Q (Err e) k) ->
  wp_alone umask pid faulty hangs (open_existing (builder_new p) a) Q k.
Proof.
  intros HQ He. split; [done|]. intros [fd|e] k' Hp; cbn in Hp.
  - destruct Hp as (i & Hi & _ & Hfd & ->). apply wp_try. eapply wp_descriptor_new; [apply lookup_insert_eq|]. by apply HQ.
  - destruct Hp as [Hj ->]. cbn. destruct e; (apply He; [done|]); intros ->; done.
Qed.

End lemmas.

(** ** Properties *)

Lemma resize_length l n : 0 <= n -> zlength (resize l n) = n.
Proof. intros Hn. unfold resize, zlength. rewrite length_app, length_take, length_replicate. lia. Qed.

Lemma drop_splice l o buf : 0 <= o -> drop (Z.to_nat o) (splice l o buf) = buf ++ drop (Z.to_nat (o + zlength buf)) l.
Proof. intros Ho. unfold splice. apply drop_zlength_app. by rewrite resize_length. Qed.

Lemma prefix_take {A} (l k : list A) : l `prefix_of` k -> l = take (length l) k.
Proof. intros [x ->]. by rewrite take_app_length. Qed.

(** What reading at [start] gives and that it changes nothing but an offset. *)
Lemma wp_read_back umask pid faulty k f start blank d n :
  k.(descriptors) !! (pid, native_handle f) = Some d -> k.(nodes) !! d.(target) = Some n -> d.(readable) = true -> 0 <= start ->
  wp_alone umask pid faulty False (read_range f start blank) (fun '(s, out) k' =>
    k'.(names) = k.(names) /\ k'.(nodes) = k.(nodes) /\
    match s with
    | Ok c => out = take (Z.to_nat c) (drop (Z.to_nat start) n.(data)) ++ drop (Z.to_nat c) blank
    | Err _ => out = blank
    end /\
    (faulty = false -> s = Ok (zlength blank `min` zlength (drop (Z.to_nat start) n.(data))))) k.
Proof.
  intros Hd Hn Hr Hs. eapply wp_read_range; [done..| |].
  - intros l o Hl Hb Hf. do 2 (split; [done|]). unfold zlength at 1 2. rewrite !Nat2Z.id. split.
    + by rewrite <-(prefix_take _ _ Hl).
    + intros E. by rewrite Hf.
  - intros -> e o. do 3 (split; [done|]). done.
Qed.

(** Writing a file and reading it back.  Whatever the system answers, both calls return
    and only the data of the written file change: a successful write has put the bytes it
    counts at the offset, a failed one nothing; a successful read has put the bytes it
    counts, those that are now at the offset, at the front of the buffer, a failed one
    nothing.  In a reliable system both succeed and the buffer holds what was written. *)
Theorem file_write_read {W} (umask : nat -> Z) (faulty : bool) `{PosixLaws umask faulty W} w pid f start buf blank d n :
  (view w).(descriptors) !! (pid, native_handle f) = Some d -> (view w).(nodes) !! d.(target) = Some n ->
  d.(readable) = true -> d.(writable) = true -> 0 <= start -> zlength blank = zlength buf ->
  exists r s out w' n',
    run pid (let? r := write_at f start buf in let? '(s, out) := read_range f start blank in Done (r, s, out)) w =
      Some (Ret ((r, s, out), w')) /\
    (view w').(names) = (view w).(names) /\
    (view w').(nodes) = <[d.(target) := n']> (view w).(nodes) /\
    n' = set_data n (match r with Ok c => splice n.(data) start (take (Z.to_nat c) buf) | Err _ => n.(data) end) /\
    match s with
    | Ok c => out = take (Z.to_nat c) (drop (Z.to_nat start) n'.(data)) ++ drop (Z.to_nat c) blank
    | Err _ => out = blank
    end /\
    (faulty = false -> r = Ok (zlength buf) /\ s = Ok (zlength buf) /\ out = buf).
Proof.
  intros Hd Hn Hrd Hwr Hs Hlen.
  enough (Hwp : wp_alone umask pid faulty False
    (let? r := write_at f start buf in let? '(s, out) := read_range f start blank in Done (r, s, out))
    (fun '(r, s, out) k' => k'.(names) = (view w).(names) /\
      let n' := set_data n (match r with Ok c => splice n.(data) start (take (Z.to_nat c) buf) | Err _ => n.(data) end) in
      k'.(nodes) = <[d.(target) := n']> (view w).(nodes) /\
      match s with
      | Ok c => out = take (Z.to_nat c) (drop (Z.to_nat start) n'.(data)) ++ drop (Z.to_nat c) blank
      | Err _ => out = blank
      end /\
      (faulty = false -> r = Ok (zlength buf) /\ s = Ok (zlength buf) /\ out = buf)) (view w)).
  { apply wp_alone_returns in Hwp as ([[r s] out] & w' & E & Hnm & Hnd & HQ & Hf). exists r, s, out, w'. by eexists. }
  apply wp_bind. eapply wp_write_at; [done..| |].
  - intros c o Hc Hf. apply wp_bind. eapply wp_mono.
    { eapply wp_read_back; [apply lookup_insert_eq|apply lookup_insert_eq|done..]. }
    intros [s out] k' (Hnm & Hnd & Hout & Hs'). split; [done|]. split; [done|]. split; [done|]. intros E.
    specialize (Hf E). specialize (Hs' E). subst c s. cbn [data set_data] in *. rewrite drop_splice in * by done.
    rewrite (take_ge buf) in * by (unfold zlength; lia). split; [done|]. rewrite Hlen, zlength_app, Z.min_l in * by (pose proof (zlength_nonneg (drop (Z.to_nat (start + zlength buf)) n.(data))); lia).
    split; [done|]. rewrite Hout. rewrite take_zlength_app, drop_ge by (done || unfold zlength in *; lia). apply app_nil_r.
  - intros -> e o. apply wp_bind. eapply wp_mono.
    { eapply wp_read_back; [apply lookup_insert_eq|done..]. }
    intros [s out] k' (Hnm & Hnd & Hout & _). split; [done|]. split; [|by split].
    rewrite Hnd. cbn. symmetry. apply insert_id. rewrite Hn. by destruct n.
Qed.


Lemma mode_metadata m : 0 <= m <= MASK ->
  as_permission (Z.lor S_IFREG m) = m /\ from_mode_t (Z.lor S_IFREG m) = TypeFile.
Proof.
  intros Hm. assert (Hl : m = Z.land m MASK).
  { change (bits MASK) with (Z.ones 12). rewrite Z.land_ones by lia. symmetry. apply Z.mod_small. cbn in *. lia. }
  split.
  - by rewrite as_permission_land, Z.land_lor_distr_l, <-Hl.
  - unfold from_mode_t. replace (Z.land (Z.lor S_IFREG m) S_IFMT) with S_IFREG; [done|].
    rewrite Z.land_lor_distr_l, Hl, <-Z.land_assoc. change (Z.land MASK S_IFMT) with 0. by rewrite Z.land_0_r.
Qed.

(** C29: Creating a file exclusively.  On success the name was free and now names a new,
    empty regular file with exactly the permissions that were asked for, whatever the
    umask of the process, opened for reading and writing; nothing else has changed.
    [FileAlreadyExists] means that the name was taken, and nothing has changed.  Every
    other error, such as a missing directory or insufficient permissions, leaves the names
    as they were or the new file behind.  Such errors, and a close that is interrupted
    again and again, occur only where calls may fail for reasons outside of the model of
    the file system ([faulty]), which has names, nodes and descriptors but no parent
    directories, checks of permissions or limits. *)
Theorem file_create_exclusive {W} (umask : nat -> Z) (faulty : bool) `{PosixLaws umask faulty W} w pid p m fuel :
  0 <= m <= MASK -> (0 < fuel)%nat ->
  let names_before := (view w).(names) in
  match run pid (builder_create fuel (new_file p m)) w with
  | Some (Ret (Ok f, w')) =>
      names_before !! p = None /\ exists i n, (view w).(nodes) !! i = None /\ n.(data) = [] /\
        from_mode_t n.(mode) = TypeFile /\ as_permission n.(mode) = m /\
        view w' = created pid (view w) p i (native_handle f) n
  | Some (Ret (Err CreationFileAlreadyExists, w')) => is_Some (names_before !! p) /\ view w' = view w
  | Some (Ret (Err _, w')) => faulty = true /\
      ((view w').(names) = names_before \/ names_before !! p = None /\ exists i, (view w').(names) = <[p := i]> names_before)
  | Some Panic => False
  | None => faulty = true
  end.
Proof.
  intros Hm Hf names_before. destruct (mode_metadata m Hm) as [Ep Et].
  refine (wp_alone_run umask faulty (faulty = true) pid (builder_create fuel (new_file p m)) (fun r k' =>
    match r with
    | Ok f => names_before !! p = None /\ exists i n, (view w).(nodes) !! i = None /\ n.(data) = [] /\
        from_mode_t n.(mode) = TypeFile /\ as_permission n.(mode) = m /\ k' = created pid (view w) p i (native_handle f) n
    | Err CreationFileAlreadyExists => is_Some (names_before !! p) /\ k' = view w
    | Err _ => faulty = true /\
      (k'.(names) = names_before \/ names_before !! p = None /\ exists i, k'.(names) = <[p := i]> names_before)
    end) w _).
  apply wp_create_exclusive; [done..| | |].
  - intros fd i n Hp Hi _ En Ed. split; [done|]. exists i, n. by rewrite En.
  - intros Hp. by split.
  - intros E e k' Hne Hk. by destruct e.
Qed.

(** ** Concrete files *)

Import Simple.

Definition empty_system : system.
Proof.
  refine (no_files ↾ _). split; cbn; intros; by rewrite lookup_empty in *.
Defined.

Definition no_umask (pid : nat) : Z := 0.

(** The file [a] is created and its permissions and type are read back. *)
Lemma file_create_exclusive_witness : exists f w' i n,
  run 0 (builder_create 1 (new_file [97] OWNER_ALL)) (H := simple_posix no_umask) empty_system = Some (Ret (Ok f, w')) /\
  (`w').(nodes) !! i = Some n /\ from_mode_t n.(mode) = TypeFile /\ as_permission n.(mode) = OWNER_ALL.
Proof.
  pose proof (file_create_exclusive no_umask false (H := simple_posix no_umask) (H0 := simple_laws no_umask) empty_system 0 [97] OWNER_ALL 1
    ltac:(vm_compute; split; discriminate) ltac:(lia)) as Ht. cbv zeta in Ht.
  assert (Hok : match run 0 (builder_create 1 (new_file [97] OWNER_ALL)) (H := simple_posix no_umask) empty_system with
    | Some (Ret (Ok _, _)) => true | _ => false end = true) by (vm_compute; reflexivity).
  destruct (run 0 _ _) as [[[[f|e] w']|]|]; [|discriminate Hok..].
  destruct Ht as (_ & i & n & _ & _ & Hn & Hm & Hw). exists f, w', i, n. split; [reflexivity|].
  change (view w') with (`w') in Hw. rewrite Hw. split; [apply lookup_insert_eq|done].
Defined.

(** A system with the file [a], opened by process 0. *)
Definition example_kernel : kernel :=
  {| names := {[ [97] := 1%nat ]}; nodes := {[ 1%nat := blank (Z.lor S_IFREG OWNER_ALL) ]};
     descriptors := {[ (0%nat, 3) := opened 1 [O_RDWR] ]}; objects := ∅; mappings := ∅ |}.

Lemma example_kernel_wf : wf example_kernel.
Proof.
  split; cbn; intros x y Hx; (rewrite lookup_empty in Hx; done) || (apply lookup_singleton_Some in Hx as [<- <-]; by eexists).
Qed.

Definition example_file : File :=
  {| path := Some [97]; file_descriptor := {| value := 3; is_owned := true |} |}.

(** Three bytes are written to the file [a] and read back. *)
Lemma file_write_read_witness : exists w',
  run 0 (let? r := write_at example_file 0 [1; 2; 3] in
         let? '(s, out) := read_range example_file 0 [0; 0; 0] in Done (r, s, out))
    (H := simple_posix no_umask) (example_kernel ↾ example_kernel_wf) = Some (Ret ((Ok 3, Ok 3, [1; 2; 3]), w')).
Proof.
  destruct (file_write_read no_umask false (H := simple_posix no_umask) (H0 := simple_laws no_umask)
    (example_kernel ↾ example_kernel_wf) 0 example_file 0 [1; 2; 3] [0; 0; 0] (opened 1 [O_RDWR]) (blank (Z.lor S_IFREG OWNER_ALL))
    eq_refl eq_refl eq_refl eq_refl ltac:(lia) eq_refl) as (r & s & out & w' & n' & E' & _ & _ & _ & _ & Hf).
  destruct (Hf eq_refl) as (-> & -> & ->). by exists w'.
Defined.

End Files.
