(* ===== verification/Directory.v ===== *)
(** * Directories

    [iceoryx2_bb_posix::directory]: creating, listing and removing directories, as
    programs of system calls. *)

From S2P Require Import Prelude ByteString SemanticString SystemTypes NamedConcept Posix Files.

Module Directory.
Module S := SemanticString.
Import Posix Files.

(** ** Errors *)

(* src/iceoryx2_bb/posix/src/directory.rs:53-62 DirectoryOpenError *)
Inductive DirectoryOpenError :=
| DirOpenLoopInSymbolicLinks | DirOpenInsufficientPermissions | DirOpenNotADirectory
| DirOpenPerProcessFileHandleLimitReached | DirOpenSystemWideFileHandleLimitReached | DirOpenDoesNotExist
| DirOpenUnknownError (e : Errno).

(* src/iceoryx2_bb/posix/src/directory.rs:65-73 DirectoryStatError *)
Inductive DirectoryStatError :=
| DirStatInsufficientPermissions | DirStatIOerror | DirStatDoesNotExist | DirStatPathPrefixIsNotADirectory
| DirStatDataOverflowInStatStruct | DirStatLoopInSymbolicLinks | DirStatUnknownError (e : Errno).

(* src/iceoryx2_bb/posix/src/directory.rs:75-86 DirectoryReadError *)
Inductive DirectoryReadError :=
| DirReadInsufficientPermissions | DirReadDirectoryDoesNoLongerExist | DirReadInsufficientMemory
| DirReadPerProcessFileHandleLimitReached | DirReadSystemWideFileHandleLimitReached
| DirReadUnknownError (e : Errno) | DirReadStatError (e : DirectoryStatError).

(* src/iceoryx2_bb/posix/src/directory.rs:88-101 DirectoryCreateError *)
Inductive DirectoryCreateError :=
| DirCreateInsufficientPermissions | DirCreateDirectoryAlreadyExists | DirCreateLoopInSymbolicLinks
| DirCreateExceedsParentsLinkCount | DirCreatePartsOfThePathDoNotExist | DirCreatePartsOfThePathAreNotADirectory
| DirCreateNoSpaceLeft | DirCreateReadOnlyFilesystem | DirCreateUnknownError (e : option Errno)
| DirCreateOpenError (e : DirectoryOpenError).

(* src/iceoryx2_bb/posix/src/directory.rs:103-120 DirectoryRemoveError *)
Inductive DirectoryRemoveError :=
| DirRemoveInsufficientPermissions | DirRemoveCurrentlyInUse | DirRemoveNotEmptyOrHardLinksPointingToTheDirectory
| DirRemoveIOerror | DirRemoveLastComponentIsDot | DirRemoveLoopInSymbolicLinks | DirRemoveDirectoryDoesNotExist
| DirRemoveNotADirectory | DirRemoveResidesOnReadOnlyFileSystem | DirRemoveDanglingSymbolicLink
| DirRemoveUnknownError (e : Errno) | DirRemoveOpenError (e : DirectoryOpenError)
| DirRemoveReadError (e : DirectoryReadError) | DirRemoveFileRemoveError (e : FileRemoveError).

(* src/iceoryx2_bb/posix/src/directory.rs:123-130 DirectoryAccessError *)
Inductive DirectoryAccessError :=
| DirAccessInsufficientPermissions | DirAccessIOerror | DirAccessPathPrefixIsNotADirectory
| DirAccessDataOverflowInStatStruct | DirAccessLoopInSymbolicLinks | DirAccessUnknownError (e : Errno).

(** ** Operations *)

(* src/iceoryx2_bb/posix/src/directory.rs:165-168 DirectoryEntry *)
Record DirectoryEntry := { entry_name : FixedSizeByteString; entry_metadata : Metadata }.

(** The stream is represented by its file descriptor. *)
(* src/iceoryx2_bb/posix/src/directory.rs:184-188 Directory *)
Record Directory := { dir_path : FixedSizeByteString; directory_stream : Z }.

Section operations.
Context `{Profile} (fuel : nat) (memory file_memory : list Z).
Implicit Types (p : FixedSizeByteString) (d : Directory).

(* src/iceoryx2_bb/posix/src/directory.rs:191-218 drop *)
Fixpoint closedir_loop (fuel : nat) (fd : Z) : prog unit :=
  match fuel with
  | O => Hang
  | S fuel =>
      let? r := syscall (Closedir fd) in
      match r with
      | Ok _ => Done tt
      | Err EBADF => Crash
      | Err EINTR => closedir_loop fuel fd
      | Err _ => Crash
      end
  end.

Definition drop d : prog unit := closedir_loop fuel d.(directory_stream).

(* src/iceoryx2_bb/posix/src/directory.rs:222-250 new *)
Definition new p : prog (Result Directory DirectoryOpenError) :=
  let? r := syscall (Opendir (as_bytes p)) in
  match r with
  | Ok fd => if fd <? 0 then Crash else Done (Ok {| dir_path := p; directory_stream := fd |})
  | Err EACCES => Done (Err DirOpenInsufficientPermissions)
  | Err ELOOP => Done (Err DirOpenLoopInSymbolicLinks)
  | Err ENOENT => Done (Err DirOpenDoesNotExist)
  | Err ENOTDIR => Done (Err DirOpenNotADirectory)
  | Err EMFILE => Done (Err DirOpenPerProcessFileHandleLimitReached)
  | Err ENFILE => Done (Err DirOpenSystemWideFileHandleLimitReached)
  | Err v => Done (Err (DirOpenUnknownError v))
  end.

(* src/iceoryx2_bb/posix/src/directory.rs:252-273 create_single_directory *)
Definition create_single_directory p (permission : Z) : prog (Result unit DirectoryCreateError) :=
  let? r := syscall (Mkdir (as_bytes p) permission) in
  Done match r with
       | Ok _ => Ok tt
       | Err EACCES => Err DirCreateInsufficientPermissions
       | Err EEXIST => Err DirCreateDirectoryAlreadyExists
       | Err ELOOP => Err DirCreateLoopInSymbolicLinks
       | Err EMLINK => Err DirCreateExceedsParentsLinkCount
       | Err ENOENT => Err DirCreatePartsOfThePathDoNotExist
       | Err ENOSPC => Err DirCreateNoSpaceLeft
       | Err ENOTDIR => Err DirCreatePartsOfThePathAreNotADirectory
       | Err EROFS => Err DirCreateReadOnlyFilesystem
       | Err v => Err (DirCreateUnknownError (Some v))
       end.

(* src/iceoryx2_bb/posix/src/directory.rs:435-452 does_exist *)
Definition does_exist p : prog (Result bool DirectoryAccessError) :=
  let? r := syscall (Stat (as_bytes p)) in
  Done match r with
       | Ok buffer => Ok (negb (Z.land buffer.(st_mode) S_IFDIR =? 0))
       | Err ENOENT => Ok false
       | Err EACCES => Err DirAccessInsufficientPermissions
       | Err EIO => Err DirAccessIOerror
       | Err ELOOP => Err DirAccessLoopInSymbolicLinks
       | Err ENOTDIR => Err DirAccessPathPrefixIsNotADirectory
       | Err EOVERFLOW => Err DirAccessDataOverflowInStatStruct
       | Err v => Err (DirAccessUnknownError v)
       end.

(** [expect] on the result of an operation on a path. *)
Definition expect_path (o : outcome (Result unit SemanticStringError * FixedSizeByteString)) : prog FixedSizeByteString :=
  let? '(r, p) := lift o in match r with Ok _ => Done p | Err _ => Crash end.

Definition create_missing inc_path (permission : Z) (r : Result bool DirectoryAccessError)
    : prog (Result unit DirectoryCreateError) :=
  match r with
  | Ok true => Done (Ok tt)
  | Ok false => create_single_directory inc_path permission
  | Err DirAccessInsufficientPermissions => Done (Err DirCreateInsufficientPermissions)
  | Err DirAccessPathPrefixIsNotADirectory => Done (Err DirCreatePartsOfThePathAreNotADirectory)
  | Err _ => Done (Err (DirCreateUnknownError None))
  end.

(** The loop over the entries of the path. *)
(* src/iceoryx2_bb/posix/src/directory.rs:286-308 create *)
Fixpoint create_entries (entries : list (list Z)) inc_path (permission : Z) : prog (Result unit DirectoryCreateError) :=
  match entries with
  | [] => Done (Ok tt)
  | entry :: entries =>
      let? inc_path := expect_path (add_path_entry inc_path entry) in
      let? r := does_exist inc_path in
      try_ (create_missing inc_path permission r) id (fun _ => create_entries entries inc_path permission)
  end.

(* src/iceoryx2_bb/posix/src/directory.rs:276-319 create *)
Definition create p (permission : Z) : prog (Result Directory DirectoryCreateError) :=
  let? entries := lift (SystemTypes.entries (as_bytes p)) in
  let? r := lift (S.new (H0 := Path) PATH_LENGTH memory (if is_absolute (as_bytes p) then [PATH_SEPARATOR] else [])) in
  match r with
  | Err _ => Crash
  | Ok inc_path =>
      try_ (create_entries entries inc_path permission) id (fun _ =>
        try_ (new p) DirCreateOpenError (fun d => Done (Ok d)))
  end.

(* src/iceoryx2_bb/posix/src/directory.rs:454-473 acquire_metadata *)
Definition acquire_metadata d (file : FixedSizeByteString) : prog (Result Metadata DirectoryStatError) :=
  let? p := expect_path (S.push (H0 := Path) d.(dir_path) PATH_SEPARATOR) in
  let? p := expect_path (S.push_bytes (H0 := Path) p (as_bytes file)) in
  let? r := syscall (Stat (as_bytes p)) in
  Done match r with
       | Ok buffer => Ok (metadata_create buffer)
       | Err EACCES => Err DirStatInsufficientPermissions
       | Err EIO => Err DirStatIOerror
       | Err ELOOP => Err DirStatLoopInSymbolicLinks
       | Err ENOENT => Err DirStatDoesNotExist
       | Err ENOTDIR => Err DirStatPathPrefixIsNotADirectory
       | Err EOVERFLOW => Err DirStatDataOverflowInStatStruct
       | Err v => Err (DirStatUnknownError v)
       end.

(** The loop over the names of the directory; a name is a C string in memory. *)
(* src/iceoryx2_bb/posix/src/directory.rs:390-426 contents *)
Fixpoint contents_loop d (names : list (list Z)) : prog (Result (list DirectoryEntry) DirectoryReadError) :=
  match names with
  | [] => Done (Ok [])
  | raw_name :: names =>
      if bool_decide (raw_name = [DOT]) || bool_decide (raw_name = [DOT; DOT]) then contents_loop d names
      else
        let? r := lift (S.from_c_str (H0 := FileName) FILENAME_LENGTH file_memory (raw_name ++ [0])) in
        match r with
        | Ok name =>
            try_ (acquire_metadata d name) DirReadStatError (fun m =>
              try_ (contents_loop d names) id (fun l =>
                Done (Ok ({| entry_name := name; entry_metadata := m |} :: l))))
        | Err _ => contents_loop d names
        end
  end.

(* src/iceoryx2_bb/posix/src/directory.rs:372-432 contents *)
Definition contents d : prog (Result (list DirectoryEntry) DirectoryReadError) :=
  let? r := syscall (Scandir (as_bytes d.(dir_path))) in
  match r with
  | Ok names => contents_loop d names
  | Err EACCES => Done (Err DirReadInsufficientPermissions)
  | Err ENOENT => Done (Err DirReadDirectoryDoesNoLongerExist)
  | Err ENOMEM => Done (Err DirReadInsufficientMemory)
  | Err EMFILE => Done (Err DirReadPerProcessFileHandleLimitReached)
  | Err ENFILE => Done (Err DirReadSystemWideFileHandleLimitReached)
  | Err v => Done (Err (DirReadUnknownError v))
  end.

(* src/iceoryx2_bb/posix/src/directory.rs:350-365 remove *)
Definition rmdir_error (e : Errno) : DirectoryRemoveError :=
  match e with
  | EACCES | EPERM => DirRemoveInsufficientPermissions
  | EBUSY => DirRemoveCurrentlyInUse
  | EINVAL => DirRemoveLastComponentIsDot
  | ELOOP => DirRemoveLoopInSymbolicLinks
  | ENOENT => DirRemoveDanglingSymbolicLink
  | EEXIST => DirRemoveDirectoryDoesNotExist
  | ENOTDIR => DirRemoveNotADirectory
  | EROFS => DirRemoveResidesOnReadOnlyFileSystem
  | ENOTEMPTY => DirRemoveNotEmptyOrHardLinksPointingToTheDirectory
  | EIO => DirRemoveIOerror
  | v => DirRemoveUnknownError v
  end.

(** The loop over the contents, given the removal of a directory. *)
Fixpoint remove_entries (remove_directory : FixedSizeByteString -> prog (Result unit DirectoryRemoveError))
    p (l : list DirectoryEntry) : prog (Result unit DirectoryRemoveError) :=
  match l with
  | [] => Done (Ok tt)
  | entry :: l =>
      let? sub_path := expect_path (add_path_entry p (as_bytes entry.(entry_name))) in
      try_ (if bool_decide (entry.(entry_metadata).(file_type) = TypeDirectory) then remove_directory sub_path
            else try_ (Files.remove (as_bytes sub_path)) DirRemoveFileRemoveError (fun _ => Done (Ok tt)))
        id (fun _ => remove_entries remove_directory p l)
  end.

(** [depth] bounds the nesting of the directories. *)
(* src/iceoryx2_bb/posix/src/directory.rs:327-369 remove *)
Fixpoint remove (depth : nat) p : prog (Result unit DirectoryRemoveError) :=
  match depth with
  | O => Hang
  | S depth =>
      try_ (new p) DirRemoveOpenError (fun d =>
        let? r :=
          try_ (contents d) DirRemoveReadError (fun l =>
          try_ (remove_entries (remove depth) p l) id (fun _ =>
          try_ (syscall (Rmdir (as_bytes p))) rmdir_error (fun _ => Done (Ok tt)))) in
        let? _ := drop d in Done r)
  end.

End operations.

(** ** Paths

    The path that [create] builds from the entries fits into a [Path]. *)

Definition join_all (b : list Z) (es : list (list Z)) : list Z := foldl joined b es.

(** Whether the next entry is appended without a separator. *)
Definition open_ended (b : list Z) : bool := bool_decide (b = []) || last_is_separator b.

Lemma joined_length b e :
  zlength (joined b e) = zlength b + zlength e + (if open_ended b then 0 else 1).
Proof.
  unfold joined, open_ended. destruct (_ || _); rewrite !zlength_app; [lia|]. change (zlength [PATH_SEPARATOR]) with 1. lia.
Qed.

Definition entries_size (es : list (list Z)) : Z := foldr (fun e n => 1 + zlength e + n) 0 es.

Lemma join_all_length es : forall b, zlength (join_all b es) <= zlength b + entries_size es.
Proof.
  unfold join_all, entries_size. induction es as [|e es IH]; intros b; cbn [foldl foldr]; [lia|].
  specialize (IH (joined b e)). rewrite joined_length in IH. destruct (open_ended b); lia.
Qed.

Lemma entries_loop_size raw : forall cur, entries_size (entries_loop raw cur) <= zlength cur + zlength raw + 1.
Proof.
  induction raw as [|c raw IH]; intros cur; cbn [entries_loop].
  - pose proof (zlength_nonneg cur). change (zlength (@nil Z)) with 0. case_bool_decide; cbn [entries_size foldr]; lia.
  - rewrite zlength_cons. destruct (c =? PATH_SEPARATOR).
    + specialize (IH []). change (zlength (@nil Z)) with 0 in IH. pose proof (zlength_nonneg cur).
      case_bool_decide; cbn [entries_size foldr]; [lia|]. unfold entries_size in IH. lia.
    + specialize (IH (cur ++ [c])). rewrite zlength_app in IH. change (zlength [c]) with 1 in IH. lia.
Qed.

Lemma entries_loop_valid raw : forall cur,
  does_contain_invalid_characters (H := Path) raw = false -> does_contain_invalid_characters (H := Path) cur = false ->
  Forall (fun e => does_contain_invalid_characters (H := Path) e = false /\ e <> []) (entries_loop raw cur).
Proof.
  induction raw as [|c raw IH]; intros cur Hr Hc; cbn [entries_loop].
  - case_bool_decide; [constructor|]. by repeat constructor.
  - change (c :: raw) with ([c] ++ raw) in Hr. rewrite invalid_characters_app in Hr. apply orb_false_elim in Hr as [Hc1 Hr].
    destruct (c =? PATH_SEPARATOR).
    + case_bool_decide; [by apply IH|]. constructor; [done|]. by apply IH.
    + apply IH; [done|]. by rewrite invalid_characters_app, Hc, Hc1.
Qed.

(** The start of the path and its entries. *)
Definition root_of (p : list Z) : list Z := if is_absolute p then [PATH_SEPARATOR] else [].

Lemma join_entries_length p : zlength (join_all (root_of p) (entries_loop p [])) <= zlength p.
Proof.
  assert (Hgo : forall b raw, open_ended b = true -> zlength (join_all b (entries_loop raw [])) <= zlength b + zlength raw).
  { intros b raw Hb. pose proof (entries_loop_size raw []) as Hs. change (zlength (@nil Z)) with 0 in Hs. pose proof (zlength_nonneg raw).
    unfold join_all, entries_size in *. destruct (entries_loop raw []) as [|e es]; cbn [foldl foldr] in Hs |- *; [lia|].
    pose proof (join_all_length es (joined b e)) as Hj. rewrite joined_length, Hb in Hj. unfold join_all, entries_size in Hj. lia. }
  unfold root_of. destruct p as [|c p]; [done|]. cbn [is_absolute]. destruct (c =? PATH_SEPARATOR) eqn:E.
  - cbn [entries_loop]. rewrite E, bool_decide_eq_true_2 by done. rewrite zlength_cons. by apply (Hgo [PATH_SEPARATOR] p).
  - by apply (Hgo [] (c :: p)).
Qed.

Section paths.
Context `{Profile} {S : Type} (may : S -> request -> Prop) (next : S -> forall q, Result (answer q) Errno -> S -> Prop) (hangs : Prop).
Context (I : S -> Prop) (perm : Z).
Context (Hstat : forall s p, I s -> may s (Stat p) /\ forall r s', next s (Stat p) r s' -> I s').
Context (Hmkdir : forall s p, I s -> may s (Mkdir p perm) /\ forall r s', next s (Mkdir p perm) r s' -> I s').

Lemma wp_does_exist p s : I s -> wp may next hangs (does_exist p) (fun _ => I) s.
Proof.
  intros Hs. destruct (Hstat s (as_bytes p) Hs) as [Hm Hn]. split; [done|]. intros r s' Hr. cbn. by eapply Hn.
Qed.

(** [create_entries] does not panic and performs [Stat] and [Mkdir] only. *)
Lemma wp_create_entries es : forall inc b rest s, repr inc b rest -> inc.(CAPACITY) = PATH_LENGTH ->
  does_contain_invalid_characters (H := Path) b = false ->
  Forall (fun e => does_contain_invalid_characters (H := Path) e = false /\ e <> []) es ->
  zlength (join_all b es) <= PATH_LENGTH -> I s ->
  wp may next hangs (create_entries es inc perm) (fun _ => I) s.
Proof.
  induction es as [|e es IH]; intros inc b rest s Hr Hcap Hb Hes Hfit Hs; [done|]. cbn [create_entries].
  apply Forall_cons in Hes as [[He Hne] Hes]. cbn [join_all foldl] in Hfit.
  assert (Hj : zlength (joined b e) <= zlength (join_all (joined b e) es)).
  { clear. unfold join_all. generalize (joined b e). induction es as [|e' es IH]; intros l; cbn [foldl]; [lia|].
    specialize (IH (joined l e')). rewrite joined_length in IH. pose proof (zlength_nonneg e'). destruct (open_ended l); lia. }
  destruct (NamedConcept.add_path_entry_ok inc b rest e Hr Hb He Hne) as (inc' & rest' & E & Hr' & Hcap').
  { rewrite Hcap. unfold join_all in Hj. lia. }
  unfold expect_path. rewrite E. cbn [lift bind]. apply wp_bind. eapply wp_mono; [by apply wp_does_exist|]. cbn beta.
  intros r s1 Hs1. apply wp_try. assert (Hrest : forall s, I s -> wp may next hangs (create_entries es inc' perm) (fun _ => I) s).
  { intros s2 Hs2. eapply IH; [exact Hr'|congruence|by apply NamedConcept.joined_chars|done..]. }
  destruct r as [[]|[]]; cbn [create_missing wp]; try exact Hs1; [by apply Hrest|].
  destruct (Hmkdir s1 (as_bytes inc') Hs1) as [Hm Hn]. split; [done|]. intros r s' Hn'. apply Hn in Hn'. cbn.
  destruct r as [a|[]]; cbn; (by apply Hrest) || done.
Qed.

Lemma wp_create p b rest memory Q s : repr p b rest -> p.(CAPACITY) = PATH_LENGTH ->
  does_contain_invalid_characters (H := Path) b = false -> is_ret (SystemTypes.entries b) = true ->
  zlength memory = PATH_LENGTH -> I s ->
  (forall s, I s -> wp may next hangs (new p)
    (fun r s => match r with Ok d => Q (Ok d) s | Err e => Q (Err (DirCreateOpenError e)) s end) s) ->
  (forall e s, I s -> Q (Err e) s) ->
  wp may next hangs (create memory p perm) Q s.
Proof.
  intros Hr Hcap Hb Hes Hm Hs Hnew He. unfold create. rewrite (repr_bytes _ _ _ Hr).
  unfold SystemTypes.entries in *. destruct (forallb _ _); [|done]. cbn [lift bind].
  fold (root_of b). destruct (new_ok (H0 := Path) PATH_LENGTH memory (root_of b)) as (r & E & Hres);
    [done|done|by unfold root_of; destruct (is_absolute b)|right; by unfold root_of; destruct (is_absolute b)|].
  rewrite E. cbn [lift bind]. assert (Hroot : does_contain_invalid_characters (H := Path) (root_of b) = false).
  { unfold root_of. by destruct (is_absolute b). }
  destruct r as [inc|[]].
  - destruct Hres as (_ & _ & Hc & rest' & Hinc). apply wp_try. eapply wp_mono.
    { eapply wp_create_entries; [exact Hinc|done|done|by apply entries_loop_valid| |exact Hs].
      pose proof (join_entries_length b). pose proof (repr_capacity _ _ _ Hr). pose proof (zlength_nonneg rest). lia. }
    intros [[]|e] s' Hs'; [|by apply He]. apply wp_try. eapply wp_mono; [by apply Hnew|]. by intros [d|e] s'' HQ.
  - congruence.
  - unfold root_of in Hres. by destruct (is_absolute b).
  - unfold root_of in Hres. by destruct (is_absolute b).
Qed.

End paths.

End Directory.
