(* ===== verification/SharedMemory.v ===== *)
(** * Shared memory objects

    [iceoryx2_bb/posix/src/shared_memory.rs] and the locks on memory it uses
    ([memory_lock.rs]): a shared memory object is a descriptor, a mapping of the process
    and a name that the owner removes.  Operations are programs over the calls of the
    operating system ([Posix]); an address is an integer, the null pointer is 0, and memory
    is accessed through the mapping it belongs to. *)

From S2P Require Import Prelude ByteString SemanticString SystemTypes Posix Files.

Module SharedMemory.
Import Posix Files.

(** ** Memory *)

(** Bytes are written and read one by one: other processes may see or change a value that
    is only partly copied. *)
Fixpoint store_bytes (base address : Z) (buf : list Z) : prog (Result unit Errno) :=
  match buf with
  | [] => Done (Ok tt)
  | b :: buf => try_ (syscall (Store base address [b])) id (fun _ => store_bytes base (address + 1) buf)
  end.

Fixpoint load_bytes (base address : Z) (n : nat) : prog (Result (list Z) Errno) :=
  match n with
  | O => Done (Ok [])
  | S n =>
      try_ (syscall (Load base address 1)) id (fun b =>
      try_ (load_bytes base (address + 1) n) id (fun l => Done (Ok (b ++ l))))
  end.

(** An access that the system refuses ends the process. *)
Definition or_fault {A} (p : prog (Result A Errno)) : prog A :=
  let? r := p in match r with Ok a => Done a | Err _ => Crash end.

(** ** Locks on memory *)

(* src/iceoryx2_bb/posix/src/memory_lock.rs:25-31 MemoryLockCreationError *)
Inductive MemoryLockCreationError :=
| LockInvalidAddressRange | UnableToLock | AddressNotAMultipleOfThePageSize | LockInsufficientPermissions
| LockUnknownError (e : Errno).

(* src/iceoryx2_bb/posix/src/memory_lock.rs:63-66 MemoryLock *)
Record MemoryLock := { lock_address : Z; lock_len : Z }.

(* src/iceoryx2_bb/posix/src/memory_lock.rs:75-91 new *)
Definition memory_lock_new (address len : Z) : prog (Result MemoryLock MemoryLockCreationError) :=
  let? r := syscall (Mlock address len) in
  Done match r with
       | Ok _ => Ok {| lock_address := address; lock_len := len |}
       | Err ENOMEM => Err LockInvalidAddressRange
       | Err EAGAIN => Err UnableToLock
       | Err EINVAL => Err AddressNotAMultipleOfThePageSize
       | Err EPERM => Err LockInsufficientPermissions
       | Err v => Err (LockUnknownError v)
       end.

(* src/iceoryx2_bb/posix/src/memory_lock.rs:115-119 drop *)
Definition memory_lock_drop (l : MemoryLock) : prog unit :=
  let? r := syscall (Munlock l.(lock_address) l.(lock_len)) in
  match r with Ok _ => Done tt | Err _ => Crash end.

(** ** Shared memory *)

(* src/iceoryx2_bb/posix/src/shared_memory.rs:113-117 SharedMemoryRemoveError *)
Inductive SharedMemoryRemoveError := ShmRemoveInsufficientPermissions | ShmRemoveUnknownError (e : Errno).

(* src/iceoryx2_bb/posix/src/shared_memory.rs:90-111 SharedMemoryCreationError *)
Inductive SharedMemoryCreationError :=
| SizeDoesNotFit | InsufficientMemory | InsufficientMemoryToBeMemoryLocked | UnsupportedSizeOfZero
| ShmInsufficientPermissions | MappedRegionLimitReached | PerProcessFileHandleLimitReached
| SystemWideFileHandleLimitReached | ShmNameTooLong | ShmInvalidName | AlreadyExist | ShmDoesNotExist
| UnableToMapAtEnforcedBaseAddress | ShmUnknownError (e : Errno)
| ShmFileTruncateError (e : FileTruncateError) | ShmFileStatError (e : FileStatError)
| ShmMemoryLockCreationError (e : MemoryLockCreationError) | ShmRemoveError (e : SharedMemoryRemoveError).

(* src/iceoryx2_bb/posix/src/shared_memory.rs:121-131 SharedMemoryBuilder *)
Record SharedMemoryBuilder := {
  c_name : list Z; c_size : Z; c_is_memory_locked : bool; c_has_ownership : bool; c_permission : Z;
  c_creation_mode : option CreationMode; c_zero_memory : bool; c_access_mode : AccessMode;
  c_enforce_base_address : option Z;
}.

(* src/iceoryx2_bb/posix/src/shared_memory.rs:134-146 new *)
Definition shm_builder_new (name : list Z) : SharedMemoryBuilder :=
  {| c_name := name; c_size := 0; c_is_memory_locked := false; c_permission := OWNER_ALL; c_access_mode := AccessNone;
     c_has_ownership := true; c_creation_mode := None; c_zero_memory := true; c_enforce_base_address := None |}.

Definition set_access (c : SharedMemoryBuilder) (a : AccessMode) : SharedMemoryBuilder :=
  {| c_name := c.(c_name); c_size := c.(c_size); c_is_memory_locked := c.(c_is_memory_locked); c_permission := c.(c_permission);
     c_access_mode := a; c_has_ownership := c.(c_has_ownership); c_creation_mode := c.(c_creation_mode);
     c_zero_memory := c.(c_zero_memory); c_enforce_base_address := c.(c_enforce_base_address) |}.

Definition set_size (c : SharedMemoryBuilder) (n : Z) : SharedMemoryBuilder :=
  {| c_name := c.(c_name); c_size := n; c_is_memory_locked := c.(c_is_memory_locked); c_permission := c.(c_permission);
     c_access_mode := c.(c_access_mode); c_has_ownership := c.(c_has_ownership); c_creation_mode := c.(c_creation_mode);
     c_zero_memory := c.(c_zero_memory); c_enforce_base_address := c.(c_enforce_base_address) |}.

Definition disown (c : SharedMemoryBuilder) : SharedMemoryBuilder :=
  {| c_name := c.(c_name); c_size := c.(c_size); c_is_memory_locked := c.(c_is_memory_locked); c_permission := c.(c_permission);
     c_access_mode := c.(c_access_mode); c_has_ownership := false; c_creation_mode := c.(c_creation_mode);
     c_zero_memory := c.(c_zero_memory); c_enforce_base_address := c.(c_enforce_base_address) |}.

(** [base_address] is 0 before the memory is mapped. *)
(* src/iceoryx2_bb/posix/src/shared_memory.rs:361-368 SharedMemory *)
Record SharedMemory := {
  name : list Z; size : Z; base_address : Z; has_ownership : bool; file_descriptor : FileDescriptor;
  memory_lock : option MemoryLock;
}.

(** The functions of [FileDescriptorManagement] work on any descriptor. *)
Definition as_file (fd : FileDescriptor) : File := {| path := None; Files.file_descriptor := fd |}.

Section operations.
Context `{Profile} (fuel : nat) (memory file_memory : list Z) (POSIX_SUPPORT_ADVANCED_SIGNAL_HANDLING : bool).

(** The name of an object is its file name below the root directory. *)
Definition file_path (n : list Z) : outcome (list Z) :=
  let! r := from_path_and_file memory [PATH_SEPARATOR] n in
  match r with Ok p => Ret (as_bytes p) | Err _ => Panic end.

(* src/iceoryx2_bb/posix/src/shared_memory.rs:491-519 shm_create *)
Definition shm_create (c : SharedMemoryBuilder) : prog (Result FileDescriptor SharedMemoryCreationError) :=
  let? p := lift (file_path c.(c_name)) in
  let? r := syscall (ShmOpen p (creation_oflag CreateExclusive ++ access_oflag c.(c_access_mode)) c.(c_permission)) in
  let? fd := descriptor_new r in
  Done match fd with
       | Ok v => Ok v
       | Err EACCES => Err ShmInsufficientPermissions
       | Err EINVAL => Err ShmInvalidName
       | Err EEXIST => Err AlreadyExist
       | Err EMFILE => Err PerProcessFileHandleLimitReached
       | Err ENFILE => Err SystemWideFileHandleLimitReached
       | Err ENAMETOOLONG => Err ShmNameTooLong
       | Err v => Err (ShmUnknownError v)
       end.

(* src/iceoryx2_bb/posix/src/shared_memory.rs:521-549 shm_open *)
Definition shm_open (c : SharedMemoryBuilder) : prog (Result FileDescriptor SharedMemoryCreationError) :=
  let? p := lift (file_path c.(c_name)) in
  let? r := syscall (ShmOpen p (access_oflag c.(c_access_mode)) 0) in
  let? fd := descriptor_new r in
  Done match fd with
       | Ok v => Ok v
       | Err ENOENT => Err ShmDoesNotExist
       | Err EACCES => Err ShmInsufficientPermissions
       | Err EINVAL => Err ShmInvalidName
       | Err EMFILE => Err PerProcessFileHandleLimitReached
       | Err ENFILE => Err SystemWideFileHandleLimitReached
       | Err ENAMETOOLONG => Err ShmNameTooLong
       | Err v => Err (ShmUnknownError v)
       end.

(* src/iceoryx2_bb/posix/src/shared_memory.rs:551-577 mmap *)
Definition mmap (fd : FileDescriptor) (c : SharedMemoryBuilder) : prog (Result Z SharedMemoryCreationError) :=
  let? r := syscall (Mmap c.(c_size) (access_protflag c.(c_access_mode)) fd.(value)) in
  Done match r with
       | Ok base_address => Ok base_address
       | Err EAGAIN => Err InsufficientMemoryToBeMemoryLocked
       | Err EINVAL => Err UnsupportedSizeOfZero
       | Err EMFILE => Err MappedRegionLimitReached
       | Err v => Err (ShmUnknownError v)
       end.

(* src/iceoryx2_bb/posix/src/shared_memory.rs:579-599 shm_unlink *)
Definition shm_unlink (n : list Z) : prog (Result bool SharedMemoryRemoveError) :=
  let? p := lift (file_path n) in
  let? r := syscall (ShmUnlink p) in
  Done match r with
       | Ok _ => Ok true
       | Err EACCES => Err ShmRemoveInsufficientPermissions
       | Err ENOENT => Ok false
       | Err v => Err (ShmRemoveUnknownError v)
       end.

(** The memory is unmapped and the owner removes the name; then the fields are dropped in
    their order: the descriptor and the lock on the memory. *)
(* src/iceoryx2_bb/posix/src/shared_memory.rs:371-389 drop *)
Definition drop_shm (shm : SharedMemory) : prog unit :=
  let? _ :=
    (if negb (shm.(base_address) =? 0) then
       let? r := syscall (Munmap shm.(base_address) shm.(size)) in
       match r with Ok _ => Done tt | Err _ => Crash end
     else Done tt) in
  let? _ := (if shm.(has_ownership) then let? _ := shm_unlink shm.(name) in Done tt else Done tt) in
  let? _ := drop_descriptor fuel shm.(file_descriptor) in
  match shm.(memory_lock) with Some l => memory_lock_drop l | None => Done tt end.

(* src/iceoryx2_bb/posix/src/shared_memory.rs:171-201 open *)
Definition open (c : SharedMemoryBuilder) : prog (Result SharedMemory SharedMemoryCreationError) :=
  try_ (shm_open c) id (fun fd =>
  let fail e := let? _ := drop_descriptor fuel fd in Done (Err e) in
  let? r := metadata (as_file fd) in
  match r with
  | Err e => fail (ShmFileStatError e)
  | Ok m =>
      let? r := mmap fd (set_size c m.(Files.size)) in
      match r with
      | Err e => fail e
      | Ok base_address =>
          if bool_decide (c.(c_enforce_base_address) <> None /\ c.(c_enforce_base_address) <> Some base_address)
          then fail UnableToMapAtEnforcedBaseAddress
          else Done (Ok {| name := c.(c_name); base_address := base_address; size := m.(Files.size); has_ownership := false;
                           memory_lock := None; file_descriptor := fd |})
      end
  end).

(* src/iceoryx2_bb/posix/src/shared_memory.rs:163-169 open_existing *)
Definition open_existing (c : SharedMemoryBuilder) (a : AccessMode) : prog (Result SharedMemory SharedMemoryCreationError) :=
  open (set_access c a).

(** The descriptor of a new or an existing object, and whether it is new. *)
(* src/iceoryx2_bb/posix/src/shared_memory.rs:251-282 create *)
Definition create_descriptor (c : SharedMemoryBuilder)
    : prog (Result (FileDescriptor * SharedMemoryBuilder * bool) SharedMemoryCreationError) :=
  let created := try_ (shm_create c) id (fun fd => Done (Ok (fd, c, true))) in
  match c.(c_creation_mode) with
  | None => Crash
  | Some CreateExclusive => created
  | Some PurgeAndCreate => try_ (shm_unlink c.(c_name)) ShmRemoveError (fun _ => created)
  | Some OpenOrCreate =>
      let? r := shm_open c in
      match r with
      | Ok fd => Done (Ok (fd, disown c, false))
      | Err ShmDoesNotExist => created
      | Err v => Done (Err v)
      end
  end.

Definition with_base (shm : SharedMemory) (base : Z) : SharedMemory :=
  {| name := shm.(name); size := shm.(size); base_address := base; has_ownership := shm.(has_ownership);
     file_descriptor := shm.(file_descriptor); memory_lock := shm.(memory_lock) |}.

Definition with_lock (shm : SharedMemory) (l : MemoryLock) : SharedMemory :=
  {| name := shm.(name); size := shm.(size); base_address := shm.(base_address); has_ownership := shm.(has_ownership);
     file_descriptor := shm.(file_descriptor); memory_lock := Some l |}.

Definition with_size (shm : SharedMemory) (n : Z) : SharedMemory :=
  {| name := shm.(name); size := n; base_address := shm.(base_address); has_ownership := shm.(has_ownership);
     file_descriptor := shm.(file_descriptor); memory_lock := shm.(memory_lock) |}.

(** [fail!] in a function that owns the shared memory. *)
Definition or_drop_shm {A B E} (shm : SharedMemory) (p : prog (Result A E)) (f : E -> SharedMemoryCreationError)
    (g : A -> prog (Result B SharedMemoryCreationError)) : prog (Result B SharedMemoryCreationError) :=
  let? r := p in
  match r with
  | Ok a => g a
  | Err e => let? _ := drop_shm shm in Done (Err (f e))
  end.

Definition require {E} (b : bool) (e : E) : prog (Result unit E) := Done (if b then Ok tt else Err e).

(* src/iceoryx2_bb/posix/src/shared_memory.rs:335-350 create *)
Definition zero (shm : SharedMemory) (n : Z) : prog (Result unit SharedMemoryCreationError) :=
  let memset := store_bytes shm.(base_address) shm.(base_address) (replicate (Z.to_nat n) 0) in
  if POSIX_SUPPORT_ADVANCED_SIGNAL_HANDLING then
    let? r := memset in Done (match r with Ok _ => Ok tt | Err _ => Err InsufficientMemory end)
  else let? _ := or_fault memset in Done (Ok tt).

(* src/iceoryx2_bb/posix/src/shared_memory.rs:248-356 create *)
Definition create (c : SharedMemoryBuilder) : prog (Result SharedMemory SharedMemoryCreationError) :=
  try_ (create_descriptor c) id (fun '(fd, c, shm_created) =>
  let shm := {| name := c.(c_name); base_address := 0; size := c.(c_size); has_ownership := c.(c_has_ownership);
                memory_lock := None; file_descriptor := fd |} in
  if negb (shm_created : bool) then
    or_drop_shm shm (metadata (as_file fd)) ShmFileStatError (fun m =>
    or_drop_shm shm (require (c.(c_size) <=? m.(Files.size)) SizeDoesNotFit) id (fun _ =>
    or_drop_shm shm (mmap fd c) id (fun base => Done (Ok (with_base shm base)))))
  else
    or_drop_shm shm (truncate (as_file fd) c.(c_size)) ShmFileTruncateError (fun _ =>
    or_drop_shm shm (mmap fd c) id (fun base =>
    let shm := with_base shm base in
    or_drop_shm shm (require (bool_decide (c.(c_enforce_base_address) = None \/ c.(c_enforce_base_address) = Some base))
                       UnableToMapAtEnforcedBaseAddress) id (fun _ =>
    or_drop_shm shm (metadata (as_file fd)) ShmFileStatError (fun m =>
    or_drop_shm shm (require (c.(c_size) <=? m.(Files.size)) SizeDoesNotFit) id (fun _ =>
    let shm := with_size shm m.(Files.size) in
    let? r := (if c.(c_is_memory_locked) then
                 or_drop_shm shm (memory_lock_new shm.(base_address) shm.(size)) ShmMemoryLockCreationError
                   (fun l => Done (Ok (with_lock shm l)))
               else Done (Ok shm)) in
    match r with
    | Err e => Done (Err e)
    | Ok shm =>
        if c.(c_zero_memory) then or_drop_shm shm (zero shm c.(c_size)) id (fun _ => Done (Ok shm)) else Done (Ok shm)
    end)))))).

(* src/iceoryx2_bb/posix/src/shared_memory.rs:394-405 does_exist *)
Definition shm_does_exist (n : list Z) : prog bool :=
  let? p := lift (file_path n) in
  let? r := syscall (ShmOpen p (access_oflag AccessRead) 0) in
  let? fd := descriptor_new r in
  match fd with
  | Ok fd => let? _ := drop_descriptor fuel fd in Done true
  | Err _ => Done false
  end.

(* src/iceoryx2_bb/posix/src/shared_memory.rs:422-424 release_ownership *)
Definition release_ownership (shm : SharedMemory) : SharedMemory :=
  {| name := shm.(name); size := shm.(size); base_address := shm.(base_address); has_ownership := false;
     file_descriptor := shm.(file_descriptor); memory_lock := shm.(memory_lock) |}.

(* src/iceoryx2_bb/posix/src/shared_memory.rs:428-430 acquire_ownership *)
Definition acquire_ownership (shm : SharedMemory) : SharedMemory :=
  {| name := shm.(name); size := shm.(size); base_address := shm.(base_address); has_ownership := true;
     file_descriptor := shm.(file_descriptor); memory_lock := shm.(memory_lock) |}.

(* src/iceoryx2_bb/posix/src/shared_memory.rs:433-442 remove *)
Definition shm_remove (n : list Z) : prog (Result bool SharedMemoryRemoveError) := shm_unlink n.

(* src/iceoryx2_bb/posix/src/shared_memory.rs:449-453 list *)
Fixpoint valid_names (raw_shm_names : list (list Z)) : outcome (list FixedSizeByteString) :=
  match raw_shm_names with
  | [] => Ret []
  | n :: raw_shm_names =>
      let! r := S.from_c_str (H0 := FileName) FILENAME_LENGTH file_memory (n ++ [0]) in
      let! l := valid_names raw_shm_names in
      Ret (match r with Ok f => f :: l | Err _ => l end)
  end.

(* src/iceoryx2_bb/posix/src/shared_memory.rs:445-456 list *)
Definition shm_list : prog (list FixedSizeByteString) :=
  let? r := syscall ShmList in
  match r with Ok raw_shm_names => lift (valid_names raw_shm_names) | Err _ => Done [] end.

End operations.

(** ** A lock that outlives its memory *)

Definition locked_config : SharedMemoryBuilder :=
  {| c_name := [97]; c_size := 8; c_is_memory_locked := true; c_has_ownership := true; c_permission := OWNER_ALL;
     c_creation_mode := Some CreateExclusive; c_zero_memory := true; c_access_mode := AccessReadWrite;
     c_enforce_base_address := None |}.

Lemma run_unlink_mappings `{Profile} {W} (umask : nat -> Z) (faulty : bool) `{PosixLaws umask faulty W} pid memory n w :
  match run pid (shm_unlink memory n) w with
  | Some (Ret (_, w')) => (view w').(mappings) = (view w).(mappings) /\ (view w').(descriptors) = (view w).(descriptors)
  | Some Panic => True
  | None => False
  end.
Proof.
  unfold shm_unlink. destruct (file_path memory n) as [p|]; [|done]. cbn. pose proof (call_permitted pid (ShmUnlink p) w) as Hp.
  destruct (call pid (ShmUnlink p) w) as [[a|e] w']; cbn in *; [by destruct Hp as [_ ->]|by destruct Hp as [_ ->]].
Qed.

(** Shared memory is unmapped before the lock on it is dropped: unlocking memory that
    is not mapped fails, which is fatal.  In every system that answers as documented,
    dropping locked shared memory panics. *)
Theorem shared_memory_locked_drop_panics `{Profile} {W} (umask : nat -> Z) `{PosixLaws umask false W} pid fuel memory w m l :
  m.(memory_lock) = Some l -> l.(lock_address) = m.(base_address) -> m.(base_address) <> 0 -> (0 < fuel)%nat ->
  is_owned m.(file_descriptor) = true -> is_Some ((view w).(descriptors) !! (pid, m.(file_descriptor).(value))) ->
  run pid (drop_shm fuel memory m) w = Some Panic.
Proof.
  intros El Ea Hb Hfuel Hown [d Hd]. unfold drop_shm. rewrite El, (proj2 (Z.eqb_neq _ _) Hb). cbn [negb]. rewrite prog_run_bind. cbn [bind syscall run].
  pose proof (call_permitted pid (Munmap m.(base_address) m.(size)) w) as Hp.
  destruct (call pid (Munmap _ _) w) as [[a|e] w1]; cbn in Hp |- *; [|done]. destruct Hp as (mp & _ & _ & Hv).
  assert (Hw1 : (view w1).(mappings) !! (pid, m.(base_address)) = None) by (rewrite Hv; apply lookup_delete_eq).
  assert (Hd1 : (view w1).(descriptors) !! (pid, m.(file_descriptor).(value)) = Some d) by (by rewrite Hv). clear Hv.
  assert (Hrest : forall w2, (view w2).(mappings) = (view w1).(mappings) -> (view w2).(descriptors) = (view w1).(descriptors) ->
    run pid (let? _ := drop_descriptor fuel m.(file_descriptor) in memory_lock_drop l) w2 = Some Panic).
  { intros w2 Em Ed. rewrite prog_run_bind.
    assert (Hc : wp_alone umask pid false False (drop_descriptor fuel m.(file_descriptor)) (fun _ k' => k'.(mappings) = (view w2).(mappings)) (view w2)).
    { unfold drop_descriptor. rewrite Hown. eapply wp_close_loop; [done|done|by rewrite Ed|done]. }
    apply wp_alone_run in Hc. destruct (run pid (drop_descriptor fuel _) w2) as [[[[] w3]|]|]; [|done..].
    cbn [run memory_lock_drop bind syscall]. pose proof (call_permitted pid (Munlock l.(lock_address) l.(lock_len)) w3) as Hp.
    destruct (call pid (Munlock _ _) w3) as [[a'|e] w4]; [|done]. destruct Hp as (m' & Hm & _). cbn in Hm. rewrite Ea, Hc, Em in Hm. congruence. }
  rewrite prog_run_bind. destruct m.(has_ownership); [|by apply Hrest]. rewrite prog_run_bind.
  pose proof (run_unlink_mappings umask false pid memory m.(name) w1) as Hu.
  destruct (run pid (shm_unlink memory _) w1) as [[[x w2]|]|]; [|done..]. apply Hrest; apply Hu.
Qed.

(** Eight bytes of locked memory are created and dropped. *)
Lemma shared_memory_locked_drop_panics_witness : let memory := replicate 4096 0 in
  exists m w, run 0 (@create dev 1 memory true locked_config) (H := Simple.simple_posix no_umask) empty_system = Some (Ret (Ok m, w)) /\
  run 0 (@drop_shm dev 1 memory m) (H := Simple.simple_posix no_umask) w = Some Panic.
Proof.
  intros memory. assert (Hok : match run 0 (@create dev 1 memory true locked_config) (H := Simple.simple_posix no_umask) empty_system with
    | Some (Ret (Ok m, w)) =>
        match m.(memory_lock) with Some l => l.(lock_address) =? m.(base_address) | None => false end &&
        negb (m.(base_address) =? 0) && is_owned m.(file_descriptor) &&
        bool_decide (is_Some ((`w).(descriptors) !! (0%nat, m.(file_descriptor).(value))))
    | _ => false end = true) by (vm_compute; reflexivity).
  destruct (run 0 _ _) as [[[[m|e] w]|]|]; [|discriminate Hok..]. exists m, w. split; [reflexivity|].
  destruct m.(memory_lock) as [l|] eqn:El; [|discriminate Hok]. rewrite !andb_true_iff in Hok. destruct Hok as [[[Ha Hb] Ho] Hd].
  apply (@shared_memory_locked_drop_panics dev _ no_umask _ (Simple.simple_laws no_umask) 0 1 memory w m l El).
  - by apply Z.eqb_eq.
  - by apply negb_true_iff, Z.eqb_neq in Hb.
  - lia.
  - exact Ho.
  - apply bool_decide_eq_true_1 in Hd. exact Hd.
Defined.

End SharedMemory.
