(* ===== verification/Semaphore.v ===== *)
(** * Semaphores

    [iceoryx2_bb_posix::semaphore]: the wrappers of the semaphores of the operating system.

    - [post], [wait], [try_wait], [timed_wait]: what a caller sees for every answer of the
      system; [sem_answer] are the answers that are possible for a semaphore of a given value.
    - The handle of an unnamed semaphore lies in memory that processes share, with a counter
      of the objects that use it ([unmovable_ipc_handle.rs]): creation, acquisition and drop
      by any number of threads, which interleave at every access of the counter and every
      call of the system.  The handles of mutexes, barriers and reader-writer locks follow
      the same protocol.
    - Named semaphores, over the class [Semaphores] of systems with [sem_open] and the like. *)

From S2P Require Import Prelude Posix Files.

Module Semaphore.
Module F := Files.Files.

Inductive Errno :=
| EACCES | EAGAIN | EDEADLK | EEXIST | EINTR | EINVAL | EMFILE | ENAMETOOLONG | ENFILE | ENOENT | ENOSPC | ENOSYS
| EOVERFLOW | EPERM | ETIMEDOUT | Unlisted (v : Z).

(* src/iceoryx2_bb/posix/src/semaphore.rs:44-57 NamedSemaphoreCreationError *)
Inductive NamedSemaphoreCreationError :=
| NamedInsufficientPermissions | NamedInitialValueTooLarge | PerProcessFileHandleLimitReached
| SystemWideFileHandleLimitReached | AlreadyExists | MaxFilePathLengthExceeded | NamedInterrupt
| NotSupportForGivenName | DoesNotExist | NoSpaceLeft | NamedUnknownError (e : Errno).

(* src/iceoryx2_bb/posix/src/semaphore.rs:60-66 UnnamedSemaphoreCreationError *)
Inductive UnnamedSemaphoreCreationError :=
| InitialValueTooLarge | ExceedsMaximumNumberOfSemaphores | InsufficientPermissions
| HandleAlreadyInitialized | UnnamedUnknownError (e : Errno).

(* src/iceoryx2_bb/posix/src/semaphore.rs:69-72 SemaphorePostError *)
Inductive SemaphorePostError := Overflow | PostUnknownError (e : Errno).

(* src/iceoryx2_bb/posix/src/semaphore.rs:75-80 SemaphoreWaitError *)
Inductive SemaphoreWaitError := NotSupported | DeadlockConditionDetected | Interrupt | WaitUnknownError (e : Errno).

(** The errors of the clock and of the adaptive wait are not represented. *)
(* src/iceoryx2_bb/posix/src/semaphore.rs:88-96 SemaphoreTimedWaitError *)
Inductive SemaphoreTimedWaitError := WaitingTimeExceedsSystemLimits | TimedWaitError (e : SemaphoreWaitError).

(* src/iceoryx2_bb/posix/src/unmovable_ipc_handle.rs:41-44 AcquireIpcHandleError *)
Inductive AcquireIpcHandleError := Uninitialized | IsNotInterProcessCapable.

(* src/iceoryx2_bb/posix/src/config.rs:56-56 MAX_INITIAL_SEMAPHORE_VALUE *)
Definition MAX_INITIAL_SEMAPHORE_VALUE : Z := 2 ^ 15 - 1.

(* src/iceoryx2_bb/posix/src/clock.rs:68-75 ClockType *)
Inductive ClockType := Monotonic | Realtime.

(** ** The answers of the system *)

(** A call returns 0, or it fails and sets the error. *)
Inductive answer := Success | Failure (e : Errno).

Inductive sem_call := SemPost | SemWait | SemTryWait | SemTimedWait.

(** The value behind a call that gets the answer; [None]: the call cannot get this answer
    while the semaphore has the value [v].  [signals]: signals interrupt calls.  A waiting
    call that can get no answer blocks. *)
Definition sem_answer (signals : bool) (SEM_VALUE_MAX : Z) (c : sem_call) (v : Z) (a : answer) : option Z :=
  match c, a with
  | SemPost, Success => if v <? SEM_VALUE_MAX then Some (v + 1) else None
  | SemPost, Failure EOVERFLOW => if v <? SEM_VALUE_MAX then None else Some v
  | SemPost, Failure _ => None
  | _, Success => if 0 <? v then Some (v - 1) else None
  | SemTryWait, Failure EAGAIN => if 0 <? v then None else Some v
  | SemTimedWait, Failure ETIMEDOUT => if 0 <? v then None else Some v
  | _, Failure EINTR => if signals then Some v else None
  | _, Failure _ => None
  end.

(** ** The wrappers *)

(* src/iceoryx2_bb/posix/src/semaphore.rs:137-148 post *)
Definition post (a : answer) : outcome (Result unit SemaphorePostError) :=
  match a with
  | Success => Ret (Ok tt)
  | Failure EINVAL => Panic
  | Failure EOVERFLOW => Ret (Err Overflow)
  | Failure e => Ret (Err (PostUnknownError e))
  end.

(* src/iceoryx2_bb/posix/src/semaphore.rs:153-166 wait *)
Definition wait (a : answer) : outcome (Result unit SemaphoreWaitError) :=
  match a with
  | Success => Ret (Ok tt)
  | Failure EINVAL => Panic
  | Failure ENOSYS => Ret (Err NotSupported)
  | Failure EDEADLK => Ret (Err DeadlockConditionDetected)
  | Failure EINTR => Ret (Err Interrupt)
  | Failure e => Ret (Err (WaitUnknownError e))
  end.

(* src/iceoryx2_bb/posix/src/semaphore.rs:170-184 try_wait *)
Definition try_wait (a : answer) : outcome (Result bool SemaphoreWaitError) :=
  match a with
  | Success => Ret (Ok true)
  | Failure EAGAIN => Ret (Ok false)
  | Failure EINVAL => Panic
  | Failure ENOSYS => Ret (Err NotSupported)
  | Failure EDEADLK => Ret (Err DeadlockConditionDetected)
  | Failure EINTR => Ret (Err Interrupt)
  | Failure e => Ret (Err (WaitUnknownError e))
  end.

(** With the real time clock the system waits. *)
(* src/iceoryx2_bb/posix/src/semaphore.rs:211-228 timed_wait *)
Definition timed_wait_realtime (a : answer) : Result bool SemaphoreTimedWaitError :=
  match a with
  | Success => Ok true
  | Failure ETIMEDOUT => Ok false
  | Failure EINVAL => Err WaitingTimeExceedsSystemLimits
  | Failure EDEADLK => Err (TimedWaitError DeadlockConditionDetected)
  | Failure EINTR => Err (TimedWaitError Interrupt)
  | Failure e => Err (TimedWaitError (WaitUnknownError e))
  end.

(** With the monotonic clock [timed_wait] polls: [try_wait] answers [a]; when nothing is
    there the thread pauses, after which [elapsed] has passed since the call.  [None]: it
    polls again. *)
(* src/iceoryx2_bb/posix/src/semaphore.rs:191-210 timed_wait *)
Definition timed_wait_monotonic (a : answer) (elapsed timeout : Z) : outcome (option (Result bool SemaphoreTimedWaitError)) :=
  let! r := try_wait a in
  match r with
  | Ok true => Ret (Some (Ok true))
  | Ok false => Ret (if timeout <? elapsed then Some (Ok false) else None)
  | Err e => Ret (Some (Err (TimedWaitError e)))
  end.

(** ** Unnamed semaphores *)

(* src/iceoryx2_bb/posix/src/unmovable_ipc_handle.rs:21-25 IpcHandleState *)
Inductive IpcHandleState := StateUninitialized | PerformingInitialization | Initialized.

Definition state_value (s : IpcHandleState) : Z :=
  match s with StateUninitialized => -1 | PerformingInitialization => 0 | Initialized => 1 end.

(* src/iceoryx2_bb/posix/src/semaphore.rs:566-570 UnnamedSemaphoreBuilder *)
Record UnnamedSemaphoreBuilder := { b_clock_type : ClockType; b_is_interprocess_capable : bool; b_initial_value : Z }.

(** [object] is the value of the semaphore while the system has initialized it; [faulted]
    that a thread panicked, because the system found no semaphore in the handle. *)
(* src/iceoryx2_bb/posix/src/semaphore.rs:664-669 UnnamedSemaphoreHandle *)
Record UnnamedSemaphoreHandle := {
  object : option Z;
  clock_type : ClockType;
  is_interprocess_capable : bool;
  reference_counter : Z;
  faulted : bool;
}.

(** A new handle, on a platform that has a monotonic clock. *)
(* src/iceoryx2_bb/posix/src/semaphore.rs:685-692 default *)
Definition handle_new : UnnamedSemaphoreHandle :=
  {| object := None; clock_type := Monotonic; is_interprocess_capable := false;
     reference_counter := state_value StateUninitialized; faulted := false |}.

Definition set_counter (h : UnnamedSemaphoreHandle) c : UnnamedSemaphoreHandle :=
  {| object := h.(object); clock_type := h.(clock_type); is_interprocess_capable := h.(is_interprocess_capable);
     reference_counter := c; faulted := h.(faulted) |}.

Definition set_object (h : UnnamedSemaphoreHandle) o : UnnamedSemaphoreHandle :=
  {| object := o; clock_type := h.(clock_type); is_interprocess_capable := h.(is_interprocess_capable);
     reference_counter := h.(reference_counter); faulted := h.(faulted) |}.

Definition set_options (h : UnnamedSemaphoreHandle) (b : UnnamedSemaphoreBuilder) : UnnamedSemaphoreHandle :=
  {| object := h.(object); clock_type := b.(b_clock_type); is_interprocess_capable := b.(b_is_interprocess_capable);
     reference_counter := h.(reference_counter); faulted := h.(faulted) |}.

Definition fault (h : UnnamedSemaphoreHandle) : UnnamedSemaphoreHandle :=
  {| object := h.(object); clock_type := h.(clock_type); is_interprocess_capable := h.(is_interprocess_capable);
     reference_counter := h.(reference_counter); faulted := true |}.

(** Where a thread is: it has no semaphore, is inside [create], inside [from_ipc_handle],
    has one, or is inside [drop], which [from_ipc_handle] calls too when it refuses. *)
Inductive pc :=
| Idle
| CreateFailed (e : UnnamedSemaphoreCreationError)
| CreateBegin (b : UnnamedSemaphoreBuilder)
| CreateInit (b : UnnamedSemaphoreBuilder)
| CreateReset
| CreatePublish
| AcquireFailed (e : AcquireIpcHandleError)
| AcquireLoad
| AcquireSwap (ref_count : Z)
| AcquireCheck
| Holding
| DropRelease (refused : bool)
| DropDestroy (refused : bool)
| DropReset (refused : bool).

(** What the environment chooses: what an idle thread does, what the system answers to
    [sem_init], that a weak exchange fails spuriously. *)
Inductive event :=
| DoCreate (b : UnnamedSemaphoreBuilder)
| DoAcquire
| DoDrop
| DoForget
| Go
| GoFail (e : Errno)
| DoPost
| DoTryWait.

Definition dropped (refused : bool) : pc := if refused then AcquireFailed IsNotInterProcessCapable else Idle.

Section unnamed.
Context (SEM_VALUE_MAX : Z).
Implicit Types (h : UnnamedSemaphoreHandle) (b : UnnamedSemaphoreBuilder).

(* src/iceoryx2_bb/posix/src/semaphore.rs:608-660 create *)
Definition create_step (ev : event) h (p : pc) : option (UnnamedSemaphoreHandle * pc) :=
  match p, ev with
  | CreateBegin b, Go =>
      let '(r, c) := compare_exchange h.(reference_counter) (state_value StateUninitialized) (state_value PerformingInitialization) in
      match r with
      | Ok _ => Some (set_counter h c, CreateInit b)
      | Err _ => Some (h, CreateFailed HandleAlreadyInitialized)
      end
  | CreateInit b, Go =>
      let h := set_options h b in
      if MAX_INITIAL_SEMAPHORE_VALUE <? b.(b_initial_value) then Some (h, CreateReset)
      else match h.(object) with
           | None => Some (set_object h (Some b.(b_initial_value)), CreatePublish)
           | Some _ => Some (fault h, CreatePublish)
           end
  | CreateInit b, GoFail e =>
      let h := set_options h b in
      if MAX_INITIAL_SEMAPHORE_VALUE <? b.(b_initial_value) then None
      else Some (h, CreateFailed (match e with
                                  | EINVAL => InitialValueTooLarge
                                  | ENOSPC => ExceedsMaximumNumberOfSemaphores
                                  | EPERM => InsufficientPermissions
                                  | e => UnnamedUnknownError e
                                  end))
  | CreateReset, Go => Some (set_counter h (-1), CreateFailed InitialValueTooLarge)
  | CreatePublish, Go => Some (set_counter h (state_value Initialized), Holding)
  | _, _ => None
  end.

(* src/iceoryx2_bb/posix/src/unmovable_ipc_handle.rs:49-78 from_ipc_handle *)
Definition acquire_step (ev : event) h (p : pc) : option (UnnamedSemaphoreHandle * pc) :=
  match p, ev with
  | AcquireLoad, Go => Some (h, AcquireSwap h.(reference_counter))
  | AcquireSwap ref_count, ev =>
      if ref_count <=? state_value PerformingInitialization then
        match ev with Go => Some (h, AcquireFailed Uninitialized) | _ => None end
      else
        match ev with
        | Go =>
            let '(r, c) := compare_exchange h.(reference_counter) ref_count (ref_count + 1) in
            match r with
            | Ok _ => Some (set_counter h c, AcquireCheck)
            | Err v => Some (h, AcquireSwap v)
            end
        | GoFail _ => Some (h, AcquireSwap h.(reference_counter))
        | _ => None
        end
  | AcquireCheck, Go =>
      if h.(is_interprocess_capable) then Some (h, Holding)
      else Some (h, DropRelease true)
  | _, _ => None
  end.

(** The system reports an error when there is no semaphore to destroy. *)
(* src/iceoryx2_bb/posix/src/semaphore.rs:743-751 drop *)
Definition drop_step (ev : event) h (p : pc) : option (UnnamedSemaphoreHandle * pc) :=
  match p, ev with
  | DropRelease refused, Go =>
      let old := h.(reference_counter) in
      Some (set_counter h (old - 1), if old =? 1 then DropDestroy refused else dropped refused)
  | DropDestroy refused, Go =>
      match h.(object) with
      | Some _ => Some (set_object h None, DropReset refused)
      | None => Some (fault h, DropReset refused)
      end
  | DropReset refused, Go => Some (set_counter h (-1), dropped refused)
  | _, _ => None
  end.

(** A thread uses its semaphore. *)
Definition use_step (c : sem_call) h (p : pc) : option (UnnamedSemaphoreHandle * pc) :=
  match p with
  | Holding =>
      match h.(object) with
      | None => Some (fault h, Holding)
      | Some v => match sem_answer false SEM_VALUE_MAX c v Success with
                  | Some v => Some (set_object h (Some v), Holding)
                  | None => Some (h, Holding)
                  end
      end
  | _ => None
  end.

Definition act (ev : event) h (p : pc) : option (UnnamedSemaphoreHandle * pc) :=
  match ev, p with
  | DoCreate b, Idle => Some (h, CreateBegin b)
  | DoAcquire, Idle => Some (h, AcquireLoad)
  | DoDrop, Holding => Some (h, DropRelease false)
  | DoForget, (CreateFailed _ | AcquireFailed _) => Some (h, Idle)
  | DoPost, _ => use_step SemPost h p
  | DoTryWait, _ => use_step SemTryWait h p
  | (Go | GoFail _), (CreateBegin _ | CreateInit _ | CreateReset | CreatePublish) => create_step ev h p
  | (Go | GoFail _), (AcquireLoad | AcquireSwap _ | AcquireCheck) => acquire_step ev h p
  | (Go | GoFail _), (DropRelease _ | DropDestroy _ | DropReset _) => drop_step ev h p
  | _, _ => None
  end.

Definition start (n : nat) : UnnamedSemaphoreHandle * list pc := (handle_new, replicate n Idle).


(** *** The protocol of the counter *)

(** The threads that keep the semaphore alive, and the one that initializes or destroys it. *)
Definition holds (p : pc) : Z := match p with AcquireCheck | Holding | DropRelease _ => 1 | _ => 0 end.

Definition exclusive (p : pc) : Z :=
  match p with CreateInit _ | CreateReset | CreatePublish | DropDestroy _ | DropReset _ => 1 | _ => 0 end.

Definition pc_ok h (p : pc) : Prop :=
  match p with
  | CreateInit _ | CreateReset | DropReset _ => h.(object) = None
  | CreatePublish | DropDestroy _ => is_Some h.(object)
  | _ => True
  end.

Record inv h (ps : list pc) : Prop := {
  inv_faulted : h.(faulted) = false;
  inv_counter : -1 <= h.(reference_counter);
  inv_holds : total holds ps = Z.max 0 h.(reference_counter);
  inv_exclusive : total exclusive ps <= if h.(reference_counter) =? 0 then 1 else 0;
  inv_alive : 1 <= h.(reference_counter) -> is_Some h.(object);
  inv_unused : h.(reference_counter) = -1 -> h.(object) = None;
  inv_pcs : Forall (pc_ok h) ps;
}.

Lemma sem_holds_nonneg p : 0 <= holds p.
Proof. by destruct p. Qed.

Lemma sem_exclusive_nonneg p : 0 <= exclusive p.
Proof. by destruct p. Qed.

Lemma pc_ok_unconcerned h p : exclusive p = 0 -> pc_ok h p.
Proof. by destruct p. Qed.

(** A step of thread [i] that changes the object only if no other thread is exclusive. *)
Lemma sem_inv_step h ps i p h' p' : inv h ps -> ps !! i = Some p ->
  h'.(faulted) = false -> -1 <= h'.(reference_counter) ->
  total holds ps - holds p + holds p' = Z.max 0 h'.(reference_counter) ->
  total exclusive ps - exclusive p + exclusive p' <= (if h'.(reference_counter) =? 0 then 1 else 0) ->
  (1 <= h'.(reference_counter) -> is_Some h'.(object)) -> (h'.(reference_counter) = -1 -> h'.(object) = None) -> pc_ok h' p' ->
  h'.(object) = h.(object) \/ total exclusive ps <= exclusive p -> inv h' (<[i := p']> ps).
Proof.
  intros [] Ep Hf Hc Hh He Ha Hu Hok Hobj. split; try done.
  - by rewrite (total_insert _ _ _ _ _ Ep).
  - by rewrite (total_insert _ _ _ _ _ Ep).
  - apply (iact_Forall pc_ok i h ps h' p p'); [done..|]. intros j o Hne Eo Hpo. destruct Hobj as [Eobj|Hx].
    + destruct o; cbn in *; congruence.
    + apply pc_ok_unconcerned. pose proof (sem_exclusive_nonneg o). pose proof (total_two _ sem_exclusive_nonneg _ _ _ _ _ Ep Eo (not_eq_sym Hne)). lia.
Qed.

Lemma inv_lookup h ps i p : inv h ps -> ps !! i = Some p ->
  holds p <= Z.max 0 h.(reference_counter) /\ exclusive p <= (if h.(reference_counter) =? 0 then 1 else 0) /\ pc_ok h p /\
  0 <= total exclusive ps.
Proof.
  intros [] Ep. pose proof (total_lookup _ sem_holds_nonneg _ _ _ Ep). pose proof (total_lookup _ sem_exclusive_nonneg _ _ _ Ep).
  pose proof (total_nonneg _ sem_exclusive_nonneg ps). split_and!; try lia. by eapply Forall_lookup_1.
Qed.

Ltac settle Hi Ep :=
  let H := fresh in
  pose proof (inv_lookup _ _ _ _ Hi Ep) as H; destruct H as (? & ? & ? & ?);
  pose proof (inv_counter _ _ Hi); pose proof (inv_holds _ _ Hi); pose proof (inv_exclusive _ _ Hi); pose proof (inv_faulted _ _ Hi);
  eapply (sem_inv_step _ _ _ _ _ _ Hi Ep); cbn [holds exclusive pc_ok reference_counter object faulted set_counter set_object set_options] in *;
  try done; try (apply (inv_alive _ _ Hi)); try (apply (inv_unused _ _ Hi)); try (by left);
  repeat match goal with H : context [?c =? 0] |- _ => destruct (Z.eqb_spec c 0) | |- context [?c =? 0] => destruct (Z.eqb_spec c 0) end; try lia; try done.

Lemma inv_create ev h ps i p h' p' : inv h ps -> ps !! i = Some p -> create_step ev h p = Some (h', p') -> inv h' (<[i := p']> ps).
Proof.
  intros Hi Ep. destruct p; try done; destruct ev; try done; cbn [create_step].
  - unfold compare_exchange. destruct (Z.eqb_spec h.(reference_counter) (state_value StateUninitialized)) as [E|E]; cbn [state_value] in E; intros [= <- <-].
    + pose proof (inv_unused _ _ Hi E). settle Hi Ep.
    + settle Hi Ep.
  - case_match; [intros [= <- <-]; settle Hi Ep|]. cbn [set_options object]. pose proof (proj1 (proj2 (proj2 (inv_lookup _ _ _ _ Hi Ep)))) as Eo. cbn in Eo.
    rewrite Eo. intros [= <- <-]. settle Hi Ep. all: try (right; lia).
  - case_match; [done|]. intros [= <- <-]. settle Hi Ep.
  - intros [= <- <-]. settle Hi Ep.
  - intros [= <- <-]. settle Hi Ep.
Qed.

Lemma inv_acquire ev h ps i p h' p' : inv h ps -> ps !! i = Some p -> acquire_step ev h p = Some (h', p') -> inv h' (<[i := p']> ps).
Proof.
  intros Hi Ep. destruct p; try done; cbn [acquire_step].
  - destruct ev; try done. intros [= <- <-]. settle Hi Ep.
  - cbn [state_value]. destruct (Z.leb_spec ref_count 0).
    { destruct ev; try done. intros [= <- <-]. settle Hi Ep. }
    destruct ev; try done; [|intros [= <- <-]; settle Hi Ep]. unfold compare_exchange.
    destruct (Z.eqb_spec h.(reference_counter) ref_count) as [E|E]; intros [= <- <-]; [|settle Hi Ep].
    settle Hi Ep. intros _. apply (inv_alive _ _ Hi). lia.
  - destruct ev; try done. case_match; intros [= <- <-]; settle Hi Ep.
Qed.

Lemma sem_inv_drop ev h ps i p h' p' : inv h ps -> ps !! i = Some p -> drop_step ev h p = Some (h', p') -> inv h' (<[i := p']> ps).
Proof.
  intros Hi Ep. destruct p; try done; destruct ev; try done; cbn [drop_step]; pose proof (inv_lookup _ _ _ _ Hi Ep) as (Hh & Hx & Hok & _); cbn in Hh, Hx, Hok.
  - assert (Hw : holds (dropped refused) = 0 /\ exclusive (dropped refused) = 0 /\ pc_ok (set_counter h (reference_counter h - 1)) (dropped refused)) by (by destruct refused).
    destruct Hw as (Ew1 & Ew2 & Ew3). destruct (Z.eqb_spec h.(reference_counter) 1) as [E|E]; intros [= <- <-].
    + pose proof (inv_alive _ _ Hi ltac:(lia)). settle Hi Ep.
    + settle Hi Ep. intros _. apply (inv_alive _ _ Hi). lia.
  - destruct Hok as [v Ev]. rewrite Ev. intros [= <- <-]. settle Hi Ep; try (right; lia).
  - assert (Hw : holds (dropped refused) = 0 /\ exclusive (dropped refused) = 0 /\ pc_ok (set_counter h (-1)) (dropped refused)) by (by destruct refused).
    destruct Hw as (Ew1 & Ew2 & Ew3). intros [= <- <-]. settle Hi Ep.
Qed.

Lemma inv_use c h ps i p h' p' : inv h ps -> ps !! i = Some p -> use_step c h p = Some (h', p') -> inv h' (<[i := p']> ps).
Proof.
  intros Hi Ep. destruct p; try done. cbn [use_step]. pose proof (inv_lookup _ _ _ _ Hi Ep) as (Hh & _). cbn in Hh.
  destruct (inv_alive _ _ Hi ltac:(lia)) as [v Ev]. rewrite Ev.
  destruct (sem_answer _ _ _ _ _) as [v'|]; intros [= <- <-]; settle Hi Ep; try (right; lia).
Qed.

Lemma inv_act ev h ps i p h' p' : inv h ps -> ps !! i = Some p -> act ev h p = Some (h', p') -> inv h' (<[i := p']> ps).
Proof.
  intros Hi Ep E. unfold act in E. destruct ev, p; try done;
    eauto using inv_create, inv_acquire, sem_inv_drop, inv_use; injection E as <- <-; settle Hi Ep.
Qed.

Lemma inv_start n : inv (start n).1 (start n).2.
Proof.
  split; cbn; try done; rewrite ?total_replicate by done; try done. apply Forall_replicate. done.
Qed.

(** However threads create, acquire, use and drop the semaphore of one handle, the
    system finds what it expects.  A semaphore is initialized at most once before it is
    destroyed, it is destroyed when its last user is gone and not before, and whoever has
    acquired it finds it initialized; no call of the system is made on a handle without a
    semaphore, which would be fatal.  While the counter is positive it is the number of
    users. *)
Theorem unnamed_semaphore_lifecycle n h ps :
  rtc (act_step (iact act)) (start n) (h, ps) ->
  h.(faulted) = false /\
  (0 < h.(reference_counter) -> is_Some h.(object) /\ total holds ps = h.(reference_counter)) /\
  (forall i, ps !! i = Some Holding -> 0 < h.(reference_counter)) /\
  (forall i j p q, ps !! i = Some p -> ps !! j = Some q -> i <> j -> exclusive p = 1 -> exclusive q = 0 /\ holds q = 0).
Proof.
  intros Hr. assert (Hi : inv h ps).
  { eapply (rtc_invariant _ (fun s => inv s.1 s.2) (start n) (h, ps)); [|done|apply inv_start].
    intros s s' [[i ev] s'' Ea] Hs. apply iact_inv in Ea as (p & p' & Ep & Ea & ->). by eapply inv_act. }
  pose proof Hi as [Hf Hc Hh Hx Ha Hu Hp]. split; [done|]. split; [|split].
  - intros Hpos. split; [apply Ha; lia|]. lia.
  - intros i Ei. pose proof (total_lookup _ sem_holds_nonneg _ _ _ Ei). cbn in *. lia.
  - intros i j p q Ei Ej Hne E1. pose proof (total_two _ sem_exclusive_nonneg _ _ _ _ _ Ei Ej Hne). pose proof (total_lookup _ sem_holds_nonneg _ _ _ Ej).
    pose proof (sem_exclusive_nonneg q). pose proof (sem_holds_nonneg q). destruct (Z.eqb_spec h.(reference_counter) 0); lia.
Qed.

(** A handle whose counter is stuck between its states: nobody initializes or destroys it. *)
Definition stuck (s : UnnamedSemaphoreHandle * list pc) : Prop :=
  s.1.(reference_counter) = 0 /\ total holds s.2 = 0 /\ total exclusive s.2 = 0.

Lemma stuck_step s s' : act_step (iact act) s s' -> stuck s -> stuck s'.
Proof.
  intros [[i ev] s'' Ea] (Hc & Hh & Hx). apply iact_inv in Ea as (p & p' & Ep & Ea & E2).
  pose proof (total_lookup _ sem_holds_nonneg _ _ _ Ep) as Hp. pose proof (total_lookup _ sem_exclusive_nonneg _ _ _ Ep) as Hp'. cbn [fst snd] in *.
  assert (H' : s''.1.(reference_counter) = 0 /\ holds p' = holds p /\ exclusive p' = exclusive p).
  2: { destruct H' as (H1 & H2 & H3). split; [done|]. rewrite E2, !(total_insert _ _ _ _ _ Ep). lia. }
  destruct ev, p; cbn in Hp, Hp'; try lia; cbn [act create_step acquire_step drop_step use_step state_value] in Ea; try done;
    try (injection Ea as <- <-; done).
  - unfold compare_exchange in Ea. rewrite Hc in Ea. injection Ea as <- <-. done.
  - destruct (Z.leb_spec ref_count 0); [injection Ea as <- <-; done|]. unfold compare_exchange in Ea.
    destruct (Z.eqb_spec (reference_counter s.1) ref_count); [lia|]. injection Ea as <- <-. done.
  - destruct (ref_count <=? 0); [done|]. injection Ea as <- <-. done.
Qed.

(** When the system refuses to initialize a semaphore, [create] reports the error and leaves
    the handle in the state of an initialization in progress, from which nothing leads
    back: neither a second attempt nor an acquisition can ever succeed.  (The error for a
    too large initial value resets the state.) *)
Theorem unnamed_semaphore_stuck_after_failure h ps s' :
  h.(reference_counter) = 0 -> Forall (fun p => p = Idle \/ exists e, p = CreateFailed e) ps ->
  rtc (act_step (iact act)) (h, ps) s' -> s'.1.(reference_counter) = 0 /\ forall i, s'.2 !! i <> Some Holding.
Proof.
  intros Hc Hps Hr. assert (Hs : stuck s').
  { apply (rtc_invariant _ stuck _ _ stuck_step Hr). split; [done|]. cbn [snd]. clear -Hps.
    induction Hps as [|p ps [->|[e ->]] _ IH]; cbn; lia. }
  split; [apply Hs|]. intros i Ei. pose proof (total_lookup _ sem_holds_nonneg _ _ _ Ei). destruct Hs as (_ & Hh & _). cbn in *. lia.
Qed.

End unnamed.

Definition counting_builder (v : Z) : UnnamedSemaphoreBuilder :=
  {| b_clock_type := Monotonic; b_is_interprocess_capable := true; b_initial_value := v |}.

(** One thread creates a semaphore, another one acquires it and uses it after the first has
    dropped its own; the last one destroys it. *)
Definition lifecycle_schedule : list (nat * event) :=
  [(0%nat, DoCreate (counting_builder 1)); (0%nat, Go); (1%nat, DoAcquire); (0%nat, Go); (0%nat, Go); (1%nat, Go); (1%nat, Go); (1%nat, Go);
   (0%nat, DoDrop); (0%nat, Go); (1%nat, DoTryWait); (1%nat, DoPost); (1%nat, DoDrop); (1%nat, Go); (1%nat, Go)].

Lemma unnamed_semaphore_lifecycle_witness :
  exists h ps, run_schedule (iact (act 32767)) lifecycle_schedule (start 2) = Some (h, ps) /\
    h.(faulted) = false /\ h.(object) = None /\ ps = [Idle; DropReset false].
Proof.
  destruct (run_schedule (iact (act 32767)) lifecycle_schedule (start 2)) as [[h ps]|] eqn:E; [|vm_compute in E; discriminate E].
  exists h, ps. split; [reflexivity|]. split; [|vm_compute in E; by injection E as <- <-].
  apply (unnamed_semaphore_lifecycle 32767 2 h ps). by apply (run_schedule_reachable _ lifecycle_schedule).
Defined.

(** An initialization that fails with ENOSPC. *)
Lemma unnamed_semaphore_failure_reached :
  exists h, run_schedule (iact (act 32767)) [(0%nat, DoCreate (counting_builder 1)); (0%nat, Go); (0%nat, GoFail ENOSPC)] (start 1) =
    Some (h, [CreateFailed ExceedsMaximumNumberOfSemaphores]) /\ h.(reference_counter) = 0.
Proof. eexists. split; [vm_compute; reflexivity|done]. Qed.

(** ** Named semaphores *)

(** The semaphores of a system: the names, the values, and how often this process has each
    of them open. *)
Record semaphores := { names : gmap (list Z) nat; values : gmap nat Z; opened : gmap nat Z }.

(** The calls of the system; a semaphore is known by its number, [SEM_FAILED] is an error.
    [sem_create] is [sem_open] with O_CREAT and O_EXCL. *)
Class Semaphores (W : Type) := {
  sem_open : list Z -> W -> Result nat Errno * W;
  sem_create : list Z -> Z -> Z -> W -> Result nat Errno * W;
  sem_unlink : list Z -> W -> Result unit Errno * W;
  sem_close : nat -> W -> Result unit Errno * W;
}.

Definition opens (v : semaphores) (h : nat) : Z := default 0 (v.(opened) !! h).

Definition with_opened (v : semaphores) (h : nat) (n : Z) : semaphores :=
  {| names := v.(names); values := v.(values); opened := <[h := n]> v.(opened) |}.

Definition with_names (v : semaphores) ns : semaphores :=
  {| names := ns; values := v.(values); opened := v.(opened) |}.

(** What POSIX documents.  A system that is not [faulty] only reports what the state of the
    semaphores makes it report. *)
Class SemaphoreLaws (faulty : bool) (W : Type) `{Semaphores W} := {
  sems : W -> semaphores;
  names_valid w n h : (sems w).(names) !! n = Some h -> is_Some ((sems w).(values) !! h);
  sem_open_law n w :
    match sem_open n w with
    | (Ok h, w') => (sems w).(names) !! n = Some h /\ sems w' = with_opened (sems w) h (opens (sems w) h + 1)
    | (Err ENOENT, w') => (sems w).(names) !! n = None /\ sems w' = sems w
    | (Err _, w') => faulty = true /\ sems w' = sems w
    end;
  sem_create_law n mode v w :
    match sem_create n mode v w with
    | (Ok h, w') => (sems w).(names) !! n = None /\ (sems w).(values) !! h = None /\ opens (sems w) h = 0 /\
        sems w' = {| names := <[n := h]> (sems w).(names); values := <[h := v]> (sems w).(values); opened := <[h := 1]> (sems w).(opened) |}
    | (Err EEXIST, w') => is_Some ((sems w).(names) !! n) /\ sems w' = sems w
    | (Err _, w') => faulty = true /\ sems w' = sems w
    end;
  sem_unlink_law n w :
    match sem_unlink n w with
    | (Ok _, w') => is_Some ((sems w).(names) !! n) /\ sems w' = with_names (sems w) (delete n (sems w).(names))
    | (Err ENOENT, w') => (sems w).(names) !! n = None /\ sems w' = sems w
    | (Err _, w') => faulty = true /\ sems w' = sems w
    end;
  sem_close_law h w :
    match sem_close h w with
    | (Ok _, w') => 0 < opens (sems w) h /\ sems w' = with_opened (sems w) h (opens (sems w) h - 1)
    | (Err _, w') => opens (sems w) h <= 0 /\ sems w' = sems w
    end;
}.

(** [None] stands for [SEM_FAILED]. *)
(* src/iceoryx2_bb/posix/src/semaphore.rs:391-396 NamedSemaphore *)
Record NamedSemaphore := { name : list Z; handle : option nat; has_ownership : bool; ns_clock_type : ClockType }.

(* src/iceoryx2_bb/posix/src/semaphore.rs:274-280 NamedSemaphoreBuilder *)
Record NamedSemaphoreBuilder := {
  c_name : list Z; c_initial_value : Z; c_permission : Z; c_clock_type : ClockType; c_creation_mode : option F.CreationMode;
}.

(* src/iceoryx2_bb/posix/src/semaphore.rs:111-114 UnlinkMode *)
Inductive UnlinkMode := IgnoreNonExistingSemaphore | FailWhenSemaphoreDoesNotExist.

(* src/iceoryx2_bb/posix/src/semaphore.rs:117-121 InitMode *)
Inductive InitMode := InitCreate | InitOpen | InitTryOpen.

Section named.
Context `{Semaphores W}.
Implicit Types (s : NamedSemaphore) (w : W).

(** [FilePath::from_path_and_file] with the root directory. *)
Definition file_path s : list Z := 47 :: s.(name).

Definition set_handle s (h : option nat) : NamedSemaphore :=
  {| name := s.(name); handle := h; has_ownership := s.(has_ownership); ns_clock_type := s.(ns_clock_type) |}.

Definition set_owner s : NamedSemaphore :=
  {| name := s.(name); handle := s.(handle); has_ownership := true; ns_clock_type := s.(ns_clock_type) |}.

(** [handle_errno!] with [success_when] returns [Ok] for the error it names when the
    condition holds. *)
(* src/iceoryx2_bb/posix/src/semaphore.rs:458-475 unlink *)
Definition unlink s (mode : UnlinkMode) w : Result unit NamedSemaphoreCreationError * W :=
  let '(r, w) := sem_unlink (file_path s) w in
  (match r with
   | Ok _ => Ok tt
   | Err ENOENT => match mode with IgnoreNonExistingSemaphore => Ok tt | FailWhenSemaphoreDoesNotExist => Err AlreadyExists end
   | Err EACCES => Err NamedInsufficientPermissions
   | Err ENAMETOOLONG => Err MaxFilePathLengthExceeded
   | Err e => Err (NamedUnknownError e)
   end, w).

(* src/iceoryx2_bb/posix/src/semaphore.rs:477-530 open *)
Definition open s (permission : Z) (mode : InitMode) (initial_value : Z) w : Result unit NamedSemaphoreCreationError * NamedSemaphore * W :=
  if MAX_INITIAL_SEMAPHORE_VALUE <? initial_value then (Err NamedInitialValueTooLarge, s, w)
  else
    let '(r, w) := (match mode with
                    | InitCreate => sem_create (file_path s) permission initial_value w
                    | InitOpen | InitTryOpen => sem_open (file_path s) w
                    end) in
    match r with
    | Ok h => (Ok tt, set_handle s (Some h), w)
    | Err e =>
        (match e with
         | ENOENT => match mode with InitTryOpen => Ok tt | _ => Err DoesNotExist end
         | EACCES => Err NamedInsufficientPermissions
         | EEXIST => Err AlreadyExists
         | EINTR => Err NamedInterrupt
         | EINVAL => Err NotSupportForGivenName
         | EMFILE => Err PerProcessFileHandleLimitReached
         | ENAMETOOLONG => Err MaxFilePathLengthExceeded
         | ENFILE => Err SystemWideFileHandleLimitReached
         | ENOSPC => Err NoSpaceLeft
         | e => Err (NamedUnknownError e)
         end, set_handle s None, w)
    end.

(** An error drops the semaphore, which has no handle: nothing happens. *)
(* src/iceoryx2_bb/posix/src/semaphore.rs:422-456 new *)
Definition new (c : NamedSemaphoreBuilder) w : Result NamedSemaphore NamedSemaphoreCreationError * W :=
  let new_sem := {| name := c.(c_name); handle := None; has_ownership := false; ns_clock_type := c.(c_clock_type) |} in
  let finish (x : Result unit NamedSemaphoreCreationError * NamedSemaphore * W) :=
    let '(r, s, w) := x in (match r with Ok _ => Ok s | Err e => Err e end, w) in
  match c.(c_creation_mode) with
  | None => finish (open new_sem 0 InitOpen 0 w)
  | Some F.PurgeAndCreate =>
      let new_sem := set_owner new_sem in
      let '(r, w) := unlink new_sem IgnoreNonExistingSemaphore w in
      match r with
      | Err e => (Err e, w)
      | Ok _ => finish (open new_sem c.(c_permission) InitCreate c.(c_initial_value) w)
      end
  | Some F.CreateExclusive => finish (open (set_owner new_sem) c.(c_permission) InitCreate c.(c_initial_value) w)
  | Some F.OpenOrCreate =>
      let '(r, s, w) := open new_sem 0 InitTryOpen 0 w in
      match r with
      | Ok _ => (Ok s, w)
      | Err DoesNotExist => finish (open (set_owner s) c.(c_permission) InitCreate c.(c_initial_value) w)
      | Err e => (Err e, w)
      end
  end.

(* src/iceoryx2_bb/posix/src/semaphore.rs:402-418 drop *)
Definition drop_named s w : outcome W :=
  match s.(handle) with
  | None => Ret w
  | Some h =>
      let '(r, w) := sem_close h w in
      match r with
      | Err _ => Panic
      | Ok _ =>
          if s.(has_ownership) then
            let '(r, w) := unlink s FailWhenSemaphoreDoesNotExist w in
            match r with Ok _ => Ret w | Err _ => Panic end
          else Ret w
      end
  end.

End named.

Definition builder (n : list Z) (mode : option F.CreationMode) (v : Z) : NamedSemaphoreBuilder :=
  {| c_name := n; c_initial_value := v; c_permission := 448; c_clock_type := Monotonic; c_creation_mode := mode |}.

(** The semaphore [new] returns. *)
Definition semaphore_of (n : list Z) (h : option nat) (owner : bool) : NamedSemaphore :=
  {| name := n; handle := h; has_ownership := owner; ns_clock_type := Monotonic |}.

Section named_lemmas.
Context `{SemaphoreLaws false W}.
Implicit Types (w : W).

Lemma open_existing_ok s p mode v w h : mode <> InitCreate -> v <= MAX_INITIAL_SEMAPHORE_VALUE -> (sems w).(names) !! file_path s = Some h ->
  exists w', open s p mode v w = (Ok tt, set_handle s (Some h), w') /\ sems w' = with_opened (sems w) h (opens (sems w) h + 1).
Proof.
  intros Hm Hv Hh. unfold open. rewrite (proj2 (Z.ltb_ge _ _)) by lia. pose proof (sem_open_law (file_path s) w) as Hl.
  destruct (sem_open (file_path s) w) as [[h'|e] w'].
  - destruct Hl. simplify_eq. destruct mode; [done|by eexists..].
  - destruct e; destruct Hl; congruence.
Qed.

Lemma open_missing_ok s p mode v w : mode <> InitCreate -> v <= MAX_INITIAL_SEMAPHORE_VALUE -> (sems w).(names) !! file_path s = None ->
  exists w', open s p mode v w = (match mode with InitTryOpen => Ok tt | _ => Err DoesNotExist end, set_handle s None, w') /\ sems w' = sems w.
Proof.
  intros Hm Hv Hh. unfold open. rewrite (proj2 (Z.ltb_ge _ _)) by lia. pose proof (sem_open_law (file_path s) w) as Hl.
  destruct (sem_open (file_path s) w) as [[h'|e] w']; [destruct Hl; congruence|].
  destruct e; try (destruct Hl; congruence). destruct Hl as [_ E]. destruct mode; [done|by exists w'..].
Qed.

Definition created (v : semaphores) (n : list Z) (h : nat) (x : Z) : semaphores :=
  {| names := <[n := h]> v.(names); values := <[h := x]> v.(values); opened := <[h := 1]> v.(opened) |}.

Lemma open_create_ok s p v w : v <= MAX_INITIAL_SEMAPHORE_VALUE -> (sems w).(names) !! file_path s = None ->
  exists w' h, open s p InitCreate v w = (Ok tt, set_handle s (Some h), w') /\ (sems w).(values) !! h = None /\
    sems w' = created (sems w) (file_path s) h v.
Proof.
  intros Hv Hh. unfold open. rewrite (proj2 (Z.ltb_ge _ _)) by lia. pose proof (sem_create_law (file_path s) p v w) as Hl.
  destruct (sem_create (file_path s) p v w) as [[h'|e] w'].
  - destruct Hl as (_ & Hv' & _ & E). by exists w', h'.
  - destruct e; try (destruct Hl; congruence). destruct Hl as [[] _]. congruence.
Qed.

Lemma open_create_exists s p v w : v <= MAX_INITIAL_SEMAPHORE_VALUE -> is_Some ((sems w).(names) !! file_path s) ->
  exists w', open s p InitCreate v w = (Err AlreadyExists, set_handle s None, w') /\ sems w' = sems w.
Proof.
  intros Hv [h Hh]. unfold open. rewrite (proj2 (Z.ltb_ge _ _)) by lia. pose proof (sem_create_law (file_path s) p v w) as Hl.
  destruct (sem_create (file_path s) p v w) as [[h'|e] w']; [destruct Hl; congruence|].
  destruct e; try (destruct Hl; congruence). destruct Hl as [_ E]. by exists w'.
Qed.

Lemma unlink_ok s mode w : (mode = FailWhenSemaphoreDoesNotExist -> is_Some ((sems w).(names) !! file_path s)) ->
  exists w', unlink s mode w = (Ok tt, w') /\ sems w' = with_names (sems w) (delete (file_path s) (sems w).(names)).
Proof.
  intros Hm. unfold unlink. pose proof (sem_unlink_law (file_path s) w) as Hl. destruct (sem_unlink (file_path s) w) as [[[]|e] w'].
  - exists w'. split; [done|apply Hl].
  - destruct e; try (destruct Hl; congruence). destruct Hl as [Hn E]. exists w'. split.
    + destruct mode; [done|]. destruct (Hm eq_refl). congruence.
    + rewrite delete_id by done. rewrite E. by destruct (sems w).
Qed.

(** In a reliable system: what the modes of creation do with a semaphore that exists and
    with one that does not.  [PurgeAndCreate] replaces the semaphore and leaves the old one
    to those who have it open; dropping the owner takes the name away.  [OpenOrCreate] of a
    missing semaphore neither opens nor creates one: [open] reports the missing semaphore
    as a success, and the caller gets an object without a semaphore. *)
Theorem named_semaphore_modes n v w :
  0 <= v <= MAX_INITIAL_SEMAPHORE_VALUE ->
  match (sems w).(names) !! (47 :: n) with
  | Some h =>
      (exists w', new (builder n None v) w = (Ok (semaphore_of n (Some h) false), w') /\ sems w' = with_opened (sems w) h (opens (sems w) h + 1)) /\
      (exists w', new (builder n (Some F.OpenOrCreate) v) w = (Ok (semaphore_of n (Some h) false), w') /\ (sems w').(values) = (sems w).(values)) /\
      (exists w', new (builder n (Some F.CreateExclusive) v) w = (Err AlreadyExists, w') /\ sems w' = sems w)
  | None =>
      (exists w', new (builder n None v) w = (Err DoesNotExist, w') /\ sems w' = sems w) /\
      (exists w', new (builder n (Some F.OpenOrCreate) v) w = (Ok (semaphore_of n None false), w') /\ sems w' = sems w) /\
      (exists w' h, new (builder n (Some F.CreateExclusive) v) w = (Ok (semaphore_of n (Some h) true), w') /\ sems w' = created (sems w) (47 :: n) h v)
  end /\
  exists h w' w'', new (builder n (Some F.PurgeAndCreate) v) w = (Ok (semaphore_of n (Some h) true), w') /\
    (sems w').(names) !! (47 :: n) = Some h /\ (sems w').(values) !! h = Some v /\
    (forall h', is_Some ((sems w).(values) !! h') -> (sems w').(values) !! h' = (sems w).(values) !! h') /\
    drop_named (semaphore_of n (Some h) true) w' = Ret w'' /\ (sems w'').(names) = delete (47 :: n) (sems w).(names).
Proof.
  intros Hv. split.
  - destruct ((sems w).(names) !! (47 :: n)) as [h|] eqn:E; unfold new; cbn [builder c_creation_mode c_name c_clock_type c_permission c_initial_value set_owner name handle ns_clock_type].
    + split; [|split].
      * destruct (open_existing_ok (semaphore_of n None false) 0 InitOpen 0 w h) as (w' & E' & Ew); [done..|]. exists w'. unfold semaphore_of in *. by rewrite E'.
      * destruct (open_existing_ok (semaphore_of n None false) 0 InitTryOpen 0 w h) as (w' & E' & Ew); [done..|]. exists w'. unfold semaphore_of in *. by rewrite E', Ew.
      * destruct (open_create_exists (semaphore_of n None true) 448 v w) as (w' & E' & Ew); [lia|exists h; exact E|]. exists w'. unfold semaphore_of, set_owner in *. cbn [name handle ns_clock_type]. by rewrite E'.
    + split; [|split].
      * destruct (open_missing_ok (semaphore_of n None false) 0 InitOpen 0 w) as (w' & E' & Ew); [done..|]. exists w'. unfold semaphore_of in *. by rewrite E'.
      * destruct (open_missing_ok (semaphore_of n None false) 0 InitTryOpen 0 w) as (w' & E' & Ew); [done..|]. exists w'. unfold semaphore_of in *. by rewrite E'.
      * destruct (open_create_ok (semaphore_of n None true) 448 v w) as (w' & h & E' & _ & Ew); [lia|done|]. exists w', h. unfold semaphore_of, set_owner in *. cbn [name handle ns_clock_type]. by rewrite E'.
  - destruct (unlink_ok (semaphore_of n None true) IgnoreNonExistingSemaphore w) as (w1 & E1 & Ew1); [done|].
    destruct (open_create_ok (semaphore_of n None true) 448 v w1) as (w2 & h & E2 & Hh & Ew2); [lia|by rewrite Ew1; cbn; rewrite lookup_delete_eq|].
    pose proof (sem_close_law h w2) as Hc. destruct (sem_close h w2) as [[[]|e] w3] eqn:Ec.
    2: { destruct Hc as [Hc _]. unfold opens in Hc. rewrite Ew2 in Hc. cbn in Hc. rewrite lookup_insert_eq in Hc. cbn in Hc. lia. }
    destruct Hc as [_ Ew3]. destruct (unlink_ok (semaphore_of n (Some h) true) FailWhenSemaphoreDoesNotExist w3) as (w4 & E4 & Ew4).
    { intros _. rewrite Ew3, Ew2. cbn. by rewrite lookup_insert_eq. }
    exists h, w2, w4. split; [|split_and!].
    + unfold new. cbn [builder c_creation_mode c_name c_clock_type c_permission c_initial_value]. unfold semaphore_of, set_owner in *. cbn in *. by rewrite E1, E2.
    + rewrite Ew2. cbn. by rewrite lookup_insert_eq.
    + rewrite Ew2. cbn. by rewrite lookup_insert_eq.
    + intros h' Hh'. rewrite Ew2. cbn. rewrite Ew1 in *. cbn in *. rewrite lookup_insert_ne; [done|]. intros <-. destruct Hh'. congruence.
    + unfold drop_named. cbn [handle semaphore_of has_ownership]. rewrite Ec. by rewrite E4.
    + rewrite Ew4, Ew3, Ew2, Ew1. cbn. unfold file_path. cbn. by rewrite delete_insert_eq, delete_delete_eq.
Qed.

End named_lemmas.

(** A system in memory. *)
Module Simple.

Definition fresh (v : semaphores) : nat := S (foldr Nat.max O ((map_to_list v.(values)).*1 ++ (map_to_list v.(opened)).*1)).

Definition valid_names (v : semaphores) : Prop := forall n h, v.(names) !! n = Some h -> is_Some (v.(values) !! h).

Definition system := sig valid_names.

Lemma fresh_above v h : h ∈ (map_to_list v.(values)).*1 ++ (map_to_list v.(opened)).*1 -> (h < fresh v)%nat.
Proof. unfold fresh. induction (_ ++ _) as [|x l IH]; [by intros ?%elem_of_nil|]. cbn. intros [->|H]%elem_of_cons; [lia|]. specialize (IH H). lia. Qed.

Lemma fresh_values v : v.(values) !! fresh v = None.
Proof.
  destruct (v.(values) !! fresh v) as [x|] eqn:E; [|done]. assert (fresh v < fresh v)%nat; [|lia]. apply fresh_above, elem_of_app. left.
  apply list_elem_of_fmap. exists (fresh v, x). split; [done|]. by apply elem_of_map_to_list.
Qed.

Lemma fresh_opened v : v.(opened) !! fresh v = None.
Proof.
  destruct (v.(opened) !! fresh v) as [x|] eqn:E; [|done]. assert (fresh v < fresh v)%nat; [|lia]. apply fresh_above, elem_of_app. right.
  apply list_elem_of_fmap. exists (fresh v, x). split; [done|]. by apply elem_of_map_to_list.
Qed.

Lemma valid_created v n x : valid_names v -> valid_names (created v n (fresh v) x).
Proof.
  intros Hv m h. cbn. rewrite lookup_insert_Some. intros [[<- <-]|[_ Hm]]; [by rewrite lookup_insert_eq|].
  destruct (Hv m h Hm) as [y Hy]. destruct (decide (fresh v = h)) as [<-|Hne]; [by rewrite lookup_insert_eq|by rewrite lookup_insert_ne].
Qed.

Lemma valid_unlinked v n : valid_names v -> valid_names (with_names v (delete n v.(names))).
Proof. intros Hv m h. cbn. intros [_ Hm]%lookup_delete_Some. by apply (Hv m). Qed.

Lemma valid_opened v h x : valid_names v -> valid_names (with_opened v h x).
Proof. done. Qed.

#[export] Instance simple_semaphores : Semaphores system := {
  sem_open n w := match (`w).(names) !! n with
                  | Some h => (Ok h, with_opened (`w) h (opens (`w) h + 1) ↾ valid_opened _ _ _ (proj2_sig w))
                  | None => (Err ENOENT, w)
                  end;
  sem_create n mode x w := match (`w).(names) !! n with
                           | Some h => (Err EEXIST, w)
                           | None => (Ok (fresh (`w)), created (`w) n (fresh (`w)) x ↾ valid_created _ n x (proj2_sig w))
                           end;
  sem_unlink n w := match (`w).(names) !! n with
                    | Some h => (Ok tt, with_names (`w) (delete n (`w).(names)) ↾ valid_unlinked _ n (proj2_sig w))
                    | None => (Err ENOENT, w)
                    end;
  sem_close h w := if 0 <? opens (`w) h then (Ok tt, with_opened (`w) h (opens (`w) h - 1) ↾ valid_opened _ _ _ (proj2_sig w))
                   else (Err EINVAL, w);
}.

#[export] Instance simple_semaphore_laws : SemaphoreLaws false system.
Proof.
  refine {| sems := fun w => `w |}.
  - intros w. apply (proj2_sig w).
  - intros n w. cbn. by destruct ((`w).(names) !! n).
  - intros n m v w. cbn. destruct ((`w).(names) !! n) eqn:E; cbn; [done|]. unfold opens. by rewrite fresh_values, fresh_opened.
  - intros n w. cbn. destruct ((`w).(names) !! n) eqn:E; cbn; [done|done].
  - intros h w. cbn. destruct (Z.ltb_spec 0 (opens (`w) h)); cbn; done.
Defined.

End Simple.
Import Simple.

Lemma no_semaphores_valid : Simple.valid_names {| names := ∅; values := ∅; opened := ∅ |}.
Proof. intros n h. cbn. by rewrite lookup_empty. Qed.

Definition no_semaphores : Simple.system := _ ↾ no_semaphores_valid.

(** In a system without semaphores. *)
Lemma named_semaphore_modes_witness : exists w',
  new (builder [97] (Some F.OpenOrCreate) 1) no_semaphores = (Ok (semaphore_of [97] None false), w') /\ sems w' = sems no_semaphores.
Proof.
  pose proof (named_semaphore_modes [97] 1 no_semaphores ltac:(unfold MAX_INITIAL_SEMAPHORE_VALUE; lia)) as [(_ & H & _) _]. exact H.
Defined.

End Semaphore.
