(* ===== verification/PosixMutex.v ===== *)
(** * The mutex of the posix wrappers

    [iceoryx2_bb_posix::mutex]: a value behind a POSIX mutex, accessible through guards that
    unlock the mutex when they are dropped.  Threads lock, try to lock, lock with a timeout
    on either clock, drop their guards, repair and use the value, and die, in any order.

    The mutex of the operating system is not part of the repository.  [allowed] says, for the
    types and options of a mutex, which answers POSIX allows in which state and what they
    change; the system chooses among them.  The emulation of these calls for macOS, which is
    part of the repository, differs for recursive and robust mutexes; it is the subject of
    Pthread.v. *)

From S2P Require Import Prelude Semaphore.

Module PosixMutex.

Inductive Errno :=
  ESUCCES | EAGAIN | EBUSY | EDEADLK | EINVAL | ENOMEM | ENOTRECOVERABLE | EOWNERDEAD | EPERM | ETIMEDOUT.

#[export] Instance errno_eq_dec : EqDecision Errno.
Proof. solve_decision. Defined.

(* src/iceoryx2_bb/posix/src/mutex.rs:232-240 MutexType *)
Inductive MutexType := Normal | Recursive | WithDeadlockDetection.

(* src/iceoryx2_bb/posix/src/mutex.rs:260-273 MutexThreadTerminationBehavior *)
Inductive MutexThreadTerminationBehavior := StallWhenLocked | ReleaseWhenLocked.

(* src/iceoryx2_bb/posix/src/mutex.rs:246-255 MutexPriorityInheritance *)
Inductive MutexPriorityInheritance := PriorityNone | Inherit | Protect.

(* src/iceoryx2_bb/posix/src/mutex.rs:68-79 MutexCreationError *)
Inductive MutexCreationError :=
  InsufficientMemory | InsufficientResources | InsufficientPermissions | NoInterProcessSupport | UnableToSetType | UnableToSetProtocol
| UnableToSetThreadTerminationBehavior | UnableToSetPriorityCeiling | HandleAlreadyInitialized | CreationUnknownError (e : Errno).

(** [LockAcquiredButOwnerDied] contains a guard. *)
(* src/iceoryx2_bb/posix/src/mutex.rs:95-101 MutexLockError *)
Inductive MutexLockError :=
  ExceededMaximumNumberOfRecursiveLocks | DeadlockDetected | LockAcquiredButOwnerDied | UnrecoverableState | UnknownError (e : Errno).

(* src/iceoryx2_bb/posix/src/clock.rs:33-36 TimeError *)
Inductive TimeError := ClockTypeIsNotSupported | TimeUnknownError (e : Z).

(* src/iceoryx2_bb/posix/src/clock.rs:39-44 NanosleepError *)
Inductive NanosleepError := InterruptedBySignal (d : Z) | DurationOutOfRange | NanosleepClockTypeIsNotSupported | NanosleepUnknownError (e : Z).

(* src/iceoryx2_bb/posix/src/adaptive_wait.rs:70-74 AdaptiveWaitError *)
Inductive AdaptiveWaitError := WaitNanosleepError (e : NanosleepError) | WaitTimeError (e : TimeError).

(* src/iceoryx2_bb/posix/src/mutex.rs:112-118 MutexTimedLockError *)
Inductive MutexTimedLockError :=
| TimeoutExceedsMaximumSupportedDuration
| TimedMutexLockError (e : MutexLockError)
| TimedNanosleepError (e : NanosleepError)
| TimedAdaptiveWaitError (e : AdaptiveWaitError)
| FailureInInternalClockWhileWait (e : TimeError).

(* src/iceoryx2_bb/posix/src/mutex.rs:141-144 MutexUnlockError *)
Inductive MutexUnlockError := OwnedByDifferentEntity | UnlockUnknownError (e : Errno).

(* src/iceoryx2_bb/posix/src/mutex.rs:277-284 MutexBuilder *)
Record MutexBuilder := {
  is_interprocess_capable : bool;
  mutex_type : MutexType;
  thread_termination_behavior : MutexThreadTerminationBehavior;
  priority_inheritance : MutexPriorityInheritance;
  priority_ceiling : option Z;
  clock_type : Semaphore.ClockType;
}.

(** The default clock [c] depends on the platform. *)
(* src/iceoryx2_bb/posix/src/mutex.rs:287-296 default *)
Definition default_builder (c : Semaphore.ClockType) : MutexBuilder :=
  {| is_interprocess_capable := true; mutex_type := Normal; thread_termination_behavior := StallWhenLocked;
     priority_inheritance := PriorityNone; priority_ceiling := None; clock_type := c |}.

(** ** Creation *)

(** What the system answers to the calls of [create]: whether the attributes could be
    initialized, set and destroyed, and the results of the last two. *)
Record answers := {
  attr_init : bool; setpshared : bool; settype : bool; setprotocol : bool; setrobust : bool;
  setprioceiling : Errno; mutex_init : Errno; attr_destroy : bool;
}.

(* src/iceoryx2_bb/posix/src/mutex.rs:478-484 MutexHandle *)
Record MutexHandle (T : Type) := {
  h_clock_type : Semaphore.ClockType;
  h_is_interprocess_capable : bool;
  h_value : option T;
  reference_counter : Z;
}.
Arguments h_clock_type {T}.
Arguments h_is_interprocess_capable {T}.
Arguments h_value {T}.
Arguments reference_counter {T}.

(* src/iceoryx2_bb/posix/src/mutex.rs:502-510 default *)
Definition handle_default {T} (c : Semaphore.ClockType) : MutexHandle T :=
  {| h_clock_type := c; h_is_interprocess_capable := false; h_value := None;
     reference_counter := Semaphore.state_value Semaphore.StateUninitialized |}.

Definition set_counter {T} (h : MutexHandle T) c : MutexHandle T :=
  {| h_clock_type := h.(h_clock_type); h_is_interprocess_capable := h.(h_is_interprocess_capable); h_value := h.(h_value); reference_counter := c |}.

(** The attributes are destroyed whenever [create] returns after they were initialized. *)
Definition finish {T} (a : answers) (r : Result unit MutexCreationError) (h : MutexHandle T) : outcome (Result unit MutexCreationError * MutexHandle T) :=
  if a.(attr_destroy) then Ret (r, h) else Panic.

(* src/iceoryx2_bb/posix/src/mutex.rs:342-474 create *)
Definition create {T} (b : MutexBuilder) (t : T) (a : answers) (h : MutexHandle T) : outcome (Result unit MutexCreationError * MutexHandle T) :=
  let '(r, c) := compare_exchange h.(reference_counter) (Semaphore.state_value Semaphore.StateUninitialized)
                   (Semaphore.state_value Semaphore.PerformingInitialization) in
  match r with
  | Err _ => Ret (Err HandleAlreadyInitialized, h)
  | Ok _ =>
      let h := {| h_clock_type := b.(clock_type); h_is_interprocess_capable := b.(is_interprocess_capable); h_value := Some t; reference_counter := c |} in
      if negb a.(attr_init) then Ret (Err InsufficientMemory, h)
      else if b.(is_interprocess_capable) && negb a.(setpshared) then finish a (Err NoInterProcessSupport) h
      else if negb a.(settype) then finish a (Err UnableToSetType) h
      else if negb a.(setprotocol) then finish a (Err UnableToSetProtocol) h
      else if negb a.(setrobust) then finish a (Err UnableToSetThreadTerminationBehavior) h
      else if bool_decide (is_Some b.(priority_ceiling)) && negb (bool_decide (a.(setprioceiling) = ESUCCES)) then
        finish a (Err UnableToSetPriorityCeiling) h
      else
        match a.(mutex_init) with
        | ESUCCES =>
            let h := set_counter h (Semaphore.state_value Semaphore.Initialized) in finish a (Ok tt) h
        | ENOMEM => finish a (Err InsufficientMemory) h
        | EAGAIN => finish a (Err InsufficientResources) h
        | EPERM => finish a (Err InsufficientPermissions) h
        | e => finish a (Err (CreationUnknownError e)) h
        end
  end.

(** [destroyed]: the system destroys the mutex, which it refuses for a locked one. *)
(* src/iceoryx2_bb/posix/src/mutex.rs:565-573 drop *)
Definition drop_mutex {T} (h : MutexHandle T) (destroyed : bool) : outcome (MutexHandle T) :=
  if h.(reference_counter) =? 1 then if destroyed then Ret (set_counter h (-1)) else Panic
  else Ret (set_counter h (h.(reference_counter) - 1)).

(** Another mutex object on the handle, by a thread that nothing interrupts; the object is
    dropped again when the handle does not allow it. *)
(* src/iceoryx2_bb/posix/src/unmovable_ipc_handle.rs:49-78 from_ipc_handle *)
Definition from_ipc_handle {T} (h : MutexHandle T) (destroyed : bool) : outcome (Result unit Semaphore.AcquireIpcHandleError * MutexHandle T) :=
  if h.(reference_counter) <=? Semaphore.state_value Semaphore.PerformingInitialization then Ret (Err Semaphore.Uninitialized, h)
  else
    let h := set_counter h (h.(reference_counter) + 1) in
    if negb h.(h_is_interprocess_capable) then let! h := drop_mutex h destroyed in Ret (Err Semaphore.IsNotInterProcessCapable, h)
    else Ret (Ok tt, h).

(** ** The wrappers *)

(** The result tells whether there is a guard. *)
(* src/iceoryx2_bb/posix/src/mutex.rs:598-609 lock *)
Definition lock (e : Errno) : Result bool MutexLockError :=
  match e with
  | ESUCCES => Ok true
  | EAGAIN => Err ExceededMaximumNumberOfRecursiveLocks
  | EDEADLK => Err DeadlockDetected
  | EOWNERDEAD => Err LockAcquiredButOwnerDied
  | ENOTRECOVERABLE => Err UnrecoverableState
  | e => Err (UnknownError e)
  end.

(* src/iceoryx2_bb/posix/src/mutex.rs:620-632 try_lock *)
Definition try_lock (e : Errno) : Result bool MutexLockError :=
  match e with
  | ESUCCES => Ok true
  | EDEADLK | EBUSY => Ok false
  | EAGAIN => Err ExceededMaximumNumberOfRecursiveLocks
  | EOWNERDEAD => Err LockAcquiredButOwnerDied
  | ENOTRECOVERABLE => Err UnrecoverableState
  | e => Err (UnknownError e)
  end.

(* src/iceoryx2_bb/posix/src/mutex.rs:654-663 timed_lock *)
Definition timed_lock_realtime (e : Errno) : Result bool MutexTimedLockError :=
  match e with
  | ESUCCES => Ok true
  | ETIMEDOUT => Ok false
  | EAGAIN => Err (TimedMutexLockError ExceededMaximumNumberOfRecursiveLocks)
  | EINVAL => Err TimeoutExceedsMaximumSupportedDuration
  | EDEADLK => Err (TimedMutexLockError DeadlockDetected)
  | ENOTRECOVERABLE => Err (TimedMutexLockError UnrecoverableState)
  | e => Err (TimedMutexLockError (UnknownError e))
  end.

(** One round of the loop: [try_lock] is answered with [e], the clock says [elapsed] and the
    pause ends with [wait].  [None]: the thread tries again. *)
(* src/iceoryx2_bb/posix/src/mutex.rs:672-689 timed_lock *)
Definition timed_lock_monotonic (e : Errno) (elapsed : Result Z TimeError) (wait : Result unit AdaptiveWaitError) (duration : Z) :
    option (Result bool MutexTimedLockError) :=
  match try_lock e with
  | Ok true => Some (Ok true)
  | Ok false =>
      match elapsed with
      | Err v => Some (Err (FailureInInternalClockWhileWait v))
      | Ok elapsed =>
          if elapsed <? duration then match wait with Err v => Some (Err (TimedAdaptiveWaitError v)) | Ok _ => None end
          else Some (Ok false)
      end
  | Err v => Some (Err (TimedMutexLockError v))
  end.

(* src/iceoryx2_bb/posix/src/mutex.rs:82-85 MutexGetPrioCeilingError *)
Inductive MutexGetPrioCeilingError := GetInsufficientPermissions | GetUnknownError (e : Errno).

(* src/iceoryx2_bb/posix/src/mutex.rs:88-92 MutexSetPrioCeilingError *)
Inductive MutexSetPrioCeilingError := ValueOutOfRange | SetInsufficientPermissions | SetUnknownError (e : Errno).

(** [current]: what the system writes to the variable it is given. *)
(* src/iceoryx2_bb/posix/src/mutex.rs:707-716 priority_ceiling *)
Definition get_priority_ceiling (e : Errno) (current : Z) : Result Z MutexGetPrioCeilingError :=
  match e with ESUCCES => Ok current | EPERM => Err GetInsufficientPermissions | e => Err (GetUnknownError e) end.

(* src/iceoryx2_bb/posix/src/mutex.rs:719-729 set_priority_ceiling *)
Definition set_priority_ceiling (e : Errno) (previous : Z) : Result Z MutexSetPrioCeilingError :=
  match e with
  | ESUCCES => Ok previous
  | EINVAL => Err ValueOutOfRange
  | EPERM => Err SetInsufficientPermissions
  | e => Err (SetUnknownError e)
  end.

(* src/iceoryx2_bb/posix/src/mutex.rs:731-739 release *)
Definition release (e : Errno) : Result unit MutexUnlockError :=
  match e with ESUCCES => Ok tt | EPERM => Err OwnedByDifferentEntity | e => Err (UnlockUnknownError e) end.

(* src/iceoryx2_bb/posix/src/mutex.rs:222-226 drop *)
Definition drop_guard (e : Errno) : outcome unit := match release e with Ok _ => Ret tt | Err _ => Panic end.

Definition guard_of_lock (r : Result bool MutexLockError) : Z := match r with Ok true | Err LockAcquiredButOwnerDied => 1 | _ => 0 end.

Definition guard_of_timed_lock (r : Result bool MutexTimedLockError) : Z :=
  match r with Ok true | Err (TimedMutexLockError LockAcquiredButOwnerDied) => 1 | _ => 0 end.

(** ** The mutex of the operating system *)

Record posix_mutex := { owner : option nat; depth : Z; inconsistent : bool; unrecoverable : bool }.

Inductive lock_call := LockCall | TryLockCall | TimedLockCall.

(** The answers to a call that does not get the mutex of a living owner. *)
Definition waits (c : lock_call) (e : Errno) : bool :=
  match c, e with TryLockCall, EBUSY | TimedLockCall, ETIMEDOUT => true | _, _ => false end.

Section system.
(** [sends]: threads send their guards to other threads, as [MutexGuard] is [Send]. *)
Context (b : MutexBuilder) (MAX_RECURSION : Z) (sends : bool).

Definition is_recursive : bool := match b.(mutex_type) with Recursive => true | _ => false end.
Definition is_checked : bool := match b.(mutex_type) with WithDeadlockDetection => true | _ => false end.
Definition is_robust : bool := match b.(thread_termination_behavior) with ReleaseWhenLocked => true | _ => false end.

Definition taken_by (i : nat) (n : Z) (inc : bool) : posix_mutex :=
  {| owner := Some i; depth := n; inconsistent := inc; unrecoverable := false |}.

(** The thread [i] calls; [alive] tells whether the owner lives.  A call that has no allowed
    answer blocks.  A thread that locks its own mutex again gets a recursive lock; where
    the mutex is not recursive it is refused with [EDEADLK], told by [try_lock] that the
    mutex is busy, runs into its timeout, or blocks.  [EINVAL]
    refuses a timeout or a caller whose priority exceeds the ceiling. *)
Definition allowed (alive : nat -> bool) (c : lock_call) (i : nat) (e : Errno) (m : posix_mutex) : option posix_mutex :=
  if decide (e = EINVAL) then Some m
  else if m.(unrecoverable) then if decide (e = ENOTRECOVERABLE) then Some m else None
  else
    match m.(owner) with
    | None => if decide (e = ESUCCES) then Some (taken_by i 1 false) else None
    | Some j =>
        if decide (j = i) then
          if is_recursive then
            if m.(depth) <? MAX_RECURSION then
              if decide (e = ESUCCES) then Some (taken_by i (m.(depth) + 1) m.(inconsistent)) else None
            else if decide (e = EAGAIN) then Some m else None
          else if decide (e = EDEADLK) then Some m else if waits c e then Some m else None
        else if is_robust && negb (alive j) then if decide (e = EOWNERDEAD) then Some (taken_by i 1 true) else None
        else if waits c e then Some m else None
    end.

(** An owner that has not repaired the value leaves the mutex unusable.  Only the owner may
    unlock: the others get an error, and with the normal type, unless it is robust, the
    behaviour is undefined and there is no step. *)
Definition unlock_allowed (i : nat) (e : Errno) (m : posix_mutex) : option posix_mutex :=
  if decide (m.(owner) = Some i) then
    if decide (e = ESUCCES) then
      Some (if 1 <? m.(depth) then taken_by i (m.(depth) - 1) m.(inconsistent)
            else {| owner := None; depth := 0; inconsistent := false; unrecoverable := m.(inconsistent) |})
    else None
  else if (is_recursive || is_checked || is_robust) && bool_decide (e = EPERM) then Some m else None.

(* src/iceoryx2_bb/posix/src/mutex.rs:700-704 make_consistent *)
Definition make_consistent (m : posix_mutex) : posix_mutex :=
  {| owner := m.(owner); depth := m.(depth); inconsistent := false; unrecoverable := m.(unrecoverable) |}.

(** ** Threads *)

(** [guards]: how many guards the thread has; [polling]: it is inside [timed_lock]. *)
Record thread := { guards : Z; polling : option Z; panicked : bool }.

Record shared (T : Type) := { posix : posix_mutex; value : T; dead : list nat }.
Arguments posix {T}.
Arguments value {T}.
Arguments dead {T}.

Inductive event (T : Type) :=
| Lock (e : Errno)
| TryLock (e : Errno)
| TimedLock (duration : Z) (e : Errno)       (* with the real time clock, or the start of the loop *)
| Poll (e : Errno) (elapsed : Result Z TimeError) (wait : Result unit AdaptiveWaitError)
| FailClock (e : TimeError)                  (* the clock fails before anything was locked *)
| Send (j : nat)
| DropGuard (e : Errno)
| MakeConsistent
| Write (v : T)
| Die.
Arguments Lock {T}.
Arguments TryLock {T}.
Arguments TimedLock {T}.
Arguments Poll {T}.
Arguments FailClock {T}.
Arguments Send {T}.
Arguments DropGuard {T}.
Arguments MakeConsistent {T}.
Arguments Write {T}.
Arguments Die {T}.

Definition is_alive {T} (g : shared T) (i : nat) : bool := negb (existsb (Nat.eqb i) g.(dead)).

Definition with_posix {T} (g : shared T) m : shared T := {| posix := m; value := g.(value); dead := g.(dead) |}.

Definition gain (t : thread) (n : Z) : thread := {| guards := t.(guards) + n; polling := None; panicked := t.(panicked) |}.

Definition with_guards (t : thread) (n : Z) : thread := {| guards := n; polling := t.(polling); panicked := t.(panicked) |}.

Definition step {T} (ev : event T) (i : nat) (g : shared T) (t : thread) : option (shared T * thread) :=
  if negb (is_alive g i) || t.(panicked) then None
  else
    match ev, t.(polling) with
    | Lock e, None =>
        m ← allowed (is_alive g) LockCall i e g.(posix); Some (with_posix g m, gain t (guard_of_lock (lock e)))
    | TryLock e, None =>
        m ← allowed (is_alive g) TryLockCall i e g.(posix); Some (with_posix g m, gain t (guard_of_lock (try_lock e)))
    | TimedLock duration e, None =>
        match b.(clock_type) with
        | Semaphore.Realtime =>
            m ← allowed (is_alive g) TimedLockCall i e g.(posix); Some (with_posix g m, gain t (guard_of_timed_lock (timed_lock_realtime e)))
        | Semaphore.Monotonic => Some (g, {| guards := t.(guards); polling := Some duration; panicked := t.(panicked) |})
        end
    | Poll e elapsed wait, Some duration =>
        m ← allowed (is_alive g) TryLockCall i e g.(posix);
        Some (with_posix g m, match timed_lock_monotonic e elapsed wait duration with Some r => gain t (guard_of_timed_lock r) | None => t end)
    | FailClock e, None => Some (g, gain t (guard_of_timed_lock (Err (FailureInInternalClockWhileWait e))))
    | DropGuard e, None =>
        if 0 <? t.(guards) then
          m ← unlock_allowed i e g.(posix);
          Some (with_posix g m, match drop_guard e with
                                | Ret _ => gain t (-1)
                                | Panic => {| guards := t.(guards); polling := None; panicked := true |}
                                end)
        else None
    | MakeConsistent, None => Some (with_posix g (make_consistent g.(posix)), t)
    | Write v, None => if 0 <? t.(guards) then Some ({| posix := g.(posix); value := v; dead := g.(dead) |}, t) else None
    | Die, _ => Some ({| posix := g.(posix); value := g.(value); dead := i :: g.(dead) |}, t)
    | _, _ => None
    end.

Definition act {T} (a : nat * event T) (s : shared T * list thread) : option (shared T * list thread) :=
  t ← s.2 !! a.1;
  match a.2 with
  | Send j =>
      u ← s.2 !! j;
      if sends && is_alive s.1 a.1 && (0 <? t.(guards)) && negb (a.1 =? j)%nat then
        Some (s.1, <[j := with_guards u (u.(guards) + 1)]> (<[a.1 := with_guards t (t.(guards) - 1)]> s.2))
      else None
  | ev => r ← step ev a.1 s.1 t; Some (r.1, <[a.1 := r.2]> s.2)
  end.

Definition start {T} (v : T) (n : nat) : shared T * list thread :=
  ({| posix := {| owner := None; depth := 0; inconsistent := false; unrecoverable := false |}; value := v; dead := [] |},
   replicate n {| guards := 0; polling := None; panicked := false |}).

(** ** The invariant *)

Section invariant.
Context {T : Type}.
Implicit Types (g : shared T) (ts : list thread) (t : thread) (m : posix_mutex).

(** No lock is taken without a guard for it. *)
Definition no_leak : Prop := b.(clock_type) = Semaphore.Monotonic \/ is_robust = false.

(** What the mutex and the guards of a living thread have to do with each other. *)
Record thread_ok m (i : nat) t : Prop := {
  ok_nonneg : 0 <= t.(guards);
  ok_owner : 0 < t.(guards) -> m.(owner) = Some i;
  ok_depth : m.(owner) = Some i -> t.(guards) <= m.(depth);
  ok_exact : no_leak -> m.(owner) = Some i -> t.(guards) = m.(depth);
}.

Record inv (s : shared T * list thread) : Prop := {
  inv_threads : forall i t, s.2 !! i = Some t -> is_alive s.1 i = true -> thread_ok s.1.(posix) i t;
  inv_panicked : forall i t, s.2 !! i = Some t -> t.(panicked) = false;
  inv_depth : forall i, s.1.(posix).(owner) = Some i -> 1 <= s.1.(posix).(depth);
  inv_single : is_recursive = false -> s.1.(posix).(depth) <= 1;
}.

Lemma mutex_inv_start v n : inv (start v n).
Proof.
  split; cbn; try done; try lia; intros i t Hi; apply lookup_replicate in Hi as [-> _]; [intros _; split; cbn; done|done].
Qed.

(** A thread gets the mutex, or the state stays. *)
Lemma allowed_inv alive c i e m m' :
  allowed alive c i e m = Some m' ->
  (m' = m /\ e <> ESUCCES /\ e <> EOWNERDEAD) \/
  (e = ESUCCES /\ m.(owner) = None /\ m' = taken_by i 1 false) \/
  (e = ESUCCES /\ m.(owner) = Some i /\ is_recursive = true /\ m' = taken_by i (m.(depth) + 1) m.(inconsistent)) \/
  (e = EOWNERDEAD /\ is_robust = true /\ m' = taken_by i 1 true /\ exists j, m.(owner) = Some j /\ j <> i /\ alive j = false).
Proof.
  unfold allowed. intros E.
  destruct (decide (e = EINVAL)) as [->|_]; [injection E as <-; naive_solver|].
  destruct (unrecoverable m); [destruct (decide _) as [->|_]; naive_solver|].
  destruct (owner m) as [j|] eqn:Eo; [|destruct (decide _) as [->|_]; naive_solver].
  destruct (decide (j = i)) as [->|Hj].
  - destruct is_recursive eqn:Er.
    + destruct (_ <? _); destruct (decide _) as [->|_]; naive_solver.
    + destruct (decide _) as [->|_]; [naive_solver|]. destruct (waits c e) eqn:Ew; [|done].
      destruct c, e; try discriminate Ew; naive_solver.
  - destruct is_robust; cbn [andb].
    + destruct (alive j) eqn:Ea; cbn [negb] in E.
      * destruct (waits c e) eqn:Ew; [|done]. destruct c, e; try discriminate Ew; naive_solver.
      * destruct (decide _) as [->|_]; [|done]. injection E as <-. right; right; right. eauto 10.
    + destruct (waits c e) eqn:Ew; [|done]. destruct c, e; try discriminate Ew; naive_solver.
Qed.

(** A step of the thread [i] that changes nothing for the other living threads. *)
Lemma mutex_inv_update g ts i t m v t' :
  inv (g, ts) -> ts !! i = Some t ->
  thread_ok m i t' -> t'.(panicked) = false ->
  (forall j, j <> i -> is_alive g j = true -> (m.(owner) = Some j <-> g.(posix).(owner) = Some j) /\ (m.(owner) = Some j -> m.(depth) = g.(posix).(depth))) ->
  (forall j, m.(owner) = Some j -> 1 <= m.(depth)) -> (is_recursive = false -> m.(depth) <= 1) ->
  inv ({| posix := m; value := v; dead := g.(dead) |}, <[i := t']> ts).
Proof.
  intros [Ht Hp _ _] Hi Hok Hpan Hothers Hd Hs. cbn [fst snd] in *. split; cbn [fst snd posix]; try done.
  - intros j u Hj Ha. apply list_lookup_insert_Some in Hj as [(-> & <- & _)|[Hne Hj]]; [done|].
    change (is_alive g j = true) in Ha. destruct (Ht j u Hj Ha) as [H1 H2 H3 H4]. destruct (Hothers j) as [[Ho1 Ho2] Hdj]; try done.
    split; [done|auto| |].
    + intros Ho. rewrite (Hdj Ho). auto.
    + intros Hn Ho. rewrite (Hdj Ho). auto.
  - intros j u Hj. apply list_lookup_insert_Some in Hj as [(-> & <- & _)|[Hne Hj]]; eauto.
Qed.

(** A call that gets the mutex, with [k] guards for it. *)
Lemma mutex_inv_acquire g ts i t c e m' t' k :
  inv (g, ts) -> ts !! i = Some t -> is_alive g i = true -> allowed (is_alive g) c i e g.(posix) = Some m' ->
  t'.(guards) = t.(guards) + k -> t'.(panicked) = false -> 0 <= k <= 1 -> (e <> ESUCCES -> e <> EOWNERDEAD -> k = 0) ->
  (no_leak -> e = ESUCCES \/ (e = EOWNERDEAD /\ is_robust = true) -> k = 1) ->
  inv (with_posix g m', <[i := t']> ts).
Proof.
  intros Hinv Hi Ha Hall Hg Hp Hk H0 H1. pose proof Hinv as [Ht _ Hd Hs]. cbn [fst snd] in *.
  destruct (Ht i t Hi Ha) as [T1 T2 T3 T4].
  apply allowed_inv in Hall as [(-> & E1 & E2)|[(-> & Ho & ->)|[(-> & Ho & Hr & ->)|(-> & Hrob & -> & j & Ho & Hne & Hdead)]]].
  - specialize (H0 E1 E2). subst k. rewrite Z.add_0_r in Hg.
    eapply mutex_inv_update; eauto. split; rewrite Hg; auto.
  - rewrite Ho in T2. assert (Hz : t.(guards) = 0) by (destruct (Z.lt_trichotomy 0 t.(guards)) as [X|[X|X]]; [by specialize (T2 X)|lia|lia]).
    eapply mutex_inv_update; eauto; cbn [taken_by owner depth]; try lia.
    + split; cbn [taken_by owner depth]; try lia; [done|]. intros Hn _. specialize (H1 Hn). rewrite Hg, H1; [lia|by left].
    + intros j Hj _. rewrite Ho. split; [split; congruence|congruence].
  - specialize (T3 Ho). specialize (Hd i Ho).
    eapply mutex_inv_update; eauto; cbn [taken_by owner depth]; try lia; try congruence.
    + split; cbn [taken_by owner depth]; try lia; [done|]. intros Hn _. rewrite Hg, (T4 Hn Ho), (H1 Hn); [done|by left].
    + intros j Hj _. rewrite Ho. split; [split; congruence|congruence].
  - assert (Hz : t.(guards) = 0).
    { destruct (Z.lt_trichotomy 0 t.(guards)) as [X|[X|X]]; [|lia|lia]. specialize (T2 X). congruence. }
    eapply mutex_inv_update; eauto; cbn [taken_by owner depth]; try lia.
    + split; cbn [taken_by owner depth]; try lia; [done|]. intros Hn _. rewrite Hg, (H1 Hn); [lia|by right].
    + intros l Hl Hal. rewrite Ho. split; [split; [congruence|]|congruence]. intros [= <-]. congruence.
Qed.

(** Dropping a guard: the thread owns the mutex. *)
Lemma inv_release g ts i t e m' :
  inv (g, ts) -> ts !! i = Some t -> is_alive g i = true -> 0 < t.(guards) -> unlock_allowed i e g.(posix) = Some m' ->
  e = ESUCCES /\ inv (with_posix g m', <[i := gain t (-1)]> ts).
Proof.
  intros Hinv Hi Ha Hg Hu. pose proof Hinv as [Ht Hpan Hd Hs]. cbn [fst snd] in *.
  destruct (Ht i t Hi Ha) as [T1 T2 T3 T4]. specialize (T2 Hg). specialize (T3 T2). specialize (Hd i T2).
  unfold unlock_allowed in Hu. rewrite decide_True in Hu by done. destruct (decide (e = ESUCCES)); [|done]. injection Hu as <-.
  split; [done|]. unfold with_posix, gain.
  eapply mutex_inv_update; eauto; cbn [panicked]; [|by eapply Hpan| | |];
    destruct (Z.ltb_spec 1 g.(posix).(depth)); cbn [taken_by owner depth]; try lia; try done.
  - split; cbn [taken_by owner depth guards]; try lia; [done|]. intros Hn _. rewrite (T4 Hn T2). lia.
  - split; cbn [owner depth guards]; try lia; done.
  - intros j Hj _. rewrite T2. split; [split; congruence|congruence].
  - intros j Hj _. rewrite T2. split; [split; congruence|done].
  - intros Hr. specialize (Hs Hr). lia.
Qed.

Lemma is_alive_cons g i j : is_alive {| posix := g.(posix); value := g.(value); dead := i :: g.(dead) |} j = true -> j <> i /\ is_alive g j = true.
Proof. unfold is_alive. cbn. destruct (Nat.eqb_spec j i); cbn; [done|]. done. Qed.

Lemma inv_die g ts i : inv (g, ts) -> inv ({| posix := g.(posix); value := g.(value); dead := i :: g.(dead) |}, ts).
Proof. intros [Ht Hp Hd Hs]. split; cbn [fst snd posix] in *; try done. intros j t Hj Ha. apply is_alive_cons in Ha as [_ Ha]. auto. Qed.

Lemma guard_of_lock_bounds r : 0 <= guard_of_lock r <= 1.
Proof. destruct r as [[]|[]]; cbn; lia. Qed.

Lemma guard_of_timed_lock_bounds r : 0 <= guard_of_timed_lock r <= 1.
Proof. destruct r as [[]|[|[]| | |]]; cbn; lia. Qed.

Lemma step_inv ev i g ts t g' t' :
  inv (g, ts) -> ts !! i = Some t -> step ev i g t = Some (g', t') -> inv (g', <[i := t']> ts).
Proof.
  intros Hinv Hi. unfold step. pose proof (inv_panicked _ Hinv i t Hi) as Hp. rewrite Hp, orb_false_r.
  destruct (is_alive g i) eqn:Ha; cbn [negb]; [|done].
  assert (Hid : forall g'', inv (g'', ts) -> inv (g'', <[i := t]> ts)) by (intros; by rewrite list_insert_id).
  assert (Hsame : forall u, u.(guards) = t.(guards) -> u.(panicked) = false -> inv (g, <[i := u]> ts)).
  { intros u Hu Hpu. pose proof Hinv as [Ht _ Hd Hs]. destruct (Ht i t Hi Ha) as [T1 T2 T3 T4]. destruct g as [m v d].
    apply (mutex_inv_update {| posix := m; value := v; dead := d |} ts i t m v u); try done. split; rewrite Hu; auto. }
  destruct ev as [e|e|duration e|e elapsed wait|e|j|e| |v|], t.(polling) as [dur|] eqn:Epoll; try done; intros E.
  - destruct (allowed _ _ _ _ _) as [m|] eqn:Em; [|done]. injection E as <- <-.
    eapply mutex_inv_acquire; eauto using guard_of_lock_bounds; [destruct e; naive_solver|naive_solver].
  - destruct (allowed _ _ _ _ _) as [m|] eqn:Em; [|done]. injection E as <- <-.
    eapply mutex_inv_acquire; eauto using guard_of_lock_bounds; [destruct e; naive_solver|naive_solver].
  - destruct b.(clock_type) eqn:Ec; [by injection E as <- <-; apply Hsame|].
    destruct (allowed _ _ _ _ _) as [m|] eqn:Em; [|done]. injection E as <- <-.
    eapply mutex_inv_acquire; eauto using guard_of_timed_lock_bounds; [destruct e; naive_solver|].
    intros [X|X] [->|[-> Y]]; congruence || done.
  - destruct (allowed _ _ _ _ _) as [m|] eqn:Em; [|done]. injection E as <- <-.
    destruct (timed_lock_monotonic e elapsed wait dur) as [r|] eqn:Er.
    + eapply mutex_inv_acquire; eauto using guard_of_timed_lock_bounds;
        [intros E1 E2|intros _ [->|[-> _]]; cbn in Er; by injection Er as <-].
      unfold timed_lock_monotonic in Er. destruct e; cbn in Er; try done; try (by injection Er as <-);
        destruct elapsed as [x|]; try (by injection Er as <-); destruct (x <? dur), wait; try discriminate Er; by injection Er as <-.
    + eapply (mutex_inv_acquire _ _ _ _ _ _ _ _ 0); eauto; try lia. intros _ [->|[-> _]]; by cbn in Er.
  - injection E as <- <-. apply Hsame; cbn; [lia|done].
  - destruct (Z.ltb_spec 0 t.(guards)) as [Hg|]; [|done]. destruct (unlock_allowed _ _ _) as [m|] eqn:Em; [|done].
    injection E as <- <-. by edestruct inv_release as [-> ?].
  - injection E as <- <-. apply Hid. pose proof Hinv as [Ht Hpn Hd Hs]. split; try done.
    intros k u Hk Hak. destruct (Ht k u Hk Hak). by split.
  - destruct (0 <? _); [|done]. injection E as <- <-. apply Hid. pose proof Hinv as [Ht Hpn Hd Hs]. by split.
  - injection E as <- <-. by apply Hid, inv_die.
  - injection E as <- <-. by apply Hid, inv_die.
Qed.

Lemma mutex_act_inv a s s' : sends = false -> act a s = Some s' -> inv s -> inv s'.
Proof.
  intros Hs E Hinv. destruct s as [g ts], a as [i ev]. unfold act in E. cbn [fst snd] in E.
  destruct (ts !! i) as [t|] eqn:Hi; [|done]. cbn in E.
  destruct ev; try (destruct (ts !! j); [|done]; cbn in E; by rewrite Hs in E);
    (destruct (step _ i g t) as [[g' t']|] eqn:Es; [|done]; injection E as <-; by eapply step_inv).
Qed.

Lemma mutex_reachable_inv v n s : sends = false -> rtc (act_step act) (start v n) s -> inv s.
Proof.
  intros Hs H. eapply rtc_invariant; [|exact H|apply mutex_inv_start]. intros a c [x y E] Ha. by eapply mutex_act_inv.
Qed.

(** ** A lock without a guard *)

(** The living thread [i] owns the mutex more often than it has guards. *)
Definition leaked (i : nat) (s : shared T * list thread) : Prop :=
  s.1.(posix).(owner) = Some i /\ is_alive s.1 i = true /\ exists t, s.2 !! i = Some t /\ t.(guards) < s.1.(posix).(depth).

Definition survives (i : nat) (a : nat * event T) (s : shared T * list thread) : option (shared T * list thread) :=
  match a.2 with Die => if (a.1 =? i)%nat then None else act a s | _ => act a s end.

Lemma allowed_owned alive c k i e m m' :
  allowed alive c k e m = Some m' -> m.(owner) = Some i -> alive i = true ->
  m'.(owner) = Some i /\ e <> EOWNERDEAD /\ (k <> i -> m' = m) /\ (m' = m /\ e <> ESUCCES \/ e = ESUCCES /\ m'.(depth) = m.(depth) + 1).
Proof.
  intros H Ho Ha.
  apply allowed_inv in H as [(-> & E1 & E2)|[(-> & Ho' & ->)|[(-> & Ho' & _ & ->)|(-> & _ & -> & j & Ho' & _ & Hd)]]];
    try congruence; [naive_solver|].
  rewrite Ho in Ho'. injection Ho' as ->. cbn [taken_by owner depth]. naive_solver.
Qed.

Lemma leaked_acquire i k c e g ts m u' :
  leaked i (g, ts) -> is_Some (ts !! k) -> allowed (is_alive g) c k e g.(posix) = Some m ->
  (e <> EOWNERDEAD -> forall u, ts !! k = Some u -> u'.(guards) <= u.(guards) + (if decide (e = ESUCCES) then 1 else 0)) ->
  leaked i (with_posix g m, <[k := u']> ts).
Proof.
  intros (Ho & Ha & t & Ht & Hlt) [u Hu] Hall Hg. cbn [fst snd] in *.
  edestruct allowed_owned as (Ho' & He & Hne & Hd); eauto. specialize (Hg He). split; [done|]. split; [done|]. cbn [fst snd with_posix posix].
  destruct (decide (k = i)) as [->|Hk].
  - exists u'. rewrite list_lookup_insert_eq by (by eapply lookup_lt_Some). split; [done|].
    rewrite Ht in Hu. injection Hu as ->. specialize (Hg u Ht). destruct Hd as [[-> X]|[-> ->]]; case_decide; try done; lia.
  - exists t. rewrite list_lookup_insert_ne, (Hne Hk) by done. done.
Qed.

Lemma leaked_same i k g ts u u' v :
  leaked i (g, ts) -> ts !! k = Some u -> u'.(guards) = u.(guards) ->
  leaked i ({| posix := g.(posix); value := v; dead := g.(dead) |}, <[k := u']> ts).
Proof.
  intros (Ho & Ha & t & Ht & Hlt) Hu Hg. split; [done|]. split; [done|]. cbn [fst snd posix] in *.
  destruct (decide (k = i)) as [->|Hk].
  - exists u'. rewrite list_lookup_insert_eq by (by eapply lookup_lt_Some). split; [done|]. congruence.
  - exists t. by rewrite list_lookup_insert_ne.
Qed.

Lemma leaked_release i k g ts u e m :
  inv (g, ts) -> leaked i (g, ts) -> ts !! k = Some u -> is_alive g k = true -> 0 < u.(guards) -> unlock_allowed k e g.(posix) = Some m ->
  leaked i (with_posix g m, <[k := gain u (-1)]> ts).
Proof.
  intros Hinv (Ho & Ha & t & Ht & Hlt) Hu Hk Hg E. cbn [fst snd] in *.
  pose proof (ok_owner _ _ _ (inv_threads _ Hinv k u Hu Hk) Hg) as Ho'. cbn [fst] in Ho'. rewrite Ho in Ho'. injection Ho' as <-.
  rewrite Ht in Hu. injection Hu as <-. unfold unlock_allowed in E. rewrite decide_True in E by done.
  destruct (decide _); [|done]. injection E as <-. rewrite (proj2 (Z.ltb_lt 1 g.(posix).(depth))) by lia.
  split; [done|]. split; [done|]. exists (gain t (-1)). cbn [fst snd with_posix posix taken_by depth gain guards].
  rewrite list_lookup_insert_eq by (by eapply lookup_lt_Some). split; [done|lia].
Qed.

Lemma leaked_die i k g ts u : leaked i (g, ts) -> ts !! k = Some u -> k <> i ->
  leaked i ({| posix := g.(posix); value := g.(value); dead := k :: g.(dead) |}, <[k := u]> ts).
Proof.
  intros (Ho & Ha & Ht) Hu Hk. rewrite list_insert_id by done. split; [done|]. split; [|done].
  unfold is_alive in *. cbn [fst dead existsb] in *. destruct (Nat.eqb_spec i k); [congruence|done].
Qed.

Lemma step_leaked i ev k g ts u g' u' :
  inv (g, ts) -> leaked i (g, ts) -> ts !! k = Some u -> (ev = Die -> k <> i) ->
  step ev k g u = Some (g', u') -> leaked i (g', <[k := u']> ts).
Proof.
  intros Hinv Hl Hu Hdie. unfold step. pose proof (inv_panicked _ Hinv k u Hu) as Hp. rewrite Hp, orb_false_r.
  destruct (is_alive g k) eqn:Ha; cbn [negb]; [|done].
  assert (Hsame : forall u1, u1.(guards) = u.(guards) -> leaked i (g, <[k := u1]> ts)).
  { intros u1 H1. pose proof (leaked_same _ _ _ _ _ _ g.(value) Hl Hu H1). by destruct g. }
  assert (Hacq : forall c e m u1, allowed (is_alive g) c k e g.(posix) = Some m ->
    (e <> EOWNERDEAD -> u1.(guards) <= u.(guards) + (if decide (e = ESUCCES) then 1 else 0)) -> leaked i (with_posix g m, <[k := u1]> ts)).
  { intros c e m u1 Hall H1. eapply leaked_acquire; eauto. intros He u2 Hu2. rewrite Hu in Hu2. injection Hu2 as <-. auto. }
  destruct ev as [e|e|duration e|e elapsed wait|e|j|e| |v|], u.(polling) as [dur|] eqn:Epoll; try done; intros E.
  - destruct (allowed _ _ _ _ _) as [m|] eqn:Em; [|done]. injection E as <- <-. eapply Hacq; [done|]. destruct e; cbn; try done; lia.
  - destruct (allowed _ _ _ _ _) as [m|] eqn:Em; [|done]. injection E as <- <-. eapply Hacq; [done|]. destruct e; cbn; try done; lia.
  - destruct b.(clock_type); [by injection E as <- <-; apply Hsame|].
    destruct (allowed _ _ _ _ _) as [m|] eqn:Em; [|done]. injection E as <- <-. eapply Hacq; [done|]. destruct e; cbn; try done; lia.
  - destruct (allowed _ _ _ _ _) as [m|] eqn:Em; [|done]. injection E as <- <-. eapply Hacq; [done|]. intros He.
    unfold timed_lock_monotonic. destruct e; cbn [try_lock]; try done;
      try (destruct elapsed as [x|x]; [destruct (x <? dur), wait|]); case_decide; try done; cbn; lia.
  - injection E as <- <-. apply Hsame. cbn. lia.
  - destruct (Z.ltb_spec 0 u.(guards)) as [Hg|]; [|done]. destruct (unlock_allowed _ _ _) as [m|] eqn:Em; [|done].
    injection E as <- <-. edestruct inv_release as [-> _]; eauto. cbn. by eapply leaked_release.
  - injection E as <- <-. rewrite list_insert_id by done. by destruct Hl as (? & ? & ?).
  - destruct (0 <? _); [|done]. injection E as <- <-. by eapply leaked_same.
  - injection E as <- <-. by apply leaked_die; auto.
  - injection E as <- <-. by apply leaked_die; auto.
Qed.

Lemma survives_act i a s s' : survives i a s = Some s' -> act a s = Some s'.
Proof. unfold survives. destruct a.2; try done. by destruct (_ =? _)%nat. Qed.

Lemma survives_leaked i s s' : sends = false -> rtc (act_step (survives i)) s s' -> inv s -> leaked i s -> inv s' /\ leaked i s'.
Proof.
  intros Hs H Hinv Hl. revert Hinv Hl. cut (inv s /\ leaked i s -> inv s' /\ leaked i s'); [tauto|].
  apply (rtc_invariant (act_step (survives i)) (fun s => inv s /\ leaked i s)); [|done].
  intros [g ts] s2 [[k ev] s3 E] [Hi Hk]. split; [eapply mutex_act_inv; [done|by eapply survives_act|done]|].
  assert (Hd : ev = Die -> k <> i) by (intros -> ->; unfold survives in E; cbn in E; by rewrite Nat.eqb_refl in E).
  apply survives_act in E. unfold act in E. cbn [fst snd] in E. destruct (ts !! k) as [u|] eqn:Hu; [|done]. cbn in E.
  destruct ev; try (destruct (ts !! j); [|done]; cbn in E; by rewrite Hs in E);
    (destruct (step _ k g u) as [[g' u']|] eqn:Es; [|done]; injection E as <-; by eapply step_leaked).
Qed.

End invariant.
End system.
Arguments posix {T}.
Arguments value {T}.
Arguments dead {T}.
Arguments Lock {T}.
Arguments TryLock {T}.
Arguments TimedLock {T}.
Arguments Poll {T}.
Arguments DropGuard {T}.
Arguments MakeConsistent {T}.
Arguments Write {T}.
Arguments Send {T}.
Arguments Die {T}.

(** ** Properties *)

(** C33: On a system whose mutex answers as POSIX documents ([allowed]), any number of threads
    lock a mutex of any type and options in all ways, use and repair its value, drop their
    guards and die.  As long as they do not send guards to each other, at most one living
    thread has guards, and no more than one guard unless the mutex is recursive; dropping
    a guard never panics; and, unless the mutex is robust and uses the real time clock, a
    living owner of the lock has one guard for every time it locked.  The emulation for
    macOS in this repository is not such a system. *)
Theorem mutex_guards_exclusive {T} b MAX (v : T) n g ts :
  rtc (act_step (act b MAX false)) (start v n) (g, ts) ->
  (forall i j t u, ts !! i = Some t -> ts !! j = Some u -> is_alive g i = true -> is_alive g j = true ->
     0 < t.(guards) -> 0 < u.(guards) -> i = j) /\
  (forall i t, ts !! i = Some t -> t.(panicked) = false) /\
  (forall i t, ts !! i = Some t -> is_alive g i = true -> is_recursive b = false -> 0 <= t.(guards) <= 1) /\
  (b.(clock_type) = Semaphore.Monotonic \/ is_robust b = false -> forall i t, ts !! i = Some t -> is_alive g i = true ->
     g.(posix).(owner) = Some i -> t.(guards) = g.(posix).(depth) /\ 1 <= t.(guards)).
Proof.
  intros H. apply mutex_reachable_inv in H; [|done]. pose proof H as [Ht Hp Hd Hs]. cbn [fst snd] in *. split_and!.
  - intros i j t u Hi Hj Hai Haj Hti Huj. pose proof (ok_owner _ _ _ _ (Ht i t Hi Hai) Hti).
    pose proof (ok_owner _ _ _ _ (Ht j u Hj Haj) Huj). congruence.
  - done.
  - intros i t Hi Ha Hr. destruct (Ht i t Hi Ha) as [T1 T2 T3 T4]. specialize (Hs Hr).
    destruct (decide (0 < t.(guards))) as [X|X]; [specialize (T3 (T2 X))|]; lia.
  - intros Hn i t Hi Ha Ho. pose proof (ok_exact _ _ _ _ (Ht i t Hi Ha) Hn Ho). specialize (Hd i Ho). lia.
Qed.

Definition robust_builder (c : Semaphore.ClockType) : MutexBuilder :=
  {| is_interprocess_capable := true; mutex_type := Normal; thread_termination_behavior := ReleaseWhenLocked;
     priority_inheritance := PriorityNone; priority_ceiling := None; clock_type := c |}.

Definition checked_builder : MutexBuilder :=
  {| is_interprocess_capable := true; mutex_type := WithDeadlockDetection; thread_termination_behavior := StallWhenLocked;
     priority_inheritance := PriorityNone; priority_ceiling := None; clock_type := Semaphore.Monotonic |}.

(** A robust mutex: the owner dies, the next one polls for the lock, repairs the value and
    drops its guard, and a third thread gets a consistent mutex. *)
Definition repair_schedule : list (nat * event Z) :=
  [(0%nat, Lock ESUCCES); (0%nat, Write 5); (1%nat, TryLock EBUSY); (0%nat, Die); (1%nat, TimedLock 10 ESUCCES);
   (1%nat, Poll EOWNERDEAD (Ok 1) (Ok tt)); (1%nat, Write 7); (1%nat, MakeConsistent); (1%nat, DropGuard ESUCCES); (2%nat, Lock ESUCCES)].

Lemma mutex_guards_exclusive_witness :
  exists g ts, run_schedule (act (robust_builder Semaphore.Monotonic) 10 false) repair_schedule (start 0 3) = Some (g, ts) /\
    g.(value) = 7 /\ g.(posix) = taken_by 2 1 false /\ guards <$> ts !! 2%nat = Some 1 /\
    (forall i t, ts !! i = Some t -> t.(panicked) = false).
Proof.
  eexists _, _. split; [vm_compute; reflexivity|]. split; [reflexivity|]. split; [reflexivity|]. split; [reflexivity|].
  refine (proj1 (proj2 (mutex_guards_exclusive (robust_builder Semaphore.Monotonic) 10 0 3 _ _ _))).
  apply (run_schedule_reachable _ repair_schedule). vm_compute. reflexivity.
Defined.

(** With the real time clock [timed_lock] does not know the answer for a robust mutex
    whose owner died: it returns an unknown error and no guard although the thread now owns
    the mutex.  As long as that thread lives it stays the owner and no other thread gets a
    guard any more. *)
Theorem mutex_timed_lock_leaks {T} b MAX (v : T) n g ts i j t d :
  rtc (act_step (act b MAX false)) (start v n) (g, ts) ->
  b.(clock_type) = Semaphore.Realtime -> is_robust b = true ->
  g.(posix).(owner) = Some j -> is_alive g j = false -> g.(posix).(unrecoverable) = false ->
  ts !! i = Some t -> is_alive g i = true -> t.(polling) = None ->
  timed_lock_realtime EOWNERDEAD = Err (TimedMutexLockError (UnknownError EOWNERDEAD)) /\
  exists s, act b MAX false (i, TimedLock d EOWNERDEAD) (g, ts) = Some s /\
    forall s', rtc (act_step (survives b MAX false i)) s s' ->
      s'.1.(posix).(owner) = Some i /\
      forall k u, k <> i -> s'.2 !! k = Some u -> is_alive s'.1 k = true -> u.(guards) = 0.
Proof.
  intros H Hc Hr Ho Hdead Hun Hi Ha Hpoll. split; [done|]. apply mutex_reachable_inv in H; [|done].
  assert (Hne : j <> i) by congruence.
  assert (Hg : t.(guards) = 0).
  { destruct (inv_threads _ _ H i t Hi Ha) as [T1 T2 _ _]. destruct (decide (0 < t.(guards))) as [X|X]; [|lia].
    specialize (T2 X). cbn [fst] in T2. congruence. }
  assert (E : act b MAX false (i, TimedLock d EOWNERDEAD) (g, ts) = Some (with_posix g (taken_by i 1 true), <[i := gain t 0]> ts)).
  { unfold act. cbn [fst snd]. rewrite Hi. cbn [mbind option_bind]. unfold step.
    rewrite Ha, (inv_panicked _ _ H i t Hi), Hpoll, Hc. cbn [negb orb]. unfold allowed.
    rewrite Hun, Ho, Hr, Hdead. by destruct (decide (j = i)). }
  eexists. split; [exact E|]. intros s' Hs'.
  apply survives_leaked in Hs' as [Hinv (Ho' & Ha' & _)]; [|done|exact (mutex_act_inv b MAX false _ _ _ eq_refl E H)|].
  - split; [done|]. intros k u Hk Hu Hak. destruct (inv_threads _ _ Hinv k u Hu Hak) as [T1 T2 _ _].
    destruct (decide (0 < u.(guards))) as [X|X]; [|lia]. specialize (T2 X). congruence.
  - split; [done|]. split; [done|]. exists (gain t 0). cbn. rewrite list_lookup_insert_eq by (by eapply lookup_lt_Some).
    split; [done|]. lia.
Qed.

Lemma mutex_timed_lock_leaks_witness :
  exists g ts s, run_schedule (act (robust_builder Semaphore.Realtime) 10 false) [(0%nat, Lock ESUCCES); (0%nat, Die)] (start 0 3) = Some (g, ts) /\
    act (robust_builder Semaphore.Realtime) 10 false (1%nat, TimedLock 5 EOWNERDEAD) (g, ts) = Some s /\
    forall s', rtc (act_step (survives (robust_builder Semaphore.Realtime) 10 false 1)) s s' -> s'.1.(posix).(owner) = Some 1%nat.
Proof.
  eexists _, _. edestruct (mutex_timed_lock_leaks (robust_builder Semaphore.Realtime) 10 0 3) with (i := 1%nat) (d := 5) as [_ [s [E Hs]]];
    [apply (run_schedule_reachable _ [(0%nat, Lock ESUCCES); (0%nat, Die)]); vm_compute; reflexivity|reflexivity..|].
  exists s. split; [vm_compute; reflexivity|]. split; [exact E|]. intros s' H. by apply Hs.
Defined.

(** [MutexGuard] is [Send], but only the thread that locked may unlock: when a guard is
    dropped by the thread it was sent to, the drop panics and the mutex stays locked. *)
Theorem mutex_sent_guard_panics :
  exists g ts, run_schedule (act checked_builder 10 true) [(0%nat, Lock ESUCCES); (0%nat, Send 1%nat); (1%nat, DropGuard EPERM)] (start 0 2) = Some (g, ts) /\
    panicked <$> ts !! 1%nat = Some true /\ g.(posix).(owner) = Some 0%nat /\ drop_guard EPERM = Panic.
Proof. eexists _, _. split; [vm_compute; reflexivity|]. by split_and!. Qed.

(** A recursive mutex gives a thread a second guard to the value of the first. *)
Theorem mutex_recursive_two_guards :
  exists b g ts, is_recursive b = true /\ run_schedule (act b 10 false) [(0%nat, Lock ESUCCES); (0%nat, Lock ESUCCES)] (start 0 1) = Some (g, ts) /\
    guards <$> ts !! 0%nat = Some 2.
Proof.
  exists {| is_interprocess_capable := true; mutex_type := Recursive; thread_termination_behavior := StallWhenLocked;
            priority_inheritance := PriorityNone; priority_ceiling := None; clock_type := Semaphore.Monotonic |}.
  eexists _, _. split; [done|]. split; [vm_compute; reflexivity|]. done.
Qed.

(** When the creation of a mutex fails, its handle can never be used again: whatever the
    system answers, every later creation says that the handle is already initialized and
    every attempt to open it that it is not. *)
Theorem mutex_create_failure_blocks_handle {T} b (t : T) a c e h :
  create b t a (handle_default c) = Ret (Err e, h) ->
  forall b' t' a' destroyed, create b' t' a' h = Ret (Err HandleAlreadyInitialized, h) /\ from_ipc_handle h destroyed = Ret (Err Semaphore.Uninitialized, h).
Proof.
  intros H. assert (Hc : h.(reference_counter) = 0).
  { unfold create, finish in H. cbn in H. repeat case_match; by simplify_eq/=. }
  intros b' t' a' d. unfold create, from_ipc_handle, compare_exchange. by rewrite Hc.
Qed.

Definition no_memory : answers :=
  {| attr_init := true; setpshared := true; settype := true; setprotocol := true; setrobust := true;
     setprioceiling := ESUCCES; mutex_init := ENOMEM; attr_destroy := true |}.

Lemma mutex_create_failure_blocks_handle_witness :
  exists h, create (default_builder Semaphore.Monotonic) 1 no_memory (handle_default Semaphore.Monotonic) = Ret (Err InsufficientMemory, h) /\
    create (default_builder Semaphore.Realtime) 1 no_memory h = Ret (Err HandleAlreadyInitialized, h).
Proof.
  eexists. split; [reflexivity|].
  exact (proj1 (mutex_create_failure_blocks_handle (default_builder Semaphore.Monotonic) 1 no_memory Semaphore.Monotonic InsufficientMemory _ eq_refl (default_builder Semaphore.Realtime) 1 no_memory true)).
Defined.

End PosixMutex.
