(* ===== verification/TriggerQueue.v ===== *)
(** * The trigger queue

    [iceoryx2_bb_threadsafe::trigger_queue]: a queue of fixed size behind a mutex, whose
    producers and consumers wait on two semaphores that count the free and the used slots.
    Any number of threads interleave at every call of a semaphore and every critical section
    of the mutex; the system chooses the answers of the semaphores within what [Semaphore]
    allows, and the time that passes. *)

From S2P Require Import Prelude QueueSpec ContainerQueue Semaphore.

Module TriggerQueue.
Module Q := ContainerQueue.
Module S := Semaphore.Semaphore.

(** The clock of the semaphores and, as a record of what happened, the values that entered
    and left the queue, in the order of the critical sections. *)
(* src/iceoryx2_bb/threadsafe/src/trigger_queue.rs:57-62 TriggerQueue *)
Record TriggerQueue (T : Type) := {
  queue : Queue T;
  free_slots : Z;
  used_slots : Z;
  clock_type : S.ClockType;
  pushed : list T;
  popped : list T;
}.
Arguments queue {T}.
Arguments free_slots {T}.
Arguments used_slots {T}.
Arguments clock_type {T}.
Arguments pushed {T}.
Arguments popped {T}.

Inductive operation (T : Type) :=
| TryPush (v : T)
| TimedPush (v : T) (timeout : Z)
| BlockingPush (v : T)
| TryPop
| TimedPop (timeout : Z)
| BlockingPop
| Clear
| Len
| IsFull
| IsEmpty.
Arguments TryPush {T}.
Arguments TimedPush {T}.
Arguments BlockingPush {T}.
Arguments TryPop {T}.
Arguments TimedPop {T}.
Arguments BlockingPop {T}.
Arguments Clear {T}.
Arguments Len {T}.
Arguments IsFull {T}.
Arguments IsEmpty {T}.

Inductive reply (T : Type) :=
| Pushed (b : bool)
| Popped (r : option T)
| Cleared
| Length (n : Z)
| Flag (b : bool).
Arguments Pushed {T}.
Arguments Popped {T}.
Arguments Cleared {T}.
Arguments Length {T}.
Arguments Flag {T}.

(** Where a thread is: about to wait for a slot, to enter the critical section, to post the
    other semaphore; or it has panicked. *)
Inductive pc (T : Type) :=
| Idle
| Acquire (o : operation T)
| Enter (o : operation T)
| PostUsed
| PostFree (o : operation T) (r : option T)
| Observe (o : operation T)
| Done (r : reply T)
| Dead.
Arguments Idle {T}.
Arguments Acquire {T}.
Arguments Enter {T}.
Arguments PostUsed {T}.
Arguments PostFree {T}.
Arguments Observe {T}.
Arguments Done {T}.
Arguments Dead {T}.

(** [Answer a elapsed]: the system answers [a]; for a timed wait [elapsed] has passed. *)
Inductive event (T : Type) :=
| Call (o : operation T)
| Answer (a : S.answer) (elapsed : Z)
| Go
| Return.
Arguments Call {T}.
Arguments Answer {T}.
Arguments Go {T}.
Arguments Return {T}.

Section machine.
Context `{Profile} {T : Type} (signals : bool) (SEM_VALUE_MAX : Z).
Implicit Types (q : TriggerQueue T) (o : operation T).

(** The cast truncates the capacity to the width of the initial value. *)
(* src/iceoryx2_bb/threadsafe/src/trigger_queue.rs:77-99 new_with_custom_clock *)
Definition new_with_custom_clock (CAPACITY : Z) (clock : S.ClockType) : outcome (TriggerQueue T) :=
  let initial_value := cast 32 CAPACITY in
  if S.MAX_INITIAL_SEMAPHORE_VALUE <? initial_value then Panic
  else Ret {| queue := Q.fixed_size_default CAPACITY; free_slots := initial_value; used_slots := 0; clock_type := clock;
              pushed := []; popped := [] |}.

Definition is_push o : bool := match o with TryPush _ | TimedPush _ _ | BlockingPush _ => true | _ => false end.

Definition set_slots q (f u : Z) : TriggerQueue T :=
  {| queue := q.(queue); free_slots := f; used_slots := u; clock_type := q.(clock_type); pushed := q.(pushed); popped := q.(popped) |}.

Definition unwrap {A E} (r : outcome (Result A E)) : outcome A :=
  let! r := r in match r with Ok a => Ret a | Err _ => Panic end.

(** Which call an operation makes, and what it makes of the answer: the slot is acquired,
    it is not, or ([None]) the thread asks again. *)
Definition waits o (clock : S.ClockType) : S.sem_call :=
  match o with
  | BlockingPush _ | BlockingPop => S.SemWait
  | TimedPush _ _ | TimedPop _ => match clock with S.Monotonic => S.SemTryWait | S.Realtime => S.SemTimedWait end
  | _ => S.SemTryWait
  end.

Definition acquired o (clock : S.ClockType) (a : S.answer) (elapsed : Z) : outcome (option bool) :=
  match o with
  | BlockingPush _ | BlockingPop => let! _ := unwrap (S.wait a) in Ret (Some true)
  | TimedPush _ timeout | TimedPop timeout =>
      match clock with
      | S.Monotonic =>
          let! r := S.timed_wait_monotonic a elapsed timeout in
          match r with
          | None => Ret None
          | Some r => let! b := unwrap (Ret r) in Ret (Some b)
          end
      | S.Realtime => let! b := unwrap (Ret (S.timed_wait_realtime a)) in Ret (Some b)
      end
  | _ => let! b := unwrap (S.try_wait a) in Ret (Some b)
  end.

(** The reply when there was no slot. *)
Definition refused o : reply T := if is_push o then Pushed false else match o with Clear => Cleared | _ => Popped None end.

(** The first part of an operation: waiting for a free slot to push, or for a used one. *)
(* src/iceoryx2_bb/threadsafe/src/trigger_queue.rs:103-153 try_push, timed_push, blocking_push, try_pop, timed_pop, blocking_pop, clear *)
Definition acquire_step (a : S.answer) (elapsed : Z) q o : option (TriggerQueue T * pc T) :=
  let slots := if is_push o then q.(free_slots) else q.(used_slots) in
  match S.sem_answer signals SEM_VALUE_MAX (waits o q.(clock_type)) slots a with
  | None => None
  | Some slots =>
      let q := if is_push o then set_slots q slots q.(used_slots) else set_slots q q.(free_slots) slots in
      Some (match acquired o q.(clock_type) a elapsed with
            | Panic => (q, Dead)
            | Ret None => (q, Acquire o)
            | Ret (Some true) => (q, Enter o)
            | Ret (Some false) => (q, Done (refused o))
            end)
  end.

(** The critical sections of [push] and [pop]; locking the mutex does not fail. *)
(* src/iceoryx2_bb/threadsafe/src/trigger_queue.rs:180-194 push, pop *)
Definition enter_step q o : TriggerQueue T * pc T :=
  match o with
  | TryPush v | TimedPush v _ | BlockingPush v =>
      match Q.push q.(queue) v with
      | Panic => (q, Dead)
      | Ret (b, c) =>
          ({| queue := c; free_slots := q.(free_slots); used_slots := q.(used_slots); clock_type := q.(clock_type);
              pushed := if (b : bool) then q.(pushed) ++ [v] else q.(pushed); popped := q.(popped) |}, PostUsed)
      end
  | _ =>
      match Q.pop q.(queue) with
      | Panic => (q, Dead)
      | Ret (r, c) =>
          ({| queue := c; free_slots := q.(free_slots); used_slots := q.(used_slots); clock_type := q.(clock_type);
              pushed := q.(pushed); popped := match r with Some v => q.(popped) ++ [v] | None => q.(popped) end |}, PostFree o r)
      end
  end.

(** The end of [push] and [pop]: the other semaphore is posted.  [clear] goes on until it
    gets nothing, [blocking_pop] unwraps what it got. *)
(* src/iceoryx2_bb/threadsafe/src/trigger_queue.rs:180-194 push, pop *)
Definition post_step (a : S.answer) q (p : pc T) : option (TriggerQueue T * pc T) :=
  match p with
  | PostUsed =>
      match S.sem_answer signals SEM_VALUE_MAX S.SemPost q.(used_slots) a with
      | None => None
      | Some u => Some (set_slots q q.(free_slots) u, match unwrap (S.post a) with Ret _ => Done (Pushed true) | Panic => Dead end)
      end
  | PostFree o r =>
      match S.sem_answer signals SEM_VALUE_MAX S.SemPost q.(free_slots) a with
      | None => None
      | Some f =>
          Some (set_slots q f q.(used_slots),
                match unwrap (S.post a) with
                | Panic => Dead
                | Ret _ => match o, r with
                           | Clear, Some _ => Acquire Clear
                           | Clear, None => Done Cleared
                           | BlockingPop, None => Dead
                           | _, _ => Done (Popped r)
                           end
                end)
      end
  | _ => None
  end.

(* src/iceoryx2_bb/threadsafe/src/trigger_queue.rs:160-178 len, is_full, is_empty *)
Definition observe q o : reply T :=
  match o with
  | Len => Length (Q.len q.(queue))
  | IsFull => Flag (Q.is_full q.(queue))
  | _ => Flag (Q.is_empty q.(queue))
  end.

Definition act (ev : event T) q (p : pc T) : option (TriggerQueue T * pc T) :=
  match ev, p with
  | Call o, Idle => Some (q, match o with Len | IsFull | IsEmpty => Observe o | _ => Acquire o end)
  | Answer a elapsed, Acquire o => acquire_step a elapsed q o
  | Go, Enter o => Some (enter_step q o)
  | Answer a _, (PostUsed | PostFree _ _) => post_step a q p
  | Go, Observe o => Some (q, Done (observe q o))
  | Return, Done _ => Some (q, Idle)
  | _, _ => None
  end.

End machine.

(** ** The invariant *)

(** The threads that have a free slot and have not stored their value, those that have
    stored it and not announced it, those that were promised a value, and those that have
    taken it and not given the slot back. *)
Definition storing {T} (p : pc T) : Z := match p with Enter o => if is_push o then 1 else 0 | _ => 0 end.
Definition stored {T} (p : pc T) : Z := match p with PostUsed => 1 | _ => 0 end.
Definition taking {T} (p : pc T) : Z := match p with Enter o => if is_push o then 0 else 1 | _ => 0 end.
Definition taken {T} (p : pc T) : Z := match p with PostFree _ _ => 1 | _ => 0 end.

(** A thread that has left the critical section of [pop] has a value. *)
Definition pc_ok {T} (p : pc T) : Prop := match p with Dead => False | PostFree _ r => is_Some r | _ => True end.

(** [slots] is the number of slots the semaphores were created with. *)
Record inv {T} (slots : Z) (q : TriggerQueue T) (ps : list (pc T)) (l : list T) : Prop := {
  inv_queue : Q.repr q.(queue) l;
  inv_slots : slots <= q.(queue).(Q.capacity);
  inv_start : q.(queue).(Q.start) <= zlength q.(pushed);
  inv_fifo : q.(pushed) = q.(popped) ++ l;
  inv_free : q.(free_slots) + zlength l + total storing ps + total taken ps = slots;
  inv_used : q.(used_slots) + total stored ps + total taking ps = zlength l;
  inv_free_nonneg : 0 <= q.(free_slots);
  inv_used_nonneg : 0 <= q.(used_slots);
  inv_pcs : Forall pc_ok ps;
}.

Definition weight {T} (p : pc T) : Z * Z * Z * Z := (storing p, stored p, taking p, taken p).

Lemma storing_nonneg {T} (p : pc T) : 0 <= storing p.
Proof. destruct p; cbn; try lia. destruct (is_push _); lia. Qed.
Lemma stored_nonneg {T} (p : pc T) : 0 <= stored p.
Proof. destruct p; cbn; lia. Qed.
Lemma taking_nonneg {T} (p : pc T) : 0 <= taking p.
Proof. destruct p; cbn; try lia. destruct (is_push _); lia. Qed.
Lemma taken_nonneg {T} (p : pc T) : 0 <= taken p.
Proof. destruct p; cbn; lia. Qed.

Section lemmas.
Context `{Profile} {T : Type} (SEM_VALUE_MAX : Z).
Implicit Types (q : TriggerQueue T) (p : pc T) (l : list T).

(** A step of one thread, with what it does to the counts. *)
Lemma tq_inv_step slots q ps l i p q' p' l' :
  inv slots q ps l -> ps !! i = Some p -> pc_ok p' ->
  Q.repr q'.(queue) l' -> Q.capacity q'.(queue) = Q.capacity q.(queue) ->
  Q.start q'.(queue) <= zlength q'.(pushed) -> q'.(pushed) = q'.(popped) ++ l' ->
  q'.(free_slots) + zlength l' + storing p' + taken p' = q.(free_slots) + zlength l + storing p + taken p ->
  q'.(used_slots) + stored p' + taking p' - zlength l' = q.(used_slots) + stored p + taking p - zlength l ->
  0 <= q'.(free_slots) -> 0 <= q'.(used_slots) ->
  inv slots q' (<[i := p']> ps) l'.
Proof.
  intros Hi Ep Hp Hr Hc Hs Hf Hfree Hused Hf0 Hu0. destruct Hi.
  split; try done.
  - lia.
  - rewrite !(total_insert _ _ _ _ _ Ep). lia.
  - rewrite !(total_insert _ _ _ _ _ Ep). lia.
  - by apply Forall_insert.
Qed.

(** What the counts say of a thread: there is room for what it stores, a value for what it
    takes, and the semaphore it posts is below its bound. *)
Lemma inv_counts slots q ps l i p :
  inv slots q ps l -> ps !! i = Some p ->
  zlength l + q.(free_slots) + storing p + taken p <= slots /\
  q.(used_slots) + stored p + taking p <= zlength l /\ zlength l <= slots.
Proof.
  intros Hi Ep. destruct Hi.
  pose proof (total_lookup storing storing_nonneg _ _ _ Ep). pose proof (total_lookup stored stored_nonneg _ _ _ Ep).
  pose proof (total_lookup taking taking_nonneg _ _ _ Ep). pose proof (total_lookup taken taken_nonneg _ _ _ Ep).
  pose proof (storing_nonneg p). pose proof (taken_nonneg p). lia.
Qed.

Lemma enter_push slots q ps l i o v :
  inv slots q ps l -> ps !! i = Some (Enter o) -> zlength q.(pushed) <= 2 ^ 64 - 2 ->
  o = TryPush v \/ (exists t, o = TimedPush v t) \/ o = BlockingPush v ->
  inv slots (enter_step q o).1 (<[i := (enter_step q o).2]> ps) (l ++ [v]).
Proof.
  intros Hi Ep Hb Ho. pose proof (inv_counts _ _ _ _ _ _ Hi Ep) as (Hroom & _ & _).
  assert (Ew : is_push o = true) by (by destruct Ho as [->|[[t ->]| ->]]). cbn in Hroom. rewrite Ew in Hroom.
  pose proof (inv_free_nonneg _ _ _ _ Hi) as Hfree. pose proof (inv_slots _ _ _ _ Hi) as Hcap.
  destruct (push_ok q.(queue) l v (inv_queue _ _ _ _ Hi)) as (b & c & l' & Epush & Hr & Espec & Hst & Hc).
  { pose proof (inv_start _ _ _ _ Hi). lia. }
  unfold spec_push in Espec. rewrite (proj2 (Z.ltb_lt _ _)) in Espec by lia. injection Espec as -> ->.
  assert (Es : enter_step q o =
    ({| queue := c; free_slots := q.(free_slots); used_slots := q.(used_slots); clock_type := q.(clock_type);
        pushed := q.(pushed) ++ [v]; popped := q.(popped) |}, PostUsed)).
  { by destruct Ho as [->|[[t ->]| ->]]; cbn; unfold Q.push in *; rewrite Epush. }
  rewrite Es. cbn.
  eapply tq_inv_step; [done|done|done| | | | | | | |]; cbn; try done; try (by destruct Hi).
  - pose proof (inv_start _ _ _ _ Hi). rewrite zlength_app, zlength_cons. unfold zlength at 2. cbn. lia.
  - rewrite (inv_fifo _ _ _ _ Hi). by rewrite app_assoc.
  - rewrite Ew, zlength_app, zlength_cons. unfold zlength at 2. cbn. lia.
  - rewrite Ew, zlength_app, zlength_cons. unfold zlength at 2. cbn. lia.
Qed.

Lemma enter_pop slots q ps l i o :
  inv slots q ps l -> ps !! i = Some (Enter o) -> is_push o = false ->
  exists v l', l = v :: l' /\ inv slots (enter_step q o).1 (<[i := (enter_step q o).2]> ps) l'.
Proof.
  intros Hi Ep Ho. pose proof (inv_counts _ _ _ _ _ _ Hi Ep) as (_ & Hv & _).
  pose proof (inv_used_nonneg _ _ _ _ Hi). cbn in Hv. rewrite Ho in Hv.
  destruct l as [|v l]; [unfold zlength in Hv; cbn in Hv; lia|]. exists v, l. split; [done|].
  destruct (pop_cons q.(queue) v l (inv_queue _ _ _ _ Hi)) as (c & Epop & Hr & Hst & Hc).
  assert (Es : enter_step q o =
    ({| queue := c; free_slots := q.(free_slots); used_slots := q.(used_slots); clock_type := q.(clock_type);
        pushed := q.(pushed); popped := q.(popped) ++ [v] |}, PostFree o (Some v))).
  { destruct o; try done; cbn; unfold Q.pop in *; by rewrite Epop. }
  rewrite Es. cbn. eapply tq_inv_step; [done|done|cbn; eauto| | | | | | | |]; cbn; try done; try (by destruct Hi).
  - rewrite Hst. by destruct Hi.
  - rewrite (inv_fifo _ _ _ _ Hi). by rewrite <- app_assoc.
  - rewrite Ho, zlength_cons. lia.
  - rewrite Ho, zlength_cons. lia.
Qed.

(** Without signals a wait ends with a slot, or without one and without an error. *)
Lemma acquire_answer o c v a t v' :
  S.sem_answer false SEM_VALUE_MAX (waits (T := T) o c) v a = Some v' ->
  (v' = v - 1 /\ 0 < v /\ acquired o c a t = Ret (Some true)) \/
  (v' = v /\ (acquired o c a t = Ret (Some false) \/ acquired o c a t = Ret None)).
Proof.
  destruct a as [|e].
  - intros E. left. destruct o, c; cbn in *; destruct (0 <? v) eqn:Ev; try done; bool_to_prop; injection E as <-; done.
  - intros E. right. destruct o, c, e; cbn in *; try done; destruct (0 <? v); try done; injection E as <-; split; auto;
      destruct (_ <? t); auto.
Qed.

Lemma acquire_inv slots a t q ps l i o q' p' :
  inv slots q ps l -> ps !! i = Some (Acquire o) ->
  acquire_step false SEM_VALUE_MAX a t q o = Some (q', p') ->
  q'.(pushed) = q.(pushed) /\ inv slots q' (<[i := p']> ps) l.
Proof.
  intros Hi Ep. unfold acquire_step. destruct (S.sem_answer _ _ _ _ _) as [s|] eqn:Es; [|done].
  apply (acquire_answer _ _ _ _ t) in Es.
  pose proof (inv_free_nonneg _ _ _ _ Hi). pose proof (inv_used_nonneg _ _ _ _ Hi).
  assert (Hstep : forall f u p, pc_ok p ->
    f + storing p + taken p = q.(free_slots) -> u + stored p + taking p = q.(used_slots) -> 0 <= f -> 0 <= u ->
    inv slots (set_slots q f u) (<[i := p]> ps) l).
  { intros f u p Hp Hf Hu ? ?.
    eapply tq_inv_step; [exact Hi|exact Ep|done|apply Hi|done|apply Hi|apply Hi| | |done|done]; cbn; lia. }
  destruct (is_push o) eqn:Eo; cbn [clock_type set_slots];
    destruct Es as [(-> & Hpos & ->)|(-> & [-> | ->])]; intros [= <- <-]; (split; [done|]);
    apply Hstep; cbn; rewrite ?Eo; try done; lia.
Qed.

Hypothesis SEM_VALUE_MAX_large : S.MAX_INITIAL_SEMAPHORE_VALUE <= SEM_VALUE_MAX.

Lemma post_inv slots a q ps l i p q' p' :
  slots <= S.MAX_INITIAL_SEMAPHORE_VALUE ->
  inv slots q ps l -> ps !! i = Some p ->
  post_step false SEM_VALUE_MAX a q p = Some (q', p') ->
  q'.(pushed) = q.(pushed) /\ inv slots q' (<[i := p']> ps) l.
Proof.
  intros Hs Hi Ep E. pose proof (inv_counts _ _ _ _ _ _ Hi Ep) as (Hroom & Hv & Hl).
  pose proof (inv_free_nonneg _ _ _ _ Hi). pose proof (inv_used_nonneg _ _ _ _ Hi).
  assert (Hp : pc_ok p) by (by eapply Forall_lookup_1; [apply Hi|]).
  destruct p as [| | | |o r| | |]; try done; cbn in E, Hroom, Hv, Hp; destruct a as [|[]];
    rewrite ?(proj2 (Z.ltb_lt _ _)) in E by lia; try done.
  - cbn in E. injection E as <- <-. split; [done|].
    eapply tq_inv_step; [exact Hi|exact Ep|done|apply Hi|done|apply Hi|apply Hi| | | |]; cbn; lia.
  - destruct Hp as [v ->]. cbn in E. injection E as <- <-. split; [done|].
    eapply tq_inv_step; [exact Hi|exact Ep|by destruct o|apply Hi|done|apply Hi|apply Hi| | | |]; destruct o; cbn; lia.
Qed.

Lemma act_inv slots ev q ps l i p q' p' :
  slots <= S.MAX_INITIAL_SEMAPHORE_VALUE -> zlength q.(pushed) <= 2 ^ 64 - 2 ->
  inv slots q ps l -> ps !! i = Some p ->
  act false SEM_VALUE_MAX ev q p = Some (q', p') ->
  exists l', inv slots q' (<[i := p']> ps) l'.
Proof.
  intros Hs Hb Hi Ep E.
  assert (Hkeep : forall p', pc_ok p' -> weight p' = weight p -> inv slots q (<[i := p']> ps) l).
  { intros r Hr Hw. injection Hw as ? ? ? ?.
    eapply tq_inv_step; [exact Hi|exact Ep|done|apply Hi|done|apply Hi|apply Hi|lia|lia|apply Hi|apply Hi]. }
  destruct ev as [o|a t| |], p as [|o'|o'| |o' r|o'|r|]; try done; cbn [act] in E.
  - injection E as <- <-. exists l. apply Hkeep; by destruct o.
  - exists l. by eapply acquire_inv.
  - exists l. by eapply post_inv.
  - exists l. by eapply post_inv.
  - injection E as E. assert (q' = (enter_step q o').1 /\ p' = (enter_step q o').2) as [-> ->] by (by rewrite E).
    destruct (is_push o') eqn:Eo.
    + destruct o' as [v|v t|v| | | | | | |]; try done; exists (l ++ [v]); eapply enter_push; eauto.
    + destruct (enter_pop _ _ _ _ _ _ Hi Ep Eo) as (v & l' & _ & Hi'). eauto.
  - injection E as <- <-. exists l. by apply Hkeep.
  - injection E as <- <-. exists l. by apply Hkeep.
Qed.

End lemmas.

Lemma act_pushed_grows `{Profile} {T} signals M (ev : event T) q p q' p' :
  act signals M ev q p = Some (q', p') -> zlength q.(pushed) <= zlength q'.(pushed).
Proof.
  destruct ev as [o|a t| |], p as [|o'|o'| |o' r|o'|r|]; try done; cbn [act].
  - by intros [= <- <-].
  - unfold acquire_step. destruct (S.sem_answer _ _ _ _ _) as [s|]; [|done].
    destruct (is_push o'), (acquired _ _ _ _) as [[[|]|]|]; by intros [= <- <-].
  - cbn [post_step]. destruct (S.sem_answer _ _ _ _ _); [|done]. by intros [= <- <-].
  - cbn [post_step]. destruct (S.sem_answer _ _ _ _ _); [|done]. by intros [= <- <-].
  - assert (Hpush : forall v, zlength (pushed q) <= zlength (pushed (enter_step q (TryPush v)).1)).
    { intros v. cbn. destruct (Q.push _ _) as [[[|] c]|]; cbn; try lia. rewrite zlength_app. pose proof (zlength_nonneg [v]). lia. }
    assert (Hpop : zlength (pushed q) <= zlength (pushed (enter_step q TryPop).1)).
    { cbn. destruct (Q.pop _) as [[r c]|]; cbn; lia. }
    intros [= E]. assert (q' = (enter_step q o').1) as -> by (by rewrite E). destruct o'; try exact (Hpush _); try exact Hpop.
    all: revert Hpop; cbn; by destruct (Q.pop _) as [[r c]|].
  - by intros [= <- <-].
  - by intros [= <- <-].
Qed.

Lemma trigger_queue_invariant `{Profile} {T} M slots n (q0 : TriggerQueue T) s :
  S.MAX_INITIAL_SEMAPHORE_VALUE <= M -> slots <= S.MAX_INITIAL_SEMAPHORE_VALUE ->
  inv slots q0 (replicate n Idle) [] ->
  rtc (act_step (iact (act false M))) (q0, replicate n Idle) s ->
  zlength s.1.(pushed) <= 2 ^ 64 - 2 -> exists l, inv slots s.1 s.2 l.
Proof.
  intros HM Hs Hi Hrtc Hb.
  assert (Hmono : forall a b, act_step (iact (act (T := T) false M)) a b -> zlength a.1.(pushed) <= zlength b.1.(pushed)).
  { intros a b [ev b' E]. apply iact_inv in E as (p & p' & _ & E & _). by eapply act_pushed_grows. }
  apply (rtc_bounded_invariant _ (fun s => zlength s.1.(pushed)) (2 ^ 64 - 2) (fun s => exists l, inv slots s.1 s.2 l)
    (q0, replicate n Idle) s Hmono); [|done|by exists []|done].
  intros a b Hab Hle [l Hl]. pose proof (Hmono _ _ Hab). destruct Hab as [ev b E].
  apply iact_inv in E as (p & p' & Ep & E & ->). eapply (act_inv _ HM slots ev.2 a.1 a.2); [done|lia|done..].
Qed.

(** A thread that is not between acquiring a slot and announcing what it did with it. *)
Definition at_rest {T} (p : pc T) : Prop := match p with Enter _ | PostUsed | PostFree _ _ => False | _ => True end.

Lemma at_rest_totals {T} (ps : list (pc T)) :
  Forall at_rest ps -> total storing ps = 0 /\ total stored ps = 0 /\ total taking ps = 0 /\ total taken ps = 0.
Proof. induction 1 as [|p ps Hp _ IH]; [done|]. destruct p; try done; cbn; lia. Qed.

(** C19: any number of threads use a trigger queue with all of its operations, on a system that sends no signals, for
    less than 2^64 - 1 pushes.  No thread ever panics: the queue has room for every value whose slot was acquired,
    [blocking_pop] always finds a value and no semaphore overflows.  The values leave in the order in which they
    entered, the queue never holds more than the slots of its semaphore, and when no thread is between acquiring a
    slot and announcing it, the semaphores count exactly the free and the used slots: no wake-up is lost. *)
Theorem trigger_queue_linearizable `{Profile} {T} M CAPACITY clock n (q0 q : TriggerQueue T) ps :
  S.MAX_INITIAL_SEMAPHORE_VALUE <= M -> 0 <= CAPACITY ->
  new_with_custom_clock CAPACITY clock = Ret q0 ->
  rtc (act_step (iact (act false M))) (q0, replicate n Idle) (q, ps) ->
  zlength q.(pushed) <= 2 ^ 64 - 2 ->
  exists l, Q.repr q.(queue) l /\ q.(pushed) = q.(popped) ++ l /\ zlength l <= cast 32 CAPACITY /\
    Dead ∉ ps /\ (Forall at_rest ps -> q.(used_slots) = zlength l /\ q.(free_slots) = cast 32 CAPACITY - zlength l).
Proof.
  intros HM Hc Enew Hrtc Hb. unfold new_with_custom_clock in Enew.
  destruct (_ <? _) eqn:El; [done|]. bool_to_prop. injection Enew as <-.
  assert (Hcast : 0 <= cast 32 CAPACITY <= CAPACITY) by (unfold cast; split; [apply Z.mod_pos_bound|apply Z.mod_le]; lia).
  apply (trigger_queue_invariant M (cast 32 CAPACITY) n _ (q, ps) HM El) in Hrtc as [l Hl]; [| |done]; last first.
  { pose proof (cq_new_repr (T := T) CAPACITY Hc). split; cbn; rewrite ?total_replicate by done; try done; try (unfold zlength; cbn; lia).
    by apply Forall_replicate. }
  exists l. destruct Hl. split_and!; try done; cbn in *.
  - pose proof (total_nonneg storing storing_nonneg ps). pose proof (total_nonneg taken taken_nonneg ps). lia.
  - intros [i Ei]%list_elem_of_lookup. by eapply Forall_lookup_1 in inv_pcs0; [|done].
  - intros (H1 & H2 & H3 & H4)%at_rest_totals. lia.
Qed.

(** Two threads on a queue with two slots: the second waits for the value of the first, the
    third push finds the queue full. *)
Definition schedule : list (nat * event Z) :=
  [(1%nat, Call (TimedPop 10)); (0%nat, Call (BlockingPush 7)); (1%nat, Answer (S.Failure S.EAGAIN) 5);
   (0%nat, Answer S.Success 0); (0%nat, Go); (1%nat, Answer (S.Failure S.EAGAIN) 8); (0%nat, Answer S.Success 0); (0%nat, Return);
   (1%nat, Answer S.Success 9); (0%nat, Call (TryPush 8)); (0%nat, Answer S.Success 0); (1%nat, Go); (0%nat, Go);
   (0%nat, Answer S.Success 0); (1%nat, Answer S.Success 0); (0%nat, Return); (0%nat, Call (TryPush 9)); (0%nat, Answer S.Success 0);
   (0%nat, Go); (0%nat, Answer S.Success 0); (0%nat, Return); (0%nat, Call (TryPush 10)); (0%nat, Answer (S.Failure S.EAGAIN) 0)].

Definition result : TriggerQueue Z * list (pc Z) :=
  match new_with_custom_clock (T := Z) 2 S.Monotonic with
  | Ret q => default (q, []) (run_schedule (iact (act (H := dev) false (2 ^ 31 - 1))) schedule (q, [Idle; Idle]))
  | Panic => ({| queue := Q.new 0; free_slots := 0; used_slots := 0; clock_type := S.Monotonic; pushed := []; popped := [] |}, [])
  end.

Lemma result_reached : exists q0, new_with_custom_clock 2 S.Monotonic = Ret q0 /\
  rtc (act_step (iact (act (H := dev) false (2 ^ 31 - 1)))) (q0, replicate 2 Idle) result.
Proof. eexists. split; [reflexivity|]. apply (run_schedule_reachable _ schedule). vm_compute. reflexivity. Qed.

Lemma trigger_queue_linearizable_witness :
  result.2 = [Done (Pushed false); Done (Popped (Some 7))] /\ result.1.(popped) = [7] /\
  exists l, Q.repr result.1.(queue) l /\ result.1.(pushed) = result.1.(popped) ++ l /\ zlength l <= cast 32 2 /\
    Dead ∉ result.2 /\ (Forall at_rest result.2 -> result.1.(used_slots) = zlength l /\ result.1.(free_slots) = cast 32 2 - zlength l).
Proof.
  split; [vm_compute; reflexivity|]. split; [vm_compute; reflexivity|]. destruct result_reached as (q0 & Enew & Hrtc).
  rewrite (surjective_pairing result) in Hrtc.
  apply (trigger_queue_linearizable (H := dev) (2 ^ 31 - 1) 2 S.Monotonic 2 q0 _ _); [vm_compute; congruence|lia|exact Enew|exact Hrtc|].
  vm_compute. congruence.
Defined.

(** A signal that interrupts a wait makes the operation panic: the result of the wait is unwrapped. *)
Theorem trigger_queue_interrupted_panics `{Profile} {T} M (q : TriggerQueue T) o t :
  o = BlockingPop \/ (exists v, o = BlockingPush v) ->
  acquire_step true M (S.Failure S.EINTR) t q o = Some (q, Dead).
Proof. intros [->|[v ->]]; cbn; by destruct q. Qed.

(** A queue with more slots than the initial value of a semaphore may be cannot be created; one whose capacity is a
    multiple of 2^32 is created without any slot: the capacity is truncated to the width of the initial value. *)
Theorem trigger_queue_capacity `{Profile} (T : Type) CAPACITY clock :
  (S.MAX_INITIAL_SEMAPHORE_VALUE < CAPACITY < 2 ^ 32 -> new_with_custom_clock (T := T) CAPACITY clock = Panic) /\
  (CAPACITY mod 2 ^ 32 = 0 -> exists q, new_with_custom_clock (T := T) CAPACITY clock = Ret q /\ q.(free_slots) = 0).
Proof.
  unfold new_with_custom_clock, cast. split.
  - intros Hc. rewrite Z.mod_small by (unfold S.MAX_INITIAL_SEMAPHORE_VALUE in Hc; lia). by rewrite (proj2 (Z.ltb_lt _ _)) by lia.
  - intros ->. by eexists.
Qed.

End TriggerQueue.
