(* ===== verification/Pthread.v ===== *)
(** * The mutex of the platform layer

    [pthread_mutex_*] of the platforms without a mutex that works across processes
    (iceoryx2_pal/posix/src/macos/pthread.rs): around the mutex of [Locks] it keeps the
    owner, for mutexes that report errors, that are recursive or that survive their owner.
    Any number of threads call [lock], [trylock], [timedlock] and [unlock] at any time, may
    die at any point, and interleave at every access to the shared fields.

    A thread is known by its 32-bit id.  Its handle is alive as long as the thread is;
    the null handle is the handle of no thread. *)

From S2P Require Import Prelude Locks.

Module Pthread.

(* src/iceoryx2_pal/posix/src/macos/constants.rs:85-85 PTHREAD_MUTEX_STALLED *)
Definition PTHREAD_MUTEX_STALLED : Z := 32.
(* src/iceoryx2_pal/posix/src/macos/constants.rs:86-86 PTHREAD_MUTEX_ROBUST *)
Definition PTHREAD_MUTEX_ROBUST : Z := 64.
(* src/iceoryx2_pal/posix/src/macos/constants.rs:87-87 PTHREAD_MUTEX_NORMAL *)
Definition PTHREAD_MUTEX_NORMAL : Z := 128.
(* src/iceoryx2_pal/posix/src/macos/constants.rs:88-88 PTHREAD_MUTEX_RECURSIVE *)
Definition PTHREAD_MUTEX_RECURSIVE : Z := 256.
(* src/iceoryx2_pal/posix/src/macos/constants.rs:89-89 PTHREAD_MUTEX_ERRORCHECK *)
Definition PTHREAD_MUTEX_ERRORCHECK : Z := 512.

Inductive Errno := ESUCCES | EAGAIN | EBUSY | EDEADLK | ENOTRECOVERABLE | EOWNERDEAD | ETIMEDOUT.

(* src/iceoryx2_pal/posix/src/macos/types.rs:177-180 pthread_mutexattr_t *)
Record pthread_mutexattr_t := { robustness : Z; attr_mtype : Z }.

(** A handle is the id of its thread, [None] the null handle. *)
(* src/iceoryx2_pal/posix/src/macos/types.rs:154-162 pthread_mutex_t *)
Record pthread_mutex_t := {
  mtx : mutex_cells;
  track_thread_id : bool;
  mtype : Z;
  current_owner : Z;
  thread_handle : option Z;
  inconsistent_state : bool;
  unrecoverable_state : bool;
}.

(** The mutex, and the threads that have died. *)
Record shared := { mutex : pthread_mutex_t; dead : list Z }.

Inductive kind := Lock | TryLock | TimedLock.

(** Where a thread is.  [held] counts how many more times it locked the mutex than it
    unlocked it; it is no part of the code. *)
Inductive pc :=
| Idle (held : Z) (result : Errno)
| Prepare (k : kind) (held : Z)                                (* loads current_owner *)
| Robust (k : kind) (held owner_word : Z)                       (* reads unrecoverable_state *)
| Kill (k : kind) (held owner_word : Z)                         (* asks whether the owner lives *)
| Adopt (k : kind) (held : Z)                                   (* stores itself as the owner *)
| Inconsistent (k : kind) (held : Z)                            (* sets inconsistent_state *)
| Decide (k : kind) (held owner_word : Z)                       (* compares the owner with itself *)
| Recurse (k : kind) (held ref_count owner_word : Z)            (* the compare_exchange of the loop *)
| Inner (k : kind) (held : Z) (p : mutex_pc)                    (* inside the mutex of [Locks] *)
| Register (k : kind) (held : Z)                                (* has it, stores itself as the owner *)
| Handle (k : kind) (held : Z)                                  (* stores its handle *)
| Expired (held : Z)                                            (* reads the clock *)
| UnlockCheck (held : Z)
| UnlockState (held : Z)
| UnlockLoad (held : Z)
| UnlockExchange (held current_value : Z)
| UnlockClear (held : Z)
| UnlockHandle (held : Z)
| UnlockInner (held : Z)
| Panicked
| Died (p : pc).

Record thread := { id : Z; at_ : pc }.

Inductive event := Call (k : kind) | CallUnlock | CallConsistent | Go | Wake | Clock (expired : bool) | Die.

Section machine.
Context `{Profile}.
Implicit Types (m : pthread_mutex_t) (k : kind) (held tid : Z).

Definition is_set m (flag : Z) : bool := negb (Z.land m.(mtype) flag =? 0).

(* src/iceoryx2_pal/posix/src/macos/types.rs:164-174 new *)
Definition new (self : Z) : pthread_mutex_t :=
  {| mtx := {| state := 0; counter := 0; notifications := 0 |}; track_thread_id := false; mtype := PTHREAD_MUTEX_NORMAL;
     current_owner := 0; thread_handle := Some self; inconsistent_state := false; unrecoverable_state := false |}.

(* src/iceoryx2_pal/posix/src/macos/pthread.rs:646-657 pthread_mutex_init *)
Definition pthread_mutex_init (self : Z) (attr : pthread_mutexattr_t) : pthread_mutex_t :=
  let m := new self in
  {| mtx := m.(mtx);
     track_thread_id := (attr.(attr_mtype) =? PTHREAD_MUTEX_ERRORCHECK) || (attr.(attr_mtype) =? PTHREAD_MUTEX_RECURSIVE)
                        || (attr.(robustness) =? PTHREAD_MUTEX_ROBUST);
     mtype := Z.lor attr.(attr_mtype) attr.(robustness); current_owner := m.(current_owner);
     thread_handle := m.(thread_handle); inconsistent_state := m.(inconsistent_state);
     unrecoverable_state := m.(unrecoverable_state) |}.

Definition set_mtx m c :=
  {| mtx := c; track_thread_id := m.(track_thread_id); mtype := m.(mtype); current_owner := m.(current_owner);
     thread_handle := m.(thread_handle); inconsistent_state := m.(inconsistent_state);
     unrecoverable_state := m.(unrecoverable_state) |}.
Definition set_owner m w :=
  {| mtx := m.(mtx); track_thread_id := m.(track_thread_id); mtype := m.(mtype); current_owner := w;
     thread_handle := m.(thread_handle); inconsistent_state := m.(inconsistent_state);
     unrecoverable_state := m.(unrecoverable_state) |}.
Definition set_handle m h :=
  {| mtx := m.(mtx); track_thread_id := m.(track_thread_id); mtype := m.(mtype); current_owner := m.(current_owner);
     thread_handle := h; inconsistent_state := m.(inconsistent_state); unrecoverable_state := m.(unrecoverable_state) |}.
Definition set_flags m i u :=
  {| mtx := m.(mtx); track_thread_id := m.(track_thread_id); mtype := m.(mtype); current_owner := m.(current_owner);
     thread_handle := m.(thread_handle); inconsistent_state := i; unrecoverable_state := u |}.

(* src/iceoryx2_pal/posix/src/macos/pthread.rs:663-665 owner_and_ref_count *)
Definition owner_and_ref_count (v : Z) : Z * Z := (cast 32 (shr v 32), cast 32 (shr (shl 64 v 32) 32)).

(** [(thread_id as u64) << 32]. *)
Definition owner_word (tid : Z) : Z := shl 64 tid 32.

(** How the call ends; [timedlock] goes on when the mutex is busy. *)
(* src/iceoryx2_pal/posix/src/macos/pthread.rs:762-766 pthread_mutex_timedlock *)
Definition finish k held (r : Errno) : pc :=
  match k, r with
  | TimedLock, (EBUSY | EDEADLK) => Expired held
  | _, (ESUCCES | EOWNERDEAD) => Idle (held + 1) r
  | _, _ => Idle held r
  end.

(** The loop of [prepare_lock] for a thread that owns the mutex: [ref_count] is not updated. *)
Definition loop_head k held ref_count w : pc :=
  if ref_count =? 2 ^ 32 - 1 then finish k held EAGAIN else Recurse k held ref_count w.

(** [prepare_lock] returned [-1]. *)
Definition enter k held : pc := Inner k held (match k with Lock => MUncontested | _ => MTryLock end).

(* src/iceoryx2_pal/posix/src/macos/pthread.rs:673-730 prepare_lock *)
Definition prepare_step (is_still_active : option Z -> bool) m tid (p : pc) : option (pthread_mutex_t * pc) :=
  match p with
  | Prepare k held =>
      let w := m.(current_owner) in
      Some (m, if is_set m PTHREAD_MUTEX_ROBUST then Robust k held w else Decide k held w)
  | Robust k held w =>
      Some (m, if m.(unrecoverable_state) then finish k held ENOTRECOVERABLE
               else if negb ((owner_and_ref_count w).1 =? 0) then Kill k held w else Decide k held w)
  | Kill k held w => Some (m, if is_still_active m.(thread_handle) then Decide k held w else Adopt k held)
  | Adopt k held => Some (set_owner m (owner_word tid), Inconsistent k held)
  | Inconsistent k held => Some (set_flags m true m.(unrecoverable_state), finish k held EOWNERDEAD)
  | Decide k held w =>
      let '(owner, ref_count) := owner_and_ref_count w in
      Some (m, if owner =? tid
               then if is_set m PTHREAD_MUTEX_ERRORCHECK then finish k held EDEADLK else loop_head k held ref_count w
               else enter k held)
  | Recurse k held ref_count w =>
      if is_set m PTHREAD_MUTEX_RECURSIVE then
        match w +u64 1 with
        | Panic => Some (m, Panicked)
        | Ret w1 =>
            match compare_exchange m.(current_owner) w w1 with
            | (Ok _, v) => Some (set_owner m v, finish k held ESUCCES)
            | (Err v, _) =>
                Some (m, if (owner_and_ref_count v).1 =? tid then loop_head k held ref_count v else enter k held)
            end
        end
      else Some (m, if (owner_and_ref_count w).1 =? tid then loop_head k held ref_count w else enter k held)
  | _ => None
  end.

(** What the mutex of [Locks] made of a step. *)
Definition inner m k held (r : mutex_cells * mutex_pc) : pthread_mutex_t * pc :=
  (set_mtx m r.1,
   match r.2 with
   | MOwner => if m.(track_thread_id) then Register k held else finish k held ESUCCES
   | MIdle _ => finish k held EBUSY
   | p => Inner k held p
   end).

(* src/iceoryx2_pal/posix/src/macos/pthread.rs:732-752 pthread_mutex_lock *)
Definition lock_step m tid (p : pc) : option (pthread_mutex_t * pc) :=
  match p with
  | Inner Lock held p => r ← Locks.lock_step m.(mtx) p; Some (inner m Lock held r)
  | Register Lock held => Some (set_owner m (owner_word tid), Handle Lock held)
  | Handle Lock held => Some (set_handle m (Some tid), finish Lock held ESUCCES)
  | _ => None
  end.

(** Also for the attempts of [timedlock]. *)
(* src/iceoryx2_pal/posix/src/macos/pthread.rs:784-803 pthread_mutex_trylock *)
Definition trylock_step m tid (p : pc) : option (pthread_mutex_t * pc) :=
  match p with
  | Inner k held MTryLock => Some (inner m k held (Locks.try_lock m.(mtx) (MIdle (Some false))))
  | Register k held => Some (set_owner m (owner_word tid), finish k held ESUCCES)
  | _ => None
  end.

(* src/iceoryx2_pal/posix/src/macos/pthread.rs:805-841 pthread_mutex_unlock *)
Definition unlock_step m tid (p : pc) : option (pthread_mutex_t * pc) :=
  match p with
  | UnlockCheck held =>
      Some (m, if negb (tid =? (owner_and_ref_count m.(current_owner)).1) then Idle held EBUSY else UnlockState held)
  | UnlockState held =>
      Some (if m.(inconsistent_state) then set_flags m true true else m,
            if is_set m PTHREAD_MUTEX_RECURSIVE then UnlockLoad held else UnlockClear held)
  | UnlockLoad held => Some (m, UnlockExchange held m.(current_owner))
  | UnlockExchange held w =>
      match (if (owner_and_ref_count w).2 =? 0 then Ret 0 else w -u64 1) with
      | Panic => Some (m, Panicked)
      | Ret w1 =>
          match compare_exchange m.(current_owner) w w1 with
          | (Ok _, v) => Some (set_owner m v, UnlockInner held)
          | (Err v, _) => Some (m, UnlockExchange held v)
          end
      end
  | UnlockClear held => Some (set_owner m 0, UnlockHandle held)
  | UnlockHandle held => Some (set_handle m None, UnlockInner held)
  | UnlockInner held => Some (set_mtx m (Locks.unlock m.(mtx)), Idle (held - 1) ESUCCES)
  | _ => None
  end.

(* src/iceoryx2_pal/posix/src/macos/pthread.rs:843-846 pthread_mutex_consistent *)
Definition pthread_mutex_consistent m : pthread_mutex_t := set_flags m false m.(unrecoverable_state).

(** The first access of a call. *)
Definition call m k held : pc := if m.(track_thread_id) then Prepare k held else enter k held.
Definition call_unlock m held : pc := if is_set m PTHREAD_MUTEX_ERRORCHECK then UnlockCheck held else UnlockState held.

Definition step (is_still_active : option Z -> bool) m tid (p : pc) : option (pthread_mutex_t * pc) :=
  match p with
  | Prepare _ _ | Robust _ _ _ | Kill _ _ _ | Adopt _ _ | Inconsistent _ _ | Decide _ _ _ | Recurse _ _ _ _ =>
      prepare_step is_still_active m tid p
  | Inner Lock _ _ | Register Lock _ | Handle _ _ => lock_step m tid p
  | Inner _ _ _ | Register _ _ => trylock_step m tid p
  | UnlockCheck _ | UnlockState _ | UnlockLoad _ | UnlockExchange _ _ | UnlockClear _ | UnlockHandle _ | UnlockInner _ =>
      unlock_step m tid p
  | Idle _ _ | Expired _ | Panicked | Died _ => None
  end.

Definition alive (g : shared) (h : option Z) : bool :=
  match h with Some t => negb (existsb (Z.eqb t) g.(dead)) | None => false end.

Definition act (e : event) (g : shared) (t : thread) : option (shared * thread) :=
  let moves m p := Some ({| mutex := m; dead := g.(dead) |}, {| id := t.(id); at_ := p |}) in
  match e, t.(at_) with
  | _, Died _ => None
  | Die, p => Some ({| mutex := g.(mutex); dead := t.(id) :: g.(dead) |}, {| id := t.(id); at_ := Died p |})
  | Call k, Idle held _ => moves g.(mutex) (call g.(mutex) k held)
  | CallUnlock, Idle held _ => moves g.(mutex) (call_unlock g.(mutex) held)
  | CallConsistent, Idle held _ => moves (pthread_mutex_consistent g.(mutex)) (Idle held ESUCCES)
  | Go, p => r ← step (alive g) g.(mutex) t.(id) p; moves r.1 r.2
  | Wake, Inner Lock held MWait => moves g.(mutex) (Inner Lock held (MRetry true))
  | Clock expired, Expired held =>
      moves g.(mutex) (if (expired : bool) then Idle held ETIMEDOUT else call g.(mutex) TimedLock held)
  | _, _ => None
  end.

(** The first thread creates the mutex. *)
Definition start (attr : pthread_mutexattr_t) (ids : list Z) : shared * list thread :=
  ({| mutex := pthread_mutex_init (hd 0 ids) attr; dead := [] |}, (fun i => {| id := i; at_ := Idle 0 ESUCCES |}) <$> ids).

End machine.

(** ** A mutex that reports errors *)

(** From acquiring the inner mutex to releasing it; from storing itself as the owner to
    removing itself. *)
Fixpoint owns (p : pc) : bool :=
  match p with
  | Idle held _ | Prepare _ held | Robust _ held _ | Kill _ held _ | Adopt _ held | Inconsistent _ held
  | Decide _ held _ | Recurse _ held _ _ | Inner _ held _ | Expired held | UnlockCheck held => 0 <? held
  | Register _ _ | Handle _ _ => true
  | UnlockState _ | UnlockLoad _ | UnlockExchange _ _ | UnlockClear _ | UnlockHandle _ | UnlockInner _ => true
  | Panicked => false
  | Died p => owns p
  end.

Fixpoint registered (p : pc) : bool :=
  match p with
  | Register _ _ | UnlockHandle _ | UnlockInner _ => false
  | Died p => registered p
  | _ => owns p
  end.

Definition owner_weight (t : thread) : Z := if owns t.(at_) then 1 else 0.

Definition locking (p : mutex_pc) : bool :=
  match p with MTryLock | MUncontested | MSpin _ | MWait | MRetry true => true | _ => false end.

(** What holds of a thread by itself, on a mutex that reports errors and is neither robust
    nor recursive. *)
Fixpoint local (tid : Z) (p : pc) : Prop :=
  match p with
  | Idle held r => 0 <= held <= 1 /\ (r = ESUCCES \/ r = EBUSY \/ r = EDEADLK \/ r = ETIMEDOUT)
  | Prepare _ held | Expired held | UnlockCheck held => 0 <= held <= 1
  | Decide _ held w => 0 <= held <= 1 /\ ((owner_and_ref_count w).1 = tid <-> 0 < held)
  | Inner k held p => held = 0 /\ locking p = true /\ (k = Lock <-> p <> MTryLock)
  | Register _ held => held = 0
  | Handle k held => held = 0 /\ k = Lock
  | UnlockState held | UnlockClear held | UnlockHandle held | UnlockInner held => held = 1
  | Robust _ _ _ | Kill _ _ _ | Adopt _ _ | Inconsistent _ _ | Recurse _ _ _ _ | UnlockLoad _ | UnlockExchange _ _
  | Panicked => False
  | Died p => local tid p
  end.

Definition thread_ok (m : pthread_mutex_t) (t : thread) : Prop :=
  local t.(id) t.(at_) /\ (registered t.(at_) = true <-> (owner_and_ref_count m.(current_owner)).1 = t.(id)).

Definition reports_errors m : Prop :=
  m.(track_thread_id) = true /\ is_set m PTHREAD_MUTEX_ERRORCHECK = true /\
  is_set m PTHREAD_MUTEX_ROBUST = false /\ is_set m PTHREAD_MUTEX_RECURSIVE = false.

Record inv (ids : list Z) (s : shared * list thread) : Prop := {
  inv_kind : reports_errors s.1.(mutex);
  inv_ids : id <$> s.2 = ids;
  inv_word : s.1.(mutex).(mtx).(state) = total owner_weight s.2;
  inv_bit : s.1.(mutex).(mtx).(state) = 0 \/ s.1.(mutex).(mtx).(state) = 1;
  inv_threads : Forall (thread_ok s.1.(mutex)) s.2;
}.

(** Ids of threads. *)
Definition valid_ids (ids : list Z) : Prop := NoDup ids /\ Forall (fun i => 0 < i < 2 ^ 32) ids.

Lemma owner_word_owner tid : 0 <= tid < 2 ^ 32 -> owner_and_ref_count (owner_word tid) = (tid, 0).
Proof.
  intros Ht. unfold owner_and_ref_count, owner_word, cast, shr, shl.
  rewrite !Z.shiftl_mul_pow2, !Z.shiftr_div_pow2 by lia.
  rewrite (Z.mod_small (tid * 2 ^ 32)) by lia. rewrite Z.div_mul by lia.
  replace (tid * 2 ^ 32 * 2 ^ 32) with (tid * 2 ^ 64) by lia. rewrite Z.mod_mul, Z.div_0_l by lia.
  rewrite !Z.mod_small by lia. done.
Qed.

Lemma owner_zero : owner_and_ref_count 0 = (0, 0).
Proof. reflexivity. Qed.

#[local] Arguments owner_and_ref_count : simpl never.
#[local] Arguments owner_word : simpl never.

Lemma pthread_owner_weight_nonneg t : 0 <= owner_weight t.
Proof. unfold owner_weight. destruct (owns _); lia. Qed.

Lemma registered_owns p : registered p = true -> owns p = true.
Proof. induction p; cbn; auto; try done. Qed.

Section errorcheck.
Context `{Profile} (ids : list Z) (Hids : valid_ids ids).

(** One thread moves.  The owner word either stays, and with it whether the thread is
    registered, or the thread registers or removes itself as the only owner. *)
Lemma inv_move g ps i t g' p' :
  inv ids (g, ps) -> ps !! i = Some t -> reports_errors g'.(mutex) ->
  local t.(id) p' ->
  g'.(mutex).(mtx).(state) = g.(mutex).(mtx).(state) - owner_weight t + (if owns p' then 1 else 0) ->
  g'.(mutex).(mtx).(state) = 0 \/ g'.(mutex).(mtx).(state) = 1 ->
  (g'.(mutex).(current_owner) = g.(mutex).(current_owner) /\ registered p' = registered t.(at_)) \/
  (owns t.(at_) = true /\ registered p' = true /\ g'.(mutex).(current_owner) = owner_word t.(id)) \/
  (owns t.(at_) = true /\ registered p' = false /\ g'.(mutex).(current_owner) = 0) ->
  inv ids (g', <[i := {| id := t.(id); at_ := p' |}]> ps).
Proof.
  intros [Hk Hid Hw Hb Ht] Ei Hk' Hl Ew Hb' Howner. cbn in *.
  assert (Hrange : forall j u, ps !! j = Some u -> 0 < u.(id) < 2 ^ 32).
  { intros j u Ej. destruct Hids as [_ Hr]. rewrite Forall_lookup in Hr. apply (Hr j). rewrite <- Hid, list_lookup_fmap, Ej. done. }
  assert (Hother : forall j u, j <> i -> ps !! j = Some u -> u.(id) <> t.(id)).
  { intros j u Hne Ej E. apply Hne. destruct Hids as [Hnd _]. eapply (NoDup_lookup ids j i t.(id)); [done|..];
      rewrite <- Hid, list_lookup_fmap; rewrite ?Ej, ?Ei; cbn; congruence. }
  assert (Halone : forall j u, j <> i -> ps !! j = Some u -> owns t.(at_) = true -> registered u.(at_) = false).
  { intros j u Hne Ej Ho. destruct (registered u.(at_)) eqn:Er; [|done]. apply registered_owns in Er.
    pose proof (total_two owner_weight pthread_owner_weight_nonneg _ _ _ _ _ Ei Ej (not_eq_sym Hne)) as H2.
    unfold owner_weight at 1 2 in H2. rewrite Ho, Er in H2. lia. }
  split; cbn; [done| | |done|].
  - rewrite list_fmap_insert, Hid. apply list_insert_id. by rewrite <- Hid, list_lookup_fmap, Ei.
  - rewrite (total_insert _ _ _ _ _ Ei). unfold owner_weight at 3. cbn. lia.
  - eapply (iact_Forall (fun g => thread_ok g.(mutex)) i g); [done..| |].
    + split; [done|]. cbn. rewrite Forall_lookup in Ht. destruct (Ht _ _ Ei) as [_ Hreg].
      destruct Howner as [[-> ->]|[(_ & -> & ->)|(_ & -> & ->)]]; [done|..].
      * rewrite owner_word_owner by (specialize (Hrange _ _ Ei); lia). done.
      * specialize (Hrange _ _ Ei). rewrite owner_zero. split; [done|]. cbn. lia.
    + intros j u Hne Ej [Hlu Hru]. split; [done|]. specialize (Hrange _ _ Ej) as Hru'. specialize (Hrange _ _ Ei).
      destruct Howner as [[-> _]|[(Ho & _ & ->)|(Ho & _ & ->)]]; [done|..].
      * rewrite owner_word_owner by lia. rewrite (Halone _ _ Hne Ej Ho). split; [done|]. cbn. intros E. by destruct (Hother _ _ Hne Ej (eq_sym E)).
      * rewrite (Halone _ _ Hne Ej Ho). rewrite owner_zero. split; [done|]. cbn. lia.
Qed.

Lemma try_lock_cases c failed :
  (Locks.try_lock c failed).2 = MOwner /\ state c = 0 /\ state (Locks.try_lock c failed).1 = 1 \/
  (Locks.try_lock c failed).2 = failed /\ state (Locks.try_lock c failed).1 = state c.
Proof. unfold Locks.try_lock, compare_exchange. destruct (Z.eqb_spec (state c) 0); cbn; auto. Qed.

(** A step inside the inner mutex. *)
Lemma inv_inner g ps i tid k p r :
  inv ids (g, ps) -> ps !! i = Some {| id := tid; at_ := Inner k 0 p |} ->
  (r.2 = MOwner /\ state (mtx (mutex g)) = 0 /\ state r.1 = 1 \/
   state r.1 = state (mtx (mutex g)) /\
     (r.2 = MIdle (Some false) \/ locking r.2 = true /\ (k = Lock <-> r.2 <> MTryLock))) ->
  inv ids ({| mutex := (inner (mutex g) k 0 r).1; dead := g.(dead) |}, <[i := {| id := tid; at_ := (inner (mutex g) k 0 r).2 |}]> ps).
Proof.
  intros Hi Ei Hr. pose proof Hi as [Hk _ _ Hb _]. cbn in Hb, Hk. destruct Hk as (Htr & Hflags).
  apply (inv_move g ps i _ _ _ Hi Ei); cbn.
  - by split.
  - destruct Hr as [(-> & _ & _)|(_ & [->|[Hl Hkind]])]; [by rewrite Htr|destruct k; cbn; [split; [lia|auto]..|lia]|].
    by destruct r.2 as [| | | | | |[]| | | |].
  - destruct Hr as [(-> & -> & ->)|(-> & [->|[Hl Hkind]])]; [rewrite Htr; cbn; lia|destruct k; cbn; lia|].
    destruct r.2 as [| | | | | |[]| | | |]; try done; cbn; lia.
  - destruct Hr as [(_ & _ & ->)|(-> & _)]; auto.
  - left. split; [done|]. destruct Hr as [(-> & _ & _)|(_ & [->|[Hl Hkind]])]; [by rewrite Htr|by destruct k|].
    by destruct r.2 as [| | | | | |[]| | | |].
Qed.

Lemma lock_step_cases c p r :
  locking p = true -> p <> MTryLock -> Locks.lock_step c p = Some r ->
  r.2 = MOwner /\ state c = 0 /\ state r.1 = 1 \/
  state r.1 = state c /\ (r.2 = MIdle (Some false) \/ locking r.2 = true /\ (Lock = Lock <-> r.2 <> MTryLock)).
Proof.
  intros Hl Hp E.
  assert (Htry : forall failed, locking failed = true -> failed <> MTryLock -> Locks.try_lock c failed = r ->
    r.2 = MOwner /\ state c = 0 /\ state r.1 = 1 \/
    state r.1 = state c /\ (r.2 = MIdle (Some false) \/ locking r.2 = true /\ (Lock = Lock <-> r.2 <> MTryLock))).
  { intros failed H1 H2 <-. destruct (try_lock_cases c failed) as [|[-> ->]]; auto. right. split; [done|]. right. by split. }
  destruct p as [| | | | | |[]| | | |]; try done; cbn in E.
  - injection E as E. by eapply Htry; [..|exact E].
  - injection E as E. eapply Htry; [..|exact E]; by case_match.
  - case_match; [done|]. injection E as <-. right. split; [done|]. right. by split.
  - injection E as E. by eapply Htry; [..|exact E].
Qed.

(** A step that leaves the inner mutex and the owner alone. *)
Lemma inv_stay g ps i t g' p' :
  inv ids (g, ps) -> ps !! i = Some t -> reports_errors g'.(mutex) ->
  g'.(mutex).(mtx) = g.(mutex).(mtx) -> g'.(mutex).(current_owner) = g.(mutex).(current_owner) ->
  local t.(id) p' -> owns p' = owns t.(at_) -> registered p' = registered t.(at_) ->
  inv ids (g', <[i := {| id := t.(id); at_ := p' |}]> ps).
Proof.
  intros Hi Ei Hk Em Eo Hl Ho Hr. pose proof (inv_bit _ _ Hi) as Hb. cbn in Hb.
  eapply inv_move; [exact Hi|exact Ei|done|done| | |auto]; rewrite Em; [|done].
  unfold owner_weight. rewrite Ho. lia.
Qed.

#[local] Ltac moved := unfold owner_weight; cbn; change (0 <? 0 + 1) with true; change (0 <? 1 - 1) with false; cbn; first [done|lia|by auto|split; [lia|by auto]|by intuition].

Lemma inv_go g ps i t g' p' :
  inv ids (g, ps) -> ps !! i = Some t -> step (alive g) g.(mutex) t.(id) t.(at_) = Some (g'.(mutex), p') ->
  g'.(dead) = g.(dead) -> inv ids (g', <[i := {| id := t.(id); at_ := p' |}]> ps).
Proof.
  intros Hi Ei E Ed. destruct t as [tid p]. cbn in E |- *.
  pose proof Hi as [Hk Hid Hw Hb Ht]. cbn in Hk, Hid, Hw, Hb, Ht. pose proof Hk as (Htr & Hec & Hro & Hre).
  rewrite Forall_lookup in Ht. destruct (Ht _ _ Ei) as [Hl Hreg]. cbn in Hl, Hreg.
  destruct g' as [m' d']. cbn in E, Ed. subst d'.
  destruct p as [held r|k held|k held w|k held w|k held|k held|k held w|k held c w|k held p|k held|k held|held|held|held|held
    |held w|held|held|held| |p]; try done.
  - cbn in E. rewrite Hro in E. injection E as <- <-. apply (inv_stay _ _ _ _ _ _ Hi Ei); try done.
    cbn in *. split; [done|]. rewrite <- Hreg. by rewrite Z.ltb_lt.
  - cbn in E, Hl. destruct Hl as [Hh Hw']. destruct (owner_and_ref_count w) as [o c]. cbn in Hw'. injection E as <- <-.
    rewrite Hec. destruct (Z.eqb_spec o tid) as [->|Hne].
    + assert (held = 1) as -> by lia. apply (inv_stay _ _ _ _ _ _ Hi Ei); try done; destruct k; cbn; auto; lia.
    + assert (held = 0) as -> by lia. apply (inv_stay _ _ _ _ _ _ Hi Ei); try done; destruct k; cbn; done.
  - cbn in Hl. destruct Hl as (-> & Hlk & Hkind). destruct k; cbn in E.
    + destruct (Locks.lock_step _ _) as [r|] eqn:Es; [|done]. cbn in E. injection E as <- <-.
      apply lock_step_cases in Es; [|done|by apply Hkind]. by apply (inv_inner g ps i tid Lock p r).
    + destruct p; try done. injection E as <- <-. apply (inv_inner g ps i tid TryLock MTryLock _ Hi Ei).
      destruct (try_lock_cases (mtx (mutex g)) (MIdle (Some false))) as [|[-> ->]]; auto.
    + destruct p; try done. injection E as <- <-. apply (inv_inner g ps i tid TimedLock MTryLock _ Hi Ei).
      destruct (try_lock_cases (mtx (mutex g)) (MIdle (Some false))) as [|[-> ->]]; auto.
  - cbn in Hl. subst held. destruct k; cbn in E; injection E as <- <-; (apply (inv_move _ _ _ _ _ _ Hi Ei); moved).
  - cbn in Hl. destruct Hl as [-> ->]. cbn in E. injection E as <- <-. apply (inv_stay _ _ _ _ _ _ Hi Ei); moved.
  - cbn in Hl, E, Hreg. destruct (Z.eqb_spec tid (owner_and_ref_count (current_owner (mutex g))).1) as [Eo|Hne];
      injection E as <- <-.
    + assert (held = 1) as -> by (symmetry in Eo; apply Hreg, Z.ltb_lt in Eo; lia). by apply (inv_stay _ _ _ _ _ _ Hi Ei).
    + apply (inv_stay _ _ _ _ _ _ Hi Ei); moved.
  - cbn in Hl, E. rewrite Hre in E. destruct (inconsistent_state _); injection E as <- <-; by apply (inv_stay _ _ _ _ _ _ Hi Ei).
  - cbn in Hl, E. injection E as <- <-. apply (inv_move _ _ _ _ _ _ Hi Ei); moved.
  - cbn in Hl, E. injection E as <- <-. by apply (inv_stay _ _ _ _ _ _ Hi Ei).
  - cbn in Hl, E. subst held. injection E as <- <-.
    pose proof (total_lookup owner_weight pthread_owner_weight_nonneg _ _ _ Ei) as Ho. unfold owner_weight at 1 in Ho. cbn in Ho.
    apply (inv_move _ _ _ _ _ _ Hi Ei); moved.
Qed.

Lemma call_stay m k held tid :
  reports_errors m -> 0 <= held <= 1 ->
  local tid (call m k held) /\ owns (call m k held) = (0 <? held) /\ registered (call m k held) = (0 <? held).
Proof. intros (Htr & _) Hh. unfold call. by rewrite Htr. Qed.

Lemma act_go g t :
  act Go g t = (r ← step (alive g) g.(mutex) t.(id) t.(at_); Some ({| mutex := r.1; dead := g.(dead) |}, {| id := t.(id); at_ := r.2 |})).
Proof. unfold act. by destruct t.(at_). Qed.

Lemma pthread_inv_step s s' : inv ids s -> act_step (iact act) s s' -> inv ids s'.
Proof.
  intros Hi [[i e] s1 E]. apply iact_inv in E as ([tid p] & t' & Ei & E & Eps). destruct s as [g ps], s1 as [g' ps']. cbn in *. subst ps'.
  pose proof (inv_kind _ _ Hi) as Hk. pose proof (inv_threads _ _ Hi) as Ht. rewrite Forall_lookup in Ht.
  destruct (Ht _ _ Ei) as [Hl _]. cbn in Hl, Hk.
  destruct e as [k| | | | |x|].
  - destruct p; try discriminate E. injection E as <- <-. cbn in Hl. destruct (call_stay (mutex g) k held tid) as (H1 & H2 & H3); [done|lia|].
    by apply (inv_stay _ _ _ _ _ _ Hi Ei).
  - destruct p; try discriminate E. injection E as <- <-. cbn in Hl. pose proof Hk as (_ & Hec & _). unfold call_unlock. rewrite Hec.
    apply (inv_stay _ _ _ _ _ _ Hi Ei); moved.
  - destruct p; try discriminate E. injection E as <- <-. cbn in Hl. apply (inv_stay _ _ _ _ _ _ Hi Ei); try done. cbn. split; [lia|by auto].
  - rewrite act_go in E. cbn in E. destruct (step _ _ _ _) as [[m' p']|] eqn:Es; [|done]. injection E as <- <-.
    by apply (inv_go g ps i _ {| mutex := m'; dead := dead g |} p' Hi Ei).
  - destruct p as [| | | | | | | |k held p| | | | | | | | | | | |]; try discriminate E. destruct k, p; try discriminate E.
    injection E as <- <-. cbn in Hl. apply (inv_stay _ _ _ _ _ _ Hi Ei); try done. cbn. naive_solver.
  - destruct p; try discriminate E. injection E as <- <-. cbn in Hl. destruct (call_stay (mutex g) TimedLock held tid) as (H1 & H2 & H3); [done|lia|].
    destruct x; apply (inv_stay _ _ _ _ _ _ Hi Ei); try done. cbn. auto 6.
  - destruct p; try discriminate E; injection E as <- <-; by apply (inv_stay _ _ _ _ _ _ Hi Ei).
Qed.

Lemma pthread_start_inv rob : rob = 0 \/ rob = PTHREAD_MUTEX_STALLED ->
  inv ids (start {| robustness := rob; attr_mtype := PTHREAD_MUTEX_ERRORCHECK |} ids).
Proof.
  intros Hr. destruct Hids as [_ Hpos]. split; cbn.
  - by destruct Hr as [-> | ->].
  - rewrite <- list_fmap_compose. apply list_fmap_id.
  - clear. induction ids as [|x l IH]; cbn; [done|]. by rewrite <- IH.
  - by left.
  - apply Forall_fmap. eapply Forall_impl; [exact Hpos|]. cbn. intros x Hx. split; cbn; [split; [lia|by auto]|].
    rewrite owner_zero. cbn. split; [done|lia].
Qed.

End errorcheck.

(** C37: The macOS emulation of a mutex that reports errors: threads lock, try to lock, lock with a timeout and unlock
    it, in any order and interleaving, whether they hold it or not, and may die anywhere.  At most one of them owns it,
    and the word of the inner mutex says whether one does.  A thread that holds it and locks it or tries to lock it again
    is told so; if it locks with a timeout it waits for the timeout instead.  One that does not hold it cannot unlock it
    and changes nothing by trying, a thread that is blocked is blocked by another that owns the mutex, and no call ends
    with anything but success, a busy mutex, a deadlock or a timeout. *)
Theorem pthread_mutex_errorcheck `{Profile} ids rob s :
  valid_ids ids -> rob = 0 \/ rob = PTHREAD_MUTEX_STALLED ->
  rtc (act_step (iact act)) (start {| robustness := rob; attr_mtype := PTHREAD_MUTEX_ERRORCHECK |} ids) s ->
  (forall i j t u, s.2 !! i = Some t -> s.2 !! j = Some u -> owns t.(at_) = true -> owns u.(at_) = true -> i = j) /\
  (s.1.(mutex).(mtx).(state) = 1 <-> exists i t, s.2 !! i = Some t /\ owns t.(at_) = true) /\
  (forall i t, s.2 !! i = Some t ->
     match t.(at_) with
     | Idle held r => 0 <= held <= 1 /\ (r = ESUCCES \/ r = EBUSY \/ r = EDEADLK \/ r = ETIMEDOUT)
     | Decide k held _ =>
         act Go s.1 t = Some (s.1, {| id := t.(id); at_ :=
           if 0 <? held then match k with TimedLock => Expired held | _ => Idle held EDEADLK end else enter k held |})
     | UnlockCheck held =>
         act Go s.1 t = Some (s.1, {| id := t.(id); at_ := if 0 <? held then UnlockState held else Idle held EBUSY |})
     | Inner Lock _ _ => act Go s.1 t = None -> exists j u, j <> i /\ s.2 !! j = Some u /\ owns u.(at_) = true
     | Panicked => False
     | _ => True
     end).
Proof.
  intros Hids Hrob Hrtc.
  assert (Hi : inv ids s).
  { eapply (rtc_invariant _ (inv ids)); [|exact Hrtc|by apply pthread_start_inv]. intros a b Hab Ha. by eapply pthread_inv_step. }
  clear Hrtc. destruct Hi as [Hk Hid Hw Hb Ht]. rewrite Forall_lookup in Ht.
  assert (Hown : s.1.(mutex).(mtx).(state) = 1 -> exists i t, s.2 !! i = Some t /\ owns t.(at_) = true).
  { intros E. destruct (total_pos owner_weight pthread_owner_weight_nonneg s.2) as (i & t & Ei & Hp); [lia|].
    exists i, t. split; [done|]. unfold owner_weight in Hp. by destruct (owns t.(at_)); [|lia]. }
  split_and!.
  - intros i j t u Ei Ej Ho Hu. destruct (decide (i = j)) as [|Hne]; [done|].
    pose proof (total_two owner_weight pthread_owner_weight_nonneg _ _ _ _ _ Ei Ej Hne) as H2.
    unfold owner_weight at 1 2 in H2. rewrite Ho, Hu in H2. lia.
  - split; [done|]. intros (i & t & Ei & Ho). pose proof (total_lookup owner_weight pthread_owner_weight_nonneg _ _ _ Ei) as H1.
    unfold owner_weight at 1 in H1. rewrite Ho in H1. lia.
  - intros i [tid p] Ei. destruct (Ht _ _ Ei) as [Hl Hreg]. destruct s as [[m d] ps], Hk as (Htr & Hec & Hro & Hre). cbn in *.
    destruct p as [| | | | | |k held w| |k held p| | | |held| | | | | | | |]; try done.
    + unfold act. cbn. destruct Hl as [_ Hl]. revert Hl. destruct (owner_and_ref_count w) as [o c]. cbn. intros Hl. rewrite Hec. f_equal. f_equal. f_equal.
      destruct (Z.eqb_spec o tid), (Z.ltb_spec 0 held); try done; naive_solver lia.
    + destruct k; try done. destruct Hl as (-> & Hlk & Hkind). intros E.
      destruct p as [| | | | | |[]| | | |]; try done; cbn in E; try (by destruct (Locks.try_lock _ _)); [by destruct (proj1 Hkind)|].
      destruct (Z.eqb_spec (state (mtx m)) 1) as [E1|]; [|done]. destruct (Hown E1) as (j & u & Ej & Ho). exists j, u.
      split_and!; [|done..]. intros ->. rewrite Ei in Ej. injection Ej as <-. done.
    + unfold act. cbn. do 3 f_equal.
      assert (Hr : (0 <? held) = true <-> (owner_and_ref_count (current_owner m)).1 = tid) by exact Hreg. clear Hreg. rewrite Z.ltb_lt in Hr.
      destruct (Z.eqb_spec tid (owner_and_ref_count (current_owner m)).1), (Z.ltb_spec 0 held); try done; naive_solver lia.
Qed.

#[local] Definition go (i n : nat) : list (nat * event) := replicate n (i, Go).

Lemma valid_ids_12 : valid_ids [1; 2].
Proof. split; [|by repeat constructor]. apply (bool_decide_unpack _). vm_compute. exact I. Qed.

(** The first thread locks the mutex, the second is refused when it unlocks it and spins for it. *)
#[local] Definition errorcheck_schedule : list (nat * event) :=
  [(0%nat, Call Lock)] ++ go 0 5 ++ [(1%nat, CallUnlock); (1%nat, Go); (1%nat, Call Lock)] ++ go 1 3 ++ [(0%nat, Call TryLock); (0%nat, Go)].

#[local] Definition errorcheck_state : shared * list thread :=
  let s := start {| robustness := 0; attr_mtype := PTHREAD_MUTEX_ERRORCHECK |} [1; 2] in
  default s (run_schedule (iact (act (H := dev))) errorcheck_schedule s).

Lemma errorcheck_reached :
  rtc (act_step (iact (act (H := dev)))) (start {| robustness := 0; attr_mtype := PTHREAD_MUTEX_ERRORCHECK |} [1; 2]) errorcheck_state.
Proof. apply (run_schedule_reachable _ errorcheck_schedule). vm_compute. reflexivity. Qed.

Lemma pthread_mutex_errorcheck_witness :
  exists w, errorcheck_state.2 !! 0%nat = Some {| id := 1; at_ := Decide TryLock 1 w |} /\
    errorcheck_state.2 !! 1%nat = Some {| id := 2; at_ := Inner Lock 0 (MSpin 0) |} /\
    act (H := dev) Go errorcheck_state.1 {| id := 1; at_ := Decide TryLock 1 w |} =
      Some (errorcheck_state.1, {| id := 1; at_ := Idle 1 EDEADLK |}).
Proof.
  exists (2 ^ 32). split; [vm_compute; reflexivity|]. split; [vm_compute; reflexivity|].
  apply (proj2 (proj2 (pthread_mutex_errorcheck (H := dev) [1; 2] 0 errorcheck_state valid_ids_12 (or_introl eq_refl) errorcheck_reached))
    0%nat {| id := 1; at_ := Decide TryLock 1 (2 ^ 32) |}).
  vm_compute. reflexivity.
Defined.

(** ** Recursive and robust mutexes *)

(** A recursive mutex is released by the first of two unlocks: [unlock] always unlocks the inner mutex, also when the
    count says that the thread has locked the mutex more than once.  A second thread locks it while the first holds it. *)
Theorem pthread_mutex_recursive_two_owners :
  exists g, rtc (act_step (iact (act (H := dev))))
    (start {| robustness := PTHREAD_MUTEX_STALLED; attr_mtype := PTHREAD_MUTEX_RECURSIVE |} [1; 2])
    (g, [{| id := 1; at_ := Idle 1 ESUCCES |}; {| id := 2; at_ := Idle 1 ESUCCES |}]) /\ g.(dead) = [].
Proof.
  eexists. split.
  - apply (run_schedule_reachable _ ([(0%nat, Call Lock)] ++ go 0 5 ++ [(0%nat, Call Lock)] ++ go 0 3 ++ [(0%nat, CallUnlock)] ++ go 0 4
      ++ [(1%nat, Call Lock)] ++ go 1 5)). vm_compute. reflexivity.
  - reflexivity.
Qed.

(** A robust mutex has two owners although no thread has died: [trylock] does not store the handle of the new owner, and
    the next thread takes the missing handle for the handle of a dead owner. *)
Theorem pthread_mutex_robust_trylock :
  exists g, rtc (act_step (iact (act (H := dev))))
    (start {| robustness := PTHREAD_MUTEX_ROBUST; attr_mtype := PTHREAD_MUTEX_NORMAL |} [1; 2])
    (g, [{| id := 1; at_ := Idle 1 ESUCCES |}; {| id := 2; at_ := Idle 1 EOWNERDEAD |}]) /\ g.(dead) = [].
Proof.
  eexists. split.
  - apply (run_schedule_reachable _ ([(0%nat, Call Lock)] ++ go 0 6 ++ [(0%nat, CallUnlock)] ++ go 0 4 ++ [(0%nat, Call TryLock)] ++ go 0 5
      ++ [(1%nat, Call Lock)] ++ go 1 5)). vm_compute. reflexivity.
  - reflexivity.
Qed.

(** When the owner of a robust mutex has died every thread that locks the mutex becomes its owner: the one that is told
    of the death stores its id and not its handle. *)
Theorem pthread_mutex_robust_all_owners :
  exists g p, rtc (act_step (iact (act (H := dev))))
    (start {| robustness := PTHREAD_MUTEX_ROBUST; attr_mtype := PTHREAD_MUTEX_NORMAL |} [1; 2; 3])
    (g, [{| id := 1; at_ := Died p |}; {| id := 2; at_ := Idle 1 EOWNERDEAD |}; {| id := 3; at_ := Idle 1 EOWNERDEAD |}]).
Proof.
  eexists _, _.
  apply (run_schedule_reachable _ ([(0%nat, Call Lock)] ++ go 0 6 ++ [(0%nat, Die)] ++ [(1%nat, Call Lock)] ++ go 1 5
    ++ [(2%nat, Call Lock)] ++ go 2 5)). vm_compute. reflexivity.
Qed.

End Pthread.
