(* ===== verification/PortToUds.v ===== *)
(** * Names of local sockets on a platform without them

    [PortToUds] (iceoryx2_pal/posix/src/windows/win32_udp_port_to_uds_name.rs) keeps, in a
    shared memory, the name of the local socket that every UDP port stands for.  An entry is
    written by the owner of the port while other processes read it: it has two slots and a
    counter whose parity names the slot to write next.

    The operations on the whole map are modelled without interference, the operations of an
    entry also with a writer and any number of readers that interleave at every byte. *)

From S2P Require Import Prelude.

Module PortToUds.

(* src/iceoryx2_pal/posix/src/windows/win32_udp_port_to_uds_name.rs:32-32 UNINITIALIZED_ENTRY *)
Definition UNINITIALIZED_ENTRY : Z := 1.
(* src/iceoryx2_pal/posix/src/windows/win32_udp_port_to_uds_name.rs:33-33 MAX_UDS_NAME_LEN *)
Definition MAX_UDS_NAME_LEN : Z := 108.
Definition NUMBER_OF_PORTS : Z := 65535.

(** ** Entries *)

(** [value0] and [value1] are the two slots. *)
(* src/iceoryx2_pal/posix/src/windows/win32_udp_port_to_uds_name.rs:35-38 Entry *)
Record Entry := { aba_counter : Z; value0 : list Z; value1 : list Z }.

Definition zeros : list Z := replicate (Z.to_nat MAX_UDS_NAME_LEN) 0.

(* src/iceoryx2_pal/posix/src/windows/win32_udp_port_to_uds_name.rs:41-47 initialize *)
Definition entry_initialize : Entry := {| aba_counter := UNINITIALIZED_ENTRY; value0 := zeros; value1 := zeros |}.

Definition slot (e : Entry) (i : Z) : list Z := if i mod 2 =? 0 then e.(value0) else e.(value1).

Definition set_slot (e : Entry) (i : Z) (v : list Z) : Entry :=
  if i mod 2 =? 0 then {| aba_counter := e.(aba_counter); value0 := v; value1 := e.(value1) |}
  else {| aba_counter := e.(aba_counter); value0 := e.(value0); value1 := v |}.

Definition set_counter (e : Entry) (c : Z) : Entry := {| aba_counter := c; value0 := e.(value0); value1 := e.(value1) |}.

Section entry.
Context `{Profile}.

(** Nothing changes the counter in between, the first round of the loop is the last one. *)
(* src/iceoryx2_pal/posix/src/windows/win32_udp_port_to_uds_name.rs:49-64 is_set *)
Definition entry_is_set (e : Entry) : outcome bool :=
  let current := e.(aba_counter) in
  if current =? UNINITIALIZED_ENTRY then Ret false
  else
    let! i := current -u64 1 in
    let! first_char := index (slot e i) 0 in
    Ret (negb (first_char =? 0)).

(** [copy_from_slice] to the front of an array. *)
Definition copy_front (a value : list Z) : outcome (list Z) :=
  if zlength value <=? zlength a then Ret (value ++ drop (length value) a) else Panic.

(* src/iceoryx2_pal/posix/src/windows/win32_udp_port_to_uds_name.rs:66-73 set *)
Definition entry_set (e : Entry) (value : list Z) : outcome Entry :=
  let current := e.(aba_counter) in
  let! v := copy_front zeros value in
  Ret (set_counter (set_slot e current v) (wrapping_add 64 current 1)).

(* src/iceoryx2_pal/posix/src/windows/win32_udp_port_to_uds_name.rs:75-90 get *)
Definition entry_get (e : Entry) : outcome (list Z) :=
  let current := e.(aba_counter) in
  if current =? UNINITIALIZED_ENTRY then Ret zeros
  else let! i := current -u64 1 in Ret (slot e i).

(* src/iceoryx2_pal/posix/src/windows/win32_udp_port_to_uds_name.rs:92-95 reset *)
Definition entry_reset (e : Entry) : Entry := set_counter e UNINITIALIZED_ENTRY.

End entry.

(** ** Names *)

Definition is_separator (c : Z) : bool := (c =? 92) || (c =? 47).
Definition ascii_lowercase (c : Z) : Z := if (65 <=? c) && (c <=? 90) then c + 32 else c.

Fixpoint normalize (low_case : list Z) (is_previous_char_path_separator : bool) (result : list Z) (n : Z) : outcome (list Z) :=
  match low_case with
  | [] => Ret result
  | c :: low_case =>
      if is_separator c && is_previous_char_path_separator
      then normalize low_case is_previous_char_path_separator result n
      else let! result := update result n c in normalize low_case (is_separator c) result (n + 1)
  end.

(* src/iceoryx2_pal/posix/src/windows/win32_udp_port_to_uds_name.rs:98-119 normalized_name *)
Definition normalized_name (name : list Z) : outcome (list Z) := normalize (ascii_lowercase <$> name) false zeros 0.

(** The position of the first null terminator. *)
Fixpoint terminator (value : list Z) : option nat :=
  match value with
  | [] => None
  | c :: value => if c =? 0 then Some 0%nat else S <$> terminator value
  end.

(** A string without terminator is read beyond its end. *)
(* src/iceoryx2_pal/posix/src/lib.rs:94-102 c_string_length *)
Definition c_string_length (value : list Z) : outcome nat :=
  match terminator value with Some n => Ret n | None => Panic end.

(** ** The map *)

Section map.
Context `{Profile}.

(* src/iceoryx2_pal/posix/src/windows/win32_udp_port_to_uds_name.rs:128-145 initialize *)
Definition initialize : list Entry := replicate (Z.to_nat NUMBER_OF_PORTS) entry_initialize.

(* src/iceoryx2_pal/posix/src/windows/win32_udp_port_to_uds_name.rs:147-150 set *)
Definition set (uds_names : list Entry) (port : Z) (name : list Z) : outcome (list Entry) :=
  let! name := normalized_name name in
  let! e := index uds_names port in
  let! e := entry_set e name in
  update uds_names port e.

Fixpoint find_port (uds_names : list Entry) (i : Z) (name : list Z) : outcome Z :=
  match uds_names with
  | [] => Ret 0
  | e :: uds_names =>
      let! entry_name := entry_get e in
      let pos := default 0%nat (terminator entry_name) in
      if (pos =? 0)%nat || (length name <? pos)%nat then find_port uds_names (i + 1) name
      else if bool_decide (take pos entry_name = take pos name) then Ret (cast 16 i)
      else find_port uds_names (i + 1) name
  end.

(* src/iceoryx2_pal/posix/src/windows/win32_udp_port_to_uds_name.rs:152-166 get_port *)
Definition get_port (uds_names : list Entry) (name : list Z) : outcome Z :=
  let! name := normalized_name name in find_port uds_names 0 name.

(* src/iceoryx2_pal/posix/src/windows/win32_udp_port_to_uds_name.rs:168-170 contains *)
Definition contains (uds_names : list Entry) (name : list Z) : outcome bool :=
  let! port := get_port uds_names name in Ret (negb (port =? 0)).

(* src/iceoryx2_pal/posix/src/windows/win32_udp_port_to_uds_name.rs:172-180 remove *)
Definition remove (uds_names : list Entry) (name : list Z) : outcome (bool * list Entry) :=
  let! port := get_port uds_names name in
  if port =? 0 then Ret (false, uds_names)
  else
    let! e := index uds_names port in
    let! uds_names := update uds_names port (entry_reset e) in
    Ret (true, uds_names).

(* src/iceoryx2_pal/posix/src/windows/win32_udp_port_to_uds_name.rs:318-320 reset *)
Definition reset (uds_names : list Entry) (port : Z) : outcome (list Entry) := set uds_names port zeros.

Fixpoint leading_separators (l : list Z) : nat :=
  match l with
  | [] => 0
  | c :: l => if is_separator c then S (leading_separators l) else 0
  end.

(** What [list] makes of one entry: the array with the file name, or nothing. *)
(* src/iceoryx2_pal/posix/src/windows/win32_udp_port_to_uds_name.rs:262-309 list *)
Definition list_entry (path : list Z) (path_len : nat) (entry : Entry) : outcome (option (list Z)) :=
  let! is_set := entry_is_set entry in
  if negb is_set then Ret None
  else
    let! value := entry_get entry in
    let! value_len := c_string_length value in
    if (value_len =? 0)%nat || (value_len <=? path_len)%nat then Ret None
    else if negb (bool_decide (take path_len value = take path_len path)) then Ret None
    else
      let start_adjustment := if (path_len =? 0)%nat then 0%nat else leading_separators (drop path_len (take value_len value)) in
      let file := drop (path_len + start_adjustment) (take value_len value) in
      if existsb is_separator file then Ret None
      else if (value_len <=? path_len + start_adjustment)%nat then Ret None
      else let! file_name := copy_front zeros file in Ret (Some file_name).

Fixpoint list_entries (path : list Z) (path_len : nat) (entries : list Entry) : outcome (list (list Z)) :=
  match entries with
  | [] => Ret []
  | e :: entries =>
      let! r := list_entry path path_len e in
      let! rest := list_entries path path_len entries in
      Ret (match r with Some f => f :: rest | None => rest end)
  end.

(* src/iceoryx2_pal/posix/src/windows/win32_udp_port_to_uds_name.rs:256-312 list *)
Definition list_ (uds_names : list Entry) (path : list Z) : outcome (list (list Z)) :=
  let! path := normalized_name path in
  let! path_len := c_string_length path in
  list_entries path path_len uds_names.

End map.

(** ** What the map stores *)

(** The characters up to the terminator; an array without terminator counts as empty. *)
Definition text (value : list Z) : list Z := match terminator value with Some n => take n value | None => [] end.

(** The name an entry stands for. *)
Definition name_of (e : Entry) : list Z :=
  if e.(aba_counter) =? UNINITIALIZED_ENTRY then [] else text (slot e (e.(aba_counter) - 1)).

Definition entry_ok (e : Entry) : Prop :=
  UNINITIALIZED_ENTRY <= e.(aba_counter) < 2 ^ 64 /\ zlength e.(value0) = MAX_UDS_NAME_LEN /\ zlength e.(value1) = MAX_UDS_NAME_LEN.

Definition map_ok (m : list Entry) : Prop := zlength m = NUMBER_OF_PORTS /\ Forall entry_ok m.

(** The first index whose name is not empty and a prefix of [name]. *)
Fixpoint first_prefix (names : list (list Z)) (name : list Z) : option nat :=
  match names with
  | [] => None
  | t :: names => if bool_decide (t <> [] /\ t `prefix_of` name) then Some 0%nat else S <$> first_prefix names name
  end.

(** [normalized_name] as a function on names of any length. *)
Fixpoint collapse (l : list Z) (previous : bool) : list Z :=
  match l with
  | [] => []
  | c :: l => if is_separator c && previous then collapse l previous else c :: collapse l (is_separator c)
  end.

Definition canonical (name : list Z) : list Z := collapse (ascii_lowercase <$> name) false.

Lemma normalize_spec l : forall previous acc k,
  normalize l previous (acc ++ replicate k 0) (zlength acc) =
  if (length (collapse l previous) <=? k)%nat
  then Ret (acc ++ collapse l previous ++ replicate (k - length (collapse l previous)) 0) else Panic.
Proof.
  induction l as [|c l IH]; intros previous acc k; cbn [normalize collapse].
  - cbn. by rewrite Nat.sub_0_r.
  - destruct (is_separator c && previous); [apply IH|]. cbn [length].
    destruct k as [|k].
    + cbn [replicate]. rewrite app_nil_r. unfold update. rewrite (proj2 (Z.leb_le (Z.of_nat (length acc)) _)) by (unfold zlength; lia).
      by rewrite orb_true_r.
    + unfold update. rewrite (proj2 (Z.ltb_ge _ _)) by (unfold zlength; lia).
      rewrite (proj2 (Z.leb_gt _ _)) by (unfold zlength; rewrite length_app; cbn; lia). cbn [orb outcome_bind].
      unfold zlength. rewrite Nat2Z.id. replace (<[length acc := c]> (acc ++ replicate (S k) 0)) with ((acc ++ [c]) ++ replicate k 0).
      * replace (Z.of_nat (length acc) + 1) with (zlength (acc ++ [c])) by (unfold zlength; rewrite length_app; cbn; lia).
        rewrite IH. cbn [Nat.leb Nat.sub]. destruct (_ <=? _)%nat; [|done]. by rewrite <- app_assoc.
      * rewrite insert_app_r_alt by lia. rewrite Nat.sub_diag. cbn. by rewrite <- app_assoc.
Qed.

Lemma normalized_name_spec name :
  normalized_name name =
  if (length (canonical name) <=? 108)%nat then Ret (canonical name ++ replicate (108 - length (canonical name)) 0) else Panic.
Proof. apply (normalize_spec _ false [] 108). Qed.

Lemma normalized_name_length name v : normalized_name name = Ret v -> length v = 108%nat.
Proof.
  rewrite normalized_name_spec. destruct (_ <=? _)%nat eqn:E; [|done]. apply Nat.leb_le in E. intros [= <-].
  rewrite length_app, length_replicate. lia.
Qed.

Lemma terminator_spec l n :
  terminator l = Some n <-> l !! n = Some 0 /\ Forall (fun c => c <> 0) (take n l).
Proof.
  revert n. induction l as [|c l IH]; intros n; cbn; [split; [done|intros [? _]; done]|].
  destruct (Z.eqb_spec c 0) as [->|Hc].
  - destruct n as [|n]; cbn; [split; [intros; by split; [|constructor]|done]|].
    split; [done|]. intros [_ Hf]. by apply Forall_cons in Hf as [? _].
  - destruct n as [|n]; cbn.
    + split; [|intros [[= ->] _]; done]. destruct (terminator l); done.
    + rewrite Forall_cons. destruct (terminator l) as [m|] eqn:Em; cbn.
      * split; [intros [= ->]; destruct (proj1 (IH n) eq_refl); auto|].
        intros (H1 & _ & H2). pose proof (proj2 (IH n) (conj H1 H2)) as [= ->]. done.
      * split; [done|]. intros (H1 & _ & H2). by pose proof (proj2 (IH n) (conj H1 H2)).
Qed.

Lemma text_take v : take (length (text v)) v = text v.
Proof.
  unfold text. destruct (terminator v) as [n|] eqn:E; [|done]. apply terminator_spec in E as [E _].
  apply lookup_lt_Some in E. rewrite length_take. by replace (n `min` length v)%nat with n by lia.
Qed.

Lemma text_length v : default 0%nat (terminator v) = length (text v).
Proof.
  unfold text. destruct (terminator v) as [n|] eqn:E; [|done]. apply terminator_spec in E as [E _].
  apply lookup_lt_Some in E. rewrite length_take. cbn. lia.
Qed.

Lemma text_prefix v : text v `prefix_of` v.
Proof. rewrite <- (text_take v). exists (drop (length (text v)) v). by rewrite take_drop. Qed.

Section lemmas.
Context `{Profile}.
Implicit Types (m : list Entry) (e : Entry).

Lemma slot_length e i : entry_ok e -> length (slot e i) = 108%nat.
Proof. intros (_ & H0 & H1). unfold slot, zlength, MAX_UDS_NAME_LEN in *. destruct (_ =? _); lia. Qed.

Lemma entry_get_ok e : entry_ok e -> exists v, entry_get e = Ret v /\ length v = 108%nat /\ text v = name_of e.
Proof.
  intros He. unfold entry_get, name_of. destruct (_ =? _) eqn:E; [by exists zeros|].
  pose proof He as ((Hc & _) & _). unfold UNINITIALIZED_ENTRY in *. rewrite usub_ok by lia. cbn. eexists. split; [done|].
  split; [by apply slot_length|done].
Qed.

Lemma find_port_spec m name : forall i,
  Forall entry_ok m -> length name = 108%nat -> 0 <= i -> i + zlength m <= 2 ^ 16 ->
  find_port m i name = Ret (match first_prefix (name_of <$> m) name with Some k => i + Z.of_nat k | None => 0 end).
Proof.
  induction m as [|e m IH]; intros i Hm Hn Hi Hb; [done|]. apply Forall_cons in Hm as [He Hm]. rewrite zlength_cons in Hb.
  pose proof (zlength_nonneg m). cbn [find_port]. destruct (entry_get_ok e He) as (v & -> & Hv & Et).
  cbn [outcome_bind]. rewrite text_length, Et. rewrite fmap_cons. cbn [first_prefix]. rewrite (IH (i + 1)) by (done || lia).
  assert (Hlen : (length (name_of e) <= 108)%nat).
  { rewrite <- Et, <- Hv. apply prefix_length, text_prefix. }
  rewrite Hn. rewrite (proj2 (Nat.ltb_ge _ _)) by lia. rewrite orb_false_r.
  assert (Hrest : match first_prefix (name_of <$> m) name with Some k => i + 1 + Z.of_nat k | None => 0 end =
    match S <$> first_prefix (name_of <$> m) name with Some k => i + Z.of_nat k | None => 0 end).
  { destruct (first_prefix _ _); cbn; lia. }
  rewrite Hrest. destruct (Nat.eqb_spec (length (name_of e)) 0) as [El|El].
  - rewrite bool_decide_false; [done|]. intros [Hne _]. by destruct (name_of e).
  - assert (Htake : take (length (name_of e)) v = name_of e) by (rewrite <- Et; apply text_take). rewrite Htake.
    destruct (decide (name_of e `prefix_of` name)) as [Hp|Hp].
    + rewrite !bool_decide_true; [|by split; [destruct (name_of e)|]|].
      * f_equal. rewrite cast_small; [lia|]. split; lia.
      * destruct Hp as [k ->]. by rewrite take_app_length.
    + rewrite !bool_decide_false; [done|by intros [_ ?]|]. intros E. apply Hp. rewrite E. apply prefix_take.
Qed.

Lemma get_port_spec m name v :
  map_ok m -> normalized_name name = Ret v ->
  get_port m name = Ret (match first_prefix (name_of <$> m) v with Some k => Z.of_nat k | None => 0 end).
Proof.
  intros [Hl Hm] Ev. unfold get_port. rewrite Ev. cbn [outcome_bind].
  rewrite find_port_spec; [done|done|by eapply normalized_name_length|done|]. unfold NUMBER_OF_PORTS in Hl. lia.
Qed.

Lemma entry_set_ok e v :
  entry_ok e -> aba_counter e + 1 < 2 ^ 64 -> length v = 108%nat ->
  exists e', entry_set e v = Ret e' /\ entry_ok e' /\ name_of e' = text v.
Proof.
  intros He Hb Hv. pose proof He as (Hc & H0 & H1). unfold entry_set, copy_front. unfold UNINITIALIZED_ENTRY in Hc.
  rewrite (proj2 (Z.leb_le _ _)) by (unfold zlength; rewrite Hv; vm_compute; congruence). cbn [outcome_bind].
  rewrite wrapping_add_small by lia. rewrite drop_ge by (rewrite Hv; vm_compute; lia). rewrite app_nil_r.
  assert (Hv' : zlength v = MAX_UDS_NAME_LEN) by (unfold zlength; by rewrite Hv).
  eexists. split; [done|]. split.
  - unfold entry_ok, set_slot, UNINITIALIZED_ENTRY. destruct (_ =? _); cbn; lia.
  - unfold name_of. cbn. rewrite (proj2 (Z.eqb_neq _ _)) by (unfold UNINITIALIZED_ENTRY; lia).
    f_equal. unfold slot, set_slot. cbn. replace (aba_counter e + 1 - 1) with (aba_counter e) by lia.
    by destruct (aba_counter e mod 2 =? 0).
Qed.

Lemma set_ok m (port : nat) e name v :
  map_ok m -> m !! port = Some e -> aba_counter e + 1 < 2 ^ 64 -> normalized_name name = Ret v ->
  exists m', set m (Z.of_nat port) name = Ret m' /\ map_ok m' /\ name_of <$> m' = <[port := text v]> (name_of <$> m).
Proof.
  intros [Hl Hm] Ee Hb Ev. assert (He : entry_ok e) by (by eapply Forall_lookup_1).
  destruct (entry_set_ok e v He Hb) as (e' & Es & He' & En); [by eapply normalized_name_length|].
  unfold set. rewrite Ev. cbn [outcome_bind]. pose proof (lookup_lt_Some _ _ _ Ee) as Hlt.
  unfold index. rewrite (proj2 (Z.ltb_ge _ _)) by lia. rewrite Nat2Z.id, Ee. cbn [outcome_bind]. rewrite Es. cbn [outcome_bind].
  unfold update. rewrite (proj2 (Z.ltb_ge _ _)) by lia. rewrite (proj2 (Z.leb_gt _ _)) by lia. cbn [orb]. rewrite Nat2Z.id.
  eexists. split; [done|]. split.
  - split; [unfold zlength in *; by rewrite length_insert|by apply Forall_insert].
  - by rewrite list_fmap_insert, En.
Qed.

Lemma first_prefix_unique names name k t :
  names !! k = Some t -> t <> [] -> t `prefix_of` name ->
  (forall j u, j <> k -> names !! j = Some u -> u <> [] -> ~ u `prefix_of` name) -> first_prefix names name = Some k.
Proof.
  revert k. induction names as [|u names IH]; intros k Ek Ht Hp Hother; [done|]. cbn. destruct k as [|k].
  - injection Ek as ->. by rewrite bool_decide_true.
  - rewrite bool_decide_false; [|intros [Hu Hpu]; by apply (Hother 0%nat u)].
    rewrite (IH k); [done|done..|]. intros j w Hne Ej. by apply (Hother (S j)); [congruence|].
Qed.

End lemmas.

(** ** Looking up a name *)

(** Naming a port makes it the answer for its name, also when it is spelled with other capitals and repeated
    separators, as long as no other port has a name that is a prefix of it; the names of the other ports stay, the
    answer for any other name is the first port whose name is a prefix of it, and removing the name takes it from the
    port that has it and from no other. *)
Theorem port_to_uds_lookup `{Profile} m (port : nat) e name name' v :
  map_ok m -> m !! port = Some e -> aba_counter e + 1 < 2 ^ 64 ->
  normalized_name name = Ret v -> normalized_name name' = Ret v -> text v <> [] -> (0 < port)%nat ->
  (forall j t, j <> port -> (name_of <$> m) !! j = Some t -> t <> [] -> ~ t `prefix_of` v) ->
  exists m', set m (Z.of_nat port) name = Ret m' /\ map_ok m' /\ name_of <$> m' = <[port := text v]> (name_of <$> m) /\
    get_port m' name' = Ret (Z.of_nat port) /\
    (forall other w, normalized_name other = Ret w ->
       get_port m' other = Ret (match first_prefix (<[port := text v]> (name_of <$> m)) w with Some k => Z.of_nat k | None => 0 end)) /\
    exists m'', remove m' name' = Ret (true, m'') /\ name_of <$> m'' = <[port := []]> (name_of <$> m).
Proof.
  intros Hm Ee Hb Ev Ev' Ht Hport Hother. pose proof (lookup_lt_Some _ _ _ Ee) as Hlt.
  destruct (set_ok m port e name v Hm Ee Hb Ev) as (m' & Es & Hm' & En). exists m'.
  assert (Egp : get_port m' name' = Ret (Z.of_nat port)).
  { rewrite (get_port_spec m' name' v Hm' Ev'), En. rewrite (first_prefix_unique _ _ port (text v)); [done| |done|apply text_prefix|].
    - apply list_lookup_insert_eq. by rewrite length_fmap.
    - intros j u Hne Ej. rewrite list_lookup_insert_ne in Ej by done. by apply Hother with j. }
  split_and!; try done.
  - intros other w Ew. by rewrite (get_port_spec m' other w Hm' Ew), En.
  - assert (Hlt' : (port < length m')%nat).
    { assert (length (name_of <$> m') = length (name_of <$> m)) by (by rewrite En, length_insert). rewrite !length_fmap in *. lia. }
    destruct (lookup_lt_is_Some_2 m' port Hlt') as [e' Ee'].
    unfold remove. rewrite Egp. cbn [outcome_bind]. rewrite (proj2 (Z.eqb_neq _ _)) by lia.
    unfold index. rewrite (proj2 (Z.ltb_ge _ _)) by lia. rewrite Nat2Z.id, Ee'. cbn [outcome_bind].
    unfold update. rewrite (proj2 (Z.ltb_ge _ _)) by lia. rewrite (proj2 (Z.leb_gt _ _)) by lia. cbn [orb outcome_bind]. rewrite Nat2Z.id.
    eexists. split; [done|]. rewrite list_fmap_insert, En. cbn. by rewrite list_insert_insert_eq.
Qed.

Lemma initialize_ok : map_ok initialize.
Proof. split; [unfold zlength, initialize; rewrite length_replicate; vm_compute; reflexivity|]. apply Forall_replicate. split; vm_compute; intuition congruence. Qed.

Lemma initialize_names j t : (name_of <$> initialize) !! j = Some t -> t = [].
Proof.
  unfold initialize. rewrite fmap_replicate. intros E. apply lookup_replicate in E as [-> _]. vm_compute. reflexivity.
Qed.

Lemma initialize_lookup_lt (port : nat) : Z.of_nat port < NUMBER_OF_PORTS -> initialize !! port = Some entry_initialize.
Proof. intros Hp. apply lookup_replicate. split; [done|]. lia. Qed.

(** Port 1234 is named [//A/b] and found as [/a//B]. *)
Lemma port_to_uds_lookup_witness :
  exists m', set initialize 1234 [47; 47; 65; 47; 98] = Ret m' /\ get_port (H := dev) m' [47; 97; 47; 47; 66] = Ret 1234.
Proof.
  destruct (normalized_name [47; 47; 65; 47; 98]) as [v|] eqn:Ev; [|vm_compute in Ev; discriminate Ev].
  destruct (port_to_uds_lookup (H := dev) initialize 1234 entry_initialize [47; 47; 65; 47; 98] [47; 97; 47; 47; 66] v
    initialize_ok) as (m' & Es & _ & _ & Eg & _).
  - apply initialize_lookup_lt. vm_compute. reflexivity.
  - vm_compute. reflexivity.
  - exact Ev.
  - rewrite <- Ev. vm_compute. reflexivity.
  - vm_compute in Ev. injection Ev as <-. vm_compute. congruence.
  - lia.
  - intros j t _ Ej%initialize_names Ht. done.
  - exists m'. split; [exact Es|exact Eg].
Defined.

(** The answer for a name nobody has is the port of a name that is a prefix of it: with [/a] at port 5, [/ab] is found there. *)
Theorem port_to_uds_prefix :
  exists m, set initialize 5 [47; 97] = Ret m /\ get_port (H := dev) m [47; 97; 98] = Ret 5.
Proof.
  destruct (normalized_name [47; 97]) as [v|] eqn:Ev; [|vm_compute in Ev; discriminate Ev].
  destruct (normalized_name [47; 97; 98]) as [w|] eqn:Ew; [|vm_compute in Ew; discriminate Ew].
  destruct (set_ok initialize 5 entry_initialize [47; 97] v initialize_ok) as (m & Es & Hm & En); [|vm_compute; reflexivity|done|].
  { apply initialize_lookup_lt. vm_compute. reflexivity. }
  exists m. split; [done|]. rewrite (get_port_spec m _ w Hm Ew), En.
  rewrite (first_prefix_unique _ _ 5%nat (text v)); [done|..].
  - apply list_lookup_insert_eq. rewrite length_fmap. eapply lookup_lt_Some, initialize_lookup_lt. vm_compute. reflexivity.
  - vm_compute in Ev. injection Ev as <-. vm_compute. congruence.
  - vm_compute in Ev, Ew. injection Ev as <-. injection Ew as <-. by apply (bool_decide_unpack _); vm_compute.
  - intros j u Hne Ej. rewrite list_lookup_insert_ne in Ej by done. intros Hu. destruct (Hu (initialize_names _ _ Ej)).
Qed.

(** The last port has no entry. *)
Theorem port_to_uds_last_port m name : map_ok m -> set m 65535 name = Panic.
Proof.
  intros [Hl _]. unfold set. destruct (normalized_name name) as [v|]; [|done]. cbn [outcome_bind].
  unfold index. rewrite (proj2 (Z.ltb_ge _ _)) by lia. unfold zlength, NUMBER_OF_PORTS in Hl. by rewrite (proj2 (lookup_ge_None m _)) by lia.
Qed.

(** Normalizing is idempotent. *)
Lemma collapse_idempotent l : forall p q, (p = true -> q = true) -> collapse (collapse l q) p = collapse l q.
Proof.
  induction l as [|c l IH]; intros p q Hpq; [done|]. cbn. destruct (is_separator c) eqn:Ec; cbn.
  - destruct q; cbn; [by apply IH|]. rewrite Ec. destruct p; [by specialize (Hpq eq_refl)|]. cbn. f_equal. by apply IH.
  - rewrite Ec. cbn. f_equal. by apply IH.
Qed.

Lemma lowercase_idempotent c : ascii_lowercase (ascii_lowercase c) = ascii_lowercase c.
Proof.
  unfold ascii_lowercase. destruct ((65 <=? c) && (c <=? 90)) eqn:E; [|by rewrite E].
  bool_to_prop. by rewrite (proj2 (Z.leb_gt (c + 32) 90)), andb_false_r by lia.
Qed.

Lemma collapse_map f l : forall p, (forall c, is_separator (f c) = is_separator c) ->
  f <$> collapse l p = collapse (f <$> l) p.
Proof.
  induction l as [|c l IH]; intros p Hf; [done|]. cbn. rewrite Hf. destruct (is_separator c && p); [by apply IH|].
  cbn. f_equal. by apply IH.
Qed.

Lemma lowercase_separator c : is_separator (ascii_lowercase c) = is_separator c.
Proof.
  unfold ascii_lowercase, is_separator. destruct ((65 <=? c) && (c <=? 90)) eqn:E; [|done]. bool_to_prop.
  destruct (Z.eqb_spec (c + 32) 92), (Z.eqb_spec (c + 32) 47), (Z.eqb_spec c 92), (Z.eqb_spec c 47); try done; lia.
Qed.

(** The canonical form of a name is its own canonical form, has no capital letters and no two separators in a row. *)
Theorem canonical_idempotent name : canonical (canonical name) = canonical name.
Proof.
  unfold canonical. rewrite collapse_map by apply lowercase_separator. rewrite <- list_fmap_compose.
  rewrite (list_fmap_ext (ascii_lowercase ∘ ascii_lowercase) ascii_lowercase) by (intros; apply lowercase_idempotent).
  by apply collapse_idempotent.
Qed.

(** ** Listing the names in a directory *)

Definition pad (f : list Z) : list Z := f ++ replicate (108 - length f) 0.

(** [t] names a file of the directory [p]: the directory, separators, and a name without any. *)
Definition in_directory (p t f : list Z) : Prop :=
  exists seps, t = p ++ seps ++ f /\ f <> [] /\ existsb is_separator f = false /\
    Forall (fun c => is_separator c = true) seps /\ (p = [] -> seps = []).

Definition file_of (p t : list Z) : option (list Z) :=
  if bool_decide (p `prefix_of` t) then
    let rest := drop (length p) t in
    let f := if (length p =? 0)%nat then rest else drop (leading_separators rest) rest in
    if existsb is_separator f || bool_decide (f = []) then None else Some f
  else None.

Lemma leading_separators_spec seps f :
  Forall (fun c => is_separator c = true) seps -> existsb is_separator f = false -> f <> [] ->
  drop (leading_separators (seps ++ f)) (seps ++ f) = f.
Proof.
  intros Hs Hf Hne. induction Hs as [|c seps Hc _ IH]; cbn.
  - destruct f as [|c f]; [done|]. cbn in *. by destruct (is_separator c).
  - by rewrite Hc.
Qed.

Lemma leading_separators_split l :
  exists seps, l = seps ++ drop (leading_separators l) l /\ Forall (fun c => is_separator c = true) seps.
Proof.
  induction l as [|c l (seps & E & Hs)]; [by exists []|]. cbn. destruct (is_separator c) eqn:Ec.
  - exists (c :: seps). cbn. split; [by f_equal|by constructor].
  - by exists [].
Qed.

Lemma file_of_spec p t f : file_of p t = Some f <-> in_directory p t f.
Proof.
  unfold file_of, in_directory. destruct (decide (p `prefix_of` t)) as [[r ->]|Hp]; last first.
  { rewrite bool_decide_false by done. split; [done|]. intros (seps & -> & _). destruct Hp. by exists (seps ++ f). }
  rewrite bool_decide_true by (by exists r). rewrite drop_app_length. split.
  - destruct (Nat.eqb_spec (length p) 0) as [El|El].
    + destruct (existsb _ r) eqn:Er; [done|]. cbn. case_bool_decide as Hn; [done|]. intros [= ->]. by exists [].
    + destruct (leading_separators_split r) as (seps & E & Hs). destruct (existsb _ _) eqn:Er; [done|]. cbn.
      case_bool_decide as Hn; [done|]. intros [= <-]. exists seps. split_and!; try done; [by f_equal|]. intros ->. done.
  - intros (seps & E & Hne & Hf & Hs & Hp). apply app_inv_head in E as ->. destruct (Nat.eqb_spec (length p) 0) as [El|El].
    + rewrite Hp by (by destruct p). cbn. by rewrite Hf, bool_decide_false.
    + rewrite leading_separators_spec by done. by rewrite Hf, bool_decide_false.
Qed.

(** The name the entry shows has a terminator. *)
Definition terminated (e : Entry) : Prop :=
  e.(aba_counter) = UNINITIALIZED_ENTRY \/ is_Some (terminator (slot e (e.(aba_counter) - 1))).

Section listing.
Context `{Profile}.

Lemma terminator_text v n : terminator v = Some n -> text v = take n v /\ length (text v) = n /\ (n < length v)%nat.
Proof.
  intros E. pose proof (text_length v) as El. rewrite E in El. split_and!; [unfold text; by rewrite E|done|].
  apply terminator_spec in E as [E _]. by eapply lookup_lt_Some.
Qed.

Lemma take_prefix_iff (p t : list Z) : take (length p) t = p <-> p `prefix_of` t.
Proof. split; [intros E; rewrite <- E; apply prefix_take|intros [r ->]; apply take_app_length]. Qed.

Lemma take_text v n : (n <= length (text v))%nat -> take n v = take n (text v).
Proof. intros Hn. rewrite <- (text_take v) at 1. rewrite take_take. by rewrite Nat.min_l. Qed.

Lemma file_of_short p t : (length t <= length p)%nat -> file_of p t = None.
Proof.
  intros Hl. destruct (file_of p t) as [f|] eqn:E; [|done]. apply file_of_spec in E as (seps & -> & Hne & _).
  rewrite !length_app in Hl. destruct f; [done|]. cbn in Hl. lia.
Qed.

Lemma entry_is_set_ok e : entry_ok e -> terminated e -> entry_is_set e = Ret (negb (bool_decide (name_of e = []))).
Proof.
  intros He Ht. pose proof He as ((Hc & _) & _). unfold entry_is_set, name_of, UNINITIALIZED_ENTRY in *.
  destruct (Z.eqb_spec (aba_counter e) 1) as [|Hne]; [done|]. rewrite usub_ok by lia. cbn [outcome_bind].
  destruct Ht as [|[n En]]; [done|]. pose proof (slot_length e (aba_counter e - 1) He) as Hl.
  destruct (slot e (aba_counter e - 1)) as [|c v]; [done|]. change (index (c :: v) 0) with (Ret c). cbn [outcome_bind].
  f_equal. f_equal. unfold text in *. cbn in *. destruct (Z.eqb_spec c 0); cbn.
  - done.
  - by destruct (terminator v).
Qed.

Lemma copy_front_pad f : (length f <= 108)%nat -> copy_front zeros f = Ret (pad f).
Proof.
  intros Hf. unfold copy_front, zeros, pad. rewrite (proj2 (Z.leb_le _ _)).
  - by rewrite drop_replicate.
  - unfold zlength. rewrite length_replicate. change (Z.to_nat MAX_UDS_NAME_LEN) with 108%nat. lia.
Qed.

Lemma list_entry_spec path e :
  entry_ok e -> terminated e -> is_Some (terminator path) ->
  list_entry path (length (text path)) e = Ret (pad <$> file_of (text path) (name_of e)).
Proof.
  intros He Ht [pn Epn]. unfold list_entry. rewrite entry_is_set_ok by done. cbn [outcome_bind].
  case_bool_decide as En; cbn [negb].
  { rewrite En, file_of_short by (cbn; lia). done. }
  destruct (entry_get_ok e He) as (v & Eg & Hv & Et). rewrite Eg. cbn [outcome_bind].
  assert (Ev : c_string_length v = Ret (length (name_of e))).
  { unfold c_string_length. rewrite <- Et, <- text_length. destruct (terminator v) as [n|] eqn:E; [done|].
    destruct En. rewrite <- Et. unfold text. by rewrite E. }
  rewrite Ev. cbn [outcome_bind]. rewrite (proj2 (Nat.eqb_neq _ _)) by (by destruct (name_of e)). cbn [orb].
  rewrite <- Et. rewrite text_take. destruct (Nat.leb_spec (length (text v)) (length (text path))) as [Hle|Hgt].
  { by rewrite file_of_short. }
  rewrite text_take, (take_text v) by lia. unfold file_of.
  destruct (decide (text path `prefix_of` text v)) as [Hp|Hp]; last first.
  { rewrite !bool_decide_false by (by rewrite ?take_prefix_iff). done. }
  rewrite !bool_decide_true by (by rewrite ?take_prefix_iff). cbn [negb].
  remember (drop (length (text path)) (text v)) as rest eqn:Er.
  assert (Hrest : length rest = (length (text v) - length (text path))%nat) by (by rewrite Er, length_drop).
  assert (Htv : (length (text v) <= 108)%nat) by (rewrite <- Hv; apply prefix_length, text_prefix).
  assert (Hsplit : forall k f, drop k rest = f ->
    (if existsb is_separator (drop (length (text path) + k) (text v)) then Ret None
     else if (length (text v) <=? length (text path) + k)%nat then Ret None
     else let! file_name := copy_front zeros (drop (length (text path) + k) (text v)) in Ret (Some file_name)) =
    Ret (pad <$> (if existsb is_separator f || bool_decide (f = []) then None else Some f))).
  { intros k f <-. rewrite <- drop_drop, <- Er. destruct (existsb _ _); [done|]. cbn [orb].
    assert (Hlen : length (drop k rest) = (length rest - k)%nat) by apply length_drop.
    case_bool_decide as Hf.
    - rewrite Hf in Hlen. cbn in Hlen. by rewrite (proj2 (Nat.leb_le _ _)) by lia.
    - rewrite (proj2 (Nat.leb_gt _ _)); [|destruct (drop k rest); [done|cbn in Hlen; lia]].
      rewrite copy_front_pad by lia. done. }
  destruct (Nat.eqb_spec (length (text path)) 0) as [E0|E0]; by apply Hsplit.
Qed.

Lemma list_entries_spec path m :
  Forall entry_ok m -> Forall terminated m -> is_Some (terminator path) ->
  list_entries path (length (text path)) m = Ret (omap (fun e => pad <$> file_of (text path) (name_of e)) m).
Proof.
  intros Hm Ht Hp. induction m as [|e m IH]; [done|]. apply Forall_cons in Hm as [He Hm]. apply Forall_cons in Ht as [Hte Ht].
  cbn [list_entries]. rewrite list_entry_spec by done. cbn [outcome_bind]. rewrite IH by done. cbn.
  by destruct (file_of _ _).
Qed.

End listing.

(** Listing a directory returns, padded to the length of the array, exactly the names of the ports that consist of
    the directory, separators and a name without separators. *)
Theorem port_to_uds_list `{Profile} m path p :
  map_ok m -> Forall terminated m -> normalized_name path = Ret p -> is_Some (terminator p) ->
  exists l, list_ m path = Ret l /\
    forall r, r ∈ l <-> exists t f, t ∈ name_of <$> m /\ in_directory (text p) t f /\ r = pad f.
Proof.
  intros [_ Hm] Ht Ep [n En]. unfold list_. rewrite Ep. cbn [outcome_bind]. unfold c_string_length. rewrite En. cbn [outcome_bind].
  destruct (terminator_text p n En) as (_ & <- & _). rewrite list_entries_spec by eauto. eexists. split; [done|].
  intros r. rewrite list_elem_of_omap. split.
  - intros (e & He & E). destruct (file_of _ _) as [f|] eqn:Ef; [|done]. injection E as <-. apply file_of_spec in Ef.
    exists (name_of e), f. split; [|done]. by apply list_elem_of_fmap_2.
  - intros (t & f & (e & -> & He)%list_elem_of_fmap & Hd & ->). exists e. split; [done|]. apply file_of_spec in Hd. by rewrite Hd.
Qed.

Lemma set_terminated m (port : nat) name v m' :
  Forall terminated m -> Forall entry_ok m -> normalized_name name = Ret v -> is_Some (terminator v) ->
  set m (Z.of_nat port) name = Ret m' -> (forall e, m !! port = Some e -> aba_counter e + 1 < 2 ^ 64) -> Forall terminated m'.
Proof.
  intros Ht Hm Ev Hv. unfold set. rewrite Ev. cbn [outcome_bind]. unfold index. rewrite (proj2 (Z.ltb_ge _ _)) by lia. rewrite Nat2Z.id.
  destruct (m !! port) as [e|] eqn:Ee; [|done]. cbn [outcome_bind]. unfold entry_set, copy_front.
  pose proof (normalized_name_length _ _ Ev) as Hl.
  rewrite (proj2 (Z.leb_le _ _)) by (unfold zlength; rewrite Hl; vm_compute; congruence). cbn [outcome_bind].
  unfold update. destruct (_ || _); [done|]. rewrite Nat2Z.id. intros [= <-] Hb. specialize (Hb e eq_refl).
  assert (He : entry_ok e) by (by eapply Forall_lookup_1). destruct He as ((Hc & _) & _). unfold UNINITIALIZED_ENTRY in Hc.
  apply Forall_insert; [done|]. right. cbn. rewrite wrapping_add_small by lia. replace (aba_counter e + 1 - 1) with (aba_counter e) by lia.
  rewrite drop_ge by (rewrite Hl; vm_compute; lia). rewrite app_nil_r. unfold slot, set_slot. cbn. by destruct (_ =? _).
Qed.

Lemma initialize_terminated : Forall terminated initialize.
Proof. apply Forall_replicate. by left. Qed.

(** A map with the name [/ab] at port 5. *)
Lemma one_name : exists m, set initialize 5 [47; 97; 98] = Ret m /\ map_ok m /\ Forall terminated m /\ [47; 97; 98] ∈ name_of <$> m.
Proof.
  assert (Elt : initialize !! 5%nat = Some entry_initialize) by (apply initialize_lookup_lt; vm_compute; reflexivity).
  destruct (set_ok initialize 5 entry_initialize [47; 97; 98] (pad [47; 97; 98]) initialize_ok Elt) as (m & Es & Hm & En);
    [vm_compute; reflexivity..|].
  exists m. split; [done|]. split; [done|]. split.
  - apply (set_terminated initialize 5 [47; 97; 98] (pad [47; 97; 98]) m initialize_terminated (proj2 initialize_ok)); [| |exact Es|].
    + vm_compute. reflexivity.
    + eexists. vm_compute. reflexivity.
    + intros e. rewrite Elt. intros [= <-]. vm_compute. reflexivity.
  - rewrite En. change (text (pad [47; 97; 98])) with [47; 97; 98]. apply (list_elem_of_lookup_2 _ 5).
    apply list_lookup_insert_eq. rewrite length_fmap. by eapply lookup_lt_Some.
Qed.

Lemma port_to_uds_list_witness :
  exists m l, set initialize 5 [47; 97; 98] = Ret m /\ list_ (H := dev) m [47] = Ret l /\ pad [97; 98] ∈ l.
Proof.
  destruct one_name as (m & Es & Hm & Ht & Hn).
  destruct (port_to_uds_list (H := dev) m [47] (pad [47]) Hm Ht) as (l & El & Hl).
  - vm_compute. reflexivity.
  - eexists. vm_compute. reflexivity.
  - exists m, l. split; [exact Es|]. split; [exact El|]. apply Hl. exists [47; 97; 98], [97; 98]. split; [exact Hn|].
    split; [|reflexivity]. exists []. split; [vm_compute; reflexivity|]. split; [congruence|]. split; [vm_compute; reflexivity|].
    split; [constructor|reflexivity].
Defined.

(** The files of a directory are also listed under a prefix of its name: with the name [/ab], the directory [/a] has the file [b]. *)
Theorem port_to_uds_list_partial :
  match set initialize 5 [47; 97; 98] with
  | Ret m => match list_ (H := dev) m [47; 97] with Ret l => bool_decide (l = [pad [98]]) | Panic => false end
  | Panic => false
  end = true.
Proof. vm_compute. reflexivity. Qed.

(** ** A writer and readers of an entry *)

(** [set] clears the slot, fills it and advances the counter; [get] reads the slot and checks the counter. *)
Inductive writer :=
| WIdle
| WClear (current : Z) (value : list Z) (i : nat)
| WCopy (current : Z) (value : list Z) (i : nat)
| WAdd (current : Z) (value : list Z).

Inductive reader :=
| RIdle
| RRead (current : Z) (result : list Z)
| RCheck (current : Z) (result : list Z)
| RDone (current : Z) (result : list Z).

(** The entry, its writer and, as a record, the values it was set to. *)
Record cell := { entry : Entry; writing : writer; history : list (list Z) }.

Inductive action := Set_ (value : list Z) | Write | Get (i : nat) | Read (i : nat).

(* src/iceoryx2_pal/posix/src/windows/win32_udp_port_to_uds_name.rs:66-73 set *)
Definition writer_step (s : cell) : option cell :=
  let e := s.(entry) in
  match s.(writing) with
  | WIdle => None
  | WClear c v i =>
      Some (if (i <? 108)%nat
            then {| entry := set_slot e c (<[i := 0]> (slot e c)); writing := WClear c v (S i); history := s.(history) |}
            else {| entry := e; writing := WCopy c v 0; history := s.(history) |})
  | WCopy c v i =>
      Some (match v !! i with
            | Some b => {| entry := set_slot e c (<[i := b]> (slot e c)); writing := WCopy c v (S i); history := s.(history) |}
            | None => {| entry := e; writing := WAdd c v; history := s.(history) |}
            end)
  | WAdd c v =>
      Some {| entry := set_counter e (wrapping_add 64 e.(aba_counter) 1); writing := WIdle; history := s.(history) ++ [pad v] |}
  end.

(** [current] is loaded once, before the loop. *)
(* src/iceoryx2_pal/posix/src/windows/win32_udp_port_to_uds_name.rs:75-90 get *)
Definition reader_step (e : Entry) (r : reader) : option reader :=
  match r with
  | RIdle => None
  | RRead c acc =>
      if c =? UNINITIALIZED_ENTRY then Some (RDone c zeros)
      else match slot e (c - 1) !! length acc with
           | Some b => Some (RRead c (acc ++ [b]))
           | None => Some (RCheck c acc)
           end
  | RCheck c acc => Some (if c =? e.(aba_counter) then RDone c acc else RRead c [])
  | RDone _ _ => None
  end.

Definition act (a : action) (s : cell * list reader) : option (cell * list reader) :=
  match a with
  | Set_ v =>
      match s.1.(writing) with
      | WIdle => if zlength v <=? MAX_UDS_NAME_LEN
                 then Some ({| entry := s.1.(entry); writing := WClear s.1.(entry).(aba_counter) v 0; history := s.1.(history) |}, s.2)
                 else None
      | _ => None
      end
  | Write => c ← writer_step s.1; Some (c, s.2)
  | Get i => match s.2 !! i with
             | Some (RIdle | RDone _ _) => Some (s.1, <[i := RRead s.1.(entry).(aba_counter) []]> s.2)
             | _ => None
             end
  | Read i => r ← s.2 !! i; r' ← reader_step s.1.(entry) r; Some (s.1, <[i := r']> s.2)
  end.

Definition start (n : nat) : cell * list reader :=
  ({| entry := entry_initialize; writing := WIdle; history := [] |}, replicate n RIdle).

(** What the writer has made of the slot it writes. *)
Definition written (e : Entry) (w : writer) : Prop :=
  match w with
  | WIdle => True
  | WClear c v i => c = e.(aba_counter) /\ zlength v <= MAX_UDS_NAME_LEN /\ (i <= 108)%nat /\ take i (slot e c) = replicate i 0
  | WCopy c v i => c = e.(aba_counter) /\ zlength v <= MAX_UDS_NAME_LEN /\ (i <= length v)%nat /\
                   slot e c = take i v ++ replicate (108 - i) 0
  | WAdd c v => c = e.(aba_counter) /\ zlength v <= MAX_UDS_NAME_LEN /\ slot e c = pad v
  end.

Definition read_ok (s : cell) (r : reader) : Prop :=
  let e := s.(entry) in
  match r with
  | RIdle => True
  | RRead c acc | RCheck c acc =>
      1 <= c <= e.(aba_counter) /\ (c = e.(aba_counter) -> acc = take (length acc) (slot e (c - 1))) /\
      (match r with RCheck _ _ => 1 < c /\ length acc = 108%nat | _ => (length acc <= 108)%nat end)
  | RDone c v => if c =? 1 then v = zeros else 1 < c <= e.(aba_counter) /\ s.(history) !! Z.to_nat (c - 2) = Some v
  end.

Record inv (s : cell * list reader) : Prop := {
  inv_ok : entry_ok s.1.(entry);
  inv_counter : s.1.(entry).(aba_counter) = 1 + zlength s.1.(history);
  inv_value : forall v, last s.1.(history) = Some v -> slot s.1.(entry) (s.1.(entry).(aba_counter) - 1) = v;
  inv_written : written s.1.(entry) s.1.(writing);
  inv_readers : Forall (read_ok s.1) s.2;
}.

Lemma parity c : (c - 1) mod 2 = 1 - c mod 2.
Proof. pose proof (Z.mod_pos_bound c 2 ltac:(lia)). destruct (Z.eq_dec (c mod 2) 0); Z.div_mod_to_equations; lia. Qed.

Lemma slot_set e c v : slot (set_slot e c v) c = v /\ slot (set_slot e c v) (c - 1) = slot e (c - 1) /\ aba_counter (set_slot e c v) = aba_counter e.
Proof.
  unfold slot, set_slot. rewrite parity. pose proof (Z.mod_pos_bound c 2 ltac:(lia)).
  destruct (Z.eqb_spec (c mod 2) 0) as [->|]; [done|]. cbn. by replace (c mod 2) with 1 by lia.
Qed.

Lemma set_slot_ok e c v : entry_ok e -> length v = 108%nat -> entry_ok (set_slot e c v).
Proof.
  intros (Hc & H0 & H1) Hv. unfold entry_ok, set_slot. assert (zlength v = MAX_UDS_NAME_LEN) by (unfold zlength; by rewrite Hv).
  by destruct (_ =? _).
Qed.

(** A write to the slot that is not shown. *)
Lemma write_inv e w h rs w' v :
  inv ({| entry := e; writing := w; history := h |}, rs) -> length v = 108%nat ->
  written (set_slot e (aba_counter e) v) w' ->
  inv ({| entry := set_slot e (aba_counter e) v; writing := w'; history := h |}, rs).
Proof.
  intros [Hok Hc Hv _ Hr] Hl Hw. cbn in *. destruct (slot_set e (aba_counter e) v) as (Es & Eo & Ea). split; cbn.
  - by apply set_slot_ok.
  - by rewrite Ea.
  - intros x Ex. rewrite Ea, Eo. by apply Hv.
  - done.
  - eapply Forall_impl; [exact Hr|]. intros [|c acc|c acc|c x]; unfold read_ok; cbn; rewrite ?Ea; try done.
    + intros (H1 & H2 & H3). split_and!; try done; try lia. intros ->. rewrite Eo. by apply H2.
    + intros (H1 & H2 & H3). split_and!; try done; try lia. intros ->. rewrite Eo. by apply H2.
Qed.

Lemma same_entry_inv e w h rs w' :
  inv ({| entry := e; writing := w; history := h |}, rs) -> written e w' -> inv ({| entry := e; writing := w'; history := h |}, rs).
Proof. intros [Hok Hc Hv _ Hr] Hw. by split. Qed.

Lemma copied_byte (i : nat) (b : Z) v : v !! i = Some b -> zlength v <= MAX_UDS_NAME_LEN ->
  <[i := b]> (take i v ++ replicate (108 - i) 0) = take (S i) v ++ replicate (108 - S i) 0.
Proof.
  intros Eb Hl. pose proof (lookup_lt_Some _ _ _ Eb) as Hlt. unfold zlength, MAX_UDS_NAME_LEN in Hl.
  rewrite insert_app_r_alt by (rewrite length_take; lia). rewrite length_take, Nat.min_l, Nat.sub_diag by lia.
  replace (108 - i)%nat with (S (108 - S i)) by lia. cbn [replicate]. rewrite (take_S_r v i b Eb). by rewrite <- app_assoc.
Qed.

Lemma cleared_byte (i : nat) (l : list Z) : (i < length l)%nat -> take i l = replicate i 0 -> take (S i) (<[i := 0]> l) = replicate (S i) 0.
Proof.
  intros Hi E. rewrite (take_S_r _ i 0) by (by apply list_lookup_insert_eq). rewrite take_insert_ge by lia. rewrite E.
  by rewrite replicate_S_end.
Qed.

Lemma writer_inv s s' rs : inv (s, rs) -> 2 + zlength s'.(history) < 2 ^ 64 -> writer_step s = Some s' -> inv (s', rs).
Proof.
  intros Hi Hb E. destruct s as [e w h]. pose proof (inv_written _ Hi) as Hw. pose proof (inv_ok _ Hi) as Hok. cbn in Hw, Hok.
  pose proof (slot_length e (aba_counter e) Hok) as Hlen. unfold writer_step in E. cbn [writing entry history] in E. destruct w as [|c v i|c v i|c v]; [done|..].
  - cbn in Hw. destruct Hw as (-> & Hv & Hile & Ht). destruct (Nat.ltb_spec i 108) as [Hlt|Hge]; injection E as <-.
    + apply (write_inv e _ h rs _ _ Hi); [by rewrite length_insert|]. destruct (slot_set e (aba_counter e) (<[i := 0]> (slot e (aba_counter e)))) as (Es & _ & Ea).
      cbn. rewrite Ea, Es. split_and!; try done; try lia. apply cleared_byte; [lia|done].
    + apply (same_entry_inv _ _ _ _ _ Hi). cbn. split_and!; try done; try lia.
      rewrite take_ge in Ht by lia. rewrite Ht. cbn. by replace i with 108%nat by lia.
  - cbn in Hw. destruct Hw as (-> & Hv & Hile & Ht). destruct (v !! i) as [b|] eqn:Eb; injection E as <-.
    + apply (write_inv e _ h rs _ _ Hi); [by rewrite length_insert|]. destruct (slot_set e (aba_counter e) (<[i := b]> (slot e (aba_counter e)))) as (Es & _ & Ea).
      cbn. rewrite Ea, Es. pose proof (lookup_lt_Some _ _ _ Eb). split_and!; try done; try lia. rewrite Ht. by apply copied_byte.
    + apply (same_entry_inv _ _ _ _ _ Hi). cbn. split_and!; try done. apply lookup_ge_None in Eb.
      rewrite Ht. unfold pad. rewrite take_ge by lia. by replace i with (length v) by lia.
  - cbn in Hw. destruct Hw as (-> & Hv & Ht). injection E as <-. cbn in Hb. destruct Hi as [_ Hc Hval _ Hr]. cbn in *.
    pose proof (zlength_nonneg h). rewrite zlength_app in Hb. change (zlength [pad v]) with 1 in Hb.
    assert (Ew : wrapping_add 64 (aba_counter e) 1 = aba_counter e + 1) by (apply wrapping_add_small; lia). split; cbn; rewrite ?Ew.
    + destruct Hok as (? & ? & ?). unfold entry_ok, UNINITIALIZED_ENTRY in *. cbn. lia.
    + rewrite zlength_app. change (zlength [pad v]) with 1. lia.
    + intros x. rewrite last_snoc. intros [= <-]. replace (aba_counter e + 1 - 1) with (aba_counter e) by lia. done.
    + done.
    + eapply Forall_impl; [exact Hr|]. intros [|c acc|c acc|c x]; unfold read_ok; cbn; rewrite ?Ew; try done.
      * intros (H1 & H2 & H3). split_and!; try done; lia.
      * intros (H1 & H2 & H3). split_and!; try done; lia.
      * destruct (c =? 1); [done|]. intros (H1 & H2). split; [lia|]. by apply lookup_app_l_Some.
Qed.

Lemma reader_inv s rs i r r' : inv (s, rs) -> rs !! i = Some r -> reader_step s.(entry) r = Some r' -> inv (s, <[i := r']> rs).
Proof.
  intros Hi Ei E. pose proof Hi as [Hok Hc Hv Hw Hr]. cbn in *. split; cbn; try done. apply Forall_insert; [done|].
  assert (Hri : read_ok s r) by (by eapply Forall_lookup_1). unfold read_ok in *.
  destruct r as [|c acc|c acc|c x]; cbn in E; [done| | |done].
  - destruct Hri as (Hle & Hacc & Hlen). unfold UNINITIALIZED_ENTRY in E. destruct (Z.eqb_spec c 1) as [->|Hne]; [by injection E as <-|].
    pose proof (slot_length s.(entry) (c - 1) Hok) as Hsl. destruct (slot _ _ !! length acc) as [b|] eqn:Eb; injection E as <-.
    + pose proof (lookup_lt_Some _ _ _ Eb). rewrite length_app. cbn [length]. split_and!; try lia. intros Ec.
      rewrite Nat.add_1_r. rewrite (take_S_r _ _ b Eb). f_equal. by apply Hacc.
    + apply lookup_ge_None in Eb. split_and!; try done; lia.
  - destruct Hri as (Hle & Hacc & H1 & Hlen). injection E as <-. destruct (Z.eqb_spec c (aba_counter (entry s))) as [Ec|Hne].
    + rewrite (proj2 (Z.eqb_neq _ _)) by lia. split; [lia|]. specialize (Hacc Ec).
      pose proof (slot_length s.(entry) (c - 1) Hok). rewrite take_ge in Hacc by lia.
      assert (Hlast : last (history s) = Some acc).
      { destruct (last (history s)) as [v|] eqn:El; [|apply last_None in El; rewrite El in Hc; unfold zlength in Hc; cbn in Hc; lia].
        f_equal. rewrite Hacc, Ec. symmetry. by apply Hv. }
      rewrite last_lookup in Hlast. rewrite <- Hlast. f_equal. unfold zlength in Hc. lia.
    + split_and!; try done; cbn; lia.
Qed.

Lemma uds_act_inv a s s' : 2 + zlength s'.1.(history) < 2 ^ 64 -> act a s = Some s' -> inv s -> inv s'.
Proof.
  destruct s as [g rs]. intros Hb E Hi. destruct a as [v| |i|i]; cbn in E.
  - destruct g as [e w h]. cbn in E. destruct w; try done. destruct (_ <=? _) eqn:El; [|done]. bool_to_prop. injection E as <-.
    apply (same_entry_inv _ _ _ _ _ Hi). cbn. split_and!; try done. lia.
  - destruct (writer_step g) as [g'|] eqn:Ew; [|done]. injection E as <-. by eapply writer_inv.
  - destruct (rs !! i) as [r|] eqn:Ei; [|done]. assert (s' = (g, <[i := RRead g.(entry).(aba_counter) []]> rs)) as -> by (destruct r; naive_solver).
    pose proof Hi as [Hok Hc Hv Hw Hr]. cbn in *. split; cbn; try done. apply Forall_insert; [done|]. pose proof (zlength_nonneg g.(history)).
    unfold read_ok. split_and!; cbn; try done; lia.
  - destruct (rs !! i) as [r|] eqn:Ei; [|done]. cbn in E. destruct (reader_step _ _) as [r'|] eqn:Er; [|done]. injection E as <-.
    by eapply reader_inv.
Qed.

Lemma act_history_grows a s s' : act a s = Some s' -> zlength s.1.(history) <= zlength s'.1.(history).
Proof.
  destruct s as [[e w h] rs]. destruct a as [v| |i|i]; cbn.
  - destruct w; try done. destruct (_ <=? _); [|done]. by intros [= <-].
  - unfold writer_step. cbn [writing entry history]. destruct w as [|c v i|c v i|c v]; [done|..].
    + destruct (i <? 108)%nat; by intros [= <-].
    + destruct (v !! i); by intros [= <-].
    + intros [= <-]. cbn. rewrite zlength_app. pose proof (zlength_nonneg [pad v]). lia.
  - destruct (rs !! i) as [[]|]; try done; by intros [= <-].
  - destruct (rs !! i) as [r|]; [|done]. cbn. destruct (reader_step _ _); [|done]. by intros [= <-].
Qed.

Lemma uds_start_inv n : inv (start n).
Proof.
  split; [|done..|by apply Forall_replicate]. split; vm_compute; intuition congruence.
Qed.

Lemma uds_reachable s0 s :
  inv s0 -> rtc (act_step act) s0 s -> 2 + zlength s.1.(history) < 2 ^ 64 -> inv s.
Proof.
  intros Hs0 Hs Hb.
  apply (rtc_bounded_invariant (act_step act) (fun s => zlength s.1.(history)) (2 ^ 64 - 3) inv s0 s); [|..|done|done|lia].
  - intros a b [x t E]. by eapply act_history_grows.
  - intros a b [x t E] Hle. eapply uds_act_inv; [|done]. lia.
Qed.

(** C39: one process names a port again and again while others read the name, byte by byte.  A name that was read is
    never a mixture: it is the name the entry was set to when the counter had the value the reader started with, or
    empty when the port had no name by then. *)
Theorem entry_get_consistent n s i c v :
  rtc (act_step act) (start n) s -> 2 + zlength s.1.(history) < 2 ^ 64 ->
  s.2 !! i = Some (RDone c v) ->
  c = UNINITIALIZED_ENTRY /\ v = zeros \/ UNINITIALIZED_ENTRY < c /\ s.1.(history) !! Z.to_nat (c - 2) = Some v.
Proof.
  intros Hs Hb Ei. pose proof (uds_reachable _ _ (uds_start_inv n) Hs Hb) as Hi.
  assert (Hr : read_ok s.1 (RDone c v)) by (eapply Forall_lookup_1; [apply Hi|done]).
  cbn in Hr. unfold UNINITIALIZED_ENTRY. destruct (Z.eqb_spec c 1); [by left|]. right. split; [lia|]. apply Hr.
Qed.

(** The port is named twice; a reader that starts between the two and is done before the second gets the first name. *)
#[local] Definition naming (v : list Z) (k : nat) : list action := Set_ v :: replicate (111 + k) Write.
#[local] Definition reading : list action := Get 0 :: replicate 110 (Read 0).

#[local] Definition read_state : cell * list reader :=
  default (start 1) (run_schedule act (naming [47; 97] 2 ++ reading ++ naming [47; 98; 99] 3) (start 1)).

Lemma read_reached : rtc (act_step act) (start 1) read_state.
Proof. apply (run_schedule_reachable _ (naming [47; 97] 2 ++ reading ++ naming [47; 98; 99] 3)). vm_compute. reflexivity. Qed.

Lemma entry_get_consistent_witness :
  read_state.2 !! 0%nat = Some (RDone 2 (pad [47; 97])) /\ read_state.1.(entry).(aba_counter) = 3 /\
  (2 = UNINITIALIZED_ENTRY /\ pad [47; 97] = zeros \/ UNINITIALIZED_ENTRY < 2 /\ read_state.1.(history) !! Z.to_nat (2 - 2) = Some (pad [47; 97])).
Proof.
  assert (E : read_state.2 !! 0%nat = Some (RDone 2 (pad [47; 97]))) by (vm_compute; reflexivity).
  split; [exact E|]. split; [vm_compute; reflexivity|].
  apply (entry_get_consistent 1 read_state 0%nat 2 (pad [47; 97]) read_reached); [vm_compute; reflexivity|exact E].
Defined.

Definition in_loop (c : Z) (r : reader) : Prop := match r with RRead d _ | RCheck d _ => d = c | _ => False end.

(** A reader that was overtaken by the writer never returns: it compares the counter with the value it loaded before the loop. *)
Theorem entry_get_never_returns s s' i c r :
  inv s -> s.2 !! i = Some r -> in_loop c r -> UNINITIALIZED_ENTRY < c < s.1.(entry).(aba_counter) ->
  rtc (act_step act) s s' -> 2 + zlength s'.1.(history) < 2 ^ 64 ->
  exists r', s'.2 !! i = Some r' /\ in_loop c r'.
Proof.
  unfold UNINITIALIZED_ENTRY. intros Hi Ei Hr Hc Hs Hb.
  assert (H : inv s' /\ c < s'.1.(entry).(aba_counter) /\ exists r', s'.2 !! i = Some r' /\ in_loop c r'); [|by destruct H as (_ & _ & ?)].
  apply (rtc_bounded_invariant (act_step act) (fun s => zlength s.1.(history)) (2 ^ 64 - 3)
    (fun s => inv s /\ c < s.1.(entry).(aba_counter) /\ exists r', s.2 !! i = Some r' /\ in_loop c r') s s').
  - intros a b [x t E]. by eapply act_history_grows.
  - intros a b [x t E] Hle (Hia & Hca & r' & Er & Hl). pose proof (uds_act_inv x a t ltac:(lia) E Hia) as Hib. split; [done|].
    pose proof (act_history_grows _ _ _ E) as Hgrow. rewrite (inv_counter _ Hia) in Hca. rewrite (inv_counter _ Hib).
    split; [lia|]. destruct a as [g rs], x as [v| |j|j]; cbn in *.
    + destruct (writing g); try done. destruct (_ <=? _); [|done]. injection E as <-. eauto.
    + destruct (writer_step g); [|done]. injection E as <-. eauto.
    + destruct (decide (i = j)) as [<-|Hne]; [rewrite Er in E; by destruct r'|].
      destruct (rs !! j) as [[]|]; try done; injection E as <-; cbn; exists r'; by rewrite list_lookup_insert_ne.
    + destruct (decide (i = j)) as [<-|Hne]; last first.
      { destruct (rs !! j) as [x|]; [|done]. cbn in E. destruct (reader_step _ _); [|done]. injection E as <-. cbn.
        exists r'. by rewrite list_lookup_insert_ne. }
      rewrite Er in E. cbn in E. destruct (reader_step (entry g) r') as [r2|] eqn:Es; [|done]. injection E as <-. cbn.
      exists r2. split; [apply list_lookup_insert_eq; by eapply lookup_lt_Some|].
      destruct r' as [|d acc|d acc|]; try done; cbn in Hl; subst d; cbn in Es; unfold UNINITIALIZED_ENTRY in Es.
      * rewrite (proj2 (Z.eqb_neq _ _)) in Es by lia. destruct (slot _ _ !! _); by injection Es as <-.
      * rewrite (proj2 (Z.eqb_neq _ _)) in Es by (pose proof (inv_counter _ Hia); cbn in *; lia). by injection Es as <-.
  - done.
  - split; [done|]. split; [lia|]. eauto.
  - lia.
Qed.

End PortToUds.
