(* ===== verification/HandleTranslator.v ===== *)
(** * File descriptors on a platform without them

    [HandleTranslator] (iceoryx2_pal/posix/src/windows/win32_handle_translator.rs) hands out
    file descriptors for the handles of the platform.  The free descriptors form a list
    through the table.  Every operation runs under one mutex and is one step here.  The first
    local socket attaches the translator to the shared map of [PortToUds], the last one
    detaches it. *)

From S2P Require Import Prelude PortToUds.

Module HandleTranslator.
Module P := PortToUds.PortToUds.

(* src/iceoryx2_pal/posix/src/windows/win32_handle_translator.rs:26-26 MAX_SUPPORTED_FD_HANDLES *)
Definition MAX_SUPPORTED_FD_HANDLES : Z := 1024.

(** The address of a local socket is its port. *)
(* src/iceoryx2_pal/posix/src/windows/win32_handle_translator.rs:30-36 FdHandleEntry *)
Inductive FdHandleEntry :=
| Handle (handle state_handle lock_state : Z)
| DirectoryStream (id : Z)
| Socket (fd : Z)
| UdsDatagramSocket (fd : Z) (address : option Z) (recv_timeout : option Z)
| NextFreeFd (fd : Z).

(** Local sockets are equal when their descriptors are. *)
(* src/iceoryx2_pal/posix/src/windows/win32_handle_translator.rs:55-57 eq *)
Definition eq_entry (a b : FdHandleEntry) : bool :=
  match a, b with
  | Handle h s l, Handle h' s' l' => (h =? h') && (s =? s') && (l =? l')
  | DirectoryStream n, DirectoryStream n' => n =? n'
  | Socket f, Socket f' => f =? f'
  | UdsDatagramSocket f _ _, UdsDatagramSocket f' _ _ => f =? f'
  | NextFreeFd f, NextFreeFd f' => f =? f'
  | _, _ => false
  end.

(** [attached] says whether there is a port translator; [map] is the content of the shared
    memory, which outlives it. *)
(* src/iceoryx2_pal/posix/src/windows/win32_handle_translator.rs:87-93 HandleTranslator *)
Record HandleTranslator := {
  fd2handle : list FdHandleEntry;
  free_fd_list_start : Z;
  attached : bool;
  map : list P.Entry;
  uds_datagram_counter : Z;
}.

Definition set_table (t : HandleTranslator) l s :=
  {| fd2handle := l; free_fd_list_start := s; attached := t.(attached); map := t.(map); uds_datagram_counter := t.(uds_datagram_counter) |}.
Definition set_uds (t : HandleTranslator) b m c :=
  {| fd2handle := t.(fd2handle); free_fd_list_start := t.(free_fd_list_start); attached := b; map := m; uds_datagram_counter := c |}.

Definition is_uds (e : FdHandleEntry) : bool := match e with UdsDatagramSocket _ _ _ => true | _ => false end.
Definition is_free (e : FdHandleEntry) : bool := match e with NextFreeFd _ => true | _ => false end.

Section translator.
Context `{Profile}.
Implicit Types (t : HandleTranslator) (e : FdHandleEntry) (fd : Z).

(** The table after its initialization; the map is what the shared memory holds. *)
(* src/iceoryx2_pal/posix/src/windows/win32_handle_translator.rs:113-132 get_instance *)
Definition get_instance (m : list P.Entry) : HandleTranslator :=
  {| fd2handle := (fun i => NextFreeFd (Z.of_nat i + 1)) <$> seq 0 (Z.to_nat MAX_SUPPORTED_FD_HANDLES);
     free_fd_list_start := 0; attached := false; map := m; uds_datagram_counter := 0 |}.

(** [fd as usize] of an [int]. *)
Definition as_usize fd : Z := cast 64 fd.

(** [shm]: what [PortToUds::new] does when it is called: it fails, or it maps the shared memory, which it has created or found. *)
(* src/iceoryx2_pal/posix/src/windows/win32_handle_translator.rs:154-189 add *)
Definition add (shm : option bool) t e : outcome (Z * HandleTranslator) :=
  let start := t.(free_fd_list_start) in
  if MAX_SUPPORTED_FD_HANDLES <=? start then Ret (-1, t)
  else
    let! free := index t.(fd2handle) start in
    match free with
    | NextFreeFd next_free_fd =>
        let! l := update t.(fd2handle) start e in
        let t := set_table t l next_free_fd in
        if is_uds e then
          let counter := t.(uds_datagram_counter) in
          if counter =? 0 then
            match shm with
            | None => Panic
            | Some has_created_shm =>
                Ret (start, set_uds t true (if has_created_shm then P.initialize else t.(map)) (wrapping_add 64 counter 1))
            end
          else Ret (start, set_uds t t.(attached) t.(map) (wrapping_add 64 counter 1))
        else Ret (start, t)
    | _ => Panic
    end.

(* src/iceoryx2_pal/posix/src/windows/win32_handle_translator.rs:191-202 get *)
Definition get t fd : option FdHandleEntry :=
  if as_usize fd <? zlength t.(fd2handle) then
    match t.(fd2handle) !! Z.to_nat (as_usize fd) with
    | Some (NextFreeFd _) => None
    | r => r
    end
  else None.

Fixpoint find_entry (l : list FdHandleEntry) (i : nat) e : option nat :=
  match l with
  | [] => None
  | x :: l => if eq_entry x e then Some i else find_entry l (S i) e
  end.

(* src/iceoryx2_pal/posix/src/windows/win32_handle_translator.rs:204-213 update *)
Definition update_ t e : HandleTranslator :=
  match find_entry t.(fd2handle) 0 e with
  | Some i => set_table t (<[i := e]> t.(fd2handle)) t.(free_fd_list_start)
  | None => t
  end.

(* src/iceoryx2_pal/posix/src/windows/win32_handle_translator.rs:215-225 get_fd *)
Definition get_fd t e : Z := match find_entry t.(fd2handle) 0 e with Some i => Z.of_nat i | None => -1 end.

(* src/iceoryx2_pal/posix/src/windows/win32_handle_translator.rs:242-254 get_socket *)
Definition get_socket t fd : outcome (option Z) :=
  let! e := index t.(fd2handle) (as_usize fd) in
  Ret (match e with Socket s => Some s | _ => None end).

(* src/iceoryx2_pal/posix/src/windows/win32_handle_translator.rs:356-373 remove_impl *)
Definition remove_impl t fd : outcome HandleTranslator :=
  let! e := index t.(fd2handle) (as_usize fd) in
  let! t :=
    match e with
    | UdsDatagramSocket _ address _ =>
        let counter := t.(uds_datagram_counter) in
        let c := wrapping_sub 64 counter 1 in
        if counter =? 1 then Ret (set_uds t false t.(map) c)
        else match address with
             | Some port =>
                 if t.(attached) then let! m := P.reset t.(map) port in Ret (set_uds t true m c) else Panic
             | None => Ret (set_uds t t.(attached) t.(map) c)
             end
    | _ => Ret t
    end in
  let! l := update t.(fd2handle) (as_usize fd) (NextFreeFd t.(free_fd_list_start)) in
  Ret (set_table t l (as_usize fd)).

(* src/iceoryx2_pal/posix/src/windows/win32_handle_translator.rs:256-260 remove *)
Definition remove t fd : outcome HandleTranslator := remove_impl t fd.

(* src/iceoryx2_pal/posix/src/windows/win32_handle_translator.rs:262-271 remove_entry *)
Definition remove_entry t e : outcome HandleTranslator :=
  match find_entry t.(fd2handle) 0 e with
  | Some i => remove_impl t (Z.of_nat i)
  | None => Ret t
  end.

(* src/iceoryx2_pal/posix/src/windows/win32_handle_translator.rs:273-283 contains_uds *)
Definition contains_uds t (name : list Z) : outcome bool := if t.(attached) then P.contains t.(map) name else Ret false.

(* src/iceoryx2_pal/posix/src/windows/win32_handle_translator.rs:285-295 remove_uds *)
Definition remove_uds t (name : list Z) : outcome (bool * HandleTranslator) :=
  if t.(attached) then
    let! r := P.remove t.(map) name in Ret (r.1, set_uds t t.(attached) r.2 t.(uds_datagram_counter))
  else Ret (false, t).

(* src/iceoryx2_pal/posix/src/windows/win32_handle_translator.rs:297-308 list_all_uds *)
Definition list_all_uds t (path : list Z) : outcome (list (list Z)) := if t.(attached) then P.list_ t.(map) path else Ret [].

(* src/iceoryx2_pal/posix/src/windows/win32_handle_translator.rs:310-334 set_uds_name *)
Definition set_uds_name t fd (port : Z) (name : list Z) : outcome HandleTranslator :=
  let! e := index t.(fd2handle) (as_usize fd) in
  let! l := match e with
            | UdsDatagramSocket s _ timeout => update t.(fd2handle) (as_usize fd) (UdsDatagramSocket s (Some port) timeout)
            | _ => Ret t.(fd2handle)
            end in
  if t.(attached) then
    let! m := P.set t.(map) port name in
    Ret (set_uds (set_table t l t.(free_fd_list_start)) true m t.(uds_datagram_counter))
  else Panic.

(* src/iceoryx2_pal/posix/src/windows/win32_handle_translator.rs:336-354 get_uds_port *)
Definition get_uds_port t (name : list Z) : outcome Z := if t.(attached) then P.get_port t.(map) name else Panic.

End translator.

(** ** The invariant *)

(** The free list from [start] on. *)
Fixpoint chain (l : list FdHandleEntry) (start : Z) (fs : list nat) : Prop :=
  match fs with
  | [] => start = MAX_SUPPORTED_FD_HANDLES
  | f :: fs => start = Z.of_nat f /\ exists n, l !! f = Some (NextFreeFd n) /\ chain l n fs
  end.

Definition uds_weight (e : FdHandleEntry) : Z := if is_uds e then 1 else 0.

(** The ports of the sockets have entries in the map. *)
Definition address_ok (e : FdHandleEntry) : Prop :=
  match e with UdsDatagramSocket _ (Some port) _ => 0 <= port < P.NUMBER_OF_PORTS | _ => True end.

Record inv (t : HandleTranslator) (fs : list nat) : Prop := {
  inv_length : zlength t.(fd2handle) = MAX_SUPPORTED_FD_HANDLES;
  inv_chain : chain t.(fd2handle) t.(free_fd_list_start) fs;
  inv_nodup : NoDup fs;
  inv_free : forall i e, t.(fd2handle) !! i = Some e -> (is_free e = true <-> i ∈ fs);
  inv_counter : t.(uds_datagram_counter) = total uds_weight t.(fd2handle);
  inv_attached : t.(attached) = (0 <? t.(uds_datagram_counter));
  inv_addresses : Forall address_ok t.(fd2handle);
  inv_map : zlength t.(map) = P.NUMBER_OF_PORTS;
}.

Lemma fd_chain_insert l start fs f e : f ∉ fs -> chain l start fs -> chain (<[f := e]> l) start fs.
Proof.
  revert start. induction fs as [|g fs IH]; intros start Hf Hc; [done|]. apply not_elem_of_cons in Hf as [Hne Hf].
  cbn in *. destruct Hc as [-> (n & En & Hc)]. split; [done|]. exists n. split; [by rewrite list_lookup_insert_ne|by apply IH].
Qed.

Lemma chain_elem l start fs f : chain l start fs -> f ∈ fs -> (f < length l)%nat.
Proof.
  revert start. induction fs as [|g fs IH]; intros start Hc Hf; [by apply elem_of_nil in Hf|].
  cbn in Hc. destruct Hc as [_ (n & En & Hc)]. apply elem_of_cons in Hf as [->|Hf]; [by eapply lookup_lt_Some|by eapply IH].
Qed.

Lemma uds_weight_nonneg e : 0 <= uds_weight e.
Proof. unfold uds_weight. destruct (is_uds e); lia. Qed.

Lemma as_usize_small i : 0 <= i < MAX_SUPPORTED_FD_HANDLES -> as_usize i = i.
Proof. intros Hi. apply cast_small. unfold MAX_SUPPORTED_FD_HANDLES, in_range in *. lia. Qed.

Section lemmas.
Context `{Profile}.
Implicit Types (t : HandleTranslator) (e : FdHandleEntry) (fs : list nat).

Lemma reset_ok m port : zlength m = P.NUMBER_OF_PORTS -> 0 <= port < P.NUMBER_OF_PORTS ->
  exists m', P.reset m port = Ret m' /\ zlength m' = P.NUMBER_OF_PORTS.
Proof.
  intros Hm Hp. unfold P.reset, P.set. destruct (P.normalized_name P.zeros) as [v|] eqn:Ev; [|vm_compute in Ev; discriminate Ev].
  cbn [outcome_bind]. unfold index. rewrite (proj2 (Z.ltb_ge _ _)) by lia.
  destruct (lookup_lt_is_Some_2 m (Z.to_nat port)) as [x Ex]; [unfold zlength in Hm; lia|]. rewrite Ex. cbn [outcome_bind].
  unfold P.entry_set, P.copy_front. pose proof (P.normalized_name_length _ _ Ev) as Hl.
  rewrite (proj2 (Z.leb_le _ _)) by (unfold zlength; rewrite Hl; vm_compute; congruence). cbn [outcome_bind].
  unfold update. rewrite (proj2 (Z.ltb_ge _ _)) by lia. rewrite (proj2 (Z.leb_gt _ _)) by (unfold zlength in Hm; lia). cbn [orb].
  eexists. split; [done|]. unfold zlength in *. by rewrite length_insert.
Qed.

Lemma inv_bound t fs : inv t fs -> 0 <= t.(uds_datagram_counter) <= MAX_SUPPORTED_FD_HANDLES.
Proof.
  intros Hi. rewrite (inv_counter _ _ Hi). split; [apply total_nonneg, uds_weight_nonneg|].
  rewrite <- (inv_length _ _ Hi). etransitivity; [apply (total_bound uds_weight 1)|lia].
  intros e. unfold uds_weight. destruct (is_uds e); lia.
Qed.

Lemma ht_inv_lookup t fs i : inv t fs -> (i < length t.(fd2handle))%nat <-> Z.of_nat i < MAX_SUPPORTED_FD_HANDLES.
Proof. intros Hi. rewrite <- (inv_length _ _ Hi). unfold zlength. lia. Qed.

Lemma update_nat {A} (l : list A) (i : nat) (a : A) : (i < length l)%nat -> update l (Z.of_nat i) a = Ret (<[i := a]> l).
Proof.
  intros Hi. unfold update. rewrite (proj2 (Z.ltb_ge _ _)) by lia. rewrite (proj2 (Z.leb_gt _ _)) by lia. cbn. by rewrite Nat2Z.id.
Qed.

Lemma index_nat {A} (l : list A) (i : nat) (a : A) : l !! i = Some a -> index l (Z.of_nat i) = Ret a.
Proof. intros Hi. unfold index. rewrite (proj2 (Z.ltb_ge _ _)) by lia. by rewrite Nat2Z.id, Hi. Qed.

Lemma add_full shm t e : inv t [] -> add shm t e = Ret (-1, t).
Proof. intros Hi. pose proof (inv_chain _ _ Hi) as Hc. cbn in Hc. unfold add. by rewrite Hc. Qed.

(** Without the shared memory, the first UNIX domain socket is not added. *)
Lemma add_without_shm t e f fs : inv t (f :: fs) ->
  add None t e = if is_uds e && (t.(uds_datagram_counter) =? 0) then Panic else add (Some true) t e.
Proof.
  intros Hi. pose proof (inv_chain _ _ Hi) as Hc. cbn in Hc. destruct Hc as [Hs (n & En & Hc)].
  pose proof (lookup_lt_Some _ _ _ En) as Hlt. unfold add. rewrite Hs.
  rewrite (proj2 (Z.leb_gt _ _)) by (by apply (ht_inv_lookup t _ _ Hi)). rewrite (index_nat _ _ _ En). cbn [outcome_bind].
  rewrite update_nat by done. cbn. by destruct (is_uds e), (_ =? 0).
Qed.

Lemma ht_add_ok shm t e f fs :
  inv t (f :: fs) -> is_free e = false -> address_ok e -> is_Some shm ->
  exists t', add shm t e = Ret (Z.of_nat f, t') /\ inv t' fs /\ t'.(fd2handle) = <[f := e]> t.(fd2handle).
Proof.
  intros Hi He Ha [created ->]. pose proof (inv_bound _ _ Hi) as Hb. pose proof Hi as [Hl Hc Hnd Hf Hcnt Hat Haddr Hm].
  cbn in Hc. destruct Hc as [Hs (n & En & Hc)]. apply NoDup_cons in Hnd as [Hnf Hnd]. pose proof (lookup_lt_Some _ _ _ En) as Hlt.
  unfold add. rewrite Hs. rewrite (proj2 (Z.leb_gt _ _)) by (by apply (ht_inv_lookup t _ _ Hi)). rewrite (index_nat _ _ _ En). cbn [outcome_bind].
  rewrite update_nat by done. cbn [outcome_bind].
  assert (Htot : total uds_weight (<[f := e]> (fd2handle t)) = uds_datagram_counter t + uds_weight e).
  { rewrite (total_insert _ _ _ _ _ En), Hcnt. cbn. lia. }
  assert (Hnew : forall b m c, c = uds_datagram_counter t + uds_weight e -> b = (0 <? c) -> zlength m = P.NUMBER_OF_PORTS ->
    inv (set_uds (set_table t (<[f := e]> (fd2handle t)) n) b m c) fs).
  { intros b m c -> -> Hzm. split; cbn; try done.
    - unfold zlength in *. by rewrite length_insert.
    - by apply fd_chain_insert.
    - intros i x. rewrite list_lookup_insert_Some. intros [(-> & -> & _)|(Hne & Ei)]; [by rewrite He|].
      rewrite (Hf i x Ei). rewrite elem_of_cons. naive_solver.
    - by apply Forall_insert. }
  unfold uds_weight in Hnew, Htot. destruct (is_uds e) eqn:Eu.
  - cbn. rewrite wrapping_add_small by (unfold MAX_SUPPORTED_FD_HANDLES in Hb; lia).
    destruct (Z.eqb_spec (uds_datagram_counter t) 0) as [E0|E0]; (eexists; split; [done|]; split; [|done]); apply Hnew; try done.
    + by rewrite E0.
    + destruct created; [|done]. unfold zlength, P.initialize. rewrite length_replicate. vm_compute. reflexivity.
    + rewrite Hat. rewrite !(proj2 (Z.ltb_lt _ _)) by lia. done.
  - eexists. split; [done|]. split; [|done]. specialize (Hnew (attached t) (map t) (uds_datagram_counter t)).
    apply Hnew; [lia|done|done].
Qed.

Lemma remove_ok t fs i e :
  inv t fs -> t.(fd2handle) !! i = Some e -> is_free e = false ->
  exists t', remove t (Z.of_nat i) = Ret t' /\ inv t' (i :: fs) /\
    t'.(fd2handle) = <[i := NextFreeFd t.(free_fd_list_start)]> t.(fd2handle).
Proof.
  intros Hi Ei He. pose proof (inv_bound _ _ Hi) as Hb. pose proof Hi as [Hl Hc Hnd Hf Hcnt Hat Haddr Hm].
  pose proof (lookup_lt_Some _ _ _ Ei) as Hlt. assert (Hfree : i ∉ fs) by (rewrite <- (Hf i e Ei), He; done).
  assert (Hae : address_ok e) by (by eapply Forall_lookup_1).
  unfold remove, remove_impl. rewrite as_usize_small by (apply (ht_inv_lookup t _ _ Hi) in Hlt; lia). rewrite (index_nat _ _ _ Ei). cbn [outcome_bind].
  assert (Hnew : forall b m c, c = uds_datagram_counter t - uds_weight e -> b = (0 <? c) -> zlength m = P.NUMBER_OF_PORTS ->
    inv (set_table (set_uds t b m c) (<[i := NextFreeFd (free_fd_list_start t)]> (fd2handle t)) (Z.of_nat i)) (i :: fs)).
  { intros b m c -> -> Hzm. split; cbn; try done.
    - unfold zlength in *. by rewrite length_insert.
    - split; [done|]. exists (free_fd_list_start t). split; [by apply list_lookup_insert_eq|by apply fd_chain_insert].
    - by constructor.
    - intros j x. rewrite list_lookup_insert_Some. rewrite elem_of_cons. intros [(-> & <- & _)|(Hne & Ej)]; [cbn; tauto|].
      rewrite (Hf j x Ej). naive_solver.
    - rewrite (total_insert _ _ _ _ _ Ei), Hcnt. cbn. lia.
    - by apply Forall_insert. }
  assert (Hu : uds_weight e <= uds_datagram_counter t) by (rewrite Hcnt; by eapply total_lookup; [apply uds_weight_nonneg|]).
  assert (Hdone : forall b m c, c = uds_datagram_counter t - uds_weight e -> b = (0 <? c) -> zlength m = P.NUMBER_OF_PORTS ->
    exists t', (let! l := update (fd2handle (set_uds t b m c)) (Z.of_nat i) (NextFreeFd (free_fd_list_start (set_uds t b m c))) in
                Ret (set_table (set_uds t b m c) l (Z.of_nat i))) = Ret t' /\ inv t' (i :: fs) /\
      t'.(fd2handle) = <[i := NextFreeFd t.(free_fd_list_start)]> t.(fd2handle)).
  { intros b m c Ec Eb Em. cbn [fd2handle set_uds free_fd_list_start]. rewrite update_nat by done. cbn [outcome_bind]. eexists. split; [done|].
    split; [by apply Hnew|done]. }
  assert (Hid : t = set_uds t (attached t) (map t) (uds_datagram_counter t)) by (by destruct t).
  destruct e as [h sh ls|n|s|s a timeout|n]; cbn [outcome_bind]; try (rewrite Hid; apply Hdone; [cbn; lia|by rewrite Hat|done]).
  cbn in Hu. unfold uds_weight in Hdone. cbn [is_uds] in Hdone. rewrite wrapping_sub_small by (unfold MAX_SUPPORTED_FD_HANDLES in Hb; lia).
  destruct (Z.eqb_spec (uds_datagram_counter t) 1) as [E1|E1]; cbn [outcome_bind].
  - apply Hdone; [done|by rewrite E1|done].
  - assert (Hpos : (0 <? uds_datagram_counter t) = true /\ (0 <? uds_datagram_counter t - 1) = true) by (rewrite !Z.ltb_lt; lia).
    rewrite Hat, (proj1 Hpos). destruct a as [port|]; [|apply Hdone; [done|by rewrite (proj2 Hpos)|done]].
    destruct (reset_ok (map t) port Hm Hae) as (m' & -> & Hm'). cbn [outcome_bind]. apply Hdone; [done|by rewrite (proj2 Hpos)|done].
Qed.

(** An entry is replaced by one of its kind. *)
Lemma inv_replace t fs i x e m :
  inv t fs -> t.(fd2handle) !! i = Some x -> is_free x = false -> is_free e = false -> is_uds e = is_uds x -> address_ok e ->
  zlength m = P.NUMBER_OF_PORTS ->
  inv {| fd2handle := <[i := e]> t.(fd2handle); free_fd_list_start := t.(free_fd_list_start); attached := t.(attached); map := m;
         uds_datagram_counter := t.(uds_datagram_counter) |} fs.
Proof.
  intros Hi Ei Hx He Hu Ha Hzm. destruct Hi as [Hl Hc Hnd Hf Hcnt Hat Haddr Hm]. assert (Hfree : i ∉ fs) by (rewrite <- (Hf i x Ei), Hx; done).
  split; cbn; try done.
  - unfold zlength in *. by rewrite length_insert.
  - by apply fd_chain_insert.
  - intros j y. rewrite list_lookup_insert_Some. intros [(-> & -> & _)|(Hne & Ej)]; [|by apply Hf]. rewrite He. naive_solver.
  - rewrite (total_insert _ _ _ _ _ Ei), Hcnt. unfold uds_weight. rewrite Hu. lia.
  - by apply Forall_insert.
Qed.

Lemma set_length m port name m' : P.set m port name = Ret m' -> zlength m' = zlength m /\ 0 <= port < zlength m.
Proof.
  unfold P.set. destruct (P.normalized_name name); [|done]. cbn [outcome_bind]. destruct (index m port) as [x|]; [|done]. cbn [outcome_bind].
  destruct (P.entry_set _ _); [|done]. cbn [outcome_bind]. unfold update. destruct (_ <? 0) eqn:E0; [done|].
  destruct (_ <=? port) eqn:E1; [done|]. cbn. intros [= <-]. bool_to_prop. unfold zlength. rewrite length_insert. lia.
Qed.

Lemma find_entry_spec l e : forall k i, find_entry l k e = Some i -> exists j x, i = (k + j)%nat /\ l !! j = Some x /\ eq_entry x e = true.
Proof.
  induction l as [|x l IH]; intros k i E; [done|]. cbn in E. destruct (eq_entry x e) eqn:Ex.
  - injection E as <-. exists 0%nat, x. split_and!; [lia|done..].
  - destruct (IH (S k) i E) as (j & y & -> & Ej & Ey). exists (S j), y. split_and!; [lia|done..].
Qed.

Lemma update_inv t fs e : inv t fs -> is_free e = false -> address_ok e -> inv (update_ t e) fs.
Proof.
  intros Hi He Ha. unfold update_. destruct (find_entry _ _ _) as [i|] eqn:Ef; [|done].
  destruct (find_entry_spec _ _ _ _ Ef) as (j & x & -> & Ej & Ex).
  apply (inv_replace t fs j x e (map t) Hi Ej); try done; try (by destruct x, e). apply Hi.
Qed.

Lemma set_uds_name_inv t fs fd port name t' : inv t fs -> set_uds_name t fd port name = Ret t' -> inv t' fs.
Proof.
  intros Hi E. unfold set_uds_name in E. unfold index in E. destruct (_ <? 0); [done|].
  destruct (fd2handle t !! _) as [x|] eqn:Ex; [|done]. cbn [outcome_bind] in E.
  assert (Hport : forall m, P.set (map t) port name = Ret m -> zlength m = P.NUMBER_OF_PORTS /\ 0 <= port < P.NUMBER_OF_PORTS).
  { intros m Em. apply set_length in Em. rewrite <- (inv_map _ _ Hi). lia. }
  destruct (attached t) eqn:Eat.
  - destruct (P.set (map t) port name) as [m|] eqn:Em; [|by destruct x; cbn in E; try done; destruct (update _ _ _)].
    destruct (Hport m eq_refl) as [Hzm Hp].
    assert (Hsame : t' = set_uds t true m (uds_datagram_counter t) -> inv t' fs).
    { intros ->. destruct Hi. split; cbn; try done. by rewrite <- Eat. }
    destruct x as [h sh ls|n|s|s a timeout|n]; cbn [outcome_bind] in E; try (injection E as <-; by apply Hsame; destruct t).
    unfold update in E. destruct (_ || _); [done|]. cbn [outcome_bind] in E. injection E as <-.
    rewrite <- Eat. by apply (inv_replace t fs _ _ (UdsDatagramSocket s (Some port) timeout) m Hi Ex).
  - by destruct x; cbn in E; try done; destruct (update _ _ _).
Qed.

End lemmas.

(** ** Reachable tables *)

Inductive op :=
| OAdd (shm : option bool) (e : FdHandleEntry)
| ORemove (fd : Z)
| OUpdate (e : FdHandleEntry)
| OSetUdsName (fd port : Z) (name : list Z).

Section reachable.
Context `{Profile}.

Definition run (o : op) (t : HandleTranslator) : outcome HandleTranslator :=
  match o with
  | OAdd shm e => let! r := add shm t e in Ret r.2
  | ORemove fd => remove t fd
  | OUpdate e => Ret (update_ t e)
  | OSetUdsName fd port name => set_uds_name t fd port name
  end.

(** An entry that callers add: no link of the free list, and a port that the map has. *)
Definition is_real (e : FdHandleEntry) : bool :=
  negb (is_free e) &&
  match e with UdsDatagramSocket _ (Some p) _ => (0 <=? p) && (p <? P.NUMBER_OF_PORTS) | _ => true end.

(** Callers add and update real entries, and remove only descriptors in use. *)
Definition careful (o : op) (t : HandleTranslator) : bool :=
  match o with
  | OAdd _ e | OUpdate e => is_real e
  | ORemove fd => bool_decide (get t fd <> None)
  | OSetUdsName _ _ _ => true
  end.

Inductive reachable (m : list P.Entry) : HandleTranslator -> Prop :=
| reachable_start : reachable m (get_instance m)
| reachable_run t o t' : reachable m t -> careful o t = true -> run o t = Ret t' -> reachable m t'.

Lemma is_real_ok e : is_real e = true -> is_free e = false /\ address_ok e.
Proof.
  unfold is_real. intros [E1%negb_true_iff E2]%andb_prop. split; [done|]. destruct e as [| | |s [p|] tm|]; try done.
  cbn. by bool_to_prop.
Qed.

Lemma chain_start l k n : (forall i, (k <= i < k + n)%nat -> l !! i = Some (NextFreeFd (Z.of_nat i + 1))) ->
  Z.of_nat (k + n) = MAX_SUPPORTED_FD_HANDLES -> chain l (Z.of_nat k) (seq k n).
Proof.
  revert k. induction n as [|n IH]; intros k Hl Hn; cbn; [by rewrite Nat.add_0_r in Hn|]. split; [done|].
  exists (Z.of_nat k + 1). split; [apply Hl; lia|]. replace (Z.of_nat k + 1) with (Z.of_nat (S k)) by lia.
  apply IH; [|rewrite <- Hn; f_equal; lia]. intros i Hi. apply Hl. lia.
Qed.

Lemma get_instance_inv m : zlength m = P.NUMBER_OF_PORTS -> inv (get_instance m) (seq 0 (Z.to_nat MAX_SUPPORTED_FD_HANDLES)).
Proof.
  intros Hm. assert (Hl : forall i e, fd2handle (get_instance m) !! i = Some e <->
    (i < Z.to_nat MAX_SUPPORTED_FD_HANDLES)%nat /\ e = NextFreeFd (Z.of_nat i + 1)).
  { intros i e. unfold get_instance. cbn [fd2handle]. rewrite list_lookup_fmap_Some. split.
    - intros (j & -> & Ej). apply lookup_seq in Ej as [-> ?]. done.
    - intros [Hi ->]. exists i. split; [done|]. by apply lookup_seq. }
  split; try done.
  - apply (chain_start _ 0); [|done]. intros i Hi. apply Hl. split; [lia|done].
  - apply NoDup_seq.
  - intros i e [Hi ->]%Hl. rewrite elem_of_seq. cbn [is_free]. split; [lia|done].
  - apply Forall_lookup. by intros i e [_ ->]%Hl.
Qed.

Lemma reachable_inv m t : zlength m = P.NUMBER_OF_PORTS -> reachable m t -> exists fs, inv t fs.
Proof.
  intros Hm. induction 1 as [|t o t' _ [fs Hi] Hcare E]; [eexists; by apply get_instance_inv|].
  destruct o as [shm e|fd|e|fd port name]; cbn in Hcare, E.
  - apply is_real_ok in Hcare as [Ef Ha].
    destruct fs as [|f fs]; [rewrite (add_full _ _ _ Hi) in E; injection E as <-; by eexists|].
    assert (E' : exists c, (let! r := add (Some c) t e in Ret r.2) = Ret t').
    { destruct shm as [c|]; [by exists c|]. exists true. rewrite (add_without_shm t e f fs Hi) in E. by destruct (_ && _). }
    destruct E' as [c E']. destruct (ht_add_ok (Some c) t e f fs Hi Ef Ha ltac:(done)) as (t2 & Et & Hi2 & _).
    rewrite Et in E'. injection E' as <-. by eexists.
  - bool_to_prop. unfold get in Hcare. destruct (_ <? _) eqn:El; [|done]. destruct (fd2handle t !! _) as [x|] eqn:Ex; [|done].
    assert (Hx : is_free x = false) by (by destruct x).
    destruct (remove_ok t fs _ x Hi Ex Hx) as (t2 & E2 & Hi2 & _).
    assert (Efd : remove t (Z.of_nat (Z.to_nat (as_usize fd))) = remove t fd).
    { unfold remove, remove_impl. bool_to_prop. rewrite (inv_length _ _ Hi) in El. assert (0 <= as_usize fd) by (apply Z.mod_pos_bound; lia).
      rewrite Z2Nat.id by done. by rewrite (as_usize_small (as_usize fd)) by lia. }
    rewrite Efd, E in E2. injection E2 as <-. by eexists.
  - exists fs. apply is_real_ok in Hcare as [Ef Ha]. injection E as <-. by apply update_inv.
  - exists fs. by eapply set_uds_name_inv.
Qed.

End reachable.

(** ** Descriptors *)

Lemma get_lookup t fs fd : inv t fs ->
  get t fd = match t.(fd2handle) !! Z.to_nat (as_usize fd) with Some e => if is_free e then None else Some e | None => None end.
Proof.
  intros Hi. unfold get. assert (0 <= as_usize fd) by (apply Z.mod_pos_bound; lia). destruct (Z.ltb_spec (as_usize fd) (zlength t.(fd2handle))) as [Hlt|Hge].
  - by destruct (fd2handle t !! _) as [[]|].
  - unfold zlength in Hge. by rewrite (proj2 (lookup_ge_None _ _)) by lia.
Qed.

Lemma get_insert t t' fs fs' i e fd : inv t fs -> inv t' fs' -> t'.(fd2handle) = <[i := e]> t.(fd2handle) ->
  as_usize fd <> Z.of_nat i -> get t' fd = get t fd.
Proof.
  intros Hi Hi' E Hne. rewrite (get_lookup _ _ _ Hi), (get_lookup _ _ _ Hi'), E. assert (0 <= as_usize fd) by (apply Z.mod_pos_bound; lia).
  by rewrite list_lookup_insert_ne by lia.
Qed.

(** The table with every descriptor in use. *)
Definition full (t : HandleTranslator) : Prop := forall fd, 0 <= fd < MAX_SUPPORTED_FD_HANDLES -> get t fd <> None.

Lemma full_spec t fs : inv t fs -> full t <-> fs = [].
Proof.
  intros Hi. split.
  - intros Hf. destruct fs as [|f fs]; [done|]. pose proof (inv_chain _ _ Hi) as Hc. cbn in Hc. destruct Hc as [_ (n & En & _)].
    pose proof (proj1 (ht_inv_lookup t _ f Hi) (lookup_lt_Some _ _ _ En)). destruct (Hf (Z.of_nat f)); [lia|].
    rewrite (get_lookup _ _ _ Hi), as_usize_small, Nat2Z.id, En by lia. done.
  - intros -> fd Hfd. rewrite (get_lookup _ _ _ Hi), as_usize_small by lia.
    destruct (lookup_lt_is_Some_2 t.(fd2handle) (Z.to_nat fd)) as [e Ee]; [apply (ht_inv_lookup t _ _ Hi); lia|]. rewrite Ee.
    destruct (is_free e) eqn:Ef; [|done]. apply (inv_free _ _ Hi _ _ Ee) in Ef. by apply elem_of_nil in Ef.
Qed.

(** C38: Whatever the callers did with the table before, as long as they added and updated real entries and removed only
    descriptors in use, adding a real entry to it hands out a descriptor that was not in use, or -1 exactly when all of
    them are; the descriptor then leads to the entry and every other one to what it led to before.  Only the first UNIX
    domain socket needs the shared memory of [PortToUds]: where that cannot be opened, adding it panics.  Removing a
    descriptor that is in use succeeds, frees it and leaves the others as they were. *)
Theorem handle_translator_descriptors m t e shm :
  zlength m = P.NUMBER_OF_PORTS -> reachable m t -> is_real e = true ->
  (full t -> add shm t e = Ret (-1, t)) /\
  (~ full t -> is_uds e = true /\ t.(uds_datagram_counter) = 0 /\ shm = None -> add shm t e = Panic) /\
  (~ full t -> is_uds e = false \/ t.(uds_datagram_counter) <> 0 \/ is_Some shm ->
     exists fd t', add shm t e = Ret (fd, t') /\ 0 <= fd < MAX_SUPPORTED_FD_HANDLES /\
     get t fd = None /\ get t' fd = Some e /\ forall fd', as_usize fd' <> fd -> get t' fd' = get t fd') /\
  (forall fd x, 0 <= fd < MAX_SUPPORTED_FD_HANDLES -> get t fd = Some x ->
     exists t', remove t fd = Ret t' /\ get t' fd = None /\ forall fd', as_usize fd' <> fd -> get t' fd' = get t fd').
Proof.
  intros Hm Hr [He Ha]%is_real_ok. destruct (reachable_inv m t Hm Hr) as [fs Hi]. rewrite (full_spec t fs Hi).
  split; [|split; [|split]].
  - intros ->. by apply add_full.
  - destruct fs as [|f fs]; [done|]. intros _ (Eu & Ec & ->). by rewrite (add_without_shm t e f fs Hi), Eu, Ec.
  - destruct fs as [|f fs]; [done|]. intros _ Hshm.
    assert (E : exists c, add shm t e = add (Some c) t e).
    { destruct shm as [c|]; [by exists c|]. exists true. rewrite (add_without_shm t e f fs Hi).
      destruct Hshm as [->|[Hc|[]]]; [done| |done]. rewrite (proj2 (Z.eqb_neq _ _) Hc). by rewrite andb_false_r. }
    destruct E as [c ->].
    destruct (ht_add_ok (Some c) t e f fs Hi He Ha ltac:(done)) as (t' & Et & Hi' & El).
    pose proof (inv_chain _ _ Hi) as Hc. cbn in Hc. destruct Hc as [_ (n & En & _)]. pose proof (lookup_lt_Some _ _ _ En) as Hlt.
    pose proof (proj1 (ht_inv_lookup t _ f Hi) Hlt). exists (Z.of_nat f), t'. split; [done|]. split; [lia|]. split_and!.
    + rewrite (get_lookup _ _ _ Hi), as_usize_small, Nat2Z.id, En by lia. done.
    + rewrite (get_lookup _ _ _ Hi'), as_usize_small, Nat2Z.id, El, list_lookup_insert_eq by (done || lia). by rewrite He.
    + intros fd' Hne. by eapply get_insert.
  - intros fd x Hfd. rewrite (get_lookup _ _ _ Hi), as_usize_small by lia. destruct (fd2handle t !! _) as [y|] eqn:Ey; [|done].
    destruct (is_free y) eqn:Ef; [done|]. intros [= ->]. destruct (remove_ok t fs _ x Hi Ey Ef) as (t' & Et & Hi' & El).
    rewrite Z2Nat.id in Et by lia. exists t'. split; [done|]. split.
    + rewrite (get_lookup _ _ _ Hi'), as_usize_small, El, list_lookup_insert_eq by (lia || by eapply lookup_lt_Some). done.
    + intros fd' Hne. eapply get_insert; [done..|]. lia.
Qed.

Definition some_map : list P.Entry := P.initialize.

Lemma some_map_length : zlength some_map = P.NUMBER_OF_PORTS.
Proof. unfold zlength, some_map, P.initialize. rewrite length_replicate. vm_compute. reflexivity. Qed.

Lemma one_socket_reachable :
  exists t, add (Some true) (get_instance some_map) (Socket 7) = Ret (0, t) /\ reachable some_map t /\ get t 0 = Some (Socket 7).
Proof.
  destruct (ht_add_ok (Some true) (get_instance some_map) (Socket 7) 0 (seq 1 1023) (get_instance_inv _ some_map_length)) as (t & E & Hi & El); [done..|].
  exists t. split; [exact E|]. split.
  - eapply (reachable_run some_map (get_instance some_map) (OAdd (Some true) (Socket 7))); [apply reachable_start|reflexivity|].
    unfold run. rewrite E. done.
  - rewrite (get_lookup _ _ _ Hi), El. change (Z.to_nat (as_usize 0)) with 0%nat. rewrite list_lookup_insert_eq; [done|].
    unfold get_instance. cbn [fd2handle]. rewrite length_fmap, length_seq. vm_compute. lia.
Qed.

Lemma handle_translator_descriptors_witness :
  exists t t', add (Some true) (get_instance some_map) (Socket 7) = Ret (0, t) /\ get t 0 = Some (Socket 7) /\
    remove t 0 = Ret t' /\ get t' 0 = None.
Proof.
  destruct one_socket_reachable as (t & E & Hr & Eg).
  destruct (proj2 (proj2 (proj2 (handle_translator_descriptors some_map t (Socket 8) None some_map_length Hr eq_refl))) 0 (Socket 7)) as (t' & Et & Hg & _).
  - unfold MAX_SUPPORTED_FD_HANDLES. lia.
  - exact Eg.
  - exists t, t'. split; [exact E|]. split; [exact Eg|]. split; [exact Et|exact Hg].
Defined.

(** Removing a descriptor twice ties the free list into a knot: the descriptor is handed out, and the next [add] panics. *)
Theorem handle_translator_removed_twice :
  (let! r := add None (get_instance []) (Socket 7) in
   let! t := remove r.2 r.1 in
   let! t := remove t r.1 in
   let! s := add None t (Socket 8) in
   add None s.2 (Socket 9)) = Panic.
Proof. vm_compute. reflexivity. Qed.

(** [update] does not change a handle: entries of handles are compared with everything they hold. *)
Theorem handle_translator_update_handle t h s l : update_ t (Handle h s l) = t.
Proof.
  unfold update_. destruct (find_entry _ _ _) as [i|] eqn:E; [|done]. apply find_entry_spec in E as (j & x & -> & Ej & Ex).
  destruct x; try done. cbn in Ex. bool_to_prop. subst. destruct t. unfold set_table. cbn in *. f_equal. by apply list_insert_id.
Qed.

End HandleTranslator.
