(* ===== verification/StaticStorage.v ===== *)
(** * Static storages

    [iceoryx2_cal::static_storage]: a named, write-once piece of data.  A creator
    reserves the name with a locked storage, writes the content and thereby unlocks it;
    everybody else can open it once it is unlocked.  The file models the process-local
    variant, which keeps all storages of the process in one map behind a mutex, and
    states what the users of a static storage rely on as a class.

    Every operation holds the mutex from its first to its last access of the map, so that
    the operations are atomic; a mutex that cannot be locked is not represented. *)

From S2P Require Import Prelude ByteString SemanticString SystemTypes NamedConcept.

(* src/iceoryx2_cal/src/static_storage/mod.rs:40-46 StaticStorageCreateError *)
Inductive StaticStorageCreateError :=
| StaticAlreadyExists | StaticCreation | StaticWrite | StaticCreateInsufficientPermissions
| StaticCreateInternalError.

(* src/iceoryx2_cal/src/static_storage/mod.rs:49-54 StaticStorageOpenError *)
Inductive StaticStorageOpenError :=
| StaticDoesNotExist | StaticRead | StaticIsLocked | StaticOpenInternalError.

(* src/iceoryx2_cal/src/static_storage/mod.rs:57-62 StaticStorageReadError *)
Inductive StaticStorageReadError :=
| BufferTooSmall | StaticReadError | StaticStorageWasModified | CreationNotComplete.

(* src/iceoryx2_cal/src/static_storage/mod.rs:65-69 StaticStorageUnlockError *)
Inductive StaticStorageUnlockError :=
| UnlockInsufficientPermissions | NoSpaceLeft | UnlockInternalError.

(** What the users of one particular static storage rely on: [W] is the state of the
    system, [static_state] tells whether the storage does not exist, is locked, or has a
    content. *)
Class StaticStorageConcept (W : Type) := {
  static_state : W -> option (option (list Z));
  static_does_exist : W -> outcome (Result bool NamedConceptDoesExistError);
  static_open_and_read : W -> outcome (Result (list Z) StaticStorageOpenError);
  static_create_locked : W -> outcome (Result unit StaticStorageCreateError * W);
  static_unlock : W -> list Z -> outcome (Result unit StaticStorageUnlockError * W);
  static_remove : W -> outcome W;
  static_does_exist_ok w : static_does_exist w = Ret
    match static_state w with
    | None => Ok false
    | Some None => Err UnderlyingResourcesBeingSetUp
    | Some (Some _) => Ok true
    end;
  static_open_and_read_ok w : static_open_and_read w = Ret
    match static_state w with
    | None => Err StaticDoesNotExist
    | Some None => Err StaticIsLocked
    | Some (Some c) => Ok c
    end;
  static_create_locked_ok w : exists r w', static_create_locked w = Ret (r, w') /\
    match static_state w with
    | None => r = Ok tt /\ static_state w' = Some None
    | Some _ => r = Err StaticAlreadyExists /\ w' = w
    end;
  static_unlock_ok w c : is_Some (static_state w) ->
    exists w', static_unlock w c = Ret (Ok tt, w') /\ static_state w' = Some (Some c);
  static_remove_ok w : exists w', static_remove w = Ret w' /\ static_state w' = None;
}.

Module StaticStorage.
Module NC := NamedConcept.NamedConcept.

(** The contents are never modified in place, so that the shared pointers to them are
    represented by their values. *)
(* src/iceoryx2_cal/src/static_storage/process_local.rs:48-51 StorageContent *)
Record StorageContent := { is_locked : bool; value : list Z }.

(** The map behind [PROCESS_LOCAL_STORAGE]. *)
Notation process_local_storage := (gmap (list Z) StorageContent).

(* src/iceoryx2_cal/src/static_storage/process_local.rs:161-166 Storage *)
Record Storage := {
  name : list Z;
  has_ownership : bool;
  config : NC.NamedConceptConfiguration;
  content : StorageContent;
}.

(* src/iceoryx2_cal/src/static_storage/process_local.rs:121-123 Locked *)
Record Locked := { storage : Storage }.

(* src/iceoryx2_cal/src/static_storage/process_local.rs:273-277 Builder *)
Record Builder := {
  b_name : list Z;
  b_has_ownership : bool;
  b_config : NC.NamedConceptConfiguration;
}.

Section process_local.
Context `{Profile} (memory file_memory : list Z).
Implicit Types (w : process_local_storage) (s : Storage) (cfg : NC.NamedConceptConfiguration).

Definition path_for cfg (n : list Z) : outcome (list Z) :=
  let! p := NC.path_for cfg memory n in Ret (as_bytes p).

(* src/iceoryx2_cal/src/static_storage/process_local.rs:300-324 open *)
Definition open (b : Builder) w : outcome (Result Storage StaticStorageOpenError) :=
  let! path := path_for b.(b_config) b.(b_name) in
  match w !! path with
  | None => Ret (Err StaticDoesNotExist)
  | Some c =>
      if c.(is_locked) then Ret (Err StaticIsLocked)
      else Ret (Ok {| name := b.(b_name); has_ownership := b.(b_has_ownership);
                      config := b.(b_config); content := c |})
  end.

(* src/iceoryx2_cal/src/static_storage/process_local.rs:326-360 create_locked *)
Definition create_locked (b : Builder) w
    : outcome (Result Locked StaticStorageCreateError * process_local_storage) :=
  let! path := path_for b.(b_config) b.(b_name) in
  match w !! path with
  | Some _ => Ret (Err StaticAlreadyExists, w)
  | None =>
      let c := {| is_locked := true; value := [] |} in
      Ret (Ok {| storage := {| name := b.(b_name); has_ownership := b.(b_has_ownership);
                               config := b.(b_config); content := c |} |},
           <[path := c]> w)
  end.

(** The returned storage is the one inside the locked storage, with its content. *)
(* src/iceoryx2_cal/src/static_storage/process_local.rs:132-157 unlock *)
Definition unlock (l : Locked) (contents : list Z) w
    : outcome (Result Storage StaticStorageUnlockError * process_local_storage) :=
  let! path := path_for l.(storage).(config) l.(storage).(name) in
  match w !! path with
  | None => Panic
  | Some _ =>
      Ret (Ok l.(storage), <[path := {| is_locked := false; value := contents |}]> w)
  end.

(* src/iceoryx2_cal/src/static_storage/mod.rs:84-92 create *)
Definition create (b : Builder) (contents : list Z) w
    : outcome (Result Storage StaticStorageCreateError * process_local_storage) :=
  let! '(r, w) := create_locked b w in
  match r with
  | Err e => Ret (Err e, w)
  | Ok l =>
      let! '(r, w) := unlock l contents w in
      match r with
      | Ok s => Ret (Ok s, w)
      | Err _ => Ret (Err StaticWrite, w)
      end
  end.

(* src/iceoryx2_cal/src/static_storage/process_local.rs:181-196 remove_cfg *)
Definition remove_cfg (n : list Z) cfg w : outcome (bool * process_local_storage) :=
  let! path := path_for cfg n in
  Ret (bool_decide (is_Some (w !! path)), delete path w).

(** The keys of a hash map come in no particular order; here they come in the order of
    [map_to_list]. *)
(* src/iceoryx2_cal/src/static_storage/process_local.rs:198-212 list_cfg *)
Fixpoint list_keys cfg (keys : list (list Z)) : outcome (list (list Z)) :=
  match keys with
  | [] => Ret []
  | k :: keys =>
      let! p := B.new_unchecked PATH_LENGTH memory k in
      let! v := NC.extract_name_from_path cfg memory file_memory p in
      let! rest := list_keys cfg keys in
      Ret (match v with Some v => as_bytes v :: rest | None => rest end)
  end.

(* src/iceoryx2_cal/src/static_storage/process_local.rs:198-212 list_cfg *)
Definition list_cfg cfg w : outcome (list (list Z)) := list_keys cfg (map_to_list w).*1.

(* src/iceoryx2_cal/src/static_storage/process_local.rs:214-229 does_exist_cfg *)
Definition does_exist_cfg (n : list Z) cfg w : outcome (Result bool NamedConceptDoesExistError) :=
  let! path := path_for cfg n in
  match w !! path with
  | Some v => Ret (if v.(is_locked) then Err UnderlyingResourcesBeingSetUp else Ok true)
  | None => Ret (Ok false)
  end.

(* src/iceoryx2_cal/src/static_storage/process_local.rs:242-244 len *)
Definition len s : Z := zlength s.(content).(value).

(* src/iceoryx2_cal/src/static_storage/process_local.rs:246-248 is_empty *)
Definition is_empty s : bool := bool_decide (s.(content).(value) = []).

(** [clone_from_slice] panics when the lengths differ. *)
(* src/iceoryx2_cal/src/static_storage/process_local.rs:250-261 read *)
Definition read s (buffer : list Z) : outcome (Result unit StaticStorageReadError * list Z) :=
  if zlength buffer <? zlength s.(content).(value) then Ret (Err BufferTooSmall, buffer)
  else if zlength buffer =? zlength s.(content).(value) then Ret (Ok tt, s.(content).(value))
  else Panic.

Definition set_ownership s b : Storage :=
  {| name := s.(name); has_ownership := b; config := s.(config); content := s.(content) |}.

(* src/iceoryx2_cal/src/static_storage/process_local.rs:263-265 release_ownership *)
Definition release_ownership s : Storage := set_ownership s false.

(* src/iceoryx2_cal/src/static_storage/process_local.rs:267-269 acquire_ownership *)
Definition acquire_ownership s : Storage := set_ownership s true.

(* src/iceoryx2_cal/src/static_storage/process_local.rs:168-176 drop *)
Definition drop s w : outcome process_local_storage :=
  if s.(has_ownership) then let! '(_, w) := remove_cfg s.(name) s.(config) w in Ret w
  else Ret w.

(** ** The process-local storages as a [StaticStorageConcept]

    The storage has the name [n]; all handles are created without ownership and the last
    user acquires the ownership before it drops its handle. *)

Section concept.
Context cfg (n path : list Z) (Hpath : path_for cfg n = Ret path).

Definition builder : Builder := {| b_name := n; b_has_ownership := false; b_config := cfg |}.

Definition handle : Storage :=
  {| name := n; has_ownership := false; config := cfg; content := {| is_locked := true; value := [] |} |}.

Definition state w : option (option (list Z)) :=
  (fun c => if c.(is_locked) then None else Some c.(value)) <$> w !! path.

Definition open_and_read w : outcome (Result (list Z) StaticStorageOpenError) :=
  let! r := open builder w in
  match r with
  | Err e => Ret (Err e)
  | Ok s =>
      let! '(r, buffer) := read s (replicate (Z.to_nat (len s)) 32) in
      Ret (match r with Ok _ => Ok buffer | Err _ => Err StaticRead end)
  end.

Definition reserve w : outcome (Result unit StaticStorageCreateError * process_local_storage) :=
  let! '(r, w) := create_locked builder w in
  Ret (match r with Ok _ => Ok tt | Err e => Err e end, w).

Definition publish w (contents : list Z)
    : outcome (Result unit StaticStorageUnlockError * process_local_storage) :=
  let! '(r, w) := unlock {| storage := handle |} contents w in
  Ret (match r with Ok _ => Ok tt | Err e => Err e end, w).

Definition remove w : outcome process_local_storage := drop (acquire_ownership handle) w.

Lemma does_exist_ok w : does_exist_cfg n cfg w = Ret
  match state w with
  | None => Ok false
  | Some None => Err UnderlyingResourcesBeingSetUp
  | Some (Some _) => Ok true
  end.
Proof.
  unfold does_exist_cfg, state. rewrite Hpath. cbn [outcome_bind].
  destruct (w !! path) as [c|]; cbn; [by destruct c.(is_locked)|done].
Qed.

Lemma read_all s : read s (replicate (Z.to_nat (len s)) 32) = Ret (Ok tt, s.(content).(value)).
Proof.
  unfold read, len. assert (El : zlength (replicate (Z.to_nat (zlength s.(content).(value))) 32) = zlength s.(content).(value)).
  { unfold zlength. rewrite length_replicate. lia. }
  by rewrite El, Z.ltb_irrefl, Z.eqb_refl.
Qed.

Lemma open_and_read_ok w : open_and_read w = Ret
  match state w with
  | None => Err StaticDoesNotExist
  | Some None => Err StaticIsLocked
  | Some (Some c) => Ok c
  end.
Proof.
  unfold open_and_read, open, state. cbn [builder b_config b_name]. rewrite Hpath. cbn [outcome_bind].
  destruct (w !! path) as [c|]; cbn [fmap option_fmap option_map outcome_bind]; [|done].
  destruct c.(is_locked); cbn [outcome_bind]; [done|]. by rewrite read_all.
Qed.

Lemma reserve_ok w : exists r w', reserve w = Ret (r, w') /\
  match state w with
  | None => r = Ok tt /\ state w' = Some None
  | Some _ => r = Err StaticAlreadyExists /\ w' = w
  end.
Proof.
  unfold reserve, create_locked, state. cbn [builder b_config b_name]. rewrite Hpath. cbn [outcome_bind].
  destruct (w !! path) as [c|]; cbn [fmap option_fmap option_map outcome_bind]; eexists _, _; [done|].
  split; [done|]. by rewrite lookup_insert_eq.
Qed.

Lemma publish_ok w contents : is_Some (state w) ->
  exists w', publish w contents = Ret (Ok tt, w') /\ state w' = Some (Some contents).
Proof.
  unfold publish, unlock, state. cbn [handle storage config name]. rewrite Hpath. cbn [outcome_bind].
  intros Hw. destruct (w !! path) as [c|] eqn:E; [|by destruct Hw]. cbn [outcome_bind].
  eexists. split; [done|]. by rewrite lookup_insert_eq.
Qed.

Lemma static_removal_ok w : exists w', remove w = Ret w' /\ state w' = None.
Proof.
  unfold remove, drop, remove_cfg, state. cbn. rewrite Hpath. cbn [outcome_bind].
  eexists. split; [done|]. by rewrite lookup_delete_eq.
Qed.

Definition process_local_concept : StaticStorageConcept process_local_storage := {|
  static_does_exist_ok := does_exist_ok;
  static_open_and_read_ok := open_and_read_ok;
  static_create_locked_ok := reserve_ok;
  static_unlock_ok := publish_ok;
  static_remove_ok := static_removal_ok;
|}.

End concept.

(** ** Properties *)

(** The life of a process-local static storage whose name maps to [path].  While it is
    locked, it exists as being set up, cannot be opened and cannot be created again;
    after [unlock] every reader gets exactly the content; when the owner is dropped the
    map is as before and the storage does not exist. *)
Theorem static_storage_lifecycle cfg n path w contents :
  path_for cfg n = Ret path -> w !! path = None ->
  let b := {| b_name := n; b_has_ownership := true; b_config := cfg |} in
  exists l w1 s w2 r,
    create_locked b w = Ret (Ok l, w1) /\
    does_exist_cfg n cfg w1 = Ret (Err UnderlyingResourcesBeingSetUp) /\
    open b w1 = Ret (Err StaticIsLocked) /\
    create_locked b w1 = Ret (Err StaticAlreadyExists, w1) /\
    unlock l contents w1 = Ret (Ok s, w2) /\
    does_exist_cfg n cfg w2 = Ret (Ok true) /\
    open b w2 = Ret (Ok r) /\
    read r (replicate (Z.to_nat (len r)) 32) = Ret (Ok tt, contents) /\
    (forall k, k <> path -> w2 !! k = w !! k) /\
    drop s w2 = Ret w /\ open b w = Ret (Err StaticDoesNotExist).
Proof.
  intros Ep Ew b. unfold create_locked, does_exist_cfg, open, unlock. cbn [b b_config b_name b_has_ownership].
  rewrite !Ep. cbn [outcome_bind]. rewrite !Ew. eexists _, _, _, _, _.
  split; [done|]. cbn [storage config name content]. rewrite !Ep. cbn [outcome_bind].
  rewrite !lookup_insert_eq. cbn [is_locked]. do 6 (split; [done|]). split_and!.
  - apply read_all.
  - intros k Hk. by rewrite !lookup_insert_ne.
  - unfold drop, remove_cfg. cbn [has_ownership name config]. rewrite Ep. cbn [outcome_bind].
    rewrite insert_insert_eq, delete_insert_id by done. done.
  - done.
Qed.

(** The handle that [create] returns does not see the content it was created with.
    [unlock] puts a new content into the map but returns the storage it was called on,
    which still refers to the empty content of the locked storage: its length is 0, and
    reading into a buffer of the length of the content panics. *)
Theorem static_storage_creator_reads_nothing cfg n path w contents :
  path_for cfg n = Ret path -> w !! path = None -> contents <> [] ->
  exists s w', create {| b_name := n; b_has_ownership := true; b_config := cfg |} contents w = Ret (Ok s, w') /\
    w' !! path = Some {| is_locked := false; value := contents |} /\
    len s = 0 /\ read s (replicate (length contents) 32) = Panic.
Proof.
  intros Ep Ew Hne. unfold create, create_locked, unlock. cbn [b_config b_name b_has_ownership].
  rewrite !Ep. cbn [outcome_bind]. rewrite Ew. cbn [outcome_bind storage config name]. rewrite Ep. cbn [outcome_bind].
  rewrite lookup_insert_eq. cbn [outcome_bind]. eexists _, _. split; [done|]. split_and!.
  - by rewrite lookup_insert_eq.
  - done.
  - unfold read. cbn [content value]. unfold zlength at 1 3. rewrite length_replicate. change (zlength (@nil Z)) with 0.
    destruct contents; [done|]. done.
Qed.

End process_local.

Lemma example_static_path : exists cfg path, @path_for dev (replicate 4096 0) cfg [97] = Ret path.
Proof.
  destruct NC.example_path as (cfg & s & E & _). exists cfg, (as_bytes s). unfold path_for. by rewrite E.
Qed.

Lemma static_storage_lifecycle_witness : exists cfg b l w1,
  @create_locked dev (replicate 4096 0) b ∅ = Ret (Ok l, w1) /\
  @does_exist_cfg dev (replicate 4096 0) [97] cfg w1 = Ret (Err UnderlyingResourcesBeingSetUp).
Proof.
  destruct example_static_path as (cfg & path & E).
  destruct (@static_storage_lifecycle dev (replicate 4096 0) cfg [97] path ∅ [1; 2; 3] E)
    as (l & w1 & s & w2 & r & E1 & E2 & _); [apply lookup_empty|].
  exists cfg, {| b_name := [97]; b_has_ownership := true; b_config := cfg |}, l, w1. split; [exact E1|exact E2].
Defined.

Lemma static_storage_creator_reads_nothing_witness : exists b s w,
  @create dev (replicate 4096 0) b [1; 2; 3] ∅ = Ret (Ok s, w) /\ read s (replicate 3 32) = Panic.
Proof.
  destruct example_static_path as (cfg & path & E).
  destruct (@static_storage_creator_reads_nothing dev (replicate 4096 0) cfg [97] path ∅ [1; 2; 3] E)
    as (s & w & E1 & _ & _ & E2); [apply lookup_empty|discriminate|].
  exists {| b_name := [97]; b_has_ownership := true; b_config := cfg |}, s, w. split; [exact E1|exact E2].
Defined.

End StaticStorage.
