(* ===== verification/FileStorage.v ===== *)
(** * Static storages in files

    [iceoryx2_cal::static_storage::file]: the static storage behind services that are
    shared between processes.  Its creator creates a file with write permissions, writes
    the content and then makes the file read-only for its owner; a file with these
    permissions counts as published.  A reader opens the file, checks the permissions
    and reads as many bytes as the file is long.

    The operations are programs of system calls.  Section [protocol] shows that in every
    interleaving of the system calls of any number of creators, readers and removers, with
    calls that may fail at any time, a reader that succeeds gets the complete content of
    one creator. *)

From S2P Require Import Prelude ByteString SemanticString SystemTypes Posix Processes Files Directory NamedConcept StaticStorage.

Module FileStorage.
Module NC := NamedConcept.NamedConcept.
Module Dir := Directory.
Import Posix Processes Files.

(* src/iceoryx2_cal/src/static_storage/file.rs:54-54 FINAL_PERMISSIONS *)
Definition FINAL_PERMISSIONS : Z := OWNER_READ.

(* src/iceoryx2_cal/src/static_storage/file.rs:144-150 Storage *)
Record Storage := {
  name : list Z; config : NC.NamedConceptConfiguration; has_ownership : bool; file : File; len : Z;
}.

(* src/iceoryx2_cal/src/static_storage/file.rs:106-108 Locked *)
Record Locked := { static_storage : Storage }.

(* src/iceoryx2_cal/src/static_storage/file.rs:331-335 Builder *)
Record Builder := { storage_name : list Z; b_has_ownership : bool; b_config : NC.NamedConceptConfiguration }.

Section operations.
Context `{Profile} (fuel : nat) (memory file_memory : list Z).
Implicit Types (s : Storage) (b : Builder) (cfg : NC.NamedConceptConfiguration).

Definition path_for cfg (n : list Z) : prog (list Z) :=
  let? p := lift (NC.path_for cfg memory n) in Done (as_bytes p).

(* src/iceoryx2_cal/src/static_storage/file.rs:177-211 remove_cfg *)
Definition remove_cfg (n : list Z) cfg : prog (Result bool NamedConceptRemoveError) :=
  let? file_path := path_for cfg n in
  let? r := open_existing (builder_new file_path) AccessRead in
  match r with
  | Err OpenFileDoesNotExist => Done (Ok false)
  | Err _ => Done (Err RemoveInternalError)
  | Ok f =>
      let? r := set_permission f OWNER_ALL in
      let? r :=
        match r with
        | Err _ => Done (Err RemoveInternalError)
        | Ok _ =>
            let? r := Files.remove file_path in
            Done match r with
                 | Ok v => Ok v
                 | Err (FileRemoveInsufficientPermissions | FileRemovePartOfReadOnlyFileSystem) =>
                     Err RemoveInsufficientPermissions
                 | Err _ => Err RemoveInternalError
                 end
        end in
      let? _ := drop_file fuel f in Done r
  end.

(** The owner removes the file, whatever comes of it; then the field [file] is dropped. *)
(* src/iceoryx2_cal/src/static_storage/file.rs:153-165 drop *)
Definition drop_storage s : prog unit :=
  let? _ := (if s.(has_ownership) then let? _ := remove_cfg s.(name) s.(config) in Done tt else Done tt) in
  drop_file fuel s.(file).

(* src/iceoryx2_cal/src/static_storage/file.rs:117-139 unlock *)
Definition unlock (l : Locked) (contents : list Z) : prog (Result Storage StaticStorageUnlockError) :=
  let s := l.(static_storage) in
  let fail e : prog (Result Storage StaticStorageUnlockError) := let? _ := drop_storage s in Done (Err e) in
  let? r := write s.(file) contents in
  match r with
  | Err WriteInsufficientPermissions => fail UnlockInsufficientPermissions
  | Err WriteNoSpaceLeft => fail NoSpaceLeft
  | Err _ => fail UnlockInternalError
  | Ok bytes_written =>
      if negb (bytes_written =? zlength contents) then fail NoSpaceLeft
      else
        let? r := set_permission s.(file) FINAL_PERMISSIONS in
        match r with
        | Err PermissionInsufficientPermissions => fail UnlockInsufficientPermissions
        | Err _ => fail UnlockInternalError
        | Ok _ => Done (Ok {| name := s.(name); config := s.(config); has_ownership := s.(has_ownership);
                              file := s.(file); len := zlength contents |})
        end
  end.

(** [entries]: what the directory contains. *)
(* src/iceoryx2_cal/src/static_storage/file.rs:228-239 list_cfg *)
Fixpoint list_entries cfg (entries : list Dir.DirectoryEntry) : outcome (list (list Z)) :=
  match entries with
  | [] => Ret []
  | entry :: entries =>
      let m := entry.(Dir.entry_metadata) in
      if bool_decide (m.(file_type) = TypeFile) && (m.(permission) =? FINAL_PERMISSIONS) then
        let! n := NC.extract_name_from_file cfg entry.(Dir.entry_name) in
        let! l := list_entries cfg entries in
        Ret (match n with Some n => as_bytes n :: l | None => l end)
      else list_entries cfg entries
  end.

(* src/iceoryx2_cal/src/static_storage/file.rs:213-239 list_cfg *)
Definition list_cfg cfg : prog (Result (list (list Z)) NamedConceptListError) :=
  let? r := Dir.new cfg.(NC.path_hint) in
  match r with
  | Err Dir.DirOpenInsufficientPermissions => Done (Err ListInsufficientPermissions)
  | Err _ => Done (Err ListInternalError)
  | Ok directory =>
      let? r := Dir.contents file_memory directory in
      let? r :=
        match r with
        | Err Dir.DirReadInsufficientPermissions => Done (Err ListInsufficientPermissions)
        | Err _ => Done (Err ListInternalError)
        | Ok entries => let? l := lift (list_entries cfg entries) in Done (Ok l)
        end in
      let? _ := Dir.drop fuel directory in Done r
  end.

(* src/iceoryx2_cal/src/static_storage/file.rs:241-280 does_exist_cfg *)
Definition does_exist_cfg (n : list Z) cfg : prog (Result bool NamedConceptDoesExistError) :=
  let? adjusted_path := path_for cfg n in
  let? r := Files.does_exist adjusted_path in
  match r with
  | Err _ => Done (Err UnderlyingResourcesCorrupted)
  | Ok false => Done (Ok false)
  | Ok true =>
      let? r := open_existing (builder_new adjusted_path) AccessRead in
      match r with
      | Err _ => Done (Err UnderlyingResourcesCorrupted)
      | Ok f =>
          let? r := metadata f in
          let? _ := drop_file fuel f in
          Done match r with
               | Err _ => Err UnderlyingResourcesCorrupted
               | Ok m =>
                   if bool_decide (m.(file_type) = TypeFile) && (m.(permission) =? FINAL_PERMISSIONS) then Ok true
                   else Err UnderlyingResourcesBeingSetUp
               end
      end
  end.

(* src/iceoryx2_cal/src/static_storage/file.rs:287-289 release_ownership *)
Definition release_ownership s : Storage :=
  {| name := s.(name); config := s.(config); has_ownership := false; file := s.(file); len := s.(len) |}.

(* src/iceoryx2_cal/src/static_storage/file.rs:291-293 acquire_ownership *)
Definition acquire_ownership s : Storage :=
  {| name := s.(name); config := s.(config); has_ownership := true; file := s.(file); len := s.(len) |}.

(* src/iceoryx2_cal/src/static_storage/file.rs:303-324 read *)
Definition read s (content : list Z) : prog (Result unit StaticStorageReadError * list Z) :=
  if zlength content <? s.(len) then Done (Err BufferTooSmall, content)
  else
    let? '(r, content) := Files.read s.(file) content in
    Done match r with
         | Err _ => (Err StaticReadError, content)
         | Ok bytes_read =>
             if negb (bytes_read =? s.(len)) then (Err StaticStorageWasModified, content) else (Ok tt, content)
         end.

(* src/iceoryx2_cal/src/static_storage/file.rs:373-390 create_locked *)
Definition create_file b : prog (Result Locked StaticStorageCreateError) :=
  let? p := path_for b.(b_config) b.(storage_name) in
  let? r := builder_create fuel (with_permission (with_creation_mode (builder_new p) CreateExclusive) OWNER_ALL) in
  Done match r with
       | Err CreationFileAlreadyExists => Err StaticAlreadyExists
       | Err CreationInsufficientPermissions => Err StaticCreateInsufficientPermissions
       | Err _ => Err StaticCreation
       | Ok f => Ok {| static_storage := {| name := b.(storage_name); config := b.(b_config);
                                            has_ownership := b.(b_has_ownership); file := f; len := 0 |} |}
       end.

(* src/iceoryx2_cal/src/static_storage/file.rs:358-391 create_locked *)
Definition create_locked b : prog (Result Locked StaticStorageCreateError) :=
  let cfg := b.(b_config) in
  try_ (Dir.does_exist cfg.(NC.path_hint)) (fun _ => StaticCreation) (fun exists_ =>
  try_ (if (exists_ : bool) then Done (Ok tt)
        else try_ (Dir.create memory cfg.(NC.path_hint) (Z.lor OWNER_ALL GROUP_ALL)) (fun _ => StaticCreation)
               (fun d => let? _ := Dir.drop fuel d in Done (Ok tt))) id (fun _ =>
  create_file b)).

(* src/iceoryx2_cal/src/static_storage/file.rs:393-418 open *)
Definition open b : prog (Result Storage StaticStorageOpenError) :=
  let? p := path_for b.(b_config) b.(storage_name) in
  try_ (open_existing (builder_new p) AccessRead) (fun _ => StaticDoesNotExist) (fun f =>
  let? r := metadata f in
  match r with
  | Err _ => let? _ := drop_file fuel f in Done (Err StaticRead)
  | Ok m =>
      if negb (m.(permission) =? FINAL_PERMISSIONS) then let? _ := drop_file fuel f in Done (Err StaticIsLocked)
      else Done (Ok {| name := b.(storage_name); config := b.(b_config); has_ownership := b.(b_has_ownership);
                       file := f; len := m.(size) |})
  end).

End operations.

(** ** The protocol of a participant

    What a participant knows about its descriptors, the calls it may perform with this
    knowledge, and what it learns from an answer.  Only the creator of a file writes to it
    and publishes it; what is published does not change any more. *)

(** What is known about the content of a file: nothing, that it is published with the
    content [c], or that the participant is writing it and it contains [d]. *)
Inductive status := Unknown | Complete (c : list Z) | Writing (d : list Z).

Record knowledge := { inode : nat; position : Z; content : status }.

(** The descriptors, and the contents that were seen published. *)
Record role := { fds : gmap Z knowledge; seen : list (list Z) }.

Definition published (m : Z) : bool := as_permission m =? FINAL_PERMISSIONS.

Definition set_fds (r : role) m : role := {| fds := m; seen := r.(seen) |}.

Definition know (kn : knowledge) (o : Z) (c : status) : knowledge := {| inode := kn.(inode); position := o; content := c |}.

Definition is_writing (kn : knowledge) : bool := match kn.(content) with Writing _ => true | _ => false end.

(** [mine] is the content the participant is to publish. *)
Definition may (mine : option (list Z)) (r : role) (q : request) : Prop :=
  match q with
  | Open _ _ | Opendir _ | Access _ | Remove _ | Stat _ | Scandir _ => True
  | Mkdir _ m => m = Z.lor OWNER_ALL GROUP_ALL
  | OpenWithMode _ flags m => O_CREAT ∈ flags /\ O_EXCL ∈ flags /\ O_RDWR ∈ flags /\ m = OWNER_ALL
  | FcntlGetfd fd | Read fd _ | Lseek fd _ | Fstat fd | Close fd | Closedir fd => is_Some (r.(fds) !! fd)
  | Write fd _ => exists kn d, r.(fds) !! fd = Some kn /\ kn.(content) = Writing d
  | Fchmod fd m =>
      m = OWNER_ALL /\ is_Some (r.(fds) !! fd) \/
      m = FINAL_PERMISSIONS /\ exists kn d, r.(fds) !! fd = Some kn /\ kn.(content) = Writing d /\ mine = Some d
  | _ => False
  end.

(** What the participant knows after a call that succeeded. *)
Definition learns (r : role) (q : request) : answer q -> role -> Prop :=
  match q return answer q -> role -> Prop with
  | Open _ _ | Opendir _ => fun fd r' => 0 <= fd /\ exists i,
      r.(fds) !! fd = None /\ r' = set_fds r (<[fd := {| inode := i; position := 0; content := Unknown |}]> r.(fds))
  | OpenWithMode _ _ _ => fun fd r' => 0 <= fd /\ exists i,
      r.(fds) !! fd = None /\ r' = set_fds r (<[fd := {| inode := i; position := 0; content := Writing [] |}]> r.(fds))
  | Read fd nbyte => fun l r' => exists kn, r.(fds) !! fd = Some kn /\ zlength l <= nbyte /\
      (forall c, kn.(content) = Complete c -> l `prefix_of` drop (Z.to_nat kn.(position)) c) /\
      r' = set_fds r (<[fd := know kn (kn.(position) + zlength l) kn.(content)]> r.(fds))
  | Write fd buf => fun n r' => exists kn d, r.(fds) !! fd = Some kn /\ kn.(content) = Writing d /\ 0 <= n <= zlength buf /\
      r' = set_fds r (<[fd := know kn (kn.(position) + n) (Writing (splice d kn.(position) (take (Z.to_nat n) buf)))]> r.(fds))
  | Lseek fd o => fun a r' => exists kn, r.(fds) !! fd = Some kn /\ a = o /\
      r' = set_fds r (<[fd := know kn o kn.(content)]> r.(fds))
  | Fstat fd => fun st r' => exists kn, r.(fds) !! fd = Some kn /\
      if published st.(st_mode) then exists c, st.(st_size) = zlength c /\
        r' = {| fds := <[fd := know kn kn.(position) (Complete c)]> r.(fds); seen := c :: r.(seen) |}
      else r' = r
  | Fchmod fd m => fun _ r' => exists kn, r.(fds) !! fd = Some kn /\
      match kn.(content) with
      | Writing d => r' = if m =? FINAL_PERMISSIONS
                          then set_fds r (<[fd := know kn kn.(position) (Complete d)]> r.(fds)) else r
      | _ => r' = r
      end
  | Close fd | Closedir fd => fun _ r' => r' = set_fds r (delete fd r.(fds))
  | _ => fun _ r' => r' = r
  end.

Definition next (r : role) (q : request) (a : Result (answer q) Errno) (r' : role) : Prop :=
  match a with
  | Ok a => learns r q a r'
  | Err e => r' = r /\
      match q with
      | FcntlGetfd _ => False
      | Close _ => e = EINTR \/ e = EIO
      | Closedir _ => e = EINTR
      | _ => True
      end
  end.

(** ** The invariant of the file system *)

Section invariant.
Context (umask : nat -> Z) (Humask : forall j, has (umask j) OWNER_WRITE = false).

(** [x] is a descriptor about which [kn] is known; [G] are the contents of the published files. *)
Definition fd_ok (k : kernel) (G : gmap nat (list Z)) (x : nat * Z) (kn : knowledge) : Prop :=
  exists d n, k.(descriptors) !! x = Some d /\ d.(target) = kn.(inode) /\ d.(offset) = kn.(position) /\
    k.(nodes) !! kn.(inode) = Some n /\
    match kn.(content) with
    | Unknown => True
    | Complete c => G !! kn.(inode) = Some c
    | Writing x => G !! kn.(inode) = None /\ n.(data) = x
    end.

Record inv (k : kernel) (G : gmap nat (list Z)) (claims : list (list Z)) (rs : list role) : Prop := {
  inv_wf : wf k;
  inv_published i n : k.(nodes) !! i = Some n -> published n.(mode) = true -> is_Some (G !! i);
  inv_contents i c : G !! i = Some c -> c ∈ claims /\ exists n, k.(nodes) !! i = Some n /\ n.(data) = c;
  inv_fds j r fd kn : rs !! j = Some r -> r.(fds) !! fd = Some kn -> fd_ok k G (j, fd) kn;
  inv_writers j1 j2 r1 r2 fd1 fd2 kn1 kn2 : rs !! j1 = Some r1 -> rs !! j2 = Some r2 ->
    r1.(fds) !! fd1 = Some kn1 -> r2.(fds) !! fd2 = Some kn2 -> is_writing kn1 = true -> is_writing kn2 = true ->
    kn1.(inode) = kn2.(inode) -> j1 = j2 /\ fd1 = fd2;
  inv_seen j r c : rs !! j = Some r -> c ∈ r.(seen) -> c ∈ claims;
}.

Lemma fd_frame k k' G G' x kn : fd_ok k G x kn ->
  k'.(descriptors) !! x = k.(descriptors) !! x ->
  (forall n, k.(nodes) !! kn.(inode) = Some n ->
    exists n', k'.(nodes) !! kn.(inode) = Some n' /\ (is_writing kn = true -> n'.(data) = n.(data))) ->
  (kn.(content) <> Unknown -> G' !! kn.(inode) = G !! kn.(inode)) -> fd_ok k' G' x kn.
Proof.
  intros (d & n & Hd & Ht & Ho & Hn & Hc) Ed En EG. destruct (En n Hn) as (n' & Hn' & Hdata). exists d, n'.
  rewrite Ed. do 4 (split; [done|]). unfold is_writing in Hdata. destruct kn.(content); [done|by rewrite EG|].
  destruct Hc as [Hg Hd']. rewrite EG, Hdata by done. by split.
Qed.

Lemma inv_update k G cl rs j r k' G' r' : inv k G cl rs -> rs !! j = Some r -> wf k' ->
  (forall i n, k'.(nodes) !! i = Some n -> published n.(mode) = true -> is_Some (G' !! i)) ->
  (forall i c, G' !! i = Some c -> c ∈ cl /\ exists n, k'.(nodes) !! i = Some n /\ n.(data) = c) ->
  (forall j0 r0 fd kn, j0 <> j -> rs !! j0 = Some r0 -> r0.(fds) !! fd = Some kn -> fd_ok k' G' (j0, fd) kn) ->
  (forall fd kn, r'.(fds) !! fd = Some kn -> fd_ok k' G' (j, fd) kn) ->
  (forall fd kn, r'.(fds) !! fd = Some kn -> is_writing kn = true ->
    (exists kn0, r.(fds) !! fd = Some kn0 /\ is_writing kn0 = true /\ kn0.(inode) = kn.(inode)) \/
    (k.(nodes) !! kn.(inode) = None /\ forall fd' kn', r'.(fds) !! fd' = Some kn' -> kn'.(inode) = kn.(inode) -> fd' = fd)) ->
  (forall c, c ∈ r'.(seen) -> c ∈ cl) -> inv k' G' cl (<[j := r']> rs).
Proof.
  intros Hinv Hj Hwf Hpub Hcont Hother Hmine Hw Hseen. split; [done..| | |].
  - intros j0 r0 fd kn [(-> & -> & _)|[Hne H0]]%list_lookup_insert_Some; [by apply Hmine|]. by apply (Hother j0 r0).
  - (* two writers of one file *)
    assert (Hcross : forall j0 r0 fd fd0 kn kn0, j0 <> j -> rs !! j0 = Some r0 -> r0.(fds) !! fd0 = Some kn0 ->
      r'.(fds) !! fd = Some kn -> is_writing kn0 = true -> is_writing kn = true -> kn0.(inode) = kn.(inode) -> False).
    { intros j0 r0 fd fd0 kn kn0 Hne H0 Hf0 Hf Hw0 Hwk Ei. destruct (Hw fd kn Hf Hwk) as [(kn1 & Hf1 & Hw1 & E1)|[Hfresh _]].
      - destruct (inv_writers _ _ _ _ Hinv j0 j r0 r fd0 fd kn0 kn1) as [? _]; try done. congruence.
      - destruct (inv_fds _ _ _ _ Hinv j0 r0 fd0 kn0 H0 Hf0) as (d & n & _ & _ & _ & Hn & _). congruence. }
    intros j1 j2 r1 r2 fd1 fd2 kn1 kn2 H1 H2 Hf1 Hf2 Hw1 Hw2 Ei.
    apply list_lookup_insert_Some in H1 as [(<- & <- & _)|[Hne1 H1]], H2 as [(<- & <- & _)|[Hne2 H2]].
    + split; [done|]. destruct (Hw fd1 kn1 Hf1 Hw1) as [(kn3 & Hf3 & Hw3 & E3)|[_ Hu]]; [|symmetry; by eapply Hu].
      destruct (Hw fd2 kn2 Hf2 Hw2) as [(kn4 & Hf4 & Hw4 & E4)|[_ Hu]]; [|by eapply Hu].
      eapply (inv_writers _ _ _ _ Hinv j j r r fd1 fd2 kn3 kn4); try done. congruence.
    + exfalso. by eapply (Hcross j2 r2 fd1 fd2).
    + exfalso. by eapply (Hcross j1 r1 fd2 fd1).
    + by eapply (inv_writers _ _ _ _ Hinv j1 j2 r1 r2).
  - intros j0 r0 c [(-> & -> & _)|[Hne H0]]%list_lookup_insert_Some; [by apply Hseen|]. by eapply inv_seen.
Qed.

(** Steps that change neither a file nor the descriptors of others. *)
Lemma inv_local k G cl rs j r k' r' : inv k G cl rs -> rs !! j = Some r -> wf k' -> k'.(nodes) = k.(nodes) ->
  (forall x, x.1 <> j -> k'.(descriptors) !! x = k.(descriptors) !! x) ->
  (forall fd kn, r'.(fds) !! fd = Some kn -> fd_ok k' G (j, fd) kn) ->
  (forall fd kn, r'.(fds) !! fd = Some kn -> is_writing kn = true ->
    exists kn0, r.(fds) !! fd = Some kn0 /\ is_writing kn0 = true /\ kn0.(inode) = kn.(inode)) ->
  (forall c, c ∈ r'.(seen) -> c ∈ cl) -> inv k' G cl (<[j := r']> rs).
Proof.
  intros Hinv Hj Hwf En Ed Hmine Hw Hseen. eapply inv_update; try done.
  - rewrite En. apply (inv_published _ _ _ _ Hinv).
  - rewrite En. apply (inv_contents _ _ _ _ Hinv).
  - intros j0 r0 fd kn Hne H0 Hf. eapply fd_frame; [by eapply inv_fds|by apply Ed|rewrite En; eauto|done].
  - intros fd kn Hf Hwk. left. by apply (Hw fd kn).
Qed.

(** Steps that concern one descriptor of the participant. *)
Lemma inv_fd k G cl rs j r k' fd kn' sn : inv k G cl rs -> rs !! j = Some r -> wf k' -> k'.(nodes) = k.(nodes) ->
  (forall x, x <> (j, fd) -> k'.(descriptors) !! x = k.(descriptors) !! x) -> fd_ok k' G (j, fd) kn' ->
  (is_writing kn' = true -> exists kn0, r.(fds) !! fd = Some kn0 /\ is_writing kn0 = true /\ kn0.(inode) = kn'.(inode)) ->
  (forall c, c ∈ sn -> c ∈ cl) -> inv k' G cl (<[j := {| fds := <[fd := kn']> r.(fds); seen := sn |}]> rs).
Proof.
  intros Hinv Hj Hwf En Ed Hok Hw Hsn. eapply inv_local; try done; cbn [fds].
  - intros x Hx. apply Ed. by intros ->.
  - intros fd' kn [[<- <-]|[Hne Hf]]%lookup_insert_Some; [done|].
    eapply fd_frame; [by eapply (inv_fds _ _ _ _ Hinv j r)|apply Ed; congruence|rewrite En; eauto|done].
  - intros fd' kn [[<- <-]|[Hne Hf]]%lookup_insert_Some; [done|]. eauto.
Qed.

(** Steps after which the participant knows the same. *)
Lemma inv_same k G cl rs j r k' : inv k G cl rs -> rs !! j = Some r -> wf k' -> k'.(nodes) = k.(nodes) ->
  k'.(descriptors) = k.(descriptors) -> inv k' G cl (<[j := r]> rs).
Proof.
  intros Hinv Hj Hwf En Ed. eapply inv_local; try done.
  - by rewrite Ed.
  - intros fd kn Hf. eapply fd_frame; [by eapply (inv_fds _ _ _ _ Hinv j r)|by rewrite Ed|rewrite En; eauto|done].
  - eauto.
  - intros c. by eapply inv_seen.
Qed.

(** The mode or the data of a file change; [G'] is what is published afterwards. *)
Lemma inv_node k G cl rs j r i n n' G' fd kn kn' ds : inv k G cl rs -> rs !! j = Some r ->
  r.(fds) !! fd = Some kn -> kn.(inode) = i -> kn'.(inode) = i -> k.(nodes) !! i = Some n ->
  let k' := set_node (set_descriptors k ds) i n' in
  wf k' -> (forall x, x <> (j, fd) -> ds !! x = k.(descriptors) !! x) ->
  (published n'.(mode) = true -> is_Some (G' !! i)) ->
  (G' = G /\ (n'.(data) = n.(data) \/ is_writing kn = true) \/
   is_writing kn = true /\ n'.(data) = n.(data) /\ n.(data) ∈ cl /\ G' = <[i := n.(data)]> G) ->
  fd_ok k' G' (j, fd) kn' -> (is_writing kn' = true -> is_writing kn = true) ->
  inv k' G' cl (<[j := set_fds r (<[fd := kn']> r.(fds))]> rs).
Proof.
  intros Hinv Hj Hf Ei Ei' Hn k' Hwf Ed Hpub Hcase Hok Hwk.
  assert (HwG : is_writing kn = true -> G !! i = None).
  { destruct (inv_fds _ _ _ _ Hinv j r fd kn Hj Hf) as (d & n0 & _ & _ & _ & _ & Hc). unfold is_writing.
    destruct kn.(content); try done. intros _. rewrite <-Ei. apply Hc. }
  assert (Hframe : forall j0 r0 fd0 kn0, (j0, fd0) <> (j, fd) -> rs !! j0 = Some r0 -> r0.(fds) !! fd0 = Some kn0 -> fd_ok k' G' (j0, fd0) kn0).
  { intros j0 r0 fd0 kn0 Hne H0 Hf0. pose proof (inv_fds _ _ _ _ Hinv j0 r0 fd0 kn0 H0 Hf0) as Hok0.
    assert (Hnw : is_writing kn0 = true -> is_writing kn = true -> kn0.(inode) <> i).
    { intros Hw0 Hw1 E0. destruct (inv_writers _ _ _ _ Hinv j0 j r0 r fd0 fd kn0 kn) as [-> ->]; congruence. }
    eapply fd_frame; [exact Hok0|by apply Ed| |].
    - intros m Hm. cbn. destruct (decide (kn0.(inode) = i)) as [E0|E0]; [|by rewrite lookup_insert_ne by done; eauto].
      rewrite E0, lookup_insert_eq in *. assert (m = n) as -> by congruence. exists n'. split; [done|]. intros Hw0.
      destruct Hcase as [[_ [E|Hw1]]|(Hw1 & E & _)]; [done|by destruct (Hnw Hw0 Hw1)|done].
    - intros Hu. destruct Hcase as [[-> _]|(Hw1 & _ & _ & ->)]; [done|]. apply lookup_insert_ne. intros E0.
      specialize (HwG Hw1). destruct Hok0 as (d & n0 & _ & _ & _ & _ & Hc). unfold is_writing in Hnw.
      destruct kn0.(content); [done| |by destruct (Hnw eq_refl Hw1)]. rewrite <-E0 in Hc. congruence. }
  eapply inv_update; try done; cbn [k' nodes set_node set_nodes set_descriptors set_fds fds].
  - intros i0 n0 [[<- <-]|[Hne H0]]%lookup_insert_Some Hp; [by apply Hpub|].
    destruct (inv_published _ _ _ _ Hinv i0 n0 H0 Hp) as [c Hc].
    destruct Hcase as [[-> _]|(_ & _ & _ & ->)]; [by eauto|]. rewrite lookup_insert_ne by done. eauto.
  - intros i0 c Hc. assert (Hold : G !! i0 = Some c -> c ∈ cl /\ exists n0, <[i := n']> k.(nodes) !! i0 = Some n0 /\ n0.(data) = c).
    { intros Hc0. destruct (inv_contents _ _ _ _ Hinv i0 c Hc0) as (Hcl & n0 & H0 & Hd). split; [done|].
      destruct (decide (i = i0)) as [<-|]; [|rewrite lookup_insert_ne by done; eauto]. rewrite lookup_insert_eq. exists n'.
      split; [done|]. assert (n0 = n) as -> by congruence.
      destruct Hcase as [[_ [E|Hw1]]|(Hw1 & E & _)]; [congruence|rewrite HwG in Hc0 by done; done|congruence]. }
    destruct Hcase as [[-> _]|(_ & E & Hcl & ->)]; [by apply Hold|].
    apply lookup_insert_Some in Hc as [[<- <-]|[Hne Hc]]; [|by apply Hold]. split; [done|]. rewrite lookup_insert_eq. eauto.
  - intros j0 r0 fd0 kn0 Hne H0 Hf0. apply (Hframe j0 r0); congruence.
  - intros fd0 kn0 [[<- <-]|[Hne Hf0]]%lookup_insert_Some; [done|]. apply (Hframe j r); congruence.
  - intros fd0 kn0 [[<- <-]|[Hne Hf0]]%lookup_insert_Some Hw0; [|by eauto]. left. exists kn. split; [done|]. split; [by apply Hwk|congruence].
  - intros c. by eapply (inv_seen _ _ _ _ Hinv j r).
Qed.

(** A new node has the permission to write, which a published file does not have. *)
Lemma created_unpublished t m j : has m OWNER_WRITE = true -> published (Z.lor t (Z.ldiff m (umask j))) = false.
Proof.
  specialize (Humask j). unfold has in *. change (bits OWNER_WRITE) with (2 ^ 7) in *. intros Hm.
  assert (Hbit : forall x, (Z.land x (2 ^ 7) =? 0) = negb (Z.testbit x 7)).
  { intros x. destruct (Z.eqb_spec (Z.land x (2 ^ 7)) 0) as [E|E]; destruct (Z.testbit x 7) eqn:Eb; try done; exfalso.
    - assert (Et : Z.testbit (Z.land x (2 ^ 7)) 7 = true) by (rewrite Z.land_spec, Eb; done). by rewrite E, Z.bits_0 in Et.
    - apply E. apply Z.bits_inj'. intros i Hi. rewrite Z.land_spec, Z.pow2_bits_eqb, Z.bits_0 by lia.
      destruct (Z.eqb_spec 7 i) as [<-|]; [by rewrite Eb|apply andb_false_r]. }
  rewrite Hbit, negb_involutive in Humask. rewrite Hbit, negb_involutive in Hm.
  unfold published. apply Z.eqb_neq. intros E. apply (f_equal (fun x => Z.testbit x 7)) in E.
  rewrite as_permission_land, Z.land_spec, Z.lor_spec, Z.ldiff_spec, Hm, Humask, orb_true_r in E. discriminate E.
Qed.

Lemma inv_new_node k G cl rs p i n : let k' := set_names (set_node k i n) (<[p := i]> k.(names)) in
  inv k G cl rs -> k.(nodes) !! i = None -> published n.(mode) = false -> wf k' -> inv k' G cl rs.
Proof.
  intros k' Hinv Hi Hp Hwf. split; [done|..]; cbn.
  - intros i0 n0 [[<- <-]|[Hne H0]]%lookup_insert_Some Hp0; [congruence|]. by eapply inv_published.
  - intros i0 c Hc. destruct (inv_contents _ _ _ _ Hinv i0 c Hc) as (Hcl & n0 & H0 & Hd). split; [done|]. exists n0.
    rewrite lookup_insert_ne by congruence. done.
  - intros j r fd kn Hj Hf. eapply fd_frame; [by eapply inv_fds|done| |done]. cbn. intros m Hm. exists m.
    rewrite lookup_insert_ne by congruence. done.
  - apply (inv_writers _ _ _ _ Hinv).
  - apply (inv_seen _ _ _ _ Hinv).
Qed.

Lemma unused_unknown k G cl rs j r fd : inv k G cl rs -> rs !! j = Some r -> unused j k fd -> r.(fds) !! fd = None.
Proof.
  intros Hinv Hj [_ Hu]. destruct (r.(fds) !! fd) as [kn|] eqn:E; [|done].
  destruct (inv_fds _ _ _ _ Hinv j r fd kn Hj E) as (d & n & Hd & _). congruence.
Qed.

(** What the answers of the system mean for the participant and the invariant. *)
Lemma open_sound k G cl rs j r fd i flags : inv k G cl rs -> rs !! j = Some r -> is_Some (k.(nodes) !! i) -> unused j k fd ->
  wf (open_descriptor j k fd i flags) ->
  let r' := set_fds r (<[fd := {| inode := i; position := 0; content := Unknown |}]> r.(fds)) in
  r.(fds) !! fd = None /\ inv (open_descriptor j k fd i flags) G cl (<[j := r']> rs).
Proof.
  intros Hinv Hj [n Hn] Hu Hwf r'. split; [by eapply unused_unknown|]. eapply inv_fd; try done.
  - intros x Hx. by apply lookup_insert_ne.
  - eexists _, n. cbn. rewrite lookup_insert_eq. by split_and!.
  - intros c. by eapply inv_seen.
Qed.

Lemma create_sound k G cl rs j r fd p i flags m k1 : inv k G cl rs -> rs !! j = Some r -> k.(nodes) !! i = None -> unused j k fd ->
  has m OWNER_WRITE = true -> create_node k p i (Z.lor S_IFREG (Z.ldiff m (umask j))) k1 -> wf (open_descriptor j k1 fd i flags) ->
  let r' := set_fds r (<[fd := {| inode := i; position := 0; content := Writing [] |}]> r.(fds)) in
  r.(fds) !! fd = None /\ inv (open_descriptor j k1 fd i flags) G cl (<[j := r']> rs).
Proof.
  intros Hinv Hj Hi Hu Hm (n & [Em Ed] & ->) Hwf r'. assert (Hf : r.(fds) !! fd = None) by (by eapply unused_unknown).
  split; [done|]. assert (Hfresh : forall j0 r0 fd0 kn, rs !! j0 = Some r0 -> r0.(fds) !! fd0 = Some kn -> kn.(inode) <> i).
  { intros j0 r0 fd0 kn H0 Hf0 E. destruct (inv_fds _ _ _ _ Hinv j0 r0 fd0 kn H0 Hf0) as (d & n0 & _ & _ & _ & Hn & _). congruence. }
  assert (Hgi : G !! i = None).
  { destruct (G !! i) as [c|] eqn:E; [|done]. destruct (inv_contents _ _ _ _ Hinv i c E) as (_ & n0 & Hn & _). congruence. }
  assert (Hframe : forall j0 r0 fd0 kn, (j0, fd0) <> (j, fd) -> rs !! j0 = Some r0 -> r0.(fds) !! fd0 = Some kn ->
    fd_ok (open_descriptor j (set_names (set_node k i n) (<[p := i]> k.(names))) fd i flags) G (j0, fd0) kn).
  { intros j0 r0 fd0 kn Hne H0 Hf0. eapply fd_frame; [by eapply inv_fds|cbn; by apply lookup_insert_ne| |done].
    cbn. intros n0 Hn. exists n0. rewrite lookup_insert_ne; [done|]. intros E. symmetry in E. by eapply Hfresh. }
  eapply inv_update; try done; cbn [open_descriptor set_descriptors set_names set_node set_nodes nodes r' set_fds fds].
  - intros i0 n0 [[<- <-]|[Hne H0]]%lookup_insert_Some Hp0; [|by eapply inv_published].
    rewrite Em, created_unpublished in Hp0 by done. done.
  - intros i0 c Hc. destruct (inv_contents _ _ _ _ Hinv i0 c Hc) as (Hcl & n0 & H0 & Hd). split; [done|]. exists n0.
    rewrite lookup_insert_ne by congruence. done.
  - intros j0 r0 fd0 kn Hne H0 Hf0. apply (Hframe j0 r0); congruence.
  - intros fd0 kn [[<- <-]|[Hne Hf0]]%lookup_insert_Some; [|apply (Hframe j r); congruence].
    eexists _, _. cbn. rewrite !lookup_insert_eq. by split_and!.
  - intros fd0 kn [[<- <-]|[Hne Hf0]]%lookup_insert_Some Hw; [|by eauto]. right. split; [done|].
    intros fd' kn' [[<- <-]|[Hne' Hf']]%lookup_insert_Some Ei; [done|]. exfalso. by eapply (Hfresh j r fd' kn').
  - intros c. by eapply (inv_seen _ _ _ _ Hinv j r).
Qed.

Lemma close_sound k G cl rs j r fd : inv k G cl rs -> rs !! j = Some r ->
  wf (set_descriptors k (delete (j, fd) k.(descriptors))) ->
  inv (set_descriptors k (delete (j, fd) k.(descriptors))) G cl (<[j := set_fds r (delete fd r.(fds))]> rs).
Proof.
  intros Hinv Hj Hwf. eapply inv_local; try done; cbn [set_fds fds].
  - intros x Hx. apply lookup_delete_ne. by intros <-.
  - intros fd' kn [Hne Hf]%lookup_delete_Some. eapply fd_frame; [by eapply (inv_fds _ _ _ _ Hinv j r)| |eauto|done].
    apply lookup_delete_ne. congruence.
  - intros fd' kn [Hne Hf]%lookup_delete_Some. eauto.
  - intros c. by eapply (inv_seen _ _ _ _ Hinv j r).
Qed.

Lemma read_sound k G cl rs j r fd kn d n l nbyte : inv k G cl rs -> rs !! j = Some r -> r.(fds) !! fd = Some kn ->
  k.(descriptors) !! (j, fd) = Some d -> k.(nodes) !! d.(target) = Some n -> zlength l <= nbyte ->
  l `prefix_of` drop (Z.to_nat d.(offset)) n.(data) ->
  let k' := set_descriptors k (<[(j, fd) := seek d (d.(offset) + zlength l)]> k.(descriptors)) in
  wf k' -> exists r', learns r (Read fd nbyte) l r' /\ inv k' G cl (<[j := r']> rs).
Proof.
  intros Hinv Hj Hf Hd Hn Hl Hpre k' Hwf. destruct (inv_fds _ _ _ _ Hinv j r fd kn Hj Hf) as (d' & n' & Hd' & Ht & Ho & Hn' & Hc).
  assert (d' = d) as -> by congruence. rewrite Ht in Hn. assert (n' = n) as -> by congruence.
  eexists. split.
  - exists kn. split; [done|]. split; [done|]. split; [|done]. intros c Ec. rewrite Ec in Hc.
    destruct (inv_contents _ _ _ _ Hinv _ _ Hc) as (_ & n1 & Hn1 & <-). rewrite <-Ho. congruence.
  - eapply inv_fd; try done.
    + intros x Hx. by apply lookup_insert_ne.
    + eexists _, n. cbn. rewrite lookup_insert_eq. split_and!; try done. cbn. congruence.
    + eauto.
    + intros c. by eapply inv_seen.
Qed.

Lemma seek_sound k G cl rs j r fd kn d o : inv k G cl rs -> rs !! j = Some r -> r.(fds) !! fd = Some kn ->
  k.(descriptors) !! (j, fd) = Some d ->
  let k' := set_descriptors k (<[(j, fd) := seek d o]> k.(descriptors)) in
  wf k' -> inv k' G cl (<[j := set_fds r (<[fd := know kn o kn.(content)]> r.(fds))]> rs).
Proof.
  intros Hinv Hj Hf Hd k' Hwf. destruct (inv_fds _ _ _ _ Hinv j r fd kn Hj Hf) as (d' & n & Hd' & Ht & Ho & Hn & Hc).
  assert (d' = d) as -> by congruence. eapply inv_fd; try done.
  - intros x Hx. by apply lookup_insert_ne.
  - eexists _, n. cbn. rewrite lookup_insert_eq. by split_and!.
  - eauto.
  - intros c. by eapply inv_seen.
Qed.

Lemma stat_sound k G cl rs j r fd d n : inv k G cl rs -> rs !! j = Some r -> is_Some (r.(fds) !! fd) ->
  k.(descriptors) !! (j, fd) = Some d -> k.(nodes) !! d.(target) = Some n ->
  exists r', learns r (Fstat fd) (attributes n) r' /\ inv k G cl (<[j := r']> rs).
Proof.
  intros Hinv Hj [kn Hf] Hd Hn. destruct (inv_fds _ _ _ _ Hinv j r fd kn Hj Hf) as (d' & n' & Hd' & Ht & Ho & Hn' & Hc).
  assert (d' = d) as -> by congruence. rewrite Ht in Hn. assert (n' = n) as -> by congruence.
  cbn [learns]. destruct (published (attributes n).(st_mode)) eqn:Ep.
  - destruct (inv_published _ _ _ _ Hinv _ n Hn Ep) as [c HG]. destruct (inv_contents _ _ _ _ Hinv _ _ HG) as (Hcl & n1 & Hn1 & Ec).
    assert (n1 = n) as -> by congruence. eexists. split.
    + exists kn. split; [done|]. exists c. split; [cbn; by rewrite Ec|done].
    + eapply inv_fd; try done; [by apply (inv_wf _ _ _ _ Hinv)|by exists d, n|].
      intros c0 [->|H0]%elem_of_cons; [done|]. by eapply inv_seen.
  - exists r. split; [by exists kn|]. eapply inv_same; try done. by apply (inv_wf _ _ _ _ Hinv).
Qed.

Lemma write_sound k G cl rs j r fd kn x d n c buf : inv k G cl rs -> rs !! j = Some r ->
  r.(fds) !! fd = Some kn -> kn.(content) = Writing x ->
  k.(descriptors) !! (j, fd) = Some d -> k.(nodes) !! d.(target) = Some n -> 0 <= c <= zlength buf ->
  let k' := set_node (set_descriptors k (<[(j, fd) := seek d (d.(offset) + c)]> k.(descriptors))) d.(target)
              (set_data n (splice n.(data) d.(offset) (take (Z.to_nat c) buf))) in
  wf k' -> exists r', learns r (Write fd buf) c r' /\ inv k' G cl (<[j := r']> rs).
Proof.
  intros Hinv Hj Hf Ec Hd Hn Hb k' Hwf. destruct (inv_fds _ _ _ _ Hinv j r fd kn Hj Hf) as (d' & n' & Hd' & Ht & Ho & Hn' & Hc).
  assert (d' = d) as -> by congruence. unfold k' in *. rewrite Ht in *. assert (n' = n) as -> by congruence. rewrite Ec in Hc. destruct Hc as [HG <-].
  eexists. split; [by exists kn, n.(data)|]. eapply (inv_node k G) with (kn := kn) (n := n); try done.
  - intros y Hy. by apply lookup_insert_ne.
  - intros Hp. destruct (inv_published _ _ _ _ Hinv _ n Hn Hp). congruence.
  - left. split; [done|]. right. unfold is_writing. by rewrite Ec.
  - eexists _, _. cbn. rewrite !lookup_insert_eq. cbn. rewrite Ho. split_and!; try done; congruence.
  - intros _. unfold is_writing. by rewrite Ec.
Qed.

Lemma chmod_sound mine k G cl rs j r fd m d n : inv k G cl rs -> rs !! j = Some r -> may mine r (Fchmod fd m) ->
  (forall c, mine = Some c -> c ∈ cl) -> k.(descriptors) !! (j, fd) = Some d -> k.(nodes) !! d.(target) = Some n ->
  let k' := set_node k d.(target) (set_mode n (Z.lor (Z.land n.(mode) S_IFMT) m)) in
  wf k' -> forall a, exists G' r', learns r (Fchmod fd m) a r' /\ inv k' G' cl (<[j := r']> rs).
Proof.
  intros Hinv Hj Hmay Hmine Hd Hn k' Hwf a. assert (Hf : is_Some (r.(fds) !! fd)).
  { destruct Hmay as [[_ ?]|(_ & kn & x & -> & _)]; eauto. }
  destruct Hf as [kn Hf]. destruct (inv_fds _ _ _ _ Hinv j r fd kn Hj Hf) as (d' & n' & Hd' & Ht & Ho & Hn' & Hc).
  assert (d' = d) as -> by congruence. unfold k' in *. rewrite Ht in *. assert (n' = n) as -> by congruence.
  assert (Hid : forall kn', kn' = kn -> set_fds r (<[fd := kn']> r.(fds)) = r).
  { intros kn' ->. unfold set_fds. rewrite insert_id by done. by destruct r. }
  destruct Hmay as [[-> _]|(-> & kn0 & x & Hf0 & Ex & Em)].
  - exists G, r. split; [exists kn; split; [done|]; by destruct kn.(content)|]. rewrite <-(Hid kn) at 1 by done.
    eapply (inv_node k G) with (kn := kn) (n := n); try done.
    + intros Hp. exfalso. unfold published in Hp. cbn in Hp. apply Z.eqb_eq in Hp.
      apply (f_equal (fun x => Z.testbit x 7)) in Hp. rewrite as_permission_land, Z.land_spec, Z.lor_spec, orb_true_r in Hp. discriminate Hp.
    + left. split; [done|]. by left.
    + exists d. eexists. cbn. rewrite lookup_insert_eq. by split_and!.
  - assert (kn0 = kn) as -> by congruence. rewrite Ex in Hc. destruct Hc as [HG <-].
    exists (<[kn.(inode) := n.(data)]> G). eexists. split; [exists kn; rewrite Ex; done|]. cbn.
    eapply (inv_node k G) with (kn := kn) (n := n); try done.
    + intros _. rewrite lookup_insert_eq. eauto.
    + right. unfold is_writing. rewrite Ex. split; [done|]. split; [done|]. split; [by apply Hmine|done].
    + exists d. eexists. cbn. rewrite !lookup_insert_eq. by split_and!.
Qed.

Lemma fails_sound mine k G cl rs j r q e : inv k G cl rs -> rs !! j = Some r -> may mine r q -> justified j true k q e ->
  next r q (Err e) r.
Proof.
  intros Hinv Hj Hmay He. split; [done|].
  assert (Hfd : forall fd, is_Some (r.(fds) !! fd) -> k.(descriptors) !! (j, fd) <> None).
  { intros fd [kn Hf]. destruct (inv_fds _ _ _ _ Hinv j r fd kn Hj Hf) as (d & n & -> & _). done. }
  destruct q; try done; cbn in He, Hmay; destruct e; auto; by destruct (Hfd _ Hmay).
Qed.

(** A participant that keeps to the protocol learns what the protocol promises and keeps
    the invariant, whatever the system answers. *)
Lemma step_sound mine k G cl rs j r q a k' : inv k G cl rs -> rs !! j = Some r -> may mine r q ->
  (forall c, mine = Some c -> c ∈ cl) -> permits umask j true k q a k' ->
  exists G' r', next r q a r' /\ inv k' G' cl (<[j := r']> rs).
Proof.
  intros Hinv Hj Hmay Hmine Hp. pose proof (permits_wf _ _ _ _ _ _ _ (inv_wf _ _ _ _ Hinv) Hp) as Hwf.
  assert (Hsame : k'.(nodes) = k.(nodes) -> k'.(descriptors) = k.(descriptors) -> inv k' G cl (<[j := r]> rs)).
  { by eapply inv_same. }
  destruct a as [a|e].
  2: { destruct Hp as [He ->]. exists G, r. split; [by eapply fails_sound|by apply Hsame]. }
  destruct q; try done; cbn [permits performs] in Hp; cbn [next].
  - destruct Hp as (i & _ & Hi & Hu & ->). exists G. eexists. destruct (open_sound _ _ _ _ _ _ _ _ _ Hinv Hj Hi Hu Hwf) as [Hf Hinv'].
    split; [|exact Hinv']. split; [apply Hu|]. by exists i.
  - destruct Hmay as (Hc & He & _ & ->). destruct Hp as [Hu Hp]. destruct (k.(names) !! _) as [i|]; [by destruct Hp|].
    destruct Hp as (_ & i & k1 & Hi & Hcr & ->). exists G. eexists.
    destruct (create_sound _ _ _ _ _ _ _ _ _ _ OWNER_ALL _ Hinv Hj Hi Hu eq_refl Hcr Hwf) as [Hf Hinv'].
    split; [|exact Hinv']. split; [apply Hu|]. by exists i.
  - destruct Hp as [_ ->]. exists G, r. split; [done|]. by apply Hsame.
  - destruct Hp as (d & n & Hd & Hn & _ & Hl & Hpre & _ & ->). destruct Hmay as [kn Hf].
    destruct (read_sound _ _ _ _ _ _ _ _ _ _ _ _ Hinv Hj Hf Hd Hn Hl Hpre Hwf) as (r' & ? & ?). by exists G, r'.
  - destruct Hp as (d & n & Hd & Hn & _ & Hl & _ & ->). destruct Hmay as (kn & x & Hf & Ex).
    destruct (write_sound _ _ _ _ _ _ _ _ _ _ _ _ _ Hinv Hj Hf Ex Hd Hn Hl Hwf) as (r' & ? & ?). by exists G, r'.
  - destruct Hp as (d & Hd & -> & _ & ->). destruct Hmay as [kn Hf]. exists G. eexists. split; [by exists kn|].
    by apply seek_sound.
  - destruct Hp as (d & n & Hd & Hn & -> & ->). destruct (stat_sound _ _ _ _ _ _ _ _ _ Hinv Hj Hmay Hd Hn) as (r' & ? & ?). by exists G, r'.
  - destruct Hp as (d & n & Hd & Hn & ->). by eapply (chmod_sound mine).
  - destruct Hp as [_ ->]. exists G. eexists. split; [done|]. by apply close_sound.
  - destruct Hp as [_ ->]. exists G, r. split; [done|]. by apply Hsame.
  - destruct Hp as [_ ->]. exists G, r. split; [done|]. by apply Hsame.
  - destruct Hp as (i & n & _ & _ & _ & ->). exists G, r. split; [done|]. by apply Hsame.
  - destruct Hp as (_ & i & Hi & n & [Em _] & ->). exists G, r. split; [done|].
    rewrite list_insert_id by done. apply inv_new_node; try done. cbn in Hmay. subst. rewrite Em. by apply created_unpublished.
  - destruct Hp as (i & _ & Hi & Hu & ->). exists G. eexists. destruct (open_sound _ _ _ _ _ _ _ _ _ Hinv Hj Hi Hu Hwf) as [Hf Hinv'].
    split; [|exact Hinv']. split; [apply Hu|]. by exists i.
  - destruct Hp as [_ ->]. exists G. eexists. split; [done|]. by apply close_sound.
  - destruct Hp as (_ & _ & _ & ->). exists G, r. split; [done|]. by apply Hsame.
Qed.

End invariant.

(** ** The operations keep to the protocol *)

Section follows.
Context `{Profile} (mine : option (list Z)).
Implicit Types (r : role) (f : File).

Notation wpr := (wp (may mine) next True).

Definition handle (p : list Z) (fd : Z) : File :=
  {| path := Some p; file_descriptor := {| value := fd; is_owned := true |} |}.

Definition add_fd r (fd : Z) (kn : knowledge) : role := set_fds r (<[fd := kn]> r.(fds)).

Lemma delete_add_fd r fd kn : r.(fds) !! fd = None -> set_fds (add_fd r fd kn) (delete fd (add_fd r fd kn).(fds)) = r.
Proof. intros E. unfold add_fd, set_fds. cbn. rewrite delete_insert_id by done. by destruct r. Qed.

Lemma wpr_descriptor_new fd Q r : is_Some (r.(fds) !! fd) -> Q (Ok {| value := fd; is_owned := true |}) r ->
  wpr (descriptor_new (Ok fd)) Q r.
Proof. intros Hf HQ. split; [done|]. intros [a|e] r' Hn; cbn in Hn; [by subst|]. by destruct Hn. Qed.

Lemma wpr_open p a Q r :
  (forall fd i, r.(fds) !! fd = None -> Q (Ok (handle p fd)) (add_fd r fd {| inode := i; position := 0; content := Unknown |})) ->
  (forall e, Q (Err e) r) -> wpr (open_existing (builder_new p) a) Q r.
Proof.
  intros HQ He. split; [done|]. intros [fd|e] r' Hn; cbn in Hn.
  - destruct Hn as (_ & i & Hf & ->). apply wp_try, wpr_descriptor_new; [cbn; rewrite lookup_insert_eq; eauto|]. by apply HQ.
  - destruct Hn as [-> _]. apply He.
Qed.

Lemma wpr_set_permission f Q r : is_Some (r.(fds) !! native_handle f) -> Q (Ok tt) r -> (forall e, Q (Err e) r) ->
  wpr (set_permission f OWNER_ALL) Q r.
Proof.
  intros Hf HQ He. split; [by left|]. intros [a|e] r' Hn; cbn in Hn.
  - destruct Hn as (kn & _ & E). assert (r' = r) as ->; [|done]. by destruct kn.(content).
  - destruct Hn as [-> _]. by destruct e; apply He.
Qed.

Lemma wpr_close fuel fd Q r : is_Some (r.(fds) !! fd) -> Q tt (set_fds r (delete fd r.(fds))) -> wpr (close_loop fuel fd) Q r.
Proof.
  intros Hf HQ. induction fuel as [|fuel IH]; [done|]. split; [done|]. intros [a|e] r' Hn; cbn in Hn; [by subst|].
  by destruct Hn as [-> [-> | ->]].
Qed.

Lemma wpr_closedir fuel fd Q r : is_Some (r.(fds) !! fd) -> Q tt (set_fds r (delete fd r.(fds))) ->
  wpr (Dir.closedir_loop fuel fd) Q r.
Proof.
  intros Hf HQ. induction fuel as [|fuel IH]; [done|]. split; [done|]. intros [a|e] r' Hn; cbn in Hn; [by subst|].
  by destruct Hn as [-> ->].
Qed.

Lemma wpr_remove p Q r : (forall a, Q a r) -> wpr (Files.remove p) Q r.
Proof. intros HQ. split; [done|]. intros [a|e] r' Hn; cbn in Hn; [subst; apply HQ|]. destruct Hn as [-> _]. apply HQ. Qed.

Context (memory file_memory : list Z) (fuel : nat).

Lemma wpr_path_for cfg n p Q r : NC.path_for cfg memory n = Ret p -> Q (as_bytes p) r -> wpr (path_for memory cfg n) Q r.
Proof. intros E HQ. unfold path_for. by rewrite E. Qed.

Lemma wpr_remove_cfg n cfg p Q r : NC.path_for cfg memory n = Ret p -> (forall a, Q a r) ->
  wpr (remove_cfg fuel memory n cfg) Q r.
Proof.
  intros Ep HQ. apply wp_bind. eapply wpr_path_for; [done|]. apply wp_bind, wpr_open; [|by intros []; apply HQ].
  intros fd i Hf. set (r1 := add_fd r fd _). assert (Hfd : is_Some (r1.(fds) !! fd)) by (cbn; rewrite lookup_insert_eq; eauto).
  assert (Hclose : forall a, wpr (let? _ := drop_file fuel (handle (as_bytes p) fd) in Done a) Q r1).
  { intros a. apply wp_bind, wpr_close; [done|]. cbn. unfold r1. rewrite delete_add_fd by done. apply HQ. }
  apply wp_bind, wpr_set_permission; [done| |intros e; apply Hclose].
  apply wp_bind, wp_bind, wpr_remove. intros a. cbn. apply Hclose.
Qed.

(** A storage whose file is open; its name has a path. *)
Definition storage_ok (s : Storage) : Prop :=
  s.(file).(file_descriptor).(is_owned) = true /\ exists p, NC.path_for s.(config) memory s.(name) = Ret p.

Lemma wpr_drop_storage s Q r : storage_ok s -> is_Some (r.(fds) !! native_handle s.(file)) ->
  Q tt (set_fds r (delete (native_handle s.(file)) r.(fds))) -> wpr (drop_storage fuel memory s) Q r.
Proof.
  intros [Ho [p Ep]] Hf HQ. apply wp_bind.
  assert (Hclose : wpr (drop_file fuel s.(file)) Q r).
  { unfold drop_file, drop_descriptor. rewrite Ho. by apply wpr_close. }
  destruct s.(has_ownership); [|done]. apply wp_bind. by eapply wpr_remove_cfg.
Qed.

Lemma wpr_set_offset f kn o Q r : r.(fds) !! native_handle f = Some kn ->
  Q (Ok o) (add_fd r (native_handle f) (know kn o kn.(content))) -> (forall e, Q (Err e) r) ->
  wpr (set_offset f o) Q r.
Proof.
  intros Hf HQ He. split; [by eexists|]. intros [a|e] r' Hn; cbn in Hn.
  - destruct Hn as (kn' & Hf' & -> & ->). rewrite Hf in Hf'. by injection Hf' as <-.
  - destruct Hn as [-> _]. by destruct e; apply He.
Qed.

Lemma wpr_write f i o d buf Q r : r.(fds) !! native_handle f = Some {| inode := i; position := o; content := Writing d |} ->
  (forall n o', 0 <= n <= zlength buf ->
    Q (Ok n) (add_fd r (native_handle f) {| inode := i; position := o'; content := Writing (splice d 0 (take (Z.to_nat n) buf)) |})) ->
  (forall e o', Q (Err e) (add_fd r (native_handle f) {| inode := i; position := o'; content := Writing d |})) ->
  wpr (write f buf) Q r.
Proof.
  intros Hf HQ He. apply wp_try. eapply wpr_set_offset; [done| |].
  - rewrite Z.eqb_refl. cbn [negb]. apply wp_try. remember (add_fd r _ _) as r1 eqn:Er1.
    assert (Hf1 : r1.(fds) !! native_handle f = Some (know {| inode := i; position := o; content := Writing d |} 0 (Writing d))) by (subst r1; apply lookup_insert_eq).
    split; [by eexists _, d|]. intros [n|e] r' Hn; cbn in Hn |- *.
    + destruct Hn as (kn & d' & Hk & Ec & Hb & ->). rewrite Hf1 in Hk. injection Hk as <-. injection Ec as <-.
      subst r1. unfold add_fd, set_fds. cbn. rewrite insert_insert_eq. by apply HQ.
    + destruct Hn as [-> _]. subst r1. apply He.
  - intros e. replace r with (add_fd r (native_handle f) {| inode := i; position := o; content := Writing d |}); [apply He|].
    unfold add_fd, set_fds. rewrite insert_id by done. by destruct r.
Qed.

Lemma splice_all buf : splice [] 0 (take (Z.to_nat (zlength buf)) buf) = buf.
Proof. unfold splice, zlength. rewrite Nat2Z.id, take_ge by lia. cbn. by rewrite drop_nil, app_nil_r. Qed.

Lemma wpr_unlock l contents i o Q r : storage_ok l.(static_storage) -> mine = Some contents ->
  let f := l.(static_storage).(file) in
  r.(fds) !! native_handle f = None ->
  (forall s o', s.(file) = f -> s.(name) = l.(static_storage).(name) -> s.(config) = l.(static_storage).(config) ->
    Q (Ok s) (add_fd r (native_handle f) {| inode := i; position := o'; content := Complete contents |})) ->
  (forall e, Q (Err e) r) ->
  wpr (unlock fuel memory l contents) Q (add_fd r (native_handle f) {| inode := i; position := o; content := Writing [] |}).
Proof.
  intros Hs Em f Hf HQ He. unfold unlock.
  assert (Hfail : forall e kn, wpr (let? _ := drop_storage fuel memory l.(static_storage) in Done (Err e)) Q (add_fd r (native_handle f) kn)).
  { intros e kn. apply wp_bind, wpr_drop_storage; [done|cbn; rewrite lookup_insert_eq; eauto|]. unfold f. rewrite delete_add_fd by done. apply He. }
  assert (Hover : forall kn kn', add_fd (add_fd r (native_handle f) kn) (native_handle f) kn' = add_fd r (native_handle f) kn').
  { intros kn kn'. unfold add_fd, set_fds. cbn. by rewrite insert_insert_eq. }
  apply wp_bind. eapply wpr_write; [apply lookup_insert_eq|..]; fold f.
  - intros n o' Hn. rewrite Hover. destruct (Z.eqb_spec n (zlength contents)) as [->|]; cbn [negb]; [|apply Hfail].
    rewrite splice_all. apply wp_bind. split.
    + right. split; [done|]. eexists _, contents. split; [apply lookup_insert_eq|done].
    + intros [a|e] r' Hl; cbn in Hl.
      * destruct Hl as (kn & Hk & Hl). cbn in Hk. rewrite lookup_insert_eq in Hk. injection Hk as <-. cbn in Hl. subst r'.
        cbn. fold f. rewrite insert_insert_eq. by apply HQ.
      * destruct Hl as [-> _]. cbn. destruct e; apply Hfail.
  - intros e o'. rewrite Hover. destruct e; apply Hfail.
Qed.

Lemma wpr_create_file b p Q r : NC.path_for b.(b_config) memory b.(storage_name) = Ret p ->
  (forall fd i, r.(fds) !! fd = None -> Q (Ok {| static_storage := {| name := b.(storage_name); config := b.(b_config);
      has_ownership := b.(b_has_ownership); file := handle (as_bytes p) fd; len := 0 |} |})
    (add_fd r fd {| inode := i; position := 0; content := Writing [] |})) ->
  (forall e, Q (Err e) r) -> wpr (create_file fuel memory b) Q r.
Proof.
  intros Ep HQ He. apply wp_bind. eapply wpr_path_for; [done|]. apply wp_bind, wp_try.
  cbn [create with_permission with_creation_mode creation_mode]. apply wp_try, wp_bind.
  split; [repeat split; set_solver|]. intros [fd|e] r' Hn; cbn in Hn; [|destruct Hn as [-> _]; destruct e; apply He].
  destruct Hn as (_ & i & Hf & ->). set (kn := {| inode := i; position := 0; content := Writing [] |}).
  change (set_fds r (<[fd := kn]> r.(fds))) with (add_fd r fd kn).
  assert (Hfd : is_Some ((add_fd r fd kn).(fds) !! fd)) by (cbn; rewrite lookup_insert_eq; eauto).
  apply wpr_descriptor_new; [done|]. apply wp_bind, wpr_set_permission; [done|cbn; by apply HQ|].
  intros e. apply wp_bind, wpr_close; [done|]. cbn [id value]. rewrite delete_add_fd by done. apply He.
Qed.

Lemma wpr_create_locked b hint rest p Q r : NC.cfg_ok b.(b_config) hint rest -> is_ret (SystemTypes.entries hint) = true ->
  zlength memory = PATH_LENGTH -> NC.path_for b.(b_config) memory b.(storage_name) = Ret p ->
  (forall fd i, r.(fds) !! fd = None -> Q (Ok {| static_storage := {| name := b.(storage_name); config := b.(b_config);
      has_ownership := b.(b_has_ownership); file := handle (as_bytes p) fd; len := 0 |} |})
    (add_fd r fd {| inode := i; position := 0; content := Writing [] |})) ->
  (forall e, Q (Err e) r) -> wpr (create_locked fuel memory b) Q r.
Proof.
  intros Hcfg Hent Hmem Ep HQ He.
  assert (Hstat : forall r0 q, r0 = r -> may mine r0 (Stat q) /\ forall a r', next r0 (Stat q) a r' -> r' = r).
  { intros r0 q ->. split; [done|]. intros [a|e] r' Hn; [done|by destruct Hn]. }
  assert (Hmkdir : forall r0 q, r0 = r -> may mine r0 (Mkdir q (Z.lor OWNER_ALL GROUP_ALL)) /\
    forall a r', next r0 (Mkdir q (Z.lor OWNER_ALL GROUP_ALL)) a r' -> r' = r).
  { intros r0 q ->. split; [done|]. intros [a|e] r' Hn; [done|by destruct Hn]. }
  apply wp_try. eapply wp_mono; [by apply (Dir.wp_does_exist _ _ _ (fun r0 => r0 = r) Hstat)|].
  intros a r0 ->. destruct a as [ex|e]; [|apply He]. apply wp_try.
  pose proof (wpr_create_file b p Q r Ep HQ He) as Hfile. destruct ex; [exact Hfile|]. apply wp_try.
  eapply (Dir.wp_create _ _ _ (fun r0 => r0 = r) _ Hstat Hmkdir); [apply Hcfg|apply Hcfg|apply Hcfg|exact Hent|exact Hmem|done| |].
  - intros r0 ->. split; [done|]. intros [fd|e] r' Hn; cbn in Hn; [|destruct Hn as [-> _]; destruct e; apply He].
    destruct Hn as (Hfd & i & Hf & ->). cbn. destruct (Z.ltb_spec fd 0); [lia|]. cbn. apply wp_bind.
    apply wpr_closedir. { cbn. rewrite lookup_insert_eq. eauto. }
    match goal with |- wp _ _ _ _ _ ?x =>
      replace x with r by (symmetry; by apply (delete_add_fd r fd {| inode := i; position := 0; content := Unknown |})) end.
    exact Hfile.
  - intros e r0 ->. apply He.
Qed.

Lemma wpr_metadata f kn Q r : r.(fds) !! native_handle f = Some kn ->
  (forall m, m.(permission) <> FINAL_PERMISSIONS -> Q (Ok m) r) ->
  (forall m c, m.(permission) = FINAL_PERMISSIONS -> m.(size) = zlength c ->
    Q (Ok m) {| fds := <[native_handle f := know kn kn.(position) (Complete c)]> r.(fds); seen := c :: r.(seen) |}) ->
  (forall e, Q (Err e) r) -> wpr (metadata f) Q r.
Proof.
  intros Hf Hno Hyes He. apply wp_try, wp_bind. split; [by eexists|]. intros [st|e] r' Hn; cbn in Hn.
  - destruct Hn as (kn' & Hf' & Hn). rewrite Hf in Hf'. injection Hf' as <-. cbn. unfold published in Hn.
    destruct (Z.eqb_spec (as_permission st.(st_mode)) FINAL_PERMISSIONS) as [E|E].
    + destruct Hn as (c & Ec & ->). by apply Hyes.
    + subst. by apply Hno.
  - destruct Hn as [-> _]. destruct e; apply He.
Qed.

Lemma wpr_open_storage b p Q r : NC.path_for b.(b_config) memory b.(storage_name) = Ret p ->
  (forall s fd i c, r.(fds) !! fd = None -> s.(file) = handle (as_bytes p) fd -> s.(len) = zlength c ->
    s.(name) = b.(storage_name) -> s.(config) = b.(b_config) ->
    Q (Ok s) {| fds := <[fd := {| inode := i; position := 0; content := Complete c |}]> r.(fds); seen := c :: r.(seen) |}) ->
  (forall e, Q (Err e) r) -> wpr (open fuel memory b) Q r.
Proof.
  intros Ep HQ He. apply wp_bind. eapply wpr_path_for; [done|]. apply wp_try, wpr_open; [|intros e; apply He].
  intros fd i Hf. set (kn := {| inode := i; position := 0; content := Unknown |}).
  assert (Hclose : forall e, wpr (let? _ := drop_file fuel (handle (as_bytes p) fd) in Done (Err e)) Q (add_fd r fd kn)).
  { intros e. apply wp_bind, wpr_close; [cbn; rewrite lookup_insert_eq; eauto|]. cbn [file_descriptor value handle].
    rewrite delete_add_fd by done. apply He. }
  apply wp_bind. eapply wpr_metadata; [apply lookup_insert_eq|..].
  - intros m Hm. destruct (Z.eqb_spec m.(permission) FINAL_PERMISSIONS); [done|]. apply Hclose.
  - intros m c Hm Hc. rewrite Hm, Z.eqb_refl. cbn. rewrite insert_insert_eq. by apply HQ.
  - intros e. apply Hclose.
Qed.

Lemma wpr_does_exist n cfg p Q r : NC.path_for cfg memory n = Ret p ->
  (forall a r, Q a r) -> wpr (does_exist_cfg fuel memory n cfg) Q r.
Proof.
  intros Ep HQ. apply wp_bind. eapply wpr_path_for; [done|]. apply wp_bind. split; [done|].
  intros a r' Hn. assert (r' = r) as -> by (destruct a; [done|apply Hn]).
  assert (Hopen : wpr (let? r := open_existing (builder_new (as_bytes p)) AccessRead in
    match r with
    | Err _ => Done (Err UnderlyingResourcesCorrupted)
    | Ok f =>
        let? r := metadata f in
        let? _ := drop_file fuel f in
        Done match r with
             | Err _ => Err UnderlyingResourcesCorrupted
             | Ok m =>
                 if bool_decide (m.(file_type) = TypeFile) && (m.(permission) =? FINAL_PERMISSIONS) then Ok true
                 else Err UnderlyingResourcesBeingSetUp
             end
    end) Q r).
  { apply wp_bind, wpr_open; [|intros e; apply HQ]. intros fd i Hf. apply wp_bind.
    eapply wpr_metadata; [apply lookup_insert_eq|..]; intros; apply wp_bind, wpr_close; try apply HQ;
      cbn; rewrite lookup_insert_eq; eauto. }
  destruct a as [a|e]; cbn; [exact Hopen|]. destruct e; apply HQ.
Qed.

Lemma wpr_read s i o c Q r : r.(fds) !! native_handle s.(file) = Some {| inode := i; position := o; content := Complete c |} ->
  s.(len) = zlength c ->
  (forall a kn, (a.1 = Ok tt -> a.2 = c) -> Q a (add_fd r (native_handle s.(file)) kn)) ->
  wpr (read s (replicate (Z.to_nat s.(len)) 0)) Q r.
Proof.
  intros Hf Hl HQ. unfold read. set (blank := replicate _ 0).
  assert (Hb : zlength blank = zlength c) by (unfold blank, zlength in *; rewrite length_replicate, Hl; lia).
  rewrite Hb, Hl, Z.ltb_irrefl. apply wp_bind, wp_bind. eapply wpr_set_offset; [done| |].
  - rewrite Z.eqb_refl. cbn [negb]. remember (add_fd r _ _) as r1 eqn:Er1.
    assert (Hf1 : r1.(fds) !! native_handle s.(file) = Some {| inode := i; position := 0; content := Complete c |}) by (subst r1; apply lookup_insert_eq).
    assert (HQ1 : forall a kn, (a.1 = Ok tt -> a.2 = c) -> Q a (add_fd r1 (native_handle s.(file)) kn)).
    { intros a kn Ha. subst r1. unfold add_fd, set_fds. cbn. rewrite insert_insert_eq. by apply HQ. }
    apply wp_bind. split; [by eexists|]. intros [l|e] r' Hn; cbn in Hn.
    + destruct Hn as (kn & Hk & Hlen & Hpre & ->). rewrite Hf1 in Hk. injection Hk as <-. cbn in Hpre |- *.
      specialize (Hpre c eq_refl). destruct (Z.eqb_spec (zlength l) (zlength c)) as [E|E]; cbn.
      * apply (HQ1 (Ok tt, _)). intros _. cbn. assert (l = c) as ->.
        { apply prefix_length_eq; [done|]. unfold zlength in E. lia. }
        rewrite drop_ge by (unfold zlength in *; lia). apply app_nil_r.
      * by apply (HQ1 (Err StaticStorageWasModified, _)).
    + destruct Hn as [-> _]. subst r1. destruct e; by apply HQ.
  - intros e. replace r with (add_fd r (native_handle s.(file)) {| inode := i; position := o; content := Complete c |}); [by apply HQ|].
    unfold add_fd, set_fds. rewrite insert_id by done. by destruct r.
Qed.


End follows.

(** ** Any number of participants

    Every participant is a process of its own; all use one configuration. *)

Inductive job :=
| Publish (n : list Z) (owns : bool) (contents : list Z)
| Consume (n : list Z) (owns : bool)
| Erase (n : list Z)
| Probe (n : list Z).

Inductive result := Published | Consumed (c : list Z) | Erased | Probed (r : Result bool NamedConceptDoesExistError) | Failed.

Section system.
Context `{Profile} {W} (umask : nat -> Z) `{PosixLaws umask true W} (memory : list Z) (cfg : NC.NamedConceptConfiguration).

(** The creator publishes and drops the storage, a reader opens, reads and drops it. *)
Definition program (fuel : nat) (j : job) : prog result :=
  let builder n o := {| storage_name := n; b_has_ownership := o; b_config := cfg |} in
  match j with
  | Publish n o contents =>
      let? r := create_locked fuel memory (builder n o) in
      match r with
      | Err _ => Done Failed
      | Ok l =>
          let? r := unlock fuel memory l contents in
          match r with
          | Err _ => Done Failed
          | Ok s => let? _ := drop_storage fuel memory s in Done Published
          end
      end
  | Consume n o =>
      let? r := open fuel memory (builder n o) in
      match r with
      | Err _ => Done Failed
      | Ok s =>
          let? '(r, c) := read s (replicate (Z.to_nat s.(len)) 0) in
          let? _ := drop_storage fuel memory s in
          Done (match r with Ok _ => Consumed c | Err _ => Failed end)
      end
  | Erase n => let? _ := remove_cfg fuel memory n cfg in Done Erased
  | Probe n => let? r := does_exist_cfg fuel memory n cfg in Done (Probed r)
  end.

Definition job_name (j : job) : list Z := match j with Publish n _ _ | Consume n _ | Erase n | Probe n => n end.
Definition job_contents (j : job) : option (list Z) := match j with Publish _ _ c => Some c | _ => None end.

Definition accepts (j : job) : bool := is_ret (NC.path_for cfg memory (job_name j)).

Context (hint rest : list Z) (Hcfg : NC.cfg_ok cfg hint rest) (Hent : is_ret (SystemTypes.entries hint) = true).
Context (Hmem : zlength memory = PATH_LENGTH) (Humask : forall j, has (umask j) OWNER_WRITE = false).

(** What a result says about what its participant has seen. *)
Definition witnessed (a : result) (r : role) : Prop := match a with Consumed c => c ∈ r.(seen) | _ => True end.

Lemma job_follows fuel j r : is_ret (NC.path_for cfg memory (job_name j)) = true ->
  wp (may (job_contents j)) next True (program fuel j) witnessed r.
Proof.
  intros Hp. destruct (NC.path_for cfg memory (job_name j)) as [p|] eqn:Ep; [clear Hp|done].
  destruct j as [n o c|n o|n|n]; cbn [job_name job_contents program] in *.
  - apply wp_bind. eapply wpr_create_locked; try done. intros fd i Hf. apply wp_bind.
    match goal with |- wp _ _ _ (unlock _ _ ?l _) _ _ => apply (wpr_unlock (Some c) memory fuel l c i 0) end;
      try done; [by split; [|exists p]|].
    intros s o' Es En Ec. cbn in Es, En, Ec. apply wp_bind, wpr_drop_storage; [|rewrite Es; cbn; rewrite lookup_insert_eq; eauto|done].
    split; [by rewrite Es|]. exists p. by rewrite En, Ec.
  - apply wp_bind. eapply wpr_open_storage; try done. intros s fd i c Hf Es El En Ec. cbn in Es, En, Ec. apply wp_bind.
    eapply wpr_read; [rewrite Es; apply lookup_insert_eq|done|]. intros [a out] kn Ha. apply wp_bind, wpr_drop_storage.
    + split; [by rewrite Es|]. exists p. by rewrite En, Ec.
    + cbn. rewrite lookup_insert_eq. eauto.
    + destruct a as [[]|e]; [|done]. cbn in Ha |- *. rewrite Ha by done. by left.
  - apply wp_bind. by eapply wpr_remove_cfg.
  - apply wp_bind. by eapply wpr_does_exist.
Qed.

Lemma inv_claims k G cl cl' rs : inv k G cl rs -> cl ⊆ cl' -> inv k G cl' rs.
Proof.
  intros Hinv Hcl. split; try by apply Hinv.
  - intros i c Hc. destruct (inv_contents _ _ _ _ Hinv i c Hc) as [? ?]. split; [by apply Hcl|done].
  - intros j r c Hj Hc. apply Hcl. by eapply inv_seen.
Qed.

(** What the jobs that were started have set out to publish. *)
Definition contents_of (js : list job) : list (list Z) := omap job_contents js.

Lemma jobs_sound : sound program accepts umask (fun j => may (job_contents j)) next
  (fun k js rs => exists G, inv k G (contents_of js) rs) witnessed.
Proof.
  split.
  - intros k js rs i r j q a k' [G Hinv] Hr Hj Hmay Hp.
    destruct (step_sound umask Humask (job_contents j) k G _ rs i r q a k' Hinv Hr Hmay) as (G' & r' & Hn & Hinv'); [|done|by eauto].
    intros c Hc. apply list_elem_of_omap. by exists j.
  - intros k js rs j [G Hinv] _. exists G. eapply inv_claims; [done|]. intros c. unfold contents_of. rewrite !list_elem_of_omap. set_solver.
  - intros fuel j r Hj. by apply job_follows.
Qed.

(** No file is published. *)
Definition unpublished (k : kernel) : Prop := forall i n, k.(nodes) !! i = Some n -> published n.(mode) = false.

Definition outsider : role := {| fds := ∅; seen := [] |}.

Lemma inv_begin k n : wf k -> unpublished k -> inv k ∅ [] (replicate n outsider).
Proof.
  intros Hwf Hpub. split; cbn; [done|..].
  - intros i m Hm Hp. by rewrite (Hpub i m Hm) in Hp.
  - intros i c Hc. by rewrite lookup_empty in Hc.
  - intros j r fd kn [-> _]%lookup_replicate Hf. cbn in Hf. by rewrite lookup_empty in Hf.
  - intros j1 j2 r1 r2 fd1 fd2 kn1 kn2 [-> _]%lookup_replicate _ Hf. cbn in Hf. by rewrite lookup_empty in Hf.
  - intros j r c [-> _]%lookup_replicate Hc. cbn in Hc; by apply elem_of_nil in Hc.
Qed.

(** C12: a file-based storage is read completely or not at all.  Any number of processes
    create, publish, read, probe and remove storages, their system calls interleave
    arbitrarily, and every call may fail.  As long as no umask takes the owner's write
    permission, nobody panics; a file that has the permissions of a published storage
    contains everything that some creator has set out to publish; and so does what a
    reader gets. *)
Theorem file_storage_publishes w n g ps : unpublished (view w) -> rtc (act_step (iact (act program accepts))) (begin w n) (g, ps) ->
  (forall k p j, ps !! k = Some p -> p.(doing) <> Running j Crash) /\
  (forall i x, (view g.(world)).(nodes) !! i = Some x -> published x.(mode) = true -> x.(data) ∈ contents_of g.(started)) /\
  (forall k p c, ps !! k = Some p -> p.(doing) = Idle (Some (Consumed c)) -> c ∈ contents_of g.(started)).
Proof.
  intros Hf Hr. destruct (processes_invariant _ _ _ _ _ _ _ outsider jobs_sound w n g ps) as (rs & [G Hinv] & Hcrash & Hres).
  { exists ∅. apply inv_begin; [apply view_wf|done]. }
  { done. }
  split_and!; [done|..].
  - intros i x Hx Hp. destruct (inv_published _ _ _ _ Hinv i x Hx Hp) as [c Hc].
    destruct (inv_contents _ _ _ _ Hinv i c Hc) as (Hcl & x' & Hx' & <-). congruence.
  - intros k p c Hp Hd. destruct (Hres k p _ Hp Hd) as (r & Hk & Hw). by eapply (inv_seen _ _ _ _ Hinv k r).
Qed.

End system.

(** ** A storage in a reliable system *)

Section reliable.
Context `{Profile} (umask : nat -> Z) (memory : list Z) (fuel : nat) (Hfuel : (0 < fuel)%nat).

Notation wpk pid := (wp_alone umask pid false False).

Lemma wpk_path_for pid cfg n p Q k : NC.path_for cfg memory n = Ret p -> Q (as_bytes p) k -> wpk pid (path_for memory cfg n) Q k.
Proof. intros E HQ. unfold path_for. by rewrite E. Qed.

(** The file [p] is node [i] with the data [l], published or still locked. *)
Definition has_file (k : kernel) (p : list Z) (i : nat) (l : list Z) (published_ : bool) : Prop :=
  k.(names) !! p = Some i /\ exists n, k.(nodes) !! i = Some n /\ n.(data) = l /\ published n.(mode) = published_.

Lemma wpk_create_locked pid b p hint rest i d Q k : NC.path_for b.(b_config) memory b.(storage_name) = Ret p ->
  repr b.(b_config).(NC.path_hint) hint rest -> k.(names) !! hint = Some i -> k.(nodes) !! i = Some d -> has d.(mode) S_IFDIR = true ->
  k.(names) !! as_bytes p = None ->
  (forall fd j k', k'.(descriptors) !! (pid, fd) = Some (opened j [O_CREAT; O_EXCL; O_RDWR]) -> has_file k' (as_bytes p) j [] false ->
    Q (Ok {| static_storage := {| name := b.(storage_name); config := b.(b_config);
      has_ownership := b.(b_has_ownership); file := handle (as_bytes p) fd; len := 0 |} |}) k') ->
  wpk pid (create_locked fuel memory b) Q k.
Proof.
  intros Ep Hr Hi Hd Hdir Hp HQ. unfold create_locked, Dir.does_exist. rewrite (repr_bytes _ _ _ Hr).
  apply wp_try, wp_bind. split; [done|]. intros [st|e] k' Hs; cbn in Hs.
  2: { destruct Hs as [Hj _]. destruct e; congruence. }
  destruct Hs as (i' & n & Hi' & Hn & -> & ->). assert (i' = i) as -> by congruence. assert (n = d) as -> by congruence.
  cbn. unfold has in Hdir. rewrite Hdir. change (wpk pid (create_file fuel memory b) Q k).
  apply wp_bind. eapply wpk_path_for; [done|]. apply wp_bind.
  eapply (wp_create_exclusive umask pid false False (as_bytes p) OWNER_ALL); [done|done|by vm_compute| | |done].
  - intros fd j n Hnone Hj Hu Hm Hdata. cbn. apply (HQ fd j); [apply lookup_insert_eq|]. split; [apply lookup_insert_eq|].
    exists n. split; [apply lookup_insert_eq|]. split; [done|]. unfold published. by rewrite Hm.
  - intros [? ?]. congruence.
Qed.

Lemma wpk_unlock pid l p j contents Q k : let f := l.(static_storage).(file) in
  k.(descriptors) !! (pid, native_handle f) = Some (opened j [O_CREAT; O_EXCL; O_RDWR]) -> has_file k p j [] false ->
  (forall k', has_file k' p j contents true ->
    Q (Ok {| name := l.(static_storage).(name); config := l.(static_storage).(config);
             has_ownership := l.(static_storage).(has_ownership); file := f; len := zlength contents |}) k') ->
  wpk pid (unlock fuel memory l contents) Q k.
Proof.
  intros f Hd [Hp (n & Hn & Hdata & Hpub)] HQ. apply wp_bind. eapply wp_write_at; [done|done|done|done| |done].
  intros c o Hc Hfull. rewrite Hfull, Z.eqb_refl by done. cbn [negb]. rewrite Hdata, splice_all. apply wp_bind.
  eapply wp_set_permission; [apply lookup_insert_eq|apply lookup_insert_eq| |done]. apply HQ.
  split; [done|]. eexists. split; [apply lookup_insert_eq|]. split; [done|]. unfold published. apply Z.eqb_eq.
  cbn. rewrite as_permission_land, Z.land_lor_distr_l, <-Z.land_assoc. change (Z.land S_IFMT MASK) with 0.
  by rewrite Z.land_0_r.
Qed.

(** Opening a storage and looking at its permissions. *)
Lemma wpk_open pid b p j c pub Q k : NC.path_for b.(b_config) memory b.(storage_name) = Ret p -> has_file k (as_bytes p) j c pub ->
  (pub = false -> Q (Err StaticIsLocked) k) ->
  (forall fd, pub = true -> unused pid k fd ->
    Q (Ok {| name := b.(storage_name); config := b.(b_config); has_ownership := b.(b_has_ownership);
             file := handle (as_bytes p) fd; len := zlength c |}) (open_descriptor pid k fd j [O_RDONLY])) ->
  wpk pid (open fuel memory b) Q k.
Proof.
  intros Ep [Hp (n & Hn & Hdata & Hpub)] Hlocked HQ. apply wp_bind. eapply wpk_path_for; [done|]. apply wp_try, wp_open.
  2: { intros e He Hf. rewrite He in Hp by (by apply Hf). done. }
  intros fd i Hi Hu. assert (i = j) as -> by congruence. apply wp_bind, wp_try.
  eapply wp_acquire_attributes; [apply lookup_insert_eq|exact Hn| |done]. cbn [wp metadata_create permission attributes st_mode size st_size].
  unfold published in Hpub. rewrite Hpub. destruct pub; cbn [negb].
  - rewrite Hdata. by apply HQ.
  - apply wp_bind. eapply (wp_drop_file umask pid false False fuel (handle (as_bytes p) fd)); [done|done|done|apply lookup_insert_eq|].
    cbn. destruct Hu as [_ Hu]. unfold set_descriptors. cbn. rewrite delete_insert_id by done. destruct k. by apply Hlocked.
Qed.

Lemma wpk_read pid s j c blank Q k : k.(descriptors) !! (pid, native_handle s.(file)) = Some (opened j [O_RDONLY]) ->
  (exists n, k.(nodes) !! j = Some n /\ n.(data) = c) -> s.(len) = zlength c -> zlength blank = zlength c ->
  (forall o, Q (Ok tt, c) (set_descriptors k (<[(pid, native_handle s.(file)) := seek (opened j [O_RDONLY]) o]> k.(descriptors)))) ->
  wpk pid (read s blank) Q k.
Proof.
  intros Hd (n & Hn & <-) Hl Hb HQ. unfold read.
  rewrite Hb, Hl, Z.ltb_irrefl. apply wp_bind. eapply wp_read_range; [done|done|done|done| |done].
  intros l o Hpre Hlen Hfull. cbn [Z.to_nat skipn] in *. rewrite drop_0 in *. specialize (Hfull eq_refl). rewrite Hb, Z.min_id in Hfull.
  rewrite Hfull, Z.eqb_refl. cbn. assert (l = n.(data)) as ->.
  { apply prefix_length_eq; [done|]. unfold zlength in Hfull. lia. }
  rewrite drop_ge by (unfold zlength in *; lia). rewrite app_nil_r. apply HQ.
Qed.

(** C28: In a system whose calls fail only for reasons that its names, nodes and descriptors
    show (permissions suffice, no limit is reached), below an existing directory and for a
    name that is not in use: [create_locked] succeeds, the storage is
    locked for everyone who opens it until [unlock] has written the contents, and then
    [open] succeeds with their length and [read] gives exactly the contents. *)
Theorem file_storage_roundtrip {W} `{PosixLaws umask false W} pid pid' b b' p hint rest i d contents w :
  NC.path_for b.(b_config) memory b.(storage_name) = Ret p -> NC.path_for b'.(b_config) memory b'.(storage_name) = Ret p ->
  repr b.(b_config).(NC.path_hint) hint rest ->
  (view w).(names) !! hint = Some i -> (view w).(nodes) !! i = Some d -> has d.(mode) S_IFDIR = true ->
  (view w).(names) !! as_bytes p = None ->
  exists l w1 w2 s w3 s' w4 w5,
    run pid (create_locked fuel memory b) w = Some (Ret (Ok l, w1)) /\
    run pid' (open fuel memory b') w1 = Some (Ret (Err StaticIsLocked, w2)) /\
    run pid (unlock fuel memory l contents) w2 = Some (Ret (Ok s, w3)) /\
    run pid' (open fuel memory b') w3 = Some (Ret (Ok s', w4)) /\ s'.(len) = zlength contents /\
    run pid' (read s' (replicate (Z.to_nat s'.(len)) 0)) w4 = Some (Ret ((Ok tt, contents), w5)).
Proof.
  intros Ep Ep' Hr Hi Hd Hdir Hp.
  destruct (wp_alone_returns umask false pid (create_locked fuel memory b) (fun r k => exists l fd j, r = Ok l /\
    native_handle l.(static_storage).(file) = fd /\ k.(descriptors) !! (pid, fd) = Some (opened j [O_CREAT; O_EXCL; O_RDWR]) /\
    has_file k (as_bytes p) j [] false) w) as (r & w1 & E1 & l & fd & j & -> & Hfd & Hdesc & Hf).
  { eapply wpk_create_locked; [done..|]. intros fd j k' ? ?. by eexists _, fd, j. }
  destruct (wp_alone_returns umask false pid' (open fuel memory b') (fun r k => r = Err StaticIsLocked /\ k = view w1) w1)
    as (r & w2 & E2 & -> & Hw2).
  { eapply wpk_open; [done..|]. done. }
  destruct (wp_alone_returns umask false pid (unlock fuel memory l contents) (fun r k => (exists s, r = Ok s) /\
    has_file k (as_bytes p) j contents true) w2) as (r & w3 & E3 & (s & ->) & Hf3).
  { eapply wpk_unlock; rewrite ?Hw2, ?Hfd; [done|done|]. intros k' ?. split; [by eexists|done]. }
  destruct (wp_alone_returns umask false pid' (open fuel memory b') (fun r k => exists s', r = Ok s' /\ s'.(len) = zlength contents /\
    k.(descriptors) !! (pid', native_handle s'.(file)) = Some (opened j [O_RDONLY]) /\ k.(nodes) = (view w3).(nodes)) w3)
    as (r & w4 & E4 & s' & -> & Hlen & Hdesc4 & Hn4).
  { eapply wpk_open; [done..|]. intros fd' _ _. eexists. split; [done|]. split; [done|]. split; [apply lookup_insert_eq|done]. }
  destruct (wp_alone_returns umask false pid' (read s' (replicate (Z.to_nat s'.(len)) 0)) (fun r _ => r = (Ok tt, contents)) w4)
    as (r & w5 & E5 & ->).
  { eapply wpk_read; [done| |done|unfold zlength in *; rewrite length_replicate; lia|done]. rewrite Hn4. destruct Hf3 as (_ & n & ? & ? & _). by exists n. }
  by exists l, w1, w2, s, w3, s', w4, w5.
Qed.

End reliable.

(** ** Concrete runs *)

(** The hint is "/tmp", a name [n] has the path "/tmp/i_n.s". *)
Definition example_hint : FixedSizeByteString :=
  {| CAPACITY := 4096; ByteString.len := 4; ByteString.data := [47; 116; 109; 112] ++ replicate 4092 0 |}.
Definition example_cfg : NC.NamedConceptConfiguration :=
  {| NC.prefix := [105; 95]; NC.suffix := [46; 115]; NC.path_hint := example_hint |}.

Lemma example_cfg_ok : NC.cfg_ok example_cfg [47; 116; 109; 112] (replicate 4092 0).
Proof. split; done. Qed.

Definition two_processes : list (nat * action job) :=
  [(0%nat, Start 1 (Publish [97] false [1; 2; 3]))] ++ replicate 12 (0%nat, Perform) ++ [(0%nat, Return)] ++
  [(1%nat, Start 1 (Consume [97] false))] ++ replicate 6 (1%nat, Perform) ++ [(1%nat, Return)].

#[local] Instance example_laws : @PosixLaws no_umask true Simple.system (Simple.simple_posix no_umask) :=
  faulty_laws no_umask (H0 := Simple.simple_laws no_umask).

(** The first process publishes three bytes, the second reads them. *)
Lemma file_storage_publishes_witness :
  let act := @act _ (Simple.simple_posix no_umask) _ _ (@program dev (replicate 4096 0) example_cfg)
    (@accepts dev (replicate 4096 0) example_cfg) in
  exists g p q, rtc (act_step (iact act)) (begin empty_system 2) (g, [p; q]) /\
  q.(doing) = Idle (Some (Consumed [1; 2; 3])) /\ [1; 2; 3] ∈ contents_of g.(started).
Proof.
  intros act0.
  assert (Hok : match run_schedule (iact act0) two_processes (begin empty_system 2) with
    | Some (_, [_; q]) => match q.(doing) with Idle (Some (Consumed c)) => bool_decide (c = [1; 2; 3]) | _ => false end
    | _ => false
    end = true) by (vm_compute; reflexivity).
  destruct (run_schedule _ _ _) as [[g [|p [|q [|]]]]|] eqn:E; try discriminate Hok. exists g, p, q.
  destruct q.(doing) as [[[]|]|] eqn:Eq; try discriminate Hok. apply bool_decide_eq_true_1 in Hok. subst c.
  apply run_schedule_reachable in E. split; [exact E|]. split; [reflexivity|].
  destruct (@file_storage_publishes dev _ no_umask _ example_laws (replicate 4096 0) example_cfg _ _ example_cfg_ok
    eq_refl eq_refl (fun _ => eq_refl) empty_system 2 g [p; q]) as (_ & _ & Ht); [|exact E|].
  - intros i n Hn. cbn in Hn. by rewrite lookup_empty in Hn.
  - apply (Ht 1%nat q); [reflexivity|exact Eq].
Defined.

(** A system with the directory "/tmp" and nothing else. *)
Definition tmp_kernel : kernel :=
  {| names := {[ [47; 116; 109; 112] := 0%nat ]}; nodes := {[ 0%nat := Simple.blank (Z.lor S_IFDIR OWNER_ALL) ]}; descriptors := ∅; objects := ∅; mappings := ∅ |}.

Lemma tmp_kernel_wf : wf tmp_kernel.
Proof.
  split; cbn; intros x i Hx; try by rewrite lookup_empty in Hx.
  apply lookup_singleton_Some in Hx as [<- <-]. eexists. apply lookup_singleton_eq.
Qed.

Definition tmp_system : Simple.system := tmp_kernel ↾ tmp_kernel_wf.

Definition example_builder (n : list Z) : Builder := {| storage_name := n; b_has_ownership := false; b_config := example_cfg |}.

Definition blank_path : list Z := replicate 4096 0.

(** Process 0 creates the storage "a" in "/tmp" and writes three bytes, process 1 finds it
    locked first and then reads them. *)
Lemma file_storage_roundtrip_witness : exists l w1 w2 s w3 s' w4 w5,
  let run pid {A} := @run _ (Simple.simple_posix no_umask) pid A in
  run 0%nat (@create_locked dev 1 blank_path (example_builder [97])) tmp_system = Some (Ret (Ok l, w1)) /\
  run 1%nat (@open dev 1 blank_path (example_builder [97])) w1 = Some (Ret (Err StaticIsLocked, w2)) /\
  run 0%nat (@unlock dev 1 blank_path l [1; 2; 3]) w2 = Some (Ret (Ok s, w3)) /\
  run 1%nat (@open dev 1 blank_path (example_builder [97])) w3 = Some (Ret (Ok s', w4)) /\ s'.(len) = 3 /\
  run 1%nat (read s' (replicate (Z.to_nat s'.(len)) 0)) w4 = Some (Ret ((Ok tt, [1; 2; 3]), w5)).
Proof.
  assert (Hp : is_ret (@NC.path_for dev example_cfg blank_path [97]) = true) by (vm_compute; reflexivity).
  destruct (@NC.path_for dev example_cfg blank_path [97]) as [p|] eqn:Ep; [|discriminate Hp]. clear Hp.
  apply (@file_storage_roundtrip dev no_umask blank_path 1 ltac:(lia) _ _ (Simple.simple_laws no_umask) 0 1
    (example_builder [97]) (example_builder [97]) p [47; 116; 109; 112] (replicate 4092 0) 0
    (Simple.blank (Z.lor S_IFDIR OWNER_ALL)) [1; 2; 3] tmp_system).
  - exact Ep.
  - exact Ep.
  - apply example_cfg_ok.
  - reflexivity.
  - reflexivity.
  - reflexivity.
  - assert (Hb : bool_decide (as_bytes <$> (match @NC.path_for dev example_cfg blank_path [97] with Ret p => Some p | Panic => None end)
      = Some [47; 116; 109; 112; 47; 105; 95; 97; 46; 115]) = true) by (vm_compute; reflexivity).
    apply bool_decide_eq_true in Hb. rewrite Ep in Hb. injection Hb as ->. reflexivity.
Defined.

(** ** Races

    What a process sees when another one acts between two of its calls.  [after] is the
    system after a program that returns. *)
Section races.
#[local] Existing Instance dev.
#[local] Instance plain : Posix Simple.system := Simple.simple_posix no_umask.

Definition after {A} (pid : nat) (p : prog A) (w : Simple.system) : Simple.system :=
  match run pid p w with Some (Ret (_, w')) => w' | _ => w end.

Definition value_of {A} (r : option (outcome (A * Simple.system))) : option A :=
  match r with Some (Ret (a, _)) => Some a | _ => None end.

Definition publish (n : list Z) : prog unit :=
  let? r := create_locked 1 blank_path (example_builder n) in
  match r with Ok l => let? _ := unlock 1 blank_path l [1; 2; 3] in Done tt | Err _ => Done tt end.

(** The storages "a" and "b" are published in "/tmp". *)
Definition two_storages : Simple.system := after 0 (let? _ := publish [97] in publish [98]) tmp_system.

(** Listing asks for the metadata of every entry it has read from the directory: when one
    storage is removed in between, the list of all of them fails. *)
Lemma list_fails_on_concurrent_remove :
  value_of (run 1 (list_cfg 1 (replicate 255 0) example_cfg) two_storages) = Some (Ok [[98]; [97]]) /\
  value_of (run_interrupted 1 2 (after 0 (remove_cfg 1 blank_path [97] example_cfg)) (list_cfg 1 (replicate 255 0) example_cfg) two_storages)
  = Some (Err ListInternalError).
Proof. split; vm_compute; reflexivity. Qed.

(** A storage that is removed while somebody asks whether it exists is reported as corrupted. *)
Lemma does_exist_fails_on_concurrent_remove :
  value_of (run 1 (does_exist_cfg 1 blank_path [97] example_cfg) two_storages) = Some (Ok true) /\
  value_of (run_interrupted 1 1 (after 0 (remove_cfg 1 blank_path [97] example_cfg)) (does_exist_cfg 1 blank_path [97] example_cfg) two_storages)
  = Some (Err UnderlyingResourcesCorrupted).
Proof. split; vm_compute; reflexivity. Qed.

(** Two processes create the first storages below a directory that does not exist yet: the
    one that finds the directory missing and is overtaken fails, though the names differ. *)
Lemma create_fails_on_concurrent_create :
  value_of (run_interrupted 1 2 (after 0 (publish [97])) (create_locked 1 blank_path (example_builder [98])) empty_system)
  = Some (Err StaticCreation).
Proof. vm_compute. reflexivity. Qed.

End races.

End FileStorage.
