(* ===== verification/DynamicStorage.v ===== *)
(** * Dynamic storages

    [iceoryx2_cal::dynamic_storage]: a named value that several participants share and
    modify.  The file models the process-local variant, a map from paths to shared
    pointers behind a mutex.

    A shared pointer is the index of its value in [heap].  Removing a name only removes
    the map's pointer; whoever has opened the storage keeps the value alive and goes on
    using it.  That the value is freed with its last pointer is not represented: no
    operation can reach it any more.  Every operation holds the mutex from its first to
    its last access of the map, so that the operations are atomic. *)

From S2P Require Import Prelude Math Allocator BumpAllocator ByteString SemanticString SystemTypes NamedConcept StaticStorage.

Module Bump := BumpAllocator.

(* src/iceoryx2_cal/src/dynamic_storage/mod.rs:80-86 DynamicStorageCreateError *)
Inductive DynamicStorageCreateError :=
| DynamicAlreadyExists | DynamicCreation | DynamicWrite | DynamicInitializationFailed
| DynamicCreateInternalError.

(* src/iceoryx2_cal/src/dynamic_storage/mod.rs:90-95 DynamicStorageOpenError *)
Inductive DynamicStorageOpenError :=
| DynamicDoesNotExist | DynamicOpen | InitializationNotYetFinalized | DynamicOpenInternalError.

Module DynamicStorage.
Module NC := NamedConcept.NamedConcept.

(** The map behind [PROCESS_LOCAL_STORAGE] and the values its pointers, and those of the
    opened storages, point to. *)
Record world (T : Type) := { names : gmap (list Z) nat; heap : list T }.
Arguments names {T}.
Arguments heap {T}.

(* src/iceoryx2_cal/src/dynamic_storage/process_local.rs:167-172 Storage *)
Record Storage := {
  name : list Z;
  data : nat;
  has_ownership : bool;
  config : NC.NamedConceptConfiguration;
}.

(* src/iceoryx2_cal/src/dynamic_storage/process_local.rs:276-282 Builder *)
Record Builder := {
  b_name : list Z;
  supplementary_size : Z;
  b_has_ownership : bool;
  b_config : NC.NamedConceptConfiguration;
}.

Section process_local.
Context `{Profile} (memory file_memory : list Z) {T : Type} (size_T align_T : Z)
  (heap_allocate : Layout -> option Z).
Implicit Types (w : world T) (s : Storage) (b : Builder) (cfg : NC.NamedConceptConfiguration).

Definition path_for cfg (n : list Z) : outcome (list Z) :=
  let! p := NC.path_for cfg memory n in Ret (as_bytes p).

(* src/iceoryx2_cal/src/dynamic_storage/process_local.rs:183-198 does_exist_cfg *)
Definition does_exist_cfg (n : list Z) cfg w : outcome (Result bool NamedConceptDoesExistError) :=
  let! path := path_for cfg n in
  match w.(names) !! path with
  | Some _ => Ret (Ok true)
  | None => Ret (Ok false)
  end.

(* src/iceoryx2_cal/src/dynamic_storage/process_local.rs:200-218 list_cfg *)
Definition list_cfg cfg w : outcome (list (list Z)) :=
  StaticStorage.list_keys memory file_memory cfg (map_to_list w.(names)).*1.

(* src/iceoryx2_cal/src/dynamic_storage/process_local.rs:220-235 remove_cfg *)
Definition remove_cfg (n : list Z) cfg w : outcome (bool * world T) :=
  let! storage_name := path_for cfg n in
  Ret (bool_decide (is_Some (w.(names) !! storage_name)),
       {| names := delete storage_name w.(names); heap := w.(heap) |}).

Definition set_ownership s o : Storage :=
  {| name := s.(name); data := s.(data); has_ownership := o; config := s.(config) |}.

(* src/iceoryx2_cal/src/dynamic_storage/process_local.rs:245-247 acquire_ownership *)
Definition acquire_ownership s : Storage := set_ownership s true.

(* src/iceoryx2_cal/src/dynamic_storage/process_local.rs:257-259 release_ownership *)
Definition release_ownership s : Storage := set_ownership s false.

(* src/iceoryx2_cal/src/dynamic_storage/process_local.rs:249-251 get *)
Definition get s w : option T := w.(heap) !! s.(data).

(** Modifying the shared value through the reference that [get] returns. *)
Definition modify s (f : T -> T) w : world T :=
  {| names := w.(names); heap := alter f s.(data) w.(heap) |}.

(* src/iceoryx2_cal/src/dynamic_storage/process_local.rs:262-273 drop *)
Definition drop s w : outcome (world T) :=
  if s.(has_ownership) then
    let! '(removed, w) := remove_cfg s.(name) s.(config) w in
    if removed then Ret w else Panic
  else Ret w.

(** Whether the value has the type the caller expects ([downcast]) is not represented;
    an opened storage never has the ownership. *)
(* src/iceoryx2_cal/src/dynamic_storage/process_local.rs:312-337 try_open *)
Definition try_open b w : outcome (Result Storage DynamicStorageOpenError) :=
  let! full_path := path_for b.(b_config) b.(b_name) in
  match w.(names) !! full_path with
  | None => Ret (Err DynamicDoesNotExist)
  | Some content =>
      Ret (Ok {| name := b.(b_name); data := content; has_ownership := false;
                 config := b.(b_config) |})
  end.

(* src/iceoryx2_cal/src/dynamic_storage/process_local.rs:339-350 open *)
Definition open b w : outcome (Result Storage DynamicStorageOpenError) :=
  let! r := try_open b w in
  match r with
  | Err DynamicDoesNotExist => Ret (Err DynamicDoesNotExist)
  | Err e => Ret (Err e)
  | Ok s => Ret (Ok s)
  end.

(** [heap_allocate] stands for the allocator of the C library behind [HeapAllocator]; the
    result is the address of the value. *)
(* src/iceoryx2_cal/src/dynamic_storage/process_local.rs:117-129 StorageDetails::new *)
Definition storage_details_new (additional_size : Z) : outcome Z :=
  let! size := size_T +u64 additional_size in
  match heap_allocate {| size := size; layout_align := align_T |} with
  | Some address => Ret address
  | None => Panic
  end.

(* src/iceoryx2_cal/src/dynamic_storage/process_local.rs:352-409 create_and_initialize *)
Definition create_and_initialize b (initial_value : T)
    (initializer : T -> BumpAllocator -> outcome (bool * T)) w
    : outcome (Result Storage DynamicStorageCreateError * world T) :=
  let! full_path := path_for b.(b_config) b.(b_name) in
  match w.(names) !! full_path with
  | Some _ => Ret (Err DynamicAlreadyExists, w)
  | None =>
      let! value := storage_details_new b.(supplementary_size) in
      let! supplementary_start := value +u64 size_T in
      let allocator := Bump.new supplementary_start b.(supplementary_size) in
      let! '(ok, value) := initializer initial_value allocator in
      if negb ok then Ret (Err DynamicInitializationFailed, w)
      else
        let i := length w.(heap) in
        Ret (Ok {| name := b.(b_name); data := i; has_ownership := b.(b_has_ownership);
                   config := b.(b_config) |},
             {| names := <[full_path := i]> w.(names); heap := w.(heap) ++ [value] |})
  end.

(** ** Properties *)

(** The life of a process-local dynamic storage whose name maps to [path].  Its creator
    and everybody who opens it share one value: what one of them writes all of them see.
    It cannot be created twice.  When the owner is dropped the name is free again, while
    the storages opened before keep the value with everything written to it. *)
Theorem dynamic_storage_lifecycle n cfg path w sz a initial init v f g :
  let b := {| b_name := n; supplementary_size := sz; b_has_ownership := true; b_config := cfg |} in
  path_for cfg n = Ret path -> w.(names) !! path = None -> 0 <= sz -> 0 <= size_T ->
  heap_allocate {| size := size_T + sz; layout_align := align_T |} = Some a -> 0 <= a -> a + size_T + sz < 2 ^ 64 ->
  init initial (Bump.new (a + size_T) sz) = Ret (true, v) ->
  exists s w1 o,
    create_and_initialize b initial init w = Ret (Ok s, w1) /\
    create_and_initialize b initial init w1 = Ret (Err DynamicAlreadyExists, w1) /\
    open b w1 = Ret (Ok o) /\ get s w1 = Some v /\
    let w2 := modify o g (modify s f w1) in
    get o w2 = Some (g (f v)) /\ get s w2 = Some (g (f v)) /\
    exists w3, drop s w2 = Ret w3 /\ w3.(names) = w.(names) /\ get o w3 = Some (g (f v)) /\
      open b w3 = Ret (Err DynamicDoesNotExist) /\
      drop s w3 = Panic /\ drop o w3 = Ret w3.
Proof.
  intros b Ep Ew H0z H0s Eh H0a Ha Ei.
  unfold create_and_initialize, open, try_open. subst b. cbn [b_config b_name supplementary_size b_has_ownership].
  rewrite Ep. cbn [outcome_bind]. rewrite Ew. unfold storage_details_new.
  rewrite uadd_ok by lia. cbn [outcome_bind]. rewrite Eh. cbn [outcome_bind].
  rewrite uadd_ok by lia. cbn [outcome_bind]. rewrite Ei. cbn [outcome_bind negb].
  eexists _, _, _. split; [done|]. cbn [names heap]. rewrite !lookup_insert_eq.
  split; [done|]. split; [done|]. unfold get, modify, drop, remove_cfg. cbn [data names heap name config has_ownership].
  assert (Ev : (w.(heap) ++ [v]) !! length w.(heap) = Some v)
    by (rewrite lookup_app_r, Nat.sub_diag by lia; done).
  rewrite !list_lookup_alter_eq, Ev. do 3 (split; [done|]).
  rewrite Ep. cbn [outcome_bind]. rewrite lookup_insert_eq. cbn [bool_decide]. rewrite bool_decide_eq_true_2 by done.
  eexists. split; [done|]. cbn [names heap]. rewrite delete_insert_id by done. split; [done|].
  rewrite !list_lookup_alter_eq, Ev, Ew. do 2 (split; [done|]). rewrite bool_decide_eq_false_2; [done|]. by intros [].
Qed.

End process_local.

(** A counter that starts at 1, with two writers. *)
Lemma dynamic_storage_lifecycle_witness : exists cfg s w1,
  @create_and_initialize dev (replicate 4096 0) Z 8 8 (fun _ => Some 4096)
    {| b_name := [97]; supplementary_size := 16; b_has_ownership := true; b_config := cfg |}
    1 (fun v _ => Ret (true, v)) {| names := ∅; heap := [] |} = Ret (Ok s, w1) /\ get s w1 = Some 1.
Proof.
  destruct StaticStorage.example_static_path as (cfg & path & E).
  destruct (@dynamic_storage_lifecycle dev (replicate 4096 0) Z 8 8 (fun _ => Some 4096) [97] cfg path
    {| names := ∅; heap := [] |} 16 4096 1 (fun v _ => Ret (true, v)) 1 Z.succ Z.succ)
    as (s & w1 & o & E1 & _ & _ & E2 & _);
    [exact E|apply lookup_empty|lia|lia|reflexivity|lia|reflexivity|reflexivity|].
  exists cfg, s, w1. split; [exact E1|exact E2].
Defined.

End DynamicStorage.
