(* ===== verification/LocalConnection.v ===== *)
(** * Zero copy connections inside a process

    [iceoryx2_cal::zero_copy_connection::process_local]: the connections of all senders and
    receivers of a process, a map from paths to shared pointers behind a mutex.  A shared
    pointer is the index of its connection in [heap].  Ports are created, used and dropped
    in any order; the theorem relates this to a registry of connections in which channels
    are lists, the state byte is two flags and pointers are gone.

    The operations of a port work on the shared connection without the mutex; they are
    atomic here, their interleaving is the subject of [ZeroCopyConnection]. *)

From S2P Require Import Prelude QueueSpec IndexQueue OverflowQueue ZeroCopyConnection ByteString SemanticString SystemTypes NamedConcept StaticStorage.

Module LocalConnection.
Module NC := NamedConcept.NamedConcept.
Module ZC := ZeroCopyConnection.

(** The name is a field of [Management] here; the others are those of the connection in
    shared memory. *)
(* src/iceoryx2_cal/src/zero_copy_connection/process_local.rs:41-48 Management *)
Record Entry := { name : list Z; body : ZC.Mgmt }.

(* src/iceoryx2_cal/src/zero_copy_connection/process_local.rs:34-38 State *)
Inductive Side := Sender | Receiver.

Definition bit (s : Side) : Z := match s with Sender => 1 | Receiver => 2 end.

(* src/iceoryx2_cal/src/zero_copy_connection/process_local.rs:111-117 Builder *)
Record Builder := {
  b_name : list Z;
  b_buffer_size : Z;
  b_enable_safe_overflow : bool;
  b_max_borrowed_samples : Z;
  b_config : NC.NamedConceptConfiguration;
}.

(** Both kinds of ports; the borrow counter of a sender is not used. *)
(* src/iceoryx2_cal/src/zero_copy_connection/process_local.rs:275-278 Sender *)
Record Port := {
  side : Side;
  mgmt : nat;
  config : NC.NamedConceptConfiguration;
  borrow_counter : Z;
}.

(** The map behind [PROCESS_LOCAL_STORAGE] and what the shared pointers point to. *)
Record world := { names : gmap (list Z) nat; heap : list Entry }.

#[export] Instance side_eq_dec : EqDecision Side.
Proof. solve_decision. Defined.

Section process_local.
Context `{Profile} (memory file_memory : list Z) (receive_ptr retrieve_ptr : Z).
Implicit Types (w : world) (b : Builder) (p : Port) (cfg : NC.NamedConceptConfiguration).

Definition path_for cfg (n : list Z) : outcome (list Z) :=
  let! p := NC.path_for cfg memory n in Ret (as_bytes p).

Definition set_body w (i : nat) (m : ZC.Mgmt) : world :=
  {| names := w.(names); heap := alter (fun e => {| name := e.(name); body := m |}) i w.(heap) |}.

(* src/iceoryx2_cal/src/zero_copy_connection/process_local.rs:120-141 check_compatibility *)
Definition check_compatibility b (entry : ZC.Mgmt) : Result unit ZeroCopyCreationError :=
  if negb (eqb entry.(ZC.enable_safe_overflow) b.(b_enable_safe_overflow)) then Err IncompatibleOverflowSetting
  else if negb (entry.(ZC.max_borrowed_samples) =? b.(b_max_borrowed_samples)) then Err IncompatibleMaxBorrowedSampleSetting
  else if negb (entry.(ZC.receive_channel).(O.capacity) =? b.(b_buffer_size)) then Err IncompatibleBufferSize
  else Ok tt.

(* src/iceoryx2_cal/src/zero_copy_connection/process_local.rs:143-145 retrieve_channel_size *)
Definition retrieve_channel_size b : outcome Z :=
  let! n := b.(b_buffer_size) +u64 b.(b_max_borrowed_samples) in n +u64 1.

(** The addresses of the channels are those the heap allocator hands out. *)
(* src/iceoryx2_cal/src/zero_copy_connection/process_local.rs:208-215 create_sender *)
Definition new_entry b (s : Side) : outcome Entry :=
  let! q := O.new receive_ptr b.(b_buffer_size) in
  let! n := retrieve_channel_size b in
  Ret {| name := b.(b_name);
         body := {| ZC.receive_channel := q; ZC.retrieve_channel := I.new retrieve_ptr n;
                    ZC.max_borrowed_samples := b.(b_max_borrowed_samples); ZC.state := bit s;
                    ZC.enable_safe_overflow := b.(b_enable_safe_overflow) |} |}.

(** The bodies of [create_sender] and [create_receiver], which differ in the bit. *)
(* src/iceoryx2_cal/src/zero_copy_connection/process_local.rs:181-271 create_sender, create_receiver *)
Definition create_port b (s : Side) w : outcome (Result Port ZeroCopyCreationError * world) :=
  let! full_path := path_for b.(b_config) b.(b_name) in
  match w.(names) !! full_path with
  | Some i =>
      match w.(heap) !! i with
      | None => Panic
      | Some entry =>
          let state := entry.(body).(ZC.state) in
          if negb (Z.land state (bit s) =? 0) then Ret (Err AnotherInstanceIsAlreadyConnected, w)
          else
            match check_compatibility b entry.(body) with
            | Err e => Ret (Err e, w)
            | Ok _ =>
                Ret (Ok {| side := s; mgmt := i; config := b.(b_config); borrow_counter := 0 |},
                     set_body w i (ZC.set_state entry.(body) (Z.lor state (bit s))))
            end
      end
  | None =>
      let! entry := new_entry b s in
      let i := length w.(heap) in
      Ret (Ok {| side := s; mgmt := i; config := b.(b_config); borrow_counter := 0 |},
           {| names := <[full_path := i]> w.(names); heap := w.(heap) ++ [entry] |})
  end.

(* src/iceoryx2_cal/src/zero_copy_connection/process_local.rs:226-271 create_receiver *)
Definition create_receiver b w : outcome (Result Port ZeroCopyCreationError * world) := create_port b Receiver w.

(* src/iceoryx2_cal/src/zero_copy_connection/process_local.rs:181-224 create_sender *)
Definition create_sender b w : outcome (Result Port ZeroCopyCreationError * world) := create_port b Sender w.

(** A shared pointer is never dangling: [Panic] stands for what cannot happen. *)
Definition with_mgmt {A} p w (f : ZC.Mgmt -> outcome (A * ZC.Mgmt)) : outcome (A * world) :=
  match w.(heap) !! p.(mgmt) with
  | None => Panic
  | Some e => let! '(r, m) := f e.(body) in Ret (r, set_body w p.(mgmt) m)
  end.

(* src/iceoryx2_cal/src/zero_copy_connection/process_local.rs:312-333 try_send *)
Definition try_send p (ptr : Z) w : outcome (Result (option Z) ZeroCopySendError * world) :=
  with_mgmt p w (fun m => ZC.try_send m ptr).

(** [None]: the receive buffer is full and the call keeps waiting. *)
(* src/iceoryx2_cal/src/zero_copy_connection/process_local.rs:335-350 blocking_send *)
Definition blocking_send p (ptr : Z) w : outcome (option (Result (option Z) ZeroCopySendError) * world) :=
  with_mgmt p w (fun m =>
    let! r := ZC.blocking_send m ptr in
    Ret (match r with Some (r, m) => (Some r, m) | None => (None, m) end)).

(* src/iceoryx2_cal/src/zero_copy_connection/process_local.rs:352-357 reclaim *)
Definition reclaim p w : outcome (option Z * world) := with_mgmt p w ZC.reclaim.

Definition set_borrow_counter p c : Port :=
  {| side := p.(side); mgmt := p.(mgmt); config := p.(config); borrow_counter := c |}.

(* src/iceoryx2_cal/src/zero_copy_connection/process_local.rs:438-453 receive *)
Definition receive p w : outcome (Result (option Z) ZeroCopyReceiveError * Port * world) :=
  let! '((r, c), w) := with_mgmt p w (fun m =>
    let! '(r, m, c) := ZC.receive m p.(borrow_counter) in Ret ((r, c), m)) in
  Ret (r, set_borrow_counter p c, w).

(* src/iceoryx2_cal/src/zero_copy_connection/process_local.rs:455-469 release *)
Definition release p (ptr : Z) w : outcome (Result unit ZeroCopyReleaseError * Port * world) :=
  let! '((r, c), w) := with_mgmt p w (fun m =>
    let! '(r, m, c) := ZC.release m p.(borrow_counter) ptr in Ret ((r, c), m)) in
  Ret (r, set_borrow_counter p c, w).

(* src/iceoryx2_cal/src/zero_copy_connection/process_local.rs:305-308 is_connected *)
Definition is_connected p w : bool :=
  match w.(heap) !! p.(mgmt) with
  | None => false
  | Some e =>
      negb (Z.land e.(body).(ZC.state) (bit Sender) =? 0) && negb (Z.land e.(body).(ZC.state) (bit Receiver) =? 0)
  end.

(** [!state] has the other bits of the byte. *)
(* src/iceoryx2_cal/src/zero_copy_connection/process_local.rs:367-393 cleanup_connection *)
Definition cleanup_connection (n : list Z) cfg (s : Side) w : outcome world :=
  let! full_path := path_for cfg n in
  match w.(names) !! full_path with
  | None => Panic
  | Some i =>
      match w.(heap) !! i with
      | None => Panic
      | Some v =>
          let current_state := v.(body).(ZC.state) in
          let w := set_body w i (ZC.set_state v.(body) (Z.land current_state (255 - bit s))) in
          if current_state =? bit s then Ret {| names := delete full_path w.(names); heap := w.(heap) |}
          else Ret w
      end
  end.

(* src/iceoryx2_cal/src/zero_copy_connection/process_local.rs:396-398 drop *)
Definition drop p w : outcome world :=
  match w.(heap) !! p.(mgmt) with
  | None => Panic
  | Some e => cleanup_connection e.(name) p.(config) p.(side) w
  end.

(* src/iceoryx2_cal/src/zero_copy_connection/process_local.rs:477-492 does_exist_cfg *)
Definition does_exist_cfg (n : list Z) cfg w : outcome (Result bool NamedConceptDoesExistError) :=
  let! path := path_for cfg n in Ret (Ok (bool_decide (is_Some (w.(names) !! path)))).

(* src/iceoryx2_cal/src/zero_copy_connection/process_local.rs:494-510 list_cfg *)
Definition list_cfg cfg w : outcome (list (list Z)) :=
  StaticStorage.list_keys memory file_memory cfg (map_to_list w.(names)).*1.

(* src/iceoryx2_cal/src/zero_copy_connection/process_local.rs:512-526 remove_cfg *)
Definition remove_cfg (n : list Z) cfg w : outcome (bool * world) :=
  let! storage_name := path_for cfg n in
  Ret (bool_decide (is_Some (w.(names) !! storage_name)),
       {| names := delete storage_name w.(names); heap := w.(heap) |}).

(** ** Ports that come and go *)

(** What the threads of a process may do with connections.  A port is named by the position
    at which it was created. *)
Inductive call :=
| Create (b : Builder) (s : Side)
| TrySend (i : nat) (ptr : Z)
| BlockingSend (i : nat) (ptr : Z)
| Reclaim (i : nat)
| Receive (i : nat)
| Release (i : nat) (ptr : Z)
| IsConnected (i : nat)
| Drop (i : nat)
| DoesExist (n : list Z) (cfg : NC.NamedConceptConfiguration).

Inductive reply :=
| Created (r : Result unit ZeroCopyCreationError)
| Sent (r : option (Result (option Z) ZeroCopySendError))
| Reclaimed (r : option Z)
| Received (r : Result (option Z) ZeroCopyReceiveError)
| Released (r : Result unit ZeroCopyReleaseError)
| Answer (b : bool)
| Dropped.

(** The live ports; a dropped one is [None]. *)
Record system := { shared : world; ports : list (option Port) }.

Definition with_port {A} (s : system) (i : nat) (k : Port -> outcome A) : outcome A :=
  match s.(ports) !! i with Some (Some p) => k p | _ => Panic end.

Definition set_port (s : system) (i : nat) (p : option Port) (w : world) : system :=
  {| shared := w; ports := <[i := p]> s.(ports) |}.

Definition perform (s : system) (c : call) : outcome (reply * system) :=
  match c with
  | Create b sd =>
      let! '(r, w) := (match sd with Sender => create_sender b s.(shared) | Receiver => create_receiver b s.(shared) end) in
      match r with
      | Ok p => Ret (Created (Ok tt), {| shared := w; ports := s.(ports) ++ [Some p] |})
      | Err e => Ret (Created (Err e), {| shared := w; ports := s.(ports) ++ [None] |})
      end
  | TrySend i ptr => with_port s i (fun p =>
      let! '(r, w) := try_send p ptr s.(shared) in Ret (Sent (Some r), set_port s i (Some p) w))
  | BlockingSend i ptr => with_port s i (fun p =>
      let! '(r, w) := blocking_send p ptr s.(shared) in Ret (Sent r, set_port s i (Some p) w))
  | Reclaim i => with_port s i (fun p =>
      let! '(r, w) := reclaim p s.(shared) in Ret (Reclaimed r, set_port s i (Some p) w))
  | Receive i => with_port s i (fun p =>
      let! '(r, p, w) := receive p s.(shared) in Ret (Received r, set_port s i (Some p) w))
  | Release i ptr => with_port s i (fun p =>
      let! '(r, p, w) := release p ptr s.(shared) in Ret (Released r, set_port s i (Some p) w))
  | IsConnected i => with_port s i (fun p => Ret (Answer (is_connected p s.(shared)), s))
  | Drop i => with_port s i (fun p => let! w := drop p s.(shared) in Ret (Dropped, set_port s i None w))
  | DoesExist n cfg =>
      let! r := does_exist_cfg n cfg s.(shared) in
      match r with Ok b => Ret (Answer b, s) | Err _ => Panic end
  end.

Fixpoint perform_all (s : system) (cs : list call) : outcome (list reply * system) :=
  match cs with
  | [] => Ret ([], s)
  | c :: cs =>
      let! '(r, s) := perform s c in
      let! '(rs, s) := perform_all s cs in
      Ret (r :: rs, s)
  end.

(** ** The registry of connections that a process sees *)

(** A connection: the settings it was created with, whether there is a sender, the number
    of samples the receiver holds if there is one, and the samples in the channels. *)
Record conn := {
  size : Z; borrow_limit : Z; overflow : bool;
  has_sender : bool; receiver : option Z;
  receiving : list Z; returning : list Z;
}.

Record registry := { conns : gmap (list Z) conn; users : list (option (Side * list Z)) }.

Definition has_port (c : conn) (s : Side) : bool :=
  match s with Sender => c.(has_sender) | Receiver => bool_decide (is_Some c.(receiver)) end.

Definition new_conn b (s : Side) : conn :=
  {| size := b.(b_buffer_size); borrow_limit := b.(b_max_borrowed_samples); overflow := b.(b_enable_safe_overflow);
     has_sender := bool_decide (s = Sender); receiver := if decide (s = Receiver) then Some 0 else None;
     receiving := []; returning := [] |}.

Definition set_side (c : conn) (s : Side) (present : bool) : conn :=
  {| size := c.(size); borrow_limit := c.(borrow_limit); overflow := c.(overflow);
     has_sender := if decide (s = Sender) then present else c.(has_sender);
     receiver := if decide (s = Receiver) then (if present then Some 0 else None) else c.(receiver);
     receiving := c.(receiving); returning := c.(returning) |}.

Definition set_channels (c : conn) (r : option Z) (rx rt : list Z) : conn :=
  {| size := c.(size); borrow_limit := c.(borrow_limit); overflow := c.(overflow);
     has_sender := c.(has_sender); receiver := r; receiving := rx; returning := rt |}.

(** A port joins a connection if its settings agree and nobody has the same side. *)
Definition spec_join b (s : Side) (c : conn) : Result conn ZeroCopyCreationError :=
  if has_port c s then Err AnotherInstanceIsAlreadyConnected
  else if negb (eqb c.(overflow) b.(b_enable_safe_overflow)) then Err IncompatibleOverflowSetting
  else if negb (c.(borrow_limit) =? b.(b_max_borrowed_samples)) then Err IncompatibleMaxBorrowedSampleSetting
  else if negb (c.(size) =? b.(b_buffer_size)) then Err IncompatibleBufferSize
  else Ok (set_side c s true).

Definition spec_send (c : conn) (ptr : Z) : Result (option Z) ZeroCopySendError * conn :=
  if c.(size) <? zlength c.(receiving) + zlength c.(returning) then (Err ClearRetrieveChannelBeforeSend, c)
  else if negb c.(overflow) && (zlength c.(receiving) =? c.(size)) then (Err ReceiveBufferFull, c)
  else let '(old, l) := spec_push_overflow c.(size) c.(receiving) ptr in
       (Ok old, set_channels c c.(receiver) l c.(returning)).

Definition spec_reclaim (c : conn) : option Z * conn :=
  let '(r, l) := spec_pop c.(returning) in (r, set_channels c c.(receiver) c.(receiving) l).

(** [n] is the number of samples the receiver holds. *)
Definition spec_receive (c : conn) (n : Z) : Result (option Z) ZeroCopyReceiveError * conn :=
  if c.(borrow_limit) <=? n then (Err ReceiveWouldExceedMaxBorrowValue, c)
  else match c.(receiving) with
       | [] => (Ok None, c)
       | v :: l => (Ok (Some v), set_channels c (Some (n + 1)) l c.(returning))
       end.

Definition spec_release (c : conn) (n ptr : Z) : Result unit ZeroCopyReleaseError * conn :=
  if zlength c.(returning) <? c.(size) + c.(borrow_limit) + 1
  then (Ok tt, set_channels c (Some (n - 1)) c.(receiving) (c.(returning) ++ [ptr]))
  else (Err RetrieveBufferFull, c).

(** What the owner of the port [i] of side [s] does with its connection. *)
Definition spec_use (a : registry) (i : nat) (s : Side) (k : conn -> option (reply * conn)) : option (reply * registry) :=
  match a.(users) !! i with
  | Some (Some (s', path)) =>
      if decide (s' = s) then
        match a.(conns) !! path with
        | Some c =>
            match k c with
            | Some (r, c) => Some (r, {| conns := <[path := c]> a.(conns); users := a.(users) |})
            | None => None
            end
        | None => None
        end
      else None
  | _ => None
  end.

(** [None]: the call is not possible, because the port does not exist or is of the other
    kind, or a sample is released that is not held. *)
Definition spec_perform (a : registry) (c : call) : option (reply * registry) :=
  match c with
  | Create b s =>
      match path_for b.(b_config) b.(b_name) with
      | Panic => None
      | Ret path =>
          match (match a.(conns) !! path with Some c => spec_join b s c | None => Ok (new_conn b s) end) with
          | Ok c => Some (Created (Ok tt), {| conns := <[path := c]> a.(conns); users := a.(users) ++ [Some (s, path)] |})
          | Err e => Some (Created (Err e), {| conns := a.(conns); users := a.(users) ++ [None] |})
          end
      end
  | TrySend i ptr => spec_use a i Sender (fun c => let '(r, c) := spec_send c ptr in Some (Sent (Some r), c))
  | BlockingSend i ptr => spec_use a i Sender (fun c =>
      if negb c.(overflow) && (zlength c.(receiving) =? c.(size)) then Some (Sent None, c)
      else let '(r, c) := spec_send c ptr in Some (Sent (Some r), c))
  | Reclaim i => spec_use a i Sender (fun c => let '(r, c) := spec_reclaim c in Some (Reclaimed r, c))
  | Receive i => spec_use a i Receiver (fun c =>
      match c.(receiver) with Some n => let '(r, c) := spec_receive c n in Some (Received r, c) | None => None end)
  | Release i ptr => spec_use a i Receiver (fun c =>
      match c.(receiver) with
      | Some n => if 0 <? n then let '(r, c) := spec_release c n ptr in Some (Released r, c) else None
      | None => None
      end)
  | IsConnected i =>
      match a.(users) !! i with
      | Some (Some (_, path)) =>
          match a.(conns) !! path with
          | Some c => Some (Answer (has_port c Sender && has_port c Receiver), a)
          | None => None
          end
      | _ => None
      end
  | Drop i =>
      match a.(users) !! i with
      | Some (Some (s, path)) =>
          match a.(conns) !! path with
          | Some c =>
              let c := set_side c s false in
              Some (Dropped, {| conns := if has_port c Sender || has_port c Receiver then <[path := c]> a.(conns)
                                         else delete path a.(conns);
                                users := <[i := None]> a.(users) |})
          | None => None
          end
      | _ => None
      end
  | DoesExist n cfg =>
      match path_for cfg n with
      | Ret path => Some (Answer (bool_decide (is_Some (a.(conns) !! path))), a)
      | Panic => None
      end
  end.

Fixpoint spec_perform_all (a : registry) (cs : list call) : option (list reply * registry) :=
  match cs with
  | [] => Some ([], a)
  | c :: cs =>
      match spec_perform a c with
      | Some (r, a) => match spec_perform_all a cs with Some (rs, a) => Some (r :: rs, a) | None => None end
      | None => None
      end
  end.

(** ** The relation *)

(** After [n] calls the connection [m] is the abstract one. *)
Record conn_rel (n : Z) (m : ZC.Mgmt) (c : conn) : Prop := {
  rel_wf : ZC.wf m (default 0 c.(receiver));
  rel_settings : ZC.settings m = (c.(size), c.(borrow_limit), c.(overflow));
  rel_receiving : ZC.received m = c.(receiving);
  rel_returning : ZC.returned m = c.(returning);
  rel_state : m.(ZC.state) = (if has_port c Sender then 1 else 0) + (if has_port c Receiver then 2 else 0);
  rel_rx_pushes : ofifo_pushes m.(ZC.receive_channel) <= 1 + n;
  rel_rt_pushes : fifo_pushes m.(ZC.retrieve_channel) <= 1 + n;
}.

Record port_rel w (a : gmap (list Z) conn) (p : Port) (u : Side * list Z) : Prop := {
  port_side : p.(side) = u.1;
  port_name : w.(names) !! u.2 = Some p.(mgmt);
  port_path : exists e, w.(heap) !! p.(mgmt) = Some e /\ path_for p.(config) e.(name) = Ret u.2;
  port_conn : exists c, a !! u.2 = Some c /\ has_port c u.1 = true /\
    (u.1 = Receiver -> c.(receiver) = Some p.(borrow_counter));
}.

Definition conn_at (n : Z) w (path : list Z) (c : conn) : Prop :=
  exists i e, w.(names) !! path = Some i /\ w.(heap) !! i = Some e /\ conn_rel n e.(body) c.

Record rel (n : Z) (s : system) (a : registry) : Prop := {
  rel_absent path : a.(conns) !! path = None -> s.(shared).(names) !! path = None;
  rel_conns path c : a.(conns) !! path = Some c -> conn_at n s.(shared) path c;
  rel_distinct path path' i : s.(shared).(names) !! path = Some i -> s.(shared).(names) !! path' = Some i -> path = path';
  rel_ports : Forall2 (option_Forall2 (port_rel s.(shared) a.(conns))) s.(ports) a.(users);
  rel_users i j u : a.(users) !! i = Some (Some u) -> a.(users) !! j = Some (Some u) -> i = j;
}.

(** ** Lemmas *)

Lemma conn_rel_mono n n' m c : n <= n' -> conn_rel n m c -> conn_rel n' m c.
Proof. intros Hn []. split; (done || lia). Qed.

Lemma settings_fields (m : ZC.Mgmt) c : ZC.settings m = (c.(size), c.(borrow_limit), c.(overflow)) ->
  ZC.buffer_size m = c.(size) /\ m.(ZC.max_borrowed_samples) = c.(borrow_limit) /\ m.(ZC.enable_safe_overflow) = c.(overflow).
Proof. intros E. by injection E. Qed.

Lemma conn_rel_fits n m c : conn_rel n m c -> n < 2 ^ 62 -> ZC.fits m.
Proof. intros [] Hn. unfold ZC.fits. lia. Qed.

Lemma set_body_lookup w i m e : w.(heap) !! i = Some e ->
  (set_body w i m).(heap) !! i = Some {| name := e.(name); body := m |}.
Proof. intros E. cbn. by rewrite list_lookup_alter_eq, E. Qed.

Lemma set_body_other w i j m : i <> j -> (set_body w i m).(heap) !! j = w.(heap) !! j.
Proof. intros Hne. cbn. by rewrite list_lookup_alter_ne. Qed.

(** The names of the entries do not change. *)
Lemma set_body_name w i j m e : w.(heap) !! j = Some e ->
  exists e', (set_body w i m).(heap) !! j = Some e' /\ e'.(name) = e.(name).
Proof.
  intros E. destruct (decide (i = j)) as [->|Hne]; [|rewrite set_body_other by done; by eauto].
  rewrite (set_body_lookup _ _ _ e) by done. by eexists.
Qed.

Lemma rel_port n s a i p u : rel n s a -> s.(ports) !! i = Some (Some p) -> a.(users) !! i = Some (Some u) ->
  port_rel s.(shared) a.(conns) p u.
Proof.
  intros Hr Ep Eu. pose proof (proj1 (Forall2_lookup _ _ _) (rel_ports _ _ _ Hr) i) as Hi. rewrite Ep, Eu in Hi.
  inversion Hi as [x y Hxy|]; subst. by inversion Hxy.
Qed.

Lemma rel_user n s a i u : rel n s a -> a.(users) !! i = Some (Some u) ->
  exists p, s.(ports) !! i = Some (Some p) /\ port_rel s.(shared) a.(conns) p u.
Proof.
  intros Hr Eu. pose proof (proj1 (Forall2_lookup _ _ _) (rel_ports _ _ _ Hr) i) as Hi. rewrite Eu in Hi.
  inversion Hi as [x y Hxy E|]; subst. inversion Hxy; subst. by eexists.
Qed.

(** The connection of a port, and its abstract counterpart. *)
Lemma port_conn_rel n s a p u : rel n s a -> port_rel s.(shared) a.(conns) p u ->
  exists e c, s.(shared).(heap) !! p.(mgmt) = Some e /\ a.(conns) !! u.2 = Some c /\ conn_rel n e.(body) c /\
    path_for p.(config) e.(name) = Ret u.2 /\ has_port c u.1 = true /\ (u.1 = Receiver -> c.(receiver) = Some p.(borrow_counter)).
Proof.
  intros Hr [Hs Hn (e & He & Hp) (c & Hc & Hu)]. exists e, c. destruct (rel_conns _ _ _ Hr _ _ Hc) as (i & e' & Hi & He' & Hm).
  assert (i = mgmt p) as -> by congruence. assert (e' = e) as -> by congruence. tauto.
Qed.

(** A port changes its connection, within the limits of its side. *)
Lemma rel_update n s a i p u c c' m' counter :
  rel n s a -> s.(ports) !! i = Some (Some p) -> a.(users) !! i = Some (Some u) -> a.(conns) !! u.2 = Some c ->
  conn_rel (n + 1) m' c' -> (forall sd, has_port c' sd = has_port c sd) ->
  (u.1 = Sender -> c'.(receiver) = c.(receiver)) -> (u.1 = Receiver -> c'.(receiver) = Some counter) ->
  rel (n + 1) (set_port s i (Some (set_borrow_counter p counter)) (set_body s.(shared) p.(mgmt) m'))
    {| conns := <[u.2 := c']> a.(conns); users := a.(users) |}.
Proof.
  intros Hr Ep Eu Ec Hm Hside Hsend Hrecv. pose proof (rel_port _ _ _ _ _ _ Hr Ep Eu) as Hp.
  destruct (port_path _ _ _ _ Hp) as (e & He & Hpath). pose proof (port_name _ _ _ _ Hp) as Hn.
  split; cbn [conns users shared ports set_port].
  - intros path [Hne Hx]%lookup_insert_None. by apply (rel_absent _ _ _ Hr).
  - intros path x. rewrite lookup_insert_Some. intros [[<- <-]|[Hne Hx]].
    + eexists _, _. split; [exact Hn|]. split; [by apply set_body_lookup|done].
    + destruct (rel_conns _ _ _ Hr _ _ Hx) as (j & e' & Hj & He' & Hme). exists j, e'. split; [done|].
      rewrite set_body_other; [split; [done|by apply (conn_rel_mono n); [lia|]]|].
      intros <-. by apply Hne, (rel_distinct _ _ _ Hr _ _ (mgmt p)).
  - apply (rel_distinct _ _ _ Hr).
  - apply Forall2_lookup. intros j. pose proof (proj1 (Forall2_lookup _ _ _) (rel_ports _ _ _ Hr) j) as Hj.
    destruct (decide (i = j)) as [<-|Hij].
    + rewrite list_lookup_insert_eq by by eapply lookup_lt_Some. rewrite Eu. do 2 constructor. split; [apply Hp|done| |].
      * eexists. split; [by apply set_body_lookup|done].
      * exists c'. rewrite lookup_insert_eq. split; [done|]. destruct (port_conn _ _ _ _ Hp) as (c0 & Hc0 & Hb & _).
        assert (c0 = c) as -> by congruence. by rewrite Hside.
    + rewrite list_lookup_insert_ne by done. inversion Hj as [x y Hxy Ex Ey|]; subst; [|constructor].
      inversion Hxy as [q v [Hs' Hn' (e' & He' & Hpath') (d & Hd & Hb & Hd')]|]; subst; constructor; constructor.
      split; [done|done| |].
      * destruct (set_body_name s.(shared) p.(mgmt) _ m' e' He') as (e2 & He2 & Ename). exists e2. by rewrite Ename.
      * destruct (decide (u.2 = v.2)) as [E2|E2]; [|exists d; by rewrite lookup_insert_ne].
        exists c'. rewrite E2, lookup_insert_eq in *. assert (d = c) as -> by congruence. rewrite Hside. split_and!; [done..|].
        intros Ev. rewrite Hsend; [by apply Hd'|]. destruct (u.1) eqn:Eu1; [done|]. exfalso. apply Hij, (rel_users _ _ _ Hr _ _ u); [done|].
        rewrite <-Ey. do 2 f_equal. destruct u, v. cbn in *. congruence.
  - apply (rel_users _ _ _ Hr).
Qed.

(** The operations of a port leave the state byte alone. *)
Ltac same_state := intros E; repeat (inv_outcome; case_match; simplify_eq; try done); inv_outcome; simplify_eq; done.

Lemma try_send_state (m m' : ZC.Mgmt) ptr r : ZC.try_send m ptr = Ret (r, m') -> m'.(ZC.state) = m.(ZC.state).
Proof. unfold ZC.try_send. same_state. Qed.

Lemma reclaim_state (m m' : ZC.Mgmt) r : ZC.reclaim m = Ret (r, m') -> m'.(ZC.state) = m.(ZC.state).
Proof. unfold ZC.reclaim. same_state. Qed.

Lemma receive_state (m m' : ZC.Mgmt) n n' r : ZC.receive m n = Ret (r, m', n') -> m'.(ZC.state) = m.(ZC.state).
Proof. unfold ZC.receive. same_state. Qed.

Lemma release_state (m m' : ZC.Mgmt) n n' ptr r : ZC.release m n ptr = Ret (r, m', n') -> m'.(ZC.state) = m.(ZC.state).
Proof. unfold ZC.release. same_state. Qed.

(** A full receive channel is reported only when there is room to return its samples. *)
Lemma try_send_full (m m' : ZC.Mgmt) k ptr : ZC.wf m k -> ZC.fits m -> ZC.try_send m ptr = Ret (Err ReceiveBufferFull, m') ->
  zlength (ZC.received m) + zlength (ZC.returned m) <= ZC.buffer_size m.
Proof.
  intros Hwf Hf. pose proof (ZC.wf_bounds m k Hwf) as Hb. pose proof Hwf as [Hq Hr Es Ew Hbo]. destruct Hf as [Hf1 Hf2].
  pose proof (zlength_nonneg (ZC.returned m)). pose proof (zlength_nonneg (ZC.received m)).
  unfold ZC.try_send. rewrite fifo_len_ok, ofifo_len_ok by done. fold (ZC.returned m) (ZC.received m). checked.
  destruct (_ <=? _) eqn:Espace; bool_to_prop; [by intros [=]|]. intros _. lia.
Qed.

Lemma spec_send_ports c ptr : (spec_send c ptr).2.(receiver) = c.(receiver) /\ (spec_send c ptr).2.(has_sender) = c.(has_sender).
Proof. unfold spec_send. repeat case_match; done. Qed.

Ltac conn_rel_split :=
  split; cbn [snd set_channels receiver size borrow_limit overflow receiving returning]; try done; try congruence; try lia.

Lemma sim_try_send n m c ptr : conn_rel n m c -> n < 2 ^ 62 ->
  exists m', ZC.try_send m ptr = Ret ((spec_send c ptr).1, m') /\ conn_rel (n + 1) m' (spec_send c ptr).2.
Proof.
  intros Hc Hn. pose proof (conn_rel_fits _ _ _ Hc Hn) as Hf. pose proof (conn_rel_mono n (n + 1) m c ltac:(lia) Hc) as Hc1.
  destruct Hc as [Hwf Eset Erx Ert Est Hp1 Hp2]. destruct (settings_fields _ _ Eset) as (Es & Eb & Eo). pose proof (ZC.wf_bounds _ _ Hwf) as Hbounds.
  destruct (ZC.try_send_ok m _ ptr Hwf Hf) as (r & m' & E & Hwf' & Ese & Hpush & Ertc & Hr).
  pose proof (try_send_state _ _ _ _ E) as Est'. pose proof (ZC.wf_size _ _ Hwf) as Esize.
  exists m'. unfold spec_send. rewrite Es, Eb in Esize. rewrite ?Es, ?Erx, ?Ert, ?Eb, ?Eo, ?Esize in Hr, Hbounds. destruct r as [old|[]].
  - destruct Hr as (Espec & Ert' & Ebs & Hov & Hroom). rewrite (proj2 (Z.ltb_ge _ _)) by lia.
    destruct (spec_push_overflow_length _ _ _ _ _ (proj2 (proj2 Hbounds)) (proj1 (proj1 Hbounds)) Espec) as (_ & _ & Hold & _).
    replace (negb (overflow c) && (zlength (receiving c) =? size c)) with false.
    2: { destruct (overflow c); [done|]. symmetry. apply Z.eqb_neq. specialize (Hov Eo). apply Hold in Hov. cbn. lia. }
    rewrite <-Espec. split; [done|]. split; cbn [snd set_channels receiver size borrow_limit overflow receiving returning]; try done; try lia.
    + rewrite Ese. unfold ZC.settings. by rewrite Es, Eb, Eo.
    + by rewrite Est', Est.
    + rewrite Ertc. lia.
  - pose proof (try_send_full _ _ _ _ Hwf Hf E) as Hroom. rewrite Es, Erx, Ert in Hroom. destruct Hr as (-> & Eov & El & _).
    rewrite (proj2 (Z.ltb_ge _ _)) by lia. rewrite <-Eo, Eov, El, Z.eqb_refl. cbn. done.
  - destruct Hr as (-> & Hl). rewrite (proj2 (Z.ltb_lt _ _)) by lia. done.
Qed.

Lemma sim_reclaim n m c : conn_rel n m c ->
  exists m', ZC.reclaim m = Ret ((spec_reclaim c).1, m') /\ conn_rel (n + 1) m' (spec_reclaim c).2.
Proof.
  intros [Hwf Eset Erx Ert Est Hp1 Hp2]. destruct (ZC.reclaim_ok m _ Hwf) as (r & m' & E & Hwf' & Ese & Erxc & Erx' & _ & Espec & Hpush).
  pose proof (reclaim_state _ _ _ E) as Est'. exists m'. unfold spec_reclaim. rewrite Ert in Espec. rewrite <-Espec. split; [done|].
  conn_rel_split; [rewrite Est'; exact Est|rewrite Erxc; lia].
Qed.

Lemma sim_receive n m c k : conn_rel n m c -> c.(receiver) = Some k ->
  exists m' k', ZC.receive m k = Ret ((spec_receive c k).1, m', k') /\ conn_rel (n + 1) m' (spec_receive c k).2 /\
    (spec_receive c k).2.(receiver) = Some k'.
Proof.
  intros Hc Ek. pose proof (conn_rel_mono n (n + 1) m c ltac:(lia) Hc) as Hc1. destruct Hc as [Hwf Eset Erx Ert Est Hp1 Hp2].
  rewrite Ek in Hwf. cbn in Hwf. destruct (ZC.receive_ok m k Hwf) as (r & m' & k' & E & Hwf' & Ese & Ert' & Ebs & Epush & Ertc & Hr).
  pose proof (receive_state _ _ _ _ _ E) as Est'. exists m', k'. destruct (settings_fields _ _ Eset) as (Es & Eb & Eo). unfold spec_receive.
  pose proof (ZC.wf_borrow _ _ Hwf) as Hk. pose proof (ZC.wf_borrow _ _ Hwf') as Hk'.
  assert (Emax : ZC.max_borrowed_samples m' = ZC.max_borrowed_samples m) by (by injection Ese).
  destruct r as [[v|]|[]].
  - destruct Hr as [Erx' ->]. rewrite Erx in Erx'. rewrite (proj2 (Z.leb_gt _ _)) by lia. rewrite Erx'. split; [done|]. split; [|done]. cbn [snd].
    assert (has_port (set_channels c (Some (k + 1)) (ZC.received m') (returning c)) Receiver = has_port c Receiver) as Hpr by (cbn; by rewrite Ek).
    conn_rel_split; [by rewrite Hpr, Est', Est|rewrite Ertc; lia].
  - destruct Hr as (Erx1 & Erx2 & ->). destruct (Z.leb_spec (borrow_limit c) k) as [Hle|Hlt].
    { exfalso. unfold ZC.receive in E. rewrite (proj2 (Z.leb_le _ _)) in E by lia. discriminate E. }
    rewrite <-Erx, Erx1. split; [done|]. split; [|done]. cbn [snd].
    split; rewrite ?Ek; cbn [default]; try done; try congruence; rewrite ?Ertc; lia.
  - destruct Hr as (-> & -> & ->). rewrite (proj2 (Z.leb_le _ _)) by lia. done.
Qed.

Lemma sim_release n m c k ptr : conn_rel n m c -> n < 2 ^ 62 -> c.(receiver) = Some k -> 0 < k ->
  exists m' k', ZC.release m k ptr = Ret ((spec_release c k ptr).1, m', k') /\ conn_rel (n + 1) m' (spec_release c k ptr).2 /\
    (spec_release c k ptr).2.(receiver) = Some k'.
Proof.
  intros Hc Hn Ek Hk. pose proof (conn_rel_fits _ _ _ Hc Hn) as Hf. destruct Hc as [Hwf Eset Erx Ert Est Hp1 Hp2].
  rewrite Ek in Hwf. cbn in Hwf. destruct (ZC.zc_release_ok m k ptr Hwf Hf Hk) as (r & m' & k' & E & Hwf' & Ese & Erx' & Ebs & Erxc & Hpush & Hr).
  pose proof (release_state _ _ _ _ _ _ E) as Est'. exists m', k'. destruct (settings_fields _ _ Eset) as (Es & Eb & Eo). unfold spec_release.
  pose proof (ZC.wf_size _ _ Hwf) as Esize. rewrite Es, Eb in Esize. pose proof (ZC.wf_bounds _ _ Hwf) as Hbounds.
  pose proof (ZC.wf_bounds _ _ Hwf') as Hbounds'. pose proof (ZC.wf_size _ _ Hwf') as Esize'. assert (Emax' : ZC.max_borrowed_samples m' = ZC.max_borrowed_samples m) by (by injection Ese).
  destruct r as [[]|[]].
  - destruct Hr as [Ert' ->]. rewrite Ert', zlength_app in Hbounds'. change (zlength [ptr]) with 1 in Hbounds'. rewrite Ert in *.
    rewrite (proj2 (Z.ltb_lt _ _)) by lia. split; [done|]. split; [|done]. cbn [snd].
    assert (has_port (set_channels c (Some (k - 1)) (receiving c) (returning c ++ [ptr])) Receiver = has_port c Receiver) as Hpr by (cbn; by rewrite Ek).
    conn_rel_split; [by rewrite Hpr, Est', Est|rewrite Erxc; lia].
  - destruct Hr as (-> & Ert' & El). rewrite Ert in *. rewrite (proj2 (Z.ltb_ge _ _)) by lia. split; [done|]. split; [|done]. cbn [snd].
    split; rewrite ?Ek; cbn [default]; try done; try congruence; rewrite ?Erxc; lia.
Qed.

(** *** Joining and leaving a connection *)

Lemma has_port_set_side c s s' v : has_port (set_side c s v) s' = if decide (s = s') then v else has_port c s'.
Proof. destruct s, s', v; done. Qed.

Lemma receiver_set_side c s v : s = Sender -> (set_side c s v).(receiver) = c.(receiver).
Proof. by intros ->. Qed.

Lemma conn_rel_set_state n m c s v st : conn_rel n m c -> has_port c s = negb v ->
  st = (if has_port (set_side c s v) Sender then 1 else 0) + (if has_port (set_side c s v) Receiver then 2 else 0) ->
  conn_rel n (ZC.set_state m st) (set_side c s v).
Proof.
  intros [Hwf Eset Erx Ert Est Hp1 Hp2] Hs ->. split; try done. pose proof (ZC.wf_borrow _ _ Hwf) as Hb.
  destruct Hwf as [W1 W2 W3 W4 W5]. split; try done. destruct s; [done|]. assert (0 <= ZC.max_borrowed_samples m) by lia. destruct v; split; done.
Qed.

Lemma join_state (n : Z) m c s : conn_rel n m c -> has_port c s = false ->
  Z.land m.(ZC.state) (bit s) = 0 /\
  Z.lor m.(ZC.state) (bit s) =
    (if has_port (set_side c s true) Sender then 1 else 0) + (if has_port (set_side c s true) Receiver then 2 else 0).
Proof.
  intros Hc Hs. rewrite (rel_state _ _ _ Hc), !has_port_set_side.
  destruct s; rewrite Hs; destruct (has_port c Sender), (has_port c Receiver); done.
Qed.

Lemma taken_state (n : Z) m c s : conn_rel n m c -> has_port c s = true -> Z.land m.(ZC.state) (bit s) <> 0.
Proof. intros Hc Hs. rewrite (rel_state _ _ _ Hc). destruct s; rewrite Hs; destruct (has_port c Sender), (has_port c Receiver); done. Qed.

Lemma leave_state (n : Z) m c s : conn_rel n m c -> has_port c s = true ->
  Z.land m.(ZC.state) (255 - bit s) =
    (if has_port (set_side c s false) Sender then 1 else 0) + (if has_port (set_side c s false) Receiver then 2 else 0) /\
  (m.(ZC.state) =? bit s) = negb (has_port (set_side c s false) Sender || has_port (set_side c s false) Receiver).
Proof.
  intros Hc Hs. rewrite (rel_state _ _ _ Hc), !has_port_set_side.
  destruct s; rewrite Hs; destruct (has_port c Sender), (has_port c Receiver); done.
Qed.

(** Another port of the connection [c] whose side [s] comes or goes. *)
Lemma port_rel_other w w' a p u c s v path : port_rel w a p u ->
  (forall i e, w.(heap) !! i = Some e -> exists e', w'.(heap) !! i = Some e' /\ e'.(name) = e.(name)) ->
  (forall q, w.(names) !! q = w'.(names) !! q) ->
  a !! path = Some c -> u <> (s, path) -> port_rel w' (<[path := set_side c s v]> a) p u.
Proof.
  intros [Hs Hn (e & He & Hpath) (d & Hd & Hb & Hr)] Hheap Hnames Hc Hu. split; [done|by rewrite <-Hnames| |].
  - destruct (Hheap _ _ He) as (e' & He' & En). exists e'. by rewrite En.
  - destruct (decide (u.2 = path)) as [<-|Hne]; [|exists d; by rewrite lookup_insert_ne].
    exists (set_side c s v). rewrite lookup_insert_eq. assert (d = c) as -> by congruence. split; [done|].
    assert (Hus : s <> u.1) by (intros ->; apply Hu; by destruct u). rewrite has_port_set_side, decide_False by done. split; [done|].
    intros Er. rewrite receiver_set_side; [by apply Hr|]. destruct s; [done|congruence].
Qed.

(** The ports have connections: those that are new or gone do not matter to the others. *)
Lemma Forall2_snoc_ports w w' a a' ps us p u :
  Forall2 (option_Forall2 (port_rel w a)) ps us -> port_rel w' a' p u ->
  (forall p' u' i, us !! i = Some (Some u') -> port_rel w a p' u' -> port_rel w' a' p' u') ->
  Forall2 (option_Forall2 (port_rel w' a')) (ps ++ [Some p]) (us ++ [Some u]).
Proof.
  intros Hps Hp Himp. apply Forall2_app; [|constructor; [by constructor|constructor]]. apply Forall2_lookup. intros i.
  pose proof (proj1 (Forall2_lookup _ _ _) Hps i) as Hi. inversion Hi as [x y Hxy Ex Ey|]; subst; [|constructor].
  inversion Hxy; subst; constructor; constructor. by eapply Himp.
Qed.

Lemma users_snoc (us : list (option (Side * list Z))) u :
  (forall i j v, us !! i = Some (Some v) -> us !! j = Some (Some v) -> i = j) -> (forall i, us !! i <> Some (Some u)) ->
  forall i j v, (us ++ [Some u]) !! i = Some (Some v) -> (us ++ [Some u]) !! j = Some (Some v) -> i = j.
Proof.
  intros Hus Hu i j v. rewrite !lookup_snoc_Some. intros [[_ Hi]|[-> [= <-]]] [[_ Hj]|[-> E]]; [by apply (Hus i j v)| |by apply Hu in Hj|done].
  injection E as <-. by apply Hu in Hi.
Qed.

(** A port of which there is none yet joins an existing connection. *)
Lemma rel_join n s a path c i e sd cfg :
  rel n s a -> a.(conns) !! path = Some c -> s.(shared).(names) !! path = Some i -> s.(shared).(heap) !! i = Some e ->
  conn_rel n e.(body) c -> has_port c sd = false -> path_for cfg e.(name) = Ret path ->
  rel (n + 1)
    {| shared := set_body s.(shared) i (ZC.set_state e.(body) (Z.lor e.(body).(ZC.state) (bit sd)));
       ports := s.(ports) ++ [Some {| side := sd; mgmt := i; config := cfg; borrow_counter := 0 |}] |}
    {| conns := <[path := set_side c sd true]> a.(conns); users := a.(users) ++ [Some (sd, path)] |}.
Proof.
  intros Hr Hc Hi He Hm Hs Hpath.
  assert (Hnew : forall j, a.(users) !! j <> Some (Some (sd, path))).
  { intros j Hj. destruct (rel_user _ _ _ _ _ Hr Hj) as (p & _ & Hp). destruct (port_conn _ _ _ _ Hp) as (d & Hd & Hb & _). cbn in *. congruence. }
  split; cbn [conns users shared ports].
  - intros q [Hne Hq]%lookup_insert_None. by apply (rel_absent _ _ _ Hr).
  - intros q x. rewrite lookup_insert_Some. intros [[<- <-]|[Hne Hx]].
    + eexists _, _. split; [exact Hi|]. split; [by apply set_body_lookup|]. cbn [body]. apply (conn_rel_mono n); [lia|].
      apply conn_rel_set_state; [done|done|]. by apply (join_state n).
    + destruct (rel_conns _ _ _ Hr _ _ Hx) as (j & e' & Hj & He' & Hme). exists j, e'. split; [done|].
      rewrite set_body_other; [split; [done|by apply (conn_rel_mono n); [lia|]]|].
      intros <-. by apply Hne, (rel_distinct _ _ _ Hr _ _ i).
  - apply (rel_distinct _ _ _ Hr).
  - apply (Forall2_snoc_ports s.(shared) _ a.(conns)); [apply (rel_ports _ _ _ Hr)| |].
    + split; [done|done| |].
      * eexists. split; [by apply set_body_lookup|done].
      * eexists. rewrite lookup_insert_eq. split; [done|]. cbn [fst]. rewrite has_port_set_side, decide_True by done. split; [done|]. by intros ->.
    + intros p' u' j Hj Hp'. apply (port_rel_other s.(shared)); [done|intros; by apply set_body_name|done|done|].
      intros ->. by apply (Hnew j).
  - by apply users_snoc; [apply (rel_users _ _ _ Hr)|].
Qed.

Definition sizes_ok b : Prop := 0 <= b.(b_buffer_size) < 2 ^ 60 /\ 0 <= b.(b_max_borrowed_samples) < 2 ^ 60.

Lemma new_entry_ok b sd : sizes_ok b ->
  exists e, new_entry b sd = Ret e /\ e.(name) = b.(b_name) /\ conn_rel 0 e.(body) (new_conn b sd).
Proof.
  intros [Hs Hm]. unfold new_entry, retrieve_channel_size. destruct (O.oq_new_wf receive_ptr b.(b_buffer_size)) as (q & -> & Hq & Eq & Ew & Ec); [lia|].
  checked. eexists. split; [done|]. split; [done|]. set (r := b.(b_buffer_size) + b.(b_max_borrowed_samples) + 1).
  pose proof (I.iq_new_wf retrieve_ptr r ltac:(lia)) as Hr.
  split; cbn [body new_conn size borrow_limit overflow receiver receiving returning].
  - split; cbn; unfold ZC.buffer_size; cbn; try done; try lia. destruct (decide (sd = Receiver)); cbn; lia.
  - unfold ZC.settings, ZC.buffer_size. cbn. by rewrite Eq.
  - exact Ec.
  - apply I.contents_new.
  - by destruct sd.
  - cbn. lia.
  - cbn. lia.
Qed.

(** A port creates its connection. *)
Lemma rel_new n s a path e c sd cfg :
  0 <= n -> rel n s a -> a.(conns) !! path = None -> conn_rel 0 e.(body) c -> path_for cfg e.(name) = Ret path ->
  has_port c sd = true -> (sd = Receiver -> c.(receiver) = Some 0) ->
  rel (n + 1)
    {| shared := {| names := <[path := length s.(shared).(heap)]> s.(shared).(names); heap := s.(shared).(heap) ++ [e] |};
       ports := s.(ports) ++ [Some {| side := sd; mgmt := length s.(shared).(heap); config := cfg; borrow_counter := 0 |}] |}
    {| conns := <[path := c]> a.(conns); users := a.(users) ++ [Some (sd, path)] |}.
Proof.
  intros Hn Hr Hc Hm Hpath Hs Hb. pose proof (rel_absent _ _ _ Hr _ Hc) as Habs.
  assert (Hnew : forall j, a.(users) !! j <> Some (Some (sd, path))).
  { intros j Hj. destruct (rel_user _ _ _ _ _ Hr Hj) as (p & _ & Hp). destruct (port_conn _ _ _ _ Hp) as (d & Hd & _). cbn in *. congruence. }
  assert (Hlt : forall q i, s.(shared).(names) !! q = Some i -> (i < length s.(shared).(heap))%nat).
  { intros q i Hi. destruct (a.(conns) !! q) as [d|] eqn:Eq; [|by rewrite (rel_absent _ _ _ Hr _ Eq) in Hi].
    destruct (rel_conns _ _ _ Hr _ _ Eq) as (j & e' & Hj & He' & _). assert (j = i) as -> by congruence. by eapply lookup_lt_Some. }
  split; cbn [conns users shared ports names heap].
  - intros q [Hne Hq]%lookup_insert_None. rewrite lookup_insert_ne by done. by apply (rel_absent _ _ _ Hr).
  - intros q x. rewrite lookup_insert_Some. intros [[<- <-]|[Hne Hx]].
    + exists (length s.(shared).(heap)), e. cbn. rewrite lookup_insert_eq, lookup_app_r, Nat.sub_diag by lia. split; [done|]. split; [done|]. by apply (conn_rel_mono 0); [lia|].
    + destruct (rel_conns _ _ _ Hr _ _ Hx) as (j & e' & Hj & He' & Hme). exists j, e'. cbn. rewrite lookup_insert_ne by done.
      split; [done|]. split; [by apply lookup_app_l_Some|by apply (conn_rel_mono n); [lia|]].
  - intros q q' i. rewrite !lookup_insert_Some. intros [[<- <-]|[Hne Hx]] [[<- E]|[Hne' Hx']]; [done| | |by apply (rel_distinct _ _ _ Hr _ _ i)].
    + apply Hlt in Hx'. lia.
    + subst i. apply Hlt in Hx. lia.
  - apply (Forall2_snoc_ports s.(shared) _ a.(conns)); [apply (rel_ports _ _ _ Hr)| |].
    + split; cbn; [done|by rewrite lookup_insert_eq| |].
      * exists e. by rewrite lookup_app_r, Nat.sub_diag by lia.
      * exists c. by rewrite lookup_insert_eq.
    + intros p' u' j Hj [Hs' Hn' (e' & He' & Hpath') (d & Hd & Hd')].
      assert (u'.2 <> path) by congruence. split; cbn; [done|by rewrite lookup_insert_ne| |exists d; by rewrite lookup_insert_ne].
      exists e'. split; [by apply lookup_app_l_Some|done].
  - by apply users_snoc; [apply (rel_users _ _ _ Hr)|].
Qed.

(** A port leaves; the last one takes the connection with it. *)
Lemma rel_leave n s a i p u c e :
  rel n s a -> s.(ports) !! i = Some (Some p) -> a.(users) !! i = Some (Some u) -> a.(conns) !! u.2 = Some c ->
  s.(shared).(heap) !! p.(mgmt) = Some e -> conn_rel n e.(body) c -> has_port c u.1 = true ->
  let c' := set_side c u.1 false in
  let w := set_body s.(shared) p.(mgmt) (ZC.set_state e.(body) (Z.land e.(body).(ZC.state) (255 - bit u.1))) in
  let stays := has_port c' Sender || has_port c' Receiver in
  rel (n + 1)
    (set_port s i None (if stays then w else {| names := delete u.2 w.(names); heap := w.(heap) |}))
    {| conns := if stays then <[u.2 := c']> a.(conns) else delete u.2 a.(conns); users := <[i := None]> a.(users) |}.
Proof.
  intros Hr Ep Eu Hc He Hm Hs c' w stays. pose proof (rel_port _ _ _ _ _ _ Hr Ep Eu) as Hp. pose proof (port_name _ _ _ _ Hp) as Hn.
  assert (Hother : forall q x, q <> u.2 -> a.(conns) !! q = Some x -> conn_at (n + 1) w q x).
  { intros q x Hne Hx. destruct (rel_conns _ _ _ Hr _ _ Hx) as (j & e' & Hj & He' & Hme). exists j, e'. split; [done|].
    unfold w. rewrite set_body_other; [split; [done|by apply (conn_rel_mono n); [lia|]]|].
    intros <-. by apply Hne, (rel_distinct _ _ _ Hr _ _ (mgmt p)). }
  assert (Husers : forall j k v, <[i := None]> a.(users) !! j = Some (Some v) -> <[i := None]> a.(users) !! k = Some (Some v) -> j = k).
  { intros j k v. rewrite !list_lookup_insert_Some. intros [(_ & [=] & _)|[_ Hj]] [(_ & [=] & _)|[_ Hk]]. by apply (rel_users _ _ _ Hr _ _ v). }
  assert (Hports : forall w' a', (forall p' u', u' <> u -> port_rel s.(shared) a.(conns) p' u' -> port_rel w' a' p' u') ->
    Forall2 (option_Forall2 (port_rel w' a')) (<[i := None]> s.(ports)) (<[i := None]> a.(users))).
  { intros w' a' Himp. apply Forall2_lookup. intros j. pose proof (proj1 (Forall2_lookup _ _ _) (rel_ports _ _ _ Hr) j) as Hj.
    destruct (decide (i = j)) as [<-|Hij].
    - rewrite !list_lookup_insert_eq by by eapply lookup_lt_Some. by repeat constructor.
    - rewrite !list_lookup_insert_ne by done. inversion Hj as [x y Hxy Ex Ey|]; subst; [|constructor].
      inversion Hxy as [q v Hqv|]; subst; constructor; constructor. apply Himp; [|done]. intros ->. by apply Hij, (rel_users _ _ _ Hr _ _ u). }
  destruct (leave_state n _ _ _ Hm Hs) as [Est _]. destruct stays eqn:Estays.
  - split; cbn [conns users shared ports set_port]; [| |apply (rel_distinct _ _ _ Hr)| |exact Husers].
    + intros q [Hne Hq]%lookup_insert_None. by apply (rel_absent _ _ _ Hr).
    + intros q x. rewrite lookup_insert_Some. intros [[<- <-]|[Hne Hx]]; [|by apply Hother].
      eexists _, _. split; [exact Hn|]. split; [by apply set_body_lookup|]. cbn [body]. apply (conn_rel_mono n); [lia|]. by apply conn_rel_set_state.
    + apply Hports. intros p' u' Hne Hp'. apply (port_rel_other s.(shared)); [done|intros; by apply set_body_name|done|done|]. by destruct u.
  - split; cbn [conns users shared ports set_port names heap]; [| | | |exact Husers].
    + intros q. rewrite !lookup_delete_None. intros [->|Hq]; [by left|right]. by apply (rel_absent _ _ _ Hr).
    + intros q x [Hne Hx]%lookup_delete_Some. destruct (Hother q x) as (j & e' & Hj & He'); [done..|]. exists j, e'. cbn. by rewrite lookup_delete_ne.
    + intros q q' j [_ Hq]%lookup_delete_Some [_ Hq']%lookup_delete_Some. by apply (rel_distinct _ _ _ Hr _ _ j).
    + apply Hports. intros p' u' Hne [Hs' Hn' (e' & He' & Hpath') (d & Hd & Hb & Hd')].
      assert (Hne2 : u.2 <> u'.2).
      { intros E. assert (d = c) as -> by congruence. assert (Hside : u.1 <> u'.1) by (intros E1; apply Hne; destruct u, u'; cbn in *; congruence).
        assert (Ht : has_port c' u'.1 = true) by (unfold c'; by rewrite has_port_set_side, decide_False).
        unfold stays in Estays. apply orb_false_iff in Estays as [? ?]. destruct (u'.1); congruence. }
      split; cbn; [done|by rewrite lookup_delete_ne| |exists d; by rewrite lookup_delete_ne].
      destruct (set_body_name s.(shared) p.(mgmt) _ (ZC.set_state e.(body) (Z.land e.(body).(ZC.state) (255 - bit u.1))) e' He') as (e2 & He2 & En).
      exists e2. by rewrite En.
Qed.

(** *** The simulation *)

Lemma use_inv n s a i sd k r a' : rel n s a -> spec_use a i sd k = Some (r, a') ->
  exists p path e c c', s.(ports) !! i = Some (Some p) /\ a.(users) !! i = Some (Some (sd, path)) /\
    s.(shared).(heap) !! p.(mgmt) = Some e /\ a.(conns) !! path = Some c /\ conn_rel n e.(body) c /\
    (sd = Receiver -> c.(receiver) = Some p.(borrow_counter)) /\
    k c = Some (r, c') /\ a' = {| conns := <[path := c']> a.(conns); users := a.(users) |}.
Proof.
  intros Hr. unfold spec_use. destruct (a.(users) !! i) as [[[s' path]|]|] eqn:Eu; [|done..].
  destruct (decide (s' = sd)) as [->|]; [|done]. destruct (rel_user _ _ _ _ _ Hr Eu) as (p & Ep & Hp).
  destruct (port_conn_rel _ _ _ _ _ Hr Hp) as (e & c & He & Hc & Hm & _ & _ & Hb). cbn [fst snd] in *. rewrite Hc.
  destruct (k c) as [[r' c']|] eqn:Ek; [|done]. intros [= <- <-]. by exists p, path, e, c, c'.
Qed.

Lemma set_borrow_counter_same p : set_borrow_counter p p.(borrow_counter) = p.
Proof. by destruct p. Qed.

(** The sender changes its connection. *)
Lemma sender_update n s a i p path c c' m' : rel n s a -> s.(ports) !! i = Some (Some p) -> a.(users) !! i = Some (Some (Sender, path)) ->
  a.(conns) !! path = Some c -> conn_rel (n + 1) m' c' -> c'.(has_sender) = c.(has_sender) -> c'.(receiver) = c.(receiver) ->
  rel (n + 1) (set_port s i (Some p) (set_body s.(shared) p.(mgmt) m')) {| conns := <[path := c']> a.(conns); users := a.(users) |}.
Proof.
  intros Hr Ep Eu Hc Hm Hs Hrecv. rewrite <-(set_borrow_counter_same p) at 1. apply (rel_update n s a i p (Sender, path) c); try done.
  intros []; cbn; [congruence|by rewrite Hrecv].
Qed.

(** The receiver changes its connection and its borrow counter. *)
Lemma receiver_update n s a i p path c c' m' k k' : rel n s a -> s.(ports) !! i = Some (Some p) -> a.(users) !! i = Some (Some (Receiver, path)) ->
  a.(conns) !! path = Some c -> conn_rel (n + 1) m' c' -> c'.(has_sender) = c.(has_sender) ->
  c.(receiver) = Some k -> c'.(receiver) = Some k' ->
  rel (n + 1) (set_port s i (Some (set_borrow_counter p k')) (set_body s.(shared) p.(mgmt) m')) {| conns := <[path := c']> a.(conns); users := a.(users) |}.
Proof.
  intros Hr Ep Eu Hc Hm Hs Hk Hk'. apply (rel_update n s a i p (Receiver, path) c); try done. intros []; cbn; [congruence|]. by rewrite Hk, Hk'.
Qed.

Lemma spec_reclaim_ports c : (spec_reclaim c).2.(receiver) = c.(receiver) /\ (spec_reclaim c).2.(has_sender) = c.(has_sender).
Proof. unfold spec_reclaim. by destruct (spec_pop _). Qed.

Lemma spec_receive_sender c k : (spec_receive c k).2.(has_sender) = c.(has_sender).
Proof. unfold spec_receive. by repeat case_match. Qed.

Lemma spec_release_sender c k ptr : (spec_release c k ptr).2.(has_sender) = c.(has_sender).
Proof. unfold spec_release. by case_match. Qed.

(** The simulation of one call: it returns what the registry says. *)
Definition simulated n s c (r : reply) (a' : registry) : Prop :=
  exists s', perform s c = Ret (r, s') /\ rel (n + 1) s' a'.

Lemma sim_use_send n s a i ptr r a' : n < 2 ^ 62 -> rel n s a ->
  spec_perform a (TrySend i ptr) = Some (r, a') -> simulated n s (TrySend i ptr) r a'.
Proof.
  intros Hn Hr E. apply (use_inv n s) in E as (p & path & e & c & c' & Ep & Eu & He & Hc & Hm & _ & Ek & ->); [|done].
  destruct (sim_try_send n _ _ ptr Hm Hn) as (m' & E1 & Hm'). destruct (spec_send_ports c ptr) as [Hp1 Hp2].
  destruct (spec_send c ptr) as [r0 c0]. injection Ek as <- <-. unfold simulated. cbn [perform]. unfold with_port. rewrite Ep.
  unfold try_send, with_mgmt. rewrite He, E1. cbn [outcome_bind]. eexists. split; [done|]. by apply (sender_update n s a i p path c).
Qed.

Lemma sim_use_blocking_send n s a i ptr r a' : n < 2 ^ 62 -> rel n s a ->
  spec_perform a (BlockingSend i ptr) = Some (r, a') -> simulated n s (BlockingSend i ptr) r a'.
Proof.
  intros Hn Hr E. apply (use_inv n s) in E as (p & path & e & c & c' & Ep & Eu & He & Hc & Hm & _ & Ek & ->); [|done].
  unfold simulated. cbn [perform]. unfold with_port. rewrite Ep. unfold blocking_send, with_mgmt. rewrite He. unfold ZC.blocking_send.
  pose proof (conn_rel_fits _ _ _ Hm Hn) as Hf. destruct (ZC.refuses_ok e.(body) _ (rel_wf _ _ _ Hm) Hf) as (full & -> & Hfull & Hroom).
  destruct (settings_fields _ _ (rel_settings _ _ _ Hm)) as (Es & _ & Eo). rewrite Es, Eo, (rel_receiving _ _ _ Hm) in Hfull, Hroom. cbn [outcome_bind].
  destruct full.
  - destruct Hfull as [Eov El]; [done|]. rewrite Eov, El, Z.eqb_refl in Ek. injection Ek as <- <-. cbn [outcome_bind]. eexists. split; [done|].
    apply (sender_update n s a i p path c); try done. by apply (conn_rel_mono n); [lia|].
  - replace (negb (overflow c) && (zlength (receiving c) =? size c)) with false in Ek.
    2: { destruct (overflow c); [done|]. symmetry. apply Z.eqb_neq. specialize (Hroom eq_refl eq_refl). lia. }
    destruct (sim_try_send n _ _ ptr Hm Hn) as (m' & E1 & Hm'). destruct (spec_send_ports c ptr) as [Hp1 Hp2].
    destruct (spec_send c ptr) as [r0 c0]. injection Ek as <- <-. rewrite E1. cbn [outcome_bind]. eexists. split; [done|]. by apply (sender_update n s a i p path c).
Qed.

Lemma sim_use_reclaim n s a i r a' : rel n s a -> spec_perform a (Reclaim i) = Some (r, a') -> simulated n s (Reclaim i) r a'.
Proof.
  intros Hr E. apply (use_inv n s) in E as (p & path & e & c & c' & Ep & Eu & He & Hc & Hm & _ & Ek & ->); [|done].
  destruct (sim_reclaim n _ _ Hm) as (m' & E1 & Hm'). destruct (spec_reclaim_ports c) as [Hp1 Hp2].
  destruct (spec_reclaim c) as [r0 c0]. injection Ek as <- <-. unfold simulated. cbn [perform]. unfold with_port. rewrite Ep.
  unfold reclaim, with_mgmt. rewrite He, E1. cbn [outcome_bind]. eexists. split; [done|]. by apply (sender_update n s a i p path c).
Qed.

Lemma sim_use_receive n s a i r a' : rel n s a -> spec_perform a (Receive i) = Some (r, a') -> simulated n s (Receive i) r a'.
Proof.
  intros Hr E. apply (use_inv n s) in E as (p & path & e & c & c' & Ep & Eu & He & Hc & Hm & Hb & Ek & ->); [|done].
  specialize (Hb eq_refl). rewrite Hb in Ek. destruct (sim_receive n _ _ _ Hm Hb) as (m' & k' & E1 & Hm' & Hk').
  pose proof (spec_receive_sender c p.(borrow_counter)) as Hs. destruct (spec_receive c _) as [r0 c0]. injection Ek as <- <-.
  unfold simulated. cbn [perform]. unfold with_port. rewrite Ep. unfold receive, with_mgmt. rewrite He, E1. cbn [outcome_bind].
  eexists. split; [done|]. by apply (receiver_update n s a i p path c _ _ p.(borrow_counter)).
Qed.

Lemma sim_use_release n s a i ptr r a' : n < 2 ^ 62 -> rel n s a ->
  spec_perform a (Release i ptr) = Some (r, a') -> simulated n s (Release i ptr) r a'.
Proof.
  intros Hn Hr E. apply (use_inv n s) in E as (p & path & e & c & c' & Ep & Eu & He & Hc & Hm & Hb & Ek & ->); [|done].
  specialize (Hb eq_refl). rewrite Hb in Ek. destruct (Z.ltb_spec 0 p.(borrow_counter)) as [Hk|]; [|done].
  destruct (sim_release n _ _ _ ptr Hm Hn Hb Hk) as (m' & k' & E1 & Hm' & Hk').
  pose proof (spec_release_sender c p.(borrow_counter) ptr) as Hs. destruct (spec_release c _ _) as [r0 c0]. injection Ek as <- <-.
  unfold simulated. cbn [perform]. unfold with_port. rewrite Ep. unfold release, with_mgmt. rewrite He, E1. cbn [outcome_bind].
  eexists. split; [done|]. by apply (receiver_update n s a i p path c _ _ p.(borrow_counter)).
Qed.

Lemma rel_mono n s a : rel n s a -> rel (n + 1) s a.
Proof.
  intros [Ha Hc Hd Hp Hu]. split; try done. intros path c E. destruct (Hc path c E) as (i & e & Hi & He & Hm).
  exists i, e. split_and!; [done..|]. by apply (conn_rel_mono n); [lia|].
Qed.

Lemma rel_snoc_none n s a : rel n s a ->
  rel n {| shared := s.(shared); ports := s.(ports) ++ [None] |} {| conns := a.(conns); users := a.(users) ++ [None] |}.
Proof.
  intros [Ha Hc Hd Hp Hu]. split; try done.
  - apply Forall2_app; [done|]. constructor; constructor.
  - intros i j u. cbn. rewrite !lookup_snoc_Some. intros [[_ Hi]|[_ [=]]] [[_ Hj]|[_ [=]]]. by apply (Hu i j u).
Qed.

Lemma some_pair_inj {A B} (x x' : A) (y y' : B) : Some (x, y) = Some (x', y') -> x = x' /\ y = y'.
Proof. by intros [= -> ->]. Qed.

Lemma sim_use_is_connected n s a i r a' : rel n s a -> spec_perform a (IsConnected i) = Some (r, a') -> simulated n s (IsConnected i) r a'.
Proof.
  intros Hr. cbn [spec_perform]. destruct (a.(users) !! i) as [[[sd path]|]|] eqn:Eu; [|done..].
  destruct (rel_user _ _ _ _ _ Hr Eu) as (p & Ep & Hp). destruct (port_conn_rel _ _ _ _ _ Hr Hp) as (e & c & He & Hc & Hm & _).
  cbn [fst snd] in *. rewrite Hc. intros [<- <-]%some_pair_inj. unfold simulated. cbn [perform]. unfold with_port, is_connected. rewrite Ep, He.
  eexists. split; [|by apply rel_mono]. do 3 f_equal. rewrite (rel_state _ _ _ Hm).
  by destruct (has_port c Sender), (has_port c Receiver).
Qed.

Lemma sim_drop n s a i r a' : rel n s a -> spec_perform a (Drop i) = Some (r, a') -> simulated n s (Drop i) r a'.
Proof.
  intros Hr. cbn [spec_perform]. destruct (a.(users) !! i) as [[[sd path]|]|] eqn:Eu; [|done..].
  destruct (rel_user _ _ _ _ _ Hr Eu) as (p & Ep & Hp). pose proof (port_side _ _ _ _ Hp) as Es. pose proof (port_name _ _ _ _ Hp) as Hn.
  destruct (port_conn_rel _ _ _ _ _ Hr Hp) as (e & c & He & Hc & Hm & Hpath & Hs & _). cbn [fst snd] in *. rewrite Hc. intros [<- <-]%some_pair_inj.
  unfold simulated. cbn [perform]. unfold with_port, drop, cleanup_connection. rewrite Ep, He, Es, Hpath. cbn [outcome_bind]. rewrite Hn, He.
  rewrite (proj2 (leave_state n _ _ _ Hm Hs)). pose proof (rel_leave n s a i p (sd, path) c e Hr Ep Eu Hc He Hm Hs) as Hl. cbn [fst snd] in Hl.
  destruct (has_port (set_side c sd false) Sender || has_port (set_side c sd false) Receiver); by eexists.
Qed.

Lemma sim_does_exist n s a nm cfg r a' : rel n s a -> spec_perform a (DoesExist nm cfg) = Some (r, a') -> simulated n s (DoesExist nm cfg) r a'.
Proof.
  intros Hr. unfold simulated. cbn [spec_perform perform]. unfold does_exist_cfg. destruct (path_for cfg nm) as [path|]; [|done]. intros [= <- <-].
  cbn [outcome_bind]. eexists. split; [|by apply rel_mono]. do 3 f_equal. apply bool_decide_ext.
  destruct (a.(conns) !! path) as [c|] eqn:E; [|rewrite (rel_absent _ _ _ Hr _ E); by split; intros []].
  destruct (rel_conns _ _ _ Hr _ _ E) as (i & e & -> & _). split; by eexists.
Qed.

(** Entries have the name that the builder of a port at that path has. *)
Definition named (w : world) (n : list Z) (path : list Z) : Prop :=
  forall i e, w.(names) !! path = Some i -> w.(heap) !! i = Some e -> e.(name) = n.

Lemma sim_create n s a b sd r a' : 0 <= n -> rel n s a -> sizes_ok b ->
  (forall path, path_for b.(b_config) b.(b_name) = Ret path -> named s.(shared) b.(b_name) path) ->
  spec_perform a (Create b sd) = Some (r, a') -> simulated n s (Create b sd) r a'.
Proof.
  intros Hn Hr Hsz Hnm. unfold simulated. cbn [spec_perform perform].
  replace (match sd with Sender => create_sender b s.(shared) | Receiver => create_receiver b s.(shared) end) with (create_port b sd s.(shared)) by (by destruct sd).
  unfold create_port. destruct (path_for b.(b_config) b.(b_name)) as [path|] eqn:Epath; [|done]. cbn [outcome_bind]. specialize (Hnm path eq_refl).
  destruct (a.(conns) !! path) as [c|] eqn:Ec.
  - destruct (rel_conns _ _ _ Hr _ _ Ec) as (i & e & Hi & He & Hm). rewrite Hi, He. pose proof (Hnm i e Hi He) as En.
    pose proof (rel_mono n _ _ (rel_snoc_none n s a Hr)) as Hfail. unfold spec_join. destruct (has_port c sd) eqn:Es.
    { intros [= <- <-]. rewrite (proj2 (Z.eqb_neq _ _)) by by apply (taken_state n _ c). by eexists. }
    destruct (join_state n _ _ _ Hm Es) as [-> _]. rewrite Z.eqb_refl. cbn [negb]. unfold check_compatibility.
    destruct (settings_fields _ _ (rel_settings _ _ _ Hm)) as (Esz & Ebl & Eov). unfold ZC.buffer_size in Esz. cbn in Esz. rewrite Esz, Ebl, Eov.
    destruct (negb (eqb _ _)); [intros [= <- <-]; by eexists|]. destruct (negb (_ =? _)); [intros [= <- <-]; by eexists|].
    destruct (negb (_ =? _)); [intros [= <- <-]; by eexists|]. intros [= <- <-]. eexists. split; [done|].
    apply (rel_join n s a path c i e sd b.(b_config)); try done. by rewrite En.
  - rewrite (rel_absent _ _ _ Hr _ Ec). intros [= <- <-]. destruct (new_entry_ok b sd Hsz) as (e & -> & En & Hm). cbn [outcome_bind].
    eexists. split; [done|]. apply rel_new; try done; [by rewrite En|by destruct sd|by intros ->].
Qed.

(** Every entry of the map has the name of a builder of its path. *)
Definition origin (cs : list call) w : Prop := forall path i, w.(names) !! path = Some i ->
  exists e b sd, w.(heap) !! i = Some e /\ Create b sd ∈ cs /\ path_for b.(b_config) b.(b_name) = Ret path /\ b.(b_name) = e.(name).

Lemma origin_set_body cs w i m : origin cs w -> origin cs (set_body w i m).
Proof.
  intros Ho path j Hj. destruct (Ho path j Hj) as (e & b & sd & He & Hb & Hp & En).
  destruct (set_body_name w i j m e He) as (e' & He' & En'). exists e', b, sd. by rewrite En'.
Qed.

Lemma origin_delete cs w path : origin cs w -> origin cs {| names := delete path w.(names); heap := w.(heap) |}.
Proof. intros Ho q i. cbn. intros [_ Hi]%lookup_delete_Some. by apply (Ho q i). Qed.

Lemma origin_create cs b sd w r w' : Create b sd ∈ cs -> origin cs w -> create_port b sd w = Ret (r, w') -> origin cs w'.
Proof.
  intros Hb Ho. unfold create_port. intros E. apply outcome_bind_inv in E as (path & Epath & E). destruct (w.(names) !! path) as [i|] eqn:Ex.
  - destruct (w.(heap) !! i) as [e|]; [|done]. case_match; [by inv_outcome|]. case_match; inv_outcome; [by apply origin_set_body|done].
  - unfold new_entry in E. inv_outcome. intros q j. cbn. rewrite lookup_insert_Some. intros [[<- <-]|[Hne Hi]].
    + eexists _, b, sd. rewrite lookup_app_r, Nat.sub_diag by lia. by split_and!.
    + destruct (Ho q j Hi) as (e & b' & sd' & He & H'). exists e, b', sd'. split; [by apply lookup_app_l_Some|done].
Qed.

Lemma with_mgmt_inv {A} p w (f : ZC.Mgmt -> outcome (A * ZC.Mgmt)) r w' : with_mgmt p w f = Ret (r, w') -> exists m, w' = set_body w p.(mgmt) m.
Proof. unfold with_mgmt. destruct (w.(heap) !! p.(mgmt)) as [e|]; [|done]. intros E. apply outcome_bind_inv in E as ([r0 m] & _ & E). inv_outcome. by eexists. Qed.

Lemma origin_drop cs p w w' : origin cs w -> drop p w = Ret w' -> origin cs w'.
Proof.
  intros Ho. unfold drop. case_match; [|done]. unfold cleanup_connection. intros E. apply outcome_bind_inv in E as (path & _ & E).
  case_match; [|done]. case_match; [|done]. case_match; injection E as <-; [|by apply origin_set_body].
  apply (origin_delete cs (set_body _ _ _)). by apply origin_set_body.
Qed.

Lemma origin_perform cs s c r s' : c ∈ cs -> origin cs s.(shared) -> perform s c = Ret (r, s') -> origin cs s'.(shared).
Proof.
  intros Hc Ho. destruct c; cbn [perform]; unfold with_port, try_send, blocking_send, reclaim, receive, release; intros E;
    try (destruct (s.(ports) !! i) as [[p|]|]; [|done..]).
  1: { replace (match s0 with Sender => create_sender b s.(shared) | Receiver => create_receiver b s.(shared) end) with (create_port b s0 s.(shared)) in E by (by destruct s0).
       apply outcome_bind_inv in E as ([r0 w] & E1 & E). apply (origin_create cs) in E1; [|done..]. case_match; inv_outcome; done. }
  all: try (apply outcome_bind_inv in E as ([r0 w] & E1 & E); apply with_mgmt_inv in E1 as [m ->]; inv_outcome; by apply origin_set_body).
  - apply outcome_bind_inv in E as ([[r0 p0] w] & E1 & E). apply outcome_bind_inv in E1 as ([[r1 k] w1] & E1 & E2).
    apply with_mgmt_inv in E1 as [m ->]. inv_outcome. by apply origin_set_body.
  - apply outcome_bind_inv in E as ([[r0 p0] w] & E1 & E). apply outcome_bind_inv in E1 as ([[r1 k] w1] & E1 & E2).
    apply with_mgmt_inv in E1 as [m ->]. inv_outcome. by apply origin_set_body.
  - by inv_outcome.
  - apply outcome_bind_inv in E as (w & E1 & E). inv_outcome. by apply (origin_drop cs p s.(shared)).
  - apply outcome_bind_inv in E as (w & E1 & E). case_match; [by inv_outcome|done].
Qed.

(** Builders of one path agree on the name, as they do when all use one configuration. *)
Definition names_agree (cs : list call) : Prop := forall b sd b' sd', Create b sd ∈ cs -> Create b' sd' ∈ cs ->
  path_for b.(b_config) b.(b_name) = path_for b'.(b_config) b'.(b_name) -> b.(b_name) = b'.(b_name).

Definition call_ok (c : call) : Prop := match c with Create b _ => sizes_ok b | _ => True end.

Lemma perform_simulated all n s a c r a' : 0 <= n < 2 ^ 62 -> rel n s a -> origin all s.(shared) -> names_agree all -> c ∈ all -> call_ok c ->
  spec_perform a c = Some (r, a') -> simulated n s c r a'.
Proof.
  intros Hn Hr Ho Hag Hc Hok E. destruct c;
    eauto using sim_use_send, sim_use_blocking_send, sim_use_reclaim, sim_use_receive, sim_use_release, sim_use_is_connected, sim_drop, sim_does_exist with lia.
  - eapply sim_create; [lia|done|done| |exact E]. intros path Hp i e Hi He. destruct (Ho path i Hi) as (e' & b' & sd' & He' & Hb' & Hp' & En).
    assert (e' = e) as -> by congruence. rewrite <-En. eapply Hag; [done..|]. by rewrite Hp, Hp'.
Qed.

Lemma perform_all_simulated all cs : forall n s a rs a', 0 <= n -> n + zlength cs <= 2 ^ 62 -> rel n s a -> origin all s.(shared) -> names_agree all ->
  (forall c, c ∈ cs -> c ∈ all) -> Forall call_ok cs -> spec_perform_all a cs = Some (rs, a') ->
  exists s', perform_all s cs = Ret (rs, s').
Proof.
  induction cs as [|c cs IH]; intros n s a rs a' Hn Hl Hr Ho Hag Hin Hok E; cbn [spec_perform_all perform_all] in *; [injection E as <- <-; by eexists|].
  apply Forall_cons in Hok as [Hc Hok]. rewrite zlength_cons in Hl. pose proof (zlength_nonneg cs).
  destruct (spec_perform a c) as [[r a1]|] eqn:E1; [|done]. destruct (spec_perform_all a1 cs) as [[rs1 a2]|] eqn:E2; [|done]. injection E as <- <-.
  destruct (perform_simulated all n s a c r a1) as (s1 & Es & Hr1); [lia|done|done|done|apply Hin; by left|done|done|].
  rewrite Es. cbn [outcome_bind]. pose proof (origin_perform all s c r s1 ltac:(apply Hin; by left) Ho Es) as Ho1.
  destruct (IH (n + 1) s1 a1 rs1 a2) as (s2 & ->); [lia|lia|done|done|done|intros; apply Hin; by right|done|done|]. by eexists.
Qed.

Definition no_connections : system := {| shared := {| names := ∅; heap := [] |}; ports := [] |}.
Definition empty_registry : registry := {| conns := ∅; users := [] |}.

(** C16: The process-local connections refine a registry of connections.  For every
    sequence of at most 2^62 possible calls that create, use and drop ports, each call
    runs to its end before the next begins, no call panics and every call answers what
    the registry answers: a name has at most one sender and one receiver, which must
    agree on the settings of the connection; samples sent are received in order and
    samples released are reclaimed in order, within the limits of the connection; they
    survive when one side is dropped and connects again; and the connection is gone with
    its last port.  A call is possible when its port exists and has the right kind, its
    name has a path, and a released sample is held.  The sizes are below 2^60, and
    builders with the same path have the same name ([names_agree]). *)
Theorem local_connection_refines cs rs a :
  zlength cs <= 2 ^ 62 -> Forall call_ok cs -> names_agree cs ->
  spec_perform_all empty_registry cs = Some (rs, a) -> exists s, perform_all no_connections cs = Ret (rs, s).
Proof.
  intros Hl Hok Hag E. apply (perform_all_simulated cs cs 0 no_connections empty_registry rs a); done.
Qed.

End process_local.

(** ** Concrete calls *)

Definition example_hint : FixedSizeByteString := {| CAPACITY := 4096; ByteString.len := 2; ByteString.data := [47; 116] ++ replicate 4094 0 |}.

Definition example_cfg (prefix : list Z) : NC.NamedConceptConfiguration :=
  {| NC.prefix := prefix; NC.suffix := [46; 99]; NC.path_hint := example_hint |}.

Definition example_builder (prefix n : list Z) : Builder :=
  {| b_name := n; b_buffer_size := 2; b_enable_safe_overflow := true; b_max_borrowed_samples := 1; b_config := example_cfg prefix |}.

(** A sender sends three samples, of which the first is overwritten, the receiver takes and
    returns one, leaves, and another one gets the last. *)
Definition example_calls : list call :=
  let b := example_builder [97] [98; 99] in
  [Create b Sender; Create b Sender; Create b Receiver; IsConnected 0; TrySend 0 10; TrySend 0 20; TrySend 0 30; Receive 2; Receive 2;
   Release 2 20; Drop 2; Create b Receiver; Reclaim 0; Receive 3; BlockingSend 0 40; Drop 0; DoesExist [98; 99] (example_cfg [97]);
   Drop 3; DoesExist [98; 99] (example_cfg [97])].

Definition perform_example := @perform_all dev (replicate 4096 0) 0 0 no_connections.

Lemma local_connection_refines_witness : exists s, perform_example example_calls =
  Ret ([Created (Ok tt); Created (Err AnotherInstanceIsAlreadyConnected); Created (Ok tt); Answer true;
        Sent (Some (Ok None)); Sent (Some (Ok None)); Sent (Some (Ok (Some 10))); Received (Ok (Some 20));
        Received (Err ReceiveWouldExceedMaxBorrowValue); Released (Ok tt); Dropped; Created (Ok tt); Reclaimed (Some 20);
        Received (Ok (Some 30)); Sent (Some (Ok None)); Dropped; Answer true; Dropped; Answer false], s).
Proof.
  eapply (@local_connection_refines dev (replicate 4096 0) 0 0 example_calls).
  - vm_compute. discriminate.
  - repeat constructor; cbn; lia.
  - intros b sd b' sd' Hb Hb' _. unfold example_calls in *. set_unfold. naive_solver.
  - vm_compute. reflexivity.
Defined.

(** The path of a connection does not determine its prefix and its name.  A port that shares
    the connection under another name ("a" and "bc" instead of "ab" and "c") looks the
    connection up under the name its creator gave it when it is dropped: it misses it, and
    the destructor panics. *)
Theorem local_connection_drop_other_name :
  let calls := [Create (example_builder [97] [98; 99]) Sender; Create (example_builder [97; 98] [99]) Receiver] in
  (exists s, perform_example calls = Ret ([Created (Ok tt); Created (Ok tt)], s)) /\ perform_example (calls ++ [Drop 1]) = Panic.
Proof. split; [eexists; vm_compute; reflexivity|vm_compute; reflexivity]. Qed.

(** [remove_cfg] takes the connection away from under its ports: dropping them panics. *)
Theorem local_connection_drop_after_remove :
  exists p w w', @create_sender dev (replicate 4096 0) 0 0 (example_builder [97] [98]) no_connections.(shared) = Ret (Ok p, w) /\
    @remove_cfg dev (replicate 4096 0) [98] (example_cfg [97]) w = Ret (true, w') /\ @drop dev (replicate 4096 0) p w' = Panic.
Proof. eexists _, _, _. split; [vm_compute; reflexivity|]. split; [vm_compute; reflexivity|]. vm_compute. reflexivity. Qed.

End LocalConnection.
