(* ===== verification/LocalChannel.v ===== *)
(** * Communication channels inside a process

    [iceoryx2_cal::communication_channel::process_local]: the receiver of a channel enters
    it into a map behind a mutex, senders look it up, and both share the queue with safe
    overflow.  A shared pointer is the index of the channel in [heap]: a channel lives on
    for the senders that have it when its receiver has gone.  Every call is one step; the
    interleaving of a sender and a receiver inside the queue is the subject of
    [OverflowQueue]. *)

From S2P Require Import Prelude QueueSpec OverflowQueue ByteString SemanticString SystemTypes NamedConcept StaticStorage.

Module LocalChannel.
Module NC := NamedConcept.NamedConcept.
Module O := OverflowQueue.

(* src/iceoryx2_cal/src/communication_channel/mod.rs:95-100 CommunicationChannelSendError *)
Inductive CommunicationChannelSendError := ConnectionBroken | MessageTooLarge | ReceiverCacheIsFull | SendInternalFailure.

(* src/iceoryx2_cal/src/communication_channel/mod.rs:112-117 CommunicationChannelCreateError *)
Inductive CommunicationChannelCreateError :=
  AlreadyExists | SafeOverflowNotSupported | CustomBufferSizeNotSupported | CreateInternalFailure.

(* src/iceoryx2_cal/src/communication_channel/mod.rs:121-125 CommunicationChannelOpenError *)
Inductive CommunicationChannelOpenError := OpenInternalFailure | AnotherInstanceIsAlreadyConnected | DoesNotExist.

(* src/iceoryx2_cal/src/communication_channel/process_local.rs:29-32 Management *)
Record Management := { queue : OverflowQueue; enable_safe_overflow : bool }.

(* src/iceoryx2_cal/src/communication_channel/process_local.rs:109-114 Creator *)
Record Creator := {
  c_name : list Z;
  c_enable_safe_overflow : bool;
  c_buffer_size : Z;
  c_config : NC.NamedConceptConfiguration;
}.

(* src/iceoryx2_cal/src/communication_channel/process_local.rs:232-237 Duplex *)
Record Duplex := {
  d_name : list Z;
  management : nat;
  d_config : NC.NamedConceptConfiguration;
  has_ownership : bool;
}.

(** The map behind [PROCESS_LOCAL_CHANNELS] and what the shared pointers point to. *)
Record world := { names : gmap (list Z) nat; heap : list Management }.

Section process_local.
Context `{Profile} (memory file_memory : list Z) (queue_ptr : Z).
Implicit Types (w : world) (d : Duplex) (cfg : NC.NamedConceptConfiguration).

Definition path_for cfg (n : list Z) : outcome (list Z) :=
  let! p := NC.path_for cfg memory n in Ret (as_bytes p).

(* src/iceoryx2_cal/src/communication_channel/process_local.rs:35-40 new *)
Definition new_management (enable_safe_overflow : bool) (capacity : Z) : outcome Management :=
  let! q := O.new queue_ptr capacity in
  Ret {| queue := q; enable_safe_overflow := enable_safe_overflow |}.

(* src/iceoryx2_cal/src/communication_channel/process_local.rs:143-170 create_receiver *)
Definition create_receiver (c : Creator) w : outcome (Result Duplex CommunicationChannelCreateError * world) :=
  let! full_name := path_for c.(c_config) c.(c_name) in
  match w.(names) !! full_name with
  | Some _ => Ret (Err AlreadyExists, w)
  | None =>
      let! m := new_management c.(c_enable_safe_overflow) c.(c_buffer_size) in
      let i := length w.(heap) in
      Ret (Ok {| d_name := c.(c_name); management := i; d_config := c.(c_config); has_ownership := true |},
           {| names := <[full_name := i]> w.(names); heap := w.(heap) ++ [m] |})
  end.

(* src/iceoryx2_cal/src/communication_channel/process_local.rs:211-228 try_open_sender *)
Definition try_open_sender (n : list Z) cfg w : outcome (Result Duplex CommunicationChannelOpenError) :=
  let! full_name := path_for cfg n in
  match w.(names) !! full_name with
  | None => Ret (Err DoesNotExist)
  | Some i => Ret (Ok {| d_name := n; management := i; d_config := cfg; has_ownership := false |})
  end.

(* src/iceoryx2_cal/src/communication_channel/process_local.rs:194-209 open_sender *)
Definition open_sender (n : list Z) cfg w : outcome (Result Duplex CommunicationChannelOpenError) := try_open_sender n cfg w.

(** The producer is acquired for the push and dropped at the end of the statement. *)
(* src/iceoryx2_cal/src/communication_channel/process_local.rs:311-324 try_send *)
Definition try_send d (data : Z) w : outcome (Result (option Z) CommunicationChannelSendError * world) :=
  match w.(heap) !! d.(management) with
  | None => Panic
  | Some m =>
      let! full := (if negb m.(enable_safe_overflow) then O.is_full m.(queue) else Ret false) in
      if (full : bool) then Ret (Err ReceiverCacheIsFull, w)
      else
        let! '(has_producer, q) := O.acquire_producer m.(queue) in
        if negb has_producer then Panic
        else
          let! '(result, q) := O.push q data in
          let m := {| queue := O.drop_producer q; enable_safe_overflow := m.(enable_safe_overflow) |} in
          Ret (Ok result, {| names := w.(names); heap := <[d.(management) := m]> w.(heap) |})
  end.

(* src/iceoryx2_cal/src/communication_channel/process_local.rs:296-309 send *)
Definition send d (data : Z) w : outcome (Result (option Z) CommunicationChannelSendError * world) := try_send d data w.

(* src/iceoryx2_cal/src/communication_channel/process_local.rs:338-340 receive *)
Definition receive d w : outcome (option Z * world) :=
  match w.(heap) !! d.(management) with
  | None => Panic
  | Some m =>
      let! '(has_consumer, q) := O.acquire_consumer m.(queue) in
      if negb has_consumer then Panic
      else
        let! '(result, q) := O.pop q in
        let m := {| queue := O.drop_consumer q; enable_safe_overflow := m.(enable_safe_overflow) |} in
        Ret (result, {| names := w.(names); heap := <[d.(management) := m]> w.(heap) |})
  end.

(* src/iceoryx2_cal/src/communication_channel/process_local.rs:334-336 buffer_size *)
Definition buffer_size d w : outcome Z :=
  match w.(heap) !! d.(management) with None => Panic | Some m => Ret m.(queue).(O.capacity) end.

(* src/iceoryx2_cal/src/communication_channel/process_local.rs:240-254 drop *)
Definition drop d w : outcome world :=
  if d.(has_ownership) then
    let! full_name := path_for d.(d_config) d.(d_name) in
    match w.(names) !! full_name with
    | None => Panic
    | Some _ => Ret {| names := delete full_name w.(names); heap := w.(heap) |}
    end
  else Ret w.

(* src/iceoryx2_cal/src/communication_channel/process_local.rs:349-364 does_exist_cfg *)
Definition does_exist_cfg (n : list Z) cfg w : outcome bool :=
  let! path := path_for cfg n in Ret (bool_decide (is_Some (w.(names) !! path))).

(* src/iceoryx2_cal/src/communication_channel/process_local.rs:366-384 list_cfg *)
Definition list_cfg cfg w : outcome (list (list Z)) :=
  StaticStorage.list_keys memory file_memory cfg (map_to_list w.(names)).*1.

(* src/iceoryx2_cal/src/communication_channel/process_local.rs:386-401 remove_cfg *)
Definition remove_cfg (n : list Z) cfg w : outcome (bool * world) :=
  let! storage_name := path_for cfg n in
  Ret (bool_decide (is_Some (w.(names) !! storage_name)), {| names := delete storage_name w.(names); heap := w.(heap) |}).

(** ** Sequences of calls *)

(** A port is named by the position of the call that made it. *)
Inductive call :=
| CreateReceiver (c : Creator)
| OpenSender (n : list Z) (cfg : NC.NamedConceptConfiguration)
| Send (i : nat) (data : Z)
| Receive (i : nat)
| BufferSize (i : nat)
| Drop (i : nat)
| DoesExist (n : list Z) (cfg : NC.NamedConceptConfiguration)
| Remove (n : list Z) (cfg : NC.NamedConceptConfiguration).

Inductive reply :=
| Created (r : Result unit CommunicationChannelCreateError)
| Opened (r : Result unit CommunicationChannelOpenError)
| Sent (r : Result (option Z) CommunicationChannelSendError)
| Received (r : option Z)
| Size (n : Z)
| Dropped
| Answer (b : bool).

Record system := { shared : world; ports : list (option Duplex) }.

Definition with_port {A} (s : system) (i : nat) (k : Duplex -> outcome A) : outcome A :=
  match s.(ports) !! i with Some (Some d) => k d | _ => Panic end.

Definition set_world (s : system) w : system := {| shared := w; ports := s.(ports) |}.

Definition perform (s : system) (c : call) : outcome (reply * system) :=
  match c with
  | CreateReceiver c =>
      let! '(r, w) := create_receiver c s.(shared) in
      Ret (match r with
           | Ok d => (Created (Ok tt), {| shared := w; ports := s.(ports) ++ [Some d] |})
           | Err e => (Created (Err e), {| shared := w; ports := s.(ports) ++ [None] |})
           end)
  | OpenSender n cfg =>
      let! r := open_sender n cfg s.(shared) in
      Ret (match r with
           | Ok d => (Opened (Ok tt), {| shared := s.(shared); ports := s.(ports) ++ [Some d] |})
           | Err e => (Opened (Err e), {| shared := s.(shared); ports := s.(ports) ++ [None] |})
           end)
  | Send i data => with_port s i (fun d => let! '(r, w) := send d data s.(shared) in Ret (Sent r, set_world s w))
  | Receive i => with_port s i (fun d => let! '(r, w) := receive d s.(shared) in Ret (Received r, set_world s w))
  | BufferSize i => with_port s i (fun d => let! n := buffer_size d s.(shared) in Ret (Size n, s))
  | Drop i => with_port s i (fun d => let! w := drop d s.(shared) in Ret (Dropped, {| shared := w; ports := <[i := None]> s.(ports) |}))
  | DoesExist n cfg => let! b := does_exist_cfg n cfg s.(shared) in Ret (Answer b, s)
  | Remove n cfg => let! '(b, w) := remove_cfg n cfg s.(shared) in Ret (Answer b, set_world s w)
  end.

Fixpoint perform_all (s : system) (cs : list call) : outcome (list reply * system) :=
  match cs with
  | [] => Ret ([], s)
  | c :: cs =>
      let! '(r, s) := perform s c in
      let! '(rs, s) := perform_all s cs in
      Ret (r :: rs, s)
  end.

(** ** Channels as lists *)

Record channel := { capacity : Z; overflow : bool; contents : list Z }.

(** A user of a channel; the receiver that created it has its path. *)
Record registry := { paths : gmap (list Z) nat; channels : list channel; users : list (option (nat * option (list Z))) }.

Definition spec_send (c : channel) (data : Z) : Result (option Z) CommunicationChannelSendError * channel :=
  if negb c.(overflow) && (zlength c.(contents) =? c.(capacity)) then (Err ReceiverCacheIsFull, c)
  else let '(old, l) := spec_push_overflow c.(capacity) c.(contents) data in
       (Ok old, {| capacity := c.(capacity); overflow := c.(overflow); contents := l |}).

Definition spec_receive (c : channel) : option Z * channel :=
  let '(r, l) := spec_pop c.(contents) in (r, {| capacity := c.(capacity); overflow := c.(overflow); contents := l |}).

Definition spec_use (a : registry) (i : nat) (k : channel -> reply * channel) : option (reply * registry) :=
  match a.(users) !! i with
  | Some (Some (j, _)) =>
      match a.(channels) !! j with
      | Some c => let '(r, c) := k c in Some (r, {| paths := a.(paths); channels := <[j := c]> a.(channels); users := a.(users) |})
      | None => None
      end
  | _ => None
  end.

Definition join (a : registry) (u : option (nat * option (list Z))) : registry :=
  {| paths := a.(paths); channels := a.(channels); users := a.(users) ++ [u] |}.

(** [None]: there is no such port, the name is no path, or the receiver is dropped whose
    channel was removed behind its back. *)
Definition spec_perform (a : registry) (c : call) : option (reply * registry) :=
  match c with
  | CreateReceiver c =>
      match path_for c.(c_config) c.(c_name) with
      | Panic => None
      | Ret path =>
          match a.(paths) !! path with
          | Some _ => Some (Created (Err AlreadyExists), join a None)
          | None =>
              let j := length a.(channels) in
              Some (Created (Ok tt),
                    {| paths := <[path := j]> a.(paths);
                       channels := a.(channels) ++ [{| capacity := c.(c_buffer_size); overflow := c.(c_enable_safe_overflow); contents := [] |}];
                       users := a.(users) ++ [Some (j, Some path)] |})
          end
      end
  | OpenSender n cfg =>
      match path_for cfg n with
      | Panic => None
      | Ret path =>
          match a.(paths) !! path with
          | Some j => Some (Opened (Ok tt), join a (Some (j, None)))
          | None => Some (Opened (Err DoesNotExist), join a None)
          end
      end
  | Send i data => spec_use a i (fun c => let '(r, c) := spec_send c data in (Sent r, c))
  | Receive i => spec_use a i (fun c => let '(r, c) := spec_receive c in (Received r, c))
  | BufferSize i => spec_use a i (fun c => (Size c.(capacity), c))
  | Drop i =>
      match a.(users) !! i with
      | Some (Some (_, None)) => Some (Dropped, {| paths := a.(paths); channels := a.(channels); users := <[i := None]> a.(users) |})
      | Some (Some (_, Some path)) =>
          match a.(paths) !! path with
          | Some _ => Some (Dropped, {| paths := delete path a.(paths); channels := a.(channels); users := <[i := None]> a.(users) |})
          | None => None
          end
      | _ => None
      end
  | DoesExist n cfg =>
      match path_for cfg n with Ret path => Some (Answer (bool_decide (is_Some (a.(paths) !! path))), a) | Panic => None end
  | Remove n cfg =>
      match path_for cfg n with
      | Ret path => Some (Answer (bool_decide (is_Some (a.(paths) !! path))),
                          {| paths := delete path a.(paths); channels := a.(channels); users := a.(users) |})
      | Panic => None
      end
  end.

Fixpoint spec_perform_all (a : registry) (cs : list call) : option (list reply * registry) :=
  match cs with
  | [] => Some ([], a)
  | c :: cs =>
      match spec_perform a c with
      | Some (r, a) => match spec_perform_all a cs with Some (rs, a) => Some (r :: rs, a) | None => None end
      | None => None
      end
  end.

(** ** The relation *)

(** The queue is as its constructor left it: nobody holds an end of it. *)
Definition ready (q : OverflowQueue) : Prop :=
  O.has_producer q = true /\ O.has_consumer q = true /\ O.is_memory_initialized q = true.

Record chan_rel (n : Z) (m : Management) (c : channel) : Prop := {
  rel_wf : O.wf m.(queue);
  rel_ready : ready m.(queue);
  rel_capacity : m.(queue).(O.capacity) = c.(capacity) /\ c.(capacity) < 2 ^ 62;
  rel_overflow : m.(enable_safe_overflow) = c.(overflow);
  rel_contents : O.contents m.(queue) = c.(contents);
  rel_pushes : O.write_position m.(queue) <= n;
}.

Definition port_rel (d : Duplex) (u : nat * option (list Z)) : Prop :=
  d.(management) = u.1 /\
  match u.2 with
  | Some path => d.(has_ownership) = true /\ path_for d.(d_config) d.(d_name) = Ret path
  | None => d.(has_ownership) = false
  end.

Record rel (n : Z) (s : system) (a : registry) : Prop := {
  rel_names : s.(shared).(names) = a.(paths);
  rel_heap : Forall2 (chan_rel n) s.(shared).(heap) a.(channels);
  rel_ports : Forall2 (option_Forall2 port_rel) s.(ports) a.(users);
}.

Lemma chan_rel_mono n n' m c : n <= n' -> chan_rel n m c -> chan_rel n' m c.
Proof. intros Hn []. split; (done || lia). Qed.

Lemma heap_mono n n' h l : n <= n' -> Forall2 (chan_rel n) h l -> Forall2 (chan_rel n') h l.
Proof. intros Hn Hh. eapply Forall2_impl; [done|]. intros. by eapply chan_rel_mono. Qed.

Lemma push_ports q v r q' : O.push q v = Ret (r, q') ->
  O.has_producer q' = O.has_producer q /\ O.has_consumer q' = O.has_consumer q /\ O.is_memory_initialized q' = O.is_memory_initialized q.
Proof.
  unfold O.push, O.compare_exchange_read. intros E. repeat (inv_outcome; simplify_eq; try case_match); done.
Qed.

Lemma pop_ports q r q' : O.pop q = Ret (r, q') ->
  O.has_producer q' = O.has_producer q /\ O.has_consumer q' = O.has_consumer q /\ O.is_memory_initialized q' = O.is_memory_initialized q.
Proof.
  unfold O.pop. destruct (_ =? _); [by intros [= <- <-]|]. cbn [O.pop_loop]. unfold O.compare_exchange_read. intros E.
  repeat (inv_outcome; simplify_eq; try case_match); done.
Qed.

(** Taking and giving back an end of the queue. *)
Lemma set_ports_wf q p c : O.wf q -> O.wf (O.set_ports q p c).
Proof. by intros []. Qed.

Lemma sim_channel_send n m c d data w :
  chan_rel n m c -> n < 2 ^ 62 -> w.(heap) !! d.(management) = Some m ->
  exists m', send d data w = Ret ((spec_send c data).1, {| names := w.(names); heap := <[d.(management) := m']> w.(heap) |}) /\
    chan_rel (n + 1) m' (spec_send c data).2.
Proof.
  intros Hc Hn Em. pose proof Hc as [Hwf (Hp & Hcn & Hi) [Ecap Hcap] Eov Econ Hpush]. unfold send, try_send. rewrite Em.
  pose proof (wf_capacity _ Hwf) as Hc0.
  assert (Hfull : (if negb (enable_safe_overflow m) then O.is_full (queue m) else Ret false) =
    Ret (negb (overflow c) && (zlength (contents c) =? capacity c))).
  { rewrite Eov. destruct (overflow c); [done|]. cbn [negb andb]. rewrite (oq_is_full_ok (queue m) Hwf). by rewrite Econ, Ecap. }
  rewrite Hfull. cbn [outcome_bind]. unfold spec_send. destruct (negb (overflow c) && _).
  - exists m. rewrite list_insert_id by done. destruct w. split; [done|]. by apply (chan_rel_mono n); [lia|].
  - unfold O.acquire_producer, O.verify_init. rewrite Hi, Hp. cbn [outcome_bind negb].
    destruct (oq_push_refines (O.set_ports (queue m) false (O.has_consumer (queue m))) data (set_ports_wf _ _ _ Hwf)) as (r & q & E & Hwf' & Espec & Ecap' & Hpush').
    { cbn. lia. }
    rewrite E. cbn [outcome_bind]. pose proof (push_ports _ _ _ _ E) as (_ & E2 & E3).
    cbn in Espec, Ecap', Hpush', Hwf'. change (O.contents (O.set_ports (queue m) false (O.has_consumer (queue m)))) with (O.contents (queue m)) in Espec.
    rewrite Econ, Ecap in Espec. rewrite <- Espec. eexists. split; [done|]. split; cbn; try done; try lia.
    + by apply set_ports_wf.
    + split_and!; cbn; [done|by rewrite E2|by rewrite E3].
Qed.

Lemma sim_channel_receive n m c d w :
  chan_rel n m c -> w.(heap) !! d.(management) = Some m ->
  exists m', receive d w = Ret ((spec_receive c).1, {| names := w.(names); heap := <[d.(management) := m']> w.(heap) |}) /\
    chan_rel (n + 1) m' (spec_receive c).2.
Proof.
  intros [Hwf (Hp & Hcn & Hi) [Ecap Hcap] Eov Econ Hpush] Em. unfold receive. rewrite Em.
  unfold O.acquire_consumer, O.verify_init. rewrite Hi, Hcn. cbn [outcome_bind negb].
  destruct (oq_pop_refines (O.set_ports (queue m) (O.has_producer (queue m)) false) (set_ports_wf _ _ _ Hwf)) as (r & q & E & Hwf' & Espec & Ecap' & Hpush').
  rewrite E. cbn [outcome_bind]. pose proof (pop_ports _ _ _ E) as (E1 & _ & E3).
  cbn in Espec, Ecap', Hpush', Hwf'. change (O.contents (O.set_ports (queue m) (O.has_producer (queue m)) false)) with (O.contents (queue m)) in Espec.
  unfold spec_receive. rewrite Econ in Espec. rewrite <- Espec. eexists. split; [done|]. split; cbn; try done; try lia.
  - by apply set_ports_wf.
  - split_and!; cbn; [by rewrite E1|done|by rewrite E3].
Qed.

Definition call_ok (c : call) : Prop := match c with CreateReceiver c => 0 <= c.(c_buffer_size) < 2 ^ 62 | _ => True end.

Lemma channel_user n s a i u : rel n s a -> a.(users) !! i = Some (Some u) -> exists d, s.(ports) !! i = Some (Some d) /\ port_rel d u.
Proof.
  intros Hr Eu. pose proof (proj1 (Forall2_lookup _ _ _) (rel_ports _ _ _ Hr) i) as Hi. rewrite Eu in Hi.
  inversion Hi as [x y Hxy E|]; subst. inversion Hxy; subst. by eexists.
Qed.

(** The channel of a user is replaced. *)
Lemma sim_use n s a i k r a' (f : Duplex -> outcome (reply * system)) :
  rel n s a -> spec_use a i k = Some (r, a') ->
  (forall d m c, s.(shared).(heap) !! d.(management) = Some m -> chan_rel n m c ->
     exists m', f d = Ret ((k c).1, set_world s {| names := s.(shared).(names); heap := <[d.(management) := m']> s.(shared).(heap) |}) /\
       chan_rel (n + 1) m' (k c).2) ->
  exists s', with_port s i f = Ret (r, s') /\ rel (n + 1) s' a'.
Proof.
  intros Hr E Hf. unfold spec_use in E. destruct (users a !! i) as [[[j p]|]|] eqn:Eu; try done.
  destruct (channels a !! j) as [c|] eqn:Ec; [|done]. destruct (channel_user _ _ _ _ _ Hr Eu) as (d & Ed & Hd & _). cbn in Hd.
  destruct (Forall2_lookup_r _ _ _ _ _ (rel_heap _ _ _ Hr) Ec) as (m & Em & Hm). rewrite <- Hd in Em.
  destruct (Hf d m c Em Hm) as (m' & Ef & Hm'). unfold with_port. rewrite Ed, Ef. destruct (k c) as [r0 c']. injection E as <- <-.
  eexists. split; [done|]. destruct Hr as [Hn Hh Hp]. split; cbn; [done| |done].
  rewrite Hd. apply Forall2_insert; [|done]. eapply heap_mono; [|done]. lia.
Qed.

Lemma channel_join n s a (d : option Duplex) u : rel n s a -> option_Forall2 port_rel d u ->
  rel (n + 1) {| shared := s.(shared); ports := s.(ports) ++ [d] |} (join a u).
Proof.
  intros [Hn Hh Hp] Hd. split; cbn; [done| |by apply Forall2_app; [|constructor]]. eapply heap_mono; [|done]. lia.
Qed.

Lemma channel_call_simulated n s a c r a' :
  0 <= n < 2 ^ 62 -> rel n s a -> call_ok c -> spec_perform a c = Some (r, a') ->
  exists s', perform s c = Ret (r, s') /\ rel (n + 1) s' a'.
Proof.
  intros Hn Hr Hok E. pose proof Hr as [Hna Hh Hp]. assert (Hh' : Forall2 (chan_rel (n + 1)) (heap (shared s)) (channels a)) by (eapply heap_mono; [|done]; lia).
  destruct c as [c|nm cfg|i data|i|i|i|nm cfg|nm cfg]; cbn [spec_perform perform] in *.
  - unfold create_receiver. destruct (path_for _ _) as [path|] eqn:Epath; [|done]. cbn [outcome_bind]. rewrite Hna. destruct (paths a !! path) eqn:Ep.
    + injection E as <- <-. eexists. split; [done|]. by apply channel_join; [|constructor].
    + cbn in Hok. destruct (oq_new_wf queue_ptr (c_buffer_size c)) as (q & Eq & Hwf & Ecap & Ewp & Econ); [lia|].
      assert (Hready : ready q) by (unfold O.new in Eq; inv_outcome; done).
      unfold new_management. rewrite Eq. cbn [outcome_bind]. injection E as <- <-. eexists. split; [done|].
      assert (Hlen : length (heap (shared s)) = length (channels a)) by (by eapply Forall2_length). split; cbn.
      * by rewrite Hlen.
      * apply Forall2_app; [done|]. constructor; [|done]. split; cbn; try done; [split; lia|lia].
      * apply Forall2_app; [done|]. constructor; [|done]. constructor. by split.
  - unfold open_sender, try_open_sender. destruct (path_for _ _) as [path|] eqn:Epath; [|done]. cbn [outcome_bind]. rewrite Hna.
    destruct (paths a !! path) as [j|] eqn:Ep; injection E as <- <-; (eexists; split; [done|]; apply channel_join; [done|constructor]). by split.
  - eapply sim_use; [done|exact E|]. intros d m c Em Hm. destruct (sim_channel_send n m c d data (shared s) Hm ltac:(lia) Em) as (m' & Es & Hm').
    exists m'. rewrite Es. cbn [outcome_bind]. destruct (spec_send c data). done.
  - eapply sim_use; [done|exact E|]. intros d m c Em Hm. destruct (sim_channel_receive n m c d (shared s) Hm Em) as (m' & Es & Hm').
    exists m'. rewrite Es. cbn [outcome_bind]. destruct (spec_receive c). done.
  - eapply sim_use; [done|exact E|]. intros d m c Em Hm. exists m. unfold buffer_size. rewrite Em. cbn [outcome_bind].
    rewrite list_insert_id by done. split; [|by apply (chan_rel_mono n); [lia|]]. destruct Hm as [_ _ [-> _] _ _ _]. by destruct s as [[] ?].
  - destruct (users a !! i) as [[[j [path|]]|]|] eqn:Eu; try done; destruct (channel_user _ _ _ _ _ Hr Eu) as (d & Ed & Hd & Ho); cbn in Ho.
    + destruct Ho as [Ho Epath]. destruct (paths a !! path) eqn:Ep; [|done]. injection E as <- <-. unfold with_port, drop.
      rewrite Ed, Ho, Epath. cbn [outcome_bind]. rewrite Hna, Ep. eexists. split; [done|]. split; cbn; [done|done|].
      apply Forall2_insert; [done|constructor].
    + injection E as <- <-. unfold with_port, drop. rewrite Ed, Ho. eexists. split; [done|]. split; cbn; [done|done|].
      apply Forall2_insert; [done|constructor].
  - unfold does_exist_cfg. destruct (path_for _ _) as [path|]; [|done]. injection E as <- <-. rewrite Hna. eexists. split; [done|]. by split.
  - unfold remove_cfg. destruct (path_for _ _) as [path|]; [|done]. injection E as <- <-. rewrite Hna. eexists. split; [done|]. by split.
Qed.

Lemma channel_no_user n s a i f : rel n s a -> (forall u, a.(users) !! i <> Some (Some u)) -> with_port (A := reply * system) s i f = Panic.
Proof.
  intros Hr Hu. pose proof (proj1 (Forall2_lookup _ _ _) (rel_ports _ _ _ Hr) i) as Hi. unfold with_port.
  inversion Hi as [x y Hxy Ex Ey|]; [|done]. inversion Hxy; subst; [|done]. exfalso. by eapply Hu.
Qed.

Lemma sim_use_none n s a i k (f : Duplex -> outcome (reply * system)) :
  rel n s a -> spec_use a i k = None -> (forall d, s.(shared).(heap) !! d.(management) = None -> f d = Panic) ->
  with_port s i f = Panic.
Proof.
  intros Hr E Hf. unfold spec_use in E. destruct (users a !! i) as [[[j p]|]|] eqn:Eu;
    [|by eapply channel_no_user; [done|]; rewrite Eu..].
  destruct (channels a !! j) as [c|] eqn:Ec; [by destruct (k c)|]. destruct (channel_user _ _ _ _ _ Hr Eu) as (d & Ed & Hd & _). cbn in Hd.
  unfold with_port. rewrite Ed. apply Hf. apply lookup_ge_None. rewrite (Forall2_length _ _ _ (rel_heap _ _ _ Hr)), Hd.
  by apply lookup_ge_None.
Qed.

(** The registry has no answer exactly when the call panics. *)
Lemma channel_call_panics n s a c : rel n s a -> spec_perform a c = None -> perform s c = Panic.
Proof.
  intros Hr E. pose proof (rel_names _ _ _ Hr) as Hna. destruct c as [c|nm cfg|i data|i|i|i|nm cfg|nm cfg]; cbn [spec_perform perform] in *.
  - unfold create_receiver. destruct (path_for _ _) as [path|]; [|done]. by destruct (paths a !! path).
  - unfold open_sender, try_open_sender. destruct (path_for _ _) as [path|]; [|done]. by destruct (paths a !! path).
  - eapply sim_use_none; [done|exact E|]. intros d Hd. unfold send, try_send. by rewrite Hd.
  - eapply sim_use_none; [done|exact E|]. intros d Hd. unfold receive. by rewrite Hd.
  - eapply sim_use_none; [done|exact E|]. intros d Hd. unfold buffer_size. by rewrite Hd.
  - destruct (users a !! i) as [[[j [path|]]|]|] eqn:Eu; try done; [|by eapply channel_no_user; [done|]; rewrite Eu..].
    destruct (channel_user _ _ _ _ _ Hr Eu) as (d & Ed & Hd & Ho & Epath). destruct (paths a !! path) eqn:Ep; [done|].
    unfold with_port, drop. rewrite Ed, Ho, Epath. cbn [outcome_bind]. by rewrite Hna, Ep.
  - unfold does_exist_cfg. by destruct (path_for _ _).
  - unfold remove_cfg. by destruct (path_for _ _).
Qed.

Lemma channel_calls_simulated cs : forall n s a, 0 <= n -> n + zlength cs <= 2 ^ 62 -> rel n s a -> Forall call_ok cs ->
  match spec_perform_all a cs with
  | Some (rs, _) => exists s', perform_all s cs = Ret (rs, s')
  | None => perform_all s cs = Panic
  end.
Proof.
  induction cs as [|c cs IH]; intros n s a Hn Hl Hr Hok; cbn [spec_perform_all perform_all]; [by eexists|].
  apply Forall_cons in Hok as [Hc Hok]. rewrite zlength_cons in Hl. pose proof (zlength_nonneg cs).
  destruct (spec_perform a c) as [[r a1]|] eqn:E1; [|by rewrite (channel_call_panics n s a c Hr E1)].
  destruct (channel_call_simulated n s a c r a1) as (s1 & -> & Hr1); [lia|done..|]. cbn [outcome_bind].
  specialize (IH (n + 1) s1 a1 ltac:(lia) ltac:(lia) Hr1 Hok). destruct (spec_perform_all a1 cs) as [[rs1 a2]|]; [|by rewrite IH].
  destruct IH as (s2 & ->). by eexists.
Qed.

Definition no_channels : system := {| shared := {| names := ∅; heap := [] |}; ports := [] |}.
Definition empty_registry : registry := {| paths := ∅; channels := []; users := [] |}.

(** C24: The channels of a process refine a registry of channels.  For every sequence of at
    most 2^62 calls that create receivers of buffers below 2^62, open senders, use and drop ports and remove names,
    each running to its end before the next begins, every call answers what the registry answers: a name has at most
    one channel, values arrive in the order in which they were sent, a full channel refuses a value or hands back the
    oldest one, as its creator chose, and a sender keeps its channel when the receiver has left and the name is used
    again.  The sequence panics exactly when the registry has no answer: a port that does not exist, a name without a
    path, or a receiver that is dropped after its channel was removed. *)
Theorem local_channel_refines cs :
  zlength cs <= 2 ^ 62 -> Forall call_ok cs ->
  match spec_perform_all empty_registry cs with
  | Some (rs, _) => exists s, perform_all no_channels cs = Ret (rs, s)
  | None => perform_all no_channels cs = Panic
  end.
Proof. intros Hl Hok. apply (channel_calls_simulated cs 0 no_channels empty_registry); [lia|lia| |done]. by split; cbn. Qed.

End process_local.

(** ** Concrete calls *)

Definition example_hint : FixedSizeByteString := {| CAPACITY := 4096; ByteString.len := 2; ByteString.data := [47; 116] ++ replicate 4094 0 |}.
Definition example_cfg : NC.NamedConceptConfiguration := {| NC.prefix := [97]; NC.suffix := [46; 99]; NC.path_hint := example_hint |}.
Definition example_creator (overflow : bool) : Creator :=
  {| c_name := [98]; c_enable_safe_overflow := overflow; c_buffer_size := 1; c_config := example_cfg |}.

(** A sender fills the channel and keeps it when its receiver has gone and another channel has the name. *)
Definition example_calls : list call :=
  [OpenSender [98] example_cfg; CreateReceiver (example_creator true); CreateReceiver (example_creator true); OpenSender [98] example_cfg;
   Send 3 10; Send 3 20; Receive 1; Receive 1; Drop 1; CreateReceiver (example_creator false); Send 3 30; Receive 4; OpenSender [98] example_cfg;
   Send 5 40; Send 5 50; Receive 4; BufferSize 4; Remove [98] example_cfg; DoesExist [98] example_cfg].

Definition perform_example := @perform_all dev (replicate 4096 0) 0 no_channels.

Lemma local_channel_refines_witness :
  (exists s, perform_example example_calls =
    Ret ([Opened (Err DoesNotExist); Created (Ok tt); Created (Err AlreadyExists); Opened (Ok tt); Sent (Ok None); Sent (Ok (Some 10));
          Received (Some 20); Received None; Dropped; Created (Ok tt); Sent (Ok None); Received None; Opened (Ok tt); Sent (Ok None);
          Sent (Err ReceiverCacheIsFull); Received (Some 40); Size 1; Answer true; Answer false], s)) /\
  perform_example (example_calls ++ [Drop 4]) = Panic.
Proof.
  pose proof (@local_channel_refines dev (replicate 4096 0) 0 example_calls) as H1.
  pose proof (@local_channel_refines dev (replicate 4096 0) 0 (example_calls ++ [Drop 4])) as H2. split.
  - apply H1; [vm_compute; discriminate|]. repeat constructor; cbn; lia.
  - apply H2; [vm_compute; discriminate|]. repeat constructor; cbn; lia.
Defined.

(** Two senders at once: the second finds the producer taken, and unwraps it. *)
Theorem local_channel_second_sender_panics (w : world) d data m :
  w.(heap) !! d.(management) = Some m -> m.(enable_safe_overflow) = true -> O.is_memory_initialized m.(queue) = true ->
  O.has_producer m.(queue) = false -> try_send (H := dev) d data w = Panic.
Proof. intros Em Eo Ei Ep. unfold try_send. rewrite Em, Eo. cbn. unfold O.acquire_producer, O.verify_init. by rewrite Ei, Ep. Qed.

End LocalChannel.
