(* ===== verification/ShmStorage.v ===== *)
(** * Dynamic storages in shared memory

    [iceoryx2_cal/src/dynamic_storage/posix_shared_memory.rs]: the value is kept in a
    shared memory object behind a word that tells whether it is initialized.  The creator
    maps the object, writes the value, lets the caller initialize it and sets the word;
    whoever opens the storage looks at the word first.

    The operations are programs over the calls of the operating system and accesses to
    mapped memory.  The section on the protocol shows that in every interleaving of any
    number of creators, users and removers, with calls that may fail at any time, a
    storage that was opened is completely initialized. *)

From S2P Require Import Prelude Math Allocator BumpAllocator ByteString SemanticString SystemTypes NamedConcept Posix Processes Files SharedMemory StaticStorage FileStorage DynamicStorage.

Module ShmStorage.
Module NC := NamedConcept.NamedConcept.
Module Shm := SharedMemory.SharedMemory.
Import Posix Processes Files.

(* src/iceoryx2_cal/src/dynamic_storage/posix_shared_memory.rs:57-57 FINAL_PERMISSIONS *)
Definition FINAL_PERMISSIONS : Z := OWNER_ALL.

(* src/iceoryx2_cal/src/dynamic_storage/posix_shared_memory.rs:58-58 IS_INITIALIZED_STATE_VALUE *)
Definition IS_INITIALIZED_STATE_VALUE : Z := 0xbeefaffedeadbeef.

(** The bytes of an integer, the least significant one first. *)
Fixpoint to_le_bytes (n : nat) (v : Z) : list Z :=
  match n with O => [] | S n => v mod 256 :: to_le_bytes n (v / 256) end.

Definition from_le_bytes (l : list Z) : Z := foldr (fun b v => b + 256 * v) 0 l.

(* src/iceoryx2_cal/src/dynamic_storage/posix_shared_memory.rs:62-68 Builder *)
Record Builder := {
  storage_name : list Z; supplementary_size : Z; b_has_ownership : bool; b_config : NC.NamedConceptConfiguration;
}.

(* src/iceoryx2_cal/src/dynamic_storage/posix_shared_memory.rs:268-272 Storage *)
Record Storage := { shm : Shm.SharedMemory; name : list Z }.

Section operations.
Context `{Profile} (fuel : nat) (memory file_memory : list Z) (signals : bool) (size_T align_T : Z).
Implicit Types (b : Builder) (s : Storage) (cfg : NC.NamedConceptConfiguration).

(** The layout of [Data<T>], a [repr(C)] struct of the state and the value. *)
Definition round_up (n a : Z) : Z := (n + a - 1) / a * a.

(* src/iceoryx2_cal/src/dynamic_storage/posix_shared_memory.rs:78-81 Data *)
Definition data_offset : Z := round_up 8 align_T.
Definition data_size : Z := round_up (data_offset + size_T) (Z.max 8 align_T).

Definition full_name cfg (n : list Z) : outcome (list Z) :=
  let! p := NC.path_for cfg memory n in
  let! f := B.new_unchecked FILENAME_LENGTH file_memory (file_name (as_bytes p)) in
  Ret (as_bytes f).

Definition shm_config (full : list Z) (n : Z) (owns : bool) : Shm.SharedMemoryBuilder :=
  {| Shm.c_name := full; Shm.c_size := n; Shm.c_is_memory_locked := false; Shm.c_has_ownership := owns;
     Shm.c_permission := FINAL_PERMISSIONS; Shm.c_creation_mode := Some CreateExclusive; Shm.c_zero_memory := false;
     Shm.c_access_mode := AccessReadWrite; Shm.c_enforce_base_address := None |}.

(** [initializer] gets the mapping, the address of the value in it and an allocator of the
    memory behind the value. *)
(* src/iceoryx2_cal/src/dynamic_storage/posix_shared_memory.rs:150-206 create_and_initialize *)
Definition create_and_initialize b (initial_value : list Z) (initializer : Z -> Z -> BumpAllocator -> prog bool)
    : prog (Result Storage DynamicStorageCreateError) :=
  let? full := lift (full_name b.(b_config) b.(storage_name)) in
  let? n := lift (data_size +u64 b.(supplementary_size)) in
  let? r := Shm.create fuel memory signals (shm_config full n b.(b_has_ownership)) in
  match r with
  | Err Shm.AlreadyExist => Done (Err DynamicAlreadyExists)
  | Err _ => Done (Err DynamicCreation)
  | Ok shm =>
      let value := shm.(Shm.base_address) in
      let? _ := Shm.or_fault (Shm.store_bytes value (value + data_offset) initial_value) in
      let? supplementary_start := lift (value +u64 data_size) in
      let? supplementary_len := lift (shm.(Shm.size) -u64 data_size) in
      let? initialized := initializer value (value + data_offset) (Bump.new supplementary_start supplementary_len) in
      if negb initialized then
        let? _ := Shm.drop_shm fuel memory shm in Done (Err DynamicInitializationFailed)
      else
        let? _ := Shm.or_fault (syscall (Store value value (to_le_bytes 8 IS_INITIALIZED_STATE_VALUE))) in
        Done (Ok {| shm := shm; name := b.(storage_name) |})
  end.

(* src/iceoryx2_cal/src/dynamic_storage/posix_shared_memory.rs:223-262 try_open *)
Definition try_open b : prog (Result Storage DynamicStorageOpenError) :=
  let? full := lift (full_name b.(b_config) b.(storage_name)) in
  let? r := Shm.open_existing fuel memory (Shm.shm_builder_new full) AccessReadWrite in
  match r with
  | Err Shm.ShmDoesNotExist => Done (Err DynamicDoesNotExist)
  | Err Shm.ShmInsufficientPermissions => Done (Err InitializationNotYetFinalized)
  | Err _ => Done (Err DynamicOpen)
  | Ok shm =>
      let? required_size := lift (data_size +u64 b.(supplementary_size)) in
      if shm.(Shm.size) <? required_size then
        let? _ := Shm.drop_shm fuel memory shm in Done (Err DynamicOpenInternalError)
      else
        let init_state := shm.(Shm.base_address) in
        let? state := Shm.or_fault (syscall (Load init_state init_state 8)) in
        if negb (from_le_bytes state =? IS_INITIALIZED_STATE_VALUE) then
          let? _ := Shm.drop_shm fuel memory shm in Done (Err InitializationNotYetFinalized)
        else Done (Ok {| shm := shm; name := b.(storage_name) |})
  end.

(** The error is only logged on its way. *)
(* src/iceoryx2_cal/src/dynamic_storage/posix_shared_memory.rs:208-221 open *)
Definition open b : prog (Result Storage DynamicStorageOpenError) := try_open b.

(* src/iceoryx2_cal/src/dynamic_storage/posix_shared_memory.rs:283-292 does_exist_cfg *)
Definition does_exist_cfg (n : list Z) cfg : prog (Result bool NamedConceptDoesExistError) :=
  let? full := lift (full_name cfg n) in
  let? r := Shm.shm_does_exist fuel memory full in Done (Ok r).

(* src/iceoryx2_cal/src/dynamic_storage/posix_shared_memory.rs:299-304 list_cfg *)
Fixpoint list_entries cfg (entries : list FixedSizeByteString) : outcome (list (list Z)) :=
  match entries with
  | [] => Ret []
  | entry :: entries =>
      let! n := NC.extract_name_from_file cfg entry in
      let! l := list_entries cfg entries in
      Ret (match n with Some n => as_bytes n :: l | None => l end)
  end.

(* src/iceoryx2_cal/src/dynamic_storage/posix_shared_memory.rs:294-307 list_cfg *)
Definition list_cfg cfg : prog (Result (list (list Z)) NamedConceptListError) :=
  let? entries := Shm.shm_list file_memory in
  let? l := lift (list_entries cfg entries) in Done (Ok l).

(* src/iceoryx2_cal/src/dynamic_storage/posix_shared_memory.rs:309-330 remove_cfg *)
Definition remove_cfg (n : list Z) cfg : prog (Result bool NamedConceptRemoveError) :=
  let? full := lift (full_name cfg n) in
  let? r := Shm.shm_remove memory full in
  Done match r with
       | Ok v => Ok v
       | Err Shm.ShmRemoveInsufficientPermissions => Err RemoveInsufficientPermissions
       | Err _ => Err RemoveInternalError
       end.

(* src/iceoryx2_cal/src/dynamic_storage/posix_shared_memory.rs:340-342 acquire_ownership *)
Definition acquire_ownership s : Storage := {| shm := Shm.acquire_ownership s.(shm); name := s.(name) |}.

(* src/iceoryx2_cal/src/dynamic_storage/posix_shared_memory.rs:352-354 release_ownership *)
Definition release_ownership s : Storage := {| shm := Shm.release_ownership s.(shm); name := s.(name) |}.

(** The address of the value. *)
(* src/iceoryx2_cal/src/dynamic_storage/posix_shared_memory.rs:344-346 get *)
Definition get s : Z := s.(shm).(Shm.base_address) + data_offset.

(** What a user reads through the reference. *)
Definition read_value s : prog (list Z) :=
  Shm.or_fault (Shm.load_bytes s.(shm).(Shm.base_address) (get s) (Z.to_nat size_T)).

Definition drop_storage s : prog unit := Shm.drop_shm fuel memory s.(shm).

End operations.

(** ** The protocol of a participant

    What a participant knows about its descriptors and mappings, the calls it may perform
    with this knowledge, and what it learns from an answer.  Only the creator of an object
    writes to it, and only until it has set the state; what is initialized does not change
    any more. *)

Definition magic : list Z := to_le_bytes 8 IS_INITIALIZED_STATE_VALUE.

Definition initialized (l : list Z) : bool := from_le_bytes (take 8 l) =? IS_INITIALIZED_STATE_VALUE.

(** Memory that shows the first [extent] bytes of the node [inode]; [payload] is what
    follows the state of an object that is known to be initialized. *)
Record window := { inode : nat; length_ : Z; payload : option (list Z) }.

(** [fds]: the node of a descriptor and a number of bytes it has; [own]: an object that
    the participant is initializing, and its content; [seen]: the initialized objects. *)
Record role := {
  fds : gmap Z (nat * Z); maps : gmap Z window; own : option (nat * list Z); seen : list (list Z);
}.

Definition set_fds (r : role) m : role := {| fds := m; maps := r.(maps); own := r.(own); seen := r.(seen) |}.
Definition set_maps (r : role) m : role := {| fds := r.(fds); maps := m; own := r.(own); seen := r.(seen) |}.
Definition set_own (r : role) o : role := {| fds := r.(fds); maps := r.(maps); own := o; seen := r.(seen) |}.
Definition set_seen (r : role) l : role := {| fds := r.(fds); maps := r.(maps); own := r.(own); seen := l |}.

Definition reveal (v : window) (c : list Z) : window := {| inode := v.(inode); length_ := v.(length_); payload := Some c |}.

Definition inside (v : window) (base address nbyte : Z) : Prop :=
  0 <= nbyte /\ base <= address /\ address + nbyte <= base + v.(length_).

(** [mine]: what may follow the state of an object that the participant initializes. *)
Definition may (mine : list Z -> Prop) (r : role) (q : request) : Prop :=
  match q with
  | ShmOpen _ flags _ => O_CREAT ∉ flags \/ O_EXCL ∈ flags
  | ShmUnlink _ => True
  | FcntlGetfd fd | Fstat fd | Close fd => is_Some (r.(fds) !! fd)
  | Ftruncate fd n => exists i b, r.(fds) !! fd = Some (i, b) /\ r.(own) = Some (i, [])
  | Mmap len prot fd => exists i b, r.(fds) !! fd = Some (i, b) /\ len <= b /\ prot = [PROT_READ; PROT_WRITE]
  | Munmap base len => exists v, r.(maps) !! base = Some v /\ v.(length_) = len
  | Load base address nbyte => exists v, r.(maps) !! base = Some v /\ inside v base address nbyte
  | Store base address buf => exists v d, r.(maps) !! base = Some v /\ inside v base address (zlength buf) /\
      r.(own) = Some (v.(inode), d) /\
      (base + 8 <= address \/ address = base /\ buf = magic /\ mine (drop 8 d))
  | _ => False
  end.

(** What the participant knows after a call that succeeded. *)
Definition learns (r : role) (q : request) : answer q -> role -> Prop :=
  match q return answer q -> role -> Prop with
  | ShmOpen _ flags _ => fun fd r' => 0 <= fd /\ r.(fds) !! fd = None /\ exists i,
      let r1 := set_fds r (<[fd := (i, 0)]> r.(fds)) in
      r' = if bool_decide (O_EXCL ∈ flags) then set_own r1 (Some (i, [])) else r1
  | Fstat fd => fun st r' => exists i b, r.(fds) !! fd = Some (i, b) /\ 0 <= st.(st_size) /\
      (forall d, r.(own) = Some (i, d) -> st.(st_size) = zlength d) /\
      r' = set_fds r (<[fd := (i, st.(st_size))]> r.(fds))
  | Ftruncate fd n => fun _ r' => exists i b, r.(fds) !! fd = Some (i, b) /\ 0 <= n /\
      r' = set_own (set_fds r (<[fd := (i, n)]> r.(fds))) (Some (i, replicate (Z.to_nat n) 0))
  | Mmap len prot fd => fun base r' => exists i b, r.(fds) !! fd = Some (i, b) /\ 0 < len /\ 0 < base /\ base + len < 2 ^ 64 /\
      r.(maps) !! base = None /\ r' = set_maps r (<[base := {| inode := i; length_ := len; payload := None |}]> r.(maps))
  | Munmap base _ => fun _ r' => r' = set_maps r (delete base r.(maps))
  | Load base address nbyte => fun l r' => exists v, r.(maps) !! base = Some v /\ zlength l = nbyte /\
      (forall c, v.(payload) = Some c -> l = take (Z.to_nat nbyte) (drop (Z.to_nat (address - base)) (magic ++ c))) /\
      (forall d, r.(own) = Some (v.(inode), d) -> l = take (Z.to_nat nbyte) (drop (Z.to_nat (address - base)) d)) /\
      if bool_decide (address = base /\ nbyte = 8) && (from_le_bytes l =? IS_INITIALIZED_STATE_VALUE) then
        exists c, v.(length_) <= zlength (magic ++ c) /\
          r' = set_seen (set_maps r (<[base := reveal v c]> r.(maps))) (c :: r.(seen))
      else r' = r
  | Store base address buf => fun _ r' => exists v d, r.(maps) !! base = Some v /\ r.(own) = Some (v.(inode), d) /\
      r' = if bool_decide (address = base)
           then set_own (set_maps r (<[base := reveal v (drop 8 d)]> r.(maps))) None
           else set_own r (Some (v.(inode), splice d (address - base) buf))
  | Close fd => fun _ r' => r' = set_fds r (delete fd r.(fds))
  | _ => fun _ r' => r' = r
  end.

Definition next (r : role) (q : request) (a : Result (answer q) Errno) (r' : role) : Prop :=
  match a with
  | Ok a => learns r q a r'
  | Err e => r' = r /\
      match q with
      | FcntlGetfd _ | Munmap _ _ | Load _ _ _ | Store _ _ _ => False
      | Close _ => e = EINTR \/ e = EIO
      | _ => True
      end
  end.

(** ** The invariant *)

Section invariant.
Context (umask : nat -> Z) (promised : list Z -> Prop).
Implicit Types (k : kernel) (r : role) (rs : list role) (G : gmap nat (list Z)) (v : window).

(** The node [i] has at least [b] bytes. *)
Definition long k (i : nat) (b : Z) : Prop := exists n, k.(nodes) !! i = Some n /\ b <= zlength n.(data).

Definition fd_ok k (x : nat * Z) (kn : nat * Z) : Prop :=
  exists d, k.(descriptors) !! x = Some d /\ d.(target) = kn.1 /\ long k kn.1 kn.2.

Definition map_ok k G (x : nat * Z) v : Prop :=
  k.(mappings) !! x = Some {| source := v.(inode); extent := v.(length_); loadable := true; storable := true |} /\
  long k v.(inode) v.(length_) /\ forall c, v.(payload) = Some c -> G !! v.(inode) = Some c.

Definition own_ok k G (o : nat * list Z) : Prop :=
  G !! o.1 = None /\ exists n, k.(nodes) !! o.1 = Some n /\ n.(data) = o.2.

Record role_ok k G (j : nat) r : Prop := {
  ok_fds fd kn : r.(fds) !! fd = Some kn -> fd_ok k (j, fd) kn;
  ok_maps base v : r.(maps) !! base = Some v -> map_ok k G (j, base) v;
  ok_own o : r.(own) = Some o -> own_ok k G o;
  ok_seen c : c ∈ r.(seen) -> promised c;
}.

(** [G]: the payload of the initialized objects. *)
Record inv k G rs : Prop := {
  inv_wf : wf k;
  inv_initialized i n : k.(nodes) !! i = Some n -> initialized n.(data) = true -> is_Some (G !! i);
  inv_payload i c : G !! i = Some c -> promised c /\ exists n, k.(nodes) !! i = Some n /\ n.(data) = magic ++ c;
  inv_roles j r : rs !! j = Some r -> role_ok k G j r;
  inv_owners j1 j2 r1 r2 i d1 d2 : rs !! j1 = Some r1 -> rs !! j2 = Some r2 ->
    r1.(own) = Some (i, d1) -> r2.(own) = Some (i, d2) -> j1 = j2;
}.

Lemma long_mono k k' i b : long k i b ->
  (forall n, k.(nodes) !! i = Some n -> exists n', k'.(nodes) !! i = Some n' /\ zlength n.(data) <= zlength n'.(data)) -> long k' i b.
Proof. intros (n & Hn & Hb) Hgrow. destruct (Hgrow n Hn) as (n' & Hn' & Hle). exists n'. split; [done|lia]. Qed.

(** What other participants know survives a step. *)
Lemma role_frame k k' G G' j r : role_ok k G j r ->
  (forall i n, k.(nodes) !! i = Some n -> exists n', k'.(nodes) !! i = Some n' /\ zlength n.(data) <= zlength n'.(data)) ->
  (forall fd, k'.(descriptors) !! (j, fd) = k.(descriptors) !! (j, fd)) ->
  (forall base, k'.(mappings) !! (j, base) = k.(mappings) !! (j, base)) ->
  (forall i c, G !! i = Some c -> G' !! i = Some c) ->
  (forall o, r.(own) = Some o -> own_ok k' G' o) -> role_ok k' G' j r.
Proof.
  intros [Hfds Hmaps Hown Hseen] Hgrow Hd Hm HG Ho. split; try done.
  - intros fd kn Hf. destruct (Hfds fd kn Hf) as (d & E & Et & Hl). exists d. rewrite Hd. split; [done|]. split; [done|].
    eapply long_mono; [done|]. apply Hgrow.
  - intros base v Hb. destruct (Hmaps base v Hb) as (E & Hl & Hc). split; [by rewrite Hm|].
    split; [eapply long_mono; [done|]; apply Hgrow|]. eauto.
Qed.

Lemma objects_update k G rs j r k' G' r' : inv k G rs -> rs !! j = Some r -> wf k' ->
  (forall i n, k.(nodes) !! i = Some n -> exists n', k'.(nodes) !! i = Some n' /\ zlength n.(data) <= zlength n'.(data)) ->
  (forall x, x.1 <> j -> k'.(descriptors) !! x = k.(descriptors) !! x) ->
  (forall x, x.1 <> j -> k'.(mappings) !! x = k.(mappings) !! x) ->
  (forall i c, G !! i = Some c -> G' !! i = Some c) ->
  (forall j0 r0 o, j0 <> j -> rs !! j0 = Some r0 -> r0.(own) = Some o -> own_ok k' G' o) ->
  (forall i n, k'.(nodes) !! i = Some n -> initialized n.(data) = true -> is_Some (G' !! i)) ->
  (forall i c, G' !! i = Some c -> promised c /\ exists n, k'.(nodes) !! i = Some n /\ n.(data) = magic ++ c) ->
  role_ok k' G' j r' ->
  (forall j0 r0 i d d0, j0 <> j -> rs !! j0 = Some r0 -> r'.(own) = Some (i, d) -> r0.(own) = Some (i, d0) -> False) ->
  inv k' G' (<[j := r']> rs).
Proof.
  intros Hinv Hj Hwf Hgrow Hd Hm HG Ho Hini Hpay Hrole Hcross. split; try done.
  - intros j0 r0 [(-> & -> & _)|[Hne H0]]%list_lookup_insert_Some; [done|].
    eapply role_frame; [by eapply inv_roles|done|intros; by apply Hd|intros; by apply Hm|done|eauto].
  - intros j1 j2 r1 r2 i d1 d2 H1 H2 Ho1 Ho2.
    apply list_lookup_insert_Some in H1 as [(-> & -> & _)|[Hne1 H1]], H2 as [(<- & <- & _)|[Hne2 H2]]; [done| | |].
    + exfalso. by eapply (Hcross j2 r2).
    + exfalso. by eapply (Hcross j1 r1).
    + by eapply (inv_owners _ _ _ Hinv j1 j2).
Qed.

(** Steps that do not change a node. *)
Lemma objects_local k G rs j r k' r' : inv k G rs -> rs !! j = Some r -> wf k' -> k'.(nodes) = k.(nodes) ->
  (forall x, x.1 <> j -> k'.(descriptors) !! x = k.(descriptors) !! x) ->
  (forall x, x.1 <> j -> k'.(mappings) !! x = k.(mappings) !! x) ->
  (forall fd kn, r'.(fds) !! fd = Some kn -> fd_ok k' (j, fd) kn) ->
  (forall base v, r'.(maps) !! base = Some v -> map_ok k' G (j, base) v) ->
  r'.(own) = r.(own) -> (forall c, c ∈ r'.(seen) -> promised c) -> inv k' G (<[j := r']> rs).
Proof.
  intros Hinv Hj Hwf En Hd Hm Hfds Hmaps Ho Hseen.
  assert (Hown : forall j0 r0 o, rs !! j0 = Some r0 -> r0.(own) = Some o -> own_ok k' G o).
  { intros j0 r0 o H0 E. unfold own_ok. rewrite En. by eapply ok_own; [eapply inv_roles|]. }
  eapply objects_update; try done.
  - intros i n Hn. rewrite En. by exists n.
  - eauto.
  - rewrite En. apply (inv_initialized _ _ _ Hinv).
  - rewrite En. apply (inv_payload _ _ _ Hinv).
  - split; try done. rewrite Ho. eauto.
  - intros j0 r0 i d d0 Hne H0 E E0. rewrite Ho in E. apply Hne. by eapply (inv_owners _ _ _ Hinv j0 j).
Qed.

Lemma descriptor_frame k k' x kn : fd_ok k x kn -> k'.(nodes) = k.(nodes) -> k'.(descriptors) !! x = k.(descriptors) !! x -> fd_ok k' x kn.
Proof. intros (d & Hd & Ht & Hl) En Ed. exists d. rewrite Ed. unfold long. by rewrite En. Qed.

Lemma map_frame k k' G x v : map_ok k G x v -> k'.(nodes) = k.(nodes) -> k'.(mappings) !! x = k.(mappings) !! x -> map_ok k' G x v.
Proof. intros (Hm & Hl & Hc) En Em. split; [by rewrite Em|]. unfold long. by rewrite En. Qed.

(** Steps after which the participant knows the same. *)
Lemma objects_same k G rs j r k' : inv k G rs -> rs !! j = Some r -> wf k' -> k'.(nodes) = k.(nodes) ->
  k'.(descriptors) = k.(descriptors) -> k'.(mappings) = k.(mappings) -> inv k' G (<[j := r]> rs).
Proof.
  intros Hinv Hj Hwf En Ed Em. pose proof (inv_roles _ _ _ Hinv j r Hj) as Hr. eapply objects_local; try done.
  - by rewrite Ed.
  - by rewrite Em.
  - intros fd kn Hf. eapply descriptor_frame; [by eapply ok_fds|done|by rewrite Ed].
  - intros base v Hb. eapply map_frame; [by eapply ok_maps|done|by rewrite Em].
  - apply (ok_seen _ _ _ _ Hr).
Qed.

(** Steps on the descriptors of the participant. *)
Lemma objects_fds k G rs j r k' m : inv k G rs -> rs !! j = Some r -> wf k' -> k'.(nodes) = k.(nodes) -> k'.(mappings) = k.(mappings) ->
  (forall x, x.1 <> j -> k'.(descriptors) !! x = k.(descriptors) !! x) ->
  (forall fd kn, m !! fd = Some kn -> fd_ok k' (j, fd) kn) -> inv k' G (<[j := set_fds r m]> rs).
Proof.
  intros Hinv Hj Hwf En Em Ed Hm. pose proof (inv_roles _ _ _ Hinv j r Hj) as Hr. eapply objects_local; try done.
  - by rewrite Em.
  - intros base v Hb. eapply map_frame; [by eapply ok_maps|done|by rewrite Em].
  - apply (ok_seen _ _ _ _ Hr).
Qed.

(** Steps on the mappings of the participant. *)
Lemma objects_maps k G rs j r k' m sn : inv k G rs -> rs !! j = Some r -> wf k' -> k'.(nodes) = k.(nodes) -> k'.(descriptors) = k.(descriptors) ->
  (forall x, x.1 <> j -> k'.(mappings) !! x = k.(mappings) !! x) ->
  (forall base v, m !! base = Some v -> map_ok k' G (j, base) v) -> (forall c, c ∈ sn -> promised c) ->
  inv k' G (<[j := set_seen (set_maps r m) sn]> rs).
Proof.
  intros Hinv Hj Hwf En Ed Em Hm Hsn. pose proof (inv_roles _ _ _ Hinv j r Hj) as Hr. eapply objects_local; try done.
  - by rewrite Ed.
  - intros fd kn Hf. eapply descriptor_frame; [by eapply ok_fds|done|by rewrite Ed].
Qed.

(** Steps that create a node or change the object that the participant initializes. *)
Lemma objects_node k G rs j r k' i n' G' r' : inv k G rs -> rs !! j = Some r -> wf k' -> k'.(nodes) = <[i := n']> k.(nodes) ->
  (k.(nodes) !! i = None \/ exists d, r.(own) = Some (i, d) /\ zlength d <= zlength n'.(data)) ->
  (forall x, x.1 <> j -> k'.(descriptors) !! x = k.(descriptors) !! x) ->
  (forall x, x.1 <> j -> k'.(mappings) !! x = k.(mappings) !! x) ->
  (G' = G /\ initialized n'.(data) = false /\ r'.(own) = Some (i, n'.(data)) \/
   exists c, promised c /\ n'.(data) = magic ++ c /\ G' = <[i := c]> G /\ r'.(own) = None) ->
  (forall fd kn, r'.(fds) !! fd = Some kn -> fd_ok k' (j, fd) kn) ->
  (forall base v, r'.(maps) !! base = Some v -> map_ok k' G' (j, base) v) ->
  (forall c, c ∈ r'.(seen) -> promised c) -> inv k' G' (<[j := r']> rs).
Proof.
  intros Hinv Hj Hwf En Hi Hd Hm Hcase Hfds Hmaps Hseen. pose proof (inv_roles _ _ _ Hinv) as Hroles.
  assert (Hfree : forall j0 r0 d, j0 <> j -> rs !! j0 = Some r0 -> r0.(own) = Some (i, d) -> False).
  { intros j0 r0 d Hne H0 E0. destruct Hi as [Hi|(d' & E & _)].
    - destruct (ok_own _ _ _ _ (Hroles j0 r0 H0) _ E0) as (_ & n & Hn & _). cbn in Hn. congruence.
    - apply Hne. by eapply (inv_owners _ _ _ Hinv j0 j). }
  assert (HGi : G !! i = None).
  { destruct Hi as [Hi|(d & E & _)]; [|by apply (ok_own _ _ _ _ (Hroles j r Hj) _ E)].
    destruct (G !! i) as [c|] eqn:E; [|done]. destruct (inv_payload _ _ _ Hinv i c E) as (_ & n & Hn & _). congruence. }
  assert (HG : forall i0, i0 <> i -> G' !! i0 = G !! i0).
  { intros i0 Hne. destruct Hcase as [(-> & _)|(c & _ & _ & -> & _)]; [done|]. by apply lookup_insert_ne. }
  assert (Hold : forall i0 n, i0 <> i -> k'.(nodes) !! i0 = Some n <-> k.(nodes) !! i0 = Some n).
  { intros i0 n Hne. rewrite En, lookup_insert_ne by done. done. }
  assert (Hnew : k'.(nodes) !! i = Some n') by (rewrite En; apply lookup_insert_eq).
  eapply objects_update; try done.
  - intros i0 n Hn. destruct (decide (i0 = i)) as [->|Hne]; [|exists n; by rewrite Hold]. exists n'. split; [done|].
    destruct Hi as [Hi|(d & E & Hle)]; [congruence|]. destruct (ok_own _ _ _ _ (Hroles j r Hj) _ E) as (_ & n0 & Hn0 & Ed).
    cbn in Hn0, Ed. assert (n0 = n) as -> by congruence. by rewrite Ed.
  - intros i0 c Hc. rewrite HG; [done|]. intros ->. congruence.
  - intros j0 r0 [i0 d0] Hne H0 E0. assert (i0 <> i) by (intros ->; by eapply Hfree).
    destruct (ok_own _ _ _ _ (Hroles j0 r0 H0) _ E0) as (Hg & n & Hn & Ed). split; cbn in *; [by rewrite HG|].
    exists n. by rewrite Hold.
  - intros i0 n Hn Hini. destruct (decide (i0 = i)) as [->|Hne].
    + assert (n = n') as -> by congruence. destruct Hcase as [(_ & Hno & _)|(c & _ & _ & -> & _)]; [congruence|]. rewrite lookup_insert_eq. eauto.
    + rewrite HG by done. apply Hold in Hn; [|done]. by eapply inv_initialized.
  - intros i0 c Hc. destruct (decide (i0 = i)) as [->|Hne].
    + destruct Hcase as [(-> & _)|(c' & Hp & Ed & -> & _)]; [congruence|]. rewrite lookup_insert_eq in Hc. injection Hc as <-.
      split; [done|]. by exists n'.
    + rewrite HG in Hc by done. destruct (inv_payload _ _ _ Hinv i0 c Hc) as (Hp & n & Hn & Ed). split; [done|].
      exists n. by rewrite Hold.
  - split; [done..| |done]. intros o Ho. destruct Hcase as [(-> & _ & E)|(c & _ & _ & _ & E)]; [|congruence].
    rewrite E in Ho. injection Ho as <-. split; [done|]. by exists n'.
  - intros j0 r0 i0 d d0 Hne H0 Ho E0. destruct Hcase as [(-> & _ & E)|(c & _ & _ & _ & E)]; [|congruence].
    rewrite E in Ho. injection Ho as <- <-. by eapply Hfree.
Qed.

Lemma unused_unknown_fd k G rs j r fd : inv k G rs -> rs !! j = Some r -> unused j k fd -> r.(fds) !! fd = None.
Proof.
  intros Hinv Hj [_ Hu]. destruct (r.(fds) !! fd) as [kn|] eqn:E; [|done].
  destruct (ok_fds _ _ _ _ (inv_roles _ _ _ Hinv j r Hj) fd kn E) as (d & Hd & _). congruence.
Qed.

(** What the answers of the system mean for the participant and the invariant. *)
Lemma shm_open_sound k G rs j r fd i flags : inv k G rs -> rs !! j = Some r -> is_Some (k.(nodes) !! i) -> unused j k fd ->
  wf (open_descriptor j k fd i flags) -> inv (open_descriptor j k fd i flags) G (<[j := set_fds r (<[fd := (i, 0)]> r.(fds))]> rs).
Proof.
  intros Hinv Hj [n Hn] Hu Hwf. eapply objects_fds; try done.
  - intros x Hx. apply lookup_insert_ne. by intros <-.
  - intros fd0 kn [[<- <-]|[Hne Hf]]%lookup_insert_Some.
    + eexists. split; [apply lookup_insert_eq|]. split; [done|]. exists n. split; [done|]. apply zlength_nonneg.
    + eapply descriptor_frame; [by eapply ok_fds; [eapply inv_roles|]|done|]. apply lookup_insert_ne. congruence.
Qed.

Lemma shm_create_sound k G rs j r fd p i flags m k1 : inv k G rs -> rs !! j = Some r -> k.(nodes) !! i = None -> unused j k fd ->
  create_object k p i m k1 -> wf (open_descriptor j k1 fd i flags) ->
  inv (open_descriptor j k1 fd i flags) G (<[j := set_own (set_fds r (<[fd := (i, 0)]> r.(fds))) (Some (i, []))]> rs).
Proof.
  intros Hinv Hj Hi Hu (n & [Em Ed] & ->) Hwf. pose proof (inv_roles _ _ _ Hinv j r Hj) as Hr.
  assert (Hlong : forall i0 b, long k i0 b -> long (open_descriptor j (set_objects (set_node k i n) (<[p := i]> k.(objects))) fd i flags) i0 b).
  { intros i0 b Hl. eapply long_mono; [done|]. intros n0 Hn0. exists n0. cbn. rewrite lookup_insert_ne by congruence. done. }
  eapply objects_node with (i := i) (n' := n); try done; cbn [set_own set_fds fds own maps seen].
  - by left.
  - intros x Hx. apply lookup_insert_ne. by intros <-.
  - left. cbn. by rewrite Ed.
  - intros fd0 kn [[<- <-]|[Hne Hf]]%lookup_insert_Some.
    + eexists. split; [apply lookup_insert_eq|]. split; [done|]. exists n. split; [apply lookup_insert_eq|]. apply zlength_nonneg.
    + destruct (ok_fds _ _ _ _ Hr fd0 kn Hf) as (d & Hd & Ht & Hl). exists d. split; [|by auto]. cbn. rewrite lookup_insert_ne by congruence. done.
  - intros base v Hb. destruct (ok_maps _ _ _ _ Hr base v Hb) as (Hm & Hl & Hc). split; [done|]. by auto.
  - apply (ok_seen _ _ _ _ Hr).
Qed.

Lemma shm_stat_sound k G rs j r fd d n : inv k G rs -> rs !! j = Some r -> is_Some (r.(fds) !! fd) ->
  k.(descriptors) !! (j, fd) = Some d -> k.(nodes) !! d.(target) = Some n ->
  exists r', learns r (Fstat fd) (attributes n) r' /\ inv k G (<[j := r']> rs).
Proof.
  intros Hinv Hj [[i b] Hf] Hd Hn. pose proof (inv_roles _ _ _ Hinv j r Hj) as Hr.
  destruct (ok_fds _ _ _ _ Hr fd _ Hf) as (d' & Hd' & Ht & Hl). assert (d' = d) as -> by congruence. cbn in Ht, Hl. subst i.
  eexists. split.
  - exists d.(target), b. split; [done|]. split; [apply zlength_nonneg|]. split; [|done]. intros x Ho.
    destruct (ok_own _ _ _ _ Hr _ Ho) as (_ & n' & Hn' & Ed). cbn in Hn', Ed |- *. congruence.
  - eapply objects_fds; try done; [apply Hinv|]. intros fd0 kn [[<- <-]|[Hne Hf0]]%lookup_insert_Some; [|by eapply ok_fds].
    exists d. split; [done|]. split; [done|]. exists n. cbn. split; [done|lia].
Qed.

Lemma initialized_zeros n : initialized (replicate n 0) = false.
Proof. unfold initialized. rewrite take_replicate. by do 9 (destruct n as [|n]; [done|]). Qed.

Lemma shm_truncate_sound k G rs j r fd i b d n m : inv k G rs -> rs !! j = Some r -> r.(fds) !! fd = Some (i, b) -> r.(own) = Some (i, []) ->
  k.(descriptors) !! (j, fd) = Some d -> k.(nodes) !! d.(target) = Some n -> 0 <= m ->
  let k' := set_node k d.(target) (set_data n (resize n.(data) m)) in wf k' ->
  inv k' G (<[j := set_own (set_fds r (<[fd := (i, m)]> r.(fds))) (Some (i, replicate (Z.to_nat m) 0))]> rs).
Proof.
  intros Hinv Hj Hf Ho Hd Hn Hm k' Hwf. pose proof (inv_roles _ _ _ Hinv j r Hj) as Hr.
  destruct (ok_fds _ _ _ _ Hr fd _ Hf) as (d' & Hd' & Ht & _). assert (d' = d) as -> by congruence. cbn in Ht. subst i.
  destruct (ok_own _ _ _ _ Hr _ Ho) as (_ & n' & Hn' & Ed). cbn in Hn', Ed. assert (n' = n) as -> by congruence.
  assert (Er : resize n.(data) m = replicate (Z.to_nat m) 0).
  { rewrite Ed. unfold resize. cbn. by rewrite take_nil, Nat.sub_0_r. }
  assert (Hlong : forall i0 b0, long k i0 b0 -> long k' i0 b0).
  { intros i0 b0 Hl. eapply long_mono; [done|]. intros n0 Hn0. cbn. destruct (decide (d.(target) = i0)) as [<-|Hne].
    - rewrite lookup_insert_eq. eexists. split; [done|]. assert (n0 = n) as -> by congruence. rewrite Ed. apply zlength_nonneg.
    - rewrite lookup_insert_ne by done. by exists n0. }
  eapply objects_node with (i := d.(target)); try done; cbn [set_own set_fds fds own maps seen].
  - right. exists []. split; [done|]. apply zlength_nonneg.
  - left. cbn. rewrite Er. split; [done|]. split; [apply initialized_zeros|done].
  - intros fd0 kn [[<- <-]|[Hne Hf0]]%lookup_insert_Some.
    + exists d. split; [done|]. split; [done|]. eexists. split; [apply lookup_insert_eq|]. cbn. rewrite Er. unfold zlength. rewrite length_replicate. lia.
    + destruct (ok_fds _ _ _ _ Hr fd0 kn Hf0) as (d0 & Hd0 & Ht0 & Hl). exists d0. by auto.
  - intros base v Hb. destruct (ok_maps _ _ _ _ Hr base v Hb) as (Hm0 & Hl & Hc). split; [done|]. by auto.
  - apply (ok_seen _ _ _ _ Hr).
Qed.

Lemma shm_close_sound k G rs j r fd : inv k G rs -> rs !! j = Some r -> wf (set_descriptors k (delete (j, fd) k.(descriptors))) ->
  inv (set_descriptors k (delete (j, fd) k.(descriptors))) G (<[j := set_fds r (delete fd r.(fds))]> rs).
Proof.
  intros Hinv Hj Hwf. pose proof (inv_roles _ _ _ Hinv j r Hj) as Hr. eapply objects_fds; try done.
  - intros x Hx. apply lookup_delete_ne. by intros <-.
  - intros fd0 kn [Hne Hf]%lookup_delete_Some. eapply descriptor_frame; [by eapply ok_fds|done|]. apply lookup_delete_ne. congruence.
Qed.

Lemma window_access k G j base v address nbyte allowed : map_ok k G (j, base) v -> inside v base address nbyte ->
  allowed {| source := v.(inode); extent := v.(length_); loadable := true; storable := true |} = true ->
  exists n, k.(nodes) !! v.(inode) = Some n /\ v.(length_) <= zlength n.(data) /\
    accessed j k base address nbyte allowed = Some (v.(inode), n).
Proof.
  intros (Hm & (n & Hn & Hl) & _) (H0 & H1 & H2) Ha. exists n. split; [done|]. split; [done|]. unfold accessed. rewrite Hm. cbn. rewrite Hn. cbn.
  rewrite Ha, (proj2 (Z.leb_le _ _) H0), (proj2 (Z.leb_le _ _) H1). cbn. rewrite (proj2 (Z.leb_le _ _)) by lia. done.
Qed.

Lemma shm_mmap_sound k G rs j r fd i b d len base : inv k G rs -> rs !! j = Some r -> r.(fds) !! fd = Some (i, b) -> len <= b ->
  k.(descriptors) !! (j, fd) = Some d -> k.(mappings) !! (j, base) = None ->
  let k' := set_mappings k (<[(j, base) := mapped d.(target) len [PROT_READ; PROT_WRITE]]> k.(mappings)) in wf k' ->
  r.(maps) !! base = None /\
  inv k' G (<[j := set_maps r (<[base := {| inode := i; length_ := len; payload := None |}]> r.(maps))]> rs).
Proof.
  intros Hinv Hj Hf Hlen Hd Hb k' Hwf. pose proof (inv_roles _ _ _ Hinv j r Hj) as Hr.
  destruct (ok_fds _ _ _ _ Hr fd _ Hf) as (d' & Hd' & Ht & n & Hn & Hl). assert (d' = d) as -> by congruence. cbn in Ht, Hn, Hl. subst i.
  split.
  - destruct (r.(maps) !! base) as [v|] eqn:E; [|done]. destruct (ok_maps _ _ _ _ Hr base v E) as (Hm & _). congruence.
  - eapply (objects_maps _ _ _ j r k' _ r.(seen)) in Hinv; try done; [exact Hinv|..].
    + intros x Hx. apply lookup_insert_ne. by intros <-.
    + intros base0 v [[<- <-]|[Hne Hv]]%lookup_insert_Some.
      * split; [apply lookup_insert_eq|]. split; [exists n; split; [done|cbn; lia]|done].
      * eapply map_frame; [by eapply ok_maps|done|]. apply lookup_insert_ne. congruence.
    + apply (ok_seen _ _ _ _ Hr).
Qed.

Lemma shm_munmap_sound k G rs j r base : inv k G rs -> rs !! j = Some r ->
  let k' := set_mappings k (delete (j, base) k.(mappings)) in wf k' ->
  inv k' G (<[j := set_maps r (delete base r.(maps))]> rs).
Proof.
  intros Hinv Hj k' Hwf. pose proof (inv_roles _ _ _ Hinv j r Hj) as Hr.
  eapply (objects_maps _ _ _ j r k' _ r.(seen)) in Hinv; try done; [exact Hinv|..].
  - intros x Hx. apply lookup_delete_ne. by intros <-.
  - intros base0 v [Hne Hv]%lookup_delete_Some. eapply map_frame; [by eapply ok_maps|done|]. apply lookup_delete_ne. congruence.
  - apply (ok_seen _ _ _ _ Hr).
Qed.

Lemma shm_load_sound k G rs j r base v address nbyte i n : inv k G rs -> rs !! j = Some r -> r.(maps) !! base = Some v ->
  inside v base address nbyte -> accessed j k base address nbyte loadable = Some (i, n) ->
  exists r', learns r (Load base address nbyte) (take (Z.to_nat nbyte) (drop (Z.to_nat (address - base)) n.(data))) r' /\
    inv k G (<[j := r']> rs).
Proof.
  intros Hinv Hj Hv Hin Ha. pose proof (inv_roles _ _ _ Hinv j r Hj) as Hr. pose proof (ok_maps _ _ _ _ Hr base v Hv) as Hok.
  destruct (window_access k G j base v address nbyte loadable Hok Hin eq_refl) as (n' & Hn & Hl & Ha'). rewrite Ha in Ha'. injection Ha' as -> <-.
  set (l := take _ _).
  assert (Hc : forall c, v.(payload) = Some c -> l = take (Z.to_nat nbyte) (drop (Z.to_nat (address - base)) (magic ++ c))).
  { intros c Ec. destruct Hok as (_ & _ & Hpay). destruct (inv_payload _ _ _ Hinv _ _ (Hpay c Ec)) as (_ & n0 & Hn0 & Ed). unfold l. congruence. }
  assert (Ho : forall d, r.(own) = Some (v.(inode), d) -> l = take (Z.to_nat nbyte) (drop (Z.to_nat (address - base)) d)).
  { intros d E. destruct (ok_own _ _ _ _ Hr _ E) as (_ & n0 & Hn0 & Ed). cbn in Hn0, Ed. unfold l. congruence. }
  assert (Hlen : zlength l = nbyte).
  { destruct Hin as (? & ? & ?). unfold l, zlength in *. rewrite length_take, length_drop. lia. }
  destruct (bool_decide (address = base /\ nbyte = 8) && (from_le_bytes l =? IS_INITIALIZED_STATE_VALUE)) eqn:E.
  - apply andb_true_iff in E as [[-> ->]%bool_decide_eq_true_1 Ei]. assert (El : l = take 8 n.(data)) by (unfold l; by rewrite Z.sub_diag).
    assert (Hini : initialized n.(data) = true) by (unfold initialized; by rewrite <-El).
    destruct (inv_initialized _ _ _ Hinv _ n Hn Hini) as [c Hg]. destruct (inv_payload _ _ _ Hinv _ c Hg) as (Hp & n0 & Hn0 & Ed).
    assert (n0 = n) as -> by congruence. eexists. split.
    + exists v. split; [done|]. split; [done|]. split; [done|]. split; [done|]. rewrite bool_decide_eq_true_2, Ei by done. exists c. by rewrite <-Ed.
    + eapply objects_maps; try done; [apply Hinv| |].
      * intros base0 v0 [[<- <-]|[Hne Hv0]]%lookup_insert_Some; [|by eapply ok_maps]. destruct Hok as (Hm & Hlong & _).
        split; [done|]. split; [done|]. by intros c' [= <-].
      * intros c' [->|Hc']%elem_of_cons; [done|]. by eapply ok_seen.
  - exists r. split; [exists v; rewrite E; by split_and!|]. eapply objects_same; try done. apply Hinv.
Qed.

Lemma splice_within d off buf : 0 <= off -> off + zlength buf <= zlength d ->
  splice d off buf = take (Z.to_nat off) d ++ buf ++ drop (Z.to_nat (off + zlength buf)) d.
Proof.
  intros H0 H1. unfold splice, resize. pose proof (zlength_nonneg buf). unfold zlength in *.
  replace (Z.to_nat off - length d)%nat with O by lia. cbn [replicate]. by rewrite app_nil_r.
Qed.

Lemma splice_length d off buf : 0 <= off -> off + zlength buf <= zlength d -> zlength (splice d off buf) = zlength d.
Proof.
  intros H0 H1. rewrite splice_within by done. pose proof (zlength_nonneg buf). unfold zlength in *. rewrite !length_app, length_take, length_drop. lia.
Qed.

Lemma splice_state d off buf : 8 <= off -> off + zlength buf <= zlength d -> take 8 (splice d off buf) = take 8 d.
Proof.
  intros H0 H1. rewrite splice_within by lia. pose proof (zlength_nonneg buf). unfold zlength in *.
  rewrite take_app_le by (rewrite length_take; lia). rewrite take_take. f_equal. lia.
Qed.

Lemma shm_store_sound (mine : list Z -> Prop) k G rs j r base address buf i n a : inv k G rs -> rs !! j = Some r -> may mine r (Store base address buf) ->
  (forall c, mine c -> promised c) -> accessed j k base address (zlength buf) storable = Some (i, n) ->
  let k' := set_node k i (set_data n (splice n.(data) (address - base) buf)) in wf k' ->
  exists G' r', learns r (Store base address buf) a r' /\ inv k' G' (<[j := r']> rs).
Proof.
  intros Hinv Hj (v & d & Hv & Hin & Ho & Hcase) Hmine Ha k' Hwf. pose proof (inv_roles _ _ _ Hinv j r Hj) as Hr. pose proof (ok_maps _ _ _ _ Hr base v Hv) as Hok.
  destruct (window_access k G j base v address (zlength buf) storable Hok Hin eq_refl) as (n' & Hn & Hl & Ha'). rewrite Ha in Ha'. injection Ha' as -> <-.
  destruct (ok_own _ _ _ _ Hr _ Ho) as (HG & n' & Hn' & Ed). cbn in HG, Hn', Ed. assert (n' = n) as -> by congruence. subst d.
  destruct Hin as (_ & Hin1 & Hin2). remember (address - base) as off eqn:Eoff.
  assert (Hoff0 : 0 <= off /\ off + zlength buf <= zlength n.(data)) by lia.
  assert (Hlong : forall i0 b0, long k i0 b0 -> long k' i0 b0).
  { intros i0 b0 Hlg. eapply long_mono; [done|]. intros n0 Hn0. cbn. destruct (decide (v.(inode) = i0)) as [<-|Hne].
    - rewrite lookup_insert_eq. eexists. split; [done|]. assert (n0 = n) as -> by congruence. cbn. rewrite splice_length; lia.
    - rewrite lookup_insert_ne by done. by exists n0. }
  assert (Hfds : forall fd kn, r.(fds) !! fd = Some kn -> fd_ok k' (j, fd) kn).
  { intros fd kn Hf. destruct (ok_fds _ _ _ _ Hr fd kn Hf) as (d0 & Hd0 & Ht0 & Hlg). exists d0. by auto. }
  destruct Hcase as [Hoff|(-> & -> & Hp)].
  - exists G. eexists. split; [by exists v, n.(data)|]. rewrite bool_decide_eq_false_2 by lia.
    eapply objects_node with (i := v.(inode)); try done; cbn [set_own set_maps fds own maps seen].
    + right. eexists. split; [done|]. cbn. rewrite splice_length; lia.
    + left. split; [done|]. split; [|cbn; by subst off]. cbn. unfold initialized. rewrite splice_state by lia.
      destruct (from_le_bytes (take 8 n.(data)) =? IS_INITIALIZED_STATE_VALUE) eqn:E; [|done].
      destruct (inv_initialized _ _ _ Hinv _ n Hn E). congruence.
    + intros base0 v0 Hv0. destruct (ok_maps _ _ _ _ Hr base0 v0 Hv0) as (Hm & Hlg & Hc). split; [done|]. by auto.
    + apply (ok_seen _ _ _ _ Hr).
  - change (zlength magic) with 8 in *. assert (Edata : splice n.(data) off magic = magic ++ drop 8 n.(data)).
    { rewrite splice_within by (change (zlength magic) with 8; lia). subst off. by rewrite Z.sub_diag. }
    exists (<[v.(inode) := drop 8 n.(data)]> G). eexists. split; [by exists v, n.(data)|]. rewrite bool_decide_eq_true_2 by done.
    eapply objects_node with (i := v.(inode)); try done; cbn [set_own set_maps fds own maps seen].
    + right. eexists. split; [done|]. cbn [data set_data]. rewrite splice_length; change (zlength magic) with 8; lia.
    + right. exists (drop 8 n.(data)). cbn. auto.
    + intros base0 v0 [[<- <-]|[Hne Hv0]]%lookup_insert_Some.
      * destruct Hok as (Hm & Hlg & _). split; [done|]. split; [by apply Hlong|]. intros c [= <-]. apply lookup_insert_eq.
      * destruct (ok_maps _ _ _ _ Hr base0 v0 Hv0) as (Hm & Hlg & Hc). split; [done|]. split; [by apply Hlong|].
        intros c Ec. specialize (Hc c Ec). rewrite lookup_insert_ne; [done|congruence].
    + apply (ok_seen _ _ _ _ Hr).
Qed.

Lemma shm_fails_sound mine k G rs j r q e : inv k G rs -> rs !! j = Some r -> may mine r q -> justified j true k q e ->
  next r q (Err e) r.
Proof.
  intros Hinv Hj Hmay He. split; [done|]. pose proof (inv_roles _ _ _ Hinv j r Hj) as Hr.
  assert (Hfd : forall fd, is_Some (r.(fds) !! fd) -> k.(descriptors) !! (j, fd) <> None).
  { intros fd [kn Hf]. destruct (ok_fds _ _ _ _ Hr fd kn Hf) as (d & -> & _). done. }
  destruct q; try done; cbn in He, Hmay.
  - destruct e; auto; by destruct (Hfd _ Hmay).
  - destruct e; auto; by destruct (Hfd _ Hmay).
  - destruct e; auto. destruct Hmay as (v & Hv & <-). destruct (ok_maps _ _ _ _ Hr base v Hv) as (Hm & _). by apply He in Hm.
  - destruct Hmay as (v & Hv & Hin).
    destruct (window_access k G j base v address nbyte loadable (ok_maps _ _ _ _ Hr base v Hv) Hin eq_refl) as (n & _ & _ & Ha). congruence.
  - destruct Hmay as (v & d & Hv & Hin & _).
    destruct (window_access k G j base v address _ storable (ok_maps _ _ _ _ Hr base v Hv) Hin eq_refl) as (n & _ & _ & Ha). congruence.
Qed.

(** A participant that keeps to the protocol learns what the protocol promises and keeps
    the invariant, whatever the system answers. *)
Lemma shm_step_sound mine k G rs j r q a k' : inv k G rs -> rs !! j = Some r -> may mine r q ->
  (forall c, mine c -> promised c) -> permits umask j true k q a k' ->
  exists G' r', next r q a r' /\ inv k' G' (<[j := r']> rs).
Proof.
  intros Hinv Hj Hmay Hmine Hp. pose proof (permits_wf _ _ _ _ _ _ _ (inv_wf _ _ _ Hinv) Hp) as Hwf.
  assert (Hsame : k'.(nodes) = k.(nodes) -> k'.(descriptors) = k.(descriptors) -> k'.(mappings) = k.(mappings) -> inv k' G (<[j := r]> rs)).
  { by eapply objects_same. }
  destruct a as [a|e].
  2: { destruct Hp as [He ->]. exists G, r. split; [by eapply shm_fails_sound|by apply Hsame]. }
  destruct q; try done; cbn [permits performs] in Hp; cbn [next].
  - destruct Hp as [_ ->]. exists G, r. split; [done|]. by apply Hsame.
  - destruct Hp as (d & n & Hd & Hn & -> & ->). destruct (shm_stat_sound _ _ _ _ _ _ _ _ Hinv Hj Hmay Hd Hn) as (r' & ? & ?). by exists G, r'.
  - destruct Hp as (d & n & Hd & Hn & _ & Hs & ->). destruct Hmay as (i & b & Hf & Ho). exists G. eexists. split; [by exists i, b|].
    by eapply shm_truncate_sound.
  - destruct Hp as [_ ->]. exists G. eexists. split; [done|]. by apply shm_close_sound.
  - destruct Hp as [Hu Hp]. pose proof (unused_unknown_fd _ _ _ _ _ _ Hinv Hj Hu) as Hf. exists G.
    destruct (k.(objects) !! _) as [i|].
    + destruct Hp as (He & Hi & ->). eexists. split; [split; [apply Hu|]; split; [done|]; by exists i|].
      rewrite bool_decide_eq_false_2 by done. by apply shm_open_sound.
    + destruct Hp as (Hc & i & k1 & Hi & Hcr & ->). eexists. split; [split; [apply Hu|]; split; [done|]; by exists i|].
      rewrite bool_decide_eq_true_2 by (by destruct Hmay). by eapply shm_create_sound.
  - destruct Hp as [_ ->]. exists G, r. split; [done|]. by apply Hsame.
  - destruct Hp as (d & Hd & _ & _ & _ & Hlen & Hb & Hb' & Hfree & ->). destruct Hmay as (i & b & Hf & Hle & ->).
    destruct (shm_mmap_sound _ _ _ _ _ _ _ _ _ _ _ Hinv Hj Hf Hle Hd Hfree Hwf) as [Hnone Hinv']. exists G. eexists. split; [by exists i, b|done].
  - destruct Hp as (m & _ & _ & ->). exists G. eexists. split; [done|]. by apply shm_munmap_sound.
  - destruct Hp as (i & n & Ha & -> & ->). destruct Hmay as (v & Hv & Hin).
    destruct (shm_load_sound _ _ _ _ _ _ _ _ _ _ _ Hinv Hj Hv Hin Ha) as (r' & ? & ?). by exists G, r'.
  - destruct Hp as (i & n & Ha & ->). by eapply (shm_store_sound mine).
Qed.

End invariant.

(** ** The operations keep to the protocol *)

Section follows.
Context `{Profile} (mine : list Z -> Prop) (fuel : nat) (memory file_memory : list Z) (signals : bool) (size_T align_T : Z).
Context (Hsize : 0 <= size_T) (Halign : 0 < align_T).
Implicit Types (r : role) (v : window).

Notation wpr := (wp (may mine) next True).
Notation data_offset := (data_offset align_T).
Notation data_size := (data_size size_T align_T).

Lemma round_up_le n a : 0 < a -> n <= round_up n a.
Proof. intros Ha. unfold round_up. pose proof (Z.div_mod (n + a - 1) a ltac:(lia)). pose proof (Z.mod_pos_bound (n + a - 1) a Ha). lia. Qed.

Lemma layout_ok : 8 <= data_offset /\ data_offset + size_T <= data_size.
Proof. split; apply round_up_le; lia. Qed.

Definition owned (fd : Z) : FileDescriptor := {| value := fd; is_owned := true |}.

Lemma wpr_new_descriptor fd Q r : is_Some (r.(fds) !! fd) -> Q (Ok (owned fd)) r -> wpr (descriptor_new (Ok fd)) Q r.
Proof. intros Hf HQ. split; [done|]. intros [a|e] r' Hn; cbn in Hn; [by subst|]. by destruct Hn. Qed.

Lemma wpr_shm_open c p Q r : Shm.file_path memory c.(Shm.c_name) = Ret p -> c.(Shm.c_access_mode) = AccessReadWrite ->
  (forall fd i, r.(fds) !! fd = None -> Q (Ok (owned fd)) (set_fds r (<[fd := (i, 0)]> r.(fds)))) ->
  (forall e, Q (Err e) r) -> wpr (Shm.shm_open memory c) Q r.
Proof.
  intros Ep Ea HQ He. unfold Shm.shm_open. rewrite Ep, Ea. cbn. split; [left; set_solver|]. intros [fd|e] r' Hn; cbn in Hn.
  - destruct Hn as (_ & Hf & i & ->). rewrite bool_decide_eq_false_2 by set_solver. apply wp_bind, wpr_new_descriptor; [cbn; rewrite lookup_insert_eq; eauto|].
    by apply HQ.
  - destruct Hn as [-> _]. cbn. destruct e; apply He.
Qed.

Lemma wpr_shm_create c p Q r : Shm.file_path memory c.(Shm.c_name) = Ret p ->
  (forall fd i, r.(fds) !! fd = None -> Q (Ok (owned fd)) (set_own (set_fds r (<[fd := (i, 0)]> r.(fds))) (Some (i, [])))) ->
  (forall e, Q (Err e) r) -> wpr (Shm.shm_create memory c) Q r.
Proof.
  intros Ep HQ He. unfold Shm.shm_create. rewrite Ep. cbn [lift bind]. apply wp_bind. split; [right; set_solver|]. intros [fd|e] r' Hn; cbn in Hn.
  - destruct Hn as (_ & Hf & i & ->). rewrite bool_decide_eq_true_2 by set_solver. apply wp_bind, wpr_new_descriptor; [cbn; rewrite lookup_insert_eq; eauto|].
    by apply HQ.
  - destruct Hn as [-> _]. cbn. destruct e; apply He.
Qed.

Lemma wpr_mmap fd c i b Q r : r.(fds) !! fd.(value) = Some (i, b) -> c.(Shm.c_size) <= b -> c.(Shm.c_access_mode) = AccessReadWrite ->
  (forall base, 0 < c.(Shm.c_size) -> 0 < base -> base + c.(Shm.c_size) < 2 ^ 64 -> r.(maps) !! base = None ->
    Q (Ok base) (set_maps r (<[base := {| inode := i; length_ := c.(Shm.c_size); payload := None |}]> r.(maps)))) ->
  (forall e, Q (Err e) r) -> wpr (Shm.mmap fd c) Q r.
Proof.
  intros Hf Hb Ea HQ He. unfold Shm.mmap. rewrite Ea. split; [by exists i, b|]. intros [base|e] r' Hn; cbn in Hn.
  - destruct Hn as (i' & b' & Hf' & H0 & H1 & H2 & Hnone & ->). rewrite Hf in Hf'. injection Hf' as <- <-. by apply HQ.
  - destruct Hn as [-> _]. cbn. destruct e; apply He.
Qed.

Lemma wpr_metadata_size fd i b Q r : r.(fds) !! fd.(value) = Some (i, b) ->
  (forall m, 0 <= m.(Files.size) -> (forall d, r.(own) = Some (i, d) -> m.(Files.size) = zlength d) ->
    Q (Ok m) (set_fds r (<[fd.(value) := (i, m.(Files.size))]> r.(fds)))) ->
  (forall e, Q (Err e) r) -> wpr (metadata (Shm.as_file fd)) Q r.
Proof.
  intros Hf HQ He. apply wp_try, wp_bind. split; [by eexists|]. intros [st|e] r' Hn; cbn in Hn.
  - destruct Hn as (i' & b' & Hf' & H0 & Hd & ->). change (r.(fds) !! fd.(value) = Some (i', b')) in Hf'. rewrite Hf in Hf'. injection Hf' as <- <-. cbn. by apply (HQ (metadata_create st)).
  - destruct Hn as [-> _]. destruct e; apply He.
Qed.

Lemma wpr_close_fd fd Q r : is_Some (r.(fds) !! fd) -> Q tt (set_fds r (delete fd r.(fds))) -> wpr (drop_descriptor fuel (owned fd)) Q r.
Proof.
  intros Hf HQ. unfold drop_descriptor. cbn. generalize fuel as n. intros n. induction n as [|n IH]; [done|]. split; [done|].
  intros [a|e] r' Hn; cbn in Hn; [by subst|]. by destruct Hn as [-> [-> | ->]].
Qed.

Lemma wpr_unlink n p Q r : Shm.file_path memory n = Ret p -> (forall a, Q a r) -> wpr (Shm.shm_unlink memory n) Q r.
Proof.
  intros Ep HQ. unfold Shm.shm_unlink. rewrite Ep. split; [done|]. intros [a|e] r' Hn; cbn in Hn; [subst; apply HQ|].
  destruct Hn as [-> _]. apply HQ.
Qed.

(** Shared memory that is open and, unless its address is null, mapped. *)
Definition shm_ok r (m : Shm.SharedMemory) : Prop :=
  (exists fd, m.(Shm.file_descriptor) = owned fd /\ is_Some (r.(fds) !! fd)) /\ m.(Shm.memory_lock) = None /\
  (exists p, Shm.file_path memory m.(Shm.name) = Ret p) /\
  (m.(Shm.base_address) = 0 \/ exists v, r.(maps) !! m.(Shm.base_address) = Some v /\ v.(length_) = m.(Shm.size)).

Lemma wpr_drop_shm m Q r : shm_ok r m -> (forall r', r'.(seen) = r.(seen) -> Q tt r') -> wpr (Shm.drop_shm fuel memory m) Q r.
Proof.
  intros ((fd & Efd & Hfd) & El & (p & Ep) & Hmap) HQ. unfold Shm.drop_shm. rewrite Efd, El.
  assert (Hrest : forall r', r'.(seen) = r.(seen) -> r'.(fds) = r.(fds) ->
    wpr (let? _ := (if m.(Shm.has_ownership) then let? _ := Shm.shm_unlink memory m.(Shm.name) in Done tt else Done tt) in
         let? _ := drop_descriptor fuel (owned fd) in Done tt) Q r').
  { intros r' Es Ef. assert (Hclose : wpr (let? _ := drop_descriptor fuel (owned fd) in Done tt) Q r').
    { apply wp_bind, wpr_close_fd; [by rewrite Ef|]. by apply HQ. }
    apply wp_bind. destruct m.(Shm.has_ownership); [|exact Hclose]. apply wp_bind. eapply wpr_unlink; [done|]. intros _. exact Hclose. }
  apply wp_bind. destruct (Z.eqb_spec m.(Shm.base_address) 0) as [E|E]; [by apply Hrest|]. destruct Hmap as [?|(v & Hv & Hl)]; [done|].
  cbn [negb]. apply wp_bind. split; [by exists v|]. intros [a|e] r' Hn; cbn in Hn; [|by destruct Hn]. subst r'. by apply Hrest.
Qed.

Lemma wpr_open_existing full p Q r : Shm.file_path memory full = Ret p ->
  (forall fd i base n, 0 < base -> base + n < 2 ^ 64 ->
    Q (Ok {| Shm.name := full; Shm.base_address := base; Shm.size := n; Shm.has_ownership := false; Shm.memory_lock := None;
             Shm.file_descriptor := owned fd |})
      (set_maps (set_fds r (<[fd := (i, n)]> r.(fds))) (<[base := {| inode := i; length_ := n; payload := None |}]> r.(maps)))) ->
  (forall e r', r'.(seen) = r.(seen) -> Q (Err e) r') ->
  wpr (Shm.open_existing fuel memory (Shm.shm_builder_new full) AccessReadWrite) Q r.
Proof.
  intros Ep HQ He. apply wp_try. eapply wpr_shm_open; [done|done| |by intros e; apply He]. intros fd i Hf.
  assert (Hfail : forall e r1, is_Some (r1.(fds) !! fd) -> r1.(seen) = r.(seen) ->
    wpr (let? _ := drop_descriptor fuel (owned fd) in Done (Err e)) Q r1).
  { intros e r1 Hf1 Hs. apply wp_bind, wpr_close_fd; [done|]. by apply He. }
  apply wp_bind. eapply wpr_metadata_size; [apply lookup_insert_eq| |intros e; apply Hfail; [cbn; rewrite lookup_insert_eq; eauto|done]].
  intros m Hm _. apply wp_bind. eapply wpr_mmap; [apply lookup_insert_eq|done|done| |].
  - intros base H0 H1 H2 Hnone. cbn [Shm.set_size Shm.c_size Shm.c_enforce_base_address Shm.set_access Shm.shm_builder_new] in *.
    rewrite bool_decide_eq_false_2 by (by intros [? _]). cbn. rewrite insert_insert_eq. by apply HQ.
  - intros e. apply Hfail; [cbn; rewrite lookup_insert_eq; eauto|done].
Qed.

(** New shared memory of [n] bytes: it is mapped, and the participant initializes it. *)
Definition created_role r (fd base n : Z) (i : nat) (d : list Z) : role :=
  set_own (set_maps (set_fds r (<[fd := (i, n)]> r.(fds))) (<[base := {| inode := i; length_ := n; payload := None |}]> r.(maps))) (Some (i, d)).

Lemma wpr_or_drop_shm {A B E} m (p : prog (Result A E)) f (g : A -> prog (Result B Shm.SharedMemoryCreationError)) Q r :
  wpr p (fun a r => match a with Ok a => wpr (g a) Q r | Err e => shm_ok r m /\ forall r', r'.(seen) = r.(seen) -> Q (Err (f e)) r' end) r ->
  wpr (Shm.or_drop_shm fuel memory m p f g) Q r.
Proof. intros Hp. apply wp_bind. eapply wp_mono; [exact Hp|]. intros [a|e] r'; [done|]. intros [Hm HQ]. by apply wp_bind, wpr_drop_shm. Qed.

Lemma wpr_shm_create_all full n owns p Q r : Shm.file_path memory full = Ret p -> 0 < n ->
  (forall fd i base, 0 < base -> base + n < 2 ^ 64 ->
    Q (Ok {| Shm.name := full; Shm.base_address := base; Shm.size := n; Shm.has_ownership := owns; Shm.memory_lock := None;
             Shm.file_descriptor := owned fd |}) (created_role r fd base n i (replicate (Z.to_nat n) 0))) ->
  (forall e r', r'.(seen) = r.(seen) -> Q (Err e) r') ->
  wpr (Shm.create fuel memory signals (shm_config full n owns)) Q r.
Proof.
  intros Ep Hn HQ He. apply wp_try. cbn [Shm.create_descriptor Shm.c_creation_mode shm_config]. apply wp_try.
  eapply wpr_shm_create; [done| |by intros e; apply He]. intros fd i Hf. cbn [wp negb].
  set (r1 := set_own _ _). apply wpr_or_drop_shm, wp_bind.
  assert (Hok : forall r2 b n0, r2.(fds) !! fd = Some b -> shm_ok r2 {| Shm.name := full; Shm.base_address := 0; Shm.size := n0;
    Shm.has_ownership := owns; Shm.memory_lock := None; Shm.file_descriptor := owned fd |}).
  { intros r2 b n0 Hb. split; [exists fd; split; [done|by eexists]|]. split; [done|]. split; [by exists p|by left]. }
  split; [exists i, 0; split; [apply lookup_insert_eq|done]|]. intros [a|e] r' Hl; cbn in Hl.
  2: { destruct Hl as [-> _]. destruct e; (split; [eapply (Hok r1); apply lookup_insert_eq|intros; by apply He]). }
  destruct Hl as (i' & b & Hi' & Hn0 & ->). rewrite lookup_insert_eq in Hi'. injection Hi' as <- <-. cbn [wp].
  apply wpr_or_drop_shm. eapply wpr_mmap; [apply lookup_insert_eq|done|done| |].
  2: { intros e. split; [eapply Hok; apply lookup_insert_eq|intros; by apply He]. }
  cbn [shm_config Shm.c_size Shm.c_enforce_base_address]. intros base _ Hb0 Hb1 Hnone. apply wpr_or_drop_shm. cbn [wp Shm.require].
  rewrite bool_decide_eq_true_2 by (by left). apply wpr_or_drop_shm. eapply wpr_metadata_size; [apply lookup_insert_eq| |].
  2: { intros e. split; [|intros; by apply He]. split; [exists fd; split; [done|cbn; rewrite lookup_insert_eq; eauto]|]. split; [done|].
       split; [by exists p|]. right. eexists. split; [apply lookup_insert_eq|done]. }
  intros m _ Hm. rewrite (Hm _ eq_refl). replace (zlength _) with n by (unfold zlength; rewrite length_replicate; lia).
  apply wpr_or_drop_shm. cbn [Shm.require]. rewrite Z.leb_refl. cbn. rewrite !insert_insert_eq. by apply HQ.
Qed.

Lemma splice_app x y buf : zlength buf <= zlength y -> splice (x ++ y) (zlength x) buf = x ++ buf ++ drop (length buf) y.
Proof.
  intros Hl. pose proof (zlength_nonneg x). rewrite splice_within by (rewrite ?zlength_app; lia). unfold zlength.
  rewrite Nat2Z.id, take_app_length. replace (Z.to_nat (Z.of_nat (length x) + Z.of_nat (length buf))) with (length x + length buf)%nat by lia. by rewrite drop_app_add.
Qed.

Lemma splice_cons d off b buf : 0 <= off -> off + zlength (b :: buf) <= zlength d ->
  splice (splice d off [b]) (off + 1) buf = splice d off (b :: buf).
Proof.
  intros H0 H1. unfold zlength in H1. cbn in H1. rewrite <-(take_drop (Z.to_nat off) d).
  assert (Ex : zlength (take (Z.to_nat off) d) = off) by (unfold zlength; rewrite length_take; lia).
  assert (Ey : length (drop (Z.to_nat off) d) = (length d - Z.to_nat off)%nat) by apply length_drop. revert Ex Ey.
  generalize (take (Z.to_nat off) d) as x. intros x <-. destruct (drop (Z.to_nat (zlength x)) d) as [|z y]; cbn; intros Ey; [lia|].
  rewrite !splice_app by (unfold zlength; cbn; lia). cbn. rewrite drop_0. replace (zlength x + 1) with (zlength (x ++ [b])) by (by rewrite zlength_app).
  replace (x ++ b :: y) with ((x ++ [b]) ++ y) by (by rewrite <-app_assoc). rewrite splice_app by (unfold zlength; lia). by rewrite <-!app_assoc.
Qed.

Lemma wpr_store_bytes base buf Q v : forall address d r, r.(maps) !! base = Some v -> r.(own) = Some (v.(inode), d) -> base + 8 <= address ->
  address + zlength buf <= base + v.(length_) -> v.(length_) <= zlength d ->
  Q (Ok tt) (set_own r (Some (v.(inode), splice d (address - base) buf))) -> wpr (Shm.store_bytes base address buf) Q r.
Proof.
  induction buf as [|b buf IH]; intros address d r Hv Ho Ha Hb Hd HQ; cbn [Shm.store_bytes].
  - cbn. replace r with (set_own r (Some (v.(inode), splice d (address - base) []))); [done|].
    rewrite splice_within by (unfold zlength in *; cbn in *; lia). change (zlength []) with 0. rewrite Z.add_0_r. cbn. rewrite take_drop, <-Ho. by destruct r.
  - apply wp_try. unfold zlength in Hb. cbn in Hb. split.
    { exists v, d. split; [done|]. split; [unfold inside, zlength; cbn; lia|]. split; [done|]. left. done. }
    intros [a|e] r' Hn; cbn in Hn; [|by destruct Hn]. destruct Hn as (v' & d' & Hv' & Ho' & ->). rewrite Hv in Hv'. injection Hv' as <-.
    rewrite Ho in Ho'. injection Ho' as <-. rewrite bool_decide_eq_false_2 by lia.
    eapply IH; [done|done|lia|unfold zlength; lia|rewrite splice_length; unfold zlength in *; cbn in *; lia|].
    cbn. replace (address + 1 - base) with (address - base + 1) by lia. rewrite splice_cons by (unfold zlength in *; cbn in *; lia). done.
Qed.

Lemma wpr_load_bytes base v c Q : forall n address r, r.(maps) !! base = Some v -> v.(payload) = Some c -> base < address ->
  address + Z.of_nat n <= base + v.(length_) -> Q (Ok (take n (drop (Z.to_nat (address - base)) (magic ++ c)))) r ->
  wpr (Shm.load_bytes base address n) Q r.
Proof.
  intros n. revert Q. induction n as [|n IH]; intros Q address r Hv Hc Ha Hb HQ; [done|]. apply wp_try.
  split; [exists v; unfold inside; split; [done|lia]|]. intros [l|e] r' Hn; cbn in Hn; [|by destruct Hn].
  destruct Hn as (v' & Hv' & Hl & Hpay & _ & Er). rewrite Hv in Hv'. injection Hv' as <-. specialize (Hpay c Hc).
  rewrite bool_decide_eq_false_2 in Er by lia. cbn in Er. subst r'. apply wp_try, (IH _ (address + 1)); [done|done|lia|lia|].
  cbn. rewrite Hpay. replace (Z.to_nat (address + 1 - base)) with (Z.to_nat (address - base) + 1)%nat by lia.
  rewrite <-drop_drop. set (x := drop (Z.to_nat (address - base)) (magic ++ c)) in *.
  change (Z.to_nat 1) with 1%nat. rewrite take_take_drop. exact HQ.
Qed.

(** What is asked of an initializer: when the value has been written into [n] bytes of zeros,
    it keeps to the protocol, changes nothing but the object, and when it is successful the
    object is one that may be published. *)
Definition initializes (init : Z -> Z -> BumpAllocator -> prog bool) (value : list Z) (n : Z) : Prop :=
  forall r base v, r.(maps) !! base = Some v -> v.(length_) = n -> 0 < base -> base + n < 2 ^ 64 ->
  r.(own) = Some (v.(inode), splice (replicate (Z.to_nat n) 0) data_offset value) ->
  wpr (init base (base + data_offset) (Bump.new (base + data_size) (n - data_size))) (fun ok r' =>
    exists d, r' = set_own r (Some (v.(inode), d)) /\ zlength d = n /\ (ok = true -> mine (drop 8 d))) r.

Lemma wpr_create_and_initialize b value init full p Q r :
  full_name memory file_memory b.(b_config) b.(storage_name) = Ret full -> Shm.file_path memory full = Ret p ->
  0 <= b.(supplementary_size) -> data_size + b.(supplementary_size) < 2 ^ 63 -> zlength value = size_T ->
  initializes init value (data_size + b.(supplementary_size)) ->
  (forall s r', shm_ok r' s.(shm) -> r'.(seen) = r.(seen) -> Q (Ok s) r') ->
  (forall e r', r'.(seen) = r.(seen) -> Q (Err e) r') ->
  wpr (create_and_initialize fuel memory file_memory signals size_T align_T b value init) Q r.
Proof.
  intros Ef Ep Hs Hmax Hval Hinit HQ He. destruct layout_ok as [Ho Hd]. unfold create_and_initialize. rewrite Ef. cbn [lift bind].
  rewrite uadd_ok by lia. cbn [lift bind]. remember (data_size + b.(supplementary_size)) as n eqn:En. apply wp_bind.
  eapply wpr_shm_create_all; [done|lia| |by intros [] r' Hr'; apply He]. intros fd i base Hb0 Hb1. cbn [Shm.base_address Shm.size].
  set (v := {| inode := i; length_ := n; payload := None |}).
  assert (Hz : zlength (replicate (Z.to_nat n) 0) = n) by (unfold zlength; rewrite length_replicate; lia).
  apply wp_bind, wp_bind. eapply (wpr_store_bytes base value _ v); [apply lookup_insert_eq|done|lia|cbn; lia|cbn; lia|].
  replace (base + data_offset - base) with data_offset by lia. cbn [wp]. rewrite uadd_ok by lia. cbn [lift bind]. rewrite usub_ok by lia.
  cbn [lift bind]. apply wp_bind. eapply wp_mono; [apply (Hinit _ base v); [apply lookup_insert_eq|done..]|].
  intros ok r' (d & -> & Hd' & Hok).
  assert (Hshm : forall r2 m, r2.(fds) !! fd = Some (i, n) -> r2.(maps) !! base = Some m -> m.(length_) = n -> shm_ok r2
    {| Shm.name := full; Shm.base_address := base; Shm.size := n; Shm.has_ownership := b.(b_has_ownership);
       Shm.memory_lock := None; Shm.file_descriptor := owned fd |}).
  { intros r2 m Hf Hm Hl. split; [exists fd; split; [done|by eexists]|]. split; [done|]. split; [by exists p|]. right. by exists m. }
  destruct ok; cbn [negb].
  - apply wp_bind, wp_bind. split.
    { exists v, d. split; [apply lookup_insert_eq|]. split; [unfold inside; change (zlength _) with 8; unfold v; cbn [length_]; lia|]. split; [done|]. right. split; [done|]. split; [done|]. by apply Hok. }
    intros [a|e] r' Hn; cbn in Hn; [|by destruct Hn]. destruct Hn as (v' & d' & Hv' & Ho' & ->). rewrite lookup_insert_eq in Hv'. injection Hv' as <-.
    rewrite bool_decide_eq_true_2 by done. cbn [wp]. apply HQ; [|done]. eapply Hshm; [apply lookup_insert_eq|apply lookup_insert_eq|done].
  - apply wp_bind, wpr_drop_shm; [eapply Hshm; [apply lookup_insert_eq|apply lookup_insert_eq|done]|]. intros r' Hr'. by apply He.
Qed.

Lemma wpr_try_open b full p Q r :
  full_name memory file_memory b.(b_config) b.(storage_name) = Ret full -> Shm.file_path memory full = Ret p ->
  0 <= b.(supplementary_size) -> data_size + b.(supplementary_size) < 2 ^ 63 ->
  (forall s r' v c, shm_ok r' s.(shm) -> r'.(maps) !! s.(shm).(Shm.base_address) = Some v -> v.(payload) = Some c ->
    data_size <= v.(length_) -> r'.(seen) = c :: r.(seen) -> Q (Ok s) r') ->
  (forall e r', r'.(seen) = r.(seen) -> Q (Err e) r') ->
  wpr (try_open fuel memory file_memory size_T align_T b) Q r.
Proof.
  intros Ef Ep Hs Hmax HQ He. destruct layout_ok as [Ho Hd]. unfold try_open. rewrite Ef. cbn [lift bind]. apply wp_bind.
  eapply wpr_open_existing; [done| |by intros [] r' Hr'; apply He]. intros fd i base n Hb0 Hb1. cbn [Shm.base_address Shm.size].
  rewrite uadd_ok by lia. cbn [lift bind]. set (v := {| inode := i; length_ := n; payload := None |}). set (r1 := set_maps _ _).
  assert (Hshm : forall r2 m, r2.(fds) !! fd = Some (i, n) -> r2.(maps) !! base = Some m -> m.(length_) = n -> shm_ok r2
    {| Shm.name := full; Shm.base_address := base; Shm.size := n; Shm.has_ownership := false;
       Shm.memory_lock := None; Shm.file_descriptor := owned fd |}).
  { intros r2 m Hf Hm Hl. split; [exists fd; split; [done|by eexists]|]. split; [done|]. split; [by exists p|]. right. by exists m. }
  assert (Hfail : forall e, wpr (let? _ := Shm.drop_shm fuel memory {| Shm.name := full; Shm.base_address := base; Shm.size := n;
    Shm.has_ownership := false; Shm.memory_lock := None; Shm.file_descriptor := owned fd |} in Done (Err e)) Q r1).
  { intros e. apply wp_bind, wpr_drop_shm; [eapply Hshm; [apply lookup_insert_eq|apply lookup_insert_eq|done]|]. intros r' Hr'. by apply He. }
  destruct (Z.ltb_spec n (data_size + b.(supplementary_size))) as [|Hn]; [apply Hfail|]. apply wp_bind, wp_bind.
  split; [exists v; split; [apply lookup_insert_eq|unfold inside; cbn; lia]|]. intros [l|e] r' Hl; cbn in Hl; [|by destruct Hl].
  destruct Hl as (v' & Hv' & _ & _ & _ & Hr'). rewrite lookup_insert_eq in Hv'. injection Hv' as <-. rewrite bool_decide_eq_true_2 in Hr' by done.
  cbn [andb] in Hr'. cbn [wp]. destruct (from_le_bytes l =? IS_INITIALIZED_STATE_VALUE); cbn [negb]; [|subst r'; apply Hfail].
  destruct Hr' as (c & _ & ->). cbn [wp]. eapply (HQ _ _ (reveal v c) c); [|apply lookup_insert_eq|done|cbn; lia|done].
  eapply Hshm; [apply lookup_insert_eq|apply lookup_insert_eq|done].
Qed.

(** The value in an object. *)
Definition value_in (c : list Z) : list Z := take (Z.to_nat size_T) (drop (Z.to_nat (data_offset - 8)) c).

Lemma wpr_read_value s v c Q r : r.(maps) !! s.(shm).(Shm.base_address) = Some v -> v.(payload) = Some c -> data_size <= v.(length_) ->
  Q (value_in c) r -> wpr (read_value size_T align_T s) Q r.
Proof.
  intros Hv Hc Hl HQ. destruct layout_ok as [Ho Hd]. apply wp_bind. unfold get. eapply wpr_load_bytes; [done|done|lia|lia|]. cbn [wp].
  replace (_ + data_offset - _) with data_offset by lia. unfold value_in in HQ.
  replace (Z.to_nat data_offset) with (length magic + Z.to_nat (data_offset - 8))%nat by (change (length magic) with 8%nat; lia). by rewrite drop_app_add.
Qed.

Lemma wpr_shm_does_exist n p Q r : Shm.file_path memory n = Ret p -> (forall a r', r'.(seen) = r.(seen) -> Q a r') ->
  wpr (Shm.shm_does_exist fuel memory n) Q r.
Proof.
  intros Ep HQ. unfold Shm.shm_does_exist. rewrite Ep. cbn [lift bind]. apply wp_bind. split; [left; set_solver|].
  intros [fd|e] r' Hn; cbn in Hn; [|destruct Hn as [-> _]; by apply HQ]. destruct Hn as (_ & Hf & i & ->).
  rewrite bool_decide_eq_false_2 by set_solver. assert (Hfd : is_Some ((set_fds r (<[fd := (i, 0)]> r.(fds))).(fds) !! fd)) by (cbn; rewrite lookup_insert_eq; eauto).
  apply wp_bind, wpr_new_descriptor; [done|]. apply wp_bind, wpr_close_fd; [done|]. by apply HQ.
Qed.

End follows.

(** ** Any number of participants

    Every participant is a process of its own; all use one configuration and one type.
    The initializers are given by a table; [promise tag value supplementary] is what an
    initializer makes of a value. *)

Inductive job :=
| Create (n : list Z) (owns : bool) (supplementary : Z) (value : list Z) (tag : nat)
| Consume (n : list Z) (supplementary : Z)
| Erase (n : list Z)
| Probe (n : list Z).

Inductive result := Created | Consumed (c : list Z) | Erased | Probed (r : Result bool NamedConceptDoesExistError) | Failed.

Section system.
Context `{Profile} {W} (umask : nat -> Z) `{PosixLaws umask true W} (memory file_memory : list Z) (signals : bool)
  (size_T align_T : Z) (cfg : NC.NamedConceptConfiguration).
Context (init : nat -> Z -> Z -> BumpAllocator -> prog bool) (promise : nat -> list Z -> Z -> list Z -> Prop).

Notation data_size := (data_size size_T align_T).

(** The creator initializes and drops the storage, a user opens it, reads the value and
    drops it. *)
Definition program (fuel : nat) (j : job) : prog result :=
  let builder n s o := {| storage_name := n; supplementary_size := s; b_has_ownership := o; b_config := cfg |} in
  match j with
  | Create n o s value tag =>
      let? r := create_and_initialize fuel memory file_memory signals size_T align_T (builder n s o) value (init tag) in
      match r with
      | Err _ => Done Failed
      | Ok s => let? _ := drop_storage fuel memory s in Done Created
      end
  | Consume n s =>
      let? r := open fuel memory file_memory size_T align_T (builder n s false) in
      match r with
      | Err _ => Done Failed
      | Ok s =>
          let? c := read_value size_T align_T s in
          let? _ := drop_storage fuel memory s in Done (Consumed c)
      end
  | Erase n => let? _ := remove_cfg memory file_memory n cfg in Done Erased
  | Probe n => let? r := does_exist_cfg fuel memory file_memory n cfg in Done (Probed r)
  end.

Definition has_name (n : list Z) : bool :=
  match full_name memory file_memory cfg n with Ret f => is_ret (Shm.file_path memory f) | Panic => false end.

Definition accepts (j : job) : bool :=
  match j with
  | Create n _ s value _ => has_name n && (0 <=? s) && (data_size + s <? 2 ^ 63) && (zlength value =? size_T)
  | Consume n s => has_name n && (0 <=? s) && (data_size + s <? 2 ^ 63)
  | Erase n | Probe n => has_name n
  end.

Definition job_promise (j : job) : list Z -> Prop :=
  match j with Create _ _ s value tag => promise tag value s | _ => fun _ => False end.

Definition promised_by (js : list job) (c : list Z) : Prop := exists j, j ∈ js /\ job_promise j c.

Definition witnessed (a : result) (r : role) : Prop :=
  match a with Consumed c => exists p, p ∈ r.(seen) /\ c = value_in size_T align_T p | _ => True end.

Context (Hsize : 0 <= size_T) (Halign : 0 < align_T).
Context (Hinit : forall tag value s, zlength value = size_T -> 0 <= s ->
  initializes (promise tag value s) size_T align_T (init tag) value (data_size + s)).

Lemma has_name_path n : has_name n = true ->
  exists full p, full_name memory file_memory cfg n = Ret full /\ Shm.file_path memory full = Ret p.
Proof.
  unfold has_name. destruct (full_name _ _ _ _) as [full|]; [|done]. destruct (Shm.file_path memory full) as [p|] eqn:E; [|done]. eauto.
Qed.

Lemma shm_job_follows fuel j r : accepts j = true -> wp (may (job_promise j)) next True (program fuel j) witnessed r.
Proof.
  destruct j as [n o s value tag|n s|n|n]; cbn [accepts program job_promise]; rewrite ?andb_true_iff.
  - intros [[[Hn Hs] Hmax] Hv]. apply Z.leb_le in Hs. apply Z.ltb_lt in Hmax. apply Z.eqb_eq in Hv.
    destruct (has_name_path n Hn) as (full & p & Ef & Ep). apply wp_bind. eapply wpr_create_and_initialize; try done; [by apply Hinit|].
    intros st r' Hok _. by apply wp_bind, wpr_drop_shm.
  - intros [[Hn Hs] Hmax]. apply Z.leb_le in Hs. apply Z.ltb_lt in Hmax. destruct (has_name_path n Hn) as (full & p & Ef & Ep).
    apply wp_bind. eapply wpr_try_open; try done. intros st r' v c Hok Hv Hc Hl Hseen. apply wp_bind.
    eapply wpr_read_value; try done. apply wp_bind, wpr_drop_shm; [done|]. intros r2 Hr2. exists c. split; [|done]. rewrite Hr2, Hseen. by left.
  - intros Hn. destruct (has_name_path n Hn) as (full & p & Ef & Ep). apply wp_bind. unfold remove_cfg. rewrite Ef. cbn [lift bind].
    apply wp_bind. by eapply wpr_unlink.
  - intros Hn. destruct (has_name_path n Hn) as (full & p & Ef & Ep). apply wp_bind. unfold does_exist_cfg. rewrite Ef. cbn [lift bind].
    apply wp_bind. by eapply wpr_shm_does_exist.
Qed.

Lemma inv_promised k G (P P' : list Z -> Prop) rs : inv P k G rs -> (forall c, P c -> P' c) -> inv P' k G rs.
Proof.
  intros Hinv HP. split; try by apply Hinv.
  - intros i c Hc. destruct (inv_payload _ _ _ _ Hinv i c Hc) as [? ?]. split; [by apply HP|done].
  - intros j r Hj. destruct (inv_roles _ _ _ _ Hinv j r Hj) as [? ? ? Hs]. split; try done. intros c Hc. by apply HP, Hs.
Qed.

Lemma shm_jobs_sound : sound program accepts umask (fun j => may (job_promise j)) next
  (fun k js rs => exists G, inv (promised_by js) k G rs) witnessed.
Proof.
  split.
  - intros k js rs i r j q a k' [G Hinv] Hr Hj Hmay Hp.
    destruct (shm_step_sound umask (promised_by js) (job_promise j) k G rs i r q a k' Hinv Hr Hmay) as (G' & r' & Hn & Hinv'); [|done|by eauto].
    intros c Hc. by exists j.
  - intros k js rs j [G Hinv] _. exists G. eapply inv_promised; [done|]. intros c (j' & Hj' & Hc). exists j'. split; [by right|done].
  - intros fuel j r Hj. by apply shm_job_follows.
Qed.

(** No object is initialized. *)
Definition uninitialized (k : kernel) : Prop := forall i n, k.(nodes) !! i = Some n -> initialized n.(data) = false.

Definition stranger : role := {| fds := ∅; maps := ∅; own := None; seen := [] |}.

Lemma shm_inv_begin P k n : wf k -> uninitialized k -> inv P k ∅ (replicate n stranger).
Proof.
  intros Hwf Hun. split; [done|..].
  - intros i m Hm Hi. by rewrite (Hun i m Hm) in Hi.
  - intros i c Hc. by rewrite lookup_empty in Hc.
  - intros j r [-> _]%lookup_replicate. split; cbn; intros x; [intros y Hy; by rewrite lookup_empty in Hy..|done|by intros ?%elem_of_nil].
  - intros j1 j2 r1 r2 i d1 d2 [-> _]%lookup_replicate _ Ho. done.
Qed.

(** C13: a storage in shared memory is used only when it is completely initialized.  Any
    number of processes create, open, probe and remove storages, their system calls and
    accesses to mapped memory interleave arbitrarily, and every call may fail.  Nobody
    panics and no access leaves a mapping or the object behind it; an object whose state
    says that it is initialized contains what a creator's initializer has made of its
    value, and so does what a user reads. *)
Theorem shm_storage_initialized w n g ps : uninitialized (view w) -> rtc (act_step (iact (act program accepts))) (begin w n) (g, ps) ->
  (forall k p j, ps !! k = Some p -> p.(doing) <> Running j Crash) /\
  (forall i x, (view g.(world)).(nodes) !! i = Some x -> initialized x.(data) = true -> promised_by g.(started) (drop 8 x.(data))) /\
  (forall k p c, ps !! k = Some p -> p.(doing) = Idle (Some (Consumed c)) ->
    exists c', promised_by g.(started) c' /\ c = value_in size_T align_T c').
Proof.
  intros Hu Hr. destruct (processes_invariant _ _ _ _ _ _ _ stranger shm_jobs_sound w n g ps) as (rs & [G Hinv] & Hcrash & Hres).
  { exists ∅. apply shm_inv_begin; [apply view_wf|done]. }
  { done. }
  split_and!; [done|..].
  - intros i x Hx Hi. destruct (inv_initialized _ _ _ _ Hinv i x Hx Hi) as [c Hc].
    destruct (inv_payload _ _ _ _ Hinv i c Hc) as (Hp & x' & Hx' & Ed). assert (x' = x) as -> by congruence. by rewrite Ed.
  - intros k p c Hp Hd. destruct (Hres k p _ Hp Hd) as (r & Hk & c' & Hc' & ->). exists c'. split; [|done].
    by eapply ok_seen; [eapply inv_roles|].
Qed.

End system.

(** ** Concrete runs *)

Module FS := FileStorage.FileStorage.

(** A value of two bytes; the initializer changes the first one. *)
Definition example_init (tag : nat) (base address : Z) (a : BumpAllocator) : prog bool :=
  let? _ := Shm.or_fault (Shm.store_bytes base address [42]) in Done true.

Definition example_promise (tag : nat) (value : list Z) (s : Z) (c : list Z) : Prop :=
  c = drop 8 (splice (splice (replicate (Z.to_nat (16 + s)) 0) 8 value) 8 [42]).

Lemma example_initializes tag value s : zlength value = 2 -> 0 <= s ->
  initializes (example_promise tag value s) 2 1 (example_init tag) value (16 + s).
Proof.
  intros Hv Hs r base v Hm Hl Hb0 Hb1 Ho. assert (Hz : zlength (replicate (Z.to_nat (16 + s)) 0) = 16 + s) by (unfold zlength; rewrite length_replicate; lia).
  change (data_offset 1) with 8 in *. assert (Hd : zlength (splice (replicate (Z.to_nat (16 + s)) 0) 8 value) = 16 + s) by (rewrite splice_length; lia).
  apply wp_bind, wp_bind. eapply (wpr_store_bytes _ base [42] _ v); [done|done|lia|rewrite Hl; change (zlength [42]) with 1; lia|lia|].
  cbn [wp]. replace (base + 8 - base) with 8 by lia. eexists. split; [done|]. split; [rewrite splice_length; change (zlength [42]) with 1; lia|done].
Qed.

Definition blank_name : list Z := replicate 255 0.

Definition shm_processes : list (nat * action job) :=
  [(0%nat, Start 1 (Create [97] false 0 [1; 2] 0))] ++ replicate 11 (0%nat, Perform) ++ [(0%nat, Return)] ++
  [(1%nat, Start 1 (Consume [97] 0))] ++ replicate 9 (1%nat, Perform) ++ [(1%nat, Return)].

#[local] Instance example_shm_laws : @PosixLaws no_umask true Simple.system (Simple.simple_posix no_umask) :=
  faulty_laws no_umask (H0 := Simple.simple_laws no_umask).

(** The first process creates a storage of the bytes 1 and 2, its initializer makes the
    first byte 42, and the second process reads 42 and 2. *)
Lemma shm_storage_initialized_witness :
  let act := @act _ (Simple.simple_posix no_umask) _ _ (@program dev FS.blank_path blank_name true 2 1 FS.example_cfg example_init)
    (@accepts dev FS.blank_path blank_name 2 1 FS.example_cfg) in
  exists g p q, rtc (act_step (iact act)) (begin empty_system 2) (g, [p; q]) /\
  q.(doing) = Idle (Some (Consumed [42; 2])) /\ exists c, promised_by example_promise g.(started) c /\ [42; 2] = value_in 2 1 c.
Proof.
  intros act0.
  assert (Hok : match run_schedule (iact act0) shm_processes (begin empty_system 2) with
    | Some (_, [_; q]) => match q.(doing) with Idle (Some (Consumed c)) => bool_decide (c = [42; 2]) | _ => false end
    | _ => false
    end = true) by (vm_compute; reflexivity).
  destruct (run_schedule _ _ _) as [[g [|p [|q [|]]]]|] eqn:E; try discriminate Hok. exists g, p, q.
  destruct q.(doing) as [[[]|]|] eqn:Eq; try discriminate Hok. apply bool_decide_eq_true_1 in Hok. subst c.
  apply run_schedule_reachable in E. split; [exact E|]. split; [reflexivity|].
  destruct (@shm_storage_initialized dev _ no_umask _ example_shm_laws FS.blank_path blank_name true 2 1 FS.example_cfg example_init example_promise
    ltac:(lia) ltac:(lia) example_initializes empty_system 2 g [p; q]) as (_ & _ & Ht); [|exact E|].
  - intros i n Hn. cbn in Hn. by rewrite lookup_empty in Hn.
  - apply (Ht 1%nat q); [reflexivity|exact Eq].
Defined.

(** ** Windows of the creation *)

Section windows.
#[local] Existing Instance dev.
#[local] Instance plain_system : Posix Simple.system := Simple.simple_posix no_umask.

Definition example_storage (owns : bool) : Builder :=
  {| storage_name := [97]; supplementary_size := 0; b_has_ownership := owns; b_config := FS.example_cfg |}.

Definition creation (owns ok : bool) : prog (Result Storage DynamicStorageCreateError) :=
  create_and_initialize 1 FS.blank_path blank_name true 2 1 (example_storage owns) [1; 2] (fun _ _ _ => Done ok).

Definition opening : prog (Result Storage DynamicStorageOpenError) := open 1 FS.blank_path blank_name 2 1 (example_storage false).

Definition error_of {A E} (r : option (outcome (Result A E * Simple.system))) : option E :=
  match r with Some (Ret (Err e, _)) => Some e | _ => None end.

(** After [shm_open] and before [ftruncate] the object has no memory, and opening it fails
    with an error that does not say that the storage is not finished; afterwards it says so. *)
Lemma shm_storage_open_before_truncate :
  error_of (run 1 opening (advance 0 2 (creation true true) empty_system)) = Some DynamicOpen /\
  error_of (run 1 opening (advance 0 3 (creation true true) empty_system)) = Some InitializationNotYetFinalized.
Proof. split; vm_compute; reflexivity. Qed.

(** A creator without ownership whose initializer fails leaves an object behind that is
    never finished: it can neither be opened nor created anew. *)
Lemma shm_storage_failed_initialization :
  let w := FS.after 0 (creation false false) empty_system in
  error_of (run 0 (creation false false) empty_system) = Some DynamicInitializationFailed /\
  error_of (run 1 opening w) = Some InitializationNotYetFinalized /\
  error_of (run 1 (creation true true) w) = Some DynamicAlreadyExists.
Proof. split_and!; vm_compute; reflexivity. Qed.

End windows.

End ShmStorage.
