(* ===== verification/ShmChannel.v ===== *)
(** * Communication channels in shared memory

    [iceoryx2_cal::communication_channel::posix_shared_memory]: the receiver creates a
    dynamic storage that holds a queue with safe overflow, senders open it, and both work on
    the queue without further coordination.

    Creation and opening are programs over the storage of [ShmStorage].  Sending and
    receiving are modelled twice: as operations of one participant alone, and as the steps of
    a sender and a receiver that interleave at every access to the queue. *)

From stdpp Require Import sorting.
From S2P Require Import Prelude Math Allocator BumpAllocator QueueSpec Ring OverflowQueue ByteString SemanticString SystemTypes NamedConcept StaticStorage Posix DynamicStorage SharedMemory ShmStorage LocalChannel.

Module ShmChannel.
Module NC := NamedConcept.NamedConcept.
Module O := OverflowQueue.
Module L := LocalChannel.LocalChannel.
Module D := ShmStorage.ShmStorage.
Module Shm := SharedMemory.SharedMemory.
Import Posix.

(* src/iceoryx2_cal/src/communication_channel/posix_shared_memory.rs:247-250 Management *)
Record Management := { index_queue : OverflowQueue; enable_safe_overflow : bool }.

(* src/iceoryx2_cal/src/communication_channel/posix_shared_memory.rs:127-132 Creator *)
Record Creator := {
  channel_name : list Z;
  c_enable_safe_overflow : bool;
  c_buffer_size : Z;
  c_config : NC.NamedConceptConfiguration;
}.

(** ** Creation and opening *)

Section storage.
(** [encode] is the representation of the management data in memory, [default_config] the
    default of the dynamic storage. *)
Context `{Profile} (fuel : nat) (memory file_memory : list Z) (signals : bool) (size_T align_T : Z)
  (encode : Management -> list Z) (default_config : NC.NamedConceptConfiguration).
Implicit Types (cfg : NC.NamedConceptConfiguration) (n : list Z).

(** The prefix stays the one of the default. *)
(* src/iceoryx2_cal/src/communication_channel/posix_shared_memory.rs:90-94 from *)
Definition into cfg : NC.NamedConceptConfiguration :=
  {| NC.prefix := default_config.(NC.prefix); NC.suffix := cfg.(NC.suffix); NC.path_hint := cfg.(NC.path_hint) |}.

(* src/iceoryx2_cal/src/communication_channel/posix_shared_memory.rs:36-41 does_exist_cfg *)
Definition does_exist_cfg n cfg : prog (Result bool NamedConceptDoesExistError) := D.does_exist_cfg fuel memory file_memory n (into cfg).

(* src/iceoryx2_cal/src/communication_channel/posix_shared_memory.rs:43-47 list_cfg *)
Definition list_cfg cfg : prog (Result (list (list Z)) NamedConceptListError) := D.list_cfg file_memory (into cfg).

(* src/iceoryx2_cal/src/communication_channel/posix_shared_memory.rs:49-54 remove_cfg *)
Definition remove_cfg n cfg : prog (Result bool NamedConceptRemoveError) := D.remove_cfg memory file_memory n (into cfg).

(** The queue takes its cells from the memory behind the management data and zeroes them. *)
(* src/iceoryx2_cal/src/communication_channel/posix_shared_memory.rs:175-175 create_receiver *)
Definition initializer (m : Management) (base address : Z) (allocator : BumpAllocator) : prog bool :=
  let? '(r, q, _) := lift (O.init m.(index_queue) allocator) in
  match r with
  | Err _ => Done false
  | Ok _ =>
      let? _ := Shm.or_fault (Shm.store_bytes base q.(O.data_ptr) (replicate (Z.to_nat (8 * (q.(O.capacity) + 1))) 0)) in
      let? _ := Shm.or_fault (Shm.store_bytes base address (encode {| index_queue := q; enable_safe_overflow := m.(enable_safe_overflow) |})) in
      Done true
  end.

(* src/iceoryx2_cal/src/communication_channel/posix_shared_memory.rs:161-189 create_receiver *)
Definition create_receiver (c : Creator) : prog (Result D.Storage L.CommunicationChannelCreateError) :=
  let? supplementary := lift (O.const_memory_size c.(c_buffer_size)) in
  let m := {| index_queue := O.new_uninit c.(c_buffer_size); enable_safe_overflow := c.(c_enable_safe_overflow) |} in
  let? r := D.create_and_initialize fuel memory file_memory signals size_T align_T
              {| D.storage_name := c.(channel_name); D.supplementary_size := supplementary; D.b_has_ownership := true; D.b_config := into c.(c_config) |}
              (encode m) (initializer m) in
  Done match r with
       | Ok s => Ok s
       | Err DynamicAlreadyExists => Err L.AlreadyExists
       | Err _ => Err L.CreateInternalFailure
       end.

(* src/iceoryx2_cal/src/communication_channel/posix_shared_memory.rs:213-230 try_open_sender *)
Definition try_open_sender n cfg : prog (Result D.Storage L.CommunicationChannelOpenError) :=
  let? r := D.try_open fuel memory file_memory size_T align_T
              {| D.storage_name := n; D.supplementary_size := 0; D.b_has_ownership := true; D.b_config := into cfg |} in
  Done match r with
       | Ok s => Ok s
       | Err (DynamicDoesNotExist | InitializationNotYetFinalized) => Err L.DoesNotExist
       | Err _ => Err L.OpenInternalFailure
       end.

(** The error is only logged on its way. *)
(* src/iceoryx2_cal/src/communication_channel/posix_shared_memory.rs:232-243 open_sender *)
Definition open_sender n cfg : prog (Result D.Storage L.CommunicationChannelOpenError) := try_open_sender n cfg.

End storage.

(** ** Sending and receiving alone *)

Section operations.
Context `{Profile}.
Implicit Types m : Management.

Definition set_queue m q : Management := {| index_queue := q; enable_safe_overflow := m.(enable_safe_overflow) |}.

(* src/iceoryx2_cal/src/communication_channel/posix_shared_memory.rs:320-326 try_send *)
Definition try_send m (value : Z) : outcome (Result (option Z) L.CommunicationChannelSendError * Management) :=
  let! full := (if negb m.(enable_safe_overflow) then O.is_full m.(index_queue) else Ret false) in
  if (full : bool) then Ret (Err L.ReceiverCacheIsFull, m)
  else let! '(r, q) := O.push m.(index_queue) value in Ret (Ok r, set_queue m q).

(* src/iceoryx2_cal/src/communication_channel/posix_shared_memory.rs:280-282 receive *)
Definition receive m : outcome (option Z * Management) :=
  let! '(r, q) := O.pop m.(index_queue) in Ret (r, set_queue m q).

(* src/iceoryx2_cal/src/communication_channel/posix_shared_memory.rs:276-278 buffer_size *)
Definition buffer_size m : Z := m.(index_queue).(O.capacity).

(** ** A sender and a receiver that interleave *)

(** The sender looks whether the queue is full, which loads both positions until two pairs
    of loads agree, and pushes. *)
Inductive sender_pc :=
| Idle
| LoadWrite (v : Z)
| LoadRead (v w : Z)
| AgainWrite (v w r : Z)
| AgainRead (v w r : Z).

(** [refused]: the values that were not sent. *)
Record system := { inner : O.system; sender : sender_pc; overflow : bool; refused : list Z }.

Inductive action := CallSend (v : Z) | SenderStep | CallReceive | ReceiverStep.

Definition set_sender (s : system) (i : O.system) (p : sender_pc) : system :=
  {| inner := i; sender := p; overflow := s.(overflow); refused := s.(refused) |}.

(** The check is over: the push begins, or the value is refused. *)
(* src/iceoryx2_cal/src/communication_channel/posix_shared_memory.rs:320-326 try_send *)
Definition decide_send (s : system) (v w r : Z) : option system :=
  match r +u64 s.(inner).(O.queue).(O.capacity) with
  | Panic => Some (set_sender s (O.set_panicked s.(inner)) Idle)
  | Ret full_at =>
      if w =? full_at then Some {| inner := s.(inner); sender := Idle; overflow := s.(overflow); refused := s.(refused) ++ [v] |}
      else i ← O.act (O.CallPush v) s.(inner); Some (set_sender s i Idle)
  end.

(* src/iceoryx2_bb/lock_free/src/spsc/safely_overflowing_index_queue.rs:379-390 acquire_read_and_write_position *)
Definition check_step (s : system) : option system :=
  let q := s.(inner).(O.queue) in
  match s.(sender) with
  | Idle => None
  | LoadWrite v => Some (set_sender s s.(inner) (LoadRead v q.(O.write_position)))
  | LoadRead v w => Some (set_sender s s.(inner) (AgainWrite v w q.(O.read_position)))
  | AgainWrite v w r => Some (set_sender s s.(inner) (if w =? q.(O.write_position) then AgainRead v w r else LoadWrite v))
  | AgainRead v w r => if r =? q.(O.read_position) then decide_send s v w r else Some (set_sender s s.(inner) (LoadWrite v))
  end.

Definition act (a : action) (s : system) : option system :=
  match a with
  | CallSend v =>
      match s.(sender), s.(inner).(O.producer) with
      | Idle, O.PDone _ =>
          if s.(overflow) then i ← O.act (O.CallPush v) s.(inner); Some (set_sender s i Idle)
          else Some (set_sender s s.(inner) (LoadWrite v))
      | _, _ => None
      end
  | SenderStep =>
      match s.(sender) with
      | Idle => i ← O.act O.ProducerStep s.(inner); Some (set_sender s i Idle)
      | _ => check_step s
      end
  | CallReceive => i ← O.act O.CallPop s.(inner); Some (set_sender s i s.(sender))
  | ReceiverStep => i ← O.act O.ConsumerStep s.(inner); Some (set_sender s i s.(sender))
  end.

Definition start (ptr cap : Z) (overflow : bool) : outcome system :=
  let! i := O.start ptr cap in Ret {| inner := i; sender := Idle; overflow := overflow; refused := [] |}.

(** ** The invariant of a channel without overflow *)

(** A push that has begun finds room until it is done. *)
Definition has_room (i : O.system) : Prop :=
  let q := i.(O.queue) in
  match i.(O.producer) with
  | O.PStart _ | O.PLoadRead _ _ => q.(O.write_position) < q.(O.read_position) + q.(O.capacity)
  | O.PWrite _ _ _ full | O.PStore _ _ _ full => full = false
  | O.PCas _ | O.PReadOld _ => False
  | O.PDone _ => True
  end.

Definition sender_ok (i : O.system) (p : sender_pc) : Prop :=
  match p with
  | Idle => has_room i
  | LoadWrite _ => exists r, i.(O.producer) = O.PDone r
  | LoadRead _ w => (exists r, i.(O.producer) = O.PDone r) /\ w = i.(O.queue).(O.write_position)
  | AgainWrite _ w r | AgainRead _ w r =>
      (exists r, i.(O.producer) = O.PDone r) /\ w = i.(O.queue).(O.write_position) /\ 0 <= r <= i.(O.queue).(O.read_position)
  end.

Record inv (cap : Z) (s : system) : Prop := {
  chan_inner : O.Inv cap s.(inner);
  chan_overflow : s.(overflow) = false;
  chan_evicted : s.(inner).(O.evicted) = [];
  chan_sender : sender_ok s.(inner) s.(sender);
}.

(** What the steps of the receiver leave alone. *)
Lemma receiver_keeps cap i i' a : O.Inv cap i -> zlength i.(O.pushed) + 1 < 2 ^ 64 ->
  a = O.CallPop \/ a = O.ConsumerStep -> O.act a i = Some i' ->
  i'.(O.producer) = i.(O.producer) /\ i'.(O.evicted) = i.(O.evicted) /\
  i'.(O.queue).(O.write_position) = i.(O.queue).(O.write_position) /\ i'.(O.queue).(O.capacity) = i.(O.queue).(O.capacity) /\
  i.(O.queue).(O.read_position) <= i'.(O.queue).(O.read_position).
Proof.
  intros Hi HB [->| ->] E; cbn in E.
  - destruct i.(O.consumer); try done. injection E as <-. by split_and!.
  - pose proof (O.inv_order _ _ Hi) as Ho. pose proof (O.inv_pushed _ _ Hi) as Hp. pose proof (O.inv_consumer _ _ Hi) as Hc.
    destruct (O.consumer_step _ _) as [[q c]|] eqn:Es; injection E as <-; [|by split_and!]. cbn.
    destruct i.(O.consumer) as [|r|r|r v|x]; cbn in Es, Hc.
    + by injection Es as <- <-.
    + destruct (_ =? _); by injection Es as <- <-.
    + inv_outcome. by split_and!.
    + rewrite uadd_ok in Es by lia. cbn in Es. unfold O.compare_exchange_read in Es.
      destruct (Z.eqb_spec (O.read_position (O.queue i)) r) as [<-|]; injection Es as <- <-; cbn; split_and!; (done || lia).
    + by injection Es as <- <-.
Qed.

Lemma sender_ok_receiver cap i i' a p : O.Inv cap i -> zlength i.(O.pushed) + 1 < 2 ^ 64 ->
  a = O.CallPop \/ a = O.ConsumerStep -> O.act a i = Some i' -> sender_ok i p -> sender_ok i' p.
Proof.
  intros Hi HB Ha E. destruct (receiver_keeps _ _ _ _ Hi HB Ha E) as (Hp & _ & Hw & Hc & Hr).
  unfold sender_ok, has_room. rewrite Hp, Hw, Hc. destruct p; try done.
  - destruct i.(O.producer); try done; lia.
  - intros (? & -> & ?). split_and!; (done || lia).
  - intros (? & -> & ?). split_and!; (done || lia).
Qed.

(** The steps of the push never get to the eviction. *)
Lemma producer_room cap i i' : O.Inv cap i -> zlength i.(O.pushed) + cap + 1 < 2 ^ 64 -> 1 <= cap ->
  O.act O.ProducerStep i = Some i' -> has_room i -> has_room i' /\ i'.(O.evicted) = i.(O.evicted).
Proof.
  intros Hi HB Hc E. pose proof (O.inv_order _ _ Hi) as Ho. pose proof (O.inv_pushed _ _ Hi) as Hp.
  pose proof (O.inv_cap _ _ Hi) as Ecap. pose proof (O.inv_producer _ _ Hi) as Hpr. unfold has_room. cbn in E.
  destruct (O.producer_step _ _) as [[q pc]|] eqn:Es; injection E as <-; [|done]. cbn.
  destruct i.(O.producer) as [v|v w|v w r f|v w r f|r|r|b]; cbn in Es, Hpr |- *; try done.
  - by injection Es as <- <-.
  - rewrite uadd_ok in Es by lia. cbn in Es. injection Es as <- <-. intros H1. split; [|done]. apply Z.eqb_neq. lia.
  - intros ->. inv_outcome. done.
  - intros ->. inv_outcome. done.
  - by injection Es as <- <-.
Qed.

Definition sent (s : system) : Z := zlength s.(inner).(O.pushed).

(** A step leaves the queue alone, is a step of the queue, or panics. *)
Lemma act_inner a s s' : act a s = Some s' ->
  s'.(inner) = s.(inner) \/ s'.(inner) = O.set_panicked s.(inner) \/ exists b, O.act b s.(inner) = Some s'.(inner).
Proof.
  destruct a; cbn [act].
  - destruct s.(sender); try done. destruct s.(inner).(O.producer) eqn:Ep; try done. destruct s.(overflow).
    + destruct (O.act (O.CallPush v) s.(inner)) as [i|] eqn:E; [|done]. intros [= <-]. right; right. by exists (O.CallPush v).
    + intros [= <-]. by left.
  - destruct s.(sender) eqn:Es; cbn [check_step]; unfold check_step; rewrite ?Es.
    + destruct (O.act O.ProducerStep s.(inner)) as [i|] eqn:E; [|done]. intros [= <-]. right; right. by exists O.ProducerStep.
    + intros [= <-]. by left.
    + intros [= <-]. by left.
    + intros [= <-]. by left.
    + destruct (_ =? _); [|by intros [= <-]; left]. unfold decide_send.
      destruct (_ +u64 _); [|by intros [= <-]; right; left]. destruct (_ =? _); [by intros [= <-]; left|].
      destruct (O.act (O.CallPush v) s.(inner)) as [i|] eqn:E; [|done]. intros [= <-]. right; right. by exists (O.CallPush v).
  - destruct (O.act O.CallPop s.(inner)) as [i|] eqn:E; [|done]. intros [= <-]. right; right. by exists O.CallPop.
  - destruct (O.act O.ConsumerStep s.(inner)) as [i|] eqn:E; [|done]. intros [= <-]. right; right. by exists O.ConsumerStep.
Qed.

Lemma sent_mono s s' : act_step act s s' -> sent s <= sent s'.
Proof.
  intros [a t E]. unfold sent. destruct (act_inner _ _ _ E) as [->|[->|[b Eb]]]; [lia|cbn; lia|].
  apply O.oq_step_pushed_mono. by eapply act_step_intro.
Qed.

Lemma sent_step a s s' : act a s = Some s' -> sent s' <= sent s + 1.
Proof.
  intros E. unfold sent. destruct (act_inner _ _ _ E) as [->|[->|[b Eb]]]; [lia|cbn; lia|]. destruct b; cbn in Eb.
  - destruct (O.producer _); try done. injection Eb as <-. cbn. lia.
  - destruct (O.consumer _); try done. injection Eb as <-. cbn. lia.
  - destruct (O.producer_step _ _) as [[q p]|]; injection Eb as <-; [|cbn; lia]. cbn.
    destruct (O.producer (inner s)); cbn [O.record_push]; rewrite ?zlength_app; change (zlength [_]) with 1; lia.
  - destruct (O.consumer_step _ _) as [[q p]|]; injection Eb as <-; cbn; lia.
Qed.

(** The end of the check: the queue has room, or it is full at this moment. *)
Lemma decide_send_inv cap s s' v w : 1 <= cap < 2 ^ 64 - 1 -> inv cap s -> sent s + cap + 1 < 2 ^ 64 ->
  s.(sender) = AgainRead v w s.(inner).(O.queue).(O.read_position) -> decide_send s v w s.(inner).(O.queue).(O.read_position) = Some s' ->
  inv cap s' /\ (s'.(refused) = s.(refused) \/ zlength (O.contents s.(inner).(O.queue)) = cap).
Proof.
  intros Hc [Hi Hov Hev Hs] HB Es. unfold sent in HB. rewrite Es in Hs. cbn in Hs. destruct Hs as ([b Hb] & -> & _).
  pose proof (O.inv_order _ _ Hi) as Ho. pose proof (O.inv_pushed _ _ Hi) as Hp. pose proof (O.inv_cap _ _ Hi) as Ecap.
  pose proof (O.inv_producer _ _ Hi) as Hpr. rewrite Hb in Hpr. cbn in Hpr.
  unfold decide_send. rewrite uadd_ok by lia.
  destruct (Z.eqb_spec (O.write_position (O.queue (inner s))) (O.read_position (O.queue (inner s)) + O.capacity (O.queue (inner s)))) as [E|E].
  - intros [= <-]. split; [split; cbn; try done; unfold has_room; by rewrite Hb|]. right. pose proof (O.inv_cells _ _ Hi) as Hcells.
    unfold O.contents. rewrite ring_contents_length; lia.
  - destruct (O.act (O.CallPush v) s.(inner)) as [i|] eqn:Ea; [|done]. intros [= <-]. split; [|by left].
    assert (Hi' : O.Inv cap i).
    { eapply O.oq_step_inv; [done|by eapply act_step_intro| |done]. cbn in Ea. rewrite Hb in Ea. injection Ea as <-. cbn. lia. }
    cbn in Ea. rewrite Hb in Ea. injection Ea as <-. split; cbn; try done. unfold has_room. cbn. lia.
Qed.

Lemma channel_act_inv cap s s' a : 1 <= cap < 2 ^ 64 - 1 -> act a s = Some s' -> sent s' <= 2 ^ 64 - 2 - cap -> inv cap s ->
  inv cap s' /\ (s'.(refused) = s.(refused) \/ zlength (O.contents s.(inner).(O.queue)) = cap).
Proof.
  intros Hc E HB Hinv. assert (HB' : sent s <= 2 ^ 64 - 2 - cap) by (pose proof (sent_mono s s' ltac:(by eapply act_step_intro)); lia).
  pose proof Hinv as [Hi Hov Hev Hs]. unfold sent in *.
  assert (Hrecv : forall b i, b = O.CallPop \/ b = O.ConsumerStep -> O.act b s.(inner) = Some i -> zlength i.(O.pushed) <= 2 ^ 64 - 2 - cap ->
    inv cap (set_sender s i s.(sender))).
  { intros b i Hb Eb Hz. destruct (receiver_keeps _ _ _ _ Hi ltac:(lia) Hb Eb) as (_ & He & _).
    split; cbn; [|done|congruence|by eapply (sender_ok_receiver cap); eauto; lia].
    eapply O.oq_step_inv; [done|by eapply act_step_intro|lia|done]. }
  destruct a; cbn [act] in E.
  - destruct s.(sender) eqn:Es; try done. destruct s.(inner).(O.producer) eqn:Ep; try done. rewrite Hov in E. injection E as <-.
    split; [|by left]. split; cbn; [done..|]. by exists result.
  - destruct s.(sender) as [|v|v w|v w r|v w r] eqn:Es; unfold check_step in E; rewrite ?Es in E; cbn in Hs.
    + destruct (O.act O.ProducerStep s.(inner)) as [i|] eqn:Eb; [|done]. injection E as <-. cbn [inner set_sender] in HB.
      destruct (producer_room cap _ _ Hi ltac:(lia) ltac:(lia) Eb Hs) as [Hr He]. split; [|by left]. split; cbn; [|done|congruence|done].
      eapply O.oq_step_inv; [done|by eapply act_step_intro|lia|done].
    + injection E as <-. split; [|by left]. by split; cbn.
    + injection E as <-. split; [|by left]. destruct Hs as [? ->]. pose proof (O.inv_order _ _ Hi). split; cbn; try done. split_and!; (done || lia).
    + injection E as <-. split; [|by left]. split; cbn; try done. destruct (_ =? _); cbn; [done|apply Hs].
    + destruct (Z.eqb_spec r (O.read_position (O.queue (inner s)))) as [->|].
      * eapply decide_send_inv; eauto. unfold sent. lia.
      * injection E as <-. split; [|by left]. split; cbn; try done. apply Hs.
  - destruct (O.act O.CallPop s.(inner)) as [i|] eqn:Eb; [|done]. injection E as <-. split; [|by left]. apply (Hrecv O.CallPop); auto.
  - destruct (O.act O.ConsumerStep s.(inner)) as [i|] eqn:Eb; [|done]. injection E as <-. split; [|by left]. apply (Hrecv O.ConsumerStep); auto.
Qed.

Lemma channel_reachable_inv ptr cap s0 s : 1 <= cap < 2 ^ 64 - 1 -> start ptr cap false = Ret s0 -> rtc (act_step act) s0 s ->
  sent s + cap + 1 < 2 ^ 64 -> inv cap s.
Proof.
  intros Hc E Hr HB. apply (rtc_bounded_invariant (act_step act) sent (2 ^ 64 - 2 - cap) (inv cap) s0); [apply sent_mono| |done| |lia].
  - intros x y [a t Ea] Hy Hx. by eapply channel_act_inv.
  - unfold start in E. destruct (O.start ptr cap) as [i|] eqn:Ei; [|done]. injection E as <-.
    pose proof (O.oq_inv_start ptr cap i ltac:(lia) Ei). split; cbn; try done; unfold O.start in Ei; inv_outcome; done.
Qed.

Lemma seqZ_sorted (n : nat) : forall m : Z, StronglySorted Z.lt (seqZ m (Z.of_nat n)).
Proof.
  induction n as [|n IH]; intros m; [constructor|]. rewrite seqZ_cons by lia. replace (Z.pred (Z.of_nat (S n))) with (Z.of_nat n) by lia.
  constructor; [apply IH|]. apply Forall_forall. intros x Hx. apply elem_of_seqZ in Hx. lia.
Qed.

(** Positions in order are the positions from the first on. *)
Lemma sorted_positions l n : 0 <= n -> StronglySorted Z.lt l -> l ≡ₚ seqZ 0 n -> l = seqZ 0 n.
Proof.
  intros Hn Hl Hp. rewrite <-(Z2Nat.id n) in * by lia.
  eapply (StronglySorted_unique_strong Z.lt); [|done|apply seqZ_sorted|done]. intros; lia.
Qed.

(** What was received and what is still in the queue, in order. *)
Lemma received_in_order cap s : inv cap s -> map snd s.(inner).(O.popped) ++ O.contents s.(inner).(O.queue) = s.(inner).(O.pushed).
Proof.
  intros [Hi _ Hev Hs]. pose proof Hi as [Ec El Eh Ho Hlive Hp Hc Hh Hv Hf Hpa].
  assert (Hidle : O.in_flight s.(inner).(O.producer) = []).
  { destruct s.(sender); cbn in Hs; unfold has_room in Hs; destruct (O.producer (inner s)); try done; naive_solver. }
  unfold O.handed_out in Hh. rewrite Hidle, Hev in Hh. cbn [map app] in Hh. rewrite app_nil_r in Hh.
  rewrite Hev, app_nil_r in Hv. apply sorted_positions in Hh; [|lia|done].
  unfold O.contents. rewrite Ec, (live_contents _ _ _ _ s.(inner).(O.pushed)) by (done || lia).
  rewrite <-(O.omap_positions s.(inner).(O.pushed)) by done. rewrite Hh.
  rewrite <-(Z2Nat.id (O.read_position (O.queue (inner s)))) at 1 by lia.
  assert (Hlen : (Z.to_nat (O.read_position (O.queue (inner s))) <= length s.(inner).(O.pushed))%nat) by (unfold zlength in Eh; lia).
  rewrite O.omap_lookup_take by done. apply take_drop.
Qed.

End operations.

(** ** Properties *)

(** C25: One sender and one receiver use a channel without safe overflow that has at least one
    slot, and interleave at every access to the queue.  As long as the number of values sent
    and the capacity stay together below 2^64 - 2, nothing panics, no value is dropped, and what was received followed by what is in the
    queue is what was sent, in order; a value is refused only at a moment at which the queue
    is full. *)
Theorem shm_channel_fifo `{Profile} ptr cap s0 s :
  1 <= cap < 2 ^ 64 - 1 -> start ptr cap false = Ret s0 -> rtc (act_step act) s0 s -> sent s + cap + 2 < 2 ^ 64 ->
  s.(inner).(O.panicked) = false /\ s.(inner).(O.evicted) = [] /\
  map snd s.(inner).(O.popped) ++ O.contents s.(inner).(O.queue) = s.(inner).(O.pushed) /\
  forall a s', act a s = Some s' -> s'.(refused) <> s.(refused) -> zlength (O.contents s.(inner).(O.queue)) = cap.
Proof.
  intros Hc E Hr HB. pose proof (channel_reachable_inv ptr cap s0 s Hc E Hr ltac:(lia)) as Hinv.
  split; [apply (O.inv_panicked _ _ (chan_inner _ _ Hinv))|]. split; [apply Hinv|]. split; [by eapply received_in_order|].
  intros a s' Ea Hne. destruct (channel_act_inv cap s s' a Hc Ea) as [_ [?|?]]; [|done|done|done].
  pose proof (sent_step _ _ _ Ea). lia.
Qed.

(** The channel of one slot: a value is sent, a second one is refused, the receiver takes the
    first one, and the next one is sent. *)
Definition channel_schedule : list action :=
  [CallSend 7] ++ replicate 8 SenderStep ++ [CallSend 8] ++ replicate 4 SenderStep ++
  [CallReceive] ++ replicate 4 ReceiverStep ++ [CallSend 9] ++ replicate 8 SenderStep.

Lemma shm_channel_fifo_witness :
  exists s0 s, start (H := dev) 0 1 false = Ret s0 /\ run_schedule (act (H := dev)) channel_schedule s0 = Some s /\
    s.(refused) = [8] /\ map snd s.(inner).(O.popped) = [7] /\ O.contents s.(inner).(O.queue) = [9] /\ s.(inner).(O.evicted) = [].
Proof.
  eexists _, _. split; [reflexivity|]. split; [vm_compute; reflexivity|]. split; [reflexivity|]. split; [reflexivity|]. split; [reflexivity|].
  eapply (shm_channel_fifo (H := dev) 0 1).
  - lia.
  - reflexivity.
  - apply (run_schedule_reachable _ channel_schedule). vm_compute. reflexivity.
  - reflexivity.
Defined.

(** Alone, sending and receiving are the operations of a bounded list: without safe
    overflow a full channel refuses, with it the oldest value is handed back. *)
Theorem shm_channel_operations `{Profile} m value :
  O.wf m.(index_queue) -> m.(index_queue).(O.write_position) + buffer_size m + 1 < 2 ^ 64 ->
  let l := O.contents m.(index_queue) in
  (exists r m', try_send m value = Ret (r, m') /\ O.wf m'.(index_queue) /\ buffer_size m' = buffer_size m /\
     if negb m.(enable_safe_overflow) && (zlength l =? buffer_size m) then r = Err L.ReceiverCacheIsFull /\ m' = m
     else exists old, r = Ok old /\ (old, O.contents m'.(index_queue)) = spec_push_overflow (buffer_size m) l value) /\
  (exists r m', receive m = Ret (r, m') /\ O.wf m'.(index_queue) /\ (r, O.contents m'.(index_queue)) = spec_pop l).
Proof.
  intros Hwf HB l. subst l. unfold buffer_size in *. split.
  - unfold try_send. destruct (O.oq_push_refines m.(index_queue) value Hwf HB) as (r & q & Ep & Hq & Espec & Ec & _).
    destruct m.(enable_safe_overflow) eqn:Eo; cbn [negb andb outcome_bind].
    + rewrite Ep. cbn. eexists _, _. split; [done|]. cbn. split_and!; try done. by exists r.
    + rewrite O.oq_is_full_ok by done. cbn [outcome_bind]. destruct (_ =? _).
      * eexists _, _. by split_and!.
      * rewrite Ep. cbn. eexists _, _. split; [done|]. cbn. split_and!; try done. by exists r.
  - unfold receive. destruct (O.oq_pop_refines m.(index_queue) Hwf) as (r & q & Ep & Hq & Espec & _).
    rewrite Ep. cbn. eexists _, _. by split_and!.
Qed.

Definition example_management (overflow : bool) : Management :=
  {| index_queue := {| O.data_ptr := 0; O.cells := [3; 4]; O.capacity := 1; O.write_position := 1; O.read_position := 0;
                       O.has_producer := true; O.has_consumer := true; O.is_memory_initialized := true |};
     enable_safe_overflow := overflow |}.

Lemma shm_channel_operations_witness :
  exists r m', try_send (H := dev) (example_management true) 9 = Ret (r, m') /\ O.wf m'.(index_queue).
Proof.
  destruct (shm_channel_operations (H := dev) (example_management true) 9) as [(r & m' & E & Hwf & _) _].
  - split; cbn; (lia || reflexivity).
  - reflexivity.
  - exists r, m'. split; [exact E|exact Hwf].
Defined.

(** The memory that [create_receiver] asks for is enough for the cells of the queue: its
    initialization succeeds and leaves an empty queue of the requested capacity. *)
Theorem shm_channel_memory_suffices `{Profile} n start_ : 0 <= n < 2 ^ 56 -> 0 <= start_ < 2 ^ 62 ->
  exists size q a, O.const_memory_size n = Ret size /\
    O.init (O.new_uninit n) (BumpAllocator.new start_ size) = Ret (Ok tt, q, a) /\
    O.wf q /\ q.(O.capacity) = n /\ O.contents q = [].
Proof.
  intros Hn Hs. exists (8 * (n + 1) + 8 - 1).
  destruct (BumpAllocator.allocate_room (BumpAllocator.new start_ (8 * (n + 1) + 8 - 1)) (8 * (n + 1)) 3) as (c & e & E & He); [cbn; lia..|].
  change (2 ^ 3) with 8 in *. eexists _, _. split; [unfold O.const_memory_size; by checked|]. split.
  - unfold O.init. cbn [O.new_uninit O.is_memory_initialized O.capacity]. checked.
    cbn [Allocator.allocate BumpAllocator.bump_base_allocator]. rewrite E. by checked.
  - split_and!; try done. split; cbn; try lia. unfold zlength. rewrite length_replicate. lia.
Qed.

(** The examples run in the development profile. *)
#[local] Instance channel_example_profile : Profile := dev.

Lemma shm_channel_memory_suffices_witness :
  exists size q a, O.const_memory_size (H := dev) 3 = Ret size /\
    O.init (H := dev) (O.new_uninit 3) (BumpAllocator.new 4096 size) = Ret (Ok tt, q, a) /\ q.(O.capacity) = 3.
Proof.
  destruct (shm_channel_memory_suffices (H := dev) 3 4096) as (size & q & a & E1 & E2 & _ & E3 & _); [lia|lia|].
  exists size, q, a. split; [exact E1|]. split; [exact E2|exact E3].
Defined.

(** The prefix of a configuration has no effect: channels of different prefixes have the
    same names, and each of them lists, finds and removes those of the other. *)
Theorem shm_channel_ignores_prefix `{Profile} fuel memory file_memory signals size_T align_T encode d cfg cfg' n o k :
  cfg.(NC.suffix) = cfg'.(NC.suffix) -> cfg.(NC.path_hint) = cfg'.(NC.path_hint) ->
  list_cfg file_memory d cfg = list_cfg file_memory d cfg' /\
  does_exist_cfg fuel memory file_memory d n cfg = does_exist_cfg fuel memory file_memory d n cfg' /\
  remove_cfg memory file_memory d n cfg = remove_cfg memory file_memory d n cfg' /\
  let c g := {| channel_name := n; c_enable_safe_overflow := o; c_buffer_size := k; c_config := g |} in
  create_receiver fuel memory file_memory signals size_T align_T encode d (c cfg) = create_receiver fuel memory file_memory signals size_T align_T encode d (c cfg').
Proof.
  intros Hs Hp. assert (E : into d cfg = into d cfg') by (unfold into; congruence).
  unfold list_cfg, does_exist_cfg, remove_cfg. rewrite E. split_and!; try done.
  unfold create_receiver. cbn [channel_name c_enable_safe_overflow c_buffer_size c_config].
  revert E. generalize (into d cfg) (into d cfg'). by intros ? ? ->.
Qed.

Lemma shm_channel_ignores_prefix_witness :
  exists cfg cfg', cfg.(NC.prefix) <> cfg'.(NC.prefix) /\ list_cfg [] L.example_cfg cfg = list_cfg (H := dev) [] L.example_cfg cfg'.
Proof.
  exists L.example_cfg, {| NC.prefix := [98]; NC.suffix := [46; 99]; NC.path_hint := L.example_hint |}. split; [discriminate|].
  exact (proj1 (shm_channel_ignores_prefix (H := dev) 0 [] [] false 0 0 (fun _ => []) L.example_cfg _ _ [] false 0 eq_refl eq_refl)).
Defined.

(** Two producers on one queue; the flag chooses who moves. *)
Fixpoint two_senders `{Profile} (l : list bool) (q : OverflowQueue) (p1 p2 : O.producer_pc) : outcome (OverflowQueue * O.producer_pc * O.producer_pc) :=
  match l with
  | [] => Ret (q, p1, p2)
  | true :: l => let! '(q, p1) := O.producer_step q p1 in two_senders l q p1 p2
  | false :: l => let! '(q, p2) := O.producer_step q p2 in two_senders l q p1 p2
  end.

(** Nothing keeps a second sender from opening a channel, but the queue is made for one
    producer: when two of them send at the same time both succeed and one value is lost. *)
Theorem shm_channel_two_senders_lose_value :
  exists q0 q, O.new (H := dev) 0 4 = Ret q0 /\
    two_senders (H := dev) [true; true; false; false; true; true; false; false] q0 (O.PStart 7) (O.PStart 8) = Ret (q, O.PDone None, O.PDone None) /\
    O.contents q = [8].
Proof. eexists _, _. split; [reflexivity|]. split; vm_compute; reflexivity. Qed.

End ShmChannel.
