(* ===== verification/DynamicConfig.v ===== *)
(** * The dynamic configuration of a service

    [iceoryx2::service::dynamic_config]: the part of a service that its participants
    share and modify, namely the containers with the ids of the connected ports and the
    reference counter that decides who removes the service.  The configuration lives in a
    dynamic storage; the containers take their memory from the supplementary memory of
    that storage.

    [DynamicStorageConcept] is what the life cycle of a service relies on, and
    [process_local_concept] shows that a process-local dynamic storage that holds a
    configuration provides it. *)

From S2P Require Import Prelude Math Allocator UniqueIndexSet Container BumpAllocator ByteString SystemTypes NamedConcept StaticStorage DynamicStorage.

Module C := Container.
Module U := UniqueIndexSet.

(** What the users of the dynamic storage of one particular service rely on.  [S] are the
    settings a service is created with; the storages that have ever been created are
    numbered. *)
Class DynamicStorageConcept (S W : Type) := {
  dynamic_valid : S -> bool;
  dynamic_registered : W -> option nat;
  dynamic_counter : W -> nat -> option Z;
  dynamic_set_counter : W -> nat -> Z -> W;
  dynamic_open : W -> outcome (Result nat DynamicStorageOpenError);
  dynamic_create : S -> W -> outcome (Result nat DynamicStorageCreateError * W);
  dynamic_remove : W -> nat -> outcome W;
  dynamic_open_ok w : dynamic_open w = Ret
    match dynamic_registered w with
    | None => Err DynamicDoesNotExist
    | Some i => Ok i
    end;
  dynamic_set_registered w i v : dynamic_registered (dynamic_set_counter w i v) = dynamic_registered w;
  dynamic_set_same w i v : is_Some (dynamic_counter w i) ->
    dynamic_counter (dynamic_set_counter w i v) i = Some v;
  dynamic_set_other w i j v : i <> j ->
    dynamic_counter (dynamic_set_counter w i v) j = dynamic_counter w j;
  dynamic_create_ok s w : dynamic_valid s = true -> exists r w', dynamic_create s w = Ret (r, w') /\
    match dynamic_registered w with
    | Some _ => r = Err DynamicAlreadyExists /\ w' = w
    | None => exists i, r = Ok i /\ dynamic_counter w i = None /\
        dynamic_registered w' = Some i /\ dynamic_counter w' i = Some 1 /\
        forall j, i <> j -> dynamic_counter w' j = dynamic_counter w j
    end;
  (** The removal goes by the name; it panics when there is nothing to remove. *)
  dynamic_remove_ok w i : match dynamic_registered w with
    | None => dynamic_remove w i = Panic
    | Some _ => exists w', dynamic_remove w i = Ret w' /\ dynamic_registered w' = None /\
        forall j, dynamic_counter w' j = dynamic_counter w j
    end;
}.

Module DynamicConfig.

(** [fatal_panic!] on an error. *)
Definition unwrap {A E S : Type} (r : Result A E * S) : outcome S :=
  match r with (Ok _, s) => Ret s | (Err _, _) => Panic end.

Module PublishSubscribe.

(* src/iceoryx2/src/service/dynamic_config/publish_subscribe.rs:37-40 DynamicConfigSettings *)
Record DynamicConfigSettings := { number_of_subscribers : Z; number_of_publishers : Z }.

(* src/iceoryx2/src/service/dynamic_config/publish_subscribe.rs:45-48 DynamicConfig *)
Record DynamicConfig := { subscribers : Container Z; publishers : Container Z }.

Section operations.
Context `{Profile} (size_id align_id : Z).
Implicit Types (c : DynamicConfig) (config : DynamicConfigSettings).

(* src/iceoryx2/src/service/dynamic_config/publish_subscribe.rs:51-56 new *)
Definition new config : DynamicConfig :=
  {| subscribers := C.new_uninit config.(number_of_subscribers);
     publishers := C.new_uninit config.(number_of_publishers) |}.

(* src/iceoryx2/src/service/dynamic_config/publish_subscribe.rs:58-65 init *)
Definition init c (allocator : BumpAllocator) : outcome (DynamicConfig * BumpAllocator) :=
  let! '(r, s, allocator) := C.init size_id align_id c.(subscribers) allocator in
  let! s := unwrap (r, s) in
  let! '(r, p, allocator) := C.init size_id align_id c.(publishers) allocator in
  let! p := unwrap (r, p) in
  Ret ({| subscribers := s; publishers := p |}, allocator).

(* src/iceoryx2/src/service/dynamic_config/publish_subscribe.rs:67-70 memory_size *)
Definition memory_size config : outcome Z :=
  let! s := C.const_memory_size size_id align_id config.(number_of_subscribers) in
  let! p := C.const_memory_size size_id align_id config.(number_of_publishers) in
  s +u64 p.

(* src/iceoryx2/src/service/dynamic_config/publish_subscribe.rs:73-75 number_of_publishers *)
Definition connected_publishers c : Z := C.len c.(publishers).

(* src/iceoryx2/src/service/dynamic_config/publish_subscribe.rs:78-80 number_of_subscribers *)
Definition connected_subscribers c : Z := C.len c.(subscribers).

(* src/iceoryx2/src/service/dynamic_config/publish_subscribe.rs:82-84 add_subscriber_id *)
Definition add_subscriber_id c (id : Z)
    : outcome (option (U.UniqueIndex (list bool)) * DynamicConfig) :=
  let! '(r, s) := C.add c.(subscribers) id in
  Ret (r, {| subscribers := s; publishers := c.(publishers) |}).

(* src/iceoryx2/src/service/dynamic_config/publish_subscribe.rs:86-88 add_publisher_id *)
Definition add_publisher_id c (id : Z)
    : outcome (option (U.UniqueIndex (list bool)) * DynamicConfig) :=
  let! '(r, p) := C.add c.(publishers) id in
  Ret (r, {| subscribers := c.(subscribers); publishers := p |}).

End operations.
End PublishSubscribe.

Module Event.

(* src/iceoryx2/src/service/dynamic_config/event.rs:37-40 DynamicConfigSettings *)
Record DynamicConfigSettings := { number_of_listeners : Z; number_of_notifiers : Z }.

(* src/iceoryx2/src/service/dynamic_config/event.rs:45-48 DynamicConfig *)
Record DynamicConfig := { listeners : Container Z; notifiers : Container Z }.

Section operations.
Context `{Profile} (size_id align_id : Z).
Implicit Types (c : DynamicConfig) (config : DynamicConfigSettings).

(* src/iceoryx2/src/service/dynamic_config/event.rs:51-56 new *)
Definition new config : DynamicConfig :=
  {| listeners := C.new_uninit config.(number_of_listeners);
     notifiers := C.new_uninit config.(number_of_notifiers) |}.

(* src/iceoryx2/src/service/dynamic_config/event.rs:58-65 init *)
Definition init c (allocator : BumpAllocator) : outcome (DynamicConfig * BumpAllocator) :=
  let! '(r, l, allocator) := C.init size_id align_id c.(listeners) allocator in
  let! l := unwrap (r, l) in
  let! '(r, n, allocator) := C.init size_id align_id c.(notifiers) allocator in
  let! n := unwrap (r, n) in
  Ret ({| listeners := l; notifiers := n |}, allocator).

(* src/iceoryx2/src/service/dynamic_config/event.rs:67-70 memory_size *)
Definition memory_size config : outcome Z :=
  let! l := C.const_memory_size size_id align_id config.(number_of_listeners) in
  let! n := C.const_memory_size size_id align_id config.(number_of_notifiers) in
  l +u64 n.

(* src/iceoryx2/src/service/dynamic_config/event.rs:73-75 number_of_listeners *)
Definition connected_listeners c : Z := C.len c.(listeners).

(* src/iceoryx2/src/service/dynamic_config/event.rs:78-80 number_of_notifiers *)
Definition connected_notifiers c : Z := C.len c.(notifiers).

(* src/iceoryx2/src/service/dynamic_config/event.rs:82-84 add_listener_id *)
Definition add_listener_id c (id : Z)
    : outcome (option (U.UniqueIndex (list bool)) * DynamicConfig) :=
  let! '(r, l) := C.add c.(listeners) id in
  Ret (r, {| listeners := l; notifiers := c.(notifiers) |}).

(* src/iceoryx2/src/service/dynamic_config/event.rs:86-88 add_notifier_id *)
Definition add_notifier_id c (id : Z)
    : outcome (option (U.UniqueIndex (list bool)) * DynamicConfig) :=
  let! '(r, n) := C.add c.(notifiers) id in
  Ret (r, {| listeners := c.(listeners); notifiers := n |}).

End operations.
End Event.

(* src/iceoryx2/src/service/dynamic_config/mod.rs:31-31 MARKED_FOR_DESTRUCTION *)
Definition MARKED_FOR_DESTRUCTION : Z := 2 ^ 64 - 1 - 1.

(* src/iceoryx2/src/service/dynamic_config/mod.rs:34-37 DecrementReferenceCounterResult *)
Inductive DecrementReferenceCounterResult := HasOwners | NoMoreOwners.

(* src/iceoryx2/src/service/dynamic_config/mod.rs:40-43 MessagingPattern *)
Inductive MessagingPattern :=
| PublishSubscribePattern (c : PublishSubscribe.DynamicConfig)
| EventPattern (c : Event.DynamicConfig).

(* src/iceoryx2/src/service/dynamic_config/mod.rs:47-50 DynamicConfig *)
Record DynamicConfig := { messaging_pattern : MessagingPattern; reference_counter : Z }.

Definition set_reference_counter (v : Z) (c : DynamicConfig) : DynamicConfig :=
  {| messaging_pattern := c.(messaging_pattern); reference_counter := v |}.

(* src/iceoryx2/src/service/dynamic_config/mod.rs:63-68 new_uninit *)
Definition new_uninit (p : MessagingPattern) : DynamicConfig :=
  {| messaging_pattern := p; reference_counter := 1 |}.

Section operations.
Context `{Profile} (size_id align_id : Z).

(* src/iceoryx2/src/service/dynamic_config/mod.rs:70-75 init *)
Definition init (c : DynamicConfig) (allocator : BumpAllocator) : outcome DynamicConfig :=
  let! p := match c.(messaging_pattern) with
    | PublishSubscribePattern v =>
        let! '(v, _) := PublishSubscribe.init size_id align_id v allocator in Ret (PublishSubscribePattern v)
    | EventPattern v =>
        let! '(v, _) := Event.init size_id align_id v allocator in Ret (EventPattern v)
    end in
  Ret {| messaging_pattern := p; reference_counter := c.(reference_counter) |}.

(* src/iceoryx2/src/service/dynamic_config/mod.rs:124-131 publish_subscribe *)
Definition publish_subscribe (c : DynamicConfig) : outcome PublishSubscribe.DynamicConfig :=
  match c.(messaging_pattern) with PublishSubscribePattern v => Ret v | _ => Panic end.

(* src/iceoryx2/src/service/dynamic_config/mod.rs:133-140 event *)
Definition event (c : DynamicConfig) : outcome Event.DynamicConfig :=
  match c.(messaging_pattern) with EventPattern v => Ret v | _ => Panic end.

End operations.

(** ** Lemmas *)

Section lemmas.
Context `{Profile}.

(** The memory a container takes from a bump allocator, with the largest alignment loss. *)
Definition needed (size_T align_T cap : Z) : Z :=
  4 * (cap + 1) + (1 + size_T) * cap + 4 - 1 + align_T - 1.

Lemma const_memory_size_ok size_T align_T cap :
  0 < cap -> 0 <= size_T -> 0 < align_T -> needed size_T align_T cap + 1 < 2 ^ 64 ->
  C.const_memory_size size_T align_T cap = Ret (needed size_T align_T cap).
Proof. unfold needed, C.const_memory_size. intros. assert (size_T <= size_T * cap) by nia. by checked. Qed.

Lemma container_init_ok b size_T k cap :
  let need := needed size_T (2 ^ k) cap in
  0 < cap < 2 ^ 32 - 1 -> 0 < size_T -> 0 <= k ->
  0 <= b.(start) -> 0 <= b.(current_position) -> b.(current_position) + need <= b.(bump_size) ->
  b.(start) + b.(bump_size) < 2 ^ 64 ->
  exists (c : Container Z) e, C.init size_T (2 ^ k) (C.new_uninit cap) b = Ret (Ok tt, c, set_current_position b e) /\
    C.wf c [] /\ c.(C.capacity) = cap /\ b.(current_position) <= e <= b.(current_position) + need.
Proof.
  intros need Hc Hs Hk Hst Hp Hroom Hw. unfold needed in need. pose proof (Z.pow_pos_nonneg 2 k ltac:(lia) Hk).
  assert (0 <= size_T * cap) by nia. subst need. unfold C.init, C.new_uninit. cbn [C.is_memory_initialized C.index_set].
  assert (Hset : exists q e, U.init (U.new_uninit cap) b = Ret (Ok tt, q, set_current_position b e) /\
    b.(current_position) <= e <= b.(current_position) + 4 * (cap + 1) + 2 ^ 2 - 1).
  { unfold U.init, U.new_uninit. cbn [U.is_memory_initialized U.capacity].
    rewrite cast_small by (unfold in_range; lia). checked. change (layout_align _) with (2 ^ 2). 
    destruct (allocate_room b (4 * (cap + 1)) 2) as (c & e & E & He); [lia..|].
    change (2 ^ 2) with 4 in E at 1. cbn [Allocator.allocate bump_base_allocator]. rewrite E. cbn [outcome_bind].
    eexists _, e. split; [done|lia]. }
  destruct Hset as (q & e1 & E1 & He1). rewrite E1. cbn [outcome_bind C.set_slots C.capacity].
  destruct (U.init_fresh cap b q _ ltac:(lia) E1) as [Hf Ecap]. checked.
  cbn [Allocator.allocate bump_base_allocator].
  destruct (allocate_room (set_current_position b e1) cap 0) as (c2 & e2 & E2 & He2);
    [cbn in *; lia..|]. change (2 ^ 0) with 1 in *. rewrite Z.mul_1_l, E2. cbn [outcome_bind current_position set_current_position] in *.
  destruct (allocate_room (set_current_position b e2) (size_T * cap) k) as (c3 & e3 & E3 & He3); [cbn in *; nia..|].
  cbn [set_current_position start bump_size current_position] in *.
  unfold set_current_position in *. cbn [start bump_size] in *. rewrite E3. cbn [outcome_bind].
  eexists _, e3. split; [done|]. split; [|split; [done|lia]].
  pose proof (C.wf_fresh (T := Z) q Hf) as Hwf. rewrite Ecap in Hwf. apply Hwf. lia.
Qed.

Lemma two_containers_ok ptr size_T k cap1 cap2 :
  let n1 := needed size_T (2 ^ k) cap1 in let n2 := needed size_T (2 ^ k) cap2 in
  0 < cap1 < 2 ^ 32 - 1 -> 0 < cap2 < 2 ^ 32 - 1 -> 0 < size_T -> 0 <= k -> 0 <= ptr ->
  ptr + (n1 + n2) < 2 ^ 64 ->
  exists (c1 c2 : Container Z) b1 b2,
    C.init size_T (2 ^ k) (C.new_uninit cap1) (Bump.new ptr (n1 + n2)) = Ret (Ok tt, c1, b1) /\
    C.init size_T (2 ^ k) (C.new_uninit cap2) b1 = Ret (Ok tt, c2, b2) /\
    C.wf c1 [] /\ C.wf c2 [] /\ c1.(C.capacity) = cap1 /\ c2.(C.capacity) = cap2.
Proof.
  intros n1 n2 H1 H2 Hs Hk Hp Hw. pose proof (Z.pow_pos_nonneg 2 k ltac:(lia) Hk).
  assert (0 <= n1 /\ 0 <= n2) as [? ?] by (unfold n1, n2, needed; nia).
  destruct (container_init_ok (Bump.new ptr (n1 + n2)) size_T k cap1) as (c1 & e1 & E1 & Hw1 & Ec1 & He1);
    [cbn; fold n1; lia..|]. cbn [Bump.new current_position] in He1. fold n1 in He1.
  destruct (container_init_ok (set_current_position (Bump.new ptr (n1 + n2)) e1) size_T k cap2)
    as (c2 & e2 & E2 & Hw2 & Ec2 & He2); [cbn; fold n2; lia..|].
  eexists c1, c2, _, _. split; [exact E1|]. split; [exact E2|]. done.
Qed.

End lemmas.

#[local] Arguments C.init : simpl never.
#[local] Arguments C.new_uninit : simpl never.
#[local] Arguments C.const_memory_size : simpl never.
#[local] Arguments Bump.new : simpl never.
#[local] Arguments needed : simpl never.

(** ** The configuration in a process-local dynamic storage *)

(** What a service is created with. *)
Inductive settings :=
| PublishSubscribeSettings (s : PublishSubscribe.DynamicConfigSettings)
| EventSettings (s : Event.DynamicConfigSettings).

Definition capacities (s : settings) : Z * Z :=
  match s with
  | PublishSubscribeSettings s => (s.(PublishSubscribe.number_of_subscribers), s.(PublishSubscribe.number_of_publishers))
  | EventSettings s => (s.(Event.number_of_listeners), s.(Event.number_of_notifiers))
  end.

Section concept.
Context `{Profile} (memory : list Z) (size_id k : Z) (size_T align_T : Z).
Context (heap_allocate : Layout -> option Z).
Context (cfg : NamedConcept.NamedConceptConfiguration) (n path : list Z).
Implicit Types (w : DynamicStorage.world DynamicConfig) (s : settings).

Definition memory_size s : outcome Z :=
  match s with
  | PublishSubscribeSettings s => PublishSubscribe.memory_size size_id (2 ^ k) s
  | EventSettings s => Event.memory_size size_id (2 ^ k) s
  end.

Definition new s : MessagingPattern :=
  match s with
  | PublishSubscribeSettings s => PublishSubscribePattern (PublishSubscribe.new s)
  | EventSettings s => EventPattern (Event.new s)
  end.

Definition builder (supplementary_size : Z) : DynamicStorage.Builder :=
  {| DynamicStorage.b_name := n; DynamicStorage.supplementary_size := supplementary_size;
     DynamicStorage.b_has_ownership := false; DynamicStorage.b_config := cfg |}.

(* src/iceoryx2/src/service/builder/mod.rs:248-272 create_dynamic_config_storage *)
Definition create_dynamic_config_storage (p : MessagingPattern) (additional_size : Z) w
    : outcome (Result DynamicStorage.Storage DynamicStorageCreateError * DynamicStorage.world DynamicConfig) :=
  DynamicStorage.create_and_initialize memory size_T align_T heap_allocate
    (builder additional_size) (new_uninit p)
    (fun config allocator => let! config := init size_id (2 ^ k) config allocator in Ret (true, config)) w.

(** The configuration that a service with the given settings starts with. *)
Definition initial (c : DynamicConfig) s : Prop :=
  c.(reference_counter) = 1 /\
  exists a b : Container Z, C.wf a [] /\ C.wf b [] /\ (a.(C.capacity), b.(C.capacity)) = capacities s /\
    c.(messaging_pattern) = match s with
      | PublishSubscribeSettings _ => PublishSubscribePattern {| PublishSubscribe.subscribers := a; PublishSubscribe.publishers := b |}
      | EventSettings _ => EventPattern {| Event.listeners := a; Event.notifiers := b |}
      end.

(** The memory of both containers, and the block that the storage asks the heap for. *)
Definition needed_by s : Z := needed size_id (2 ^ k) (capacities s).1 + needed size_id (2 ^ k) (capacities s).2.

Definition block s : Layout := {| size := size_T + needed_by s; layout_align := align_T |}.

(** At least one and less than [u32::MAX] ports of each kind. *)
Definition supported s : bool :=
  let '(a, b) := capacities s in (0 <? a) && (a <? 2 ^ 32 - 1) && (0 <? b) && (b <? 2 ^ 32 - 1).

Lemma supported_inv s : supported s = true -> 0 < (capacities s).1 < 2 ^ 32 - 1 /\ 0 < (capacities s).2 < 2 ^ 32 - 1.
Proof. unfold supported. destruct (capacities s) as [a b]. rewrite !andb_true_iff, !Z.ltb_lt. cbn. lia. Qed.

(** The sizes of the port ids and of the configuration are small. *)
Context (Hid : 0 < size_id < 2 ^ 16) (Hk : 0 <= k <= 16) (HT : 0 <= size_T < 2 ^ 32).

Lemma needed_by_bound s : supported s = true -> 0 <= needed_by s < 2 ^ 62.
Proof.
  intros [Ha Hb]%supported_inv. pose proof (Z.pow_pos_nonneg 2 k ltac:(lia) ltac:(lia)).
  assert (2 ^ k <= 2 ^ 16) by (apply Z.pow_le_mono_r; lia). unfold needed_by, needed. nia.
Qed.

Lemma memory_size_ok s : supported s = true -> memory_size s = Ret (needed_by s).
Proof.
  intros Hs. pose proof (needed_by_bound s Hs) as Hm. apply supported_inv in Hs as [Ha Hb]. unfold needed_by in *.
  pose proof (Z.pow_pos_nonneg 2 k ltac:(lia) ltac:(lia)).
  assert (0 <= needed size_id (2 ^ k) (capacities s).1 /\ 0 <= needed size_id (2 ^ k) (capacities s).2) as [? ?] by (unfold needed; nia).
  destruct s as [[a b]|[a b]]; cbn [capacities fst snd] in *; cbn in *; unfold PublishSubscribe.memory_size, Event.memory_size;
    cbn; rewrite !const_memory_size_ok by lia; by checked.
Qed.

Lemma init_ok s ptr : supported s = true -> 0 <= ptr -> ptr + needed_by s < 2 ^ 64 ->
  exists c, init size_id (2 ^ k) (new_uninit (new s)) (Bump.new ptr (needed_by s)) = Ret c /\ initial c s.
Proof.
  intros [Ha Hb]%supported_inv Hp Hm. unfold needed_by in *.
  destruct s as [[a b]|[a b]]; cbn in Ha, Hb, Hm;
    (destruct (two_containers_ok ptr size_id k a b) as (c1 & c2 & b1 & b2 & E1 & E2 & Hw1 & Hw2 & Ec1 & Ec2); [lia..|]);
    unfold init, new_uninit, new; cbn [messaging_pattern]; unfold PublishSubscribe.init, Event.init; cbn;
    rewrite E1; cbn; rewrite E2; cbn; eexists; (split; [done|]); (split; [done|]); exists c1, c2; cbn; by subst.
Qed.

(** An allocation does not reach beyond the end of the address space; it may fail. *)
Context (Hheap : forall l a, heap_allocate l = Some a -> 0 <= a /\ a + l.(size) < 2 ^ 64).
Context (Hpath : DynamicStorage.path_for memory cfg n = Ret path).

(** The settings for which the heap has the memory. *)
Definition valid s : bool := supported s && bool_decide (is_Some (heap_allocate (block s))).

Definition create s w : outcome (Result nat DynamicStorageCreateError * DynamicStorage.world DynamicConfig) :=
  let! m := memory_size s in
  let! '(r, w) := create_dynamic_config_storage (new s) m w in
  Ret (match r with Ok h => Ok h.(DynamicStorage.data) | Err e => Err e end, w).

Definition open w : outcome (Result nat DynamicStorageOpenError) :=
  let! r := DynamicStorage.open memory (builder 0) w in
  Ret (match r with Ok h => Ok h.(DynamicStorage.data) | Err e => Err e end).

Definition remove w (i : nat) : outcome (DynamicStorage.world DynamicConfig) :=
  DynamicStorage.drop memory (DynamicStorage.acquire_ownership
    {| DynamicStorage.name := n; DynamicStorage.data := i; DynamicStorage.has_ownership := false;
       DynamicStorage.config := cfg |}) w.

Definition counter w (i : nat) : option Z := reference_counter <$> w.(DynamicStorage.heap) !! i.

Definition set_counter w (i : nat) (v : Z) : DynamicStorage.world DynamicConfig :=
  {| DynamicStorage.names := w.(DynamicStorage.names);
     DynamicStorage.heap := alter (set_reference_counter v) i w.(DynamicStorage.heap) |}.

Definition registered w : option nat := w.(DynamicStorage.names) !! path.

(** Without the memory the creation of a storage panics. *)
Lemma create_storage_ok s w : supported s = true ->
  memory_size s = Ret (needed_by s) /\
  let o := create_dynamic_config_storage (new s) (needed_by s) w in
  match registered w, heap_allocate (block s) with
  | Some _, _ => o = Ret (Err DynamicAlreadyExists, w)
  | None, None => o = Panic
  | None, Some _ => exists h c, o = Ret (Ok h,
        {| DynamicStorage.names := <[path := length w.(DynamicStorage.heap)]> w.(DynamicStorage.names);
           DynamicStorage.heap := w.(DynamicStorage.heap) ++ [c] |}) /\
        h.(DynamicStorage.data) = length w.(DynamicStorage.heap) /\ initial c s
  end.
Proof.
  intros Hs. split; [by apply memory_size_ok|]. pose proof (needed_by_bound s Hs) as Hm. cbn zeta.
  unfold create_dynamic_config_storage, DynamicStorage.create_and_initialize, registered.
  cbn [builder DynamicStorage.b_config DynamicStorage.b_name DynamicStorage.supplementary_size].
  rewrite Hpath. cbn [outcome_bind]. destruct (_ !! path) as [j|] eqn:Ew; [done|].
  unfold DynamicStorage.storage_details_new. rewrite uadd_ok by lia. cbn [outcome_bind]. fold (block s).
  destruct (heap_allocate (block s)) as [addr|] eqn:Ea; [|done]. apply Hheap in Ea as [Ha0 Ha]. cbn [block size] in Ha.
  cbn [outcome_bind]. rewrite uadd_ok by lia. cbn [outcome_bind].
  destruct (init_ok s (addr + size_T)) as (c & -> & Hc); [done|lia|lia|]. cbn [outcome_bind negb].
  eexists _, c. split; [done|]. by split.
Qed.

Lemma local_create_ok s w : valid s = true -> exists r w', create s w = Ret (r, w') /\
  match registered w with
  | Some _ => r = Err DynamicAlreadyExists /\ w' = w
  | None => exists i, r = Ok i /\ counter w i = None /\ registered w' = Some i /\ counter w' i = Some 1 /\
      forall j, i <> j -> counter w' j = counter w j
  end.
Proof.
  unfold valid. intros [Hs [addr Ha]%bool_decide_eq_true]%andb_true_iff. destruct (create_storage_ok s w Hs) as [Em Hr].
  unfold create. rewrite Em. cbn [outcome_bind]. cbn zeta in Hr. rewrite Ha in Hr. destruct (registered w) as [j|].
  - rewrite Hr. by eexists _, _.
  - destruct Hr as (h & c & -> & Eh & Hc & _). cbn [outcome_bind]. eexists _, _. split; [done|]. exists h.(DynamicStorage.data). rewrite Eh.
    unfold counter, registered. cbn [DynamicStorage.names DynamicStorage.heap].
    rewrite lookup_insert_eq, (lookup_ge_None_2 (DynamicStorage.heap w)) by lia.
    rewrite (lookup_app_r _ [c]), Nat.sub_diag by lia. split_and!; [done..|cbn; by rewrite Hc|].
    intros j Hj. f_equal. destruct (decide (j < length w.(DynamicStorage.heap))%nat).
    + by rewrite lookup_app_l.
    + rewrite !lookup_ge_None_2; [done|lia|]. rewrite length_app. cbn. lia.
Qed.

Lemma open_ok w : open w = Ret
  match registered w with None => Err DynamicDoesNotExist | Some i => Ok i end.
Proof.
  unfold open, DynamicStorage.open, DynamicStorage.try_open, registered.
  cbn [builder DynamicStorage.b_config DynamicStorage.b_name]. rewrite Hpath. cbn [outcome_bind].
  by destruct (_ !! path).
Qed.

Lemma local_remove_ok w i : match registered w with
  | None => remove w i = Panic
  | Some _ => exists w', remove w i = Ret w' /\ registered w' = None /\ forall j, counter w' j = counter w j
  end.
Proof.
  unfold remove, DynamicStorage.drop, DynamicStorage.remove_cfg, registered. cbn. rewrite Hpath. cbn [outcome_bind].
  destruct (_ !! path) eqn:Ew.
  - rewrite bool_decide_eq_true_2 by done. eexists. split; [done|]. cbn. by rewrite lookup_delete_eq.
  - rewrite bool_decide_eq_false_2; [done|]. by intros [].
Qed.

Lemma set_same w i v : is_Some (counter w i) -> counter (set_counter w i v) i = Some v.
Proof.
  unfold counter, set_counter. cbn. rewrite list_lookup_alter_eq. intros [z Hz]. by destruct (_ !! i).
Qed.

Lemma set_other w i j v : i <> j -> counter (set_counter w i v) j = counter w j.
Proof. intros Hj. unfold counter, set_counter. cbn. by rewrite list_lookup_alter_ne. Qed.

Definition process_local_concept : DynamicStorageConcept settings (DynamicStorage.world DynamicConfig) := {|
  dynamic_valid := valid;
  dynamic_set_counter := set_counter;
  dynamic_open_ok := open_ok;
  dynamic_set_registered w i v := eq_refl;
  dynamic_set_same := set_same;
  dynamic_set_other := set_other;
  dynamic_create_ok := local_create_ok;
  dynamic_remove_ok := local_remove_ok;
|}.

(** ** Properties *)

(** C23: [memory_size] is enough.  For all settings with at least one and less than [u32::MAX]
    ports of each kind the size is computed without overflow, and when the heap has a block
    of that size for a new storage, wherever it is, both containers fit into it whatever is
    lost to alignment: the storage is created and contains two empty containers with the
    requested capacities and the reference counter 1.  When the heap has no such block the
    creation panics; when the storage exists already it is refused and nothing changes. *)
Theorem dynamic_config_fits s w : supported s = true ->
  exists m, memory_size s = Ret m /\
    let o := create_dynamic_config_storage (new s) m w in
    match registered w, heap_allocate {| size := size_T + m; layout_align := align_T |} with
    | Some _, _ => o = Ret (Err DynamicAlreadyExists, w)
    | None, None => o = Panic
    | None, Some _ => exists h w' c, o = Ret (Ok h, w') /\ DynamicStorage.get h w' = Some c /\ initial c s
    end.
Proof.
  intros Hs. destruct (create_storage_ok s w Hs) as [Em Hr]. exists (needed_by s). split; [done|]. cbn zeta in *.
  change {| size := size_T + needed_by s; layout_align := align_T |} with (block s).
  destruct (registered w) as [j|]; [done|]. destruct (heap_allocate (block s)); [|done].
  destruct Hr as (h & c & E & Eh & Hc). eexists h, _, c. split; [exact E|].
  split; [|done]. unfold DynamicStorage.get. rewrite Eh. cbn. by rewrite lookup_app_r, Nat.sub_diag by lia.
Qed.

End concept.

Lemma dynamic_config_fits_witness : exists cfg m h w' c,
  @memory_size dev 16 4 (PublishSubscribeSettings {| PublishSubscribe.number_of_subscribers := 8; PublishSubscribe.number_of_publishers := 2 |}) = Ret m /\
  @create_dynamic_config_storage dev (replicate 4096 0) 16 4 200 8 (fun l => if size l <? 2 ^ 20 then Some 4104 else None) cfg [97]
    (new (PublishSubscribeSettings {| PublishSubscribe.number_of_subscribers := 8; PublishSubscribe.number_of_publishers := 2 |}))
    m {| DynamicStorage.names := ∅; DynamicStorage.heap := [] |} = Ret (Ok h, w') /\
  DynamicStorage.get h w' = Some c /\ c.(reference_counter) = 1.
Proof.
  destruct StaticStorage.example_static_path as (cfg & path & E).
  set (heap := fun l : Layout => if size l <? 2 ^ 20 then Some 4104 else None).
  assert (Hheap : forall l a, heap l = Some a -> 0 <= a /\ a + size l < 2 ^ 64)
    by (intros l a; unfold heap; destruct (Z.ltb_spec (size l) (2 ^ 20)); intros Ea; [injection Ea as <-; lia|discriminate Ea]).
  destruct (@dynamic_config_fits dev (replicate 4096 0) 16 4 200 8 heap cfg [97] path)
    with (s := PublishSubscribeSettings {| PublishSubscribe.number_of_subscribers := 8; PublishSubscribe.number_of_publishers := 2 |})
      (w := {| DynamicStorage.names := ∅; DynamicStorage.heap := @nil DynamicConfig |})
    as (m & Em & Ho);
    [lia|lia|lia|exact Hheap|exact E|vm_compute; reflexivity|].
  pose proof Em as E0. vm_compute in Em. injection Em as <-. change (registered path {| DynamicStorage.names := ∅; DynamicStorage.heap := @nil DynamicConfig |}) with (@None nat) in Ho.
  destruct Ho as (h & w' & c & Ec & Eg & Hc).
  eexists cfg, _, h, w', c. split; [exact E0|]. split; [exact Ec|]. split; [exact Eg|exact (proj1 Hc)].
Defined.

End DynamicConfig.
