(* ===== verification/ServiceConfig.v ===== *)
(** * The static configuration of a service and its builders

    [iceoryx2::service::static_config] and the settings of
    [iceoryx2::service::builder::{publish_subscribe, event}]: what a service is created
    with, what a user who opens it may require, and when an existing service satisfies
    the requirements.

    Strings are lists of bytes.  The accessors of the builders panic when the builder
    holds the configuration of the other messaging pattern. *)

From S2P Require Import Prelude.

Module ServiceConfig.

(** The parts of [config::Config] that the services read; durations are nanoseconds. *)
(* src/iceoryx2/src/config.rs:187-211 PublishSubscribe *)
Record PublishSubscribeDefaults := {
  default_max_subscribers : Z;
  default_max_publishers : Z;
  default_subscriber_max_buffer_size : Z;
  default_subscriber_max_borrowed_samples : Z;
  default_publisher_history_size : Z;
  default_enable_safe_overflow : bool;
}.

(* src/iceoryx2/src/config.rs:217-222 Event *)
Record EventDefaults := { default_max_listeners : Z; default_max_notifiers : Z }.

(* src/iceoryx2/src/config.rs:230-235 Config *)
Record Config := {
  creation_timeout : Z;
  publish_subscribe_defaults : PublishSubscribeDefaults;
  event_defaults : EventDefaults;
}.

(* src/iceoryx2/src/config.rs:239-275 default *)
Definition default_config : Config := {|
  creation_timeout := 500 * 1000000;
  publish_subscribe_defaults := {|
    default_max_subscribers := 8; default_max_publishers := 2;
    default_subscriber_max_buffer_size := 2; default_subscriber_max_borrowed_samples := 2;
    default_publisher_history_size := 1; default_enable_safe_overflow := true |};
  event_defaults := {| default_max_listeners := 1; default_max_notifiers := 16 |};
|}.

(* src/iceoryx2/src/service/static_config/publish_subscribe.rs:44-52 StaticConfig *)
Record PublishSubscribeConfig := {
  max_subscribers : Z;
  max_publishers : Z;
  history_size : Z;
  subscriber_max_buffer_size : Z;
  subscriber_max_borrowed_samples : Z;
  enable_safe_overflow : bool;
  type_name : list Z;
}.

(* src/iceoryx2/src/service/static_config/publish_subscribe.rs:55-71 new *)
Definition publish_subscribe_config_new (config : Config) : PublishSubscribeConfig :=
  let d := config.(publish_subscribe_defaults) in {|
  max_subscribers := d.(default_max_subscribers);
  max_publishers := d.(default_max_publishers);
  history_size := d.(default_publisher_history_size);
  subscriber_max_buffer_size := d.(default_subscriber_max_buffer_size);
  subscriber_max_borrowed_samples := d.(default_subscriber_max_borrowed_samples);
  enable_safe_overflow := d.(default_enable_safe_overflow);
  type_name := [];
|}.

(* src/iceoryx2/src/service/static_config/event.rs:37-40 StaticConfig *)
Record EventConfig := { max_notifiers : Z; max_listeners : Z }.

(* src/iceoryx2/src/service/static_config/event.rs:43-48 new *)
Definition event_config_new (config : Config) : EventConfig :=
  {| max_notifiers := config.(event_defaults).(default_max_notifiers);
     max_listeners := config.(event_defaults).(default_max_listeners) |}.

(* src/iceoryx2/src/service/messaging_pattern.rs:42-45 MessagingPattern *)
Inductive MessagingPattern :=
| PublishSubscribe (c : PublishSubscribeConfig)
| Event (c : EventConfig).

(* src/iceoryx2/src/service/messaging_pattern.rs:48-57 is_same_pattern *)
Definition is_same_pattern (self rhs : MessagingPattern) : bool :=
  match self with
  | PublishSubscribe _ => match rhs with PublishSubscribe _ => true | _ => false end
  | Event _ => match rhs with Event _ => true | _ => false end
  end.

(* src/iceoryx2/src/service/static_config/mod.rs:34-38 StaticConfig *)
Record StaticConfig := {
  uuid : list Z;
  service_name : list Z;
  messaging_pattern : MessagingPattern;
}.

Definition set_messaging_pattern (c : StaticConfig) p : StaticConfig :=
  {| uuid := c.(uuid); service_name := c.(service_name); messaging_pattern := p |}.

(** [hash] stands for [Hasher::new(..).as_hex_string()]. *)
(* src/iceoryx2/src/service/static_config/mod.rs:41-50 new_event *)
Definition new_event (hash : list Z -> list Z) (name : list Z) (config : Config) : StaticConfig :=
  {| uuid := hash name; service_name := name;
     messaging_pattern := Event (event_config_new config) |}.

(* src/iceoryx2/src/service/static_config/mod.rs:52-63 new_publish_subscribe *)
Definition new_publish_subscribe (hash : list Z -> list Z) (name : list Z) (config : Config) : StaticConfig :=
  {| uuid := hash name; service_name := name;
     messaging_pattern := PublishSubscribe (publish_subscribe_config_new config) |}.

(* src/iceoryx2/src/service/static_config/mod.rs:80-83 has_same_messaging_pattern *)
Definition has_same_messaging_pattern (self rhs : StaticConfig) : bool :=
  is_same_pattern self.(messaging_pattern) rhs.(messaging_pattern).

(* src/iceoryx2/src/service/static_config/mod.rs:85-92 event *)
Definition event (c : StaticConfig) : outcome EventConfig :=
  match c.(messaging_pattern) with Event v => Ret v | _ => Panic end.

(* src/iceoryx2/src/service/static_config/mod.rs:104-111 publish_subscribe *)
Definition publish_subscribe (c : StaticConfig) : outcome PublishSubscribeConfig :=
  match c.(messaging_pattern) with PublishSubscribe v => Ret v | _ => Panic end.

(** Changing the part of the messaging pattern through the mutable accessors. *)
(* src/iceoryx2/src/service/static_config/mod.rs:94-102 event_mut *)
Definition event_mut (f : EventConfig -> EventConfig) (c : StaticConfig) : outcome StaticConfig :=
  let! v := event c in Ret (set_messaging_pattern c (Event (f v))).

(* src/iceoryx2/src/service/static_config/mod.rs:113-121 publish_subscribe_mut *)
Definition publish_subscribe_mut (f : PublishSubscribeConfig -> PublishSubscribeConfig) (c : StaticConfig)
    : outcome StaticConfig :=
  let! v := publish_subscribe c in Ret (set_messaging_pattern c (PublishSubscribe (f v))).

(* src/iceoryx2/src/service/builder/mod.rs:158-163 BuilderWithServiceType *)
Record BuilderWithServiceType := { service_config : StaticConfig; global_config : Config }.

(** ** The builder of publish-subscribe services *)

Module PubSub.

(* src/iceoryx2/src/service/builder/publish_subscribe.rs:32-48 PublishSubscribeOpenError *)
Inductive PublishSubscribeOpenError :=
| DoesNotExist | InternalFailure | IncompatibleTypes | IncompatibleMessagingPattern
| DoesNotSupportRequestedMinBufferSize | DoesNotSupportRequestedMinHistorySize
| DoesNotSupportRequestedMinSubscriberBorrowedSamples | DoesNotSupportRequestedAmountOfPublishers
| DoesNotSupportRequestedAmountOfSubscribers | IncompatibleOverflowBehavior | Inaccessible
| PermissionDenied | ServiceInCorruptedState | HangsInCreation
| UnableToOpenDynamicServiceInformation.

(* src/iceoryx2/src/service/builder/publish_subscribe.rs:60-68 PublishSubscribeCreateError *)
Inductive PublishSubscribeCreateError :=
| CreateCorrupted | SubscriberBufferMustBeLargerThanHistorySize | CreateAlreadyExists
| CreatePermissionDenied | CreateInternalFailure | CreateIsBeingCreatedByAnotherInstance
| CreateUnableToCreateStaticServiceInformation.

(* src/iceoryx2/src/service/builder/publish_subscribe.rs:107-115 Builder *)
Record Builder := {
  base : BuilderWithServiceType;
  verify_number_of_subscribers : bool;
  verify_number_of_publishers : bool;
  verify_subscriber_max_buffer_size : bool;
  verify_subscriber_max_borrowed_samples : bool;
  verify_publisher_history_size : bool;
  verify_enable_safe_overflow : bool;
}.

Definition set_service_config (b : Builder) (c : StaticConfig) : Builder := {|
  base := {| service_config := c; global_config := b.(base).(global_config) |};
  verify_number_of_subscribers := b.(verify_number_of_subscribers);
  verify_number_of_publishers := b.(verify_number_of_publishers);
  verify_subscriber_max_buffer_size := b.(verify_subscriber_max_buffer_size);
  verify_subscriber_max_borrowed_samples := b.(verify_subscriber_max_borrowed_samples);
  verify_publisher_history_size := b.(verify_publisher_history_size);
  verify_enable_safe_overflow := b.(verify_enable_safe_overflow);
|}.

(* src/iceoryx2/src/service/builder/publish_subscribe.rs:118-134 new *)
Definition new (base : BuilderWithServiceType) : Builder := {|
  base := {|
    service_config := set_messaging_pattern base.(service_config)
      (PublishSubscribe (publish_subscribe_config_new base.(global_config)));
    global_config := base.(global_config) |};
  verify_number_of_subscribers := false; verify_number_of_publishers := false;
  verify_subscriber_max_buffer_size := false; verify_subscriber_max_borrowed_samples := false;
  verify_publisher_history_size := false; verify_enable_safe_overflow := false;
|}.

(* src/iceoryx2/src/service/builder/publish_subscribe.rs:145-152 config_details *)
Definition config_details (b : Builder) : outcome PublishSubscribeConfig :=
  match b.(base).(service_config).(messaging_pattern) with
  | PublishSubscribe v => Ret v
  | _ => Panic
  end.

(* src/iceoryx2/src/service/builder/publish_subscribe.rs:136-143 config_details_mut *)
Definition config_details_mut (f : PublishSubscribeConfig -> PublishSubscribeConfig) (b : Builder) : outcome Builder :=
  let! v := config_details b in
  Ret (set_service_config b (set_messaging_pattern b.(base).(service_config) (PublishSubscribe (f v)))).

(** The flags of a builder with one of them set. *)
Inductive flag := Subscribers | Publishers | BufferSize | BorrowedSamples | HistorySize | SafeOverflow.

Definition set_flag (k : flag) (b : Builder) : Builder := {|
  base := b.(base);
  verify_number_of_subscribers := match k with Subscribers => true | _ => b.(verify_number_of_subscribers) end;
  verify_number_of_publishers := match k with Publishers => true | _ => b.(verify_number_of_publishers) end;
  verify_subscriber_max_buffer_size := match k with BufferSize => true | _ => b.(verify_subscriber_max_buffer_size) end;
  verify_subscriber_max_borrowed_samples := match k with BorrowedSamples => true | _ => b.(verify_subscriber_max_borrowed_samples) end;
  verify_publisher_history_size := match k with HistorySize => true | _ => b.(verify_publisher_history_size) end;
  verify_enable_safe_overflow := match k with SafeOverflow => true | _ => b.(verify_enable_safe_overflow) end;
|}.

Definition with_details (subs pubs hist buf borrowed : Z) (overflow : bool) (name : list Z) : PublishSubscribeConfig :=
  {| max_subscribers := subs; max_publishers := pubs; history_size := hist;
     subscriber_max_buffer_size := buf; subscriber_max_borrowed_samples := borrowed;
     enable_safe_overflow := overflow; type_name := name |}.

(* src/iceoryx2/src/service/builder/publish_subscribe.rs:156-160 enable_safe_overflow *)
Definition set_enable_safe_overflow (value : bool) (b : Builder) : outcome Builder :=
  let! b := config_details_mut (fun c => with_details c.(max_subscribers) c.(max_publishers) c.(history_size)
    c.(subscriber_max_buffer_size) c.(subscriber_max_borrowed_samples) value c.(type_name)) b in
  Ret (set_flag SafeOverflow b).

(* src/iceoryx2/src/service/builder/publish_subscribe.rs:165-169 subscriber_max_borrowed_samples *)
Definition set_subscriber_max_borrowed_samples (value : Z) (b : Builder) : outcome Builder :=
  let! b := config_details_mut (fun c => with_details c.(max_subscribers) c.(max_publishers) c.(history_size)
    c.(subscriber_max_buffer_size) (Z.max value 1) c.(enable_safe_overflow) c.(type_name)) b in
  Ret (set_flag BorrowedSamples b).

(* src/iceoryx2/src/service/builder/publish_subscribe.rs:174-178 history_size *)
Definition set_history_size (value : Z) (b : Builder) : outcome Builder :=
  let! b := config_details_mut (fun c => with_details c.(max_subscribers) c.(max_publishers) value
    c.(subscriber_max_buffer_size) c.(subscriber_max_borrowed_samples) c.(enable_safe_overflow) c.(type_name)) b in
  Ret (set_flag HistorySize b).

(* src/iceoryx2/src/service/builder/publish_subscribe.rs:183-187 subscriber_max_buffer_size *)
Definition set_subscriber_max_buffer_size (value : Z) (b : Builder) : outcome Builder :=
  let! b := config_details_mut (fun c => with_details c.(max_subscribers) c.(max_publishers) c.(history_size)
    value c.(subscriber_max_borrowed_samples) c.(enable_safe_overflow) c.(type_name)) b in
  Ret (set_flag BufferSize b).

(* src/iceoryx2/src/service/builder/publish_subscribe.rs:192-196 max_subscribers *)
Definition set_max_subscribers (value : Z) (b : Builder) : outcome Builder :=
  let! b := config_details_mut (fun c => with_details value c.(max_publishers) c.(history_size)
    c.(subscriber_max_buffer_size) c.(subscriber_max_borrowed_samples) c.(enable_safe_overflow) c.(type_name)) b in
  Ret (set_flag Subscribers b).

(* src/iceoryx2/src/service/builder/publish_subscribe.rs:201-205 max_publishers *)
Definition set_max_publishers (value : Z) (b : Builder) : outcome Builder :=
  let! b := config_details_mut (fun c => with_details c.(max_subscribers) value c.(history_size)
    c.(subscriber_max_buffer_size) c.(subscriber_max_borrowed_samples) c.(enable_safe_overflow) c.(type_name)) b in
  Ret (set_flag Publishers b).

(** [self.config_details_mut().type_name = type_name::<MessageType>()], with which
    [open], [create] and [open_or_create] start. *)
Definition set_type_name (name : list Z) (b : Builder) : outcome Builder :=
  config_details_mut (fun c => with_details c.(max_subscribers) c.(max_publishers) c.(history_size)
    c.(subscriber_max_buffer_size) c.(subscriber_max_borrowed_samples) c.(enable_safe_overflow) name) b.

Definition at_least_one (v : Z) : Z := if v =? 0 then 1 else v.

(* src/iceoryx2/src/service/builder/publish_subscribe.rs:430-457 adjust_properties_to_meaningful_values *)
Definition adjust_properties_to_meaningful_values (b : Builder) : outcome Builder :=
  let! c := publish_subscribe_mut (fun c =>
    with_details (at_least_one c.(max_subscribers)) (at_least_one c.(max_publishers)) c.(history_size)
      (at_least_one c.(subscriber_max_buffer_size)) (at_least_one c.(subscriber_max_borrowed_samples))
      c.(enable_safe_overflow) c.(type_name)) b.(base).(service_config) in
  Ret (set_service_config b c).

(* src/iceoryx2/src/service/builder/publish_subscribe.rs:459-525 verify_service_properties *)
Definition verify_service_properties (b : Builder) (existing_settings : StaticConfig)
    : outcome (Result PublishSubscribeConfig PublishSubscribeOpenError) :=
  let! required := publish_subscribe b.(base).(service_config) in
  match existing_settings.(messaging_pattern) with
  | PublishSubscribe existing => Ret
      (if b.(verify_number_of_publishers) && (existing.(max_publishers) <? required.(max_publishers))
       then Err DoesNotSupportRequestedAmountOfPublishers
       else if b.(verify_number_of_subscribers) && (existing.(max_subscribers) <? required.(max_subscribers))
       then Err DoesNotSupportRequestedAmountOfSubscribers
       else if b.(verify_subscriber_max_buffer_size) &&
         (existing.(subscriber_max_buffer_size) <? required.(subscriber_max_buffer_size))
       then Err DoesNotSupportRequestedMinBufferSize
       else if b.(verify_publisher_history_size) && (existing.(history_size) <? required.(history_size))
       then Err DoesNotSupportRequestedMinHistorySize
       else if b.(verify_subscriber_max_borrowed_samples) &&
         (existing.(subscriber_max_borrowed_samples) <? required.(subscriber_max_borrowed_samples))
       then Err DoesNotSupportRequestedMinSubscriberBorrowedSamples
       else if b.(verify_enable_safe_overflow) &&
         negb (Bool.eqb existing.(enable_safe_overflow) required.(enable_safe_overflow))
       then Err IncompatibleOverflowBehavior
       else Ok existing)
  | _ => Ret (Err IncompatibleMessagingPattern)
  end.

End PubSub.

(** ** The builder of event services *)

Module Events.

(* src/iceoryx2/src/service/builder/event.rs:29-39 EventOpenError *)
Inductive EventOpenError :=
| DoesNotExist | PermissionDenied | EventInCorruptedState | IncompatibleMessagingPattern
| InternalFailure | HangsInCreation | DoesNotSupportRequestedAmountOfNotifiers
| DoesNotSupportRequestedAmountOfListeners | UnableToOpenDynamicServiceInformation.

(* src/iceoryx2/src/service/builder/event.rs:51-58 EventCreateError *)
Inductive EventCreateError :=
| CreateCorrupted | CreateInternalFailure | CreateIsBeingCreatedByAnotherInstance
| CreateAlreadyExists | CreatePermissionDenied | CreateUnableToCreateStaticServiceInformation.

(* src/iceoryx2/src/service/builder/event.rs:91-95 Builder *)
Record Builder := {
  base : BuilderWithServiceType;
  verify_max_notifiers : bool;
  verify_max_listeners : bool;
}.

Definition set_service_config (b : Builder) (c : StaticConfig) : Builder := {|
  base := {| service_config := c; global_config := b.(base).(global_config) |};
  verify_max_notifiers := b.(verify_max_notifiers); verify_max_listeners := b.(verify_max_listeners) |}.

(* src/iceoryx2/src/service/builder/event.rs:98-110 new *)
Definition new (base : BuilderWithServiceType) : Builder := {|
  base := {|
    service_config := set_messaging_pattern base.(service_config)
      (Event (event_config_new base.(global_config)));
    global_config := base.(global_config) |};
  verify_max_notifiers := false; verify_max_listeners := false |}.

(* src/iceoryx2/src/service/builder/event.rs:112-119 config_details *)
Definition config_details (f : EventConfig -> EventConfig) (b : Builder) : outcome Builder :=
  match b.(base).(service_config).(messaging_pattern) with
  | Event v => Ret (set_service_config b (set_messaging_pattern b.(base).(service_config) (Event (f v))))
  | _ => Panic
  end.

(* src/iceoryx2/src/service/builder/event.rs:124-128 max_notifiers *)
Definition set_max_notifiers (value : Z) (b : Builder) : outcome Builder :=
  let! b := config_details (fun c => {| max_notifiers := value; max_listeners := c.(max_listeners) |}) b in
  Ret {| base := b.(base); verify_max_notifiers := true; verify_max_listeners := b.(verify_max_listeners) |}.

(* src/iceoryx2/src/service/builder/event.rs:133-137 max_listeners *)
Definition set_max_listeners (value : Z) (b : Builder) : outcome Builder :=
  let! b := config_details (fun c => {| max_notifiers := c.(max_notifiers); max_listeners := value |}) b in
  Ret {| base := b.(base); verify_max_notifiers := b.(verify_max_notifiers); verify_max_listeners := true |}.

(* src/iceoryx2/src/service/builder/event.rs:290-303 adjust_properties_to_meaningful_values *)
Definition adjust_properties_to_meaningful_values (b : Builder) : outcome Builder :=
  let! c := event_mut (fun c => {| max_notifiers := PubSub.at_least_one c.(max_notifiers);
    max_listeners := PubSub.at_least_one c.(max_listeners) |}) b.(base).(service_config) in
  Ret (set_service_config b c).

(* src/iceoryx2/src/service/builder/event.rs:305-337 verify_service_properties *)
Definition verify_service_properties (b : Builder) (existing_settings : StaticConfig)
    : outcome (Result EventConfig EventOpenError) :=
  let! required := event b.(base).(service_config) in
  match existing_settings.(messaging_pattern) with
  | Event existing => Ret
      (if b.(verify_max_notifiers) && (existing.(max_notifiers) <? required.(max_notifiers))
       then Err DoesNotSupportRequestedAmountOfNotifiers
       else if b.(verify_max_listeners) && (existing.(max_listeners) <? required.(max_listeners))
       then Err DoesNotSupportRequestedAmountOfListeners
       else Ok existing)
  | _ => Ret (Err IncompatibleMessagingPattern)
  end.

End Events.

(** ** Properties *)

Module P := PubSub.

(** The calls a user makes on a builder. *)
Inductive setting :=
| SafeOverflow (v : bool) | BorrowedSamples (v : Z) | HistorySize (v : Z) | BufferSize (v : Z)
| MaxSubscribers (v : Z) | MaxPublishers (v : Z) | TypeName (v : list Z).

Definition configure (s : setting) (b : P.Builder) : outcome P.Builder :=
  match s with
  | SafeOverflow v => P.set_enable_safe_overflow v b
  | BorrowedSamples v => P.set_subscriber_max_borrowed_samples v b
  | HistorySize v => P.set_history_size v b
  | BufferSize v => P.set_subscriber_max_buffer_size v b
  | MaxSubscribers v => P.set_max_subscribers v b
  | MaxPublishers v => P.set_max_publishers v b
  | TypeName v => P.set_type_name v b
  end.

Fixpoint configure_all (l : list setting) (b : P.Builder) : outcome P.Builder :=
  match l with [] => Ret b | s :: l => let! b := configure s b in configure_all l b end.

(** Of every kind of setting the last call counts. *)
Definition last_of {A} (f : setting -> option A) (l : list setting) : option A :=
  head (omap f (reverse l)).

Definition publishers_of s := match s with MaxPublishers v => Some v | _ => None end.
Definition subscribers_of s := match s with MaxSubscribers v => Some v | _ => None end.
Definition buffer_of s := match s with BufferSize v => Some v | _ => None end.
Definition history_of s := match s with HistorySize v => Some v | _ => None end.
Definition borrowed_of s := match s with BorrowedSamples v => Some (Z.max v 1) | _ => None end.
Definition overflow_of s := match s with SafeOverflow v => Some v | _ => None end.

Definition at_least (v : Z) (r : option Z) : bool := match r with Some r => r <=? v | None => true end.

Definition same_behavior (v : bool) (r : option bool) : bool :=
  match r with Some r => Bool.eqb v r | None => true end.

(** What a list of calls requires of an existing service: at least the capacities and
    exactly the overflow behaviour that were asked for; settings that were not called
    require nothing. *)
Definition requires (l : list setting) (c : PublishSubscribeConfig) : bool :=
  at_least c.(max_publishers) (last_of publishers_of l) &&
  at_least c.(max_subscribers) (last_of subscribers_of l) &&
  at_least c.(subscriber_max_buffer_size) (last_of buffer_of l) &&
  at_least c.(history_size) (last_of history_of l) &&
  at_least c.(subscriber_max_borrowed_samples) (last_of borrowed_of l) &&
  same_behavior c.(enable_safe_overflow) (last_of overflow_of l).

(** The flag and the value that a setting has in the builder. *)
Definition recorded {A} (fl : bool) (v : A) (r : option A) : Prop :=
  match r with Some r => fl = true /\ v = r | None => fl = false end.

Record configured (l : list setting) (b : P.Builder) (c : PublishSubscribeConfig) : Prop := {
  cf_pattern : b.(P.base).(service_config).(messaging_pattern) = PublishSubscribe c;
  cf_publishers : recorded b.(P.verify_number_of_publishers) c.(max_publishers) (last_of publishers_of l);
  cf_subscribers : recorded b.(P.verify_number_of_subscribers) c.(max_subscribers) (last_of subscribers_of l);
  cf_buffer : recorded b.(P.verify_subscriber_max_buffer_size) c.(subscriber_max_buffer_size) (last_of buffer_of l);
  cf_history : recorded b.(P.verify_publisher_history_size) c.(history_size) (last_of history_of l);
  cf_borrowed : recorded b.(P.verify_subscriber_max_borrowed_samples) c.(subscriber_max_borrowed_samples) (last_of borrowed_of l);
  cf_overflow : recorded b.(P.verify_enable_safe_overflow) c.(enable_safe_overflow) (last_of overflow_of l);
}.

Lemma last_of_snoc {A} (f : setting -> option A) l s :
  last_of f (l ++ [s]) = match f s with Some v => Some v | None => last_of f l end.
Proof. unfold last_of. rewrite reverse_snoc. cbn. by destruct (f s). Qed.

Lemma configure_ok l b c s : configured l b c ->
  exists b' c', configure s b = Ret b' /\ configured (l ++ [s]) b' c'.
Proof.
  intros [Hp H1 H2 H3 H4 H5 H6].
  destruct s; cbn [configure];
    unfold P.set_enable_safe_overflow, P.set_subscriber_max_borrowed_samples, P.set_history_size,
      P.set_subscriber_max_buffer_size, P.set_max_subscribers, P.set_max_publishers, P.set_type_name,
      P.config_details_mut, P.config_details; rewrite Hp; cbn [outcome_bind];
    (eexists _, _; split; [reflexivity|]); split; cbn; rewrite ?last_of_snoc; cbn; done.
Qed.

Lemma configure_all_ok l : forall l0 b c, configured l0 b c ->
  exists b' c', configure_all l b = Ret b' /\ configured (l0 ++ l) b' c'.
Proof.
  induction l as [|s l IH]; intros l0 b c Hb; cbn.
  - exists b, c. by rewrite app_nil_r.
  - destruct (configure_ok l0 b c s Hb) as (b1 & c1 & -> & H1). cbn [outcome_bind].
    destruct (IH _ _ _ H1) as (b' & c' & E & H'). exists b', c'. by rewrite <-app_assoc in H'.
Qed.

Lemma recorded_at_least fl v r e : recorded fl v r -> fl && (e <? v) = negb (at_least e r).
Proof. destruct r as [r|]; cbn; [intros [-> ->]; cbn; by rewrite Z.leb_antisym, negb_involutive|by intros ->]. Qed.

Lemma recorded_same fl v r e : recorded fl v r -> fl && negb (Bool.eqb e v) = negb (same_behavior e r).
Proof. destruct r as [r|]; cbn; [by intros [-> ->]|by intros ->]. Qed.

(** What the settings of a publish-subscribe builder mean for opening a service.  After
    any calls of the setters, [verify_service_properties] accepts an existing
    configuration, and hands it back unchanged, exactly when it provides everything the
    last call of every setter asked for; the defaults of the global configuration require
    nothing, and a service of the other pattern is never accepted.  In particular, the
    service that [create] would make from the same builder is accepted. *)
Theorem publish_subscribe_requirements l base e :
  exists b, configure_all l (P.new base) = Ret b /\
    (exists r, P.verify_service_properties b e = Ret r /\ forall c,
      r = Ok c <-> e.(messaging_pattern) = PublishSubscribe c /\ requires l c = true) /\
    exists own c, P.adjust_properties_to_meaningful_values b = Ret own /\
      P.verify_service_properties b own.(P.base).(service_config) = Ret (Ok c).
Proof.
  destruct (configure_all_ok l [] (P.new base) (publish_subscribe_config_new base.(global_config)))
    as (b & c & Eb & Hb); [by split|]. destruct Hb as [Hp H1 H2 H3 H4 H5 H6]. cbn [app] in *.
  exists b. split; [done|]. unfold P.adjust_properties_to_meaningful_values, P.verify_service_properties,
    publish_subscribe_mut, publish_subscribe. rewrite Hp. cbn [outcome_bind]. split.
  - destruct e.(messaging_pattern) as [ec|ec]; [|eexists; split; [done|]; naive_solver].
    eexists. split; [done|]. intros c'.
    rewrite (recorded_at_least _ _ _ _ H1), (recorded_at_least _ _ _ _ H2), (recorded_at_least _ _ _ _ H3),
      (recorded_at_least _ _ _ _ H4), (recorded_at_least _ _ _ _ H5), (recorded_same _ _ _ _ H6).
    trans (ec = c' /\ requires l ec = true); [|naive_solver]. unfold requires.
    generalize (at_least (max_publishers ec) (last_of publishers_of l)), (at_least (max_subscribers ec) (last_of subscribers_of l)),
      (at_least (subscriber_max_buffer_size ec) (last_of buffer_of l)), (at_least (history_size ec) (last_of history_of l)),
      (at_least (subscriber_max_borrowed_samples ec) (last_of borrowed_of l)), (same_behavior (enable_safe_overflow ec) (last_of overflow_of l)).
    intros [] [] [] [] [] []; cbn; naive_solver.
  - assert (Hone : forall v, (P.at_least_one v <? v) = false).
    { intros v. unfold P.at_least_one. destruct (Z.eqb_spec v 0); lia. }
    eexists _, _. split; [done|]. cbn. rewrite !Hone, !andb_false_r, Z.ltb_irrefl, !andb_false_r.
    by rewrite eqb_reflx, andb_false_r.
Qed.

End ServiceConfig.
