(* ===== verification/Listing.v ===== *)
(** * Finding services

    A process that does not know which services exist looks for their static
    configurations ([iceoryx2/src/service/mod.rs]): it lists the static storages, opens
    and reads each of them and deserializes its content.  The storages are those of the
    zero copy service, files in a directory that the global configuration names
    ([config.rs], [service/config_scheme.rs]).  The serializer is a third-party library:
    [deserialize] is a parameter. *)

From S2P Require Import Prelude ByteString SemanticString SystemTypes NamedConcept Posix Files Directory StaticStorage FileStorage ServiceConfig.

Module Listing.
Module NC := NamedConcept.NamedConcept.
Module FS := FileStorage.FileStorage.
Module Dir := Directory.
Module SC := ServiceConfig.ServiceConfig.
Import Posix Files.

(* src/iceoryx2/src/config.rs:133-147 Service *)
Record ServiceSettings := {
  directory : list Z; publisher_data_segment_suffix : list Z; static_config_storage_suffix : list Z;
  dynamic_config_storage_suffix : list Z; creation_timeout : Z; connection_suffix : list Z;
}.

(* src/iceoryx2/src/config.rs:152-159 Global *)
Record Global := { root_path : list Z; global_prefix : list Z; service : ServiceSettings }.

(* src/iceoryx2/src/service/mod.rs:167-170 ServiceDoesExistError *)
Inductive ServiceDoesExistError := ServiceDoesExistInsufficientPermissions | ServiceDoesExistInternalError.

(* src/iceoryx2/src/service/mod.rs:183-186 ServiceListError *)
Inductive ServiceListError := ListingInsufficientPermissions | ListingInternalError.

Section config_scheme.
Context `{Profile} (memory file_memory : list Z).

(** [fatal_panic!] for a string that is not valid. *)
Definition or_panic (o : outcome (Result FixedSizeByteString SemanticStringError)) : outcome FixedSizeByteString :=
  let! r := o in match r with Ok s => Ret s | Err _ => Panic end.

(* src/iceoryx2/src/service/config_scheme.rs:20-54 generate_default_config *)
Definition generate_default_config (prefix suffix path_hint : list Z) : outcome NC.NamedConceptConfiguration :=
  let! prefix := or_panic (S.new (H0 := FileName) FILENAME_LENGTH file_memory prefix) in
  let! suffix := or_panic (S.new (H0 := FileName) FILENAME_LENGTH file_memory suffix) in
  let! path_hint := or_panic (S.new (H0 := Path) PATH_LENGTH memory path_hint) in
  Ret {| NC.prefix := as_bytes prefix; NC.suffix := as_bytes suffix; NC.path_hint := path_hint |}.

(* src/iceoryx2/src/service/config_scheme.rs:56-65 dynamic_config_storage_config *)
Definition dynamic_config_storage_config (g : Global) : outcome NC.NamedConceptConfiguration :=
  generate_default_config g.(global_prefix) g.(service).(dynamic_config_storage_suffix) g.(root_path).

(* src/iceoryx2/src/service/config_scheme.rs:67-79 static_config_storage_config *)
Definition static_config_storage_config (g : Global) : outcome NC.NamedConceptConfiguration :=
  let path_hint := g.(root_path) ++ g.(service).(directory) in
  generate_default_config g.(global_prefix) g.(service).(dynamic_config_storage_suffix) path_hint.

(* src/iceoryx2/src/service/config_scheme.rs:81-90 connection_config *)
Definition connection_config (g : Global) : outcome NC.NamedConceptConfiguration :=
  generate_default_config g.(global_prefix) g.(service).(connection_suffix) g.(root_path).

(* src/iceoryx2/src/service/config_scheme.rs:92-101 data_segment_config *)
Definition data_segment_config (g : Global) : outcome NC.NamedConceptConfiguration :=
  generate_default_config g.(global_prefix) g.(service).(publisher_data_segment_suffix) g.(root_path).

End config_scheme.

Section operations.
Context `{Profile} (fuel : nat) (memory file_memory : list Z) (deserialize : list Z -> option SC.StaticConfig).
Implicit Types (cfg : NC.NamedConceptConfiguration).

(** A storage is opened, read into a string of blanks and closed; [None] when it cannot be
    opened. *)
(* src/iceoryx2/src/service/mod.rs:439-459 list_with_custom_config *)
Definition read_storage cfg (service_storage : list Z) : prog (option (Result unit StaticStorageReadError * list Z)) :=
  let? r := FS.open fuel memory {| FS.storage_name := service_storage; FS.b_has_ownership := false; FS.b_config := cfg |} in
  match r with
  | Err _ => Done None
  | Ok reader =>
      let? '(r, content) := FS.read reader (replicate (Z.to_nat reader.(FS.len)) 32) in
      let? _ := FS.drop_storage fuel memory reader in
      Done (Some (r, content))
  end.

(* src/iceoryx2/src/service/mod.rs:335-377 does_exist_with_custom_config *)
Fixpoint does_exist_loop cfg (service_name : list Z) (services : list (list Z)) : prog bool :=
  match services with
  | [] => Done false
  | service_storage :: services =>
      let? r := read_storage cfg service_storage in
      match r with
      | None => does_exist_loop cfg service_name services
      | Some (_, content) =>
          match deserialize content with
          | None => does_exist_loop cfg service_name services
          | Some service_config =>
              if negb (bool_decide (service_storage = service_config.(SC.uuid))) then does_exist_loop cfg service_name services
              else if bool_decide (service_config.(SC.service_name) = service_name) then Done true
              else does_exist_loop cfg service_name services
          end
      end
  end.

(* src/iceoryx2/src/service/mod.rs:321-380 does_exist_with_custom_config *)
Definition does_exist_with_custom_config (service_name : list Z) (g : Global) : prog (Result bool ServiceDoesExistError) :=
  let? cfg := lift (static_config_storage_config memory file_memory g) in
  let? r := FS.list_cfg fuel file_memory cfg in
  match r with
  | Err ListInsufficientPermissions => Done (Err ServiceDoesExistInsufficientPermissions)
  | Err _ => Done (Err ServiceDoesExistInternalError)
  | Ok services => let? b := does_exist_loop cfg service_name services in Done (Ok b)
  end.

(* src/iceoryx2/src/service/mod.rs:435-477 list_with_custom_config *)
Fixpoint list_loop cfg (services : list (list Z)) : prog (list SC.StaticConfig) :=
  match services with
  | [] => Done []
  | service_storage :: services =>
      let? r := read_storage cfg service_storage in
      match r with
      | Some (Ok _, content) =>
          match deserialize content with
          | Some service_config =>
              let? service_vec := list_loop cfg services in
              Done (if bool_decide (service_storage = service_config.(SC.uuid)) then service_config :: service_vec else service_vec)
          | None => list_loop cfg services
          end
      | _ => list_loop cfg services
      end
  end.

(* src/iceoryx2/src/service/mod.rs:421-480 list_with_custom_config *)
Definition list_with_custom_config (g : Global) : prog (Result (list SC.StaticConfig) ServiceListError) :=
  let? cfg := lift (static_config_storage_config memory file_memory g) in
  let? r := FS.list_cfg fuel file_memory cfg in
  match r with
  | Err ListInsufficientPermissions => Done (Err ListingInsufficientPermissions)
  | Err _ => Done (Err ListingInternalError)
  | Ok services => let? l := list_loop cfg services in Done (Ok l)
  end.

End operations.

(** ** Listing in a reliable system *)

Section reliable.
Context `{Profile} (umask : nat -> Z) (memory file_memory : list Z) (fuel : nat) (pid : nat).
Context (Hfuel : (0 < fuel)%nat) (Hmem : zlength memory = PATH_LENGTH) (Hfile : zlength file_memory = FILENAME_LENGTH).
Context (deserialize : list Z -> option SC.StaticConfig).
Context (cfg : NC.NamedConceptConfiguration) (hint rest : list Z) (Hcfg : NC.cfg_ok cfg hint rest).
Context (Hhint : hint <> []) (Hsep : last_is_separator hint = false) (Hlen : zlength hint + 256 <= PATH_LENGTH).
Implicit Types (k : kernel) (e n : list Z).

Notation wpk := (wp_alone umask pid false False).

(** A name that can be in the directory without making the listing panic. *)
Record entry_ok e : Prop := {
  entry_valid : valid (H0 := FileName) e;
  entry_short : zlength e < FILENAME_LENGTH;
  entry_prefix t : e = cfg.(NC.prefix) ++ t -> is_invalid_content (SemanticKind := FileName) t = false;
  entry_suffix n : e = NC.full_name cfg n -> is_invalid_content (SemanticKind := FileName) n = false;
}.

Definition path_of e : list Z := hint ++ (slash :: e).

(** The directory exists, and so do the nodes of its entries, which have proper names. *)
Record directory_ok k : Prop := {
  dir_wf : wf k;
  dir_exists : is_Some (k.(names) !! hint);
  dir_entries e : is_entry k hint e -> entry_ok e;
}.

(** The static storage [n] with the content [c] is published. *)
Definition published_storage k n c : Prop := exists i x,
  k.(names) !! path_of (NC.full_name cfg n) = Some i /\ k.(nodes) !! i = Some x /\ FS.published x.(mode) = true /\
  from_mode_t x.(mode) = TypeFile /\ x.(data) = c.

Lemma joined_hint e : joined hint e = path_of e.
Proof.
  unfold joined, path_of. rewrite Hsep, bool_decide_eq_false_2 by done. cbn. by rewrite <-app_assoc.
Qed.

Lemma strlen_entry e : 0 ∉ e -> strlen (e ++ [0]) = Ret (zlength e).
Proof.
  induction e as [|b e IH]; [done|]. intros Hn. apply not_elem_of_cons in Hn as [Hb Hn]. cbn.
  rewrite (proj2 (Z.eqb_neq b 0)) by done. rewrite IH by done. cbn. unfold zlength. cbn. f_equal. lia.
Qed.

Lemma entry_nonzero e : entry_ok e -> 0 ∉ e.
Proof.
  intros [[Hc _] _ _ _] Hin. apply not_invalid in Hc. rewrite Forall_forall in Hc. by specialize (Hc 0 Hin).
Qed.

Lemma from_c_str_entry e : entry_ok e -> exists s r, S.from_c_str (H0 := FileName) FILENAME_LENGTH file_memory (e ++ [0]) = Ret (Ok s) /\
  repr s e r /\ 0 < zlength r.
Proof.
  intros He. pose proof (entry_short _ He) as Hs. unfold S.from_c_str. rewrite strlen_entry by (by apply entry_nonzero). cbn [outcome_bind].
  unfold zlength at 1. rewrite Nat2Z.id, take_app_length.
  destruct (S.new_ok (H0 := FileName) FILENAME_LENGTH file_memory e) as (r & -> & Hr); [done|done|unfold FILENAME_LENGTH in *; lia|left; lia|].
  destruct (entry_valid _ He) as [Hc Hi]. destruct r as [s|[]]; [|(congruence || lia)..].
  destruct Hr as (_ & _ & Ecap & r & Hr). exists s, r. split; [done|]. split; [done|]. rewrite (repr_capacity _ _ _ Hr) in Ecap. lia.
Qed.

(** What the metadata of an entry says. *)
Definition shows k e (x : Dir.DirectoryEntry) : Prop := exists r i nd,
  repr x.(Dir.entry_name) e r /\ 0 < zlength r /\ k.(names) !! path_of e = Some i /\ k.(nodes) !! i = Some nd /\
  x.(Dir.entry_metadata) = metadata_create (attributes nd).

Lemma wpk_acquire_metadata d s e r Q k i nd : d.(Dir.dir_path) = cfg.(NC.path_hint) -> repr s e r -> entry_ok e ->
  k.(names) !! path_of e = Some i -> k.(nodes) !! i = Some nd ->
  Q (Ok (metadata_create (attributes nd))) k -> wpk (Dir.acquire_metadata d s) Q k.
Proof.
  intros Ed Hs He Hi Hn HQ. unfold Dir.acquire_metadata. rewrite Ed, (repr_bytes _ _ _ Hs). destruct Hcfg as [_ _ _ _ Hr Hcap [Hh _]].
  pose proof (entry_short _ He) as Hshort. unfold FILENAME_LENGTH in Hshort. destruct (NC.file_name_chars e (entry_valid _ He)) as (Hec & _ & Hene).
  pose proof (zlength_nonneg e). change (S.push (H0 := Path) ?p PATH_SEPARATOR) with (S.push_bytes (H0 := Path) p [PATH_SEPARATOR]).
  destruct (NC.path_push _ _ _ [PATH_SEPARATOR] Hr Hh) as (p1 & r1 & E1 & Hr1 & Ec1); [done|done|change (zlength [PATH_SEPARATOR]) with 1; lia|].
  unfold Dir.expect_path. rewrite E1. cbn [lift bind].
  destruct (NC.path_push p1 _ r1 e Hr1) as (p2 & r2 & E2 & Hr2 & Ec2); [by rewrite invalid_characters_app, Hh|done|done| |].
  { rewrite zlength_app. change (zlength [PATH_SEPARATOR]) with 1. lia. }
  rewrite E2. cbn [lift bind]. rewrite (repr_bytes _ _ _ Hr2), <-app_assoc.
  change (hint ++ [PATH_SEPARATOR] ++ e) with (path_of e). split; [done|]. intros [st|err] k' Hp; cbn in Hp.
  - destruct Hp as (i' & n' & Hi' & Hn' & -> & ->). assert (i' = i) as -> by congruence.
    assert (n' = nd) as -> by congruence. exact HQ.
  - destruct Hp as [Hj ->]. exfalso. destruct err; congruence.
Qed.

Lemma wpk_contents_loop d es Q k : d.(Dir.dir_path) = cfg.(NC.path_hint) -> directory_ok k ->
  (forall e, e ∈ es -> is_entry k hint e \/ e = [DOT] \/ e = [DOT; DOT]) ->
  (forall l, Forall2 (shows k) (filter (fun e => e <> [DOT] /\ e <> [DOT; DOT]) es) l -> Q (Ok l) k) ->
  wpk (Dir.contents_loop file_memory d es) Q k.
Proof.
  intros Ed Hk. revert Q. induction es as [|e es IH]; intros Q Hes HQ; cbn [Dir.contents_loop]; [apply HQ; constructor|].
  assert (Hrest : forall e0, e0 ∈ es -> is_entry k hint e0 \/ e0 = [DOT] \/ e0 = [DOT; DOT]) by (intros e0 H0; apply Hes; by right).
  destruct (decide (e = [DOT] \/ e = [DOT; DOT])) as [Hdot|Hdot].
  - replace (bool_decide (e = [DOT]) || bool_decide (e = [DOT; DOT])) with true.
    2: { symmetry. apply orb_true_iff. rewrite !bool_decide_eq_true. done. }
    apply IH; [done|]. intros l Hl. apply HQ. rewrite filter_cons_False by tauto. done.
  - rewrite !bool_decide_eq_false_2 by tauto. cbn [orb]. destruct (Hes e) as [He|He]; [by left| |tauto].
    pose proof (dir_entries _ Hk e He) as Hok. destruct (from_c_str_entry e Hok) as (s & r & -> & Hs & Hr). cbn [lift bind].
    destruct He as (_ & _ & i & Hi). destruct (wf_names _ (dir_wf _ Hk) _ _ Hi) as [nd Hn]. apply wp_try.
    eapply wpk_acquire_metadata; [done|done|done|exact Hi|done|]. apply wp_try, IH; [done|]. intros l Hl. apply HQ. rewrite filter_cons_True by tauto.
    constructor; [|done]. by exists r, i, nd.
Qed.

(** [extract_name_from_file] on the entries. *)
Lemma extract_entry s e r : repr s e r -> 0 < zlength r -> entry_ok e ->
  exists o, NC.extract_name_from_file cfg s = Ret o /\
    match o with
    | Some x => e = NC.full_name cfg (as_bytes x) /\ valid (H0 := FileName) (as_bytes x)
    | None => forall n, e <> NC.full_name cfg n
    end.
Proof.
  intros Hs Hr He. pose proof (NC.extract_name_from_file_ok cfg hint rest s e r Hcfg Hs Hr) as Hx.
  destruct (NC.extract_name_from_file cfg s) as [[x|]|].
  - eexists. split; [done|]. destruct Hx as [E Hi]. split; [done|]. split; [|done]. destruct (entry_valid _ He) as [Hc _].
    rewrite E in Hc. unfold NC.full_name in Hc. rewrite !invalid_characters_app in Hc. by apply orb_false_iff in Hc as [_ [? _]%orb_false_iff].
  - by eexists.
  - exfalso. destruct Hx as (t & -> & [Ht|(n & -> & Ht)]).
    + rewrite (entry_prefix _ He t eq_refl) in Ht. done.
    + rewrite (entry_suffix _ He n eq_refl) in Ht. done.
Qed.

Lemma full_name_inj n n' : NC.full_name cfg n = NC.full_name cfg n' -> n = n'.
Proof. unfold NC.full_name. intros E%app_inv_head. by apply app_inv_tail in E. Qed.

Lemma list_entries_ok k es l : Forall2 (shows k) es l -> Forall entry_ok es ->
  exists ns, FS.list_entries cfg l = Ret ns /\
    forall n, n ∈ ns <-> NC.full_name cfg n ∈ es /\ valid (H0 := FileName) n /\ exists c, published_storage k n c.
Proof.
  induction 1 as [|e x es l Hx _ IH]; intros Hes.
  { exists []. split; [done|]. intros n. split; [by intros ?%elem_of_nil|]. by intros [?%elem_of_nil _]. }
  apply Forall_cons in Hes as [He Hes]. destruct (IH Hes) as (ns & En & Hns). destruct Hx as (r & i & nd & Hs & Hr & Hi & Hn & Em).
  destruct (extract_entry _ _ _ Hs Hr He) as (o & Eo & Ho). cbn [FS.list_entries]. rewrite Em. cbn [file_type permission metadata_create attributes st_mode].
  assert (Hpub : forall n c, published_storage k n c -> e = NC.full_name cfg n ->
    bool_decide (from_mode_t nd.(mode) = TypeFile) && (as_permission nd.(mode) =? FS.FINAL_PERMISSIONS) = true).
  { intros n c (i' & x' & Hi' & Hx' & Hp & Ht & _) ->. assert (i' = i) as -> by congruence. assert (x' = nd) as -> by congruence.
    rewrite bool_decide_eq_true_2 by done. exact Hp. }
  destruct (bool_decide (from_mode_t nd.(mode) = TypeFile) && (as_permission nd.(mode) =? FS.FINAL_PERMISSIONS)) eqn:Epub.
  - rewrite Eo, En. cbn [outcome_bind]. eexists. split; [done|]. intros n. destruct o as [x0|].
    + destruct Ho as [-> Hv]. rewrite !elem_of_cons, Hns. split.
      * intros [->|(? & ? & ?)]; [|by auto]. split; [by left|]. split; [done|]. apply andb_true_iff in Epub as [Ht%bool_decide_eq_true_1 Hp].
        exists nd.(data), i, nd. by split_and!.
      * intros ([E|E] & Hv' & Hc); [left; by apply full_name_inj|right; by auto].
    + rewrite elem_of_cons, Hns. split; [tauto|]. intros ([E|E] & Hv & Hc); [|by auto]. by destruct (Ho n).
  - rewrite En. eexists. split; [done|]. intros n. rewrite elem_of_cons, Hns. split; [tauto|]. intros ([E|E] & Hv & c & Hc); [|by eauto].
    specialize (Hpub n c Hc (eq_sym E)). congruence.
Qed.

Lemma closed_again k fd d : unused pid k fd ->
  set_descriptors k (delete (pid, fd) (<[(pid, fd) := d]> k.(descriptors))) = k.
Proof. intros [_ Hu]. rewrite delete_insert_id by done. by destruct k. Qed.

Lemma storage_entry k n c : directory_ok k -> valid (H0 := FileName) n -> published_storage k n c -> is_entry k hint (NC.full_name cfg n).
Proof.
  intros Hk Hv (i & x & Hi & _). destruct (NC.file_name_chars _ (NC.ok_prefix _ _ _ Hcfg)) as (_ & Hp & Hpne).
  destruct (NC.file_name_chars _ (NC.ok_suffix _ _ _ Hcfg)) as (_ & Hs & _). destruct (NC.file_name_chars _ Hv) as (_ & Hn & _).
  split; [|split; [|by eexists]].
  - unfold NC.full_name. change slash with PATH_SEPARATOR. rewrite !elem_of_app. tauto.
  - unfold NC.full_name. intros E%app_nil. tauto.
Qed.

Lemma wpk_list_cfg Q k : directory_ok k ->
  (forall ns, (forall n, n ∈ ns <-> valid (H0 := FileName) n /\ exists c, published_storage k n c) -> Q (Ok ns) k) ->
  wpk (FS.list_cfg fuel file_memory cfg) Q k.
Proof.
  intros Hk HQ. unfold FS.list_cfg, Dir.new. rewrite (repr_bytes _ _ _ (NC.ok_hint _ _ _ Hcfg)). apply wp_bind, wp_bind. split; [done|].
  intros [fd|e] k1 Hp; cbn in Hp; [|destruct Hp as [Hj _]; destruct (dir_exists _ Hk), e; congruence].
  destruct Hp as (i & Hi & Hn & Hu & ->). cbn [wp]. rewrite (proj2 (Z.ltb_ge fd 0)) by apply Hu. cbn [wp].
  set (k1 := open_descriptor pid k fd i [O_RDONLY]). assert (Hk1 : directory_ok k1) by (destruct Hk; split; [by apply wf_open_descriptor|done..]).
  apply wp_bind. unfold Dir.contents. cbn [Dir.dir_path]. rewrite (repr_bytes _ _ _ (NC.ok_hint _ _ _ Hcfg)). apply wp_bind. split; [done|].
  intros [es|e] k2 Hp; cbn in Hp; [|destruct Hp as [Hj _]; destruct (dir_exists _ Hk), e; congruence].
  destruct Hp as (_ & _ & Hes & ->). apply wpk_contents_loop; [done|done|intros e He; by apply Hes|]. intros l Hl.
  match type of Hl with Forall2 _ ?f _ => remember f as es' eqn:Ees end. assert (Hes' : forall e, e ∈ es' <-> is_entry k hint e).
  { intros e. rewrite Ees, list_elem_of_filter, Hes. split; [tauto|]. intros He. split; [|by left].
    destruct (entry_valid _ (dir_entries _ Hk e He)) as [_ Hi']. split; intros ->; done. }
  destruct (list_entries_ok k1 es' l Hl) as (ns & En & Hns). { apply Forall_forall. intros e He. apply (dir_entries _ Hk). by apply Hes'. }
  apply wp_bind. rewrite En. cbn [lift bind wp]. apply wp_bind. unfold Dir.drop. cbn [Dir.directory_stream]. destruct fuel as [|fuel']; [lia|].
  split; [done|]. intros [a|e] k3 Hp; cbn in Hp; [|destruct Hp as [Hj _]; cbn in Hj; rewrite lookup_insert_eq in Hj; destruct e; done].
  destruct Hp as [_ ->]. cbn [wp open_descriptor set_descriptors descriptors k1]. replace (set_descriptors _ _) with k.
  2: { symmetry. unfold k1, open_descriptor, set_descriptors. cbn. by apply (closed_again k fd (opened i [O_RDONLY])). }
  apply HQ. intros n. rewrite Hns, Hes'. split; [tauto|]. intros [Hv [c Hc]]. split; [|by eauto]. by eapply storage_entry.
Qed.

Lemma wpk_read_storage n c Q k : directory_ok k -> valid (H0 := FileName) n -> published_storage k n c ->
  Q (Some (Ok tt, c)) k -> wpk (read_storage fuel memory cfg n) Q k.
Proof.
  intros Hk Hv Hc HQ. pose proof (dir_entries _ Hk _ (storage_entry k n c Hk Hv Hc)) as He. destruct Hc as (i & x & Hi & Hx & Hp & _ & Ec).
  destruct (NC.path_for_ok cfg hint rest memory n Hcfg Hv Hmem) as (p & r & Ep & Hr).
  { rewrite joined_hint. unfold path_of. rewrite zlength_app, zlength_cons. pose proof (entry_short _ He). unfold FILENAME_LENGTH in *. lia. }
  rewrite joined_hint in Hr. apply wp_bind. eapply (FS.wpk_open umask memory fuel Hfuel pid _ p i c true); [exact Ep| |done|].
  { rewrite (repr_bytes _ _ _ Hr). split; [done|]. by exists x. }
  intros fd _ Hu. apply wp_bind. eapply FS.wpk_read with (j := i) (c := c); [exact Hfuel|apply lookup_insert_eq|by exists x|done| |].
  { cbn. unfold zlength. rewrite length_replicate. lia. }
  intros o. cbn [wp]. apply wp_bind. unfold FS.drop_storage. cbn [FS.has_ownership FS.b_has_ownership bind FS.file].
  eapply wp_drop_file; [done|done|done|apply lookup_insert_eq|]. cbn. unfold set_descriptors. cbn. rewrite insert_insert_eq.
  replace {| names := _ |} with k; [done|]. symmetry. by apply (closed_again k fd).
Qed.

(** The services that are published: their configuration is in a storage with their name. *)
Definition service_at k (c : SC.StaticConfig) : Prop :=
  valid (H0 := FileName) c.(SC.uuid) /\ exists l, published_storage k c.(SC.uuid) l /\ deserialize l = Some c.

Lemma published_storage_unique k n c c' : published_storage k n c -> published_storage k n c' -> c = c'.
Proof. intros (i & x & Hi & Hx & _ & _ & <-) (i' & x' & Hi' & Hx' & _ & _ & <-). congruence. Qed.

Lemma wpk_list_loop ns Q k : directory_ok k -> (forall n, n ∈ ns -> valid (H0 := FileName) n /\ exists c, published_storage k n c) ->
  (forall l, (forall c, c ∈ l <-> service_at k c /\ c.(SC.uuid) ∈ ns) -> Q l k) -> wpk (list_loop fuel memory deserialize cfg ns) Q k.
Proof.
  intros Hk. revert Q. induction ns as [|n ns IH]; intros Q Hns HQ; cbn [list_loop].
  { apply HQ. intros c. split; [by intros ?%elem_of_nil|]. by intros [_ ?%elem_of_nil]. }
  destruct (Hns n) as [Hv [l Hl]]; [by left|]. apply wp_bind. eapply wpk_read_storage; [done|done|exact Hl|].
  assert (Hrest : forall n, n ∈ ns -> valid (H0 := FileName) n /\ exists c, published_storage k n c) by (intros n0 H0; apply Hns; by right).
  assert (Hthis : forall c, service_at k c -> c.(SC.uuid) = n -> deserialize l = Some c).
  { intros c (_ & l' & Hl' & Hd) <-. by rewrite (published_storage_unique _ _ _ _ Hl Hl'). }
  destruct (deserialize l) as [c0|] eqn:Ed.
  - apply wp_bind. apply IH; [done|]. intros l0 Hl0. cbn [wp]. apply HQ. intros c. destruct (bool_decide_reflect (n = c0.(SC.uuid))) as [->|Hne].
    + rewrite !elem_of_cons, Hl0. split.
      * intros [->|[? ?]]; [|by auto]. split; [|by left]. split; [done|]. by exists l.
      * intros [Hs [E|E]]; [|by auto]. left. specialize (Hthis c Hs E). congruence.
    + rewrite elem_of_cons, Hl0. split; [tauto|]. intros [Hs [E|E]]; [|by auto]. specialize (Hthis c Hs E). congruence.
  - apply IH; [done|]. intros l0 Hl0. apply HQ. intros c. rewrite elem_of_cons, Hl0. split; [tauto|]. intros [Hs [E|E]]; [|by auto].
    specialize (Hthis c Hs E). congruence.
Qed.

Lemma wpk_does_exist_loop name ns Q k : directory_ok k -> (forall n, n ∈ ns -> valid (H0 := FileName) n /\ exists c, published_storage k n c) ->
  (forall b, (b = true <-> exists c, service_at k c /\ c.(SC.uuid) ∈ ns /\ c.(SC.service_name) = name) -> Q b k) ->
  wpk (does_exist_loop fuel memory deserialize cfg name ns) Q k.
Proof.
  intros Hk. revert Q. induction ns as [|n ns IH]; intros Q Hns HQ; cbn [does_exist_loop].
  { apply HQ. split; [done|]. by intros (c & _ & ?%elem_of_nil & _). }
  destruct (Hns n) as [Hv [l Hl]]; [by left|]. apply wp_bind. eapply wpk_read_storage; [done|done|exact Hl|].
  assert (Hrest : forall n, n ∈ ns -> valid (H0 := FileName) n /\ exists c, published_storage k n c) by (intros n0 H0; apply Hns; by right).
  assert (Hskip : (forall c, service_at k c -> c.(SC.service_name) = name -> c.(SC.uuid) <> n) ->
    wpk (does_exist_loop fuel memory deserialize cfg name ns) Q k).
  { intros Hno. apply IH; [done|]. intros b Hb. apply HQ. rewrite Hb. split; intros (c & Hs & Hc & Hname); exists c; (split; [done|]); (split; [|done]).
    - by right.
    - apply elem_of_cons in Hc as [E|Hc]; [|done]. by destruct (Hno c). }
  assert (Hthis : forall c, service_at k c -> c.(SC.uuid) = n -> deserialize l = Some c).
  { intros c (_ & l' & Hl' & Hd) <-. by rewrite (published_storage_unique _ _ _ _ Hl Hl'). }
  destruct (deserialize l) as [c0|] eqn:Ed; [|apply Hskip; intros c Hs _ E; specialize (Hthis c Hs E); congruence].
  destruct (bool_decide_reflect (n = c0.(SC.uuid))) as [->|Hne]; cbn [negb].
  2: { apply Hskip. intros c Hs _ E. specialize (Hthis c Hs E). congruence. }
  case_bool_decide as Hname.
  - cbn. apply HQ. split; [|done]. intros _. exists c0. split; [split; [done|by exists l]|]. split; [by left|done].
  - apply Hskip. intros c Hs Hc E. specialize (Hthis c Hs E). congruence.
Qed.

(** C26: in a reliable system whose directory of static storages contains only files from
    whose names a service can be told, listing succeeds and gives exactly the
    configurations that are published under the name of their service; a service exists
    exactly when one of them has its name; and both leave the system as it was, without a
    descriptor left open.  Storages that are still locked, that cannot be deserialized or
    whose name is not the hash in their content are left out. *)
Theorem service_listing {W} `{PosixLaws umask false W} w g service_name :
  static_config_storage_config memory file_memory g = Ret cfg -> directory_ok (view w) ->
  exists l b w1 w2,
    run pid (list_with_custom_config fuel memory file_memory deserialize g) w = Some (Ret (Ok l, w1)) /\
    run pid (does_exist_with_custom_config fuel memory file_memory deserialize service_name g) w = Some (Ret (Ok b, w2)) /\
    view w1 = view w /\ view w2 = view w /\
    (forall c, c ∈ l <-> service_at (view w) c) /\
    (b = true <-> exists c, service_at (view w) c /\ c.(SC.service_name) = service_name).
Proof.
  intros Eg Hk.
  assert (Hnames : forall ns : list (list Z), (forall n, n ∈ ns <-> valid (H0 := FileName) n /\ exists c, published_storage (view w) n c) ->
    forall c, service_at (view w) c -> c.(SC.uuid) ∈ ns) by (intros ns Hns c (Hv & l & Hl & _); apply Hns; eauto).
  destruct (wp_alone_returns umask false pid (list_with_custom_config fuel memory file_memory deserialize g)
    (fun r k => exists l, r = Ok l /\ k = view w /\ forall c, c ∈ l <-> service_at (view w) c) w) as (r1 & w1 & E1 & l & -> & Hw1 & Hl).
  { unfold list_with_custom_config. rewrite Eg. cbn [lift bind]. apply wp_bind, wpk_list_cfg; [done|]. intros ns Hns.
    apply wp_bind, wpk_list_loop; [done|intros n; apply Hns|]. intros l Hl. exists l. split; [done|]. split; [done|].
    intros c. rewrite Hl. split; [tauto|]. intros Hc. split; [done|]. by apply (Hnames ns). }
  destruct (wp_alone_returns umask false pid (does_exist_with_custom_config fuel memory file_memory deserialize service_name g)
    (fun r k => exists b, r = Ok b /\ k = view w /\
      (b = true <-> exists c, service_at (view w) c /\ c.(SC.service_name) = service_name)) w) as (r2 & w2 & E2 & b & -> & Hw2 & Hb).
  { unfold does_exist_with_custom_config. rewrite Eg. cbn [lift bind]. apply wp_bind, wpk_list_cfg; [done|]. intros ns Hns.
    apply wp_bind, wpk_does_exist_loop; [done|intros n; apply Hns|]. intros b Hb. exists b. split; [done|]. split; [done|].
    rewrite Hb. split; intros (c & Hc); exists c; [tauto|]. split; [tauto|]. split; [|tauto]. apply (Hnames ns); [done|apply Hc]. }
  by exists l, b, w1, w2.
Qed.

End reliable.

(** ** A concrete directory *)

(** The directory "/tmp/s" with the service "x" in the file "i_a.d". *)
Definition example_global : Global := {|
  root_path := [47; 116; 109; 112; 47]; global_prefix := [105; 95];
  service := {| directory := [115]; publisher_data_segment_suffix := [46; 112]; static_config_storage_suffix := [46; 115];
                dynamic_config_storage_suffix := [46; 100]; creation_timeout := 0; connection_suffix := [46; 99] |} |}.

Definition example_hint : list Z := [47; 116; 109; 112; 47; 115].

Definition example_service : SC.StaticConfig :=
  {| SC.uuid := [97]; SC.service_name := [120]; SC.messaging_pattern := SC.Event {| SC.max_notifiers := 1; SC.max_listeners := 1 |} |}.

Definition example_deserialize (l : list Z) : option SC.StaticConfig := if bool_decide (l = [1]) then Some example_service else None.

Definition example_config : NC.NamedConceptConfiguration :=
  {| NC.prefix := [105; 95]; NC.suffix := [46; 100];
     NC.path_hint := {| CAPACITY := 4096; ByteString.len := 6; ByteString.data := example_hint ++ replicate 4090 0 |} |}.

Definition services_kernel : kernel :=
  {| names := {[ example_hint := 0%nat; example_hint ++ [47; 105; 95; 97; 46; 100] := 1%nat ]};
     nodes := {[ 0%nat := Simple.blank (Z.lor S_IFDIR OWNER_ALL);
                 1%nat := set_data (Simple.blank (Z.lor S_IFREG FS.FINAL_PERMISSIONS)) [1] ]};
     descriptors := ∅; objects := ∅; mappings := ∅ |}.

Lemma services_names x i : services_kernel.(names) !! x = Some i ->
  x = example_hint /\ i = 0%nat \/ x = example_hint ++ [47; 105; 95; 97; 46; 100] /\ i = 1%nat.
Proof. cbn [services_kernel names]. intros [[<- <-]|[_ Hx]]%lookup_insert_Some; [by left|]. apply lookup_singleton_Some in Hx as [<- <-]. by right. Qed.

Lemma services_kernel_wf : wf services_kernel.
Proof.
  split; intros x i Hx; [|by cbn in Hx; rewrite lookup_empty in Hx..]. destruct (services_names x i Hx) as [[_ ->]|[_ ->]]; by eexists.
Qed.

Lemma services_directory : directory_ok example_config example_hint services_kernel.
Proof.
  split; [apply services_kernel_wf|by eexists|]. intros e (_ & _ & i & Hi). assert (e = [105; 95; 97; 46; 100]) as ->.
  { destruct (services_names _ _ Hi) as [[E _]|[E _]]; [|by injection E]. apply (f_equal length) in E. rewrite length_app in E. cbn in E. lia. }
  split; [done|done| |].
  - intros t E. injection E as <-. done.
  - intros n E. change [105; 95; 97; 46; 100] with (NC.full_name example_config [97]) in E. by apply full_name_inj in E as <-.
Qed.

Lemma services_at : service_at example_deserialize example_config example_hint services_kernel example_service.
Proof.
  split; [done|]. exists [1]. split; [|done].
  exists 1%nat, (set_data (Simple.blank (Z.lor S_IFREG FS.FINAL_PERMISSIONS)) [1]). by split_and!.
Qed.

(** The service "x" is listed and exists. *)
Lemma service_listing_witness : exists l b w1 w2,
  let w := (services_kernel ↾ services_kernel_wf) in
  run 0 (@list_with_custom_config dev 1 FS.blank_path (replicate 255 0) example_deserialize example_global) w (H := Simple.simple_posix no_umask)
    = Some (Ret (Ok l, w1)) /\
  run 0 (@does_exist_with_custom_config dev 1 FS.blank_path (replicate 255 0) example_deserialize [120] example_global) w (H := Simple.simple_posix no_umask)
    = Some (Ret (Ok b, w2)) /\
  example_service ∈ l /\ b = true.
Proof.
  destruct (@service_listing dev no_umask FS.blank_path (replicate 255 0) 1 0 ltac:(lia) eq_refl eq_refl example_deserialize
    example_config example_hint (replicate 4090 0)) with (w := services_kernel ↾ services_kernel_wf) (g := example_global) (service_name := [120])
    (H1 := Simple.simple_laws no_umask) as (l & b & w1 & w2 & E1 & E2 & _ & _ & Hl & Hb).
  - split; done.
  - done.
  - reflexivity.
  - vm_compute. discriminate.
  - vm_compute. reflexivity.
  - apply services_directory.
  - exists l, b, w1, w2. split; [exact E1|]. split; [exact E2|].
    split; [exact (proj2 (Hl _) services_at)|]. apply (proj2 Hb). exists example_service. exact (conj services_at eq_refl).
Defined.

End Listing.
