(* ===== verification/Service.v ===== *)
(** * Creating, opening and dropping services

    [iceoryx2::service]: a service exists as a static storage with its serialized
    configuration and a dynamic storage with its dynamic configuration, both named by
    the uuid of the service.  [create] reserves the static storage, creates the dynamic
    storage and publishes the static storage; [open] reads the static storage and takes a
    reference of the dynamic storage; dropping the last reference removes both.

    The operations are written as programs: trees whose nodes are the accesses to the
    storages and to the reference counter, each with its continuation.  [run] executes a
    program alone; ServiceLifecycle.v interleaves the programs of several participants.
    Loops have a fuel; a program that runs out of it is [Stuck], which is a participant
    that is not scheduled any more.

    [serialize] and [deserialize] stand for the configuration serializer, a wrapper of a
    library. *)

From S2P Require Import Prelude NamedConcept StaticStorage DynamicStorage DynamicConfig ServiceConfig.

Module Service.
Import ServiceConfig.
Module D := DynamicConfig.DynamicConfig.

(** ** Programs *)

Inductive prog (A : Type) : Type :=
| Done (a : A)
| Crash
| Stuck
| DoesExist (k : Result bool NamedConceptDoesExistError -> prog A)
| OpenAndRead (k : Result (list Z) StaticStorageOpenError -> prog A)
| CreateLocked (k : Result unit StaticStorageCreateError -> prog A)
| Unlock (content : list Z) (k : Result unit StaticStorageUnlockError -> prog A)
| OpenDynamic (k : Result nat DynamicStorageOpenError -> prog A)
| CreateDynamic (s : D.settings) (k : Result nat DynamicStorageCreateError -> prog A)
| LoadCounter (i : nat) (k : Z -> prog A)
| CompareExchange (i : nat) (current new : Z) (k : Result Z Z -> prog A)
| RemoveDynamic (i : nat) (k : prog A)
| RemoveStatic (k : prog A)
| Wait (k : option Z -> prog A).
Arguments Done {A}.
Arguments Crash {A}.
Arguments Stuck {A}.
Arguments DoesExist {A}.
Arguments OpenAndRead {A}.
Arguments CreateLocked {A}.
Arguments Unlock {A}.
Arguments OpenDynamic {A}.
Arguments CreateDynamic {A}.
Arguments LoadCounter {A}.
Arguments CompareExchange {A}.
Arguments RemoveDynamic {A}.
Arguments RemoveStatic {A}.
Arguments Wait {A}.

Fixpoint bind {A B} (p : prog A) (f : A -> prog B) : prog B :=
  match p with
  | Done a => f a
  | Crash => Crash
  | Stuck => Stuck
  | DoesExist k => DoesExist (fun x => bind (k x) f)
  | OpenAndRead k => OpenAndRead (fun x => bind (k x) f)
  | CreateLocked k => CreateLocked (fun x => bind (k x) f)
  | Unlock c k => Unlock c (fun x => bind (k x) f)
  | OpenDynamic k => OpenDynamic (fun x => bind (k x) f)
  | CreateDynamic s k => CreateDynamic s (fun x => bind (k x) f)
  | LoadCounter i k => LoadCounter i (fun x => bind (k x) f)
  | CompareExchange i c n k => CompareExchange i c n (fun x => bind (k x) f)
  | RemoveDynamic i k => RemoveDynamic i (bind k f)
  | RemoveStatic k => RemoveStatic (bind k f)
  | Wait k => Wait (fun x => bind (k x) f)
  end.

Declare Scope prog_scope.
Notation "'let?' x ':=' p 'in' q" := (bind p (fun x => q))
  (at level 10, x name, p at level 100, q at level 200) : prog_scope.
Notation "'let?' ' x ':=' p 'in' q" := (bind p (fun y => match y with x => q end))
  (at level 10, x pattern, p at level 100, q at level 200) : prog_scope.
Open Scope prog_scope.

Definition lift {A} (o : outcome A) : prog A := match o with Ret a => Done a | Panic => Crash end.

(** ** The operations *)

(* src/iceoryx2/src/service/mod.rs:198-203 ServiceState *)
Record Handle := { static_config : StaticConfig; dynamic_storage : nat }.

(* src/iceoryx2/src/service/builder/mod.rs:50-55 ServiceState *)
Inductive ServiceState :=
| IsBeingCreatedByAnotherInstance | IncompatiblePattern | Denied | Corrupted.

(* src/iceoryx2/src/service/builder/mod.rs:57-64 OpenDynamicStorageFailure *)
Inductive OpenDynamicStorageFailure :=
| IsMarkedForDestruction | DynamicStorageFailure (e : DynamicStorageOpenError).

Section programs.
Context `{Profile} (serialize : StaticConfig -> option (list Z)) (deserialize : list Z -> option StaticConfig).

(* src/iceoryx2/src/service/dynamic_config/mod.rs:79-94 increment_reference_counter *)
Fixpoint increment_loop (fuel : nat) (i : nat) (current_value : Z) : prog (Result unit unit) :=
  match fuel with
  | O => Stuck
  | S fuel =>
      if current_value =? D.MARKED_FOR_DESTRUCTION then Done (Err tt)
      else
        let? n := lift (current_value +u64 1) in
        CompareExchange i current_value n (fun r =>
          match r with
          | Ok _ => Done (Ok tt)
          | Err v => increment_loop fuel i v
          end)
  end.

(* src/iceoryx2/src/service/dynamic_config/mod.rs:77-97 increment_reference_counter *)
Definition increment_reference_counter (fuel : nat) (i : nat) : prog (Result unit unit) :=
  LoadCounter i (fun current_value => increment_loop fuel i current_value).

(* src/iceoryx2/src/service/dynamic_config/mod.rs:103-119 decrement_reference_counter *)
Fixpoint decrement_loop (fuel : nat) (i : nat) (current_value : Z)
    : prog D.DecrementReferenceCounterResult :=
  match fuel with
  | O => Stuck
  | S fuel =>
      let? '(result, n) := lift
        (if current_value =? 1 then Ret (D.NoMoreOwners, D.MARKED_FOR_DESTRUCTION)
         else let! n := current_value -u64 1 in Ret (D.HasOwners, n)) in
      CompareExchange i current_value n (fun r =>
        match r with
        | Ok _ => Done result
        | Err v => decrement_loop fuel i v
        end)
  end.

(* src/iceoryx2/src/service/dynamic_config/mod.rs:99-122 decrement_reference_counter *)
Definition decrement_reference_counter (fuel : nat) (i : nat) : prog D.DecrementReferenceCounterResult :=
  LoadCounter i (fun current_value => decrement_loop fuel i current_value).

(** The last owner acquires the ownership of both storages, which are then removed when
    the fields are dropped, in the order of their declaration. *)
(* src/iceoryx2/src/service/mod.rs:228-239 drop *)
Definition drop (fuel : nat) (h : Handle) : prog unit :=
  let? r := decrement_reference_counter fuel h.(dynamic_storage) in
  match r with
  | D.HasOwners => Done tt
  | D.NoMoreOwners => RemoveDynamic h.(dynamic_storage) (RemoveStatic (Done tt))
  end.

(** What the content of the static storage means for the builder. *)
(* src/iceoryx2/src/service/builder/mod.rs:202-238 is_service_available *)
Definition evaluate (base : BuilderWithServiceType) (r : Result (list Z) StaticStorageOpenError)
    : Result (option StaticConfig) ServiceState :=
  match r with
  | Err _ => Err Denied
  | Ok read_content =>
      match deserialize read_content with
      | None => Err Corrupted
      | Some service_config =>
          if negb (bool_decide (service_config.(uuid) = base.(ServiceConfig.service_config).(uuid))) then Err Corrupted
          else if negb (has_same_messaging_pattern service_config base.(ServiceConfig.service_config))
          then Err IncompatiblePattern
          else Ok (Some service_config)
      end
  end.

(* src/iceoryx2/src/service/builder/mod.rs:183-246 is_service_available *)
Definition is_service_available (base : BuilderWithServiceType)
    : prog (Result (option StaticConfig) ServiceState) :=
  DoesExist (fun r =>
    match r with
    | Ok false => Done (Ok None)
    | Err UnderlyingResourcesBeingSetUp => Done (Err IsBeingCreatedByAnotherInstance)
    | Ok true => OpenAndRead (fun r => Done (evaluate base r))
    | Err _ => Done (Err Corrupted)
    end).

(* src/iceoryx2/src/service/builder/mod.rs:274-294 open_dynamic_config_storage *)
Definition open_dynamic_config_storage (fuel : nat) : prog (Result nat OpenDynamicStorageFailure) :=
  OpenDynamic (fun r =>
    match r with
    | Err e => Done (Err (DynamicStorageFailure e))
    | Ok storage =>
        let? r := increment_reference_counter fuel storage in
        Done (match r with Ok _ => Ok storage | Err _ => Err IsMarkedForDestruction end)
    end).

(** ** Publish-subscribe services *)

(* src/iceoryx2/src/service/builder/publish_subscribe.rs:79-82 ServiceAvailabilityState *)
Inductive ServiceAvailabilityState := State (s : ServiceState) | TypesIncompatible.

(* src/iceoryx2/src/service/builder/publish_subscribe.rs:207-224 is_service_available *)
Definition pubsub_is_service_available (b : PubSub.Builder)
    : prog (Result (option StaticConfig) ServiceAvailabilityState) :=
  let? r := is_service_available b.(PubSub.base) in
  match r with
  | Ok (Some config) =>
      let? existing := lift (publish_subscribe config) in
      let? details := lift (PubSub.config_details b) in
      if negb (bool_decide (existing.(type_name) = details.(type_name))) then Done (Err TypesIncompatible)
      else Done (Ok (Some config))
  | Ok None => Done (Ok None)
  | Err e => Done (Err (State e))
  end.

(** The loop of [open]; [fuel] bounds its passes and the passes of the loop that takes the
    reference. *)
(* src/iceoryx2/src/service/builder/publish_subscribe.rs:278-335 open *)
Fixpoint pubsub_open_loop (fuel : nat) (b : PubSub.Builder)
    : prog (Result Handle PubSub.PublishSubscribeOpenError) :=
  match fuel with
  | O => Stuck
  | S n =>
      let? r := pubsub_is_service_available b in
      match r with
      | Ok None => Done (Err PubSub.DoesNotExist)
      | Ok (Some static_config) =>
          let? r := lift (PubSub.verify_service_properties b static_config) in
          match r with
          | Err e => Done (Err e)
          | Ok static_config =>
              let? r := open_dynamic_config_storage fuel in
              match r with
              | Err _ => Done (Err PubSub.UnableToOpenDynamicServiceInformation)
              | Ok i => Done (Ok {| static_config := set_messaging_pattern b.(PubSub.base).(service_config)
                                      (PublishSubscribe static_config);
                                    dynamic_storage := i |})
              end
          end
      | Err (State IsBeingCreatedByAnotherInstance) =>
          Wait (fun timeout =>
            match timeout with
            | None => Done (Err PubSub.InternalFailure)
            | Some t =>
                if b.(PubSub.base).(global_config).(creation_timeout) <? t
                then Done (Err PubSub.HangsInCreation)
                else pubsub_open_loop n b
            end)
      | Err TypesIncompatible => Done (Err PubSub.IncompatibleTypes)
      | Err (State IncompatiblePattern) => Done (Err PubSub.IncompatibleMessagingPattern)
      | Err (State Corrupted) => Done (Err PubSub.ServiceInCorruptedState)
      | Err (State Denied) => Done (Err PubSub.PermissionDenied)
      end
  end.

(** That the adaptive wait cannot be created is not represented. *)
(* src/iceoryx2/src/service/builder/publish_subscribe.rs:265-336 open *)
Definition pubsub_open (fuel : nat) (message_type : list Z) (b : PubSub.Builder)
    : prog (Result Handle PubSub.PublishSubscribeOpenError) :=
  let? b := lift (PubSub.set_type_name message_type b) in
  pubsub_open_loop fuel b.

(* src/iceoryx2/src/service/builder/publish_subscribe.rs:339-428 create *)
Definition pubsub_create (message_type : list Z) (b : PubSub.Builder)
    : prog (Result Handle PubSub.PublishSubscribeCreateError) :=
  let? b := lift (PubSub.adjust_properties_to_meaningful_values b) in
  let? b := lift (PubSub.set_type_name message_type b) in
  let? details := lift (PubSub.config_details b) in
  if negb details.(enable_safe_overflow) && (details.(subscriber_max_buffer_size) <? details.(history_size))
  then Done (Err PubSub.SubscriberBufferMustBeLargerThanHistorySize)
  else
    let? r := pubsub_is_service_available b in
    match r with
    | Ok None =>
        CreateLocked (fun r =>
          match r with
          | Err _ => Done (Err PubSub.CreateUnableToCreateStaticServiceInformation)
          | Ok _ =>
              let? c := lift (publish_subscribe b.(PubSub.base).(service_config)) in
              let s := {| D.PublishSubscribe.number_of_subscribers := c.(max_subscribers);
                          D.PublishSubscribe.number_of_publishers := c.(max_publishers) |} in
              CreateDynamic (D.PublishSubscribeSettings s) (fun r =>
                match r with
                | Err _ => Done (Err PubSub.CreateInternalFailure)
                | Ok i =>
                    match serialize b.(PubSub.base).(service_config) with
                    | None => Done (Err PubSub.CreateCorrupted)
                    | Some content =>
                        Unlock content (fun r =>
                          match r with
                          | Err _ => Done (Err PubSub.CreateCorrupted)
                          | Ok _ => Done (Ok {| static_config := b.(PubSub.base).(service_config);
                                                dynamic_storage := i |})
                          end)
                    end
                end)
          end)
    | Ok (Some _) | Err TypesIncompatible | Err (State IncompatiblePattern) =>
        Done (Err PubSub.CreateAlreadyExists)
    | Err (State Denied) => Done (Err PubSub.CreatePermissionDenied)
    | Err (State Corrupted) => Done (Err PubSub.CreateCorrupted)
    | Err (State IsBeingCreatedByAnotherInstance) => Done (Err PubSub.CreateIsBeingCreatedByAnotherInstance)
    end.

(* src/iceoryx2/src/service/builder/publish_subscribe.rs:84-91 PublishSubscribeOpenOrCreateError *)
Inductive PublishSubscribeOpenOrCreateError :=
| PublishSubscribeOpenError (e : PubSub.PublishSubscribeOpenError)
| PublishSubscribeCreateError (e : PubSub.PublishSubscribeCreateError).

Definition or_open (p : prog (Result Handle PubSub.PublishSubscribeOpenError)) :=
  let? r := p in Done (match r with Ok h => Ok h | Err e => Err (PublishSubscribeOpenError e) end).

Definition or_create (p : prog (Result Handle PubSub.PublishSubscribeCreateError)) :=
  let? r := p in Done (match r with Ok h => Ok h | Err e => Err (PublishSubscribeCreateError e) end).

(* src/iceoryx2/src/service/builder/publish_subscribe.rs:228-262 open_or_create *)
Definition pubsub_open_or_create (fuel : nat) (message_type : list Z) (b : PubSub.Builder)
    : prog (Result Handle PublishSubscribeOpenOrCreateError) :=
  let? b := lift (PubSub.set_type_name message_type b) in
  let? r := pubsub_is_service_available b in
  match r with
  | Ok (Some _) => or_open (pubsub_open fuel message_type b)
  | Ok None => or_create (pubsub_create message_type b)
  | Err (State IsBeingCreatedByAnotherInstance) => or_open (pubsub_open fuel message_type b)
  | Err TypesIncompatible => Done (Err (PublishSubscribeOpenError PubSub.IncompatibleTypes))
  | Err (State IncompatiblePattern) => Done (Err (PublishSubscribeOpenError PubSub.IncompatibleMessagingPattern))
  | Err (State Corrupted) => Done (Err (PublishSubscribeOpenError PubSub.ServiceInCorruptedState))
  | Err (State Denied) => Done (Err (PublishSubscribeOpenError PubSub.PermissionDenied))
  end.

(** ** Event services *)

(* src/iceoryx2/src/service/builder/event.rs:166-223 open *)
Fixpoint event_open (fuel : nat) (b : Events.Builder) : prog (Result Handle Events.EventOpenError) :=
  match fuel with
  | O => Stuck
  | S n =>
      let? r := is_service_available b.(Events.base) in
      match r with
      | Ok None => Done (Err Events.DoesNotExist)
      | Ok (Some static_config) =>
          let? r := lift (Events.verify_service_properties b static_config) in
          match r with
          | Err e => Done (Err e)
          | Ok static_config =>
              let? r := open_dynamic_config_storage fuel in
              match r with
              | Err _ => Done (Err Events.UnableToOpenDynamicServiceInformation)
              | Ok i => Done (Ok {| static_config := set_messaging_pattern b.(Events.base).(service_config)
                                      (Event static_config);
                                    dynamic_storage := i |})
              end
          end
      | Err IsBeingCreatedByAnotherInstance =>
          Wait (fun timeout =>
            match timeout with
            | None => Done (Err Events.InternalFailure)
            | Some t =>
                if b.(Events.base).(global_config).(creation_timeout) <? t
                then Done (Err Events.HangsInCreation)
                else event_open n b
            end)
      | Err Denied => Done (Err Events.PermissionDenied)
      | Err IncompatiblePattern => Done (Err Events.PermissionDenied)
      | Err Corrupted => Done (Err Events.EventInCorruptedState)
      end
  end.

(* src/iceoryx2/src/service/builder/event.rs:226-288 create *)
Definition event_create (b : Events.Builder) : prog (Result Handle Events.EventCreateError) :=
  let? b := lift (Events.adjust_properties_to_meaningful_values b) in
  let? r := is_service_available b.(Events.base) in
  match r with
  | Ok None =>
      CreateLocked (fun r =>
        match r with
        | Err _ => Done (Err Events.CreateUnableToCreateStaticServiceInformation)
        | Ok _ =>
            let? c := lift (event b.(Events.base).(service_config)) in
            let s := {| D.Event.number_of_listeners := c.(max_listeners);
                        D.Event.number_of_notifiers := c.(max_notifiers) |} in
            CreateDynamic (D.EventSettings s) (fun r =>
              match r with
              | Err _ => Done (Err Events.CreateInternalFailure)
              | Ok i =>
                  match serialize b.(Events.base).(service_config) with
                  | None => Done (Err Events.CreateCorrupted)
                  | Some content =>
                      Unlock content (fun r =>
                        match r with
                        | Err _ => Done (Err Events.CreateCorrupted)
                        | Ok _ => Done (Ok {| static_config := b.(Events.base).(service_config);
                                              dynamic_storage := i |})
                        end)
                  end
              end)
        end)
  | Ok (Some _) | Err IncompatiblePattern => Done (Err Events.CreateAlreadyExists)
  | Err Denied => Done (Err Events.CreatePermissionDenied)
  | Err Corrupted => Done (Err Events.CreateCorrupted)
  | Err IsBeingCreatedByAnotherInstance => Done (Err Events.CreateIsBeingCreatedByAnotherInstance)
  end.

(* src/iceoryx2/src/service/builder/event.rs:68-75 EventOpenOrCreateError *)
Inductive EventOpenOrCreateError :=
| EventOpenError (e : Events.EventOpenError)
| EventCreateError (e : Events.EventCreateError).

(* src/iceoryx2/src/service/builder/event.rs:141-163 open_or_create *)
Definition event_open_or_create (fuel : nat) (b : Events.Builder) : prog (Result Handle EventOpenOrCreateError) :=
  let open := let? r := event_open fuel b in
    Done (match r with Ok h => Ok h | Err e => Err (EventOpenError e) end) in
  let? r := is_service_available b.(Events.base) in
  match r with
  | Ok (Some _) => open
  | Ok None =>
      let? r := event_create b in
      Done (match r with Ok h => Ok h | Err e => Err (EventCreateError e) end)
  | Err IsBeingCreatedByAnotherInstance => open
  | Err Corrupted => Done (Err (EventOpenError Events.EventInCorruptedState))
  | Err IncompatiblePattern => Done (Err (EventOpenError Events.IncompatibleMessagingPattern))
  | Err Denied => Done (Err (EventOpenError Events.PermissionDenied))
  end.

End programs.

(** ** Execution *)

Section execution.
Context {SW DW : Type} `{StaticStorageConcept SW} `{DynamicStorageConcept D.settings DW}.

(** One access: [None] when the program does not access anything any more; [elapsed] is
    what the adaptive wait returns. *)
Definition exec {A} (elapsed : option Z) (w : SW * DW) (p : prog A) : option (outcome ((SW * DW) * prog A)) :=
  let '(s, d) := w in
  match p with
  | Done _ | Stuck => None
  | Crash => Some Panic
  | DoesExist k => Some (let! r := static_does_exist s in Ret (w, k r))
  | OpenAndRead k => Some (let! r := static_open_and_read s in Ret (w, k r))
  | CreateLocked k => Some (let! '(r, s) := static_create_locked s in Ret ((s, d), k r))
  | Unlock c k => Some (let! '(r, s) := static_unlock s c in Ret ((s, d), k r))
  | OpenDynamic k => Some (let! r := dynamic_open d in Ret (w, k r))
  | CreateDynamic c k => Some (let! '(r, d) := dynamic_create c d in Ret ((s, d), k r))
  | LoadCounter i k =>
      Some (match dynamic_counter d i with Some v => Ret (w, k v) | None => Panic end)
  | CompareExchange i current new k =>
      Some (match dynamic_counter d i with
            | Some v =>
                if v =? current then Ret ((s, dynamic_set_counter d i new), k (Ok v))
                else Ret (w, k (Err v))
            | None => Panic
            end)
  | RemoveDynamic i k => Some (let! d := dynamic_remove d i in Ret ((s, d), k))
  | RemoveStatic k => Some (let! s := static_remove s in Ret ((s, d), k))
  | Wait k => Some (Ret (w, k elapsed))
  end.

(** A program on its own: the result, [None] when it is stuck, and the waits it did not
    need. *)
Fixpoint run {A} (p : prog A) (waits : list (option Z)) (w : SW * DW)
    : outcome (option A * list (option Z) * (SW * DW)) :=
  let '(s, d) := w in
  match p with
  | Done a => Ret (Some a, waits, w)
  | Stuck => Ret (None, waits, w)
  | Crash => Panic
  | DoesExist k => let! r := static_does_exist s in run (k r) waits w
  | OpenAndRead k => let! r := static_open_and_read s in run (k r) waits w
  | CreateLocked k => let! '(r, s) := static_create_locked s in run (k r) waits (s, d)
  | Unlock c k => let! '(r, s) := static_unlock s c in run (k r) waits (s, d)
  | OpenDynamic k => let! r := dynamic_open d in run (k r) waits w
  | CreateDynamic c k => let! '(r, d) := dynamic_create c d in run (k r) waits (s, d)
  | LoadCounter i k =>
      match dynamic_counter d i with Some v => run (k v) waits w | None => Panic end
  | CompareExchange i current new k =>
      match dynamic_counter d i with
      | Some v =>
          if v =? current then run (k (Ok v)) waits (s, dynamic_set_counter d i new)
          else run (k (Err v)) waits w
      | None => Panic
      end
  | RemoveDynamic i k => let! d := dynamic_remove d i in run k waits (s, d)
  | RemoveStatic k => let! s := static_remove s in run k waits (s, d)
  | Wait k =>
      match waits with
      | [] => Ret (None, [], w)
      | t :: waits => run (k t) waits w
      end
  end.

End execution.

(** ** Concrete runs

    The storages of a single service and a simple serializer. *)

Module Example.

#[export] Instance static_example : StaticStorageConcept (option (option (list Z))) := {|
  static_state w := w;
  static_does_exist w := Ret match w with
    | None => Ok false | Some None => Err UnderlyingResourcesBeingSetUp | Some (Some _) => Ok true end;
  static_open_and_read w := Ret match w with
    | None => Err StaticDoesNotExist | Some None => Err StaticIsLocked | Some (Some c) => Ok c end;
  static_create_locked w := Ret match w with
    | None => (Ok tt, Some None) | Some _ => (Err StaticAlreadyExists, w) end;
  static_unlock w c := Ret (Ok tt, Some (Some c));
  static_remove w := Ret None;
  static_does_exist_ok w := eq_refl;
  static_open_and_read_ok w := eq_refl;
  static_create_locked_ok w := match w with
    | None => ex_intro _ _ (ex_intro _ _ (conj eq_refl (conj eq_refl eq_refl)))
    | Some _ => ex_intro _ _ (ex_intro _ _ (conj eq_refl (conj eq_refl eq_refl))) end;
  static_unlock_ok w c _ := ex_intro _ _ (conj eq_refl eq_refl);
  static_remove_ok w := ex_intro _ _ (conj eq_refl eq_refl);
|}.

Record dynamic := { registered : option nat; counters : list Z }.

Definition dynamic_create (s : D.settings) (w : dynamic) : outcome (Result nat DynamicStorageCreateError * dynamic) :=
  Ret match w.(registered) with
      | Some _ => (Err DynamicAlreadyExists, w)
      | None => (Ok (length w.(counters)), {| registered := Some (length w.(counters)); counters := w.(counters) ++ [1] |})
      end.

Definition dynamic_remove (w : dynamic) (i : nat) : outcome dynamic :=
  match w.(registered) with
  | Some _ => Ret {| registered := None; counters := w.(counters) |}
  | None => Panic
  end.

#[export] Instance dynamic_example : DynamicStorageConcept D.settings dynamic.
Proof.
  refine {|
    dynamic_valid _ := true;
    dynamic_registered := registered;
    dynamic_counter w i := w.(counters) !! i;
    dynamic_set_counter w i v := {| registered := w.(registered); counters := <[i := v]> w.(counters) |};
    dynamic_open w := Ret match w.(registered) with None => Err DynamicDoesNotExist | Some i => Ok i end;
    DynamicConfig.dynamic_create := dynamic_create;
    DynamicConfig.dynamic_remove := dynamic_remove;
  |}; intros; cbn.
  - done.
  - done.
  - by rewrite list_lookup_insert_eq by by apply lookup_lt_is_Some.
  - by rewrite list_lookup_insert_ne.
  - unfold dynamic_create. destruct w.(registered) as [i|]; eexists _, _; (split; [done|]); [done|].
    exists (length w.(counters)). cbn. split_and!; [done|by apply lookup_ge_None_2|done|by rewrite lookup_app_r, Nat.sub_diag|].
    intros j Hj. destruct (decide (j < length w.(counters))%nat); [by rewrite lookup_app_l|].
    rewrite !lookup_ge_None_2; [done|lia|]. rewrite length_app. cbn. lia.
  - unfold dynamic_remove. destruct w.(registered); [by eexists|done].
Defined.

(** The length of the uuid, the uuid and the name, and the settings. *)
Definition serialize (c : StaticConfig) : option (list Z) :=
  Some (zlength c.(uuid) :: zlength c.(service_name) :: c.(uuid) ++ c.(service_name) ++
    match c.(messaging_pattern) with
    | PublishSubscribe p => [0; p.(max_subscribers); p.(max_publishers); p.(history_size); p.(subscriber_max_buffer_size);
        p.(subscriber_max_borrowed_samples); if p.(enable_safe_overflow) then 1 else 0] ++ p.(type_name)
    | Event e => [1; e.(max_notifiers); e.(max_listeners)]
    end).

Definition deserialize (l : list Z) : option StaticConfig :=
  match l with
  | n :: m :: l =>
      let rest := skipn (Z.to_nat n + Z.to_nat m) l in
      let config p := Some {| uuid := firstn (Z.to_nat n) l; service_name := firstn (Z.to_nat m) (skipn (Z.to_nat n) l);
                              messaging_pattern := p |} in
      match rest with
      | [1; n; l] => config (Event {| max_notifiers := n; max_listeners := l |})
      | 0 :: s :: p :: h :: b :: r :: o :: t =>
          config (PublishSubscribe (PubSub.with_details s p h b r (o =? 1) t))
      | _ => None
      end
  | _ => None
  end.

Lemma deserialize_serialize c content : serialize c = Some content -> deserialize content = Some c.
Proof.
  intros [= <-]. unfold deserialize, zlength. rewrite !Nat2Z.id, app_assoc, <-length_app, drop_app_length.
  rewrite <-app_assoc, take_app_length, drop_app_length, take_app_length.
  destruct c as [u s [[? ? ? ? ? [] ?]|[]]]; done.
Qed.

Definition builder : PubSub.Builder :=
  PubSub.new {| service_config := new_publish_subscribe id [97] default_config; global_config := default_config |}.

Definition vacant_storages : option (option (list Z)) * dynamic := (None, {| registered := None; counters := [] |}).

End Example.
(** ** Operations that are not interrupted *)

Section sequential.
Context `{Profile} (serialize : StaticConfig -> option (list Z)) (deserialize : list Z -> option StaticConfig).
Context {SW DW : Type} `{StaticStorageConcept SW} `{DynamicStorageConcept D.settings DW}.
Implicit Types (s : SW) (d : DW) (waits : list (option Z)).

Lemma run_bind {A B} (p : prog A) (f : A -> prog B) : forall waits w,
  run (bind p f) waits w =
    let! '(a, waits, w) := run p waits w in
    match a with Some a => run (f a) waits w | None => Ret (None, waits, w) end.
Proof.
  induction p as [a| | |k IH|k IH|k IH|c k IH|k IH|c k IH|i k IH|i c n k IH|i p IH|p IH|k IH]; intros waits [s d];
    cbn [bind run]; rewrite ?outcome_bind_ret; try done;
    repeat match goal with
    | |- context [outcome_bind (outcome_bind ?m _) _] => destruct m as [x|]; cbn [outcome_bind]; [|done]; try destruct x
    | |- context [match dynamic_counter ?d ?i with _ => _ end] => destruct (dynamic_counter d i); [|done]
    | |- context [if ?b then _ else _] => destruct b
    | |- context [match ?l with [] => _ | _ :: _ => _ end] => destruct l; [done|]
    end; apply IH.
Qed.

Lemma run_available base waits s d :
  run (is_service_available deserialize base) waits (s, d) = Ret (Some
    match static_state s with
    | None => Ok None
    | Some None => Err IsBeingCreatedByAnotherInstance
    | Some (Some c) => evaluate deserialize base (Ok c)
    end, waits, (s, d)).
Proof.
  cbn. rewrite static_does_exist_ok. cbn. destruct (static_state s) as [[c|]|] eqn:Es; try done.
  cbn. by rewrite static_open_and_read_ok, Es.
Qed.

Lemma run_increment fuel i v waits s d : dynamic_counter d i = Some v -> 1 <= v < 2 ^ 63 ->
  run (increment_reference_counter (S fuel) i) waits (s, d) =
    Ret (Some (Ok tt), waits, (s, dynamic_set_counter d i (v + 1))).
Proof.
  intros Hv Hr. cbn. rewrite Hv. rewrite (proj2 (Z.eqb_neq v _)) by (unfold D.MARKED_FOR_DESTRUCTION; lia).
  rewrite uadd_ok by lia. cbn. by rewrite Hv, Z.eqb_refl.
Qed.

Lemma run_decrement fuel i v waits s d : dynamic_counter d i = Some v -> 1 <= v ->
  run (decrement_reference_counter (S fuel) i) waits (s, d) =
    Ret (Some (if v =? 1 then D.NoMoreOwners else D.HasOwners), waits,
      (s, dynamic_set_counter d i (if v =? 1 then D.MARKED_FOR_DESTRUCTION else v - 1))).
Proof.
  intros Hv Hr. cbn. rewrite Hv. destruct (Z.eqb_spec v 1) as [->|Hne]; cbn.
  - by rewrite Hv.
  - rewrite usub_ok by lia. cbn. by rewrite Hv, Z.eqb_refl.
Qed.

(** Dropping one of several references, and the last one. *)
Lemma run_drop_shared fuel h v waits s d : dynamic_counter d h.(dynamic_storage) = Some v -> 1 < v ->
  run (drop (S fuel) h) waits (s, d) = Ret (Some tt, waits, (s, dynamic_set_counter d h.(dynamic_storage) (v - 1))).
Proof.
  intros Hv Hr. unfold drop. rewrite run_bind, (run_decrement _ _ v) by (done || lia).
  cbn [outcome_bind]. by rewrite (proj2 (Z.eqb_neq v 1)) by lia.
Qed.

Lemma run_drop_last fuel h i waits s d :
  dynamic_counter d h.(dynamic_storage) = Some 1 -> dynamic_registered d = Some i ->
  exists s' d', run (drop (S fuel) h) waits (s, d) = Ret (Some tt, waits, (s', d')) /\
    static_state s' = None /\ dynamic_registered d' = None.
Proof.
  intros Hv Hd. unfold drop. rewrite run_bind, (run_decrement _ _ 1) by (done || lia). cbn [outcome_bind Z.eqb Pos.eqb].
  cbn [run]. pose proof (dynamic_remove_ok (dynamic_set_counter d h.(dynamic_storage) D.MARKED_FOR_DESTRUCTION) h.(dynamic_storage)) as Hr.
  rewrite dynamic_set_registered, Hd in Hr. destruct Hr as (d' & -> & Hd' & _). cbn [outcome_bind run].
  destruct (static_remove_ok s) as (s' & -> & Hs'). cbn [outcome_bind run]. by exists s', d'.
Qed.

(** The configuration a publish-subscribe service is created with. *)
Definition creates (t : list Z) (b own : PubSub.Builder) : Prop :=
  (let! b := PubSub.adjust_properties_to_meaningful_values b in PubSub.set_type_name t b) = Ret own.

Lemma type_name_details t b b' : PubSub.set_type_name t b = Ret b' ->
  exists c, PubSub.config_details b' = Ret c /\ c.(type_name) = t /\
    b'.(PubSub.base).(service_config).(messaging_pattern) = PublishSubscribe c.
Proof.
  unfold PubSub.set_type_name, PubSub.config_details_mut. destruct (PubSub.config_details b); [|done].
  intros [= <-]. by eexists.
Qed.

Lemma run_create t b own c content s d :
  creates t b own -> PubSub.config_details own = Ret c ->
  negb c.(enable_safe_overflow) && (c.(subscriber_max_buffer_size) <? c.(history_size)) = false ->
  dynamic_valid (D.PublishSubscribeSettings {| D.PublishSubscribe.number_of_subscribers := c.(max_subscribers);
    D.PublishSubscribe.number_of_publishers := c.(max_publishers) |}) = true ->
  serialize own.(PubSub.base).(service_config) = Some content ->
  static_state s = None -> dynamic_registered d = None ->
  exists s' d' i, run (pubsub_create serialize deserialize t b) [] (s, d) =
      Ret (Some (Ok {| static_config := own.(PubSub.base).(service_config); dynamic_storage := i |}), [], (s', d')) /\
    static_state s' = Some (Some content) /\ dynamic_registered d' = Some i /\ dynamic_counter d' i = Some 1.
Proof.
  unfold creates. intros Ho Hc Hover Hv Hser Hs Hd. unfold pubsub_create.
  destruct (PubSub.adjust_properties_to_meaningful_values b) as [b1|]; [|done]. cbn [outcome_bind] in Ho. cbn [lift bind].
  rewrite Ho. cbn [lift bind]. rewrite Hc. cbn [lift bind]. rewrite Hover.
  unfold pubsub_is_service_available. rewrite !run_bind, run_available, Hs. cbn [outcome_bind run].
  destruct (static_create_locked_ok s) as (r & s1 & -> & Hr). rewrite Hs in Hr. destruct Hr as [-> Hs1]. cbn [outcome_bind].
  assert (Hp : publish_subscribe own.(PubSub.base).(service_config) = Ret c).
  { unfold PubSub.config_details in Hc. unfold publish_subscribe. by destruct (messaging_pattern _). }
  rewrite Hp. cbn [lift bind run].
  destruct (dynamic_create_ok _ d Hv) as (r & d1 & -> & Hr). rewrite Hd in Hr.
  destruct Hr as (i & -> & _ & Hd1 & Hi & _). cbn [outcome_bind]. rewrite Hser. cbn [run].
  destruct (static_unlock_ok s1 content) as (s2 & -> & Hs2); [by rewrite Hs1|]. cbn [outcome_bind run].
  by exists s2, d1, i.
Qed.

Lemma run_open fuel t q q' e c content i v s d :
  PubSub.set_type_name t q = Ret q' -> static_state s = Some (Some content) -> deserialize content = Some e ->
  e.(uuid) = q'.(PubSub.base).(service_config).(uuid) ->
  (exists p, e.(messaging_pattern) = PublishSubscribe p /\ p.(type_name) = t) ->
  PubSub.verify_service_properties q' e = Ret (Ok c) ->
  dynamic_registered d = Some i -> dynamic_counter d i = Some v -> 1 <= v < 2 ^ 63 ->
  run (pubsub_open deserialize (S fuel) t q) [] (s, d) =
    Ret (Some (Ok {| static_config := set_messaging_pattern q'.(PubSub.base).(service_config) (PublishSubscribe c);
                     dynamic_storage := i |}), [], (s, dynamic_set_counter d i (v + 1))).
Proof.
  intros Hq Hs He Hu (p & Hp & Ht) Hver Hd Hv Hb. destruct (type_name_details t q q' Hq) as (c' & Hc' & Ht' & Hp').
  unfold pubsub_open. rewrite Hq. cbn [lift bind pubsub_open_loop]. unfold pubsub_is_service_available.
  rewrite !run_bind, run_available, Hs. cbn [outcome_bind evaluate]. rewrite He, bool_decide_eq_true_2 by done. cbn [negb].
  unfold has_same_messaging_pattern. rewrite Hp, Hp'. cbn [is_same_pattern negb].
  unfold publish_subscribe. rewrite Hp, Hc'. cbn [lift bind]. rewrite bool_decide_eq_true_2 by congruence. cbn [negb run outcome_bind].
  rewrite Hver. cbn [lift bind]. rewrite run_bind. unfold open_dynamic_config_storage. cbn [run]. rewrite dynamic_open_ok, Hd.
  cbn [outcome_bind]. rewrite run_bind, (run_increment _ _ v) by done. done.
Qed.

(** C20: the round trip of a publish-subscribe service.  When the service does not exist,
    [create] publishes the adjusted configuration of the builder; any builder of the same
    service and message type whose requirements the configuration satisfies opens it and
    obtains exactly the configuration it was created with and the same dynamic storage;
    the service survives the drop of the creator's handle and disappears with the last
    one. *)
Theorem service_create_open_drop fuel t b own c content q q' ec s d :
  (forall c content, serialize c = Some content -> deserialize content = Some c) ->
  creates t b own -> PubSub.config_details own = Ret c ->
  negb c.(enable_safe_overflow) && (c.(subscriber_max_buffer_size) <? c.(history_size)) = false ->
  dynamic_valid (D.PublishSubscribeSettings {| D.PublishSubscribe.number_of_subscribers := c.(max_subscribers);
    D.PublishSubscribe.number_of_publishers := c.(max_publishers) |}) = true ->
  serialize own.(PubSub.base).(service_config) = Some content ->
  static_state s = None -> dynamic_registered d = None ->
  PubSub.set_type_name t q = Ret q' ->
  q'.(PubSub.base).(service_config).(uuid) = own.(PubSub.base).(service_config).(uuid) ->
  PubSub.verify_service_properties q' own.(PubSub.base).(service_config) = Ret (Ok ec) ->
  exists h1 w1 h2 w2 w3 s4 d4,
    run (pubsub_create serialize deserialize t b) [] (s, d) = Ret (Some (Ok h1), [], w1) /\
    run (pubsub_open deserialize (S fuel) t q) [] w1 = Ret (Some (Ok h2), [], w2) /\
    h1.(static_config).(messaging_pattern) = PublishSubscribe c /\
    h2.(static_config).(messaging_pattern) = PublishSubscribe ec /\ ec = c /\
    h2.(dynamic_storage) = h1.(dynamic_storage) /\
    run (drop (S fuel) h1) [] w2 = Ret (Some tt, [], w3) /\ static_state w3.1 = Some (Some content) /\
    run (drop (S fuel) h2) [] w3 = Ret (Some tt, [], (s4, d4)) /\
    static_state s4 = None /\ dynamic_registered d4 = None.
Proof.
  intros Hrt Ho Hc Hover Hv Hser Hs Hd Hq Hu Hver.
  destruct (run_create t b own c content s d Ho Hc Hover Hv Hser Hs Hd) as (s1 & d1 & i & E1 & Hs1 & Hd1 & Hi).
  assert (Hp : own.(PubSub.base).(service_config).(messaging_pattern) = PublishSubscribe c).
  { unfold PubSub.config_details in Hc. destruct (messaging_pattern _); [by injection Hc as ->|done]. }
  assert (Ht : c.(type_name) = t).
  { unfold creates in Ho. destruct (PubSub.adjust_properties_to_meaningful_values b) as [b1|]; [|done].
    destruct (type_name_details _ _ _ Ho) as (c' & Hc' & <- & _). congruence. }
  pose proof (run_open fuel t q q' _ ec content i 1 s1 d1 Hq Hs1 (Hrt _ _ Hser) (eq_sym Hu)
    (ex_intro _ c (conj Hp Ht)) Hver Hd1 Hi ltac:(lia)) as E2.
  assert (Hi2 : dynamic_counter (dynamic_set_counter d1 i (1 + 1)) i = Some 2) by (apply dynamic_set_same; by rewrite Hi).
  set (h1 := {| static_config := own.(PubSub.base).(service_config); dynamic_storage := i |}) in *.
  set (h2 := {| static_config := set_messaging_pattern _ (PublishSubscribe ec); dynamic_storage := i |}) in *.
  pose proof (run_drop_shared fuel h1 2 [] s1 _ Hi2 ltac:(lia)) as E3. cbn [h1 dynamic_storage] in E3.
  assert (Hi3 : dynamic_counter (dynamic_set_counter (dynamic_set_counter d1 i (1 + 1)) i (2 - 1)) i = Some 1)
    by (apply dynamic_set_same; by rewrite Hi2).
  destruct (run_drop_last fuel h2 i [] s1 _ Hi3) as (s4 & d4 & E4 & Hs4 & Hd4); [by rewrite !dynamic_set_registered|].
  eexists h1, _, h2, _, _, s4, d4. split; [exact E1|]. split; [exact E2|]. split; [done|]. split; [done|]. split.
  { unfold PubSub.verify_service_properties in Hver. rewrite Hp in Hver.
    destruct (publish_subscribe _); [|done]. cbn [outcome_bind] in Hver. repeat case_match; try done. by injection Hver. }
  split; [done|]. split; [exact E3|]. split; [exact Hs1|]. split; [exact E4|]. done.
Qed.

(** C21: [open] gives up.  While the service stays reserved by a creator that does not finish,
    every pass of the loop waits once, and the first wait after which more than the
    creation timeout has elapsed ends the loop with [HangsInCreation]. *)
Theorem service_open_gives_up fuel t q q' pre late rest s d :
  PubSub.set_type_name t q = Ret q' -> static_state s = Some None ->
  Forall (fun e => exists t, e = Some t /\ t <= q'.(PubSub.base).(global_config).(creation_timeout)) pre ->
  q'.(PubSub.base).(global_config).(creation_timeout) < late -> (length pre < fuel)%nat ->
  run (pubsub_open deserialize fuel t q) (pre ++ Some late :: rest) (s, d) =
    Ret (Some (Err PubSub.HangsInCreation), rest, (s, d)).
Proof.
  intros Hq Hs Hpre Hlate. unfold pubsub_open. rewrite Hq. cbn [lift bind].
  revert fuel. induction Hpre as [|e pre (x & -> & Hx) _ IH]; intros fuel Hf; (destruct fuel as [|fuel]; [cbn in Hf; lia|]);
    cbn [pubsub_open_loop]; unfold pubsub_is_service_available; rewrite !run_bind, run_available, Hs; cbn [outcome_bind run app].
  - by rewrite (proj2 (Z.ltb_lt _ _) Hlate).
  - rewrite (proj2 (Z.ltb_ge _ _) Hx). apply IH. cbn in Hf. lia.
Qed.

End sequential.

Lemma service_create_open_drop_witness : exists h1 w1 h2 w2,
  @run _ _ Example.static_example Example.dynamic_example _ (pubsub_create Example.serialize Example.deserialize [1] Example.builder) []
    Example.vacant_storages = Ret (Some (Ok h1), [], w1) /\
  @run _ _ Example.static_example Example.dynamic_example _ (@pubsub_open dev Example.deserialize 1 [1] Example.builder) [] w1 =
    Ret (Some (Ok h2), [], w2) /\ h2.(dynamic_storage) = h1.(dynamic_storage).
Proof.
  edestruct (@service_create_open_drop dev Example.serialize Example.deserialize _ _ Example.static_example Example.dynamic_example
    0 [1] Example.builder) with (q := Example.builder) (s := @None (option (list Z)))
    (d := {| Example.registered := None; Example.counters := [] |})
    as (h1 & w1 & h2 & w2 & w3 & s4 & d4 & E1 & E2 & _ & _ & _ & Ed & _);
    [exact Example.deserialize_serialize|reflexivity..|].
  exists h1, w1, h2, w2. split; [exact E1|]. split; [exact E2|exact Ed].
Defined.

Lemma service_open_gives_up_witness :
  @run _ _ Example.static_example Example.dynamic_example _ (@pubsub_open dev Example.deserialize 3 [1] Example.builder)
    [Some 1000; Some 400000000; Some 600000000] (Some None, {| Example.registered := None; Example.counters := [] |}) =
  Ret (Some (Err PubSub.HangsInCreation), [], (Some None, {| Example.registered := None; Example.counters := [] |})).
Proof.
  eapply (@service_open_gives_up dev Example.deserialize _ _ Example.static_example Example.dynamic_example 3 [1] Example.builder _
    [Some 1000; Some 400000000] 600000000 []); [reflexivity|reflexivity| |reflexivity|cbn; lia].
  repeat constructor; [exists 1000|exists 400000000]; (split; [reflexivity|discriminate]).
Defined.

End Service.
