(* ===== verification/ServiceLifecycle.v ===== *)
(** * The life cycle of a service with several participants

    Any number of participants create, open and drop one service concurrently; between
    any two accesses to the storages any number of accesses of the others may happen.
    The theorems hold for every implementation of the storages that satisfies
    [StaticStorageConcept] and [DynamicStorageConcept].

    The proof assigns every participant a role ([role]): whether it is about to create
    the service, holds a reference, or is about to remove the service.  [follows] is the
    protocol that a program with a role has to follow, a weakest-precondition style
    predicate on programs; the programs of Service.v follow it, and a step of a program
    that follows it preserves the invariant of the storages ([storages_ok]). *)

From S2P Require Import Prelude Allocator ByteString NamedConcept StaticStorage DynamicStorage DynamicConfig ServiceConfig Service.

Module ServiceLifecycle.
Import ServiceConfig Service.

(** ** Participants *)

Inductive failure :=
| PubSubOpenFailure (e : PubSub.PublishSubscribeOpenError)
| PubSubCreateFailure (e : PubSub.PublishSubscribeCreateError)
| PubSubOpenOrCreateFailure (e : PublishSubscribeOpenOrCreateError)
| EventOpenFailure (e : Events.EventOpenError)
| EventCreateFailure (e : Events.EventCreateError)
| EventOpenOrCreateFailure (e : EventOpenOrCreateError).

Inductive participant :=
| Closed (e : option failure)
| Opened (h : Handle)
| Opening (p : prog (Result Handle failure))
| Dropping (p : prog unit).

Inductive request :=
| PubSubOpen (message_type : list Z) (b : PubSub.Builder)
| PubSubCreate (message_type : list Z) (b : PubSub.Builder)
| PubSubOpenOrCreate (message_type : list Z) (b : PubSub.Builder)
| EventOpen (b : Events.Builder)
| EventCreate (b : Events.Builder)
| EventOpenOrCreate (b : Events.Builder).

(** An access to a storage that fails, with its error. *)
Inductive access_failure :=
| DoesExistFails (e : NamedConceptDoesExistError)
| OpenAndReadFails (e : StaticStorageOpenError)
| CreateLockedFails (e : StaticStorageCreateError)
| UnlockFails (e : StaticStorageUnlockError)
| OpenDynamicFails (e : DynamicStorageOpenError)
| CreateDynamicFails (e : DynamicStorageCreateError).

(** What a participant does next: begin an operation, perform one access (the adaptive
    wait returns [elapsed]), see an access fail without an effect, or return from the
    operation.  The fuel is arbitrary. *)
Inductive action :=
| Call (fuel : nat) (r : request)
| CallDrop (fuel : nat)
| Access (elapsed : option Z)
| Failure (x : access_failure)
| Return.

Section system.
(** [faulty]: accesses to the storages may fail. *)
Context `{Profile} (faulty : bool) (serialize : StaticConfig -> option (list Z)) (deserialize : list Z -> option StaticConfig).
Context {SW DW : Type} `{StaticStorageConcept SW} `{DynamicStorageConcept D.settings DW}.

Definition fails_with {E} (f : E -> failure) (p : prog (Result Handle E)) : prog (Result Handle failure) :=
  let? r := p in Done (match r with Ok h => Ok h | Err e => Err (f e) end).

Definition program (fuel : nat) (r : request) : prog (Result Handle failure) :=
  match r with
  | PubSubOpen t b => fails_with PubSubOpenFailure (pubsub_open deserialize fuel t b)
  | PubSubCreate t b => fails_with PubSubCreateFailure (pubsub_create serialize deserialize t b)
  | PubSubOpenOrCreate t b => fails_with PubSubOpenOrCreateFailure (pubsub_open_or_create serialize deserialize fuel t b)
  | EventOpen b => fails_with EventOpenFailure (event_open deserialize fuel b)
  | EventCreate b => fails_with EventCreateFailure (event_create serialize deserialize b)
  | EventOpenOrCreate b => fails_with EventOpenOrCreateFailure (event_open_or_create serialize deserialize fuel b)
  end.

(** A builder of the right pattern whose settings, once adjusted, the dynamic storage can
    provide; with others the creation of the dynamic storage panics. *)
Definition pubsub_valid (t : list Z) (b : PubSub.Builder) : bool :=
  match (let! b := PubSub.adjust_properties_to_meaningful_values b in
         let! b := PubSub.set_type_name t b in
         PubSub.config_details b) with
  | Ret c =>
      dynamic_valid (D.PublishSubscribeSettings {| D.PublishSubscribe.number_of_subscribers := c.(max_subscribers);
        D.PublishSubscribe.number_of_publishers := c.(max_publishers) |})
  | Panic => false
  end.

Definition event_valid (b : Events.Builder) : bool :=
  match (let! b := Events.adjust_properties_to_meaningful_values b in
         event b.(Events.base).(service_config)) with
  | Ret c =>
      dynamic_valid (D.EventSettings {| D.Event.number_of_listeners := c.(max_listeners);
        D.Event.number_of_notifiers := c.(max_notifiers) |})
  | Panic => false
  end.

Definition valid_request (r : request) : bool :=
  match r with
  | PubSubOpen t b | PubSubCreate t b | PubSubOpenOrCreate t b => pubsub_valid t b
  | EventOpen b | EventCreate b | EventOpenOrCreate b => event_valid b
  end.

(** The storages, and whether an access has panicked. *)
Record shared := { storages : SW * DW; panicked : bool }.

Definition access {A} (elapsed : option Z) (g : shared) (p : prog A) (f : prog A -> participant)
    : option (shared * participant) :=
  match exec elapsed g.(storages) p with
  | None => None
  | Some Panic => Some ({| storages := g.(storages); panicked := true |}, f Crash)
  | Some (Ret (w, p)) => Some ({| storages := w; panicked := g.(panicked) |}, f p)
  end.

Definition fail_access {A} (x : access_failure) (p : prog A) : option (prog A) :=
  match x, p with
  | DoesExistFails e, DoesExist k => Some (k (Err e))
  | OpenAndReadFails e, OpenAndRead k => Some (k (Err e))
  | CreateLockedFails e, CreateLocked k => Some (k (Err e))
  | UnlockFails e, Unlock _ k => Some (k (Err e))
  | OpenDynamicFails e, OpenDynamic k => Some (k (Err e))
  | CreateDynamicFails e, CreateDynamic _ k => Some (k (Err e))
  | _, _ => None
  end.

Definition act (a : action) (g : shared) (p : participant) : option (shared * participant) :=
  match a, p with
  | Call fuel r, Closed _ => if valid_request r then Some (g, Opening (program fuel r)) else None
  | CallDrop fuel, Opened h => Some (g, Dropping (drop fuel h))
  | Access elapsed, Opening p => access elapsed g p Opening
  | Access elapsed, Dropping p => access elapsed g p Dropping
  | Failure x, Opening p => if faulty then p ← fail_access x p; Some (g, Opening p) else None
  | Return, Opening (Done (Ok h)) => Some (g, Opened h)
  | Return, Opening (Done (Err e)) => Some (g, Closed (Some e))
  | Return, Dropping (Done tt) => Some (g, Closed None)
  | _, _ => None
  end.

Definition begin (w : SW * DW) (n : nat) : shared * list participant :=
  ({| storages := w; panicked := false |}, replicate n (Closed None)).

(** ** Roles *)

Inductive role :=
| Outside
| Creator           (* has reserved the static storage *)
| Publisher (i : nat) (* has created dynamic storage [i], too *)
| Holder (i : nat)  (* holds a reference of dynamic storage [i] *)
| Remover (i : nat) (* has marked dynamic storage [i] for destruction *)
| Cleaner.          (* has removed the dynamic storage *)

(** The values of a reference counter that a participant can meet. *)
Definition plausible (v : Z) : Prop := v = D.MARKED_FOR_DESTRUCTION \/ 1 <= v < 2 ^ 63.

(** What a program may do in a role, knowing the dynamic storages [ids]; [post] holds of
    the result, the storages known then and the role at the end. *)
Fixpoint follows {A} (post : list nat -> role -> A -> Prop) (ids : list nat) (r : role) (p : prog A) : Prop :=
  match p with
  | Done a => post ids r a
  | Crash => False
  | Stuck => True
  | DoesExist k => forall x, follows post ids r (k x)
  | OpenAndRead k => forall x, follows post ids r (k x)
  | CreateLocked k => r = Outside /\ follows post ids Creator (k (Ok tt)) /\
      forall e, follows post ids Outside (k (Err e))
  | Unlock c k => exists i, r = Publisher i /\ follows post ids (Holder i) (k (Ok tt)) /\
      (faulty = true -> forall e, follows post ids r (k (Err e)))
  | OpenDynamic k => (forall i, follows post (i :: ids) r (k (Ok i))) /\ forall e, follows post ids r (k (Err e))
  | CreateDynamic s k => r = Creator /\ dynamic_valid s = true /\
      (forall i, follows post (i :: ids) (Publisher i) (k (Ok i))) /\
      (faulty = true -> forall e, follows post ids r (k (Err e)))
  | LoadCounter i k => i ∈ ids /\ forall v, plausible v -> follows post ids r (k v)
  | CompareExchange i c n k => i ∈ ids /\ (forall v, plausible v -> follows post ids r (k (Err v))) /\
      ((r = Outside /\ c <> D.MARKED_FOR_DESTRUCTION /\ n = c + 1 /\ follows post ids (Holder i) (k (Ok c))) \/
       (r = Holder i /\ c <> 1 /\ n = c - 1 /\ follows post ids Outside (k (Ok c))) \/
       (r = Holder i /\ c = 1 /\ n = D.MARKED_FOR_DESTRUCTION /\ follows post ids (Remover i) (k (Ok c))))
  | RemoveDynamic i k => r = Remover i /\ follows post ids Cleaner k
  | RemoveStatic k => r = Cleaner /\ follows post ids Outside k
  | Wait k => forall x, follows post ids r (k x)
  end.

Lemma follows_bind {A B} (post : list nat -> role -> B -> Prop) (f : A -> prog B) p : forall ids r,
  follows (fun ids r a => follows post ids r (f a)) ids r p -> follows post ids r (bind p f).
Proof. induction p; intros ids r; cbn; naive_solver. Qed.

Lemma follows_mono {A} (post post' : list nat -> role -> A -> Prop) p : forall ids r,
  (forall ids r a, post ids r a -> post' ids r a) -> follows post ids r p -> follows post' ids r p.
Proof. induction p; intros ids r Hm; cbn; naive_solver. Qed.

Lemma follows_lift {A B} (post : list nat -> role -> B -> Prop) (o : outcome A) (f : A -> prog B) ids r a :
  o = Ret a -> follows post ids r (f a) -> follows post ids r (bind (lift o) f).
Proof. by intros ->. Qed.

(** A creation can fail after the static storage was reserved: an access fails, or the
    configuration cannot be serialized. *)
Definition may_fail : Prop := faulty = true \/ exists c, serialize c = None.

Definition abandons (r : role) : Prop := match r with Creator | Publisher _ => may_fail | _ => False end.

(** The result of opening: a reference, nothing, or a service that stays unfinished. *)
Definition opened {E} (ids : list nat) (r : role) (a : Result Handle E) : Prop :=
  match a with
  | Ok h => r = Holder h.(dynamic_storage) /\ h.(dynamic_storage) ∈ ids
  | Err _ => match r with Outside => True | _ => abandons r end
  end.

Definition participant_ok (ids : list nat) (r : role) (p : participant) : Prop :=
  match p with
  | Closed _ => r = Outside
  | Opened h => r = Holder h.(dynamic_storage) /\ h.(dynamic_storage) ∈ ids
  | Opening p => follows opened ids r p
  | Dropping p => follows (fun _ r _ => r = Outside) ids r p
  end.

(** ** The programs follow the protocol *)

Lemma follows_increment {A} (post : list nat -> role -> A -> Prop) fuel i ids (f : Result unit unit -> prog A) :
  i ∈ ids -> follows post ids (Holder i) (f (Ok tt)) -> follows post ids Outside (f (Err tt)) ->
  follows post ids Outside (bind (increment_reference_counter fuel i) f).
Proof.
  intros Hi Hok Herr. cbn. split; [done|]. induction fuel as [|fuel IH]; intros v Hv; cbn; [done|].
  destruct (Z.eqb_spec v D.MARKED_FOR_DESTRUCTION) as [->|Hne]; [done|].
  destruct Hv as [|Hv]; [done|]. rewrite uadd_ok by lia. cbn. split; [done|]. split; [by apply IH|]. left. done.
Qed.

Lemma follows_decrement {A} (post : list nat -> role -> A -> Prop) fuel i ids (f : _ -> prog A) :
  i ∈ ids -> follows post ids Outside (f D.HasOwners) -> follows post ids (Remover i) (f D.NoMoreOwners) ->
  follows post ids (Holder i) (bind (decrement_reference_counter fuel i) f).
Proof.
  intros Hi Hown Hno. cbn. split; [done|]. induction fuel as [|fuel IH]; intros v Hv; cbn; [done|].
  destruct (Z.eqb_spec v 1) as [->|Hne]; cbn.
  - split; [done|]. split; [by apply IH|]. by right; right.
  - assert (1 <= v) by (destruct Hv as [->|]; [done|lia]). rewrite usub_ok by lia. cbn.
    split; [done|]. split; [by apply IH|]. by right; left.
Qed.

Lemma drop_follows fuel h ids : h.(dynamic_storage) ∈ ids ->
  follows (fun _ r _ => r = Outside) ids (Holder h.(dynamic_storage)) (drop fuel h).
Proof. intros Hi. apply follows_decrement; [done|done|]. by cbn. Qed.

(** An available service has the pattern of the builder. *)
Definition same_pattern (base : BuilderWithServiceType) (a : Result (option StaticConfig) ServiceState) : Prop :=
  forall c, a = Ok (Some c) -> has_same_messaging_pattern c base.(service_config) = true.

Lemma follows_available {A} (post : list nat -> role -> A -> Prop) base ids r f :
  (forall a, same_pattern base a -> follows post ids r (f a)) ->
  follows post ids r (bind (is_service_available deserialize base) f).
Proof.
  intros Hf. cbn. intros [[]|e].
  - cbn. intros x. apply Hf. intros c. unfold evaluate. repeat case_match; try done.
    intros [= <-]. by apply negb_false_iff.
  - by apply Hf.
  - destruct e; by apply Hf.
Qed.

Lemma follows_pubsub_available {A} (post : list nat -> role -> A -> Prop) b c ids r f :
  b.(PubSub.base).(service_config).(messaging_pattern) = PublishSubscribe c ->
  (forall a, (forall e, a = Ok (Some e) -> exists c, e.(messaging_pattern) = PublishSubscribe c) ->
    follows post ids r (f a)) ->
  follows post ids r (bind (pubsub_is_service_available deserialize b) f).
Proof.
  intros Hb Hf. unfold pubsub_is_service_available. apply follows_bind, follows_available. intros a Ha.
  destruct a as [[e|]|e]; cbn; [|by apply Hf..].
  specialize (Ha e eq_refl). unfold has_same_messaging_pattern, is_same_pattern in Ha. rewrite Hb in Ha.
  unfold publish_subscribe, PubSub.config_details. rewrite Hb. destruct e.(messaging_pattern) eqn:Ee; [|done]. cbn.
  case_match; apply Hf; [done|]. intros ? [= <-]. by rewrite Ee; eexists.
Qed.

Lemma follows_open_dynamic {A} (post : list nat -> role -> A -> Prop) fuel ids f :
  (forall i, follows post (i :: ids) (Holder i) (f (Ok i))) ->
  (forall ids e, follows post ids Outside (f (Err e))) ->
  follows post ids Outside (bind (open_dynamic_config_storage fuel) f).
Proof.
  intros Hok Herr. unfold open_dynamic_config_storage. apply follows_bind. cbn. split; [intros i|naive_solver].
  apply follows_increment; [set_solver|by apply Hok|by apply Herr].
Qed.

Lemma set_type_name_ok t b c : b.(PubSub.base).(service_config).(messaging_pattern) = PublishSubscribe c ->
  exists b' c', PubSub.set_type_name t b = Ret b' /\
    b'.(PubSub.base).(service_config).(messaging_pattern) = PublishSubscribe c'.
Proof. intros Hb. unfold PubSub.set_type_name, PubSub.config_details_mut, PubSub.config_details. rewrite Hb. by eexists _, _. Qed.

Lemma pubsub_open_loop_follows fuel b c ids :
  b.(PubSub.base).(service_config).(messaging_pattern) = PublishSubscribe c ->
  follows opened ids Outside (pubsub_open_loop deserialize fuel b).
Proof.
  intros Hb. induction fuel as [|fuel IH]; [done|]. cbn [pubsub_open_loop].
  apply (follows_pubsub_available _ b c); [done|]. intros [[e|]|[[]|]] Ha; try done.
  - destruct (Ha e eq_refl) as [ec He].
    assert (exists r, PubSub.verify_service_properties b e = Ret r) as [r Er].
    { unfold PubSub.verify_service_properties, publish_subscribe. rewrite Hb, He. by eexists. }
    eapply follows_lift; [exact Er|]. destruct r as [r|]; [|done].
    apply follows_open_dynamic; [|done]. intros i. cbn. set_solver.
  - cbn. intros [t|]; [|done]. by case_match.
Qed.

Lemma pubsub_open_follows fuel t b c ids :
  b.(PubSub.base).(service_config).(messaging_pattern) = PublishSubscribe c ->
  follows opened ids Outside (pubsub_open deserialize fuel t b).
Proof.
  intros Hb. unfold pubsub_open. destruct (set_type_name_ok t b c Hb) as (b' & c' & E & Hb').
  eapply follows_lift; [exact E|]. by eapply pubsub_open_loop_follows.
Qed.

Lemma pubsub_create_follows t b ids :
  pubsub_valid t b = true -> follows opened ids Outside (pubsub_create serialize deserialize t b).
Proof.
  unfold pubsub_valid, pubsub_create.
  destruct (PubSub.adjust_properties_to_meaningful_values b) as [b1|]; [|done]. cbn [lift bind outcome_bind].
  destruct (PubSub.set_type_name t b1) as [b2|]; [|done]. cbn [lift bind outcome_bind].
  destruct (PubSub.config_details b2) as [c|] eqn:Ec; [|done]. cbn [lift bind outcome_bind]. intros Hs. case_match; [done|].
  assert (Hb2 : b2.(PubSub.base).(service_config).(messaging_pattern) = PublishSubscribe c).
  { unfold PubSub.config_details in Ec. by destruct (messaging_pattern _); [injection Ec as ->|]. }
  apply (follows_pubsub_available _ b2 c); [done|]. intros [[e|]|[[]|]] _; try done. cbn. split; [done|].
  split; [|done]. unfold publish_subscribe. rewrite Hb2. cbn. split; [done|]. split; [done|]. split; [|by left].
  intros i. destruct (serialize _) eqn:Econtent; cbn; [|by right; eexists].
  exists i. split; [done|]. cbn. split; [set_solver|by left].
Qed.

Lemma pubsub_valid_pattern t b : pubsub_valid t b = true ->
  exists c, b.(PubSub.base).(service_config).(messaging_pattern) = PublishSubscribe c.
Proof.
  unfold pubsub_valid, PubSub.adjust_properties_to_meaningful_values, publish_subscribe_mut, publish_subscribe.
  destruct (messaging_pattern _); [by eexists|done].
Qed.

Lemma pubsub_valid_type_name t b b' : pubsub_valid t b = true -> PubSub.set_type_name t b = Ret b' ->
  pubsub_valid t b' = true.
Proof.
  intros Hv. destruct (pubsub_valid_pattern t b Hv) as [c Hb].
  unfold PubSub.set_type_name, PubSub.config_details_mut, PubSub.config_details. rewrite Hb. intros [= <-].
  revert Hv. unfold pubsub_valid, PubSub.adjust_properties_to_meaningful_values, publish_subscribe_mut, publish_subscribe.
  rewrite Hb. done.
Qed.

Lemma follows_or {A B} (f : A -> B) (p : prog (Result Handle A)) ids r :
  follows opened ids r p ->
  follows opened ids r (bind p (fun r => Done (match r with Ok h => Ok h | Err e => Err (f e) end))).
Proof. intros Hp. apply follows_bind. eapply follows_mono; [|exact Hp]. by intros ids' r' []. Qed.

Lemma pubsub_open_or_create_follows fuel t b ids : pubsub_valid t b = true ->
  follows opened ids Outside (pubsub_open_or_create serialize deserialize fuel t b).
Proof.
  intros Hv. destruct (pubsub_valid_pattern t b Hv) as [c Hb].
  destruct (set_type_name_ok t b c Hb) as (b' & c' & E & Hb'). pose proof (pubsub_valid_type_name t b b' Hv E) as Hv'.
  unfold pubsub_open_or_create. eapply follows_lift; [exact E|].
  apply (follows_pubsub_available _ b' c'); [done|]. intros [[e|]|[[]|]] _; try done.
  - by eapply follows_or, pubsub_open_follows.
  - by apply follows_or, pubsub_create_follows.
  - by eapply follows_or, pubsub_open_follows.
Qed.

Lemma event_valid_pattern b : event_valid b = true ->
  exists c, b.(Events.base).(service_config).(messaging_pattern) = Event c.
Proof.
  unfold event_valid, Events.adjust_properties_to_meaningful_values, event_mut, event.
  destruct (messaging_pattern _); [done|by eexists].
Qed.

Lemma event_open_follows fuel b c ids :
  b.(Events.base).(service_config).(messaging_pattern) = Event c ->
  follows opened ids Outside (event_open deserialize fuel b).
Proof.
  intros Hb. induction fuel as [|fuel IH]; [done|]. cbn [event_open].
  apply follows_available. intros [[e|]|[]] Ha; try done.
  - assert (exists r, Events.verify_service_properties b e = Ret r) as [r Er].
    { unfold Events.verify_service_properties, event. rewrite Hb. cbn. by case_match; eexists. }
    eapply follows_lift; [exact Er|]. destruct r as [r|]; [|done].
    apply follows_open_dynamic; [|done]. intros i. cbn. set_solver.
  - cbn. intros [t|]; [|done]. by case_match.
Qed.

Lemma event_create_follows b ids :
  event_valid b = true -> follows opened ids Outside (event_create serialize deserialize b).
Proof.
  unfold event_valid, event_create.
  destruct (Events.adjust_properties_to_meaningful_values b) as [b1|]; [|done]. cbn [lift bind outcome_bind].
  destruct (event b1.(Events.base).(service_config)) as [c|] eqn:Ec; [|done]. cbn [outcome_bind]. intros Hs.
  apply follows_available. intros [[e|]|[]] _; try done. split; [done|].
  split; [|done]. cbn. split; [done|]. split; [done|]. split; [|by left].
  intros i. destruct (serialize _) eqn:Econtent; cbn; [|by right; eexists].
  exists i. split; [done|]. cbn. split; [set_solver|by left].
Qed.

Lemma event_open_or_create_follows fuel b ids : event_valid b = true ->
  follows opened ids Outside (event_open_or_create serialize deserialize fuel b).
Proof.
  intros Hv. destruct (event_valid_pattern b Hv) as [c Hb]. unfold event_open_or_create.
  apply follows_available. intros [[e|]|[]] _; try done.
  - by eapply follows_or, event_open_follows.
  - by apply follows_or, event_create_follows.
  - by eapply follows_or, event_open_follows.
Qed.

Lemma program_follows fuel q ids : valid_request q = true -> follows opened ids Outside (program fuel q).
Proof.
  intros Hv. destruct q; cbn [valid_request program] in *; apply follows_or.
  - destruct (pubsub_valid_pattern _ _ Hv) as [c Hb]. by eapply pubsub_open_follows.
  - by apply pubsub_create_follows.
  - by apply pubsub_open_or_create_follows.
  - destruct (event_valid_pattern _ Hv) as [c Hb]. by eapply event_open_follows.
  - by apply event_create_follows.
  - by apply event_open_or_create_follows.
Qed.

(** ** The invariant of the storages *)

(** The references that count, and the roles of which there is at most one. *)
Definition holds (r : role) : Z := match r with Holder _ | Publisher _ => 1 | _ => 0 end.
Definition exclusive (r : role) : Z :=
  match r with Creator | Publisher _ | Remover _ | Cleaner => 1 | Outside | Holder _ => 0 end.
#[local] Arguments holds !r /.
#[local] Arguments exclusive !r /.

Definition role_ok (st : option (option (list Z))) (reg : option nat) (cnt : nat -> option Z) (r : role) : Prop :=
  match r with
  | Outside => True
  | Creator => st = Some None /\ reg = None
  | Publisher i => st = Some None /\ reg = Some i
  | Holder i => reg = Some i
  | Remover i => is_Some (mjoin st) /\ reg = Some i /\ cnt i = Some D.MARKED_FOR_DESTRUCTION
  | Cleaner => is_Some (mjoin st) /\ reg = None
  end.

Record storages_ok (st : option (option (list Z))) (reg : option nat) (cnt : nat -> option Z) (rs : list role) : Prop := {
  so_roles : Forall (role_ok st reg cnt) rs;
  so_exclusive : total exclusive rs <= 1;
  so_old : forall i v, cnt i = Some v -> reg <> Some i -> v = D.MARKED_FOR_DESTRUCTION;
  so_registered : forall i, reg = Some i ->
    cnt i = Some (total holds rs) /\ 1 <= total holds rs \/
    cnt i = Some D.MARKED_FOR_DESTRUCTION /\ total holds rs = 0 /\ total exclusive rs = 1;
  so_absent : st = None -> reg = None;
  so_changing : is_Some st -> st = Some None \/ reg = None -> total exclusive rs = 1;
  so_size : zlength rs < 2 ^ 63;
}.

Lemma holds_nonneg r : 0 <= holds r.
Proof. destruct r; cbn; lia. Qed.
Lemma exclusive_nonneg r : 0 <= exclusive r.
Proof. destruct r; cbn; lia. Qed.

(** Beside a participant with an exclusive role there is no other one. *)
Lemma exclusive_alone rs k j r r' :
  total exclusive rs <= 1 -> rs !! k = Some r -> exclusive r = 1 -> j <> k -> rs !! j = Some r' -> exclusive r' = 0.
Proof.
  intros Ht Hk Hr Hj Hj'. pose proof (total_two exclusive exclusive_nonneg rs k j r r' Hk Hj' ltac:(done)).
  pose proof (exclusive_nonneg r'). lia.
Qed.

(** The roles of the others in changed storages. *)
Lemma roles_insert st reg cnt rs k r :
  role_ok st reg cnt r -> (forall j r', j <> k -> rs !! j = Some r' -> role_ok st reg cnt r') ->
  Forall (role_ok st reg cnt) (<[k := r]> rs).
Proof.
  intros Hr Hrs. apply Forall_lookup. intros j r' Hj. destruct (decide (j = k)) as [->|Hne].
  - destruct (decide (k < length rs)%nat).
    + rewrite list_lookup_insert_eq in Hj by done. by injection Hj as <-.
    + rewrite list_insert_ge in Hj by lia. apply lookup_lt_Some in Hj. lia.
  - rewrite list_lookup_insert_ne in Hj by done. by eapply Hrs.
Qed.

Lemma total_none (w : role -> Z) rs : (forall k r, rs !! k = Some r -> w r = 0) -> total w rs = 0.
Proof.
  induction rs as [|r rs IH]; intros Hw; cbn; [done|].
  rewrite (Hw 0%nat r eq_refl), IH; [done|]. intros k r'. apply (Hw (S k)).
Qed.

Lemma storages_plausible st reg cnt rs i v : storages_ok st reg cnt rs -> cnt i = Some v -> plausible v.
Proof.
  intros Hs Hv. destruct (decide (reg = Some i)) as [->|Hne]; [|left; by eapply so_old].
  pose proof (so_size _ _ _ _ Hs). pose proof (total_bound holds 1 rs ltac:(intros []; cbn; lia)).
  destruct (so_registered _ _ _ _ Hs i eq_refl) as [[E ?]|[E _]]; rewrite E in Hv; injection Hv as <-; [right; lia|by left].
Qed.

Lemma holds_unmarked st reg cnt rs : storages_ok st reg cnt rs -> total holds rs <> D.MARKED_FOR_DESTRUCTION.
Proof.
  intros Hs. pose proof (so_size _ _ _ _ Hs). pose proof (total_bound holds 1 rs ltac:(intros []; cbn; lia)).
  unfold D.MARKED_FOR_DESTRUCTION. lia.
Qed.

(** Nobody but the participant [k] holds a reference or has an exclusive role. *)
Ltac others Hs j r' Hj' :=
  let Hr := fresh "Hr" in
  pose proof (proj1 (Forall_lookup _ _) (so_roles _ _ _ _ Hs) j r' Hj') as Hr;
  destruct r'; cbn in Hr; destruct_and? Hr; simplify_eq; cbn; try done.

Lemma reserve_step reg cnt rs k :
  storages_ok None reg cnt rs -> rs !! k = Some Outside -> storages_ok (Some None) reg cnt (<[k := Creator]> rs).
Proof.
  intros Hs Hk. assert (reg = None) as -> by by eapply so_absent.
  assert (Hout : forall j r, rs !! j = Some r -> r = Outside).
  { intros j r' Hj. others Hs j r' Hj; by match goal with H : is_Some _ |- _ => destruct H end. }
  assert (Hex : total exclusive rs = 0) by (apply total_none; intros j r Hj; by rewrite (Hout j r Hj)).
  split; rewrite ?zlength_insert, ?(total_insert _ _ _ _ _ Hk); cbn; try (by intros; lia); try apply Hs; try done.
  - apply roles_insert; [done|]. intros j r' _ Hj. by rewrite (Hout j r' Hj).
Qed.

Lemma create_step st cnt cnt' rs k i :
  storages_ok st None cnt rs -> rs !! k = Some Creator -> cnt i = None -> cnt' i = Some 1 ->
  (forall j, i <> j -> cnt' j = cnt j) -> storages_ok st (Some i) cnt' (<[k := Publisher i]> rs).
Proof.
  intros Hs Hk Hi Hi' Hne.
  pose proof (proj1 (Forall_lookup _ _) (so_roles _ _ _ _ Hs) k _ Hk) as [-> _].
  assert (Hh : total holds rs = 0) by (apply total_none; intros j r' Hj; others Hs j r' Hj).
  pose proof (so_exclusive _ _ _ _ Hs) as Hx. pose proof (total_lookup exclusive exclusive_nonneg _ _ _ Hk) as Hx'. cbn in Hx'.
  split; rewrite ?zlength_insert, ?(total_insert _ _ _ _ _ Hk); cbn; try (by intros; lia); try done.
  - apply roles_insert; [done|]. intros j r' Hj Hj'. pose proof (exclusive_alone _ _ _ _ _ Hx Hk eq_refl Hj Hj').
    others Hs j r' Hj'.
  - intros j v Hj Hr. rewrite Hne in Hj by congruence. by eapply so_old.
  - intros ? [= <-]. left. rewrite Hi', Hh. split; [done|lia].
  - apply Hs.
Qed.

Lemma publish_step st reg cnt rs k i c :
  storages_ok st reg cnt rs -> rs !! k = Some (Publisher i) ->
  storages_ok (Some (Some c)) reg cnt (<[k := Holder i]> rs).
Proof.
  intros Hs Hk. pose proof (proj1 (Forall_lookup _ _) (so_roles _ _ _ _ Hs) k _ Hk) as [-> ->].
  pose proof (so_exclusive _ _ _ _ Hs) as Hx. pose proof (total_lookup holds holds_nonneg _ _ _ Hk) as Hh. cbn in Hh.
  pose proof (total_nonneg exclusive exclusive_nonneg rs).
  split; rewrite ?zlength_insert, ?(total_insert _ _ _ _ _ Hk); cbn; try (by intros; lia); try done; try apply Hs.
  - apply roles_insert; [done|]. intros j r' Hj Hj'. pose proof (exclusive_alone _ _ _ _ _ Hx Hk eq_refl Hj Hj').
    others Hs j r' Hj'.
  - intros ? [= <-]. destruct (so_registered _ _ _ _ Hs i eq_refl) as [[E ?]|(_ & ? & _)]; [|lia].
    left. rewrite E. split; [f_equal|]; lia.
  - intros _ [|]; done.
Qed.

Lemma increment_step st reg cnt cnt' rs k i c :
  storages_ok st reg cnt rs -> rs !! k = Some Outside -> cnt i = Some c -> c <> D.MARKED_FOR_DESTRUCTION ->
  cnt' i = Some (c + 1) -> (forall j, i <> j -> cnt' j = cnt j) -> storages_ok st reg cnt' (<[k := Holder i]> rs).
Proof.
  intros Hs Hk Hc Hm Hc' Hne.
  destruct (decide (reg = Some i)) as [->|Hr]; [|by destruct Hm; eapply so_old].
  split; rewrite ?zlength_insert, ?(total_insert _ _ _ _ _ Hk); cbn; try apply Hs; try done.
  - apply roles_insert; [done|]. intros j r' Hj Hj'. others Hs j r' Hj'; congruence.
  - pose proof (so_exclusive _ _ _ _ Hs). lia.
  - intros j v Hj Hr. rewrite Hne in Hj by congruence. by eapply so_old.
  - intros ? [= <-]. destruct (so_registered _ _ _ _ Hs i eq_refl) as [[E ?]|(E & _)]; [|congruence].
    left. rewrite Hc'. rewrite Hc in E. injection E as ->. split; [f_equal|]; lia.
  - intros H1' H2'. pose proof (so_changing _ _ _ _ Hs H1' H2'). lia.
Qed.

Lemma decrement_step st reg cnt cnt' rs k i c :
  storages_ok st reg cnt rs -> rs !! k = Some (Holder i) -> cnt i = Some c -> c <> 1 ->
  cnt' i = Some (c - 1) -> (forall j, i <> j -> cnt' j = cnt j) -> storages_ok st reg cnt' (<[k := Outside]> rs).
Proof.
  intros Hs Hk Hc Hm Hc' Hne.
  pose proof (proj1 (Forall_lookup _ _) (so_roles _ _ _ _ Hs) k _ Hk) as ->. cbn in *.
  pose proof (total_lookup holds holds_nonneg _ _ _ Hk) as Hh. cbn in Hh.
  destruct (so_registered _ _ _ _ Hs i eq_refl) as [[E ?]|(_ & ? & _)]; [|lia]. rewrite Hc in E. injection E as E.
  split; rewrite ?zlength_insert, ?(total_insert _ _ _ _ _ Hk); cbn; try apply Hs; try done.
  - apply roles_insert; [done|]. intros j r' Hj Hj'. pose proof (holds_unmarked _ _ _ _ Hs) as Hu. rewrite <-E in Hu.
    others Hs j r' Hj'; congruence.
  - pose proof (so_exclusive _ _ _ _ Hs). lia.
  - intros j v Hj Hr. rewrite Hne in Hj by congruence. by eapply so_old.
  - intros ? [= <-]. left. rewrite Hc'. split; [f_equal|]; lia.
  - intros H1' H2'. pose proof (so_changing _ _ _ _ Hs H1' H2'). lia.
Qed.

Lemma mark_step st reg cnt cnt' rs k i :
  storages_ok st reg cnt rs -> rs !! k = Some (Holder i) -> cnt i = Some 1 ->
  cnt' i = Some D.MARKED_FOR_DESTRUCTION -> (forall j, i <> j -> cnt' j = cnt j) ->
  storages_ok st reg cnt' (<[k := Remover i]> rs).
Proof.
  intros Hs Hk Hc Hc' Hne.
  pose proof (proj1 (Forall_lookup _ _) (so_roles _ _ _ _ Hs) k _ Hk) as ->. cbn in *.
  pose proof (total_lookup holds holds_nonneg _ _ _ Hk) as Hh. cbn in Hh.
  destruct (so_registered _ _ _ _ Hs i eq_refl) as [[E ?]|(_ & ? & _)]; [|lia]. rewrite Hc in E. injection E as E.
  assert (Hout : forall j r, j <> k -> rs !! j = Some r -> r = Outside).
  { intros j r' Hj Hj'. pose proof (total_two holds holds_nonneg _ _ _ _ _ Hk Hj' ltac:(done)) as Htwo. cbn in Htwo.
    others Hs j r' Hj'; cbn in *; try lia; congruence. }
  assert (Hx : total exclusive rs = 0).
  { apply total_none. intros j r' Hj. destruct (decide (j = k)) as [->|Hjk]; [by simplify_eq|]. by rewrite (Hout j r' Hjk Hj). }
  assert (Hst : is_Some (mjoin st)).
  { destruct st as [[c|]|]; [by eexists| |].
    - pose proof (so_changing _ _ _ _ Hs ltac:(by eexists) ltac:(by left)). lia.
    - pose proof (so_absent _ _ _ _ Hs eq_refl). done. }
  split; rewrite ?zlength_insert, ?(total_insert _ _ _ _ _ Hk); cbn; try apply Hs; try done.
  - apply roles_insert; [done|]. intros j r' Hj Hj'. by rewrite (Hout j r' Hj Hj').
  - lia.
  - intros j v Hj Hr. rewrite Hne in Hj by congruence. by eapply so_old.
  - intros ? [= <-]. right. split; [done|]. lia.
  - intros _ _. lia.
Qed.

Lemma remove_dynamic_step st reg cnt cnt' rs k i :
  storages_ok st reg cnt rs -> rs !! k = Some (Remover i) -> (forall j, cnt' j = cnt j) ->
  storages_ok st None cnt' (<[k := Cleaner]> rs).
Proof.
  intros Hs Hk Hc. pose proof (proj1 (Forall_lookup _ _) (so_roles _ _ _ _ Hs) k _ Hk) as (Hst & -> & Hm).
  pose proof (so_exclusive _ _ _ _ Hs) as Hx. pose proof (total_lookup exclusive exclusive_nonneg _ _ _ Hk) as Hx'. cbn in Hx'.
  destruct (so_registered _ _ _ _ Hs i eq_refl) as [[E ?]|(_ & Hh & _)].
  { pose proof (holds_unmarked _ _ _ _ Hs). congruence. }
  split; rewrite ?zlength_insert, ?(total_insert _ _ _ _ _ Hk); cbn; try apply Hs; try done; try (by intros; lia).
  - apply roles_insert; [done|]. intros j r' Hj Hj'. pose proof (exclusive_alone _ _ _ _ _ Hx Hk eq_refl Hj Hj').
    pose proof (total_lookup holds holds_nonneg _ _ _ Hj'). others Hs j r' Hj'; cbn in *; lia.
  - intros j v Hj _. rewrite Hc in Hj. destruct (decide (i = j)) as [<-|]; [congruence|]. eapply so_old; [done..|congruence].
Qed.

Lemma remove_static_step st reg cnt rs k :
  storages_ok st reg cnt rs -> rs !! k = Some Cleaner -> storages_ok None reg cnt (<[k := Outside]> rs).
Proof.
  intros Hs Hk. pose proof (proj1 (Forall_lookup _ _) (so_roles _ _ _ _ Hs) k _ Hk) as (Hst & ->).
  pose proof (so_exclusive _ _ _ _ Hs) as Hx.
  split; rewrite ?zlength_insert, ?(total_insert _ _ _ _ _ Hk); cbn; try apply Hs; try done; try (by intros; lia).
  - apply roles_insert; [done|]. intros j r' Hj Hj'. pose proof (exclusive_alone _ _ _ _ _ Hx Hk eq_refl Hj Hj').
    others Hs j r' Hj'.
Qed.

(** ** Steps of programs that follow the protocol *)

Definition known (d : DW) (idss : list (list nat)) : Prop :=
  Forall (Forall (fun i => is_Some (dynamic_counter d i))) idss.

Record world_ok (w : SW * DW) (rs : list role) (idss : list (list nat)) : Prop := {
  wo_storages : storages_ok (static_state w.1) (dynamic_registered w.2) (dynamic_counter w.2) rs;
  wo_known : known w.2 idss;
}.

Lemma known_lookup d idss k ids i : known d idss -> idss !! k = Some ids -> i ∈ ids -> is_Some (dynamic_counter d i).
Proof.
  intros Hk Hids Hi. pose proof (proj1 (Forall_lookup _ _) Hk k ids Hids) as Hf.
  by apply (proj1 (Forall_forall _ _) Hf).
Qed.

Lemma known_mono d d' idss :
  known d idss -> (forall i, is_Some (dynamic_counter d i) -> is_Some (dynamic_counter d' i)) -> known d' idss.
Proof. intros Hk Hm. eapply Forall_impl; [exact Hk|]. intros ids Hids. by eapply Forall_impl. Qed.

Lemma known_cons d idss k ids i :
  known d idss -> idss !! k = Some ids -> is_Some (dynamic_counter d i) -> known d (<[k := i :: ids]> idss).
Proof.
  intros Hk Hids Hi. apply Forall_insert; [done|]. constructor; [done|].
  by apply (proj1 (Forall_lookup _ _) Hk k ids Hids).
Qed.

Section step.
Context {A : Type} (post : list nat -> role -> A -> Prop) (rs : list role) (idss : list (list nat)).
Context (k : nat) (ids : list nat) (r : role) (s : SW) (d : DW).
Context (Hw : world_ok (s, d) rs idss) (Hr : rs !! k = Some r) (Hids : idss !! k = Some ids).

(** The result of an access: the program goes on to follow the protocol. *)
Definition continues (o : outcome ((SW * DW) * prog A)) : Prop :=
  exists w' p' ids' r', o = Ret (w', p') /\ follows post ids' r' p' /\
    world_ok w' (<[k := r']> rs) (<[k := ids']> idss).

Lemma continues_same p : follows post ids r p -> continues (Ret ((s, d), p)).
Proof.
  intros Hp. exists (s, d), p, ids, r. split; [done|]. split; [done|].
  by rewrite !list_insert_id.
Qed.

Lemma continues_storages s' d' p r' :
  follows post ids r' p ->
  storages_ok (static_state s') (dynamic_registered d') (dynamic_counter d') (<[k := r']> rs) ->
  (forall i, is_Some (dynamic_counter d i) -> is_Some (dynamic_counter d' i)) ->
  continues (Ret ((s', d'), p)).
Proof.
  intros Hp Hs Hm. exists (s', d'), p, ids, r'. split; [done|]. split; [done|].
  rewrite (list_insert_id idss) by done. split; [done|]. eapply known_mono; [apply Hw|done].
Qed.

Lemma create_locked_continues f :
  follows post ids r (CreateLocked f) ->
  continues (let! '(x, s) := static_create_locked s in Ret ((s, d), f x)).
Proof.
  intros (Er & Hok & Herr). pose proof Hr as Hk. rewrite Er in Hk. destruct (static_create_locked_ok s) as (x & s' & -> & Hx). cbn [outcome_bind].
  pose proof (wo_storages _ _ _ Hw) as Hs. cbn in Hs. destruct (static_state s) eqn:Es.
  - destruct Hx as [-> ->]. apply continues_same. rewrite Er. apply Herr.
  - destruct Hx as [-> Es']. apply (continues_storages _ _ _ Creator); [done| |done].
    rewrite Es'. by apply reserve_step.
Qed.

Lemma unlock_continues c f :
  follows post ids r (Unlock c f) -> continues (let! '(x, s) := static_unlock s c in Ret ((s, d), f x)).
Proof.
  intros (i & Er & Hok & _). pose proof Hr as Hk. rewrite Er in Hk. pose proof (wo_storages _ _ _ Hw) as Hs. cbn in Hs.
  pose proof (proj1 (Forall_lookup _ _) (so_roles _ _ _ _ Hs) k _ Hk) as [Es _].
  destruct (static_unlock_ok s c) as (s' & -> & Es'); [by rewrite Es|]. cbn [outcome_bind].
  apply (continues_storages _ _ _ (Holder i)); [done| |done]. rewrite Es'. by eapply publish_step.
Qed.

Lemma open_dynamic_continues f :
  follows post ids r (OpenDynamic f) -> continues (let! x := dynamic_open d in Ret ((s, d), f x)).
Proof.
  intros [Hok Herr]. rewrite dynamic_open_ok. cbn [outcome_bind]. pose proof (wo_storages _ _ _ Hw) as Hs. cbn in Hs.
  destruct (dynamic_registered d) as [i|] eqn:Ed; [|apply continues_same, Herr].
  exists (s, d), (f (Ok i)), (i :: ids), r. split; [done|]. split; [apply Hok|]. split; cbn.
  - by rewrite Ed, list_insert_id.
  - apply known_cons; [apply Hw|done|]. destruct (so_registered _ _ _ _ Hs i eq_refl) as [[-> _]|[-> _]]; by eexists.
Qed.

Lemma create_dynamic_continues c f :
  follows post ids r (CreateDynamic c f) -> continues (let! '(x, d) := dynamic_create c d in Ret ((s, d), f x)).
Proof.
  intros (Er & Hv & Hok & _). pose proof Hr as Hk. rewrite Er in Hk. destruct (dynamic_create_ok c d Hv) as (x & d' & -> & Hx). cbn [outcome_bind].
  pose proof (wo_storages _ _ _ Hw) as Hs. cbn in Hs.
  pose proof (proj1 (Forall_lookup _ _) (so_roles _ _ _ _ Hs) k _ Hk) as [_ Ed]. rewrite Ed in Hx, Hs.
  destruct Hx as (i & -> & Hi & Ed' & Hi' & Hne). exists (s, d'), (f (Ok i)), (i :: ids), (Publisher i).
  split; [done|]. split; [apply Hok|]. split; cbn.
  - rewrite Ed'. by eapply create_step.
  - apply known_cons; [|done|by rewrite Hi']. eapply known_mono; [apply Hw|]. intros j Hj. cbn in Hj.
    destruct (decide (i = j)) as [<-|]; [by rewrite Hi'|by rewrite Hne].
Qed.

Lemma load_continues i f :
  follows post ids r (LoadCounter i f) ->
  continues (match dynamic_counter d i with Some v => Ret ((s, d), f v) | None => Panic end).
Proof.
  intros [Hi Hok]. destruct (known_lookup d idss k ids i) as [v Hv]; [apply Hw|done|done|]. rewrite Hv.
  apply continues_same, Hok. eapply storages_plausible; [apply Hw|exact Hv].
Qed.

Lemma exchange_continues i c n f :
  follows post ids r (CompareExchange i c n f) ->
  continues (match dynamic_counter d i with
             | Some v => if v =? c then Ret ((s, dynamic_set_counter d i n), f (Ok v)) else Ret ((s, d), f (Err v))
             | None => Panic
             end).
Proof.
  intros (Hi & Herr & Hok). destruct (known_lookup d idss k ids i) as [v Hv]; [apply Hw|done|done|]. rewrite Hv.
  pose proof (wo_storages _ _ _ Hw) as Hs. cbn in Hs.
  destruct (Z.eqb_spec v c) as [->|Hne]; [|by apply continues_same, Herr, (storages_plausible _ _ _ _ _ _ Hs Hv)].
  assert (Hsame : dynamic_counter (dynamic_set_counter d i n) i = Some n) by (apply dynamic_set_same; by rewrite Hv).
  assert (Hother : forall j, i <> j -> dynamic_counter (dynamic_set_counter d i n) j = dynamic_counter d j)
    by (intros j Hj; by apply dynamic_set_other).
  assert (Hall : forall j, is_Some (dynamic_counter d j) -> is_Some (dynamic_counter (dynamic_set_counter d i n) j)).
  { intros j Hj. destruct (decide (i = j)) as [<-|]; [by rewrite Hsame|by rewrite Hother]. }
  pose proof Hr as Hk.
  destruct Hok as [(Er & Hc & -> & Hok)|[(Er & Hc & -> & Hok)|(Er & -> & -> & Hok)]]; rewrite Er in Hk;
    (eapply continues_storages; [exact Hok| |exact Hall]); rewrite dynamic_set_registered.
  - by eapply increment_step.
  - by eapply decrement_step.
  - by eapply mark_step.
Qed.

Lemma remove_dynamic_continues i p :
  follows post ids r (RemoveDynamic i p) -> continues (let! d := dynamic_remove d i in Ret ((s, d), p)).
Proof.
  intros [Er Hok]. pose proof Hr as Hk. rewrite Er in Hk. pose proof (wo_storages _ _ _ Hw) as Hs. cbn in Hs.
  pose proof (proj1 (Forall_lookup _ _) (so_roles _ _ _ _ Hs) k _ Hk) as (_ & Ed & _).
  pose proof (dynamic_remove_ok d i) as Hd. rewrite Ed in Hd. destruct Hd as (d' & -> & Ed' & Hc). cbn [outcome_bind].
  eapply continues_storages; [exact Hok| |intros j; by rewrite Hc].
  rewrite Ed'. by eapply remove_dynamic_step.
Qed.

Lemma remove_static_continues p :
  follows post ids r (RemoveStatic p) -> continues (let! s := static_remove s in Ret ((s, d), p)).
Proof.
  intros [Er Hok]. pose proof Hr as Hk. rewrite Er in Hk. destruct (static_remove_ok s) as (s' & -> & Es'). cbn [outcome_bind].
  eapply continues_storages; [exact Hok| |done]. rewrite Es'. eapply remove_static_step; [apply Hw|done].
Qed.

Lemma exec_continues e (p : prog A) o : follows post ids r p -> exec e (s, d) p = Some o -> continues o.
Proof.
  intros Hp. destruct p; cbn [exec]; try done; intros [= <-].
  - rewrite static_does_exist_ok. apply continues_same, Hp.
  - rewrite static_open_and_read_ok. apply continues_same, Hp.
  - by apply create_locked_continues.
  - by apply unlock_continues.
  - by apply open_dynamic_continues.
  - by apply create_dynamic_continues.
  - by apply load_continues.
  - by apply exchange_continues.
  - by apply remove_dynamic_continues.
  - by apply remove_static_continues.
  - apply continues_same, Hp.
Qed.

End step.

(** ** The invariant of the system *)

(** [os] are the roles of the creations that were given up. *)
Definition Inv (s : shared * list participant) : Prop :=
  s.1.(panicked) = false /\ zlength s.2 + 1 < 2 ^ 63 /\
  exists rs os idss, length rs = length s.2 /\ length idss = length s.2 /\ Forall abandons os /\
    world_ok s.1.(storages) (rs ++ os) idss /\
    forall k p, s.2 !! k = Some p -> exists r ids, rs !! k = Some r /\ idss !! k = Some ids /\ participant_ok ids r p.

(** A participant that goes on in its role, in changed storages. *)
Lemma Inv_update g w ps rs os idss k p r' ids' :
  g.(panicked) = false -> zlength ps + 1 < 2 ^ 63 -> length rs = length ps -> length idss = length ps -> Forall abandons os -> ps !! k = Some p ->
  (forall j q, ps !! j = Some q -> exists r ids, rs !! j = Some r /\ idss !! j = Some ids /\ participant_ok ids r q) ->
  forall p', participant_ok ids' r' p' -> world_ok w (<[k := r']> rs ++ os) (<[k := ids']> idss) ->
  Inv ({| storages := w; panicked := g.(panicked) |}, <[k := p']> ps).
Proof.
  intros Hp Hn El El' Ho Hk Hps p' Hok Hw. split; [done|]. cbn [snd]. rewrite zlength_insert. split; [done|].
  exists (<[k := r']> rs), os, (<[k := ids']> idss).
  cbn. rewrite !length_insert. do 4 (split; [done|]). apply lookup_lt_Some in Hk as Hlt.
  intros j q Hj. destruct (decide (j = k)) as [->|Hne].
  - rewrite list_lookup_insert_eq in Hj by lia. injection Hj as <-. exists r', ids'.
    rewrite !list_lookup_insert_eq by lia. done.
  - rewrite list_lookup_insert_ne in Hj by done. rewrite !list_lookup_insert_ne by done. by apply Hps.
Qed.

Lemma access_inv {A} (post : list nat -> role -> A -> Prop) (f : prog A -> participant) e g ps k p g' p' :
  Inv (g, ps) -> ps !! k = Some (f p) -> (forall ids r q, participant_ok ids r (f q) <-> follows post ids r q) ->
  access e g p f = Some (g', p') -> Inv (g', <[k := p']> ps).
Proof.
  intros [Hp (Hn & rs & os & idss & El & El' & Ho & Hw & Hps)] Hk Hf E. cbn in *.
  destruct (Hps k _ Hk) as (r & ids & Hr & Hi & Hok). rewrite Hf in Hok. apply lookup_lt_Some in Hr as Hlt.
  unfold access in E. destruct g as [[s d] pan]. cbn [storages panicked] in *. subst pan.
  destruct (exec e (s, d) p) as [o|] eqn:Eo; [|done].
  destruct (exec_continues post (rs ++ os) idss k ids r s d Hw ltac:(by rewrite lookup_app_l) Hi e p o Hok Eo)
    as (w' & q & ids' & r' & -> & Hq & Hw').
  injection E as <- <-. rewrite insert_app_l in Hw' by done.
  apply (Inv_update {| storages := (s, d); panicked := false |} w' ps rs os idss k (f p) r' ids'); try done. by apply Hf.
Qed.

Lemma idle_inv g ps k p p' : Inv (g, ps) -> ps !! k = Some p ->
  (forall ids r, participant_ok ids r p -> participant_ok ids r p') -> Inv (g, <[k := p']> ps).
Proof.
  intros [Hp (Hn & rs & os & idss & El & El' & Ho & Hw & Hps)] Hk Hf. cbn in *. destruct (Hps k _ Hk) as (r & ids & Hr & Hi & Hok).
  destruct g as [w pan]. cbn in *. subst pan.
  apply (Inv_update {| storages := w; panicked := false |} w ps rs os idss k p r ids); try done; [by apply Hf|].
  by rewrite !list_insert_id.
Qed.

(** An access that fails leaves the storages alone. *)
Lemma fail_access_follows {A} (post : list nat -> role -> A -> Prop) x p q ids r :
  faulty = true -> fail_access x p = Some q -> follows post ids r p -> follows post ids r q.
Proof.
  intros Hf E Hp. destruct x, p; try discriminate E; injection E as <-; cbn in Hp.
  - apply Hp.
  - apply Hp.
  - destruct Hp as (-> & _ & He). apply He.
  - destruct Hp as (i & _ & _ & He). exact (He Hf e).
  - apply Hp.
  - destruct Hp as (_ & _ & _ & He). exact (He Hf e).
Qed.

Lemma total_roles_app (f : role -> Z) l1 l2 : total f (l1 ++ l2) = total f l1 + total f l2.
Proof. induction l1 as [|x l1 IH]; cbn; [done|]. rewrite IH. lia. Qed.

Lemma abandoned_exclusive os : Forall abandons os -> total exclusive os = zlength os.
Proof. induction 1 as [|o os Ho _ IH]; [done|]. rewrite zlength_cons. cbn. rewrite IH. destruct o; cbn in *; try done; lia. Qed.

(** The creator of an unfinished service gives up: its role stays behind. *)
Lemma abandon_inv g ps k p p' : Inv (g, ps) -> ps !! k = Some p ->
  (forall ids r, participant_ok ids r p -> r = Outside \/ abandons r) -> (forall ids, participant_ok ids Outside p') ->
  Inv (g, <[k := p']> ps).
Proof.
  intros Hinv Hk Hf Hf'. pose proof Hinv as [Hp (Hn & rs & os & idss & El & El' & Ho & Hw & Hps)]. cbn in *.
  destruct (Hps k _ Hk) as (r & ids & Hr & Hi & Hok). apply lookup_lt_Some in Hr as Hlt.
  destruct g as [w pan]. cbn in *. subst pan. destruct (Hf ids r Hok) as [->|Hab].
  { apply (Inv_update {| storages := w; panicked := false |} w ps rs os idss k p Outside ids); try done.
    by rewrite !list_insert_id. }
  apply (Inv_update {| storages := w; panicked := false |} w ps rs (os ++ [r]) idss k p Outside ids); try done.
  { apply Forall_app. split; [done|]. by constructor. }
  rewrite (list_insert_id idss) by done. destruct Hw as [Hs Hkn]. split; [|done]. cbn [fst snd] in *.
  assert (Hex : exclusive r = 1) by by destruct r.
  assert (Hos : os = []).
  { pose proof (so_exclusive _ _ _ _ Hs) as Hx. rewrite total_roles_app, (abandoned_exclusive os Ho) in Hx.
    pose proof (total_lookup exclusive exclusive_nonneg _ _ _ Hr). apply zlength_zero. pose proof (zlength_nonneg os). lia. }
  subst os. rewrite app_nil_r in Hs. cbn [app].
  assert (Ht : forall f : role -> Z, f Outside = 0 -> total f (<[k := Outside]> rs ++ [r]) = total f rs).
  { intros f H0f. rewrite total_roles_app, (total_insert f _ _ _ _ Hr), H0f. cbn. lia. }
  destruct Hs as [S1 S2 S3 S4 S5 S6 S7]. split; rewrite ?Ht by done; try done.
  - apply Forall_app. split; [by apply Forall_insert|]. constructor; [|done]. by apply (proj1 (Forall_lookup _ _) S1 k).
  - unfold zlength in *. rewrite length_app, length_insert. cbn. lia.
Qed.

Lemma service_act_inv s s' : act_step (iact act) s s' -> Inv s -> Inv s'.
Proof.
  intros [[k a] [g' ps'] E] HI. destruct s as [g ps].
  apply iact_inv in E as (p & p' & Ep & E & Eps). cbn [fst snd] in *. subst ps'.
  destruct a as [fuel q|fuel|e|x|], p as [e0|h|p|p]; cbn [act] in E; try done.
  - destruct (valid_request q) eqn:Hq; [|done]. injection E as <- <-. eapply idle_inv; [done..|].
    intros ids r ->. by apply program_follows.
  - injection E as <- <-. eapply idle_inv; [done..|]. intros ids r [-> Hi]. by apply drop_follows.
  - by eapply (access_inv opened Opening); [done..|intros; reflexivity|].
  - by eapply (access_inv (fun _ r _ => r = Outside) Dropping); [done..|intros; reflexivity|].
  - destruct faulty eqn:Ef; [|done]. destruct (fail_access x p) as [q|] eqn:Eq; [|done]. injection E as <- <-.
    eapply idle_inv; [done..|]. intros ids r. by eapply fail_access_follows.
  - destruct p; try done. destruct a; injection E as <- <-.
    + eapply idle_inv; [done..|]. by intros ids r.
    + eapply abandon_inv; [done..| |done]. intros ids r. destruct r; cbn; auto.
  - destruct p; try done. destruct a. injection E as <- <-. eapply idle_inv; [done..|]. by intros ids r.
Qed.

(** Storages in which the service has never existed, or has been removed. *)
Definition vacant (w : SW * DW) : Prop :=
  static_state w.1 = None /\ dynamic_registered w.2 = None /\
  forall i v, dynamic_counter w.2 i = Some v -> v = D.MARKED_FOR_DESTRUCTION.

Lemma service_begin_inv w n : vacant w -> Z.of_nat n + 1 < 2 ^ 63 -> Inv (begin w n).
Proof.
  intros (Hs & Hd & Hc) Hn. split; [done|]. cbn. unfold zlength. rewrite length_replicate. split; [done|].
  exists (replicate n Outside), [], (replicate n []). cbn.
  rewrite !length_replicate, app_nil_r. do 3 (split; [done|]). split.
  - split; [|apply Forall_replicate; constructor]. rewrite Hs, Hd.
    split; rewrite ?total_replicate by done; try done; try (by intros []).
    + by apply Forall_replicate.
    + intros i v Hi _. by apply (Hc i).
    + unfold zlength. rewrite length_replicate. lia.
  - intros k p Hk. apply lookup_replicate in Hk as [-> Hk]. exists Outside, [].
    rewrite !lookup_replicate_2 by done. done.
Qed.

Lemma service_reachable_inv w n s : vacant w -> Z.of_nat n + 1 < 2 ^ 63 -> rtc (act_step (iact act)) (begin w n) s -> Inv s.
Proof. intros Hw Hn Hr. eapply (rtc_invariant (act_step (iact act))); [exact service_act_inv|exact Hr|by apply service_begin_inv]. Qed.

(** ** Participants that hold the service *)

Definition is_opened (p : participant) : Z := match p with Opened _ => 1 | _ => 0 end.
#[local] Arguments is_opened !p /.

(** The participants that have returned from their last operation. *)
Definition idle (p : participant) : bool := match p with Closed _ | Opened _ => true | _ => false end.

Lemma roles_of_idle rs (idss : list (list nat)) ps :
  length rs = length ps ->
  (forall k p, ps !! k = Some p -> exists r ids, rs !! k = Some r /\ idss !! k = Some ids /\ participant_ok ids r p) ->
  Forall (fun p => idle p = true) ps -> total holds rs = total is_opened ps /\ total exclusive rs = 0.
Proof.
  intros El Hps Hidle. revert rs idss El Hps. induction Hidle as [|p ps Hp _ IH]; intros rs idss El Hps.
  { by destruct rs. }
  destruct rs as [|r rs]; [done|]. destruct (Hps 0%nat p eq_refl) as (r' & ids & [= <-] & Hi & Hok).
  destruct idss as [|ids' idss]; [done|]. destruct (IH rs idss) as [Hh Hx]; [by injection El| |].
  { intros k q Hk. apply (Hps (S k) q Hk). }
  cbn. rewrite Hh, Hx. destruct p; cbn in *; try done; [subst r; cbn|destruct Hok as [-> _]; cbn]; lia.
Qed.

Lemma opened_hold rs (idss : list (list nat)) ps :
  length rs = length ps ->
  (forall k p, ps !! k = Some p -> exists r ids, rs !! k = Some r /\ idss !! k = Some ids /\ participant_ok ids r p) ->
  total is_opened ps <= total holds rs.
Proof.
  revert rs idss. induction ps as [|p ps IH]; intros rs idss El Hps; [by destruct rs|].
  destruct rs as [|r rs]; [done|]. destruct (Hps 0%nat p eq_refl) as (r' & ids & [= <-] & Hi & Hok).
  destruct idss as [|ids' idss]; [done|]. specialize (IH rs idss ltac:(by injection El) ltac:(intros k q Hk; apply (Hps (S k) q Hk))).
  cbn. pose proof (holds_nonneg r). destruct p; cbn in *; try lia. destruct Hok as [-> _]. cbn. lia.
Qed.

(** What is left of a service when all participants are idle. *)
Definition settled (w : SW * DW) (n : Z) : Prop :=
  n = 0 /\ vacant w \/
  (1 <= n /\ exists c i, static_state w.1 = Some (Some c) /\ dynamic_registered w.2 = Some i /\ dynamic_counter w.2 i = Some n) \/
  (may_fail /\ static_state w.1 = Some None /\
   match dynamic_registered w.2 with None => n = 0 | Some i => dynamic_counter w.2 i = Some (n + 1) end).

Lemma storages_settled w rs os n : storages_ok (static_state w.1) (dynamic_registered w.2) (dynamic_counter w.2) (rs ++ os) ->
  Forall abandons os -> total holds rs = n -> total exclusive rs = 0 -> settled w n.
Proof.
  intros Hs Ho Hn Hx. destruct w as [s d]. cbn in *. pose proof (so_exclusive _ _ _ _ Hs) as Hle.
  rewrite total_roles_app, (abandoned_exclusive os Ho) in Hle. pose proof (zlength_nonneg os) as H0os.
  assert (Hh : dynamic_registered d = None -> n = 0).
  { intros Hreg. rewrite <-Hn. apply total_none. intros k r Hk.
    pose proof (proj1 (Forall_lookup _ _) (so_roles _ _ _ _ Hs) k r ltac:(by apply lookup_app_l_Some)) as Hr.
    destruct r; cbn in *; try done; [by destruct Hr as [_ ?]; congruence|congruence]. }
  destruct os as [|o os].
  - rewrite app_nil_r in Hs. destruct (static_state s) as [[c|]|] eqn:Est.
    + destruct (dynamic_registered d) as [i|] eqn:Ed; [|pose proof (so_changing _ _ _ _ Hs ltac:(by eexists) ltac:(by right)); lia].
      destruct (so_registered _ _ _ _ Hs i eq_refl) as [[E ?]|(_ & _ & ?)]; [|lia]. right; left. split; [lia|]. exists c, i. cbn. by rewrite E, Hn.
    + pose proof (so_changing _ _ _ _ Hs ltac:(by eexists) ltac:(by left)). lia.
    + pose proof (so_absent _ _ _ _ Hs eq_refl) as Hreg. left. split; [by apply Hh|]. split_and!; cbn; [done|done|].
      intros i v Hi. eapply so_old; [done..|]. by rewrite Hreg.
  - rewrite zlength_cons in Hle. assert (Hos : os = []) by (apply zlength_zero; pose proof (zlength_nonneg os); lia). subst os.
    inversion_clear Ho as [|? ? Ho1 _]. right; right. cbn.
    pose proof (proj1 (Forall_app _ _ _) (so_roles _ _ _ _ Hs)) as [_ Hr]. inversion_clear Hr as [|? ? Hro _].
    destruct o; try done; destruct Hro as [-> Hreg]; rewrite Hreg; (split; [done|split; [done|]]).
    + by apply Hh.
    + destruct (so_registered _ _ _ _ Hs i Hreg) as [[E _]|(_ & E & _)]; rewrite total_roles_app in E; cbn in E.
      * rewrite E. f_equal. lia.
      * pose proof (total_nonneg holds holds_nonneg rs). lia.
Qed.

Lemma Inv_facts g ps : Inv (g, ps) ->
  let '(s, d) := g.(storages) in
  g.(panicked) = false /\
  (forall k h, ps !! k = Some (Opened h) -> dynamic_registered d = Some h.(dynamic_storage) /\
    exists v, dynamic_counter d h.(dynamic_storage) = Some v /\ 1 <= total is_opened ps <= v /\ v < 2 ^ 63) /\
  (Forall (fun p => idle p = true) ps -> settled (s, d) (total is_opened ps)).
Proof.
  intros [Hp (Hn & rs & os & idss & El & El' & Ho & Hw & Hps)].
  destruct g as [[s d] pan]. cbn in *. destruct Hw as [Hs _]. cbn in Hs. split; [done|]. split.
  - intros k h Hk. destruct (Hps k _ Hk) as (r & ids & Hrk & _ & -> & _).
    assert (Hrk' : (rs ++ os) !! k = Some (Holder h.(dynamic_storage))) by by apply lookup_app_l_Some.
    pose proof (proj1 (Forall_lookup _ _) (so_roles _ _ _ _ Hs) k _ Hrk') as Hreg. cbn in Hreg. split; [done|].
    pose proof (total_lookup holds holds_nonneg _ _ _ Hrk') as Hh. cbn in Hh.
    destruct (so_registered _ _ _ _ Hs _ Hreg) as [[E ?]|(_ & ? & _)]; [|lia]. eexists. split; [exact E|].
    pose proof (so_size _ _ _ _ Hs). pose proof (total_bound holds 1 (rs ++ os) ltac:(intros []; cbn; lia)).
    pose proof (opened_hold rs idss ps El Hps). pose proof (total_lookup is_opened ltac:(intros []; cbn; lia) _ _ _ Hk) as H1'. cbn in H1'.
    rewrite total_roles_app in *. pose proof (total_nonneg holds holds_nonneg os). lia.
  - intros Hidle. destruct (roles_of_idle rs idss ps El Hps Hidle) as [Eh Ex]. by eapply storages_settled.
Qed.


End system.

(** ** Process-local services

    The static and the dynamic storages that StaticStorage.v and DynamicConfig.v model
    provide what the life cycle relies on. *)

Section process_local.
Context `{Profile} (serialize : StaticConfig -> option (list Z)) (deserialize : list Z -> option StaticConfig).
Context (memory : list Z) (size_id k size_T align_T : Z) (heap_allocate : Layout -> option Z).
Context (static_cfg dynamic_cfg : NamedConcept.NamedConceptConfiguration) (uuid static_path dynamic_path : list Z).
Context (Hstatic : StaticStorage.path_for memory static_cfg uuid = Ret static_path).
Context (Hdynamic : DynamicStorage.path_for memory dynamic_cfg uuid = Ret dynamic_path).
Context (Hid : 0 < size_id < 2 ^ 16) (Hk : 0 <= k <= 16) (HT : 0 <= size_T < 2 ^ 32).
Context (Hheap : forall l a, heap_allocate l = Some a -> 0 <= a /\ a + l.(size) < 2 ^ 64).

#[local] Instance process_local_static : StaticStorageConcept (gmap (list Z) StaticStorage.StorageContent) :=
  StaticStorage.process_local_concept memory static_cfg uuid static_path Hstatic.

#[local] Instance process_local_dynamic : DynamicStorageConcept D.settings (DynamicStorage.world D.DynamicConfig) :=
  D.process_local_concept memory size_id k size_T align_T heap_allocate dynamic_cfg uuid dynamic_path
    Hid Hk HT Hheap Hdynamic.

Definition no_storages : gmap (list Z) StaticStorage.StorageContent * DynamicStorage.world D.DynamicConfig :=
  (∅, {| DynamicStorage.names := ∅; DynamicStorage.heap := [] |}).

(** C22: the life cycle over the process-local storages, for requests whose port numbers the
    dynamic configuration supports and for whose storage the heap has memory; without it the
    creator panics.  However the accesses of the participants interleave, no storage
    operation panics; everybody who holds the service uses the dynamic storage that is
    registered under its name, whose reference counter is at least the number of holders;
    and when all participants have closed the service, neither of the two maps contains it
    any more, unless there are configurations that cannot be serialized. *)
Theorem service_process_local n g ps : Z.of_nat n + 1 < 2 ^ 63 ->
  rtc (act_step (iact (act false serialize deserialize))) (begin no_storages n) (g, ps) ->
  let '(s, d) := g.(storages) in
  g.(panicked) = false /\
  (forall j h, ps !! j = Some (Opened h) ->
    d.(DynamicStorage.names) !! dynamic_path = Some h.(dynamic_storage) /\
    exists c, d.(DynamicStorage.heap) !! h.(dynamic_storage) = Some c /\ 1 <= total is_opened ps <= c.(D.reference_counter)) /\
  ((forall c, is_Some (serialize c)) -> Forall (fun p => exists e, p = Closed e) ps ->
    s !! static_path = None /\ d.(DynamicStorage.names) !! dynamic_path = None).
Proof.
  intros Hn Hr. assert (Hv : vacant no_storages).
  { split; [done|]. split; [apply lookup_empty|]. intros i v. cbn. unfold D.counter. cbn. by rewrite lookup_nil. }
  pose proof (Inv_facts _ _ _ _ (service_reachable_inv _ serialize deserialize _ _ _ Hv Hn Hr)) as Hf.
  destruct g.(storages) as [s d]. destruct Hf as (Hp & Ho & Hi). split; [exact Hp|]. split.
  - intros j h Hj. destruct (Ho j h Hj) as (Hreg & v & Hcnt & Hb & _). split; [exact Hreg|].
    change (D.counter d h.(dynamic_storage) = Some v) in Hcnt. apply fmap_Some in Hcnt as (c & Ec & ->). by exists c.
  - intros Hser Hc. assert (Ez : total is_opened ps = 0).
    { clear -Hc. induction Hc as [|p ps [e ->] _ IH]; [done|]. by cbn. }
    rewrite Ez in Hi. destruct Hi as [(_ & Hs & Hd & _)|[[? _]|([?|[c Ec]] & _)]]; [| |lia|done|by destruct (Hser c); congruence].
    { eapply Forall_impl; [exact Hc|]. by intros p [e ->]. }
    split; [|exact Hd]. change (StaticStorage.state static_path s = None) in Hs. unfold StaticStorage.state in Hs. by destruct (s !! static_path).
Qed.

End process_local.

(** ** Concrete runs *)

Import Example.

Definition go (k : nat) (n : nat) : list (nat * action) := replicate n (k, Access (Some 0)) ++ [(k, Return)].

(** A heap of one megabyte. *)
Definition example_heap (l : Layout) : option Z := if size l <? 2 ^ 20 then Some 4096 else None.

Lemma example_heap_bounds l a : example_heap l = Some a -> 0 <= a /\ a + size l < 2 ^ 64.
Proof. unfold example_heap. destruct (Z.ltb_spec (size l) (2 ^ 20)); [|done]. intros [= <-]. lia. Qed.

Definition example_cfg : NamedConcept.NamedConceptConfiguration :=
  {| NamedConcept.prefix := [97]; NamedConcept.suffix := [46; 99];
     NamedConcept.path_hint := {| CAPACITY := 4096; ByteString.len := 2; ByteString.data := [47; 116] ++ replicate 4094 0 |} |}.

(** In the storages of the process: one participant creates the service, another one opens it,
    the first one drops it. *)
Definition local_schedule : list (nat * action) :=
  [(0%nat, Call 2 (PubSubCreate [1] builder))] ++ go 0 4 ++ [(1%nat, Call 2 (PubSubOpen [1] builder))] ++ go 1 5 ++
  [(0%nat, CallDrop 2)] ++ go 0 2.

Definition local_path : list Z := [47; 116; 47; 97; 97; 46; 99].

Lemma local_static_path : @StaticStorage.path_for dev (replicate 4096 0) example_cfg [97] = Ret local_path.
Proof. vm_compute. reflexivity. Qed.

Lemma local_dynamic_path : @DynamicStorage.path_for dev (replicate 4096 0) example_cfg [97] = Ret local_path.
Proof. vm_compute. reflexivity. Qed.

Section local_example.
Context (Hid : 0 < 16 < 2 ^ 16) (Hk : 0 <= 4 <= 16) (HT : 0 <= 200 < 2 ^ 32).

Definition local_act : action -> shared -> participant -> option (shared * participant) :=
  @act dev false serialize deserialize _ _
    (@process_local_static dev (replicate 4096 0) example_cfg [97] local_path local_static_path)
    (@process_local_dynamic dev (replicate 4096 0) 16 4 200 8 example_heap example_cfg [97] local_path local_dynamic_path
       Hid Hk HT example_heap_bounds).

Lemma local_run :
  match run_schedule (iact local_act) local_schedule (begin no_storages 2) with
  | Some (_, [Closed None; Opened _]) => true | _ => false
  end = true.
Proof. vm_compute. reflexivity. Qed.

End local_example.

Lemma service_process_local_witness : exists Hid Hk HT g ps,
  rtc (act_step (iact (local_act Hid Hk HT))) (begin no_storages 2) (g, ps) /\
  (exists h, ps = [Closed None; Opened h]) /\ g.(panicked) = false.
Proof.
  exists (conj eq_refl eq_refl : 0 < 16 < 2 ^ 16), (ltac:(lia) : 0 <= 4 <= 16), (ltac:(lia) : 0 <= 200 < 2 ^ 32).
  match goal with |- exists g ps, rtc (act_step (iact (local_act ?a ?b ?c))) _ _ /\ _ => pose proof (local_run a b c) as Hc;
    destruct (run_schedule (iact (local_act a b c)) local_schedule (begin no_storages 2)) as [[g ps]|] eqn:Er end; [|discriminate Hc].
  pose proof (run_schedule_reachable _ _ _ _ Er) as Hr. exists g, ps. split; [exact Hr|].
  pose proof (@service_process_local dev serialize deserialize (replicate 4096 0) 16 4 200 8 example_heap
    example_cfg example_cfg [97] local_path local_path local_static_path local_dynamic_path _ _ _ example_heap_bounds 2 g ps ltac:(reflexivity) Hr) as Ht.
  destruct g.(storages) as [s d]. clear Er Hr.
  split; [|exact (proj1 Ht)]. repeat (case_match; try discriminate Hc). by eexists.
Defined.


(** A participant can hold a service whose configuration is not the one it has checked.
    It reads the static storage of a service; before it opens the dynamic storage the
    service is removed and another one with the same name is created.  It then takes a
    reference of the new dynamic storage although it has accepted the old configuration:
    here the message types differ. *)
Theorem service_opened_with_stale_configuration : exists g ps h c old current,
  rtc (act_step (iact (@act dev false serialize deserialize _ _ _ _))) (begin vacant_storages 3) (g, ps) /\
  ps !! 1%nat = Some (Opened h) /\ static_state g.(storages).1 = Some (Some c) /\
  dynamic_registered g.(storages).2 = Some h.(dynamic_storage) /\
  publish_subscribe h.(static_config) = Ret old /\
  deserialize c = Some current /\ (exists p, publish_subscribe current = Ret p /\ p.(type_name) <> old.(type_name)).
Proof.
  destruct (run_schedule (iact (@act dev false serialize deserialize _ _ static_example dynamic_example))
    ([(0%nat, Call 2 (PubSubCreate [1] builder))] ++ go 0 4 ++
     [(1%nat, Call 2 (PubSubOpen [1] builder)); (1%nat, Access None); (1%nat, Access None)] ++
     [(0%nat, CallDrop 2)] ++ go 0 4 ++ [(2%nat, Call 2 (PubSubCreate [2] builder))] ++ go 2 4 ++ go 1 3)
    (begin vacant_storages 3)) as [[g ps]|] eqn:E; [|vm_compute in E; discriminate E].
  pose proof (run_schedule_reachable _ _ _ _ E) as Hr. exists g, ps.
  vm_compute in E. injection E as <- <-. eexists _, _, _, _. split; [exact Hr|]. 
  do 5 (split; [vm_compute; reflexivity|]). eexists. split; [vm_compute; reflexivity|]. discriminate.
Qed.

(** When the creation fails after the static storage was reserved nobody removes it: the
    participant returns with an error and the name stays locked, with a dynamic storage that
    counts a reference that nobody has; the next one that asks for the service is told that
    it is being created. *)
Theorem service_creation_abandoned : exists g ps,
  rtc (act_step (iact (@act dev true serialize deserialize _ _ _ _))) (begin vacant_storages 2) (g, ps) /\
  ps = [Closed (Some (PubSubCreateFailure PubSub.CreateCorrupted));
        Closed (Some (PubSubCreateFailure PubSub.CreateIsBeingCreatedByAnotherInstance))] /\
  static_state g.(storages).1 = Some None /\ dynamic_counter g.(storages).2 0 = Some 1.
Proof.
  destruct (run_schedule (iact (@act dev true serialize deserialize _ _ static_example dynamic_example))
    ([(0%nat, Call 2 (PubSubCreate [1] builder))] ++ replicate 3 (0%nat, Access None) ++
     [(0%nat, Failure (UnlockFails NoSpaceLeft)); (0%nat, Return); (1%nat, Call 2 (PubSubCreate [1] builder)); (1%nat, Access None); (1%nat, Return)])
    (begin vacant_storages 2)) as [[g ps]|] eqn:E; [|vm_compute in E; discriminate E].
  pose proof (run_schedule_reachable _ _ _ _ E) as Hr. exists g, ps. split; [exact Hr|]. clear Hr.
  vm_compute in E. injection E as <- <-. by split_and!.
Qed.

(** [open_or_create] can fail although the service can be opened and created.  Two
    participants find no service; one of them creates it, and the other one, which has
    decided to create it as well, returns an error instead of opening the service. *)
Theorem service_open_or_create_race : exists g ps h,
  rtc (act_step (iact (@act dev false serialize deserialize _ _ _ _))) (begin vacant_storages 2) (g, ps) /\
  ps = [Opened h; Closed (Some (PubSubOpenOrCreateFailure (PublishSubscribeCreateError PubSub.CreateAlreadyExists)))].
Proof.
  destruct (run_schedule (iact (@act dev false serialize deserialize _ _ static_example dynamic_example))
    ([(0%nat, Call 2 (PubSubOpenOrCreate [1] builder)); (1%nat, Call 2 (PubSubOpenOrCreate [1] builder));
      (0%nat, Access None); (1%nat, Access None)] ++ go 0 4 ++ go 1 2)
    (begin vacant_storages 2)) as [[g ps]|] eqn:E; [|vm_compute in E; discriminate E].
  pose proof (run_schedule_reachable _ _ _ _ E) as Hr. exists g, ps.
  vm_compute in E. injection E as <- <-. eexists. split; [exact Hr|]. reflexivity.
Qed.

End ServiceLifecycle.
