(* ===== verification/EventConcept.v ===== *)
(** * Events

    [iceoryx2_cal::event] signals ids from notifiers to a listener.  The class [Event] is
    the interface the ports of an event service use, [EventLaws] what they rely on.  The
    process-local variant keeps the pending ids of a listener in a queue of bounded size
    behind a condition variable, and the queues in a map from paths to shared pointers;
    it is modelled twice: as whole operations that implement the interface, and as
    threads that notify and wait at the same time. *)

From S2P Require Import Prelude Ring QueueSpec ContainerQueue ConditionVariable NamedConcept StaticStorage.

(* src/iceoryx2_cal/src/event/mod.rs:24-27 NotifierNotifyError *)
Inductive NotifierNotifyError := FailedToDeliverSignal | NotifyInternalFailure.

(* src/iceoryx2_cal/src/event/mod.rs:38-42 NotifierCreateError *)
Inductive NotifierCreateError := EventDoesNotExist | OpenInsufficientPermissions | OpenInternalFailure.

(* src/iceoryx2_cal/src/event/mod.rs:53-56 ListenerWaitError *)
Inductive ListenerWaitError := ContractViolation | WaitInternalFailure.

(* src/iceoryx2_cal/src/event/mod.rs:67-71 ListenerCreateError *)
Inductive ListenerCreateError := EventAlreadyExists | CreateInsufficientPermissions | CreateInternalFailure.

(** The operations of the traits [NotifierBuilder], [ListenerBuilder], [Notifier] and
    [Listener] on a world [W] with handles [N].  Events are addressed by the id of their
    listener.  [event_wait blocking] yields [None] when it blocks. *)
Class Event (W N : Type) := {
  event_open : Z -> W -> outcome (Result N NotifierCreateError);
  event_create : Z -> W -> outcome (Result N ListenerCreateError * W);
  event_notify : N -> Z -> W -> outcome (Result unit NotifierNotifyError * W);
  event_wait : bool -> N -> W -> outcome (option (Result (option Z) ListenerWaitError * W));
  event_drop : N -> W -> outcome W;
}.

(** [event_of] is the event a handle belongs to, [registered] the event of a listener and
    [pending] the ids of an event that were signalled but not received; an event holds up
    to [limit] of them.  [signals] counts the signals ever made, which stay in 64 bits. *)
Class EventLaws (W N : Type) `{Event W N} := {
  nameable : Z -> Prop;
  event_ok : W -> Prop;
  event_of : N -> nat;
  known : W -> nat -> Prop;
  registered : W -> Z -> option nat;
  pending : W -> nat -> list Z;
  limit : Z;
  signals : W -> Z;

  law_registered : forall w id e, event_ok w -> registered w id = Some e -> known w e;
  law_distinct : forall w id id' e, event_ok w -> nameable id -> nameable id' ->
    registered w id = Some e -> registered w id' = Some e -> id = id';
  law_open : forall w id, event_ok w -> nameable id ->
    exists r, event_open id w = Ret r /\
      match registered w id with
      | Some e => exists n, r = Ok n /\ event_of n = e
      | None => r = Err EventDoesNotExist
      end;
  law_notify : forall w n v, event_ok w -> known w (event_of n) -> signals w + 1 < 2 ^ 64 ->
    exists r w', event_notify n v w = Ret (r, w') /\ event_ok w' /\ signals w' <= signals w + 1 /\
      (forall id, registered w' id = registered w id) /\ (forall e, known w' e <-> known w e) /\
      (r, pending w' (event_of n)) = (if zlength (pending w (event_of n)) <? limit
                                      then (Ok tt, pending w (event_of n) ++ [v])
                                      else (Err FailedToDeliverSignal, pending w (event_of n))) /\
      (forall e, e <> event_of n -> pending w' e = pending w e);
  law_wait : forall w n blocking, event_ok w -> known w (event_of n) ->
    match pending w (event_of n) with
    | [] => event_wait blocking n w = Ret (if blocking then None else Some (Ok None, w))
    | v :: rest =>
        exists w', event_wait blocking n w = Ret (Some (Ok (Some v), w')) /\ event_ok w' /\ signals w' = signals w /\
          (forall id, registered w' id = registered w id) /\ (forall e, known w' e <-> known w e) /\
          pending w' (event_of n) = rest /\ (forall e, e <> event_of n -> pending w' e = pending w e)
    end;
  law_create : forall w id, event_ok w -> nameable id ->
    match registered w id with
    | Some _ => event_create id w = Ret (Err EventAlreadyExists, w)
    | None =>
        exists n w', event_create id w = Ret (Ok n, w') /\ event_ok w' /\ signals w' = signals w /\
          ~ known w (event_of n) /\ registered w' id = Some (event_of n) /\ pending w' (event_of n) = [] /\
          (forall id', nameable id' -> id' <> id -> registered w' id' = registered w id') /\
          (forall e, e <> event_of n -> pending w' e = pending w e) /\
          (forall w2, event_ok w2 -> (forall id', nameable id' -> registered w2 id' = registered w' id') ->
             exists w3, event_drop n w2 = Ret w3 /\ event_ok w3 /\ registered w3 id = None /\
               (forall id', nameable id' -> id' <> id -> registered w3 id' = registered w2 id') /\
               (forall e, pending w3 e = pending w2 e) /\ (forall e, known w3 e <-> known w2 e))
    end;
}.

Module EventConcept.
Module CQ := ContainerQueue.
Module CV := ConditionVariable.ConditionVariable.

(* src/iceoryx2_cal/src/event/process_local.rs:36-36 DEFAULT_CAPACITY *)
Definition DEFAULT_CAPACITY : Z := 2048.

(** The map behind [PROCESS_LOCAL_STORAGE] and the queues its pointers, and those of the
    handles, point to. *)
Record world := { names : gmap (list Z) nat; queues : list (CQ.Queue Z) }.

(** [path] stands for the name and the configuration, from which the path is computed
    whenever it is needed. *)
(* src/iceoryx2_cal/src/event/process_local.rs:113-118 Duplex *)
Record Duplex := { path : list Z; management : nat; has_ownership : bool }.

Section process_local.
Context `{Profile}.

(** The path of the event of a listener under the configuration of the builder. *)
Context (path_for : Z -> outcome (list Z)).
Implicit Types (d : Duplex) (w : world).

(** The queue behind the pointer. *)
Definition queue_of w d : outcome (CQ.Queue Z) :=
  match w.(queues) !! d.(management) with Some q => Ret q | None => Panic end.

Definition set_queue w d q : world :=
  {| names := w.(names); queues := <[d.(management) := q]> w.(queues) |}.

(* src/iceoryx2_cal/src/event/process_local.rs:127-147 notify *)
Definition notify d (id : Z) w : outcome (Result unit NotifierNotifyError * world) :=
  let! q := queue_of w d in
  let! '(push_successful, q) := CQ.push q id in
  let w := set_queue w d q in
  if (push_successful : bool) then Ret (Ok tt, w) else Ret (Err FailedToDeliverSignal, w).

(** [try_wait] and [timed_wait] time out, and [blocking_wait] blocks, as long as the queue
    is empty and nobody else runs. *)
(* src/iceoryx2_cal/src/event/process_local.rs:160-203 try_wait, timed_wait, blocking_wait *)
Definition wait (blocking : bool) d w : outcome (option (Result (option Z) ListenerWaitError * world)) :=
  let! q := queue_of w d in
  if CQ.is_empty q then Ret (if blocking then None else Some (Ok None, w))
  else
    let! '(v, q) := CQ.pop q in
    Ret (Some (Ok v, set_queue w d q)).

(* src/iceoryx2_cal/src/event/process_local.rs:229-255 open *)
Definition open (id : Z) w : outcome (Result Duplex NotifierCreateError) :=
  let! full_path := path_for id in
  match w.(names) !! full_path with
  | None => Ret (Err EventDoesNotExist)
  | Some content => Ret (Ok {| path := full_path; management := content; has_ownership := false |})
  end.

(* src/iceoryx2_cal/src/event/process_local.rs:259-321 create *)
Definition create (id : Z) w : outcome (Result Duplex ListenerCreateError * world) :=
  let! full_path := path_for id in
  match w.(names) !! full_path with
  | Some _ => Ret (Err EventAlreadyExists, w)
  | None =>
      let storage_details := length w.(queues) in
      Ret (Ok {| path := full_path; management := storage_details; has_ownership := true |},
           {| names := <[full_path := storage_details]> w.(names);
              queues := w.(queues) ++ [CQ.fixed_size_default DEFAULT_CAPACITY] |})
  end.

(* src/iceoryx2_cal/src/event/process_local.rs:374-389 remove_cfg *)
Definition remove_cfg (storage_name : list Z) w : outcome (Result bool NamedConceptRemoveError * world) :=
  Ret (Ok (bool_decide (is_Some (w.(names) !! storage_name))),
       {| names := delete storage_name w.(names); queues := w.(queues) |}).

(** A name that is gone already is not an error. *)
(* src/iceoryx2_cal/src/event/process_local.rs:150-157 drop *)
Definition drop d w : outcome world :=
  if d.(has_ownership) then
    let! '(r, w) := remove_cfg d.(path) w in
    match r with Ok _ => Ret w | Err _ => Panic end
  else Ret w.

#[export] Instance process_local_event : Event world Duplex := {|
  event_open := open;
  event_create := create;
  event_notify := notify;
  event_wait := wait;
  event_drop := drop;
|}.

(** ** The process-local event implements the interface *)

Definition queue_pending w (e : nat) : list Z :=
  match w.(queues) !! e with
  | Some q => omap id (ring_contents q.(CQ.capacity) q.(CQ.data) (q.(CQ.start) - q.(CQ.len)) q.(CQ.start))
  | None => []
  end.

Definition local_registered w (id : Z) : option nat :=
  match path_for id with Ret p => w.(names) !! p | Panic => None end.

(** The positions of all queues. *)
Definition local_signals w : Z := total (fun q => Z.max 0 q.(CQ.start)) w.(queues).

Record world_ok w : Prop := {
  wok_queues : Forall (fun q => q.(CQ.capacity) = DEFAULT_CAPACITY /\ exists l, CQ.repr q l) w.(queues);
  wok_names : forall p e, w.(names) !! p = Some e -> (e < length w.(queues))%nat;
  wok_distinct : forall p p' e, w.(names) !! p = Some e -> w.(names) !! p' = Some e -> p = p';
}.

Lemma pending_repr w e q l : w.(queues) !! e = Some q -> CQ.repr q l -> queue_pending w e = l.
Proof.
  intros Eq [_ _ _ _ _ Hc]. unfold queue_pending. rewrite Eq, Hc. clear. induction l as [|v l IH]; [done|].
  cbn. by rewrite IH.
Qed.

Lemma known_queue w d : world_ok w -> (d.(management) < length w.(queues))%nat ->
  exists q, queue_of w d = Ret q /\ w.(queues) !! d.(management) = Some q /\ q.(CQ.capacity) = DEFAULT_CAPACITY /\
    CQ.repr q (queue_pending w d.(management)).
Proof.
  intros Hw Hd. apply lookup_lt_is_Some in Hd as (q & Eq). unfold queue_of. rewrite Eq.
  pose proof (proj1 (Forall_lookup _ _) (wok_queues _ Hw) _ _ Eq) as (Hc & l & Hr).
  exists q. by rewrite (pending_repr w _ q l Eq Hr).
Qed.

(** Replacing the queue of one event. *)
Lemma set_queue_ok w d q q' l : world_ok w -> w.(queues) !! d.(management) = Some q ->
  q'.(CQ.capacity) = DEFAULT_CAPACITY -> CQ.repr q' l ->
  let w' := set_queue w d q' in
  world_ok w' /\ queue_pending w' d.(management) = l /\
  (forall e, e <> d.(management) -> queue_pending w' e = queue_pending w e) /\
  (forall e, (e < length w'.(queues))%nat <-> (e < length w.(queues))%nat) /\
  (forall id, local_registered w' id = local_registered w id) /\
  local_signals w' = local_signals w - Z.max 0 q.(CQ.start) + Z.max 0 q'.(CQ.start).
Proof.
  intros Hw Eq Hc Hr w'. pose proof (lookup_lt_Some _ _ _ Eq) as Hlt.
  assert (Eq' : w'.(queues) !! d.(management) = Some q') by (by apply list_lookup_insert_eq).
  split_and!; [|by eapply pending_repr| | | |by apply (total_insert (fun q => Z.max 0 q.(CQ.start)))].
  - split; cbn; [|rewrite length_insert; apply Hw|apply Hw]. apply Forall_insert; [apply Hw|]. eauto.
  - intros e Hne. unfold queue_pending, w'. cbn. by rewrite list_lookup_insert_ne.
  - intros e. cbn. by rewrite length_insert.
  - done.
Qed.

Lemma notify_ok w d v : world_ok w -> (d.(management) < length w.(queues))%nat -> local_signals w + 1 < 2 ^ 64 ->
  exists r w', notify d v w = Ret (r, w') /\ world_ok w' /\ local_signals w' <= local_signals w + 1 /\
    (forall id, local_registered w' id = local_registered w id) /\
    (forall e, (e < length w'.(queues))%nat <-> (e < length w.(queues))%nat) /\
    (r, queue_pending w' d.(management)) =
      (if zlength (queue_pending w d.(management)) <? DEFAULT_CAPACITY
       then (Ok tt, queue_pending w d.(management) ++ [v])
       else (Err FailedToDeliverSignal, queue_pending w d.(management))) /\
    (forall e, e <> d.(management) -> queue_pending w' e = queue_pending w e).
Proof.
  intros Hw Hd Hs. destruct (known_queue w d Hw Hd) as (q & Eo & Eq & Hc & Hr).
  pose proof (total_lookup (fun q => Z.max 0 q.(CQ.start)) ltac:(lia) _ _ _ Eq) as Ht. fold (local_signals w) in Ht. cbn in Ht.
  unfold notify. rewrite Eo. cbn [outcome_bind].
  destruct (CQ.push_ok q _ v Hr) as (b & q' & l' & -> & Hr' & Esp & Hst & Hc'); [lia|]. cbn [outcome_bind].
  destruct (set_queue_ok w d q q' l' Hw Eq) as (Hw' & Ep & Hother & Hk & Hreg & Esig); [congruence|done|].
  rewrite Hc in Esp. unfold spec_push in Esp. exists (if b then Ok tt else Err FailedToDeliverSignal), (set_queue w d q').
  split; [by destruct b|]. split; [done|]. split; [lia|]. split; [done|]. split; [done|]. split; [|done].
  rewrite Ep. destruct (_ <? _); injection Esp as -> ->; done.
Qed.

Lemma wait_ok w d blocking : world_ok w -> (d.(management) < length w.(queues))%nat ->
  match queue_pending w d.(management) with
  | [] => wait blocking d w = Ret (if blocking then None else Some (Ok None, w))
  | v :: rest =>
      exists w', wait blocking d w = Ret (Some (Ok (Some v), w')) /\ world_ok w' /\ local_signals w' = local_signals w /\
        (forall id, local_registered w' id = local_registered w id) /\
        (forall e, (e < length w'.(queues))%nat <-> (e < length w.(queues))%nat) /\
        queue_pending w' d.(management) = rest /\
        (forall e, e <> d.(management) -> queue_pending w' e = queue_pending w e)
  end.
Proof.
  intros Hw Hd. destruct (known_queue w d Hw Hd) as (q & Eo & Eq & Hc & Hr). unfold wait. rewrite Eo. cbn [outcome_bind].
  destruct (CQ.repr_len _ _ Hr) as [El _]. unfold CQ.is_empty. rewrite El.
  destruct (queue_pending w d.(management)) as [|v rest]; [done|].
  rewrite (proj2 (Z.eqb_neq _ _)) by (rewrite zlength_cons; pose proof (zlength_nonneg rest); lia).
  destruct (CQ.pop_cons q v rest Hr) as (q' & -> & Hr' & Es & Hc'). cbn [outcome_bind].
  destruct (set_queue_ok w d q q' rest Hw Eq) as (Hw' & Ep & Hother & Hk & Hreg & Esig); [congruence|done|].
  exists (set_queue w d q'). split_and!; try done. rewrite Esig, Es. lia.
Qed.

(** Ids of ports, whose paths exist and are different. *)
Context (port_id : Z -> Prop).
Hypothesis path_exists : forall id, port_id id -> exists p, path_for id = Ret p.
Hypothesis path_inj : forall id id' p, port_id id -> port_id id' -> path_for id = Ret p -> path_for id' = Ret p -> id = id'.

Lemma create_drop_ok w id : world_ok w -> port_id id ->
  match local_registered w id with
  | Some _ => create id w = Ret (Err EventAlreadyExists, w)
  | None =>
      exists n w', create id w = Ret (Ok n, w') /\ world_ok w' /\ local_signals w' = local_signals w /\
        ~ (n.(management) < length w.(queues))%nat /\ local_registered w' id = Some n.(management) /\
        queue_pending w' n.(management) = [] /\
        (forall id', port_id id' -> id' <> id -> local_registered w' id' = local_registered w id') /\
        (forall e, e <> n.(management) -> queue_pending w' e = queue_pending w e) /\
        (forall w2, world_ok w2 -> (forall id', port_id id' -> local_registered w2 id' = local_registered w' id') ->
           exists w3, drop n w2 = Ret w3 /\ world_ok w3 /\ local_registered w3 id = None /\
             (forall id', port_id id' -> id' <> id -> local_registered w3 id' = local_registered w2 id') /\
             (forall e, queue_pending w3 e = queue_pending w2 e) /\
             (forall e, (e < length w3.(queues))%nat <-> (e < length w2.(queues))%nat))
  end.
Proof.
  intros Hw Hid. destruct (path_exists id Hid) as (p & Ep).
  assert (Hother : forall id', port_id id' -> id' <> id -> exists p', path_for id' = Ret p' /\ p' <> p).
  { intros id' Hid' Hne. destruct (path_exists id' Hid') as (p' & Ep'). exists p'. split; [done|]. intros ->.
    apply Hne. by eapply path_inj. }
  assert (Ereg : forall w, local_registered w id = w.(names) !! p) by (intros w0; unfold local_registered; by rewrite Ep).
  unfold create. rewrite Ereg, Ep. cbn [outcome_bind]. destruct (w.(names) !! p) eqn:En; [done|].
  eexists _, _. split; [done|]. cbn [management].
  set (q0 := CQ.fixed_size_default DEFAULT_CAPACITY).
  assert (Hq0 : CQ.repr q0 []) by (apply CQ.cq_new_repr; unfold DEFAULT_CAPACITY; lia).
  assert (Hnew : (w.(queues) ++ [q0]) !! length w.(queues) = Some q0) by (by rewrite lookup_app_r, Nat.sub_diag by lia).
  split_and!.
  - split; cbn.
    + apply Forall_app. split; [apply Hw|]. constructor; [|done]. split; [done|eauto].
    + intros p' e [[_ <-]|[_ E]]%lookup_insert_Some; rewrite length_app; cbn; [lia|]. apply (wok_names _ Hw) in E. lia.
    + intros p1 p2 e [[<- <-]|[Hn1 E1]]%lookup_insert_Some [[<- E]|[Hn2 E2]]%lookup_insert_Some; [done| | |by eapply (wok_distinct _ Hw)].
      * apply (wok_names _ Hw) in E2. lia.
      * subst e. apply (wok_names _ Hw) in E1. lia.
  - unfold local_signals. cbn. clear. induction w.(queues) as [|q qs IH]; [done|]. cbn. lia.
  - lia.
  - rewrite Ereg. cbn. by rewrite lookup_insert_eq.
  - by eapply pending_repr.
  - intros id' Hid' Hne. destruct (Hother id' Hid' Hne) as (p' & Ep' & Hp). unfold local_registered. rewrite Ep'. cbn.
    by rewrite lookup_insert_ne.
  - intros e Hne. unfold queue_pending. cbn. destruct (decide (e < length w.(queues))%nat).
    + by rewrite lookup_app_l.
    + rewrite !lookup_ge_None_2; [done|lia|rewrite length_app; cbn; lia].
  - intros w2 Hw2 _. eexists. split; [done|]. split_and!; cbn.
    + split; cbn; [apply Hw2| |].
      * intros p' e [_ E]%lookup_delete_Some. by eapply (wok_names _ Hw2).
      * intros p1 p2 e [_ E1]%lookup_delete_Some [_ E2]%lookup_delete_Some. by eapply (wok_distinct _ Hw2).
    + rewrite Ereg. cbn. apply lookup_delete_eq.
    + intros id' Hid' Hne. destruct (Hother id' Hid' Hne) as (p' & Ep' & Hp). unfold local_registered. rewrite Ep'. cbn.
      by rewrite lookup_delete_ne.
    + done.
    + done.
Qed.

#[export] Instance process_local_laws : EventLaws world Duplex.
Proof.
  refine {| nameable := port_id; event_ok := world_ok; event_of := management;
    known := fun w e => (e < length w.(queues))%nat; registered := local_registered; pending := queue_pending;
    limit := DEFAULT_CAPACITY; signals := local_signals |}.
  - intros w id e Hw. unfold local_registered. destruct (path_for id); [|done]. apply (wok_names _ Hw).
  - intros w id id' e Hw Hid Hid'. unfold local_registered.
    destruct (path_exists id Hid) as (p & Ep), (path_exists id' Hid') as (p' & Ep'). rewrite Ep, Ep'. intros E E'.
    pose proof (wok_distinct _ Hw _ _ _ E E') as <-. by eapply path_inj.
  - intros w id Hw Hid. destruct (path_exists id Hid) as (p & Ep). unfold event_open, local_registered. cbn. unfold open.
    rewrite Ep. cbn [outcome_bind]. destruct (w.(names) !! p); eexists; (split; [done|]); [by eexists|done].
  - exact notify_ok.
  - exact wait_ok.
  - exact create_drop_ok.
Defined.

End process_local.

(** ** Threads *)

Section threads.
Context `{Profile}.

(** The condition variable of an event: the condition is that the queue is not empty. *)
#[export] Instance event_queue : CV.Guarded (CQ.Queue Z) Z bool (option Z) := {|
  CV.predicate q := negb (CQ.is_empty q);
  CV.modifier id q := CQ.push q id;
  CV.consume q := CQ.pop q;
  CV.admissible q := q.(CQ.start) + 1 <? 2 ^ 64;
|}.

(** The ids that were accepted. *)
Definition accepted (ms : list (Z * bool)) : list Z := (filter (fun m => m.2 = true) ms).*1.

#[export] Instance event_queue_laws : CV.GuardedLaws (CQ.Queue Z) Z bool (option Z).
Proof.
  refine {| CV.related ms cs q := q.(CQ.capacity) = DEFAULT_CAPACITY /\
      exists l, CQ.repr q l /\ Some <$> accepted ms = cs ++ (Some <$> l);
    CV.pending q := q.(CQ.len) |}.
  - intros ms cs q m (Hc & l & Hr & E) Ha%Z.ltb_lt. cbn.
    destruct (CQ.push_ok q l m Hr Ha) as (b & q' & l' & -> & Hr' & Esp & _ & Hc'). exists b, q'. split; [done|].
    destruct (CQ.repr_len _ _ Hr) as [El _], (CQ.repr_len _ _ Hr') as [El' _]. unfold spec_push in Esp.
    rewrite El, El'. unfold accepted. rewrite filter_app, fmap_app, fmap_app.
    destruct (_ <? _); injection Esp as -> ->; (split; [split; [congruence|]; eexists; split; [done|]|]).
    + fold (accepted ms). rewrite E, fmap_app, app_assoc. done.
    + rewrite zlength_app. change (zlength [m]) with 1. lia.
    + fold (accepted ms). rewrite E. by rewrite app_nil_r.
    + lia.
  - intros ms cs q (Hc & l & Hr & E) Hp. cbn in *. destruct (CQ.repr_len _ _ Hr) as [El _]. unfold CQ.is_empty in Hp.
    rewrite El in Hp. destruct l as [|v l]; [done|]. destruct (CQ.pop_cons q v l Hr) as (q' & -> & Hr' & _ & Hc').
    destruct (CQ.repr_len _ _ Hr') as [El' _]. exists (Some v), q'. split; [done|]. split.
    + split; [congruence|]. exists l. split; [done|]. by rewrite E, <-app_assoc.
    + rewrite El, El', zlength_cons. lia.
  - intros ms cs q (Hc & l & Hr & E) Hp. cbn in *. unfold CQ.is_empty in Hp. apply negb_false_iff, Z.eqb_eq in Hp. lia.
  - intros ms cs q (Hc & l & Hr & E). destruct (CQ.repr_len _ _ Hr) as [El _]. rewrite El. apply zlength_nonneg.
Defined.

(** C18: notifying and waiting at the same time.  Any number of threads notify an event and
    wait for it, with and without a timeout, in any interleaving of their critical
    sections, signals and wake-ups.  Nobody panics; the ids that were accepted are,
    in the same order, those that were received and those still pending; and when all
    signals were sent and all woken threads have looked, nobody sleeps while an id is
    pending, unless a timed wait has thrown a wake-up away. *)
Theorem event_wakes_listener n s :
  rtc (act_step CV.act) (CV.begin (CQ.fixed_size_default DEFAULT_CAPACITY) n) s ->
  exists (g : CV.state (CQ.Queue Z) Z bool (option Z)) ps ids, s = Some (g, ps) /\ CQ.repr g.(CV.value) ids /\
    Some <$> accepted g.(CV.modified) = g.(CV.consumed) ++ (Some <$> ids) /\
    (existsb CV.is_asleep ps = true -> Forall (fun p => CV.active p = 0) ps -> g.(CV.wasted) = 0 -> ids = []).
Proof.
  intros Hr.
  assert (H0 : CV.related [] [] (CQ.fixed_size_default DEFAULT_CAPACITY)).
  { cbn. split; [done|]. exists []. split; [apply CQ.cq_new_repr; unfold DEFAULT_CAPACITY; lia|done]. }
  destruct (CV.no_lost_wakeup _ _ _ H0 Hr) as (g & ps & -> & (_ & ids & Hids & E) & Hs).
  exists g, ps, ids. split_and!; [done..|]. intros H1 H2 H3. specialize (Hs H1 H2 H3). cbn in Hs.
  destruct (CQ.repr_len _ _ Hids) as [El _]. unfold CQ.is_empty in Hs. rewrite El in Hs.
  apply negb_false_iff, Z.eqb_eq in Hs. by apply zlength_zero.
Qed.

End threads.

(** A listener sleeps, is woken by the first of two notifications and receives an id. *)
Lemma event_wakes_listener_witness : exists (g : CV.state (CQ.Queue Z) Z bool (option Z)) ps ids,
  rtc (act_step (CV.act (H := @event_queue dev))) (CV.begin (CQ.fixed_size_default DEFAULT_CAPACITY) 3) (Some (g, ps)) /\
  accepted g.(CV.modified) = [7; 8] /\ CQ.repr g.(CV.value) ids /\
  Some <$> [7; 8] = g.(CV.consumed) ++ (Some <$> ids).
Proof.
  destruct (run_schedule (CV.act (H := @event_queue dev))
    [(0, CV.Wait None); (1, CV.Notify false 7%Z); (1, CV.Signal (Some 0)); (2, CV.Notify false 8%Z);
     (2, CV.Signal None); (0, CV.Resume 1)]%nat
    (CV.begin (CQ.fixed_size_default DEFAULT_CAPACITY) 3)) as [s|] eqn:E; [|vm_compute in E; discriminate E].
  pose proof (run_schedule_reachable _ _ _ _ E) as Hr.
  destruct (@event_wakes_listener dev 3 s Hr) as (g & ps & ids & Es & Hids & Eq & _). subst s.
  assert (Ea : accepted g.(CV.modified) = [7; 8]) by (vm_compute in E; injection E as <- _; reflexivity).
  rewrite Ea in Eq. exists g, ps, ids. split; [exact Hr|]. split; [exact Ea|]. split; [exact Hids|exact Eq].
Defined.

(** A timed wait can throw a wake-up away.  Two threads wait for an event, one of them
    with a timeout.  The signal of a notification wakes the timed one, which finds that its
    time is up and returns without looking at the queue; the other one goes on
    sleeping although an id is pending and nobody is about to wake it. *)
Theorem event_timed_wait_wastes_wakeup : exists g,
  rtc (act_step (CV.act (H := @event_queue dev))) (CV.begin (CQ.fixed_size_default DEFAULT_CAPACITY) 3)
    (Some (g, [CV.Asleep None; CV.Waited None; CV.Modified true])) /\
  CQ.is_empty g.(CV.value) = false.
Proof.
  destruct (run_schedule (CV.act (H := @event_queue dev))
    [(0, CV.Wait None); (1, CV.Wait (Some 5%Z)); (2, CV.Notify false 7%Z); (2, CV.Signal (Some 1)); (1, CV.Resume 5)]%nat
    (CV.begin (CQ.fixed_size_default DEFAULT_CAPACITY) 3)) as [[[g ps]|]|] eqn:E; [|vm_compute in E; discriminate E..].
  assert (Hg : ps = [CV.Asleep None; CV.Waited None; CV.Modified true] /\ CQ.is_empty g.(CV.value) = false)
    by (vm_compute in E; injection E as <- <-; split; reflexivity).
  destruct Hg as [-> Hp]. exists g. split; [by eapply run_schedule_reachable|exact Hp].
Qed.

End EventConcept.
