(* ===== verification/Connections.v ===== *)
(** * Connection slots

    Subscribers and notifiers follow the list of the ports on the other side in the same
    way ([iceoryx2::port::subscriber], [iceoryx2::port::notifier]): they keep one slot per
    possible port, in the order of the list, and whenever the list has changed they fill
    the slots of new ports and clear the slots of the ports that have left.  The file has
    the steps both share, and what they amount to. *)

From S2P Require Import Prelude UniqueIndexSet Container.

Module Connections.
Module C := Container.

Section slots.
Context {T E : Type}.

(** How to connect to a port, and whether a failure to do so ends the update. *)
Context (connect : Z -> outcome (Result T E)) (stop : Z -> E -> bool).
Implicit Types (slots : list (option T)) (visited : list (option Z)).

(** No slot is connected. *)
(* src/iceoryx2/src/port/details/publisher_connections.rs:101-113 PublisherConnections::new *)
Definition empty (capacity : Z) : list (option T) := replicate (Z.to_nat capacity) None.

(** A slot that is occupied is left alone. *)
(* src/iceoryx2/src/port/details/publisher_connections.rs:132-142 create *)
Definition create slots (i id : Z) : outcome (Result unit E * list (option T)) :=
  let! slot := index slots i in
  match slot with
  | Some _ => Ret (Ok tt, slots)
  | None =>
      let! r := connect id in
      match r with
      | Err e => Ret (Err e, slots)
      | Ok c => let! slots := update slots i (Some c) in Ret (Ok tt, slots)
      end
  end.

(** The connection, if any, is dropped. *)
(* src/iceoryx2/src/port/details/publisher_connections.rs:144-146 remove *)
Definition remove slots (i : Z) : outcome (list (option T)) := update slots i None.

(** [visited_indices[index as usize] = Some( *id)] for every entry of the list. *)
Fixpoint visit visited (entries : list (Z * Z)) : outcome (list (option Z)) :=
  match entries with
  | [] => Ret visited
  | (i, id) :: entries => let! visited := update visited i (Some id) in visit visited entries
  end.

(** [for (i, index) in visited_indices.iter().enumerate()], beginning with [i]. *)
Fixpoint populate_loop (i : Z) visited slots : outcome (Result unit E * list (option T)) :=
  match visited with
  | [] => Ret (Ok tt, slots)
  | Some id :: visited =>
      let! '(r, slots) := create slots i id in
      match r with
      | Ok _ => populate_loop (i + 1) visited slots
      | Err e => if stop id e then Ret (Err e, slots) else populate_loop (i + 1) visited slots
      end
  | None :: visited =>
      let! slots := remove slots i in
      populate_loop (i + 1) visited slots
  end.

(** One update of the slots from the entries of the list. *)
Definition populate (entries : list (Z * Z)) slots : outcome (Result unit E * list (option T)) :=
  let! visited := visit (replicate (length slots) None) entries in
  populate_loop 0 visited slots.

(** ** What an update amounts to *)

(** The result of connecting, when connecting returns at all. *)
Context (connected : Z -> Result T E).

(** What becomes of one slot; [inr] when the update ends there. *)
Definition attempt (port : option Z) (slot : option T) : option T + E :=
  match port, slot with
  | None, _ => inl None
  | Some _, Some c => inl (Some c)
  | Some id, None =>
      match connected id with
      | Ok c => inl (Some c)
      | Err e => if stop id e then inr e else inl None
      end
  end.

Fixpoint populated visited slots : Result unit E * list (option T) :=
  match visited, slots with
  | port :: visited, slot :: slots =>
      match attempt port slot with
      | inl slot => let '(r, slots) := populated visited slots in (r, slot :: slots)
      | inr e => (Err e, slot :: slots)
      end
  | _, _ => (Ok tt, slots)
  end.

(** The slots after an update that does not end early. *)
Definition updated (port : option Z) (slot : option T) : option T :=
  match port, slot with
  | None, _ => None
  | Some _, Some c => Some c
  | Some id, None => match connected id with Ok c => Some c | Err _ => None end
  end.

Lemma slots_loop_ok visited : forall before slots,
  (forall id, Some id ∈ visited -> connect id = Ret (connected id)) -> (length visited <= length slots)%nat ->
  populate_loop (zlength before) visited (before ++ slots) =
    Ret (let '(r, slots) := populated visited slots in (r, before ++ slots)).
Proof.
  induction visited as [|port visited IH]; intros before slots Hc Hl; [by destruct slots|].
  destruct slots as [|slot slots]; [cbn in Hl; lia|].
  assert (Hi : index (before ++ slot :: slots) (zlength before) = Ret slot).
  { apply index_lookup; [apply zlength_nonneg|]. unfold zlength. by rewrite Nat2Z.id, lookup_app_r, Nat.sub_diag by lia. }
  assert (Hu : forall o, update (before ++ slot :: slots) (zlength before) o = Ret (before ++ o :: slots)).
  { intros o. pose proof (zlength_nonneg before). rewrite update_ok by (rewrite zlength_app, zlength_cons; pose proof (zlength_nonneg slots); lia).
    unfold zlength. by rewrite Nat2Z.id, insert_app_r_alt, Nat.sub_diag by lia. }
  assert (Hnext : forall o, populate_loop (zlength before + 1) visited (before ++ o :: slots) =
    Ret (let '(r, slots) := populated visited slots in (r, before ++ o :: slots))).
  { intros o. specialize (IH (before ++ [o]) slots). rewrite zlength_app, <-app_assoc in IH.
    change (zlength [o]) with 1 in IH. cbn [app] in IH. rewrite IH.
    - destruct (populated visited slots). by rewrite <-app_assoc.
    - intros id Hid. apply Hc. by right.
    - cbn in Hl. lia. }
  cbn [populate_loop populated attempt]. destruct port as [id|].
  - unfold create. rewrite Hi. cbn [outcome_bind]. destruct slot as [c|].
    + cbn [outcome_bind]. rewrite Hnext. by destruct (populated visited slots).
    + rewrite Hc by (by left). cbn [outcome_bind attempt]. destruct (connected id) as [c|e]; cbn [outcome_bind].
      * rewrite Hu. cbn [outcome_bind]. rewrite Hnext. by destruct (populated visited slots).
      * destruct (stop id e); [done|]. rewrite Hnext. by destruct (populated visited slots).
  - unfold remove. rewrite Hu. cbn [outcome_bind]. rewrite Hnext. by destruct (populated visited slots).
Qed.

(** An update that never ends early treats every slot by itself. *)
Lemma populated_all visited slots :
  (forall id e, Some id ∈ visited -> connected id = Err e -> stop id e = false) -> (length slots <= length visited)%nat ->
  populated visited slots = (Ok tt, zip_with updated visited slots).
Proof.
  revert slots. induction visited as [|port visited IH]; intros [|slot slots] Hs Hl; [done|cbn in Hl; lia|done|].
  cbn [populated]. assert (attempt port slot = inl (updated port slot)) as ->.
  { destruct port as [id|], slot as [c|]; cbn; try done. destruct (connected id) eqn:Ec; [done|].
    rewrite (Hs id) by (by left || done). done. }
  rewrite IH; [done| |cbn in Hl; lia]. intros id e Hid. apply Hs. by right.
Qed.

End slots.

(** The ids of the list at their indices. *)
Definition ports (l : Container Z) (n : nat) : list (option Z) := (fun j => C.view l (Z.of_nat j)) <$> seq 0 n.

Lemma visit_ok (view : Z -> option Z) (n : nat) : forall i visited, 0 <= i -> i + Z.of_nat n <= zlength visited ->
  visit visited (omap (fun j => (fun v => (j, v)) <$> view j) (seqZ i (Z.of_nat n))) =
    Ret (imap (fun j old => if bool_decide (i <= Z.of_nat j < i + Z.of_nat n)
                            then match view (Z.of_nat j) with Some v => Some v | None => old end else old) visited).
Proof.
  induction n as [|n IH]; intros i visited Hi Hn.
  { change (Ret visited = Ret (imap (fun j old => if bool_decide (i <= Z.of_nat j < i + Z.of_nat 0)
      then match view (Z.of_nat j) with Some v => Some v | None => old end else old) visited)).
    f_equal. symmetry. apply list_eq. intros j. rewrite list_lookup_imap. destruct (visited !! j) as [old|]; [cbn|done].
    by rewrite bool_decide_eq_false_2 by lia. }
  rewrite seqZ_cons by lia. replace (Z.pred (Z.of_nat (S n))) with (Z.of_nat n) by lia. rewrite <-Z.add_1_r. cbn.
  assert (Hgo : forall visited', zlength visited' = zlength visited ->
    (forall j, visited' !! j = if decide (Z.of_nat j = i) then (fun old => match view i with Some v => Some v | None => old end) <$> visited !! j
                               else visited !! j) ->
    visit visited' (omap (fun j => (fun v => (j, v)) <$> view j) (seqZ (i + 1) (Z.of_nat n))) =
    Ret (imap (fun j old => if bool_decide (i <= Z.of_nat j < i + Z.of_nat (S n))
                            then match view (Z.of_nat j) with Some v => Some v | None => old end else old) visited)).
  { intros visited' El Hv. rewrite IH by lia. f_equal. apply list_eq. intros j. rewrite !list_lookup_imap, Hv.
    case_decide as Ej; destruct (visited !! j) as [old|]; cbn; try done; f_equal.
    - rewrite bool_decide_eq_false_2, bool_decide_eq_true_2 by lia. by rewrite Ej.
    - destruct (decide (i + 1 <= Z.of_nat j < i + 1 + Z.of_nat n)).
      + by rewrite !bool_decide_eq_true_2 by lia.
      + by rewrite !bool_decide_eq_false_2 by lia. }
  destruct (view i) as [v|] eqn:Ev; cbn.
  - rewrite update_ok by lia. cbn. apply Hgo; [apply zlength_insert|]. intros j. case_decide as Ej.
    + subst i. rewrite Nat2Z.id. destruct (visited !! j) eqn:E; cbn.
      * apply list_lookup_insert_eq. by eapply lookup_lt_Some.
      * apply lookup_ge_None_2. rewrite length_insert. by apply lookup_ge_None_1.
    + by rewrite list_lookup_insert_ne by lia.
  - apply Hgo; [done|]. intros j. case_decide; [|done]. by destruct (visited !! j).
Qed.

(** An update of slots that belong to the list. *)
Lemma populate_ok {T E} (connect : Z -> outcome (Result T E)) stop connected (l : Container Z) slots :
  zlength slots = l.(C.capacity) -> (forall id, (exists j, C.view l j = Some id) -> connect id = Ret (connected id)) ->
  populate connect stop (C.elements l) slots = Ret (populated stop connected (ports l (length slots)) slots).
Proof.
  intros Hl Hc. unfold populate, C.elements. rewrite <-Hl. unfold zlength at 1. rewrite visit_ok by (unfold zlength; rewrite ?length_replicate; lia).
  cbn [outcome_bind].
  assert (imap _ _ = ports l (length slots)) as ->.
  { apply list_eq. intros j. unfold ports. rewrite list_lookup_imap, list_lookup_fmap.
    destruct (decide (j < length slots)%nat).
    - rewrite lookup_replicate_2, lookup_seq_lt by done. cbn. rewrite bool_decide_eq_true_2 by lia. f_equal.
      by destruct (C.view l (Z.of_nat j)).
    - by rewrite !lookup_ge_None_2 by (rewrite ?length_replicate, ?length_seq; lia). }
  pose proof (slots_loop_ok connect stop connected (ports l (length slots)) [] slots) as Hloop. cbn [app] in Hloop.
  change (zlength (@nil (option T))) with 0 in Hloop.
  rewrite Hloop; [by destruct (populated _ _ _ _)| |].
  - intros id (j & Ej & _)%list_elem_of_fmap. apply Hc. by exists (Z.of_nat j).
  - unfold ports. by rewrite length_fmap, length_seq.
Qed.

Lemma ports_lookup l n j : (j < n)%nat -> ports l n !! j = Some (C.view l (Z.of_nat j)).
Proof. intros Hj. unfold ports. by rewrite list_lookup_fmap, lookup_seq_lt. Qed.

(** The ids of the list, in its order. *)
Lemma ports_ids l n : Z.of_nat n = l.(C.capacity) -> omap id (ports l n) = (C.elements l).*2.
Proof.
  intros En. unfold ports, C.elements. rewrite <-En. unfold seqZ. rewrite Nat2Z.id. induction (seq 0 n) as [|j js IH]; [done|].
  cbn. rewrite Z.add_0_r. destruct (C.view l (Z.of_nat j)); cbn; by rewrite IH.
Qed.

(** ** A concrete list

    Port 1 at index 0 of a list of two; then it is removed, and port 2 takes its place. *)

Definition example_list (n : nat) : outcome (Container Z) :=
  let! c := @C.fixed_size_default dev Z 48 2 in
  let! '(_, c) := @C.add dev Z c 1 in
  match n with
  | O => Ret c
  | S n =>
      let! c := @C.remove_raw_index dev Z c 0 in
      match n with O => Ret c | _ => let! '(_, c) := @C.add dev Z c 2 in Ret c end
  end.

(** What a port knows about the list before its first update. *)
Definition example_state : ContainerState Z :=
  {| current_index_set_head := 0; state_data := replicate 2 None; state_active_index := replicate 2 false |}.

Lemma example_list_ok : exists c used, example_list 0 = Ret c /\ C.wf c used /\ C.coherent c example_state /\
  c.(C.capacity) = 2 /\ example_state.(current_index_set_head) <> c.(C.index_set).(UniqueIndexSet.head) /\
  C.elements c = [(0, 1)] /\ (forall j, C.view c j = Some 1 \/ C.view c j = None).
Proof.
  destruct (C.fixed_size_default_ok (H := dev) (T := Z) 48 2) as (c & Ec & Hw & Ecap & Hv); [lia|].
  destruct (C.add_ok (H := dev) c [] 1 Hw) as (r & c1 & E1 & Ecap1 & Hr); [lia|].
  assert (El : example_list 0 = Ret c1) by (unfold example_list; rewrite Ec; cbn [outcome_bind]; rewrite E1; reflexivity).
  destruct r as [h|]; [|exfalso; destruct Hr as [_ Hr]; revert E1; vm_compute in Ec; injection Ec as <-; discriminate].
  destruct Hr as (i & Hh & _ & _ & _ & Hw1 & Hv1 & _).
  assert (Hne : example_state.(current_index_set_head) <> c1.(C.index_set).(UniqueIndexSet.head)).
  { intros E. apply (f_equal UniqueIndexSet.aba_of) in E. unfold C.version in Hv, Hv1. rewrite <-E, Hv in Hv1. discriminate. }
  exists c1, (i :: []). split; [exact El|]. split; [exact Hw1|]. split.
  { split; [split; rewrite Ecap1, Ecap; reflexivity|]. split; [rewrite Hv1, Hv; discriminate|]. intros E. by destruct Hne. }
  split; [congruence|]. split; [exact Hne|]. clear -El. vm_compute in El. injection El as <-. split; [reflexivity|].
  intros j. unfold C.view. cbn [C.active_index C.data]. destruct (Z.to_nat j) as [|[|k]]; cbn; auto.
Qed.

End Connections.
