(* ===== verification/Subscriber.v ===== *)
(** * The subscriber

    [iceoryx2::port::subscriber] with [port::details::publisher_connections]: a subscriber
    keeps a slot for every possible publisher of its service, in the order of the
    publisher list of the dynamic configuration, connects to the publishers it finds
    there and hands out the samples it receives.  A sample remembers the slot it came
    from; dropping it returns it to the publisher over the connection in that slot.

    The traffic over established connections interleaves the queue operations of the
    subscriber and of the publishers at the other ends; the update of the connections is
    a whole operation on the state of the subscriber. *)

From S2P Require Import Prelude QueueSpec UniqueIndexSet Container ZeroCopyConnection ShmAllocator Publisher DynamicConfig Connections.

Module Subscriber.
Module ZC := ZeroCopyConnection.
Module C := Container.
Module U := UniqueIndexSet.
Module D := DynamicConfig.DynamicConfig.
Module S := Connections.Connections.

(* src/iceoryx2_cal/src/shared_memory/mod.rs:90-97 SharedMemoryOpenError *)
Inductive SharedMemoryOpenError :=
| DoesNotExist | InsufficientPermissions | SizeIsZero | SizeDoesNotFit | WrongAllocatorSelected
| InternalError.

(* src/iceoryx2/src/port/details/publisher_connections.rs:38-42 ConnectionFailure *)
Inductive ConnectionFailure :=
| FailedToEstablishConnection (e : ZeroCopyCreationError)
| UnableToMapPublishersDataSegment (e : SharedMemoryOpenError).

(* src/iceoryx2/src/port/subscriber.rs:57-60 ReceiveError *)
Inductive ReceiveError := ExceedsMaxBorrowedSamples | ReceiveConnectionFailure (e : ConnectionFailure).

(* src/iceoryx2/src/port/subscriber.rs:73-75 SubscriberCreateError *)
Inductive SubscriberCreateError := ExceedsMaxSupportedSubscribers.

(** [channel] is the connection as both ends share it, [borrow_counter] the receiver's
    count, [data_start] the address at which the data segment of the publisher is mapped.
    The code does not keep [publisher_id]; nothing but the statements below reads it. *)
(* src/iceoryx2/src/port/details/publisher_connections.rs:53-57 Connection *)
Record Connection (Q R : Type) := {
  publisher_id : Z;
  channel : Management Q R;
  borrow_counter : Z;
  data_start : Z;
}.
Arguments publisher_id {Q R}.
Arguments channel {Q R}.
Arguments borrow_counter {Q R}.
Arguments data_start {Q R}.

(* src/iceoryx2/src/sample.rs:41-52 Sample *)
Record Sample := { channel_id : Z; ptr : Z }.

(* src/iceoryx2/src/port/subscriber.rs:87-95 Subscriber *)
Record Subscriber (Q R : Type) := {
  dynamic_config_guard : option (U.UniqueIndex (list bool));
  publisher_connections : list (option (Connection Q R));
  publisher_list_state : ContainerState Z;
}.
Arguments dynamic_config_guard {Q R}.
Arguments publisher_connections {Q R}.
Arguments publisher_list_state {Q R}.

Section operations.
Context `{Profile} {Q R : Type} `{OverflowFifo Q} `{IndexFifo R}.
Implicit Types (c : Connection Q R) (s : Subscriber Q R) (cs : list (option (Connection Q R))).

(** Creating the receiver of the connection to a publisher and mapping its data segment;
    what the degration callback answers, if there is one. *)
Context (create_receiver : Z -> Result (Management Q R) ZeroCopyCreationError).
Context (open_data_segment : Z -> Result Z SharedMemoryOpenError).
Context (degration_callback : option (Z -> DegrationAction)).

Definition set_connections s cs : Subscriber Q R :=
  {| dynamic_config_guard := s.(dynamic_config_guard); publisher_connections := cs;
     publisher_list_state := s.(publisher_list_state) |}.

Definition set_channel c m b : Connection Q R :=
  {| publisher_id := c.(publisher_id); channel := m; borrow_counter := b; data_start := c.(data_start) |}.

(* src/iceoryx2/src/port/details/publisher_connections.rs:60-90 Connection::new *)
Definition connection_new (id : Z) : Result (Connection Q R) ConnectionFailure :=
  match create_receiver id with
  | Err e => Err (FailedToEstablishConnection e)
  | Ok receiver =>
      match open_data_segment id with
      | Err e => Err (UnableToMapPublishersDataSegment e)
      | Ok start => Ok {| publisher_id := id; channel := receiver; borrow_counter := 0; data_start := start |}
      end
  end.

(** The callback decides whether a failure ends the update. *)
Definition gives_up (id : Z) (e : ConnectionFailure) : bool :=
  match degration_callback with
  | None => false
  | Some f => match f id with Ignore | Warn => false | Fail_ => true end
  end.

(* src/iceoryx2/src/port/subscriber.rs:178-219 populate_publisher_channels *)
Definition populate_publisher_channels s : outcome (Result unit ConnectionFailure * Subscriber Q R) :=
  let! entries := C.for_each s.(publisher_list_state) in
  let! '(r, cs) := S.populate (fun id => Ret (connection_new id)) gives_up entries s.(publisher_connections) in
  Ret (r, set_connections s cs).

(** [publishers] is the publisher list in the dynamic configuration. *)
(* src/iceoryx2/src/port/subscriber.rs:303-310 update_connections *)
Definition update_connections (publishers : Container Z) s
    : outcome (Result unit ConnectionFailure * Subscriber Q R) :=
  let! '(changed, st) := C.update_state publishers s.(publisher_list_state) in
  let s := {| dynamic_config_guard := s.(dynamic_config_guard);
              publisher_connections := s.(publisher_connections); publisher_list_state := st |} in
  if changed then populate_publisher_channels s else Ret (Ok tt, s).

(** The failure to connect to some publishers is only reported as a warning. *)
(* src/iceoryx2/src/port/subscriber.rs:100-153 new *)
Definition new (config : D.PublishSubscribe.DynamicConfig) (port_id : Z)
    : outcome (Result (Subscriber Q R) SubscriberCreateError * D.PublishSubscribe.DynamicConfig) :=
  let publisher_list := config.(D.PublishSubscribe.publishers) in
  let! st := C.get_state publisher_list in
  let s := {| dynamic_config_guard := None; publisher_connections := S.empty publisher_list.(C.capacity);
              publisher_list_state := st |} in
  let! '(_, s) := populate_publisher_channels s in
  let! '(r, config) := D.PublishSubscribe.add_subscriber_id config port_id in
  match r with
  | Some unique_index =>
      Ret (Ok {| dynamic_config_guard := Some unique_index; publisher_connections := s.(publisher_connections);
                 publisher_list_state := s.(publisher_list_state) |}, config)
  | None => Ret (Err ExceedsMaxSupportedSubscribers, config)
  end.

(* src/iceoryx2/src/port/subscriber.rs:221-251 receive_from_connection *)
Definition receive_from_connection (i : Z) c
    : outcome (Result (option Sample) ReceiveError * Connection Q R) :=
  let! '(r, m, b) := ZC.receive c.(channel) c.(borrow_counter) in
  let c := set_channel c m b in
  match r with
  | Ok None => Ret (Ok None, c)
  | Ok (Some relative_addr) =>
      let! absolute_address := relative_addr +u64 c.(data_start) in
      Ret (Ok (Some {| channel_id := i; ptr := absolute_address |}), c)
  | Err ReceiveWouldExceedMaxBorrowValue => Ret (Err ExceedsMaxBorrowedSamples, c)
  end.

(** [for id in 0..publisher_connections.len()], beginning with [id]. *)
(* src/iceoryx2/src/port/subscriber.rs:285-294 receive *)
Fixpoint receive_loop (id : Z) cs
    : outcome (Result (option Sample) ReceiveError * list (option (Connection Q R))) :=
  match cs with
  | [] => Ret (Ok None, [])
  | None :: cs => let! '(r, cs) := receive_loop (id + 1) cs in Ret (r, None :: cs)
  | Some c :: cs =>
      let! '(r, c) := receive_from_connection id c in
      match r with
      | Err e => Ret (Err e, Some c :: cs)
      | Ok (Some sample) => Ret (Ok (Some sample), Some c :: cs)
      | Ok None => let! '(r, cs) := receive_loop (id + 1) cs in Ret (r, Some c :: cs)
      end
  end.

(* src/iceoryx2/src/port/subscriber.rs:275-297 receive *)
Definition receive (publishers : Container Z) s
    : outcome (Result (option Sample) ReceiveError * Subscriber Q R) :=
  let! '(r, s) := update_connections publishers s in
  match r with
  | Err e => Ret (Err (ReceiveConnectionFailure e), s)
  | Ok _ =>
      let! '(r, cs) := receive_loop 0 s.(publisher_connections) in
      Ret (r, set_connections s cs)
  end.

(** One attempt to return the sample at [p] over the connection in slot [i]. *)
(* src/iceoryx2/src/port/subscriber.rs:160-166 release_sample *)
Definition try_release (i : Z) (p : Z) cs
    : outcome (Result unit ZeroCopyReleaseError * list (option (Connection Q R))) :=
  let! slot := index cs i in
  match slot with
  | Some c =>
      let! distance := p -u64 c.(data_start) in
      let! '(r, m, b) := ZC.release c.(channel) c.(borrow_counter) distance in
      let! cs := update cs i (Some (set_channel c m b)) in
      Ret (r, cs)
  | None => Ret (Ok tt, cs)
  end.

(** A refused sample is returned a second time by the argument of [fatal_panic!], which
    panics when that is refused as well. *)
(* src/iceoryx2/src/port/subscriber.rs:155-176 release_sample *)
Definition release_sample (i : Z) (p : Z) cs : outcome (list (option (Connection Q R))) :=
  let! '(r, cs) := try_release i p cs in
  match r with
  | Ok _ => Ret cs
  | Err RetrieveBufferFull =>
      let! '(r, cs) := try_release i p cs in
      match r with Ok _ => Ret cs | Err _ => Panic end
  end.

(* src/iceoryx2/src/sample.rs:72-74 drop *)
Definition drop_sample (x : Sample) cs : outcome (list (option (Connection Q R))) :=
  release_sample x.(channel_id) x.(ptr) cs.

End operations.

(** ** Traffic over existing connections

    The publishers send over the connections and take samples back while the subscriber
    receives samples and drops them.  Every queue operation is a step of its own: the
    sender of slot [i] is at [senders !! i] in [try_send] and remembers whether it has
    drained the retrieve channel since its last push; [scanning] is the slot that the
    loop of [receive] visits next, [retrying] the held sample of which the return was
    refused once.  [sent] and [taken] log the offsets that each publisher sent, and that
    it took back, either because the buffer overflowed or because the subscriber
    returned them. *)

Record traffic (Q R : Type) := {
  connections : list (option (Connection Q R));
  senders : list (ZC.sender_pc * bool);
  held : list Sample;
  scanning : option nat;
  retrying : option nat;
  sent : list (nat * Z);
  taken : list (nat * Z);
  panicked : bool;
}.
Arguments connections {Q R}.
Arguments senders {Q R}.
Arguments held {Q R}.
Arguments scanning {Q R}.
Arguments retrying {Q R}.
Arguments sent {Q R}.
Arguments taken {Q R}.
Arguments panicked {Q R}.

Inductive operation :=
| Send (i : nat) (offset : Z)
| SendStep (i : nat)
| Reclaim (i : nat)
| Receive
| ReceiveStep
| DropSample (k : nat)
| Retry.

Section traffic.
Context `{Profile} {Q R : Type} `{OverflowFifo Q} `{IndexFifo R}.
Implicit Types (c : Connection Q R) (t : traffic Q R) (m : Management Q R).

(** The sender of slot [i] moves on to [sd] with the channel [m]; it has pushed the
    offsets [s] and got back the offsets [k]. *)
Definition sender_moves t (i : nat) c m (sd : ZC.sender_pc * bool) (s k : list Z) : traffic Q R :=
  {| connections := <[i := Some (set_channel c m c.(borrow_counter))]> t.(connections);
     senders := <[i := sd]> t.(senders); held := t.(held); scanning := t.(scanning); retrying := t.(retrying);
     sent := t.(sent) ++ ((fun o => (i, o)) <$> s); taken := t.(taken) ++ ((fun o => (i, o)) <$> k);
     panicked := t.(panicked) |}.

Definition subscriber_moves t cs (h : list Sample) (sc re : option nat) : traffic Q R :=
  {| connections := cs; senders := t.(senders); held := h; scanning := sc; retrying := re;
     sent := t.(sent); taken := t.(taken); panicked := t.(panicked) |}.

Definition panic t : traffic Q R :=
  {| connections := t.(connections); senders := t.(senders); held := t.(held); scanning := t.(scanning);
     retrying := t.(retrying); sent := t.(sent); taken := t.(taken); panicked := true |}.

(** The first read of [try_send]. *)
(* src/iceoryx2_cal/src/zero_copy_connection/posix_shared_memory.rs:428-431 try_send *)
Definition send_start m (ptr : Z) : outcome ZC.sender_pc :=
  let! l := fifo_len m.(retrieve_channel) in
  let! space := fifo_capacity m.(retrieve_channel) -u64 l in
  Ret (ZC.SSpace ptr space).

(** The rest of [try_send], one queue operation at a time; the result of the push. *)
(* src/iceoryx2_cal/src/zero_copy_connection/posix_shared_memory.rs:431-449 try_send *)
Definition send_step m (pc : ZC.sender_pc)
    : outcome (Management Q R * ZC.sender_pc * option (Z * option Z)) :=
  match pc with
  | ZC.SIdle => Ret (m, ZC.SIdle, None)
  | ZC.SSpace ptr space =>
      let! n := ofifo_len m.(receive_channel) in
      let! required := m.(max_borrowed_samples) +u64 n in
      Ret (m, if space <=? required then ZC.SIdle
              else if m.(enable_safe_overflow) then ZC.SPush ptr else ZC.SFull ptr, None)
  | ZC.SFull ptr =>
      let! full := ofifo_is_full m.(receive_channel) in
      Ret (m, if full then ZC.SIdle else ZC.SPush ptr, None)
  | ZC.SPush ptr =>
      let! '(old, q) := ofifo_push m.(receive_channel) ptr in
      Ret (ZC.set_receive m q, ZC.SIdle, Some (ptr, old))
  end.

(** The positions of the channels stay below 2^63. *)
Definition narrow m : bool :=
  (ofifo_pushes m.(receive_channel) <? 2 ^ 63) && (fifo_pushes m.(retrieve_channel) <? 2 ^ 63).

Definition all_narrow t : bool :=
  forallb (fun o => match o with Some c => narrow c.(channel) | None => true end) t.(connections).

(** One more attempt to return the held sample [k]; [refused] is where a refusal leads. *)
Definition return_sample t (k : nat) (refused : traffic Q R -> traffic Q R) : option (traffic Q R) :=
  match t.(held) !! k with
  | Some x =>
      Some match try_release x.(channel_id) x.(ptr) t.(connections) with
           | Ret (Ok _, cs) => subscriber_moves t cs (delete k t.(held)) None None
           | Ret (Err _, cs) => refused (subscriber_moves t cs t.(held) None (Some k))
           | Panic => panic t
           end
  | None => None
  end.

(** [disciplined]: a sender starts to send only after it has drained the retrieve
    channel. *)
Definition act (disciplined : bool) (o : operation) t : option (traffic Q R) :=
  if t.(panicked) || negb (all_narrow t) then None else
  match o with
  | Send i v =>
      match t.(connections) !! i, t.(senders) !! i with
      | Some (Some c), Some (ZC.SIdle, d) =>
          if (negb disciplined || d) && (0 <=? v) && (v + c.(data_start) <? 2 ^ 64) then
            Some match send_start c.(channel) v with
                 | Ret pc => sender_moves t i c c.(channel) (pc, d) [] []
                 | Panic => panic t
                 end
          else None
      | _, _ => None
      end
  | SendStep i =>
      match t.(connections) !! i, t.(senders) !! i with
      | Some (Some c), Some (pc, d) =>
          Some match send_step c.(channel) pc with
               | Ret (m, pc, None) => sender_moves t i c m (pc, d) [] []
               | Ret (m, pc, Some (v, old)) => sender_moves t i c m (pc, false) [v] (option_list old)
               | Panic => panic t
               end
      | _, _ => None
      end
  | Reclaim i =>
      match t.(connections) !! i, t.(senders) !! i with
      | Some (Some c), Some (ZC.SIdle, d) =>
          Some match ZC.reclaim c.(channel) with
               | Ret (r, m) =>
                   sender_moves t i c m (ZC.SIdle, match r with None => true | Some _ => d end) [] (option_list r)
               | Panic => panic t
               end
      | _, _ => None
      end
  | Receive =>
      match t.(scanning), t.(retrying) with
      | None, None => Some (subscriber_moves t t.(connections) t.(held) (Some 0%nat) None)
      | _, _ => None
      end
  | ReceiveStep =>
      match t.(scanning) with
      | None => None
      | Some i =>
          match t.(connections) !! i with
          | None => Some (subscriber_moves t t.(connections) t.(held) None t.(retrying))
          | Some None => Some (subscriber_moves t t.(connections) t.(held) (Some (S i)) t.(retrying))
          | Some (Some c) =>
              Some match receive_from_connection (Z.of_nat i) c with
                   | Ret (r, c) =>
                       subscriber_moves t (<[i := Some c]> t.(connections))
                         (match r with Ok (Some x) => t.(held) ++ [x] | _ => t.(held) end)
                         (match r with Ok None => Some (S i) | _ => None end) t.(retrying)
                   | Panic => panic t
                   end
          end
      end
  | DropSample k =>
      match t.(scanning), t.(retrying) with
      | None, None => return_sample t k id
      | _, _ => None
      end
  | Retry =>
      match t.(retrying) with
      | Some k => return_sample t k panic
      | None => None
      end
  end.

Definition begin (cs : list (option (Connection Q R))) : traffic Q R :=
  {| connections := cs; senders := (fun _ => (ZC.SIdle, false)) <$> cs; held := []; scanning := None;
     retrying := None; sent := []; taken := []; panicked := false |}.

(** ** Lemmas *)

(** The offsets of one connection in a log, and among the held samples. *)
Definition offsets (i : nat) (l : list (nat * Z)) : list Z :=
  omap (fun '(j, v) => if decide (j = i) then Some v else None) l.

Definition held_offsets (i : nat) (start : Z) (l : list Sample) : list Z :=
  omap (fun x => if decide (x.(channel_id) = Z.of_nat i) then Some (x.(ptr) - start) else None) l.

#[local] Arguments offsets : simpl never.
#[local] Arguments held_offsets : simpl never.

(** The offset that a sender is about to push. *)
Definition pending (pc : ZC.sender_pc) : list Z :=
  match pc with ZC.SIdle => [] | ZC.SSpace v _ | ZC.SFull v | ZC.SPush v => [v] end.

(** A disciplined sender that has drained the retrieve channel may push one more sample. *)
Record connection_ok (disciplined : bool) (t : traffic Q R) (i : nat) c (sd : ZC.sender_pc * bool) : Prop := {
  co_wf : ZC.wf c.(channel) c.(borrow_counter);
  co_flight : disciplined = true ->
    ZC.in_flight c.(channel) c.(borrow_counter) + (if sd.2 then 1 else 0) <= fifo_capacity c.(channel).(retrieve_channel);
  co_pc : disciplined = true -> sd.1 <> ZC.SIdle -> sd.2 = true;
  co_held : zlength (held_offsets i c.(data_start) t.(held)) = c.(borrow_counter);
  co_range : Forall (fun v => 0 <= v /\ v + c.(data_start) < 2 ^ 64) (pending sd.1 ++ offsets i t.(sent));
  co_start : 0 <= c.(data_start);
  co_log : offsets i t.(sent) ≡ₚ
    ZC.received c.(channel) ++ held_offsets i c.(data_start) t.(held) ++ ZC.returned c.(channel) ++ offsets i t.(taken);
}.

Definition came_from (cs : list (option (Connection Q R))) (x : Sample) : Prop :=
  exists i c, x.(channel_id) = Z.of_nat i /\ cs !! i = Some (Some c).

Record Inv (disciplined : bool) (t : traffic Q R) : Prop := {
  inv_panicked : disciplined = true -> t.(panicked) = false /\ t.(retrying) = None;
  inv_connections : forall i c, t.(connections) !! i = Some (Some c) ->
    exists sd, t.(senders) !! i = Some sd /\ connection_ok disciplined t i c sd;
  inv_held : Forall (came_from t.(connections)) t.(held);
}.

Lemma offsets_app i l l' : offsets i (l ++ l') = offsets i l ++ offsets i l'.
Proof. apply omap_app. Qed.

Lemma offsets_own i (l : list Z) : offsets i ((fun o => (i, o)) <$> l) = l.
Proof. unfold offsets. induction l as [|v l IH]; cbn; [done|]. rewrite decide_True by done. by f_equal. Qed.

Lemma offsets_other i j (l : list Z) : i <> j -> offsets j ((fun o => (i, o)) <$> l) = [].
Proof. intros Hij. unfold offsets. induction l as [|v l IH]; cbn; [done|]. by rewrite decide_False. Qed.

Lemma offsets_one i v : offsets i [(i, v)] = [v].
Proof. apply (offsets_own i [v]). Qed.

Lemma offsets_one_other i j v : i <> j -> offsets j [(i, v)] = [].
Proof. apply (offsets_other i j [v]). Qed.

Lemma held_app i start l l' : held_offsets i start (l ++ l') = held_offsets i start l ++ held_offsets i start l'.
Proof. apply omap_app. Qed.

(** Dropping a sample removes its offset from those of its connection only. *)
Lemma held_delete i start l k x : l !! k = Some x ->
  held_offsets i start l ≡ₚ
    (if decide (x.(channel_id) = Z.of_nat i) then [x.(ptr) - start] else []) ++ held_offsets i start (delete k l).
Proof.
  intros Hk. rewrite <-(take_drop_middle l k x Hk) at 1. rewrite delete_take_drop, !held_app.
  change (x :: drop (S k) l) with ([x] ++ drop (S k) l). rewrite held_app.
  assert (E : held_offsets i start [x] = if decide (x.(channel_id) = Z.of_nat i) then [x.(ptr) - start] else [])
    by (unfold held_offsets; cbn; by case_decide).
  rewrite E. case_decide; cbn; [by rewrite Permutation_middle|done].
Qed.

(** A connection in which nothing moved. *)
Record like c c' : Prop := {
  li_id : c'.(publisher_id) = c.(publisher_id);
  li_start : c'.(data_start) = c.(data_start);
  li_borrow : c'.(borrow_counter) = c.(borrow_counter);
  li_wf : ZC.wf c'.(channel) c'.(borrow_counter);
  li_received : ZC.received c'.(channel) = ZC.received c.(channel);
  li_returned : ZC.returned c'.(channel) = ZC.returned c.(channel);
  li_capacity : fifo_capacity c'.(channel).(retrieve_channel) = fifo_capacity c.(channel).(retrieve_channel);
}.

(** A connection from which the sample [v] was received. *)
Record received_from c c' (v : Z) : Prop := {
  rf_id : c'.(publisher_id) = c.(publisher_id);
  rf_start : c'.(data_start) = c.(data_start);
  rf_borrow : c'.(borrow_counter) = c.(borrow_counter) + 1;
  rf_wf : ZC.wf c'.(channel) c'.(borrow_counter);
  rf_received : ZC.received c.(channel) = v :: ZC.received c'.(channel);
  rf_returned : ZC.returned c'.(channel) = ZC.returned c.(channel);
  rf_capacity : fifo_capacity c'.(channel).(retrieve_channel) = fifo_capacity c.(channel).(retrieve_channel);
}.

Definition slot_like (o o' : option (Connection Q R)) : Prop :=
  match o, o' with
  | Some c, Some c' => like c c'
  | None, None => True
  | _, _ => False
  end.

(** A connection with nothing to receive, although a sample may be borrowed. *)
Definition drained (o : option (Connection Q R)) : Prop :=
  match o with
  | Some c => ZC.received c.(channel) = [] /\ c.(borrow_counter) < c.(channel).(max_borrowed_samples)
  | None => True
  end.

(** A connection that can be received from. *)
Definition ready (o : option (Connection Q R)) : Prop :=
  match o with
  | Some c => ZC.wf c.(channel) c.(borrow_counter) /\ 0 <= c.(data_start) /\
      Forall (fun v => 0 <= v /\ v + c.(data_start) < 2 ^ 64) (ZC.received c.(channel))
  | None => True
  end.

Lemma like_refl c : ZC.wf c.(channel) c.(borrow_counter) -> like c c.
Proof. by split. Qed.

Lemma slots_like_refl cs : Forall ready cs -> Forall2 slot_like cs cs.
Proof. induction 1 as [|[c|] cs Hc _ IH]; constructor; try done. by apply like_refl, Hc. Qed.

Lemma receive_from_connection_ok i c : ready (Some c) ->
  exists r c', receive_from_connection i c = Ret (r, c') /\
    match r with
    | Ok None => like c c' /\ drained (Some c)
    | Ok (Some x) => exists v, received_from c c' v /\ x = {| channel_id := i; ptr := v + c.(data_start) |}
    | Err e => e = ExceedsMaxBorrowedSamples /\ like c c' /\ c.(borrow_counter) = c.(channel).(max_borrowed_samples)
    end.
Proof.
  intros (Hwf & Hs & Hr). unfold receive_from_connection.
  destruct (receive_ok c.(channel) c.(borrow_counter) Hwf)
    as (r & m & b & E & Hwf' & _ & Hret & _ & _ & Hrt & Hcase).
  rewrite E. cbn [outcome_bind]. destruct r as [[v|]|[]]; cbn.
  - destruct Hcase as [Hv ->]. rewrite Hv in Hr. apply Forall_cons in Hr as [[? ?] _]. rewrite uadd_ok by lia. cbn.
    eexists _, _. split; [done|]. exists v. split; [|done]. split; cbn; try done. by rewrite Hrt.
  - destruct Hcase as (Hv & Hv' & ->). eexists _, _. split; [done|]. split; [|split; [done|]].
    2: { unfold ZC.receive in E. destruct (_ <=? _) eqn:El in E; [done|lia]. }
    split; cbn; try done; [congruence|by rewrite Hrt].
  - eexists _, _. split; [done|]. destruct Hcase as (-> & -> & Hb). split; [done|]. split; [by split|done].
Qed.

(** Receiving serves the first connection that has a sample, unless one before it is at
    its limit. *)
Lemma receive_loop_ok cs : forall id, Forall ready cs ->
  exists r cs', receive_loop id cs = Ret (r, cs') /\
    match r with
    | Ok None => Forall2 slot_like cs cs' /\ Forall drained cs
    | Ok (Some x) => exists k c c' v, cs !! k = Some (Some c) /\ cs' !! k = Some (Some c') /\ received_from c c' v /\
        x = {| channel_id := id + Z.of_nat k; ptr := v + c.(data_start) |} /\
        Forall drained (take k cs) /\ length cs' = length cs /\
        forall j o o', j <> k -> cs !! j = Some o -> cs' !! j = Some o' -> slot_like o o'
    | Err e => e = ExceedsMaxBorrowedSamples /\ Forall2 slot_like cs cs' /\
        exists k c, cs !! k = Some (Some c) /\ Forall drained (take k cs) /\
          c.(borrow_counter) = c.(channel).(max_borrowed_samples)
    end.
Proof.
  induction cs as [|[c|] cs IH]; intros id Hr; cbn [receive_loop].
  - by eexists _, _.
  - apply Forall_cons in Hr as [Hc Hr]. destruct (receive_from_connection_ok id c Hc) as (r & c' & -> & Hcase). cbn.
    destruct r as [[x|]|e].
    + eexists _, _. split; [done|]. destruct Hcase as (v & Hv & ->). exists 0%nat, c, c', v. cbn.
      split_and!; try done; [by rewrite Z.add_0_r|]. intros [|j] o o' Hj Ho Ho'; [done|]. cbn in *.
      eapply Forall2_lookup_lr; [by apply slots_like_refl|done..].
    + destruct Hcase as [Hl Hd]. destruct (IH (id + 1) Hr) as (r & cs' & -> & Hcase). cbn.
      eexists _, _. split; [done|]. destruct r as [[x|]|e].
      * destruct Hcase as (k & c0 & c0' & v & H1' & H2' & Hv & -> & Hdr & Hlen & Hrest). exists (S k), c0, c0', v. cbn.
        split_and!; try done; [f_equal; lia|by constructor|by rewrite Hlen|].
        intros [|j] o o' Hj Ho Ho'; cbn in *; [by injection Ho as <-; injection Ho' as <-|eapply Hrest; [|done..]; lia].
      * destruct Hcase as [Hl' Hd']. by split; constructor.
      * destruct Hcase as (-> & Hl' & k & c0 & H1' & Hdr & Hb). split; [done|]. split; [by constructor|].
        exists (S k), c0. split; [done|]. by split; [constructor|].
    + destruct Hcase as (-> & Hl & Hb). eexists _, _. split; [done|]. split; [done|].
      split; [constructor; [done|by apply slots_like_refl]|]. by exists 0%nat, c.
  - apply Forall_cons in Hr as [_ Hr]. destruct (IH (id + 1) Hr) as (r & cs' & -> & Hcase). cbn.
    eexists _, _. split; [done|]. destruct r as [[x|]|e].
    + destruct Hcase as (k & c0 & c0' & v & H1' & H2' & Hv & -> & Hdr & Hlen & Hrest). exists (S k), c0, c0', v. cbn.
      split_and!; try done; [f_equal; lia|by constructor|by rewrite Hlen|].
      intros [|j] o o' Hj Ho Ho'; cbn in *; [by injection Ho as <-; injection Ho' as <-|eapply Hrest; [|done..]; lia].
    + destruct Hcase as [Hl' Hd']. by split; constructor.
    + destruct Hcase as (-> & Hl' & k & c0 & H1' & Hdr & Hb). split; [done|]. split; [by constructor|].
      exists (S k), c0. split; [done|]. by split; [constructor|].
Qed.

(** ** The invariant of the traffic *)

Lemma narrow_fits m : narrow m = true -> ZC.fits m.
Proof. unfold narrow, ZC.fits. rewrite andb_true_iff, !Z.ltb_lt. done. Qed.

Lemma all_narrow_fits t i c : all_narrow t = true -> t.(connections) !! i = Some (Some c) -> ZC.fits c.(channel).
Proof.
  intros Hn Hi. apply narrow_fits. unfold all_narrow in Hn. rewrite forallb_forall in Hn.
  apply (Hn (Some c)), list_elem_of_In, list_elem_of_lookup. by exists i.
Qed.

(** The effect of an operation on slot [i] and the samples held from it. *)
Lemma Inv_slot d t t' i c c' sd :
  Inv d t -> t.(connections) !! i = Some (Some c) -> t'.(connections) = <[i := Some c']> t.(connections) ->
  t'.(senders) !! i = Some sd -> (forall j, j <> i -> t'.(senders) !! j = t.(senders) !! j) ->
  (d = true -> t'.(panicked) = false /\ t'.(retrying) = None) ->
  (forall j start, j <> i -> held_offsets j start t'.(held) ≡ₚ held_offsets j start t.(held)) ->
  Forall (came_from t.(connections)) t'.(held) ->
  (forall j, j <> i -> offsets j t'.(sent) = offsets j t.(sent) /\ offsets j t'.(taken) = offsets j t.(taken)) ->
  connection_ok d t' i c' sd -> Inv d t'.
Proof.
  intros [_ Hc _] Hi Ecs Hsd Hse Hp Hh Hheld Hlog Hok. apply lookup_lt_Some in Hi as Hlt. split; [done| |].
  - intros j cj Hj. rewrite Ecs in Hj. destruct (decide (j = i)) as [->|Hne].
    + rewrite list_lookup_insert_eq in Hj by done. injection Hj as <-. by exists sd.
    + rewrite list_lookup_insert_ne in Hj by done. destruct (Hlog j Hne) as [E1 E2].
      destruct (Hc j cj Hj) as (sj & Esj & [Hwf Hf Hpc Hhj Hr Hs Hl]).
      exists sj. split; [by rewrite Hse|]. pose proof (Hh j cj.(data_start) Hne) as Hperm.
      split; rewrite ?E1, ?E2; try done.
      * rewrite <-Hhj. unfold zlength. by rewrite Hperm.
      * by rewrite Hl, Hperm.
  - eapply Forall_impl; [exact Hheld|]. intros x (j & cj & Ex & Hj). rewrite Ecs.
    destruct (decide (j = i)) as [->|Hne].
    + exists i. rewrite list_lookup_insert_eq by done. by eexists.
    + exists j, cj. by rewrite list_lookup_insert_ne.
Qed.

(** A step of the sender of slot [i]. *)
Lemma Inv_sender d t i c m sd0 sd s k :
  Inv d t -> t.(connections) !! i = Some (Some c) -> t.(senders) !! i = Some sd0 ->
  connection_ok d (sender_moves t i c m sd s k) i (set_channel c m c.(borrow_counter)) sd ->
  Inv d (sender_moves t i c m sd s k).
Proof.
  intros HI Hi Hsd Hok. eapply (Inv_slot d t _ i c _ sd); try done; cbn.
  - apply list_lookup_insert_eq. by eapply lookup_lt_Some.
  - intros j Hj. by apply list_lookup_insert_ne.
  - apply HI.
  - apply HI.
  - intros j Hj. by rewrite !offsets_app, !offsets_other, !app_nil_r.
Qed.

Lemma send_inv d t i v t' : Inv d t -> act d (Send i v) t = Some t' -> Inv d t'.
Proof.
  intros HI E. unfold act in E. destruct (_ || _) eqn:Hn; [done|].
  destruct (t.(connections) !! i) as [[c|]|] eqn:Hi; [|done..].
  destruct (t.(senders) !! i) as [[[] dr]|] eqn:Hsd; try done.
  destruct (_ && _ && _) eqn:Hg; [|done]. rewrite !andb_true_iff, orb_true_iff, negb_true_iff, Z.leb_le, Z.ltb_lt in Hg.
  destruct Hg as [[Hd Hv] Hv']. destruct (inv_connections _ _ HI i c Hi) as (sd & Esd & Hc).
  rewrite Hsd in Esd. injection Esd as <-. pose proof Hc as [Hwf Hf Hpc Hh Hr Hs Hl].
  pose proof (wf_bounds _ _ Hwf) as Hb. unfold send_start in E. rewrite fifo_len_ok in E by apply Hwf.
  unfold returned in Hb. rewrite outcome_bind_ret, usub_ok in E by lia. injection E as <-.
  eapply Inv_sender; [done..|]. split; cbn; rewrite ?app_nil_r; try done.
  - intros -> _. by destruct Hd.
  - by constructor.
Qed.

Lemma traffic_send_step_inv d t i t' : Inv d t -> act d (SendStep i) t = Some t' -> Inv d t'.
Proof.
  intros HI E. unfold act in E. destruct (_ || _) eqn:Hn; [done|].
  apply orb_false_iff in Hn as [_ Hn%negb_false_iff].
  destruct (t.(connections) !! i) as [[c|]|] eqn:Hi; [|done..].
  destruct (t.(senders) !! i) as [[pc dr]|] eqn:Hsd; [|done].
  destruct (inv_connections _ _ HI i c Hi) as (sd & Esd & [Hwf Hf Hpc Hh Hr Hs Hl]).
  rewrite Hsd in Esd. injection Esd as <-. cbn in Hf, Hpc, Hr.
  pose proof (wf_bounds _ _ Hwf) as Hb. pose proof (wf_borrow _ _ Hwf). pose proof (wf_width _ _ Hwf).
  pose proof (wf_size _ _ Hwf). pose proof (all_narrow_fits _ _ _ Hn Hi) as Hfit. unfold send_step in E.
  destruct pc as [|v space|v|v]; cbn in Hpc, Hr.
  - injection E as <-. eapply Inv_sender; [done..|]. split; cbn; rewrite ?app_nil_r; done.
  - rewrite ofifo_len_ok in E by apply Hwf. fold (received c.(channel)) in E. revert E. checked. intros [= <-].
    eapply Inv_sender; [done..|]. split; cbn; rewrite ?app_nil_r; try done.
    + intros Ed _. by apply Hpc.
    + apply Forall_cons in Hr as [Hv Hr]. destruct (_ <=? _); [done|]. destruct (enable_safe_overflow _); by constructor.
  - rewrite ofifo_is_full_ok in E by (apply Hwf || (unfold buffer_size, fits in *; lia)). injection E as <-.
    eapply Inv_sender; [done..|]. split; cbn; rewrite ?app_nil_r; try done.
    + intros Ed _. by apply Hpc.
    + apply Forall_cons in Hr as [Hv Hr]. destruct (_ =? _); [done|by constructor].
  - destruct (push_receive_ok c.(channel) c.(borrow_counter) v Hwf Hfit) as (old & q & Eq & Hwf' & Ert & Espec & Ebs & _).
    rewrite Eq in E. injection E as <-.
    pose proof (spec_push_overflow_length _ _ _ _ _ (proj2 (proj2 Hb)) (proj1 (proj1 Hb)) Espec) as (Hlen & _).
    pose proof (spec_push_overflow_perm _ _ _ _ _ Espec) as Hperm.
    eapply Inv_sender; [done..|]. split; cbn; rewrite ?offsets_app, ?offsets_own, ?offsets_one; try done.
    + intros Ed. specialize (Hf Ed). rewrite (Hpc Ed) in Hf by done. unfold in_flight in *. rewrite Ert. lia.
    + apply Forall_cons in Hr as [Hv Hr]. apply Forall_app. split; [done|by constructor].
    + rewrite Hl, Ert, (Permutation_app_comm _ [v]). cbn. rewrite (app_comm_cons (ZC.received c.(channel))).
      rewrite <-Hperm, <-app_assoc, (Permutation_app_comm (option_list old)). by rewrite <-!app_assoc.
Qed.

Lemma reclaim_inv d t i t' : Inv d t -> act d (Reclaim i) t = Some t' -> Inv d t'.
Proof.
  intros HI E. unfold act in E. destruct (_ || _) eqn:Hn; [done|].
  destruct (t.(connections) !! i) as [[c|]|] eqn:Hi; [|done..].
  destruct (t.(senders) !! i) as [[[] dr]|] eqn:Hsd; try done.
  destruct (inv_connections _ _ HI i c Hi) as (sd & Esd & [Hwf Hf _ Hh Hr Hs Hl]).
  rewrite Hsd in Esd. injection Esd as <-. cbn in Hf, Hr. unfold in_flight in Hf.
  destruct (reclaim_ok c.(channel) c.(borrow_counter) Hwf) as (r & m & Er & Hwf' & Hset & Hrx & Erx & Ebs & Espec & _).
  rewrite Er in E. injection E as <-. pose proof (wf_bounds _ _ Hwf) as Hb. pose proof (wf_size _ _ Hwf) as Es.
  pose proof (wf_borrow _ _ Hwf) as Hbo.
  assert (Ecap : fifo_capacity m.(retrieve_channel) = fifo_capacity c.(channel).(retrieve_channel)).
  { rewrite (wf_size _ _ Hwf'), Es, Ebs. unfold settings in Hset. congruence. }
  eapply Inv_sender; [done..|].
  destruct r as [v|]; [apply spec_pop_some in Espec|apply spec_pop_none in Espec as [Espec Espec']].
  - rewrite Espec in Hl, Hf. rewrite zlength_cons in Hf.
    split; cbn; rewrite ?offsets_app, ?offsets_one, ?app_nil_r; try done.
    + intros Ed. specialize (Hf Ed). unfold in_flight. rewrite Ecap, Erx. lia.
    + rewrite Hl, Erx. do 2 apply Permutation_app_head. cbn.
      rewrite !app_assoc. apply Permutation_cons_append.
  - split; cbn; rewrite ?offsets_app, ?app_nil_r; try done.
    + intros Ed. unfold in_flight. rewrite Ecap, Erx, Espec', Es. change (zlength (@nil Z)) with 0. lia.
    + by rewrite Hl, Erx, Espec, Espec'.
Qed.

Lemma connection_ready d t i c sd : connection_ok d t i c sd -> ready (Some c).
Proof.
  intros [Hwf _ _ _ Hr Hs Hl]. split; [done|]. split; [done|]. apply Forall_app in Hr as [_ Hr].
  rewrite Hl in Hr. by apply Forall_app in Hr as [Hr _].
Qed.

Lemma held_snoc i start l x : held_offsets i start (l ++ [x]) =
  held_offsets i start l ++ (if decide (x.(channel_id) = Z.of_nat i) then [x.(ptr) - start] else []).
Proof. rewrite held_app. f_equal. unfold held_offsets. cbn. by case_decide. Qed.

(** Nothing but the program counter of the subscriber moves. *)
Lemma Inv_same d t sc : Inv d t -> Inv d (subscriber_moves t t.(connections) t.(held) sc t.(retrying)).
Proof. intros [Hp Hc Hh]. split; cbn; try done. intros i c Hi. destruct (Hc i c Hi) as (sd & ? & []). by exists sd. Qed.

Lemma Inv_received d t i c r c' sc : Inv d t -> t.(connections) !! i = Some (Some c) ->
  receive_from_connection (Z.of_nat i) c = Ret (r, c') ->
  Inv d (subscriber_moves t (<[i := Some c']> t.(connections))
    (match r with Ok (Some x) => t.(held) ++ [x] | _ => t.(held) end) sc t.(retrying)).
Proof.
  intros HI Hi E. destruct (inv_connections _ _ HI i c Hi) as (sd & Esd & Hc).
  destruct (receive_from_connection_ok (Z.of_nat i) c (connection_ready _ _ _ _ _ Hc)) as (r' & c1 & E' & Hr).
  rewrite E in E'. injection E' as <- <-. destruct Hc as [Hwf Hf Hpc Hh Hra Hs Hl].
  assert (Hlike : like c c' -> Inv d (subscriber_moves t (<[i := Some c']> t.(connections)) t.(held) sc t.(retrying))).
  { intros [_ Es Eb Hwf' Erx Ert Ec]. eapply (Inv_slot d t _ i c c' sd); try done; [apply HI|apply HI|].
    split; cbn; unfold in_flight; rewrite ?Es, ?Eb, ?Erx, ?Ert, ?Ec; try done. by rewrite <-Eb. }
  destruct r as [[x|]|e]; [|apply Hlike, Hr..].
  destruct Hr as (v & [_ Est Eb Hwf' Erx Ert Ec] & ->). eapply (Inv_slot d t _ i c c' sd); try done; [apply HI|..].
  - intros j start Hj. cbn. rewrite held_snoc. cbn. rewrite decide_False by lia. by rewrite app_nil_r.
  - cbn. apply Forall_app. split; [apply HI|]. constructor; [|done]. by exists i, c.
  - unfold in_flight in Hf. rewrite Erx, zlength_cons in Hf.
    split; rewrite ?Est; cbn; rewrite ?held_snoc; cbn; rewrite ?decide_True by lia;
      replace (v + c.(data_start) - c.(data_start)) with v by lia; try done.
    + intros Ed. specialize (Hf Ed). unfold in_flight. rewrite Eb, Ec, Ert. lia.
    + rewrite zlength_app, Hh, Eb. done.
    + rewrite Hl, Erx, Ert. cbn. rewrite <-!app_assoc. cbn. by rewrite <-!Permutation_middle.
Qed.

Lemma receive_inv d t t' : Inv d t -> act d ReceiveStep t = Some t' -> Inv d t'.
Proof.
  intros HI E. unfold act in E. destruct (_ || _) eqn:Hn; [done|]. destruct t.(scanning) as [i|]; [|done].
  destruct (t.(connections) !! i) as [[c|]|] eqn:Hi; [|by injection E as <-; apply Inv_same..].
  destruct (inv_connections _ _ HI i c Hi) as (sd & Esd & Hc).
  destruct (receive_from_connection_ok (Z.of_nat i) c (connection_ready _ _ _ _ _ Hc)) as (r & c1 & E' & _).
  rewrite E' in E. injection E as <-. by eapply Inv_received.
Qed.

(** Returning a sample over the connection in its slot, over which it was received. *)
Lemma try_release_ok cs i c x : cs !! i = Some (Some c) -> x.(channel_id) = Z.of_nat i ->
  ZC.wf c.(channel) c.(borrow_counter) -> ZC.fits c.(channel) -> 0 < c.(borrow_counter) -> c.(data_start) <= x.(ptr) ->
  exists r m b, try_release x.(channel_id) x.(ptr) cs = Ret (r, <[i := Some (set_channel c m b)]> cs) /\
    ZC.wf m b /\ ZC.received m = ZC.received c.(channel) /\
    fifo_capacity m.(retrieve_channel) = fifo_capacity c.(channel).(retrieve_channel) /\
    match r with
    | Ok _ => ZC.returned m = ZC.returned c.(channel) ++ [x.(ptr) - c.(data_start)] /\ b = c.(borrow_counter) - 1
    | Err _ => ZC.returned m = ZC.returned c.(channel) /\ b = c.(borrow_counter) /\
        zlength (ZC.returned m) = fifo_capacity c.(channel).(retrieve_channel)
    end.
Proof.
  intros Hi Ex Hwf Hfit Hb Hp. unfold try_release. rewrite Ex.
  rewrite (index_lookup _ _ (Some c)) by (rewrite ?Nat2Z.id; done || lia). cbn [outcome_bind].
  rewrite usub_ok by lia. cbn [outcome_bind].
  destruct (zc_release_ok c.(channel) c.(borrow_counter) (x.(ptr) - c.(data_start)) Hwf Hfit Hb)
    as (r & m & b & -> & Hwf' & Hset & Erx & Ebs & _ & _ & Hcase). cbn [outcome_bind].
  apply lookup_lt_Some in Hi. rewrite update_ok by (unfold zlength; lia). rewrite Nat2Z.id. cbn [outcome_bind].
  assert (Ecap : fifo_capacity m.(retrieve_channel) = fifo_capacity c.(channel).(retrieve_channel)).
  { rewrite (wf_size _ _ Hwf'), (wf_size _ _ Hwf), Ebs. unfold settings in Hset. congruence. }
  eexists _, m, b. split_and!; try done. destruct r as [[]|[]]; [done|].
  destruct Hcase as (-> & -> & Hfull). done.
Qed.

Lemma return_inv d t k refused t' : Inv d t -> all_narrow t = true ->
  (forall t1, Inv false t1 -> (d = true -> False) -> Inv d (refused t1)) ->
  return_sample t k refused = Some t' -> Inv d t'.
Proof.
  intros HI Hn Hre E. unfold return_sample in E. destruct (t.(held) !! k) as [x|] eqn:Hk; [|done].
  destruct (proj1 (Forall_lookup _ _) (inv_held _ _ HI) k x Hk) as (i & c & Ex & Hi).
  destruct (inv_connections _ _ HI i c Hi) as (sd & Esd & Hc). pose proof Hc as [Hwf Hf Hpc Hh Hr Hs Hl].
  pose proof (held_delete i c.(data_start) t.(held) k x Hk) as Hd. rewrite decide_True in Hd by done.
  assert (Hb : zlength (held_offsets i c.(data_start) (delete k t.(held))) = c.(borrow_counter) - 1).
  { apply Permutation_length in Hd. unfold zlength in *. cbn in Hd. lia. }
  pose proof (zlength_nonneg (held_offsets i c.(data_start) (delete k t.(held)))).
  assert (Hp : c.(data_start) <= x.(ptr)).
  { apply Forall_app in Hr as [_ Hr]. rewrite Hl, Hd in Hr. rewrite !Forall_app in Hr.
    destruct Hr as (_ & [Hr _] & _). apply Forall_cons in Hr as [Hr _]. lia. }
  destruct (try_release_ok t.(connections) i c x Hi Ex Hwf (all_narrow_fits _ _ _ Hn Hi) ltac:(lia) Hp)
    as (r & m & b & Er & Hwf' & Erx & Ecap & Hcase). rewrite Er in E. unfold in_flight in Hf.
  destruct r as [[]|e]; injection E as <-.
  - destruct Hcase as [Ert ->]. eapply (Inv_slot d t _ i c _ sd); try done.
    + intros Ed. cbn. split; [by apply HI|done].
    + intros j start Hj. cbn. pose proof (held_delete j start t.(held) k x Hk) as Hdj.
      rewrite decide_False in Hdj by lia. by rewrite Hdj.
    + cbn. apply Forall_delete, HI.
    + split; cbn; try done.
      * intros Ed. specialize (Hf Ed). unfold in_flight. rewrite Ecap, Erx, Ert, zlength_app. change (zlength [_]) with 1. lia.
      * rewrite Hl, Hd, Erx, Ert. apply Permutation_app_head. cbn. by rewrite <-app_assoc, !Permutation_middle.
  - destruct Hcase as (Ert & -> & Hfull). pose proof (zlength_nonneg (received c.(channel))). apply Hre.
    2: { intros Ed. specialize (Hf Ed). rewrite <-Ert in Hf. destruct sd.2; lia. }
    assert (HI' : Inv false t).
    { destruct HI as [_ Hcs Hhs]. split; try done. intros j cj Hj. destruct (Hcs j cj Hj) as (sj & ? & []).
      exists sj. by split. }
    eapply (Inv_slot false t _ i c _ sd); try done; [apply HI'|].
    split; cbn; rewrite ?Erx, ?Ert; try done.
Qed.

Lemma subscriber_act_inv d t t' : act_step (act d) t t' -> Inv d t -> Inv d t'.
Proof.
  intros [[i v|i|i| | |k|] t1 E] HI;
    [by eapply send_inv|by eapply traffic_send_step_inv|by eapply reclaim_inv| |by eapply receive_inv|..].
  all: unfold act in E; destruct (_ || _) eqn:Hn; [done|]; apply orb_false_iff in Hn as [_ Hn%negb_false_iff].
  - destruct t.(scanning), t.(retrying) eqn:Ere; try done. injection E as <-. rewrite <-Ere. by apply Inv_same.
  - destruct t.(scanning), t.(retrying) eqn:Ere; try done. eapply return_inv; try done.
    intros t1' HI1 Hd. destruct d; [by destruct Hd|done].
  - destruct t.(retrying) eqn:Ere; [|done]. eapply return_inv; try done.
    intros t1' HI1 Hd. destruct d; [by destruct Hd|]. destruct HI1 as [_ Hcs Hhs]. split; cbn; try done.
    intros j cj Hj. destruct (Hcs j cj Hj) as (sj & ? & []). by exists sj.
Qed.

(** New connections: nothing has been sent yet. *)
Definition fresh (o : option (Connection Q R)) : Prop :=
  match o with
  | Some c => ZC.wf c.(channel) 0 /\ c.(borrow_counter) = 0 /\ 0 <= c.(data_start) /\
      ZC.received c.(channel) = [] /\ ZC.returned c.(channel) = []
  | None => True
  end.

Lemma subscriber_begin_inv d cs : Forall fresh cs -> Inv d (begin cs).
Proof.
  intros Hf. split; [done| |done]. intros i c Hi. destruct (proj1 (Forall_lookup _ _) Hf i _ Hi) as (Hwf & Eb & Hs & E1 & E2).
  cbn in Hi. exists (ZC.SIdle, false). split; [cbn; by rewrite list_lookup_fmap, Hi|].
  pose proof (wf_borrow _ _ Hwf). pose proof (wf_bounds _ _ Hwf). pose proof (wf_size _ _ Hwf).
  split; cbn; unfold ZC.in_flight; rewrite ?Eb, ?E1, ?E2; try done. change (zlength (@nil Z)) with 0. lia.
Qed.

Lemma subscriber_reachable_inv d cs t : Forall fresh cs -> rtc (act_step (act d)) (begin cs) t -> Inv d t.
Proof.
  intros Hf Hr. eapply (rtc_invariant (act_step (act d))); [exact (subscriber_act_inv d)|exact Hr|by apply subscriber_begin_inv].
Qed.

(** ** Properties *)

(** C6: Every sample is accounted for exactly once.  A subscriber that stays connected to
    any number of publishers receives and drops samples while the publishers send and
    take samples back, the queue operations of all of them interleaved in any order.
    Then for every connection the offsets its publisher has sent are, each exactly as
    often, those in the receive buffer, those of the samples the subscriber holds, those
    on their way back and those the publisher has taken back; the receiver's counter is
    the number of held samples, which never exceeds the maximum.  If every publisher
    drains the retrieve channel of a connection before it sends over it, nothing panics
    and every dropped sample is returned at the first attempt.  The channels see fewer
    than 2^63 pushes, and the samples lie below address 2^64. *)
Theorem subscriber_accounts_for_samples disciplined cs t : Forall fresh cs ->
  rtc (act_step (act disciplined)) (begin cs) t ->
  (disciplined = true -> t.(panicked) = false /\ t.(retrying) = None) /\
  forall i c, t.(connections) !! i = Some (Some c) ->
    offsets i t.(sent) ≡ₚ
      ZC.received c.(channel) ++ held_offsets i c.(data_start) t.(held) ++ ZC.returned c.(channel) ++ offsets i t.(taken) /\
    zlength (held_offsets i c.(data_start) t.(held)) = c.(borrow_counter) /\
    c.(borrow_counter) <= c.(channel).(max_borrowed_samples).
Proof.
  intros Hf Hr. pose proof (subscriber_reachable_inv disciplined cs t Hf Hr) as HI. split; [apply HI|]. intros i c Hi.
  destruct (inv_connections _ _ HI i c Hi) as (sd & _ & [Hwf _ _ Hh _ _ Hl]). split; [done|]. split; [done|].
  apply (wf_borrow _ _ Hwf).
Qed.

(** What [receive] returns when the list of publishers has not changed: the oldest sample
    of the first connected publisher, in the order of the publisher list, that has one,
    at the address of its data segment; an error when a connection before it has lent
    as many samples as it may; nothing only when all connections are empty. *)
Theorem subscriber_receives_first s publishers : Forall ready s.(publisher_connections) ->
  s.(publisher_list_state).(current_index_set_head) = publishers.(C.index_set).(U.head) ->
  forall create_receiver open_data_segment callback,
  exists r s', receive create_receiver open_data_segment callback publishers s = Ret (r, s') /\
    let cs := s.(publisher_connections) in
    match r with
    | Ok None => Forall drained cs
    | Ok (Some x) => exists k c c' v, cs !! k = Some (Some c) /\ s'.(publisher_connections) !! k = Some (Some c') /\
        received_from c c' v /\ x = {| channel_id := Z.of_nat k; ptr := v + c.(data_start) |} /\ Forall drained (take k cs)
    | Err e => e = ExceedsMaxBorrowedSamples /\ exists k c, cs !! k = Some (Some c) /\ Forall drained (take k cs) /\
        c.(borrow_counter) = c.(channel).(max_borrowed_samples)
    end.
Proof.
  intros Hr Hst cr ods cb. unfold receive, update_connections, C.update_state. rewrite Hst, Z.eqb_refl. cbn.
  destruct (receive_loop_ok s.(publisher_connections) 0 Hr) as (r & cs' & -> & Hcase). cbn. eexists _, _. split; [done|].
  destruct r as [[x|]|e].
  - destruct Hcase as (k & c & c' & v & ? & ? & ? & -> & ? & _). by exists k, c, c', v.
  - apply Hcase.
  - destruct Hcase as (-> & _ & k & c & ? & ? & ?). split; [done|]. by exists k, c.
Qed.

End traffic.

(** ** Following the list of publishers *)

Section update.
Context `{Profile} {Q R : Type} `{OverflowFifo Q} `{IndexFifo R}.
Context (create_receiver : Z -> Result (Management Q R) ZeroCopyCreationError).
Context (open_data_segment : Z -> Result Z SharedMemoryOpenError).
Context (degration_callback : option (Z -> DegrationAction)).
Implicit Types (s : Subscriber Q R) (cs : list (option (Connection Q R))).

(** C27: how the subscriber follows the list of publishers.  After [update_connections] its
    copy of the list is up to date.  If the list has changed, every slot belongs to the
    entry of the list with the same index: without an entry the connection is gone; a
    free slot holds a new connection to the publisher, or stays free if that fails; and an
    occupied slot keeps its connection.  If the list has not changed, nothing happens.
    The degration callback, if any, does not ask to fail. *)
Theorem subscriber_update_connections s publishers used :
  C.wf publishers used -> C.coherent publishers s.(publisher_list_state) ->
  zlength s.(publisher_connections) = publishers.(C.capacity) ->
  (forall f id, degration_callback = Some f -> f id <> Fail_) ->
  exists s', update_connections create_receiver open_data_segment degration_callback publishers s = Ret (Ok tt, s') /\
    C.for_each s'.(publisher_list_state) = Ret (C.elements publishers) /\
    forall j slot, s.(publisher_connections) !! j = Some slot -> s'.(publisher_connections) !! j = Some
      (if bool_decide (s.(publisher_list_state).(current_index_set_head) = publishers.(C.index_set).(U.head))
       then slot else S.updated (connection_new create_receiver open_data_segment) (C.view publishers (Z.of_nat j)) slot).
Proof.
  intros Hw Hco Hlen Hcb. unfold update_connections.
  destruct (C.update_state_ok publishers used _ Hw Hco) as (b & st & -> & Hco' & Hall & Hb & _). cbn [outcome_bind].
  assert (Hfe : C.for_each st = Ret (C.elements publishers)) by (eapply C.for_each_ok; [done|apply Hco'|done]).
  destruct b.
  - rewrite bool_decide_eq_false_2 by (intros E; by apply Hb in E). unfold populate_publisher_channels. cbn. rewrite Hfe. cbn.
    rewrite (S.populate_ok _ _ (connection_new create_receiver open_data_segment)) by done.
    rewrite S.populated_all.
    + cbn. eexists. split; [done|]. split; [done|]. intros j slot Hj. cbn. apply lookup_zip_with_Some.
      eexists _, slot. split; [done|]. split; [|done]. apply S.ports_lookup. by eapply lookup_lt_Some.
    + intros id e _ _. unfold gives_up. destruct degration_callback as [f|]; [|done].
      specialize (Hcb f id eq_refl). by destruct (f id).
    + unfold S.ports. by rewrite length_fmap, length_seq.
  - rewrite bool_decide_eq_true_2 by (by apply Hb). by eexists.
Qed.

End update.
(** ** Concrete runs

    Connections with a buffer of one sample and one borrowed sample; the data segment of
    publisher 1 is mapped at 8192, that of every other publisher at 4096. *)

#[local] Existing Instances ZC.O.overflow_queue_fifo ZC.I.index_queue_fifo.

Definition example_receiver (id : Z) : Result Mgmt ZeroCopyCreationError := Ok ZC.example_mgmt.
Definition example_segment (id : Z) : Result Z SharedMemoryOpenError := if id =? 1 then Ok 8192 else Ok 4096.
Definition example_update `{Profile} := update_connections example_receiver example_segment None.
Definition example_receive `{Profile} := receive example_receiver example_segment None.
Definition example_send `{Profile} : Mgmt -> Z -> _ := ZC.try_send.
Definition example_drop `{Profile} (x : Sample) (cs : list (option (Connection ZC.O.OverflowQueue ZC.I.IndexQueue))) :=
  drop_sample x cs.
#[local] Existing Instance ZC.example_profile.
Definition example_connection (id start : Z) : Connection _ _ :=
  {| publisher_id := id; channel := ZC.example_mgmt; borrow_counter := 0; data_start := start |}.

(** The publisher starts its second send while the subscriber returns the first sample. *)
Definition example_traffic : list operation :=
  [Reclaim 1; Send 1 64; SendStep 1; Receive; SendStep 1; ReceiveStep; ReceiveStep; Reclaim 1;
   Send 1 128; DropSample 0; SendStep 1; Receive; SendStep 1; Reclaim 1; ReceiveStep; ReceiveStep].

Lemma subscriber_accounts_for_samples_witness : exists t c,
  rtc (act_step (act (H := dev) true)) (begin [None; Some (example_connection 2 4096)]) t /\
  t.(connections) !! 1%nat = Some (Some c) /\ offsets 1 t.(sent) = [64; 128] /\ offsets 1 t.(taken) = [64] /\
  t.(held) = [{| channel_id := 1; ptr := 4224 |}] /\
  offsets 1 t.(sent) ≡ₚ
    ZC.received c.(channel) ++ held_offsets 1 c.(data_start) t.(held) ++ ZC.returned c.(channel) ++ offsets 1 t.(taken).
Proof.
  destruct (run_schedule (@act dev _ _ _ _ true) example_traffic
    (begin [None; Some (example_connection 2 4096)])) as [t|] eqn:E; [|vm_compute in E; discriminate E].
  pose proof (run_schedule_reachable _ _ _ _ E) as Hr. destruct ZC.example_mgmt_ok as (Hwf & Erx & Ert).
  assert (Hf : Forall fresh [None; Some (example_connection 2 4096)]).
  { constructor; [exact I|]. constructor; [|constructor]. split; [exact Hwf|]. split; [reflexivity|].
    split; [discriminate|]. split; [exact Erx|exact Ert]. }
  destruct (@subscriber_accounts_for_samples dev _ _ _ _ true _ t Hf Hr) as [_ Hc].
  assert (Hcs : exists c, t.(connections) !! 1%nat = Some (Some c) /\ offsets 1 t.(sent) = [64; 128] /\
    offsets 1 t.(taken) = [64] /\ t.(held) = [{| channel_id := 1; ptr := 4224 |}]).
  { vm_compute in E. injection E as <-. eexists. split; [reflexivity|]. split; [reflexivity|]. split; reflexivity. }
  destruct Hcs as (c & Hi & Es & Et & Eh). exists t, c. split; [exact Hr|]. split; [exact Hi|]. split; [exact Es|].
  split; [exact Et|]. split; [exact Eh|exact (proj1 (Hc 1%nat c Hi))].
Defined.

(** Without the drained retrieve channel the second part fails: the publisher reads the
    length of the retrieve channel, the subscriber moves samples from the receive buffer
    to the retrieve channel, and both attempts to return a sample are refused. *)
Definition undisciplined_traffic : list operation :=
  [Send 1 1; SendStep 1; SendStep 1; Receive; ReceiveStep; ReceiveStep;
   Send 1 2; SendStep 1; SendStep 1;
   Send 1 3; DropSample 0; Receive; ReceiveStep; ReceiveStep; SendStep 1; SendStep 1;
   Send 1 4; DropSample 0; Receive; ReceiveStep; ReceiveStep; SendStep 1; SendStep 1;
   DropSample 0; Receive; ReceiveStep; ReceiveStep; DropSample 0; Retry].

Theorem subscriber_panics_on_release : exists t,
  rtc (act_step (act (H := dev) false)) (begin [None; Some (example_connection 2 4096)]) t /\ t.(panicked) = true.
Proof.
  destruct (run_schedule (@act dev _ _ _ _ false) undisciplined_traffic
    (begin [None; Some (example_connection 2 4096)])) as [t|] eqn:E; [|vm_compute in E; discriminate E].
  exists t. split; [exact (run_schedule_reachable _ _ _ _ E)|].
  assert (Hp : option_map panicked (run_schedule (@act dev _ _ _ _ false) undisciplined_traffic
    (begin [None; Some (example_connection 2 4096)])) = Some true) by (vm_compute; reflexivity).
  rewrite E in Hp. by injection Hp.
Qed.

Lemma subscriber_receives_first_witness : exists r s',
  @example_receive dev (C.new_uninit 2)
    {| dynamic_config_guard := None; publisher_connections := [None; Some (example_connection 2 4096)];
       publisher_list_state := {| current_index_set_head := 0; state_data := []; state_active_index := [] |} |} = Ret (r, s') /\
  r = Ok None.
Proof.
  destruct ZC.example_mgmt_ok as (Hwf & Erx & Ert).
  destruct (@subscriber_receives_first dev _ _ _ _
    {| dynamic_config_guard := None; publisher_connections := [None; Some (example_connection 2 4096)];
       publisher_list_state := {| current_index_set_head := 0; state_data := []; state_active_index := [] |} |}
    (C.new_uninit 2)) with (create_receiver := example_receiver) (open_data_segment := example_segment)
    (callback := @None (Z -> DegrationAction)) as (r & s' & E & _).
  { constructor; [exact I|]. constructor; [|constructor]. split; [exact Hwf|]. split; [discriminate|].
    change (Forall (fun v => 0 <= v /\ v + 4096 < 2 ^ 64) (ZC.received ZC.example_mgmt)).
    rewrite Erx. constructor. }
  { reflexivity. }
  exists r, s'. split; [exact E|]. vm_compute in E. injection E as <- _. reflexivity.
Defined.

Definition no_connections : Subscriber _ _ :=
  {| dynamic_config_guard := None; publisher_connections := S.empty (T := Connection ZC.O.OverflowQueue ZC.I.IndexQueue) 2;
     publisher_list_state := S.example_state |}.

Lemma subscriber_update_connections_witness : exists c s',
  S.example_list 0 = Ret c /\ @example_update dev c no_connections = Ret (Ok tt, s') /\
  s'.(publisher_connections) !! 0%nat = Some (Some (example_connection 1 8192)).
Proof.
  destruct S.example_list_ok as (c1 & used & El & Hw1 & Hco & Ecap1 & _).
  destruct (subscriber_update_connections example_receiver example_segment None no_connections c1 _ Hw1 Hco)
    as (s' & E & _ & Hs); [rewrite Ecap1; reflexivity|discriminate|].
  exists c1, s'. split; [exact El|]. split; [exact E|]. rewrite (Hs 0%nat None eq_refl).
  clear -El. vm_compute in El. injection El as <-. reflexivity.
Defined.

(** A subscriber does not notice that a publisher has been replaced.  When a publisher
    leaves and another one takes its index between two updates, the occupied slot keeps
    the connection to the publisher that is gone, and the new one is never connected. *)
Theorem subscriber_keeps_stale_connection : exists c0 c2 s0 s2 c,
  S.example_list 0 = Ret c0 /\ @example_update dev c0 no_connections = Ret (Ok tt, s0) /\
  S.example_list 2 = Ret c2 /\ C.elements c2 = [(0, 2)] /\
  @example_update dev c2 s0 = Ret (Ok tt, s2) /\
  s2.(publisher_connections) = [Some c; None] /\ c.(publisher_id) = 1.
Proof. do 5 eexists. repeat (split; [vm_compute; reflexivity|]). vm_compute. reflexivity. Qed.

(** Samples outlive their connections.  The subscriber holds a sample of publisher 1 when
    the publisher leaves; the update drops the connection and with it the mapping of the
    data segment in which the sample lies.  After publisher 2 has taken the index,
    dropping the sample returns it over the connection to publisher 2: without overflow
    checks an offset that this publisher never sent ends up in its retrieve channel and
    the receiver's counter wraps around; with overflow checks the drop panics. *)
Theorem subscriber_returns_sample_to_wrong_publisher : exists c0 c1 c2 s0 m s1 x s2 s3 c,
  S.example_list 0 = Ret c0 /\ @example_update Prelude.release c0 no_connections = Ret (Ok tt, s0) /\
  (exists rest, s0.(publisher_connections) = Some (example_connection 1 8192) :: rest) /\
  @example_send Prelude.release ZC.example_mgmt 64 = Ret (Ok None, m) /\
  @example_receive Prelude.release c0
    (set_connections s0 [Some (set_channel (example_connection 1 8192) m 0); None]) = Ret (Ok (Some x), s1) /\
  x = {| channel_id := 0; ptr := 8256 |} /\
  S.example_list 1 = Ret c1 /\ @example_update Prelude.release c1 s1 = Ret (Ok tt, s2) /\
  s2.(publisher_connections) = [None; None] /\
  S.example_list 2 = Ret c2 /\ @example_update Prelude.release c2 s2 = Ret (Ok tt, s3) /\
  s3.(publisher_connections) = [Some (example_connection 2 4096); None] /\
  @example_drop Prelude.release x s3.(publisher_connections) = Ret [Some c; None] /\
  c.(publisher_id) = 2 /\ ZC.returned c.(channel) = [4160] /\ c.(borrow_counter) = 2 ^ 64 - 1 /\
  @example_drop dev x s3.(publisher_connections) = Panic.
Proof.
  do 10 eexists. repeat (split; [first [vm_compute; reflexivity|eexists; vm_compute; reflexivity]|]). vm_compute. reflexivity.
Qed.

End Subscriber.
