(* ===== verification/EventPorts.v ===== *)
(** * The ports of an event service

    [iceoryx2::port::notifier] and [iceoryx2::port::listener].  A notifier follows the list
    of listeners in the dynamic configuration of the service, as a subscriber follows the
    list of publishers, and signals an id to the events of all listeners; a listener owns
    an event and collects the ids signalled to it.  The ports are modelled over the
    interface [Event] and proved against its laws. *)

From S2P Require Import Prelude QueueSpec ByteString SemanticString SystemTypes UniqueIndexSet Container ContainerQueue UniqueSystemId NamedConcept StaticStorage DynamicConfig EventConcept Connections.

Module EventPorts.
Module C := Container.
Module U := UniqueIndexSet.
Module D := DynamicConfig.DynamicConfig.
Module S := Connections.Connections.

(* src/iceoryx2/src/port/notifier.rs:53-55 NotifierCreateError *)
Inductive NotifierCreateError := ExceedsMaxSupportedNotifiers.

(* src/iceoryx2/src/port/notifier.rs:67-69 NotifierConnectionUpdateFailure *)
Inductive NotifierConnectionUpdateFailure := OnlyPartialUpdate.

(* src/iceoryx2/src/port/listener.rs:48-51 ListenerCreateError *)
Inductive ListenerCreateError := ExceedsMaxSupportedListeners | ResourceCreationFailed.

(* src/iceoryx2/src/port/notifier.rs:138-145 Notifier *)
Record Notifier (N : Type) := {
  listener_connections : list (option N);
  listener_list_state : ContainerState Z;
  default_event_id : Z;
  notifier_guard : option (U.UniqueIndex (list bool));
}.
Arguments listener_connections {N}.
Arguments listener_list_state {N}.
Arguments default_event_id {N}.
Arguments notifier_guard {N}.

(* src/iceoryx2/src/port/listener.rs:63-69 Listener *)
Record Listener (N : Type) := {
  listener_guard : option (U.UniqueIndex (list bool));
  listener : N;
  cache : list Z;
}.
Arguments listener_guard {N}.
Arguments listener {N}.
Arguments cache {N}.

Section operations.
Context `{Profile} {W N : Type} `{Event W N}.
Implicit Types (s : Notifier N) (l : Listener N) (w : W).

Definition set_slots s slots st : Notifier N :=
  {| listener_connections := slots; listener_list_state := st; default_event_id := s.(default_event_id);
     notifier_guard := s.(notifier_guard) |}.

(** The first failure ends the update.  Dropping the connection to a listener has no
    effect on the event, which the listener owns. *)
(* src/iceoryx2/src/port/notifier.rs:203-227 populate_listener_channels *)
Definition populate_listener_channels w s : outcome (Result unit unit * Notifier N) :=
  let! entries := C.for_each s.(listener_list_state) in
  let! '(r, slots) := S.populate
    (fun listener_id => let! r := event_open listener_id w in
                        Ret (match r with Ok n => Ok n | Err _ => Err tt end))
    (fun _ _ => true) entries s.(listener_connections) in
  Ret (r, set_slots s slots s.(listener_list_state)).

(** [listeners] is the list of listeners in the dynamic configuration. *)
(* src/iceoryx2/src/port/notifier.rs:193-201 update_connections *)
Definition update_connections (listeners : Container Z) w s
    : outcome (Result unit NotifierConnectionUpdateFailure * Notifier N) :=
  let! '(changed, st) := C.update_state listeners s.(listener_list_state) in
  let s := set_slots s s.(listener_connections) st in
  if changed then
    let! '(r, s) := populate_listener_channels w s in
    match r with Ok _ => Ret (Ok tt, s) | Err _ => Ret (Err OnlyPartialUpdate, s) end
  else Ret (Ok tt, s).

(** The failure to connect to some listeners is only reported as a warning. *)
(* src/iceoryx2/src/port/notifier.rs:148-191 new *)
Definition notifier_new (config : D.Event.DynamicConfig) (port_id default_id : Z) w
    : outcome (Result (Notifier N) NotifierCreateError * D.Event.DynamicConfig) :=
  let listener_list := config.(D.Event.listeners) in
  let! st := C.get_state listener_list in
  let! '(r, config) := D.Event.add_notifier_id config port_id in
  match r with
  | None => Ret (Err ExceedsMaxSupportedNotifiers, config)
  | Some unique_index =>
      let! '(_, s) := populate_listener_channels w
        {| listener_connections := S.empty listener_list.(C.capacity); listener_list_state := st;
           default_event_id := default_id; notifier_guard := Some unique_index |} in
      Ret (Ok s, config)
  end.

(** [for i in 0..listener_connections.len()] over the remaining slots. *)
Fixpoint notify_loop (value : Z) (number_of_triggered_listeners : Z) (slots : list (option N)) w : outcome (Z * W) :=
  match slots with
  | [] => Ret (number_of_triggered_listeners, w)
  | None :: slots => notify_loop value number_of_triggered_listeners slots w
  | Some connection :: slots =>
      let! '(r, w) := event_notify connection value w in
      match r with
      | Err _ => notify_loop value number_of_triggered_listeners slots w
      | Ok _ =>
          let! n := number_of_triggered_listeners +u64 1 in
          notify_loop value n slots w
      end
  end.

(* src/iceoryx2/src/port/notifier.rs:243-268 notify_with_custom_event_id *)
Definition notify_with_custom_event_id (listeners : Container Z) (value : Z) s w
    : outcome (Result Z NotifierConnectionUpdateFailure * Notifier N * W) :=
  let! '(r, s) := update_connections listeners w s in
  match r with
  | Err e => Ret (Err e, s, w)
  | Ok _ =>
      let! '(n, w) := notify_loop value 0 s.(listener_connections) w in
      Ret (Ok n, s, w)
  end.

(* src/iceoryx2/src/port/notifier.rs:234-236 notify *)
Definition notify (listeners : Container Z) s w
    : outcome (Result Z NotifierConnectionUpdateFailure * Notifier N * W) :=
  notify_with_custom_event_id listeners s.(default_event_id) s w.

Definition set_cache l ids : Listener N :=
  {| listener_guard := l.(listener_guard); listener := l.(listener); cache := ids |}.

(** When the list of listeners is full, dropping the half-made port drops the event. *)
(* src/iceoryx2/src/port/listener.rs:72-111 new *)
Definition listener_new (config : D.Event.DynamicConfig) (port_id : Z) w
    : outcome (Result (Listener N) ListenerCreateError * D.Event.DynamicConfig * W) :=
  let! '(r, w) := event_create port_id w in
  match r with
  | Err _ => Ret (Err ResourceCreationFailed, config, w)
  | Ok event =>
      let! '(r, config) := D.Event.add_listener_id config port_id in
      match r with
      | Some unique_index =>
          Ret (Ok {| listener_guard := Some unique_index; listener := event; cache := [] |}, config, w)
      | None =>
          let! w := event_drop event w in
          Ret (Err ExceedsMaxSupportedListeners, config, w)
      end
  end.

(** [while let Some(id) = listener.try_wait()? { cache.push(id) }]; [None] when the fuel is
    used up. *)
(* src/iceoryx2/src/port/listener.rs:113-123 fill_cache *)
Fixpoint fill_cache (fuel : nat) l w : outcome (option (Result unit ListenerWaitError * Listener N * W)) :=
  match fuel with
  | O => Ret None
  | S fuel =>
      let! r := event_wait false l.(listener) w in
      match r with
      | None => Ret None
      | Some (Err e, w) => Ret (Some (Err e, l, w))
      | Some (Ok None, w) => Ret (Some (Ok tt, l, w))
      | Some (Ok (Some id), w) => fill_cache fuel (set_cache l (l.(cache) ++ [id])) w
      end
  end.

(* src/iceoryx2/src/port/listener.rs:136-141 try_wait *)
Definition try_wait (fuel : nat) l w : outcome (option (Result unit ListenerWaitError * Listener N * W)) :=
  fill_cache fuel (set_cache l []) w.

(** The two differ in the wait they call; [None] when it blocks. *)
(* src/iceoryx2/src/port/listener.rs:147-179 timed_wait, blocking_wait *)
Definition wait (fuel : nat) (blocking : bool) l w
    : outcome (option (Result unit ListenerWaitError * Listener N * W)) :=
  let l := set_cache l [] in
  let! r := event_wait blocking l.(listener) w in
  match r with
  | None => Ret None
  | Some (Err e, w) => Ret (Some (Err e, l, w))
  | Some (Ok None, w) => Ret (Some (Ok tt, l, w))
  | Some (Ok (Some id), w) => fill_cache fuel (set_cache l [id]) w
  end.

End operations.

(** ** Delivery *)

Section delivery.
Context `{Profile} {W N : Type} `{EventLaws W N}.
Implicit Types (s : Notifier N) (l : Listener N) (w : W).

(** The events of the connected slots. *)
Definition targets (slots : list (option N)) : list nat := omap (fmap event_of) slots.

Definition has_room w (e : nat) : bool := zlength (pending w e) <? limit.

(** What a signal does to the ids pending at an event. *)
Definition signalled w (v : Z) (e : nat) : list Z :=
  if has_room w e then pending w e ++ [v] else pending w e.

Lemma filter_ext_elem {A} (P Q : A -> Prop) `{!forall x, Decision (P x), !forall x, Decision (Q x)} (l : list A) :
  (forall x, x ∈ l -> P x <-> Q x) -> filter P l = filter Q l.
Proof.
  induction l as [|x l IH]; intros Hl; [done|]. rewrite !filter_cons, IH by (intros y Hy; apply Hl; by right).
  specialize (Hl x (list_elem_of_here _ _)). destruct (decide (P x)), (decide (Q x)); tauto || done.
Qed.

Lemma notify_loop_ok v slots : forall n w,
  event_ok w -> NoDup (targets slots) -> Forall (known w) (targets slots) ->
  signals w + zlength slots < 2 ^ 64 -> 0 <= n -> n + zlength slots < 2 ^ 64 ->
  exists w', notify_loop v n slots w = Ret (n + zlength (filter (fun e => has_room w e = true) (targets slots)), w') /\
    event_ok w' /\ (forall id, registered w' id = registered w id) /\ (forall e, known w' e <-> known w e) /\
    (forall e, pending w' e = if bool_decide (e ∈ targets slots) then signalled w v e else pending w e).
Proof.
  induction slots as [|slot slots IH]; intros n w Hw Hnd Hk Hs Hn Hb.
  { exists w. cbn. split; [by rewrite Z.add_0_r|]. split_and!; [done..|]. intros e. by rewrite bool_decide_eq_false_2 by (apply not_elem_of_nil). }
  rewrite zlength_cons in Hs, Hb. pose proof (zlength_nonneg slots). destruct slot as [c|]; [|cbn; apply IH; (done || lia)].
  change (targets (Some c :: slots)) with (event_of c :: targets slots) in *. cbn [notify_loop].
  apply NoDup_cons in Hnd as [Hnin Hnd]. apply Forall_cons in Hk as [Hkc Hk].
  destruct (law_notify w c v Hw Hkc ltac:(lia)) as (r & w1 & E & Hw1 & Hs1 & Hreg1 & Hk1 & Hr & Hother). rewrite E. cbn [outcome_bind].
  assert (Hroom : forall e, e ∈ targets slots -> has_room w1 e = has_room w e).
  { intros e He. unfold has_room. rewrite Hother; [done|]. by intros ->. }
  assert (Hfil : filter (fun e => has_room w1 e = true) (targets slots) = filter (fun e => has_room w e = true) (targets slots)).
  { apply filter_ext_elem. intros e He. by rewrite Hroom. }
  assert (Hpend : pending w1 (event_of c) = signalled w v (event_of c) /\ r = (if has_room w (event_of c) then Ok tt else Err FailedToDeliverSignal)).
  { unfold signalled, has_room. destruct (_ <? _); by injection Hr as -> ->. }
  destruct Hpend as [Hpend ->].
  assert (Hgo : forall m, 0 <= m -> m + zlength slots < 2 ^ 64 -> exists w', notify_loop v m slots w1 =
    Ret (m + zlength (filter (fun e => has_room w e = true) (targets slots)), w') /\
    event_ok w' /\ (forall id, registered w' id = registered w id) /\ (forall e, known w' e <-> known w e) /\
    (forall e, pending w' e = if bool_decide (e ∈ event_of c :: targets slots) then signalled w v e else pending w e)).
  { intros m Hm Hmb. destruct (IH m w1 Hw1 Hnd) as (w' & E' & Hw' & Hreg' & Hk' & Hp'); [|lia|done|done|].
    { eapply Forall_impl; [done|]. intros e. apply Hk1. }
    exists w'. rewrite Hfil in E'. split; [done|]. split; [done|]. split; [intros id; by rewrite Hreg', Hreg1|].
    split; [intros e; by rewrite Hk', Hk1|]. intros e. rewrite Hp'. destruct (decide (e = event_of c)) as [->|Hne].
    - rewrite bool_decide_eq_false_2 by done. rewrite bool_decide_eq_true_2 by (by left). done.
    - rewrite (bool_decide_ext _ (e ∈ event_of c :: targets slots)) by (rewrite elem_of_cons; naive_solver).
      case_bool_decide as He; [|by apply Hother]. unfold signalled.
      rewrite elem_of_cons in He. destruct He as [He|He]; [done|]. by rewrite (Hroom e He), Hother. }
  rewrite filter_cons. destruct (has_room w (event_of c)).
  - checked. destruct (Hgo (n + 1)) as (w' & E' & Hrest); [lia..|]. exists w'. split; [|done]. rewrite E'.
    rewrite decide_True, zlength_cons by done. do 2 f_equal. lia.
  - rewrite decide_False by done. apply Hgo; lia.
Qed.

Lemma fill_cache_ok ids : forall fuel l w,
  event_ok w -> known w (event_of l.(listener)) -> pending w (event_of l.(listener)) = ids -> (length ids < fuel)%nat ->
  exists w', fill_cache fuel l w = Ret (Some (Ok tt, set_cache l (l.(cache) ++ ids), w')) /\ event_ok w' /\
    (forall id, registered w' id = registered w id) /\ pending w' (event_of l.(listener)) = [] /\
    (forall e, e <> event_of l.(listener) -> pending w' e = pending w e).
Proof.
  induction ids as [|v ids IH]; intros [|fuel] l w Hw Hk Hp Hf; [cbn in Hf; lia| |cbn in Hf; lia|].
  - pose proof (law_wait w l.(listener) false Hw Hk) as Hl. rewrite Hp in Hl. cbn [fill_cache]. rewrite Hl. cbn [outcome_bind].
    exists w. rewrite app_nil_r. by destruct l.
  - pose proof (law_wait w l.(listener) false Hw Hk) as Hl. rewrite Hp in Hl.
    destruct Hl as (w1 & E & Hw1 & _ & Hreg1 & Hk1 & Hp1 & Hother1). cbn [fill_cache]. rewrite E. cbn [outcome_bind].
    destruct (IH fuel (set_cache l (l.(cache) ++ [v])) w1) as (w' & E' & Hw' & Hreg' & Hp' & Hother'); [done|by apply Hk1|done|cbn in Hf; lia|].
    exists w'. rewrite E'. cbn [set_cache listener cache] in *. rewrite <-app_assoc. split; [done|]. split; [done|].
    split; [intros id; by rewrite Hreg', Hreg1|]. split; [done|]. intros e He. by rewrite Hother', Hother1.
Qed.

(** The slots belong to the entries of the list: an occupied slot is connected to the
    listener at its index, if there is one; and when the notifier knows the current
    list, exactly the slots of the listeners are occupied. *)
Definition linked (listeners : Container Z) w s : Prop :=
  forall j slot, s.(listener_connections) !! j = Some slot ->
    (forall n id, slot = Some n -> C.view listeners (Z.of_nat j) = Some id -> registered w id = Some (event_of n)) /\
    (s.(listener_list_state).(current_index_set_head) = listeners.(C.index_set).(U.head) ->
     (is_Some slot <-> is_Some (C.view listeners (Z.of_nat j)))).

(** The events of all listeners of the list. *)
Definition listening w (listeners : Container Z) : list nat := omap (registered w) (C.elements listeners).*2.

Lemma targets_listening w listeners slots : zlength slots = listeners.(C.capacity) ->
  (forall j slot, slots !! j = Some slot -> event_of <$> slot = C.view listeners (Z.of_nat j) ≫= registered w) ->
  targets slots = listening w listeners.
Proof.
  intros Hl Hs. unfold listening. rewrite <-(S.ports_ids listeners (length slots)) by done. clear Hl.
  assert (Hf : Forall2 (fun port slot => event_of <$> slot = port ≫= registered w) (S.ports listeners (length slots)) slots).
  { apply Forall2_same_length_lookup. unfold S.ports. rewrite length_fmap, length_seq. split; [done|].
    intros j port slot Hp Hj. rewrite (Hs j slot Hj). pose proof (lookup_lt_Some _ _ _ Hj).
    change (S.ports listeners (length slots) !! j = Some port) in Hp. rewrite S.ports_lookup in Hp by done. by injection Hp as <-. }
  clear Hs. induction Hf as [|port slot ports slots' E _ IH]; [done|]. unfold targets in *. cbn.
  destruct port as [id|], slot as [n|]; cbn in E |- *; rewrite ?IH; try done.
  all: by rewrite <-E.
Qed.

Lemma update_connections_ok listeners used s w :
  C.wf listeners used -> C.coherent listeners s.(listener_list_state) ->
  zlength s.(listener_connections) = listeners.(C.capacity) -> event_ok w ->
  (forall j id, C.view listeners j = Some id -> nameable id /\ is_Some (registered w id)) -> linked listeners w s ->
  exists s', update_connections listeners w s = Ret (Ok tt, s') /\
    zlength s'.(listener_connections) = listeners.(C.capacity) /\
    targets s'.(listener_connections) = listening w listeners.
Proof.
  intros Hwf Hco Hlen Hw Hids Hlink. unfold update_connections.
  destruct (C.update_state_ok listeners used _ Hwf Hco) as (b & st & -> & Hco' & Hall & Hb & _). cbn [outcome_bind].
  assert (Hfe : C.for_each st = Ret (C.elements listeners)) by (eapply C.for_each_ok; [done|apply Hco'|done]).
  destruct b.
  - unfold populate_listener_channels. cbn [set_slots listener_list_state listener_connections]. rewrite Hfe. cbn [outcome_bind].
    set (connected := fun id => match event_open id w with Ret (Ok n) => Ok n | _ => Err tt end).
    assert (Hopen : forall j id, C.view listeners j = Some id -> exists n, event_open id w = Ret (Ok n) /\ Some (event_of n) = registered w id).
    { intros j id Hj. destruct (Hids j id Hj) as [Hn (e & Ee)]. destruct (law_open w id Hw Hn) as (r & Er & Hr).
      rewrite Ee in Hr. destruct Hr as (n & -> & En). exists n. split; [done|]. congruence. }
    rewrite (S.populate_ok _ _ connected) by
      (done || (intros id (j & Hj); destruct (Hopen j id Hj) as (n & En & _); unfold connected; by rewrite En)).
    rewrite S.populated_all.
    2: { intros id e (j & Hj & _)%list_elem_of_fmap Hc. destruct (Hopen _ id (eq_sym Hj)) as (n & En & _).
         unfold connected in Hc. by rewrite En in Hc. }
    2: { unfold S.ports. by rewrite length_fmap, length_seq. }
    assert (El : zlength (zip_with (S.updated connected) (S.ports listeners (length s.(listener_connections))) s.(listener_connections)) =
      listeners.(C.capacity)).
    { unfold zlength in *. rewrite length_zip_with. unfold S.ports. rewrite length_fmap, length_seq. lia. }
    cbn [outcome_bind]. eexists. split; [done|]. split; [done|]. cbn [listener_connections set_slots].
    apply targets_listening; [done|]. intros j slot (port & old & -> & Hp & Hj)%lookup_zip_with_Some.
    rewrite S.ports_lookup in Hp by (by eapply lookup_lt_Some). injection Hp as <-.
    destruct (C.view listeners (Z.of_nat j)) as [id|] eqn:Ev; [|done]. cbn. destruct old as [n|]; cbn.
    + symmetry. by apply (proj1 (Hlink j (Some n) Hj) n id).
    + destruct (Hopen _ id Ev) as (n & En & Ee). unfold connected. by rewrite En.
  - eexists. split; [done|]. split; [done|]. cbn. apply targets_listening; [done|]. intros j slot Hj.
    destruct (Hlink j slot Hj) as [Hl1 Hl2]. specialize (Hl2 (proj1 Hb eq_refl)).
    destruct slot as [n|], (C.view listeners (Z.of_nat j)) as [id|] eqn:Ev; cbn.
    + symmetry. by apply (Hl1 n id).
    + by destruct (proj1 Hl2 (ex_intro _ _ eq_refl)).
    + by destruct (proj2 Hl2 (ex_intro _ _ eq_refl)).
    + done.
Qed.

Lemma listening_elem w listeners e : e ∈ listening w listeners <->
  exists id, id ∈ (C.elements listeners).*2 /\ registered w id = Some e.
Proof. unfold listening. by rewrite list_elem_of_omap. Qed.

Lemma elements_view (listeners : Container Z) id : id ∈ (C.elements listeners).*2 -> exists j, C.view listeners j = Some id.
Proof.
  intros ((j & id') & -> & Hin)%list_elem_of_fmap. unfold C.elements in Hin.
  apply list_elem_of_omap in Hin as (i & _ & E). apply fmap_Some in E as (v & Ev & E). injection E as -> ->. by exists i.
Qed.

Lemma listening_nodup w listeners : event_ok w -> NoDup (C.elements listeners).*2 ->
  (forall j id, C.view listeners j = Some id -> nameable id) -> NoDup (listening w listeners).
Proof.
  intros Hw Hnd Hids. unfold listening.
  assert (Hall : Forall nameable (C.elements listeners).*2).
  { apply Forall_forall. intros id Hid. apply elements_view in Hid as (j & Hj). by eapply Hids. }
  induction Hnd as [|id ids Hnin _ IH]; [constructor|]. apply Forall_cons in Hall as [Hid Hall]. cbn.
  destruct (registered w id) as [e|] eqn:E; [|by apply IH]. constructor; [|by apply IH].
  intros (id' & Hin & E')%list_elem_of_omap. rewrite Forall_forall in Hall.
  assert (id = id') as -> by (eapply law_distinct; eauto). done.
Qed.

(** C10: a notification reaches every listener.  A notifier whose slots belong to the list of
    listeners first brings its connections up to date, whether the list has changed or
    not, and then signals the id to the event of every listener in the list: where the
    event has room the id is pending behind the ones before it, a full event stays as it
    is, no other event is touched, and the result is the number of events with room.
    Afterwards a listener collects exactly the pending ids of its event, in order. *)
Theorem event_ports_deliver listeners used s w v fuel :
  C.wf listeners used -> C.coherent listeners s.(listener_list_state) ->
  zlength s.(listener_connections) = listeners.(C.capacity) -> event_ok w -> linked listeners w s ->
  (forall j id, C.view listeners j = Some id -> nameable id /\ is_Some (registered w id)) ->
  NoDup (C.elements listeners).*2 -> signals w + listeners.(C.capacity) < 2 ^ 64 ->
  exists s' w', notify_with_custom_event_id listeners v s w =
      Ret (Ok (zlength (filter (fun e => has_room w e = true) (listening w listeners))), s', w') /\
    (forall e, pending w' e = if bool_decide (e ∈ listening w listeners) then signalled w v e else pending w e) /\
    (forall l id, registered w id = Some (event_of l.(listener)) ->
       (length (pending w' (event_of l.(listener))) < fuel)%nat ->
       exists l' w'', try_wait fuel l w' = Ret (Some (Ok tt, l', w'')) /\
         l'.(cache) = pending w' (event_of l.(listener)) /\ pending w'' (event_of l.(listener)) = []).
Proof.
  intros Hwf Hco Hlen Hw Hlink Hids Hnd Hs. unfold notify_with_custom_event_id.
  destruct (update_connections_ok listeners used s w) as (s' & -> & Hl' & Et); [done..|]. cbn [outcome_bind].
  destruct (notify_loop_ok v s'.(listener_connections) 0 w Hw) as (w' & -> & Hw' & Hreg & Hk & Hp).
  - rewrite Et. apply listening_nodup; [done..|]. intros j id Hj. by destruct (Hids j id Hj).
  - rewrite Et. apply Forall_forall. intros e (id & Hin & E)%listening_elem. by eapply law_registered.
  - lia.
  - lia.
  - pose proof (C.wf_cap_range _ _ Hwf). lia.
  - rewrite Et in *. cbn [outcome_bind]. exists s', w'. split; [done|]. split; [done|]. intros l id E Hf.
    unfold try_wait. destruct (fill_cache_ok (pending w' (event_of l.(listener))) fuel (set_cache l []) w') as (w'' & -> & _ & _ & Hp'' & _);
      [done| |done|done|].
    + apply Hk. by eapply law_registered.
    + by eexists _, w''.
Qed.

(** Creating a listener.  A new listener owns a fresh event without pending ids that is
    registered under its id, and its id is in the list of listeners; when the list is full
    the creation fails, the list is as before and the event that was made is removed
    again; when the event exists already, nothing changes. *)
Theorem event_listener_new config used id w :
  C.wf config.(D.Event.listeners) used -> C.version config.(D.Event.listeners) + 1 < 2 ^ 32 -> event_ok w -> nameable id ->
  exists r config' w', listener_new config id w = Ret (r, config', w') /\
    match r with
    | Ok l => registered w id = None /\ registered w' id = Some (event_of l.(listener)) /\ l.(cache) = [] /\
        pending w' (event_of l.(listener)) = [] /\ event_ok w' /\
        (forall e, e <> event_of l.(listener) -> pending w' e = pending w e) /\
        exists i, C.view config'.(D.Event.listeners) i = Some id /\ (i ∉ used) /\ C.wf config'.(D.Event.listeners) (i :: used)
    | Err ExceedsMaxSupportedListeners =>
        config' = config /\ zlength used = config.(D.Event.listeners).(C.capacity) /\ registered w' id = None /\
        (forall id', nameable id' -> registered w' id' = registered w id') /\
        (forall id' e, nameable id' -> registered w id' = Some e -> pending w' e = pending w e)
    | Err ResourceCreationFailed => config' = config /\ w' = w /\ is_Some (registered w id)
    end.
Proof.
  intros Hwf Hv Hw Hn. unfold listener_new. pose proof (law_create w id Hw Hn) as Hc.
  destruct (registered w id) as [e|] eqn:Er.
  { rewrite Hc. cbn [outcome_bind]. eexists _, _, _. split; [done|]. split_and!; [done..|by eexists]. }
  destruct Hc as (n & w1 & -> & Hw1 & _ & Hfresh & Hreg & Hp & Hother & Hpend & Hdrop). cbn [outcome_bind].
  unfold D.Event.add_listener_id.
  destruct (C.add_ok _ used id Hwf Hv) as (r & c' & -> & Hcap & Hr). cbn [outcome_bind]. destruct r as [h|].
  - eexists _, _, _. split; [done|]. destruct Hr as (i & Hi & _ & Hb & Hnin & Hwf' & _ & Hview). cbn.
    split_and!; try done. exists i. split; [|done]. rewrite Hview by lia. by rewrite decide_True.
  - destruct Hr as [-> Hfull]. destruct (Hdrop w1 Hw1 ltac:(done)) as (w2 & -> & _ & Hgone & Hother2 & Hpend2 & _).
    cbn [outcome_bind]. eexists _, _, _. split; [done|]. split; [by destruct config|]. split; [done|]. split; [done|]. split.
    + intros id' Hid'. destruct (decide (id' = id)) as [->|Hne]; [congruence|]. by rewrite Hother2, Hother.
    + intros id' e Hid' Ee. rewrite Hpend2. apply Hpend. intros ->. apply Hfresh. by eapply law_registered.
Qed.

End delivery.
(** ** Process-local events under their real names *)

Section paths.
Context `{Profile} (memory file_memory : list Z) (cfg : NamedConcept.NamedConceptConfiguration) (hint rest : list Z).

(** The path of the event of a listener. *)
Definition event_path (id : Z) : outcome (list Z) :=
  let! name := UniqueSystemId.event_concept_name file_memory id in
  StaticStorage.path_for memory cfg (as_bytes name).

(** The ids that processes give to their ports. *)
Definition is_port_id (id : Z) : Prop := in_range 128 id /\ 0 <= UniqueSystemId.pid id.

Hypothesis Hcfg : NamedConcept.cfg_ok cfg hint rest.
Hypothesis Hmemory : zlength memory = PATH_LENGTH.
Hypothesis Hfile_memory : zlength file_memory = FILENAME_LENGTH.
Hypothesis Hfits : zlength hint + 1 + zlength cfg.(NamedConcept.prefix) + 79 + zlength cfg.(NamedConcept.suffix) <= PATH_LENGTH.

Lemma event_path_ok id : is_port_id id -> event_path id =
  Ret (joined hint (NamedConcept.full_name cfg
    (UniqueSystemId.to_string (UniqueSystemId.pid id) ++ 95 :: UniqueSystemId.to_string id))).
Proof.
  intros [Hid Hpid]. unfold event_path, UniqueSystemId.event_concept_name. pose proof (UniqueSystemId.pid_range id Hpid) as Hp.
  destruct (UniqueSystemId.numbers_name_ok file_memory (UniqueSystemId.pid id) id) as (s & -> & Es & Hv); [done..|].
  cbn [outcome_bind]. unfold StaticStorage.path_for. rewrite Es in *.
  destruct (NamedConcept.path_for_ok cfg hint rest memory _ Hcfg Hv Hmemory) as (p & rest' & -> & Hr).
  - destruct (UniqueSystemId.to_string_ok _ Hp) as (a & Ea & _ & Hla & _), (UniqueSystemId.to_string_ok _ Hid) as (b & Eb & _ & Hlb & _).
    rewrite Ea, Eb. unfold joined, NamedConcept.full_name. destruct (_ || _);
      rewrite !zlength_app, !zlength_cons; change (zlength (@nil Z)) with 0; lia.
  - cbn [outcome_bind]. by rewrite (repr_bytes _ _ _ Hr).
Qed.

Lemma event_path_inj id id' p : is_port_id id -> is_port_id id' -> event_path id = Ret p -> event_path id' = Ret p -> id = id'.
Proof.
  intros Hid Hid'. rewrite !event_path_ok by done. intros Ea Eb. rewrite <-Ea in Eb. apply ret_inj in Eb as E. unfold joined, NamedConcept.full_name in E.
  apply app_inv_head, app_inv_head, app_inv_tail in E. symmetry in E.
  destruct Hid as [Hid Hpid], Hid' as [Hid' Hpid']. by apply UniqueSystemId.numbers_inj in E as [_ ?]; try apply UniqueSystemId.pid_range.
Qed.

(** The laws of the interface for the events of the ports. *)
Definition event_laws : @EventLaws _ _ (EventConcept.process_local_event event_path) :=
  EventConcept.process_local_laws event_path is_port_id
    (fun id Hid => ex_intro _ _ (event_path_ok id Hid)) event_path_inj.

End paths.

(** ** Concrete runs

    Events whose path is the id of their listener; the list of listeners is the example
    of Connections.v. *)

Definition path_of_id (id : Z) : outcome (list Z) := Ret [id].

#[local] Instance example_event : Event _ _ := @EventConcept.process_local_event dev path_of_id.

#[local] Instance example_laws : EventLaws _ _.
Proof.
  refine (@EventConcept.process_local_laws dev path_of_id (fun _ => True) (fun id _ => ex_intro _ [id] eq_refl) _).
  intros id id' p _ _ E E'. unfold path_of_id in *. congruence.
Defined.

Definition no_events : EventConcept.world := {| EventConcept.names := ∅; EventConcept.queues := [] |}.

(** A notifier without connections that has not looked at the list yet. *)
Definition example_notifier : Notifier EventConcept.Duplex :=
  {| listener_connections := [None; None]; listener_list_state := S.example_state; default_event_id := 7;
     notifier_guard := None |}.

Lemma no_events_ok : event_ok no_events.
Proof. split; [constructor| |]; intros p e; cbn; [by rewrite lookup_empty|]. intros e' E. by rewrite lookup_empty in E. Qed.

(** The event of listener 1. *)
Definition example_world : EventConcept.world :=
  {| EventConcept.names := {[ [1] := 0%nat ]}; EventConcept.queues := [ContainerQueue.fixed_size_default 2048] |}.

Lemma example_world_ok : event_ok example_world /\ registered example_world 1 = Some 0%nat /\
  pending example_world 0 = [].
Proof.
  pose proof (law_create no_events 1 no_events_ok I) as Hc. cbn in Hc.
  destruct Hc as (n & w & E & Hw & _ & _ & Hreg & Hp & _). injection E as <- <-. split; [exact Hw|]. split; [exact Hreg|exact Hp].
Qed.

Lemma event_ports_deliver_witness : exists c s' w' l' w'',
  S.example_list 0 = Ret c /\
  @notify_with_custom_event_id dev _ _ _ c 9 example_notifier example_world = Ret (Ok 1, s', w') /\
  try_wait 10 {| listener_guard := None; cache := [3];
    listener := {| EventConcept.path := [1]; EventConcept.management := 0; EventConcept.has_ownership := true |} |} w' =
    Ret (Some (Ok tt, l', w'')) /\ l'.(cache) = [9].
Proof.
  destruct S.example_list_ok as (c & used & El & Hwf & Hco & Hcap & Hne & Hel & Hview).
  destruct example_world_ok as (Hw & Hreg & Hp).
  destruct (@event_ports_deliver dev _ _ _ _ c used example_notifier example_world 9 10) as (s' & w' & E & Hpend & Hwait).
  - exact Hwf.
  - exact Hco.
  - rewrite Hcap. reflexivity.
  - exact Hw.
  - intros j slot Hj. split; [|intros E; by destruct Hne].
    intros n id -> _. destruct j as [|[|j]]; discriminate Hj.
  - intros j id Hj. split; [exact I|]. destruct (Hview j) as [Ev|Ev]; rewrite Ev in Hj; [|discriminate Hj].
    injection Hj as <-. by eexists.
  - rewrite Hel. apply NoDup_singleton.
  - rewrite Hcap. reflexivity.
  - assert (Hl : listening example_world c = [0%nat]) by (unfold listening; rewrite Hel; cbn [fmap list_fmap omap list_omap snd]; by rewrite Hreg).
    rewrite Hl in *. specialize (Hpend 0%nat) as Hp0. rewrite bool_decide_eq_true_2 in Hp0 by left.
    assert (Hs : signalled example_world 9 0 = [9]) by (unfold signalled, has_room; rewrite Hp; reflexivity).
    rewrite Hs in Hp0.
    destruct (Hwait {| listener_guard := None; cache := [3];
      listener := {| EventConcept.path := [1]; EventConcept.management := 0; EventConcept.has_ownership := true |} |} 1)
      as (l' & w'' & Ew & Ec & _); [exact Hreg|change (length (pending w' 0%nat) < 10)%nat; rewrite Hp0; cbn; lia|].
    exists c, s', w', l', w''. split; [exact El|]. split; [|split; [exact Ew|]].
    + assert (Hf : filter (fun e => has_room example_world e = true) [0%nat] = [0%nat]) by
        (rewrite filter_cons, decide_True; [reflexivity|]; unfold has_room; rewrite Hp; reflexivity).
      rewrite Hf in E. exact E.
    + rewrite Ec. exact Hp0.
Defined.

(** The list of the example with one more listener. *)
Lemma event_listener_new_witness : exists c r config' w',
  S.example_list 0 = Ret c /\
  @listener_new dev _ _ _ {| D.Event.listeners := c; D.Event.notifiers := c |} 5 example_world = Ret (r, config', w') /\
  match r with Ok l => pending w' (event_of l.(listener)) = [] | Err _ => True end.
Proof.
  destruct S.example_list_ok as (c & used & El & Hwf & _). destruct example_world_ok as (Hw & _).
  assert (Hv : C.version c + 1 < 2 ^ 32) by (clear -El; vm_compute in El; injection El as <-; reflexivity).
  destruct (@event_listener_new dev _ _ _ _ {| D.Event.listeners := c; D.Event.notifiers := c |} used 5 example_world)
    as (r & config' & w' & E & Hr); [exact Hwf|exact Hv|exact Hw|exact I|].
  exists c, r, config', w'. split; [exact El|]. split; [exact E|]. destruct r as [l|[]]; [apply Hr|exact I|exact I].
Defined.

(** A notifier does not notice that a listener has been replaced.  When listener 1 leaves
    and listener 2 takes its index between two notifications, the notifier keeps signalling
    the event of listener 1, reports one notified listener, and listener 2 receives
    nothing. *)
Theorem event_notifier_misses_listener : exists c0 c2 s1 w1 w2 l2 w3 s3 w4,
  S.example_list 0 = Ret c0 /\
  @notify dev _ _ _ c0 example_notifier example_world = Ret (Ok 1, s1, w1) /\
  event_drop {| EventConcept.path := [1]; EventConcept.management := 0; EventConcept.has_ownership := true |} w1 = Ret w2 /\
  event_create 2 w2 = Ret (Ok l2, w3) /\
  S.example_list 2 = Ret c2 /\ C.elements c2 = [(0, 2)] /\
  @notify dev _ _ _ c2 s1 w3 = Ret (Ok 1, s3, w4) /\
  pending w4 (event_of l2) = [].
Proof. do 9 eexists. repeat (split; [vm_compute; reflexivity|]). vm_compute. reflexivity. Qed.

End EventPorts.
